(* ===== verification/_CoqProject ===== *)
-Q . S2P
Prelude.v
CMem.v
Ctype.v
KString.v
Vsprintf.v
Format.v
Sscanf.v
Cmdline.v
Bitmap.v
Findbit.v
BitmapMap.v
Kfifo.v
BitmapText.v
Linear.v
Crc.v
Des.v
DesSpec.v
DesModes.v
Sort.v
HdIdle.v
Diskstats.v
Md4.v
Smb.v
RbSpec.v
Rbtree.v
RbRefine.v
RbErase.v
RbOps.v
ListHead.v
Timer.v
TimerWheel.v
TimerRun.v
TimerMain.v
Skb.v
Filter.v
FilterMain.v
Fragtree.v
FragRep.v
FragNodes.v
FragAdd.v
FragFile.v
FragFill.v
FragOld.v
FragInode.v
FragRead.v
FragKill.v
FragMain.v
Compr.v
Rtime.v
Rubin.v
RubinSpec.v
RubinMain.v
RubinBoot.v
ComprMain.v
