(* ===== verification/Prelude.v ===== *)
(** * Snake OS: a verification library for the firmware's core routines

    Snake OS is the firmware of a small network storage box: a Linux 2.6.16
    kernel, the U-Boot boot loader and a set of C programs, for an STR8132
    ARM processor.  The repository holds about eight million lines, nearly all
    of them vendored.  This library models the routines on which the rest
    leans and the small programs that are particular to the device, and
    proves what makes them correct.  It is a shallow embedding: C functions
    are Rocq functions, executable throughout, named after their source.

    ** Conventions

    The target is a 32-bit little-endian ARM with an unsigned plain [char].
    A [w]-bit integer is a [Z]; wrap-around is written out ([u8], [u32],
    [s32], [cshl], [cnot], all below).  Memory is a list of bytes, an address
    an index ([CMem]), and every access is checked.  Code that can fail
    returns an [outcome]: [Ret] with the result, or [Err] with [Fault] (an
    access outside of the memory given), [Bug] (a [BUG_ON], or an argument
    list that does not fit a format) or [Diverge] (a loop out of fuel).  A
    theorem that a routine equals [Ret x] therefore also says that it
    terminates and stays inside its memory.

    Fuel is chosen from the loop: the length of the string or memory for
    loops that advance one address, the number of digits for number printing,
    the number of nodes for the loops on red-black trees (twice that for
    taking a fragment tree apart and for reading a file), the number of
    timers for the loops over one list of the timer wheel and the ticks to
    catch up with for the wheel itself, the length of the program for a
    socket filter, two more than the
    binary logarithm of the number of elements for a sift
    of the heap sort (which makes the sort's own O(n log n) bound the
    termination argument), one more than the width of its register for the
    shifts of the arithmetic coder, the number of elements or blocks elsewhere.  Every
    theorem about a fuelled routine shows that the fuel is enough.

    Answers of code outside of the sources (the system calls of hd-idle, the
    comparison and swap routines a caller passes to [sort], what the functions
    of timers do, what is read from the flash) are arguments of the
    definitions.  Uninitialised memory is an argument too, and what an
    allocator answers is part of the state.

    ** The files

    - [Prelude]: outcomes, machine integers and their bits, tactics.
    - [CMem]: byte memory, strings and blocks in it.
    - [Ctype]: lib/ctype.c, include/linux/ctype.h: the class table.
    - [KString]: lib/string.c, all routines.
    - [Vsprintf], [Sscanf]: lib/vsprintf.c: number parsing and the printf
      family, and the scanf family.
    - [Format]: what given formats render, as equations.
    - [Cmdline]: lib/cmdline.c.
    - [Bitmap], [BitmapMap], [BitmapText]: lib/bitmap.c: tests, algebra,
      shifts and regions; remapping; the list and hexadecimal formats.
    - [Findbit]: arch/arm/lib/findbit.S, the bit searches [lib/bitmap.c] uses.
    - [Kfifo]: kernel/kfifo.c, sequentially and as a step relation of one
      reader and one writer without the lock.
    - [Linear]: xor-linear functions on words, used by the two files below.
    - [Crc]: lib/crc32.c, gen_crc32table.c, crc16.c, crc-ccitt.c,
      libcrc32c.c and U-Boot's crc32.c.
    - [Des], [DesModes]: apps/libdes-4.04b: the block cipher and its key
      schedule, the modes of operation, string keys.
    - [DesSpec]: the Data Encryption Standard on bit lists (module [Fips])
      and the proof that [Des] computes it.
    - [Sort]: lib/sort.c on bytes, with the same algorithm on lists.
    - [HdIdle]: apps/hd-idle/hd-idle.c: options, poll loop, parsing, disk
      table, stop command and log, over a trace of system calls with the
      answers they got.
    - [Diskstats]: the kernel's side of /proc/diskstats: block/genhd.c
      ([diskstats_show]), fs/partitions/check.c ([disk_name]),
      block/ll_rw_blk.c ([disk_round_stats]), fs/seq_file.c ([seq_printf]).
    - [RbSpec], [Rbtree], [RbRefine], [RbErase], [RbOps]: lib/rbtree.c and
      include/linux/rbtree.h.  [Rbtree] is the code, over a heap of nodes;
      [RbSpec] the rebalancing on inductive trees with a focus; the others
      run the code tree by tree, for insertion, for removal and for the
      whole operations.
    - [ListHead]: include/linux/list.h, over a heap of nodes that is tied to
      the sequences its lists hold.
    - [Timer], [TimerWheel], [TimerRun], [TimerMain]: kernel/timer.c and
      include/linux/timer.h.  [Timer] is the code; [TimerWheel] the invariant
      of the wheel, adding, detaching and one cascade; [TimerRun] the abstract
      machine and one round of [__run_timers]; [TimerMain] the start, the
      theorems and concrete wheels.
    - [Skb]: include/linux/skbuff.h and net/core/skbuff.c: the parts of a
      packet, reading at an offset and trimming, against its list of bytes.
    - [Filter], [FilterMain]: net/core/filter.c, include/linux/filter.h and
      what sock.c and sock.h do with a filter.  [Filter] is the code,
      [FilterMain] the checker, the reference semantics and the theorems.
    - [Fragtree], [FragRep], [FragNodes], [FragAdd], [FragFile], [FragFill],
      [FragOld], [FragInode], [FragRead], [FragKill], [FragMain]: the flash
      file system's map of a file, fs/jffs2/nodelist.c, with read.c
      ([jffs2_read_inode_range]) and the loop of readinode.c that builds it.
      [Fragtree] is the code, in a state monad over fragments, nodes and the
      trees of [Rbtree]; [FragRep] has weakest preconditions and the sequence
      of fragments a heap holds, [FragNodes] the counts of the nodes;
      [FragAdd] and [FragFile] add the newest node and truncate; [FragFill]
      and [FragOld] add an older one; [FragInode] is the loop, [FragRead]
      reading, [FragKill] taking a tree apart; [FragMain] has the theorems
      and concrete files.
    - [Compr], [Rtime], [Rubin], [RubinSpec], [RubinMain], [RubinBoot],
      [ComprMain]: the compressors of that file system, fs/jffs2/compr.c,
      compr_rtime.c, compr_rubin.c and pushpull.h, and the decompressors of
      U-Boot's fs/jffs2.  [Compr] is the list of compressors, what compresses
      and decompresses with them, and the contract they keep; [Rtime] has
      rtime of both programs; [Rubin] the kernel's arithmetic coder,
      [RubinSpec] the same on lists of bits, [RubinMain] the proof that the
      one is the other, [RubinBoot] U-Boot's decoder; [ComprMain] registers
      the compressors and has the theorems.
    - [Md4], [Smb]: apps/smbencrypt-0.1: MD4 with its standard (module
      [Rfc]), the LanMan and NT password hashes and the tool around them.

    The parts interact as the code does: [Cmdline] and [Diskstats] call the
    parser and printer of [Vsprintf]; [Kfifo] and [KString] share [CMem];
    [Smb] is built on [Des] and [Md4], [Timer] on [ListHead],
    [Filter] on [Skb], [Fragtree] on [Rbtree]; what [Diskstats] prints is what
    [HdIdle] reads.  Where parts meet through a contract it is a class:
    [FindBit] between the bit searches and the bitmaps,
    [BlockCipher] and [ChainCipher] between the cipher and the modes, [Swap]
    and [CmpOrder] between [sort] and its caller, [Codec] between
    [jffs2_compress] and the compressors.

    ** What the theorems show

    - Reference definitions and standards: [des_is_fips46] (the optimised
      DES computes FIPS 46), [md4_correct] (streaming MD4 computes the
      standard's digest of a bit string), the [crc32] family against
      bit-at-a-time division, with the detection of burst errors.
    - Refinement: [kfifo_put]/[kfifo_get] against a queue, the daemon against
      one automaton per disk, the byte-level [sort] against the list-level
      one, OFB against a keystream.
    - Red-black trees: [rb_insert_correct], [rb_erase_correct],
      [rb_walk_correct], [rb_replace_node_correct] (the pointer code keeps a
      red-black tree, its order and the rest of the heap), [rb_rounds]
      (logarithmic many rounds).
    - Timers: [run_timers_refines] (the wheel with its five levels is a map
      from timers to due ticks), [timers_on_time] (every timer runs once, in
      its tick), [timer_api_correct]; [list_h_correct] for the lists below.
    - Files of JFFS2: [add_full_correct] and [truncate_correct] (a tree is a
      map from bytes to nodes, on which adding a node is overwriting and
      truncation is taking a prefix; a node without a byte is obsolete),
      [add_older_correct] and [rebuild_equals_writes] (filling holes from the
      newest node to the oldest comes to the same as writing from the oldest
      to the newest), [read_after_write], [kill_fragtree_correct];
      [truncate_empty_faults] and [read_past_end] are calls that go wrong.
    - Compression: [rtime_roundtrip] and [dynrubin_roundtrip] (what is
      compressed is restored, by the kernel and by U-Boot, and no buffer is
      left), [compress_decompress] (the same through the list of compressors,
      for any that keep their contract), [compressors_invariant],
      [uboot_reads_blocks], [rtime_decompress_bounds] (any bytes at all);
      [rtime_overruns] and [rubin_types_exchanged] are what goes wrong.
    - Socket filters: [checked_filters_safe] (what the checker admits is safe
      and ends, by the reference semantics), [chk_filter_correct],
      [sk_filter_correct] (with the clones that stop the kernel),
      [attach_detach_correct], [skb_bits_correct];
      [filters_leak] shows what the checker does not keep in.
    - Bounds: [vsnprintf_bounded] (the buffer gets the text that the reference
      formatter [render] gives, cut and terminated, as long as that text ends
      inside of the 32-bit address space, and what a longer one overwrites).
    - Safety and liveness: [kfifo_spsc_safe] (lock-free use by one reader
      and one writer), [daemon_stops_idle_only] and [daemon_stops_idle_disk]
      (idle disks and only those are stopped; steps and times of the disk
      automaton are those that the daemon's trace tells).
    - Termination: [sort_terminates], and every equation with [Ret].
    - Types: [vsscanf_typed] (destinations that fit the format are all that
      a scan needs to return and to stay inside its buffers).
    - Round trips: [sscanf] on what [vsnprintf] printed, both text formats of
      bitmaps, remapping and back, region allocation, all cipher modes, the
      kernel's statistics as the daemon reads them.
    - Errors: what the checks of keys reject and miss, and the accesses that
      leave a buffer ([xwhite_reads_past_block], [smb_overruns]); what runs
      out of memory ([split_leaks], [older_frees_twice]).

    ** Not modelled

    Of libdes the CFB and OFB modes with a bit width, [crypt] and the
    terminal and file tools; of
    hd-idle [daemonize], which is process control; of timer.c the wall
    clock, the code for several processors and the system calls; of list.h
    the RCU and hash lists; of socket buffers what filters do not use; of JFFS2
    all that reads or writes the flash, the accounting of erase blocks in
    [jffs2_mark_node_obsolete], directory entries and zlib (the
    check of a node's data and its bytes are arguments, and so is the
    structure that compr_zlib.c registers).  The drivers, other file
    systems, network and memory management of the kernel, U-Boot, the
    root file system and the third-party programs (busybox, samba and so on)
    are vendored and beyond the scope of this library.  Alignment faults and
    interrupts are not modelled. *)

From Stdlib Require Import ZArith Lia Bool.
From Stdlib Require String Ascii.
From stdpp Require Export base option list numbers sets.

#[global] Open Scope Z_scope.

(** ** Outcomes of C code

    A modelled routine either returns or stops for one of three reasons:
    it touches memory outside the modelled region, it trips a [BUG_ON],
    or its loop runs out of the fuel the definition gives it. *)

Inductive exn := Fault | Bug | Diverge.

Inductive outcome (A : Type) :=
| Ret (a : A)
| Err (e : exn).
Arguments Ret {A} a.
Arguments Err {A} e.

Declare Scope c_scope.
Delimit Scope c_scope with C.
#[global] Open Scope c_scope.

Notation "'let!' x := c 'in' k" :=
  (match c with Ret x => k | Err e => Err e end)
  (at level 10, x pattern, k at level 200) : c_scope.

#[export] Instance exn_eq_dec : EqDecision exn.
Proof. solve_decision. Defined.
#[export] Instance outcome_eq_dec `{EqDecision A} : EqDecision (outcome A).
Proof. solve_decision. Defined.

(** ** Machine integers

    A [w]-bit unsigned integer is a [Z] in [0, 2^w); [wrap] is the
    conversion to it, [swrap] the conversion to the signed type. *)

Definition wrap (w z : Z) : Z := z mod 2 ^ w.
Definition swrap (w z : Z) : Z := (z + 2 ^ (w - 1)) mod 2 ^ w - 2 ^ (w - 1).
Definition u8 : Z -> Z := wrap 8.
Definition u16 : Z -> Z := wrap 16.
Definition u32 : Z -> Z := wrap 32.
Definition u64 : Z -> Z := wrap 64.
Definition s8 : Z -> Z := swrap 8.
Definition s32 : Z -> Z := swrap 32.
Definition s64 : Z -> Z := swrap 64.

Definition word (w z : Z) : Prop := 0 <= z < 2 ^ w.
Abbreviation is_byte := (word 8).
Abbreviation is_u32 := (word 32).
Abbreviation is_u64 := (word 64).

(** The bitwise complement of a [w]-bit unsigned value. *)
Definition cnot (w z : Z) : Z := wrap w (Z.lnot z).

(** Left shift at width [w]: bits pushed out at the top are lost. *)
Definition cshl (w z n : Z) : Z := wrap w (Z.shiftl z n).

(** C's truth value of a [bool] used as an [int]. *)
Definition b2z (b : bool) : Z := if b then 1 else 0.

Create HintDb cword discriminated.
Create Rewrite HintDb cbits.

Lemma wrap_word w z : 0 <= w -> word w (wrap w z).
Proof. intros Hw. apply Z.mod_pos_bound. lia. Qed.

Lemma wrap_small w z : word w z -> wrap w z = z.
Proof. apply Z.mod_small. Qed.

Lemma u32_small x : 0 <= x < 2 ^ 32 -> u32 x = x.
Proof. apply wrap_small. Qed.

Lemma wrap_idemp w z : 0 <= w -> wrap w (wrap w z) = wrap w z.
Proof. intros. by apply wrap_small, wrap_word. Qed.

Lemma wrap_testbit w z i :
  0 <= w -> Z.testbit (wrap w z) i = (i <? w) && Z.testbit z i.
Proof.
  intros Hw. unfold wrap. destruct (Z.ltb_spec i w); simpl.
  - destruct (Z.ltb_spec i 0); [by rewrite !Z.testbit_neg_r by lia|].
    by rewrite Z.mod_pow2_bits_low by lia.
  - by rewrite Z.mod_pow2_bits_high by lia.
Qed.

Lemma wrap_ones w z : 0 <= w -> wrap w z = Z.land z (Z.ones w).
Proof. intros. by rewrite Z.land_ones. Qed.

Lemma word_testbit_high w z i :
  0 <= w -> word w z -> w <= i -> Z.testbit z i = false.
Proof.
  intros Hw Hz Hi. rewrite <-(wrap_small w z Hz), wrap_testbit by done.
  by destruct (Z.ltb_spec i w); [lia|].
Qed.

Lemma word_of_bits w z :
  0 <= w -> (forall i, w <= i -> Z.testbit z i = false) -> word w z.
Proof.
  intros Hw Hz. replace z with (wrap w z); [by apply wrap_word|].
  apply Z.bits_inj'; intros i Hi. rewrite wrap_testbit by done.
  destruct (Z.ltb_spec i w); [done|]. by rewrite Hz.
Qed.

Lemma word_land w a b : 0 <= w -> word w a -> word w (Z.land a b).
Proof.
  intros Hw Ha. apply word_of_bits; [done|]. intros i Hi.
  by rewrite Z.land_spec, (word_testbit_high w a).
Qed.

Lemma word_lor w a b : 0 <= w -> word w a -> word w b -> word w (Z.lor a b).
Proof.
  intros Hw Ha Hb. apply word_of_bits; [done|]. intros i Hi.
  by rewrite Z.lor_spec, (word_testbit_high w a), (word_testbit_high w b).
Qed.

Lemma word_lxor w a b : 0 <= w -> word w a -> word w b -> word w (Z.lxor a b).
Proof.
  intros Hw Ha Hb. apply word_of_bits; [done|]. intros i Hi.
  by rewrite Z.lxor_spec, (word_testbit_high w a), (word_testbit_high w b).
Qed.

Lemma word_shiftr w a n : 0 <= w -> 0 <= n -> word w a -> word w (Z.shiftr a n).
Proof.
  intros Hw Hn Ha. apply word_of_bits; [done|]. intros i Hi.
  rewrite Z.shiftr_spec by lia. apply (word_testbit_high w); [done..|lia].
Qed.

Lemma word_cshl w z n : 0 <= w -> word w (cshl w z n).
Proof. apply wrap_word. Qed.

Lemma word_cnot w z : 0 <= w -> word w (cnot w z).
Proof. apply wrap_word. Qed.

Lemma word_mono w w' z : 0 <= w <= w' -> word w z -> word w' z.
Proof.
  intros Hw [? ?]. split; [done|]. eapply Z.lt_le_trans; [done|].
  apply Z.pow_le_mono_r; lia.
Qed.

Lemma word_0 n : 0 <= n -> word n 0.
Proof. intros. unfold word. pose proof (Z.pow_pos_nonneg 2 n). lia. Qed.

#[export] Hint Resolve wrap_word word_land word_lor word_lxor word_shiftr
  word_cshl word_cnot : cword.
#[export] Hint Extern 1 (_ <= _)%Z => lia : cword.

(** [bits] proves an equation between words bit by bit. *)

Lemma cnot_testbit w z i :
  0 <= w -> 0 <= i -> Z.testbit (cnot w z) i = (i <? w) && negb (Z.testbit z i).
Proof. intros. unfold cnot. rewrite wrap_testbit, Z.lnot_spec by done. done. Qed.

Lemma cshl_testbit w z n i :
  0 <= w -> 0 <= i ->
  Z.testbit (cshl w z n) i = (i <? w) && Z.testbit z (i - n).
Proof. intros. unfold cshl. rewrite wrap_testbit, Z.shiftl_spec by done. done. Qed.

Lemma pow2_testbit n i : 0 <= n -> Z.testbit (2 ^ n) i = (i =? n).
Proof.
  intros Hn. destruct (Z.eqb_spec i n) as [->|].
  - by apply Z.pow2_bits_true.
  - by apply Z.pow2_bits_false.
Qed.

Lemma shiftl1_testbit n i : 0 <= n -> Z.testbit (Z.shiftl 1 n) i = (i =? n).
Proof. intros. rewrite Z.shiftl_1_l. by apply pow2_testbit. Qed.

Lemma ones_testbit n i : 0 <= n -> 0 <= i -> Z.testbit (Z.ones n) i = (i <? n).
Proof.
  intros Hn Hi. destruct (Z.ltb_spec i n).
  - by apply Z.ones_spec_low.
  - by apply Z.ones_spec_high.
Qed.

#[export] Hint Rewrite Z.land_spec Z.lor_spec Z.lxor_spec Z.ldiff_spec
  Z.testbit_0_l : cbits.
#[export] Hint Rewrite Z.shiftr_spec Z.shiftl_spec Z.lnot_spec wrap_testbit
  cnot_testbit cshl_testbit pow2_testbit shiftl1_testbit ones_testbit
  using lia : cbits.

Ltac bits_norm := autorewrite with cbits.
Ltac bits :=
  apply Z.bits_inj'; intros ?i ?Hi; bits_norm;
  repeat match goal with |- context [?a <? ?b] => destruct (Z.ltb_spec a b) end;
  simpl; try done; try lia.

Lemma lor_shift_add k a v : 0 <= k -> word k v -> Z.lor (Z.shiftl a k) v = a * 2 ^ k + v.
Proof.
  intros Hk Hv. assert (E : Z.land (Z.shiftl a k) v = 0).
  { apply Z.bits_inj'. intros i Hi. rewrite Z.land_spec, Z.shiftl_spec, Z.testbit_0_l by lia.
    destruct (Z.ltb_spec i k); [by rewrite Z.testbit_neg_r by lia|].
    rewrite (word_testbit_high k v) by done. apply andb_false_r. }
  rewrite <-Z.lxor_lor, <-Z.add_nocarry_lxor by done. by rewrite Z.shiftl_mul_pow2.
Qed.

(** The bits of a number followed by [k] bits. *)
Lemma testbit_append k a v i :
  0 <= k -> word k v -> 0 <= i ->
  Z.testbit (a * 2 ^ k + v) i = if i <? k then Z.testbit v i else Z.testbit a (i - k).
Proof.
  intros Hk Hv Hi. rewrite <-lor_shift_add by done. rewrite Z.lor_spec, Z.shiftl_spec by done.
  destruct (Z.ltb_spec i k).
  - by rewrite Z.testbit_neg_r by lia.
  - rewrite (word_testbit_high k v) by done. apply orb_false_r.
Qed.

Lemma s32_small z : - 2 ^ 31 <= z < 2 ^ 31 -> s32 z = z.
Proof. intros Hz. unfold s32, swrap. rewrite Z.mod_small by (simpl; lia). lia. Qed.

Lemma s32_range z : - 2 ^ 31 <= s32 z < 2 ^ 31.
Proof.
  unfold s32, swrap. change (32 - 1) with 31. pose proof (Z.mod_pos_bound (z + 2 ^ 31) (2 ^ 32)). lia.
Qed.

Lemma mask_ones n : Z.shiftl 1 n - 1 = Z.ones n.
Proof. rewrite Z.ones_equiv, Z.shiftl_1_l. lia. Qed.

(** ** Lists *)

Lemma lookup_Some_lt {A} (l : list A) i x : l !! i = Some x -> (i < length l)%nat.
Proof. apply lookup_lt_Some. Qed.

Lemma Forall_lookup_word w (l : list Z) i x :
  Forall (word w) l -> l !! i = Some x -> word w x.
Proof. intros Hl Hx. by eapply Forall_lookup_1. Qed.
#[export] Hint Resolve Forall_lookup_word : cword.

(** Case analysis on the boolean comparisons a translated guard uses. *)
Ltac case_bool :=
  match goal with
  | |- context [?a =? ?b] => destruct (Z.eqb_spec a b)
  | |- context [?a <? ?b] => destruct (Z.ltb_spec a b)
  | |- context [?a <=? ?b] => destruct (Z.leb_spec a b)
  | |- context [(?a =? ?b)%nat] => destruct (Nat.eqb_spec a b)
  | |- context [(?a <? ?b)%nat] => destruct (Nat.ltb_spec a b)
  | |- context [(?a <=? ?b)%nat] => destruct (Nat.leb_spec a b)
  end.

(** ** Literals *)

(** The character codes of a literal. *)
Definition codes (s : String.string) : list Z :=
  map (fun c => Z.of_N (Ascii.N_of_ascii c)) (String.list_ascii_of_string s).
Arguments codes s%_string_scope.
