(* ===== verification/CMem.v ===== *)
(** * The byte memory the string routines work on

    One flat memory is a list of bytes, an address an index into it; every
    access is checked, so a model that returns has stayed inside the memory
    it was given.  [cstr] and [bytes_at] relate addresses to the strings and
    byte blocks stored there. *)

From S2P Require Import Prelude.

Abbreviation mem := (list Z).
Abbreviation addr := nat.

Definition load (m : mem) (p : addr) : outcome Z :=
  match m !! p with Some c => Ret c | None => Err Fault end.

Definition store (m : mem) (p : addr) (c : Z) : outcome mem :=
  if (p <? length m)%nat then Ret (<[p := c]> m) else Err Fault.

(** Loops that follow a NUL-terminated string advance one address per
    iteration, so the size of the memory bounds their iterations. *)
Definition fuel_of (m : mem) : nat := S (length m).

(** [cstr m p s]: the NUL-terminated string [s] is stored at [p]. *)
Inductive cstr (m : mem) : addr -> list Z -> Prop :=
| cstr_nul p : m !! p = Some 0 -> cstr m p []
| cstr_char p c s :
    m !! p = Some c -> c <> 0 -> cstr m (S p) s -> cstr m p (c :: s).

(** [bytes_at m p bs]: the bytes [bs] are stored from [p] on. *)
Definition bytes_at (m : mem) (p : addr) (bs : list Z) : Prop :=
  forall i c, bs !! i = Some c -> m !! (p + i)%nat = Some c.

Create HintDb cmem discriminated.

Section Lemmas.
Context (m : mem).

Lemma load_Some p c : m !! p = Some c -> load m p = Ret c.
Proof. unfold load. by intros ->. Qed.

Lemma store_lt p c : (p < length m)%nat -> store m p c = Ret (<[p := c]> m).
Proof. unfold store. intros. by case_bool; [|lia]. Qed.

Lemma cstr_bound p s : cstr m p s -> (p + length s < length m)%nat.
Proof.
  induction 1 as [p Hp|p c s Hp _ _ IH]; simpl.
  - apply lookup_lt_Some in Hp. lia.
  - lia.
Qed.

Lemma cstr_lookup p s i c : cstr m p s -> s !! i = Some c -> m !! (p + i)%nat = Some c /\ c <> 0.
Proof.
  intros Hs. revert i. induction Hs as [p Hp|p c' s Hp Hc Hs IH]; intros i Hi; [done|].
  destruct i as [|i]; simpl in *.
  - simplify_eq. by rewrite Nat.add_0_r.
  - apply IH in Hi. by rewrite Nat.add_succ_r.
Qed.

Lemma cstr_lookup_nul p s : cstr m p s -> m !! (p + length s)%nat = Some 0.
Proof.
  induction 1 as [p Hp|p c s Hp Hc Hs IH]; simpl.
  - by rewrite Nat.add_0_r.
  - by rewrite Nat.add_succ_r.
Qed.

Lemma cstr_nonzero p s : cstr m p s -> Forall (fun c => c <> 0) s.
Proof. induction 1; by constructor. Qed.

Lemma cstr_unique p s t : cstr m p s -> cstr m p t -> s = t.
Proof.
  intros Hs. revert t. induction Hs; intros t Ht; inversion Ht; simplify_eq; try done.
  f_equal. eauto.
Qed.

(** A string is stored at [p] exactly when its characters and the final NUL are. *)
Lemma cstr_intro p s :
  bytes_at m p (s ++ [0]) -> Forall (fun c => c <> 0) s -> cstr m p s.
Proof.
  revert p. induction s as [|c s IH]; intros p Hb Hz.
  - constructor. rewrite <-(Nat.add_0_r p). by apply Hb.
  - apply Forall_cons_1 in Hz as [Hc Hz]. constructor; [|done|].
    + rewrite <-(Nat.add_0_r p). by apply Hb.
    + apply IH; [|done]. intros i x Hi. simpl. rewrite <-Nat.add_succ_r. by apply Hb.
Qed.

Lemma cstr_bytes p s : cstr m p s -> bytes_at m p (s ++ [0]).
Proof.
  intros Hs i c Hi. apply lookup_app_Some in Hi as [Hi|[Hl Hi]].
  - by apply (cstr_lookup p s i c).
  - destruct (i - length s)%nat as [|n] eqn:E; [|done]. simplify_eq/=.
    replace i with (length s) by lia. by apply cstr_lookup_nul.
Qed.

Lemma cstr_drop p s i : cstr m p s -> (i <= length s)%nat -> cstr m (p + i)%nat (drop i s).
Proof.
  intros Hs. revert i. induction Hs as [p Hp|p c s Hp Hc Hs IH]; intros i Hi.
  - simpl in Hi. replace i with 0%nat by lia. rewrite Nat.add_0_r. by constructor.
  - destruct i as [|i]; [rewrite Nat.add_0_r; by constructor|].
    simpl in *. rewrite Nat.add_succ_r. apply IH. lia.
Qed.

Lemma bytes_at_take_drop p n :
  (p + n <= length m)%nat -> bytes_at m p (take n (drop p m)).
Proof. intros Hp i c Hi. apply lookup_take_Some in Hi as [Hi _]. by rewrite lookup_drop in Hi. Qed.

Lemma bytes_at_eq p bs :
  (p + length bs <= length m)%nat -> bytes_at m p bs -> take (length bs) (drop p m) = bs.
Proof.
  intros Hp Hb. apply list_eq. intros i.
  destruct (decide (i < length bs)%nat) as [Hi|Hi].
  - destruct (lookup_lt_is_Some_2 bs i Hi) as [c Hc]. rewrite lookup_take_lt, lookup_drop by done.
    rewrite Hc. by apply Hb.
  - rewrite lookup_take_ge, lookup_ge_None_2 by lia. done.
Qed.

Lemma lookup_inserts_dec i (k : list Z) j :
  list_inserts i k m !! j =
    if decide (i <= j < i + length k /\ j < length m)%nat then k !! (j - i)%nat else m !! j.
Proof.
  case_decide as H.
  - by rewrite list_lookup_inserts by lia.
  - destruct (decide (j < i)%nat); [by rewrite list_lookup_inserts_lt|].
    destruct (decide (i + length k <= j)%nat); [by rewrite list_lookup_inserts_ge|].
    rewrite !lookup_ge_None_2; [done|lia|]. rewrite length_inserts. lia.
Qed.
End Lemmas.

(** Writing a block makes it the block stored there, and leaves a string
    that lies outside of it alone. *)
Lemma bytes_at_inserts (m : mem) p bs :
  (p + length bs <= length m)%nat -> bytes_at (list_inserts p bs m) p bs.
Proof.
  intros Hp i c Hi. pose proof (lookup_lt_Some _ _ _ Hi).
  rewrite lookup_inserts_dec, decide_True by lia.
  by replace (p + i - p)%nat with i by lia.
Qed.

Lemma cstr_inserts_out (m : mem) p s d bs :
  cstr m p s -> (d + length bs <= p \/ p + length s < d)%nat ->
  cstr (list_inserts d bs m) p s.
Proof.
  intros Hs Hd. pose proof (cstr_bound m p s Hs).
  apply cstr_intro; [|by eapply cstr_nonzero].
  intros i c Hi. pose proof (lookup_lt_Some _ _ _ Hi) as Hl. rewrite length_app in Hl. simpl in Hl.
  rewrite lookup_inserts_dec, decide_False by lia. by apply (cstr_bytes m p s).
Qed.

Lemma cstr_head_nonzero m p c s : cstr m p (c :: s) -> m !! p = Some c /\ c <> 0 /\ cstr m (S p) s.
Proof. by inversion 1. Qed.

Lemma cstr_nil_inv m p : cstr m p [] -> m !! p = Some 0.
Proof. by inversion 1. Qed.

(** A write at the end of a block extends the block. *)
Lemma inserts_snoc (m : mem) d bs c :
  (d + length bs < length m)%nat ->
  <[(d + length bs)%nat := c]> (list_inserts d bs m) = list_inserts d (bs ++ [c]) m.
Proof. intros. rewrite list_inserts_app_l. simpl. by rewrite (Nat.add_comm d). Qed.

#[export] Hint Resolve cstr_bound cstr_nonzero cstr_lookup_nul cstr_bytes : cmem.

(** [load_at H] rewrites the load that [H : m !! p = Some c] answers. *)
Ltac load_at H := rewrite (load_Some _ _ _ H); simpl.

(** ** Single writes *)

Lemma cstr_insert_out (m : mem) p s j c :
  cstr m p s -> (j < p \/ p + length s < j)%nat -> cstr (<[j := c]> m) p s.
Proof.
  intros Hs Hj. change (<[j := c]> m) with (list_inserts j [c] m).
  apply cstr_inserts_out; [done|]. simpl. lia.
Qed.

Lemma take_drop_insert_out (m : mem) s n j c :
  (j < s \/ s + n <= j)%nat -> take n (drop s (<[j := c]> m)) = take n (drop s m).
Proof.
  intros Hj. apply list_eq. intros i. rewrite !lookup_take, !lookup_drop.
  case_decide; [|done]. by rewrite list_lookup_insert_ne by lia.
Qed.

Lemma inserts_cons (m : mem) d c bs :
  list_inserts (S d) bs (<[d := c]> m) = list_inserts d (c :: bs) m.
Proof. simpl. by rewrite list_insert_inserts_lt by lia. Qed.

Lemma inserts_insert_comm (m : mem) d bs j c :
  (d + length bs <= j)%nat ->
  list_inserts d bs (<[j := c]> m) = <[j := c]> (list_inserts d bs m).
Proof.
  revert d. induction bs as [|b bs IH]; intros d Hj; simpl in *; [done|].
  rewrite IH by lia. apply list_insert_insert_ne. lia.
Qed.

Lemma take_drop_S (m : mem) s n c :
  m !! s = Some c -> take (S n) (drop s m) = c :: take n (drop (S s) m).
Proof. intros Hc. by rewrite (drop_S m c s Hc). Qed.

Lemma take_drop_snoc (m : mem) s n c :
  m !! (s + n)%nat = Some c -> take (S n) (drop s m) = take n (drop s m) ++ [c].
Proof. intros Hc. apply take_S_r. by rewrite lookup_drop. Qed.

Lemma length_take_drop (m : mem) s n :
  (s + n <= length m)%nat -> length (take n (drop s m)) = n.
Proof. intros. rewrite length_take, length_drop. lia. Qed.

Lemma cstr_take_drop (m : mem) p s n :
  cstr m p s -> (n <= length s)%nat -> take n (drop p m) = take n s.
Proof.
  intros Hs Hn. apply list_eq. intros i. rewrite !lookup_take. case_decide; [|done].
  destruct (lookup_lt_is_Some_2 s i ltac:(lia)) as [c Hc].
  rewrite lookup_drop, Hc. by eapply cstr_lookup.
Qed.

(** The two facts a copy of a terminated string establishes. *)
Lemma cstr_inserts_new (m : mem) d s :
  (d + length s < length m)%nat -> Forall (fun c => c <> 0) s ->
  cstr (list_inserts d (s ++ [0]) m) d s.
Proof.
  intros Hd Hz. apply cstr_intro; [|done]. apply bytes_at_inserts.
  rewrite length_app. simpl. lia.
Qed.

(** Overwriting a block in the middle. *)
Lemma inserts_middle (p x y r : mem) :
  length x = length y -> list_inserts (length p) y (p ++ x ++ r) = p ++ y ++ r.
Proof.
  intros Hx. apply list_eq. intros i. rewrite lookup_inserts_dec, !length_app.
  case_decide as H1; rewrite !lookup_app.
  - rewrite (lookup_ge_None_2 p) by lia. destruct (y !! (i - length p)%nat) eqn:E; [done|].
    apply lookup_ge_None in E. lia.
  - destruct (p !! i) eqn:E; [done|]. apply lookup_ge_None in E.
    destruct (decide (i - length p < length x)%nat); [lia|].
    rewrite !(lookup_ge_None_2 _ (i - length p)) by lia. by rewrite Hx.
Qed.
