(* ===== verification/Ctype.v ===== *)
(** * Character classes (kernel lib/ctype.c, include/linux/ctype.h)

    The Latin-1 class table and the macros over it.  A character is an
    [unsigned char], which is also what plain [char] is on ARM. *)

From S2P Require Import Prelude.

Definition _U : Z := 0x01.
Definition _L : Z := 0x02.
Definition _D : Z := 0x04.
Definition _C : Z := 0x08.
Definition _P : Z := 0x10.
Definition _S : Z := 0x20.
Definition _X : Z := 0x40.
Definition _SP : Z := 0x80.

Definition _ctype : list Z :=
  let S' := Z.lor _C _S in
  let SPs := Z.lor _S _SP in
  let UX := Z.lor _U _X in
  let LX := Z.lor _L _X in
  [_C;_C;_C;_C;_C;_C;_C;_C;
   _C;S';S';S';S';S';_C;_C;
   _C;_C;_C;_C;_C;_C;_C;_C;
   _C;_C;_C;_C;_C;_C;_C;_C;
   SPs;_P;_P;_P;_P;_P;_P;_P;
   _P;_P;_P;_P;_P;_P;_P;_P;
   _D;_D;_D;_D;_D;_D;_D;_D;
   _D;_D;_P;_P;_P;_P;_P;_P;
   _P;UX;UX;UX;UX;UX;UX;_U;
   _U;_U;_U;_U;_U;_U;_U;_U;
   _U;_U;_U;_U;_U;_U;_U;_U;
   _U;_U;_U;_P;_P;_P;_P;_P;
   _P;LX;LX;LX;LX;LX;LX;_L;
   _L;_L;_L;_L;_L;_L;_L;_L;
   _L;_L;_L;_L;_L;_L;_L;_L;
   _L;_L;_L;_P;_P;_P;_P;_C;
   0;0;0;0;0;0;0;0;0;0;0;0;0;0;0;0;
   0;0;0;0;0;0;0;0;0;0;0;0;0;0;0;0;
   SPs;_P;_P;_P;_P;_P;_P;_P;_P;_P;_P;_P;_P;_P;_P;_P;
   _P;_P;_P;_P;_P;_P;_P;_P;_P;_P;_P;_P;_P;_P;_P;_P;
   _U;_U;_U;_U;_U;_U;_U;_U;_U;_U;_U;_U;_U;_U;_U;_U;
   _U;_U;_U;_U;_U;_U;_U;_P;_U;_U;_U;_U;_U;_U;_U;_L;
   _L;_L;_L;_L;_L;_L;_L;_L;_L;_L;_L;_L;_L;_L;_L;_L;
   _L;_L;_L;_L;_L;_L;_L;_P;_L;_L;_L;_L;_L;_L;_L;_L].

Definition __ismask (x : Z) : Z := nth (Z.to_nat (u8 x)) _ctype 0.

Definition isalnum (c : Z) : bool := negb (Z.land (__ismask c) (Z.lor _U (Z.lor _L _D)) =? 0).
Definition isalpha (c : Z) : bool := negb (Z.land (__ismask c) (Z.lor _U _L) =? 0).
Definition iscntrl (c : Z) : bool := negb (Z.land (__ismask c) _C =? 0).
Definition isdigit (c : Z) : bool := negb (Z.land (__ismask c) _D =? 0).
Definition islower (c : Z) : bool := negb (Z.land (__ismask c) _L =? 0).
Definition isspace (c : Z) : bool := negb (Z.land (__ismask c) _S =? 0).
Definition isupper (c : Z) : bool := negb (Z.land (__ismask c) _U =? 0).
Definition isxdigit (c : Z) : bool := negb (Z.land (__ismask c) (Z.lor _D _X) =? 0).

Definition tolower (c : Z) : Z := if isupper c then u8 (c - (65 - 97)) else c.
Definition toupper (c : Z) : Z := if islower c then u8 (c - (97 - 65)) else c.

(** ** Facts, decided over the 256 characters *)

Definition all_bytes : list Z := seqZ 0 256.

Lemma all_bytes_spec c : is_byte c -> In c all_bytes.
Proof. intros [? ?]. apply list_elem_of_In, elem_of_seqZ. simpl in *. lia. Qed.

Lemma byte_forall (f : Z -> bool) :
  forallb f all_bytes = true -> forall c, is_byte c -> f c = true.
Proof. intros Hf c Hc. eapply forallb_forall; [exact Hf|]. by apply all_bytes_spec. Qed.

(** [by_bytes f] settles [f c = true] for a byte [c] by evaluation. *)
Ltac by_bytes f := apply (byte_forall f); vm_compute; reflexivity.

Lemma isdigit_range c : is_byte c -> isdigit c = (48 <=? c) && (c <=? 57).
Proof.
  intros Hc. apply eqb_prop. revert c Hc.
  by_bytes (fun c => Bool.eqb (isdigit c) ((48 <=? c) && (c <=? 57))).
Qed.

Lemma isxdigit_range c :
  is_byte c ->
  isxdigit c = ((48 <=? c) && (c <=? 57)) || ((65 <=? c) && (c <=? 70)) || ((97 <=? c) && (c <=? 102)).
Proof.
  intros Hc. apply eqb_prop. revert c Hc.
  by_bytes (fun c => Bool.eqb (isxdigit c)
    (((48 <=? c) && (c <=? 57)) || ((65 <=? c) && (c <=? 70)) || ((97 <=? c) && (c <=? 102)))).
Qed.

Lemma tolower_byte c : is_byte c -> is_byte (tolower c).
Proof.
  intros Hc. unfold tolower. destruct (isupper c); [|done]. by apply wrap_word.
Qed.

Lemma tolower_zero c : is_byte c -> tolower c = 0 -> c = 0.
Proof.
  intros Hc.
  assert (H : negb (tolower c =? 0) || (c =? 0) = true)
    by (revert c Hc; by_bytes (fun c => negb (tolower c =? 0) || (c =? 0))).
  intros E. rewrite E in H. simpl in H. by apply Z.eqb_eq.
Qed.

#[export] Hint Resolve tolower_byte : cword.
