(* ===== verification/KString.v ===== *)
(** * The kernel string library (lib/string.c)

    Every routine of the file, over the checked memory of [CMem]: pointers
    are addresses, [NULL] is [None], a [size_t] count is a [nat].  Loops over
    NUL-terminated strings carry the fuel [fuel_of]; the theorems show that it
    is enough whenever the strings are really terminated. *)

From S2P Require Import Prelude CMem Ctype.

(** ** Comparison *)

Fixpoint strnicmp_loop (m : mem) (s1 s2 : addr) (c1 c2 : Z) (len : nat) : outcome (Z * Z) :=
  match len with
  | O => Ret (c1, c2)
  | S len =>
      let! c1 := load m s1 in
      let! c2 := load m s2 in
      if c1 =? 0 then Ret (c1, c2)
      else if c2 =? 0 then Ret (c1, c2)
      else if c1 =? c2 then strnicmp_loop m (S s1) (S s2) c1 c2 len
      else
        let c1 := tolower c1 in
        let c2 := tolower c2 in
        if negb (c1 =? c2) then Ret (c1, c2)
        else strnicmp_loop m (S s1) (S s2) c1 c2 len
  end.

Definition strnicmp (m : mem) (s1 s2 : addr) (len : nat) : outcome Z :=
  let! (c1, c2) := strnicmp_loop m s1 s2 0 0 len in Ret (c1 - c2).

Fixpoint strcmp_loop (fuel : nat) (m : mem) (cs ct : addr) : outcome Z :=
  match fuel with
  | O => Err Diverge
  | S fuel =>
      let! c := load m cs in
      let! d := load m ct in
      let __res := s8 (c - d) in
      if negb (__res =? 0) || (c =? 0) then Ret __res
      else strcmp_loop fuel m (S cs) (S ct)
  end.

Definition strcmp (m : mem) (cs ct : addr) : outcome Z := strcmp_loop (fuel_of m) m cs ct.

Fixpoint strncmp_loop (m : mem) (cs ct : addr) (__res : Z) (count : nat) : outcome Z :=
  match count with
  | O => Ret __res
  | S count =>
      let! c := load m cs in
      let! d := load m ct in
      let __res := s8 (c - d) in
      if negb (__res =? 0) || (c =? 0) then Ret __res
      else strncmp_loop m (S cs) (S ct) __res count
  end.

Definition strncmp (m : mem) (cs ct : addr) (count : nat) : outcome Z :=
  strncmp_loop m cs ct 0 count.

Fixpoint memcmp_loop (m : mem) (su1 su2 : addr) (res : Z) (count : nat) : outcome Z :=
  match count with
  | O => Ret res
  | S count =>
      let! a := load m su1 in
      let! b := load m su2 in
      let res := a - b in
      if negb (res =? 0) then Ret res
      else memcmp_loop m (S su1) (S su2) res count
  end.

Definition memcmp (m : mem) (cs ct : addr) (count : nat) : outcome Z :=
  memcmp_loop m cs ct 0 count.

(** ** Length and search *)

Fixpoint strlen_loop (fuel : nat) (m : mem) (sc : addr) : outcome addr :=
  match fuel with
  | O => Err Diverge
  | S fuel =>
      let! c := load m sc in
      if c =? 0 then Ret sc else strlen_loop fuel m (S sc)
  end.

Definition strlen (m : mem) (s : addr) : outcome nat :=
  let! sc := strlen_loop (fuel_of m) m s in Ret (sc - s)%nat.

Fixpoint strnlen_loop (m : mem) (sc : addr) (count : nat) : outcome addr :=
  match count with
  | O => Ret sc
  | S count =>
      let! c := load m sc in
      if c =? 0 then Ret sc else strnlen_loop m (S sc) count
  end.

Definition strnlen (m : mem) (s : addr) (count : nat) : outcome nat :=
  let! sc := strnlen_loop m s count in Ret (sc - s)%nat.

Fixpoint strchr_loop (fuel : nat) (m : mem) (s : addr) (c : Z) : outcome (option addr) :=
  match fuel with
  | O => Err Diverge
  | S fuel =>
      let! x := load m s in
      if x =? u8 c then Ret (Some s)
      else if x =? 0 then Ret None
      else strchr_loop fuel m (S s) c
  end.

Definition strchr (m : mem) (s : addr) (c : Z) : outcome (option addr) :=
  strchr_loop (fuel_of m) m s c.

(** [k] is [p - s]: the loop stops when [p] would drop below [s]. *)
Fixpoint strrchr_loop (m : mem) (s : addr) (c : Z) (k : nat) : outcome (option addr) :=
  let! x := load m (s + k)%nat in
  if x =? u8 c then Ret (Some (s + k)%nat)
  else match k with
       | O => Ret None
       | S k => strrchr_loop m s c k
       end.

Definition strrchr (m : mem) (s : addr) (c : Z) : outcome (option addr) :=
  let! n := strlen m s in strrchr_loop m s c n.

Fixpoint strnchr (m : mem) (s : addr) (count : nat) (c : Z) : outcome (option addr) :=
  match count with
  | O => Ret None
  | S count =>
      let! x := load m s in
      if x =? 0 then Ret None
      else if x =? u8 c then Ret (Some s)
      else strnchr m (S s) count c
  end.

(** The inner loops of [strspn], [strcspn] and [strpbrk]: does the set at
    [a] hold the character [c]? *)
Fixpoint scan_set (fuel : nat) (m : mem) (a : addr) (c : Z) : outcome bool :=
  match fuel with
  | O => Err Diverge
  | S fuel =>
      let! x := load m a in
      if x =? 0 then Ret false
      else if c =? x then Ret true
      else scan_set fuel m (S a) c
  end.

Fixpoint strspn_loop (fuel : nat) (m : mem) (p accept : addr) (count : nat) : outcome nat :=
  match fuel with
  | O => Err Diverge
  | S fuel =>
      let! c := load m p in
      if c =? 0 then Ret count
      else
        let! found := scan_set (fuel_of m) m accept c in
        if negb found then Ret count
        else strspn_loop fuel m (S p) accept (S count)
  end.

Definition strspn (m : mem) (s accept : addr) : outcome nat :=
  strspn_loop (fuel_of m) m s accept 0.

Fixpoint strcspn_loop (fuel : nat) (m : mem) (p reject : addr) (count : nat) : outcome nat :=
  match fuel with
  | O => Err Diverge
  | S fuel =>
      let! c := load m p in
      if c =? 0 then Ret count
      else
        let! found := scan_set (fuel_of m) m reject c in
        if found then Ret count
        else strcspn_loop fuel m (S p) reject (S count)
  end.

Definition strcspn (m : mem) (s reject : addr) : outcome nat :=
  strcspn_loop (fuel_of m) m s reject 0.

Fixpoint strpbrk_loop (fuel : nat) (m : mem) (sc1 ct : addr) : outcome (option addr) :=
  match fuel with
  | O => Err Diverge
  | S fuel =>
      let! c := load m sc1 in
      if c =? 0 then Ret None
      else
        let! found := scan_set (fuel_of m) m ct c in
        if found then Ret (Some sc1)
        else strpbrk_loop fuel m (S sc1) ct
  end.

Definition strpbrk (m : mem) (cs ct : addr) : outcome (option addr) :=
  strpbrk_loop (fuel_of m) m cs ct.

Fixpoint memscan (m : mem) (p : addr) (c : Z) (size : nat) : outcome addr :=
  match size with
  | O => Ret p
  | S size =>
      let! x := load m p in
      if x =? c then Ret p else memscan m (S p) c size
  end.

Fixpoint memchr (m : mem) (p : addr) (c : Z) (n : nat) : outcome (option addr) :=
  match n with
  | O => Ret None
  | S n =>
      let! x := load m p in
      if u8 c =? x then Ret (Some p) else memchr m (S p) c n
  end.

(** [l1 >= l2 > 0] holds whenever the loop body runs, so [l1] is a
    successor there. *)
Fixpoint strstr_loop (m : mem) (s1 s2 : addr) (l1 l2 : nat) : outcome (option addr) :=
  if (l2 <=? l1)%nat then
    match l1 with
    | O => Ret None
    | S l1 =>
        let! r := memcmp m s1 s2 l2 in
        if r =? 0 then Ret (Some s1) else strstr_loop m (S s1) s2 l1 l2
    end
  else Ret None.

Definition strstr (m : mem) (s1 s2 : addr) : outcome (option addr) :=
  let! l2 := strlen m s2 in
  if (l2 =? 0)%nat then Ret (Some s1)
  else
    let! l1 := strlen m s1 in
    strstr_loop m s1 s2 l1 l2.

(** ** Copying *)

Fixpoint memset (m : mem) (xs : addr) (c : Z) (count : nat) : outcome mem :=
  match count with
  | O => Ret m
  | S count => let! m := store m xs (u8 c) in memset m (S xs) c count
  end.

Fixpoint memcpy (m : mem) (tmp s : addr) (count : nat) : outcome mem :=
  match count with
  | O => Ret m
  | S count =>
      let! c := load m s in
      let! m := store m tmp c in
      memcpy m (S tmp) (S s) count
  end.

(** The descending copy of [memmove]: [count] bytes are still to be copied. *)
Fixpoint memmove_down (m : mem) (dest src : addr) (count : nat) : outcome mem :=
  match count with
  | O => Ret m
  | S count =>
      let! c := load m (src + count)%nat in
      let! m := store m (dest + count)%nat c in
      memmove_down m dest src count
  end.

Definition memmove (m : mem) (dest src : addr) (count : nat) : outcome mem :=
  if (dest <=? src)%nat then memcpy m dest src count
  else memmove_down m dest src count.

Fixpoint strcpy_loop (fuel : nat) (m : mem) (dest src : addr) : outcome mem :=
  match fuel with
  | O => Err Diverge
  | S fuel =>
      let! c := load m src in
      let! m := store m dest c in
      if negb (c =? 0) then strcpy_loop fuel m (S dest) (S src) else Ret m
  end.

Definition strcpy (m : mem) (dest src : addr) : outcome mem :=
  strcpy_loop (fuel_of m) m dest src.

Fixpoint strncpy (m : mem) (tmp src : addr) (count : nat) : outcome mem :=
  match count with
  | O => Ret m
  | S count =>
      let! c := load m src in
      let! m := store m tmp c in
      strncpy m (S tmp) (if negb (c =? 0) then S src else src) count
  end.

Definition strlcpy (m : mem) (dest src : addr) (size : nat) : outcome (nat * mem) :=
  let! ret := strlen m src in
  if negb (size =? 0)%nat then
    let len := if (size <=? ret)%nat then (size - 1)%nat else ret in
    let! m := memcpy m dest src len in
    let! m := store m (dest + len)%nat 0 in
    Ret (ret, m)
  else Ret (ret, m).

Definition strcat (m : mem) (dest src : addr) : outcome mem :=
  let! d := strlen_loop (fuel_of m) m dest in
  strcpy_loop (fuel_of m) m d src.

Fixpoint strncat_loop (m : mem) (dest src : addr) (count : nat) : outcome mem :=
  match count with
  | O => Ret m
  | S count =>
      let! c := load m src in
      let! m := store m dest c in
      if negb (c =? 0) then
        match count with
        | O => store m (S dest) 0
        | S _ => strncat_loop m (S dest) (S src) count
        end
      else Ret m
  end.

Definition strncat (m : mem) (dest src : addr) (count : nat) : outcome mem :=
  if negb (count =? 0)%nat then
    let! d := strlen_loop (fuel_of m) m dest in
    strncat_loop m d src count
  else Ret m.

Definition strlcat (m : mem) (dest src : addr) (count : nat) : outcome (nat * mem) :=
  let! dsize := strlen m dest in
  let! len := strlen m src in
  let res := (dsize + len)%nat in
  if (count <=? dsize)%nat then Err Bug
  else
    let dest := (dest + dsize)%nat in
    let count := (count - dsize)%nat in
    let len := if (count <=? len)%nat then (count - 1)%nat else len in
    let! m := memcpy m dest src len in
    let! m := store m (dest + len)%nat 0 in
    Ret (res, m).

(** [*s] is passed in and returned: [strsep] gives the token, the new
    [*s], and the memory with the separator overwritten. *)
Definition strsep (m : mem) (s : option addr) (ct : addr) :
    outcome (option addr * option addr * mem) :=
  match s with
  | None => Ret (None, None, m)
  | Some sbegin =>
      let! e := strpbrk m sbegin ct in
      match e with
      | Some e =>
          let! m := store m e 0 in
          Ret (Some sbegin, Some (S e), m)
      | None => Ret (Some sbegin, None, m)
      end
  end.

(** ** Correctness *)

Section Length.
Context (m : mem).

Lemma strlen_loop_spec fuel p s :
  cstr m p s -> (length s < fuel)%nat -> strlen_loop fuel m p = Ret (p + length s)%nat.
Proof.
  intros Hs. revert fuel. induction Hs as [p Hp|p c s Hp Hc Hs IH]; intros fuel Hf.
  - destruct fuel; [simpl in Hf; lia|]. simpl. load_at Hp. by rewrite Nat.add_0_r.
  - destruct fuel; [simpl in Hf; lia|]. simpl in *. load_at Hp. case_bool; [done|].
    rewrite IH by lia. f_equal. lia.
Qed.

Lemma strlen_cstr p s : cstr m p s -> strlen m p = Ret (length s).
Proof.
  intros Hs. unfold strlen. rewrite (strlen_loop_spec _ p s); [f_equal; lia|done|].
  pose proof (cstr_bound m p s Hs). unfold fuel_of. lia.
Qed.

Lemma strnlen_loop_spec p s count :
  cstr m p s -> strnlen_loop m p count = Ret (p + Nat.min count (length s))%nat.
Proof.
  intros Hs. revert count. induction Hs as [p Hp|p c s Hp Hc Hs IH]; intros [|count];
    simpl; rewrite ?Nat.add_0_r; try done; load_at Hp; [done|].
  case_bool; [done|]. rewrite IH. f_equal. lia.
Qed.

Lemma strnlen_cstr p s count : cstr m p s -> strnlen m p count = Ret (Nat.min count (length s)).
Proof. intros Hs. unfold strnlen. rewrite (strnlen_loop_spec p s) by done. f_equal. lia. Qed.
End Length.

Lemma memcpy_forward m d s n :
  (s + n <= length m)%nat -> (d + n <= length m)%nat -> (d <= s \/ s + n <= d)%nat ->
  memcpy m d s n = Ret (list_inserts d (take n (drop s m)) m).
Proof.
  revert m d s. induction n as [|n IH]; intros m d s Hs Hd Ho; [done|].
  destruct (lookup_lt_is_Some_2 m s ltac:(lia)) as [c Hc].
  simpl memcpy. load_at Hc. rewrite store_lt by lia.
  rewrite IH by (rewrite ?length_insert; lia).
  by rewrite (take_drop_S m s n c Hc), <-inserts_cons, take_drop_insert_out by lia.
Qed.

Lemma memmove_down_spec m d s n :
  (s + n <= length m)%nat -> (d + n <= length m)%nat -> (s <= d)%nat ->
  memmove_down m d s n = Ret (list_inserts d (take n (drop s m)) m).
Proof.
  revert m. induction n as [|n IH]; intros m Hs Hd Ho; [done|].
  destruct (lookup_lt_is_Some_2 m (s + n) ltac:(lia)) as [c Hc].
  simpl memmove_down. load_at Hc. rewrite store_lt by lia.
  rewrite IH by (rewrite ?length_insert; lia).
  rewrite take_drop_insert_out by lia.
  rewrite inserts_insert_comm by (rewrite length_take_drop; lia).
  rewrite (take_drop_snoc m s n c Hc), <-inserts_snoc by (rewrite length_take_drop; lia).
  by rewrite length_take_drop by lia.
Qed.

(** (memmove): whatever the overlap of the two areas, [memmove] leaves at
    the destination exactly the [n] bytes the source area held before the
    call, and changes no other byte. *)
Theorem memmove_correct m d s n :
  (s + n <= length m)%nat -> (d + n <= length m)%nat ->
  memmove m d s n = Ret (list_inserts d (take n (drop s m)) m).
Proof.
  intros Hs Hd. unfold memmove. case_bool.
  - apply memcpy_forward; lia.
  - apply memmove_down_spec; lia.
Qed.

Lemma memmove_correct_witness :
  memmove [1; 2; 3; 4; 5; 6] 1 0 4 = Ret [1; 1; 2; 3; 4; 6].
Proof. apply (memmove_correct [1; 2; 3; 4; 5; 6] 1 0 4); simpl; lia. Defined.

Lemma strcpy_loop_spec fuel m d s str :
  cstr m s str -> (d + length str < length m)%nat -> (d <= s \/ s + length str < d)%nat ->
  (length str < fuel)%nat ->
  strcpy_loop fuel m d s = Ret (list_inserts d (str ++ [0]) m).
Proof.
  revert m d s str. induction fuel as [|fuel IH]; intros m d s str Hs Hd Ho Hf; [lia|].
  simpl. inversion Hs as [? Hc|? c str' Hc Hz Hs']; subst.
  - simpl in *. load_at Hc. by rewrite store_lt by lia.
  - simpl in *. load_at Hc. rewrite store_lt by lia. case_bool; [done|]. simpl.
    rewrite (IH _ _ _ str'); rewrite ?length_insert; try lia.
    + by rewrite inserts_cons.
    + apply cstr_insert_out; [done|lia].
Qed.

Lemma strncpy_spec m d s str n :
  cstr m s str -> (d + n <= length m)%nat -> (d + n <= s \/ s + length str < d)%nat ->
  strncpy m d s n = Ret (list_inserts d (take n str ++ replicate (n - length str) 0) m).
Proof.
  revert m d s str. induction n as [|n IH]; intros m d s str Hs Hd Ho; [done|].
  simpl strncpy. inversion Hs as [? Hc|? c str' Hc Hz Hs']; subst; simpl in *.
  - load_at Hc. rewrite store_lt by lia.
    rewrite (IH _ _ _ []); rewrite ?length_insert; try (simpl; lia).
    + simpl. rewrite take_nil, Nat.sub_0_r. simpl. by rewrite list_insert_inserts_lt by lia.
    + apply cstr_insert_out; [done|simpl; lia].
  - load_at Hc. rewrite store_lt by lia. case_bool; [done|]. simpl.
    rewrite (IH _ _ _ str'); rewrite ?length_insert; try lia.
    + by rewrite list_insert_inserts_lt by lia.
    + apply cstr_insert_out; [done|lia].
Qed.

(** (strncpy): the destination holds the first [n] characters of the
    source, padded with NULs up to [n]; nothing else changes. *)
Theorem strncpy_correct m d s str n :
  cstr m s str -> (d + n <= length m)%nat -> (d + n <= s \/ s + length str < d)%nat ->
  exists m', strncpy m d s n = Ret m' /\
    take n (drop d m') = take n str ++ replicate (n - length str) 0 /\
    (forall i, ~ (d <= i < d + n)%nat -> m' !! i = m !! i).
Proof.
  intros Hs Hd Ho. eexists. split; [by eapply strncpy_spec|].
  assert (Hl : length (take n str ++ replicate (n - length str) 0) = n).
  { rewrite length_app, length_take, length_replicate. lia. }
  split.
  - rewrite <-Hl at 1. apply bytes_at_eq; rewrite ?length_inserts, ?Hl; [lia|].
    apply bytes_at_inserts. lia.
  - intros i Hi. rewrite lookup_inserts_dec, decide_False by (rewrite Hl; lia). done.
Qed.

Lemma cstr_ab : cstr [97; 98; 0; 7; 7; 7; 7] 0 [97; 98].
Proof. repeat (constructor; simpl; try done). Qed.

Lemma strncpy_correct_witness :
  exists m', strncpy [97; 98; 0; 7; 7; 7; 7] 3 0 4 = Ret m' /\
    take 4 (drop 3 m') = [97; 98; 0; 0] /\
    (forall i, ~ (3 <= i < 3 + 4)%nat -> m' !! i = [97; 98; 0; 7; 7; 7; 7] !! i).
Proof. apply (strncpy_correct _ 3 0 [97; 98] 4); [apply cstr_ab|simpl; lia..]. Defined.

Lemma copy_terminated m d s str n :
  cstr m s str -> (n <= length str)%nat -> (d + n < length m)%nat ->
  (d + n < s \/ s + length str < d)%nat ->
  exists m1, memcpy m d s n = Ret m1 /\
    store m1 (d + n) 0 = Ret (list_inserts d (take n str ++ [0]) m).
Proof.
  intros Hs Hn Hd Ho. pose proof (cstr_bound m s str Hs).
  eexists. split; [apply memcpy_forward; lia|].
  rewrite store_lt by (rewrite length_inserts; lia).
  rewrite (cstr_take_drop m s str n Hs Hn).
  rewrite <-inserts_snoc by (rewrite length_take; lia).
  do 3 f_equal. rewrite length_take. lia.
Qed.

(** (strlcpy): for a non-empty buffer the result is always a terminated
    string that fits in it, namely the longest prefix of the source that
    does; bytes outside of the buffer are unchanged and the length of the
    source is returned. *)
Theorem strlcpy_correct m d s str size :
  cstr m s str -> (0 < size)%nat -> (d + size <= length m)%nat ->
  (d + size <= s \/ s + length str < d)%nat ->
  exists m', strlcpy m d s size = Ret (length str, m') /\
    cstr m' d (take (size - 1) str) /\ cstr m' s str /\
    (forall i, ~ (d <= i < d + size)%nat -> m' !! i = m !! i).
Proof.
  intros Hs Hsz Hd Ho. unfold strlcpy. rewrite (strlen_cstr m s str Hs).
  set (n := if (size <=? length str)%nat then (size - 1)%nat else length str).
  assert (Hn : (n <= length str /\ n < size)%nat) by (unfold n; case_bool; lia).
  assert (Ht : take n str = take (size - 1) str).
  { unfold n. case_bool; [done|]. by rewrite firstn_all, take_ge by lia. }
  destruct (copy_terminated m d s str n Hs) as (m1 & Hcp & Hst); [lia..|].
  rewrite Hcp, Hst. case_bool; [lia|]. simpl. rewrite Ht.
  assert (Hl : (length (take (size - 1) str) < size)%nat) by (rewrite length_take; lia).
  eexists. split_and!; [done| | |].
  - apply cstr_inserts_new; [lia|]. apply Forall_take. eauto with cmem.
  - apply cstr_inserts_out; [done|]. rewrite length_app. simpl. lia.
  - intros i Hi. rewrite lookup_inserts_dec, decide_False; [done|].
    rewrite length_app. simpl. lia.
Qed.

Lemma strlcpy_correct_witness :
  exists m', strlcpy [97; 98; 0; 7; 7; 7; 7] 3 0 2 = Ret (2%nat, m') /\
    cstr m' 3 [97] /\ cstr m' 0 [97; 98] /\
    (forall i, ~ (3 <= i < 3 + 2)%nat -> m' !! i = [97; 98; 0; 7; 7; 7; 7] !! i).
Proof. apply (strlcpy_correct _ 3 0 [97; 98] 2); [apply cstr_ab|simpl; lia..]. Defined.

(** (strlcat): when the destination string fits in its buffer the result
    is the concatenation cut to the buffer, always terminated, and the
    length it tried to create is returned; otherwise the call is a bug. *)
Theorem strlcat_correct m d s ds ss count :
  cstr m d ds -> cstr m s ss -> (d + count <= length m)%nat ->
  (d + count <= s \/ s + length ss < d)%nat ->
  if (count <=? length ds)%nat then strlcat m d s count = Err Bug
  else exists m', strlcat m d s count = Ret ((length ds + length ss)%nat, m') /\
    cstr m' d (take (count - 1) (ds ++ ss)) /\
    (forall i, ~ (d + length ds <= i < d + count)%nat -> m' !! i = m !! i).
Proof.
  intros Hd Hs Hc Ho. unfold strlcat.
  rewrite (strlen_cstr m d ds Hd), (strlen_cstr m s ss Hs).
  case_bool; [done|].
  set (n := if (count - length ds <=? length ss)%nat then (count - length ds - 1)%nat else length ss).
  assert (Hn : (n <= length ss /\ length ds + n < count)%nat) by (unfold n; case_bool; lia).
  destruct (copy_terminated m (d + length ds) s ss n Hs) as (m1 & Hcp & Hst); [lia..|].
  rewrite Hcp, Hst.
  assert (Hl : length (take n ss) = n) by (rewrite length_take; lia).
  eexists. split_and!; [done| |].
  - replace (take (count - 1) (ds ++ ss)) with (ds ++ take n ss).
    2: { unfold n. case_bool.
         - rewrite take_app_ge by lia. do 2 f_equal. lia.
         - rewrite firstn_all, take_ge; [done|]. rewrite length_app. lia. }
    apply cstr_intro.
    2: { apply Forall_app_2; [|apply Forall_take]; eauto with cmem. }
    intros i c Hi. rewrite lookup_inserts_dec, length_app, Hl. simpl.
    pose proof (lookup_lt_Some _ _ _ Hi) as Hlt. rewrite !length_app, Hl in Hlt. simpl in Hlt.
    rewrite <-app_assoc in Hi. destruct (decide (i < length ds)%nat) as [Hin|Hin].
    + rewrite lookup_app_l in Hi by done. rewrite decide_False by lia.
      by eapply cstr_lookup.
    + rewrite lookup_app_r in Hi by lia. rewrite decide_True by lia.
      rewrite <-Hi. f_equal. lia.
  - intros i Hi. rewrite lookup_inserts_dec, decide_False; [done|].
    rewrite length_app, Hl. simpl. lia.
Qed.

Lemma strlcat_correct_witness :
  exists m', strlcat [98; 99; 0; 97; 0; 7; 7] 3 0 3 = Ret (3%nat, m') /\
    cstr m' 3 [97; 98] /\
    (forall i, ~ (4 <= i < 6)%nat -> m' !! i = [98; 99; 0; 97; 0; 7; 7] !! i).
Proof.
  apply (strlcat_correct [98; 99; 0; 97; 0; 7; 7] 3 0 [97] [98; 99] 3);
    [repeat (constructor; simpl; try done)..|simpl; lia|simpl; lia].
Defined.

(** *** Comparison *)

(** The difference [strcmp] is after: that of the first characters that
    differ, the terminating NULs included. *)
Fixpoint str_diff (s t : list Z) : Z :=
  match s, t with
  | [], [] => 0
  | [], d :: _ => - d
  | c :: _, [] => c
  | c :: s, d :: t => if c =? d then str_diff s t else c - d
  end.

(** [s] comes before [t] in the lexicographic order of character codes. *)
Inductive lex_lt : list Z -> list Z -> Prop :=
| lex_nil d t : lex_lt [] (d :: t)
| lex_head c d s t : c < d -> lex_lt (c :: s) (d :: t)
| lex_tail c s t : lex_lt s t -> lex_lt (c :: s) (c :: t).

Definition ascii (s : list Z) : Prop := Forall (fun c => 0 < c < 128) s.

Lemma s8_zero z : -256 < z < 256 -> s8 z = 0 <-> z = 0.
Proof. unfold s8, swrap. intros. change (2 ^ 8) with 256. change (2 ^ (8 - 1)) with 128.
  split; [|by intros ->]. intros H1. Z.div_mod_to_equations. lia. Qed.

Lemma s8_small z : -128 <= z < 128 -> s8 z = z.
Proof. unfold s8, swrap. intros. change (2 ^ 8) with 256. change (2 ^ (8 - 1)) with 128.
  rewrite Z.mod_small by lia. lia. Qed.

Lemma byte_diff_range a b : is_byte a -> is_byte b -> -256 < a - b < 256.
Proof. unfold word. simpl. lia. Qed.

Lemma byte_zero : is_byte 0.
Proof. unfold word. simpl. lia. Qed.
#[export] Hint Resolve byte_zero : cword.

Lemma strcmp_loop_spec fuel m p q s t :
  Forall is_byte m -> cstr m p s -> cstr m q t -> (length s < fuel)%nat ->
  strcmp_loop fuel m p q = Ret (s8 (str_diff s t)).
Proof.
  intros Hm. revert p q s t. induction fuel as [|fuel IH]; intros p q s t Hs Ht Hf; [lia|].
  simpl. inversion Hs as [? Hc|? c s' Hc Hz Hs']; inversion Ht as [? Hd|? d t' Hd Hy Ht'];
    subst; load_at Hc; load_at Hd.
  1, 2: by rewrite ?orb_true_r.
  - rewrite Z.sub_0_r. destruct (Z.eqb_spec (s8 c) 0) as [E|E]; [|done].
    rewrite s8_zero in E; [done|]. rewrite <-(Z.sub_0_r c). apply byte_diff_range; eauto with cword.
  - pose proof (byte_diff_range c d ltac:(eauto with cword) ltac:(eauto with cword)) as Hr.
    destruct (Z.eqb_spec (s8 (c - d)) 0) as [E|E]; simpl.
    + rewrite s8_zero in E by done. destruct (Z.eqb_spec c 0); [done|].
      destruct (Z.eqb_spec c d); [|lia]. apply IH; [done..|simpl in Hf; lia].
    + destruct (Z.eqb_spec c d); [|done]. subst. by rewrite Z.sub_diag in E.
Qed.

Lemma strcmp_cstr m p q s t :
  Forall is_byte m -> cstr m p s -> cstr m q t -> strcmp m p q = Ret (s8 (str_diff s t)).
Proof.
  intros Hm Hs Ht. apply strcmp_loop_spec; [done..|].
  pose proof (cstr_bound m p s Hs). unfold fuel_of. lia.
Qed.

Definition byte_string (s : list Z) : Prop := Forall (fun c => 0 < c < 256) s.

Lemma str_diff_zero s t : byte_string s -> byte_string t -> s8 (str_diff s t) = 0 <-> s = t.
Proof.
  intros Hs. revert t. induction Hs as [|c s Hc Hs IH]; intros [|d t] Ht; simpl.
  - done.
  - apply Forall_cons_1 in Ht as [Hd _]. rewrite s8_zero by lia. split; [lia|done].
  - rewrite s8_zero by lia. split; [lia|done].
  - apply Forall_cons_1 in Ht as [Hd Ht]. case_bool.
    + subst. rewrite IH by done. split; [by intros ->|]. by intros [= ->].
    + rewrite s8_zero by lia. split; [lia|]. intros [= -> _]. lia.
Qed.

Lemma str_diff_neg s t : ascii s -> ascii t -> -128 <= str_diff s t < 128 /\ (str_diff s t < 0 <-> lex_lt s t).
Proof.
  intros Hs. revert t. induction Hs as [|c s Hc Hs IH]; intros [|d t] Ht; simpl.
  - split; [lia|]. split; [lia|]. inversion 1.
  - apply Forall_cons_1 in Ht as [Hd _]. split; [lia|]. split; [constructor|lia].
  - split; [lia|]. split; [lia|inversion 1].
  - apply Forall_cons_1 in Ht as [Hd Ht]. case_bool.
    + subst. specialize (IH t Ht) as [? IH]. split; [done|]. rewrite IH. split; [by constructor|].
      inversion 1; subst; [lia|done].
    + split; [lia|]. split; [intros; constructor; lia|]. inversion 1; subst; lia.
Qed.

(** (strcmp): the result is zero exactly for equal strings, and on 7-bit
    strings its sign is the lexicographic order. *)
Theorem strcmp_correct m p q s t :
  Forall is_byte m -> cstr m p s -> cstr m q t -> byte_string s -> byte_string t ->
  exists r, strcmp m p q = Ret r /\ (r = 0 <-> s = t) /\
    (ascii s -> ascii t -> (r < 0 <-> lex_lt s t)).
Proof.
  intros Hm Hs Ht Hbs Hbt. exists (s8 (str_diff s t)). split_and!.
  - by apply strcmp_cstr.
  - by apply str_diff_zero.
  - intros Has Hat. destruct (str_diff_neg s t Has Hat) as [? <-]. by rewrite s8_small.
Qed.

Definition cmp_mem : mem := [97; 98; 0; 97; 99; 0].

Lemma strcmp_correct_witness :
  exists r, strcmp cmp_mem 0 3 = Ret r /\ (r = 0 <-> [97; 98] = [97; 99]) /\
    (ascii [97; 98] -> ascii [97; 99] -> (r < 0 <-> lex_lt [97; 98] [97; 99])).
Proof.
  apply (strcmp_correct cmp_mem 0 3 [97; 98] [97; 99]);
    repeat (constructor; unfold word; simpl; try done; try lia).
Defined.

(** (strcmp order): outside of 7-bit strings the sign is not that order:
    the difference of the characters is cut to a signed char, so a string
    whose first character is 0x80 or above compares below the empty one. *)
Theorem strcmp_high_char_below_empty c :
  128 <= c < 256 -> exists r, strcmp [c; 0; 0] 0 2 = Ret r /\ r < 0 /\ lex_lt [] [c].
Proof.
  intros Hc. exists (c - 256). split_and!; [|lia|constructor].
  rewrite (strcmp_cstr _ 0 2 [c] []).
  - f_equal. simpl. unfold s8, swrap. change (2 ^ 8) with 256. change (2 ^ (8 - 1)) with 128.
    Z.div_mod_to_equations. lia.
  - repeat constructor; unfold word; simpl; lia.
  - constructor; [done|lia|]. by constructor.
  - by constructor.
Qed.

Lemma strcmp_high_char_below_empty_witness :
  exists r, strcmp [200; 0; 0] 0 2 = Ret r /\ r < 0 /\ lex_lt [] [200].
Proof. apply (strcmp_high_char_below_empty 200). lia. Defined.

(** *** Case-insensitive comparison *)

Lemma strnicmp_loop_spec m p q s t c1 c2 len :
  Forall is_byte m -> cstr m p s -> cstr m q t -> c1 = c2 ->
  exists d1 d2, strnicmp_loop m p q c1 c2 len = Ret (d1, d2) /\
    (d1 - d2 = 0 <-> take len (map tolower s) = take len (map tolower t)).
Proof.
  intros Hm. revert p q s t c1 c2. induction len as [|len IH]; intros p q s t c1 c2 Hs Ht E.
  { exists c1, c2. split; [done|]. split; [done|lia]. }
  simpl. inversion Hs as [? Hc|? c s' Hc Hz Hs']; inversion Ht as [? Hd|? d t' Hd Hy Ht'];
    subst; load_at Hc; load_at Hd.
  - by eexists _, _.
  - eexists _, _. split; [done|]. split; [lia|done].
  - case_bool; [done|]. eexists _, _. split; [done|]. split; [lia|done].
  - destruct (Z.eqb_spec c 0); [done|]. destruct (Z.eqb_spec d 0); [done|].
    destruct (Z.eqb_spec c d) as [->|Hcd].
    + destruct (IH (S p) (S q) s' t' d d) as (d1 & d2 & H1 & H2); [done..|].
      exists d1, d2. split; [done|]. rewrite H2. split; [by intros ->|]. by intros [= ->].
    + destruct (Z.eqb_spec (tolower c) (tolower d)) as [El|El]; simpl.
      * destruct (IH (S p) (S q) s' t' (tolower c) (tolower d)) as (d1 & d2 & H1 & H2); [done..|].
        exists d1, d2. split; [done|]. rewrite H2, El. split; [by intros ->|]. by intros [= ->].
      * eexists _, _. split; [done|]. split; [lia|]. intros [= E _]. lia.
Qed.

(** (strnicmp): zero is returned exactly when the two strings agree, up
    to case, on their first [len] characters. *)
Theorem strnicmp_correct m p q s t len :
  Forall is_byte m -> cstr m p s -> cstr m q t ->
  exists r, strnicmp m p q len = Ret r /\
    (r = 0 <-> take len (map tolower s) = take len (map tolower t)).
Proof.
  intros Hm Hs Ht. unfold strnicmp.
  destruct (strnicmp_loop_spec m p q s t 0 0 len Hm Hs Ht eq_refl) as (d1 & d2 & -> & H). eauto.
Qed.

Definition nicmp_mem : mem := [65; 98; 0; 97; 66; 99; 0].

Lemma strnicmp_correct_witness :
  exists r, strnicmp nicmp_mem 0 3 2 = Ret r /\
    (r = 0 <-> take 2 (map tolower [65; 98]) = take 2 (map tolower [97; 66; 99])).
Proof.
  apply (strnicmp_correct nicmp_mem 0 3 [65; 98] [97; 66; 99] 2);
    repeat (constructor; unfold word; simpl; try done; try lia).
Defined.

(** *** Searching *)

Lemma memcmp_loop_spec m p q a b :
  bytes_at m p a -> bytes_at m q b -> length a = length b ->
  exists r, memcmp_loop m p q 0 (length a) = Ret r /\ (r = 0 <-> a = b).
Proof.
  revert p q b. induction a as [|x a IH]; intros p q [|y b] Ha Hb Hl; simplify_eq/=.
  { exists 0. by split. }
  pose proof (Ha 0%nat x eq_refl) as Hx. pose proof (Hb 0%nat y eq_refl) as Hy.
  rewrite Nat.add_0_r in Hx, Hy. load_at Hx. load_at Hy.
  destruct (Z.eqb_spec (x - y) 0) as [E|E]; simpl.
  - rewrite E. destruct (IH (S p) (S q) b) as (r & -> & Hr); [..|done|].
    + intros i c Hi. rewrite <-(Ha (S i) c Hi). f_equal. lia.
    + intros i c Hi. rewrite <-(Hb (S i) c Hi). f_equal. lia.
    + exists r. split; [done|]. rewrite Hr. split; [intros ->; f_equal; lia|by intros [= _ ->]].
  - eexists. split; [done|]. split; [done|]. intros [= -> _]. lia.
Qed.

Lemma memcmp_correct m p q a b n :
  bytes_at m p a -> bytes_at m q b -> length a = n -> length b = n ->
  exists r, memcmp m p q n = Ret r /\ (r = 0 <-> a = b).
Proof. intros Ha Hb <- Hb'. by apply memcmp_loop_spec. Qed.

Lemma cstr_prefix_bytes m p s n : cstr m p s -> bytes_at m p (take n s).
Proof.
  intros Hs i c Hi. apply lookup_take_Some in Hi as [Hi _]. by eapply cstr_lookup.
Qed.

(** [first_at P n r]: [r] is the first index up to [n] where [P] holds, if
    there is one. *)
Definition first_at (P : nat -> Prop) (n : nat) (r : option nat) : Prop :=
  match r with
  | Some i => (i <= n)%nat /\ P i /\ forall j, (j < i)%nat -> ~ P j
  | None => forall j, (j <= n)%nat -> ~ P j
  end.

Lemma first_at_step (P : nat -> Prop) n r :
  ~ P 0%nat -> first_at (fun i => P (S i)) n r -> first_at P (S n) (S <$> r).
Proof.
  intros H0 Hr. destruct r as [i|]; simpl in *.
  - destruct Hr as (? & ? & Hm). split_and!; [lia|done|]. intros [|j] Hj; [done|]. apply Hm. lia.
  - intros [|j] Hj; [done|]. apply Hr. lia.
Qed.

Lemma strstr_loop_spec m p q s t :
  cstr m p s -> cstr m q t -> t <> [] ->
  exists r, strstr_loop m p q (length s) (length t) = Ret ((fun i => p + i)%nat <$> r) /\
    first_at (fun i => t `prefix_of` drop i s) (length s) r.
Proof.
  intros Hs Ht Hne. induction Hs as [p Hp|p c s Hp Hc Hs IH].
  { exists None. destruct t; [done|]. split; [done|]. simpl.
    intros j _ [k Hk]. by rewrite drop_nil in Hk. }
  simpl strstr_loop. case_bool.
  2: { exists None. split; [done|]. intros j Hj [k Hk].
       apply (f_equal length) in Hk. rewrite length_app, length_drop in Hk. simpl in *. lia. }
  assert (Hcs : cstr m p (c :: s)) by (by constructor).
  destruct (memcmp_correct m p q (take (length t) (c :: s)) t (length t)) as (r & -> & Hr).
  { by apply cstr_prefix_bytes. }
  { rewrite <-(firstn_all t). by apply cstr_prefix_bytes. }
  { rewrite length_take. simpl in *. lia. }
  { done. }
  destruct (Z.eqb_spec r 0) as [E|E].
  - exists (Some 0%nat). simpl. rewrite Nat.add_0_r. split; [done|]. split_and!; [lia| |lia].
    apply Hr in E. exists (drop (length t) (c :: s)). rewrite <-E at 1.
    by rewrite firstn_skipn.
  - destruct IH as (r' & -> & Hr'). exists (S <$> r'). split.
    + destruct r'; simpl; [|done]. do 2 f_equal. lia.
    + apply first_at_step; [|done]. intros [k Hk]. rewrite drop_0 in Hk. apply E, Hr.
      rewrite Hk. by rewrite take_app_length.
Qed.

(** (strstr): the address of the first occurrence of the second string in
    the first is returned, and [NULL] exactly when there is none. *)
Theorem strstr_correct m p q s t :
  cstr m p s -> cstr m q t ->
  exists r, strstr m p q = Ret ((fun i => p + i)%nat <$> r) /\
    first_at (fun i => t `prefix_of` drop i s) (length s) r.
Proof.
  intros Hs Ht. unfold strstr. rewrite (strlen_cstr m q t Ht), (strlen_cstr m p s Hs).
  case_bool.
  - exists (Some 0%nat). simpl. rewrite Nat.add_0_r. split; [done|]. split_and!; [lia| |lia].
    destruct t; [|done]. apply prefix_nil.
  - apply strstr_loop_spec; [done..|]. by destruct t.
Qed.

Definition strstr_mem : mem := [97; 98; 97; 99; 0; 97; 99; 0].

Lemma strstr_correct_witness :
  exists r, strstr strstr_mem 0 5 = Ret ((fun i => 0 + i)%nat <$> r) /\
    first_at (fun i => [97; 99] `prefix_of` drop i [97; 98; 97; 99]) 4 r.
Proof.
  apply (strstr_correct strstr_mem 0 5 [97; 98; 97; 99] [97; 99]);
    repeat (constructor; simpl; try done).
Defined.

Lemma scan_set_spec fuel m a set c :
  cstr m a set -> (length set < fuel)%nat -> scan_set fuel m a c = Ret (bool_decide (c ∈ set)).
Proof.
  intros Hs. revert fuel. induction Hs as [a Ha|a x set Ha Hx Hs IH]; intros [|fuel] Hf;
    simpl in Hf; try lia; simpl scan_set; rewrite (load_Some _ _ _ Ha).
  - by rewrite bool_decide_false by set_solver.
  - destruct (Z.eqb_spec x 0); [done|]. destruct (Z.eqb_spec c x) as [->|].
    + by rewrite bool_decide_true by set_solver.
    + rewrite IH by lia. f_equal. apply bool_decide_ext. set_solver.
Qed.

Lemma scan_set_fuel_of m a set c :
  cstr m a set -> scan_set (fuel_of m) m a c = Ret (bool_decide (c ∈ set)).
Proof.
  intros Hs. apply scan_set_spec; [done|]. pose proof (cstr_bound m a set Hs). unfold fuel_of. lia.
Qed.

(** The length of the longest prefix whose characters satisfy [P]. *)
Fixpoint span (P : Z -> bool) (s : list Z) : nat :=
  match s with
  | [] => 0
  | c :: s => if P c then S (span P s) else 0
  end.

Lemma strspn_loop_spec fuel m p a s set count :
  cstr m p s -> cstr m a set -> (length s < fuel)%nat ->
  strspn_loop fuel m p a count = Ret (count + span (fun c => bool_decide (c ∈ set)) s)%nat.
Proof.
  intros Hs Ha. revert fuel count. induction Hs as [p Hp|p c s Hp Hc Hs IH]; intros [|fuel] count Hf;
    simpl in Hf; try lia; cbn [strspn_loop span length]; rewrite (load_Some _ _ _ Hp).
  - by rewrite Nat.add_0_r.
  - case_bool; [done|]. rewrite (scan_set_fuel_of m a set) by done.
    case_bool_decide; simpl; [|by rewrite Nat.add_0_r]. rewrite IH by lia. f_equal. lia.
Qed.

Lemma strcspn_loop_spec fuel m p a s set count :
  cstr m p s -> cstr m a set -> (length s < fuel)%nat ->
  strcspn_loop fuel m p a count = Ret (count + span (fun c => negb (bool_decide (c ∈ set))) s)%nat.
Proof.
  intros Hs Ha. revert fuel count. induction Hs as [p Hp|p c s Hp Hc Hs IH]; intros [|fuel] count Hf;
    simpl in Hf; try lia; cbn [strcspn_loop span length]; rewrite (load_Some _ _ _ Hp).
  - by rewrite Nat.add_0_r.
  - case_bool; [done|]. rewrite (scan_set_fuel_of m a set) by done.
    case_bool_decide; simpl; [by rewrite Nat.add_0_r|]. rewrite IH by lia. f_equal. lia.
Qed.

(** (strspn/strcspn): the two routines return the length of the longest
    prefix made of accepted, respectively not rejected, characters. *)
Theorem strspn_strcspn_correct m p a s set :
  cstr m p s -> cstr m a set ->
  strspn m p a = Ret (span (fun c => bool_decide (c ∈ set)) s) /\
  strcspn m p a = Ret (span (fun c => negb (bool_decide (c ∈ set))) s).
Proof.
  intros Hs Ha. pose proof (cstr_bound m p s Hs).
  unfold strspn, strcspn, fuel_of.
  rewrite (strspn_loop_spec _ m p a s set), (strcspn_loop_spec _ m p a s set) by (done || lia).
  done.
Qed.

Lemma strspn_strcspn_correct_witness :
  strspn strstr_mem 0 5 = Ret 1%nat /\ strcspn strstr_mem 0 5 = Ret 0%nat.
Proof.
  apply (strspn_strcspn_correct strstr_mem 0 5 [97; 98; 97; 99] [97; 99]);
    repeat (constructor; simpl; try done).
Defined.

Lemma strpbrk_loop_spec fuel m p a s set :
  cstr m p s -> cstr m a set -> (length s < fuel)%nat ->
  strpbrk_loop fuel m p a =
    let n := span (fun c => negb (bool_decide (c ∈ set))) s in
    Ret (if (n <? length s)%nat then Some (p + n)%nat else None).
Proof.
  intros Hs Ha. revert fuel. induction Hs as [p Hp|p c s Hp Hc Hs IH]; intros [|fuel] Hf;
    simpl in Hf; try lia; cbn [strpbrk_loop span length]; rewrite (load_Some _ _ _ Hp); [done|].
  destruct (Z.eqb_spec c 0); [done|]. rewrite (scan_set_fuel_of m a set) by done.
  case_bool_decide; simpl.
  - by rewrite Nat.add_0_r.
  - rewrite IH by lia. simpl. repeat case_bool; try lia; [|done]. do 2 f_equal. lia.
Qed.

Lemma span_le P s : (span P s <= length s)%nat.
Proof. induction s; simpl; [lia|]. case_match; lia. Qed.

(** (strsep): with a separator present, the token is the part before the
    first one, now terminated in place, and [*s] points right after it;
    without one the whole string is the last token. *)
Theorem strsep_correct m p ct s seps :
  cstr m p s -> cstr m ct seps -> (p + length s < ct \/ ct + length seps < p)%nat ->
  let n := span (fun c => negb (bool_decide (c ∈ seps))) s in
  if (n <? length s)%nat then
    exists m', strsep m (Some p) ct = Ret (Some p, Some (p + n + 1)%nat, m') /\
      cstr m' p (take n s) /\ cstr m' (p + n + 1)%nat (drop (S n) s) /\ cstr m' ct seps
  else strsep m (Some p) ct = Ret (Some p, None, m).
Proof.
  intros Hs Hc Ho n. pose proof (cstr_bound m p s Hs).
  unfold strsep, strpbrk. rewrite (strpbrk_loop_spec _ m p ct s seps) by (done || unfold fuel_of; lia).
  simpl. fold n. case_bool; [|done]. rewrite store_lt by lia.
  exists (<[(p + n)%nat := 0]> m). split_and!.
  - by replace (S (p + n)) with (p + n + 1)%nat by lia.
  - change (<[(p + n)%nat := 0]> m) with (list_inserts (p + n) [0] m). apply cstr_intro.
    + intros i c Hi. rewrite lookup_inserts_dec. simpl.
      apply lookup_app_Some in Hi as [Hi|[Hl Hi]].
      * pose proof (lookup_lt_Some _ _ _ Hi) as Hlt. rewrite length_take in Hlt.
        rewrite decide_False by lia. apply lookup_take_Some in Hi as [Hi _]. by eapply cstr_lookup.
      * rewrite length_take in *. destruct (i - n `min` length s)%nat as [|k] eqn:E; [|done].
        rewrite decide_True by lia. by replace (p + i - (p + n))%nat with 0%nat by lia.
    + apply Forall_take. eauto with cmem.
  - apply cstr_insert_out; [|left; lia].
    replace (p + n + 1)%nat with (p + S n)%nat by lia. apply cstr_drop; [done|lia].
  - apply cstr_insert_out; [done|lia].
Qed.

Definition sep_mem : mem := [97; 58; 98; 0; 58; 0].

Lemma strsep_correct_witness :
  exists m', strsep sep_mem (Some 0%nat) 4 = Ret (Some 0%nat, Some 2%nat, m') /\
    cstr m' 0 [97] /\ cstr m' 2 [98] /\ cstr m' 4 [58].
Proof.
  apply (strsep_correct sep_mem 0 4 [97; 58; 98] [58]);
    [repeat (constructor; simpl; try done)..|simpl; lia].
Defined.
