(* ===== verification/Vsprintf.v ===== *)
(** * Formatted printing and number parsing (kernel lib/vsprintf.c)

    Parsers take the not yet read suffix of a NUL-terminated string as a list
    of characters ([*cp] is [peek cp], 0 at the end) and return the suffix
    where they stop.  [vsnprintf] writes into the checked memory of [CMem]
    through [putc], which is the guarded store the source repeats; format and
    string arguments are constant strings, a [%n] argument names a variable of
    the caller, and [long] and pointers are 32 bits wide: the pointer into the
    buffer wraps, and so do the [int] width and precision.  [render] is the
    reference: the text of a format as a list, without buffer and address. *)

From S2P Require Import Prelude CMem Ctype KString.

Definition peek (cp : list Z) : Z := hd 0 cp.
Definition peek1 (cp : list Z) : Z := hd 0 (tl cp).

(** ** Reading numbers *)

Definition digit_value (c : Z) : Z := if isdigit c then c - 48 else toupper c - 65 + 10.

(** The common prefix handling of the strto* routines: base detection and
    the optional 0x. *)
Definition strto_prefix (cp : list Z) (base : Z) : list Z * Z :=
  if base =? 0 then
    if peek cp =? 48 then
      let cp := tl cp in
      if (toupper (peek cp) =? 88) && isxdigit (peek1 cp) then (tl cp, 16) else (cp, 8)
    else (cp, 10)
  else if base =? 16 then
    if (peek cp =? 48) && (toupper (peek1 cp) =? 88) then (tl (tl cp), base) else (cp, base)
  else (cp, base).

Fixpoint strto_loop (w : Z) (cp : list Z) (base result : Z) : Z * list Z :=
  match cp with
  | [] => (result, cp)
  | c :: cp' =>
      if isxdigit c && (digit_value c <? base)
      then strto_loop w cp' base (wrap w (result * base + digit_value c))
      else (result, cp)
  end.

Definition simple_strtoul (cp : list Z) (base : Z) : Z * list Z :=
  let '(cp, base) := strto_prefix cp base in strto_loop 32 cp base 0.

Definition simple_strtol (cp : list Z) (base : Z) : Z * list Z :=
  if peek cp =? 45 then
    let '(r, e) := simple_strtoul (tl cp) base in (s32 (- r), e)
  else
    let '(r, e) := simple_strtoul cp base in (s32 r, e).

(** The digit of [simple_strtoull] spells its [toupper] out. *)
Definition digit_value_ll (c : Z) : Z :=
  if isdigit c then c - 48 else (if islower c then toupper c else c) - 65 + 10.

Fixpoint strtoull_loop (cp : list Z) (base result : Z) : Z * list Z :=
  match cp with
  | [] => (result, cp)
  | c :: cp' =>
      if isxdigit c && (digit_value_ll c <? base)
      then strtoull_loop cp' base (u64 (result * base + digit_value_ll c))
      else (result, cp)
  end.

Definition simple_strtoull (cp : list Z) (base : Z) : Z * list Z :=
  let '(cp, base) := strto_prefix cp base in strtoull_loop cp base 0.

Definition simple_strtoll (cp : list Z) (base : Z) : Z * list Z :=
  if peek cp =? 45 then
    let '(r, e) := simple_strtoull (tl cp) base in (s64 (- r), e)
  else
    let '(r, e) := simple_strtoull cp base in (s64 r, e).

Fixpoint skip_atoi_loop (s : list Z) (i : Z) : Z * list Z :=
  match s with
  | [] => (i, s)
  | c :: s' => if isdigit c then skip_atoi_loop s' (s32 (i * 10 + c - 48)) else (i, s)
  end.

Definition skip_atoi (s : list Z) : Z * list Z := skip_atoi_loop s 0.

(** ** Writing *)

Definition ZEROPAD : Z := 1.
Definition SIGN : Z := 2.
Definition PLUS : Z := 4.
Definition SPACE : Z := 8.
Definition LEFT : Z := 16.
Definition SPECIAL : Z := 32.
Definition LARGE : Z := 64.

Definition has (flags f : Z) : bool := negb (Z.land flags f =? 0).

(** [if (buf <= end) *buf = c; ++buf;], where [++buf] wraps at the end of the
    address space. *)
Definition putc (e : Z) (m : mem) (buf : Z) (c : Z) : outcome (mem * Z) :=
  if buf <=? e then
    let! m := store m (Z.to_nat buf) c in Ret (m, u32 (buf + 1))
  else Ret (m, u32 (buf + 1)).

(** [n] characters [c]. *)
Fixpoint fill (e : Z) (m : mem) (buf : Z) (c : Z) (n : nat) : outcome (mem * Z) :=
  match n with
  | O => Ret (m, buf)
  | S n => let! (m, buf) := putc e m buf c in fill e m buf c n
  end.

Fixpoint put_list (e : Z) (m : mem) (buf : Z) (cs : list Z) : outcome (mem * Z) :=
  match cs with
  | [] => Ret (m, buf)
  | c :: cs => let! (m, buf) := putc e m buf c in put_list e m buf cs
  end.

Definition small_digits : list Z :=
  [48;49;50;51;52;53;54;55;56;57;
   97;98;99;100;101;102;103;104;105;106;107;108;109;110;111;112;113;114;115;116;117;118;119;120;121;122].
Definition large_digits : list Z :=
  [48;49;50;51;52;53;54;55;56;57;
   65;66;67;68;69;70;71;72;73;74;75;76;77;78;79;80;81;82;83;84;85;86;87;88;89;90].

Definition digit (digits : list Z) (d : Z) : Z := nth (Z.to_nat d) digits 0.

(** [tmp], least significant digit first; [tmp] has 66 cells and a 64-bit
    number at most 64 digits. *)
Fixpoint digits_loop (fuel : nat) (digits : list Z) (base num : Z) : outcome (list Z) :=
  if num =? 0 then Ret []
  else match fuel with
       | O => Err Diverge
       | S fuel =>
           let! r := digits_loop fuel digits base (num / base) in
           Ret (digit digits (num mod base) :: r)
       end.

Definition digits_of (digits : list Z) (base num : Z) : outcome (list Z) :=
  if num =? 0 then Ret [48] else digits_loop 66 digits base num.

(** [while (b < w--)] and [while (--w > 0)] on an [int] [w], which wraps: the
    number of iterations and the value left. *)
Definition postdec (b w : Z) : nat * Z :=
  if b <? w then (Z.to_nat (w - b), s32 (b - 1)) else (0%nat, s32 (w - 1)).
Definition predec (w : Z) : nat * Z :=
  let w := s32 (w - 1) in if 0 <? w then (Z.to_nat w, 0) else (0%nat, w).

(** The sign character (0 for none), and the number and width left. *)
Definition number_sign (num size type : Z) : Z * Z * Z :=
  if has type SIGN then
    if s64 num <? 0 then (45, u64 (- s64 num), s32 (size - 1))
    else if has type PLUS then (43, num, s32 (size - 1))
    else if has type SPACE then (32, num, s32 (size - 1))
    else (0, num, size)
  else (0, num, size).

Definition number (e : Z) (m : mem) (buf num base size precision type : Z) :
    outcome (option Z * mem) :=
  let digits := if has type LARGE then large_digits else small_digits in
  let type := if has type LEFT then Z.land type (Z.lnot ZEROPAD) else type in
  if (base <? 2) || (36 <? base) then Ret (None, m)
  else
    let c := if has type ZEROPAD then 48 else 32 in
    let '(sign, num, size) := number_sign num size type in
    let size :=
      if has type SPECIAL then
        if base =? 16 then s32 (size - 2) else if base =? 8 then s32 (size - 1) else size
      else size in
    let! tmp := digits_of digits base num in
    let i := Z.of_nat (length tmp) in
    let precision := if precision <? i then i else precision in
    let size := s32 (size - precision) in
    let! (m, buf, size) :=
      (if negb (has type (ZEROPAD + LEFT)) then
         let '(n, size) := postdec 0 size in
         let! (m, buf) := fill e m buf 32 n in Ret (m, buf, size)
       else Ret (m, buf, size)) in
    let! (m, buf) := (if negb (sign =? 0) then putc e m buf sign else Ret (m, buf)) in
    let! (m, buf) :=
      (if has type SPECIAL then
         if base =? 8 then putc e m buf 48
         else if base =? 16 then
           let! (m, buf) := putc e m buf 48 in putc e m buf (digit digits 33)
         else Ret (m, buf)
       else Ret (m, buf)) in
    let! (m, buf, size) :=
      (if negb (has type LEFT) then
         let '(n, size) := postdec 0 size in
         let! (m, buf) := fill e m buf c n in Ret (m, buf, size)
       else Ret (m, buf, size)) in
    let! (m, buf) := fill e m buf 48 (postdec i precision).1 in
    let! (m, buf) := put_list e m buf (rev tmp) in
    let! (m, buf) := fill e m buf 32 (postdec 0 size).1 in
    Ret (Some buf, m).

(** *** The format loop *)

Inductive varg :=
| VNum (z : Z)             (* an integer or a [void *] *)
| VStr (s : list Z)        (* a [char *] to a constant string *)
| VNull                    (* a [char *] below [PAGE_SIZE] *)
| VOut (cell : nat).       (* the target of a [%n] *)

Definition arg_num (args : list varg) : outcome (Z * list varg) :=
  match args with VNum z :: args => Ret (z, args) | _ => Err Bug end.

Definition null_str : list Z := [60; 78; 85; 76; 76; 62].

Definition arg_str (args : list varg) : outcome (list Z * list varg) :=
  match args with
  | VStr s :: args => Ret (s, args)
  | VNull :: args => Ret (null_str, args)
  | _ => Err Bug
  end.

Fixpoint parse_flags (fmt : list Z) (flags : Z) : list Z * Z :=
  match fmt with
  | [] => (fmt, flags)
  | c :: f =>
      if c =? 45 then parse_flags f (Z.lor flags LEFT)
      else if c =? 43 then parse_flags f (Z.lor flags PLUS)
      else if c =? 32 then parse_flags f (Z.lor flags SPACE)
      else if c =? 35 then parse_flags f (Z.lor flags SPECIAL)
      else if c =? 48 then parse_flags f (Z.lor flags ZEROPAD)
      else (fmt, flags)
  end.

Definition parse_width (fmt : list Z) (flags : Z) (args : list varg) :
    outcome (list Z * Z * Z * list varg) :=
  if isdigit (peek fmt) then
    let '(w, fmt) := skip_atoi fmt in Ret (fmt, w, flags, args)
  else if peek fmt =? 42 then
    let! (z, args) := arg_num args in
    let w := s32 z in
    if w <? 0 then Ret (tl fmt, s32 (- w), Z.lor flags LEFT, args)
    else Ret (tl fmt, w, flags, args)
  else Ret (fmt, -1, flags, args).

Definition parse_precision (fmt : list Z) (args : list varg) :
    outcome (list Z * Z * list varg) :=
  if peek fmt =? 46 then
    let fmt := tl fmt in
    let! (fmt, p, args) :=
      (if isdigit (peek fmt) then
         let '(p, fmt) := skip_atoi fmt in Ret (fmt, p, args)
       else if peek fmt =? 42 then
         let! (z, args) := arg_num args in Ret (tl fmt, s32 z, args)
       else Ret (fmt, -1, args)) in
    Ret (fmt, (if p <? 0 then 0 else p), args)
  else Ret (fmt, -1, args).

(** The qualifier: 'h', 'l', 'L', 'Z', 'z', 't' or -1. *)
Definition parse_qualifier (fmt : list Z) : list Z * Z :=
  let c := peek fmt in
  if (c =? 104) || (c =? 108) || (c =? 76) || (c =? 90) || (c =? 122) || (c =? 116) then
    if (c =? 108) && (peek1 fmt =? 108) then (tl (tl fmt), 76) else (tl fmt, c)
  else (fmt, -1).

Definition fmt_char (e : Z) (m : mem) (str field_width flags : Z) (args : list varg) :
    outcome (mem * Z * list varg) :=
  let '(n, field_width) := if has flags LEFT then (0%nat, field_width) else predec field_width in
  let! (m, str) := fill e m str 32 n in
  let! (z, args) := arg_num args in
  let! (m, str) := putc e m str (u8 z) in
  let! (m, str) := fill e m str 32 (predec field_width).1 in
  Ret (m, str, args).

(** [strnlen (s, precision)], as an [int]. *)
Definition str_len (s : list Z) (precision : Z) : Z :=
  s32 (Z.of_nat (if precision <? 0 then length s else Nat.min (Z.to_nat precision) (length s))).

Definition fmt_str (e : Z) (m : mem) (str field_width precision flags : Z) (args : list varg) :
    outcome (mem * Z * list varg) :=
  let! (s, args) := arg_str args in
  let len := str_len s precision in
  let '(n, field_width) := if has flags LEFT then (0%nat, field_width) else postdec len field_width in
  let! (m, str) := fill e m str 32 n in
  let! (m, str) := put_list e m str (take (Z.to_nat len) s) in
  let! (m, str) := fill e m str 32 (postdec len field_width).1 in
  Ret (m, str, args).

(** The value an integer conversion prints, from its argument slot. *)
Definition conv_num (qualifier flags z : Z) : Z :=
  if qualifier =? 76 then u64 z
  else if qualifier =? 108 then if has flags SIGN then u64 (s32 z) else u32 z
  else if (qualifier =? 90) || (qualifier =? 122) then u32 z
  else if qualifier =? 116 then u64 (s32 z)
  else if qualifier =? 104 then if has flags SIGN then u64 (swrap 16 z) else u16 z
  else if has flags SIGN then u64 (s32 z) else u32 z.

Definition fmt_number (e : Z) (m : mem) (str num base field_width precision flags : Z) :
    outcome (mem * Z) :=
  let! (r, m) := number e m str num base field_width precision flags in
  match r with Some str => Ret (m, str) | None => Err Fault end.

Definition fmt_int (e : Z) (m : mem) (str base field_width precision qualifier flags : Z)
    (args : list varg) : outcome (mem * Z * list varg) :=
  let! (z, args) := arg_num args in
  let! (m, str) := fmt_number e m str (conv_num qualifier flags z) base field_width precision flags in
  Ret (m, str, args).

Definition fmt_ptr (e : Z) (m : mem) (str field_width precision flags : Z) (args : list varg) :
    outcome (mem * Z * list varg) :=
  let '(field_width, flags) :=
    if field_width =? -1 then (8, Z.lor flags ZEROPAD) else (field_width, flags) in
  let! (z, args) := arg_num args in
  let! (m, str) := fmt_number e m str (u32 z) 16 field_width precision flags in
  Ret (m, str, args).

(** The state of the loop: memory, [str], the arguments left, and the values
    stored by [%n] so far. *)
Record pstate := PState { p_mem : mem; p_str : Z; p_args : list varg; p_outs : list (nat * Z) }.

Definition keep_outs (outs : list (nat * Z)) (r : outcome (mem * Z * list varg)) : outcome pstate :=
  let! (m, str, args) := r in Ret (PState m str args outs).

(** One conversion, [c] being its last character. *)
Definition convert (buf e : Z) (c field_width precision qualifier flags : Z) (st : pstate) :
    outcome pstate :=
  let '(PState m str args outs) := st in
  if c =? 99 then keep_outs outs (fmt_char e m str field_width flags args)
  else if c =? 115 then keep_outs outs (fmt_str e m str field_width precision flags args)
  else if c =? 112 then keep_outs outs (fmt_ptr e m str field_width precision flags args)
  else if c =? 110 then
    match args with
    | VOut cell :: args => Ret (PState m str args (outs ++ [(cell, s32 (str - buf))]))
    | _ => Err Bug
    end
  else if c =? 37 then
    let! (m, str) := putc e m str 37 in Ret (PState m str args outs)
  else if c =? 111 then keep_outs outs (fmt_int e m str 8 field_width precision qualifier flags args)
  else if c =? 88 then
    keep_outs outs (fmt_int e m str 16 field_width precision qualifier (Z.lor flags LARGE) args)
  else if c =? 120 then keep_outs outs (fmt_int e m str 16 field_width precision qualifier flags args)
  else if (c =? 100) || (c =? 105) then
    keep_outs outs (fmt_int e m str 10 field_width precision qualifier (Z.lor flags SIGN) args)
  else if c =? 117 then keep_outs outs (fmt_int e m str 10 field_width precision qualifier flags args)
  else
    let! (m, str) := putc e m str 37 in
    if c =? 0 then Ret (PState m str args outs)
    else let! (m, str) := putc e m str c in Ret (PState m str args outs).

(** Everything between a '%' and the end of its conversion. *)
Definition directive (buf e : Z) (fmt : list Z) (st : pstate) : outcome (list Z * pstate) :=
  let '(fmt, flags) := parse_flags fmt 0 in
  let! (fmt, field_width, flags, args) := parse_width fmt flags (p_args st) in
  let! (fmt, precision, args) := parse_precision fmt args in
  let '(fmt, qualifier) := parse_qualifier fmt in
  let! st := convert buf e (peek fmt) field_width precision qualifier flags
               (PState (p_mem st) (p_str st) args (p_outs st)) in
  Ret ((if peek fmt =? 0 then [] else tl fmt), st).

Fixpoint format_loop (fuel : nat) (buf e : Z) (fmt : list Z) (st : pstate) : outcome pstate :=
  match fmt with
  | [] => Ret st
  | c :: fmt' =>
      if c =? 0 then Ret st
      else match fuel with
      | O => Err Diverge
      | S fuel =>
          if negb (c =? 37) then
            let! (m, str) := putc e (p_mem st) (p_str st) c in
            format_loop fuel buf e fmt' (PState m str (p_args st) (p_outs st))
          else
            let! (fmt', st) := directive buf e fmt' st in format_loop fuel buf e fmt' st
      end
  end.

Definition vsnprintf (m : mem) (buf size : Z) (fmt : list Z) (args : list varg) :
    outcome (Z * mem * list (nat * Z)) :=
  if s32 size <? 0 then Ret (0, m, [])
  else
    let e := u32 (buf + size - 1) in
    let '(e, size) :=
      if e <? u32 (buf - 1) then (2 ^ 32 - 1, u32 (2 ^ 32 - 1 - buf + 1)) else (e, size) in
    let! st := format_loop (length fmt) buf e fmt (PState m buf args []) in
    let '(PState m str _ outs) := st in
    let! m := (if str <=? e then store m (Z.to_nat str) 0
               else if 0 <? size then store m (Z.to_nat e) 0 else Ret m) in
    Ret (s32 (str - buf), m, outs).

Definition vscnprintf (m : mem) (buf size : Z) (fmt : list Z) (args : list varg) :
    outcome (Z * mem * list (nat * Z)) :=
  let! (i, m, outs) := vsnprintf m buf size fmt args in
  Ret ((if size <=? u32 i then s32 (size - 1) else i), m, outs).

Definition snprintf (m : mem) (buf size : Z) (fmt : list Z) (args : list varg) :
    outcome (Z * mem * list (nat * Z)) := vsnprintf m buf size fmt args.

Definition scnprintf (m : mem) (buf size : Z) (fmt : list Z) (args : list varg) :
    outcome (Z * mem * list (nat * Z)) :=
  let! (i, m, outs) := vsnprintf m buf size fmt args in
  Ret ((if size <=? u32 i then s32 (size - 1) else i), m, outs).

Definition vsprintf (m : mem) (buf : Z) (fmt : list Z) (args : list varg) :
    outcome (Z * mem * list (nat * Z)) := vsnprintf m buf (2 ^ 31 - 1) fmt args.

Definition sprintf (m : mem) (buf : Z) (fmt : list Z) (args : list varg) :
    outcome (Z * mem * list (nat * Z)) := vsnprintf m buf (2 ^ 31 - 1) fmt args.

(** ** What reaches the buffer *)

(** [puts m e buf out]: the characters [out] written from [buf] on, each
    dropped when its address, which wraps, is beyond [e]; [adv buf out] is the
    address after them. *)
Fixpoint puts (m : mem) (e buf : Z) (out : list Z) : mem :=
  match out with
  | [] => m
  | c :: out => puts (if buf <=? e then <[Z.to_nat buf := c]> m else m) e (u32 (buf + 1)) out
  end.

Definition adv (buf : Z) (out : list Z) : Z := u32 (buf + Z.of_nat (length out)).

Lemma u32_add_l a b : u32 (u32 a + b) = u32 (a + b).
Proof. unfold u32, wrap. by rewrite Zplus_mod_idemp_l. Qed.

Lemma s32_u32 a b : s32 (u32 a - b) = s32 (a - b).
Proof.
  unfold s32, u32, swrap, wrap. f_equal.
  replace (a mod 2 ^ 32 - b + 2 ^ (32 - 1)) with (a mod 2 ^ 32 + (2 ^ (32 - 1) - b)) by lia.
  rewrite Zplus_mod_idemp_l. f_equal. lia.
Qed.

Lemma s32_sub_l a b : s32 (s32 a - b) = s32 (a - b).
Proof.
  unfold s32, swrap. f_equal.
  replace ((a + 2 ^ (32 - 1)) mod 2 ^ 32 - 2 ^ (32 - 1) - b + 2 ^ (32 - 1))
    with ((a + 2 ^ (32 - 1)) mod 2 ^ 32 + (- b)) by lia.
  rewrite Zplus_mod_idemp_l. f_equal. lia.
Qed.

Lemma adv_app buf o1 o2 : adv (adv buf o1) o2 = adv buf (o1 ++ o2).
Proof. unfold adv. rewrite u32_add_l, length_app. f_equal. lia. Qed.

Lemma adv_nil buf : is_u32 buf -> adv buf [] = buf.
Proof. intros Hb. unfold adv, u32. rewrite Z.add_0_r. by apply wrap_small. Qed.

Lemma adv_word buf out : is_u32 (adv buf out).
Proof. by apply wrap_word. Qed.

Lemma adv_small buf out : 0 <= buf -> buf + Z.of_nat (length out) < 2 ^ 32 -> adv buf out = buf + Z.of_nat (length out).
Proof. intros. apply wrap_small. unfold word. lia. Qed.

Lemma length_puts m e buf out : length (puts m e buf out) = length m.
Proof.
  revert m buf. induction out as [|c out IH]; intros m buf; simpl; [done|].
  rewrite IH. by destruct (buf <=? e); rewrite ?length_insert.
Qed.

Lemma puts_app m e buf o1 o2 :
  is_u32 buf -> puts (puts m e buf o1) e (adv buf o1) o2 = puts m e buf (o1 ++ o2).
Proof.
  revert m buf. induction o1 as [|c o1 IH]; intros m buf Hb; [by rewrite adv_nil|].
  change (c :: o1) with ([c] ++ o1). rewrite <-adv_app. by apply IH, wrap_word.
Qed.

(** Without wrap-around the characters form one block, cut at [e]. *)
Lemma puts_block m e buf out :
  0 <= buf -> buf + Z.of_nat (length out) <= 2 ^ 32 ->
  puts m e buf out = list_inserts (Z.to_nat buf) (take (Z.to_nat (e + 1 - buf)) out) m.
Proof.
  revert m buf. induction out as [|c out IH]; intros m buf Hb Hl; simpl; [by rewrite take_nil|].
  simpl in Hl. destruct out as [|c' out].
  { simpl. case_bool.
    - replace (Z.to_nat (e + 1 - buf)) with (S (Z.to_nat (e - buf))) by lia. cbn [take]. by rewrite take_nil.
    - by replace (Z.to_nat (e + 1 - buf)) with 0%nat by lia. }
  unfold u32. rewrite wrap_small by (unfold word; simpl in Hl; lia). rewrite IH by lia.
  replace (Z.to_nat (buf + 1)) with (S (Z.to_nat buf)) by lia. case_bool.
  - replace (Z.to_nat (e + 1 - buf)) with (S (Z.to_nat (e + 1 - (buf + 1)))) by lia.
    by rewrite inserts_cons.
  - replace (Z.to_nat (e + 1 - buf)) with 0%nat by lia.
    by replace (Z.to_nat (e + 1 - (buf + 1))) with 0%nat by lia.
Qed.

Section Emit.
Context (e : Z).

(** A position in the address space, and a bound inside of the memory. *)
Definition fits (m : mem) (buf : Z) : Prop := is_u32 buf /\ e < Z.of_nat (length m).

Lemma fits_word m buf : fits m buf -> is_u32 buf.
Proof. by intros []. Qed.

Lemma fits_puts m buf b out o2 : fits m buf -> fits (puts m e buf out) (adv b o2).
Proof. unfold fits. rewrite length_puts. intros []. split; [apply adv_word|done]. Qed.

Lemma putc_spec m buf c : fits m buf -> putc e m buf c = Ret (puts m e buf [c], adv buf [c]).
Proof.
  intros [Hb He]. unfold putc, puts. case_bool; [|done]. destruct Hb. by rewrite store_lt by lia.
Qed.

Lemma put_list_spec m buf cs : fits m buf -> put_list e m buf cs = Ret (puts m e buf cs, adv buf cs).
Proof.
  revert m buf. induction cs as [|c cs IH]; intros m buf Hf; simpl put_list.
  - rewrite adv_nil; [done|by eapply fits_word].
  - rewrite putc_spec by done. rewrite IH by (by apply fits_puts).
    by rewrite puts_app, adv_app by (by eapply fits_word).
Qed.

Lemma fill_spec m buf c n : fits m buf -> fill e m buf c n = Ret (puts m e buf (replicate n c), adv buf (replicate n c)).
Proof.
  revert m buf. induction n as [|n IH]; intros m buf Hf; simpl fill.
  - rewrite adv_nil; [done|by eapply fits_word].
  - rewrite putc_spec by done. rewrite IH by (by apply fits_puts).
    by rewrite puts_app, adv_app by (by eapply fits_word).
Qed.
End Emit.

Create HintDb emit discriminated.
#[export] Hint Resolve fits_puts fits_word adv_word : emit.

(** Runs a sequence of writes, and joins what they write to one text. *)
Ltac emit_step :=
  first [rewrite fill_spec by eauto with emit | rewrite putc_spec by eauto with emit
    | rewrite put_list_spec by eauto with emit]; cbv beta iota.
Ltac emit_join := rewrite ?puts_app, ?adv_app, <-?app_assoc by eauto with emit.

(** ** Digits *)

Lemma digits_loop_total fuel digits base num :
  2 <= base -> 0 <= num < 2 ^ Z.of_nat fuel ->
  exists ds, digits_loop fuel digits base num = Ret ds.
Proof.
  intros Hb. revert num. induction fuel as [|fuel IH]; intros num Hn; simpl.
  - simpl in Hn. replace num with 0 by lia. eauto.
  - case_bool; [eauto|]. destruct (IH (num / base)) as [ds ->]; [|eauto].
    rewrite Nat2Z.inj_succ, Z.pow_succ_r in Hn by lia.
    split; [apply Z.div_pos; lia|]. apply Z.div_lt_upper_bound; [lia|]. nia.
Qed.

Lemma digits_of_total digits base num :
  2 <= base -> 0 <= num < 2 ^ 64 -> exists ds, digits_of digits base num = Ret ds.
Proof.
  intros Hb Hn. unfold digits_of. case_bool; [eauto|].
  apply digits_loop_total; [done|]. split; [lia|]. eapply Z.lt_le_trans; [apply Hn|].
  apply Z.pow_le_mono_r; lia.
Qed.

Lemma digits_of_length digits base num ds : digits_of digits base num = Ret ds -> (length ds <= 66)%nat.
Proof.
  unfold digits_of. case_bool; [intros [= <-]; simpl; lia|]. generalize 66%nat as fuel. intros fuel. revert num n ds.
  induction fuel as [|fuel IH]; intros num n ds; simpl; (destruct (Z.eqb_spec num 0); [done|]); [done|].
  destruct (digits_loop fuel digits base (num / base)) as [r|] eqn:E; [|done]. intros [= <-]. simpl.
  destruct (decide (num / base = 0)) as [E0|E0].
  - destruct fuel; simpl in E; rewrite E0 in E; simpl in E; injection E as <-; simpl; lia.
  - specialize (IH _ E0 _ E). lia.
Qed.

(** [spells base vs n]: the digit values [vs], most significant first, are
    the base-[base] notation of [n]. *)
Definition horner (base : Z) (vs : list Z) (acc : Z) : Z :=
  fold_left (fun a v => a * base + v) vs acc.
Definition spells (base : Z) (vs : list Z) (n : Z) : Prop :=
  horner base vs 0 = n /\ Forall (fun v => 0 <= v < base) vs /\ vs <> [].

Lemma horner_snoc base vs v acc : horner base (vs ++ [v]) acc = horner base vs acc * base + v.
Proof. unfold horner. by rewrite fold_left_app. Qed.

Lemma digits_loop_spells fuel digits base num ds :
  2 <= base -> 0 <= num -> digits_loop fuel digits base num = Ret ds ->
  exists vs, rev ds = map (digit digits) vs /\ horner base vs 0 = num /\
    Forall (fun v => 0 <= v < base) vs /\ (num <> 0 -> vs <> []).
Proof.
  intros Hb. revert num ds. induction fuel as [|fuel IH]; intros num ds Hn Hd; simpl in Hd.
  - revert Hd. case_bool; [|done]. intros [= <-]. exists []. by subst.
  - revert Hd. case_bool; [intros [= <-]; exists []; by subst|].
    destruct (digits_loop fuel digits base (num / base)) as [r|] eqn:E; [|done]. intros [= <-].
    apply IH in E as (vs & Hr & Hv & Hf & _); [|apply Z.div_pos; lia].
    exists (vs ++ [num mod base]). split_and!.
    + simpl. by rewrite Hr, map_app.
    + rewrite horner_snoc, Hv. pose proof (Z.div_mod num base). lia.
    + apply Forall_app_2; [done|]. constructor; [|constructor]. apply Z.mod_pos_bound. lia.
    + intros _. by destruct vs.
Qed.

Lemma digits_of_spells digits base num ds :
  nth 0 digits 0 = 48 -> 2 <= base -> 0 <= num -> digits_of digits base num = Ret ds ->
  exists vs, rev ds = map (digit digits) vs /\ spells base vs num.
Proof.
  intros H0 Hb Hn. unfold digits_of. case_bool.
  - intros [= <-]. exists [0]. split; [cbn [rev map app]; unfold digit; change (Z.to_nat 0) with 0%nat; by rewrite H0|]. subst.
    split_and!; [done| |done]. repeat constructor; lia.
  - intros Hd. apply digits_loop_spells in Hd as (vs & ? & ? & ? & ?); [|done..].
    exists vs. split; [done|]. split_and!; eauto.
Qed.

(** ** The flags *)

Lemma has_bit flags k : 0 <= k -> has flags (2 ^ k) = Z.testbit flags k.
Proof.
  intros Hk. unfold has. destruct (Z.testbit flags k) eqn:E.
  - destruct (Z.eqb_spec (Z.land flags (2 ^ k)) 0) as [H|]; [|done].
    apply (f_equal (fun z => Z.testbit z k)) in H.
    rewrite Z.land_spec, E, pow2_testbit, Z.eqb_refl, Z.testbit_0_l in H by done. done.
  - replace (Z.land flags (2 ^ k)) with 0; [done|].
    apply Z.bits_inj'; intros i Hi. rewrite Z.land_spec, pow2_testbit, Z.testbit_0_l by done.
    destruct (Z.eqb_spec i k) as [->|]; [by rewrite E|by rewrite andb_false_r].
Qed.

Lemma has_lor flags f g : has flags (Z.lor f g) = has flags f || has flags g.
Proof.
  unfold has. rewrite Z.land_lor_distr_r. rewrite <-negb_andb. f_equal.
  destruct (Z.eqb_spec (Z.land flags f) 0) as [->|H]; simpl; [by rewrite Z.lor_0_l|].
  destruct (Z.eqb_spec (Z.lor (Z.land flags f) (Z.land flags g)) 0) as [H'|]; [|done].
  apply Z.lor_eq_0_iff in H' as [? _]. done.
Qed.

Definition drop_zeropad (type : Z) : Z :=
  if has type LEFT then Z.land type (Z.lnot ZEROPAD) else type.

Lemma drop_zeropad_bit type k :
  1 <= k -> Z.testbit (drop_zeropad type) k = Z.testbit type k.
Proof.
  intros Hk. unfold drop_zeropad. destruct (has type LEFT); [|done].
  rewrite Z.land_spec, Z.lnot_spec by lia.
  replace (Z.testbit ZEROPAD k) with false; [by rewrite andb_true_r|].
  symmetry. change ZEROPAD with (2 ^ 0). rewrite pow2_testbit by lia. by destruct (Z.eqb_spec k 0); [lia|].
Qed.

Lemma drop_zeropad_zeropad type :
  has (drop_zeropad type) ZEROPAD = negb (has type LEFT) && has type ZEROPAD.
Proof.
  unfold drop_zeropad. destruct (has type LEFT); simpl; [|done].
  unfold has. rewrite <-Z.land_assoc. by rewrite Z.land_0_r.
Qed.

Lemma drop_zeropad_has type k :
  1 <= k -> has (drop_zeropad type) (2 ^ k) = has type (2 ^ k).
Proof. intros. rewrite !has_bit by lia. by apply drop_zeropad_bit. Qed.

(** ** One number *)

Definition digit_set (type : Z) : list Z := if has type LARGE then large_digits else small_digits.

(** The text of a number of [size] columns: sign, radix prefix, leading
    zeros and digits, padded on the side and with the character the flags
    ask for. *)
Definition number_text (size precision type : Z) (sign prefix ds : list Z) : list Z :=
  let zeros := replicate (Z.to_nat (precision - Z.of_nat (length ds))) 48 in
  let core := (length sign + length prefix + length zeros + length ds)%nat in
  let pad := Z.to_nat (size - Z.of_nat core) in
  if has type LEFT then sign ++ prefix ++ zeros ++ ds ++ replicate pad 32
  else if has type ZEROPAD then sign ++ prefix ++ replicate pad 48 ++ zeros ++ ds
  else replicate pad 32 ++ sign ++ prefix ++ zeros ++ ds.

Definition sign_text (num type : Z) : list Z :=
  if has type SIGN then
    if s64 num <? 0 then [45] else if has type PLUS then [43] else if has type SPACE then [32] else []
  else [].

Definition prefix_text (base type : Z) : list Z :=
  if has type SPECIAL then
    if base =? 8 then [48] else if base =? 16 then [48; digit (digit_set type) 33] else []
  else [].

Definition magnitude (num type : Z) : Z :=
  if has type SIGN && (s64 num <? 0) then u64 (- s64 num) else num.

Lemma number_sign_spec num size type :
  exists sg size', number_sign num size type = (sg, magnitude num type, size') /\
    (forall k, s32 (size' - k) = s32 (size - Z.of_nat (length (sign_text num type)) - k)) /\
    sign_text num type = if negb (sg =? 0) then [sg] else [].
Proof.
  unfold number_sign, sign_text, magnitude.
  assert (H0 : forall k, s32 (size - k) = s32 (size - 0 - k)) by (intros; f_equal; lia).
  assert (H1 : forall k, s32 (s32 (size - 1) - k) = s32 (size - 1 - k)) by (intros; apply s32_sub_l).
  destruct (has type SIGN); simpl; [|by do 2 eexists].
  destruct (s64 num <? 0); [by do 2 eexists|].
  destruct (has type PLUS); [by do 2 eexists|].
  destruct (has type SPACE); by do 2 eexists.
Qed.

Lemma magnitude_u64 num type : is_u64 num -> is_u64 (magnitude num type).
Proof. unfold magnitude. destruct (_ && _); [|done]. intros _. by apply wrap_word. Qed.

Lemma prefix_length base type :
  Z.of_nat (length (prefix_text base type)) =
    if has type SPECIAL then if base =? 16 then 2 else if base =? 8 then 1 else 0 else 0.
Proof.
  unfold prefix_text. destruct (has type SPECIAL); [|done].
  destruct (Z.eqb_spec base 8) as [->|]; [done|]. by destruct (Z.eqb_spec base 16).
Qed.

Lemma sign_put e m buf sg :
  fits e m buf ->
  (if negb (sg =? 0) then putc e m buf sg else Ret (m, buf)) =
    let txt := if negb (sg =? 0) then [sg] else [] in Ret (puts m e buf txt, adv buf txt).
Proof.
  intros Hf. destruct (negb _); cbv zeta; [by apply putc_spec|].
  rewrite adv_nil; [done|by eapply fits_word].
Qed.

Lemma prefix_put e m buf base type :
  fits e m buf ->
  (if has type SPECIAL then
     if base =? 8 then putc e m buf 48
     else if base =? 16 then
       let! (m, buf) := putc e m buf 48 in putc e m buf (digit (digit_set type) 33)
     else Ret (m, buf)
   else Ret (m, buf)) = Ret (puts m e buf (prefix_text base type), adv buf (prefix_text base type)).
Proof.
  intros Hf. unfold prefix_text.
  assert (H0 : Ret (m, buf) = Ret (puts m e buf [], adv buf [])) by (rewrite adv_nil; [done|by eapply fits_word]).
  destruct (has type SPECIAL); [|done]. destruct (base =? 8); [by apply putc_spec|].
  destruct (base =? 16); [|done]. repeat emit_step. emit_join. done.
Qed.

(** The three places where padding may go, [n] columns being left. *)
Definition pads (type n : Z) : nat * nat * nat :=
  let '(n1, n) := if has type LEFT || has type ZEROPAD then (0%nat, n) else postdec 0 n in
  let '(n2, n) := if has type LEFT then (0%nat, n) else postdec 0 n in
  (n1, n2, (postdec 0 n).1).

(** The text [number] writes, whatever its arguments. *)
Definition number_out (size precision type : Z) (sign prefix ds : list Z) : list Z :=
  let i := Z.of_nat (length ds) in
  let p := if precision <? i then i else precision in
  let '(n1, n2, n3) :=
    pads type (s32 (size - Z.of_nat (length sign) - Z.of_nat (length prefix) - p)) in
  replicate n1 32 ++ sign ++ prefix ++ replicate n2 (if has type ZEROPAD then 48 else 32) ++
    replicate (Z.to_nat (p - i)) 48 ++ ds ++ replicate n3 32.

(** For a width and a precision that are not astronomic the padding goes to
    exactly one place. *)
Lemma number_out_text size precision type sign prefix ds :
  let i := Z.of_nat (length ds) in
  - 2 ^ 31 + 4 <= size - Z.of_nat (length sign) - Z.of_nat (length prefix) -
      (if precision <? i then i else precision) -> size < 2 ^ 31 ->
  number_out size precision type sign prefix ds = number_text size precision type sign prefix ds.
Proof.
  cbv zeta. intros Hlo Hhi. unfold number_out, number_text. set (p := if precision <? _ then _ else _) in *.
  assert (Hz : Z.to_nat (precision - Z.of_nat (length ds)) = Z.to_nat (p - Z.of_nat (length ds)))
    by (unfold p; case_bool; lia).
  assert (Hp : Z.of_nat (length ds) <= p) by (unfold p; case_bool; lia).
  rewrite Hz, length_replicate, s32_small by lia. set (n := size - _ - _ - p) in *.
  replace (Z.to_nat (size - _)) with (Z.to_nat n) by lia.
  assert (Hpd : postdec 0 n = (Z.to_nat n, if 0 <? n then -1 else n - 1)).
  { unfold postdec. case_bool; [by rewrite Z.sub_0_r|]. rewrite s32_small by lia. f_equal. lia. }
  assert (Hneg : forall k, - 2 ^ 31 < k <= 0 -> postdec 0 k = (0%nat, k - 1)).
  { intros k Hk. unfold postdec. case_bool; [lia|]. by rewrite s32_small by lia. }
  unfold pads. destruct (has type LEFT); cbn [orb].
  - rewrite Hpd. done.
  - destruct (has type ZEROPAD); rewrite Hpd.
    + rewrite Hneg by (case_bool; lia). cbn [fst replicate app]. by rewrite app_nil_r.
    + rewrite !Hneg by (case_bool; lia). cbn [fst replicate app]. by rewrite app_nil_r.
Qed.

Lemma drop_zeropad_pads type :
  has (drop_zeropad type) (ZEROPAD + LEFT) = has type LEFT || has type ZEROPAD /\
  has (drop_zeropad type) LEFT = has type LEFT.
Proof.
  change (ZEROPAD + LEFT) with (Z.lor ZEROPAD LEFT).
  rewrite has_lor, drop_zeropad_zeropad. change LEFT with (2 ^ 4).
  rewrite drop_zeropad_has by lia. by destruct (has type (2 ^ 4)), (has type ZEROPAD).
Qed.

Lemma drop_zeropad_texts num base type :
  sign_text num (drop_zeropad type) = sign_text num type /\
  magnitude num (drop_zeropad type) = magnitude num type /\
  prefix_text base (drop_zeropad type) = prefix_text base type /\
  digit_set (drop_zeropad type) = digit_set type /\
  has (drop_zeropad type) SPECIAL = has type SPECIAL.
Proof.
  unfold sign_text, magnitude, prefix_text, digit_set.
  change SIGN with (2 ^ 1). change PLUS with (2 ^ 2). change SPACE with (2 ^ 3).
  change SPECIAL with (2 ^ 5). change LARGE with (2 ^ 6).
  by rewrite !drop_zeropad_has by lia.
Qed.

(** The writing part of [number], once the digits are known. *)
Definition number_write (e : Z) (m : mem) (buf base type sg size : Z) (zeros : nat) (ds : list Z) :
    outcome (option Z * mem) :=
  let! (m, buf, size) :=
    (if negb (has type (ZEROPAD + LEFT)) then
       let '(n, size) := postdec 0 size in
       let! (m, buf) := fill e m buf 32 n in Ret (m, buf, size)
     else Ret (m, buf, size)) in
  let! (m, buf) := (if negb (sg =? 0) then putc e m buf sg else Ret (m, buf)) in
  let! (m, buf) :=
    (if has type SPECIAL then
       if base =? 8 then putc e m buf 48
       else if base =? 16 then
         let! (m, buf) := putc e m buf 48 in putc e m buf (digit (digit_set type) 33)
       else Ret (m, buf)
     else Ret (m, buf)) in
  let! (m, buf, size) :=
    (if negb (has type LEFT) then
       let '(n, size) := postdec 0 size in
       let! (m, buf) := fill e m buf (if has type ZEROPAD then 48 else 32) n in Ret (m, buf, size)
     else Ret (m, buf, size)) in
  let! (m, buf) := fill e m buf 48 zeros in
  let! (m, buf) := put_list e m buf ds in
  let! (m, buf) := fill e m buf 32 (postdec 0 size).1 in
  Ret (Some buf, m).

Lemma number_write_spec e m buf base type sg size zeros ds sgt :
  fits e m buf -> sgt = (if negb (sg =? 0) then [sg] else []) ->
  let '(n1, n2, n3) := pads type size in
  let out := replicate n1 32 ++ sgt ++ prefix_text base type ++
    replicate n2 (if has type ZEROPAD then 48 else 32) ++ replicate zeros 48 ++ ds ++ replicate n3 32 in
  number_write e m buf base (drop_zeropad type) sg size zeros ds = Ret (Some (adv buf out), puts m e buf out).
Proof.
  intros Hf ->. unfold pads, number_write.
  destruct (drop_zeropad_pads type) as [-> ->]. rewrite drop_zeropad_zeropad.
  destruct (drop_zeropad_texts 0 base type) as (_ & _ & _ & -> & ->).
  assert (Hpad : forall (b : bool) c m buf size, fits e m buf ->
    (if negb b then let '(n, size) := postdec 0 size in
       let! (m, buf) := fill e m buf c n in Ret (m, buf, size)
     else Ret (m, buf, size)) =
    (let '(n, size) := if b then (0%nat, size) else postdec 0 size in
     Ret (puts m e buf (replicate n c), adv buf (replicate n c), size))).
  { intros [] c m' buf' size' Hf'; cbn [negb].
    - simpl. by rewrite adv_nil by (by eapply fits_word).
    - destruct (postdec 0 size'). by rewrite fill_spec. }
  rewrite Hpad by done. destruct (if has type LEFT || has type ZEROPAD then _ else _) as [n1 s1].
  rewrite sign_put by eauto with emit. cbv zeta beta iota. rewrite prefix_put by eauto with emit. cbv beta iota.
  rewrite Hpad by eauto with emit.
  replace (if negb (has type LEFT) && has type ZEROPAD then 48 else 32)
    with (if has type LEFT then 32 else if has type ZEROPAD then 48 else 32)
    by (by destruct (has type LEFT)).
  destruct (has type LEFT) eqn:El; [|destruct (postdec 0 s1) as [n2 s2]]; cbv beta iota.
  all: by repeat (emit_step; emit_join).
Qed.

Lemma special_size base type size k :
  s32 ((if has type SPECIAL then if base =? 16 then s32 (size - 2) else if base =? 8 then s32 (size - 1) else size
        else size) - k) = s32 (size - Z.of_nat (length (prefix_text base type)) - k).
Proof.
  assert (H0 : s32 (size - k) = s32 (size - 0 - k)) by (f_equal; lia).
  rewrite prefix_length. destruct (has type SPECIAL); [|done].
  destruct (base =? 16); [apply s32_sub_l|]. destruct (base =? 8); [apply s32_sub_l|done].
Qed.

(** The text with the digits as [digits_of] gives them, last first. *)
Lemma number_run e m buf num base size precision type tmp :
  fits e m buf -> 2 <= base <= 36 -> digits_of (digit_set type) base (magnitude num type) = Ret tmp ->
  let out := number_out size precision type (sign_text num type) (prefix_text base type) (rev tmp) in
  number e m buf num base size precision type = Ret (Some (adv buf out), puts m e buf out).
Proof.
  intros Hf Hb Ht. unfold number. fold (drop_zeropad type) (digit_set type).
  destruct (Z.ltb_spec base 2); [lia|]. destruct (Z.ltb_spec 36 base); [lia|]. cbn [orb]. cbv zeta.
  destruct (number_sign_spec num size (drop_zeropad type)) as (sg & size' & -> & Hs & Hsg).
  destruct (drop_zeropad_texts num base type) as (Est & Emg & Epr & Eds & _). rewrite Est, Emg in *.
  rewrite Ht. cbv beta iota. set (i := Z.of_nat (length tmp)).
  set (p := if precision <? i then i else precision).
  assert (Hp : i <= p) by (unfold p; case_bool; lia).
  rewrite special_size, Epr.
  replace (size' - Z.of_nat (length (prefix_text base type)) - p)
    with (size' - (Z.of_nat (length (prefix_text base type)) + p)) by lia.
  rewrite Hs. unfold number_out. rewrite length_rev. fold i. fold p.
  replace (size - Z.of_nat (length (sign_text num type)) - Z.of_nat (length (prefix_text base type)) - p)
    with (size - Z.of_nat (length (sign_text num type)) - (Z.of_nat (length (prefix_text base type)) + p)) by lia.
  set (n := s32 _).
  replace (postdec i p).1 with (Z.to_nat (p - i)).
  2: { unfold postdec. case_bool; simpl; lia. }
  pose proof (number_write_spec e m buf base type sg n (Z.to_nat (p - i)) (rev tmp) _ Hf Hsg) as Hw.
  destruct (pads type n) as [[n1 n2] n3]. unfold number_write in Hw. rewrite Eds in Hw. exact Hw.
Qed.

Lemma number_spec e m buf num base size precision type :
  fits e m buf -> 2 <= base <= 36 -> is_u64 num -> - 2 ^ 30 <= size < 2 ^ 31 -> precision < 2 ^ 30 - 70 ->
  exists vs, spells base vs (magnitude num type) /\
    let out := number_text size precision type (sign_text num type) (prefix_text base type)
                 (map (digit (digit_set type)) vs) in
    number e m buf num base size precision type = Ret (Some (adv buf out), puts m e buf out).
Proof.
  intros Hf Hb Hn Hsz Hp.
  destruct (digits_of_total (digit_set type) base (magnitude num type)) as [tmp Ht];
    [lia|by apply magnitude_u64|].
  pose proof (number_run e m buf num base size precision type tmp Hf Hb Ht) as E.
  pose proof (digits_of_length _ _ _ _ Ht) as Hl.
  apply digits_of_spells in Ht as (vs & Hvs & Hsp);
    [|by unfold digit_set; destruct (has type LARGE)|lia|by apply magnitude_u64].
  exists vs. split; [done|]. cbv zeta in E. rewrite number_out_text in E; [by rewrite <-Hvs| |lia].
  rewrite length_rev. pose proof (prefix_length base type).
  assert (length (sign_text num type) <= 1)%nat by (unfold sign_text; repeat case_match; simpl; lia).
  repeat case_match; lia.
Qed.

(** (number): for a legal base, and a width and a precision that stay clear
    of the ends of [int], the routine writes exactly the text the flags, width
    and precision prescribe for the number, each character unless its address
    is past the end of the buffer, and advances by the full length of that text. *)
Theorem number_correct e m buf num base size precision type :
  fits e m buf -> 2 <= base <= 36 -> is_u64 num -> - 2 ^ 30 <= size < 2 ^ 31 -> precision < 2 ^ 30 - 70 ->
  exists vs, spells base vs (magnitude num type) /\
    let out := number_text size precision type (sign_text num type) (prefix_text base type)
                 (map (digit (digit_set type)) vs) in
    number e m buf num base size precision type = Ret (Some (adv buf out), puts m e buf out).
Proof. apply number_spec. Qed.

Lemma number_correct_witness :
  exists vs, spells 10 vs 42 /\
    let out := number_text 6 (-1) 2 [45] [] (map (digit small_digits) vs) in
    number 7 (replicate 8 0) 1 (2 ^ 64 - 42) 10 6 (-1) 2 = Ret (Some (adv 1 out), puts (replicate 8 0) 7 1 out).
Proof.
  apply (number_correct 7 (replicate 8 0) 1 (2 ^ 64 - 42) 10 6 (-1) 2);
    unfold fits, word; simpl; lia.
Defined.

(** ** The text of a format

    [render fmt args] is the text a format prescribes for its arguments, with
    the values of its [%n]: lists of characters, no buffer and no address. *)

Definition digits_text (digits : list Z) (base num : Z) : list Z :=
  match digits_of digits base num with Ret ds => rev ds | Err _ => [] end.

Definition render_num (base num fw p flags : Z) : list Z :=
  number_out fw p flags (sign_text num flags) (prefix_text base flags)
    (digits_text (digit_set flags) base (magnitude num flags)).

Definition int_text (base fw p q flags : Z) (args : list varg) : outcome (list Z * list varg) :=
  let! (z, args) := arg_num args in Ret (render_num base (conv_num q flags z) fw p flags, args).

Definition ptr_text (fw p flags : Z) (args : list varg) : outcome (list Z * list varg) :=
  let! (z, args) := arg_num args in
  Ret (if fw =? -1 then render_num 16 (u32 z) 8 p (Z.lor flags ZEROPAD) else render_num 16 (u32 z) fw p flags, args).

Definition char_text (fw flags : Z) (args : list varg) : outcome (list Z * list varg) :=
  let! (z, args) := arg_num args in
  let '(n, fw) := if has flags LEFT then (0%nat, fw) else predec fw in
  Ret (replicate n 32 ++ [u8 z] ++ replicate (predec fw).1 32, args).

Definition str_text (fw p flags : Z) (args : list varg) : outcome (list Z * list varg) :=
  let! (s, args) := arg_str args in
  let len := str_len s p in
  let '(n, fw) := if has flags LEFT then (0%nat, fw) else postdec len fw in
  Ret (replicate n 32 ++ take (Z.to_nat len) s ++ replicate (postdec len fw).1 32, args).

(** The text so far, the arguments left, and the values of [%n] so far. *)
Record rendering := RState { r_text : list Z; r_args : list varg; r_outs : list (nat * Z) }.

Definition add_text (text : list Z) (outs : list (nat * Z)) (r : outcome (list Z * list varg)) : outcome rendering :=
  let! (t, args) := r in Ret (RState (text ++ t) args outs).

Definition conv_text (c fw p q flags : Z) (st : rendering) : outcome rendering :=
  let '(RState text args outs) := st in
  if c =? 99 then add_text text outs (char_text fw flags args)
  else if c =? 115 then add_text text outs (str_text fw p flags args)
  else if c =? 112 then add_text text outs (ptr_text fw p flags args)
  else if c =? 110 then
    match args with
    | VOut cell :: args => Ret (RState text args (outs ++ [(cell, s32 (Z.of_nat (length text)))]))
    | _ => Err Bug
    end
  else if c =? 37 then Ret (RState (text ++ [37]) args outs)
  else if c =? 111 then add_text text outs (int_text 8 fw p q flags args)
  else if c =? 88 then add_text text outs (int_text 16 fw p q (Z.lor flags LARGE) args)
  else if c =? 120 then add_text text outs (int_text 16 fw p q flags args)
  else if (c =? 100) || (c =? 105) then add_text text outs (int_text 10 fw p q (Z.lor flags SIGN) args)
  else if c =? 117 then add_text text outs (int_text 10 fw p q flags args)
  else Ret (RState (text ++ if c =? 0 then [37] else [37; c]) args outs).

Definition directive_text (fmt : list Z) (st : rendering) : outcome (list Z * rendering) :=
  let '(fmt, flags) := parse_flags fmt 0 in
  let! (fmt, fw, flags, args) := parse_width fmt flags (r_args st) in
  let! (fmt, p, args) := parse_precision fmt args in
  let '(fmt, q) := parse_qualifier fmt in
  let! st := conv_text (peek fmt) fw p q flags (RState (r_text st) args (r_outs st)) in
  Ret ((if peek fmt =? 0 then [] else tl fmt), st).

Fixpoint render_loop (fuel : nat) (fmt : list Z) (st : rendering) : outcome rendering :=
  match fmt with
  | [] => Ret st
  | c :: fmt' =>
      if c =? 0 then Ret st
      else match fuel with
      | O => Err Diverge
      | S fuel =>
          if negb (c =? 37) then render_loop fuel fmt' (RState (r_text st ++ [c]) (r_args st) (r_outs st))
          else let! (fmt', st) := directive_text fmt' st in render_loop fuel fmt' st
      end
  end.

Definition render (fmt : list Z) (args : list varg) : outcome (list Z * list (nat * Z)) :=
  let! st := render_loop (length fmt) fmt (RState [] args []) in Ret (r_text st, r_outs st).

(** ** The format loop writes this text *)

Lemma conv_num_u64 q flags z : is_u64 (conv_num q flags z).
Proof.
  unfold conv_num, u64, u32, u16.
  repeat case_match; try (by apply wrap_word).
  all: eapply word_mono; [|apply wrap_word]; lia.
Qed.

Section Conversions.
Context (e : Z) (m : mem) (str : Z) (Hf : fits e m str).

(** A conversion that writes the text of [r]. *)
Definition writes (r : outcome (list Z * list varg)) : outcome (mem * Z * list varg) :=
  let! (t, args) := r in Ret (puts m e str t, adv str t, args).

Lemma fmt_number_writes num base fw p flags :
  2 <= base <= 36 -> is_u64 num ->
  fmt_number e m str num base fw p flags =
    Ret (puts m e str (render_num base num fw p flags), adv str (render_num base num fw p flags)).
Proof.
  intros Hb Hn. unfold fmt_number, render_num, digits_text.
  destruct (digits_of_total (digit_set flags) base (magnitude num flags)) as [tmp Ht];
    [lia|by apply magnitude_u64|].
  rewrite (number_run e m str num base fw p flags tmp Hf Hb Ht), Ht. done.
Qed.

Lemma fmt_int_writes base fw p q flags args :
  2 <= base <= 36 -> fmt_int e m str base fw p q flags args = writes (int_text base fw p q flags args).
Proof.
  intros Hb. unfold fmt_int, int_text, writes. destruct (arg_num args) as [[z a]|]; [|done].
  by rewrite fmt_number_writes by (done || apply conv_num_u64).
Qed.

Lemma fmt_ptr_writes fw p flags args : fmt_ptr e m str fw p flags args = writes (ptr_text fw p flags args).
Proof.
  unfold fmt_ptr, ptr_text, writes.
  assert (Hz : forall z, is_u64 (u32 z)) by (intros; eapply word_mono; [|apply wrap_word]; lia).
  destruct (fw =? -1); destruct (arg_num args) as [[z a]|]; try done.
  all: by rewrite fmt_number_writes by (done || lia).
Qed.

Lemma fmt_char_writes fw flags args : fmt_char e m str fw flags args = writes (char_text fw flags args).
Proof.
  unfold fmt_char, char_text, writes. destruct (if has flags LEFT then _ else _) as [n fw'].
  emit_step. destruct (arg_num args) as [[z a]|]; [|done].
  by repeat (emit_step; emit_join).
Qed.

Lemma fmt_str_writes fw p flags args : fmt_str e m str fw p flags args = writes (str_text fw p flags args).
Proof.
  unfold fmt_str, str_text, writes. destruct (arg_str args) as [[s a]|]; [|done]. cbv zeta.
  destruct (if has flags LEFT then _ else _) as [n fw'].
  by repeat (emit_step; emit_join).
Qed.
End Conversions.

Section Loop.
Context (m : mem) (e buf : Z) (Hf : fits e m buf).

(** The state of the formatter when the text of [st] has been written. *)
Definition pstate_of (st : rendering) : pstate :=
  PState (puts m e buf (r_text st)) (adv buf (r_text st)) (r_args st) (r_outs st).

Definition follows {X} (f : rendering -> X) (r : outcome rendering) : outcome X := let! st := r in Ret (f st).

Lemma keep_writes text outs r :
  keep_outs outs (writes e (puts m e buf text) (adv buf text) r) = follows pstate_of (add_text text outs r).
Proof.
  unfold keep_outs, writes, follows, add_text, pstate_of. destruct r as [[t a]|]; [|done].
  simpl. by rewrite puts_app, adv_app by (by eapply fits_word).
Qed.

Lemma convert_writes c fw p q flags st :
  convert buf e c fw p q flags (pstate_of st) = follows pstate_of (conv_text c fw p q flags st).
Proof.
  destruct st as [text args outs]. unfold convert, conv_text, pstate_of. cbn [r_text r_args r_outs].
  assert (Hf' : fits e (puts m e buf text) (adv buf text)) by (by apply fits_puts).
  assert (Hi : forall base flags, 2 <= base <= 36 ->
    keep_outs outs (fmt_int e (puts m e buf text) (adv buf text) base fw p q flags args) =
    follows pstate_of (add_text text outs (int_text base fw p q flags args)))
    by (intros; rewrite fmt_int_writes by done; apply keep_writes).
  assert (Hb : is_u32 buf) by (by eapply fits_word).
  destruct (c =? 99); [rewrite fmt_char_writes by done; apply keep_writes|].
  destruct (c =? 115); [rewrite fmt_str_writes by done; apply keep_writes|].
  destruct (c =? 112); [rewrite fmt_ptr_writes by done; apply keep_writes|].
  destruct (c =? 110).
  { destruct args as [|[]]; try done. unfold follows, pstate_of, adv. cbn [r_text r_args r_outs].
    rewrite s32_u32. do 5 f_equal. f_equal. lia. }
  destruct (c =? 37); [rewrite putc_spec by done; unfold follows, pstate_of; cbn [r_text r_args r_outs]; by rewrite puts_app, adv_app|].
  destruct (c =? 111); [apply Hi; lia|]. destruct (c =? 88); [apply Hi; lia|].
  destruct (c =? 120); [apply Hi; lia|]. destruct ((c =? 100) || (c =? 105)); [apply Hi; lia|].
  destruct (c =? 117); [apply Hi; lia|].
  rewrite putc_spec by done. cbv beta iota. unfold follows, pstate_of.
  destruct (c =? 0); [cbn [r_text r_args r_outs]; by rewrite puts_app, adv_app|].
  rewrite putc_spec by (by apply fits_puts). cbn [r_text r_args r_outs].
  by rewrite !puts_app, !adv_app by eauto with emit.
Qed.

Lemma directive_writes fmt st :
  directive buf e fmt (pstate_of st) =
    (let! (fmt', st') := directive_text fmt st in Ret (fmt', pstate_of st')).
Proof.
  unfold directive, directive_text, pstate_of at 1. cbn [p_args].
  destruct (parse_flags fmt 0) as [f1 flags].
  destruct (parse_width f1 flags (r_args st)) as [[[[f2 fw] fl] a2]|]; [|done].
  destruct (parse_precision f2 a2) as [[[f3 p] a3]|]; [|done].
  destruct (parse_qualifier f3) as [f4 q]. cbn [p_mem p_str p_outs].
  change (PState (p_mem (pstate_of st)) (p_str (pstate_of st)) a3 (p_outs (pstate_of st)))
    with (pstate_of (RState (r_text st) a3 (r_outs st))).
  rewrite convert_writes. by destruct (conv_text _ _ _ _ _ _).
Qed.

Lemma format_loop_writes fuel fmt st :
  format_loop fuel buf e fmt (pstate_of st) = follows pstate_of (render_loop fuel fmt st).
Proof.
  revert fmt st. induction fuel as [|fuel IH]; intros [|c fmt] st; simpl; try done.
  { by destruct (c =? 0). }
  destruct (c =? 0); [done|]. destruct (c =? 37); cbn [negb].
  - rewrite directive_writes. destruct (directive_text fmt st) as [[fmt' st']|]; [apply IH|done].
  - rewrite putc_spec by (by apply fits_puts). cbv beta iota.
    rewrite puts_app, adv_app by (by eapply fits_word).
    apply (IH fmt (RState (r_text st ++ [c]) (r_args st) (r_outs st))).
Qed.
End Loop.

(** *** Rendering ends *)

Lemma parse_flags_length fmt flags : (length (parse_flags fmt flags).1 <= length fmt)%nat.
Proof.
  revert flags. induction fmt as [|c fmt IH]; intros flags; [done|].
  simpl. assert (H : forall f, (length (parse_flags fmt f).1 <= S (length fmt))%nat).
  { intros f. etrans; [apply IH|]. lia. }
  repeat (match goal with |- context [if ?b then _ else _] => destruct b end; [apply H|]). done.
Qed.

Lemma skip_atoi_length fmt i : (length (skip_atoi_loop fmt i).2 <= length fmt)%nat.
Proof.
  revert i. induction fmt as [|c fmt IH]; intros i; [done|].
  simpl. destruct (isdigit c); simpl; [|lia]. etrans; [apply IH|]. lia.
Qed.

Lemma tl_length {A} (l : list A) : (length (tl l) <= length l)%nat.
Proof. destruct l; simpl; lia. Qed.

Lemma arg_num_err args x : arg_num args = Err x -> x = Bug.
Proof. destruct args as [|[]]; simpl; congruence. Qed.

Lemma parse_width_spec fmt flags args :
  match parse_width fmt flags args with
  | Ret (fmt', _, _, _) => (length fmt' <= length fmt)%nat
  | Err x => x = Bug
  end.
Proof.
  unfold parse_width. destruct (isdigit (peek fmt)).
  - unfold skip_atoi. pose proof (skip_atoi_length fmt 0). by destruct (skip_atoi_loop fmt 0).
  - destruct (peek fmt =? 42); [|done]. destruct (arg_num args) as [[z a]|x] eqn:E; [|by apply arg_num_err in E].
    pose proof (tl_length fmt). by destruct (s32 z <? 0).
Qed.

Lemma parse_precision_spec fmt args :
  match parse_precision fmt args with
  | Ret (fmt', _, _) => (length fmt' <= length fmt)%nat
  | Err x => x = Bug
  end.
Proof.
  unfold parse_precision. destruct (peek fmt =? 46); [|done].
  pose proof (tl_length fmt). destruct (isdigit (peek (tl fmt))).
  - unfold skip_atoi. pose proof (skip_atoi_length (tl fmt) 0).
    destruct (skip_atoi_loop (tl fmt) 0). simpl in *. lia.
  - destruct (peek (tl fmt) =? 42); [|done].
    destruct (arg_num args) as [[z a]|x] eqn:E; [|by apply arg_num_err in E].
    pose proof (tl_length (tl fmt)). lia.
Qed.

Lemma parse_qualifier_length fmt : (length (parse_qualifier fmt).1 <= length fmt)%nat.
Proof.
  unfold parse_qualifier. pose proof (tl_length fmt). pose proof (tl_length (tl fmt)).
  repeat case_match; simpl; lia.
Qed.

(** The only error is an argument that does not fit its conversion. *)
Definition rejects {X} (r : outcome X) : Prop := match r with Ret _ => True | Err x => x = Bug end.

Lemma conv_text_rejects c fw p q flags st : rejects (conv_text c fw p q flags st).
Proof.
  destruct st as [text args outs]. unfold conv_text.
  assert (Ha : forall r, rejects r -> rejects (add_text text outs r)) by (by intros [[]|]).
  assert (Hi : forall base flags, rejects (int_text base fw p q flags args)) by (by destruct args as [|[]]).
  assert (Hp : rejects (ptr_text fw p flags args)) by (by destruct args as [|[]]).
  assert (Hc : rejects (char_text fw flags args))
    by (unfold char_text; destruct args as [|[]]; simpl; by repeat case_match).
  assert (Hs : rejects (str_text fw p flags args))
    by (unfold str_text; destruct args as [|[]]; simpl; by repeat case_match).
  repeat (match goal with |- rejects (if ?b then _ else _) => destruct b end; [by auto|]).
  destruct (c =? 110); [by destruct args as [|[]]|].
  repeat (match goal with |- rejects (if ?b then _ else _) => destruct b end; [by auto|]). done.
Qed.

Lemma directive_text_spec fmt st :
  match directive_text fmt st with
  | Ret (fmt', _) => (length fmt' <= length fmt)%nat
  | Err x => x = Bug
  end.
Proof.
  unfold directive_text.
  pose proof (parse_flags_length fmt 0) as L1. destruct (parse_flags fmt 0) as [f1 flags].
  pose proof (parse_width_spec f1 flags (r_args st)) as L2.
  destruct (parse_width f1 flags (r_args st)) as [[[[f2 fw] fl] a2]|]; [|done].
  pose proof (parse_precision_spec f2 a2) as L3.
  destruct (parse_precision f2 a2) as [[[f3 p] a3]|]; [|done].
  pose proof (parse_qualifier_length f3) as L4. destruct (parse_qualifier f3) as [f4 q].
  pose proof (conv_text_rejects (peek f4) fw p q fl (RState (r_text st) a3 (r_outs st))) as Hc.
  destruct (conv_text _ _ _ _ _ _) as [st'|]; [|done].
  pose proof (tl_length f4). simpl in *. case_match; simpl; lia.
Qed.

Lemma render_loop_rejects fuel fmt st : (length fmt <= fuel)%nat -> rejects (render_loop fuel fmt st).
Proof.
  revert fmt st. induction fuel as [|fuel IH]; intros [|c fmt] st Hl; simpl in *; try done; try lia.
  destruct (c =? 0); [done|]. destruct (c =? 37); cbn [negb]; [|apply IH; lia].
  pose proof (directive_text_spec fmt st) as Hd.
  destruct (directive_text fmt st) as [[fmt' st']|]; [apply IH; lia|done].
Qed.

Lemma render_rejects fmt args x : render fmt args = Err x -> x = Bug.
Proof.
  unfold render. pose proof (render_loop_rejects (length fmt) fmt (RState [] args []) ltac:(done)) as H.
  destruct (render_loop _ _ _); [done|]. intros [= <-]. exact H.
Qed.

(** *** The buffer *)

(** Only the last byte of the buffer differs from plain truncation: it
    holds the terminator. *)
Lemma puts_terminate m buf size out :
  0 < size -> 0 <= buf -> buf + size <= Z.of_nat (length m) -> buf + Z.of_nat (length out) <= 2 ^ 32 ->
  let e := buf + size - 1 in
  let str := buf + Z.of_nat (length out) in
  <[Z.to_nat (if str <=? e then str else e) := 0]> (puts m e buf out) =
    list_inserts (Z.to_nat buf) (take (Z.to_nat (size - 1)) out ++ [0]) m.
Proof.
  intros Hs Hb Hm Hw e str. unfold e, str. rewrite puts_block by done.
  replace (Z.to_nat (buf + size - 1 + 1 - buf)) with (Z.to_nat size) by lia.
  case_bool.
  - rewrite !take_ge by lia. rewrite <-inserts_snoc by lia. f_equal. lia.
  - replace (Z.to_nat size) with (S (Z.to_nat (size - 1))) by lia.
    destruct (lookup_lt_is_Some_2 out (Z.to_nat (size - 1)) ltac:(lia)) as [c Hc].
    assert (Hl : length (take (Z.to_nat (size - 1)) out) = Z.to_nat (size - 1))
      by (rewrite length_take; lia).
    rewrite (take_S_r _ _ _ Hc), <-!inserts_snoc by lia. rewrite Hl.
    replace (Z.to_nat (buf + size - 1)) with (Z.to_nat buf + Z.to_nat (size - 1))%nat by lia.
    apply list_insert_insert_eq.
Qed.

(** The bytes that wrap around all lie below [buf]. *)
Lemma puts_wrapped m buf size out :
  0 < buf < 2 ^ 32 -> 0 <= size -> buf + size <= 2 ^ 32 ->
  2 ^ 32 <= buf + Z.of_nat (length out) < 2 ^ 32 + buf ->
  puts m (buf + size - 1) buf out =
    list_inserts 0 (drop (Z.to_nat (2 ^ 32 - buf)) out) (list_inserts (Z.to_nat buf) (take (Z.to_nat size) out) m).
Proof.
  intros Hb Hs Hm Hw. set (k := Z.to_nat (2 ^ 32 - buf)). rewrite <-(take_drop k out) at 1.
  assert (Hk : length (take k out) = k) by (rewrite length_take; lia).
  rewrite <-puts_app by (unfold word; lia).
  assert (adv buf (take k out) = 0) as ->.
  { unfold adv. rewrite Hk. unfold k. rewrite Z2Nat.id by lia.
    replace (buf + (2 ^ 32 - buf)) with (2 ^ 32) by lia. done. }
  rewrite (puts_block _ _ 0) by (rewrite ?length_drop; lia).
  rewrite puts_block by lia. rewrite take_take.
  rewrite (take_ge (drop k out)) by (rewrite length_drop; lia). f_equal. do 2 f_equal. lia.
Qed.

Lemma vsnprintf_run m buf size fmt args :
  0 < buf < 2 ^ 32 -> 0 <= size < 2 ^ 31 -> buf + size <= Z.of_nat (length m) <= 2 ^ 32 ->
  let e := buf + size - 1 in
  vsnprintf m buf size fmt args =
    (let! (out, outs) := render fmt args in
     let m' := puts m e buf out in
     let m' := if adv buf out <=? e then <[Z.to_nat (adv buf out) := 0]> m'
               else if 0 <? size then <[Z.to_nat e := 0]> m' else m' in
     Ret (s32 (Z.of_nat (length out)), m', outs)).
Proof.
  intros Hb Hs Hm. cbv zeta. unfold vsnprintf.
  rewrite (s32_small size) by lia. destruct (Z.ltb_spec size 0); [lia|].
  cbv zeta. unfold u32. rewrite !wrap_small by (unfold word; lia).
  destruct (Z.ltb_spec (buf + size - 1) (buf - 1)); [lia|].
  assert (Hf : fits (buf + size - 1) m buf) by (unfold fits, word; lia).
  pose proof (format_loop_writes m (buf + size - 1) buf Hf (length fmt) fmt (RState [] args [])) as Hl.
  unfold pstate_of at 1 in Hl. cbn [r_text r_args r_outs puts] in Hl. rewrite adv_nil in Hl by apply Hf.
  rewrite Hl. unfold render, follows. destruct (render_loop _ _ _) as [[out a outs]|]; [|done].
  unfold pstate_of. cbn [r_text r_args r_outs].
  assert (Hn : s32 (adv buf out - buf) = s32 (Z.of_nat (length out))) by (unfold adv; rewrite s32_u32; f_equal; lia).
  rewrite Hn. pose proof (adv_word buf out) as Hw. unfold word in Hw.
  destruct (Z.leb_spec (adv buf out) (buf + size - 1)); [|destruct (Z.ltb_spec 0 size); [|done]].
  all: by rewrite store_lt by (rewrite length_puts; lia).
Qed.

(** C32 (vsnprintf writes what the format renders).  [render] is the text a
    format prescribes, untruncated and without any buffer.  Whatever the
    format and the arguments, and for any buffer of less than 2^31 bytes that
    lies in the memory, the formatter ends; it rejects exactly the
    argument lists that do not fit the format, and otherwise returns the length
    of the text, as an [int], and stores the values of [%n].  As long as the
    text ends inside of the address space, the buffer holds it, cut to
    [size - 1] characters and terminated, no other byte changes, and an empty
    buffer is not touched.  A longer text is not kept in the buffer: when the
    pointer wraps the comparison with [end] succeeds again, and what is left of
    the text, and its NUL, overwrite the memory from address 0 on (said for a
    text that does not come round as far as the buffer). *)
Theorem vsnprintf_bounded m buf size fmt args :
  0 < buf < 2 ^ 32 -> 0 <= size < 2 ^ 31 -> buf + size <= Z.of_nat (length m) <= 2 ^ 32 ->
  match render fmt args with
  | Ret (out, outs) => exists m',
      vsnprintf m buf size fmt args = Ret (s32 (Z.of_nat (length out)), m', outs) /\
      (buf + Z.of_nat (length out) < 2 ^ 32 ->
         m' = if size =? 0 then m
              else list_inserts (Z.to_nat buf) (take (Z.to_nat (size - 1)) out ++ [0]) m) /\
      (2 ^ 32 <= buf + Z.of_nat (length out) < 2 ^ 32 + buf ->
         m' = list_inserts 0 (drop (Z.to_nat (2 ^ 32 - buf)) out ++ [0])
                (list_inserts (Z.to_nat buf) (take (Z.to_nat size) out) m))
  | Err x => x = Bug /\ vsnprintf m buf size fmt args = Err Bug
  end.
Proof.
  intros Hb Hs Hm. rewrite (vsnprintf_run m buf size fmt args Hb Hs Hm).
  pose proof (render_rejects fmt args) as Hr. destruct (render fmt args) as [[out outs]|x].
  2: { by rewrite (Hr x eq_refl). }
  eexists. split; [reflexivity|]. split; intros Hl.
  - rewrite adv_small by lia. destruct (Z.eqb_spec size 0) as [->|Hsz].
    + destruct (Z.leb_spec (buf + Z.of_nat (length out)) (buf + 0 - 1)); [lia|]. rewrite puts_block by lia.
      by replace (Z.to_nat (buf + 0 - 1 + 1 - buf)) with 0%nat by lia.
    + rewrite <-(puts_terminate m buf size out) by lia.
      destruct (Z.leb_spec (buf + Z.of_nat (length out)) (buf + size - 1)); [done|].
      destruct (Z.ltb_spec 0 size); [done|lia].
  - rewrite puts_wrapped by lia.
    assert (adv buf out = Z.of_nat (length (drop (Z.to_nat (2 ^ 32 - buf)) out))) as ->.
    { rewrite length_drop. unfold adv, u32, wrap. symmetry. apply (Z.mod_unique_pos _ _ 1); lia. }
    assert (Z.of_nat (length (drop (Z.to_nat (2 ^ 32 - buf)) out)) <= buf + size - 1) by (rewrite length_drop; lia).
    rewrite (proj2 (Z.leb_le _ _)) by done. rewrite Nat2Z.id, <-inserts_snoc; [done|]. rewrite length_inserts, length_drop. lia.
Qed.

Definition fmt_demo : list Z := [37; 100; 45; 37; 115].

(** "%d-%s" into six bytes; and a text that wraps, into two bytes near the end
    of the address space. *)
Lemma vsnprintf_bounded_witness :
  (exists m', vsnprintf (replicate 12 7) 2 6 fmt_demo [VNum 1234; VStr [97; 98]] = Ret (7, m', []) /\
     m' = [7; 7; 49; 50; 51; 52; 45; 0; 7; 7; 7; 7]) /\
  forall m, Z.of_nat (length m) = 2 ^ 32 ->
    exists m', vsnprintf m (2 ^ 32 - 2) 2 fmt_demo [VNum 1234; VStr [97; 98]] = Ret (7, m', []) /\
      m' = list_inserts 0 [51; 52; 45; 97; 98; 0] (list_inserts (Z.to_nat (2 ^ 32 - 2)) [49; 50] m).
Proof.
  assert (E : render fmt_demo [VNum 1234; VStr [97; 98]] = Ret ([49; 50; 51; 52; 45; 97; 98], []))
    by (vm_compute; reflexivity).
  split.
  - pose proof (vsnprintf_bounded (replicate 12 7) 2 6 fmt_demo [VNum 1234; VStr [97; 98]]
      ltac:(lia) ltac:(lia) ltac:(simpl; lia)) as H.
    rewrite E in H. destruct H as (m' & H1 & H2 & _). exists m'. split; [exact H1|].
    apply H2. simpl. lia.
  - intros m Hm.
    pose proof (vsnprintf_bounded m (2 ^ 32 - 2) 2 fmt_demo [VNum 1234; VStr [97; 98]]
      ltac:(lia) ltac:(lia) ltac:(lia)) as H.
    rewrite E in H. destruct H as (m' & H1 & _ & H3). exists m'. split; [exact H1|].
    rewrite H3 by (simpl; lia). replace (2 ^ 32 - (2 ^ 32 - 2)) with 2 by lia. reflexivity.
Defined.

(** (scnprintf): for a non-empty buffer the result is the length of the
    output cut to what the buffer stores, [size - 1] characters; for an empty
    buffer it is -1, where the description says 0. *)
Theorem scnprintf_result m buf size fmt args i m' outs :
  0 <= size < 2 ^ 31 -> vsnprintf m buf size fmt args = Ret (i, m', outs) -> 0 <= i < 2 ^ 31 ->
  scnprintf m buf size fmt args = Ret ((if size =? 0 then -1 else Z.min i (size - 1)), m', outs).
Proof.
  intros Hs Hv Hi. unfold scnprintf. rewrite Hv. unfold u32. rewrite wrap_small by (unfold word; lia).
  destruct (Z.eqb_spec size 0) as [->|].
  - by destruct (Z.leb_spec 0 i); [|lia].
  - destruct (Z.leb_spec size i); repeat f_equal; [|lia].
    unfold s32, swrap. rewrite Z.mod_small by lia. lia.
Qed.

Lemma scnprintf_result_witness :
  scnprintf (replicate 12 7) 2 0 fmt_demo [VNum 1234; VStr [97; 98]] = Ret (-1, replicate 12 7, []).
Proof.
  apply (scnprintf_result (replicate 12 7) 2 0 fmt_demo [VNum 1234; VStr [97; 98]] 7);
    [lia|vm_compute; reflexivity|lia].
Defined.

(** ** Reading back what was written *)

Lemma digit_value_digit type v :
  0 <= v < 16 ->
  isxdigit (digit (digit_set type) v) = true /\ digit_value (digit (digit_set type) v) = v.
Proof.
  intros Hv.
  assert (H : forallb (fun v =>
      isxdigit (digit small_digits v) && (digit_value (digit small_digits v) =? v) &&
      isxdigit (digit large_digits v) && (digit_value (digit large_digits v) =? v)) (seqZ 0 16) = true)
    by reflexivity.
  rewrite forallb_forall in H. specialize (H v).
  rewrite !andb_true_iff, !Z.eqb_eq in H.
  destruct H as (((? & ?) & ?) & ?); [apply list_elem_of_In, elem_of_seqZ; lia|].
  unfold digit_set. by destruct (has type LARGE).
Qed.

(** What may follow a number: nothing that could still be read as a part
    of it. *)
Definition ends (rest : list Z) : Prop :=
  isxdigit (peek rest) = false /\ toupper (peek rest) <> 88.

(** The accumulator matters modulo [2^w] only. *)
Lemma horner_wrap w base l a b :
  0 <= w -> wrap w a = wrap w b -> wrap w (horner base l a) = wrap w (horner base l b).
Proof.
  intros Hw. revert a b. induction l as [|x l IH]; intros a b Hab; simpl; [done|]. apply IH.
  unfold wrap in *. rewrite Z.add_mod, Z.mul_mod, Hab, <-Z.mul_mod, <-Z.add_mod; [done|..].
  all: apply Z.pow_nonzero; lia.
Qed.

Lemma strto_loop_digits w base type vs rest acc :
  0 <= w -> 0 <= base <= 16 -> Forall (fun v => 0 <= v < base) vs -> isxdigit (peek rest) = false ->
  strto_loop w (map (digit (digit_set type)) vs ++ rest) base acc =
    match vs with [] => (acc, rest) | _ => (wrap w (horner base vs acc), rest) end.
Proof.
  intros Hw Hb Hvs Hr. revert acc. induction Hvs as [|v vs Hv Hvs IH]; intros acc.
  - destruct rest as [|c rest]; [done|]. simpl in *. by rewrite Hr.
  - cbn [map app strto_loop].
    destruct (digit_value_digit type v ltac:(lia)) as [-> ->].
    destruct (Z.ltb_spec v base); [|lia]. simpl andb. cbv iota.
    rewrite IH. destruct vs as [|v' vs]; [done|].
    f_equal. apply (horner_wrap w base (v' :: vs)); [done|]. by apply wrap_idemp.
Qed.

Lemma prefix_not_x type vs rest :
  Forall (fun v => 0 <= v < 16) vs -> vs <> [] -> toupper (peek rest) <> 88 ->
  (toupper (peek1 (map (digit (digit_set type)) vs ++ rest)) =? 88) = false.
Proof.
  intros Hvs Hne Hr. destruct vs as [|v [|v' vs]]; [done| |]; cbn [map app peek1 tl hd].
  - by apply Z.eqb_neq.
  - apply Forall_cons_1 in Hvs as [_ Hvs]. apply Forall_cons_1 in Hvs as [Hv _].
    assert (H : forallb (fun v => negb (toupper (digit small_digits v) =? 88) &&
        negb (toupper (digit large_digits v) =? 88)) (seqZ 0 16) = true) by reflexivity.
    rewrite forallb_forall in H. specialize (H v').
    rewrite andb_true_iff, !negb_true_iff in H.
    destruct H as [? ?]; [apply list_elem_of_In, elem_of_seqZ; lia|].
    unfold peek1, digit_set. simpl. by destruct (has type LARGE).
Qed.

Lemma digit_value_ll_eq c : digit_value_ll c = digit_value c.
Proof. unfold digit_value_ll, digit_value, toupper. by destruct (isdigit c), (islower c). Qed.

Lemma strtoull_loop_eq cp base r : strtoull_loop cp base r = strto_loop 64 cp base r.
Proof.
  revert r. induction cp as [|c cp IH]; intros r; simpl; [done|].
  rewrite digit_value_ll_eq. case_match; [apply IH|done].
Qed.

(** The unsigned readers, by the width of their result. *)
Definition strto (w : Z) (cp : list Z) (base : Z) : Z * list Z :=
  let '(cp, base) := strto_prefix cp base in strto_loop w cp base 0.

Lemma simple_strtoull_eq cp base : simple_strtoull cp base = strto 64 cp base.
Proof. unfold simple_strtoull, strto. destruct (strto_prefix cp base). apply strtoull_loop_eq. Qed.

Lemma strto_digits w base type vs n rest :
  0 <= w -> 2 <= base <= 16 -> spells base vs n -> word w n -> ends rest ->
  strto w (map (digit (digit_set type)) vs ++ rest) base = (n, rest).
Proof.
  intros Hw Hb (Hh & Hvs & Hne) Hn [Hr Ha]. unfold strto, strto_prefix.
  destruct (Z.eqb_spec base 0); [lia|].
  assert (Hp : forall cp, (toupper (peek1 cp) =? 88) = false ->
    (if base =? 16 then
       if (peek cp =? 48) && (toupper (peek1 cp) =? 88) then (tl (tl cp), base) else (cp, base)
     else (cp, base)) = (cp, base)).
  { intros cp E. rewrite E, andb_false_r. by destruct (base =? 16). }
  rewrite Hp.
  2: { apply prefix_not_x; [|done..]. eapply Forall_impl; [done|]. simpl. lia. }
  rewrite strto_loop_digits by (done || lia).
  destruct vs; [done|]. rewrite Hh. f_equal. by apply wrap_small.
Qed.

(** (print/parse): a 32-bit number written by [number] in base 8, 10 or
    16, without padding, is read back by [simple_strtoul] in that base, which
    stops right after it. *)
Theorem number_strtoul_roundtrip e m buf n base type rest :
  fits e m buf -> is_u32 n -> 2 <= base <= 16 -> type = 0 \/ type = LARGE -> ends rest ->
  exists out, number e m buf n base (-1) (-1) type =
      Ret (Some (adv buf out), puts m e buf out) /\
    simple_strtoul (out ++ rest) base = (n, rest).
Proof.
  intros Hf Hn Hb Ht Hr.
  destruct (number_spec e m buf n base (-1) (-1) type Hf) as (vs & Hsp & Hnum);
    [lia|by eapply word_mono, Hn|lia..|].
  eexists. split; [exact Hnum|].
  assert (magnitude n type = n) as Em by (destruct Ht; by subst). rewrite Em in Hsp.
  assert (number_text (-1) (-1) type (sign_text n type) (prefix_text base type)
    (map (digit (digit_set type)) vs) = map (digit (digit_set type)) vs) as ->.
  { destruct Ht as [-> | ->]; unfold number_text, sign_text, prefix_text; simpl;
      rewrite !Z2Nat.nonpos by lia; done. }
  by apply (strto_digits 32).
Qed.

Lemma number_strtoul_roundtrip_witness :
  exists out, number 20 (replicate 21 0) 1 48879 16 (-1) (-1) LARGE =
      Ret (Some (adv 1 out), puts (replicate 21 0) 20 1 out) /\
    simple_strtoul (out ++ [44; 49]) 16 = (48879, [44; 49]).
Proof.
  apply (number_strtoul_roundtrip 20 (replicate 21 0) 1 48879 16 LARGE [44; 49]);
    unfold fits, word, ends; simpl; try lia; try done.
Defined.
