(* ===== verification/Format.v ===== *)
(** * What formats print

    The text of numbers and of the conversions of [vsnprintf], as equations
    that compose along a format: [prints e fmt args out] says that [fmt] with
    [args] prints [out].  The files that print with a fixed format build on
    it. *)

From S2P Require Import Prelude CMem Ctype Vsprintf.
From Stdlib Require String.
Import String.StringSyntax.

(** ** Decimal text *)

Definition dec (n : Z) : list Z :=
  match digits_of small_digits 10 n with Ret t => rev t | Err _ => [] end.

Lemma digits_of_dec n : is_u64 n -> digits_of small_digits 10 n = Ret (rev (dec n)).
Proof.
  intros Hn. unfold dec. destruct (digits_of_total small_digits 10 n) as [t ->]; [lia|done|].
  by rewrite rev_involutive.
Qed.

Lemma digit_small v : 0 <= v < 10 -> digit small_digits v = 48 + v.
Proof.
  intros Hv. assert (v ∈ seqZ 0 10) as Hin by (apply elem_of_seqZ; lia).
  clear Hv. revert v Hin. apply Forall_forall. vm_compute. repeat constructor.
Qed.

Lemma dec_digits n : is_u64 n -> exists vs, dec n = map (fun v => 48 + v) vs /\ spells 10 vs n.
Proof.
  intros Hn. pose proof (digits_of_dec n Hn) as E.
  apply digits_of_spells in E as (vs & Hvs & Hsp); [|done|lia|apply Hn].
  rewrite rev_involutive in Hvs. exists vs. split; [|done]. rewrite Hvs.
  destruct Hsp as (_ & Hf & _). clear -Hf. induction Hf; simpl; [done|]. by rewrite digit_small, IHHf.
Qed.

Lemma dec_range n : is_u64 n -> Forall (fun c => 48 <= c <= 57) (dec n).
Proof.
  intros Hn. destruct (dec_digits n Hn) as (vs & -> & _ & Hf & _).
  apply Forall_map. eapply Forall_impl; [exact Hf|]. intros v [Hv1 Hv2]. lia.
Qed.

Lemma dec_nonempty n : is_u64 n -> dec n <> [].
Proof. intros Hn. destruct (dec_digits n Hn) as (vs & -> & _ & _ & Hne). by destruct vs. Qed.

Lemma digits_loop_length fuel digits base num ds k :
  2 <= base -> 0 <= num < base ^ Z.of_nat k -> digits_loop fuel digits base num = Ret ds -> (length ds <= k)%nat.
Proof.
  intros Hb. revert num ds k. induction fuel as [|fuel IH]; intros num ds k Hn; simpl.
  all: destruct (Z.eqb_spec num 0); [intros [= <-]; simpl; lia|]; try done.
  destruct k as [|k]; [simpl in Hn; lia|].
  destruct (digits_loop fuel digits base (num / base)) as [r|] eqn:E; [|done]. intros [= <-].
  apply (IH _ _ k) in E; [simpl; lia|]. split; [apply Z.div_pos; lia|].
  apply Z.div_lt_upper_bound; [lia|]. rewrite Nat2Z.inj_succ, Z.pow_succ_r in Hn by lia. lia.
Qed.

Lemma dec_length n k : (0 < k)%nat -> 0 <= n < 10 ^ Z.of_nat k -> (length (dec n) <= k)%nat.
Proof.
  intros Hk Hn. unfold dec, digits_of. destruct (Z.eqb_spec n 0); [simpl; lia|].
  destruct (digits_loop 66 small_digits 10 n) as [t|] eqn:E; [|simpl; lia].
  rewrite length_rev. by eapply digits_loop_length in E.
Qed.

(** A signed number in [w] columns. *)
Definition dec_d (w z : Z) : list Z :=
  let body := (if z <? 0 then [45] else []) ++ dec (Z.abs z) in
  replicate (Z.to_nat (w - Z.of_nat (length body))) 32 ++ body.

(** ** What a format prints *)

(** The format with these arguments renders as [out]. *)
Definition prints (fmt : list Z) (args : list varg) (out : list Z) : Prop :=
  forall fuel text outs, (length fmt <= fuel)%nat ->
    render_loop fuel fmt (RState text args outs) = Ret (RState (text ++ out) [] outs).

Lemma prints_nil : prints [] [] [].
Proof. intros [|fuel] text outs _; simpl; by rewrite app_nil_r. Qed.

(** A piece of output before the rest. *)
Lemma prints_step fmt fmt' args args' o out :
  (length fmt' < length fmt)%nat ->
  (forall fuel text outs, render_loop (S fuel) fmt (RState text args outs) =
     render_loop fuel fmt' (RState (text ++ o) args' outs)) ->
  prints fmt' args' out -> prints fmt args (o ++ out).
Proof.
  intros Hl Hstep Hp [|fuel] text outs Hf; [lia|].
  rewrite Hstep, Hp by lia. by rewrite app_assoc.
Qed.

Lemma prints_char c fmt args out :
  c <> 0 -> c <> 37 -> prints fmt args out -> prints (c :: fmt) args (c :: out).
Proof.
  intros H0 H37 Hp. apply (prints_step (c :: fmt) fmt args args [c]); [simpl; lia| |done].
  intros fuel text outs. cbn [render_loop].
  by rewrite (proj2 (Z.eqb_neq c 0)), (proj2 (Z.eqb_neq c 37)) by done.
Qed.

(** A conversion whose directive renders as [o]. *)
Lemma prints_directive body fmt args args' o out :
  (forall text outs, directive_text (body ++ fmt) (RState text args outs) =
     Ret (fmt, RState (text ++ o) args' outs)) ->
  prints fmt args' out -> prints (37 :: body ++ fmt) args (o ++ out).
Proof.
  intros Hd Hp. apply (prints_step _ fmt args args' o); [simpl; rewrite length_app; lia| |done].
  intros fuel text outs. cbn [render_loop Z.eqb Pos.eqb negb]. by rewrite Hd.
Qed.

(** The number a conversion prints, without precision. *)
Lemma int_text_run base fw q flags z args ds :
  2 <= base <= 36 -> - 2 ^ 30 <= fw < 2 ^ 31 ->
  let num := conv_num q flags z in
  digits_of (digit_set flags) base (magnitude num flags) = Ret (rev ds) ->
  int_text base fw (-1) q flags (VNum z :: args) =
    Ret (number_text fw (-1) flags (sign_text num flags) (prefix_text base flags) ds, args).
Proof.
  intros Hb Hfw num Hd. unfold int_text. cbn [arg_num]. fold num. unfold render_num, digits_text.
  rewrite Hd, rev_involutive. rewrite number_out_text; [done| |lia].
  pose proof (digits_of_length _ _ _ _ Hd) as Hl. rewrite length_rev in Hl.
  pose proof (prefix_length base flags).
  assert (length (sign_text num flags) <= 1)%nat by (unfold sign_text; repeat case_match; simpl; lia).
  repeat case_match; lia.
Qed.

Lemma int_text_dec fw q flags z args :
  has flags LARGE = false -> has flags SPECIAL = false -> - 2 ^ 30 <= fw < 2 ^ 31 ->
  let num := conv_num q flags z in
  int_text 10 fw (-1) q flags (VNum z :: args) =
    Ret (number_text fw (-1) flags (sign_text num flags) [] (dec (magnitude num flags)), args).
Proof.
  intros HL HS Hfw num. replace (@nil Z) with (prefix_text 10 flags).
  2: { unfold prefix_text. by rewrite HS. }
  apply int_text_run; [lia|done|]. unfold digit_set. rewrite HL.
  apply digits_of_dec, magnitude_u64, conv_num_u64.
Qed.

Lemma number_text_plain fw flags sign ds :
  has flags LEFT = false -> has flags ZEROPAD = false ->
  number_text fw (-1) flags sign [] ds =
    replicate (Z.to_nat (fw - Z.of_nat (length (sign ++ ds)))) 32 ++ sign ++ ds.
Proof.
  intros H1 H2. unfold number_text. rewrite H1, H2. replace (Z.to_nat (-1 - _)) with 0%nat by lia.
  simpl. do 2 f_equal. rewrite length_app. f_equal. lia.
Qed.

Lemma conv_signed z : - 2 ^ 31 <= z < 2 ^ 31 -> s64 (conv_num (-1) SIGN z) = z.
Proof.
  intros Hz. unfold conv_num. cbn. unfold s32, s64, u64, swrap, wrap. simpl.
  rewrite (Z.mod_small (z + _)) by lia.
  destruct (decide (0 <= z)).
  - rewrite (Z.mod_small (_ - _)) by lia. rewrite Z.mod_small by lia. lia.
  - replace ((z + 2 ^ (32 - 1) - 2 ^ (32 - 1)) mod 2 ^ 64) with (z + 2 ^ 64).
    2: { apply (Zmod_unique _ _ (-1)); lia. }
    match goal with |- context [?a mod ?b] => rewrite <-(Zmod_unique a b 1 (z + 2 ^ 63)) by lia end. lia.
Qed.

(** [%d] in [fw] columns. *)
Lemma int_text_d fw z args :
  - 2 ^ 31 <= z < 2 ^ 31 -> -1 <= fw < 2 ^ 31 ->
  int_text 10 fw (-1) (-1) SIGN (VNum z :: args) = Ret (dec_d fw z, args).
Proof.
  intros Hz Hfw. rewrite int_text_dec by (done || lia). unfold dec_d. rewrite number_text_plain by done.
  unfold sign_text, magnitude. rewrite (conv_signed z) by done.
  replace (has SIGN SIGN) with true by done. cbn [andb].
  destruct (Z.ltb_spec z 0).
  - replace (u64 (- z)) with (Z.abs z); [done|]. unfold u64. rewrite wrap_small by (unfold word; lia). lia.
  - replace (has SIGN PLUS) with false by done. replace (has SIGN SPACE) with false by done.
    replace (conv_num (-1) SIGN z) with (Z.abs z); [done|].
    unfold conv_num. cbn. unfold s32, u64, swrap, wrap. simpl. rewrite (Z.mod_small (z + _)) by lia.
    rewrite Z.mod_small by lia. lia.
Qed.

Lemma prints_4d z fmt args out :
  - 2 ^ 31 <= z < 2 ^ 31 -> prints fmt args out ->
  prints (codes "%4d" ++ fmt) (VNum z :: args) (dec_d 4 z ++ out).
Proof.
  intros Hz Hp. apply (prints_directive (codes "4d") fmt _ args); [|done].
  intros text outs.
  change (directive_text _ _) with
    (let! st := add_text text outs (int_text 10 4 (-1) (-1) SIGN (VNum z :: args)) in Ret (fmt, st)).
  by rewrite int_text_d by (done || lia).
Qed.

Lemma prints_unsigned body q z n fmt args out :
  (forall text outs, directive_text (body ++ fmt) (RState text (VNum z :: args) outs) =
     let! st := add_text text outs (int_text 10 (-1) (-1) q 0 (VNum z :: args)) in Ret (fmt, st)) ->
  conv_num q 0 z = n -> prints fmt args out ->
  prints (37 :: body ++ fmt) (VNum z :: args) (dec n ++ out).
Proof.
  intros Hd Hn Hp. apply (prints_directive body fmt _ args); [|done].
  intros text outs. rewrite Hd, int_text_dec by (done || lia). rewrite Hn.
  rewrite number_text_plain by done. by replace (Z.to_nat (-1 - _)) with 0%nat by lia.
Qed.

Lemma prints_u z fmt args out :
  prints fmt args out -> prints (codes "%u" ++ fmt) (VNum z :: args) (dec (u32 z) ++ out).
Proof. by apply (prints_unsigned (codes "u") (-1)). Qed.

Lemma prints_llu z fmt args out :
  prints fmt args out -> prints (codes "%llu" ++ fmt) (VNum z :: args) (dec (u64 z) ++ out).
Proof. by apply (prints_unsigned (codes "llu") 76). Qed.

Lemma prints_d z fmt args out :
  0 <= z < 2 ^ 31 -> prints fmt args out ->
  prints (codes "%d" ++ fmt) (VNum z :: args) (dec z ++ out).
Proof.
  intros Hz Hp. apply (prints_directive (codes "d") fmt _ args); [|done].
  intros text outs.
  change (directive_text _ _) with
    (let! st := add_text text outs (int_text 10 (-1) (-1) (-1) SIGN (VNum z :: args)) in Ret (fmt, st)).
  rewrite int_text_d by lia. unfold dec_d. destruct (Z.ltb_spec z 0); [lia|].
  rewrite Z.abs_eq by lia. by replace (Z.to_nat (-1 - _)) with 0%nat by lia.
Qed.

Lemma prints_s s fmt args out :
  Z.of_nat (length s) < 2 ^ 31 ->
  prints fmt args out -> prints (codes "%s" ++ fmt) (VStr s :: args) (s ++ out).
Proof.
  intros Hs Hp. apply (prints_directive (codes "s") fmt _ args); [|done].
  intros text outs.
  change (directive_text _ _) with
    (let! st := add_text text outs (str_text (-1) (-1) 0 (VStr s :: args)) in Ret (fmt, st)).
  unfold str_text. cbn [arg_str]. cbv zeta.
  assert (str_len s (-1) = Z.of_nat (length s)) as -> by (unfold str_len; simpl; rewrite s32_small; lia).
  replace (has 0 LEFT) with false by done. unfold postdec.
  destruct (Z.ltb_spec (Z.of_nat (length s)) (-1)); [lia|].
  change (s32 (-1 - 1)) with (-2). destruct (Z.ltb_spec (Z.of_nat (length s)) (-2)); [lia|].
  rewrite Nat2Z.id, firstn_all. simpl. by rewrite app_nil_r.
Qed.

(** A format printed into a buffer that ends before the address space does. *)
Lemma vsnprintf_cut m buf size fmt args out :
  0 < buf -> 0 < size < 2 ^ 31 -> buf + size <= Z.of_nat (length m) <= 2 ^ 32 ->
  buf + Z.of_nat (length out) < 2 ^ 32 -> prints fmt args out ->
  vsnprintf m buf size fmt args =
    Ret (s32 (Z.of_nat (length out)), list_inserts (Z.to_nat buf) (take (Z.to_nat (size - 1)) out ++ [0]) m, []).
Proof.
  intros Hb Hs Hm Hw Hp. rewrite vsnprintf_run by lia. cbv zeta. unfold render. rewrite Hp by done.
  cbn [r_text r_outs app]. rewrite adv_small by lia. rewrite <-(puts_terminate m buf size out) by lia.
  destruct (Z.leb_spec (buf + Z.of_nat (length out)) (buf + size - 1)); [done|].
  destruct (Z.ltb_spec 0 size); [done|lia].
Qed.

(** A format printed with room for its text and the terminator. *)
Lemma vsnprintf_prints m buf size fmt args out :
  0 < buf -> Z.of_nat (length out) < size < 2 ^ 31 -> buf + size <= Z.of_nat (length m) <= 2 ^ 32 ->
  prints fmt args out ->
  vsnprintf m buf size fmt args =
    Ret (Z.of_nat (length out), list_inserts (Z.to_nat buf) (out ++ [0]) m, []).
Proof.
  intros Hb Hs Hm Hp. rewrite (vsnprintf_cut m buf size fmt args out) by (done || lia).
  by rewrite s32_small, take_ge by lia.
Qed.

(** ** Printing into a buffer piece by piece

    [printed m0 buf n text m len]: starting from [m0], [text] has been printed
    into the [n] bytes at [buf] by calls that each continue at the end; what
    does not fit is cut off, and [len] counts what is stored. *)
Definition printed (m0 : mem) (buf n : Z) (text : list Z) (m : mem) (len : Z) : Prop :=
  len = Z.min (Z.of_nat (length text)) (n - 1) /\
  (text = [] /\ m = m0 \/ m = list_inserts (Z.to_nat buf) (take (Z.to_nat (n - 1)) text ++ [0]) m0).

Lemma printed_start m0 buf n : 0 < n -> printed m0 buf n [] m0 0.
Proof. intros. split; [simpl; lia|by left]. Qed.

Lemma scnprintf_prints m buf size fmt args out :
  0 < buf -> 0 < size < 2 ^ 31 -> Z.of_nat (length out) < 2 ^ 31 ->
  buf + size <= Z.of_nat (length m) <= 2 ^ 32 -> buf + Z.of_nat (length out) < 2 ^ 32 ->
  prints fmt args out ->
  scnprintf m buf size fmt args =
    Ret (Z.min (Z.of_nat (length out)) (size - 1),
         list_inserts (Z.to_nat buf) (take (Z.to_nat (size - 1)) out ++ [0]) m, []).
Proof.
  intros Hb Hs Ho Hm Hw Hp.
  pose proof (vsnprintf_cut m buf size fmt args out Hb Hs Hm Hw Hp) as Hv. rewrite s32_small in Hv by lia.
  rewrite (scnprintf_result m buf size fmt args _ _ _ ltac:(lia) Hv) by lia.
  by destruct (Z.eqb_spec size 0); [lia|].
Qed.

(** Overwriting the tail of a block with a block that is not shorter. *)
Lemma inserts_overwrite (m : mem) d a b c :
  (length c <= length b)%nat ->
  list_inserts (d + length a) b (list_inserts d (a ++ c) m) = list_inserts d (a ++ b) m.
Proof.
  intros Hl. apply list_eq. intros i. rewrite !lookup_inserts_dec, length_inserts, !length_app.
  repeat case_decide; try lia; try done.
  - rewrite lookup_app_r by lia. f_equal. lia.
  - rewrite !lookup_app_l by lia. done.
Qed.

(** The next piece. *)
Lemma printed_next m0 buf n text m len fmt args out :
  0 < buf -> 0 < n < 2 ^ 31 -> buf + n <= Z.of_nat (length m0) <= 2 ^ 32 ->
  Z.of_nat (length out) < 2 ^ 31 -> buf + n + Z.of_nat (length out) <= 2 ^ 32 ->
  printed m0 buf n text m len -> prints fmt args out ->
  exists k m', scnprintf m (buf + len) (n - len) fmt args = Ret (k, m', []) /\
    printed m0 buf n (text ++ out) m' (len + k).
Proof.
  intros Hb Hn Hm Ho Hw [-> Hm'] Hp. set (len := Z.min _ _).
  assert (Hlen : length m = length m0) by (destruct Hm' as [[_ ->]| ->]; rewrite ?length_inserts; done).
  rewrite (scnprintf_prints m (buf + len) (n - len) fmt args out) by (done || lia).
  do 2 eexists. split; [done|]. split; [rewrite length_app; lia|]. right.
  set (o := take (Z.to_nat (n - len - 1)) out ++ [0]).
  assert (take (Z.to_nat (n - 1)) (text ++ out) ++ [0] = take (Z.to_nat (n - 1)) text ++ o) as ->.
  { unfold o. rewrite take_app, <-app_assoc. do 3 f_equal. lia. }
  replace (Z.to_nat (buf + len)) with (Z.to_nat buf + length (take (Z.to_nat (n - 1)) text))%nat
    by (rewrite length_take; lia).
  destruct Hm' as [[-> ->]| ->].
  - rewrite take_nil. simpl. by rewrite Nat.add_0_r.
  - apply inserts_overwrite. unfold o. rewrite length_app. simpl. lia.
Qed.

(** ** Hexadecimal columns *)

Definition hex (n : Z) : list Z :=
  match digits_of small_digits 16 n with Ret t => rev t | Err _ => [] end.

(** [n] in [w] columns, with leading zeros. *)
Definition hexw (w n : Z) : list Z := replicate (Z.to_nat (w - Z.of_nat (length (hex n)))) 48 ++ hex n.

Lemma digits_of_hex n : is_u64 n -> digits_of small_digits 16 n = Ret (rev (hex n)).
Proof.
  intros Hn. unfold hex. destruct (digits_of_total small_digits 16 n) as [t ->]; [lia|done|].
  by rewrite rev_involutive.
Qed.

Lemma hex_digits n : is_u64 n -> exists vs, hex n = map (digit small_digits) vs /\ spells 16 vs n.
Proof.
  intros Hn. pose proof (digits_of_hex n Hn) as E.
  apply digits_of_spells in E; [|done|lia|apply Hn]. by rewrite rev_involutive in E.
Qed.

(** [%0*lx]: the width is an argument. *)
Lemma prints_0lx w n fmt args out :
  0 <= w < 2 ^ 31 -> is_u32 n -> prints fmt args out ->
  prints (codes "%0*lx" ++ fmt) (VNum w :: VNum n :: args) (hexw w n ++ out).
Proof.
  intros Hw Hn Hp. apply (prints_directive (codes "0*lx") fmt _ args); [|done].
  intros text outs.
  assert (directive_text (codes "0*lx" ++ fmt) (RState text (VNum w :: VNum n :: args) outs) =
    let! st := add_text text outs (int_text 16 w (-1) 108 ZEROPAD (VNum n :: args)) in Ret (fmt, st)) as ->.
  { assert (parse_width (codes "*lx" ++ fmt) ZEROPAD (VNum w :: VNum n :: args) =
      Ret (codes "lx" ++ fmt, w, ZEROPAD, VNum n :: args)) as Hwd.
    { change (parse_width (codes "*lx" ++ fmt) ZEROPAD (VNum w :: VNum n :: args)) with
        (if s32 w <? 0 then Ret (codes "lx" ++ fmt, s32 (- s32 w), Z.lor ZEROPAD LEFT, VNum n :: args)
         else Ret (codes "lx" ++ fmt, s32 w, ZEROPAD, VNum n :: args)).
      rewrite (s32_small w) by lia. by destruct (Z.ltb_spec w 0); [lia|]. }
    unfold directive_text. change (parse_flags (codes "0*lx" ++ fmt) 0) with (codes "*lx" ++ fmt, ZEROPAD).
    cbv beta iota. cbn [r_args]. by rewrite Hwd. }
  assert (Hc : conv_num 108 ZEROPAD n = n) by (unfold conv_num; cbn; by apply wrap_small).
  rewrite (int_text_run 16 w 108 ZEROPAD n args (hex n)); [|lia|lia|].
  - rewrite Hc. unfold number_text. cbn [has ZEROPAD LEFT Z.land].
    replace (Z.to_nat (-1 - _)) with 0%nat by lia. reflexivity.
  - rewrite Hc. apply digits_of_hex. by apply (word_mono 32).
Qed.

Lemma hexw_length w n k :
  (0 < k)%nat -> 0 <= n < 16 ^ Z.of_nat k -> Z.of_nat (length (hexw w n)) <= Z.max w (Z.of_nat k).
Proof.
  intros Hk Hn. unfold hexw. rewrite length_app, length_replicate.
  assert (length (hex n) <= k)%nat; [|lia].
  unfold hex, digits_of. destruct (Z.eqb_spec n 0); [simpl; lia|].
  destruct (digits_loop 66 small_digits 16 n) as [t|] eqn:E; [|simpl; lia].
  rewrite length_rev. by eapply digits_loop_length in E.
Qed.
