(* ===== verification/Sscanf.v ===== *)
(** * Formatted input (kernel lib/vsprintf.c, vsscanf and sscanf)

    Input and format are constant strings, read as suffixes as in [Vsprintf];
    a destination argument is a buffer in memory (for [%c] and [%s]) or a
    variable of the caller, whose stores are recorded in order with the value
    converted to the type the conversion writes. *)

From S2P Require Import Prelude CMem Ctype KString Vsprintf Format.
From Stdlib Require String.
Import String.StringSyntax.

Inductive dest :=
| DBuf (p : addr)
| DVar (cell : nat).

(** [while (isspace( *s)) s++;] *)
Fixpoint skip_spaces (s : list Z) : list Z :=
  match s with
  | [] => []
  | c :: s' => if isspace c then skip_spaces s' else s
  end.

(** [while (!isspace( *s) && *s) s++;] *)
Fixpoint skip_word (s : list Z) : list Z :=
  match s with
  | [] => []
  | c :: s' => if negb (isspace c) && negb (c =? 0) then skip_word s' else s
  end.

(** The state of the loop: memory, [str], the arguments left, the variables
    stored so far and the number of conversions done. *)
Record sstate := SState {
  s_mem : mem; s_str : list Z; s_args : list dest; s_outs : list (nat * Z); s_num : Z }.

(** How an iteration ends: [continue], or [break] and [return]. *)
Inductive flow :=
| Next (fmt : list Z) (st : sstate)
| Stop (st : sstate).

(** Field width: -1 when there is none. *)
Definition scan_width (fmt : list Z) : Z * list Z :=
  if isdigit (peek fmt) then skip_atoi fmt else (-1, fmt).

(** Qualifier: 'H' for hh, 'L' for ll, -1 when there is none. *)
Definition scan_qualifier (fmt : list Z) : Z * list Z :=
  let c := peek fmt in
  if (c =? 104) || (c =? 108) || (c =? 76) || (c =? 90) || (c =? 122) then
    let fmt := tl fmt in
    if c =? peek fmt then
      if c =? 104 then (72, tl fmt)
      else if c =? 108 then (76, tl fmt)
      else (c, fmt)
    else (c, fmt)
  else (-1, fmt).

(** [do { *s++ = *str++; } while (--field_width > 0 && *str);] *)
Fixpoint scan_chars (m : mem) (s : addr) (str : list Z) (field_width : Z) : outcome (mem * list Z) :=
  match str with
  | [] => Err Fault
  | c :: str' =>
      let! m := store m s c in
      let field_width := s32 (field_width - 1) in
      if (0 <? field_width) && negb (peek str' =? 0) then scan_chars m (S s) str' field_width
      else Ret (m, str')
  end.

(** [while ( *str && !isspace( *str) && field_width--) *s++ = *str++;  *s = 0;] *)
Fixpoint scan_word (m : mem) (s : addr) (str : list Z) (field_width : Z) : outcome (mem * list Z) :=
  match str with
  | c :: str' =>
      if negb (c =? 0) && negb (isspace c) && negb (field_width =? 0) then
        let! m := store m s c in scan_word m (S s) str' (s32 (field_width - 1))
      else let! m := store m s 0 in Ret (m, str)
  | [] => let! m := store m s 0 in Ret (m, str)
  end.

(** The guard in front of the integer conversions. *)
Definition digit_ok (base : Z) (is_sign : bool) (str : list Z) : bool :=
  let digit := if is_sign && (peek str =? 45) then peek1 str else peek str in
  negb ((digit =? 0)
        || ((base =? 16) && negb (isxdigit digit))
        || ((base =? 10) && negb (isdigit digit))
        || ((base =? 8) && (negb (isdigit digit) || (55 <? digit)))
        || ((base =? 0) && negb (isdigit digit))).

(** The number read, as the type of the destination holds it. *)
Definition scan_value (qualifier base : Z) (is_sign : bool) (str : list Z) : Z * list Z :=
  if qualifier =? 72 then
    if is_sign then let '(v, next) := simple_strtol str base in (s8 v, next)
    else let '(v, next) := simple_strtoul str base in (u8 v, next)
  else if qualifier =? 104 then
    if is_sign then let '(v, next) := simple_strtol str base in (swrap 16 v, next)
    else let '(v, next) := simple_strtoul str base in (u16 v, next)
  else if qualifier =? 108 then
    if is_sign then simple_strtol str base else simple_strtoul str base
  else if qualifier =? 76 then
    if is_sign then simple_strtoll str base else simple_strtoull str base
  else if (qualifier =? 90) || (qualifier =? 122) then simple_strtoul str base
  else
    if is_sign then simple_strtol str base else simple_strtoul str base.

Definition scan_int (fmt : list Z) (qualifier base : Z) (is_sign : bool) (st : sstate) : outcome flow :=
  let '(SState m str args outs num) := st in
  let str := skip_spaces str in
  if negb (digit_ok base is_sign str) then Ret (Stop (SState m str args outs num))
  else
    match args with
    | DVar cell :: args =>
        let '(v, next) := scan_value qualifier base is_sign str in
        Ret (Next fmt (SState m next args (outs ++ [(cell, v)]) (num + 1)))
    | _ => Err Bug
    end.

(** [switch ( *fmt++)]: [c] is the conversion character, [fmt] what follows it,
    [len] the length of the whole input. *)
Definition scan_convert (len : Z) (c : Z) (fmt : list Z) (field_width qualifier : Z) (st : sstate) :
    outcome flow :=
  let '(SState m str args outs num) := st in
  if c =? 99 then
    match args with
    | DBuf s :: args =>
        let! (m, str) := scan_chars m s str (if field_width =? -1 then 1 else field_width) in
        Ret (Next fmt (SState m str args outs (num + 1)))
    | _ => Err Bug
    end
  else if c =? 115 then
    match args with
    | DBuf s :: args =>
        let! (m, str) := scan_word m s (skip_spaces str)
                           (if field_width =? -1 then 2 ^ 31 - 1 else field_width) in
        Ret (Next fmt (SState m str args outs (num + 1)))
    | _ => Err Bug
    end
  else if c =? 110 then
    match args with
    | DVar cell :: args =>
        Ret (Next fmt (SState m str args (outs ++ [(cell, s32 (len - Z.of_nat (length str)))]) num))
    | _ => Err Bug
    end
  else if c =? 111 then scan_int fmt qualifier 8 false st
  else if (c =? 120) || (c =? 88) then scan_int fmt qualifier 16 false st
  else if c =? 105 then scan_int fmt qualifier 0 true st
  else if c =? 100 then scan_int fmt qualifier 10 true st
  else if c =? 117 then scan_int fmt qualifier 10 false st
  else if c =? 37 then
    if peek str =? 37 then Ret (Next fmt (SState m (tl str) args outs num))
    else Ret (Stop (SState m (tl str) args outs num))
  else Ret (Stop st).

Arguments scan_convert : simpl never.

(** What follows a '%'. *)
Definition scan_directive (len : Z) (fmt : list Z) (st : sstate) : outcome flow :=
  if peek fmt =? 42 then
    Ret (Next (skip_word fmt)
           (SState (s_mem st) (skip_word (s_str st)) (s_args st) (s_outs st) (s_num st)))
  else
    let '(field_width, fmt) := scan_width fmt in
    let '(qualifier, fmt) := scan_qualifier fmt in
    if (peek fmt =? 0) || (peek (s_str st) =? 0) then Ret (Stop st)
    else scan_convert len (peek fmt) (tl fmt) field_width qualifier st.

(** The body of the loop, with [*fmt] and [*str] not NUL. *)
Definition scan_step (len : Z) (fmt : list Z) (st : sstate) : outcome flow :=
  let '(SState m str args outs num) := st in
  let '(fmt, str) := if isspace (peek fmt) then (skip_spaces fmt, skip_spaces str) else (fmt, str) in
  if negb (peek fmt =? 37) && negb (peek fmt =? 0) then
    if negb (peek fmt =? peek str) then Ret (Stop (SState m (tl str) args outs num))
    else Ret (Next (tl fmt) (SState m (tl str) args outs num))
  else if peek fmt =? 0 then Ret (Stop (SState m str args outs num))
  else scan_directive len (tl fmt) (SState m str args outs num).

Fixpoint scan_loop (fuel : nat) (len : Z) (fmt : list Z) (st : sstate) : outcome sstate :=
  if (peek fmt =? 0) || (peek (s_str st) =? 0) then Ret st
  else
    match fuel with
    | O => Err Diverge
    | S fuel =>
        let! r := scan_step len fmt st in
        match r with
        | Stop st => Ret st
        | Next fmt st => scan_loop fuel len fmt st
        end
    end.

Definition vsscanf (m : mem) (buf fmt : list Z) (args : list dest) :
    outcome (Z * mem * list (nat * Z)) :=
  let! st := scan_loop (length fmt) (Z.of_nat (length buf)) fmt (SState m buf args [] 0) in
  Ret (s_num st, s_mem st, s_outs st).

Definition sscanf (m : mem) (buf fmt : list Z) (args : list dest) :
    outcome (Z * mem * list (nat * Z)) := vsscanf m buf fmt args.

(** ** What a format asks of its arguments

    The destinations a format consumes depend on the format alone, but for
    the size of a buffer that is bounded by the input only. *)

Inductive target :=
| TBuf (room : Z)
| TVar.

(** The bytes [%c] and [%s] may write, for an input of [len] characters. *)
Definition room_chars (len w : Z) : Z := if w <? -1 then len else Z.min len (Z.max 1 w).
Definition room_word (len w : Z) : Z := if w <? 0 then len + 1 else Z.min len w + 1.

(** The targets of a conversion; [None] where scanning stops. *)
Definition convert_target (len c w : Z) : option (list target) :=
  if c =? 99 then Some [TBuf (room_chars len w)]
  else if c =? 115 then Some [TBuf (room_word len w)]
  else if existsb (Z.eqb c) [110; 111; 120; 88; 105; 100; 117] (* noxXidu *) then Some [TVar]
  else if c =? 37 then Some []
  else None.

(** One iteration's share of the format, and what is left of it. *)
Definition target_step (len : Z) (fmt : list Z) : list target * option (list Z) :=
  let fmt := skip_spaces fmt in
  if negb (peek fmt =? 37) && negb (peek fmt =? 0) then ([], Some (tl fmt))
  else if peek fmt =? 0 then ([], None)
  else
    let fmt := tl fmt in
    if peek fmt =? 42 then ([], Some (skip_word fmt))
    else
      let '(w, fmt) := scan_width fmt in
      let '(_, fmt) := scan_qualifier fmt in
      if peek fmt =? 0 then ([], None)
      else match convert_target len (peek fmt) w with
           | Some ts => (ts, Some (tl fmt))
           | None => ([], None)
           end.

Fixpoint targets (fuel : nat) (len : Z) (fmt : list Z) : list target :=
  match fuel with
  | O => []
  | S fuel =>
      let '(ts, rest) := target_step len fmt in
      ts ++ match rest with Some fmt => targets fuel len fmt | None => [] end
  end.

(** The arguments fit: a buffer with room inside of the memory for each
    [TBuf], a variable for each [TVar]. *)
Fixpoint args_ok (size : Z) (ts : list target) (args : list dest) : bool :=
  match ts, args with
  | [], _ => true
  | TBuf n :: ts, DBuf p :: args => (Z.of_nat p + n <=? size) && args_ok size ts args
  | TVar :: ts, DVar _ :: args => args_ok size ts args
  | _, _ => false
  end.

(** Address [i] belongs to one of the buffers. *)
Fixpoint covered (ts : list target) (args : list dest) (i : nat) : bool :=
  match ts, args with
  | TBuf n :: ts, DBuf p :: args =>
      ((p <=? i)%nat && (Z.of_nat i <? Z.of_nat p + n)) || covered ts args i
  | _ :: ts, _ :: args => covered ts args i
  | _, _ => false
  end.

(** ** Progress through the format *)

Lemma skip_spaces_length s : (length (skip_spaces s) <= length s)%nat.
Proof. induction s as [|c s IH]; simpl; [lia|]. destruct (isspace c); simpl; lia. Qed.

Lemma skip_word_length s : (length (skip_word s) <= length s)%nat.
Proof. induction s as [|c s IH]; simpl; [lia|]. case_match; simpl; lia. Qed.

Lemma skip_spaces_peek s : isspace (peek (skip_spaces s)) = false.
Proof. induction s as [|c s IH]; simpl; [done|]. by destruct (isspace c) eqn:E. Qed.

Lemma skip_spaces_id s : isspace (peek s) = false -> skip_spaces s = s.
Proof. destruct s as [|c s]; simpl; [done|]. by intros ->. Qed.

Lemma scan_width_length fmt : (length (scan_width fmt).2 <= length fmt)%nat.
Proof. unfold scan_width. destruct (isdigit (peek fmt)); [apply skip_atoi_length|done]. Qed.

Lemma scan_qualifier_length fmt : (length (scan_qualifier fmt).2 <= length fmt)%nat.
Proof.
  unfold scan_qualifier. pose proof (tl_length fmt). pose proof (tl_length (tl fmt)).
  repeat case_match; simpl; lia.
Qed.

Lemma peek_cons s : peek s <> 0 -> exists c s', s = c :: s' /\ c <> 0.
Proof. destruct s as [|c s]; [done|]. by exists c, s. Qed.

Lemma tl_shorter (s : list Z) : peek s <> 0 -> (length (tl s) < length s)%nat.
Proof. intros (c & s' & -> & _)%peek_cons. simpl. lia. Qed.

Lemma target_step_length len fmt ts fmt' :
  target_step len fmt = (ts, Some fmt') -> (length fmt' < length fmt)%nat.
Proof.
  unfold target_step. pose proof (skip_spaces_length fmt).
  destruct (Z.eqb_spec (peek (skip_spaces fmt)) 0) as [E0|N0]; [by destruct (_ =? 37)|].
  pose proof (tl_shorter _ N0).
  destruct (Z.eqb_spec (peek (skip_spaces fmt)) 37) as [_|_]; simpl; [|intros [= _ <-]; lia].
  set (f := tl (skip_spaces fmt)) in *. case_match; [intros [= _ <-]; pose proof (skip_word_length f); lia|].
  pose proof (scan_width_length f). destruct (scan_width f) as [w f1]; simpl in *.
  pose proof (scan_qualifier_length f1). destruct (scan_qualifier f1) as [q f2]; simpl in *.
  case_match; [done|]. pose proof (tl_length f2). case_match; [intros [= _ <-]|done]. lia.
Qed.

(** ** What the conversions store *)

(** [%c] copies [k] characters, at least one and at most as many as the width. *)
Lemma scan_chars_spec m s str w n :
  peek str <> 0 -> - 2 ^ 31 <= w < 2 ^ 31 -> room_chars (Z.of_nat (length str)) w <= n ->
  Z.of_nat s + n <= Z.of_nat (length m) ->
  exists k, scan_chars m s str w = Ret (list_inserts s (take k str) m, drop k str) /\
    (0 < k <= length str)%nat /\ Z.of_nat k <= n.
Proof.
  revert m s w n. induction str as [|c str IH]; intros m s w n Hc Hw Hn Hm; [done|].
  cbn [scan_chars]. unfold room_chars in Hn. cbn [length] in Hn.
  rewrite store_lt by (destruct (w <? -1); lia).
  destruct (Z.ltb_spec 0 (s32 (w - 1))) as [Hp|Hp]; cbn [andb]; [destruct (Z.eqb_spec (peek str) 0) as [E|E]|].
  1,3: exists 1%nat; simpl; split_and!; [done|lia..|];
    destruct (Z.ltb_spec w (-1)); lia.
  cbn [negb].
  assert (Hw' : w <= 1 -> w = - 2 ^ 31).
  { intros. destruct (decide (w = - 2 ^ 31)); [done|]. rewrite s32_small in Hp by lia. lia. }
  destruct (IH (<[s := c]> m) (S s) (s32 (w - 1)) (n - 1)) as (k & -> & Hk & Hkn).
  - done.
  - apply s32_range.
  - unfold room_chars. destruct (decide (w = - 2 ^ 31)) as [->|].
    + change (s32 (- 2 ^ 31 - 1)) with (2 ^ 31 - 1). simpl in *. lia.
    + rewrite s32_small by lia. destruct (Z.ltb_spec w (-1)); [lia|].
      destruct (Z.ltb_spec (w - 1) (-1)); lia.
  - rewrite length_insert. lia.
  - exists (S k). cbn [take drop]. rewrite inserts_cons. split_and!; [done|simpl;lia..].
Qed.

(** [%s] copies [k] characters and a NUL. *)
Lemma scan_word_spec m s str w n :
  - 2 ^ 31 <= w < 2 ^ 31 -> room_word (Z.of_nat (length str)) w <= n ->
  Z.of_nat s + n <= Z.of_nat (length m) ->
  exists k, scan_word m s str w = Ret (list_inserts s (take k str ++ [0]) m, drop k str) /\
    (k <= length str)%nat /\ Z.of_nat k < n.
Proof.
  revert m s w n. induction str as [|c str IH]; intros m s w n Hw Hn Hm; unfold room_word in Hn.
  all: assert (0 < n) by (destruct (Z.ltb_spec w 0); lia).
  - exists 0%nat. simpl. by rewrite store_lt by lia.
  - cbn [scan_word length] in *.
    destruct (negb (c =? 0) && negb (isspace c) && negb (w =? 0)) eqn:Ec.
    2: { exists 0%nat. rewrite store_lt by lia. split_and!; [done|simpl; lia..]. }
    apply andb_true_iff in Ec as [_ Hw0%negb_true_iff%Z.eqb_neq].
    rewrite store_lt by lia.
    destruct (IH (<[s := c]> m) (S s) (s32 (w - 1)) (n - 1)) as (k & -> & Hk & Hkn).
    + apply s32_range.
    + unfold room_word. destruct (decide (w = - 2 ^ 31)) as [->|].
      * change (s32 (- 2 ^ 31 - 1)) with (2 ^ 31 - 1). simpl in *. lia.
      * rewrite s32_small by lia. destruct (Z.ltb_spec w 0), (Z.ltb_spec (w - 1) 0); lia.
    + rewrite length_insert. lia.
    + exists (S k). cbn [take drop app]. rewrite inserts_cons. split_and!; [done|simpl;lia..].
Qed.

(** ** Numbers leave a suffix *)

Lemma strto_loop_length w cp base r : (length (strto_loop w cp base r).2 <= length cp)%nat.
Proof.
  revert r. induction cp as [|c cp IH]; intros r; simpl; [lia|].
  case_match; [|simpl; lia]. etrans; [apply IH|lia].
Qed.

Lemma strto_length w cp base : (length (strto w cp base).2 <= length cp)%nat.
Proof.
  unfold strto. assert (length (strto_prefix cp base).1 <= length cp)%nat.
  { unfold strto_prefix. pose proof (tl_length cp). pose proof (tl_length (tl cp)).
    repeat case_match; simpl; lia. }
  destruct (strto_prefix cp base) as [cp' b]; simpl in *. etrans; [apply strto_loop_length|done].
Qed.

Lemma scan_value_length q base sg str : (length (scan_value q base sg str).2 <= length str)%nat.
Proof.
  assert (Hul : forall cp, (length (simple_strtoul cp base).2 <= length cp)%nat)
    by (intros cp; apply (strto_length 32)).
  assert (Hull : forall cp, (length (simple_strtoull cp base).2 <= length cp)%nat)
    by (intros cp; rewrite simple_strtoull_eq; apply strto_length).
  assert (Hl : (length (simple_strtol str base).2 <= length str)%nat).
  { unfold simple_strtol. pose proof (Hul str). pose proof (Hul (tl str)). pose proof (tl_length str).
    case_match; [destruct (simple_strtoul (tl str) base)|destruct (simple_strtoul str base)]; simpl in *; lia. }
  assert (Hll : (length (simple_strtoll str base).2 <= length str)%nat).
  { unfold simple_strtoll. pose proof (Hull str). pose proof (Hull (tl str)). pose proof (tl_length str).
    case_match; [destruct (simple_strtoull (tl str) base)|destruct (simple_strtoull str base)]; simpl in *; lia. }
  specialize (Hul str). specialize (Hull str). unfold scan_value.
  destruct (simple_strtol str base), (simple_strtoul str base); repeat case_match; simpl in *; done.
Qed.

(** ** Well-typed calls *)

Definition kept (ts : list target) (args : list dest) (m m' : mem) : Prop :=
  length m' = length m /\ forall i, covered ts args i = false -> m' !! i = m !! i.

Lemma kept_refl ts args m : kept ts args m m.
Proof. done. Qed.

Lemma kept_inserts n ts p args m bs :
  Z.of_nat (length bs) <= n -> kept (TBuf n :: ts) (DBuf p :: args) m (list_inserts p bs m).
Proof.
  intros Hn. split; [apply length_inserts|]. intros i Hi. simpl in Hi.
  apply orb_false_iff in Hi as [Hi _]. rewrite lookup_inserts_dec. apply decide_False.
  intros [Hr _]. apply andb_false_iff in Hi as [Hi|Hi].
  - apply Nat.leb_gt in Hi. lia.
  - apply Z.ltb_ge in Hi. lia.
Qed.

Lemma args_ok_app size ts rest args :
  args_ok size (ts ++ rest) args = true <->
  args_ok size ts args = true /\ args_ok size rest (drop (length ts) args) = true.
Proof.
  revert args. induction ts as [|[n|] ts IH]; intros args; simpl; [naive_solver|..].
  all: destruct args as [|[p|v] args]; simpl; rewrite ?andb_true_iff, ?IH; naive_solver.
Qed.

Lemma covered_app size ts rest args i :
  args_ok size ts args = true ->
  covered (ts ++ rest) args i = covered ts args i || covered rest (drop (length ts) args) i.
Proof.
  revert args. induction ts as [|[n|] ts IH]; intros args; simpl; [done|..].
  all: destruct args as [|[p|v] args]; simpl; try done.
  - intros [_ H]%andb_true_iff. by rewrite IH, orb_assoc.
  - apply IH.
Qed.

(** What an iteration does when the arguments of its conversion fit. *)
Definition advances (ts : list target) (st : sstate) (r : flow) : Prop :=
  match r with
  | Stop st' => s_mem st' = s_mem st /\ s_num st' = s_num st
  | Next _ st' =>
      kept ts (s_args st) (s_mem st) (s_mem st') /\
      s_num st <= s_num st' <= s_num st + Z.of_nat (length ts) /\
      (length (s_str st') <= length (s_str st))%nat /\
      s_args st' = drop (length ts) (s_args st)
  end.

Definition next_fmt (r : flow) : option (list Z) :=
  match r with Next fmt _ => Some fmt | Stop _ => None end.

Lemma scan_int_typed fmt q base sg st :
  args_ok (Z.of_nat (length (s_mem st))) [TVar] (s_args st) = true ->
  exists r, scan_int fmt q base sg st = Ret r /\ advances [TVar] st r /\
    (next_fmt r = None \/ next_fmt r = Some fmt).
Proof.
  destruct st as [m str [|[p|v] args] outs num]; simpl; try done. intros _.
  pose proof (skip_spaces_length str).
  destruct (digit_ok _ _ _); simpl; [|eexists; split; [done|]; simpl; auto].
  pose proof (scan_value_length q base sg (skip_spaces str)).
  destruct (scan_value q base sg (skip_spaces str)) as [v' next]. simpl in *.
  eexists; split; [done|]. simpl. split_and!; auto using kept_refl; lia.
Qed.

Lemma room_chars_mono len len' w : len <= len' -> room_chars len w <= room_chars len' w.
Proof. unfold room_chars. intros. case_match; lia. Qed.

Lemma room_word_mono len len' w : len <= len' -> room_word len w <= room_word len' w.
Proof. unfold room_word. intros. case_match; lia. Qed.

Lemma room_chars_default len w : room_chars len (if w =? -1 then 1 else w) = room_chars len w.
Proof. by destruct (Z.eqb_spec w (-1)) as [->|]. Qed.

Lemma room_word_default len w :
  0 <= len -> room_word len (if w =? -1 then 2 ^ 31 - 1 else w) <= room_word len w.
Proof. intros. destruct (Z.eqb_spec w (-1)) as [->|]; [|done]. unfold room_word. simpl. lia. Qed.

Section Typed.
Context (len : Z).

Lemma scan_c_typed fmt w q st :
  Z.of_nat (length (s_str st)) <= len -> - 2 ^ 31 <= w < 2 ^ 31 -> peek (s_str st) <> 0 ->
  args_ok (Z.of_nat (length (s_mem st))) [TBuf (room_chars len w)] (s_args st) = true ->
  exists r, scan_convert len 99 fmt w q st = Ret r /\ advances [TBuf (room_chars len w)] st r /\
    (next_fmt r = None \/ next_fmt r = Some fmt).
Proof.
  destruct st as [m str [|[p|v] args] outs num]; unfold scan_convert; simpl; try done. intros Hl Hw Hc Hok.
  rewrite andb_true_r in Hok. apply Z.leb_le in Hok.
  destruct (scan_chars_spec m p str (if w =? -1 then 1 else w) (room_chars len w)) as (k & -> & Hk & Hkn).
  - done.
  - case_match; lia.
  - rewrite room_chars_default. by apply room_chars_mono.
  - done.
  - eexists; split; [done|]. simpl. split_and!; auto; [|lia..|rewrite length_drop; lia].
    apply kept_inserts. rewrite length_take. lia.
Qed.

Lemma scan_s_typed fmt w q st :
  Z.of_nat (length (s_str st)) <= len -> - 2 ^ 31 <= w < 2 ^ 31 ->
  args_ok (Z.of_nat (length (s_mem st))) [TBuf (room_word len w)] (s_args st) = true ->
  exists r, scan_convert len 115 fmt w q st = Ret r /\ advances [TBuf (room_word len w)] st r /\
    (next_fmt r = None \/ next_fmt r = Some fmt).
Proof.
  destruct st as [m str [|[p|v] args] outs num]; unfold scan_convert; simpl; try done. intros Hl Hw Hok.
  rewrite andb_true_r in Hok. apply Z.leb_le in Hok. pose proof (skip_spaces_length str).
  destruct (scan_word_spec m p (skip_spaces str) (if w =? -1 then 2 ^ 31 - 1 else w) (room_word len w))
    as (k & -> & Hk & Hkn).
  - case_match; lia.
  - etrans; [apply room_word_default; lia|]. apply room_word_mono. lia.
  - done.
  - eexists; split; [done|]. simpl. split_and!; auto; [|lia..|rewrite length_drop; lia].
    apply kept_inserts. rewrite length_app, length_take. simpl. lia.
Qed.

Lemma scan_convert_typed c fmt w q st ts :
  convert_target len c w = Some ts ->
  Z.of_nat (length (s_str st)) <= len -> - 2 ^ 31 <= w < 2 ^ 31 -> peek (s_str st) <> 0 ->
  args_ok (Z.of_nat (length (s_mem st))) ts (s_args st) = true ->
  exists r, scan_convert len c fmt w q st = Ret r /\ advances ts st r /\
    (next_fmt r = None \/ next_fmt r = Some fmt).
Proof.
  intros Hc Hl Hw Hp Hok. unfold convert_target in Hc.
  destruct (Z.eqb_spec c 99) as [->|N99]; [injection Hc as <-; by apply scan_c_typed|].
  destruct (Z.eqb_spec c 115) as [->|N115]; [injection Hc as <-; by apply scan_s_typed|].
  destruct st as [m str args outs num]. unfold scan_convert.
  rewrite (proj2 (Z.eqb_neq _ _) N99), (proj2 (Z.eqb_neq _ _) N115).
  cbn [existsb] in Hc. revert Hc.
  destruct (Z.eqb_spec c 110) as [->|N110].
  { intros [= <-]. destruct args as [|[p|v] args]; try done. eexists; split; [done|]. simpl.
    split_and!; auto using kept_refl; lia. }
  cbn [orb].
  destruct (c =? 111); [intros [= <-]; by apply scan_int_typed|].
  destruct (c =? 120); [intros [= <-]; by apply scan_int_typed|].
  destruct (c =? 88); [intros [= <-]; by apply scan_int_typed|].
  destruct (c =? 105); [intros [= <-]; by apply scan_int_typed|].
  destruct (c =? 100); [intros [= <-]; by apply scan_int_typed|].
  destruct (c =? 117); [intros [= <-]; by apply scan_int_typed|].
  cbn [orb]. destruct (c =? 37); intros [= <-]. pose proof (tl_length str).
  case_match; eexists; (split; [done|]); simpl; rewrite ?drop_0; split_and!; auto using kept_refl; lia.
Qed.

Lemma scan_convert_invalid c fmt w q st :
  convert_target len c w = None -> scan_convert len c fmt w q st = Ret (Stop st).
Proof.
  destruct st as [m str args outs num]. unfold convert_target, scan_convert.
  destruct (c =? 99), (c =? 115); try done. cbn.
  by destruct (c =? 110), (c =? 111), (c =? 120), (c =? 88), (c =? 105), (c =? 100), (c =? 117), (c =? 37).
Qed.
End Typed.

Lemma scan_width_range fmt : - 2 ^ 31 <= (scan_width fmt).1 < 2 ^ 31.
Proof.
  assert (H : forall s i, - 2 ^ 31 <= i < 2 ^ 31 -> - 2 ^ 31 <= (skip_atoi_loop s i).1 < 2 ^ 31).
  { intros s. induction s as [|c s IH]; intros i Hi; simpl; [done|].
    destruct (isdigit c); [apply IH, s32_range|done]. }
  unfold scan_width. case_match; [apply H|]; simpl; lia.
Qed.

Lemma scan_step_typed len fmt st :
  Z.of_nat (length (s_str st)) <= len ->
  args_ok (Z.of_nat (length (s_mem st))) (target_step len fmt).1 (s_args st) = true ->
  exists r, scan_step len fmt st = Ret r /\ advances (target_step len fmt).1 st r /\
    (next_fmt r = None \/ next_fmt r = (target_step len fmt).2).
Proof.
  destruct st as [m str args outs num]. intros Hl. cbn [s_str s_mem s_args] in *. unfold scan_step.
  assert (Hsp : (if isspace (peek fmt) then (skip_spaces fmt, skip_spaces str) else (fmt, str)) =
    (skip_spaces fmt, if isspace (peek fmt) then skip_spaces str else str)).
  { destruct (isspace (peek fmt)) eqn:E; [done|]. by rewrite skip_spaces_id. }
  rewrite Hsp. clear Hsp. set (str' := if isspace _ then _ else _).
  assert (Hl' : (length str' <= length str)%nat)
    by (unfold str'; case_match; [apply skip_spaces_length|done]).
  clearbody str'. unfold target_step. pose proof (tl_length str').
  destruct (negb _ && negb _).
  { intros _. case_match; eexists; (split; [done|]); simpl; rewrite ?drop_0;
      split_and!; auto using kept_refl; lia. }
  destruct (peek (skip_spaces fmt) =? 0); [intros _; eexists; split; [done|]; simpl; auto|].
  unfold scan_directive. set (f := tl (skip_spaces fmt)).
  destruct (peek f =? 42).
  { intros _. pose proof (skip_word_length str'). eexists; split; [done|]. simpl. rewrite drop_0.
    split_and!; auto using kept_refl; lia. }
  pose proof (scan_width_range f). destruct (scan_width f) as [w f1]. simpl in *.
  destruct (scan_qualifier f1) as [q f2].
  destruct (peek f2 =? 0); simpl; [intros _; eexists; split; [done|]; simpl; auto|].
  destruct (Z.eqb_spec (peek str') 0) as [E|N].
  { intros _. eexists; split; [done|]. by destruct (convert_target _ _ _); simpl; auto. }
  destruct (convert_target len (peek f2) w) as [ts|] eqn:Et; simpl; intros Hok.
  - destruct (scan_convert_typed len (peek f2) (tl f2) w q (SState m str' args outs num) ts)
      as (r & -> & Ha & Hn); [done|simpl; lia|done..|].
    exists r. split; [done|]. split; [|done]. destruct r; simpl in *; [|done].
    destruct Ha as (? & ? & ? & ?). split_and!; try done; lia.
  - rewrite scan_convert_invalid by done. eexists; split; [done|]. simpl. auto.
Qed.

Lemma scan_loop_typed fuel len fmt st :
  (length fmt <= fuel)%nat -> Z.of_nat (length (s_str st)) <= len ->
  let ts := targets fuel len fmt in
  args_ok (Z.of_nat (length (s_mem st))) ts (s_args st) = true ->
  exists st', scan_loop fuel len fmt st = Ret st' /\ kept ts (s_args st) (s_mem st) (s_mem st') /\
    s_num st <= s_num st' <= s_num st + Z.of_nat (length ts).
Proof.
  revert fmt st. induction fuel as [|fuel IH]; intros fmt st Hf Hl ts Hok.
  { destruct fmt; [|simpl in Hf; lia]. exists st. split_and!; auto using kept_refl; simpl; lia. }
  cbn [scan_loop]. destruct (_ || _); [exists st; split_and!; auto using kept_refl; lia|].
  unfold ts in *. cbn [targets] in *. clear ts.
  pose proof (target_step_length len fmt) as Hts. pose proof (scan_step_typed len fmt st Hl) as Hstep.
  destruct (target_step len fmt) as [ts rest]; simpl in *.
  apply args_ok_app in Hok as [Hok Hrest].
  destruct (Hstep Hok) as ([fmt' st'|st'] & -> & Ha & Hn); simpl in Ha, Hn.
  2: { destruct Ha as [Hm Hnum]. exists st'. rewrite Hm, Hnum. split_and!; auto using kept_refl; lia. }
  destruct Ha as ([Hlen Hk] & Hnum & Hstr & Hargs).
  destruct Hn as [?|<-]; [done|]. specialize (Hts ts fmt' eq_refl).
  destruct (IH fmt' st') as (st2 & -> & [Hlen2 Hk2] & Hnum2); [lia|lia|by rewrite Hargs, Hlen|].
  exists st2. rewrite length_app. split_and!; [done| |lia..].
  split; [congruence|]. intros i. rewrite (covered_app _ _ _ _ _ Hok). intros [H1 H2]%orb_false_iff.
  rewrite <-Hk by done. apply Hk2. by rewrite Hargs.
Qed.

(** C31 (typed formats): whatever the input, a call whose destinations fit the
    format returns, counts at most one conversion per destination, and writes
    to no byte outside of the buffers, each of which needs its field width (and
    one more byte for [%s]) or room for the input where [%s] has no width. *)
Theorem vsscanf_typed m buf fmt args :
  let ts := targets (length fmt) (Z.of_nat (length buf)) fmt in
  args_ok (Z.of_nat (length m)) ts args = true ->
  exists num m' outs, vsscanf m buf fmt args = Ret (num, m', outs) /\
    0 <= num <= Z.of_nat (length ts) /\ length m' = length m /\
    forall i, covered ts args i = false -> m' !! i = m !! i.
Proof.
  intros ts Hok. unfold vsscanf.
  destruct (scan_loop_typed (length fmt) (Z.of_nat (length buf)) fmt (SState m buf args [] 0))
    as (st & -> & [Hm Hk] & Hn); [done..|].
  by exists (s_num st), (s_mem st), (s_outs st).
Qed.

Lemma vsscanf_typed_witness :
  let m := replicate 12 9 in
  let fmt := codes "%4s %d%2c" in
  let args := [DBuf 1; DVar 0; DBuf 9] in
  let ts := targets (length fmt) 11 fmt in
  exists num m' outs, vsscanf m (codes "sdabc 12 xy") fmt args = Ret (num, m', outs) /\
    0 <= num <= Z.of_nat (length ts) /\ length m' = length m /\
    forall i, covered ts args i = false -> m' !! i = m !! i.
Proof. apply (vsscanf_typed (replicate 12 9) (codes "sdabc 12 xy")). vm_compute. reflexivity. Defined.

(** ** Reading back what was printed

    A format is a list of pieces: literal characters, integer conversions and
    strings, each with the value printed and the destination it is read to. *)

Inductive qual := Qnone | Qh | Ql | Qll.
Inductive letter := Ld | Lu | Lo | Lx | LX.

Definition q_text (q : qual) : list Z :=
  match q with Qnone => [] | Qh => codes "h" | Ql => codes "l" | Qll => codes "ll" end.
Definition q_code (q : qual) : Z := match q with Qnone => -1 | Qh => 104 | Ql => 108 | Qll => 76 end.
Definition q_width (q : qual) : Z := match q with Qh => 16 | Qll => 64 | _ => 32 end.

Definition l_char (l : letter) : Z := match l with Ld => 100 | Lu => 117 | Lo => 111 | Lx => 120 | LX => 88 end.
Definition l_base (l : letter) : Z := match l with Lo => 8 | Lx | LX => 16 | _ => 10 end.
Definition l_signed (l : letter) : bool := match l with Ld => true | _ => false end.
Definition l_flags (l : letter) : Z := match l with Ld => SIGN | LX => LARGE | _ => 0 end.

(** The value of [z] in the type of the conversion. *)
Definition q_value (q : qual) (l : letter) (z : Z) : Z :=
  if l_signed l then swrap (q_width q) z else wrap (q_width q) z.

Definition num_digits (l : letter) (n : Z) : list Z :=
  match digits_of (digit_set (l_flags l)) (l_base l) n with Ret t => rev t | Err _ => [] end.

Definition num_text (q : qual) (l : letter) (z : Z) : list Z :=
  let v := q_value q l z in (if v <? 0 then [45] else []) ++ num_digits l (Z.abs v).

Inductive piece :=
| Lit (c : Z)
| Num (q : qual) (l : letter) (z : Z) (cell : nat)
| Str (s : list Z) (p : addr).

Definition piece_fmt (x : piece) : list Z :=
  match x with
  | Lit c => [c]
  | Num q l _ _ => 37 :: q_text q ++ [l_char l]
  | Str _ _ => codes "%s"
  end.
Definition piece_text (x : piece) : list Z :=
  match x with Lit c => [c] | Num q l z _ => num_text q l z | Str s _ => s end.
Definition piece_arg (x : piece) : list varg :=
  match x with Lit _ => [] | Num _ _ z _ => [VNum z] | Str s _ => [VStr s] end.
Definition piece_dest (x : piece) : list dest :=
  match x with Lit _ => [] | Num _ _ _ cell => [DVar cell] | Str _ p => [DBuf p] end.
Definition piece_out (x : piece) : list (nat * Z) :=
  match x with Num q l z cell => [(cell, q_value q l z)] | _ => [] end.
Definition piece_write (m : mem) (x : piece) : mem :=
  match x with Str s p => list_inserts p (s ++ [0]) m | _ => m end.

Definition fmt_of (ps : list piece) : list Z := concat (map piece_fmt ps).
Definition text_of (ps : list piece) : list Z := concat (map piece_text ps).
Definition args_of (ps : list piece) : list varg := concat (map piece_arg ps).
Definition dests_of (ps : list piece) : list dest := concat (map piece_dest ps).
Definition outs_of (ps : list piece) : list (nat * Z) := concat (map piece_out ps).
Definition writes_of (ps : list piece) (m : mem) : mem := fold_left piece_write ps m.

(** The pieces can be told apart: a number is followed by nothing that could
    belong to it, a string (without spaces, and with room for it) by a space
    or the end. *)
Fixpoint apart (size : nat) (ps : list piece) : Prop :=
  match ps with
  | [] => True
  | x :: ps =>
      match x with
      | Lit c => 0 < c < 256 /\ c <> 37
      | Num _ _ _ _ => ends (text_of ps)
      | Str s p => s <> [] /\ Forall (fun c => 0 < c < 256 /\ isspace c = false) s /\
          (p + length s < size)%nat /\ (ps = [] \/ isspace (peek (text_of ps)) = true)
      end /\ apart size ps
  end.

(** *** The text of a number *)

Lemma l_base_range l : 2 <= l_base l <= 16.
Proof. destruct l; simpl; lia. Qed.

Lemma q_value_range q l z :
  if l_signed l then - 2 ^ (q_width q - 1) <= q_value q l z < 2 ^ (q_width q - 1)
  else 0 <= q_value q l z < 2 ^ q_width q.
Proof.
  unfold q_value. destruct (l_signed l); [|apply Z.mod_pos_bound; by destruct q].
  unfold swrap. pose proof (Z.mod_pos_bound (z + 2 ^ (q_width q - 1)) (2 ^ q_width q)).
  destruct q; simpl in *; lia.
Qed.

Lemma q_value_abs q l z : word (q_width q) (Z.abs (q_value q l z)).
Proof.
  pose proof (q_value_range q l z). unfold word.
  destruct (l_signed l), q; simpl in *; lia.
Qed.

Lemma num_digits_spell l n : is_u64 n ->
  digits_of (digit_set (l_flags l)) (l_base l) n = Ret (rev (num_digits l n)) /\
  exists vs, num_digits l n = map (digit (digit_set (l_flags l))) vs /\ spells (l_base l) vs n.
Proof.
  intros Hn. unfold num_digits. pose proof (l_base_range l).
  destruct (digits_of_total (digit_set (l_flags l)) (l_base l) n) as [t Ht]; [lia|done|].
  rewrite Ht, rev_involutive. split; [done|].
  apply digits_of_spells in Ht; [done|by destruct l|lia|apply Hn].
Qed.

Lemma s64_u64 v : - 2 ^ 63 <= v < 2 ^ 63 -> s64 (u64 v) = v.
Proof.
  intros Hv. unfold s64, u64, swrap, wrap. change (64 - 1) with 63.
  rewrite Zplus_mod_idemp_l, Z.mod_small by lia. lia.
Qed.

Lemma u64_s64 z : u64 (s64 z) = u64 z.
Proof.
  unfold s64, u64, swrap, wrap. change (64 - 1) with 63.
  rewrite Zminus_mod_idemp_l. f_equal. lia.
Qed.

(** What the conversion prints is its text. *)
Lemma num_text_prints q l z :
  let num := conv_num (q_code q) (l_flags l) z in
  number_text (-1) (-1) (l_flags l) (sign_text num (l_flags l)) (prefix_text (l_base l) (l_flags l))
    (num_digits l (magnitude num (l_flags l))) = num_text q l z.
Proof.
  intros num. unfold num_text.
  assert (Hp : forall sg ds, number_text (-1) (-1) (l_flags l) sg (prefix_text (l_base l) (l_flags l)) ds = sg ++ ds).
  { intros sg ds. replace (prefix_text _ _) with (@nil Z) by (by destruct l).
    rewrite number_text_plain by (by destruct l). by replace (Z.to_nat _) with 0%nat by lia. }
  rewrite Hp. pose proof (q_value_range q l z) as Hr.
  destruct (l_signed l) eqn:El.
  - assert (l = Ld) as -> by (by destruct l).
    assert (num = u64 (q_value q Ld z)) as Hnum
      by (unfold num; destruct q; [reflexivity..|symmetry; apply u64_s64]).
    assert (s64 num = q_value q Ld z) as Hs.
    { rewrite Hnum. apply s64_u64. destruct q; simpl in *; lia. }
    unfold sign_text, magnitude. rewrite Hs. change (has (l_flags Ld) SIGN) with true. cbn [andb].
    destruct (Z.ltb_spec (q_value q Ld z) 0) as [Hn|Hn].
    + do 2 f_equal. unfold u64. rewrite wrap_small; [lia|]. pose proof (q_value_abs q Ld z).
      unfold word in *. destruct q; simpl in *; lia.
    + replace num with (Z.abs (q_value q Ld z)); [done|]. rewrite Hnum. unfold u64.
      rewrite wrap_small; [lia|]. unfold word. destruct q; simpl in *; lia.
  - destruct (Z.ltb_spec (q_value q l z) 0); [lia|]. rewrite Z.abs_eq by lia.
    assert (num = q_value q l z) as -> by (destruct l; try discriminate El; by destruct q).
    by destruct l.
Qed.

(** *** Printing the pieces *)

Lemma prints_num q l z fmt args out :
  prints fmt args out ->
  prints (37 :: (q_text q ++ [l_char l]) ++ fmt) (VNum z :: args) (num_text q l z ++ out).
Proof.
  intros Hp. apply (prints_directive (q_text q ++ [l_char l]) fmt _ args); [|done].
  intros text outs.
  assert (directive_text ((q_text q ++ [l_char l]) ++ fmt) (RState text (VNum z :: args) outs) =
    let! st := add_text text outs (int_text (l_base l) (-1) (-1) (q_code q) (l_flags l) (VNum z :: args)) in
    Ret (fmt, st)) as -> by (destruct q, l; reflexivity).
  rewrite (int_text_run _ _ _ _ _ _
    (num_digits l (magnitude (conv_num (q_code q) (l_flags l) z) (l_flags l)))).
  - by rewrite num_text_prints.
  - pose proof (l_base_range l). lia.
  - lia.
  - apply num_digits_spell, magnitude_u64, conv_num_u64.
Qed.

Lemma prints_pieces size ps :
  apart size ps -> Z.of_nat (length (text_of ps)) < 2 ^ 31 -> prints (fmt_of ps) (args_of ps) (text_of ps).
Proof.
  induction ps as [|[c|q l z cell|s p] ps IH]; unfold fmt_of, args_of, text_of in *; cbn [map concat].
  - intros _ _. apply prints_nil.
  - intros [[Hc H37] Hps] Hl. cbn [piece_text app length] in Hl. apply prints_char; [lia|done|]. apply IH; [done|lia].
  - intros [_ Hps]. cbn [piece_fmt piece_arg piece_text app]. rewrite length_app. intros Hl.
    apply prints_num, IH; [done|lia].
  - intros [_ Hps]. cbn [piece_fmt piece_arg piece_text]. rewrite length_app. intros Hl.
    apply prints_s; [lia|]. apply IH; [done|lia].
Qed.

(** *** Scanning the pieces *)

(** The digits of a conversion pass its guard and cannot be mistaken for a
    sign or a space. *)
Lemma digit_char l v :
  0 <= v < l_base l ->
  let c := digit (digit_set (l_flags l)) v in
  (c =? 45) = false /\ isspace c = false /\ 0 < c < 256 /\
  forall sg rest, digit_ok (l_base l) sg (c :: rest) = true /\
    (sg = true -> digit_ok (l_base l) sg (45 :: c :: rest) = true).
Proof.
  intros Hv c. assert (H : forallb (fun l => forallb (fun v =>
      let c := digit (digit_set (l_flags l)) v in
      negb (c =? 45) && negb (isspace c) && (0 <? c) && (c <? 256) &&
      digit_ok (l_base l) false [c]) (seqZ 0 (l_base l))) [Ld; Lu; Lo; Lx; LX] = true) by reflexivity.
  rewrite forallb_forall in H. specialize (H l).
  rewrite forallb_forall in H. specialize (H ltac:(destruct l; simpl; tauto) v).
  cbv zeta in H. fold c in H. rewrite !andb_true_iff, !negb_true_iff, !Z.ltb_lt in H.
  destruct H as ((((H45 & Hs) & H0) & H256) & Hok); [apply list_elem_of_In, elem_of_seqZ; lia|].
  assert (Hpre : forall sg rest, digit_ok (l_base l) sg (c :: rest) = digit_ok (l_base l) false [c]).
  { intros sg rest. unfold digit_ok. cbn [peek hd]. by rewrite H45, andb_false_r. }
  split_and!; [done..|]. intros sg rest. rewrite Hpre. split; [done|]. by intros ->.
Qed.

Lemma num_text_head q l z rest :
  let str := num_text q l z ++ rest in
  skip_spaces str = str /\ peek str <> 0 /\ digit_ok (l_base l) (l_signed l) str = true.
Proof.
  assert (is_u64 (Z.abs (q_value q l z))) as Hu.
  { pose proof (q_value_abs q l z). unfold word in *. destruct q; simpl in *; lia. }
  destruct (num_digits_spell l _ Hu) as (_ & vs & Hvs & _ & Hr & Hne).
  unfold num_text. cbv zeta. rewrite Hvs. destruct vs as [|v vs]; [done|].
  apply Forall_cons_1 in Hr as [Hv _]. destruct (digit_char l v Hv) as (_ & Hs & Hc & Hok).
  pose proof (q_value_range q l z).
  destruct (Z.ltb_spec (q_value q l z) 0); cbn [map app]; split_and!.
  - done.
  - done.
  - apply Hok. destruct (l_signed l); [done|lia].
  - apply skip_spaces_id. done.
  - simpl. lia.
  - apply Hok.
Qed.

(** The signed readers, on a sign and what the unsigned ones read. *)
Lemma simple_strtol_signed str v rest base :
  (peek str =? 45) = false -> simple_strtoul str base = (Z.abs v, rest) ->
  simple_strtol ((if v <? 0 then [45] else []) ++ str) base = (s32 v, rest).
Proof.
  intros Hpk Hul. unfold simple_strtol. destruct (Z.ltb_spec v 0); cbn [app].
  - change (peek (45 :: str) =? 45) with true. cbn [tl]. rewrite Hul. do 2 f_equal. lia.
  - rewrite Hpk, Hul. do 2 f_equal. lia.
Qed.

Lemma simple_strtoll_signed str v rest base :
  (peek str =? 45) = false -> simple_strtoull str base = (Z.abs v, rest) ->
  simple_strtoll ((if v <? 0 then [45] else []) ++ str) base = (s64 v, rest).
Proof.
  intros Hpk Hul. unfold simple_strtoll. destruct (Z.ltb_spec v 0); cbn [app].
  - change (peek (45 :: str) =? 45) with true. cbn [tl]. rewrite Hul. do 2 f_equal. lia.
  - rewrite Hpk, Hul. do 2 f_equal. lia.
Qed.

Lemma scan_value_text q l z rest :
  ends rest -> scan_value (q_code q) (l_base l) (l_signed l) (num_text q l z ++ rest) = (q_value q l z, rest).
Proof.
  intros He. pose proof (q_value_abs q l z) as Ha. set (v := q_value q l z) in *.
  assert (is_u64 (Z.abs v)) as Hu by (unfold word in *; destruct q; simpl in *; lia).
  destruct (num_digits_spell l _ Hu) as (_ & vs & Hvs & Hsp). pose proof (l_base_range l) as Hb.
  assert (Hto : forall w, 0 <= w -> word w (Z.abs v) ->
      strto w (num_digits l (Z.abs v) ++ rest) (l_base l) = (Z.abs v, rest)).
  { intros w Hw Hwv. rewrite Hvs. by apply strto_digits. }
  assert (Hpk : peek (num_digits l (Z.abs v) ++ rest) =? 45 = false).
  { rewrite Hvs. destruct Hsp as (_ & Hr & Hne). destruct vs as [|d vs]; [done|].
    apply Forall_cons_1 in Hr as [Hd _]. by destruct (digit_char l d Hd). }
  assert (Hul : word 32 (Z.abs v) ->
    simple_strtoul (num_digits l (Z.abs v) ++ rest) (l_base l) = (Z.abs v, rest)) by (by apply (Hto 32)).
  assert (Hull : simple_strtoull (num_digits l (Z.abs v) ++ rest) (l_base l) = (Z.abs v, rest))
    by (rewrite simple_strtoull_eq; by apply (Hto 64)).
  pose proof (q_value_range q l z) as Hr. fold v in Hr. unfold num_text. fold v.
  destruct (l_signed l).
  - assert (Hl : word 32 (Z.abs v) -> simple_strtol ((if v <? 0 then [45] else []) ++
        num_digits l (Z.abs v) ++ rest) (l_base l) = (s32 v, rest))
      by (intros Hw; by apply simple_strtol_signed, Hul).
    pose proof (simple_strtoll_signed (num_digits l (Z.abs v) ++ rest) v rest (l_base l) Hpk Hull) as Hll.
    rewrite <-app_assoc. unfold scan_value, word in *. destruct q; cbn [q_code Z.eqb Pos.eqb orb q_width] in *.
    + rewrite Hl by lia. by rewrite s32_small by (simpl in Hr; lia).
    + rewrite Hl by lia. rewrite s32_small by (simpl in Hr; lia). f_equal.
      unfold swrap. rewrite Z.mod_small by (simpl in *; lia). lia.
    + rewrite Hl by lia. by rewrite s32_small by (simpl in Hr; lia).
    + rewrite Hll. unfold s64, swrap. rewrite Z.mod_small by (simpl in *; lia). f_equal. lia.
  - destruct (Z.ltb_spec v 0); [lia|]. cbn [app]. rewrite (Z.abs_eq v) in * by lia.
    unfold scan_value, word in *. destruct q; cbn [q_code Z.eqb Pos.eqb orb q_width] in *.
    1,3: by rewrite Hul by lia.
    + rewrite Hul by lia. f_equal. unfold u16. by apply wrap_small.
    + done.
Qed.

Lemma scan_step_num len q l z cell fmt rest m args outs num :
  ends rest ->
  scan_step len (piece_fmt (Num q l z cell) ++ fmt)
    (SState m (num_text q l z ++ rest) (DVar cell :: args) outs num) =
  Ret (Next fmt (SState m rest args (outs ++ [(cell, q_value q l z)]) (num + 1))).
Proof.
  intros He. destruct (num_text_head q l z rest) as (Hs & Hp & Hok). cbv zeta in *.
  assert (scan_step len (piece_fmt (Num q l z cell) ++ fmt)
      (SState m (num_text q l z ++ rest) (DVar cell :: args) outs num) =
    if peek (num_text q l z ++ rest) =? 0
    then Ret (Stop (SState m (num_text q l z ++ rest) (DVar cell :: args) outs num))
    else scan_int fmt (q_code q) (l_base l) (l_signed l)
           (SState m (num_text q l z ++ rest) (DVar cell :: args) outs num)) as ->
    by (destruct q, l; reflexivity).
  rewrite (proj2 (Z.eqb_neq _ _) Hp). unfold scan_int. rewrite Hs, Hok. cbn [negb].
  by rewrite scan_value_text.
Qed.

Lemma scan_word_text m p s rest w :
  Forall (fun c => 0 < c < 256 /\ isspace c = false) s ->
  rest = [] \/ isspace (peek rest) = true ->
  (p + length s < length m)%nat -> Z.of_nat (length s) <= w < 2 ^ 31 ->
  scan_word m p (s ++ rest) w = Ret (list_inserts p (s ++ [0]) m, rest).
Proof.
  intros Hs Hr. revert m p w. induction Hs as [|c s [Hc Hsp] Hs IH]; intros m p w Hm Hw.
  - simpl. destruct rest as [|c rest]; simpl; [by rewrite store_lt by lia|].
    destruct Hr as [?|Hr]; [done|]. simpl in Hr. rewrite Hr, andb_false_r. simpl.
    by rewrite store_lt by lia.
  - cbn [app scan_word length] in *. rewrite Hsp, (proj2 (Z.eqb_neq c 0)), (proj2 (Z.eqb_neq w 0)) by lia.
    cbn [negb andb]. rewrite store_lt by lia. rewrite s32_small by lia.
    rewrite IH; [|rewrite length_insert; lia|lia]. by rewrite inserts_cons.
Qed.

Lemma scan_step_str len s p fmt rest m args outs num :
  s <> [] -> Forall (fun c => 0 < c < 256 /\ isspace c = false) s ->
  rest = [] \/ isspace (peek rest) = true ->
  (p + length s < length m)%nat -> Z.of_nat (length s) < 2 ^ 31 ->
  scan_step len (piece_fmt (Str s p) ++ fmt) (SState m (s ++ rest) (DBuf p :: args) outs num) =
  Ret (Next fmt (SState (list_inserts p (s ++ [0]) m) rest args outs (num + 1))).
Proof.
  intros Hne Hs Hr Hm Hl. destruct s as [|c s]; [done|].
  pose proof Hs as [[Hc Hsp] _]%Forall_cons_1.
  change (scan_step _ _ _) with
    (if c =? 0 then Ret (Stop (SState m (c :: s ++ rest) (DBuf p :: args) outs num))
     else let! (m, str) := scan_word m p (skip_spaces (c :: s ++ rest)) (2 ^ 31 - 1) in
          Ret (Next fmt (SState m str args outs (num + 1)))).
  rewrite (proj2 (Z.eqb_neq c 0)) by lia. rewrite skip_spaces_id by done.
  change (c :: s ++ rest) with ((c :: s) ++ rest). by rewrite scan_word_text by (done || lia).
Qed.

Lemma scan_step_lit len c fmt rest m args outs num :
  0 < c -> c <> 37 -> isspace c = false ->
  scan_step len (c :: fmt) (SState m (c :: rest) args outs num) =
  Ret (Next fmt (SState m rest args outs num)).
Proof.
  intros Hc H37 Hs. unfold scan_step. cbn [peek hd]. rewrite Hs. cbn [peek hd tl].
  by rewrite (proj2 (Z.eqb_neq c 37)), (proj2 (Z.eqb_neq c 0)), Z.eqb_refl by lia.
Qed.

(** A space in the format is passed together with the next piece. *)
Lemma scan_step_space len size c ps m args outs num :
  isspace c = true -> apart size ps ->
  scan_step len (c :: fmt_of ps) (SState m (c :: text_of ps) args outs num) =
  scan_step len (fmt_of ps) (SState m (text_of ps) args outs num).
Proof.
  intros Hc Hps. unfold scan_step. cbn [peek hd skip_spaces]. rewrite Hc.
  destruct (isspace (peek (fmt_of ps))) eqn:E; [done|]. rewrite skip_spaces_id by done.
  assert (skip_spaces (text_of ps) = text_of ps) as ->; [|done].
  destruct ps as [|[d|q l z cell|s p] ps]; [done|..].
  - by apply skip_spaces_id.
  - apply num_text_head.
  - destruct Hps as [(Hne & Hs & _) _]. apply skip_spaces_id. destruct s as [|d s]; [done|].
    apply Forall_cons_1 in Hs as [[_ Hd] _]. done.
Qed.

Lemma pieces_peek size x ps :
  apart size (x :: ps) -> peek (fmt_of (x :: ps)) <> 0 /\ peek (text_of (x :: ps)) <> 0.
Proof.
  destruct x as [c|q l z cell|s p]; cbn [apart]; intros [Hx _].
  - simpl. lia.
  - split; [done|]. apply num_text_head.
  - split; [done|]. destruct Hx as (Hne & Hs & _). destruct s as [|d s]; [done|].
    apply Forall_cons_1 in Hs as [[Hd _] _]. simpl. lia.
Qed.

Lemma scan_loop_pieces fuel len ps m outs num :
  (length (fmt_of ps) <= fuel)%nat -> apart (length m) ps -> Z.of_nat (length (text_of ps)) < 2 ^ 31 ->
  scan_loop fuel len (fmt_of ps) (SState m (text_of ps) (dests_of ps) outs num) =
  Ret (SState (writes_of ps m) [] [] (outs ++ outs_of ps) (num + Z.of_nat (length (dests_of ps)))).
Proof.
  revert fuel m outs num. induction ps as [|x ps IH]; intros fuel m outs num Hf Hps Hl.
  { destruct fuel; simpl; by rewrite app_nil_r, Z.add_0_r. }
  destruct (pieces_peek _ _ _ Hps) as [Hp1 Hp2].
  assert (Hloop : forall n st, peek (s_str st) <> 0 -> scan_loop (S n) len (fmt_of (x :: ps)) st =
    let! r := scan_step len (fmt_of (x :: ps)) st in
    match r with Stop st => Ret st | Next fmt st => scan_loop n len fmt st end).
  { intros n st Hst. cbn [scan_loop]. by rewrite (proj2 (Z.eqb_neq _ _) Hp1), (proj2 (Z.eqb_neq _ _) Hst). }
  destruct fuel as [|fuel]; [destruct (fmt_of (x :: ps)); [done|simpl in Hf; lia]|].
  rewrite Hloop by done. clear Hp1 Hp2.
  change (fmt_of (x :: ps)) with (piece_fmt x ++ fmt_of ps) in *.
  change (text_of (x :: ps)) with (piece_text x ++ text_of ps) in *.
  change (dests_of (x :: ps)) with (piece_dest x ++ dests_of ps).
  change (outs_of (x :: ps)) with (piece_out x ++ outs_of ps).
  rewrite !length_app in Hf, Hl. destruct Hps as [Hx Hps].
  destruct x as [c|q l z cell|s p]; cbn [piece_text piece_dest app length] in *.
  - destruct (isspace c) eqn:Ec.
    + simpl piece_fmt. cbn [app]. rewrite (scan_step_space len (length m)) by done.
      destruct ps as [|y ps]; [by rewrite app_nil_r, Z.add_0_r|].
      destruct (pieces_peek _ _ _ Hps) as [Hp1 Hp2].
      specialize (IH (S fuel) m outs num ltac:(simpl in Hf; lia) Hps ltac:(lia)).
      cbn [scan_loop s_str] in IH. rewrite (proj2 (Z.eqb_neq _ _) Hp1), (proj2 (Z.eqb_neq _ _) Hp2) in IH.
      exact IH.
    + simpl piece_fmt. cbn [app]. rewrite scan_step_lit by (done || lia).
      apply IH; [simpl in Hf; lia|done|lia].
  - rewrite scan_step_num by done. cbn [piece_fmt app length] in Hf.
    rewrite IH by (done || lia). rewrite <-app_assoc. do 2 f_equal. lia.
  - destruct Hx as (Hne & Hs & Hsz & Hr). rewrite scan_step_str; [|done..| |done|lia].
    2: { destruct Hr as [->|?]; [by left|by right]. }
    assert (2 <= length (piece_fmt (Str s p)))%nat by (simpl; lia).
    rewrite IH; [|lia|by rewrite length_inserts|lia]. cbn [length piece_out app]. do 2 f_equal. lia.
Qed.

Lemma text_nonzero size ps : apart size ps -> Forall (fun c => c <> 0) (text_of ps).
Proof.
  induction ps as [|x ps IH]; [constructor|]. intros [Hx Hps].
  change (text_of (x :: ps)) with (piece_text x ++ text_of ps). apply Forall_app_2; [|by apply IH].
  destruct x as [c|q l z cell|s p]; simpl.
  - repeat constructor. lia.
  - unfold num_text. cbv zeta. apply Forall_app_2; [case_match; by repeat constructor|].
    assert (is_u64 (Z.abs (q_value q l z))) as Hu.
    { pose proof (q_value_abs q l z). unfold word in *. destruct q; simpl in *; lia. }
    destruct (num_digits_spell l _ Hu) as (_ & vs & -> & _ & Hr & _).
    apply Forall_map. eapply Forall_impl; [exact Hr|]. intros v Hv.
    destruct (digit_char l v Hv) as (_ & _ & Hc & _). simpl in *. lia.
  - destruct Hx as (_ & Hs & _). eapply Forall_impl; [exact Hs|]. intros c [Hc _]. lia.
Qed.

(** C30 (print, then scan): a text printed by [vsnprintf] from literals,
    integers ([%d], [%u], [%o], [%x], [%X] with any of [h], [l], [ll]) and
    strings is read back by [sscanf] with the same format: all conversions
    succeed, every variable receives its value in the type of the conversion
    and every buffer its string, as long as a number is followed by something
    that is not a hexadecimal digit or an x and a string by a space or the end. *)
Theorem sscanf_reads_printed m buf size ps m2 :
  0 < buf -> Z.of_nat (length (text_of ps)) < size < 2 ^ 31 ->
  buf + size <= Z.of_nat (length m) <= 2 ^ 32 -> apart (length m2) ps ->
  exists m1, vsnprintf m buf size (fmt_of ps) (args_of ps) = Ret (Z.of_nat (length (text_of ps)), m1, []) /\
    cstr m1 (Z.to_nat buf) (text_of ps) /\
    sscanf m2 (text_of ps) (fmt_of ps) (dests_of ps) =
      Ret (Z.of_nat (length (dests_of ps)), writes_of ps m2, outs_of ps).
Proof.
  intros Hb Hs Hm Hps. eexists. split; [|split].
  - apply vsnprintf_prints; [done..|]. eapply prints_pieces; [done|lia].
  - apply cstr_inserts_new; [lia|by eapply text_nonzero].
  - unfold sscanf, vsscanf. by rewrite scan_loop_pieces by (done || lia).
Qed.

Definition demo_pieces : list piece :=
  [Str (codes "sda1") 2; Lit 32; Num Qnone Ld (-35) 0; Lit 44; Num Qll Lx (2 ^ 40 + 11) 1; Lit 58; Num Qh Lu 70000 2].

Lemma sscanf_reads_printed_witness :
  exists m1, vsnprintf (replicate 60 0) 3 40 (codes "%s %d,%llx:%hu")
      [VStr (codes "sda1"); VNum (-35); VNum (2 ^ 40 + 11); VNum 70000] = Ret (25, m1, []) /\
    cstr m1 3 (codes "sda1 -35,1000000000b:4464") /\
    sscanf (replicate 8 7) (codes "sda1 -35,1000000000b:4464") (codes "%s %d,%llx:%hu")
      [DBuf 2; DVar 0; DVar 1; DVar 2] =
      Ret (4, [7; 7] ++ codes "sda1" ++ [0; 7], combine (seq 0 3) [-35; 2 ^ 40 + 11; 4464]).
Proof.
  apply (sscanf_reads_printed (replicate 60 0) 3 40 demo_pieces (replicate 8 7)); try (vm_compute; done).
  simpl. unfold ends. split_and!; try done; try lia; auto.
  repeat constructor.
Defined.

(** ** Examples *)

(** Inputs of the kind the kernel reads this way. *)
Example scan_mac :
  sscanf [] (codes "00:1e:ab:0:7f:ff") (codes "%x:%x:%x:%x:%x:%x") (map DVar (seq 0 6)) =
  Ret (6, [], combine (seq 0 6) [0x00; 0x1e; 0xab; 0; 0x7f; 0xff]).
Proof. reflexivity. Qed.

Example scan_mixed :
  sscanf (replicate 8 9) (codes "  -12 sda1,077 x") (codes "%d %4s,%i %n%c") [DVar 0; DBuf 1; DVar 1; DVar 2; DBuf 6] =
  Ret (4, [9] ++ codes "sda1" ++ [0] ++ codes "x" ++ [9], combine (seq 0 3) [-12; 63; 15]).
Proof. reflexivity. Qed.

(** [%zd] is signed for the guard and unsigned for the conversion: a negative
    number is stored as 0 and stays in the input. *)
Example scan_size_negative :
  sscanf [] (codes "-5 7") (codes "%zd %d") [DVar 0; DVar 1] = Ret (2, [], combine (seq 0 2) [0; -5]).
Proof. reflexivity. Qed.
