(* ===== verification/Cmdline.v ===== *)
(** * Kernel command line helpers (lib/cmdline.c)

    [get_option], [get_options] and [memparse] over the string suffixes of
    [Vsprintf].  [*pint] is returned as [None] when it is not written. *)

From S2P Require Import Prelude CMem Ctype Vsprintf.

(** [cur == *str]: the parser gave back the suffix it got. *)
Definition same_pos (a b : list Z) : bool := (length a =? length b)%nat.

(** The result, the new [*str], and the value stored in [*pint]. *)
Definition get_option (str : option (list Z)) : Z * option (list Z) * option Z :=
  match str with
  | None => (0, None, None)
  | Some cur =>
      if peek cur =? 0 then (0, Some cur, None)
      else
        let '(v, rest) := simple_strtol cur 0 in
        if same_pos cur rest then (0, Some rest, Some v)
        else if peek rest =? 44 then (2, Some (tl rest), Some v)
        else (1, Some rest, Some v)
  end.

Definition set_int (ints : list Z) (i : nat) (v : option Z) : outcome (list Z) :=
  match v with
  | None => Ret ints
  | Some v => if (i <? length ints)%nat then Ret (<[i := v]> ints) else Err Fault
  end.

(** [k] is [nints - i], the slots left. *)
Fixpoint get_options_loop (str : option (list Z)) (k i : nat) (ints : list Z) :
    outcome (option (list Z) * nat * list Z) :=
  match k with
  | O => Ret (str, i, ints)
  | S k =>
      let '(res, str, v) := get_option str in
      let! ints := set_int ints i v in
      if res =? 0 then Ret (str, i, ints)
      else if res =? 1 then Ret (str, S i, ints)
      else get_options_loop str k (S i) ints
  end.

Definition get_options (str : option (list Z)) (nints : nat) (ints : list Z) :
    outcome (option (list Z) * list Z) :=
  let! (str, i, ints) := get_options_loop str (nints - 1) 1 ints in
  let! ints := set_int ints 0 (Some (Z.of_nat i - 1)) in
  Ret (str, ints).

Definition memparse (ptr : list Z) : Z * list Z :=
  let '(ret, retptr) := simple_strtoull ptr 0 in
  let c := peek retptr in
  if (c =? 71) || (c =? 103) then
    (cshl 64 (cshl 64 (cshl 64 ret 10) 10) 10, tl retptr)
  else if (c =? 77) || (c =? 109) then (cshl 64 (cshl 64 ret 10) 10, tl retptr)
  else if (c =? 75) || (c =? 107) then (cshl 64 ret 10, tl retptr)
  else (ret, retptr).

(** ** Correctness *)

(** A decimal numeral as the base detection of the parsers wants it: no
    leading zero, except for 0 itself. *)
Definition decimal (ds : list Z) (n : Z) : Prop :=
  exists vs, ds = map (digit small_digits) vs /\ spells 10 vs n /\ (hd 0 vs = 0 -> vs = [0]).

Lemma digit_decimal v : 0 <= v < 10 -> digit small_digits v = 48 + v.
Proof.
  intros Hv.
  assert (H : forallb (fun v => digit small_digits v =? 48 + v) (seqZ 0 10) = true) by reflexivity.
  rewrite forallb_forall in H. apply Z.eqb_eq, H, list_elem_of_In, elem_of_seqZ. lia.
Qed.

Lemma horner_pos vs acc : Forall (fun v => 0 <= v < 10) vs -> 0 < acc -> 0 < horner 10 vs acc.
Proof.
  intros Hvs. revert acc. induction Hvs as [|v vs Hv Hvs IH]; intros acc Ha; [done|].
  apply IH. lia.
Qed.

Lemma decimal_first ds n : decimal ds n -> 48 <= peek ds <= 57.
Proof.
  intros (vs & -> & (_ & Hvs & Hne) & _). destruct vs as [|v vs]; [done|].
  apply Forall_cons_1 in Hvs as [Hv _]. cbn [map peek hd].
  change (48 <= digit small_digits v <= 57). rewrite digit_decimal by done. lia.
Qed.

(** On a numeral the detected base is 10, or 8 with the single 0 consumed;
    both give the same number. *)
Lemma strto_decimal w ds n rest :
  0 <= w -> decimal ds n -> word w n -> ends rest ->
  (let '(cp, base) := strto_prefix (ds ++ rest) 0 in strto_loop w cp base 0) = (n, rest).
Proof.
  intros Hw (vs & -> & (Hh & Hvs & Hne) & Hz) Hn [Hx Ht]. destruct vs as [|v vs]; [done|].
  unfold strto_prefix. change (0 =? 0) with true. cbv iota.
  assert (Hp : peek (map (digit small_digits) (v :: vs) ++ rest) = 48 + v).
  { change (digit small_digits v = 48 + v). apply digit_decimal. by inversion Hvs. }
  rewrite Hp. destruct (Z.eqb_spec (48 + v) 48) as [E|E].
  - assert (v = 0) as -> by lia. simpl in Hz. specialize (Hz eq_refl) as [= ->].
    cbn [map app tl]. destruct (Z.eqb_spec (toupper (peek rest)) 88); [done|]. cbn [andb].
    pose proof (strto_loop_digits w 8 0 [] rest 0 Hw ltac:(lia) ltac:(done) Hx) as Hl.
    simpl in Hl, Hh. rewrite Hl. by subst.
  - change small_digits with (digit_set 0).
    rewrite (strto_loop_digits w 10 0 (v :: vs)) by (done || lia). rewrite Hh. f_equal. by apply wrap_small.
Qed.

Lemma simple_strtoull_decimal ds n rest :
  decimal ds n -> is_u64 n -> ends rest -> simple_strtoull (ds ++ rest) 0 = (n, rest).
Proof.
  intros Hd Hn He. unfold simple_strtoull.
  pose proof (strto_decimal 64 ds n rest ltac:(lia) Hd Hn He) as H.
  destruct (strto_prefix (ds ++ rest) 0). by rewrite strtoull_loop_eq.
Qed.

Lemma simple_strtoul_decimal ds n rest :
  decimal ds n -> is_u32 n -> ends rest -> simple_strtoul (ds ++ rest) 0 = (n, rest).
Proof. intros. by apply strto_decimal. Qed.

(** (memparse): a decimal size with a K, M or G suffix, in either case,
    is that many times 2^10, 2^20 or 2^30, modulo 2^64, and the suffix is
    consumed; without one the number itself is returned. *)
Theorem memparse_correct ds n c rest :
  decimal ds n -> is_u64 n -> ends (c :: rest) ->
  memparse (ds ++ c :: rest) =
    if (c =? 71) || (c =? 103) then (u64 (n * 2 ^ 30), rest)
    else if (c =? 77) || (c =? 109) then (u64 (n * 2 ^ 20), rest)
    else if (c =? 75) || (c =? 107) then (u64 (n * 2 ^ 10), rest)
    else (n, c :: rest).
Proof.
  intros Hd Hn He. unfold memparse. rewrite (simple_strtoull_decimal ds n (c :: rest)) by done.
  assert (Hsh : forall a k, wrap 64 (Z.shiftl (wrap 64 a) k) = wrap 64 (a * 2 ^ k) \/ k < 0).
  { intros a k. destruct (Z.ltb_spec k 0); [by right|]. left. rewrite Z.shiftl_mul_pow2 by lia.
    unfold wrap. by rewrite Z.mul_mod_idemp_l. }
  assert (H1 : cshl 64 n 10 = wrap 64 (n * 2 ^ 10)).
  { unfold cshl. by rewrite Z.shiftl_mul_pow2 by lia. }
  assert (Hk : forall a, cshl 64 (wrap 64 a) 10 = wrap 64 (a * 2 ^ 10)).
  { intros a. unfold cshl. destruct (Hsh a 10); [done|lia]. }
  cbn [peek hd tl]. rewrite H1, !Hk. unfold u64.
  repeat case_match; try done; do 2 f_equal; lia.
Qed.

Lemma decimal_512 : decimal [53; 49; 50] 512.
Proof. exists [5; 1; 2]. split_and!; [done| |done]. split_and!; [done| |done]. repeat constructor; lia. Qed.

Lemma memparse_correct_witness : memparse ([53; 49; 50] ++ 77 :: [44]) = (u64 (512 * 2 ^ 20), [44]).
Proof.
  apply (memparse_correct [53; 49; 50] 512 77 [44]);
    [apply decimal_512|unfold word; lia|split; [reflexivity|discriminate]].
Defined.

(** A numeral with an optional minus sign, and the [int] it stands for. *)
Definition numeral (txt : list Z) (z : Z) : Prop :=
  (exists n, decimal txt n /\ is_u32 n /\ z = s32 n) \/
  (exists ds n, txt = 45 :: ds /\ decimal ds n /\ is_u32 n /\ z = s32 (- n)).

Lemma decimal_nonempty ds n : decimal ds n -> (0 < length ds)%nat.
Proof.
  intros (vs & -> & (_ & _ & Hne) & _). rewrite length_map. destruct vs; [done|]. simpl. lia.
Qed.

Lemma simple_strtol_numeral txt z rest :
  numeral txt z -> ends rest ->
  simple_strtol (txt ++ rest) 0 = (z, rest) /\ peek (txt ++ rest) <> 0 /\ (0 < length txt)%nat.
Proof.
  unfold simple_strtol. intros [(n & Hd & Hn & ->)|(ds & n & -> & Hd & Hn & ->)] He.
  - pose proof (decimal_nonempty txt n Hd) as Hl. pose proof (decimal_first txt n Hd) as Hp.
    assert (peek (txt ++ rest) = peek txt) as -> by (by destruct txt; [simpl in Hl; lia|]).
    destruct (Z.eqb_spec (peek txt) 45); [lia|].
    rewrite (simple_strtoul_decimal txt n rest) by done. split_and!; [done|lia|done].
  - simpl. rewrite (simple_strtoul_decimal ds n rest) by done. split_and!; [done..|lia].
Qed.

Lemma get_option_numeral txt z rest :
  numeral txt z -> ends rest ->
  get_option (Some (txt ++ rest)) =
    if peek rest =? 44 then (2, Some (tl rest), Some z) else (1, Some rest, Some z).
Proof.
  intros Hz He. destruct (simple_strtol_numeral txt z rest Hz He) as (Hs & Hp & Hl).
  unfold get_option. destruct (Z.eqb_spec (peek (txt ++ rest)) 0); [done|]. rewrite Hs.
  unfold same_pos. rewrite length_app.
  by destruct (Nat.eqb_spec (length txt + length rest) (length rest)); [lia|].
Qed.

Fixpoint join (txts : list (list Z)) : list Z :=
  match txts with
  | [] => []
  | [t] => t
  | t :: ts => t ++ 44 :: join ts
  end.

Lemma ends_comma rest : ends (44 :: rest).
Proof. split; [reflexivity|discriminate]. Qed.

Lemma get_options_loop_spec txts zs rest k i ints :
  Forall2 numeral txts zs -> txts <> [] -> ends rest -> peek rest <> 44 ->
  (length zs <= k)%nat -> (i + k <= length ints)%nat ->
  get_options_loop (Some (join txts ++ rest)) k i ints =
    Ret (Some rest, (i + length zs)%nat, list_inserts i zs ints).
Proof.
  intros H2 Hne He Hc. revert k i ints. induction H2 as [|t z ts zs Ht Hts IH]; [done|].
  intros [|k] i ints Hk Hi; [simpl in Hk; lia|]. simpl in Hk.
  destruct Hts as [|t' z' ts zs Ht' Hts].
  - cbn [join get_options_loop]. rewrite (get_option_numeral t z rest Ht He).
    destruct (Z.eqb_spec (peek rest) 44); [done|]. cbn [set_int].
    destruct (Nat.ltb_spec i (length ints)); [|lia]. simpl. do 3 f_equal. lia.
  - change (join (t :: t' :: ts)) with (t ++ 44 :: join (t' :: ts)). rewrite <-app_assoc.
    cbn [get_options_loop app]. rewrite (get_option_numeral t z _ Ht (ends_comma _)).
    cbn [peek hd tl]. change (44 =? 44) with true. cbv iota. cbn [set_int].
    destruct (Nat.ltb_spec i (length ints)); [|lia]. change (2 =? 0) with false. change (2 =? 1) with false. cbv iota.
    rewrite IH by (done || rewrite ?length_insert; simpl in *; lia).
    rewrite inserts_cons. do 3 f_equal. simpl. lia.
Qed.

(** (get_options): from a comma-separated list of [k] numbers that the
    array has room for, [ints[1..k]] get the numbers, [ints[0]] gets [k], the
    rest of the array is unchanged and the parse stops right after the list. *)
Theorem get_options_correct txts zs rest nints ints :
  Forall2 numeral txts zs -> txts <> [] -> ends rest -> peek rest <> 44 ->
  (length zs < nints <= length ints)%nat ->
  get_options (Some (join txts ++ rest)) nints ints =
    Ret (Some rest, list_inserts 0 (Z.of_nat (length zs) :: zs) ints).
Proof.
  intros H2 Hne He Hc Hn. unfold get_options.
  rewrite (get_options_loop_spec txts zs rest) by (done || lia).
  cbn [set_int]. rewrite length_inserts. case_bool; [|lia]. simpl. do 3 f_equal. lia.
Qed.

Lemma numeral_512 : numeral [53; 49; 50] 512.
Proof. left. exists 512. split_and!; [apply decimal_512|unfold word; lia|done]. Qed.

Lemma get_options_correct_witness :
  get_options (Some (join [[53; 49; 50]; [53; 49; 50]] ++ [32])) 4 [9; 9; 9; 9] =
    Ret (Some [32], [2; 512; 512; 9]).
Proof.
  apply (get_options_correct [[53; 49; 50]; [53; 49; 50]] [512; 512] [32] 4 [9; 9; 9; 9]);
    [constructor; [apply numeral_512|constructor; [apply numeral_512|constructor]]|done|split; [reflexivity|discriminate]|done|simpl; lia].
Defined.
