(* ===== verification/Bitmap.v ===== *)
(** * Bitmaps (kernel lib/bitmap.c, and the bit helpers it uses)

    A bitmap is a run of 32-bit words in a checked word memory, the memory
    and address types of [CMem] with a word per cell; [bit m p i] is bit [i]
    of the bitmap at [p].  Where a routine writes, source and destination live
    in one memory, so that in-place calls are covered.  The [int] results that
    are only used as truth values are [bool]s. *)

From S2P Require Import Prelude CMem Ctype Vsprintf Cmdline.

Definition BITS_PER_LONG : nat := 32.
Definition BITS_TO_LONGS (bits : nat) : nat := ((bits + BITS_PER_LONG - 1) / BITS_PER_LONG)%nat.

Definition BITMAP_LAST_WORD_MASK (nbits : nat) : Z :=
  let left := Z.of_nat (nbits mod BITS_PER_LONG) in
  if negb (left =? 0) then Z.shiftl 1 left - 1 else 2 ^ 32 - 1.

(** ** Tests *)

(** The shape of the scalar tests: [full k] is non-zero when whole word [k]
    decides the test negatively, [part k] holds the offending bits of the
    last, partial word. *)
Fixpoint scan_loop (full : nat -> outcome Z) (k n : nat) : outcome bool :=
  match n with
  | O => Ret true
  | S n =>
      let! w := full k in
      if negb (w =? 0) then Ret false else scan_loop full (S k) n
  end.

Definition scan (full part : nat -> outcome Z) (bits : nat) : outcome bool :=
  let lim := (bits / BITS_PER_LONG)%nat in
  let! r := scan_loop full 0 lim in
  if negb r then Ret false
  else if negb (bits mod BITS_PER_LONG =? 0)%nat then
    let! w := part lim in
    if negb (Z.land w (BITMAP_LAST_WORD_MASK bits) =? 0) then Ret false else Ret true
  else Ret true.

Definition load1 (f : Z -> Z) (m : mem) (p : addr) (k : nat) : outcome Z :=
  let! w := load m (p + k) in Ret (f w).

Definition load2 (f : Z -> Z -> Z) (m : mem) (p q : addr) (k : nat) : outcome Z :=
  let! w := load m (p + k) in
  let! v := load m (q + k) in
  Ret (f w v).

Definition __bitmap_empty (m : mem) (bitmap : addr) (bits : nat) : outcome bool :=
  scan (load1 (fun w => w) m bitmap) (load1 (fun w => w) m bitmap) bits.

Definition __bitmap_full (m : mem) (bitmap : addr) (bits : nat) : outcome bool :=
  scan (load1 (cnot 32) m bitmap) (load1 (cnot 32) m bitmap) bits.

Definition __bitmap_equal (m : mem) (bitmap1 bitmap2 : addr) (bits : nat) : outcome bool :=
  scan (load2 (fun w v => b2z (negb (w =? v))) m bitmap1 bitmap2)
       (load2 Z.lxor m bitmap1 bitmap2) bits.

Definition __bitmap_intersects (m : mem) (bitmap1 bitmap2 : addr) (bits : nat) : outcome bool :=
  let! r := scan (load2 Z.land m bitmap1 bitmap2) (load2 Z.land m bitmap1 bitmap2) bits in
  Ret (negb r).

Definition __bitmap_subset (m : mem) (bitmap1 bitmap2 : addr) (bits : nat) : outcome bool :=
  let andnot w v := Z.land w (cnot 32 v) in
  scan (load2 andnot m bitmap1 bitmap2) (load2 andnot m bitmap1 bitmap2) bits.

(** ** Word-wise operations *)

Fixpoint store_words (f : nat -> mem -> outcome Z) (m : mem) (dst : addr) (k n : nat) : outcome mem :=
  match n with
  | O => Ret m
  | S n =>
      let! w := f k m in
      let! m := store m (dst + k) w in
      store_words f m dst (S k) n
  end.

Definition __bitmap_complement (m : mem) (dst src : addr) (bits : nat) : outcome mem :=
  let lim := (bits / BITS_PER_LONG)%nat in
  let! m := store_words (fun k m => load1 (cnot 32) m src k) m dst 0 lim in
  if negb (bits mod BITS_PER_LONG =? 0)%nat then
    let! w := load m (src + lim) in
    store m (dst + lim) (Z.land (cnot 32 w) (BITMAP_LAST_WORD_MASK bits))
  else Ret m.

Definition __bitmap_and (m : mem) (dst bitmap1 bitmap2 : addr) (bits : nat) : outcome mem :=
  store_words (fun k m => load2 Z.land m bitmap1 bitmap2 k) m dst 0 (BITS_TO_LONGS bits).

Definition __bitmap_or (m : mem) (dst bitmap1 bitmap2 : addr) (bits : nat) : outcome mem :=
  store_words (fun k m => load2 Z.lor m bitmap1 bitmap2 k) m dst 0 (BITS_TO_LONGS bits).

Definition __bitmap_xor (m : mem) (dst bitmap1 bitmap2 : addr) (bits : nat) : outcome mem :=
  store_words (fun k m => load2 Z.lxor m bitmap1 bitmap2 k) m dst 0 (BITS_TO_LONGS bits).

Definition __bitmap_andnot (m : mem) (dst bitmap1 bitmap2 : addr) (bits : nat) : outcome mem :=
  store_words (fun k m => load2 (fun w v => Z.land w (cnot 32 v)) m bitmap1 bitmap2 k)
    m dst 0 (BITS_TO_LONGS bits).

Fixpoint zero_words (m : mem) (dst : addr) (n : nat) : outcome mem :=
  match n with
  | O => Ret m
  | S n => let! m := store m dst 0 in zero_words m (S dst) n
  end.

Definition bitmap_zero (m : mem) (dst : addr) (nbits : nat) : outcome mem :=
  if (nbits <=? BITS_PER_LONG)%nat then store m dst 0
  else zero_words m dst (BITS_TO_LONGS nbits).

(** ** Shifts *)

(** The word a right shift stores at index [k]. *)
Definition shr_word (m : mem) (src : addr) (off rem left lim : nat) (k : nat) : outcome Z :=
  let mask := Z.shiftl 1 (Z.of_nat left) - 1 in
  let! upper :=
    (if (rem =? 0)%nat || (lim <=? off + k + 1)%nat then Ret 0
     else
       let! w := load m (src + (off + k + 1)) in
       Ret (if (off + k + 1 =? lim - 1)%nat && negb (left =? 0)%nat then Z.land w mask else w)) in
  let! lower := load m (src + (off + k)) in
  let lower := if negb (left =? 0)%nat && (off + k =? lim - 1)%nat then Z.land lower mask else lower in
  let w := Z.lor (cshl 32 upper (Z.of_nat (BITS_PER_LONG - rem))) (Z.shiftr lower (Z.of_nat rem)) in
  Ret (if negb (left =? 0)%nat && (k =? lim - 1)%nat then Z.land w mask else w).

Definition __bitmap_shift_right (m : mem) (dst src : addr) (shift bits : nat) : outcome mem :=
  let lim := BITS_TO_LONGS bits in
  let left := (bits mod BITS_PER_LONG)%nat in
  let off := (shift / BITS_PER_LONG)%nat in
  let rem := (shift mod BITS_PER_LONG)%nat in
  let! m := store_words (fun k m => shr_word m src off rem left lim k) m dst 0 (lim - off) in
  if negb (off =? 0)%nat then
    if (lim <? off)%nat then Err Fault else zero_words m (dst + (lim - off)) off
  else Ret m.

(** The word a left shift stores at index [k + off]. *)
Definition shl_word (m : mem) (src : addr) (off rem left lim : nat) (k : nat) : outcome Z :=
  let mask := Z.shiftl 1 (Z.of_nat left) - 1 in
  let! lower := (if negb (rem =? 0)%nat && (0 <? k)%nat then load m (src + (k - 1)) else Ret 0) in
  let! upper := load m (src + k) in
  let upper := if negb (left =? 0)%nat && (k =? lim - 1)%nat then Z.land upper mask else upper in
  let w := Z.lor (Z.shiftr lower (Z.of_nat (BITS_PER_LONG - rem))) (cshl 32 upper (Z.of_nat rem)) in
  Ret (if negb (left =? 0)%nat && (k + off =? lim - 1)%nat then Z.land w mask else w).

Fixpoint store_words_down (f : nat -> mem -> outcome Z) (m : mem) (dst : addr) (n : nat) : outcome mem :=
  match n with
  | O => Ret m
  | S n =>
      let! w := f n m in
      let! m := store m (dst + n) w in
      store_words_down f m dst n
  end.

Definition __bitmap_shift_left (m : mem) (dst src : addr) (shift bits : nat) : outcome mem :=
  let lim := BITS_TO_LONGS bits in
  let left := (bits mod BITS_PER_LONG)%nat in
  let off := (shift / BITS_PER_LONG)%nat in
  let rem := (shift mod BITS_PER_LONG)%nat in
  let! m := store_words_down (fun k m => shl_word m src off rem left lim k) m (dst + off) (lim - off) in
  if negb (off =? 0)%nat then zero_words m dst off else Ret m.

(** ** Weight *)

Definition generic_hweight32 (w : Z) : Z :=
  let res := u32 (Z.land w 0x55555555 + Z.land (Z.shiftr w 1) 0x55555555) in
  let res := u32 (Z.land res 0x33333333 + Z.land (Z.shiftr res 2) 0x33333333) in
  let res := u32 (Z.land res 0x0F0F0F0F + Z.land (Z.shiftr res 4) 0x0F0F0F0F) in
  let res := u32 (Z.land res 0x00FF00FF + Z.land (Z.shiftr res 8) 0x00FF00FF) in
  u32 (Z.land res 0x0000FFFF + Z.land (Z.shiftr res 16) 0x0000FFFF).

Fixpoint weight_loop (m : mem) (bitmap : addr) (k n : nat) (w : Z) : outcome Z :=
  match n with
  | O => Ret w
  | S n =>
      let! x := load m (bitmap + k) in
      weight_loop m bitmap (S k) n (w + generic_hweight32 x)
  end.

Definition __bitmap_weight (m : mem) (bitmap : addr) (bits : nat) : outcome Z :=
  let lim := (bits / BITS_PER_LONG)%nat in
  let! w := weight_loop m bitmap 0 lim 0 in
  if negb (bits mod BITS_PER_LONG =? 0)%nat then
    let! x := load m (bitmap + lim) in
    Ret (w + generic_hweight32 (Z.land x (BITMAP_LAST_WORD_MASK bits)))
  else Ret w.

(** ** Regions *)

Definition EINVAL : Z := 22.
Definition ENOMEM : Z := 12.
Definition EBUSY : Z := 16.
Definition ERANGE : Z := 34.

(** [mask = (1ul << (pages - 1)); mask += mask - 1;] *)
Definition region_mask (pages : Z) : Z :=
  let mask := cshl 32 1 (pages - 1) in u32 (mask + (mask - 1)).

Fixpoint find_region_loop (fuel : nat) (m : mem) (bitmap : addr) (bits i pages mask : Z) :
    outcome (Z * mem) :=
  if i <? bits then
    match fuel with
    | O => Err Diverge
    | S fuel =>
        let index := i / 32 in
        let offset := i - index * 32 in
        let! w := load m (bitmap + Z.to_nat index) in
        if Z.land w (cshl 32 mask offset) =? 0 then
          let! m := store m (bitmap + Z.to_nat index) (Z.lor w (cshl 32 mask offset)) in
          Ret (i, m)
        else find_region_loop fuel m bitmap bits (i + pages) pages mask
    end
  else Ret (- ENOMEM, m).

(** [1 << order] for an order below 32; larger orders are rejected with
    the ones above 5. *)
Definition bitmap_find_free_region (m : mem) (bitmap : addr) (bits : Z) (order : Z) :
    outcome (Z * mem) :=
  let pages := Z.shiftl 1 order in
  if 32 <? pages then Ret (- EINVAL, m)
  else find_region_loop (Z.to_nat bits) m bitmap bits 0 pages (region_mask pages).

Definition bitmap_release_region (m : mem) (bitmap : addr) (pos order : Z) : outcome mem :=
  let pages := Z.shiftl 1 order in
  let index := pos / 32 in
  let offset := pos - index * 32 in
  let! w := load m (bitmap + Z.to_nat index) in
  store m (bitmap + Z.to_nat index) (Z.land w (cnot 32 (cshl 32 (region_mask pages) offset))).

Definition bitmap_allocate_region (m : mem) (bitmap : addr) (pos order : Z) : outcome (Z * mem) :=
  let pages := Z.shiftl 1 order in
  let index := pos / 32 in
  let offset := pos - index * 32 in
  if 32 <? pages then Err Bug
  else
    let mask := region_mask pages in
    let! w := load m (bitmap + Z.to_nat index) in
    if negb (Z.land w (cshl 32 mask offset) =? 0) then Ret (- EBUSY, m)
    else
      let! m := store m (bitmap + Z.to_nat index) (Z.lor w (cshl 32 mask offset)) in
      Ret (0, m).

(** ** List format *)

Definition set_bit (m : mem) (nr : nat) (p : addr) : outcome mem :=
  let! w := load m (p + nr / 32) in
  store m (p + nr / 32) (Z.lor w (cshl 32 1 (Z.of_nat (nr mod 32)))).

(** [while (a <= b) { set_bit(a, maskp); a++; }]: [n] bits from [a] on. *)
Fixpoint set_range (m : mem) (a n : nat) (maskp : addr) : outcome mem :=
  match n with
  | O => Ret m
  | S n => let! m := set_bit m a maskp in set_range m (S a) n maskp
  end.

(** [unsigned a, b]: the comparison with [nmaskbits] is unsigned too. *)
Fixpoint parselist_loop (fuel : nat) (bp : list Z) (m : mem) (maskp : addr) (nmaskbits : Z) :
    outcome (Z * mem) :=
  match fuel with
  | O => Err Diverge
  | S fuel =>
      if negb (isdigit (peek bp)) then Ret (- EINVAL, m)
      else
        let '(a, bp) := simple_strtoul bp 10 in
        let! (b, bp) :=
          (if peek bp =? 45 then
             let bp := tl bp in
             if negb (isdigit (peek bp)) then Ret (None, bp)
             else let '(b, bp) := simple_strtoul bp 10 in Ret (Some b, bp)
           else Ret (Some a, bp)) in
        match b with
        | None => Ret (- EINVAL, m)
        | Some b =>
            if negb (a <=? b) then Ret (- EINVAL, m)
            else if nmaskbits <=? b then Ret (- ERANGE, m)
            else
              let! m := set_range m (Z.to_nat a) (Z.to_nat (b - a + 1)) maskp in
              let bp := if peek bp =? 44 then tl bp else bp in
              if negb (peek bp =? 0) && negb (peek bp =? 10)
              then parselist_loop fuel bp m maskp nmaskbits
              else Ret (0, m)
        end
  end.

Definition bitmap_parselist (bp : list Z) (m : mem) (maskp : addr) (nmaskbits : nat) :
    outcome (Z * mem) :=
  let! m := bitmap_zero m maskp nmaskbits in
  parselist_loop (S (length bp)) bp m maskp (Z.of_nat nmaskbits).

(** ** Bits *)

Definition bit (m : mem) (p : addr) (i : nat) : bool :=
  Z.testbit (nth (p + i / 32) m 0) (Z.of_nat (i mod 32)).

(** The memory holds words, and the bitmap lies inside of it. *)
Definition bitmap_ok (m : mem) (p : addr) (bits : nat) : Prop :=
  Forall is_u32 m /\ (p + BITS_TO_LONGS bits <= length m)%nat.

Lemma div_mod_32 i : (i = 32 * (i / 32) + i mod 32 /\ i mod 32 < 32)%nat.
Proof.
  split; [apply Nat.div_mod_eq|]. by apply Nat.mod_upper_bound.
Qed.

Lemma div_32_add k j : (j < 32)%nat -> ((32 * k + j) / 32 = k)%nat.
Proof. intros. symmetry. apply (Nat.div_unique _ 32 k j); lia. Qed.

Lemma mod_32_add k j : (j < 32)%nat -> ((32 * k + j) mod 32 = j)%nat.
Proof. intros. symmetry. apply (Nat.mod_unique _ 32 k j); lia. Qed.

Lemma BITS_TO_LONGS_spec bits :
  BITS_TO_LONGS bits = (bits / 32 + (if bits mod 32 =? 0 then 0 else 1))%nat.
Proof.
  unfold BITS_TO_LONGS, BITS_PER_LONG. pose proof (div_mod_32 bits) as [Hd Hm].
  set (q := (bits / 32)%nat) in *. set (r := (bits mod 32)%nat) in *. clearbody q r. case_bool.
  - symmetry. apply (Nat.div_unique _ 32 _ 31); lia.
  - symmetry. apply (Nat.div_unique _ 32 _ (r - 1)); lia.
Qed.

Lemma last_word_index bits i : (i < bits)%nat -> (i / 32 < BITS_TO_LONGS bits)%nat.
Proof.
  intros Hi. rewrite BITS_TO_LONGS_spec.
  pose proof (div_mod_32 bits). pose proof (div_mod_32 i). case_bool; lia.
Qed.

Lemma nth_load m k : (k < length m)%nat -> load m k = Ret (nth k m 0).
Proof.
  intros Hk. destruct (lookup_lt_is_Some_2 m k Hk) as [w Hw].
  by rewrite (load_Some _ _ _ Hw), (nth_lookup_Some _ _ _ _ Hw).
Qed.

Lemma nth_word m k : Forall is_u32 m -> is_u32 (nth k m 0).
Proof.
  intros Hm. destruct (decide (k < length m)%nat) as [Hk|Hk].
  - destruct (lookup_lt_is_Some_2 m k Hk) as [w Hw]. rewrite (nth_lookup_Some _ _ _ _ Hw).
    eauto with cword.
  - rewrite nth_overflow by lia. unfold word. lia.
Qed.
#[export] Hint Resolve nth_word : cword.

Lemma word_zero_iff w :
  is_u32 w -> w = 0 <-> forall j, (j < 32)%nat -> Z.testbit w (Z.of_nat j) = false.
Proof.
  intros Hw. split; [intros -> j _; apply Z.testbit_0_l|]. intros Hb.
  apply Z.bits_inj'; intros i Hi. rewrite Z.testbit_0_l.
  destruct (Z.ltb_spec i 32).
  - rewrite <-(Z2Nat.id i) by done. apply Hb. lia.
  - by apply (word_testbit_high 32).
Qed.

Lemma last_mask_testbit bits j :
  (bits mod 32 <> 0)%nat -> 0 <= j ->
  Z.testbit (BITMAP_LAST_WORD_MASK bits) j = (j <? Z.of_nat (bits mod 32)).
Proof.
  intros Hm Hj. unfold BITMAP_LAST_WORD_MASK, BITS_PER_LONG.
  destruct (Z.eqb_spec (Z.of_nat (bits mod 32)) 0); [lia|]. simpl negb. cbv iota.
  rewrite mask_ones. apply ones_testbit; lia.
Qed.

(** ** The scalar tests *)

Lemma scan_loop_spec full F k n :
  (forall j, (k <= j < k + n)%nat -> full j = Ret (F j)) ->
  exists b, scan_loop full k n = Ret b /\
    (b = true <-> forall j, (k <= j < k + n)%nat -> F j = 0).
Proof.
  revert k. induction n as [|n IH]; intros k Hf; simpl.
  { exists true. split; [done|]. split; [intros _ j Hj; lia|done]. }
  rewrite Hf by lia. destruct (Z.eqb_spec (F k) 0) as [E|E]; simpl.
  - destruct (IH (S k)) as (b & -> & Hb); [intros j Hj; apply Hf; lia|].
    exists b. split; [done|]. rewrite Hb. split; intros H j Hj.
    + destruct (decide (j = k)) as [->|]; [done|]. apply H. lia.
    + apply H. lia.
  - exists false. split; [done|]. split; [done|]. intros H. exfalso. apply E, H. lia.
Qed.

(** [P i] says that bit [i] speaks against the test. *)
Lemma scan_spec full part F W (P : nat -> bool) bits :
  (forall k, (k < bits / 32)%nat -> full k = Ret (F k)) ->
  (forall k, (k < bits / 32)%nat ->
     (F k = 0 <-> forall j, (j < 32)%nat -> P (32 * k + j)%nat = false)) ->
  ((bits mod 32 <> 0)%nat -> part (bits / 32)%nat = Ret W) ->
  ((bits mod 32 <> 0)%nat -> forall j, (j < 32)%nat -> Z.testbit W (Z.of_nat j) = P (32 * (bits / 32) + j)%nat) ->
  exists b, scan full part bits = Ret b /\
    (b = true <-> forall i, (i < bits)%nat -> P i = false).
Proof.
  intros Hfull HF Hpart HW. unfold scan, BITS_PER_LONG. pose proof (div_mod_32 bits) as [Hd Hlt].
  destruct (scan_loop_spec full F 0 (bits / 32)) as (b & -> & Hb); [intros; apply Hfull; lia|].
  assert (Hwords : b = true <-> forall i, (i < 32 * (bits / 32))%nat -> P i = false).
  { rewrite Hb. split.
    - intros H i Hi. pose proof (div_mod_32 i) as [Hdi Hmi]. rewrite Hdi.
      refine (proj1 (HF (i / 32)%nat _) _ _ _); [lia|apply H; lia|done].
    - intros H j Hj. refine (proj2 (HF j _) _); [lia|]. intros j' Hj'. apply H. lia. }
  destruct b; cbn [negb]; cycle 1.
  { exists false. split; [done|]. split; [done|]. intros H. exfalso.
    assert (false = true) by (apply Hwords; intros i Hi; apply H; lia). done. }
  destruct (Nat.eqb_spec (bits mod 32) 0) as [E|E]; cbn [negb].
  { exists true. split; [done|]. split; [|done]. intros _ i Hi. apply Hwords; [done|lia]. }
  rewrite Hpart by done.
  assert (Hmask : Z.land W (BITMAP_LAST_WORD_MASK bits) = 0 <->
    forall j, (j < bits mod 32)%nat -> P (32 * (bits / 32) + j)%nat = false).
  { split.
    - intros H j Hj. rewrite <-HW by (done || lia).
      apply (f_equal (fun z => Z.testbit z (Z.of_nat j))) in H.
      rewrite Z.land_spec, last_mask_testbit, Z.testbit_0_l in H by (done || lia).
      destruct (Z.ltb_spec (Z.of_nat j) (Z.of_nat (bits mod 32))); [|lia].
      by rewrite andb_true_r in H.
    - intros H. apply Z.bits_inj'; intros j Hj.
      rewrite Z.land_spec, last_mask_testbit, Z.testbit_0_l by done.
      destruct (Z.ltb_spec j (Z.of_nat (bits mod 32))); [|by rewrite andb_false_r].
      rewrite <-(Z2Nat.id j), HW, H by lia. done. }
  destruct (Z.eqb_spec (Z.land W (BITMAP_LAST_WORD_MASK bits)) 0) as [Ew|Ew]; simpl;
    [exists true|exists false]; (split; [done|]); split; try done.
  - intros _ i Hi. destruct (decide (i < 32 * (bits / 32))%nat); [by apply Hwords|].
    replace i with (32 * (bits / 32) + (i - 32 * (bits / 32)))%nat by lia. apply Hmask; [done|lia].
  - intros H. exfalso. apply Ew, Hmask. intros j Hj. apply H. lia.
Qed.

Lemma bit_split m p k j :
  (j < 32)%nat -> bit m p (32 * k + j) = Z.testbit (nth (p + k) m 0) (Z.of_nat j).
Proof. intros. unfold bit. by rewrite div_32_add, mod_32_add. Qed.

Section Tests.
Context (m : mem) (p q : addr) (bits : nat).
Context (Hp : bitmap_ok m p bits) (Hq : bitmap_ok m q bits).

Lemma words_in_range k :
  (k < bits / 32)%nat \/ (bits mod 32 <> 0 /\ k = bits / 32)%nat ->
  (p + k < length m /\ q + k < length m)%nat.
Proof.
  destruct Hp as [_ H1]. destruct Hq as [_ H2]. rewrite BITS_TO_LONGS_spec in H1, H2.
  destruct (Nat.eqb_spec (bits mod 32) 0); lia.
Qed.

(** A test made of one word function [f] whose bit [j] is [g] of the bits. *)
Lemma scan2_spec f (g : bool -> bool -> bool) :
  (forall w v, is_u32 w -> is_u32 v -> is_u32 (f w v)) ->
  (forall w v j, is_u32 w -> is_u32 v -> (j < 32)%nat ->
     Z.testbit (f w v) (Z.of_nat j) = g (Z.testbit w (Z.of_nat j)) (Z.testbit v (Z.of_nat j))) ->
  exists b, scan (load2 f m p q) (load2 f m p q) bits = Ret b /\
    (b = true <-> forall i, (i < bits)%nat -> g (bit m p i) (bit m q i) = false).
Proof.
  intros Hf Hg. destruct Hp as [Hm _].
  assert (Hl : forall k, (k < bits / 32)%nat \/ (bits mod 32 <> 0 /\ k = bits / 32)%nat ->
    load2 f m p q k = Ret (f (nth (p + k) m 0) (nth (q + k) m 0))).
  { intros k Hk. destruct (words_in_range k Hk). unfold load2. by rewrite !nth_load by done. }
  apply (scan_spec _ _ (fun k => f (nth (p + k) m 0) (nth (q + k) m 0))
    (f (nth (p + bits / 32) m 0) (nth (q + bits / 32) m 0)) (fun i => g (bit m p i) (bit m q i))).
  - intros k Hk. apply Hl. by left.
  - intros k Hk. rewrite word_zero_iff by auto with cword.
    split; intros H j Hj.
    + rewrite !bit_split by done. rewrite <-Hg by auto with cword. by apply H.
    + rewrite Hg by auto with cword. rewrite <-!bit_split by done. by apply H.
  - intros Hne. apply Hl. by right.
  - intros Hne j Hj. rewrite Hg by auto with cword. by rewrite !bit_split.
Qed.
End Tests.

Lemma scan1_scan2 f m p bits :
  scan (load1 f m p) (load1 f m p) bits = scan (load2 (fun w _ => f w) m p p) (load2 (fun w _ => f w) m p p) bits.
Proof.
  assert (H : forall k, load1 f m p k = load2 (fun w _ => f w) m p p k).
  { intros k. unfold load1, load2. by destruct (load m (p + k)). }
  assert (Hl : forall k n, scan_loop (load1 f m p) k n = scan_loop (load2 (fun w _ => f w) m p p) k n).
  { intros k n. revert k. induction n as [|n IH]; intros k; simpl; [done|]. rewrite H.
    destruct (load2 _ _ _ _ _); [|done]. by rewrite IH. }
  unfold scan. by rewrite Hl, H.
Qed.

Lemma equal_scan m p q bits :
  __bitmap_equal m p q bits = scan (load2 Z.lxor m p q) (load2 Z.lxor m p q) bits.
Proof.
  unfold __bitmap_equal, scan.
  assert (Hl : forall k n, scan_loop (load2 (fun w v => b2z (negb (w =? v))) m p q) k n =
    scan_loop (load2 Z.lxor m p q) k n).
  { intros k n. revert k. induction n as [|n IH]; intros k; simpl; [done|].
    unfold load2. destruct (load m (p + k)) as [w|]; [|done]. destruct (load m (q + k)) as [v|]; [|done].
    rewrite IH. destruct (Z.eqb_spec w v) as [->|Hne]; simpl.
    - by rewrite Z.lxor_nilpotent.
    - by destruct (Z.eqb_spec (Z.lxor w v) 0) as [E|]; [apply Z.lxor_eq in E|]. }
  by rewrite Hl.
Qed.

(** (bitmap tests): the five predicates on bitmaps of [bits] bits decide
    what they are named after, bit by bit; the unused bits of the last word
    do not matter. *)
Theorem bitmap_tests_correct m p q bits :
  bitmap_ok m p bits -> bitmap_ok m q bits ->
  (exists b, __bitmap_empty m p bits = Ret b /\
     (b = true <-> forall i, (i < bits)%nat -> bit m p i = false)) /\
  (exists b, __bitmap_full m p bits = Ret b /\
     (b = true <-> forall i, (i < bits)%nat -> bit m p i = true)) /\
  (exists b, __bitmap_equal m p q bits = Ret b /\
     (b = true <-> forall i, (i < bits)%nat -> bit m p i = bit m q i)) /\
  (exists b, __bitmap_intersects m p q bits = Ret b /\
     (b = true <-> ~ forall i, (i < bits)%nat -> bit m p i && bit m q i = false)) /\
  (exists b, __bitmap_subset m p q bits = Ret b /\
     (b = true <-> forall i, (i < bits)%nat -> bit m p i = true -> bit m q i = true)).
Proof.
  intros Hp Hq. split_and!.
  - unfold __bitmap_empty. rewrite scan1_scan2.
    apply (scan2_spec m p p bits Hp Hp (fun w _ => w) (fun a _ => a)); auto.
  - unfold __bitmap_full. rewrite scan1_scan2.
    destruct (scan2_spec m p p bits Hp Hp (fun w _ => cnot 32 w) (fun a _ => negb a)) as (b & -> & Hb).
    { intros. by apply word_cnot. }
    { intros w v j Hw Hv Hj. rewrite cnot_testbit by lia. by case_bool; [|lia]. }
    exists b. split; [done|]. rewrite Hb. by setoid_rewrite negb_false_iff.
  - rewrite equal_scan.
    destruct (scan2_spec m p q bits Hp Hq Z.lxor xorb) as (b & -> & Hb).
    { intros. by apply word_lxor. }
    { intros. apply Z.lxor_spec. }
    exists b. split; [done|]. rewrite Hb. split; intros H i Hi.
    + by apply xorb_eq, H.
    + rewrite H by done. apply xorb_nilpotent.
  - unfold __bitmap_intersects.
    destruct (scan2_spec m p q bits Hp Hq Z.land andb) as (b & -> & Hb).
    { intros. by apply word_land. }
    { intros. apply Z.land_spec. }
    exists (negb b). split; [done|]. rewrite <-Hb. by destruct b.
  - unfold __bitmap_subset.
    destruct (scan2_spec m p q bits Hp Hq (fun w v => Z.land w (cnot 32 v)) (fun a b => a && negb b))
      as (b & -> & Hb).
    { intros. by apply word_land. }
    { intros w v j Hw Hv Hj. rewrite Z.land_spec, cnot_testbit by lia. by case_bool; [|lia]. }
    exists b. split; [done|]. rewrite Hb. split; intros H i Hi.
    + specialize (H i Hi). destruct (bit m p i), (bit m q i); simpl in *; done.
    + specialize (H i Hi). destruct (bit m p i), (bit m q i); simpl in *; try done. by specialize (H eq_refl).
Qed.

Definition bm_demo : mem := [0xF0; 0xFFFF0001; 0xF0; 0x1].

Lemma bm_demo_ok p : (p <= 2)%nat -> bitmap_ok bm_demo p 40.
Proof.
  intros Hp. split; [repeat constructor; unfold word; lia|].
  change (BITS_TO_LONGS 40) with 2%nat. simpl. lia.
Qed.

Lemma bitmap_tests_correct_witness :
  exists b, __bitmap_equal bm_demo 0 2 40 = Ret b /\
     (b = true <-> forall i, (i < 40)%nat -> bit bm_demo 0 i = bit bm_demo 2 i).
Proof. apply (bitmap_tests_correct bm_demo 0 2 40); apply bm_demo_ok; lia. Defined.

(** ** Word loops *)

(** The up loop: what [f] computes for word [k] may not depend on the words
    already written. *)
Lemma store_words_spec f F m dst k n :
  (dst + k + n <= length m)%nat ->
  (forall j m', (k <= j < k + n)%nat -> length m' = length m ->
     (forall i, (i < dst + k \/ dst + j <= i)%nat -> m' !! i = m !! i) -> f j m' = Ret (F j)) ->
  store_words f m dst k n = Ret (list_inserts (dst + k) (map F (seq k n)) m).
Proof.
  revert m k. induction n as [|n IH]; intros m k Hl Hf; [done|].
  cbn [store_words]. rewrite (Hf k m) by (done || lia). rewrite store_lt by lia.
  rewrite IH.
  - rewrite Nat.add_succ_r. rewrite inserts_cons. done.
  - rewrite length_insert. lia.
  - intros j m' Hj Hm' Ha. rewrite length_insert in Hm'. apply Hf; [lia|done|].
    intros i Hi. rewrite Ha by lia. rewrite list_lookup_insert_ne by lia. done.
Qed.

Lemma store_words_down_spec f F m dst n :
  (dst + n <= length m)%nat ->
  (forall j m', (j < n)%nat -> length m' = length m ->
     (forall i, (i <= dst + j \/ dst + n <= i)%nat -> m' !! i = m !! i) -> f j m' = Ret (F j)) ->
  store_words_down f m dst n = Ret (list_inserts dst (map F (seq 0 n)) m).
Proof.
  revert m. induction n as [|n IH]; intros m Hl Hf; [done|].
  cbn [store_words_down]. rewrite (Hf n m) by (done || lia). rewrite store_lt by lia.
  rewrite IH.
  - rewrite inserts_insert_comm by (rewrite length_map, length_seq; lia).
    rewrite seq_S, map_app. simpl. rewrite <-inserts_snoc by (rewrite length_map, length_seq; lia).
    by rewrite length_map, length_seq.
  - rewrite length_insert. lia.
  - intros j m' Hj Hm' Ha. rewrite length_insert in Hm'. apply Hf; [lia|done|].
    intros i Hi. rewrite Ha by lia. by rewrite list_lookup_insert_ne by lia.
Qed.

Lemma zero_words_spec m dst n :
  (dst + n <= length m)%nat -> zero_words m dst n = Ret (list_inserts dst (replicate n 0) m).
Proof.
  revert m dst. induction n as [|n IH]; intros m dst Hl; [done|]. cbn [zero_words].
  rewrite store_lt by lia. rewrite IH by (rewrite length_insert; lia). by rewrite inserts_cons.
Qed.

Lemma Forall_inserts (P : Z -> Prop) (m : mem) d ws :
  Forall P m -> Forall P ws -> Forall P (list_inserts d ws m).
Proof.
  intros Hm Hw. apply Forall_lookup. intros i x. rewrite lookup_inserts_dec.
  case_decide; by apply Forall_lookup_1.
Qed.

Lemma nth_inserts m d (ws : list Z) k :
  (d + length ws <= length m)%nat ->
  nth k (list_inserts d ws m) 0 =
    if decide (d <= k < d + length ws)%nat then nth (k - d) ws 0 else nth k m 0.
Proof.
  intros Hl. rewrite !nth_lookup, lookup_inserts_dec.
  repeat case_decide; try done; lia.
Qed.

Lemma nth_map_seq (F : nat -> Z) n k : (k < n)%nat -> nth k (map F (seq 0 n)) 0 = F k.
Proof.
  intros Hk. rewrite (nth_indep _ 0 (F 0%nat)) by (rewrite length_map, length_seq; lia).
  rewrite map_nth, seq_nth by done. done.
Qed.

Lemma same_nth (m m' : mem) i : m' !! i = m !! i -> nth i m' 0 = nth i m 0.
Proof. intros H. by rewrite !nth_lookup, H. Qed.

(** Two operand words at index [k] are read before word [k] of [dst] is
    written, whichever of the three bitmaps coincide. *)
Definition apart (a b n : nat) : Prop := a = b \/ (a + n <= b)%nat \/ (b + n <= a)%nat.

Lemma binary_spec f m dst p q bits :
  let n := BITS_TO_LONGS bits in
  bitmap_ok m dst bits -> bitmap_ok m p bits -> bitmap_ok m q bits -> apart dst p n -> apart dst q n ->
  store_words (fun k m => load2 f m p q k) m dst 0 n =
    Ret (list_inserts dst (map (fun k => f (nth (p + k) m 0) (nth (q + k) m 0)) (seq 0 n)) m).
Proof.
  intros n [Hm Hd] [_ Hp] [_ Hq] Ap Aq.
  rewrite (store_words_spec _ (fun k => f (nth (p + k) m 0) (nth (q + k) m 0))); fold n in Hd, Hp, Hq |- *.
  - by rewrite Nat.add_0_r.
  - lia.
  - intros j m' Hj Hl Ha. unfold load2, apart in *. rewrite !nth_load by lia.
    rewrite (same_nth m m' (p + j)), (same_nth m m' (q + j)); [done|apply Ha; lia..].
Qed.

Lemma bit_inserts_map m dst (F : nat -> Z) n i :
  (dst + n <= length m)%nat -> (i / 32 < n)%nat ->
  bit (list_inserts dst (map F (seq 0 n)) m) dst i = Z.testbit (F (i / 32)%nat) (Z.of_nat (i mod 32)).
Proof.
  intros Hl Hi. unfold bit. rewrite nth_inserts by (rewrite length_map, length_seq; done).
  rewrite length_map, length_seq. rewrite decide_True by lia.
  replace (dst + i / 32 - dst)%nat with (i / 32)%nat by lia. by rewrite nth_map_seq.
Qed.

(** (bitmap algebra): and, or, xor and andnot work bit by bit, also when
    the destination is one of the operands. *)
Theorem bitmap_binary_correct m dst p q bits :
  let n := BITS_TO_LONGS bits in
  bitmap_ok m dst bits -> bitmap_ok m p bits -> bitmap_ok m q bits -> apart dst p n -> apart dst q n ->
  exists ma mo mx mn,
    __bitmap_and m dst p q bits = Ret ma /\ __bitmap_or m dst p q bits = Ret mo /\
    __bitmap_xor m dst p q bits = Ret mx /\ __bitmap_andnot m dst p q bits = Ret mn /\
    forall i, (i < bits)%nat ->
      bit ma dst i = bit m p i && bit m q i /\ bit mo dst i = bit m p i || bit m q i /\
      bit mx dst i = xorb (bit m p i) (bit m q i) /\ bit mn dst i = bit m p i && negb (bit m q i).
Proof.
  intros n Hd Hp Hq Ap Aq. do 4 eexists.
  split_and!; [by apply binary_spec..|]. intros i Hi.
  pose proof (last_word_index bits i Hi) as Hw. pose proof (div_mod_32 i) as [_ Hm].
  destruct Hd as [Hwd Hd]. rewrite !bit_inserts_map by done.
  unfold bit. split_and!; [apply Z.land_spec|apply Z.lor_spec|apply Z.lxor_spec|].
  rewrite Z.land_spec, cnot_testbit by lia. by destruct (Z.ltb_spec (Z.of_nat (i mod 32)) 32); [|lia].
Qed.

Lemma bitmap_binary_correct_witness :
  exists ma mo mx mn,
    __bitmap_and bm_demo 0 0 2 40 = Ret ma /\ __bitmap_or bm_demo 0 0 2 40 = Ret mo /\
    __bitmap_xor bm_demo 0 0 2 40 = Ret mx /\ __bitmap_andnot bm_demo 0 0 2 40 = Ret mn /\
    forall i, (i < 40)%nat ->
      bit ma 0 i = bit bm_demo 0 i && bit bm_demo 2 i /\ bit mo 0 i = bit bm_demo 0 i || bit bm_demo 2 i /\
      bit mx 0 i = xorb (bit bm_demo 0 i) (bit bm_demo 2 i) /\
      bit mn 0 i = bit bm_demo 0 i && negb (bit bm_demo 2 i).
Proof.
  apply (bitmap_binary_correct bm_demo 0 0 2 40); [apply bm_demo_ok; lia..|by left|right; left].
  change (BITS_TO_LONGS 40) with 2%nat. lia.
Defined.

Lemma nth_replicate_0 n i : nth i (replicate n 0) 0 = 0.
Proof. revert i. induction n as [|n IH]; intros [|i]; simpl; auto. Qed.

(** ** Shifts *)

Section Shift.
Context (m : mem) (dst src : addr) (shift bits : nat).
Let lim := BITS_TO_LONGS bits.
Let left := (bits mod 32)%nat.
Let off := (shift / 32)%nat.
Let rem := (shift mod 32)%nat.
Context (Hdst : bitmap_ok m dst bits) (Hsrc : bitmap_ok m src bits).
Context (Hapart : apart dst src lim) (Hshift : (off <= lim)%nat).

(** Word [j] of the source, the unused bits of the last one cleared. *)
Definition src_word (j : nat) : Z :=
  let w := nth (src + j) m 0 in
  if negb (left =? 0)%nat && (j =? lim - 1)%nat then Z.land w (Z.shiftl 1 (Z.of_nat left) - 1) else w.

Lemma src_word_u32 j : is_u32 (src_word j).
Proof.
  destruct Hsrc as [Hm _]. unfold src_word. case_match; [apply word_land; [lia|]|]; auto with cword.
Qed.

Lemma lim_bits j b :
  (j < lim)%nat -> (b < 32)%nat ->
  (32 * j + b < bits <-> left = 0 \/ j <> lim - 1 \/ b < left)%nat.
Proof.
  intros Hj Hb. unfold lim, left in *. rewrite BITS_TO_LONGS_spec in *. pose proof (div_mod_32 bits).
  destruct (Nat.eqb_spec (bits mod 32) 0); lia.
Qed.

Lemma src_word_bit j b :
  (j < lim)%nat -> (b < 32)%nat ->
  Z.testbit (src_word j) (Z.of_nat b) = bool_decide (32 * j + b < bits)%nat && bit m src (32 * j + b).
Proof.
  intros Hj Hb. rewrite bit_split by done. unfold src_word.
  destruct (Nat.eqb_spec left 0) as [E|E]; cbn [negb andb].
  { rewrite bool_decide_true; [done|]. apply lim_bits; [done..|]. by left. }
  destruct (Nat.eqb_spec j (lim - 1)) as [E'|E'].
  - rewrite Z.land_spec, mask_ones, ones_testbit, andb_comm by lia. f_equal.
    destruct (Z.ltb_spec (Z.of_nat b) (Z.of_nat left)); case_bool_decide as Hd;
      rewrite lim_bits in Hd by done; try done; exfalso; lia.
  - rewrite bool_decide_true; [done|]. apply lim_bits; [done..|lia].
Qed.

Lemma src_word_bit_high j b : (32 <= b)%nat -> Z.testbit (src_word j) (Z.of_nat b) = false.
Proof. intros. apply (word_testbit_high 32); [lia|apply src_word_u32|lia]. Qed.

Definition last_masked (k : nat) (w : Z) : Z :=
  if negb (left =? 0)%nat && (k =? lim - 1)%nat then Z.land w (Z.shiftl 1 (Z.of_nat left) - 1) else w.

Lemma last_masked_bit k w b :
  (32 * k + b < bits)%nat -> (k < lim)%nat -> (b < 32)%nat ->
  Z.testbit (last_masked k w) (Z.of_nat b) = Z.testbit w (Z.of_nat b).
Proof.
  intros Hi Hk Hb. unfold last_masked. rewrite lim_bits in Hi by done.
  destruct (Nat.eqb_spec left 0); [done|]. destruct (Nat.eqb_spec k (lim - 1)); [|done]. cbn [negb andb].
  rewrite Z.land_spec, mask_ones, ones_testbit by lia.
  destruct (Z.ltb_spec (Z.of_nat b) (Z.of_nat left)); [by rewrite andb_true_r|lia].
Qed.

(** What the two loops store. *)
Definition shr_val (k : nat) : Z :=
  let upper := if (rem =? 0)%nat || (lim <=? off + k + 1)%nat then 0 else src_word (off + k + 1) in
  last_masked k (Z.lor (cshl 32 upper (Z.of_nat (32 - rem))) (Z.shiftr (src_word (off + k)) (Z.of_nat rem))).

Definition shl_val (k : nat) : Z :=
  let lower := if negb (rem =? 0)%nat && (0 <? k)%nat then nth (src + (k - 1)) m 0 else 0 in
  last_masked (k + off) (Z.lor (Z.shiftr lower (Z.of_nat (32 - rem))) (cshl 32 (src_word k) (Z.of_nat rem))).

Lemma shr_word_val k m' :
  (off + k < lim)%nat -> length m' = length m ->
  (forall i, (i < dst \/ dst + k <= i)%nat -> m' !! i = m !! i) ->
  shr_word m' src off rem left lim k = Ret (shr_val k).
Proof.
  intros Hk Hl Ha. destruct Hsrc as [_ Hs]. fold lim in Hs. unfold apart in Hapart.
  assert (Hn : forall j, (k <= j < lim)%nat -> load m' (src + j) = Ret (nth (src + j) m 0)).
  { intros j Hj. rewrite nth_load by lia. f_equal. apply same_nth, Ha. lia. }
  unfold shr_word, shr_val, last_masked, src_word, BITS_PER_LONG.
  rewrite (Hn (off + k)%nat) by lia.
  destruct (rem =? 0)%nat; [done|]. destruct (Nat.leb_spec lim (off + k + 1)); [done|]. cbn [orb].
  rewrite (Hn (off + k + 1)%nat) by lia.
  by rewrite (andb_comm (off + k + 1 =? lim - 1)%nat).
Qed.

Lemma shl_word_val k m' :
  (k + off < lim)%nat -> length m' = length m ->
  (forall i, (i <= dst + off + k \/ dst + lim <= i)%nat -> m' !! i = m !! i) ->
  shl_word m' src off rem left lim k = Ret (shl_val k).
Proof.
  intros Hk Hl Ha. destruct Hsrc as [_ Hs]. fold lim in Hs. unfold apart in Hapart.
  assert (Hn : forall j, (j <= k)%nat -> load m' (src + j) = Ret (nth (src + j) m 0)).
  { intros j Hj. rewrite nth_load by lia. f_equal. apply same_nth, Ha. lia. }
  unfold shl_word, shl_val, last_masked, src_word, BITS_PER_LONG.
  destruct (negb (rem =? 0)%nat && (0 <? k)%nat); rewrite ?Hn by lia; done.
Qed.

Lemma shift_split : (shift = 32 * off + rem /\ rem < 32)%nat.
Proof. apply div_mod_32. Qed.

Lemma shr_val_bit k b :
  (off + k < lim)%nat -> (b < 32)%nat -> (32 * k + b < bits)%nat ->
  Z.testbit (shr_val k) (Z.of_nat b) =
    bool_decide (32 * k + b + shift < bits)%nat && bit m src (32 * k + b + shift).
Proof.
  intros Hk Hb Hi. pose proof shift_split as [Hsh Hr]. unfold shr_val.
  rewrite last_masked_bit by lia. rewrite Z.lor_spec, cshl_testbit, Z.shiftr_spec by lia.
  destruct (Z.ltb_spec (Z.of_nat b) 32); [|lia]. cbn [andb].
  destruct (decide (b + rem < 32)%nat) as [Hlo|Hhi].
  - rewrite (Z.testbit_neg_r _ (Z.of_nat b - _)) by lia. cbn [orb].
    rewrite <-Nat2Z.inj_add, src_word_bit by lia. by replace (32 * (off + k) + (b + rem))%nat
      with (32 * k + b + shift)%nat by lia.
  - rewrite <-(Nat2Z.inj_add b rem), src_word_bit_high, orb_false_r by lia.
    replace (Z.of_nat b - Z.of_nat (32 - rem)) with (Z.of_nat (b + rem - 32)) by lia.
    destruct (Nat.eqb_spec rem 0); [lia|]. cbn [orb].
    destruct (Nat.leb_spec lim (off + k + 1)).
    + rewrite Z.testbit_0_l, bool_decide_false; [done|].
      assert (bits <= 32 * lim)%nat; [|lia].
      unfold lim. rewrite BITS_TO_LONGS_spec. pose proof (div_mod_32 bits).
      destruct (Nat.eqb_spec (bits mod 32) 0); lia.
    + rewrite src_word_bit by lia. by replace (32 * (off + k + 1) + (b + rem - 32))%nat
        with (32 * k + b + shift)%nat by lia.
Qed.

Lemma shl_val_bit k b :
  (k + off < lim)%nat -> (b < 32)%nat -> (32 * (k + off) + b < bits)%nat ->
  Z.testbit (shl_val k) (Z.of_nat b) =
    bool_decide (shift <= 32 * (k + off) + b)%nat && bit m src (32 * (k + off) + b - shift).
Proof.
  intros Hk Hb Hi. pose proof shift_split as [Hsh Hr]. destruct Hsrc as [Hm _]. unfold shl_val.
  rewrite last_masked_bit by lia. rewrite Z.lor_spec, cshl_testbit, Z.shiftr_spec by lia.
  destruct (Z.ltb_spec (Z.of_nat b) 32); [|lia]. cbn [andb].
  rewrite <-Nat2Z.inj_add. destruct (decide (rem <= b)%nat) as [Hlo|Hhi].
  - assert (Hlow : is_u32 (if negb (rem =? 0)%nat && (0 <? k)%nat then nth (src + (k - 1)) m 0 else 0))
      by (case_match; [auto with cword|unfold word; lia]).
    rewrite (word_testbit_high 32 _ _ ltac:(lia) Hlow) by lia.
    cbn [orb]. replace (Z.of_nat b - Z.of_nat rem) with (Z.of_nat (b - rem)) by lia.
    rewrite src_word_bit by lia. rewrite !bool_decide_true by lia.
    by replace (32 * k + (b - rem))%nat with (32 * (k + off) + b - shift)%nat by lia.
  - rewrite (Z.testbit_neg_r (src_word k)), orb_false_r by lia.
    destruct (Nat.eqb_spec rem 0); [lia|]. cbn [negb andb]. destruct (Nat.ltb_spec 0 k).
    + rewrite bool_decide_true by lia. cbn [andb].
      replace (32 * (k + off) + b - shift)%nat with (32 * (k - 1) + (b + (32 - rem)))%nat by lia.
      by rewrite bit_split by lia.
    + by rewrite Z.testbit_0_l, bool_decide_false by lia.
Qed.

Lemma shift_right_spec :
  exists m', __bitmap_shift_right m dst src shift bits = Ret m' /\
    forall i, (i < bits)%nat -> bit m' dst i = bool_decide (i + shift < bits)%nat && bit m src (i + shift).
Proof.
  pose proof shift_split as [Hsh Hr]. destruct Hdst as [_ Hd]. fold lim in Hd.
  unfold __bitmap_shift_right, BITS_PER_LONG. fold lim left off rem.
  destruct (Nat.ltb_spec lim off); [lia|].
  rewrite (store_words_spec _ shr_val); [|lia|intros j m' Hj Hl Ha; apply shr_word_val; [lia|done|intros i Hi; apply Ha; lia]].
  rewrite Nat.add_0_r.
  assert (Hz : exists m', (if negb (off =? 0)%nat
      then zero_words (list_inserts dst (map shr_val (seq 0 (lim - off))) m) (dst + (lim - off)) off
      else Ret (list_inserts dst (map shr_val (seq 0 (lim - off))) m)) = Ret m' /\
      m' = list_inserts dst (map shr_val (seq 0 (lim - off)) ++ replicate off 0) m).
  { rewrite list_inserts_app_l, length_map, length_seq, (Nat.add_comm (lim - off)).
    destruct (Nat.eqb_spec off 0) as [E|E]; cbn [negb].
    - rewrite E. by eexists.
    - rewrite zero_words_spec by (rewrite length_inserts; lia). by eexists. }
  destruct Hz as (m' & -> & ->). eexists. split; [done|]. intros i Hi.
  pose proof (last_word_index bits i Hi) as Hw. fold lim in Hw. pose proof (div_mod_32 i) as [Hdi Hmi].
  unfold bit at 1. rewrite nth_inserts by (rewrite length_app, length_map, length_seq, length_replicate; lia).
  rewrite length_app, length_map, length_seq, length_replicate. rewrite decide_True by lia.
  replace (dst + i / 32 - dst)%nat with (i / 32)%nat by lia.
  destruct (decide (i / 32 < lim - off)%nat) as [Hin|Hout].
  - rewrite app_nth1 by (rewrite length_map, length_seq; lia). rewrite nth_map_seq by done.
    rewrite shr_val_bit by lia. by rewrite <-Hdi.
  - rewrite app_nth2 by (rewrite length_map, length_seq; lia). rewrite nth_replicate_0.
    rewrite Z.testbit_0_l, bool_decide_false; [done|].
    assert (bits <= 32 * lim)%nat; [|lia].
    unfold lim. rewrite BITS_TO_LONGS_spec. pose proof (div_mod_32 bits).
    destruct (Nat.eqb_spec (bits mod 32) 0); lia.
Qed.

Lemma last_masked_u32 k w : is_u32 w -> is_u32 (last_masked k w).
Proof.
  intros Hw. unfold last_masked. destruct (_ && _); [|done].
  by apply word_land.
Qed.

Lemma shl_val_u32 k : is_u32 (shl_val k).
Proof.
  unfold shl_val. apply last_masked_u32. apply word_lor; [lia| |by apply wrap_word].
  apply word_shiftr; [lia..|]. case_match; [|unfold word; lia]. apply nth_word, Hsrc.
Qed.

Lemma shift_left_spec :
  exists m', __bitmap_shift_left m dst src shift bits = Ret m' /\ bitmap_ok m' dst bits /\
    length m' = length m /\
    forall i, (i < bits)%nat -> bit m' dst i = bool_decide (shift <= i)%nat && bit m src (i - shift).
Proof.
  pose proof shift_split as [Hsh Hr]. destruct Hdst as [_ Hd]. fold lim in Hd.
  unfold __bitmap_shift_left, BITS_PER_LONG. fold lim left off rem.
  rewrite (store_words_down_spec _ shl_val); [|lia|intros j m' Hj Hl Ha; apply shl_word_val; [lia|done|intros i Hi; apply Ha; lia]].
  assert (Hz : exists m', (if negb (off =? 0)%nat
      then zero_words (list_inserts (dst + off) (map shl_val (seq 0 (lim - off))) m) dst off
      else Ret (list_inserts (dst + off) (map shl_val (seq 0 (lim - off))) m)) = Ret m' /\
      Forall is_u32 m' /\ length m' = length m /\
      forall k, nth (dst + k) m' 0 = if decide (k < off)%nat then 0
        else if decide (k < lim)%nat then shl_val (k - off) else nth (dst + k) m 0).
  { assert (Hn : forall k, (off <= k)%nat ->
      nth (dst + k) (list_inserts (dst + off) (map shl_val (seq 0 (lim - off))) m) 0 =
      if decide (k < lim)%nat then shl_val (k - off) else nth (dst + k) m 0).
    { intros k Hk. rewrite nth_inserts by (rewrite length_map, length_seq; lia).
      rewrite length_map, length_seq. repeat case_decide; try lia; try done.
      rewrite nth_map_seq by lia. f_equal. lia. }
    assert (Hu : Forall is_u32 (list_inserts (dst + off) (map shl_val (seq 0 (lim - off))) m)).
    { apply Forall_inserts; [apply Hsrc|]. apply Forall_map, Forall_forall. intros k _. apply shl_val_u32. }
    destruct (Nat.eqb_spec off 0) as [E|E]; cbn [negb]; eexists.
    - split; [done|]. split; [done|]. rewrite length_inserts. split; [done|]. intros k.
      rewrite decide_False by lia. apply Hn. lia.
    - split; [apply zero_words_spec; rewrite length_inserts; lia|]. rewrite !length_inserts.
      split; [apply Forall_inserts; [done|]; apply Forall_replicate; unfold word; lia|]. split; [done|]. intros k. rewrite nth_inserts by (rewrite length_replicate, length_inserts; lia).
      rewrite length_replicate. destruct (decide (k < off)%nat).
      + rewrite decide_True by lia. apply nth_replicate_0.
      + rewrite decide_False by lia. apply Hn. lia. }
  destruct Hz as (m' & -> & Hu & Hl' & Hm'). eexists. split; [done|].
  split; [split; [done|by rewrite Hl']|]. split; [done|]. intros i Hi.
  pose proof (last_word_index bits i Hi) as Hw. fold lim in Hw. pose proof (div_mod_32 i) as [Hdi Hmi].
  unfold bit at 1. rewrite Hm'. destruct (decide (i / 32 < off)%nat).
  - by rewrite Z.testbit_0_l, bool_decide_false by lia.
  - rewrite decide_True by done. rewrite shl_val_bit by lia.
    by replace (32 * (i / 32 - off + off) + i mod 32)%nat with i by lia.
Qed.
End Shift.

(** (right shift): bit [i] of the result is bit [i + shift] of the source
    where that exists and 0 elsewhere, also when shifting in place. *)
Theorem bitmap_shift_right_correct m dst src shift bits :
  bitmap_ok m dst bits -> bitmap_ok m src bits -> apart dst src (BITS_TO_LONGS bits) ->
  (shift / 32 <= BITS_TO_LONGS bits)%nat ->
  exists m', __bitmap_shift_right m dst src shift bits = Ret m' /\
    forall i, (i < bits)%nat -> bit m' dst i = bool_decide (i + shift < bits)%nat && bit m src (i + shift).
Proof. apply shift_right_spec. Qed.

Lemma bitmap_shift_right_correct_witness :
  exists m', __bitmap_shift_right bm_demo 0 0 35 40 = Ret m' /\
    forall i, (i < 40)%nat -> bit m' 0 i = bool_decide (i + 35 < 40)%nat && bit bm_demo 0 (i + 35).
Proof.
  apply (bitmap_shift_right_correct bm_demo 0 0 35 40); [apply bm_demo_ok; lia..|by left|].
  apply Nat.leb_le. reflexivity.
Defined.

(** (left shift): bit [i] of the result is bit [i - shift] of the source
    for [i] from [shift] on and 0 below, also when shifting in place. *)
Theorem bitmap_shift_left_correct m dst src shift bits :
  bitmap_ok m dst bits -> bitmap_ok m src bits -> apart dst src (BITS_TO_LONGS bits) ->
  (shift / 32 <= BITS_TO_LONGS bits)%nat ->
  exists m', __bitmap_shift_left m dst src shift bits = Ret m' /\
    forall i, (i < bits)%nat -> bit m' dst i = bool_decide (shift <= i)%nat && bit m src (i - shift).
Proof.
  intros Hd Hs Ha Hsh. destruct (shift_left_spec m dst src shift bits Hd Hs Ha Hsh) as (m' & ? & _ & _ & ?).
  by exists m'.
Qed.

Lemma bitmap_shift_left_correct_witness :
  exists m', __bitmap_shift_left bm_demo 0 2 35 40 = Ret m' /\
    forall i, (i < 40)%nat -> bit m' 0 i = bool_decide (35 <= i)%nat && bit bm_demo 2 (i - 35).
Proof.
  apply (bitmap_shift_left_correct bm_demo 0 2 35 40); [apply bm_demo_ok; lia..| |].
  - right; left. change (BITS_TO_LONGS 40) with 2%nat. lia.
  - apply Nat.leb_le. reflexivity.
Defined.

(** ** Weight

    The bits of a word, and the words whose fields of [k] bits hold the
    numbers of a list; one step of the population count adds fields in pairs. *)

Definition bits_of (w : Z) : list Z := map (fun i => b2z (Z.testbit w (Z.of_nat i))) (seq 0 32).

Fixpoint fields (k : Z) (ds : list Z) : Z :=
  match ds with [] => 0 | d :: ds => d + 2 ^ k * fields k ds end.

Fixpoint sums (ds : list Z) : list Z :=
  match ds with a :: b :: ds => (a + b) :: sums ds | _ => [] end.

Fixpoint sum (ds : list Z) : Z :=
  match ds with [] => 0 | d :: ds => d + sum ds end.

Lemma sums_sum n ds : length ds = (2 * n)%nat -> sum (sums ds) = sum ds /\ length (sums ds) = n.
Proof.
  revert ds. induction n as [|n IH]; intros ds Hl; [by destruct ds|].
  destruct ds as [|a [|b ds]]; simpl in Hl; try lia. destruct (IH ds) as [H1 H2]; [lia|].
  simpl. rewrite H1, H2. split; lia.
Qed.

Lemma land_split n a a' b b' :
  0 <= n -> word n a -> word n a' ->
  Z.land (a + 2 ^ n * b) (a' + 2 ^ n * b') = Z.land a a' + 2 ^ n * Z.land b b'.
Proof.
  intros Hn Ha Ha'.
  assert (Hs : forall x y, word n x -> forall i, 0 <= i -> Z.testbit (x + 2 ^ n * y) i =
    if i <? n then Z.testbit x i else Z.testbit y (i - n)).
  { intros x y Hx i Hi. destruct (Z.ltb_spec i n).
    - rewrite <-(Z.mod_pow2_bits_low (x + 2 ^ n * y) n i) by done.
      rewrite Z.mul_comm, Z.mod_add by lia. by rewrite Z.mod_small.
    - rewrite <-(Z.sub_add n i) at 1. rewrite <-Z.div_pow2_bits by lia.
      rewrite Z.mul_comm, Z.div_add, Z.div_small by (done || lia). done. }
  apply Z.bits_inj'; intros i Hi. rewrite Z.land_spec, !Hs by auto with cword.
  rewrite !Z.land_spec. by destruct (i <? n).
Qed.

Lemma fields_word k n ds :
  0 <= k -> Forall (word k) ds -> length ds = n -> word (k * Z.of_nat n) (fields k ds).
Proof.
  intros Hk Hd. revert n. induction Hd as [|d ds Hd Hds IH]; intros n <-; simpl fields.
  - unfold word. simpl. lia.
  - specialize (IH _ eq_refl). unfold word in *. simpl length.
    replace (k * Z.of_nat (S (length ds))) with (k + k * Z.of_nat (length ds)) by lia.
    rewrite Z.pow_add_r by lia. nia.
Qed.

(** The masks 0x55555555, 0x33333333, ... have ones in every other field. *)
Fixpoint field_mask (k : Z) (n : nat) : Z :=
  match n with O => 0 | S n => Z.ones k + 2 ^ k * (0 + 2 ^ k * field_mask k n) end.

Lemma word_ones k : 0 <= k -> word k (Z.ones k).
Proof. intros. rewrite Z.ones_equiv. unfold word. pose proof (Z.pow_pos_nonneg 2 k). lia. Qed.

Lemma land_ones_word k a : 0 <= k -> word k a -> Z.land a (Z.ones k) = a.
Proof. intros. rewrite Z.land_ones by done. by apply wrap_small. Qed.

Lemma field_step k n ds :
  0 < k -> Forall (word k) ds -> length ds = (2 * n)%nat ->
  Z.land (fields k ds) (field_mask k n) + Z.land (Z.shiftr (fields k ds) k) (field_mask k n) =
    fields (2 * k) (sums ds).
Proof.
  intros Hk. revert ds. induction n as [|n IH]; intros ds Hd Hl.
  { destruct ds; [|done]. cbn [fields sums field_mask]. rewrite !Z.land_0_r. reflexivity. }
  destruct ds as [|a [|b ds]]; simpl in Hl; try lia.
  apply Forall_cons_1 in Hd as [Ha Hd]. apply Forall_cons_1 in Hd as [Hb Hd].
  specialize (IH ds Hd ltac:(lia)). cbn [fields sums field_mask].
  assert (Hsh : forall x y, word k x -> Z.shiftr (x + 2 ^ k * y) k = y).
  { intros x y Hx. rewrite Z.shiftr_div_pow2 by lia. unfold word in Hx.
    rewrite Z.mul_comm, Z.div_add, Z.div_small by lia. lia. }
  rewrite Hsh by done.
  rewrite (land_split k a), land_split by (first [apply word_ones|apply word_0|idtac]; done || lia).
  rewrite Z.land_0_r, (land_ones_word k a) by (done || lia).
  assert (Hr : Z.land (b + 2 ^ k * fields k ds) (Z.ones k + 2 ^ k * (0 + 2 ^ k * field_mask k n)) =
    b + 2 ^ k * (2 ^ k * Z.land (Z.shiftr (fields k ds) k) (field_mask k n))).
  { rewrite land_split by (first [apply word_ones|idtac]; done || lia). rewrite land_ones_word by (done || lia).
    do 2 f_equal. destruct ds as [|c ds].
    - destruct n; simpl in *; [|lia]. by rewrite !Z.land_0_r, Z.mul_0_r.
    - apply Forall_cons_1 in Hd as [Hc _]. cbn [fields]. rewrite Hsh by done.
      rewrite land_split by (first [apply word_0|idtac]; done || lia). by rewrite Z.land_0_r. }
  rewrite Hr. rewrite <-IH. replace (2 * k) with (k + k) by lia. rewrite Z.pow_add_r by lia. ring.
Qed.

Lemma sums_word k ds :
  0 < k -> Forall (word k) ds -> Forall (word (2 * k)) (sums ds).
Proof.
  intros Hk. remember (length ds) as n eqn:E. revert ds E.
  induction n as [n IH] using lt_wf_ind. intros ds -> Hd.
  destruct ds as [|a [|b ds]]; [constructor..|].
  apply Forall_cons_1 in Hd as [Ha Hd]. apply Forall_cons_1 in Hd as [Hb Hd].
  constructor; [|by apply (IH (length ds)); [simpl; lia|..]].
  unfold word in *. replace (2 * k) with (k + k) by lia. rewrite Z.pow_add_r by lia.
  assert (2 <= 2 ^ k) by (replace k with (1 + (k - 1)) by lia; rewrite Z.pow_add_r by lia; lia). nia.
Qed.

Lemma fields_bits w : is_u32 w -> fields 1 (bits_of w) = w.
Proof.
  intros Hw. unfold bits_of.
  assert (H : forall n s z, word (Z.of_nat n) z -> (forall i, (i < n)%nat -> Z.testbit z (Z.of_nat i) = Z.testbit w (Z.of_nat (s + i))) ->
    fields 1 (map (fun i => b2z (Z.testbit w (Z.of_nat i))) (seq s n)) = z).
  { induction n as [|n IH]; intros s z Hz Hb; cbn [seq map fields].
    - unfold word in Hz. lia.
    - rewrite (IH (S s) (Z.div2 z)).
      + specialize (Hb 0%nat ltac:(lia)). rewrite Nat.add_0_r in Hb. rewrite <-Hb.
        pose proof (Z.div2_odd z) as Ho. rewrite <-Z.bit0_odd in Ho. unfold b2z, Z.b2z in *.
        change (Z.of_nat 0) with 0. change (2 ^ 1) with 2. destruct (Z.testbit z 0); lia.
      + unfold word in *. rewrite Z.div2_div. rewrite Nat2Z.inj_succ, Z.pow_succ_r in Hz by lia.
        split; [apply Z.div_pos; lia|apply Z.div_lt_upper_bound; lia].
      + intros i Hi. rewrite Z.div2_spec, Z.shiftr_spec by lia.
        replace (Z.of_nat i + 1) with (Z.of_nat (S i)) by lia. rewrite Hb by lia. do 2 f_equal. lia. }
  apply (H 32%nat 0%nat w); [done|]. done.
Qed.

Lemma hweight_step k n ds :
  0 < k -> Forall (word k) ds -> length ds = (2 * n)%nat -> 2 * k * Z.of_nat n = 32 ->
  u32 (Z.land (fields k ds) (field_mask k n) + Z.land (Z.shiftr (fields k ds) k) (field_mask k n)) =
    fields (2 * k) (sums ds) /\
  Forall (word (2 * k)) (sums ds) /\ length (sums ds) = n /\ sum (sums ds) = sum ds.
Proof.
  intros Hk Hd Hl Hn. destruct (sums_sum n ds Hl) as [Hs Hs'].
  pose proof (sums_word k ds Hk Hd) as Hw. rewrite field_step by done.
  split_and!; [|done..]. apply wrap_small. rewrite <-Hn. apply fields_word; [lia|done..].
Qed.

Lemma hweight_spec w : is_u32 w -> generic_hweight32 w = sum (bits_of w).
Proof.
  intros Hw. enough (H : forall z, z = fields 1 (bits_of w) -> generic_hweight32 z = sum (bits_of w)).
  { apply H. symmetry. by apply fields_bits. }
  intros z ->. unfold generic_hweight32. cbv zeta.
  assert (Hb : Forall (word 1) (bits_of w)).
  { apply Forall_map, Forall_forall. intros i _. unfold word, b2z. by destruct (Z.testbit w _). }
  change 0x55555555 with (field_mask 1 16).
  destruct (hweight_step 1 16 (bits_of w)) as (-> & H1 & L1 & S1); [done..|].
  change 0x33333333 with (field_mask 2 8). change (2 * 1) with 2 in *.
  destruct (hweight_step 2 8 (sums (bits_of w))) as (-> & H2 & L2 & S2); [done..|].
  change 0x0F0F0F0F with (field_mask 4 4). change (2 * 2) with 4 in *.
  destruct (hweight_step 4 4 (sums (sums (bits_of w)))) as (-> & H3 & L3 & S3); [done..|].
  change 0x00FF00FF with (field_mask 8 2). change (2 * 4) with 8 in *.
  destruct (hweight_step 8 2 (sums (sums (sums (bits_of w))))) as (-> & H4 & L4 & S4); [done..|].
  change 0x0000FFFF with (field_mask 16 1). change (2 * 8) with 16 in *.
  destruct (hweight_step 16 1 (sums (sums (sums (sums (bits_of w)))))) as (-> & H5 & L5 & S5); [done..|].
  rewrite <-S1, <-S2, <-S3, <-S4, <-S5.
  destruct (sums (sums (sums (sums (sums (bits_of w)))))) as [|x [|y l]]; simpl in L5; try lia.
  simpl. lia.
Qed.

Lemma sum_app l1 l2 : sum (l1 ++ l2) = sum l1 + sum l2.
Proof. induction l1; simpl; lia. Qed.

(** The number of set bits among bits [s, s + n) of a bitmap. *)
Definition set_bits (m : mem) (p : addr) (s n : nat) : Z :=
  sum (map (fun i => b2z (bit m p i)) (seq s n)).

Lemma set_bits_add m p s a b : set_bits m p s (a + b) = set_bits m p s a + set_bits m p (s + a) b.
Proof. unfold set_bits. by rewrite seq_app, map_app, sum_app. Qed.

Lemma sum_zero n s (F : nat -> Z) : (forall i, (s <= i < s + n)%nat -> F i = 0) -> sum (map F (seq s n)) = 0.
Proof.
  revert s. induction n as [|n IH]; intros s HF; cbn [seq map sum]; [done|].
  rewrite HF, IH by (intros; try apply HF; lia). done.
Qed.

(** The first [n] bits of a word, when the others are clear. *)
Lemma bits_of_take w n (F : nat -> bool) s :
  (n <= 32)%nat -> (forall j, (j < 32)%nat -> Z.testbit w (Z.of_nat j) = (j <? n)%nat && F (s + j)%nat) ->
  sum (bits_of w) = sum (map (fun i => b2z (F i)) (seq s n)).
Proof.
  intros Hn HF. unfold bits_of. replace 32%nat with (n + (32 - n))%nat by lia.
  rewrite seq_app, map_app, sum_app, (sum_zero (32 - n)), Z.add_0_r.
  - f_equal. apply list_eq. intros i. rewrite !list_lookup_fmap.
    destruct (decide (i < n)%nat) as [Hi|Hi].
    + rewrite !lookup_seq_lt by done. simpl. rewrite HF by lia.
      by destruct (Nat.ltb_spec i n); [|lia].
    + by rewrite !lookup_seq_ge by lia.
  - intros i Hi. rewrite HF by lia. by destruct (Nat.ltb_spec i n); [lia|].
Qed.

Lemma weight_loop_spec m p k n w :
  Forall is_u32 m -> (p + k + n <= length m)%nat ->
  weight_loop m p k n w = Ret (w + set_bits m p (32 * k) (32 * n)).
Proof.
  intros Hm. revert k w. induction n as [|n IH]; intros k w Hl; cbn [weight_loop].
  { change (32 * 0)%nat with 0%nat. unfold set_bits. simpl. by rewrite Z.add_0_r. }
  rewrite nth_load by lia. rewrite IH by lia.
  replace (32 * S n)%nat with (32 + 32 * n)%nat by lia.
  rewrite set_bits_add. replace (32 * k + 32)%nat with (32 * S k)%nat by lia.
  rewrite hweight_spec by auto with cword.
  rewrite (bits_of_take _ 32 (bit m p) (32 * k)); [unfold set_bits; by rewrite Z.add_assoc|done|].
  intros j Hj. rewrite bit_split by done. by destruct (Nat.ltb_spec j 32); [|lia].
Qed.

(** (weight): the weight is the number of set bits of the bitmap; the
    word-parallel population count adds up the bits of each word. *)
Theorem bitmap_weight_correct m p bits :
  bitmap_ok m p bits -> __bitmap_weight m p bits = Ret (set_bits m p 0 bits).
Proof.
  intros [Hm Hl]. rewrite BITS_TO_LONGS_spec in Hl. unfold __bitmap_weight, BITS_PER_LONG.
  pose proof (div_mod_32 bits) as [Hd Hlt].
  rewrite weight_loop_spec; [|done|destruct (Nat.eqb_spec (bits mod 32) 0); lia].
  rewrite Hd at 4. rewrite set_bits_add. change (32 * 0)%nat with 0%nat.
  destruct (Nat.eqb_spec (bits mod 32) 0) as [E|E]; cbn [negb].
  { rewrite E. change (set_bits m p (0 + 32 * (bits / 32)) 0) with 0. by rewrite Z.add_0_l, Z.add_0_r. }
  rewrite nth_load by lia. do 2 f_equal.
  rewrite hweight_spec by auto with cword.
  apply (bits_of_take _ (bits mod 32) (bit m p)); [lia|]. intros j Hj.
  rewrite Nat.add_0_l, Z.land_spec, last_mask_testbit, bit_split, andb_comm by (done || lia). f_equal.
  destruct (Z.ltb_spec (Z.of_nat j) (Z.of_nat (bits mod 32))), (Nat.ltb_spec j (bits mod 32)); done || lia.
Qed.

Lemma bitmap_weight_correct_witness : __bitmap_weight bm_demo 0 40 = Ret (set_bits bm_demo 0 0 40).
Proof. apply (bitmap_weight_correct bm_demo 0 40), bm_demo_ok. lia. Defined.

(** ** Regions *)

Lemma region_mask_ones order : 0 <= order <= 5 -> region_mask (Z.shiftl 1 order) = Z.ones (2 ^ order).
Proof.
  intros Ho. assert (order = 0 \/ order = 1 \/ order = 2 \/ order = 3 \/ order = 4 \/ order = 5) as Hc by lia.
  destruct Hc as [->|[->|[->|[->|[->| ->]]]]]; reflexivity.
Qed.

Lemma pages_le order : 0 <= order -> (32 <? Z.shiftl 1 order) = negb (order <=? 5).
Proof.
  intros Ho. rewrite Z.shiftl_1_l. destruct (Z.leb_spec order 5) as [H|H]; simpl.
  - pose proof (Z.pow_le_mono_r 2 order 5). case_bool; lia.
  - pose proof (Z.pow_le_mono_r 2 6 order). case_bool; lia.
Qed.

(** Bit [i] lies in the region of [2^order] bits at [pos]. *)
Definition in_region (pos order : Z) (i : nat) : bool :=
  (pos <=? Z.of_nat i) && (Z.of_nat i <? pos + 2 ^ order).

Definition region_free (m : mem) (p : addr) (pos order : Z) : Prop :=
  forall i, in_region pos order i = true -> bit m p i = false.

(** The hypotheses under which a region lies in one word of the memory. *)
Definition region_ok (m : mem) (p : addr) (pos order : Z) : Prop :=
  Forall is_u32 m /\ 0 <= order <= 5 /\ 0 <= pos /\ pos mod 32 + 2 ^ order <= 32 /\
  (p + Z.to_nat (pos / 32) < length m)%nat.

Section Region.
Context (m : mem) (p : addr) (pos order : Z) (Hok : region_ok m p pos order).
Let k : nat := (p + Z.to_nat (pos / 32))%nat.
Let msk : Z := cshl 32 (region_mask (Z.shiftl 1 order)) (pos - pos / 32 * 32).

Lemma region_offset : pos - pos / 32 * 32 = pos mod 32 /\ 0 <= pos mod 32 < 32.
Proof. pose proof (Z.div_mod pos 32). pose proof (Z.mod_pos_bound pos 32). lia. Qed.

Lemma msk_testbit j : 0 <= j ->
  Z.testbit msk j = (pos mod 32 <=? j) && (j <? pos mod 32 + 2 ^ order).
Proof.
  destruct Hok as (Hm & Ho & Hp & Hfit & Hl). destruct region_offset as [E Hr]. intros Hj.
  unfold msk. rewrite E, region_mask_ones, cshl_testbit by lia.
  pose proof (Z.pow_pos_nonneg 2 order).
  destruct (Z.leb_spec (pos mod 32) j); simpl.
  - rewrite ones_testbit by lia.
    destruct (Z.ltb_spec j 32), (Z.ltb_spec (j - pos mod 32) (2 ^ order)),
      (Z.ltb_spec j (pos mod 32 + 2 ^ order)); simpl; done || lia.
  - rewrite Z.testbit_neg_r by lia. by rewrite andb_false_r.
Qed.

Lemma msk_u32 : is_u32 msk.
Proof. apply word_cshl. lia. Qed.

Lemma region_load : load m k = Ret (nth k m 0).
Proof. destruct Hok as (_ & _ & _ & _ & Hl). by apply nth_load. Qed.

(** The bits of the region's word, by their number in the bitmap. *)
Lemma region_word_bit i :
  in_region pos order i = Z.testbit msk (Z.of_nat (i mod 32)) && (i / 32 =? Z.to_nat (pos / 32))%nat.
Proof.
  destruct Hok as (Hm & Ho & Hp & Hfit & Hl). destruct region_offset as [E Hr].
  rewrite msk_testbit by lia. unfold in_region. pose proof (div_mod_32 i) as [Hd Hlt].
  pose proof (Z.pow_pos_nonneg 2 order). pose proof (Z.div_pos pos 32).
  destruct (Nat.eqb_spec (i / 32) (Z.to_nat (pos / 32))) as [Ek|Ek]; rewrite ?andb_true_r, ?andb_false_r.
  - f_equal; case_bool; case_bool; try done; lia.
  - repeat case_bool; try done; exfalso; lia.
Qed.

Lemma region_test : Z.land (nth k m 0) msk = 0 <-> region_free m p pos order.
Proof.
  assert (Hw : is_u32 (Z.land (nth k m 0) msk)) by (destruct Hok; auto with cword).
  rewrite word_zero_iff by done. unfold region_free. split.
  - intros H i Hi. rewrite region_word_bit in Hi. apply andb_true_iff in Hi as [H1 H2].
    apply Nat.eqb_eq in H2. pose proof (div_mod_32 i) as [_ Hlt]. specialize (H (i mod 32)%nat Hlt).
    rewrite Z.land_spec, H1, andb_true_r in H. unfold bit. by rewrite H2.
  - intros H j Hj. rewrite Z.land_spec.
    specialize (H (32 * Z.to_nat (pos / 32) + j)%nat).
    rewrite region_word_bit, bit_split, div_32_add, mod_32_add, Nat.eqb_refl, andb_true_r in H by done.
    destruct (Z.testbit msk (Z.of_nat j)); [|by rewrite andb_false_r]. fold k in H. by rewrite H.
Qed.

Lemma region_store f g :
  (forall w j, (j < 32)%nat ->
     Z.testbit (f w) (Z.of_nat j) = if Z.testbit msk (Z.of_nat j) then g (Z.testbit w (Z.of_nat j)) else Z.testbit w (Z.of_nat j)) ->
  store m k (f (nth k m 0)) = Ret (<[k := f (nth k m 0)]> m) /\
  forall i, bit (<[k := f (nth k m 0)]> m) p i = if in_region pos order i then g (bit m p i) else bit m p i.
Proof.
  intros Hf. destruct Hok as (_ & _ & _ & _ & Hl). split; [by apply store_lt|]. intros i.
  pose proof (div_mod_32 i) as [_ Hlt]. rewrite region_word_bit. unfold bit.
  destruct (Nat.eqb_spec (i / 32) (Z.to_nat (pos / 32))) as [->|Hne].
  - fold k. rewrite nth_lookup, list_lookup_insert_eq by done. cbn [default from_option].
    rewrite andb_true_r. by apply Hf.
  - rewrite andb_false_r, !nth_lookup, list_lookup_insert_ne by (unfold k; lia). done.
Qed.

Lemma region_set :
  store m k (Z.lor (nth k m 0) msk) = Ret (<[k := Z.lor (nth k m 0) msk]> m) /\
  forall i, bit (<[k := Z.lor (nth k m 0) msk]> m) p i = in_region pos order i || bit m p i.
Proof.
  destruct (region_store (fun w => Z.lor w msk) (fun _ => true)) as [H1 H2].
  { intros w j Hj. rewrite Z.lor_spec. by destruct (Z.testbit msk _); rewrite ?orb_true_r, ?orb_false_r. }
  split; [done|]. intros i. rewrite H2. by destruct (in_region pos order i).
Qed.

Lemma region_clear :
  store m k (Z.land (nth k m 0) (cnot 32 msk)) = Ret (<[k := Z.land (nth k m 0) (cnot 32 msk)]> m) /\
  forall i, bit (<[k := Z.land (nth k m 0) (cnot 32 msk)]> m) p i = negb (in_region pos order i) && bit m p i.
Proof.
  destruct (region_store (fun w => Z.land w (cnot 32 msk)) (fun _ => false)) as [H1 H2].
  { intros w j Hj. rewrite Z.land_spec, cnot_testbit by lia. case_bool; [|lia].
    by destruct (Z.testbit msk _); rewrite ?andb_true_r, ?andb_false_r. }
  split; [done|]. intros i. rewrite H2. by destruct (in_region pos order i).
Qed.
End Region.

Definition region_at (bits pos order : Z) : Prop := 0 <= pos < bits /\ pos mod 2 ^ order = 0.

Lemma pages_32 order : 0 <= order <= 5 -> 32 = 2 ^ order * 2 ^ (5 - order) /\ 0 < 2 ^ order.
Proof.
  intros. split; [|apply Z.pow_pos_nonneg; lia].
  rewrite <-Z.pow_add_r by lia. by replace (order + (5 - order)) with 5 by lia.
Qed.

Lemma aligned_ok m p bits pos order :
  bitmap_ok m p (Z.to_nat bits) -> 0 <= order <= 5 -> region_at bits pos order -> region_ok m p pos order.
Proof.
  intros [Hm Hl] Ho [Hp Ha]. destruct (pages_32 order Ho) as [Hpg Hpos].
  split_and!; [done|lia..| |].
  - pose proof (Z.div_mod pos 32 ltac:(lia)). pose proof (Z.mod_pos_bound pos 32 ltac:(lia)).
    apply Z.mod_divide in Ha as [q Hq]; [|lia].
    assert (pos mod 32 = 2 ^ order * (q - 2 ^ (5 - order) * (pos / 32))) by nia.
    set (a := q - 2 ^ (5 - order) * (pos / 32)) in *.
    assert (a < 2 ^ (5 - order)) by (apply (Z.mul_lt_mono_pos_l (2 ^ order)); lia). nia.
  - pose proof (last_word_index (Z.to_nat bits) (Z.to_nat pos) ltac:(lia)).
    replace (Z.to_nat (pos / 32)) with (Z.to_nat pos / 32)%nat; [lia|].
    rewrite Z2Nat.inj_div by lia. done.
Qed.

Lemma find_region_spec m p bits order fuel i :
  bitmap_ok m p (Z.to_nat bits) -> 0 <= order <= 5 ->
  0 <= i -> i mod 2 ^ order = 0 -> bits <= i + Z.of_nat fuel ->
  exists r m', find_region_loop fuel m p bits i (2 ^ order) (region_mask (Z.shiftl 1 order)) = Ret (r, m') /\
    ((region_at bits r order /\ region_free m p r order /\ i <= r /\
      (forall j, region_at bits j order -> i <= j < r -> ~ region_free m p j order) /\
      (forall b, bit m' p b = in_region r order b || bit m p b)) \/
     (r = - ENOMEM /\ m' = m /\ forall j, region_at bits j order -> i <= j -> ~ region_free m p j order)).
Proof.
  intros Hbm Ho. revert i. induction fuel as [|fuel IH]; intros i Hi Ha Hf.
  { simpl. destruct (Z.ltb_spec i bits); [lia|]. exists (- ENOMEM), m. split; [done|]. right.
    split_and!; [done..|]. intros j [? ?]. lia. }
  cbn [find_region_loop]. destruct (Z.ltb_spec i bits) as [Hlt|Hge]; cycle 1.
  { exists (- ENOMEM), m. split; [done|]. right. split_and!; [done..|]. intros j [? ?]. lia. }
  assert (Hat : region_at bits i order) by (split; lia).
  pose proof (aligned_ok m p bits i order Hbm Ho Hat) as Hok.
  rewrite (region_load m p i order Hok).
  pose proof (region_test m p i order Hok) as Ht.
  destruct (Z.eqb_spec (Z.land (nth (p + Z.to_nat (i / 32)) m 0)
    (cshl 32 (region_mask (Z.shiftl 1 order)) (i - i / 32 * 32))) 0) as [E|E].
  - destruct (region_set m p i order Hok) as [Hs Hb]. rewrite Hs. eexists _, _. split; [done|]. left.
    split_and!; [done|by apply Ht|lia|intros; lia|done].
  - destruct (pages_32 order Ho) as [_ Hpos].
    destruct (IH (i + 2 ^ order)) as (r & m' & -> & Hr); [lia| |lia|].
    { rewrite <-Z.add_mod_idemp_r, Z.mod_same, Z.add_0_r by lia. done. }
    exists r, m'. split; [done|].
    assert (Hskip : forall j, region_at bits j order -> i <= j < i + 2 ^ order -> ~ region_free m p j order).
    { intros j [Hj Hja] Hij. replace j with i; [by rewrite <-Ht|].
      apply Z.mod_divide in Ha as [a ->]; [|lia]. apply Z.mod_divide in Hja as [b ->]; [|lia]. f_equal. assert (a < b + 1 /\ b < a + 1) as [? ?]; [|lia].
      split; apply (Z.mul_lt_mono_pos_l (2 ^ order)); lia. }
    destruct Hr as [(H1 & H2 & H3 & H4 & H5)|(H1 & H2 & H3)]; [left|right]; split_and!; try done; try lia.
    + intros j Hj Hij. destruct (decide (j < i + 2 ^ order)); [apply Hskip|apply H4]; done || lia.
    + intros j Hj Hij. destruct (decide (j < i + 2 ^ order)); [apply Hskip|apply H3]; done || lia.
Qed.

(** (finding a region): for orders up to 5 the search returns the lowest
    aligned free region and marks exactly its bits, or -ENOMEM with the bitmap
    unchanged when no aligned region is free; larger orders give -EINVAL. *)
Theorem bitmap_find_free_region_correct m p bits order :
  bitmap_ok m p (Z.to_nat bits) -> 0 <= order < 31 ->
  exists r m', bitmap_find_free_region m p bits order = Ret (r, m') /\
    if order <=? 5 then
      (region_at bits r order /\ region_free m p r order /\
       (forall j, region_at bits j order -> j < r -> ~ region_free m p j order) /\
       (forall b, bit m' p b = in_region r order b || bit m p b)) \/
      (r = - ENOMEM /\ m' = m /\ forall j, region_at bits j order -> ~ region_free m p j order)
    else r = - EINVAL /\ m' = m.
Proof.
  intros Hbm Ho. unfold bitmap_find_free_region. rewrite pages_le by lia.
  destruct (Z.leb_spec order 5) as [Hle|Hgt]; cbn [negb]; [|by eexists _, _].
  pose proof (find_region_spec m p bits order (Z.to_nat bits) 0) as Hs. rewrite Z.shiftl_1_l in *.
  destruct Hs as (r & m' & -> & H); [done|lia|lia|apply Zmod_0_l|lia|].
  exists r, m'. split; [done|].
  destruct H as [(H1 & H2 & H3 & H4 & H5)|(H1 & H2 & H3)]; [left|right]; split_and!; try done.
  - intros j Hj Hlt. apply H4; [done|]. destruct Hj. lia.
  - intros j Hj. apply H3; [done|]. destruct Hj. lia.
Qed.

Lemma bitmap_find_free_region_correct_witness :
  exists r m', bitmap_find_free_region bm_demo 0 40 3 = Ret (r, m') /\
      ((region_at 40 r 3 /\ region_free bm_demo 0 r 3 /\
       (forall j, region_at 40 j 3 -> j < r -> ~ region_free bm_demo 0 j 3) /\
       (forall b, bit m' 0 b = in_region r 3 b || bit bm_demo 0 b)) \/
      (r = - ENOMEM /\ m' = bm_demo /\ forall j, region_at 40 j 3 -> ~ region_free bm_demo 0 j 3)).
Proof. apply (bitmap_find_free_region_correct bm_demo 0 40 3); [apply bm_demo_ok; lia|lia]. Defined.

(** (allocating and releasing): a region inside one word is allocated
    exactly when all of its bits are clear, -EBUSY otherwise; allocation sets
    its bits and no others, and releasing it gives the old bitmap back. *)
Theorem bitmap_allocate_release m p pos order :
  region_ok m p pos order ->
  exists r m', bitmap_allocate_region m p pos order = Ret (r, m') /\
    ((r = 0 /\ region_free m p pos order /\
      (forall b, bit m' p b = in_region pos order b || bit m p b) /\
      bitmap_release_region m' p pos order = Ret m) \/
     (r = - EBUSY /\ m' = m /\ ~ region_free m p pos order)).
Proof.
  intros Hok. pose proof Hok as (Hm & Ho & Hp & Hfit & Hl).
  unfold bitmap_allocate_region. rewrite pages_le by lia.
  destruct (Z.leb_spec order 5); [|lia]. cbn [negb].
  rewrite (region_load m p pos order Hok). pose proof (region_test m p pos order Hok) as Ht.
  case_match eqn:E.
  { eexists _, _. split; [done|]. right. rewrite <-Ht. split_and!; [done..|].
    apply negb_true_iff, Z.eqb_neq in E. done. }
  apply negb_false_iff, Z.eqb_eq in E. destruct (region_set m p pos order Hok) as [Hs Hb]. rewrite Hs.
  eexists _, _. split; [done|]. left. split_and!; [done|by apply Ht|done|].
  unfold bitmap_release_region. rewrite nth_load by (by rewrite length_insert).
  rewrite store_lt by (by rewrite length_insert). f_equal.
  rewrite list_insert_insert_eq. apply list_insert_id.
  rewrite nth_lookup, list_lookup_insert_eq by done. cbn [default from_option].
  destruct (lookup_lt_is_Some_2 _ _ Hl) as [w Hw]. rewrite Hw. f_equal.
  rewrite (nth_lookup_Some _ _ _ _ Hw) in *.
  assert (Hwd : is_u32 w) by eauto with cword.
  unfold id. apply Z.bits_inj'; intros i Hi. rewrite Z.land_spec, Z.lor_spec, cnot_testbit by lia.
  apply (f_equal (fun z => Z.testbit z i)) in E. rewrite Z.land_spec, Z.testbit_0_l in E.
  destruct (Z.ltb_spec i 32); [|rewrite (word_testbit_high 32 w i) by (done || lia); by rewrite andb_false_r].
  set (msk := cshl 32 _ _) in *. by destruct (Z.testbit w i), (Z.testbit msk i).
Qed.

Lemma bitmap_allocate_release_witness :
  exists r m', bitmap_allocate_region bm_demo 0 8 3 = Ret (r, m') /\
    ((r = 0 /\ region_free bm_demo 0 8 3 /\
      (forall b, bit m' 0 b = in_region 8 3 b || bit bm_demo 0 b) /\
      bitmap_release_region m' 0 8 3 = Ret bm_demo) \/
     (r = - EBUSY /\ m' = bm_demo /\ ~ region_free bm_demo 0 8 3)).
Proof.
  apply (bitmap_allocate_release bm_demo 0 8 3).
  split_and!; [apply (bm_demo_ok 0); lia|lia..|apply Z.leb_le; reflexivity|apply Nat.ltb_lt; reflexivity].
Defined.

(** ** Complement and zeroing *)

Lemma BITS_TO_LONGS_le bits : (bits <= 32 * BITS_TO_LONGS bits)%nat.
Proof. rewrite BITS_TO_LONGS_spec. pose proof (div_mod_32 bits). case_bool; lia. Qed.

(** (complement): every bit is inverted, also in place, and the unused
    bits of the last word come out clear. *)
Theorem bitmap_complement_correct m dst src bits :
  bitmap_ok m dst bits -> bitmap_ok m src bits -> apart dst src (BITS_TO_LONGS bits) ->
  exists m', __bitmap_complement m dst src bits = Ret m' /\
    forall i, (i < 32 * BITS_TO_LONGS bits)%nat ->
      bit m' dst i = bool_decide (i < bits)%nat && negb (bit m src i).
Proof.
  intros [Hm Hd] [_ Hs] Ha. unfold apart in Ha. rewrite BITS_TO_LONGS_spec in *.
  pose proof (div_mod_32 bits) as [Hdiv Hlt]. unfold __bitmap_complement, BITS_PER_LONG.
  set (lim := (bits / 32)%nat) in *.
  set (F := fun k => cnot 32 (nth (src + k) m 0)).
  rewrite (store_words_spec _ F); cycle 1.
  { destruct (Nat.eqb_spec (bits mod 32) 0); lia. }
  { intros j m' Hj Hl Hsame. unfold load1, F. destruct (Nat.eqb_spec (bits mod 32) 0);
      (rewrite nth_load by lia; do 2 f_equal; apply same_nth, Hsame; lia). }
  rewrite Nat.add_0_r.
  assert (HF : forall k b, (b < 32)%nat -> Z.testbit (F k) (Z.of_nat b) = negb (bit m src (32 * k + b))).
  { intros k b Hb. unfold F. rewrite cnot_testbit, bit_split by lia. by case_bool; [|lia]. }
  destruct (Nat.eqb_spec (bits mod 32) 0) as [E|E]; cbn [negb].
  { eexists. split; [done|]. intros i Hi. pose proof (div_mod_32 i) as [Hdi Hmi].
    rewrite bit_inserts_map by lia. rewrite HF, bool_decide_true by lia. by rewrite <-Hdi. }
  rewrite nth_load by (rewrite length_inserts; lia).
  rewrite store_lt by (rewrite length_inserts; lia). eexists. split; [done|].
  rewrite nth_inserts by (rewrite length_map, length_seq; lia).
  rewrite length_map, length_seq, decide_False by lia.
  intros i Hi. pose proof (div_mod_32 i) as [Hdi Hmi].
  destruct (decide (i / 32 = lim)%nat) as [El|El].
  - unfold bit at 1. rewrite El, nth_lookup, list_lookup_insert_eq by (rewrite length_inserts; lia).
    cbn [default from_option]. unfold id. change (cnot 32 (nth (src + lim) m 0)) with (F lim).
    rewrite Z.land_spec, last_mask_testbit, HF, andb_comm by lia.
    replace (bit m src i) with (bit m src (32 * lim + i mod 32)) by (f_equal; lia). f_equal.
    case_bool; case_bool_decide; done || lia.
  - unfold bit at 1. rewrite nth_lookup, list_lookup_insert_ne, <-nth_lookup by lia.
    fold (bit (list_inserts dst (map F (seq 0 lim)) m) dst i). rewrite bit_inserts_map by lia.
    rewrite HF, bool_decide_true by lia. by rewrite <-Hdi.
Qed.

Lemma bitmap_complement_correct_witness :
  exists m', __bitmap_complement bm_demo 0 0 40 = Ret m' /\
    forall i, (i < 32 * BITS_TO_LONGS 40)%nat -> bit m' 0 i = bool_decide (i < 40)%nat && negb (bit bm_demo 0 i).
Proof. apply (bitmap_complement_correct bm_demo 0 0 40); [apply bm_demo_ok; lia..|by left]. Defined.

Lemma bit_replicate_0 m p n i :
  (p + n <= length m)%nat -> (i / 32 < n)%nat -> bit (list_inserts p (replicate n 0) m) p i = false.
Proof.
  intros Hl Hi. unfold bit. rewrite nth_inserts by (by rewrite length_replicate).
  rewrite length_replicate, decide_True by lia. rewrite nth_replicate_0. apply Z.testbit_0_l.
Qed.

Lemma bitmap_zero_spec m p bits :
  bitmap_ok m p bits -> (0 < bits)%nat ->
  bitmap_zero m p bits = Ret (list_inserts p (replicate (BITS_TO_LONGS bits) 0) m).
Proof.
  intros [Hm Hl] Hb. unfold bitmap_zero, BITS_PER_LONG. destruct (Nat.leb_spec bits 32) as [Hle|Hgt].
  - assert (BITS_TO_LONGS bits = 1%nat) as ->.
    { rewrite BITS_TO_LONGS_spec. pose proof (div_mod_32 bits). case_bool; lia. }
    rewrite store_lt; [done|]. pose proof (last_word_index bits 0 Hb). lia.
  - by rewrite zero_words_spec.
Qed.

(** ** The list format *)

Lemma set_bit_spec m p bits nr :
  bitmap_ok m p bits -> (nr < bits)%nat ->
  exists m', set_bit m nr p = Ret m' /\ bitmap_ok m' p bits /\ length m' = length m /\
    forall i, bit m' p i = (i =? nr)%nat || bit m p i.
Proof.
  intros [Hm Hl] Hn. pose proof (last_word_index bits nr Hn) as Hw. unfold set_bit.
  rewrite nth_load, store_lt by lia. eexists. split; [done|]. pose proof (div_mod_32 nr) as [Hdn Hmn].
  split_and!.
  - split; [|by rewrite length_insert]. apply Forall_insert; [done|]. apply word_lor; auto with cword.
  - by rewrite length_insert.
  - intros i. unfold bit. pose proof (div_mod_32 i) as [Hdi Hmi].
    destruct (decide (i / 32 = nr / 32)%nat) as [E|E].
    + rewrite E, (nth_lookup (<[_ := _]> _)), list_lookup_insert_eq by lia. cbn [default from_option].
      unfold id. rewrite Z.lor_spec, cshl_testbit, orb_comm by lia. f_equal.
      destruct (Z.ltb_spec (Z.of_nat (i mod 32)) 32); [|lia]. cbn [andb].
      destruct (Nat.eqb_spec i nr) as [->|Hne].
      * by rewrite Z.sub_diag.
      * destruct (decide (i mod 32 < nr mod 32)%nat); [by rewrite Z.testbit_neg_r by lia|].
        change 1 with (2 ^ 0). rewrite pow2_testbit by lia. by case_bool; [lia|].
    + rewrite nth_lookup, list_lookup_insert_ne, <-nth_lookup by lia.
      by destruct (Nat.eqb_spec i nr) as [->|].
Qed.

Definition in_range (r : Z * Z) (i : nat) : bool := (r.1 <=? Z.of_nat i) && (Z.of_nat i <=? r.2).

Lemma set_range_spec m p bits a n :
  bitmap_ok m p bits -> (a + n <= bits)%nat ->
  exists m', set_range m a n p = Ret m' /\ bitmap_ok m' p bits /\ length m' = length m /\
    forall i, bit m' p i = ((a <=? i)%nat && (i <? a + n)%nat) || bit m p i.
Proof.
  revert m a. induction n as [|n IH]; intros m a Hm Ha; cbn [set_range].
  { exists m. split_and!; [done..|]. intros i. case_bool; case_bool; done || lia. }
  destruct (set_bit_spec m p bits a Hm ltac:(lia)) as (m1 & -> & Hok & Hlen & Hb).
  destruct (IH m1 (S a) Hok ltac:(lia)) as (m2 & -> & Hok2 & Hlen2 & Hb2).
  exists m2. split_and!; [done..|lia|]. intros i. rewrite Hb2, Hb, orb_assoc. f_equal.
  repeat case_bool; done || lia.
Qed.

(** A decimal number, and the text of a range: a number or two joined by a
    minus sign. *)
Definition num10 (ds : list Z) (n : Z) : Prop :=
  exists vs, ds = map (digit small_digits) vs /\ spells 10 vs n /\ is_u32 n.

Definition range_text (t : list Z) (r : Z * Z) : Prop :=
  num10 t r.1 /\ r.2 = r.1 \/
  exists da db, t = da ++ 45 :: db /\ num10 da r.1 /\ num10 db r.2.

Lemma strtoul_num10 ds n rest :
  num10 ds n -> ends rest ->
  simple_strtoul (ds ++ rest) 10 = (n, rest) /\ isdigit (peek (ds ++ rest)) = true /\ (0 < length ds)%nat.
Proof.
  intros (vs & -> & Hs & Hn) He. split.
  { change small_digits with (digit_set 0). by apply (strto_digits 32). }
  destruct Hs as (_ & Hvs & Hne). destruct vs as [|v vs]; [done|]. inversion Hvs.
  cbn [map app peek hd]. rewrite digit_decimal, isdigit_range by (unfold word; lia).
  split; [repeat case_bool; done || lia|]. simpl. lia.
Qed.

Lemma ends_minus rest : ends (45 :: rest).
Proof. split; [reflexivity|discriminate]. Qed.

(** One round of the loop on a well-formed range. *)
Lemma parselist_step fuel t r rest m p n :
  range_text t r -> ends rest -> peek rest <> 45 -> r.1 <= r.2 -> r.2 < Z.of_nat n -> bitmap_ok m p n ->
  exists m', bitmap_ok m' p n /\ (forall i, bit m' p i = in_range r i || bit m p i) /\
    parselist_loop (S fuel) (t ++ rest) m p (Z.of_nat n) =
      let bp := if peek rest =? 44 then tl rest else rest in
      if negb (peek bp =? 0) && negb (peek bp =? 10)
      then parselist_loop fuel bp m' p (Z.of_nat n) else Ret (0, m').
Proof.
  intros Ht He Hne Hle Hlt Hok.
  assert (Ha : 0 <= r.1).
  { destruct Ht as [[(? & _ & _ & []) _]|(? & ? & _ & (? & _ & _ & []) & _)]; lia. }
  destruct (set_range_spec m p n (Z.to_nat r.1) (Z.to_nat (r.2 - r.1 + 1)) Hok ltac:(lia))
    as (m' & Hset & Hok' & _ & Hb).
  exists m'. split_and!; [done| |].
  { intros i. rewrite Hb. f_equal. unfold in_range. repeat case_bool; done || lia. }
  cbn [parselist_loop]. destruct Ht as [[Hd Heq]|(da & db & -> & Hda & Hdb)].
  - destruct (strtoul_num10 t r.1 rest Hd He) as (-> & -> & _). cbn [negb].
    destruct (Z.eqb_spec (peek rest) 45); [done|].
    destruct (Z.leb_spec r.1 r.1); [|lia]. destruct (Z.leb_spec (Z.of_nat n) r.1); [lia|]. cbn [negb].
    rewrite Heq in Hset. by rewrite Hset.
  - rewrite <-app_assoc. cbn [app].
    destruct (strtoul_num10 da r.1 (45 :: db ++ rest) Hda (ends_minus _)) as (-> & -> & _). cbn [negb].
    cbn [peek hd tl]. change (45 =? 45) with true. cbv iota.
    destruct (strtoul_num10 db r.2 rest Hdb He) as (-> & -> & _). cbn [negb].
    destruct (Z.leb_spec r.1 r.2); [|lia]. destruct (Z.leb_spec (Z.of_nat n) r.2); [lia|]. cbn [negb].
    by rewrite Hset.
Qed.

Definition at_end (rest : list Z) : Prop := peek rest = 0 \/ peek rest = 10.

Lemma at_end_ends rest : at_end rest -> ends rest /\ peek rest <> 45 /\ peek rest <> 44.
Proof. unfold ends. intros [->| ->]; split_and!; try done; lia. Qed.

Lemma range_text_head t r rest :
  range_text t r -> (0 < length t)%nat /\ exists c, peek (t ++ rest) = 48 + c /\ 0 <= c < 10.
Proof.
  assert (H : forall ds n rest', num10 ds n ->
    (0 < length ds)%nat /\ exists c, peek (ds ++ rest') = 48 + c /\ 0 <= c < 10).
  { intros ds n rest' (vs & -> & (_ & Hvs & Hne) & _). destruct vs as [|v vs]; [done|].
    inversion Hvs. cbn [map app peek hd]. rewrite digit_decimal by done. simpl. split; [lia|by eexists]. }
  intros [[Hd _]|(da & db & -> & Hda & _)]; [by eapply H|].
  rewrite <-app_assoc. destruct (H da r.1 ((45 :: db) ++ rest) Hda) as [Hl Hc].
  split; [rewrite length_app; lia|done].
Qed.

Lemma parselist_loop_spec fuel ts rs rest m p n :
  Forall2 range_text ts rs -> ts <> [] -> at_end rest ->
  Forall (fun r => r.1 <= r.2 /\ r.2 < Z.of_nat n) rs -> bitmap_ok m p n ->
  (length (join ts) < fuel)%nat ->
  exists m', parselist_loop fuel (join ts ++ rest) m p (Z.of_nat n) = Ret (0, m') /\
    forall i, bit m' p i = existsb (fun r => in_range r i) rs || bit m p i.
Proof.
  intros H2 Hne Hend Hrs Hok Hfuel. destruct (at_end_ends rest Hend) as (He & H45 & H44).
  revert fuel m Hfuel Hok. induction H2 as [|t r ts rs Ht Hts IH]; [done|]. intros [|fuel] m Hfuel Hok; [lia|].
  apply Forall_cons_1 in Hrs as [[Hle Hlt] Hrs]. destruct Hts as [|t' r' ts rs Ht' Hts].
  - cbn [join]. destruct (parselist_step fuel t r rest m p n Ht He H45 Hle Hlt Hok) as (m' & Hok' & Hb & ->).
    cbv zeta. destruct (Z.eqb_spec (peek rest) 44); [done|].
    exists m'. split; [destruct Hend as [->| ->]; done|]. intros i. simpl. by rewrite orb_false_r, Hb.
  - change (join (t :: t' :: ts)) with (t ++ 44 :: join (t' :: ts)) in *. rewrite <-app_assoc. cbn [app].
    destruct (parselist_step fuel t r (44 :: join (t' :: ts) ++ rest) m p n Ht (ends_comma _) ltac:(done) Hle Hlt Hok)
      as (m' & Hok' & Hb & ->).
    rewrite length_app, length_cons in Hfuel.
    destruct (IH ltac:(done) Hrs fuel m' ltac:(lia) Hok') as (m2 & Hm2 & Hb2).
    cbv zeta. cbn [peek hd tl]. change (44 =? 44) with true. cbv iota.
    assert (Hhd : exists c, peek (join (t' :: ts) ++ rest) = 48 + c /\ 0 <= c < 10).
    { destruct ts as [|t2 ts]; [by eapply range_text_head|].
      change (join (t' :: t2 :: ts)) with (t' ++ 44 :: join (t2 :: ts)). rewrite <-app_assoc.
      by eapply range_text_head. }
    destruct Hhd as (c & -> & Hc). destruct (Z.eqb_spec (48 + c) 0), (Z.eqb_spec (48 + c) 10); try lia.
    cbn [negb andb]. exists m2. split; [done|]. intros i. rewrite Hb2, Hb. simpl.
    destruct (in_range r i), (in_range r' i); rewrite ?orb_true_r; done.
Qed.

Lemma bitmap_parselist_spec ts rs rest m p n :
  Forall2 range_text ts rs -> ts <> [] -> at_end rest ->
  Forall (fun r => r.1 <= r.2 /\ r.2 < Z.of_nat n) rs -> bitmap_ok m p n ->
  exists m', bitmap_parselist (join ts ++ rest) m p n = Ret (0, m') /\
    forall i, (i < n)%nat -> bit m' p i = existsb (fun r => in_range r i) rs.
Proof.
  intros H2 Hne Hend Hrs Hok. unfold bitmap_parselist.
  assert (Hn : (0 < n)%nat).
  { destruct H2 as [|t r ts rs Ht H2]; [done|]. apply Forall_cons_1 in Hrs as [[? ?] _].
    destruct Ht as [[(? & _ & _ & []) _]|(? & ? & _ & (? & _ & _ & []) & _)]; lia. }
  rewrite bitmap_zero_spec by done. pose proof Hok as [Hm Hl].
  destruct (parselist_loop_spec (S (length (join ts ++ rest))) ts rs rest
    (list_inserts p (replicate (BITS_TO_LONGS n) 0) m) p n) as (m' & Hr & Hb); try done.
  - split; [|by rewrite length_inserts]. apply Forall_lookup. intros i x.
    rewrite lookup_inserts_dec. case_decide; [|by apply Forall_lookup_1].
    intros [-> _]%lookup_replicate. unfold word. lia.
  - rewrite length_app. lia.
  - exists m'. split; [done|]. intros i Hi. rewrite Hb, bit_replicate_0, orb_false_r; [done|done|].
    by apply last_word_index.
Qed.

(** (list format): a comma-separated list of numbers and ranges below
    [nmaskbits], ended by a NUL or a newline, sets exactly the listed bits. *)
Theorem bitmap_parselist_correct ts rs rest m p n :
  Forall2 range_text ts rs -> ts <> [] -> at_end rest ->
  Forall (fun r => r.1 <= r.2 /\ r.2 < Z.of_nat n) rs -> bitmap_ok m p n ->
  exists m', bitmap_parselist (join ts ++ rest) m p n = Ret (0, m') /\
    forall i, (i < n)%nat -> bit m' p i = existsb (fun r => in_range r i) rs.
Proof. apply bitmap_parselist_spec. Qed.

Lemma num10_demo : num10 [49; 50] 12 /\ num10 [51] 3.
Proof.
  split; [exists [1; 2]|exists [3]];
    (split; [done|split; [split; [done|split; [repeat constructor; lia|done]]|unfold word; lia]]).
Qed.

(** "3-12,12" and a newline. *)
Lemma bitmap_parselist_correct_witness :
  exists m', bitmap_parselist (join [[51; 45; 49; 50]; [49; 50]] ++ [10]) bm_demo 0 40 = Ret (0, m') /\
    forall i, (i < 40)%nat -> bit m' 0 i = existsb (fun r => in_range r i) [(3, 12); (12, 12)].
Proof.
  destruct num10_demo as [H12 H3].
  apply (bitmap_parselist_correct [[51; 45; 49; 50]; [49; 50]] [(3, 12); (12, 12)] [10] bm_demo 0 40);
    [|done|by right| |apply bm_demo_ok; lia].
  - constructor; [right; by exists [51], [49; 50]|constructor; [left; done|constructor]].
  - repeat constructor; simpl; lia.
Defined.

Lemma strto_loop_shrinks w base cp acc : (length (strto_loop w cp base acc).2 <= length cp)%nat.
Proof.
  revert acc. induction cp as [|c cp IH]; intros acc; simpl; [done|].
  case_match; simpl; [etrans; [apply IH|lia]|done].
Qed.

Lemma strto_loop_consumes w cp acc :
  Forall is_byte cp -> isdigit (peek cp) = true -> (length (strto_loop w cp 10 acc).2 < length cp)%nat.
Proof.
  intros Hcp Hd. destruct cp as [|c cp]; [done|]. apply Forall_cons_1 in Hcp as [Hc _].
  cbn [peek hd] in Hd. cbn [strto_loop].
  assert (Hx : isxdigit c && (digit_value c <? 10) = true).
  { assert (H : negb (isdigit c) || (isxdigit c && (digit_value c <? 10)) = true)
      by (clear Hd; revert c Hc; by_bytes (fun c => negb (isdigit c) || (isxdigit c && (digit_value c <? 10)))).
    by rewrite Hd in H. }
  rewrite Hx. pose proof (strto_loop_shrinks w 10 cp (wrap w (acc * 10 + digit_value c))). simpl. lia.
Qed.
