(* ===== verification/Findbit.v ===== *)
(** * Searching bitmaps (kernel arch/arm/lib/findbit.S)

    The searches of lib/bitmap.c are the assembly routines of the ARM port,
    which go through the bitmap byte by byte; the little-endian ones are
    translated here for an ARMv4 core.  [FindBit] is what their callers rely
    on.  Register names are those of the assembly. *)

From S2P Require Import Prelude CMem Ctype Bitmap.

(** ** The routines *)

(** [ldrb r3, [r0, r2, lsr #3]] *)
Definition ldrb (m : mem) (r0 : addr) (r2 : nat) : outcome Z :=
  let! w := load m (r0 + r2 / 32) in
  Ret (Z.land (Z.shiftr w (Z.of_nat (8 * ((r2 / 8) mod 4)))) 0xff).

(** The byte as searched: inverted when looking for a zero bit. *)
Definition eors (v : bool) (r3 : Z) : Z := if v then r3 else Z.lxor r3 0xff.

(** [.L_found]: the lowest of the bits set in [r3]. *)
Definition L_found (r2 : nat) (r3 : Z) : nat :=
  let '(r2, r3) := if Z.land r3 0x0f =? 0 then ((r2 + 4)%nat, r3) else (r2, cshl 32 r3 4) in
  let '(r2, r3) := if Z.land r3 0x30 =? 0 then ((r2 + 2)%nat, r3) else (r2, cshl 32 r3 2) in
  if Z.land r3 0x40 =? 0 then (r2 + 1)%nat else r2.

(** From label 1: whole bytes, [r2] being a multiple of 8. *)
Fixpoint find_bytes (v : bool) (fuel : nat) (m : mem) (r0 : addr) (r1 r2 : nat) : outcome nat :=
  match fuel with
  | O => Err Diverge
  | S fuel =>
      let! r3 := ldrb m r0 r2 in
      let r3 := eors v r3 in
      if negb (r3 =? 0) then Ret (L_found r2 r3)
      else
        let r2 := (r2 + 8)%nat in
        if (r2 <? r1)%nat then find_bytes v fuel m r0 r1 r2 else Ret r1
  end.

Definition find_first (v : bool) (m : mem) (r0 : addr) (r1 : nat) : outcome nat :=
  if (r1 =? 0)%nat then Ret r1 else find_bytes v (S r1) m r0 r1 0.

Definition find_next (v : bool) (m : mem) (r0 : addr) (r1 r2 : nat) : outcome nat :=
  if (r1 =? 0)%nat then Ret r1
  else
    let ip := (r2 mod 8)%nat in
    if (ip =? 0)%nat then find_bytes v (S r1) m r0 r1 r2
    else
      let! r3 := ldrb m r0 r2 in
      let r3 := Z.shiftr (eors v r3) (Z.of_nat ip) in
      if negb (r3 =? 0) then Ret (L_found r2 r3)
      else
        let r2 := (8 * (r2 / 8) + 7 + 1)%nat in
        if (r2 <? r1)%nat then find_bytes v (S r1) m r0 r1 r2 else Ret r1.

Definition _find_first_zero_bit_le : mem -> addr -> nat -> outcome nat := find_first false.
Definition _find_next_zero_bit_le : mem -> addr -> nat -> nat -> outcome nat := find_next false.
Definition _find_first_bit_le : mem -> addr -> nat -> outcome nat := find_first true.
Definition _find_next_bit_le : mem -> addr -> nat -> nat -> outcome nat := find_next true.

(** ** What a search promises

    [r] is the first bit with value [v] from [off] on; beyond the size it
    only says that there is none. *)
Definition finds (v : bool) (m : mem) (p : addr) (size off r : nat) : Prop :=
  (off <= r)%nat /\
  (forall i, (off <= i < r)%nat -> (i < size)%nat -> bit m p i = negb v) /\
  ((r < size)%nat -> bit m p r = v).

(** The byte at [off] can be read: a search from [size] looks at it when
    [size] is a multiple of 8. *)
Definition readable (m : mem) (p : addr) (off : nat) : Prop := (p + off / 32 < length m)%nat.

Class FindBit := {
  find_first_bit : mem -> addr -> nat -> outcome nat;
  find_next_bit : mem -> addr -> nat -> nat -> outcome nat;
  find_first_bit_finds m p size :
    bitmap_ok m p size ->
    exists r, find_first_bit m p size = Ret r /\ finds true m p size 0 r;
  find_next_bit_finds m p size off :
    bitmap_ok m p size -> (off <= size)%nat -> readable m p off ->
    exists r, find_next_bit m p size off = Ret r /\ finds true m p size off r }.

(** ** The bits of a byte *)

Lemma L_found_spec r2 x :
  is_byte x -> x <> 0 ->
  exists k, L_found r2 x = (r2 + k)%nat /\ (k < 8)%nat /\ Z.testbit x (Z.of_nat k) = true /\
    forall j, (j < k)%nat -> Z.testbit x (Z.of_nat j) = false.
Proof.
  intros Hx Hnz.
  assert (Hr : L_found r2 x = (r2 + L_found 0 x)%nat).
  { unfold L_found. destruct (Z.land x 15 =? 0); cbv beta iota; destruct (Z.land _ 48 =? 0); cbv beta iota;
      destruct (Z.land _ 64 =? 0); lia. }
  exists (L_found 0 x). split; [done|]. clear Hr.
  assert (H : (x =? 0) || ((L_found 0 x <? 8)%nat && Z.testbit x (Z.of_nat (L_found 0 x)) &&
    forallb (fun j => negb (Z.testbit x (Z.of_nat j))) (seq 0 (L_found 0 x))) = true).
  { clear Hnz. revert x Hx. by_bytes (fun x => (x =? 0) || ((L_found 0 x <? 8)%nat &&
      Z.testbit x (Z.of_nat (L_found 0 x)) &&
      forallb (fun j => negb (Z.testbit x (Z.of_nat j))) (seq 0 (L_found 0 x)))). }
  rewrite (proj2 (Z.eqb_neq _ _) Hnz) in H. cbn [orb] in H.
  apply andb_true_iff in H as [[Hl Hb]%andb_true_iff Hf]. apply Nat.ltb_lt in Hl.
  split_and!; [done..|]. intros j Hj. rewrite forallb_forall in Hf.
  apply negb_true_iff, Hf, in_seq. lia.
Qed.

Lemma byte_of_bit i : (8 * (i / 8) + i mod 8 = i /\ i mod 8 < 8 /\ i / 8 / 4 = i / 32 /\
  (i / 8) mod 4 = i mod 32 / 8)%nat.
Proof.
  pose proof (Nat.div_mod_eq i 8). pose proof (Nat.mod_upper_bound i 8).
  rewrite Nat.Div0.div_div. change (8 * 4)%nat with 32%nat. split_and!; [lia..|done|].
  pose proof (Nat.Div0.mod_mul_r i 8 4) as E. change (8 * 4)%nat with 32%nat in E. rewrite E.
  apply (Nat.div_unique _ 8 _ (i mod 8)); lia.
Qed.

Lemma ldrb_spec m p i :
  Forall is_u32 m -> readable m p i ->
  exists x, ldrb m p i = Ret x /\ is_byte x /\
    forall v j, (j < 8)%nat -> Z.testbit (eors v x) (Z.of_nat j) = Bool.eqb (bit m p (8 * (i / 8) + j)) v.
Proof.
  intros Hm Hr. unfold ldrb. rewrite nth_load by done. eexists. split; [done|].
  set (x := Z.land _ _).
  assert (Hx : forall j, (j < 8)%nat -> Z.testbit x (Z.of_nat j) = bit m p (8 * (i / 8) + j)).
  { intros j Hj. unfold x. change 255 with (Z.ones 8).
    rewrite Z.land_spec, Z.shiftr_spec, ones_testbit by lia.
    destruct (Z.ltb_spec (Z.of_nat j) 8); [|lia]. rewrite andb_true_r, <-Nat2Z.inj_add. unfold bit.
    destruct (byte_of_bit i) as (Hi & Hi8 & H32 & H4). destruct (div_mod_32 i) as [Hd Hl].
    pose proof (Nat.div_mod_eq (i mod 32) 8). pose proof (Nat.mod_upper_bound (i mod 32) 8).
    assert (8 * (i / 8) + j = 32 * (i / 32) + (8 * (i mod 32 / 8) + j))%nat as ->.
    { pose proof (Nat.div_mod_eq (i / 8) 4) as E. rewrite H32, H4 in E. lia. }
    assert (i mod 32 / 8 < 4)%nat by (apply Nat.Div0.div_lt_upper_bound; lia).
    rewrite div_32_add, mod_32_add by lia. rewrite H4. f_equal. f_equal. lia. }
  split.
  - unfold x, word. change 255 with (Z.ones 8). rewrite Z.land_ones by lia. apply Z.mod_pos_bound. lia.
  - intros v j Hj. unfold eors. destruct v; [|rewrite Z.lxor_spec; change 255 with (Z.ones 8);
      rewrite ones_testbit by lia; destruct (Z.ltb_spec (Z.of_nat j) 8); [|lia]].
    + rewrite Hx by done. by destruct (bit m p _).
    + rewrite Hx by done. by destruct (bit m p _).
Qed.

(** A byte without a bit of the value searched. *)
Lemma byte_zero_bits x : is_byte x -> x = 0 <-> forall j, (j < 8)%nat -> Z.testbit x (Z.of_nat j) = false.
Proof.
  intros Hx. split; [intros -> j _; apply Z.testbit_0_l|]. intros H. apply Z.bits_inj'. intros i Hi.
  rewrite Z.testbit_0_l. destruct (decide (i < 8)).
  - specialize (H (Z.to_nat i)). rewrite Z2Nat.id in H by done. apply H. lia.
  - apply (word_testbit_high 8); [lia|done|lia].
Qed.

Lemma eors_byte v x : is_byte x -> is_byte (eors v x).
Proof. intros Hx. destruct v; [done|]. apply word_lxor; [lia|done|unfold word; lia]. Qed.

Lemma eqb_negb_iff b v : Bool.eqb b v = false <-> b = negb v.
Proof. by destruct b, v. Qed.

(** ** The searches find *)

Section Search.
Context (v : bool) (m : mem) (p : addr) (size : nat).
Context (Hok : bitmap_ok m p size).

Lemma size_readable i : (i < size)%nat -> readable m p i.
Proof. intros Hi. destruct Hok as [_ Hl]. pose proof (last_word_index size i Hi). unfold readable. lia. Qed.

(** A byte examined from bit [ip] on: a bit found, or none in the byte. *)
Lemma byte_found off x ip :
  (ip = off mod 8)%nat -> is_byte x ->
  (forall j, (j < 8)%nat -> Z.testbit x (Z.of_nat j) = Bool.eqb (bit m p (8 * (off / 8) + j)) v) ->
  let y := Z.shiftr x (Z.of_nat ip) in
  if y =? 0 then forall i, (off <= i < 8 * (off / 8) + 8)%nat -> bit m p i = negb v
  else finds v m p size off (L_found off y).
Proof.
  intros Hip Hx Hb y. destruct (byte_of_bit off) as (Ho & Ho8 & _). rewrite <-Hip in Ho, Ho8.
  assert (Hy : is_byte y) by (apply word_shiftr; try lia; done).
  assert (Hyb : forall j, (j + ip < 8)%nat -> Z.testbit y (Z.of_nat j) = Bool.eqb (bit m p (off + j)) v).
  { intros j Hj. unfold y. rewrite Z.shiftr_spec, <-Nat2Z.inj_add, Hb by lia.
    by replace (8 * (off / 8) + (j + ip))%nat with (off + j)%nat by lia. }
  destruct (Z.eqb_spec y 0) as [E|E].
  - intros i Hi. apply eqb_negb_iff. specialize (Hyb (i - off)%nat ltac:(lia)).
    rewrite E, Z.testbit_0_l in Hyb. rewrite Hyb. do 2 f_equal. lia.
  - destruct (L_found_spec off y Hy E) as (k & -> & Hk & Hkb & Hlow).
    assert (Hk8 : (k + ip < 8)%nat).
    { destruct (decide (k + ip < 8)%nat); [done|]. unfold y in Hkb.
      rewrite Z.shiftr_spec in Hkb by lia.
      rewrite (word_testbit_high 8 x) in Hkb; [done|lia|done|lia]. }
    split; [lia|]. split.
    + intros i Hi _. apply eqb_negb_iff. specialize (Hyb (i - off)%nat ltac:(lia)).
      rewrite Hlow in Hyb by lia. rewrite Hyb. do 2 f_equal. lia.
    + intros _. rewrite Hyb in Hkb by done. by apply eqb_prop.
Qed.

Lemma find_bytes_spec fuel r2 :
  (r2 mod 8 = 0)%nat -> readable m p r2 -> (size < r2 + 8 * fuel)%nat -> (0 < fuel)%nat ->
  exists r, find_bytes v fuel m p size r2 = Ret r /\
    (finds v m p size r2 r \/ r = size /\ forall i, (r2 <= i < size)%nat -> bit m p i = negb v).
Proof.
  destruct Hok as [Hm _]. revert r2. induction fuel as [|fuel IH]; intros r2 H8 Hr Hf H0; [lia|]. cbn [find_bytes].
  destruct (ldrb_spec m p r2 Hm Hr) as (x & -> & Hx & Hb).
  pose proof (byte_found r2 (eors v x) 0 ltac:(lia) (eors_byte v x Hx) (Hb v)) as Hfound.
  cbv zeta in Hfound. change (Z.of_nat 0) with 0 in Hfound. rewrite Z.shiftr_0_r in Hfound.
  destruct (byte_of_bit r2) as (Hd & _).
  destruct (Z.eqb_spec (eors v x) 0); cbn [negb]; [|by eexists; split; [|left]].
  destruct (Nat.ltb_spec (r2 + 8) size) as [Hlt|Hge].
  - destruct (IH (r2 + 8)%nat) as (r & -> & Hres).
    + rewrite <-Nat.Div0.add_mod_idemp_l, H8. done.
    + by apply size_readable.
    + lia.
    + lia.
    + exists r. split; [done|]. destruct Hres as [(Hle & Hn & Hv)|[-> Hn]]; [left|right].
      * split; [lia|]. split; [|done]. intros i Hi Hs.
        destruct (decide (i < r2 + 8)%nat); [apply Hfound; lia|]. apply Hn; lia.
      * split; [done|]. intros i Hi. destruct (decide (i < r2 + 8)%nat); [apply Hfound; lia|]. apply Hn; lia.
  - exists size. split; [done|]. right. split; [done|]. intros i Hi. apply Hfound. lia.
Qed.

(** A search that ran out of bytes. *)
Lemma finds_none off r :
  (off <= size)%nat -> finds v m p size off r \/
    r = size /\ (forall i, (off <= i < size)%nat -> bit m p i = negb v) ->
  finds v m p size off r.
Proof. intros Ho [?|[-> Hn]]; [done|]. split; [done|]. split; [intros; by apply Hn|lia]. Qed.

Lemma find_first_spec : exists r, find_first v m p size = Ret r /\ finds v m p size 0 r.
Proof.
  unfold find_first. destruct (Nat.eqb_spec size 0) as [E|E].
  - exists size. split; [done|]. split; [lia|]. split; lia.
  - destruct (find_bytes_spec (S size) 0) as (r & -> & Hr); [done|apply size_readable; lia|lia..|].
    exists r. split; [done|]. apply finds_none; [lia|done].
Qed.

Lemma find_next_spec off :
  (off <= size)%nat -> readable m p off ->
  exists r, find_next v m p size off = Ret r /\ finds v m p size off r.
Proof.
  intros Ho Hr. unfold find_next. destruct (Nat.eqb_spec size 0) as [E|E].
  { exists size. split; [done|]. split; [lia|]. split; lia. }
  destruct (Nat.eqb_spec (off mod 8) 0) as [E8|E8].
  { destruct (find_bytes_spec (S size) off) as (r & -> & Hres); [done..|lia|lia|].
    exists r. split; [done|]. by apply finds_none. }
  pose proof Hok as [Hm _]. destruct (ldrb_spec m p off Hm Hr) as (x & -> & Hx & Hb).
  pose proof (byte_found off (eors v x) _ eq_refl (eors_byte v x Hx) (Hb v)) as Hfound. cbv zeta in Hfound.
  destruct (byte_of_bit off) as (Hd & H8 & _).
  destruct (Z.eqb_spec (Z.shiftr (eors v x) (Z.of_nat (off mod 8))) 0); cbn [negb];
    [|by eexists; split; [|exact Hfound]].
  set (r2 := (8 * (off / 8) + 7 + 1)%nat). destruct (Nat.ltb_spec r2 size) as [Hlt|Hge].
  - destruct (find_bytes_spec (S size) r2) as (r & -> & Hres).
    + unfold r2. rewrite <-Nat.add_assoc, Nat.mul_comm, <-Nat.Div0.add_mod_idemp_l, Nat.Div0.mod_mul. done.
    + by apply size_readable.
    + lia.
    + lia.
    + exists r. split; [done|]. apply finds_none in Hres; [|lia]. destruct Hres as (Hle & Hn & Hv).
      split; [lia|]. split; [|done]. intros i Hi Hs.
      destruct (decide (i < r2)%nat); [apply Hfound; lia|]. apply Hn; lia.
  - exists size. split; [done|]. split; [done|]. split; [|lia]. intros i Hi _. apply Hfound. lia.
Qed.
End Search.

(** The little-endian searches of the ARM port. *)
#[export] Instance arm_find_bit : FindBit := {|
  find_first_bit := _find_first_bit_le;
  find_next_bit := _find_next_bit_le;
  find_first_bit_finds m p size H := find_first_spec true m p size H;
  find_next_bit_finds m p size off H := find_next_spec true m p size H off |}.

(** (bit searches): for set and for clear bits, the first one from the start
    or from an offset is found; without one the result is not below the size. *)
Theorem findbit_correct v m p size off :
  bitmap_ok m p size -> (off <= size)%nat -> readable m p off ->
  exists r r', find_first v m p size = Ret r /\ finds v m p size 0 r /\
    find_next v m p size off = Ret r' /\ finds v m p size off r'.
Proof.
  intros Hok Ho Hr. destruct (find_first_spec v m p size Hok) as (r & ? & ?).
  destruct (find_next_spec v m p size Hok off Ho Hr) as (r' & ? & ?). by exists r, r'.
Qed.

Lemma findbit_correct_witness :
  exists r r', find_first false bm_demo 0 40 = Ret r /\ finds false bm_demo 0 40 0 r /\
    find_next false bm_demo 0 40 5 = Ret r' /\ finds false bm_demo 0 40 5 r'.
Proof.
  apply (findbit_correct false bm_demo 0 40 5); [apply bm_demo_ok; lia|lia|apply Nat.ltb_lt; reflexivity].
Defined.

(** The search from the size reads one byte after the bitmap when the size is
    a multiple of 8. *)
Example find_next_reads_on : _find_next_bit_le [0xFF] 0 32 32 = Err Fault.
Proof. reflexivity. Qed.
