(* ===== verification/BitmapMap.v ===== *)
(** * Remapping bitmaps (kernel lib/bitmap.c)

    The routines that number the set bits of a bitmap and that carry one
    bitmap over to another by these numbers.  They are proved against the
    interface [FindBit] of the searches.  Bit positions are naturals; [pos]
    and [ord] are the signed numbers of the code. *)

From S2P Require Import Prelude CMem Bitmap Findbit.

(** [(p[nr >> 5] >> (nr & 31)) & 1] *)
Definition test_bit (m : mem) (nr : nat) (p : addr) : outcome bool :=
  let! w := load m (p + nr / 32) in
  Ret (negb (Z.land (Z.shiftr w (Z.of_nat (nr mod 32))) 1 =? 0)).

Definition bitmap_weight : mem -> addr -> nat -> outcome Z := __bitmap_weight.

Section Routines.
Context `{FindBit}.

Fixpoint pos_to_ord_loop (fuel : nat) (m : mem) (buf : addr) (bits i pos : nat) (ord : Z) :
    outcome (nat * Z) :=
  if (i <? pos)%nat then
    match fuel with
    | O => Err Diverge
    | S fuel =>
        let! i := find_next_bit m buf bits (S i) in pos_to_ord_loop fuel m buf bits i pos (ord + 1)
    end
  else Ret (i, ord).

Definition bitmap_pos_to_ord (m : mem) (buf : addr) (pos : Z) (bits : nat) : outcome Z :=
  if (pos <? 0) || (Z.of_nat bits <=? pos) then Ret (-1)
  else
    let pos := Z.to_nat pos in
    let! t := test_bit m pos buf in
    if negb t then Ret (-1)
    else
      let! i := find_first_bit m buf bits in
      let! (i, ord) := pos_to_ord_loop bits m buf bits i pos 0 in
      if negb (i =? pos)%nat then Err Bug else Ret ord.

Fixpoint ord_to_pos_loop (fuel : nat) (m : mem) (buf : addr) (bits i : nat) (ord : Z) :
    outcome (nat * Z) :=
  if (i <? bits)%nat && (0 <? ord) then
    match fuel with
    | O => Err Diverge
    | S fuel =>
        let! i := find_next_bit m buf bits (S i) in ord_to_pos_loop fuel m buf bits i (ord - 1)
    end
  else Ret (i, ord).

Definition bitmap_ord_to_pos (m : mem) (buf : addr) (ord : Z) (bits : nat) : outcome nat :=
  if (0 <=? ord) && (ord <? Z.of_nat bits) then
    let! i := find_first_bit m buf bits in
    let! (i, ord) := ord_to_pos_loop bits m buf bits i ord in
    Ret (if (i <? bits)%nat && (ord =? 0) then i else 0%nat)
  else Ret 0%nat.

Fixpoint remap_loop (fuel : nat) (m : mem) (dst src old new : addr) (bits : nat) (w : Z) (oldbit : nat) :
    outcome mem :=
  if (bits <=? oldbit)%nat then Ret m
  else
    match fuel with
    | O => Err Diverge
    | S fuel =>
        let! n := bitmap_pos_to_ord m old (Z.of_nat oldbit) bits in
        let! m :=
          (if (n <? 0) || (w =? 0) then set_bit m oldbit dst
           else let! j := bitmap_ord_to_pos m new (Z.rem n w) bits in set_bit m j dst) in
        let! oldbit := find_next_bit m src bits (S oldbit) in
        remap_loop fuel m dst src old new bits w oldbit
    end.

Definition bitmap_remap (m : mem) (dst src old new : addr) (bits : nat) : outcome mem :=
  if (dst =? src)%nat then Ret m
  else
    let! m := bitmap_zero m dst bits in
    let! w := bitmap_weight m new bits in
    let! oldbit := find_first_bit m src bits in
    remap_loop bits m dst src old new bits w oldbit.

Definition bitmap_bitremap (m : mem) (oldbit : Z) (old new : addr) (bits : nat) : outcome Z :=
  let! w := bitmap_weight m new bits in
  let! n := bitmap_pos_to_ord m old oldbit bits in
  if (n <? 0) || (w =? 0) then Ret oldbit
  else let! j := bitmap_ord_to_pos m new (Z.rem n w) bits in Ret (Z.of_nat j).
End Routines.

(** ** Numbering the set bits *)

(** The set bits below [i], and bit [i] being the [n]-th set bit. *)
Definition rank (m : mem) (p : addr) (i : nat) : Z := set_bits m p 0 i.
Definition nth_set (m : mem) (p : addr) (bits : nat) (n : Z) (i : nat) : Prop :=
  (i < bits)%nat /\ bit m p i = true /\ rank m p i = n.

Lemma rank_S m p i : rank m p (S i) = rank m p i + b2z (bit m p i).
Proof.
  unfold rank. replace (S i) with (i + 1)%nat by lia. rewrite set_bits_add. unfold set_bits at 2. simpl. lia.
Qed.

Lemma rank_mono m p i j : (i <= j)%nat -> rank m p i <= rank m p j.
Proof.
  induction 1 as [|j Hj IH]; [done|]. rewrite rank_S. unfold b2z. destruct (bit m p j); lia.
Qed.

Lemma rank_nonneg m p i : 0 <= rank m p i.
Proof. apply (rank_mono m p 0). lia. Qed.

Lemma rank_le m p i : rank m p i <= Z.of_nat i.
Proof.
  induction i as [|i IH]; [done|]. rewrite rank_S. unfold b2z. destruct (bit m p i); lia.
Qed.

Lemma rank_lt m p i j : (i < j)%nat -> bit m p i = true -> rank m p i < rank m p j.
Proof.
  intros Hij Hb. pose proof (rank_mono m p (S i) j ltac:(lia)) as Hm. rewrite rank_S, Hb in Hm. simpl in Hm. lia.
Qed.

Lemma nth_set_inj m p bits n i j : nth_set m p bits n i -> nth_set m p bits n j -> i = j.
Proof.
  intros (_ & Hi & Hri) (_ & Hj & Hrj). destruct (Nat.lt_trichotomy i j) as [Hl|[?|Hl]]; [|done|].
  - pose proof (rank_lt m p i j Hl Hi). lia.
  - pose proof (rank_lt m p j i Hl Hj). lia.
Qed.

(** Clear bits do not count. *)
Lemma rank_clear m p i j :
  (i <= j)%nat -> (forall k, (i <= k < j)%nat -> bit m p k = false) -> rank m p j = rank m p i.
Proof.
  induction 1 as [|j Hj IH]; intros Hc; [done|]. rewrite rank_S, (Hc j) by lia. simpl.
  rewrite Z.add_0_r. apply IH. intros k Hk. apply Hc. lia.
Qed.

(** The rank at the next set bit. *)
Lemma rank_next m p bits off r :
  finds true m p bits off r -> (r <= bits)%nat -> rank m p r = rank m p off.
Proof. intros (Hle & Hc & _) Hr. apply rank_clear; [done|]. intros k Hk. apply Hc; lia. Qed.

Lemma rank_end m p bits off r :
  finds true m p bits off r -> (off <= bits)%nat -> (bits <= r)%nat -> rank m p bits = rank m p off.
Proof. intros (Hle & Hc & _) Ho Hr. apply rank_clear; [done|]. intros k Hk. apply Hc; lia. Qed.

Lemma rank_ext m m' p i : (forall k, (k < i)%nat -> bit m' p k = bit m p k) -> rank m' p i = rank m p i.
Proof.
  induction i as [|i IH]; intros Hk; [done|]. rewrite !rank_S, IH by (intros; apply Hk; lia). by rewrite Hk by lia.
Qed.

Lemma test_bit_spec m p bits i :
  bitmap_ok m p bits -> (i < bits)%nat -> test_bit m i p = Ret (bit m p i).
Proof.
  intros [Hm Hl] Hi. pose proof (last_word_index bits i Hi). unfold test_bit. rewrite nth_load by lia.
  f_equal. unfold bit. change 1 with (Z.ones 1). rewrite Z.land_ones by lia.
  rewrite <-Z.bit0_mod, Z.shiftr_spec, Z.add_0_l by lia. by destruct (Z.testbit _ _).
Qed.

Lemma ok_readable m p bits i : bitmap_ok m p bits -> (i < bits)%nat -> readable m p i.
Proof. intros [_ Hl] Hi. pose proof (last_word_index bits i Hi). unfold readable. lia. Qed.

Section Specs.
Context `{FindBit}.

(** *** From position to number *)

Lemma pos_to_ord_loop_spec fuel m p bits i pos :
  bitmap_ok m p bits -> (pos < bits)%nat -> bit m p pos = true ->
  (i <= pos)%nat -> bit m p i = true -> (pos - i <= fuel)%nat ->
  pos_to_ord_loop fuel m p bits i pos (rank m p i) = Ret (pos, rank m p pos).
Proof.
  intros Hok Hp Hbp. revert i. induction fuel as [|fuel IH]; intros i Hi Hbi Hf; cbn [pos_to_ord_loop].
  all: destruct (Nat.ltb_spec i pos); [|by replace i with pos by lia]. { lia. }
  destruct (find_next_bit_finds m p bits (S i) Hok) as (r & -> & Hfind); [lia|apply (ok_readable m p bits); [done|lia]|].
  assert (Hr : (r <= pos)%nat).
  { destruct Hfind as (Hle & Hc & _). destruct (decide (r <= pos)%nat); [done|].
    specialize (Hc pos). rewrite Hbp in Hc. discriminate Hc; lia. }
  replace (rank m p i + 1) with (rank m p r).
  - apply IH; [done| |destruct Hfind; lia]. apply Hfind. lia.
  - rewrite (rank_next m p bits (S i) r Hfind), rank_S, Hbi by lia. done.
Qed.

(** The number of a set bit is its rank; there is none for a clear bit or a
    position outside of the bitmap. *)
Lemma pos_to_ord_spec m p bits (pos : Z) :
  bitmap_ok m p bits ->
  bitmap_pos_to_ord m p pos bits =
    Ret (if bool_decide (0 <= pos < Z.of_nat bits) && bit m p (Z.to_nat pos)
         then rank m p (Z.to_nat pos) else -1).
Proof.
  intros Hok. unfold bitmap_pos_to_ord.
  destruct (Z.ltb_spec pos 0); [by rewrite bool_decide_false by lia|].
  destruct (Z.leb_spec (Z.of_nat bits) pos); [by rewrite bool_decide_false by lia|].
  rewrite bool_decide_true by lia. cbn [orb andb]. set (i := Z.to_nat pos).
  rewrite (test_bit_spec m p bits) by (done || lia).
  destruct (bit m p i) eqn:Hb; cbn [negb]; [|done].
  destruct (find_first_bit_finds m p bits Hok) as (r & -> & Hfind).
  assert (Hr : (r <= i)%nat).
  { destruct Hfind as (_ & Hc & _). destruct (decide (r <= i)%nat); [done|].
    specialize (Hc i). rewrite Hb in Hc. discriminate Hc; lia. }
  replace 0 with (rank m p r) by (rewrite (rank_next m p bits 0 r Hfind); [done|lia]).
  rewrite pos_to_ord_loop_spec; [by rewrite Nat.eqb_refl|done|lia|done..|apply Hfind; lia|lia].
Qed.

(** *** From number to position *)

Lemma ord_to_pos_loop_spec fuel m p bits i n :
  bitmap_ok m p bits -> (i < bits)%nat -> bit m p i = true ->
  rank m p i <= n < rank m p bits -> (bits - i <= fuel)%nat ->
  exists j, ord_to_pos_loop fuel m p bits i (n - rank m p i) = Ret (j, 0) /\ nth_set m p bits n j.
Proof.
  intros Hok. revert i. induction fuel as [|fuel IH]; intros i Hi Hb Hn Hf; [lia|]. cbn [ord_to_pos_loop].
  destruct (Nat.ltb_spec i bits); [|lia]. destruct (Z.ltb_spec 0 (n - rank m p i)); cbn [andb].
  2: { exists i. split; [do 2 f_equal; lia|]. split_and!; [done..|lia]. }
  destruct (find_next_bit_finds m p bits (S i) Hok) as (r & -> & Hfind); [lia| |].
  { destruct (decide (S i < bits)%nat); [by apply (ok_readable m p bits)|].
    assert (bits = S i) as -> by lia. rewrite rank_S, Hb in Hn. simpl in Hn. lia. }
  assert (Hr : (r < bits)%nat).
  { destruct (decide (r < bits)%nat); [done|].
    pose proof (rank_end m p bits (S i) r Hfind ltac:(lia) ltac:(lia)) as E. rewrite rank_S, Hb in E. simpl in E. lia. }
  pose proof (rank_next m p bits (S i) r Hfind ltac:(lia)) as E. rewrite rank_S, Hb in E. simpl in E.
  replace (n - rank m p i - 1) with (n - rank m p r) by lia.
  apply IH; [done|by apply Hfind|lia|destruct Hfind; lia].
Qed.

Lemma ord_to_pos_spec m p bits n :
  bitmap_ok m p bits -> 0 <= n < rank m p bits ->
  exists j, bitmap_ord_to_pos m p n bits = Ret j /\ nth_set m p bits n j.
Proof.
  intros Hok Hn. unfold bitmap_ord_to_pos. pose proof (rank_le m p bits).
  destruct (Z.leb_spec 0 n), (Z.ltb_spec n (Z.of_nat bits)); try lia. cbn [andb].
  destruct (find_first_bit_finds m p bits Hok) as (r & -> & Hfind).
  assert (Hr : (r < bits)%nat).
  { destruct (decide (r < bits)%nat); [done|].
    pose proof (rank_end m p bits 0 r Hfind ltac:(lia) ltac:(lia)) as E. change (rank m p 0) with 0 in E. lia. }
  pose proof (rank_next m p bits 0 r Hfind ltac:(lia)) as E. change (rank m p 0) with 0 in E.
  destruct (ord_to_pos_loop_spec bits m p bits r n Hok Hr) as (j & Hj & Hnth); [by apply Hfind|lia|lia|].
  rewrite E, Z.sub_0_r in Hj. rewrite Hj. exists j. split; [|done]. destruct Hnth as [Hlt _].
  destruct (Nat.ltb_spec j bits); [done|lia].
Qed.
End Specs.

(** ** The map of bit positions *)

(** Position [i] goes to [j]: the [n]-th bit of [old] to the [n mod w]-th of
    [new], other positions to themselves. *)
Definition maps_to (m : mem) (old new : addr) (bits i j : nat) : Prop :=
  let w := rank m new bits in
  if bit m old i && negb (w =? 0) then nth_set m new bits (rank m old i mod w) j else j = i.

Lemma maps_to_lt m old new bits i j : maps_to m old new bits i j -> (i < bits)%nat -> (j < bits)%nat.
Proof. unfold maps_to. cbv zeta. case_match; [by intros [? _]|by intros ->]. Qed.

Lemma maps_to_inj m old new bits i j k :
  maps_to m old new bits i j -> maps_to m old new bits i k -> j = k.
Proof. unfold maps_to. cbv zeta. case_match; [apply nth_set_inj|congruence]. Qed.

Section Bitremap.
Context `{FindBit}.

(** (bit map): [bitmap_bitremap] computes the map; a position outside of the
    bitmap is not changed. *)
Theorem bitmap_bitremap_correct m old new bits oldbit :
  bitmap_ok m old bits -> bitmap_ok m new bits ->
  exists j, bitmap_bitremap m oldbit old new bits = Ret j /\
    if bool_decide (0 <= oldbit < Z.of_nat bits)
    then 0 <= j /\ maps_to m old new bits (Z.to_nat oldbit) (Z.to_nat j) else j = oldbit.
Proof.
  intros Ho Hn. unfold bitmap_bitremap, bitmap_weight. rewrite bitmap_weight_correct by done.
  rewrite pos_to_ord_spec by done. change (set_bits m new 0 bits) with (rank m new bits).
  case_bool_decide as Hr; cbn [andb]; [|by eexists; split; [reflexivity|]].
  unfold maps_to. destruct (bit m old (Z.to_nat oldbit)) eqn:Hb; cbn [andb].
  - pose proof (rank_nonneg m old (Z.to_nat oldbit)) as H0. pose proof (rank_nonneg m new bits) as Hw.
    destruct (Z.ltb_spec (rank m old (Z.to_nat oldbit)) 0); [lia|].
    destruct (Z.eqb_spec (rank m new bits) 0); cbn [orb negb]; [by exists oldbit; split_and!; [|lia|]|].
    rewrite Z.rem_mod_nonneg by lia.
    destruct (ord_to_pos_spec m new bits (rank m old (Z.to_nat oldbit) mod rank m new bits) Hn) as (j & -> & Hj).
    + apply Z.mod_pos_bound. lia.
    + exists (Z.of_nat j). split; [done|]. split; [lia|]. by rewrite Nat2Z.id.
  - cbn. exists oldbit. split; [done|]. split; [lia|done].
Qed.
End Bitremap.

Lemma bitmap_bitremap_correct_witness :
  exists j, bitmap_bitremap bm_demo 5 0 2 40 = Ret j /\
    if bool_decide (0 <= 5 < Z.of_nat 40)
    then 0 <= j /\ maps_to bm_demo 0 2 40 (Z.to_nat 5) (Z.to_nat j) else j = 5.
Proof. apply (bitmap_bitremap_correct bm_demo 0 2 40 5); apply bm_demo_ok; lia. Defined.

(** ** Remapping a bitmap *)

(** [m'] differs from [m] in the [n] words from [dst] on only. *)
Definition outside (dst : addr) (n : nat) (m m' : mem) : Prop :=
  length m' = length m /\ forall k, (k < dst \/ dst + n <= k)%nat -> m' !! k = m !! k.

Definition disjoint (a b n : nat) : Prop := (a + n <= b \/ b + n <= a)%nat.

Lemma outside_refl dst n m : outside dst n m m.
Proof. done. Qed.

Lemma outside_trans dst n m1 m2 m3 : outside dst n m1 m2 -> outside dst n m2 m3 -> outside dst n m1 m3.
Proof. intros [Hl H] [Hl' H']. split; [congruence|]. intros k Hk. by rewrite H', H. Qed.

Lemma outside_bit dst bits m m' q i :
  outside dst (BITS_TO_LONGS bits) m m' -> disjoint dst q (BITS_TO_LONGS bits) -> (i < bits)%nat ->
  bit m' q i = bit m q i.
Proof.
  intros [_ Ho] Hd Hi. pose proof (last_word_index bits i Hi). unfold bit.
  rewrite (same_nth m m'); [done|]. apply Ho. unfold disjoint in Hd. lia.
Qed.

Lemma outside_rank dst bits m m' q i :
  outside dst (BITS_TO_LONGS bits) m m' -> disjoint dst q (BITS_TO_LONGS bits) -> (i <= bits)%nat ->
  rank m' q i = rank m q i.
Proof. intros Ho Hd Hi. apply rank_ext. intros k Hk. apply (outside_bit dst bits); [done..|lia]. Qed.

Lemma outside_inserts dst m ws : outside dst (length ws) m (list_inserts dst ws m).
Proof.
  split; [apply length_inserts|]. intros k Hk. rewrite lookup_inserts_dec, decide_False by lia. done.
Qed.

Lemma set_bit_outside m p bits nr m' :
  (nr < bits)%nat -> set_bit m nr p = Ret m' -> outside p (BITS_TO_LONGS bits) m m'.
Proof.
  intros Hn. pose proof (last_word_index bits nr Hn). unfold set_bit, load, store.
  set (a := (p + nr / 32)%nat). assert (a = p + nr / 32)%nat as Ha by done. clearbody a.
  destruct (m !! a); [|done]. case_bool; [|done]. intros [= <-]. split; [by rewrite length_insert|].
  intros k Hk. apply list_lookup_insert_ne. lia.
Qed.

Lemma zeroed_ok m p bits :
  bitmap_ok m p bits -> (0 < bits)%nat ->
  exists m', bitmap_zero m p bits = Ret m' /\ bitmap_ok m' p bits /\ outside p (BITS_TO_LONGS bits) m m' /\
    forall i, (i < bits)%nat -> bit m' p i = false.
Proof.
  intros Hok Hb. rewrite bitmap_zero_spec by done. destruct Hok as [Hm Hl]. eexists. split; [done|]. split_and!.
  - split; [|by rewrite length_inserts]. apply Forall_lookup. intros i x.
    rewrite lookup_inserts_dec. case_decide; [|by apply Forall_lookup_1].
    intros [-> _]%lookup_replicate. unfold word. lia.
  - rewrite <-(length_replicate (BITS_TO_LONGS bits) 0) at 1. apply outside_inserts.
  - intros i Hi. apply bit_replicate_0; [done|]. by apply last_word_index.
Qed.

Section Remap.
Context `{FindBit} (m0 : mem) (dst src old new : addr) (bits : nat).
Let n : nat := BITS_TO_LONGS bits.
Context (Hdst : bitmap_ok m0 dst bits) (Hsrc : bitmap_ok m0 src bits).
Context (Hold : bitmap_ok m0 old bits) (Hnew : bitmap_ok m0 new bits).
Context (Dsrc : disjoint dst src n) (Dold : disjoint dst old n) (Dnew : disjoint dst new n).

(** The memory in the middle of the loop. *)
Definition during (m : mem) : Prop := outside dst n m0 m /\ bitmap_ok m dst bits.

Lemma during_ok m q : during m -> bitmap_ok m0 q bits -> bitmap_ok m q bits.
Proof. intros [[Hl _] [Hm _]] [_ Hq]. split; [done|]. by rewrite Hl. Qed.

(** One bit of the source: the bit it maps to is set. *)
Lemma remap_bit m i :
  during m -> (i < bits)%nat ->
  exists j m', maps_to m0 old new bits i j /\ during m' /\
    (forall k, bit m' dst k = (k =? j)%nat || bit m dst k) /\
    (let! x := bitmap_pos_to_ord m old (Z.of_nat i) bits in
     if (x <? 0) || (rank m0 new bits =? 0) then set_bit m i dst
     else let! j := bitmap_ord_to_pos m new (Z.rem x (rank m0 new bits)) bits in set_bit m j dst) = Ret m'.
Proof.
  intros Hd Hi. pose proof Hd as [Hout Hok].
  assert (Hset : forall j, (j < bits)%nat -> exists m', set_bit m j dst = Ret m' /\ during m' /\
      forall k, bit m' dst k = (k =? j)%nat || bit m dst k).
  { intros j Hj. destruct (set_bit_spec m dst bits j Hok Hj) as (m' & Hm' & Hok' & _ & Hb).
    exists m'. split; [done|]. split; [|done]. split; [|done].
    eapply outside_trans; [done|]. by eapply set_bit_outside. }
  rewrite pos_to_ord_spec by (by apply during_ok).
  rewrite bool_decide_true, Nat2Z.id by lia. cbn [andb].
  rewrite (outside_bit dst bits m0 m old), (outside_rank dst bits m0 m old) by (done || lia).
  unfold maps_to. cbv zeta. pose proof (rank_nonneg m0 old i). pose proof (rank_nonneg m0 new bits).
  destruct (bit m0 old i); cbn [andb].
  - destruct (Z.ltb_spec (rank m0 old i) 0); [lia|].
    destruct (Z.eqb_spec (rank m0 new bits) 0); cbn [orb negb].
    { destruct (Hset i Hi) as (m' & ? & ? & ?). by exists i, m'. }
    rewrite Z.rem_mod_nonneg by lia.
    destruct (ord_to_pos_spec m new bits (rank m0 old i mod rank m0 new bits)) as (j & -> & Hlt & Hbj & Hrj).
    { by apply during_ok. }
    { rewrite (outside_rank dst bits m0 m new) by (done || lia). apply Z.mod_pos_bound. lia. }
    destruct (Hset j Hlt) as (m' & ? & ? & ?). exists j, m'. split_and!; try done.
    split; [done|]. split.
    + by rewrite <-(outside_bit dst bits m0 m new).
    + rewrite <-(outside_rank dst bits m0 m new); [done..|lia].
  - cbn. destruct (Hset i Hi) as (m' & ? & ? & ?). by exists i, m'.
Qed.

Lemma remap_loop_spec fuel m i :
  readable m0 src bits -> during m -> ((i < bits)%nat -> bit m0 src i = true) -> (bits - i <= fuel)%nat ->
  exists m', remap_loop fuel m dst src old new bits (rank m0 new bits) i = Ret m' /\ during m' /\
    forall k, bit m' dst k = true <-> bit m dst k = true \/
      exists j, (i <= j < bits)%nat /\ bit m0 src j = true /\ maps_to m0 old new bits j k.
Proof.
  intros Hr. revert m i. induction fuel as [|fuel IH]; intros m i Hd Hb Hf; cbn [remap_loop].
  all: destruct (Nat.leb_spec bits i);
    [exists m; split_and!; [done..|]; intros k; split; [by left|intros [?|(j & ? & _)]; [done|lia]]|]. { lia. }
  destruct (remap_bit m i Hd ltac:(done)) as (j & m1 & Hmap & Hd1 & Hset & Heq).
  destruct (bitmap_pos_to_ord m old (Z.of_nat i) bits) as [x|]; [|done]. rewrite Heq.
  destruct (find_next_bit_finds m1 src bits (S i)) as (r & -> & Hle & Hc & Hbr).
  { by apply during_ok. } { lia. }
  { unfold readable in *. destruct Hd1 as [[-> _] _]. pose proof (Nat.Div0.div_le_mono (S i) bits 32). lia. }
  destruct (IH m1 r Hd1) as (m' & -> & Hd' & Hb').
  { intros Hlt. rewrite <-(outside_bit dst bits m0 m1 src) by (apply Hd1 || done). auto. }
  { lia. }
  exists m'. split; [done|]. split; [done|]. intros k. rewrite Hb', Hset, orb_true_iff, Nat.eqb_eq. split.
  - intros [[->|?]|(j' & Hj' & ? & ?)]; [right; exists i; split_and!; auto; lia|by left|].
    right. exists j'. split_and!; auto; lia.
  - intros [?|(j' & Hj' & Hbj & Hm)]; [by left; right|].
    destruct (decide (j' = i)) as [->|Hne].
    { left. left. by eapply maps_to_inj. }
    destruct (decide (r <= j')%nat); [right; exists j'; split_and!; auto; lia|].
    rewrite <-(outside_bit dst bits m0 m1 src) in Hbj by (apply Hd1 || done || lia).
    rewrite Hc in Hbj by lia. done.
Qed.

Lemma remap_spec :
  (0 < bits)%nat -> readable m0 src bits ->
  exists m', bitmap_remap m0 dst src old new bits = Ret m' /\ during m' /\
    forall k, (k < bits)%nat -> bit m' dst k = true <->
      exists j, (j < bits)%nat /\ bit m0 src j = true /\ maps_to m0 old new bits j k.
Proof.
  intros Hb Hr. unfold bitmap_remap, bitmap_weight.
  pose proof (last_word_index bits 0 Hb) as Hn. fold n in Hn. change (0 / 32)%nat with 0%nat in Hn.
  destruct (Nat.eqb_spec dst src) as [E|_]; [unfold disjoint in Dsrc; lia|].
  destruct (zeroed_ok m0 dst bits Hdst Hb) as (m1 & -> & Hok1 & Hout & Hz).
  assert (Hd : during m1) by done.
  rewrite bitmap_weight_correct by (by apply during_ok).
  change (set_bits m1 new 0 bits) with (rank m1 new bits).
  rewrite (outside_rank dst bits m0 m1 new) by (done || lia).
  destruct (find_first_bit_finds m1 src bits) as (r & -> & Hle & Hc & Hbr); [by apply during_ok|].
  destruct (remap_loop_spec bits m1 r Hr Hd) as (m' & -> & Hd' & Hb').
  { intros Hlt. rewrite <-(outside_bit dst bits m0 m1 src) by done. auto. }
  { lia. }
  exists m'. split; [done|]. split; [done|]. intros k Hk. rewrite Hb', Hz by done. split.
  - intros [?|(j & ? & ? & ?)]; [done|]. exists j. split_and!; auto; lia.
  - intros (j & Hj & Hbj & Hm). right. exists j. split_and!; auto.
    destruct (decide (r <= j)%nat); [done|].
    rewrite <-(outside_bit dst bits m0 m1 src) in Hbj by done. rewrite Hc in Hbj by lia. done.
Qed.
End Remap.

(** (remap): for bitmaps apart from the destination, exactly the bits
    that set source bits map to are set in it, and nothing else is written. *)
Theorem bitmap_remap_correct `{FindBit} m dst src old new bits :
  let n := BITS_TO_LONGS bits in
  (0 < bits)%nat ->
  bitmap_ok m dst bits -> bitmap_ok m src bits -> bitmap_ok m old bits -> bitmap_ok m new bits ->
  disjoint dst src n -> disjoint dst old n -> disjoint dst new n -> readable m src bits ->
  exists m', bitmap_remap m dst src old new bits = Ret m' /\ outside dst n m m' /\
    forall k, (k < bits)%nat -> bit m' dst k = true <->
      exists j, (j < bits)%nat /\ bit m src j = true /\ maps_to m old new bits j k.
Proof.
  intros n Hb Hd Hs Ho Hn Ds Do Dn Hr.
  destruct (remap_spec m dst src old new bits Hd Hs Ho Hn Ds Do Dn Hb Hr) as (m' & ? & [? _] & ?).
  by exists m'.
Qed.

(** Five bitmaps of 40 bits: result, source, domain, range, and room behind. *)
Definition remap_demo : mem := [7; 7; 0xA2; 0; 0xF0; 0; 0xF000; 0; 7; 7; 0].

Lemma remap_demo_ok p : (p <= 8)%nat -> bitmap_ok remap_demo p 40.
Proof.
  intros Hp. split.
  - repeat (apply Forall_cons_2; [unfold word; lia|]). constructor.
  - change (BITS_TO_LONGS 40) with 2%nat. simpl. lia.
Qed.

Lemma bitmap_remap_correct_witness :
  exists m', bitmap_remap remap_demo 0 2 4 6 40 = Ret m' /\ outside 0 (BITS_TO_LONGS 40) remap_demo m' /\
    forall k, (k < 40)%nat -> bit m' 0 k = true <->
      exists j, (j < 40)%nat /\ bit remap_demo 2 j = true /\ maps_to remap_demo 4 6 40 j k.
Proof.
  apply (bitmap_remap_correct remap_demo 0 2 4 6 40); [lia|apply remap_demo_ok; lia..| | | |].
  1-3: left; change (BITS_TO_LONGS 40) with 2%nat; lia.
  apply Nat.ltb_lt. reflexivity.
Defined.

(** The example of the description: bits 1, 5 and 7 become 1, 13 and 15. *)
Example remap_example :
  bitmap_remap remap_demo 0 2 4 6 40 = Ret ([0xA002; 0] ++ drop 2 remap_demo).
Proof. reflexivity. Qed.

(** (remap back): when [old] and [new] have as many bits and the source
    is a part of [old], remapping there and back restores the source. *)
Theorem bitmap_remap_inverse `{FindBit} m mid dst src old new bits :
  let n := BITS_TO_LONGS bits in
  (0 < bits)%nat -> Forall (fun q => bitmap_ok m q bits) [mid; dst; src; old; new] ->
  Forall (fun q => disjoint mid q n) [dst; src; old; new] ->
  Forall (fun q => disjoint dst q n) [mid; src; old; new] ->
  readable m src bits -> readable m mid bits ->
  rank m old bits = rank m new bits ->
  (forall i, (i < bits)%nat -> bit m src i = true -> bit m old i = true) ->
  exists m1 m2, bitmap_remap m mid src old new bits = Ret m1 /\
    bitmap_remap m1 dst mid new old bits = Ret m2 /\
    forall i, (i < bits)%nat -> bit m2 dst i = bit m src i.
Proof.
  intros n Hb Hoks Hmid Hdst Hrs Hrm Hw Hsub.
  repeat match goal with HF : Forall _ (_ :: _) |- _ => apply Forall_cons_1 in HF as [? HF] end.
  assert (Kold : bitmap_ok m old bits) by done. assert (Knew : bitmap_ok m new bits) by done.
  destruct (remap_spec m mid src old new bits) as (m1 & E1 & [O1 Ok1] & B1); [done..|].
  assert (Kq : forall q, bitmap_ok m q bits -> bitmap_ok m1 q bits)
    by (intros q Hq; by apply (during_ok m mid bits)).
  destruct (remap_spec m1 dst mid new old bits) as (m2 & E2 & _ & B2); [auto..|done|done|done|done| |].
  { unfold readable in *. by destruct O1 as [-> _]. }
  exists m1, m2. split; [done|]. split; [done|].
  assert (Er : forall q i, disjoint mid q n -> (i <= bits)%nat -> rank m1 q i = rank m q i)
    by (intros; by apply (outside_rank mid bits)).
  assert (Eb : forall q i, disjoint mid q n -> (i < bits)%nat -> bit m1 q i = bit m q i)
    by (intros; by apply (outside_bit mid bits)).
  (* the two maps are inverse to each other on [old] *)
  assert (Hinv : forall i k j, (i < bits)%nat -> bit m old i = true -> maps_to m old new bits i k ->
      maps_to m1 new old bits k j -> j = i).
  { intros i k j Hi Hbi Hik Hkj. pose proof (rank_lt m old i bits Hi Hbi) as Hri.
    pose proof (rank_nonneg m old i). pose proof (maps_to_lt _ _ _ _ _ _ Hik Hi) as Hk.
    unfold maps_to in *. cbv zeta in *. rewrite Hbi in Hik. rewrite !Er, Eb, Hw in Hkj by (done || lia).
    rewrite <-Hw in Hik, Hkj. destruct (Z.eqb_spec (rank m old bits) 0); [lia|]. cbn [negb andb] in *.
    destruct Hik as (_ & Hbk & Hrk). rewrite Hbk in Hkj. cbn [andb] in Hkj.
    rewrite Hrk, !Z.mod_small in Hkj by (rewrite ?Z.mod_small; lia).
    destruct Hkj as (Hj & Hbj & Hrj). rewrite Eb in Hbj by done. rewrite Er in Hrj by (done || lia).
    by apply (nth_set_inj m old bits (rank m old i)). }
  intros i Hi. apply eq_true_iff_eq. rewrite B2 by done. split.
  - intros (k & Hk & Hbk & Hmk). apply B1 in Hbk as (j & Hj & Hbj & Hmj); [|done].
    by rewrite (Hinv j k i Hj (Hsub j Hj Hbj) Hmj Hmk).
  - intros Hbi. destruct (bitmap_bitremap_correct m old new bits (Z.of_nat i) Kold Knew) as (k & _ & Hk).
    rewrite bool_decide_true, Nat2Z.id in Hk by lia. destruct Hk as [_ Hk].
    pose proof (maps_to_lt _ _ _ _ _ _ Hk Hi) as Hkb.
    destruct (bitmap_bitremap_correct m1 new old bits (Z.of_nat (Z.to_nat k)) (Kq _ Knew) (Kq _ Kold))
      as (j & _ & Hj).
    rewrite bool_decide_true, Nat2Z.id in Hj by lia. destruct Hj as [_ Hj].
    exists (Z.to_nat k). split; [done|]. split; [apply B1; [done|by exists i]|].
    rewrite <-(Hinv i (Z.to_nat k) (Z.to_nat j)); auto.
Qed.

Lemma bitmap_remap_inverse_witness :
  exists m1 m2, bitmap_remap [1; 2; 0xA0; 0xF0; 0xF000; 0] 0 2 3 4 32 = Ret m1 /\
    bitmap_remap m1 1 0 4 3 32 = Ret m2 /\
    forall i, (i < 32)%nat -> bit m2 1 i = bit [1; 2; 0xA0; 0xF0; 0xF000; 0] 2 i.
Proof.
  apply (bitmap_remap_inverse [1; 2; 0xA0; 0xF0; 0xF000; 0] 0 1 2 3 4 32); [lia| | | | | |reflexivity|].
  - assert (forall q, (q <= 5)%nat -> bitmap_ok [1; 2; 0xA0; 0xF0; 0xF000; 0] q 32).
    { intros q Hq. split; [repeat (apply Forall_cons_2; [unfold word; lia|]); constructor|].
      change (BITS_TO_LONGS 32) with 1%nat. simpl. lia. }
    repeat constructor; auto; lia.
  - change (BITS_TO_LONGS 32) with 1%nat. unfold disjoint. repeat constructor; lia.
  - change (BITS_TO_LONGS 32) with 1%nat. unfold disjoint. repeat constructor; lia.
  - apply Nat.ltb_lt. reflexivity.
  - apply Nat.ltb_lt. reflexivity.
  - intros i Hi. assert (Hall : forallb (fun i => negb (bit [1; 2; 0xA0; 0xF0; 0xF000; 0] 2 i) ||
      bit [1; 2; 0xA0; 0xF0; 0xF000; 0] 3 i) (seq 0 32) = true) by reflexivity.
    rewrite forallb_forall in Hall. specialize (Hall i). intros Hb. rewrite Hb in Hall.
    apply Hall, in_seq. lia.
Defined.
