(* ===== verification/Kfifo.v ===== *)
(** * The kernel FIFO (kernel/kfifo.c, include/linux/kfifo.h)

    A ring buffer of a power-of-two size with free-running 32-bit indices.
    The FIFO's buffer and the callers' buffers live in one checked byte
    memory.  [contents] is the abstraction function to the queue the FIFO
    stands for; the last part models one unlocked reader and one unlocked
    writer as a step relation.  The spin lock of the locking variants makes
    them atomic and is left out; [kmalloc] is a parameter: what it returned. *)

From S2P Require Import Prelude CMem KString Bitmap.

Definition generic_fls (x : Z) : Z :=
  if x =? 0 then 0
  else
    let r := 32 in
    let '(x, r) := if Z.land x 0xffff0000 =? 0 then (cshl 32 x 16, r - 16) else (x, r) in
    let '(x, r) := if Z.land x 0xff000000 =? 0 then (cshl 32 x 8, r - 8) else (x, r) in
    let '(x, r) := if Z.land x 0xf0000000 =? 0 then (cshl 32 x 4, r - 4) else (x, r) in
    let '(x, r) := if Z.land x 0xc0000000 =? 0 then (cshl 32 x 2, r - 2) else (x, r) in
    let '(x, r) := if Z.land x 0x80000000 =? 0 then (cshl 32 x 1, r - 1) else (x, r) in
    r.

Definition roundup_pow_of_two (x : Z) : Z := cshl 32 1 (generic_fls (u32 (x - 1))).

(** [struct kfifo] without its lock. *)
Record kfifo := Kfifo { kbuffer : addr; ksize : Z; kin : Z; kout : Z }.

Definition kfifo_init (buffer : addr) (size : Z) (kmalloc : bool) : outcome (kfifo + Z) :=
  if negb (Z.land size (u32 (size - 1)) =? 0) then Err Bug
  else if negb kmalloc then Ret (inr (- ENOMEM))
  else Ret (inl (Kfifo buffer size 0 0)).

(** [kmalloc n] is the answer to the request for [n] bytes of buffer,
    [kmalloc'] tells whether the [struct kfifo] could be had.  The second
    result is the buffer handed to [kfree]. *)
Definition kfifo_alloc (kmalloc : Z -> option addr) (kmalloc' : bool) (size : Z) :
    outcome ((kfifo + Z) * option addr) :=
  let! size :=
    (if negb (Z.land size (u32 (size - 1)) =? 0) then
       if 0x80000000 <? size then Err Bug else Ret (roundup_pow_of_two size)
     else Ret size) in
  match kmalloc size with
  | None => Ret (inr (- ENOMEM), None)
  | Some buffer =>
      let! ret := kfifo_init buffer size kmalloc' in
      match ret with
      | inr _ => Ret (ret, Some buffer)
      | inl _ => Ret (ret, None)
      end
  end.

(** [kfree(fifo->buffer); kfree(fifo)]: what is freed besides the structure. *)
Definition kfifo_free (fifo : kfifo) : addr := kbuffer fifo.

(** Each returns the count, the memory and the FIFO. *)
Definition __kfifo_put (m : mem) (fifo : kfifo) (buffer : addr) (len : Z) : outcome (Z * mem * kfifo) :=
  let '(Kfifo fb size fin fout) := fifo in
  let len := Z.min len (u32 (size - fin + fout)) in
  let l := Z.min len (u32 (size - Z.land fin (u32 (size - 1)))) in
  let! m := memcpy m (fb + Z.to_nat (Z.land fin (u32 (size - 1)))) buffer (Z.to_nat l) in
  let! m := memcpy m fb (buffer + Z.to_nat l) (Z.to_nat (u32 (len - l))) in
  Ret (len, m, Kfifo fb size (u32 (fin + len)) fout).

Definition __kfifo_get (m : mem) (fifo : kfifo) (buffer : addr) (len : Z) : outcome (Z * mem * kfifo) :=
  let '(Kfifo fb size fin fout) := fifo in
  let len := Z.min len (u32 (fin - fout)) in
  let l := Z.min len (u32 (size - Z.land fout (u32 (size - 1)))) in
  let! m := memcpy m buffer (fb + Z.to_nat (Z.land fout (u32 (size - 1)))) (Z.to_nat l) in
  let! m := memcpy m (buffer + Z.to_nat l) fb (Z.to_nat (u32 (len - l))) in
  Ret (len, m, Kfifo fb size fin (u32 (fout + len))).

Definition __kfifo_reset (fifo : kfifo) : kfifo := Kfifo (kbuffer fifo) (ksize fifo) 0 0.

Definition __kfifo_len (fifo : kfifo) : Z := u32 (kin fifo - kout fifo).

Definition kfifo_get (m : mem) (fifo : kfifo) (buffer : addr) (len : Z) : outcome (Z * mem * kfifo) :=
  let! (ret, m, fifo) := __kfifo_get m fifo buffer len in
  Ret (ret, m, if kin fifo =? kout fifo then __kfifo_reset fifo else fifo).

(** The locking variants: the same between [spin_lock_irqsave] and
    [spin_unlock_irqrestore]. *)
Definition kfifo_put (m : mem) (fifo : kfifo) (buffer : addr) (len : Z) : outcome (Z * mem * kfifo) :=
  let! ret := __kfifo_put m fifo buffer len in Ret ret.

Definition kfifo_reset (fifo : kfifo) : kfifo := __kfifo_reset fifo.

Definition kfifo_len (fifo : kfifo) : Z := __kfifo_len fifo.

(** ** The queue a FIFO stands for *)

(** The power-of-two condition, the fill level and the room of the buffer. *)
Definition kfifo_ok (m : mem) (f : kfifo) : Prop :=
  (exists k, 0 <= k <= 31 /\ ksize f = 2 ^ k) /\ is_u32 (kin f) /\ is_u32 (kout f) /\
  __kfifo_len f <= ksize f /\ (kbuffer f + Z.to_nat (ksize f) <= length m)%nat.

Definition slot (f : kfifo) (i : Z) : addr := (kbuffer f + Z.to_nat (i mod ksize f))%nat.

Definition contents (m : mem) (f : kfifo) : list Z :=
  map (fun j => nth (slot f (kout f + j)) m 0) (seqZ 0 (__kfifo_len f)).

(** ** Index arithmetic *)

Lemma pow2_u32 k : 0 <= k <= 31 -> 0 < 2 ^ k <= 2 ^ 31 /\ 2 ^ 32 = 2 ^ k * 2 ^ (32 - k).
Proof.
  intros Hk. split; [split; [apply Z.pow_pos_nonneg; lia|apply Z.pow_le_mono_r; lia]|].
  rewrite <-Z.pow_add_r by lia. f_equal. lia.
Qed.

Lemma mask_mod i k : 0 <= k <= 31 -> Z.land i (u32 (2 ^ k - 1)) = i mod 2 ^ k.
Proof.
  intros Hk. destruct (pow2_u32 k Hk) as [Hp _].
  unfold u32. rewrite wrap_small by (unfold word; lia).
  replace (2 ^ k - 1) with (Z.ones k) by (rewrite Z.ones_equiv; lia). apply Z.land_ones. lia.
Qed.

Lemma u32_mod_pow2 i k : 0 <= k <= 31 -> u32 i mod 2 ^ k = i mod 2 ^ k.
Proof.
  intros Hk. destruct (pow2_u32 k Hk) as [Hp E]. unfold u32, wrap. rewrite E.
  rewrite Z.rem_mul_r by lia. rewrite (Z.mul_comm (2 ^ k)), Z.mod_add by lia.
  apply Z.mod_mod. lia.
Qed.

Lemma u32_sub_room size a b : 0 <= size <= 2 ^ 31 -> u32 (a - b) <= size -> u32 (size - a + b) = size - u32 (a - b).
Proof.
  intros Hs Hle. unfold u32, wrap in *. pose proof (Z.mod_pos_bound (a - b) (2 ^ 32) ltac:(lia)).
  rewrite <-(Z.mod_small (size - (a - b) mod 2 ^ 32) (2 ^ 32)) by lia.
  rewrite Zminus_mod_idemp_r. f_equal. lia.
Qed.

(** The ring offset at which index [i] is the [t]-th from [a]. *)
Lemma ring_offset a j size :
  0 < size -> (a + j) mod size = if decide (a mod size + j mod size < size) then a mod size + j mod size
    else a mod size + j mod size - size.
Proof.
  intros Hs. pose proof (Z.mod_pos_bound a size Hs). pose proof (Z.mod_pos_bound j size Hs).
  rewrite Z.add_mod by lia. case_decide.
  - by apply Z.mod_small; lia.
  - rewrite <-(Z.mod_add _ (-1)) by lia. apply Z.mod_small. lia.
Qed.

(** The two block copies of a put write byte [t] of the data to the ring
    position of index [a + t]. *)
Lemma ring_write (m : mem) fb size a (data : list Z) p :
  0 < size -> Z.of_nat (length data) <= size -> (fb + Z.to_nat size <= length m)%nat -> 0 <= p < size ->
  let l := Z.to_nat (Z.min (Z.of_nat (length data)) (size - a mod size)) in
  list_inserts fb (drop l data) (list_inserts (fb + Z.to_nat (a mod size)) (take l data) m) !! (fb + Z.to_nat p)%nat =
  if decide ((p - a) mod size < Z.of_nat (length data)) then data !! Z.to_nat ((p - a) mod size)
  else m !! (fb + Z.to_nat p)%nat.
Proof.
  intros Hs Hd Hm Hp l. pose proof (Z.mod_pos_bound a size Hs) as Ha.
  assert (Hsub : (p - a) mod size = if decide (a mod size <= p) then p - a mod size else p - a mod size + size).
  { rewrite <-Zminus_mod_idemp_r. case_decide; [by apply Z.mod_small; lia|].
    rewrite <-(Z.mod_add _ 1), Z.mul_1_l by lia. apply Z.mod_small. lia. }
  rewrite Hsub. rewrite !lookup_inserts_dec, length_drop, length_take, length_inserts.
  assert (Hl : Z.of_nat l = Z.min (Z.of_nat (length data)) (size - a mod size)) by lia.
  destruct (decide (a mod size <= p)) as [Hle|Hgt].
  - rewrite decide_False by lia. destruct (decide (p - a mod size < Z.of_nat (length data))).
    + rewrite decide_True by lia. rewrite lookup_take_lt by lia. f_equal. lia.
    + by rewrite decide_False by lia.
  - destruct (decide (p - a mod size + size < Z.of_nat (length data))).
    + rewrite decide_True by lia. rewrite lookup_drop. f_equal. lia.
    + rewrite decide_False by lia. by rewrite decide_False by lia.
Qed.

(** The two block copies of a get read the positions of the indices
    [a], [a + 1], ... *)
Lemma ring_read (m : mem) fb size a n :
  0 < size -> 0 <= n <= size -> (fb + Z.to_nat size <= length m)%nat ->
  let l := Z.min n (size - a mod size) in
  take (Z.to_nat l) (drop (fb + Z.to_nat (a mod size)) m) ++ take (Z.to_nat (n - l)) (drop fb m) =
  map (fun j => nth (fb + Z.to_nat ((a + j) mod size)) m 0) (seqZ 0 n).
Proof.
  intros Hs Hn Hm l. pose proof (Z.mod_pos_bound a size Hs) as Ha. apply list_eq. intros i.
  assert (Hlook : forall k, (k < length m)%nat -> m !! k = Some (nth k m 0)).
  { intros k Hk. rewrite nth_lookup. destruct (lookup_lt_is_Some_2 m k Hk) as [x ->]. done. }
  rewrite list_lookup_fmap, lookup_app, lookup_take, lookup_drop.
  destruct (decide (Z.of_nat i < n)) as [Hi|Hi].
  - rewrite lookup_seqZ_lt by lia. simpl. rewrite Z.add_0_l, ring_offset by done.
    rewrite (Z.mod_small (Z.of_nat i)) by lia.
    destruct (decide (i < Z.to_nat l)%nat).
    + rewrite Hlook by lia. rewrite decide_True by lia. do 2 f_equal. lia.
    + rewrite length_take, length_drop.
      rewrite lookup_take_lt by lia. rewrite lookup_drop, Hlook by lia. do 2 f_equal. case_decide; lia.
  - rewrite lookup_seqZ_ge by lia. rewrite decide_False by lia. simpl.
    rewrite lookup_ge_None_2; [done|]. rewrite !length_take, !length_drop. lia.
Qed.

Lemma u32_add_sub a b n : 0 <= n -> u32 (a - b) + n < 2 ^ 32 -> u32 (u32 (a + n) - b) = u32 (a - b) + n.
Proof.
  intros Hn Hle. unfold u32, wrap in *. pose proof (Z.mod_pos_bound (a - b) (2 ^ 32) ltac:(lia)).
  rewrite <-(Z.mod_small ((a - b) mod 2 ^ 32 + n) (2 ^ 32)) by lia.
  rewrite Zminus_mod_idemp_l, Zplus_mod_idemp_l. f_equal. lia.
Qed.

Lemma u32_sub_add a b n : 0 <= n <= u32 (a - b) -> u32 (a - u32 (b + n)) = u32 (a - b) - n.
Proof.
  intros Hn. unfold u32, wrap in *. pose proof (Z.mod_pos_bound (a - b) (2 ^ 32) ltac:(lia)).
  rewrite <-(Z.mod_small ((a - b) mod 2 ^ 32 - n) (2 ^ 32)) by lia.
  rewrite Zminus_mod_idemp_r, Zminus_mod_idemp_l. f_equal. lia.
Qed.

Section State.
Context (m : mem) (f : kfifo) (Hok : kfifo_ok m f).

Lemma kfifo_len_bounds : 0 <= __kfifo_len f <= ksize f /\ 0 < ksize f <= 2 ^ 31.
Proof.
  destruct Hok as ((k & Hk & Hs) & _ & _ & Hl & _). destruct (pow2_u32 k Hk) as [Hp _].
  pose proof (wrap_word 32 (kin f - kout f) ltac:(lia)) as Hw. unfold word in Hw.
  unfold __kfifo_len, u32 in *. lia.
Qed.

Lemma length_contents : Z.of_nat (length (contents m f)) = __kfifo_len f.
Proof. pose proof kfifo_len_bounds. unfold contents. rewrite length_map, length_seqZ. lia. Qed.

Lemma mask_in : Z.land (kin f) (u32 (ksize f - 1)) = kin f mod ksize f /\
  Z.land (kout f) (u32 (ksize f - 1)) = kout f mod ksize f.
Proof. destruct Hok as ((k & Hk & ->) & _). by rewrite !mask_mod. Qed.

Lemma slot_u32 i j : slot f (u32 i + j) = slot f (i + j).
Proof.
  destruct Hok as ((k & Hk & Hs) & _). destruct (pow2_u32 k Hk) as [Hp _]. unfold slot. rewrite Hs.
  rewrite <-Z.add_mod_idemp_l, u32_mod_pow2, Z.add_mod_idemp_l by lia. done.
Qed.

End State.

Section Ops.
Context (m : mem) (f : kfifo) (buffer : addr) (len : Z).
Context (Hok : kfifo_ok m f) (Hlen : 0 <= len) (Hbuf : (buffer + Z.to_nat len <= length m)%nat).
Context (Happart : (buffer + Z.to_nat len <= kbuffer f \/ kbuffer f + Z.to_nat (ksize f) <= buffer)%nat).

Lemma put_spec :
  let n := Z.min len (ksize f - __kfifo_len f) in
  exists m' f', __kfifo_put m f buffer len = Ret (n, m', f') /\ kfifo_ok m' f' /\
    contents m' f' = contents m f ++ take (Z.to_nat n) (drop buffer m) /\
    (forall i, (i < kbuffer f \/ kbuffer f + Z.to_nat (ksize f) <= i)%nat -> m' !! i = m !! i).
Proof.
  intros n. pose proof (kfifo_len_bounds m f Hok) as [Hq Hs]. destruct (mask_in m f Hok) as [Hmi _].
  pose proof Hok as (Hpow & Hin & Hout & Hle & Hfb).
  assert (Hroom : u32 (ksize f - kin f + kout f) = ksize f - __kfifo_len f).
  { apply u32_sub_room; [lia|apply Hle]. }
  pose proof (Z.mod_pos_bound (kin f) (ksize f) ltac:(lia)) as Ha.
  set (a := kin f mod ksize f) in *. set (l := Z.min n (ksize f - a)).
  set (data := take (Z.to_nat n) (drop buffer m)).
  assert (Hld : length data = Z.to_nat n) by (unfold data; rewrite length_take, length_drop; lia).
  set (m1 := list_inserts (kbuffer f + Z.to_nat a) (take (Z.to_nat l) data) m).
  set (m2 := list_inserts (kbuffer f) (drop (Z.to_nat l) data) m1).
  exists m2, (Kfifo (kbuffer f) (ksize f) (u32 (kin f + n)) (kout f)).
  assert (Hrun : __kfifo_put m f buffer len =
    Ret (n, m2, Kfifo (kbuffer f) (ksize f) (u32 (kin f + n)) (kout f))).
  { unfold __kfifo_put. destruct f as [fb size fin fout]. cbn [kbuffer ksize kin kout] in *.
    rewrite Hroom, Hmi. fold n. rewrite (u32_small (size - a)) by lia. fold l.
    rewrite (u32_small (n - l)) by lia. rewrite memcpy_forward by lia.
    assert (E1 : take (Z.to_nat l) (drop buffer m) = take (Z.to_nat l) data).
    { unfold data. rewrite take_take. f_equal. lia. }
    rewrite E1. fold m1. rewrite memcpy_forward by (unfold m1; rewrite ?length_inserts; lia).
    assert (E2 : take (Z.to_nat (n - l)) (drop (buffer + Z.to_nat l) m1) = drop (Z.to_nat l) data).
    { unfold data, m1. apply list_eq. intros i. rewrite lookup_take, !lookup_drop, lookup_take, lookup_drop.
      rewrite lookup_inserts_dec. rewrite length_take, Hld.
      destruct (decide (i < Z.to_nat (n - l))%nat).
      - rewrite decide_False, decide_True by lia. by rewrite Nat.add_assoc.
      - by rewrite decide_False by lia. }
    by rewrite E2. }
  split; [done|]. split_and!.
  - split_and!; cbn [kbuffer ksize kin kout]; [done|apply wrap_word; lia|done| |].
    + unfold __kfifo_len. cbn [kin kout]. rewrite u32_add_sub; unfold __kfifo_len in *; lia.
    + unfold m2, m1. by rewrite !length_inserts.
  - assert (Hl' : __kfifo_len (Kfifo (kbuffer f) (ksize f) (u32 (kin f + n)) (kout f)) = __kfifo_len f + n).
    { unfold __kfifo_len. cbn [kin kout]. rewrite u32_add_sub; unfold __kfifo_len in *; lia. }
    unfold contents. rewrite Hl'. rewrite seqZ_app, map_app by lia.
    assert (Hnth : forall j, 0 <= j < __kfifo_len f + n ->
      nth (slot f (kout f + j)) m2 0 = if decide (j < __kfifo_len f) then nth (slot f (kout f + j)) m 0
        else nth (Z.to_nat (j - __kfifo_len f)) data 0).
    { intros j Hj. rewrite !nth_lookup. unfold slot, m2, m1.
      replace (Z.to_nat l) with (Z.to_nat (Z.min (Z.of_nat (length data)) (ksize f - kin f mod ksize f)))
        by (unfold l; fold a; f_equal; lia).
      unfold a. rewrite ring_write by (try apply Z.mod_pos_bound; lia).
      assert (Hd : ((kout f + j) mod ksize f - kin f) mod ksize f = (j - __kfifo_len f) mod ksize f).
      { rewrite Zminus_mod_idemp_l. unfold __kfifo_len.
        destruct Hpow as (k & Hk & Hsz). destruct (pow2_u32 k Hk) as [Hp _].
        rewrite <-(Zminus_mod_idemp_r j). rewrite Hsz, u32_mod_pow2 by done.
        rewrite Zminus_mod_idemp_r. f_equal. lia. }
      rewrite Hd, Hld. destruct (decide (j < __kfifo_len f)) as [Hj'|Hj'].
      - rewrite decide_False; [done|]. rewrite <-(Z.mod_add _ 1), Z.mul_1_l by lia.
        rewrite Z.mod_small by lia. lia.
      - rewrite (Z.mod_small (j - __kfifo_len f)) by lia. by rewrite decide_True by lia. }
    f_equal.
    + apply map_ext_in. intros j Hj%list_elem_of_In%elem_of_seqZ.
      change (slot (Kfifo _ _ _ _)) with (slot f). cbn [kout]. rewrite Hnth by lia. by rewrite decide_True by lia.
    + apply list_eq. intros i. rewrite list_lookup_fmap. destruct (decide (Z.of_nat i < n)).
      * rewrite lookup_seqZ_lt by lia. simpl. change (slot (Kfifo _ _ _ _)) with (slot f).
        rewrite Hnth, decide_False by lia.
        destruct (lookup_lt_is_Some_2 data i ltac:(lia)) as [x Hx]. fold data. rewrite Hx. f_equal.
        replace (Z.to_nat _) with i by lia. by apply nth_lookup_Some.
      * rewrite lookup_seqZ_ge by lia. fold data. rewrite lookup_ge_None_2; [done|lia].
  - intros i Hi. unfold m2, m1. rewrite !lookup_inserts_dec, length_drop, length_take.
    rewrite !decide_False by lia. done.
Qed.

Lemma get_spec :
  let n := Z.min len (__kfifo_len f) in
  exists m' f', __kfifo_get m f buffer len = Ret (n, m', f') /\ kfifo_ok m' f' /\
    take (Z.to_nat n) (drop buffer m') = take (Z.to_nat n) (contents m f) /\
    contents m' f' = drop (Z.to_nat n) (contents m f) /\
    (forall i, (i < buffer \/ buffer + Z.to_nat n <= i)%nat -> m' !! i = m !! i).
Proof.
  intros n. pose proof (kfifo_len_bounds m f Hok) as [Hq Hs]. destruct (mask_in m f Hok) as [_ Hmo].
  pose proof Hok as (Hpow & Hin & Hout & Hle & Hfb).
  pose proof (Z.mod_pos_bound (kout f) (ksize f) ltac:(lia)) as Ha.
  set (a := kout f mod ksize f) in *. set (l := Z.min n (ksize f - a)).
  set (d1 := take (Z.to_nat l) (drop (kbuffer f + Z.to_nat a) m)).
  set (d2 := take (Z.to_nat (n - l)) (drop (kbuffer f) m)).
  assert (Hd : d1 ++ d2 = take (Z.to_nat n) (contents m f)).
  { unfold d1, d2, contents, l, a. rewrite (ring_read m (kbuffer f) (ksize f) (kout f) n) by lia.
    replace (__kfifo_len f) with (n + (__kfifo_len f - n)) by lia. rewrite seqZ_app, map_app by lia.
    rewrite take_app_length'; [done|]. rewrite length_map, length_seqZ. lia. }
  assert (Hl1 : length d1 = Z.to_nat l) by (unfold d1; rewrite length_take, length_drop; lia).
  assert (Hl2 : length d2 = Z.to_nat (n - l)) by (unfold d2; rewrite length_take, length_drop; lia).
  set (m2 := list_inserts buffer (d1 ++ d2) m).
  exists m2, (Kfifo (kbuffer f) (ksize f) (kin f) (u32 (kout f + n))).
  assert (Hrun : __kfifo_get m f buffer len =
    Ret (n, m2, Kfifo (kbuffer f) (ksize f) (kin f) (u32 (kout f + n)))).
  { unfold __kfifo_get. destruct f as [fb size fin fout]. cbn [kbuffer ksize kin kout] in *.
    rewrite Hmo. change (u32 (fin - fout)) with (__kfifo_len (Kfifo fb size fin fout)). fold n.
    rewrite (u32_small (size - a)) by lia. fold l.
    rewrite (u32_small (n - l)) by lia. rewrite memcpy_forward by lia. fold d1.
    rewrite memcpy_forward by (rewrite ?length_inserts; lia).
    assert (E2 : take (Z.to_nat (n - l)) (drop fb (list_inserts buffer d1 m)) = d2).
    { unfold d2. apply list_eq. intros i. rewrite !lookup_take, !lookup_drop, lookup_inserts_dec, Hl1.
      destruct (decide (i < Z.to_nat (n - l))%nat); [|done]. by rewrite decide_False by lia. }
    rewrite E2. unfold m2. by rewrite list_inserts_app_l, Hl1, (Nat.add_comm (Z.to_nat l)). }
  assert (Hlm : length (d1 ++ d2) = Z.to_nat n) by (rewrite length_app; lia).
  split; [done|]. split_and!.
  - split_and!; cbn [kbuffer ksize kin kout]; [done|done|apply wrap_word; lia| |].
    + unfold __kfifo_len. cbn [kin kout]. rewrite u32_sub_add; unfold __kfifo_len in *; lia.
    + unfold m2. by rewrite length_inserts.
  - rewrite <-Hd. unfold m2. rewrite <-Hlm. apply bytes_at_eq; [rewrite length_inserts; lia|].
    apply bytes_at_inserts. lia.
  - assert (Hl' : __kfifo_len (Kfifo (kbuffer f) (ksize f) (kin f) (u32 (kout f + n))) = __kfifo_len f - n).
    { unfold __kfifo_len. cbn [kin kout]. rewrite u32_sub_add; unfold __kfifo_len in *; lia. }
    unfold contents. rewrite Hl'. apply list_eq. intros i. rewrite lookup_drop, !list_lookup_fmap.
    destruct (decide (Z.of_nat i < __kfifo_len f - n)).
    + rewrite !lookup_seqZ_lt by lia. simpl. change (slot (Kfifo _ _ _ _)) with (slot f). f_equal.
      rewrite !Z.add_0_l, (slot_u32 m f Hok).
      replace (kout f + n + Z.of_nat i) with (kout f + Z.of_nat (Z.to_nat n + i)) by lia.
      apply same_nth. unfold m2. rewrite lookup_inserts_dec, Hlm, decide_False; [done|].
      unfold slot. pose proof (Z.mod_pos_bound (kout f + Z.of_nat (Z.to_nat n + i)) (ksize f)). lia.
    + by rewrite !lookup_seqZ_ge by lia.
  - intros i Hi. unfold m2. rewrite lookup_inserts_dec, Hlm, decide_False by lia. done.
Qed.
End Ops.

(** (put): a put appends to the queue as much of the data as there is
    room for, returns how much, and leaves all memory outside of the ring
    alone; the indices may have wrapped around. *)
Theorem kfifo_put_correct m f buffer len :
  kfifo_ok m f -> 0 <= len -> (buffer + Z.to_nat len <= length m)%nat ->
  (buffer + Z.to_nat len <= kbuffer f \/ kbuffer f + Z.to_nat (ksize f) <= buffer)%nat ->
  let n := Z.min len (ksize f - Z.of_nat (length (contents m f))) in
  exists m' f', kfifo_put m f buffer len = Ret (n, m', f') /\ __kfifo_put m f buffer len = Ret (n, m', f') /\
    kfifo_ok m' f' /\ contents m' f' = contents m f ++ take (Z.to_nat n) (drop buffer m) /\
    (forall i, (i < kbuffer f \/ kbuffer f + Z.to_nat (ksize f) <= i)%nat -> m' !! i = m !! i).
Proof.
  intros Hok Hl Hb Ha. rewrite (length_contents m f Hok). unfold kfifo_put.
  destruct (put_spec m f buffer len Hok Hl Hb Ha) as (m' & f' & E & H). exists m', f'. by rewrite E.
Qed.

(** Size 4, indices about to wrap: bytes 1 and 2 are queued at slots 3 and 0. *)
Definition kf_demo : kfifo := Kfifo 0 4 1 0xffffffff.
Definition kf_mem : mem := [2; 0; 0; 1; 5; 6; 7].

Lemma kf_demo_ok : kfifo_ok kf_mem kf_demo.
Proof.
  split_and!; [exists 2; done|unfold word; simpl; lia|unfold word; simpl; lia|vm_compute; done|simpl; lia].
Qed.

Lemma kfifo_put_correct_witness :
  contents kf_mem kf_demo = [1; 2] /\
  exists m' f', kfifo_put kf_mem kf_demo 4 3 = Ret (2, m', f') /\
    __kfifo_put kf_mem kf_demo 4 3 = Ret (2, m', f') /\ kfifo_ok m' f' /\
    contents m' f' = [1; 2; 5; 6] /\
    (forall i, (i < 0 \/ 4 <= i)%nat -> m' !! i = kf_mem !! i).
Proof.
  split; [reflexivity|].
  apply (kfifo_put_correct kf_mem kf_demo 4 3); [apply kf_demo_ok|lia|simpl; lia|right; simpl; lia].
Defined.

Lemma kfifo_reset_contents m f : contents m (__kfifo_reset f) = [].
Proof. reflexivity. Qed.

(** (get): a get moves the front of the queue, as much as there is and
    was asked for, to the caller's buffer; the locking variant does the same
    and sets the indices of an emptied FIFO back to 0. *)
Theorem kfifo_get_correct m f buffer len :
  kfifo_ok m f -> 0 <= len -> (buffer + Z.to_nat len <= length m)%nat ->
  (buffer + Z.to_nat len <= kbuffer f \/ kbuffer f + Z.to_nat (ksize f) <= buffer)%nat ->
  let n := Z.min len (Z.of_nat (length (contents m f))) in
  exists m' f' f'', __kfifo_get m f buffer len = Ret (n, m', f') /\ kfifo_ok m' f' /\
    kfifo_get m f buffer len = Ret (n, m', f'') /\ kfifo_ok m' f'' /\
    take (Z.to_nat n) (drop buffer m') = take (Z.to_nat n) (contents m f) /\
    contents m' f' = drop (Z.to_nat n) (contents m f) /\ contents m' f'' = contents m' f' /\
    (contents m' f'' = [] -> kin f'' = 0 /\ kout f'' = 0) /\
    (forall i, (i < buffer \/ buffer + Z.to_nat n <= i)%nat -> m' !! i = m !! i).
Proof.
  intros Hok Hl Hb Ha. rewrite (length_contents m f Hok).
  destruct (get_spec m f buffer len Hok Hl Hb Ha) as (m' & f' & Hg & Hok' & Ht & Hc & Hsame).
  exists m', f'. pose proof Hok' as (Hpow & Hin & Hout & Hle & Hfb).
  unfold kfifo_get. rewrite Hg. destruct (Z.eqb_spec (kin f') (kout f')) as [E|E].
  - exists (__kfifo_reset f'). rewrite kfifo_reset_contents.
    assert (Hnil : contents m' f' = []).
    { unfold contents, __kfifo_len. by rewrite E, Z.sub_diag. }
    split_and!; try done. pose proof (kfifo_len_bounds m' f' Hok').
    split_and!; [done|unfold word; simpl; lia|unfold word; simpl; lia|unfold __kfifo_len; simpl|done].
    change (u32 (0 - 0)) with 0. lia.
  - exists f'. split_and!; try done. intros Hnil. exfalso.
    pose proof (length_contents m' f' Hok') as Hlen. rewrite Hnil in Hlen. simpl in Hlen.
    unfold __kfifo_len, u32, wrap in Hlen. unfold word in Hin, Hout.
    destruct (decide (kin f' < kout f')).
    + rewrite <-(Z.mod_add _ 1) in Hlen by lia. rewrite Z.mod_small in Hlen by lia. lia.
    + rewrite Z.mod_small in Hlen by lia. lia.
Qed.

Lemma kfifo_get_correct_witness :
  exists m' f' f'', __kfifo_get kf_mem kf_demo 4 3 = Ret (2, m', f') /\ kfifo_ok m' f' /\
    kfifo_get kf_mem kf_demo 4 3 = Ret (2, m', f'') /\ kfifo_ok m' f'' /\
    take 2 (drop 4 m') = [1; 2] /\
    contents m' f' = [] /\ contents m' f'' = contents m' f' /\
    (contents m' f'' = [] -> kin f'' = 0 /\ kout f'' = 0) /\
    (forall i, (i < 4 \/ 4 + 2 <= i)%nat -> m' !! i = kf_mem !! i).
Proof.
  apply (kfifo_get_correct kf_mem kf_demo 4 3); [apply kf_demo_ok|lia|simpl; lia|right; simpl; lia].
Defined.

(** ** Allocation *)

Lemma land_high_mask x s :
  0 < s <= 32 -> is_u32 x -> Z.land x (Z.shiftl (Z.ones s) (32 - s)) = Z.shiftl (Z.shiftr x (32 - s)) (32 - s).
Proof.
  intros Hs Hx. apply Z.bits_inj'; intros i Hi.
  rewrite Z.land_spec, !Z.shiftl_spec by lia.
  destruct (Z.ltb_spec i (32 - s)); [rewrite (Z.testbit_neg_r (Z.ones s)), (Z.testbit_neg_r (Z.shiftr x _)) by lia; by rewrite andb_false_r|].
  rewrite ones_testbit, Z.shiftr_spec by lia. replace (i - (32 - s) + (32 - s)) with i by lia.
  destruct (Z.ltb_spec (i - (32 - s)) s); [by rewrite andb_true_r|].
  rewrite (word_testbit_high 32 x i) by (done || lia). done.
Qed.

(** One halving step of [generic_fls]: afterwards one of the top [s] bits is set. *)
Lemma fls_stage s x r :
  0 < s <= 16 -> 2 ^ (32 - 2 * s) <= x -> is_u32 x ->
  let '(x', r') := if Z.land x (Z.shiftl (Z.ones s) (32 - s)) =? 0 then (cshl 32 x s, r - s) else (x, r) in
  2 ^ (32 - s) <= x' /\ is_u32 x' /\ r' + Z.log2 x' = r + Z.log2 x.
Proof.
  intros Hs Hlo Hx. rewrite land_high_mask by (done || lia).
  pose proof (Z.pow_pos_nonneg 2 (32 - 2 * s) ltac:(lia) ltac:(lia)) as Hpos.
  assert (Hsplit : 2 ^ (32 - s) = 2 ^ (32 - 2 * s) * 2 ^ s) by (rewrite <-Z.pow_add_r by lia; f_equal; lia).
  assert (H32 : 2 ^ 32 = 2 ^ (32 - s) * 2 ^ s) by (rewrite <-Z.pow_add_r by lia; f_equal; lia).
  pose proof (Z.pow_pos_nonneg 2 s ltac:(lia) ltac:(lia)) as Hps. unfold word in Hx.
  rewrite Z.shiftl_mul_pow2, Z.shiftr_div_pow2 by lia.
  destruct (Z.eqb_spec (x / 2 ^ (32 - s) * 2 ^ (32 - s)) 0) as [E|E].
  - assert (Hlt : x < 2 ^ (32 - s)).
    { destruct (decide (x < 2 ^ (32 - s))); [done|]. exfalso.
      assert (1 <= x / 2 ^ (32 - s)) by (apply Z.div_le_lower_bound; lia). nia. }
    unfold cshl. rewrite Z.shiftl_mul_pow2 by lia. rewrite wrap_small by (unfold word; nia).
    split_and!; [nia|unfold word; nia|]. rewrite Z.log2_mul_pow2 by lia. lia.
  - split_and!; [|done|lia]. destruct (decide (2 ^ (32 - s) <= x)); [done|]. exfalso. apply E.
    rewrite Z.div_small by lia. done.
Qed.

Lemma generic_fls_spec x : 0 < x < 2 ^ 32 -> generic_fls x = Z.log2 x + 1.
Proof.
  intros Hx. unfold generic_fls. destruct (Z.eqb_spec x 0); [lia|]. cbv zeta.
  change 0xffff0000 with (Z.shiftl (Z.ones 16) (32 - 16)). change 0xff000000 with (Z.shiftl (Z.ones 8) (32 - 8)).
  change 0xf0000000 with (Z.shiftl (Z.ones 4) (32 - 4)). change 0xc0000000 with (Z.shiftl (Z.ones 2) (32 - 2)).
  change 0x80000000 with (Z.shiftl (Z.ones 1) (32 - 1)).
  pose proof (fls_stage 16 x 32) as H. destruct (if _ =? 0 then _ else _) as [x1 r1].
  destruct H as (L1 & W1 & E1); [lia|change (2 ^ (32 - 2 * 16)) with 1; lia|unfold word; lia|].
  pose proof (fls_stage 8 x1 r1) as H. destruct (if _ =? 0 then _ else _) as [x2 r2].
  destruct H as (L2 & W2 & E2); [lia|done|done|].
  pose proof (fls_stage 4 x2 r2) as H. destruct (if _ =? 0 then _ else _) as [x3 r3].
  destruct H as (L3 & W3 & E3); [lia|done|done|].
  pose proof (fls_stage 2 x3 r3) as H. destruct (if _ =? 0 then _ else _) as [x4 r4].
  destruct H as (L4 & W4 & E4); [lia|done|done|].
  pose proof (fls_stage 1 x4 r4) as H. destruct (if _ =? 0 then _ else _) as [x5 r5].
  destruct H as (L5 & W5 & E5); [lia|done|done|].
  assert (Z.log2 x5 = 31); [|lia]. unfold word in W5. apply Z.log2_unique; [lia|]. split; [exact L5|apply W5].
Qed.

Lemma land_pred_pow2 x : 0 < x -> Z.land x (x - 1) = 0 <-> x = 2 ^ Z.log2 x.
Proof.
  intros Hx. pose proof (Z.log2_spec x Hx) as [Hlo Hhi]. pose proof (Z.log2_nonneg x) as Hn.
  set (k := Z.log2 x) in *. split.
  - intros E. destruct (decide (x = 2 ^ k)); [done|]. exfalso.
    apply (f_equal (fun z => Z.testbit z k)) in E. rewrite Z.land_spec, Z.testbit_0_l in E.
    assert (Hb : forall y, 2 ^ k <= y < 2 ^ Z.succ k -> Z.testbit y k = true).
    { intros y Hy. rewrite Z.pow_succ_r in Hy by lia. apply Z.testbit_true; [lia|].
      rewrite <-(Z.mod_small 1 2) by lia. f_equal.
      symmetry. apply (Z.div_unique _ _ 1 (y - 2 ^ k)); lia. }
    rewrite !Hb in E by lia. done.
  - intros E. rewrite E. replace (2 ^ k - 1) with (Z.ones k) by (rewrite Z.ones_equiv; lia).
    rewrite Z.land_ones by lia. apply Z.mod_same. lia.
Qed.

(** (allocation): a FIFO of at most 2^31 bytes gets the least power of two
    that is large enough and starts empty and well formed; larger requests
    stop at the [BUG_ON], a failed allocation reports -ENOMEM and the buffer,
    if there is one already, is freed. *)
Theorem kfifo_alloc_correct kmalloc kmalloc' size :
  0 < size < 2 ^ 32 ->
  let n := 2 ^ Z.log2_up size in
  size <= n < 2 * size /\
  if size <=? 2 ^ 31 then
    match kmalloc n, kmalloc' with
    | Some b, true => exists f, kfifo_alloc kmalloc kmalloc' size = Ret (inl f, None) /\ ksize f = n /\ kfifo_free f = b /\
        forall m, (b + Z.to_nat n <= length m)%nat -> kfifo_ok m f /\ contents m f = []
    | freed, _ => kfifo_alloc kmalloc kmalloc' size = Ret (inr (- ENOMEM), freed)
    end
  else kfifo_alloc kmalloc kmalloc' size = Err Bug.
Proof.
  intros Hs n.
  assert (Hn : size <= n < 2 * size).
  { unfold n. destruct (decide (size = 1)) as [->|]; [change (2 ^ Z.log2_up 1) with 1; lia|].
    pose proof (Z.log2_up_spec size ltac:(lia)) as [H1 H2].
    pose proof (Z.log2_up_pos size ltac:(lia)). split; [done|].
    replace (Z.log2_up size) with (Z.succ (Z.pred (Z.log2_up size))) by lia.
    rewrite Z.pow_succ_r by lia. lia. }
  split; [done|].
  assert (Hp2 : (Z.land size (u32 (size - 1)) =? 0) = bool_decide (size = n)).
  { rewrite (u32_small (size - 1)) by lia. pose proof (land_pred_pow2 size ltac:(lia)) as Hl.
    assert (size = n <-> size = 2 ^ Z.log2 size) as Heq.
    { split; intros E; [|unfold n; rewrite E, Z.log2_up_pow2 by apply Z.log2_nonneg; done].
      rewrite E at 1. f_equal. unfold n in E. rewrite E at 2. rewrite Z.log2_pow2 by apply Z.log2_up_nonneg. done. }
    destruct (Z.eqb_spec (Z.land size (size - 1)) 0); case_bool_decide; tauto. }
  assert (Hpow : size <= 2 ^ 31 -> 0 <= Z.log2_up size <= 31).
  { intros Hle. split; [apply Z.log2_up_nonneg|]. change 31 with (Z.log2_up (2 ^ 31)). by apply Z.log2_up_le_mono. }
  assert (Hround : 1 < size -> size <= 2 ^ 31 -> roundup_pow_of_two size = n).
  { intros H1 Hle. unfold roundup_pow_of_two. rewrite (u32_small (size - 1)) by lia.
    rewrite generic_fls_spec by lia. unfold n. rewrite Z.log2_up_eqn by lia.
    replace (Z.pred size) with (size - 1) by lia. unfold cshl. rewrite Z.shiftl_1_l.
    change (Z.succ (Z.log2 (size - 1))) with (Z.log2 (size - 1) + 1). apply wrap_small.
    specialize (Hpow Hle). rewrite Z.log2_up_eqn in Hpow by lia. replace (Z.pred size) with (size - 1) in Hpow by lia.
    split; [apply Z.pow_nonneg; lia|]. apply Z.pow_lt_mono_r; lia. }
  assert (Hinit : forall b k', size <= 2 ^ 31 -> kfifo_init b n k' =
    if k' then Ret (inl (Kfifo b n 0 0)) else Ret (inr (- ENOMEM))).
  { intros b k' Hle. unfold kfifo_init. destruct (pow2_u32 _ (Hpow Hle)) as [Hpn _]. fold n in Hpn.
    rewrite (u32_small (n - 1)) by lia.
    replace (Z.land n (n - 1)) with 0; [by destruct k'|]. symmetry. apply land_pred_pow2; [lia|].
    unfold n. by rewrite Z.log2_pow2 by apply Z.log2_up_nonneg. }
  unfold kfifo_alloc. rewrite Hp2. case_match eqn:E; cbn [negb].
  - apply Z.leb_le in E. assert (Hsz : (if negb (bool_decide (size = n))
      then if 0x80000000 <? size then Err Bug else Ret (roundup_pow_of_two size) else Ret size) = Ret n).
    { case_bool_decide as Heq; cbn [negb]; [by rewrite <-Heq|].
      change 0x80000000 with (2 ^ 31). destruct (Z.ltb_spec (2 ^ 31) size); [lia|]. rewrite Hround; [done| |lia].
      destruct (decide (size = 1)) as [->|]; [|lia]. done. }
    rewrite Hsz. destruct (kmalloc n) as [b|]; [|by destruct kmalloc']. rewrite Hinit by done.
    destruct kmalloc'; [|done]. eexists. split_and!; [done..|]. intros m Hm. cbn [kbuffer ksize].
    split; [|done]. split_and!; cbn [ksize kin kout kbuffer];
      [by exists (Z.log2_up size); auto|unfold word; lia|unfold word; lia|change (0 <= n); lia|done].
  - apply Z.leb_gt in E. case_bool_decide as Heq; cbn [negb].
    + exfalso. assert (Z.log2_up size < 32); [|assert (n <= 2 ^ 31); [apply Z.pow_le_mono_r|]; lia].
      unfold n in Heq. apply (Z.pow_lt_mono_r_iff 2); [lia|lia|]. lia.
    + change 0x80000000 with (2 ^ 31). destruct (Z.ltb_spec (2 ^ 31) size); [done|lia].
Qed.

Lemma kfifo_alloc_correct_witness :
  100 <= 128 < 2 * 100 /\
  exists f, kfifo_alloc (fun _ => Some 8%nat) true 100 = Ret (inl f, None) /\ ksize f = 128 /\ kfifo_free f = 8%nat /\
        forall m, (8 + Z.to_nat 128 <= length m)%nat -> kfifo_ok m f /\ contents m f = [].
Proof. apply (kfifo_alloc_correct (fun _ => Some 8%nat) true 100). lia. Defined.

(** ** One reader and one writer without the lock

    The comment of [__kfifo_put] promises that one concurrent reader and one
    concurrent writer need no lock.  Here the two routines run interleaved:
    each reads the other's index once, copies byte by byte, and publishes its
    own index last.  [sputs] and [sgets] record the bytes whose put and get
    are complete. *)

Module Spsc.

Inductive wstate := WIdle | WCopy (data : list Z) (done : nat).
Inductive rstate := RIdle | RCopy (n : nat) (got : list Z).

Record state := State {
  sring : list Z; sin : Z; sout : Z; swr : wstate; srd : rstate;
  sputs : list Z; sgets : list Z
}.

Section Steps.
Context (size : Z).

Definition at_index (i : Z) : nat := Z.to_nat (Z.land i (u32 (size - 1))).

Definition init (ring : list Z) : state := State ring 0 0 WIdle RIdle [] [].

Inductive step : state -> state -> Prop :=
| put_begin ring i o rd ps gs data :
    step (State ring i o WIdle rd ps gs)
         (State ring i o (WCopy (take (Z.to_nat (u32 (size - i + o))) data) 0) rd ps gs)
| put_copy ring i o data k c rd ps gs :
    data !! k = Some c ->
    step (State ring i o (WCopy data k) rd ps gs)
         (State (<[at_index (i + Z.of_nat k) := c]> ring) i o (WCopy data (S k)) rd ps gs)
| put_publish ring i o data rd ps gs :
    step (State ring i o (WCopy data (length data)) rd ps gs)
         (State ring (u32 (i + Z.of_nat (length data))) o WIdle rd (ps ++ data) gs)
| get_begin ring i o wr ps gs len :
    step (State ring i o wr RIdle ps gs)
         (State ring i o wr (RCopy (Z.to_nat (Z.min len (u32 (i - o)))) []) ps gs)
| get_copy ring i o wr n got ps gs :
    (length got < n)%nat ->
    step (State ring i o wr (RCopy n got) ps gs)
         (State ring i o wr (RCopy n (got ++ [nth (at_index (o + Z.of_nat (length got))) ring 0])) ps gs)
| get_publish ring i o wr n got ps gs :
    length got = n ->
    step (State ring i o wr (RCopy n got) ps gs)
         (State ring i (u32 (o + Z.of_nat n)) wr RIdle ps (gs ++ got)).

Inductive reachable (ring : list Z) : state -> Prop :=
| reachable_init : reachable ring (init ring)
| reachable_step s s' : reachable ring s -> step s s' -> reachable ring s'.

(** ** The invariant

    With [P] bytes put and [G] got, the indices are [P] and [G] modulo 2^32,
    the ring holds the bytes from [G] to [P] and the ones being put, and the
    reader has copied the next ones. *)

Definition written (wr : wstate) : list Z :=
  match wr with WIdle => [] | WCopy data k => take k data end.

Definition pending (wr : wstate) : nat :=
  match wr with WIdle => 0%nat | WCopy data _ => length data end.

Record inv (s : state) : Prop := Inv {
  inv_ring : length (sring s) = Z.to_nat size;
  inv_in : sin s = u32 (Z.of_nat (length (sputs s)));
  inv_out : sout s = u32 (Z.of_nat (length (sgets s)));
  inv_order : (length (sgets s) <= length (sputs s))%nat;
  inv_room : Z.of_nat (length (sputs s) + pending (swr s)) <= Z.of_nat (length (sgets s)) + size;
  inv_wr : match swr s with WIdle => True | WCopy data k => (k <= length data)%nat end;
  inv_data : forall j c, (length (sgets s) <= j)%nat -> (sputs s ++ written (swr s)) !! j = Some c ->
    sring s !! Z.to_nat (Z.of_nat j mod size) = Some c;
  inv_got : sgets s = take (length (sgets s)) (sputs s);
  inv_rd : match srd s with
    | RIdle => True
    | RCopy n got => (length (sgets s) + n <= length (sputs s))%nat /\ (length got <= n)%nat /\
        got = take (length got) (drop (length (sgets s)) (sputs s))
    end
}.

Context (k : Z) (Hk : 0 <= k <= 31) (Hsize : size = 2 ^ k).

Lemma size_pos : 0 < size <= 2 ^ 31.
Proof. rewrite Hsize. by apply pow2_u32. Qed.

Lemma at_index_mod n i : at_index (u32 (Z.of_nat n) + i) = Z.to_nat ((Z.of_nat n + i) mod size).
Proof.
  unfold at_index. rewrite Hsize, mask_mod by done.
  pose proof (proj1 (pow2_u32 k Hk)). rewrite <-Z.add_mod_idemp_l, u32_mod_pow2, Z.add_mod_idemp_l by lia.
  done.
Qed.

Lemma fill_level p g : (g <= p)%nat -> Z.of_nat p <= Z.of_nat g + size ->
  u32 (u32 (Z.of_nat p) - u32 (Z.of_nat g)) = Z.of_nat p - Z.of_nat g.
Proof.
  intros Hg Hp. pose proof size_pos. unfold u32, wrap. rewrite Zminus_mod_idemp_l, Zminus_mod_idemp_r.
  apply Z.mod_small. lia.
Qed.

(** Two indices less than [size] apart have different ring positions. *)
Lemma mod_apart a b : (a < b)%nat -> Z.of_nat b < Z.of_nat a + size ->
  Z.to_nat (Z.of_nat a mod size) <> Z.to_nat (Z.of_nat b mod size).
Proof.
  intros Hab Hb E. pose proof size_pos as Hs.
  pose proof (Z.mod_pos_bound (Z.of_nat a) size ltac:(lia)). pose proof (Z.mod_pos_bound (Z.of_nat b) size ltac:(lia)).
  assert (Hm : (Z.of_nat b - Z.of_nat a) mod size = 0).
  { rewrite Zminus_mod. replace (Z.of_nat b mod size) with (Z.of_nat a mod size) by lia.
    rewrite Z.sub_diag. apply Zmod_0_l. }
  rewrite Z.mod_small in Hm by lia. lia.
Qed.

Lemma inv_init ring : length ring = Z.to_nat size -> inv (init ring).
Proof.
  intros Hr. pose proof size_pos. split; simpl; try done; try lia.
Qed.

Lemma inv_step s s' : inv s -> step s s' -> inv s'.
Proof.
  intros Hi Hst. pose proof size_pos as Hs.
  destruct Hst as [ring i o rd ps gs data|ring i o data w c rd ps gs Hc|ring i o data rd ps gs
    |ring i o wr ps gs len|ring i o wr n got ps gs Hn|ring i o wr n got ps gs Hn];
    destruct Hi as [Hring Hin Hout Hord Hroom Hwr Hdata Hgot Hrd]; cbn in *; subst i o.
  - pose proof (fill_level (length ps) (length gs) Hord ltac:(lia)) as Hf.
    split; cbn; try done; try lia.
    rewrite length_take. rewrite u32_sub_room by lia. lia.
  - pose proof (lookup_lt_Some _ _ _ Hc) as Hlt. split; cbn; try done; try lia.
    + by rewrite length_insert.
    + intros j x Hj Hx. rewrite at_index_mod.
      rewrite (take_S_r _ _ _ Hc), app_assoc in Hx.
      assert (Hlen : length (ps ++ take w data) = (length ps + w)%nat) by (rewrite length_app, length_take; lia).
      replace (Z.of_nat (length ps) + Z.of_nat w) with (Z.of_nat (length ps + w)) by lia.
      apply lookup_app_Some in Hx as [Hx|[Hl Hx]].
      * pose proof (lookup_lt_Some _ _ _ Hx). rewrite list_lookup_insert_ne; [by apply Hdata|].
        apply not_eq_sym, mod_apart; lia.
      * rewrite Hlen in *. destruct (j - (length ps + w))%nat eqn:E; [|done]. simpl in Hx. injection Hx as <-.
        replace j with (length ps + w)%nat by lia. apply list_lookup_insert_eq. rewrite Hring.
        pose proof (Z.mod_pos_bound (Z.of_nat (length ps + w)) size). lia.
  - split; cbn; try done; try lia; rewrite ?length_app in *; try lia.
    + unfold u32, wrap. rewrite Zplus_mod_idemp_l. f_equal. lia.
    + intros j x Hj. rewrite app_nil_r. rewrite firstn_all in Hdata. by apply Hdata.
    + rewrite take_app_le by lia. done.
    + destruct rd as [|n got]; [done|]. destruct Hrd as (H1 & H2 & H3). split_and!; [lia|done|].
      rewrite H3 at 1. rewrite drop_app_le by lia. rewrite take_app_le; [done|]. rewrite length_drop. lia.
  - pose proof (fill_level (length ps) (length gs) Hord) as Hf.
    split; cbn; try done; try lia. split_and!; [|simpl; lia|done]. rewrite Hf; [lia|].
    destruct wr; cbn in *; lia.
  - destruct Hrd as (H1 & H2 & H3). split; cbn; try done. rewrite length_app. simpl. split_and!; [done|lia|].
    rewrite at_index_mod.
    replace (Z.of_nat (length gs) + Z.of_nat (length got)) with (Z.of_nat (length gs + length got)) by lia.
    destruct (lookup_lt_is_Some_2 ps (length gs + length got) ltac:(lia)) as [c Hc].
    assert (Hr : ring !! Z.to_nat (Z.of_nat (length gs + length got) mod size) = Some c).
    { apply Hdata; [lia|]. by apply lookup_app_l_Some. }
    rewrite (nth_lookup_Some _ _ _ _ Hr). rewrite Nat.add_1_r, (take_S_r _ _ c), <-H3; [done|].
    by rewrite lookup_drop.
  - destruct Hrd as (H1 & H2 & H3). subst n. split; cbn; try done; rewrite ?length_app; try lia.
    + unfold u32, wrap. rewrite Zplus_mod_idemp_l. f_equal. lia.
    + intros j x Hj. apply Hdata. lia.
    + rewrite Hgot at 1. rewrite H3 at 1. rewrite take_take_drop. done.
Qed.
End Steps.
End Spsc.

(** C33 (lock-free use): however the steps of one reader and one writer are
    interleaved, the reader's bytes are the writer's bytes in order, and no
    more than the ring's size are in flight. *)
Theorem kfifo_spsc_safe k ring s :
  0 <= k <= 31 -> length ring = Z.to_nat (2 ^ k) -> Spsc.reachable (2 ^ k) ring s ->
  Spsc.sgets s `prefix_of` Spsc.sputs s /\
  Z.of_nat (length (Spsc.sputs s)) <= Z.of_nat (length (Spsc.sgets s)) + 2 ^ k.
Proof.
  intros Hk Hr Hs.
  assert (Hi : Spsc.inv (2 ^ k) s).
  { induction Hs as [|s s' _ IH Hst]; [by apply (Spsc.inv_init _ k)|by apply (Spsc.inv_step _ k Hk eq_refl s s')]. }
  destruct Hi as [_ _ _ _ Hroom _ _ Hgot _]. split; [|lia].
  rewrite Hgot. apply prefix_take.
Qed.

(** A put of one byte, copied but not yet published, then published and got. *)
Lemma kfifo_spsc_safe_witness :
  let s := Spsc.State [7; 0] 1 1 Spsc.WIdle Spsc.RIdle [7] [7] in
  Spsc.sgets s `prefix_of` Spsc.sputs s /\
  Z.of_nat (length (Spsc.sputs s)) <= Z.of_nat (length (Spsc.sgets s)) + 2 ^ 1.
Proof.
  apply (kfifo_spsc_safe 1 [0; 0]); [lia|reflexivity|].
  apply (Spsc.reachable_step 2 _ (Spsc.State [7; 0] 1 0 Spsc.WIdle (Spsc.RCopy 1 [7]) [7] []));
    [|apply (Spsc.get_publish 2 [7; 0] 1 0 Spsc.WIdle 1 [7] [7] []); reflexivity].
  apply (Spsc.reachable_step 2 _ (Spsc.State [7; 0] 1 0 Spsc.WIdle (Spsc.RCopy 1 []) [7] []));
    [|apply (Spsc.get_copy 2 [7; 0] 1 0 Spsc.WIdle 1 [] [7] []); simpl; lia].
  apply (Spsc.reachable_step 2 _ (Spsc.State [7; 0] 1 0 Spsc.WIdle Spsc.RIdle [7] []));
    [|apply (Spsc.get_begin 2 [7; 0] 1 0 Spsc.WIdle [7] [] 5)].
  apply (Spsc.reachable_step 2 _ (Spsc.State [7; 0] 0 0 (Spsc.WCopy [7] 1) Spsc.RIdle [] []));
    [|apply (Spsc.put_publish 2 [7; 0] 0 0 [7] Spsc.RIdle [] [])].
  apply (Spsc.reachable_step 2 _ (Spsc.State [0; 0] 0 0 (Spsc.WCopy [7] 0) Spsc.RIdle [] []));
    [|apply (Spsc.put_copy 2 [0; 0] 0 0 [7] 0 7 Spsc.RIdle [] []); reflexivity].
  apply (Spsc.reachable_step 2 _ (Spsc.init [0; 0])); [constructor|].
  apply (Spsc.put_begin 2 [0; 0] 0 0 Spsc.RIdle [] [] [7]).
Defined.
