(* ===== verification/BitmapText.v ===== *)
(** * Bitmaps as text (kernel lib/bitmap.c)

    The list format ([bitmap_scnlistprintf], read back by [bitmap_parselist]
    of [Bitmap]) and the hexadecimal format ([bitmap_scnprintf] and
    [bitmap_parse]).  Text lives in a byte memory, bitmaps in the word memory
    of [Bitmap]; user memory is a list of bytes, [None] where an access
    faults. *)

From S2P Require Import Prelude CMem Ctype Vsprintf Format Cmdline Bitmap Findbit BitmapMap Kfifo.
From Stdlib Require String.
Import String.StringSyntax.

(** ** The list format: routines *)

Definition bscnl_emit (tm : mem) (buf buflen rbot rtop len : Z) : outcome (Z * mem) :=
  let! (len, tm) :=
    (if 0 <? len then
       let! (k, tm, _) := scnprintf tm (buf + len) (buflen - len) (codes ",") [] in Ret (len + k, tm)
     else Ret (len, tm)) in
  let! (k, tm, _) :=
    (if rbot =? rtop then scnprintf tm (buf + len) (buflen - len) (codes "%d") [VNum rbot]
     else scnprintf tm (buf + len) (buflen - len) (codes "%d-%d") [VNum rbot; VNum rtop]) in
  Ret (len + k, tm).

Section List.
Context `{FindBit}.

Fixpoint scnlist_loop (fuel : nat) (tm : mem) (buf buflen : Z) (m : mem) (maskp : addr) (nmaskbits : nat)
    (rbot cur : nat) (len : Z) : outcome (Z * mem) :=
  if (cur <? nmaskbits)%nat then
    match fuel with
    | O => Err Diverge
    | S fuel =>
        let rtop := cur in
        let! cur := find_next_bit m maskp nmaskbits (S cur) in
        if (nmaskbits <=? cur)%nat || (rtop + 1 <? cur)%nat then
          let! (len, tm) := bscnl_emit tm buf buflen (Z.of_nat rbot) (Z.of_nat rtop) len in
          scnlist_loop fuel tm buf buflen m maskp nmaskbits cur cur len
        else scnlist_loop fuel tm buf buflen m maskp nmaskbits rbot cur len
    end
  else Ret (len, tm).

Definition bitmap_scnlistprintf (tm : mem) (buf buflen : Z) (m : mem) (maskp : addr) (nmaskbits : nat) :
    outcome (Z * mem) :=
  let! cur := find_first_bit m maskp nmaskbits in
  scnlist_loop nmaskbits tm buf buflen m maskp nmaskbits cur cur 0.
End List.

(** ** The hexadecimal format: routines *)

Definition CHUNKSZ : nat := 32.

(** [n] chunks are left, [i] being [32 * (n - 1)]; a chunk is a word. *)
Fixpoint scn_loop (n : nat) (tm : mem) (buf buflen : Z) (m : mem) (maskp : addr)
    (chunksz len : Z) (sep : list Z) : outcome (Z * mem) :=
  match n with
  | O => Ret (len, tm)
  | S n =>
      let i := (CHUNKSZ * n)%nat in
      let chunkmask := u32 (Z.shiftl 1 chunksz - 1) in
      let! w := load m (maskp + i / BITS_PER_LONG) in
      let val := Z.land (Z.shiftr w (Z.of_nat (i mod BITS_PER_LONG))) chunkmask in
      let! (k, tm, _) := scnprintf tm (buf + len) (buflen - len) (codes "%s%0*lx")
                           [VStr sep; VNum ((chunksz + 3) / 4); VNum val] in
      scn_loop n tm buf buflen m maskp (Z.of_nat CHUNKSZ) (len + k) (codes ",")
  end.

Definition bitmap_scnprintf (tm : mem) (buf buflen : Z) (m : mem) (maskp : addr) (nmaskbits : nat) :
    outcome (Z * mem) :=
  let chunksz := Z.land (Z.of_nat nmaskbits) (Z.of_nat CHUNKSZ - 1) in
  let chunksz := if chunksz =? 0 then Z.of_nat CHUNKSZ else chunksz in
  scn_loop (BITS_TO_LONGS nmaskbits) tm buf buflen m maskp chunksz 0 [].

Definition EFAULT : Z := 14.
Definition EOVERFLOW : Z := 75.

Definition unhex (c : Z) : Z := if isdigit c then c - 48 else toupper c - 65 + 10.

(** The inner loop: a chunk, or the error the function returns. *)
Fixpoint parse_chunk (ubuf : list (option Z)) (c chunk ndigits totaldigits : Z) :
    Z + (list (option Z) * Z * Z * Z * Z) :=
  match ubuf with
  | [] => inr (ubuf, c, chunk, ndigits, totaldigits)
  | None :: _ => inl (- EFAULT)
  | Some x :: ubuf =>
      let old_c := c in
      let c := x in
      if isspace c then parse_chunk ubuf c chunk ndigits totaldigits
      else if negb (totaldigits =? 0) && negb (c =? 0) && isspace old_c then inl (- EINVAL)
      else if (c =? 0) || (c =? 44) then inr (ubuf, c, chunk, ndigits, totaldigits)
      else if negb (isxdigit c) then inl (- EINVAL)
      else if negb (Z.land chunk (cnot 32 (Z.shiftl 1 (Z.of_nat CHUNKSZ - 4) - 1)) =? 0) then inl (- EOVERFLOW)
      else parse_chunk ubuf c (Z.lor (cshl 32 chunk 4) (unhex c)) (ndigits + 1) (totaldigits + 1)
  end.

Fixpoint parse_loop (fuel : nat) (ubuf : list (option Z)) (m : mem) (maskp : addr) (nmaskbits : nat)
    (c totaldigits nchunks nbits : Z) : outcome (Z * mem) :=
  match fuel with
  | O => Err Diverge
  | S fuel =>
      match parse_chunk ubuf c 0 0 totaldigits with
      | inl err => Ret (err, m)
      | inr (ubuf, c, chunk, ndigits, totaldigits) =>
          let more := negb (length ubuf =? 0)%nat && (c =? 44) in
          if ndigits =? 0 then Ret (- EINVAL, m)
          else if (nchunks =? 0) && (chunk =? 0) then
            if more then parse_loop fuel ubuf m maskp nmaskbits c totaldigits nchunks nbits else Ret (0, m)
          else
            let! m := __bitmap_shift_left m maskp maskp CHUNKSZ nmaskbits in
            let! w := load m maskp in
            let! m := store m maskp (Z.lor w chunk) in
            let nchunks := nchunks + 1 in
            let nbits := nbits + (if nchunks =? 1 then generic_fls chunk else Z.of_nat CHUNKSZ) in
            if Z.of_nat nmaskbits <? nbits then Ret (- EOVERFLOW, m)
            else if more then parse_loop fuel ubuf m maskp nmaskbits c totaldigits nchunks nbits else Ret (0, m)
      end
  end.

Definition bitmap_parse (ubuf : list (option Z)) (m : mem) (maskp : addr) (nmaskbits : nat) :
    outcome (Z * mem) :=
  let! m := bitmap_zero m maskp nmaskbits in
  parse_loop (S (length ubuf)) ubuf m maskp nmaskbits 0 0 0 0.

(** ** What the list format prints *)

Definition range_str (r : Z * Z) : list Z :=
  if r.1 =? r.2 then dec r.1 else dec r.1 ++ 45 :: dec r.2.

(** [rs] after the text printed so far. *)
Definition join_to (text : list Z) (r : Z * Z) : list Z :=
  match text with [] => range_str r | _ => text ++ 44 :: range_str r end.

Lemma dec_length_31 n : 0 <= n < 2 ^ 31 -> (length (dec n) <= 10)%nat.
Proof. intros Hn. apply dec_length; [lia|]. simpl in *. lia. Qed.

Lemma range_str_length r : 0 <= r.1 < 2 ^ 31 -> 0 <= r.2 < 2 ^ 31 -> (length (range_str r) <= 21)%nat.
Proof.
  intros H1 H2. pose proof (dec_length_31 _ H1). pose proof (dec_length_31 _ H2).
  unfold range_str. case_match; [lia|]. rewrite length_app. simpl. lia.
Qed.

Lemma prints_range r :
  0 <= r.1 < 2 ^ 31 -> 0 <= r.2 < 2 ^ 31 -> r.1 <> r.2 ->
  prints (codes "%d-%d") [VNum r.1; VNum r.2] (range_str r).
Proof.
  intros H1 H2 Hne. unfold range_str. rewrite (proj2 (Z.eqb_neq _ _) Hne).
  apply (prints_d r.1 (codes "-%d")); [done|]. apply prints_char; [done..|].
  rewrite <-(app_nil_r (dec r.2)). apply (prints_d r.2 []); [done|]. apply prints_nil.
Qed.

Lemma prints_number r : 0 <= r.1 < 2 ^ 31 -> r.1 = r.2 -> prints (codes "%d") [VNum r.1] (range_str r).
Proof.
  intros H1 E%Z.eqb_eq. unfold range_str. rewrite E.
  rewrite <-(app_nil_r (dec r.1)). apply (prints_d r.1 []); [done|]. apply prints_nil.
Qed.

Lemma emit_spec m0 buf n text tm len r :
  0 < buf -> 0 < n < 2 ^ 31 -> buf + n <= Z.of_nat (length m0) <= 2 ^ 32 -> buf + n + 32 <= 2 ^ 32 ->
  0 <= r.1 < 2 ^ 31 -> 0 <= r.2 < 2 ^ 31 -> printed m0 buf n text tm len ->
  exists len' tm', bscnl_emit tm buf n r.1 r.2 len = Ret (len', tm') /\
    printed m0 buf n (join_to text r) tm' len'.
Proof.
  intros Hb Hn Hm Hroom H1 H2 Hp. pose proof (range_str_length r H1 H2) as Hl.
  assert (Hnum : forall text' tm' len', printed m0 buf n text' tm' len' ->
    exists k tm2, (if r.1 =? r.2 then scnprintf tm' (buf + len') (n - len') (codes "%d") [VNum r.1]
      else scnprintf tm' (buf + len') (n - len') (codes "%d-%d") [VNum r.1; VNum r.2]) = Ret (k, tm2, []) /\
      printed m0 buf n (text' ++ range_str r) tm2 (len' + k)).
  { intros text' tm' len' Hp'. destruct (Z.eqb_spec r.1 r.2).
    - apply (printed_next m0 buf n text' tm' len'); try done; [lia|lia|]. by apply prints_number.
    - apply (printed_next m0 buf n text' tm' len'); try done; [lia|lia|]. by apply prints_range. }
  assert (Hsep : exists len' tm', (if 0 <? len then
        let! (k, tm, _) := scnprintf tm (buf + len) (n - len) (codes ",") [] in Ret (len + k, tm)
      else Ret (len, tm)) = Ret (len', tm') /\
      printed m0 buf n (match text with [] => [] | _ => text ++ [44] end) tm' len').
  { pose proof Hp as [Hlen _]. destruct (Z.ltb_spec 0 len) as [Hlt|Hge].
    - destruct (printed_next m0 buf n text tm len (codes ",") [] [44]) as (k & tm' & -> & Hp'); try done.
      { simpl. lia. }
      { apply prints_char; [done..|]. apply prints_nil. }
      do 2 eexists. split; [done|]. destruct text; [simpl in Hlen; lia|done].
    - do 2 eexists. split; [done|]. destruct text as [|c text]; [done|].
      destruct Hp as [_ [[? _]|Htm]]; [done|]. split; [|right].
      + rewrite length_app. simpl in Hlen |- *. lia.
      + simpl in Hlen. by replace (Z.to_nat (n - 1)) with 0%nat in * by lia. }
  unfold bscnl_emit. destruct Hsep as (len1 & tm1 & -> & Hp1).
  destruct (Hnum _ _ _ Hp1) as (k & tm2 & -> & Hp2). do 2 eexists. split; [done|].
  destruct text as [|c text]; [done|]. unfold join_to. rewrite <-app_assoc in Hp2. done.
Qed.

(** The maximal runs of set bits, from [lo] on. *)
Fixpoint runs_from (lo : Z) (rs : list (Z * Z)) : Prop :=
  match rs with
  | [] => True
  | r :: rs => lo <= r.1 <= r.2 /\ runs_from (r.2 + 2) rs
  end.

Lemma join_to_join text ts r :
  text = join (map range_str ts) -> Forall (fun r => range_str r <> []) ts ->
  join_to text r = join (map range_str (ts ++ [r])).
Proof.
  intros -> Hne. destruct ts as [|t ts]; [done|]. apply Forall_cons_1 in Hne as [Ht Hne].
  assert (Hj : forall t ts, Forall (fun r => range_str r <> []) (t :: ts) ->
    join (map range_str (t :: ts)) <> [] /\
    join (map range_str ((t :: ts) ++ [r])) = join (map range_str (t :: ts)) ++ 44 :: range_str r).
  { clear. intros t ts. revert t. induction ts as [|t' ts IH]; intros t Hf; apply Forall_cons_1 in Hf as [Ht Hf].
    - done.
    - destruct (IH t' Hf) as [IH1 IH2]. simpl in *. rewrite IH2. split; [by destruct (range_str t)|].
      by rewrite <-app_assoc. }
  destruct (Hj t ts ltac:(by constructor)) as [Hne' ->]. unfold join_to.
  by destruct (join (map range_str (t :: ts))).
Qed.

Lemma range_str_nonempty r : 0 <= r.1 < 2 ^ 31 -> range_str r <> [].
Proof.
  intros Hr. assert (dec r.1 <> []) by (apply dec_nonempty; unfold word; lia).
  unfold range_str. by destruct (r.1 =? r.2), (dec r.1).
Qed.

Section ListSpec.
Context `{FindBit} (m0 : mem) (buf n : Z) (m : mem) (p : addr) (bits : nat).
Context (Hb : 0 < buf) (Hn : 0 < n < 2 ^ 31) (Hm0 : buf + n <= Z.of_nat (length m0) <= 2 ^ 32) (Hroom : buf + n + 32 <= 2 ^ 32).
Context (Hok : bitmap_ok m p bits) (Hr : readable m p bits) (Hbits : Z.of_nat bits < 2 ^ 31).

(** The runs [rs] are those below [rbot], where the next one begins. *)
Record runs_below (rs : list (Z * Z)) (rbot : nat) : Prop := {
  rb_runs : forall rs', (rbot < bits)%nat \/ rs' = [] -> runs_from (Z.of_nat rbot) rs' -> runs_from 0 (rs ++ rs');
  rb_range : Forall (fun r => 0 <= r.1 <= r.2 /\ r.2 < Z.of_nat rbot /\ r.2 < Z.of_nat bits) rs;
  rb_bits : forall i, (i < rbot)%nat -> (i < bits)%nat -> bit m p i = existsb (fun r => in_range r i) rs }.

Lemma in_range_below rs rbot i :
  Forall (fun r => 0 <= r.1 <= r.2 /\ r.2 < Z.of_nat rbot /\ r.2 < Z.of_nat bits) rs -> (rbot <= i)%nat ->
  existsb (fun r => in_range r i) rs = false.
Proof.
  intros Hf Hi. induction Hf as [|r rs (_ & Hlt & _) _ IH]; simpl; [done|]. rewrite IH.
  unfold in_range. destruct (Z.leb_spec (Z.of_nat i) r.2); [lia|]. by rewrite andb_false_r.
Qed.

(** A run ends at [rtop], the next set bit being [cur]. *)
Lemma runs_below_snoc rs rbot rtop cur :
  runs_below rs rbot -> (rbot <= rtop < bits)%nat -> (forall i, (rbot <= i <= rtop)%nat -> bit m p i = true) ->
  finds true m p bits (S rtop) cur -> (bits <= cur)%nat \/ (rtop + 1 < cur)%nat ->
  runs_below (rs ++ [(Z.of_nat rbot, Z.of_nat rtop)]) cur.
Proof.
  intros [Hruns Hrange Hrb] Ht Hset (Hle & Hclear & _) Hend. split.
  - intros rs' Hrs' Hf. rewrite <-app_assoc. apply Hruns; [left; lia|]. simpl. split; [lia|].
    destruct Hrs' as [?| ->]; [|done]. destruct rs' as [|r rs']; [done|]. simpl in *. split; [lia|apply Hf].
  - apply Forall_app_2; [|repeat constructor; simpl; lia].
    eapply Forall_impl; [exact Hrange|]. simpl. lia.
  - intros i Hi Hib. rewrite existsb_app. simpl. rewrite orb_false_r. unfold in_range at 2. cbn [fst snd].
    destruct (decide (i < rbot)%nat).
    + rewrite Hrb by done. destruct (Z.leb_spec (Z.of_nat rbot) (Z.of_nat i)); [lia|]. by rewrite orb_false_r.
    + rewrite (in_range_below rs rbot) by (done || lia).
      destruct (Z.leb_spec (Z.of_nat rbot) (Z.of_nat i)); [|lia].
      destruct (Z.leb_spec (Z.of_nat i) (Z.of_nat rtop)); simpl; [apply Hset; lia|apply Hclear; lia].
Qed.

Lemma scnlist_loop_spec fuel tm rs rbot cur len :
  printed m0 buf n (join (map range_str rs)) tm len -> runs_below rs rbot ->
  (rbot <= cur)%nat -> ((cur < bits)%nat -> forall i, (rbot <= i <= cur)%nat -> bit m p i = true) ->
  ((bits <= cur)%nat -> rbot = cur) -> (bits - cur <= fuel)%nat ->
  exists rs' len' tm', scnlist_loop fuel tm buf n m p bits rbot cur len = Ret (len', tm') /\
    printed m0 buf n (join (map range_str rs')) tm' len' /\
    exists e, (bits <= e)%nat /\ runs_below rs' e.
Proof.
  revert tm rs rbot cur len. induction fuel as [|fuel IH]; intros tm rs rbot cur len Hp Hrs Hle Hset Heq Hf;
    cbn [scnlist_loop]; destruct (Nat.ltb_spec cur bits) as [Hlt|Hge]; [lia| | |].
  1,3: exists rs, len, tm; split; [done|]; split; [done|]; exists cur; split; [done|];
    rewrite <-(Heq Hge); done.
  destruct (find_next_bit_finds m p bits (S cur) Hok) as (c & -> & Hfind); [lia| |].
  { unfold readable in *. pose proof (Nat.Div0.div_le_mono (S cur) bits 32). lia. }
  pose proof Hfind as (Hc & _ & Hcb). specialize (Hset Hlt).
  destruct ((bits <=? c)%nat || (cur + 1 <? c)%nat) eqn:E.
  - apply orb_true_iff in E. rewrite Nat.leb_le, Nat.ltb_lt in E.
    destruct (emit_spec m0 buf n (join (map range_str rs)) tm len (Z.of_nat rbot, Z.of_nat cur) Hb Hn Hm0 Hroom)
      as (len' & tm' & Hemit & Hp'); [simpl; lia..|done|]. cbn [fst snd] in Hemit. rewrite Hemit.
    rewrite (join_to_join _ rs) in Hp'; [|done|].
    2: { eapply Forall_impl; [apply Hrs|]. intros r (H1 & H2 & H3). apply range_str_nonempty. lia. }
    apply (IH tm' (rs ++ [(Z.of_nat rbot, Z.of_nat cur)])); [done| |done| |done|lia].
    + by apply runs_below_snoc.
    + intros Hcl i Hi. replace i with c by lia. auto.
  - apply orb_false_iff in E as [E1%Nat.leb_gt E2%Nat.ltb_ge]. assert (c = S cur) as -> by lia.
    apply (IH tm rs); [done..|lia| |lia|lia].
    intros _ i Hi. destruct (decide (i = S cur)) as [->|]; [auto|]. apply Hset. lia.
Qed.

(** The list printed is that of the maximal runs of set bits. *)
Lemma scnlist_spec :
  exists rs len tm, bitmap_scnlistprintf m0 buf n m p bits = Ret (len, tm) /\
    printed m0 buf n (join (map range_str rs)) tm len /\
    runs_from 0 rs /\ Forall (fun r => 0 <= r.1 <= r.2 /\ r.2 < Z.of_nat bits) rs /\
    forall i, (i < bits)%nat -> bit m p i = existsb (fun r => in_range r i) rs.
Proof.
  unfold bitmap_scnlistprintf. destruct (find_first_bit_finds m p bits Hok) as (c & -> & _ & Hclear & Hcb).
  destruct (scnlist_loop_spec bits m0 [] c c 0) as (rs & len & tm & -> & Hp & e & He & [Hruns Hrange Hrb]).
  - apply printed_start. lia.
  - split; [intros rs' _ Hf; simpl|constructor|intros i Hi Hib; simpl; by apply Hclear; [lia|]].
    destruct rs' as [|r rs']; [done|]. simpl in *. split; [lia|apply Hf].
  - done.
  - intros Hlt i Hi. replace i with c by lia. auto.
  - done.
  - lia.
  - exists rs, len, tm. split; [done|]. split; [done|]. split_and!.
    + specialize (Hruns []). rewrite app_nil_r in Hruns. apply Hruns; [by right|done].
    + eapply Forall_impl; [exact Hrange|]. simpl. lia.
    + intros i Hi. apply Hrb; lia.
Qed.
End ListSpec.

(** (list printing): the text is the comma-separated list of the maximal
    runs of set bits in ascending order, cut to the buffer, and the result is
    the number of characters stored. *)
Theorem bitmap_scnlistprintf_correct `{FindBit} tm buf n m p bits :
  0 < buf -> 0 < n < 2 ^ 31 -> buf + n <= Z.of_nat (length tm) <= 2 ^ 32 -> buf + n + 32 <= 2 ^ 32 ->
  bitmap_ok m p bits -> readable m p bits -> Z.of_nat bits < 2 ^ 31 ->
  exists rs len tm', bitmap_scnlistprintf tm buf n m p bits = Ret (len, tm') /\
    printed tm buf n (join (map range_str rs)) tm' len /\
    runs_from 0 rs /\ Forall (fun r => 0 <= r.1 <= r.2 /\ r.2 < Z.of_nat bits) rs /\
    forall i, (i < bits)%nat -> bit m p i = existsb (fun r => in_range r i) rs.
Proof. apply scnlist_spec. Qed.

Lemma bitmap_scnlistprintf_correct_witness :
  exists rs len tm', bitmap_scnlistprintf (replicate 16 7) 1 12 remap_demo 2 40 = Ret (len, tm') /\
    printed (replicate 16 7) 1 12 (join (map range_str rs)) tm' len /\
    runs_from 0 rs /\ Forall (fun r => 0 <= r.1 <= r.2 /\ r.2 < Z.of_nat 40) rs /\
    forall i, (i < 40)%nat -> bit remap_demo 2 i = existsb (fun r => in_range r i) rs.
Proof.
  apply (bitmap_scnlistprintf_correct (replicate 16 7) 1 12 remap_demo 2 40); [lia|lia|simpl; lia|lia| | |lia].
  - apply remap_demo_ok. lia.
  - apply Nat.ltb_lt. reflexivity.
Defined.

Lemma range_str_text r : 0 <= r.1 < 2 ^ 31 -> 0 <= r.2 < 2 ^ 31 -> range_text (range_str r) r.
Proof.
  intros H1 H2. assert (Hd : forall n, 0 <= n < 2 ^ 31 -> num10 (dec n) n).
  { intros n Hn. destruct (dec_digits n) as (vs & -> & Hsp); [unfold word; lia|]. exists vs.
    split; [|split; [done|unfold word; lia]]. destruct Hsp as (_ & Hf & _).
    clear -Hf. induction Hf as [|v vs Hv _ IH]; [done|]. cbn [map]. by rewrite IH, digit_small by lia. }
  unfold range_str, range_text. destruct (Z.eqb_spec r.1 r.2) as [E|E]; [left; auto|right; eauto 10].
Qed.

(** (list round trip): a bitmap that is not empty and whose list fits the
    buffer is read back by [bitmap_parselist], for an ending NUL or newline. *)
Theorem bitmap_list_roundtrip `{FindBit} tm buf n m p bits m2 q rest :
  0 < buf -> 0 < n < 2 ^ 31 -> buf + n <= Z.of_nat (length tm) <= 2 ^ 32 -> buf + n + 32 <= 2 ^ 32 ->
  bitmap_ok m p bits -> readable m p bits -> Z.of_nat bits < 2 ^ 31 ->
  (exists i, (i < bits)%nat /\ bit m p i = true) -> bitmap_ok m2 q bits -> at_end rest ->
  exists text len tm', bitmap_scnlistprintf tm buf n m p bits = Ret (len, tm') /\
    printed tm buf n text tm' len /\
    exists m3, bitmap_parselist (text ++ rest) m2 q bits = Ret (0, m3) /\
      forall i, (i < bits)%nat -> bit m3 q i = bit m p i.
Proof.
  intros Hb Hn Htm Hroom Hok Hr Hbits (j & Hj & Hbj) Hq Hend.
  destruct (scnlist_spec tm buf n m p bits) as (rs & len & tm' & E & Hp & _ & Hrs & Hbit); [done..|].
  exists (join (map range_str rs)), len, tm'. split; [done|]. split; [done|].
  assert (Hne : rs <> []) by (intros ->; rewrite Hbit in Hbj by done; done).
  destruct (bitmap_parselist_spec (map range_str rs) rs rest m2 q bits) as (m3 & E3 & Hb3); try done.
  - clear -Hrs Hbits. induction Hrs as [|r rs Hr' _ IH]; simpl; constructor; [|done].
    apply range_str_text; lia.
  - by destruct rs.
  - eapply Forall_impl; [exact Hrs|]. simpl. lia.
  - exists m3. split; [done|]. intros i Hi. by rewrite Hb3, Hbit.
Qed.

(** The empty bitmap prints an empty list, which the parser rejects. *)
Example empty_list_rejected :
  bitmap_scnlistprintf (replicate 4 7) 1 3 [0; 0] 0 32 = Ret (0, replicate 4 7) /\
  bitmap_parselist [] [0; 0] 0 32 = Ret (- EINVAL, [0; 0]).
Proof. split; reflexivity. Qed.

(** ** Reading the hexadecimal format *)

(** The number a chunk spells, and the number a list of chunks spells. *)
Definition chunk_value (cs : list Z) : Z := horner 16 (map unhex cs) 0.
Definition chunks_value (css : list (list Z)) (acc : Z) : Z :=
  fold_left (fun a cs => a * 2 ^ 32 + chunk_value cs) css acc.

Definition hex_chunk (cs : list Z) : Prop :=
  cs <> [] /\ Forall (fun c => is_byte c /\ isxdigit c = true) cs /\ chunk_value cs < 2 ^ 32.

Definition spaces (sp : list Z) : Prop := Forall (fun c => isspace c = true) sp.

(** What may follow the last chunk: white space, and then the end of the
    buffer or a NUL. *)
Definition parse_end (tail : list (option Z)) : Prop :=
  exists sp, spaces sp /\ (tail = map Some sp \/ exists junk, tail = map Some sp ++ Some 0 :: junk).

Lemma xdigit_facts c :
  is_byte c -> isxdigit c = true -> isspace c = false /\ c <> 0 /\ c <> 44 /\ 0 <= unhex c < 16.
Proof.
  intros Hc Hx.
  assert (H : negb (isxdigit c) || (negb (isspace c) && negb (c =? 0) && negb (c =? 44) &&
      (0 <=? unhex c) && (unhex c <? 16)) = true).
  { clear Hx. revert c Hc. by_bytes (fun c => negb (isxdigit c) || (negb (isspace c) && negb (c =? 0) &&
      negb (c =? 44) && (0 <=? unhex c) && (unhex c <? 16))). }
  rewrite Hx in H. cbn [negb orb] in H. rewrite !andb_true_iff, !negb_true_iff, !Z.eqb_neq, Z.leb_le, Z.ltb_lt in H.
  tauto.
Qed.

Lemma horner_mono base vs a b : 0 <= base -> a <= b -> horner base vs a <= horner base vs b.
Proof.
  intros Hb. revert a b. induction vs as [|v vs IH]; intros a b Hab; simpl; [done|]. apply IH. nia.
Qed.

Lemma horner_ge base vs a :
  1 <= base -> Forall (fun v => 0 <= v) vs -> 0 <= a -> a <= horner base vs a.
Proof.
  intros Hb Hf. revert a. induction Hf as [|v vs Hv _ IH]; intros a Ha; simpl; [done|].
  etrans; [|apply IH; nia]. nia.
Qed.

(** One digit more: the guard against overflow lets it pass. *)
Lemma chunk_digit chunk v :
  0 <= chunk -> 0 <= v < 16 -> chunk * 16 + v < 2 ^ 32 ->
  Z.land chunk (cnot 32 (Z.shiftl 1 (Z.of_nat CHUNKSZ - 4) - 1)) = 0 /\
  Z.lor (cshl 32 chunk 4) v = chunk * 16 + v.
Proof.
  intros Hc Hv Hb. assert (Hc28 : word 28 chunk) by (unfold word; lia). split.
  - change (Z.of_nat CHUNKSZ - 4) with 28. rewrite mask_ones. bits.
    rewrite (word_testbit_high 28 chunk) by (done || lia). done.
  - unfold cshl. rewrite wrap_small.
    2: { rewrite Z.shiftl_mul_pow2 by lia. unfold word in *. lia. }
    by apply lor_shift_add.
Qed.

Lemma parse_chunk_digits cs rest c chunk nd td :
  Forall (fun c => is_byte c /\ isxdigit c = true) cs ->
  0 <= chunk -> horner 16 (map unhex cs) chunk < 2 ^ 32 -> 0 <= td -> td = 0 \/ isspace c = false ->
  parse_chunk (map Some cs ++ rest) c chunk nd td =
    parse_chunk rest (default c (last cs)) (horner 16 (map unhex cs) chunk)
      (nd + Z.of_nat (length cs)) (td + Z.of_nat (length cs)).
Proof.
  intros Hcs. revert c chunk nd td. induction Hcs as [|x cs [Hx Hxd] Hcs IH]; intros c chunk nd td Hch Hlt Htd Hsp.
  { simpl. by rewrite !Z.add_0_r. }
  destruct (xdigit_facts x Hx Hxd) as (Hxs & Hx0 & Hx44 & Hux).
  cbn [map app parse_chunk]. rewrite Hxs, Hxd, (proj2 (Z.eqb_neq _ _) Hx0), (proj2 (Z.eqb_neq _ _) Hx44).
  cbn [negb]. rewrite andb_true_r.
  assert (negb (td =? 0) && isspace c = false) as -> by (destruct Hsp as [->| ->]; [done|apply andb_false_r]).
  change (horner 16 (map unhex cs) (chunk * 16 + unhex x) < 2 ^ 32) in Hlt.
  assert (Hge : chunk * 16 + unhex x <= horner 16 (map unhex cs) (chunk * 16 + unhex x)).
  { apply horner_ge; [lia| |lia]. apply Forall_map. eapply Forall_impl; [exact Hcs|]. intros y [Hy Hyd].
    destruct (xdigit_facts y Hy Hyd) as (_ & _ & _ & ?). simpl. lia. }
  destruct (chunk_digit chunk (unhex x)) as [Hm Hv]; [done|done|lia|].
  rewrite Hm, Hv. cbn [Z.eqb negb]. rewrite IH; [|lia|done|lia|by right].
  cbn [orb]. f_equal; [|cbn [length]; lia..]. rewrite last_cons. by destruct (last cs).
Qed.

Lemma parse_chunk_spaces sp rest c chunk nd td :
  spaces sp -> exists c', parse_chunk (map Some sp ++ rest) c chunk nd td = parse_chunk rest c' chunk nd td /\
    (sp = [] /\ c' = c \/ isspace c' = true).
Proof.
  intros Hsp. revert c. induction Hsp as [|x sp Hx _ IH]; intros c; [exists c; auto|].
  cbn [map app parse_chunk]. rewrite Hx. destruct (IH x) as (c' & -> & Hc'). exists c'. split; [done|].
  destruct Hc' as [[_ ->]|?]; by right.
Qed.

(** The end of the last chunk. *)
Lemma parse_chunk_end tail c chunk nd td :
  parse_end tail -> isspace c = false -> c <> 44 ->
  exists ubuf c', parse_chunk tail c chunk nd td = inr (ubuf, c', chunk, nd, td) /\ c' <> 44.
Proof.
  intros (sp & Hsp & Ht) Hc H44.
  assert (Hsp44 : forall c', isspace c' = true -> c' <> 44) by (intros c' H ->; done).
  destruct Ht as [->|[junk ->]].
  - destruct (parse_chunk_spaces sp [] c chunk nd td Hsp) as (c' & E & Hc').
    rewrite app_nil_r in E. rewrite E. cbn [parse_chunk]. do 2 eexists. split; [done|].
    destruct Hc' as [[_ ->]|?]; auto.
  - destruct (parse_chunk_spaces sp (Some 0 :: junk) c chunk nd td Hsp) as (c' & -> & _).
    cbn [parse_chunk]. change (isspace 0) with false. rewrite andb_false_r. cbn.
    by do 2 eexists.
Qed.

(** *** One chunk into the bitmap *)

(** The bitmap holds the number read so far, when it fits. *)
Definition holds_value (m : mem) (p : addr) (bits : nat) (acc : Z) : Prop :=
  bitmap_ok m p bits /\ forall i, (i < bits)%nat -> bit m p i = Z.testbit acc (Z.of_nat i).

Lemma shift_in m p bits acc v :
  (0 < bits)%nat -> holds_value m p bits acc -> is_u32 v ->
  exists m1 m2 w, __bitmap_shift_left m p p CHUNKSZ bits = Ret m1 /\ load m1 p = Ret w /\
    store m1 p (Z.lor w v) = Ret m2 /\ holds_value m2 p bits (acc * 2 ^ 32 + v).
Proof.
  intros Hb [Hok Hbits] Hv. pose proof (last_word_index bits 0 Hb) as Hl0. change (0 / 32)%nat with 0%nat in Hl0.
  destruct (shift_left_spec m p p CHUNKSZ bits Hok Hok) as (m1 & -> & [Hu1 Hl1] & Hlen & Hb1).
  { by left. } { change (CHUNKSZ / 32)%nat with 1%nat. lia. }
  exists m1, (<[p := Z.lor (nth p m1 0) v]> m1), (nth p m1 0).
  split; [done|]. rewrite nth_load, store_lt by lia. do 2 (split; [done|]). split.
  - split; [|by rewrite length_insert]. apply Forall_insert; [done|]. apply word_lor; auto with cword.
  - intros i Hi. pose proof (div_mod_32 i) as [Hd Hm].
    rewrite testbit_append by (done || lia). specialize (Hb1 i Hi). unfold bit in *.
    change CHUNKSZ with 32%nat in Hb1.
    destruct (Z.ltb_spec (Z.of_nat i) 32) as [Hlt|Hge].
    + rewrite bool_decide_false in Hb1 by lia. cbn [andb] in Hb1.
      assert (i / 32 = 0)%nat as E by lia. rewrite E, Nat.add_0_r in *.
      rewrite nth_lookup, list_lookup_insert_eq by lia. simpl default. unfold id.
      rewrite Z.lor_spec, Hb1. cbn [orb]. f_equal. lia.
    + rewrite bool_decide_true in Hb1 by lia. cbn [andb] in Hb1.
      rewrite nth_lookup, list_lookup_insert_ne, <-nth_lookup, Hb1 by lia.
      specialize (Hbits (i - 32)%nat ltac:(lia)). unfold bit in Hbits. rewrite Hbits. f_equal. lia.
Qed.

(** *** The loop *)

(** The counters of the loop, for the number read so far. *)
Definition counts (acc nchunks nbits : Z) : Prop :=
  acc = 0 /\ nchunks = 0 /\ nbits = 0 \/ 0 < acc /\ 0 < nchunks /\ nbits = Z.log2 acc + 1.

Lemma log2_append acc v : 0 < acc -> is_u32 v -> Z.log2 (acc * 2 ^ 32 + v) = Z.log2 acc + 32.
Proof.
  intros Ha Hv. pose proof (Z.log2_spec acc Ha) as [H1 H2]. pose proof (Z.log2_nonneg acc).
  apply Z.log2_unique; [lia|]. unfold word in Hv.
  rewrite <-Z.add_succ_l, !Z.pow_add_r by lia. nia.
Qed.

Lemma parse_step fuel ubuf ubuf' m p bits c c' td td' nd nchunks nbits acc v :
  (0 < bits)%nat -> holds_value m p bits acc -> counts acc nchunks nbits -> is_u32 v ->
  parse_chunk ubuf c 0 0 td = inr (ubuf', c', v, nd, td') -> nd <> 0 ->
  let acc' := acc * 2 ^ 32 + v in
  let more := negb (length ubuf' =? 0)%nat && (c' =? 44) in
  exists m' nchunks' nbits',
    parse_loop (S fuel) ubuf m p bits c td nchunks nbits =
      (if acc' <? 2 ^ Z.of_nat bits then
         if more then parse_loop fuel ubuf' m' p bits c' td' nchunks' nbits' else Ret (0, m')
       else Ret (- EOVERFLOW, m')) /\
    holds_value m' p bits acc' /\ counts acc' nchunks' nbits'.
Proof.
  intros Hb Hh Hc Hv Hpc Hnd acc' more. cbn [parse_loop]. rewrite Hpc, (proj2 (Z.eqb_neq _ _) Hnd).
  fold more. destruct ((nchunks =? 0) && (v =? 0)) eqn:E.
  - apply andb_true_iff in E as [->%Z.eqb_eq ->%Z.eqb_eq]. destruct Hc as [(-> & _ & ->)|(? & ? & _)]; [|lia].
    exists m, 0, 0. change acc' with 0. split; [|split; [done|by left]].
    assert (0 < 2 ^ Z.of_nat bits) by (apply Z.pow_pos_nonneg; lia).
    by destruct (Z.ltb_spec 0 (2 ^ Z.of_nat bits)); [|lia].
  - destruct (shift_in m p bits acc v Hb Hh Hv) as (m1 & m2 & w & -> & -> & -> & Hh2).
    set (nb := nbits + (if nchunks + 1 =? 1 then generic_fls v else Z.of_nat CHUNKSZ)).
    assert (Hacc' : 0 < acc' /\ 0 <= nchunks /\ nb = Z.log2 acc' + 1).
    { unfold word in Hv. destruct Hc as [(-> & -> & ->)|(Ha & Hn & ->)].
      - assert (v <> 0) by (intros ->; done). unfold acc', nb.
        rewrite Z.mul_0_l, !Z.add_0_l. change (1 =? 1) with true. cbv iota.
        rewrite generic_fls_spec by lia. lia.
      - unfold nb, acc'. destruct (Z.eqb_spec (nchunks + 1) 1); [lia|].
        rewrite log2_append by done. change (Z.of_nat CHUNKSZ) with 32. lia. }
    destruct Hacc' as (Ha & Hn & Hnb). exists m2, (nchunks + 1), nb. split; [|split; [done|right; lia]].
    rewrite Hnb. pose proof (Z.log2_lt_pow2 acc' (Z.of_nat bits) Ha) as Hl.
    destruct (Z.ltb_spec acc' (2 ^ Z.of_nat bits)), (Z.ltb_spec (Z.of_nat bits) (Z.log2 acc' + 1)); done || lia.
Qed.

Lemma chunks_value_ge css acc : Forall hex_chunk css -> 0 <= acc -> acc <= chunks_value css acc.
Proof.
  intros Hc. revert acc. induction Hc as [|cs css (_ & Hx & _) _ IH]; intros acc Ha; simpl; [done|].
  assert (0 <= chunk_value cs).
  { apply horner_ge; [lia| |lia]. apply Forall_map. eapply Forall_impl; [exact Hx|]. intros y [Hy Hyd].
    destruct (xdigit_facts y Hy Hyd) as (_ & _ & _ & ?). simpl. lia. }
  etrans; [|apply IH]; nia.
Qed.

Lemma hex_chunk_u32 cs : hex_chunk cs -> is_u32 (chunk_value cs).
Proof.
  intros (_ & Hx & Hlt). split; [|done]. apply horner_ge; [lia| |lia]. apply Forall_map.
  eapply Forall_impl; [exact Hx|]. intros y [Hy Hyd].
  destruct (xdigit_facts y Hy Hyd) as (_ & _ & _ & ?). simpl. lia.
Qed.

(** The inner loop on a chunk and what follows it. *)
Lemma parse_chunk_whole cs css tail c td :
  hex_chunk cs -> parse_end tail -> 0 <= td -> td = 0 \/ isspace c = false ->
  exists ubuf' c' td',
    parse_chunk (map Some (join (cs :: css)) ++ tail) c 0 0 td =
      inr (ubuf', c', chunk_value cs, Z.of_nat (length cs), td') /\ 0 <= td' /\
    match css with
    | [] => c' <> 44
    | _ => c' = 44 /\ ubuf' = map Some (join css) ++ tail
    end.
Proof.
  intros (Hne & Hx & Hlt) Hend Htd Hc.
  assert (Hlast : isspace (default c (last cs)) = false /\ default c (last cs) <> 44).
  { destruct (last cs) as [x|] eqn:E; [|by apply last_None in E].
    apply last_Some in E as [l ->]. apply Forall_app in Hx as [_ [Hx _]%Forall_cons_1]. 
    destruct Hx as [Hb Hd]. destruct (xdigit_facts x Hb Hd) as (? & _ & ? & _). done. }
  destruct Hlast as [Hsp H44]. destruct css as [|cs' css].
  - change (join [cs]) with cs. rewrite parse_chunk_digits by done.
    destruct (parse_chunk_end tail (default c (last cs)) (horner 16 (map unhex cs) 0)
      (0 + Z.of_nat (length cs)) (td + Z.of_nat (length cs)) Hend Hsp H44) as (u & c' & -> & Hc').
    exists u, c', (td + Z.of_nat (length cs)). split; [done|]. split; [lia|done].
  - change (join (cs :: cs' :: css)) with (cs ++ 44 :: join (cs' :: css)).
    rewrite map_app, <-app_assoc. cbn [map app]. rewrite parse_chunk_digits by done.
    cbn [parse_chunk]. change (isspace 44) with false. rewrite Hsp, andb_false_r. cbn [Z.eqb Pos.eqb orb].
    do 3 eexists. split; [done|]. split; [lia|done].
Qed.

Lemma join_nonempty css : Forall hex_chunk css -> css <> [] -> join css <> [].
Proof.
  intros Hf Hne. destruct css as [|cs css]; [done|]. apply Forall_cons_1 in Hf as [(Hcs & _) _].
  destruct css; simpl; destruct cs; done.
Qed.

Lemma parse_loop_spec fuel css tail m p bits c td nchunks nbits acc :
  (0 < bits)%nat -> Forall hex_chunk css -> css <> [] -> parse_end tail -> (length css <= fuel)%nat ->
  0 <= td -> td = 0 \/ isspace c = false -> 0 <= acc ->
  holds_value m p bits acc -> counts acc nchunks nbits ->
  let N := chunks_value css acc in
  exists m', parse_loop fuel (map Some (join css) ++ tail) m p bits c td nchunks nbits =
      Ret (if N <? 2 ^ Z.of_nat bits then 0 else - EOVERFLOW, m') /\
    (N < 2 ^ Z.of_nat bits -> holds_value m' p bits N).
Proof.
  intros Hb Hcss Hne Hend. revert css Hcss Hne m c td nchunks nbits acc.
  induction fuel as [|fuel IH]; intros css Hcss Hne m c td nchunks nbits acc Hf Htd Hc Ha Hh Hcnt N;
    destruct css as [|cs css]; try done; [simpl in Hf; lia|].
  apply Forall_cons_1 in Hcss as [Hcs Hcss]. pose proof (hex_chunk_u32 cs Hcs) as Hv.
  destruct (parse_chunk_whole cs css tail c td Hcs Hend Htd Hc) as (u & c' & td' & Hpc & Htd' & Hrest).
  destruct (parse_step fuel _ u m p bits c c' td td' _ nchunks nbits acc _ Hb Hh Hcnt Hv Hpc)
    as (m1 & nc1 & nb1 & -> & Hh1 & Hc1).
  { destruct Hcs as [? _]. destruct cs; [done|]. simpl. lia. }
  set (acc' := acc * 2 ^ 32 + chunk_value cs) in *. unfold word in Hv.
  change N with (chunks_value css acc'). assert (Ha' : 0 <= acc') by (unfold acc'; lia).
  pose proof (chunks_value_ge css acc' Hcss Ha') as Hge.
  destruct (Z.ltb_spec acc' (2 ^ Z.of_nat bits)) as [Hlt|Hov].
  2: { exists m1. destruct (Z.ltb_spec (chunks_value css acc') (2 ^ Z.of_nat bits)); [lia|].
       split; [done|lia]. }
  destruct css as [|cs' css].
  - rewrite (proj2 (Z.eqb_neq _ _) Hrest), andb_false_r. exists m1. change (chunks_value [] acc') with acc'.
    destruct (Z.ltb_spec acc' (2 ^ Z.of_nat bits)); [done|lia].
  - destruct Hrest as [-> ->]. assert (Hnil : join (cs' :: css) <> []) by (by apply join_nonempty).
    destruct (Nat.eqb_spec (length (map Some (join (cs' :: css)) ++ tail)) 0) as [E|_].
    { destruct (join (cs' :: css)); [done|]. simpl in E. lia. }
    cbn [negb andb Z.eqb Pos.eqb].
    apply IH; try done; [simpl in *; lia|by right].
Qed.

Lemma bitmap_parse_spec lead css tail m p bits :
  (0 < bits)%nat -> bitmap_ok m p bits -> spaces lead -> Forall hex_chunk css -> css <> [] -> parse_end tail ->
  let N := chunks_value css 0 in
  exists m', bitmap_parse (map Some (lead ++ join css) ++ tail) m p bits =
      Ret (if N <? 2 ^ Z.of_nat bits then 0 else - EOVERFLOW, m') /\
    (N < 2 ^ Z.of_nat bits -> forall i, (i < bits)%nat -> bit m' p i = Z.testbit N (Z.of_nat i)).
Proof.
  intros Hb Hok Hlead Hcss Hne Hend N. unfold bitmap_parse.
  destruct (zeroed_ok m p bits Hok Hb) as (m1 & -> & Hok1 & _ & Hz).
  destruct (parse_chunk_spaces lead (map Some (join css) ++ tail) 0 0 0 0 Hlead) as (c & Hpc & _).
  assert (Hl : (length css <= S (length (map Some (lead ++ join css) ++ tail)))%nat).
  { rewrite length_app, length_map, length_app. cut (length css <= S (length (join css)))%nat; [lia|].
    clear -Hcss. induction Hcss as [|cs css (Hcs & _) _ IH]; [simpl; lia|].
    destruct css; simpl in *; [lia|]. rewrite length_app. destruct cs; [done|]. simpl. lia. }
  assert (Hloop : forall fuel, parse_loop (S fuel) (map Some (lead ++ join css) ++ tail) m1 p bits 0 0 0 0 =
    parse_loop (S fuel) (map Some (join css) ++ tail) m1 p bits c 0 0 0).
  { intros fuel. cbn [parse_loop]. by rewrite map_app, <-app_assoc, Hpc. }
  rewrite Hloop. destruct (parse_loop_spec (S (length (map Some (lead ++ join css) ++ tail))) css tail
    m1 p bits c 0 0 0 0) as (m' & -> & Hh); try done.
  - by left.
  - split; [done|]. intros i Hi. by rewrite Hz, Z.testbit_0_l.
  - by left.
  - exists m'. split; [done|]. intros HN. by apply Hh.
Qed.

(** (bitmap parsing): comma-separated hexadecimal chunks, with white
    space around them and ended by the end of the buffer or a NUL, are one
    number with 32 bits per chunk, whatever the number of leading zeros; if it
    has at most [nmaskbits] bits they are the bits of the result, otherwise
    the answer is [-EOVERFLOW]. *)
Theorem bitmap_parse_correct lead css tail m p bits :
  (0 < bits)%nat -> bitmap_ok m p bits -> spaces lead -> Forall hex_chunk css -> css <> [] -> parse_end tail ->
  let N := chunks_value css 0 in
  exists m', bitmap_parse (map Some (lead ++ join css) ++ tail) m p bits =
      Ret (if N <? 2 ^ Z.of_nat bits then 0 else - EOVERFLOW, m') /\
    (N < 2 ^ Z.of_nat bits -> forall i, (i < bits)%nat -> bit m' p i = Z.testbit N (Z.of_nat i)).
Proof.
  apply bitmap_parse_spec.
Qed.

Lemma bitmap_parse_correct_witness :
  let N := chunks_value [codes "01"; codes "0000F0"] 0 in
  exists m', bitmap_parse (map Some (codes " " ++ join [codes "01"; codes "0000F0"]) ++ [Some 10]) bm_demo 0 40 =
      Ret (if N <? 2 ^ Z.of_nat 40 then 0 else - EOVERFLOW, m') /\
    (N < 2 ^ Z.of_nat 40 -> forall i, (i < 40)%nat -> bit m' 0 i = Z.testbit N (Z.of_nat i)).
Proof.
  apply (bitmap_parse_correct (codes " ") [codes "01"; codes "0000F0"] [Some 10] bm_demo 0 40).
  - lia.
  - apply bm_demo_ok. lia.
  - repeat constructor.
  - repeat constructor; unfold word; try lia; try done.
  - done.
  - exists [10]. split; [repeat constructor|by left].
Defined.

(** ** Printing the hexadecimal format *)

Lemma join_snoc css c : join (css ++ [c]) = join css ++ (match css with [] => [] | _ => [44] end) ++ c.
Proof.
  induction css as [|cs css IH]; [done|]. destruct css as [|cs' css]; [done|].
  change (cs ++ 44 :: join ((cs' :: css) ++ [c]) = (cs ++ 44 :: join (cs' :: css)) ++ [44] ++ c).
  by rewrite IH, <-app_assoc.
Qed.

Lemma chunks_value_snoc css c acc : chunks_value (css ++ [c]) acc = chunks_value css acc * 2 ^ 32 + chunk_value c.
Proof. unfold chunks_value. by rewrite fold_left_app. Qed.

Lemma hex_digit_chunk vs :
  Forall (fun v => 0 <= v < 16) vs ->
  Forall (fun c => is_byte c /\ isxdigit c = true) (map (digit small_digits) vs) /\
  map unhex (map (digit small_digits) vs) = vs.
Proof.
  assert (H : forallb (fun v => let c := digit small_digits v in
    (0 <=? c) && (c <? 2 ^ 8) && isxdigit c && (unhex c =? v)) (seqZ 0 16) = true) by reflexivity.
  rewrite forallb_forall in H. induction 1 as [|v vs Hv _ [IH1 IH2]]; [done|].
  specialize (H v). cbv zeta in H. rewrite !andb_true_iff, Z.leb_le, Z.ltb_lt, Z.eqb_eq in H.
  destruct H as (((? & ?) & ?) & E); [apply list_elem_of_In, elem_of_seqZ; lia|].
  cbn [map]. rewrite E, IH2. split; [|done]. by constructor.
Qed.

Lemma horner_zeros k vs : horner 16 (replicate k 0 ++ vs) 0 = horner 16 vs 0.
Proof. induction k; simpl; done. Qed.

Lemma hexw_chunk w n : is_u32 n -> hex_chunk (hexw w n) /\ chunk_value (hexw w n) = n.
Proof.
  intros Hn. destruct (hex_digits n) as (vs & Hvs & Hh & Hr & Hne); [by apply (word_mono 32)|].
  assert (Ev : hexw w n = map (digit small_digits) (replicate (Z.to_nat (w - Z.of_nat (length (hex n)))) 0 ++ vs)).
  { unfold hexw. rewrite Hvs, map_app. f_equal.
    generalize (Z.to_nat (w - Z.of_nat (length (map (digit small_digits) vs)))). clear.
    intros k. induction k as [|k IH]; [done|]. cbn [replicate map]. by rewrite IH. }
  assert (Hf : Forall (fun v => 0 <= v < 16) (replicate (Z.to_nat (w - Z.of_nat (length (hex n)))) 0 ++ vs)).
  { apply Forall_app_2; [|done]. apply Forall_replicate. lia. }
  destruct (hex_digit_chunk _ Hf) as [Hx Hu].
  assert (Hval : chunk_value (hexw w n) = n) by (unfold chunk_value; by rewrite Ev, Hu, horner_zeros).
  split; [|done]. split; [|split; [by rewrite Ev|rewrite Hval; apply Hn]].
  rewrite Ev. destruct vs; [done|]. by destruct (replicate _ _).
Qed.

Section HexSpec.
Context (m0 : mem) (buf nb : Z) (m : mem) (p : addr) (bits : nat).
Context (Hb : 0 < buf) (Hnb : 0 < nb < 2 ^ 31) (Hm0 : buf + nb <= Z.of_nat (length m0) <= 2 ^ 32) (Hroom : buf + nb + 32 <= 2 ^ 32).
Context (Hok : bitmap_ok m p bits).

(** The chunks printed are the bits from [32 * n] on. *)
Definition upper_chunks (css : list (list Z)) (n : nat) : Prop :=
  Forall hex_chunk css /\ forall i, Z.testbit (chunks_value css 0) (Z.of_nat i) =
    (i + 32 * n <? bits)%nat && bit m p (i + 32 * n).

Lemma upper_chunks_next css n w k :
  (n < BITS_TO_LONGS bits)%nat -> 0 < k <= 32 ->
  (forall i, (i < 32)%nat -> Z.of_nat i < k <-> (i + 32 * n < bits)%nat) ->
  upper_chunks css (S n) ->
  upper_chunks (css ++ [hexw w (Z.land (Z.shiftr (nth (p + n) m 0) 0) (u32 (Z.shiftl 1 k - 1)))]) n /\
  is_u32 (Z.land (Z.shiftr (nth (p + n) m 0) 0) (u32 (Z.shiftl 1 k - 1))).
Proof.
  intros Hn Hk Hki [Hcss Hbits]. destruct Hok as [Hm _]. rewrite Z.shiftr_0_r.
  set (v := Z.land _ _). assert (Hv : is_u32 v) by (apply word_land; [lia|by apply nth_word]).
  destruct (hexw_chunk w v Hv) as [Hc Hval]. split; [|done]. split; [by apply Forall_app_2; [|constructor]|].
  intros i. rewrite chunks_value_snoc, Hval, testbit_append by (done || lia).
  destruct (Z.ltb_spec (Z.of_nat i) 32) as [Hi|Hi].
  - unfold v. rewrite Z.land_spec. unfold u32. rewrite wrap_testbit, mask_ones, ones_testbit by lia.
    rewrite (Nat.add_comm i). rewrite bit_split by lia. rewrite (andb_comm (Z.testbit _ _)). f_equal.
    specialize (Hki i ltac:(lia)). rewrite Nat.add_comm in Hki.
    destruct (Z.ltb_spec (Z.of_nat i) 32), (Z.ltb_spec (Z.of_nat i) k), (Nat.ltb_spec (32 * n + i) bits); done || lia.
  - replace (Z.of_nat i - 32) with (Z.of_nat (i - 32)) by lia. rewrite Hbits.
    by replace (i - 32 + 32 * S n)%nat with (i + 32 * n)%nat by lia.
Qed.

Lemma scn_loop_spec n css tm k len :
  (n <= BITS_TO_LONGS bits)%nat -> 0 < k <= 32 ->
  (forall i n', (i < 32)%nat -> n = S n' -> Z.of_nat i < k <-> (i + 32 * n' < bits)%nat) ->
  printed m0 buf nb (join css) tm len -> upper_chunks css n ->
  exists css' len' tm', scn_loop n tm buf nb m p k len (match css with [] => [] | _ => [44] end) = Ret (len', tm') /\
    printed m0 buf nb (join css') tm' len' /\ upper_chunks css' 0 /\ (length css' = length css + n)%nat.
Proof.
  revert css tm k len. induction n as [|n IH]; intros css tm k len Hn Hk Hki Hp Hu; cbn [scn_loop].
  { exists css, len, tm. split_and!; [done..|lia]. }
  assert (Ei : (CHUNKSZ * n / BITS_PER_LONG = n /\ (CHUNKSZ * n) mod BITS_PER_LONG = 0)%nat).
  { unfold CHUNKSZ, BITS_PER_LONG. rewrite Nat.mul_comm. split; [by apply Nat.div_mul|by apply Nat.Div0.mod_mul]. }
  destruct Ei as [-> ->]. destruct Hok as [Hm Hl]. rewrite nth_load by lia.
  assert (Hki' : forall i, (i < 32)%nat -> Z.of_nat i < k <-> (i + 32 * n < bits)%nat) by auto.
  destruct (upper_chunks_next css n ((k + 3) / 4) k Hn Hk Hki' Hu) as [Hu' Hv].
  change (Z.of_nat 0) with 0. set (v := Z.land _ _) in *. set (cs := hexw _ v) in *.
  assert (Hw : 0 <= (k + 3) / 4 <= 8).
  { split; [apply Z.div_pos; lia|]. apply Z.lt_succ_r, Z.div_lt_upper_bound; lia. }
  assert (Hcs : Z.of_nat (length cs) <= 8).
  { pose proof (hexw_length ((k + 3) / 4) v 8 ltac:(lia) ltac:(exact Hv)). fold cs in H. lia. }
  set (sep := match css with [] => [] | _ => [44] end).
  assert (Hsl : (length sep <= 1)%nat) by (unfold sep; destruct css; simpl; lia).
  destruct (printed_next m0 buf nb (join css) tm len (codes "%s%0*lx") [VStr sep; VNum ((k + 3) / 4); VNum v]
    (sep ++ cs)) as (k' & tm' & -> & Hp'); try done.
  { rewrite length_app. lia. }
  { rewrite length_app. lia. }
  { apply (prints_s sep (codes "%0*lx")); [lia|]. rewrite <-(app_nil_r cs).
    apply (prints_0lx ((k + 3) / 4) v []); [lia|done|]. apply prints_nil. }
  unfold sep in Hp'. rewrite <-join_snoc in Hp'.
  destruct (IH (css ++ [cs]) tm' 32 (len + k')) as (css' & len' & tm2 & Hloop & Hp2 & Hu2 & Hl2).
  - lia.
  - lia.
  - intros i n' Hi ->. pose proof (BITS_TO_LONGS_spec bits) as HL. pose proof (div_mod_32 bits).
    destruct (Nat.eqb_spec (bits mod 32) 0); lia.
  - done.
  - done.
  - exists css', len', tm2. change (Z.of_nat CHUNKSZ) with 32. change (codes ",") with [44].
    assert (match css ++ [cs] with [] => [] | _ => [44] end = [44]) as E by (by destruct css).
    rewrite E in Hloop. rewrite Hloop, Hl2, length_app. split_and!; [done..|simpl; lia].
Qed.

(** The chunks printed spell the bitmap. *)
Lemma scnprintf_bitmap_spec :
  (0 < bits)%nat ->
  exists css len tm, bitmap_scnprintf m0 buf nb m p bits = Ret (len, tm) /\
    printed m0 buf nb (join css) tm len /\ Forall hex_chunk css /\ length css = BITS_TO_LONGS bits /\
    forall i, Z.testbit (chunks_value css 0) (Z.of_nat i) = (i <? bits)%nat && bit m p i.
Proof.
  intros Hbits. unfold bitmap_scnprintf.
  assert (E : Z.land (Z.of_nat bits) (Z.of_nat CHUNKSZ - 1) = Z.of_nat (bits mod 32)).
  { change (Z.of_nat CHUNKSZ - 1) with (Z.ones 5). rewrite Z.land_ones by lia. by rewrite Nat2Z.inj_mod. }
  rewrite E. set (k := if _ =? 0 then _ else _). pose proof (div_mod_32 bits) as [Hd Hm32].
  pose proof (BITS_TO_LONGS_spec bits) as HL.
  assert (Hk : 0 < k <= 32).
  { unfold k. change (Z.of_nat CHUNKSZ) with 32. destruct (Z.eqb_spec (Z.of_nat (bits mod 32)) 0); lia. }
  destruct (scn_loop_spec (BITS_TO_LONGS bits) [] m0 k 0) as (css & len & tm & Hloop & Hp & [Hc Hv] & Hl).
  - done.
  - done.
  - intros i n' Hi En. unfold k. change (Z.of_nat CHUNKSZ) with 32.
    destruct (Nat.eqb_spec (bits mod 32) 0), (Z.eqb_spec (Z.of_nat (bits mod 32)) 0); lia.
  - apply printed_start. lia.
  - split; [constructor|]. intros i. change (chunks_value [] 0) with 0. rewrite Z.testbit_0_l.
    destruct (Nat.ltb_spec (i + 32 * BITS_TO_LONGS bits) bits); [|done].
    pose proof (BITS_TO_LONGS_le bits). lia.
  - exists css, len, tm. split; [done|]. split_and!; try done.
    intros i. rewrite Hv. by rewrite Nat.add_0_r.
Qed.
End HexSpec.

(** (hexadecimal round trip): [bitmap_scnprintf] prints one chunk per
    word, which together spell the bits of the bitmap, cut to the buffer; the
    text is read back to the same bits by [bitmap_parse], with any white space
    and an optional NUL behind it. *)
Theorem bitmap_hex_roundtrip tm buf n m p bits m2 q tail :
  0 < buf -> 0 < n < 2 ^ 31 -> buf + n <= Z.of_nat (length tm) <= 2 ^ 32 -> buf + n + 32 <= 2 ^ 32 ->
  (0 < bits)%nat -> bitmap_ok m p bits -> bitmap_ok m2 q bits -> parse_end tail ->
  exists css len tm', bitmap_scnprintf tm buf n m p bits = Ret (len, tm') /\
    printed tm buf n (join css) tm' len /\ length css = BITS_TO_LONGS bits /\
    (forall i, Z.testbit (chunks_value css 0) (Z.of_nat i) = (i <? bits)%nat && bit m p i) /\
    exists m3, bitmap_parse (map Some (join css) ++ tail) m2 q bits = Ret (0, m3) /\
      forall i, (i < bits)%nat -> bit m3 q i = bit m p i.
Proof.
  intros Hb Hn Htm Hroom Hbits Hok Hq Hend.
  destruct (scnprintf_bitmap_spec tm buf n m p bits Hb Hn Htm Hroom Hok Hbits) as (css & len & tm' & ? & ? & Hc & Hl & Hv).
  exists css, len, tm'. do 4 (split; [done|]).
  assert (Hne : css <> []).
  { intros ->. pose proof (last_word_index bits 0 Hbits). simpl in Hl. lia. }
  destruct (bitmap_parse_spec [] css tail m2 q bits Hbits Hq) as (m3 & Hm3 & Hb3); try done; [constructor|].
  assert (HN : 0 <= chunks_value css 0 < 2 ^ Z.of_nat bits).
  { split; [by apply (chunks_value_ge css 0)|].
    apply word_of_bits; [lia|]. intros i Hi. rewrite <-(Z2Nat.id i), Hv by lia.
    by destruct (Nat.ltb_spec (Z.to_nat i) bits); [lia|]. }
  exists m3. cbn [app] in Hm3. rewrite Hm3. destruct (Z.ltb_spec (chunks_value css 0) (2 ^ Z.of_nat bits)); [|lia].
  split; [done|]. intros i Hi. rewrite Hb3, Hv by (done || lia). by destruct (Nat.ltb_spec i bits); [|lia].
Qed.

Lemma bitmap_hex_roundtrip_witness :
  exists css len tm', bitmap_scnprintf (replicate 16 7) 1 15 bm_demo 0 40 = Ret (len, tm') /\
    printed (replicate 16 7) 1 15 (join css) tm' len /\ length css = BITS_TO_LONGS 40 /\
    (forall i, Z.testbit (chunks_value css 0) (Z.of_nat i) = (i <? 40)%nat && bit bm_demo 0 i) /\
    exists m3, bitmap_parse (map Some (join css) ++ [Some 10; Some 0]) remap_demo 2 40 = Ret (0, m3) /\
      forall i, (i < 40)%nat -> bit m3 2 i = bit bm_demo 0 i.
Proof.
  apply (bitmap_hex_roundtrip (replicate 16 7) 1 15 bm_demo 0 40 remap_demo 2 [Some 10; Some 0]);
    [lia|lia|simpl; lia|lia|lia|apply bm_demo_ok; lia|apply remap_demo_ok; lia|].
  exists [10]. split; [repeat constructor|]. right. by exists [].
Defined.

Lemma bitmap_list_roundtrip_witness :
  exists text len tm', bitmap_scnlistprintf (replicate 16 7) 1 15 bm_demo 0 40 = Ret (len, tm') /\
    printed (replicate 16 7) 1 15 text tm' len /\
    exists m3, bitmap_parselist (text ++ [10]) remap_demo 2 40 = Ret (0, m3) /\
      forall i, (i < 40)%nat -> bit m3 2 i = bit bm_demo 0 i.
Proof.
  apply (bitmap_list_roundtrip (replicate 16 7) 1 15 bm_demo 0 40 remap_demo 2 [10]);
    [lia|lia|simpl; lia|lia|apply bm_demo_ok; lia| |lia| |apply remap_demo_ok; lia|by right].
  - apply Nat.ltb_lt. reflexivity.
  - exists 4%nat. split; [lia|reflexivity].
Defined.

(** ** Examples *)

Example list_example :
  bitmap_scnlistprintf (replicate 16 7) 1 12 remap_demo 2 40 =
  Ret (5, [7] ++ codes "1,5,7" ++ [0] ++ replicate 9 7).
Proof. reflexivity. Qed.

Example hex_example :
  bitmap_scnprintf (replicate 16 7) 1 15 bm_demo 0 40 =
  Ret (11, [7] ++ codes "01,000000f0" ++ [0] ++ replicate 3 7).
Proof. reflexivity. Qed.

Example parse_example :
  bitmap_parse (map Some (codes " 1,000000f0 ")) (replicate 2 0xFF) 0 40 = Ret (0, [0xF0; 1]) /\
  bitmap_parse (map Some (codes "101,000000f0")) (replicate 2 0xFF) 0 40 = Ret (- EOVERFLOW, [0xF0; 1]) /\
  bitmap_parse (map Some (codes "1,")) [0xFF] 0 32 = Ret (0, [1]) /\
  bitmap_parse (map Some (codes "1," ++ [0])) [0xFF] 0 32 = Ret (- EINVAL, [1]).
Proof. repeat split. Qed.
