(* ===== verification/Linear.v ===== *)
(** * Linear functions on words

    A function from [n]-bit to [m]-bit words is linear when it commutes with
    exclusive or.  Shifts, masks, bit permutations and most table look-ups of
    CRC and DES code are linear; two linear functions are equal when they
    agree on the [n] words with a single bit set, which evaluation decides. *)

From S2P Require Import Prelude.

Class LinearOn (n m : Z) (f : Z -> Z) := {
  linear_dom : 0 <= n;
  linear_cod : 0 <= m;
  linear_word a : word n a -> word m (f a);
  linear_lxor a b : word n a -> word n b -> f (Z.lxor a b) = Z.lxor (f a) (f b)
}.

Abbreviation Linear := (LinearOn 32 32).

Lemma lxor_swap a b c d : Z.lxor (Z.lxor a b) (Z.lxor c d) = Z.lxor (Z.lxor a c) (Z.lxor b d).
Proof. apply Z.bits_inj'; intros. rewrite !Z.lxor_spec. by repeat destruct (Z.testbit _ _). Qed.

Lemma lxor_cancel_r a b c : Z.lxor a c = Z.lxor b c -> a = b.
Proof.
  intros H. apply (f_equal (fun z => Z.lxor z c)) in H.
  by rewrite !Z.lxor_assoc, Z.lxor_nilpotent, !Z.lxor_0_r in H.
Qed.

Lemma lxor_cancel_l a b c : Z.lxor c a = Z.lxor c b -> a = b.
Proof. rewrite !(Z.lxor_comm c). apply lxor_cancel_r. Qed.

Section Linear.
Context {n m : Z}.

Lemma linear_0 f `{LinearOn n m f} : f 0 = 0.
Proof.
  assert (H0 : word n 0) by (apply word_0, linear_dom).
  pose proof (linear_lxor 0 0 H0 H0) as Hl. by rewrite !Z.lxor_nilpotent in Hl.
Qed.

(** A word is its top bit, or not, and the rest. *)
Lemma word_top_bit k x :
  0 <= k -> word (k + 1) x ->
  x = Z.lxor (if Z.testbit x k then 2 ^ k else 0) (wrap k x) /\ word k (wrap k x).
Proof.
  intros Hk Hx. split; [|by apply wrap_word]. apply Z.bits_inj'; intros i Hi.
  rewrite Z.lxor_spec, wrap_testbit by lia.
  assert (Htop : Z.testbit (if Z.testbit x k then 2 ^ k else 0) i = (i =? k) && Z.testbit x k).
  { destruct (Z.testbit x k); rewrite ?pow2_testbit, ?Z.testbit_0_l, ?andb_true_r, ?andb_false_r by lia; done. }
  rewrite Htop. destruct (Z.ltb_spec i k), (Z.eqb_spec i k) as [->|]; try lia; cbn [andb xorb].
  - by destruct (Z.testbit x i).
  - by destruct (Z.testbit x k).
  - rewrite (word_testbit_high (k + 1) x) by (done || lia). done.
Qed.

Lemma linear_ext f g `{LinearOn n m f, LinearOn n m g} :
  forallb (fun i => f (2 ^ Z.of_nat i) =? g (2 ^ Z.of_nat i)) (seq 0 (Z.to_nat n)) = true ->
  forall x, word n x -> f x = g x.
Proof.
  intros Hb. rewrite forallb_forall in Hb. pose proof (linear_dom (n := n) (f := f)) as Hn0.
  assert (Hn : forall k, Z.of_nat k <= n -> forall x, word (Z.of_nat k) x -> f x = g x).
  { induction k as [|k IH]; intros Hk x Hx.
    { unfold word in Hx. assert (x = 0) as -> by (simpl in Hx; lia). by rewrite (linear_0 f), (linear_0 g). }
    rewrite Nat2Z.inj_succ in Hx. destruct (word_top_bit (Z.of_nat k) x ltac:(lia) Hx) as [E Hlo]. rewrite E.
    assert (Hw : word n (wrap (Z.of_nat k) x)) by (eapply word_mono; [|done]; lia).
    assert (Hp : word n (2 ^ Z.of_nat k)).
    { split; [apply Z.pow_nonneg; lia|apply Z.pow_lt_mono_r; lia]. }
    destruct (Z.testbit x (Z.of_nat k)); [|rewrite !Z.lxor_0_l; apply IH; [lia|done]].
    rewrite !linear_lxor by done. rewrite (IH ltac:(lia) _ Hlo). f_equal.
    apply Z.eqb_eq, (Hb k), in_seq. lia. }
  intros x Hx. apply (Hn (Z.to_nat n)); rewrite Z2Nat.id by done; [lia|done].
Qed.

(** The form of [linear_ext] that leaves the two linearity proofs as goals. *)
Lemma linear_eq f g x :
  LinearOn n m f /\ LinearOn n m g /\
    forallb (fun i => f (2 ^ Z.of_nat i) =? g (2 ^ Z.of_nat i)) (seq 0 (Z.to_nat n)) = true ->
  word n x -> f x = g x.
Proof. intros (Hf & Hg & Hb). by apply linear_ext. Qed.

Lemma linear_lxor2 f g `{LinearOn n m f, LinearOn n m g} : LinearOn n m (fun x => Z.lxor (f x) (g x)).
Proof.
  split; [apply (linear_dom (f := f))|apply (linear_cod (f := f))|intros a..].
  - intros Ha. apply word_lxor; [apply (linear_cod (f := f))|by apply linear_word..].
  - intros b Ha Hb. rewrite !linear_lxor by done. apply lxor_swap.
Qed.

(** An [|] of disjoint words is their exclusive or. *)
Lemma linear_lor f g `{LinearOn n m f, LinearOn n m g} :
  (forall x, word n x -> Z.land (f x) (g x) = 0) -> LinearOn n m (fun x => Z.lor (f x) (g x)).
Proof.
  intros Hd. pose proof (linear_dom (f := f)). split; [done|apply (linear_cod (f := f))|intros a..].
  - intros Ha. apply word_lor; [apply (linear_cod (f := f))|by apply linear_word..].
  - intros b Ha Hb. rewrite <-!Z.lxor_lor by (apply Hd; try apply word_lxor; done).
    rewrite !linear_lxor by done. apply lxor_swap.
Qed.

Lemma linear_land f k `{LinearOn n m f} : LinearOn n m (fun x => Z.land (f x) k).
Proof.
  split; [apply (linear_dom (f := f))|apply (linear_cod (f := f))|intros a..].
  - intros Ha. apply word_land; [apply (linear_cod (f := f))|by apply linear_word].
  - intros b Ha Hb. rewrite linear_lxor by done.
    apply Z.bits_inj'; intros i Hi. rewrite !Z.land_spec, !Z.lxor_spec, !Z.land_spec.
    by repeat destruct (Z.testbit _ _).
Qed.

Lemma linear_shiftr f k `{LinearOn n m f} : 0 <= k -> LinearOn n m (fun x => Z.shiftr (f x) k).
Proof.
  intros Hk. split; [apply (linear_dom (f := f))|apply (linear_cod (f := f))|intros a..].
  - intros Ha. apply word_shiftr; [apply (linear_cod (f := f))|done|by apply linear_word].
  - intros b Ha Hb. rewrite linear_lxor by done. apply Z.shiftr_lxor.
Qed.

Lemma linear_cshl f k `{LinearOn n m f} : LinearOn n m (fun x => cshl m (f x) k).
Proof.
  pose proof (linear_cod (f := f)) as Hm.
  split; [apply (linear_dom (f := f))|done|intros a..].
  - intros Ha. by apply word_cshl.
  - intros b Ha Hb. rewrite linear_lxor by done. unfold cshl.
    rewrite Z.shiftl_lxor, !wrap_ones by done. apply Z.bits_inj'; intros i Hi.
    rewrite !Z.land_spec, !Z.lxor_spec, !Z.land_spec. by repeat destruct (Z.testbit _ _).
Qed.

Lemma mask_bit x k : 0 <= k -> negb (Z.land x (2 ^ k) =? 0) = Z.testbit x k.
Proof.
  intros Hk. destruct (Z.testbit x k) eqn:E.
  - apply negb_true_iff, Z.eqb_neq. intros H. apply (f_equal (fun z => Z.testbit z k)) in H.
    rewrite Z.land_spec, E, Z.pow2_bits_true, Z.testbit_0_l in H by done. done.
  - apply negb_false_iff, Z.eqb_eq, Z.bits_inj'; intros i Hi.
    rewrite Z.land_spec, pow2_testbit, Z.testbit_0_l by done.
    by destruct (Z.eqb_spec i k) as [->|]; rewrite ?E, ?andb_false_r.
Qed.

Lemma linear_bit k poly : 0 <= n -> 0 <= m -> 0 <= k -> word m poly ->
  LinearOn n m (fun x => if negb (Z.land x (2 ^ k) =? 0) then poly else 0).
Proof.
  intros Hn Hm Hk Hp. split; [done..| |].
  - intros a _. case_match; [done|by apply word_0].
  - intros a b _ _. rewrite !mask_bit, Z.lxor_spec by done.
    destruct (Z.testbit a k), (Z.testbit b k); simpl;
      by rewrite ?Z.lxor_nilpotent, ?Z.lxor_0_r, ?Z.lxor_0_l.
Qed.

(** A bit of a linear function that the basis shows to be input bit [p]. *)
Lemma linear_testbit f b p `{LinearOn n m f} :
  0 <= b -> 0 <= p < n ->
  forallb (fun i => Bool.eqb (Z.testbit (f (2 ^ Z.of_nat i)) b) (Z.of_nat i =? p)) (seq 0 (Z.to_nat n)) = true ->
  forall x, word n x -> Z.testbit (f x) b = Z.testbit x p.
Proof.
  intros Hb Hp Hall. rewrite forallb_forall in Hall.
  assert (Hn : forall k, Z.of_nat k <= n -> forall x, word (Z.of_nat k) x -> Z.testbit (f x) b = Z.testbit x p).
  { induction k as [|k IH]; intros Hk x Hx.
    { unfold word in Hx. assert (x = 0) as -> by (simpl in Hx; lia). by rewrite (linear_0 f), !Z.testbit_0_l. }
    rewrite Nat2Z.inj_succ in Hx. destruct (word_top_bit (Z.of_nat k) x ltac:(lia) Hx) as [E Hlo].
    rewrite E. assert (Hw : word n (wrap (Z.of_nat k) x)) by (eapply word_mono; [|done]; lia).
    assert (Hpk : word n (2 ^ Z.of_nat k)).
    { split; [apply Z.pow_nonneg; lia|apply Z.pow_lt_mono_r; lia]. }
    destruct (Z.testbit x (Z.of_nat k)); [|rewrite !Z.lxor_0_l; apply IH; [lia|done]].
    rewrite linear_lxor, !Z.lxor_spec by done. rewrite (IH ltac:(lia) _ Hlo). f_equal.
    rewrite pow2_testbit, Z.eqb_sym by lia. apply eqb_prop, (Hall k), in_seq. lia. }
  intros x Hx. pose proof (linear_dom (f := f)).
  apply (Hn (Z.to_nat n)); rewrite Z2Nat.id by done; [lia|done].
Qed.
End Linear.

Lemma linear_id n : 0 <= n -> LinearOn n n (fun x => x).
Proof. by split. Qed.

Lemma linear_compose {n m k} f g `{LinearOn m k f, LinearOn n m g} : LinearOn n k (fun x => f (g x)).
Proof.
  split; [apply (linear_dom (f := g))|apply (linear_cod (f := f))|intros a..].
  - intros Ha. by repeat apply linear_word.
  - intros b Ha Hb. rewrite (linear_lxor (f := g)) by done.
    by apply linear_lxor; apply linear_word.
Qed.

Lemma linear_iter {n} k f `{LinearOn n n f} : LinearOn n n (fun x => Nat.iter k f x).
Proof.
  induction k as [|k IH]; [apply linear_id, (linear_dom (f := f))|].
  change (LinearOn n n (fun x => f (Nat.iter k f x))). apply (linear_compose (m := n) f (fun x => Nat.iter k f x)).
Qed.

Ltac linear :=
  repeat first
    [ apply linear_id; lia | apply linear_lxor2 | apply linear_land | apply linear_cshl
    | apply linear_shiftr; [|lia] | apply linear_iter | assumption | solve [unfold word; lia] ].

(** Left shifts by [k] and right shifts by [w - k] of a [w]-bit word are disjoint. *)
Lemma shifts_disjoint_w w x k : word w x -> 0 <= k <= w -> Z.land (cshl w x k) (Z.shiftr x (w - k)) = 0.
Proof.
  intros Hx Hk. apply Z.bits_inj'; intros i Hi.
  rewrite Z.land_spec, cshl_testbit, Z.shiftr_spec, Z.testbit_0_l by lia.
  destruct (Z.ltb_spec i k).
  - rewrite (Z.testbit_neg_r x (i - k)) by lia. by rewrite andb_false_r.
  - rewrite (word_testbit_high w x (i + _)) by (done || lia). by rewrite andb_false_r.
Qed.

Lemma masks_disjoint u v m m' : Z.land m m' = 0 -> Z.land (Z.land u m) (Z.land v m') = 0.
Proof.
  intros H. rewrite (Z.land_comm u), Z.land_assoc, <-(Z.land_assoc m), (Z.land_comm u v).
  rewrite (Z.land_comm m (Z.land v u)). rewrite <-Z.land_assoc, H. apply Z.land_0_r.
Qed.

#[export] Existing Instances linear_lxor2 linear_land linear_cshl.
#[export] Hint Extern 0 (LinearOn _ _ (fun x => x)) => apply linear_id; lia : typeclass_instances.
#[export] Hint Extern 1 (LinearOn _ _ (fun x => Z.shiftr _ _)) =>
  apply linear_shiftr; [|lia] : typeclass_instances.
