(* ===== verification/Crc.v ===== *)
(** * CRCs (kernel lib/crc32.c with its table generator, lib/crc16.c,
    lib/crc-ccitt.c, lib/libcrc32c.c; U-Boot lib_generic/crc32.c)

    A buffer is the list of its [len] bytes.  The 8-bit CRC32 code is
    modelled for the little-endian CPU the firmware runs on, with the address
    of the buffer modulo 4 as a parameter, since it decides where the
    word-at-a-time loop starts.  The theorems compare every variant with the
    bit-at-a-time division; most of them come from the linearity of all the
    functions involved, a type class here, which reduces an equation between
    functions on words to the 32 words with a single bit set. *)

From S2P Require Import Prelude Linear.

Definition CRCPOLY_LE : Z := 0xedb88320.
Definition CRCPOLY_BE : Z := 0x04c11db7.
Definition CRC32C_POLY_LE : Z := 0x82F63B78.
Definition CRC32C_POLY_BE : Z := 0x1EDC6F41.

(** ** Bit-at-a-time variants *)

Definition step_le (poly crc : Z) : Z :=
  Z.lxor (Z.shiftr crc 1) (if negb (Z.land crc 1 =? 0) then poly else 0).

Definition step_be (poly crc : Z) : Z :=
  Z.lxor (cshl 32 crc 1) (if negb (Z.land crc 0x80000000 =? 0) then poly else 0).

(** [while (len--)] with the body [upd] for the next byte. *)
Fixpoint each_byte (upd : Z -> Z -> Z) (crc : Z) (p : list Z) : Z :=
  match p with
  | [] => crc
  | x :: p => each_byte upd (upd crc x) p
  end.

Definition crc32_le_1 : Z -> list Z -> Z :=
  each_byte (fun crc x => Nat.iter 8 (step_le CRCPOLY_LE) (Z.lxor crc x)).

Definition crc32_be_1 : Z -> list Z -> Z :=
  each_byte (fun crc x => Nat.iter 8 (step_be CRCPOLY_BE) (Z.lxor crc (Z.shiftl x 24))).

Definition crc32c_le_1 : Z -> list Z -> Z :=
  each_byte (fun crc x => Nat.iter 8 (step_le CRC32C_POLY_LE) (Z.lxor crc x)).

Definition crc32c_be : Z -> list Z -> Z :=
  each_byte (fun crc x => Nat.iter 8 (step_be CRC32C_POLY_BE) (Z.lxor crc (Z.shiftl x 24))).

(** ** The generated tables *)

Definition get (tab : list Z) (i : Z) : Z := nth (Z.to_nat i) tab 0.

(** [for (j = 0; j < LE_TABLE_SIZE; j += 2 * i)] *)
Fixpoint init_le_row (fuel : nat) (tab : list Z) (i j : nat) (crc : Z) : list Z :=
  match fuel with
  | O => tab
  | S fuel =>
      if (j <? length tab)%nat
      then init_le_row fuel (<[(i + j)%nat := Z.lxor crc (nth j tab 0)]> tab) i (j + 2 * i) crc
      else tab
  end.

(** [for (i = 1 << (CRC_LE_BITS - 1); i; i >>= 1)], [i = 2^k / 2]. *)
Fixpoint init_le_loop (k : nat) (tab : list Z) (crc : Z) : list Z :=
  match k with
  | O => tab
  | S k =>
      let crc := step_le CRCPOLY_LE crc in
      init_le_loop k (init_le_row (length tab) tab (2 ^ k) 0 crc) crc
  end.

Definition crc32init_le (bits : nat) : list Z := init_le_loop bits (replicate (2 ^ bits) 0) 1.

(** [for (j = 0; j < i; j++)], with [n] entries to go. *)
Fixpoint init_be_row (n : nat) (tab : list Z) (i j : nat) (crc : Z) : list Z :=
  match n with
  | O => tab
  | S n => init_be_row n (<[(i + j)%nat := Z.lxor crc (nth j tab 0)]> tab) i (S j) crc
  end.

(** [for (i = 1; i < BE_TABLE_SIZE; i <<= 1)], with [k] doublings to go. *)
Fixpoint init_be_loop (k : nat) (tab : list Z) (i : nat) (crc : Z) : list Z :=
  match k with
  | O => tab
  | S k =>
      let crc := step_be CRCPOLY_BE crc in
      init_be_loop k (init_be_row i tab i 0 crc) (2 * i) crc
  end.

Definition crc32init_be (bits : nat) : list Z :=
  init_be_loop bits (replicate (2 ^ bits) 0) 1 0x80000000.

(** ** Table variants of CRC32 *)

Definition crc32_le_2 : Z -> list Z -> Z :=
  let look crc := Z.lxor (Z.shiftr crc 2) (get (crc32init_le 2) (Z.land crc 3)) in
  each_byte (fun crc x => look (look (look (look (Z.lxor crc x))))).

Definition crc32_le_4 : Z -> list Z -> Z :=
  let look crc := Z.lxor (Z.shiftr crc 4) (get (crc32init_le 4) (Z.land crc 15)) in
  each_byte (fun crc x => look (look (Z.lxor crc x))).

Definition crc32_be_2 : Z -> list Z -> Z :=
  let look crc := Z.lxor (cshl 32 crc 2) (get (crc32init_be 2) (Z.shiftr crc 30)) in
  each_byte (fun crc x => look (look (look (look (Z.lxor crc (Z.shiftl x 24)))))).

Definition crc32_be_4 : Z -> list Z -> Z :=
  let look crc := Z.lxor (cshl 32 crc 4) (get (crc32init_be 4) (Z.shiftr crc 28)) in
  each_byte (fun crc x => look (look (Z.lxor crc (Z.shiftl x 24)))).

(** [DO_CRC(x)] of a little-endian CPU. *)
Definition DO_CRC (tab : list Z) (crc x : Z) : Z :=
  Z.lxor (get tab (Z.land (Z.lxor crc x) 255)) (Z.shiftr crc 8).

(** [do { DO_CRC( *p++); } while ((--len) && ((long)b)&3 );] *)
Fixpoint align_loop (tab : list Z) (crc : Z) (b : nat) (p : list Z) : Z * list Z :=
  match p with
  | [] => (crc, p)
  | x :: p =>
      let crc := DO_CRC tab crc x in
      let b := S b in
      if negb (length p =? 0)%nat && negb (b mod 4 =? 0)%nat then align_loop tab crc b p
      else (crc, p)
  end.

(** The word load [*++b] of a little-endian CPU. *)
Definition load_le32 (x0 x1 x2 x3 : Z) : Z :=
  Z.lxor x0 (Z.lxor (Z.shiftl x1 8) (Z.lxor (Z.shiftl x2 16) (Z.shiftl x3 24))).

(** [do { crc ^= *++b; DO_CRC(0); ... } while (--len);] with the bytes that
    make no whole word left over. *)
Fixpoint word_loop (tab : list Z) (crc : Z) (p : list Z) : Z * list Z :=
  match p with
  | x0 :: x1 :: x2 :: x3 :: p =>
      let crc := Z.lxor crc (load_le32 x0 x1 x2 x3) in
      word_loop tab (DO_CRC tab (DO_CRC tab (DO_CRC tab (DO_CRC tab crc 0) 0) 0) 0) p
  | _ => (crc, p)
  end.

(** The common body of the 8-bit [crc32_le] and [crc32_be]. *)
Definition crc_words (tab : list Z) (b : nat) (crc : Z) (p : list Z) : Z :=
  let '(crc, p) :=
    if negb (b mod 4 =? 0)%nat && negb (length p =? 0)%nat then align_loop tab crc b p else (crc, p) in
  let '(crc, p) := if (4 <=? length p)%nat then word_loop tab crc p else (crc, p) in
  each_byte (DO_CRC tab) crc p.

(** [tole] and [__cpu_to_le32] are the identity on this CPU. *)
Definition crc32_le_8 (b : nat) (crc : Z) (p : list Z) : Z := crc_words (crc32init_le 8) b crc p.

Definition ___constant_swab32 (x : Z) : Z :=
  Z.lor (Z.lor (Z.lor (cshl 32 (Z.land x 0x000000ff) 24) (cshl 32 (Z.land x 0x0000ff00) 8))
    (Z.shiftr (Z.land x 0x00ff0000) 8)) (Z.shiftr (Z.land x 0xff000000) 24).

(** The byte swap of the ARM headers: [eor], [mov ... ror #8], [bic], [eor]. *)
Definition ___arch__swab32 (x : Z) : Z :=
  let t := Z.lxor x (Z.lor (cshl 32 x 16) (Z.shiftr x 16)) in
  let x := Z.lor (cshl 32 x 24) (Z.shiftr x 8) in
  let t := Z.land t (cnot 32 0x00FF0000) in
  Z.lxor x (Z.shiftr t 8).

(** The table is emitted through [tobe], the running CRC is byte-swapped. *)
Definition crc32_be_8 (b : nat) (crc : Z) (p : list Z) : Z :=
  ___arch__swab32 (crc_words (map ___constant_swab32 (crc32init_be 8)) b (___arch__swab32 crc) p).

Definition bitreverse (x : Z) : Z :=
  let x := Z.lor (Z.shiftr x 16) (cshl 32 x 16) in
  let x := Z.lor (Z.land (Z.shiftr x 8) 0x00ff00ff) (Z.land (cshl 32 x 8) 0xff00ff00) in
  let x := Z.lor (Z.land (Z.shiftr x 4) 0x0f0f0f0f) (Z.land (cshl 32 x 4) 0xf0f0f0f0) in
  let x := Z.lor (Z.land (Z.shiftr x 2) 0x33333333) (Z.land (cshl 32 x 2) 0xcccccccc) in
  Z.lor (Z.land (Z.shiftr x 1) 0x55555555) (Z.land (cshl 32 x 1) 0xaaaaaaaa).

(** [bytereverse] of the unit test. *)
Definition bytereverse1 (x : Z) : Z :=
  let x := Z.lor (Z.shiftr x 4) (cshl 8 x 4) in
  let x := Z.lor (Z.land (Z.shiftr x 2) 0x33) (Z.land (cshl 8 x 2) 0xcc) in
  Z.lor (Z.land (Z.shiftr x 1) 0x55) (Z.land (cshl 8 x 1) 0xaa).

Definition bytereverse (buf : list Z) : list Z := map bytereverse1 buf.

(** ** The CRCs with tables in the source *)

Definition crc16_table : list Z := [
  0x0000; 0xC0C1; 0xC181; 0x0140; 0xC301; 0x03C0; 0x0280; 0xC241;
  0xC601; 0x06C0; 0x0780; 0xC741; 0x0500; 0xC5C1; 0xC481; 0x0440;
  0xCC01; 0x0CC0; 0x0D80; 0xCD41; 0x0F00; 0xCFC1; 0xCE81; 0x0E40;
  0x0A00; 0xCAC1; 0xCB81; 0x0B40; 0xC901; 0x09C0; 0x0880; 0xC841;
  0xD801; 0x18C0; 0x1980; 0xD941; 0x1B00; 0xDBC1; 0xDA81; 0x1A40;
  0x1E00; 0xDEC1; 0xDF81; 0x1F40; 0xDD01; 0x1DC0; 0x1C80; 0xDC41;
  0x1400; 0xD4C1; 0xD581; 0x1540; 0xD701; 0x17C0; 0x1680; 0xD641;
  0xD201; 0x12C0; 0x1380; 0xD341; 0x1100; 0xD1C1; 0xD081; 0x1040;
  0xF001; 0x30C0; 0x3180; 0xF141; 0x3300; 0xF3C1; 0xF281; 0x3240;
  0x3600; 0xF6C1; 0xF781; 0x3740; 0xF501; 0x35C0; 0x3480; 0xF441;
  0x3C00; 0xFCC1; 0xFD81; 0x3D40; 0xFF01; 0x3FC0; 0x3E80; 0xFE41;
  0xFA01; 0x3AC0; 0x3B80; 0xFB41; 0x3900; 0xF9C1; 0xF881; 0x3840;
  0x2800; 0xE8C1; 0xE981; 0x2940; 0xEB01; 0x2BC0; 0x2A80; 0xEA41;
  0xEE01; 0x2EC0; 0x2F80; 0xEF41; 0x2D00; 0xEDC1; 0xEC81; 0x2C40;
  0xE401; 0x24C0; 0x2580; 0xE541; 0x2700; 0xE7C1; 0xE681; 0x2640;
  0x2200; 0xE2C1; 0xE381; 0x2340; 0xE101; 0x21C0; 0x2080; 0xE041;
  0xA001; 0x60C0; 0x6180; 0xA141; 0x6300; 0xA3C1; 0xA281; 0x6240;
  0x6600; 0xA6C1; 0xA781; 0x6740; 0xA501; 0x65C0; 0x6480; 0xA441;
  0x6C00; 0xACC1; 0xAD81; 0x6D40; 0xAF01; 0x6FC0; 0x6E80; 0xAE41;
  0xAA01; 0x6AC0; 0x6B80; 0xAB41; 0x6900; 0xA9C1; 0xA881; 0x6840;
  0x7800; 0xB8C1; 0xB981; 0x7940; 0xBB01; 0x7BC0; 0x7A80; 0xBA41;
  0xBE01; 0x7EC0; 0x7F80; 0xBF41; 0x7D00; 0xBDC1; 0xBC81; 0x7C40;
  0xB401; 0x74C0; 0x7580; 0xB541; 0x7700; 0xB7C1; 0xB681; 0x7640;
  0x7200; 0xB2C1; 0xB381; 0x7340; 0xB101; 0x71C0; 0x7080; 0xB041;
  0x5000; 0x90C1; 0x9181; 0x5140; 0x9301; 0x53C0; 0x5280; 0x9241;
  0x9601; 0x56C0; 0x5780; 0x9741; 0x5500; 0x95C1; 0x9481; 0x5440;
  0x9C01; 0x5CC0; 0x5D80; 0x9D41; 0x5F00; 0x9FC1; 0x9E81; 0x5E40;
  0x5A00; 0x9AC1; 0x9B81; 0x5B40; 0x9901; 0x59C0; 0x5880; 0x9841;
  0x8801; 0x48C0; 0x4980; 0x8941; 0x4B00; 0x8BC1; 0x8A81; 0x4A40;
  0x4E00; 0x8EC1; 0x8F81; 0x4F40; 0x8D01; 0x4DC0; 0x4C80; 0x8C41;
  0x4400; 0x84C1; 0x8581; 0x4540; 0x8701; 0x47C0; 0x4680; 0x8641;
  0x8201; 0x42C0; 0x4380; 0x8341; 0x4100; 0x81C1; 0x8081; 0x4040
].

Definition crc_ccitt_table : list Z := [
  0x0000; 0x1189; 0x2312; 0x329b; 0x4624; 0x57ad; 0x6536; 0x74bf;
  0x8c48; 0x9dc1; 0xaf5a; 0xbed3; 0xca6c; 0xdbe5; 0xe97e; 0xf8f7;
  0x1081; 0x0108; 0x3393; 0x221a; 0x56a5; 0x472c; 0x75b7; 0x643e;
  0x9cc9; 0x8d40; 0xbfdb; 0xae52; 0xdaed; 0xcb64; 0xf9ff; 0xe876;
  0x2102; 0x308b; 0x0210; 0x1399; 0x6726; 0x76af; 0x4434; 0x55bd;
  0xad4a; 0xbcc3; 0x8e58; 0x9fd1; 0xeb6e; 0xfae7; 0xc87c; 0xd9f5;
  0x3183; 0x200a; 0x1291; 0x0318; 0x77a7; 0x662e; 0x54b5; 0x453c;
  0xbdcb; 0xac42; 0x9ed9; 0x8f50; 0xfbef; 0xea66; 0xd8fd; 0xc974;
  0x4204; 0x538d; 0x6116; 0x709f; 0x0420; 0x15a9; 0x2732; 0x36bb;
  0xce4c; 0xdfc5; 0xed5e; 0xfcd7; 0x8868; 0x99e1; 0xab7a; 0xbaf3;
  0x5285; 0x430c; 0x7197; 0x601e; 0x14a1; 0x0528; 0x37b3; 0x263a;
  0xdecd; 0xcf44; 0xfddf; 0xec56; 0x98e9; 0x8960; 0xbbfb; 0xaa72;
  0x6306; 0x728f; 0x4014; 0x519d; 0x2522; 0x34ab; 0x0630; 0x17b9;
  0xef4e; 0xfec7; 0xcc5c; 0xddd5; 0xa96a; 0xb8e3; 0x8a78; 0x9bf1;
  0x7387; 0x620e; 0x5095; 0x411c; 0x35a3; 0x242a; 0x16b1; 0x0738;
  0xffcf; 0xee46; 0xdcdd; 0xcd54; 0xb9eb; 0xa862; 0x9af9; 0x8b70;
  0x8408; 0x9581; 0xa71a; 0xb693; 0xc22c; 0xd3a5; 0xe13e; 0xf0b7;
  0x0840; 0x19c9; 0x2b52; 0x3adb; 0x4e64; 0x5fed; 0x6d76; 0x7cff;
  0x9489; 0x8500; 0xb79b; 0xa612; 0xd2ad; 0xc324; 0xf1bf; 0xe036;
  0x18c1; 0x0948; 0x3bd3; 0x2a5a; 0x5ee5; 0x4f6c; 0x7df7; 0x6c7e;
  0xa50a; 0xb483; 0x8618; 0x9791; 0xe32e; 0xf2a7; 0xc03c; 0xd1b5;
  0x2942; 0x38cb; 0x0a50; 0x1bd9; 0x6f66; 0x7eef; 0x4c74; 0x5dfd;
  0xb58b; 0xa402; 0x9699; 0x8710; 0xf3af; 0xe226; 0xd0bd; 0xc134;
  0x39c3; 0x284a; 0x1ad1; 0x0b58; 0x7fe7; 0x6e6e; 0x5cf5; 0x4d7c;
  0xc60c; 0xd785; 0xe51e; 0xf497; 0x8028; 0x91a1; 0xa33a; 0xb2b3;
  0x4a44; 0x5bcd; 0x6956; 0x78df; 0x0c60; 0x1de9; 0x2f72; 0x3efb;
  0xd68d; 0xc704; 0xf59f; 0xe416; 0x90a9; 0x8120; 0xb3bb; 0xa232;
  0x5ac5; 0x4b4c; 0x79d7; 0x685e; 0x1ce1; 0x0d68; 0x3ff3; 0x2e7a;
  0xe70e; 0xf687; 0xc41c; 0xd595; 0xa12a; 0xb0a3; 0x8238; 0x93b1;
  0x6b46; 0x7acf; 0x4854; 0x59dd; 0x2d62; 0x3ceb; 0x0e70; 0x1ff9;
  0xf78f; 0xe606; 0xd49d; 0xc514; 0xb1ab; 0xa022; 0x92b9; 0x8330;
  0x7bc7; 0x6a4e; 0x58d5; 0x495c; 0x3de3; 0x2c6a; 0x1ef1; 0x0f78
].

Definition crc32c_table : list Z := [
  0x00000000; 0xF26B8303; 0xE13B70F7; 0x1350F3F4; 0xC79A971F; 0x35F1141C;
  0x26A1E7E8; 0xD4CA64EB; 0x8AD958CF; 0x78B2DBCC; 0x6BE22838; 0x9989AB3B;
  0x4D43CFD0; 0xBF284CD3; 0xAC78BF27; 0x5E133C24; 0x105EC76F; 0xE235446C;
  0xF165B798; 0x030E349B; 0xD7C45070; 0x25AFD373; 0x36FF2087; 0xC494A384;
  0x9A879FA0; 0x68EC1CA3; 0x7BBCEF57; 0x89D76C54; 0x5D1D08BF; 0xAF768BBC;
  0xBC267848; 0x4E4DFB4B; 0x20BD8EDE; 0xD2D60DDD; 0xC186FE29; 0x33ED7D2A;
  0xE72719C1; 0x154C9AC2; 0x061C6936; 0xF477EA35; 0xAA64D611; 0x580F5512;
  0x4B5FA6E6; 0xB93425E5; 0x6DFE410E; 0x9F95C20D; 0x8CC531F9; 0x7EAEB2FA;
  0x30E349B1; 0xC288CAB2; 0xD1D83946; 0x23B3BA45; 0xF779DEAE; 0x05125DAD;
  0x1642AE59; 0xE4292D5A; 0xBA3A117E; 0x4851927D; 0x5B016189; 0xA96AE28A;
  0x7DA08661; 0x8FCB0562; 0x9C9BF696; 0x6EF07595; 0x417B1DBC; 0xB3109EBF;
  0xA0406D4B; 0x522BEE48; 0x86E18AA3; 0x748A09A0; 0x67DAFA54; 0x95B17957;
  0xCBA24573; 0x39C9C670; 0x2A993584; 0xD8F2B687; 0x0C38D26C; 0xFE53516F;
  0xED03A29B; 0x1F682198; 0x5125DAD3; 0xA34E59D0; 0xB01EAA24; 0x42752927;
  0x96BF4DCC; 0x64D4CECF; 0x77843D3B; 0x85EFBE38; 0xDBFC821C; 0x2997011F;
  0x3AC7F2EB; 0xC8AC71E8; 0x1C661503; 0xEE0D9600; 0xFD5D65F4; 0x0F36E6F7;
  0x61C69362; 0x93AD1061; 0x80FDE395; 0x72966096; 0xA65C047D; 0x5437877E;
  0x4767748A; 0xB50CF789; 0xEB1FCBAD; 0x197448AE; 0x0A24BB5A; 0xF84F3859;
  0x2C855CB2; 0xDEEEDFB1; 0xCDBE2C45; 0x3FD5AF46; 0x7198540D; 0x83F3D70E;
  0x90A324FA; 0x62C8A7F9; 0xB602C312; 0x44694011; 0x5739B3E5; 0xA55230E6;
  0xFB410CC2; 0x092A8FC1; 0x1A7A7C35; 0xE811FF36; 0x3CDB9BDD; 0xCEB018DE;
  0xDDE0EB2A; 0x2F8B6829; 0x82F63B78; 0x709DB87B; 0x63CD4B8F; 0x91A6C88C;
  0x456CAC67; 0xB7072F64; 0xA457DC90; 0x563C5F93; 0x082F63B7; 0xFA44E0B4;
  0xE9141340; 0x1B7F9043; 0xCFB5F4A8; 0x3DDE77AB; 0x2E8E845F; 0xDCE5075C;
  0x92A8FC17; 0x60C37F14; 0x73938CE0; 0x81F80FE3; 0x55326B08; 0xA759E80B;
  0xB4091BFF; 0x466298FC; 0x1871A4D8; 0xEA1A27DB; 0xF94AD42F; 0x0B21572C;
  0xDFEB33C7; 0x2D80B0C4; 0x3ED04330; 0xCCBBC033; 0xA24BB5A6; 0x502036A5;
  0x4370C551; 0xB11B4652; 0x65D122B9; 0x97BAA1BA; 0x84EA524E; 0x7681D14D;
  0x2892ED69; 0xDAF96E6A; 0xC9A99D9E; 0x3BC21E9D; 0xEF087A76; 0x1D63F975;
  0x0E330A81; 0xFC588982; 0xB21572C9; 0x407EF1CA; 0x532E023E; 0xA145813D;
  0x758FE5D6; 0x87E466D5; 0x94B49521; 0x66DF1622; 0x38CC2A06; 0xCAA7A905;
  0xD9F75AF1; 0x2B9CD9F2; 0xFF56BD19; 0x0D3D3E1A; 0x1E6DCDEE; 0xEC064EED;
  0xC38D26C4; 0x31E6A5C7; 0x22B65633; 0xD0DDD530; 0x0417B1DB; 0xF67C32D8;
  0xE52CC12C; 0x1747422F; 0x49547E0B; 0xBB3FFD08; 0xA86F0EFC; 0x5A048DFF;
  0x8ECEE914; 0x7CA56A17; 0x6FF599E3; 0x9D9E1AE0; 0xD3D3E1AB; 0x21B862A8;
  0x32E8915C; 0xC083125F; 0x144976B4; 0xE622F5B7; 0xF5720643; 0x07198540;
  0x590AB964; 0xAB613A67; 0xB831C993; 0x4A5A4A90; 0x9E902E7B; 0x6CFBAD78;
  0x7FAB5E8C; 0x8DC0DD8F; 0xE330A81A; 0x115B2B19; 0x020BD8ED; 0xF0605BEE;
  0x24AA3F05; 0xD6C1BC06; 0xC5914FF2; 0x37FACCF1; 0x69E9F0D5; 0x9B8273D6;
  0x88D28022; 0x7AB90321; 0xAE7367CA; 0x5C18E4C9; 0x4F48173D; 0xBD23943E;
  0xF36E6F75; 0x0105EC76; 0x12551F82; 0xE03E9C81; 0x34F4F86A; 0xC69F7B69;
  0xD5CF889D; 0x27A40B9E; 0x79B737BA; 0x8BDCB4B9; 0x988C474D; 0x6AE7C44E;
  0xBE2DA0A5; 0x4C4623A6; 0x5F16D052; 0xAD7D5351
].

(** The table of CRC-32s of all single-byte values. *)
Definition crc_table : list Z := [
  0x00000000; 0x77073096; 0xee0e612c; 0x990951ba; 0x076dc419; 0x706af48f;
  0xe963a535; 0x9e6495a3; 0x0edb8832; 0x79dcb8a4; 0xe0d5e91e; 0x97d2d988;
  0x09b64c2b; 0x7eb17cbd; 0xe7b82d07; 0x90bf1d91; 0x1db71064; 0x6ab020f2;
  0xf3b97148; 0x84be41de; 0x1adad47d; 0x6ddde4eb; 0xf4d4b551; 0x83d385c7;
  0x136c9856; 0x646ba8c0; 0xfd62f97a; 0x8a65c9ec; 0x14015c4f; 0x63066cd9;
  0xfa0f3d63; 0x8d080df5; 0x3b6e20c8; 0x4c69105e; 0xd56041e4; 0xa2677172;
  0x3c03e4d1; 0x4b04d447; 0xd20d85fd; 0xa50ab56b; 0x35b5a8fa; 0x42b2986c;
  0xdbbbc9d6; 0xacbcf940; 0x32d86ce3; 0x45df5c75; 0xdcd60dcf; 0xabd13d59;
  0x26d930ac; 0x51de003a; 0xc8d75180; 0xbfd06116; 0x21b4f4b5; 0x56b3c423;
  0xcfba9599; 0xb8bda50f; 0x2802b89e; 0x5f058808; 0xc60cd9b2; 0xb10be924;
  0x2f6f7c87; 0x58684c11; 0xc1611dab; 0xb6662d3d; 0x76dc4190; 0x01db7106;
  0x98d220bc; 0xefd5102a; 0x71b18589; 0x06b6b51f; 0x9fbfe4a5; 0xe8b8d433;
  0x7807c9a2; 0x0f00f934; 0x9609a88e; 0xe10e9818; 0x7f6a0dbb; 0x086d3d2d;
  0x91646c97; 0xe6635c01; 0x6b6b51f4; 0x1c6c6162; 0x856530d8; 0xf262004e;
  0x6c0695ed; 0x1b01a57b; 0x8208f4c1; 0xf50fc457; 0x65b0d9c6; 0x12b7e950;
  0x8bbeb8ea; 0xfcb9887c; 0x62dd1ddf; 0x15da2d49; 0x8cd37cf3; 0xfbd44c65;
  0x4db26158; 0x3ab551ce; 0xa3bc0074; 0xd4bb30e2; 0x4adfa541; 0x3dd895d7;
  0xa4d1c46d; 0xd3d6f4fb; 0x4369e96a; 0x346ed9fc; 0xad678846; 0xda60b8d0;
  0x44042d73; 0x33031de5; 0xaa0a4c5f; 0xdd0d7cc9; 0x5005713c; 0x270241aa;
  0xbe0b1010; 0xc90c2086; 0x5768b525; 0x206f85b3; 0xb966d409; 0xce61e49f;
  0x5edef90e; 0x29d9c998; 0xb0d09822; 0xc7d7a8b4; 0x59b33d17; 0x2eb40d81;
  0xb7bd5c3b; 0xc0ba6cad; 0xedb88320; 0x9abfb3b6; 0x03b6e20c; 0x74b1d29a;
  0xead54739; 0x9dd277af; 0x04db2615; 0x73dc1683; 0xe3630b12; 0x94643b84;
  0x0d6d6a3e; 0x7a6a5aa8; 0xe40ecf0b; 0x9309ff9d; 0x0a00ae27; 0x7d079eb1;
  0xf00f9344; 0x8708a3d2; 0x1e01f268; 0x6906c2fe; 0xf762575d; 0x806567cb;
  0x196c3671; 0x6e6b06e7; 0xfed41b76; 0x89d32be0; 0x10da7a5a; 0x67dd4acc;
  0xf9b9df6f; 0x8ebeeff9; 0x17b7be43; 0x60b08ed5; 0xd6d6a3e8; 0xa1d1937e;
  0x38d8c2c4; 0x4fdff252; 0xd1bb67f1; 0xa6bc5767; 0x3fb506dd; 0x48b2364b;
  0xd80d2bda; 0xaf0a1b4c; 0x36034af6; 0x41047a60; 0xdf60efc3; 0xa867df55;
  0x316e8eef; 0x4669be79; 0xcb61b38c; 0xbc66831a; 0x256fd2a0; 0x5268e236;
  0xcc0c7795; 0xbb0b4703; 0x220216b9; 0x5505262f; 0xc5ba3bbe; 0xb2bd0b28;
  0x2bb45a92; 0x5cb36a04; 0xc2d7ffa7; 0xb5d0cf31; 0x2cd99e8b; 0x5bdeae1d;
  0x9b64c2b0; 0xec63f226; 0x756aa39c; 0x026d930a; 0x9c0906a9; 0xeb0e363f;
  0x72076785; 0x05005713; 0x95bf4a82; 0xe2b87a14; 0x7bb12bae; 0x0cb61b38;
  0x92d28e9b; 0xe5d5be0d; 0x7cdcefb7; 0x0bdbdf21; 0x86d3d2d4; 0xf1d4e242;
  0x68ddb3f8; 0x1fda836e; 0x81be16cd; 0xf6b9265b; 0x6fb077e1; 0x18b74777;
  0x88085ae6; 0xff0f6a70; 0x66063bca; 0x11010b5c; 0x8f659eff; 0xf862ae69;
  0x616bffd3; 0x166ccf45; 0xa00ae278; 0xd70dd2ee; 0x4e048354; 0x3903b3c2;
  0xa7672661; 0xd06016f7; 0x4969474d; 0x3e6e77db; 0xaed16a4a; 0xd9d65adc;
  0x40df0b66; 0x37d83bf0; 0xa9bcae53; 0xdebb9ec5; 0x47b2cf7f; 0x30b5ffe9;
  0xbdbdf21c; 0xcabac28a; 0x53b39330; 0x24b4a3a6; 0xbad03605; 0xcdd70693;
  0x54de5729; 0x23d967bf; 0xb3667a2e; 0xc4614ab8; 0x5d681b02; 0x2a6f2b94;
  0xb40bbe37; 0xc30c8ea1; 0x5a05df1b; 0x2d02ef8d
].

Definition crc16_byte (crc data : Z) : Z :=
  Z.lxor (Z.shiftr crc 8) (get crc16_table (Z.land (Z.lxor crc data) 0xff)).

Definition crc16 : Z -> list Z -> Z := each_byte crc16_byte.

Definition crc_ccitt_byte (crc c : Z) : Z :=
  Z.lxor (Z.shiftr crc 8) (get crc_ccitt_table (Z.land (Z.lxor crc c) 0xff)).

Definition crc_ccitt : Z -> list Z -> Z := each_byte crc_ccitt_byte.

Definition crc32c_le : Z -> list Z -> Z :=
  each_byte (fun crc x =>
    Z.lxor (get crc32c_table (Z.land (Z.lxor crc x) 0xFF)) (Z.shiftr crc 8)).

(** ** U-Boot *)

(** The exponents of the polynomial. *)
Definition p_terms : list Z := [0; 1; 2; 4; 5; 7; 8; 10; 11; 12; 16; 22; 23; 26].

Definition make_crc_table : list Z :=
  let poly := fold_left (fun poly e => Z.lor poly (Z.shiftl 1 (31 - e))) p_terms 0 in
  map (fun n => Nat.iter 8 (fun c =>
    if negb (Z.land c 1 =? 0) then Z.lxor poly (Z.shiftr c 1) else Z.shiftr c 1) (Z.of_nat n)) (seq 0 256).

Definition DO1 (crc x : Z) : Z :=
  Z.lxor (get crc_table (Z.land (Z.lxor crc x) 0xff)) (Z.shiftr crc 8).

Definition DO2 (crc x0 x1 : Z) : Z := DO1 (DO1 crc x0) x1.
Definition DO4 (crc x0 x1 x2 x3 : Z) : Z := DO2 (DO2 crc x0 x1) x2 x3.
Definition DO8 (crc x0 x1 x2 x3 x4 x5 x6 x7 : Z) : Z := DO4 (DO4 crc x0 x1 x2 x3) x4 x5 x6 x7.

(** [while (len >= 8) DO8;], then [DO1] for each byte left. *)
Fixpoint do8_loop (crc : Z) (buf : list Z) {struct buf} : Z :=
  match buf with
  | x0 :: x1 :: x2 :: x3 :: x4 :: x5 :: x6 :: x7 :: buf =>
      do8_loop (DO8 crc x0 x1 x2 x3 x4 x5 x6 x7) buf
  | _ => each_byte DO1 crc buf
  end.

Definition crc32 (crc : Z) (buf : list Z) : Z :=
  let crc := Z.lxor crc 0xffffffff in
  Z.lxor (do8_loop crc buf) 0xffffffff.

Definition crc32_no_comp (crc : Z) (buf : list Z) : Z := do8_loop crc buf.

(** ** Linearity of the steps *)

#[export] Instance step_le_linear poly : is_u32 poly -> Linear (step_le poly).
Proof. intros Hp. apply linear_lxor2; [linear|]. apply (linear_bit 0); lia || done. Qed.

#[export] Instance step_be_linear poly : is_u32 poly -> Linear (step_be poly).
Proof. intros Hp. apply linear_lxor2; [linear|]. apply (linear_bit 31); lia || done. Qed.

Lemma step_le_width w poly y : 0 <= w -> word w poly -> word w y -> word w (step_le poly y).
Proof.
  intros Hw Hp Hy. apply word_lxor; [done|apply word_shiftr; done || lia|].
  case_match; [done|]. unfold word. pose proof (Z.pow_pos_nonneg 2 w). lia.
Qed.

(** From here on the steps are known by their linearity and by evaluation. *)
Opaque step_le step_be.

(** ** Loops over bytes *)

Lemma each_byte_app upd crc p q : each_byte upd crc (p ++ q) = each_byte upd (each_byte upd crc p) q.
Proof. revert crc. induction p as [|x p IH]; intros crc; simpl; [done|apply IH]. Qed.

Lemma each_byte_ext w f g crc p :
  (forall c x, word w c -> is_byte x -> f c x = g c x) ->
  (forall c x, word w c -> is_byte x -> word w (g c x)) ->
  word w crc -> Forall is_byte p -> each_byte f crc p = each_byte g crc p.
Proof.
  intros Hfg Hg Hc Hp. revert crc Hc. induction Hp as [|x p Hx Hp IH]; intros crc Hc; simpl; [done|].
  rewrite Hfg by done. apply IH. by apply Hg.
Qed.

Lemma byte_u32 x : is_byte x -> is_u32 x.
Proof. apply (word_mono 8 32). lia. Qed.
#[export] Hint Resolve byte_u32 : cword.

Lemma word_shiftl x a n : 0 <= n -> 0 <= a -> word a x -> word (a + n) (Z.shiftl x n).
Proof.
  intros Hn Ha [? Hx]. unfold word. rewrite Z.shiftl_mul_pow2, Z.pow_add_r by lia. nia.
Qed.

Lemma byte_top x : is_byte x -> is_u32 (Z.shiftl x 24).
Proof. intros. apply (word_shiftl x 8 24); done || lia. Qed.
#[export] Hint Resolve byte_top : cword.

(** Exclusive or with a byte below a word shifted up by 8. *)
Lemma lxor_byte_low x y : is_byte x -> Z.land (Z.lxor x (Z.shiftl y 8)) 255 = x.
Proof.
  intros Hx. change 255 with (Z.ones 8). apply Z.bits_inj'; intros i Hi.
  rewrite Z.land_spec, Z.lxor_spec, Z.shiftl_spec, ones_testbit by lia.
  destruct (Z.ltb_spec i 8).
  - rewrite (Z.testbit_neg_r y) by lia. by rewrite xorb_false_r, andb_true_r.
  - rewrite andb_false_r. symmetry. by apply (word_testbit_high 8).
Qed.

Lemma lxor_byte_high x y : is_byte x -> Z.shiftr (Z.lxor x (Z.shiftl y 8)) 8 = y.
Proof.
  intros Hx. rewrite Z.shiftr_lxor, Z.shiftr_shiftl_l, Z.sub_diag, Z.shiftl_0_r by lia.
  replace (Z.shiftr x 8) with 0; [apply Z.lxor_0_l|].
  unfold word in Hx. rewrite Z.shiftr_div_pow2, Z.div_small by lia. done.
Qed.

Lemma split_byte x : x = Z.lxor (Z.land x 255) (Z.shiftl (Z.shiftr x 8) 8).
Proof.
  change 255 with (Z.ones 8). apply Z.bits_inj'; intros i Hi.
  rewrite Z.lxor_spec, Z.land_spec, Z.shiftl_spec, ones_testbit by lia.
  destruct (Z.ltb_spec i 8).
  - rewrite (Z.testbit_neg_r (Z.shiftr x 8)) by lia. by rewrite xorb_false_r, andb_true_r.
  - rewrite Z.shiftr_spec by lia. rewrite andb_false_r, xorb_false_l. f_equal. lia.
Qed.

Lemma land_byte x : is_byte (Z.land x 255).
Proof. change 255 with (Z.ones 8). rewrite <-wrap_ones by lia. by apply wrap_word. Qed.
#[export] Hint Resolve land_byte : cword.

(** ** Eight bits at a time

    [U] is what eight steps of the division do to a word. *)

Section ByteTable.
Context (U : Z -> Z) `{HL : Linear U} (tab : list Z).
Context (HU : forall x, is_u32 x -> Z.lxor (U (Z.land x 255)) (Z.shiftr x 8) = U x).
Context (Htab : forall i, is_byte i -> get tab i = U i).

Lemma U_shift y : word 24 y -> U (Z.shiftl y 8) = y.
Proof.
  intros Hy. rewrite <-HU by (apply (word_shiftl y 24 8); done || lia).
  assert (E : Z.shiftl y 8 = Z.lxor 0 (Z.shiftl y 8)) by (by rewrite Z.lxor_0_l).
  assert (H0 : is_byte 0) by (unfold word; lia).
  rewrite E at 1. rewrite lxor_byte_low by done. rewrite E, lxor_byte_high by done.
  by rewrite (linear_0 U), Z.lxor_0_l.
Qed.

Lemma U_eat c : is_u32 c -> U (Z.lxor c (Z.land c 255)) = Z.shiftr c 8.
Proof.
  intros Hc. rewrite linear_lxor by auto with cword. rewrite <-(HU c Hc).
  rewrite (Z.lxor_comm (U (Z.land c 255))), Z.lxor_assoc, Z.lxor_nilpotent, Z.lxor_0_r. done.
Qed.

Definition upd_le (c x : Z) : Z := U (Z.lxor c x).

Lemma upd_le_word c x : is_u32 c -> is_byte x -> is_u32 (upd_le c x).
Proof. intros. unfold upd_le. apply linear_word. auto with cword. Qed.

Lemma DO_CRC_spec c x : is_u32 c -> is_byte x -> DO_CRC tab c x = upd_le c x.
Proof.
  intros Hc Hx. unfold DO_CRC, upd_le. rewrite Htab by auto with cword.
  rewrite <-(HU (Z.lxor c x)) by auto with cword. f_equal.
  rewrite Z.shiftr_lxor. replace (Z.shiftr x 8) with 0; [by rewrite Z.lxor_0_r|].
  unfold word in Hx. rewrite Z.shiftr_div_pow2, Z.div_small by lia. done.
Qed.

Lemma each_byte_word c p : is_u32 c -> Forall is_byte p -> is_u32 (each_byte upd_le c p).
Proof.
  intros Hc Hp. revert c Hc. induction Hp as [|x p Hx Hp IH]; intros c Hc; simpl; [done|].
  by apply IH, upd_le_word.
Qed.

Lemma each_DO_CRC c p :
  is_u32 c -> Forall is_byte p -> each_byte (DO_CRC tab) c p = each_byte upd_le c p.
Proof. intros. apply (each_byte_ext 32); auto using DO_CRC_spec, upd_le_word. Qed.

Lemma align_loop_spec c b p :
  is_u32 c -> Forall is_byte p ->
  let '(c', p') := align_loop tab c b p in
  is_u32 c' /\ Forall is_byte p' /\ each_byte upd_le c' p' = each_byte upd_le c p.
Proof.
  intros Hc Hp. revert c b Hc. induction Hp as [|x p Hx Hp IH]; intros c b Hc; cbn [align_loop]; [done|].
  rewrite DO_CRC_spec by done. pose proof (upd_le_word c x Hc Hx) as Hw.
  destruct (_ && _); [by apply IH|done].
Qed.

(** Shifting in a word is shifting in its four bytes. *)
Lemma word_step c x0 x1 x2 x3 :
  is_u32 c -> is_byte x0 -> is_byte x1 -> is_byte x2 -> is_byte x3 ->
  upd_le (upd_le (upd_le (upd_le (Z.lxor c (load_le32 x0 x1 x2 x3)) 0) 0) 0) 0 =
  upd_le (upd_le (upd_le (upd_le c x0) x1) x2) x3.
Proof.
  intros Hc H0 H1 H2 H3. unfold upd_le, load_le32. rewrite !Z.lxor_0_r.
  assert (Hs : forall a b r, is_u32 a -> is_byte b -> word 24 r ->
    U (Z.lxor a (Z.lxor b (Z.shiftl r 8))) = Z.lxor (U (Z.lxor a b)) r).
  { intros a b r Ha Hb Hr. pose proof (word_shiftl r 24 8 ltac:(lia) ltac:(lia) Hr) as Hs.
    change (24 + 8) with 32 in Hs. rewrite <-Z.lxor_assoc, linear_lxor by auto with cword.
    by rewrite U_shift. }
  assert (Hb : forall x n, is_byte x -> 0 <= n <= 16 -> word 24 (Z.shiftl x n)).
  { intros x n Hx Hn. apply (word_mono (8 + n)); [lia|]. apply word_shiftl; done || lia. }
  pose proof (word_mono 8 24) as Hm.
  set (r1 := Z.lxor x2 (Z.shiftl x3 8)). set (r0 := Z.lxor x1 (Z.shiftl r1 8)).
  assert (E : Z.lxor (Z.shiftl x1 8) (Z.lxor (Z.shiftl x2 16) (Z.shiftl x3 24)) = Z.shiftl r0 8).
  { unfold r0, r1. rewrite !Z.shiftl_lxor, !Z.shiftl_shiftl by lia. done. }
  assert (Hr1 : word 16 r1).
  { apply word_lxor; [lia|by apply (word_mono 8); [lia|]|]. apply (word_shiftl x3 8 8); done || lia. }
  assert (Hr1s : word 24 (Z.shiftl r1 8)) by (apply (word_shiftl r1 16 8); done || lia).
  assert (Hr0 : word 24 r0) by (apply word_lxor; [lia|apply Hm; done || lia|done]).
  rewrite E, Hs by done. unfold r0. assert (Hr1w : word 24 r1) by (apply (word_mono 16); [lia|done]).
  rewrite Hs by (try apply linear_word; auto with cword).
  unfold r1. rewrite Hs; [done|..].
  - apply linear_word, word_lxor; [lia| |by apply byte_u32].
    apply linear_word, word_lxor; [lia|done|by apply byte_u32].
  - done.
  - apply Hm; [lia|done].
Qed.

Lemma word_loop_spec n c p :
  (length p < n)%nat -> is_u32 c -> Forall is_byte p ->
  let '(c', p') := word_loop tab c p in
  is_u32 c' /\ Forall is_byte p' /\ each_byte upd_le c' p' = each_byte upd_le c p.
Proof.
  revert c p. induction n as [|n IH]; intros c p Hn Hc Hp; [lia|].
  destruct p as [|x0 [|x1 [|x2 [|x3 p]]]]; try done. simpl in Hn.
  apply Forall_cons_1 in Hp as [H0 Hp]. apply Forall_cons_1 in Hp as [H1 Hp].
  apply Forall_cons_1 in Hp as [H2 Hp]. apply Forall_cons_1 in Hp as [H3 Hp].
  cbn [word_loop each_byte]. set (w := Z.lxor c (load_le32 x0 x1 x2 x3)).
  assert (Hw : is_u32 w).
  { unfold w, load_le32. repeat apply word_lxor; auto with cword; try lia.
    - apply (word_mono 16); [lia|]. apply (word_shiftl x1 8 8); done || lia.
    - apply (word_mono 24); [lia|]. apply (word_shiftl x2 8 16); done || lia. }
  assert (Hz : is_byte 0) by (unfold word; lia).
  assert (Hu : forall a, is_u32 a -> is_u32 (upd_le a 0)) by (intros; by apply upd_le_word).
  rewrite (DO_CRC_spec w), (DO_CRC_spec (upd_le w 0)), (DO_CRC_spec (upd_le (upd_le w 0) 0)),
    (DO_CRC_spec (upd_le (upd_le (upd_le w 0) 0) 0)) by auto 6.
  unfold w at 1. rewrite word_step by done.
  apply IH; [lia| |done]. repeat apply upd_le_word; done.
Qed.

Lemma crc_words_spec b c p :
  is_u32 c -> Forall is_byte p -> crc_words tab b c p = each_byte upd_le c p.
Proof.
  intros Hc Hp. unfold crc_words.
  assert (H1 : let '(c', p') := if negb (b mod 4 =? 0)%nat && negb (length p =? 0)%nat
      then align_loop tab c b p else (c, p) in
    is_u32 c' /\ Forall is_byte p' /\ each_byte upd_le c' p' = each_byte upd_le c p).
  { destruct (_ && _); [by apply align_loop_spec|done]. }
  destruct (if negb (b mod 4 =? 0)%nat && negb (length p =? 0)%nat
    then align_loop tab c b p else (c, p)) as [c1 p1].
  destruct H1 as (Hc1 & Hp1 & <-).
  assert (H2 : let '(c', p') := if (4 <=? length p1)%nat then word_loop tab c1 p1 else (c1, p1) in
    is_u32 c' /\ Forall is_byte p' /\ each_byte upd_le c' p' = each_byte upd_le c1 p1).
  { destruct (4 <=? length p1)%nat; [|done]. apply (word_loop_spec (S (length p1))); [lia|done..]. }
  destruct (if (4 <=? length p1)%nat then word_loop tab c1 p1 else (c1, p1)) as [c2 p2].
  destruct H2 as (Hc2 & Hp2 & <-). by apply each_DO_CRC.
Qed.

(** Appending the CRC, low byte first, gives the CRC 0. *)
Definition le_bytes (c : Z) : list Z :=
  [Z.land c 255; Z.land (Z.shiftr c 8) 255; Z.land (Z.shiftr c 16) 255; Z.land (Z.shiftr c 24) 255].

Lemma cancel c : is_u32 c -> each_byte upd_le c (le_bytes c) = 0.
Proof.
  intros Hc. unfold le_bytes, upd_le. cbn [each_byte]. rewrite U_eat by done.
  rewrite U_eat by auto with cword. rewrite Z.shiftr_shiftr by lia. change (8 + 8) with 16.
  rewrite U_eat by auto with cword. rewrite Z.shiftr_shiftr by lia. change (16 + 8) with 24.
  rewrite U_eat by auto with cword. rewrite Z.shiftr_shiftr by lia. change (24 + 8) with 32.
  unfold word in Hc. rewrite Z.shiftr_div_pow2, Z.div_small by lia. done.
Qed.

Lemma each_byte_lxor c d p q :
  is_u32 c -> is_u32 d -> Forall is_byte p -> Forall is_byte q -> length p = length q ->
  each_byte upd_le (Z.lxor c d) (zip_with Z.lxor p q) = Z.lxor (each_byte upd_le c p) (each_byte upd_le d q).
Proof.
  intros Hc Hd Hp. revert c d q Hc Hd. induction Hp as [|x p Hx Hp IH]; intros c d [|y q] Hc Hd Hq Hl; try done.
  apply Forall_cons_1 in Hq as [Hy Hq]. injection Hl as Hl. cbn [zip_with each_byte].
  assert (E : upd_le (Z.lxor c d) (Z.lxor x y) = Z.lxor (upd_le c x) (upd_le d y)).
  { unfold upd_le. rewrite lxor_swap. apply linear_lxor; auto with cword. }
  rewrite E. apply IH; by try apply upd_le_word.
Qed.
End ByteTable.

(** ** The 32-bit little-endian CRC *)

Definition U_le : Z -> Z := Nat.iter 8 (step_le CRCPOLY_LE).

#[export] Instance poly_word : Linear U_le.
Proof. apply linear_iter, step_le_linear. unfold word, CRCPOLY_LE. lia. Qed.

Lemma U_le_split x : is_u32 x -> Z.lxor (U_le (Z.land x 255)) (Z.shiftr x 8) = U_le x.
Proof.
  apply (linear_eq (n := 32) (m := 32) (fun x => Z.lxor (U_le (Z.land x 255)) (Z.shiftr x 8)) U_le). split_and!.
  - apply linear_lxor2; [|linear]. apply (linear_compose (m := 32) U_le (fun x => Z.land x 255)).
  - apply _.
  - vm_compute. reflexivity.
Qed.

(** A table is right when its entries are, which evaluation decides. *)
Definition table_ok (n : nat) (tab : list Z) (U : Z -> Z) : bool :=
  forallb (fun i => get tab (Z.of_nat i) =? U (Z.of_nat i)) (seq 0 n).

Lemma table_ok_get n tab U i :
  table_ok n tab U = true -> 0 <= i < Z.of_nat n -> get tab i = U i.
Proof.
  intros H Hi. unfold table_ok in H. rewrite forallb_forall in H. specialize (H (Z.to_nat i)).
  rewrite Z2Nat.id in H by lia. apply Z.eqb_eq, H, in_seq. lia.
Qed.

Lemma table_byte tab U : table_ok 256 tab U = true -> forall i, is_byte i -> get tab i = U i.
Proof. intros H i Hi. apply (table_ok_get 256); done. Qed.

Lemma crc32_le_8_spec b c p :
  is_u32 c -> Forall is_byte p -> crc32_le_8 b c p = crc32_le_1 c p.
Proof.
  intros. unfold crc32_le_8, crc32_le_1.
  rewrite (crc_words_spec U_le (crc32init_le 8) U_le_split); [reflexivity| |done..].
  apply table_byte. vm_compute. reflexivity.
Qed.

(** A look-up of [k] bits does [k] steps of the division. *)
Lemma look_le_spec k tab x :
  0 <= k <= 8 -> is_u32 x ->
  table_ok (2 ^ Z.to_nat k) tab (Nat.iter (Z.to_nat k) (step_le CRCPOLY_LE)) = true ->
  forallb (fun i => Z.lxor (Z.shiftr (2 ^ Z.of_nat i) k)
      (Nat.iter (Z.to_nat k) (step_le CRCPOLY_LE) (Z.land (2 ^ Z.of_nat i) (Z.ones k))) =?
    Nat.iter (Z.to_nat k) (step_le CRCPOLY_LE) (2 ^ Z.of_nat i)) (seq 0 32) = true ->
  Z.lxor (Z.shiftr x k) (get tab (Z.land x (Z.ones k))) = Nat.iter (Z.to_nat k) (step_le CRCPOLY_LE) x.
Proof.
  intros Hk Hx Ht Hb.
  assert (HL : Linear (Nat.iter (Z.to_nat k) (step_le CRCPOLY_LE))).
  { apply linear_iter, step_le_linear. unfold word, CRCPOLY_LE. lia. }
  rewrite (table_ok_get _ _ _ _ Ht).
  - apply (linear_eq (n := 32) (m := 32) (fun x => Z.lxor (Z.shiftr x k)
      (Nat.iter (Z.to_nat k) (step_le CRCPOLY_LE) (Z.land x (Z.ones k)))) _); [split_and!|done]; [|done..].
    apply linear_lxor2; [linear|].
    apply (linear_compose (m := 32) (Nat.iter (Z.to_nat k) (step_le CRCPOLY_LE)) (fun x => Z.land x (Z.ones k))).
  - rewrite Z.land_ones, Nat2Z.inj_pow, Z2Nat.id by lia. apply Z.mod_pos_bound. lia.
Qed.

Lemma step_le_word n c : is_u32 c -> is_u32 (Nat.iter n (step_le CRCPOLY_LE) c).
Proof.
  intros Hc. assert (HL : Linear (Nat.iter n (step_le CRCPOLY_LE))).
  { apply linear_iter, step_le_linear. unfold word, CRCPOLY_LE. lia. }
  by apply linear_word.
Qed.

Lemma crc32_le_4_spec c p : is_u32 c -> Forall is_byte p -> crc32_le_4 c p = crc32_le_1 c p.
Proof.
  intros Hc Hp. apply (each_byte_ext 32); [| |done|done].
  - intros d x Hd Hx.
    assert (Hl : forall y, is_u32 y -> Z.lxor (Z.shiftr y 4) (get (crc32init_le 4) (Z.land y 15)) =
      Nat.iter 4 (step_le CRCPOLY_LE) y).
    { intros y Hy. apply (look_le_spec 4); [lia|done|vm_compute; reflexivity..]. }
    rewrite (Hl (Z.lxor d x)) by auto with cword.
    rewrite Hl by (apply step_le_word; auto with cword). symmetry. apply (Nat.iter_add 4 4).
  - intros. apply step_le_word. auto with cword.
Qed.

Lemma crc32_le_2_spec c p : is_u32 c -> Forall is_byte p -> crc32_le_2 c p = crc32_le_1 c p.
Proof.
  intros Hc Hp. apply (each_byte_ext 32); [| |done|done].
  - intros d x Hd Hx.
    assert (Hl : forall y, is_u32 y -> Z.lxor (Z.shiftr y 2) (get (crc32init_le 2) (Z.land y 3)) =
      Nat.iter 2 (step_le CRCPOLY_LE) y).
    { intros y Hy. apply (look_le_spec 2); [lia|done|vm_compute; reflexivity..]. }
    assert (H0 : is_u32 (Z.lxor d x)) by auto with cword.
    do 3 (match type of H0 with is_u32 ?y => rewrite (Hl y H0); apply (step_le_word 2) in H0 end).
    rewrite (Hl _ H0). rewrite <-!Nat.iter_add. reflexivity.
  - intros. apply step_le_word. auto with cword.
Qed.

(** C34 (crc32_le): the table-driven variants, for 2, 4 and 8 bits at a time
    and the last for every alignment of the buffer, compute the bit-at-a-time
    CRC. *)
Theorem crc32_le_correct b crc p :
  is_u32 crc -> Forall is_byte p ->
  crc32_le_8 b crc p = crc32_le_1 crc p /\ crc32_le_4 crc p = crc32_le_1 crc p /\
  crc32_le_2 crc p = crc32_le_1 crc p.
Proof. intros. split_and!; [by apply crc32_le_8_spec|by apply crc32_le_4_spec|by apply crc32_le_2_spec]. Qed.

Definition crc_demo : list Z := [49; 50; 51; 52; 53; 54; 55; 56; 57].

Lemma crc_demo_ok : Forall is_byte crc_demo.
Proof. repeat constructor; lia. Qed.

Lemma crc32_le_correct_witness :
  Z.lxor (crc32_le_1 0xffffffff crc_demo) 0xffffffff = 0xcbf43926 /\
  crc32_le_8 3 0xffffffff crc_demo = crc32_le_1 0xffffffff crc_demo.
Proof.
  split; [vm_compute; reflexivity|].
  refine (proj1 (crc32_le_correct 3 0xffffffff crc_demo _ crc_demo_ok)). unfold word. lia.
Defined.

(** ** The 32-bit big-endian CRC *)

Definition U_be : Z -> Z := Nat.iter 8 (step_be CRCPOLY_BE).

#[export] Instance U_be_linear : Linear U_be.
Proof. apply linear_iter, step_be_linear. unfold word, CRCPOLY_BE. lia. Qed.

Lemma step_be_word n c : is_u32 c -> is_u32 (Nat.iter n (step_be CRCPOLY_BE) c).
Proof.
  intros Hc. assert (HL : Linear (Nat.iter n (step_be CRCPOLY_BE))).
  { apply linear_iter, step_be_linear. unfold word, CRCPOLY_BE. lia. }
  by apply linear_word.
Qed.

#[export] Instance swab32_linear : Linear ___arch__swab32.
Proof.
  unfold ___arch__swab32. apply linear_lxor2.
  - apply linear_lor; [linear..|]. intros x Hx. by apply (shifts_disjoint_w 32 x 24).
  - apply linear_shiftr; [|lia]. apply linear_land. apply linear_lxor2; [linear|].
    apply linear_lor; [linear..|]. intros x Hx. by apply (shifts_disjoint_w 32 x 16).
Qed.

Lemma swab32_invol x : is_u32 x -> ___arch__swab32 (___arch__swab32 x) = x.
Proof.
  apply (linear_eq (n := 32) (m := 32) (fun x => ___arch__swab32 (___arch__swab32 x)) (fun x => x)). split_and!.
  - apply (linear_compose (m := 32) ___arch__swab32 ___arch__swab32).
  - linear.
  - vm_compute. reflexivity.
Qed.

Lemma swab32_byte x : is_byte x -> ___arch__swab32 x = Z.shiftl x 24.
Proof.
  intros Hx. replace (Z.shiftl x 24) with (cshl 32 x 24).
  2: { unfold cshl. apply wrap_small. by apply byte_top. }
  rewrite <-(wrap_small 8 x Hx), wrap_ones by lia.
  apply (linear_eq (n := 32) (m := 32) (fun x => ___arch__swab32 (Z.land x (Z.ones 8))) (fun x => cshl 32 (Z.land x (Z.ones 8)) 24));
    [split_and!|by apply byte_u32].
  - apply (linear_compose (m := 32) ___arch__swab32 (fun x => Z.land x (Z.ones 8))).
  - linear.
  - vm_compute. reflexivity.
Qed.

(** Eight steps on the byte-swapped register. *)
Definition U_sw (x : Z) : Z := ___arch__swab32 (U_be (___arch__swab32 x)).

#[export] Instance U_sw_linear : Linear U_sw.
Proof.
  assert (Linear (fun x => U_be (___arch__swab32 x))) by apply (linear_compose (m := 32) U_be ___arch__swab32).
  apply (linear_compose (m := 32) ___arch__swab32 (fun x => U_be (___arch__swab32 x))).
Qed.

Lemma U_sw_split x : is_u32 x -> Z.lxor (U_sw (Z.land x 255)) (Z.shiftr x 8) = U_sw x.
Proof.
  apply (linear_eq (n := 32) (m := 32) (fun x => Z.lxor (U_sw (Z.land x 255)) (Z.shiftr x 8)) U_sw). split_and!.
  - apply linear_lxor2; [|linear]. apply (linear_compose (m := 32) U_sw (fun x => Z.land x 255)).
  - apply _.
  - vm_compute. reflexivity.
Qed.

Lemma crc32_be_1_cons c x p : crc32_be_1 c (x :: p) = crc32_be_1 (U_be (Z.lxor c (Z.shiftl x 24))) p.
Proof. unfold U_be. reflexivity. Qed.

Lemma crc32_be_8_spec b c p :
  is_u32 c -> Forall is_byte p -> crc32_be_8 b c p = crc32_be_1 c p.
Proof.
  intros Hc Hp. unfold crc32_be_8. rewrite (crc_words_spec U_sw _ U_sw_split); cycle 1.
  { apply table_byte. vm_compute. reflexivity. }
  { by apply linear_word. }
  { done. }
  revert c Hc. induction Hp as [|x p Hx Hp IH]; intros c Hc; cbn [each_byte].
  { by apply swab32_invol. }
  rewrite crc32_be_1_cons, <-IH by (apply linear_word; auto with cword). f_equal. f_equal.
  unfold upd_le, U_sw. f_equal. f_equal.
  rewrite linear_lxor, swab32_invol, swab32_byte by (try apply linear_word; auto with cword). done.
Qed.

Lemma look_be_spec k tab x :
  0 < k <= 8 -> is_u32 x ->
  table_ok (2 ^ Z.to_nat k) tab (fun i => Nat.iter (Z.to_nat k) (step_be CRCPOLY_BE) (cshl 32 i (32 - k))) = true ->
  forallb (fun i => Z.lxor (cshl 32 (2 ^ Z.of_nat i) k)
      (Nat.iter (Z.to_nat k) (step_be CRCPOLY_BE) (cshl 32 (Z.shiftr (2 ^ Z.of_nat i) (32 - k)) (32 - k))) =?
    Nat.iter (Z.to_nat k) (step_be CRCPOLY_BE) (2 ^ Z.of_nat i)) (seq 0 32) = true ->
  Z.lxor (cshl 32 x k) (get tab (Z.shiftr x (32 - k))) = Nat.iter (Z.to_nat k) (step_be CRCPOLY_BE) x.
Proof.
  intros Hk Hx Ht Hb.
  assert (HL : Linear (Nat.iter (Z.to_nat k) (step_be CRCPOLY_BE))).
  { apply linear_iter, step_be_linear. unfold word, CRCPOLY_BE. lia. }
  rewrite (table_ok_get _ _ _ _ Ht).
  - apply (linear_eq (n := 32) (m := 32) (fun x => Z.lxor (cshl 32 x k)
      (Nat.iter (Z.to_nat k) (step_be CRCPOLY_BE) (cshl 32 (Z.shiftr x (32 - k)) (32 - k)))) _);
      [split_and!|done]; [|done..].
    assert (Linear (fun x => cshl 32 (Z.shiftr x (32 - k)) (32 - k))) by linear.
    apply linear_lxor2; [linear|].
    apply (linear_compose (m := 32) (Nat.iter (Z.to_nat k) (step_be CRCPOLY_BE))
      (fun x => cshl 32 (Z.shiftr x (32 - k)) (32 - k))).
  - rewrite Nat2Z.inj_pow, Z2Nat.id by lia. change (Z.of_nat 2) with 2. unfold word in Hx.
    rewrite Z.shiftr_div_pow2 by lia. split; [apply Z.div_pos; lia|].
    apply Z.div_lt_upper_bound; [lia|]. rewrite <-Z.pow_add_r by lia.
    replace (32 - k + k) with 32 by lia. lia.
Qed.

Lemma crc32_be_4_spec c p : is_u32 c -> Forall is_byte p -> crc32_be_4 c p = crc32_be_1 c p.
Proof.
  intros Hc Hp. apply (each_byte_ext 32); [| |done|done].
  - intros d x Hd Hx.
    assert (Hl : forall y, is_u32 y -> Z.lxor (cshl 32 y 4) (get (crc32init_be 4) (Z.shiftr y 28)) =
      Nat.iter 4 (step_be CRCPOLY_BE) y).
    { intros y Hy. apply (look_be_spec 4); [lia|done|vm_compute; reflexivity..]. }
    rewrite (Hl (Z.lxor d (Z.shiftl x 24))) by auto with cword.
    rewrite Hl by (apply step_be_word; auto with cword). symmetry. apply (Nat.iter_add 4 4).
  - intros. apply step_be_word. auto with cword.
Qed.

Lemma crc32_be_2_spec c p : is_u32 c -> Forall is_byte p -> crc32_be_2 c p = crc32_be_1 c p.
Proof.
  intros Hc Hp. apply (each_byte_ext 32); [| |done|done].
  - intros d x Hd Hx.
    assert (Hl : forall y, is_u32 y -> Z.lxor (cshl 32 y 2) (get (crc32init_be 2) (Z.shiftr y 30)) =
      Nat.iter 2 (step_be CRCPOLY_BE) y).
    { intros y Hy. apply (look_be_spec 2); [lia|done|vm_compute; reflexivity..]. }
    assert (H0 : is_u32 (Z.lxor d (Z.shiftl x 24))) by auto with cword.
    do 3 (match type of H0 with is_u32 ?y => rewrite (Hl y H0); apply (step_be_word 2) in H0 end).
    rewrite (Hl _ H0). rewrite <-!Nat.iter_add. reflexivity.
  - intros. apply step_be_word. auto with cword.
Qed.

(** (crc32_be): the table-driven variants compute the bit-at-a-time
    big-endian CRC; the 8-bit one does so on a byte-swapped register with a
    byte-swapped table. *)
Theorem crc32_be_correct b crc p :
  is_u32 crc -> Forall is_byte p ->
  crc32_be_8 b crc p = crc32_be_1 crc p /\ crc32_be_4 crc p = crc32_be_1 crc p /\
  crc32_be_2 crc p = crc32_be_1 crc p.
Proof. intros. split_and!; [by apply crc32_be_8_spec|by apply crc32_be_4_spec|by apply crc32_be_2_spec]. Qed.

Lemma crc32_be_correct_witness :
  crc32_be_8 1 0xffffffff crc_demo = crc32_be_1 0xffffffff crc_demo.
Proof. refine (proj1 (crc32_be_correct 1 0xffffffff crc_demo _ crc_demo_ok)). unfold word. lia. Defined.

(** ** What the unit test of crc32.c checks *)

Lemma crc32_le_1_upd : crc32_le_1 = each_byte (upd_le U_le).
Proof. unfold crc32_le_1, upd_le, U_le. reflexivity. Qed.

Lemma U_le_iter x : Nat.iter 8 (step_le CRCPOLY_LE) x = U_le x.
Proof. reflexivity. Qed.

Lemma crc32_le_1_cons c x p : crc32_le_1 c (x :: p) = crc32_le_1 (U_le (Z.lxor c x)) p.
Proof. by rewrite crc32_le_1_upd. Qed.

Lemma crc32_le_1_word c p : is_u32 c -> Forall is_byte p -> is_u32 (crc32_le_1 c p).
Proof. intros. rewrite crc32_le_1_upd. by apply (each_byte_word U_le). Qed.

Lemma crc32_le_1_app c p q : crc32_le_1 c (p ++ q) = crc32_le_1 (crc32_le_1 c p) q.
Proof. rewrite crc32_le_1_upd. apply each_byte_app. Qed.

Lemma U_le_word x : is_u32 x -> is_u32 (U_le x).
Proof. apply linear_word. Qed.
#[local] Hint Resolve U_le_word crc32_le_1_word : cword.

Lemma le_bytes_ok c : Forall is_byte (le_bytes c).
Proof. repeat constructor; apply land_byte. Qed.

(** (the unit test): a CRC can be computed in two parts, appending the
    CRC cancels it to 0, and the CRC is linear in seed and data. *)
Theorem crc32_le_checks init buf1 buf2 :
  is_u32 init -> Forall is_byte buf1 -> Forall is_byte buf2 ->
  crc32_le_1 init (buf1 ++ buf2) = crc32_le_1 (crc32_le_1 init buf1) buf2 /\
  crc32_le_1 init (buf1 ++ le_bytes (crc32_le_1 init buf1)) = 0 /\
  (length buf1 = length buf2 -> forall init2, is_u32 init2 ->
   crc32_le_1 (Z.lxor init init2) (zip_with Z.lxor buf1 buf2) =
     Z.lxor (crc32_le_1 init buf1) (crc32_le_1 init2 buf2)).
Proof.
  intros Hi H1 H2. rewrite crc32_le_1_upd. split_and!.
  - apply each_byte_app.
  - rewrite each_byte_app. apply (cancel U_le U_le_split).
    by apply each_byte_word; [apply _|..].
  - intros Hl init2 Hi2. by apply (each_byte_lxor U_le).
Qed.

Lemma crc32_le_checks_witness :
  crc32_le_1 7 (crc_demo ++ le_bytes (crc32_le_1 7 crc_demo)) = 0.
Proof.
  refine (proj1 (proj2 (crc32_le_checks 7 crc_demo crc_demo _ crc_demo_ok crc_demo_ok))). unfold word. lia.
Defined.

(** ** Error detection *)

(** The inverse of a division step. *)
Definition unstep (y : Z) : Z :=
  Z.lxor (cshl 32 y 1) (if negb (Z.land y 0x80000000 =? 0) then 0xdb710641 else 0).

Lemma unstep_step x : is_u32 x -> unstep (step_le CRCPOLY_LE x) = x.
Proof.
  assert (Hs : Linear (step_le CRCPOLY_LE)) by (apply step_le_linear; unfold word, CRCPOLY_LE; lia).
  assert (Hu : Linear unstep).
  { apply linear_lxor2; [linear|]. apply (linear_bit 31); try lia. unfold word; lia. }
  apply (linear_eq (n := 32) (m := 32) (fun x => unstep (step_le CRCPOLY_LE x)) (fun x => x)). split_and!.
  - apply (linear_compose (m := 32) unstep (step_le CRCPOLY_LE)).
  - linear.
  - vm_compute. reflexivity.
Qed.

Lemma steps_inj n x y :
  is_u32 x -> is_u32 y ->
  Nat.iter n (step_le CRCPOLY_LE) x = Nat.iter n (step_le CRCPOLY_LE) y -> x = y.
Proof.
  intros Hx Hy. induction n as [|n IH]; [done|]. simpl. intros H. apply IH.
  rewrite <-(unstep_step (Nat.iter n _ x)), <-(unstep_step (Nat.iter n _ y)) by by apply step_le_word.
  by rewrite H.
Qed.

Lemma crc32_le_inj p c d :
  is_u32 c -> is_u32 d -> Forall is_byte p -> crc32_le_1 c p = crc32_le_1 d p -> c = d.
Proof.
  intros Hc Hd Hp. revert c d Hc Hd. induction Hp as [|x p Hx Hp IH]; intros c d Hc Hd H; [done|].
  rewrite !crc32_le_1_cons in H. apply IH in H; [|auto with cword..].
  rewrite <-!U_le_iter in H. apply steps_inj in H; [|auto with cword..]. by apply lxor_cancel_r in H.
Qed.

Lemma lxor_bytes_inj x x' y y' :
  is_byte x -> is_byte x' -> Z.lxor x (Z.shiftl y 8) = Z.lxor x' (Z.shiftl y' 8) -> x = x' /\ y = y'.
Proof.
  intros Hx Hx' H. split.
  - by rewrite <-(lxor_byte_low x y), <-(lxor_byte_low x' y'), H by done.
  - by rewrite <-(lxor_byte_high x y), <-(lxor_byte_high x' y'), H by done.
Qed.

Definition load_list (w : list Z) : Z := foldr (fun x y => Z.lxor x (Z.shiftl y 8)) 0 w.

Lemma load_list_inj w w' :
  Forall is_byte w -> Forall is_byte w' -> length w = length w' -> load_list w = load_list w' -> w = w'.
Proof.
  intros Hw. revert w'. induction Hw as [|x w Hx Hw IH]; intros [|x' w'] Hw' Hl H; try done.
  apply Forall_cons_1 in Hw' as [Hx' Hw']. apply lxor_bytes_inj in H as [-> H]; [|done..].
  f_equal. apply IH; [done|by injection Hl|done].
Qed.

(** [n <= 4] bytes are shifted in like one number. *)
Lemma load_list_word w : Forall is_byte w -> word (8 * Z.of_nat (length w)) (load_list w).
Proof.
  induction 1 as [|x w Hx Hw IH]; simpl load_list; [unfold word; simpl; lia|].
  rewrite length_cons. replace (8 * Z.of_nat (S (length w))) with (8 * Z.of_nat (length w) + 8) by lia.
  apply word_lxor; [lia| |by apply word_shiftl; [lia..|]].
  apply (word_mono 8); [lia|done].
Qed.

Lemma crc_load w c :
  (length w <= 4)%nat -> Forall is_byte w -> is_u32 c ->
  crc32_le_1 c w = Nat.iter (8 * length w) (step_le CRCPOLY_LE) (Z.lxor c (load_list w)).
Proof.
  intros Hl Hw. revert c. induction Hw as [|x w Hx Hw IH]; intros c Hc.
  { simpl. by rewrite Z.lxor_0_r. }
  simpl in Hl. rewrite crc32_le_1_cons, IH by (try lia; auto with cword).
  pose proof (load_list_word w Hw) as Hlw. simpl load_list. rewrite length_cons.
  replace (8 * S (length w))%nat with (8 * length w + 8)%nat by lia. 
  assert (E : forall y, Nat.iter (8 * length w + 8) (step_le CRCPOLY_LE) y =
    Nat.iter (8 * length w) (step_le CRCPOLY_LE) (U_le y)) by (intros; apply Nat.iter_add).
  rewrite E. f_equal.
  rewrite <-Z.lxor_assoc.
  rewrite (linear_lxor (f := U_le) (Z.lxor c x)); [|auto with cword|].
  - f_equal. symmetry. apply (U_shift U_le U_le_split). eapply word_mono; [|done]. lia.
  - eapply (word_mono (8 * Z.of_nat (length w) + 8)); [lia|]. by apply word_shiftl; [lia..|].
Qed.

(** (error detection): two buffers that differ only within a window of at
    most four bytes have different CRCs. *)
Theorem crc32_le_detects_burst init a w w' b :
  is_u32 init -> Forall is_byte (a ++ w ++ b) -> Forall is_byte w' ->
  length w = length w' -> (length w <= 4)%nat -> w <> w' ->
  crc32_le_1 init (a ++ w ++ b) <> crc32_le_1 init (a ++ w' ++ b).
Proof.
  intros Hi Hall Hw' Hl H4 Hne H. apply Forall_app in Hall as [Ha Hwb]. apply Forall_app in Hwb as [Hw Hb].
  apply Hne. rewrite !crc32_le_1_app in H.
  assert (Hca : is_u32 (crc32_le_1 init a)) by auto with cword.
  apply crc32_le_inj in H; [|auto with cword..|done].
  rewrite (crc_load w), (crc_load w') in H by (done || lia). rewrite <-Hl in H.
  assert (Hld : forall v, Forall is_byte v -> (length v <= 4)%nat -> is_u32 (load_list v)).
  { intros v Hv Hlv. eapply word_mono; [|by apply load_list_word]. lia. }
  apply steps_inj in H; [|apply word_lxor; try lia; try done; apply Hld; done || lia..].
  apply lxor_cancel_l in H. by apply load_list_inj.
Qed.

Lemma crc32_le_detects_burst_witness :
  crc32_le_1 0 ([1; 2] ++ [3; 4; 5] ++ [6]) <> crc32_le_1 0 ([1; 2] ++ [3; 9; 8] ++ [6]).
Proof.
  apply (crc32_le_detects_burst 0 [1; 2] [3; 4; 5] [3; 9; 8] [6]);
    [unfold word; lia|repeat constructor; lia|repeat constructor; lia|done|simpl; lia|done].
Defined.

(** ** Bit reversal *)

(** One exchange of neighbouring groups of [n] bits. *)
Definition exchange (n m1 m2 x : Z) : Z :=
  Z.lor (Z.land (Z.shiftr x n) m1) (Z.land (cshl 32 x n) m2).

Lemma exchange_linear n m1 m2 : 0 <= n -> Z.land m1 m2 = 0 -> Linear (exchange n m1 m2).
Proof.
  intros Hn Hm. apply linear_lor; [linear; done|linear|]. intros x _. by apply masks_disjoint.
Qed.

#[export] Instance bitreverse_linear : Linear bitreverse.
Proof.
  assert (H16 : Linear (fun x => Z.lor (Z.shiftr x 16) (cshl 32 x 16))).
  { apply linear_lor; [linear..|]. intros x Hx. rewrite Z.land_comm. by apply (shifts_disjoint_w 32 x 16). }
  assert (H8 := exchange_linear 8 0x00ff00ff 0xff00ff00 ltac:(lia) eq_refl).
  assert (H4 := exchange_linear 4 0x0f0f0f0f 0xf0f0f0f0 ltac:(lia) eq_refl).
  assert (H2 := exchange_linear 2 0x33333333 0xcccccccc ltac:(lia) eq_refl).
  assert (H1 := exchange_linear 1 0x55555555 0xaaaaaaaa ltac:(lia) eq_refl).
  pose proof (linear_compose _ _ (H := H8) (H0 := H16)) as A8.
  pose proof (linear_compose _ _ (H := H4) (H0 := A8)) as A4.
  pose proof (linear_compose _ _ (H := H2) (H0 := A4)) as A2.
  exact (linear_compose _ _ (H := H1) (H0 := A2)).
Qed.

Lemma bitreverse_invol x : is_u32 x -> bitreverse (bitreverse x) = x.
Proof.
  apply (linear_eq (n := 32) (m := 32) (fun x => bitreverse (bitreverse x)) (fun x => x)). split_and!.
  - apply (linear_compose (m := 32) bitreverse bitreverse).
  - linear.
  - vm_compute. reflexivity.
Qed.

Lemma bitreverse_testbit x i :
  is_u32 x -> 0 <= i < 32 -> Z.testbit (bitreverse x) i = Z.testbit x (31 - i).
Proof.
  intros Hx Hi.
  assert (H : Z.land (Z.shiftr (bitreverse x) i) 1 = Z.land (Z.shiftr x (31 - i)) 1).
  { apply (linear_eq (n := 32) (m := 32) (fun x => Z.land (Z.shiftr (bitreverse x) i) 1) (fun x => Z.land (Z.shiftr x (31 - i)) 1));
      [split_and!|done].
    - apply linear_land, linear_shiftr; [apply bitreverse_linear|lia].
    - linear.
    - assert (Hb : forallb (fun i => forallb (fun j =>
          Z.land (Z.shiftr (bitreverse (2 ^ Z.of_nat j)) i) 1 =? Z.land (Z.shiftr (2 ^ Z.of_nat j) (31 - i)) 1)
          (seq 0 32)) (seqZ 0 32) = true) by (vm_compute; reflexivity).
      rewrite forallb_forall in Hb. apply Hb, list_elem_of_In, elem_of_seqZ. lia. }
  apply (f_equal (fun z => Z.testbit z 0)) in H.
  rewrite !Z.land_spec, !Z.shiftr_spec, !andb_true_r in H by lia. by rewrite !Z.add_0_l in H.
Qed.

Definition U_rev_check : bool :=
  forallb (fun i => bitreverse (U_be (2 ^ Z.of_nat i)) =? U_le (bitreverse (2 ^ Z.of_nat i))) (seq 0 32).

Lemma bitreverse_U x : is_u32 x -> bitreverse (U_be x) = U_le (bitreverse x).
Proof.
  apply (linear_eq (n := 32) (m := 32) (fun x => bitreverse (U_be x)) (fun x => U_le (bitreverse x))). split_and!.
  - apply (linear_compose (m := 32) bitreverse U_be).
  - apply (linear_compose (m := 32) U_le bitreverse).
  - change (U_rev_check = true). vm_compute. reflexivity.
Qed.

Lemma bytereverse1_spec x : is_byte x -> is_byte (bytereverse1 x) /\ bitreverse (Z.shiftl x 24) = bytereverse1 x.
Proof.
  intros Hx.
  assert (H : forallb (fun x => (0 <=? bytereverse1 x) && (bytereverse1 x <? 256) &&
    (bitreverse (Z.shiftl x 24) =? bytereverse1 x)) (seqZ 0 256) = true) by (vm_compute; reflexivity).
  rewrite forallb_forall in H. specialize (H x).
  rewrite !andb_true_iff, Z.leb_le, Z.ltb_lt, Z.eqb_eq in H.
  destruct H as [[? ?] ?]; [apply list_elem_of_In, elem_of_seqZ; unfold word in Hx; lia|].
  unfold word. split_and!; try lia.
Qed.

(** (bit reversal): [bitreverse] mirrors the 32 bits of a word, and the
    big-endian CRC is the little-endian one with seed, bytes and result
    mirrored. *)
Theorem crc32_bitreverse crc p :
  is_u32 crc -> Forall is_byte p ->
  (forall i, 0 <= i < 32 -> Z.testbit (bitreverse crc) i = Z.testbit crc (31 - i)) /\
  bitreverse (crc32_be_1 crc p) = crc32_le_1 (bitreverse crc) (bytereverse p).
Proof.
  intros Hc Hp. split; [intros i Hi; by apply bitreverse_testbit|].
  revert crc Hc. induction Hp as [|x p Hx Hp IH]; intros crc Hc; [done|].
  unfold bytereverse. cbn [map]. change (map bytereverse1 p) with (bytereverse p).
  rewrite crc32_le_1_cons, crc32_be_1_cons, IH by (apply linear_word; auto with cword). f_equal.
  destruct (bytereverse1_spec x Hx) as [_ Hr].
  rewrite bitreverse_U, (linear_lxor (f := bitreverse)), Hr by auto with cword. done.
Qed.

Lemma crc32_bitreverse_witness :
  bitreverse (crc32_be_1 0xffffffff crc_demo) = crc32_le_1 (bitreverse 0xffffffff) (bytereverse crc_demo).
Proof. refine (proj2 (crc32_bitreverse 0xffffffff crc_demo _ crc_demo_ok)). unfold word. lia. Defined.

(** ** U-Boot and the other table-driven CRCs *)

Lemma table_upd U tab w c x :
  0 <= w <= 32 -> Linear U ->
  (forall x, is_u32 x -> Z.lxor (U (Z.land x 255)) (Z.shiftr x 8) = U x) ->
  (forall i, is_byte i -> get tab i = U i) -> word w c -> is_byte x ->
  Z.lxor (Z.shiftr c 8) (get tab (Z.land (Z.lxor c x) 255)) = U (Z.lxor c x).
Proof.
  intros Hw HL HU Htab Hc Hx. rewrite Z.lxor_comm. apply (DO_CRC_spec U tab HU Htab); [|done].
  by apply (word_mono w).
Qed.

Lemma DO1_spec c x : is_u32 c -> is_byte x -> DO1 c x = upd_le U_le c x.
Proof.
  intros Hc Hx. apply (DO_CRC_spec U_le crc_table U_le_split); [|done..].
  apply table_byte. vm_compute. reflexivity.
Qed.

Lemma do8_loop_bytes n c p : (length p < n)%nat -> do8_loop c p = each_byte DO1 c p.
Proof.
  revert c p. induction n as [|n IH]; intros c p Hn; [lia|].
  do 8 (destruct p as [|? p]; [reflexivity|]). cbn [do8_loop]. rewrite IH by (simpl in Hn; lia).
  reflexivity.
Qed.

Lemma do8_loop_spec c p : is_u32 c -> Forall is_byte p -> do8_loop c p = crc32_le_1 c p.
Proof.
  intros Hc Hp. rewrite (do8_loop_bytes (S (length p))) by lia.
  rewrite crc32_le_1_upd. apply (each_byte_ext 32); try done; intros; [by apply DO1_spec|].
  by apply (upd_le_word U_le).
Qed.

(** (boot loader and kernel agree): the CRC U-Boot computes for JFFS2 is
    the kernel's [crc32_le], its plain [crc32] the same with seed and result
    complemented, and the dynamically made table is the static one. *)
Theorem uboot_crc32_correct b crc p :
  is_u32 crc -> Forall is_byte p ->
  crc32_no_comp crc p = crc32_le_8 b crc p /\
  crc32 crc p = cnot 32 (crc32_le_8 b (cnot 32 crc) p) /\
  make_crc_table = crc_table.
Proof.
  intros Hc Hp. rewrite !crc32_le_8_spec by auto with cword.
  assert (Hn : forall c, is_u32 c -> Z.lxor c 0xffffffff = cnot 32 c).
  { intros c Hw. change 0xffffffff with (Z.ones 32). apply Z.bits_inj'; intros i Hi.
    rewrite Z.lxor_spec, ones_testbit, cnot_testbit by lia. destruct (Z.ltb_spec i 32).
    - simpl. apply xorb_true_r.
    - by rewrite (word_testbit_high 32 c i). }
  split_and!.
  - by apply do8_loop_spec.
  - unfold crc32. rewrite (Hn crc Hc), do8_loop_spec by auto with cword. apply Hn. auto with cword.
  - vm_compute. reflexivity.
Qed.

Lemma uboot_crc32_correct_witness :
  crc32_no_comp 0 crc_demo = crc32_le_8 0 0 crc_demo /\ crc32 0 crc_demo = cnot 32 (crc32_le_8 0 (cnot 32 0) crc_demo) /\
  make_crc_table = crc_table.
Proof. apply (uboot_crc32_correct 0 0 crc_demo); [unfold word; lia|apply crc_demo_ok]. Defined.

Lemma steps_split poly :
  is_u32 poly ->
  forallb (fun i => Z.lxor (Nat.iter 8 (step_le poly) (Z.land (2 ^ Z.of_nat i) 255)) (Z.shiftr (2 ^ Z.of_nat i) 8) =?
    Nat.iter 8 (step_le poly) (2 ^ Z.of_nat i)) (seq 0 32) = true ->
  forall x, is_u32 x ->
    Z.lxor (Nat.iter 8 (step_le poly) (Z.land x 255)) (Z.shiftr x 8) = Nat.iter 8 (step_le poly) x.
Proof.
  intros Hp Hb x. assert (HL : Linear (Nat.iter 8 (step_le poly))) by (by apply linear_iter, step_le_linear).
  apply (linear_eq (n := 32) (m := 32) (fun x => Z.lxor (Nat.iter 8 (step_le poly) (Z.land x 255)) (Z.shiftr x 8)) _).
  split_and!; [|done..]. apply linear_lxor2; [|linear].
  apply (linear_compose (m := 32) (Nat.iter 8 (step_le poly)) (fun x => Z.land x 255)).
Qed.

(** A byte-wise CRC of width [w] with table [tab] computes the bit-at-a-time
    CRC of its polynomial. *)
Lemma table_crc_spec w poly tab crc p :
  8 <= w <= 32 -> word w poly ->
  forallb (fun i => Z.lxor (Nat.iter 8 (step_le poly) (Z.land (2 ^ Z.of_nat i) 255)) (Z.shiftr (2 ^ Z.of_nat i) 8) =?
    Nat.iter 8 (step_le poly) (2 ^ Z.of_nat i)) (seq 0 32) = true ->
  table_ok 256 tab (Nat.iter 8 (step_le poly)) = true ->
  word w crc -> Forall is_byte p ->
  each_byte (fun c x => Z.lxor (Z.shiftr c 8) (get tab (Z.land (Z.lxor c x) 255))) crc p =
  each_byte (fun c x => Nat.iter 8 (step_le poly) (Z.lxor c x)) crc p.
Proof.
  intros Hw Hpoly Hb Ht Hc Hp.
  assert (Hp32 : is_u32 poly) by (eapply word_mono; [|done]; lia).
  assert (HL : Linear (Nat.iter 8 (step_le poly))) by (by apply linear_iter, step_le_linear).
  apply (each_byte_ext w); [| |done|done].
  - intros c x Hcw Hx. apply (table_upd (Nat.iter 8 (step_le poly)) tab w); try done; [lia| |].
    + by apply steps_split.
    + by apply table_byte.
  - intros c x Hcw Hx.
    assert (Hstep : forall n y, word w y -> word w (Nat.iter n (step_le poly) y)).
    { induction n as [|n IH]; intros y Hy; [done|]. simpl. apply step_le_width; [lia|done|by apply IH]. }
    apply Hstep, word_lxor; [lia|done|]. apply (word_mono 8); [lia|done].
Qed.

(** (CRC-16, CRC-CCITT, CRC-32C): the tables in the source are those of
    the stated polynomials, and the byte-wise loops compute the bit-at-a-time
    CRCs. *)
Theorem table_crcs_correct crc p :
  Forall is_byte p ->
  (word 16 crc -> crc16 crc p = each_byte (fun c x => Nat.iter 8 (step_le 0xA001) (Z.lxor c x)) crc p) /\
  (word 16 crc -> crc_ccitt crc p = each_byte (fun c x => Nat.iter 8 (step_le 0x8408) (Z.lxor c x)) crc p) /\
  (is_u32 crc -> crc32c_le crc p = crc32c_le_1 crc p).
Proof.
  intros Hp. split_and!; intros Hc.
  - apply (table_crc_spec 16); [lia|unfold word; lia|vm_compute; reflexivity|vm_compute; reflexivity|done|done].
  - apply (table_crc_spec 16); [lia|unfold word; lia|vm_compute; reflexivity|vm_compute; reflexivity|done|done].
  - unfold crc32c_le, crc32c_le_1.
    rewrite <-(table_crc_spec 32 CRC32C_POLY_LE crc32c_table);
      [|lia|unfold word, CRC32C_POLY_LE; lia|vm_compute; reflexivity|vm_compute; reflexivity|done|done].
    clear Hc Hp. revert crc. induction p as [|x p IH]; intros crc; [done|]. cbn [each_byte].
    by rewrite Z.lxor_comm, IH.
Qed.

Lemma table_crcs_correct_witness :
  crc16 0 crc_demo = 0xbb3d /\
  crc16 0 crc_demo = each_byte (fun c x => Nat.iter 8 (step_le 0xA001) (Z.lxor c x)) 0 crc_demo.
Proof.
  split; [vm_compute; reflexivity|].
  refine (proj1 (table_crcs_correct 0 crc_demo crc_demo_ok) _). unfold word. lia.
Defined.
