(* ===== verification/Des.v ===== *)
(** * DES and triple DES (src/apps/libdes-4.04b)

    The library the password tool links against, in the configuration its
    headers select (DES_PTR, DES_RISC1, DES_UNROLL), on a CPU with 32-bit
    longs: the key schedule of set_key.c and the block operations of
    des_enc.c and ecb_enc.c, with their tables.  A block is two 32-bit words
    or eight bytes, a key schedule 32 words.  The theorems here are about
    invertibility and keys; DesSpec proves the code equal to the standard and
    DesModes has the modes of operation, which rely on the class
    [BlockCipher] only. *)

From S2P Require Import Prelude Linear Crc.

(** ** Tables *)

(** [des_SPtrans], of spr.h, by rows. *)

Definition des_SPtrans_0 : list Z := [
  0x02080800; 0x00080000; 0x02000002; 0x02080802;
  0x02000000; 0x00080802; 0x00080002; 0x02000002;
  0x00080802; 0x02080800; 0x02080000; 0x00000802;
  0x02000802; 0x02000000; 0x00000000; 0x00080002;
  0x00080000; 0x00000002; 0x02000800; 0x00080800;
  0x02080802; 0x02080000; 0x00000802; 0x02000800;
  0x00000002; 0x00000800; 0x00080800; 0x02080002;
  0x00000800; 0x02000802; 0x02080002; 0x00000000;
  0x00000000; 0x02080802; 0x02000800; 0x00080002;
  0x02080800; 0x00080000; 0x00000802; 0x02000800;
  0x02080002; 0x00000800; 0x00080800; 0x02000002;
  0x00080802; 0x00000002; 0x02000002; 0x02080000;
  0x02080802; 0x00080800; 0x02080000; 0x02000802;
  0x02000000; 0x00000802; 0x00080002; 0x00000000;
  0x00080000; 0x02000000; 0x02000802; 0x02080800;
  0x00000002; 0x02080002; 0x00000800; 0x00080802
].

Definition des_SPtrans_1 : list Z := [
  0x40108010; 0x00000000; 0x00108000; 0x40100000;
  0x40000010; 0x00008010; 0x40008000; 0x00108000;
  0x00008000; 0x40100010; 0x00000010; 0x40008000;
  0x00100010; 0x40108000; 0x40100000; 0x00000010;
  0x00100000; 0x40008010; 0x40100010; 0x00008000;
  0x00108010; 0x40000000; 0x00000000; 0x00100010;
  0x40008010; 0x00108010; 0x40108000; 0x40000010;
  0x40000000; 0x00100000; 0x00008010; 0x40108010;
  0x00100010; 0x40108000; 0x40008000; 0x00108010;
  0x40108010; 0x00100010; 0x40000010; 0x00000000;
  0x40000000; 0x00008010; 0x00100000; 0x40100010;
  0x00008000; 0x40000000; 0x00108010; 0x40008010;
  0x40108000; 0x00008000; 0x00000000; 0x40000010;
  0x00000010; 0x40108010; 0x00108000; 0x40100000;
  0x40100010; 0x00100000; 0x00008010; 0x40008000;
  0x40008010; 0x00000010; 0x40100000; 0x00108000
].

Definition des_SPtrans_2 : list Z := [
  0x04000001; 0x04040100; 0x00000100; 0x04000101;
  0x00040001; 0x04000000; 0x04000101; 0x00040100;
  0x04000100; 0x00040000; 0x04040000; 0x00000001;
  0x04040101; 0x00000101; 0x00000001; 0x04040001;
  0x00000000; 0x00040001; 0x04040100; 0x00000100;
  0x00000101; 0x04040101; 0x00040000; 0x04000001;
  0x04040001; 0x04000100; 0x00040101; 0x04040000;
  0x00040100; 0x00000000; 0x04000000; 0x00040101;
  0x04040100; 0x00000100; 0x00000001; 0x00040000;
  0x00000101; 0x00040001; 0x04040000; 0x04000101;
  0x00000000; 0x04040100; 0x00040100; 0x04040001;
  0x00040001; 0x04000000; 0x04040101; 0x00000001;
  0x00040101; 0x04000001; 0x04000000; 0x04040101;
  0x00040000; 0x04000100; 0x04000101; 0x00040100;
  0x04000100; 0x00000000; 0x04040001; 0x00000101;
  0x04000001; 0x00040101; 0x00000100; 0x04040000
].

Definition des_SPtrans_3 : list Z := [
  0x00401008; 0x10001000; 0x00000008; 0x10401008;
  0x00000000; 0x10400000; 0x10001008; 0x00400008;
  0x10401000; 0x10000008; 0x10000000; 0x00001008;
  0x10000008; 0x00401008; 0x00400000; 0x10000000;
  0x10400008; 0x00401000; 0x00001000; 0x00000008;
  0x00401000; 0x10001008; 0x10400000; 0x00001000;
  0x00001008; 0x00000000; 0x00400008; 0x10401000;
  0x10001000; 0x10400008; 0x10401008; 0x00400000;
  0x10400008; 0x00001008; 0x00400000; 0x10000008;
  0x00401000; 0x10001000; 0x00000008; 0x10400000;
  0x10001008; 0x00000000; 0x00001000; 0x00400008;
  0x00000000; 0x10400008; 0x10401000; 0x00001000;
  0x10000000; 0x10401008; 0x00401008; 0x00400000;
  0x10401008; 0x00000008; 0x10001000; 0x00401008;
  0x00400008; 0x00401000; 0x10400000; 0x10001008;
  0x00001008; 0x10000000; 0x10000008; 0x10401000
].

Definition des_SPtrans_4 : list Z := [
  0x08000000; 0x00010000; 0x00000400; 0x08010420;
  0x08010020; 0x08000400; 0x00010420; 0x08010000;
  0x00010000; 0x00000020; 0x08000020; 0x00010400;
  0x08000420; 0x08010020; 0x08010400; 0x00000000;
  0x00010400; 0x08000000; 0x00010020; 0x00000420;
  0x08000400; 0x00010420; 0x00000000; 0x08000020;
  0x00000020; 0x08000420; 0x08010420; 0x00010020;
  0x08010000; 0x00000400; 0x00000420; 0x08010400;
  0x08010400; 0x08000420; 0x00010020; 0x08010000;
  0x00010000; 0x00000020; 0x08000020; 0x08000400;
  0x08000000; 0x00010400; 0x08010420; 0x00000000;
  0x00010420; 0x08000000; 0x00000400; 0x00010020;
  0x08000420; 0x00000400; 0x00000000; 0x08010420;
  0x08010020; 0x08010400; 0x00000420; 0x00010000;
  0x00010400; 0x08010020; 0x08000400; 0x00000420;
  0x00000020; 0x00010420; 0x08010000; 0x08000020
].

Definition des_SPtrans_5 : list Z := [
  0x80000040; 0x00200040; 0x00000000; 0x80202000;
  0x00200040; 0x00002000; 0x80002040; 0x00200000;
  0x00002040; 0x80202040; 0x00202000; 0x80000000;
  0x80002000; 0x80000040; 0x80200000; 0x00202040;
  0x00200000; 0x80002040; 0x80200040; 0x00000000;
  0x00002000; 0x00000040; 0x80202000; 0x80200040;
  0x80202040; 0x80200000; 0x80000000; 0x00002040;
  0x00000040; 0x00202000; 0x00202040; 0x80002000;
  0x00002040; 0x80000000; 0x80002000; 0x00202040;
  0x80202000; 0x00200040; 0x00000000; 0x80002000;
  0x80000000; 0x00002000; 0x80200040; 0x00200000;
  0x00200040; 0x80202040; 0x00202000; 0x00000040;
  0x80202040; 0x00202000; 0x00200000; 0x80002040;
  0x80000040; 0x80200000; 0x00202040; 0x00000000;
  0x00002000; 0x80000040; 0x80002040; 0x80202000;
  0x80200000; 0x00002040; 0x00000040; 0x80200040
].

Definition des_SPtrans_6 : list Z := [
  0x00004000; 0x00000200; 0x01000200; 0x01000004;
  0x01004204; 0x00004004; 0x00004200; 0x00000000;
  0x01000000; 0x01000204; 0x00000204; 0x01004000;
  0x00000004; 0x01004200; 0x01004000; 0x00000204;
  0x01000204; 0x00004000; 0x00004004; 0x01004204;
  0x00000000; 0x01000200; 0x01000004; 0x00004200;
  0x01004004; 0x00004204; 0x01004200; 0x00000004;
  0x00004204; 0x01004004; 0x00000200; 0x01000000;
  0x00004204; 0x01004000; 0x01004004; 0x00000204;
  0x00004000; 0x00000200; 0x01000000; 0x01004004;
  0x01000204; 0x00004204; 0x00004200; 0x00000000;
  0x00000200; 0x01000004; 0x00000004; 0x01000200;
  0x00000000; 0x01000204; 0x01000200; 0x00004200;
  0x00000204; 0x00004000; 0x01004204; 0x01000000;
  0x01004200; 0x00000004; 0x00004004; 0x01004204;
  0x01000004; 0x01004200; 0x01004000; 0x00004004
].

Definition des_SPtrans_7 : list Z := [
  0x20800080; 0x20820000; 0x00020080; 0x00000000;
  0x20020000; 0x00800080; 0x20800000; 0x20820080;
  0x00000080; 0x20000000; 0x00820000; 0x00020080;
  0x00820080; 0x20020080; 0x20000080; 0x20800000;
  0x00020000; 0x00820080; 0x00800080; 0x20020000;
  0x20820080; 0x20000080; 0x00000000; 0x00820000;
  0x20000000; 0x00800000; 0x20020080; 0x20800080;
  0x00800000; 0x00020000; 0x20820000; 0x00000080;
  0x00800000; 0x00020000; 0x20000080; 0x20820080;
  0x00020080; 0x20000000; 0x00000000; 0x00820000;
  0x20800080; 0x20020080; 0x20020000; 0x00800080;
  0x20820000; 0x00000080; 0x00800080; 0x20020000;
  0x20820080; 0x00800000; 0x20800000; 0x20000080;
  0x00820000; 0x00020080; 0x20020080; 0x20800000;
  0x00000080; 0x20820000; 0x00820080; 0x00000000;
  0x20000000; 0x20800080; 0x00020000; 0x00820080
].

Definition des_SPtrans : list (list Z) :=
  [des_SPtrans_0; des_SPtrans_1; des_SPtrans_2; des_SPtrans_3; des_SPtrans_4; des_SPtrans_5; des_SPtrans_6; des_SPtrans_7].

(** [des_skb], of sk.h, by rows. *)

Definition des_skb_0 : list Z := [
  0x00000000; 0x00000010; 0x20000000; 0x20000010;
  0x00010000; 0x00010010; 0x20010000; 0x20010010;
  0x00000800; 0x00000810; 0x20000800; 0x20000810;
  0x00010800; 0x00010810; 0x20010800; 0x20010810;
  0x00000020; 0x00000030; 0x20000020; 0x20000030;
  0x00010020; 0x00010030; 0x20010020; 0x20010030;
  0x00000820; 0x00000830; 0x20000820; 0x20000830;
  0x00010820; 0x00010830; 0x20010820; 0x20010830;
  0x00080000; 0x00080010; 0x20080000; 0x20080010;
  0x00090000; 0x00090010; 0x20090000; 0x20090010;
  0x00080800; 0x00080810; 0x20080800; 0x20080810;
  0x00090800; 0x00090810; 0x20090800; 0x20090810;
  0x00080020; 0x00080030; 0x20080020; 0x20080030;
  0x00090020; 0x00090030; 0x20090020; 0x20090030;
  0x00080820; 0x00080830; 0x20080820; 0x20080830;
  0x00090820; 0x00090830; 0x20090820; 0x20090830
].

Definition des_skb_1 : list Z := [
  0x00000000; 0x02000000; 0x00002000; 0x02002000;
  0x00200000; 0x02200000; 0x00202000; 0x02202000;
  0x00000004; 0x02000004; 0x00002004; 0x02002004;
  0x00200004; 0x02200004; 0x00202004; 0x02202004;
  0x00000400; 0x02000400; 0x00002400; 0x02002400;
  0x00200400; 0x02200400; 0x00202400; 0x02202400;
  0x00000404; 0x02000404; 0x00002404; 0x02002404;
  0x00200404; 0x02200404; 0x00202404; 0x02202404;
  0x10000000; 0x12000000; 0x10002000; 0x12002000;
  0x10200000; 0x12200000; 0x10202000; 0x12202000;
  0x10000004; 0x12000004; 0x10002004; 0x12002004;
  0x10200004; 0x12200004; 0x10202004; 0x12202004;
  0x10000400; 0x12000400; 0x10002400; 0x12002400;
  0x10200400; 0x12200400; 0x10202400; 0x12202400;
  0x10000404; 0x12000404; 0x10002404; 0x12002404;
  0x10200404; 0x12200404; 0x10202404; 0x12202404
].

Definition des_skb_2 : list Z := [
  0x00000000; 0x00000001; 0x00040000; 0x00040001;
  0x01000000; 0x01000001; 0x01040000; 0x01040001;
  0x00000002; 0x00000003; 0x00040002; 0x00040003;
  0x01000002; 0x01000003; 0x01040002; 0x01040003;
  0x00000200; 0x00000201; 0x00040200; 0x00040201;
  0x01000200; 0x01000201; 0x01040200; 0x01040201;
  0x00000202; 0x00000203; 0x00040202; 0x00040203;
  0x01000202; 0x01000203; 0x01040202; 0x01040203;
  0x08000000; 0x08000001; 0x08040000; 0x08040001;
  0x09000000; 0x09000001; 0x09040000; 0x09040001;
  0x08000002; 0x08000003; 0x08040002; 0x08040003;
  0x09000002; 0x09000003; 0x09040002; 0x09040003;
  0x08000200; 0x08000201; 0x08040200; 0x08040201;
  0x09000200; 0x09000201; 0x09040200; 0x09040201;
  0x08000202; 0x08000203; 0x08040202; 0x08040203;
  0x09000202; 0x09000203; 0x09040202; 0x09040203
].

Definition des_skb_3 : list Z := [
  0x00000000; 0x00100000; 0x00000100; 0x00100100;
  0x00000008; 0x00100008; 0x00000108; 0x00100108;
  0x00001000; 0x00101000; 0x00001100; 0x00101100;
  0x00001008; 0x00101008; 0x00001108; 0x00101108;
  0x04000000; 0x04100000; 0x04000100; 0x04100100;
  0x04000008; 0x04100008; 0x04000108; 0x04100108;
  0x04001000; 0x04101000; 0x04001100; 0x04101100;
  0x04001008; 0x04101008; 0x04001108; 0x04101108;
  0x00020000; 0x00120000; 0x00020100; 0x00120100;
  0x00020008; 0x00120008; 0x00020108; 0x00120108;
  0x00021000; 0x00121000; 0x00021100; 0x00121100;
  0x00021008; 0x00121008; 0x00021108; 0x00121108;
  0x04020000; 0x04120000; 0x04020100; 0x04120100;
  0x04020008; 0x04120008; 0x04020108; 0x04120108;
  0x04021000; 0x04121000; 0x04021100; 0x04121100;
  0x04021008; 0x04121008; 0x04021108; 0x04121108
].

Definition des_skb_4 : list Z := [
  0x00000000; 0x10000000; 0x00010000; 0x10010000;
  0x00000004; 0x10000004; 0x00010004; 0x10010004;
  0x20000000; 0x30000000; 0x20010000; 0x30010000;
  0x20000004; 0x30000004; 0x20010004; 0x30010004;
  0x00100000; 0x10100000; 0x00110000; 0x10110000;
  0x00100004; 0x10100004; 0x00110004; 0x10110004;
  0x20100000; 0x30100000; 0x20110000; 0x30110000;
  0x20100004; 0x30100004; 0x20110004; 0x30110004;
  0x00001000; 0x10001000; 0x00011000; 0x10011000;
  0x00001004; 0x10001004; 0x00011004; 0x10011004;
  0x20001000; 0x30001000; 0x20011000; 0x30011000;
  0x20001004; 0x30001004; 0x20011004; 0x30011004;
  0x00101000; 0x10101000; 0x00111000; 0x10111000;
  0x00101004; 0x10101004; 0x00111004; 0x10111004;
  0x20101000; 0x30101000; 0x20111000; 0x30111000;
  0x20101004; 0x30101004; 0x20111004; 0x30111004
].

Definition des_skb_5 : list Z := [
  0x00000000; 0x08000000; 0x00000008; 0x08000008;
  0x00000400; 0x08000400; 0x00000408; 0x08000408;
  0x00020000; 0x08020000; 0x00020008; 0x08020008;
  0x00020400; 0x08020400; 0x00020408; 0x08020408;
  0x00000001; 0x08000001; 0x00000009; 0x08000009;
  0x00000401; 0x08000401; 0x00000409; 0x08000409;
  0x00020001; 0x08020001; 0x00020009; 0x08020009;
  0x00020401; 0x08020401; 0x00020409; 0x08020409;
  0x02000000; 0x0a000000; 0x02000008; 0x0a000008;
  0x02000400; 0x0a000400; 0x02000408; 0x0a000408;
  0x02020000; 0x0a020000; 0x02020008; 0x0a020008;
  0x02020400; 0x0a020400; 0x02020408; 0x0a020408;
  0x02000001; 0x0a000001; 0x02000009; 0x0a000009;
  0x02000401; 0x0a000401; 0x02000409; 0x0a000409;
  0x02020001; 0x0a020001; 0x02020009; 0x0a020009;
  0x02020401; 0x0a020401; 0x02020409; 0x0a020409
].

Definition des_skb_6 : list Z := [
  0x00000000; 0x00000100; 0x00080000; 0x00080100;
  0x01000000; 0x01000100; 0x01080000; 0x01080100;
  0x00000010; 0x00000110; 0x00080010; 0x00080110;
  0x01000010; 0x01000110; 0x01080010; 0x01080110;
  0x00200000; 0x00200100; 0x00280000; 0x00280100;
  0x01200000; 0x01200100; 0x01280000; 0x01280100;
  0x00200010; 0x00200110; 0x00280010; 0x00280110;
  0x01200010; 0x01200110; 0x01280010; 0x01280110;
  0x00000200; 0x00000300; 0x00080200; 0x00080300;
  0x01000200; 0x01000300; 0x01080200; 0x01080300;
  0x00000210; 0x00000310; 0x00080210; 0x00080310;
  0x01000210; 0x01000310; 0x01080210; 0x01080310;
  0x00200200; 0x00200300; 0x00280200; 0x00280300;
  0x01200200; 0x01200300; 0x01280200; 0x01280300;
  0x00200210; 0x00200310; 0x00280210; 0x00280310;
  0x01200210; 0x01200310; 0x01280210; 0x01280310
].

Definition des_skb_7 : list Z := [
  0x00000000; 0x04000000; 0x00040000; 0x04040000;
  0x00000002; 0x04000002; 0x00040002; 0x04040002;
  0x00002000; 0x04002000; 0x00042000; 0x04042000;
  0x00002002; 0x04002002; 0x00042002; 0x04042002;
  0x00000020; 0x04000020; 0x00040020; 0x04040020;
  0x00000022; 0x04000022; 0x00040022; 0x04040022;
  0x00002020; 0x04002020; 0x00042020; 0x04042020;
  0x00002022; 0x04002022; 0x00042022; 0x04042022;
  0x00000800; 0x04000800; 0x00040800; 0x04040800;
  0x00000802; 0x04000802; 0x00040802; 0x04040802;
  0x00002800; 0x04002800; 0x00042800; 0x04042800;
  0x00002802; 0x04002802; 0x00042802; 0x04042802;
  0x00000820; 0x04000820; 0x00040820; 0x04040820;
  0x00000822; 0x04000822; 0x00040822; 0x04040822;
  0x00002820; 0x04002820; 0x00042820; 0x04042820;
  0x00002822; 0x04002822; 0x00042822; 0x04042822
].

Definition des_skb : list (list Z) :=
  [des_skb_0; des_skb_1; des_skb_2; des_skb_3; des_skb_4; des_skb_5; des_skb_6; des_skb_7].

Definition odd_parity : list Z := [
  1; 1; 2; 2; 4; 4; 7; 7; 8; 8; 11; 11; 13; 13; 14; 14;
  16; 16; 19; 19; 21; 21; 22; 22; 25; 25; 26; 26; 28; 28; 31; 31;
  32; 32; 35; 35; 37; 37; 38; 38; 41; 41; 42; 42; 44; 44; 47; 47;
  49; 49; 50; 50; 52; 52; 55; 55; 56; 56; 59; 59; 61; 61; 62; 62;
  64; 64; 67; 67; 69; 69; 70; 70; 73; 73; 74; 74; 76; 76; 79; 79;
  81; 81; 82; 82; 84; 84; 87; 87; 88; 88; 91; 91; 93; 93; 94; 94;
  97; 97; 98; 98; 100; 100; 103; 103; 104; 104; 107; 107; 109; 109; 110; 110;
  112; 112; 115; 115; 117; 117; 118; 118; 121; 121; 122; 122; 124; 124; 127; 127;
  128; 128; 131; 131; 133; 133; 134; 134; 137; 137; 138; 138; 140; 140; 143; 143;
  145; 145; 146; 146; 148; 148; 151; 151; 152; 152; 155; 155; 157; 157; 158; 158;
  161; 161; 162; 162; 164; 164; 167; 167; 168; 168; 171; 171; 173; 173; 174; 174;
  176; 176; 179; 179; 181; 181; 182; 182; 185; 185; 186; 186; 188; 188; 191; 191;
  193; 193; 194; 194; 196; 196; 199; 199; 200; 200; 203; 203; 205; 205; 206; 206;
  208; 208; 211; 211; 213; 213; 214; 214; 217; 217; 218; 218; 220; 220; 223; 223;
  224; 224; 227; 227; 229; 229; 230; 230; 233; 233; 234; 234; 236; 236; 239; 239;
  241; 241; 242; 242; 244; 244; 247; 247; 248; 248; 251; 251; 253; 253; 254; 254
].

Definition weak_keys : list (list Z) := [
  [0x01; 0x01; 0x01; 0x01; 0x01; 0x01; 0x01; 0x01];
  [0xFE; 0xFE; 0xFE; 0xFE; 0xFE; 0xFE; 0xFE; 0xFE];
  [0x1F; 0x1F; 0x1F; 0x1F; 0x1F; 0x1F; 0x1F; 0x1F];
  [0xE0; 0xE0; 0xE0; 0xE0; 0xE0; 0xE0; 0xE0; 0xE0];
  [0x01; 0xFE; 0x01; 0xFE; 0x01; 0xFE; 0x01; 0xFE];
  [0xFE; 0x01; 0xFE; 0x01; 0xFE; 0x01; 0xFE; 0x01];
  [0x1F; 0xE0; 0x1F; 0xE0; 0x0E; 0xF1; 0x0E; 0xF1];
  [0xE0; 0x1F; 0xE0; 0x1F; 0xF1; 0x0E; 0xF1; 0x0E];
  [0x01; 0xE0; 0x01; 0xE0; 0x01; 0xF1; 0x01; 0xF1];
  [0xE0; 0x01; 0xE0; 0x01; 0xF1; 0x01; 0xF1; 0x01];
  [0x1F; 0xFE; 0x1F; 0xFE; 0x0E; 0xFE; 0x0E; 0xFE];
  [0xFE; 0x1F; 0xFE; 0x1F; 0xFE; 0x0E; 0xFE; 0x0E];
  [0x01; 0x1F; 0x01; 0x1F; 0x01; 0x0E; 0x01; 0x0E];
  [0x1F; 0x01; 0x1F; 0x01; 0x0E; 0x01; 0x0E; 0x01];
  [0xE0; 0xFE; 0xE0; 0xFE; 0xF1; 0xFE; 0xF1; 0xFE];
  [0xFE; 0xE0; 0xFE; 0xE0; 0xFE; 0xF1; 0xFE; 0xF1]
].

(** ** Words and bytes *)

(** [((a)>>(n))+((a)<<(32-(n)))] *)
Definition ROTATE (a n : Z) : Z := u32 (Z.shiftr a n + cshl 32 a (32 - n)).

(** Reads four bytes, low byte first, and moves on. *)
Definition c2l (c : list Z) : outcome (Z * list Z) :=
  match c with
  | x0 :: x1 :: x2 :: x3 :: c =>
      Ret (Z.lor (Z.lor (Z.lor x0 (cshl 32 x1 8)) (cshl 32 x2 16)) (cshl 32 x3 24), c)
  | _ => Err Fault
  end.

Definition l2c (l : Z) : list Z :=
  [Z.land l 0xff; Z.land (Z.shiftr l 8) 0xff; Z.land (Z.shiftr l 16) 0xff; Z.land (Z.shiftr l 24) 0xff].

(** The [switch] falls through from case [n] to case 1: byte [i] is read when
    [i < n], the words start as 0. *)
Definition c2ln (c : list Z) (n : nat) : Z * Z :=
  let byte i sh := if (i <? n)%nat then cshl 32 (nth i c 0) sh else 0 in
  (Z.lor (Z.lor (Z.lor (byte 3%nat 24) (byte 2%nat 16)) (byte 1%nat 8)) (byte 0%nat 0),
   Z.lor (Z.lor (Z.lor (byte 7%nat 24) (byte 6%nat 16)) (byte 5%nat 8)) (byte 4%nat 0)).

Definition l2cn (l1 l2 : Z) (n : nat) : list Z := take n (l2c l1 ++ l2c l2).

(** ** The rounds *)

Definition PERM_OP (a b n m : Z) : Z * Z :=
  let t := Z.land (Z.lxor (Z.shiftr a n) b) m in
  (Z.lxor a (cshl 32 t n), Z.lxor b t).

Definition IP (l r : Z) : Z * Z :=
  let '(r, l) := PERM_OP r l 4 0x0f0f0f0f in
  let '(l, r) := PERM_OP l r 16 0x0000ffff in
  let '(r, l) := PERM_OP r l 2 0x33333333 in
  let '(l, r) := PERM_OP l r 8 0x00ff00ff in
  let '(r, l) := PERM_OP r l 1 0x55555555 in
  (l, r).

Definition FP (l r : Z) : Z * Z :=
  let '(l, r) := PERM_OP l r 1 0x55555555 in
  let '(r, l) := PERM_OP r l 8 0x00ff00ff in
  let '(l, r) := PERM_OP l r 2 0x33333333 in
  let '(r, l) := PERM_OP r l 16 0x0000ffff in
  let '(l, r) := PERM_OP l r 4 0x0f0f0f0f in
  (l, r).

(** [*(DES_LONG * )((unsigned char * )des_SP+off)]: the byte offset selects the
    row (of 0x100 bytes) and the word in it. *)
Definition SP_at (off : Z) : Z := get (nth (Z.to_nat (off / 0x100)) des_SPtrans []) (off mod 0x100 / 4).

(** [(int)u>>8L] shifts the sign in. *)
Definition int_shr8 (u : Z) : Z := u32 (Z.shiftr (s32 u) 8).

Definition D_ENCRYPT (LL R : Z) (s : list Z) (S : nat) : Z :=
  let u := Z.lxor R (nth S s 0) in
  let t := Z.lxor R (nth (S + 1) s 0) in
  let u2 := int_shr8 u in
  let u1 := Z.land u 0xfc in
  let u2 := Z.land u2 0xfc in
  let t := ROTATE t 4 in
  let u := Z.shiftr u 16 in
  let LL := Z.lxor LL (SP_at u1) in
  let LL := Z.lxor LL (SP_at (0x200 + u2)) in
  let u3 := Z.shiftr u 8 in
  let u1 := Z.land u 0xfc in
  let u3 := Z.land u3 0xfc in
  let LL := Z.lxor LL (SP_at (0x400 + u1)) in
  let LL := Z.lxor LL (SP_at (0x600 + u3)) in
  let u2 := int_shr8 t in
  let u1 := Z.land t 0xfc in
  let u2 := Z.land u2 0xfc in
  let t := Z.shiftr t 16 in
  let LL := Z.lxor LL (SP_at (0x100 + u1)) in
  let LL := Z.lxor LL (SP_at (0x300 + u2)) in
  let u3 := int_shr8 t in
  let u1 := Z.land t 0xfc in
  let u3 := Z.land u3 0xfc in
  let LL := Z.lxor LL (SP_at (0x500 + u1)) in
  Z.lxor LL (SP_at (0x700 + u3)).

(** The unrolled rounds: the halves change roles from one to the next. *)
Fixpoint rounds (l r : Z) (s : list Z) (Ss : list nat) {struct Ss} : Z * Z :=
  match Ss with
  | S1 :: S2 :: Ss =>
      let l := D_ENCRYPT l r s S1 in
      let r := D_ENCRYPT r l s S2 in
      rounds l r s Ss
  | _ => (l, r)
  end.

Definition enc_order : list nat := [0; 2; 4; 6; 8; 10; 12; 14; 16; 18; 20; 22; 24; 26; 28; 30]%nat.
Definition dec_order : list nat := [30; 28; 26; 24; 22; 20; 18; 16; 14; 12; 10; 8; 6; 4; 2; 0]%nat.

Definition des_encrypt (data : Z * Z) (ks : list Z) (enc : bool) : Z * Z :=
  let '(r, l) := data in
  let '(r, l) := IP r l in
  let r := Z.land (ROTATE r 29) 0xffffffff in
  let l := Z.land (ROTATE l 29) 0xffffffff in
  let '(l, r) := rounds l r ks (if enc then enc_order else dec_order) in
  let l := Z.land (ROTATE l 3) 0xffffffff in
  let r := Z.land (ROTATE r 3) 0xffffffff in
  let '(r, l) := FP r l in
  (l, r).

Definition des_encrypt2 (data : Z * Z) (ks : list Z) (enc : bool) : Z * Z :=
  let '(r, l) := data in
  let r := Z.land (ROTATE r 29) 0xffffffff in
  let l := Z.land (ROTATE l 29) 0xffffffff in
  let '(l, r) := rounds l r ks (if enc then enc_order else dec_order) in
  (Z.land (ROTATE l 3) 0xffffffff, Z.land (ROTATE r 3) 0xffffffff).

Definition des_encrypt3 (data : Z * Z) (ks1 ks2 ks3 : list Z) : Z * Z :=
  let '(l, r) := data in
  let '(l, r) := IP l r in
  let data := (l, r) in
  let data := des_encrypt2 data ks1 true in
  let data := des_encrypt2 data ks2 false in
  let data := des_encrypt2 data ks3 true in
  let '(l, r) := data in
  let '(r, l) := FP r l in
  (l, r).

Definition des_decrypt3 (data : Z * Z) (ks1 ks2 ks3 : list Z) : Z * Z :=
  let '(l, r) := data in
  let '(l, r) := IP l r in
  let data := (l, r) in
  let data := des_encrypt2 data ks3 false in
  let data := des_encrypt2 data ks2 true in
  let data := des_encrypt2 data ks1 false in
  let '(l, r) := data in
  let '(r, l) := FP r l in
  (l, r).

Definition des_ecb_encrypt (input : list Z) (ks : list Z) (enc : bool) : outcome (list Z) :=
  let! (l0, c) := c2l input in
  let! (l1, _) := c2l c in
  let '(l0, l1) := des_encrypt (l0, l1) ks enc in
  Ret (l2c l0 ++ l2c l1).

(** ** Keys *)

Definition des_set_odd_parity (key : list Z) : list Z := map (fun x => get odd_parity x) key.

Definition check_parity (key : list Z) : bool := forallb (fun x => x =? get odd_parity x) key.

Definition des_is_weak_key (key : list Z) : bool :=
  existsb (fun w => bool_decide (w = key)) weak_keys.

Definition HPERM_OP (a n m : Z) : Z :=
  let t := Z.land (Z.lxor (cshl 32 a (16 - n)) a) m in
  Z.lxor (Z.lxor a t) (Z.shiftr t (16 - n)).

Definition shifts2 : list Z := [0; 0; 1; 1; 1; 1; 1; 1; 0; 1; 1; 1; 1; 1; 1; 0].

Definition skb (i : nat) (x : Z) : Z := get (nth i des_skb []) x.

(** The choice of the key bits of a round from the rotated halves. *)
Definition round_s (c : Z) : Z :=
  Z.lor (Z.lor (Z.lor
    (skb 0 (Z.land c 0x3f))
    (skb 1 (Z.lor (Z.land (Z.shiftr c 6) 0x03) (Z.land (Z.shiftr c 7) 0x3c))))
    (skb 2 (Z.lor (Z.land (Z.shiftr c 13) 0x0f) (Z.land (Z.shiftr c 14) 0x30))))
    (skb 3 (Z.lor (Z.lor (Z.land (Z.shiftr c 20) 0x01) (Z.land (Z.shiftr c 21) 0x06))
       (Z.land (Z.shiftr c 22) 0x38))).

Definition round_t (d : Z) : Z :=
  Z.lor (Z.lor (Z.lor
    (skb 4 (Z.land d 0x3f))
    (skb 5 (Z.lor (Z.land (Z.shiftr d 7) 0x03) (Z.land (Z.shiftr d 8) 0x3c))))
    (skb 6 (Z.land (Z.shiftr d 15) 0x3f)))
    (skb 7 (Z.lor (Z.land (Z.shiftr d 21) 0x0f) (Z.land (Z.shiftr d 22) 0x30))).

Definition rot28 (shift2 c : Z) : Z :=
  let c := if negb (shift2 =? 0) then Z.lor (Z.shiftr c 2) (cshl 32 c 26)
           else Z.lor (Z.shiftr c 1) (cshl 32 c 27) in
  Z.land c 0x0fffffff.

Fixpoint schedule_loop (shifts : list Z) (c d : Z) {struct shifts} : list Z :=
  match shifts with
  | [] => []
  | sh :: shifts =>
      let c := rot28 sh c in
      let d := rot28 sh d in
      let s := round_s c in
      let t := round_t d in
      let t2 := Z.land (Z.lor (cshl 32 t 16) (Z.land s 0x0000ffff)) 0xffffffff in
      let k0 := Z.land (ROTATE t2 30) 0xffffffff in
      let t2 := Z.lor (Z.shiftr s 16) (Z.land t 0xffff0000) in
      let k1 := Z.land (ROTATE t2 26) 0xffffffff in
      k0 :: k1 :: schedule_loop shifts c d
  end.

(** PC1 "in 47 simple operations". *)
Definition pc1 (c d : Z) : Z * Z :=
  let '(d, c) := PERM_OP d c 4 0x0f0f0f0f in
  let c := HPERM_OP c (-2) 0xcccc0000 in
  let d := HPERM_OP d (-2) 0xcccc0000 in
  let '(d, c) := PERM_OP d c 1 0x55555555 in
  let '(c, d) := PERM_OP c d 8 0x00ff00ff in
  let '(d, c) := PERM_OP d c 1 0x55555555 in
  let d := Z.lor (Z.lor (Z.lor (cshl 32 (Z.land d 0x000000ff) 16) (Z.land d 0x0000ff00))
    (Z.shiftr (Z.land d 0x00ff0000) 16)) (Z.shiftr (Z.land c 0xf0000000) 4) in
  (Z.land c 0x0fffffff, d).

(** The return value and, when it is 0, the schedule. *)
Definition des_set_key (des_check_key : bool) (key : list Z) : outcome (Z * list Z) :=
  if des_check_key && negb (check_parity key) then Ret (-1, [])
  else if des_check_key && des_is_weak_key key then Ret (-2, [])
  else
    let! (c, k) := c2l key in
    let! (d, _) := c2l k in
    let '(c, d) := pc1 c d in
    Ret (0, schedule_loop shifts2 c d).

(** The FIPS 46 example: key 133457799BBCDFF1, block 0123456789ABCDEF. *)
Example des_example :
  (let! (_, ks) := des_set_key true [0x13; 0x34; 0x57; 0x79; 0x9B; 0xBC; 0xDF; 0xF1] in
   des_ecb_encrypt [0x01; 0x23; 0x45; 0x67; 0x89; 0xAB; 0xCD; 0xEF] ks true) =
  Ret [0x85; 0xE8; 0x13; 0x54; 0x0F; 0x0A; 0xB4; 0x05].
Proof. vm_compute. reflexivity. Qed.

(** ** Words *)

Abbreviation block := (Z * Z)%type.
Definition is_block (d : block) : Prop := is_u32 d.1 /\ is_u32 d.2.

Lemma word_get w tab i : 0 <= w -> Forall (word w) tab -> word w (get tab i).
Proof.
  intros Hw Ht. unfold get. rewrite nth_lookup.
  destruct (tab !! Z.to_nat i) eqn:E; simpl; [by eapply Forall_lookup_word|by apply word_0].
Qed.

Lemma word_nth w s i : 0 <= w -> Forall (word w) s -> word w (nth i s 0).
Proof. intros Hw Hs. rewrite <-(Nat2Z.id i). by apply (word_get w s (Z.of_nat i)). Qed.

Definition wordb (w x : Z) : bool := (0 <=? x) && (x <? 2 ^ w).

Lemma words_check w l : forallb (wordb w) l = true -> Forall (word w) l.
Proof.
  rewrite forallb_forall. intros H. apply Forall_forall. intros x Hx%list_elem_of_In.
  specialize (H x Hx). unfold wordb in H. unfold word. lia.
Qed.

Lemma des_SPtrans_words : Forall (Forall is_u32) des_SPtrans.
Proof.
  assert (H : forallb (forallb (wordb 32)) des_SPtrans = true) by (vm_compute; done).
  rewrite forallb_forall in H. apply Forall_forall. intros tab Htab%list_elem_of_In. by apply words_check, H.
Qed.
Opaque des_SPtrans.

Lemma SP_at_word off : is_u32 (SP_at off).
Proof.
  unfold SP_at. apply word_get; [done|]. rewrite nth_lookup.
  destruct (des_SPtrans !! _) eqn:E; simpl; [|constructor].
  by eapply Forall_lookup_1; [apply des_SPtrans_words|].
Qed.

Lemma ROTATE_word a n : is_u32 (ROTATE a n).
Proof. by apply wrap_word. Qed.

(** The [+] of [ROTATE] adds disjoint words. *)
Lemma ROTATE_lxor a n : is_u32 a -> 0 <= n <= 32 ->
  ROTATE a n = Z.lxor (Z.shiftr a n) (cshl 32 a (32 - n)).
Proof.
  intros Ha Hn. pose proof (shifts_disjoint_w 32 a (32 - n) Ha ltac:(lia)) as Hd.
  replace (32 - (32 - n)) with n in Hd by lia. rewrite Z.land_comm in Hd.
  unfold ROTATE. rewrite Z.add_nocarry_lxor by done.
  apply wrap_small, word_lxor; auto with cword.
Qed.

Lemma linear_ROTATE n : 0 <= n <= 32 -> Linear (fun a => ROTATE a n).
Proof.
  intros Hn. assert (Hl : Linear (fun a => Z.lxor (Z.shiftr a n) (cshl 32 a (32 - n)))) by linear.
  split; [lia..| |].
  - intros a _. apply ROTATE_word.
  - intros a b Ha Hb. rewrite !ROTATE_lxor by auto with cword. exact (linear_lxor a b Ha Hb).
Qed.

Lemma ROTATE_29_3 a : is_u32 a -> ROTATE (ROTATE a 29) 3 = a.
Proof.
  intros Ha. apply (linear_eq (n := 32) (m := 32) (fun a => ROTATE (ROTATE a 29) 3) (fun a => a)); [|done].
  split; [|split; [apply linear_id; lia|vm_compute; done]].
  exact (@linear_compose 32 32 32 _ _ (linear_ROTATE 3 ltac:(lia)) (linear_ROTATE 29 ltac:(lia))).
Qed.

Lemma ROTATE_3_29 a : is_u32 a -> ROTATE (ROTATE a 3) 29 = a.
Proof.
  intros Ha. apply (linear_eq (n := 32) (m := 32) (fun a => ROTATE (ROTATE a 3) 29) (fun a => a)); [|done].
  split; [|split; [apply linear_id; lia|vm_compute; done]].
  exact (@linear_compose 32 32 32 _ _ (linear_ROTATE 29 ltac:(lia)) (linear_ROTATE 3 ltac:(lia))).
Qed.

Lemma land_u32 a : is_u32 a -> Z.land a 0xffffffff = a.
Proof. intros Ha. change 0xffffffff with (Z.ones 32). by rewrite <-wrap_ones, wrap_small. Qed.

(** ** The initial and final permutations *)

Lemma PERM_OP_word a b n m :
  0 <= n -> is_u32 m -> is_u32 a -> is_u32 b -> is_block (PERM_OP a b n m).
Proof.
  intros. unfold PERM_OP, is_block; simpl.
  split; repeat apply word_lxor; auto with cword.
Qed.

(** [PERM_OP] exchanges the bits of [a] under [m << n] with those of [b]
    under [m], so it undoes itself. *)
Lemma PERM_OP_invol a b n m a' b' :
  0 <= n -> word (32 - n) m -> n <= 32 -> is_u32 a -> PERM_OP a b n m = (a', b') -> PERM_OP a' b' n m = (a, b).
Proof.
  intros Hn Hm Hn' Ha. unfold PERM_OP. set (t := Z.land (Z.lxor (Z.shiftr a n) b) m).
  intros [= <- <-].
  assert (Ht : word (32 - n) t) by (unfold t; rewrite Z.land_comm; apply word_land; [lia|done]).
  assert (Hs : Z.shiftr (cshl 32 t n) n = t).
  { apply Z.bits_inj'; intros i Hi. rewrite Z.shiftr_spec, cshl_testbit by lia.
    replace (i + n - n) with i by lia. destruct (Z.ltb_spec (i + n) 32); [done|].
    symmetry. apply (word_testbit_high (32 - n)); [lia|done|lia]. }
  assert (E : Z.land (Z.lxor (Z.shiftr (Z.lxor a (cshl 32 t n)) n) (Z.lxor b t)) m = t).
  { rewrite Z.shiftr_lxor, Hs, lxor_swap, Z.lxor_nilpotent, Z.lxor_0_r. done. }
  rewrite E, !Z.lxor_assoc, !Z.lxor_nilpotent, !Z.lxor_0_r. done.
Qed.

Opaque PERM_OP.

(** Names the results of the exchanges of a goal, outermost first. *)
Ltac perm_name :=
  match goal with
  | |- context [PERM_OP ?a ?b ?n ?m] =>
      let E := fresh "E" in
      pose proof (PERM_OP_word a b n m ltac:(lia) ltac:(by unfold word) ltac:(assumption) ltac:(assumption));
      destruct (PERM_OP a b n m) as [? ?] eqn:E;
      match goal with H : is_block _ |- _ => destruct H as [? ?]; cbn [fst snd] in * end
  end.

Ltac perm_back :=
  match goal with
  | H : PERM_OP ?a ?b ?n ?m = (?a', ?b') |- context [PERM_OP ?a' ?b' ?n ?m] =>
      rewrite (PERM_OP_invol a b n m a' b'); [clear H|lia|unfold word; lia|lia|assumption|assumption]
  end.

(** [FP] with its halves exchanged undoes [IP], step by step, and the other
    way round. *)
Lemma FP_IP l r l' r' :
  is_u32 l -> is_u32 r -> IP l r = (l', r') -> is_u32 l' /\ is_u32 r' /\ FP r' l' = (r, l).
Proof.
  intros Hl Hr. unfold IP, FP. do 5 perm_name. intros [= <- <-].
  split; [assumption|split; [assumption|]]. do 5 perm_back. reflexivity.
Qed.

Lemma IP_FP l r l' r' :
  is_u32 l -> is_u32 r -> FP l r = (l', r') -> is_u32 l' /\ is_u32 r' /\ IP r' l' = (r, l).
Proof.
  intros Hl Hr. unfold IP, FP. do 5 perm_name. intros [= <- <-].
  split; [assumption|split; [assumption|]]. do 5 perm_back. reflexivity.
Qed.
Opaque IP FP.

(** ** Rounds *)

Lemma D_ENCRYPT_lxor LL R s S : D_ENCRYPT LL R s S = Z.lxor LL (D_ENCRYPT 0 R s S).
Proof. unfold D_ENCRYPT. cbv zeta. rewrite Z.lxor_0_l, !Z.lxor_assoc. done. Qed.

Lemma D_ENCRYPT_word LL R s S : is_u32 LL -> is_u32 (D_ENCRYPT LL R s S).
Proof. intros. unfold D_ENCRYPT. cbv zeta. repeat apply word_lxor; try done; apply SP_at_word. Qed.
Opaque D_ENCRYPT.

Lemma D_ENCRYPT_invol LL R s S : D_ENCRYPT (D_ENCRYPT LL R s S) R s S = LL.
Proof.
  rewrite (D_ENCRYPT_lxor (D_ENCRYPT _ _ _ _)), (D_ENCRYPT_lxor LL), Z.lxor_assoc, Z.lxor_nilpotent.
  apply Z.lxor_0_r.
Qed.

Lemma rounds_word s Ss : forall l r, is_u32 l -> is_u32 r -> is_block (rounds l r s Ss).
Proof.
  assert (H : forall n Ss l r, (length Ss <= n)%nat -> is_u32 l -> is_u32 r -> is_block (rounds l r s Ss)).
  { clear Ss. induction n as [|n IH]; intros [|S1 [|S2 Ss]] l r Hn Hl Hr; simpl in Hn; try done; try lia.
    simpl. apply IH; [lia|by repeat apply D_ENCRYPT_word..]. }
  intros l r. by apply (H (length Ss)).
Qed.

Lemma rounds_app s Ss Ts : forall l r, Nat.Even (length Ss) ->
  rounds l r s (Ss ++ Ts) = rounds (rounds l r s Ss).1 (rounds l r s Ss).2 s Ts.
Proof.
  assert (H : forall n Ss l r, (length Ss <= n)%nat -> Nat.Even (length Ss) ->
    rounds l r s (Ss ++ Ts) = rounds (rounds l r s Ss).1 (rounds l r s Ss).2 s Ts).
  { clear Ss. induction n as [|n IH]; intros [|S1 [|S2 Ss]] l r Hn [k Hk]; simpl in Hn, Hk; try done; try lia.
    simpl. apply IH; [lia|]. exists (k - 1)%nat. lia. }
  intros l r. by apply (H (length Ss)).
Qed.

(** A Feistel network run backwards, with the halves exchanged, undoes
    itself whatever its round function and its key schedule. *)
Lemma rounds_rev s Ss : forall l r l' r', Nat.Even (length Ss) ->
  rounds l r s Ss = (l', r') -> rounds r' l' s (rev Ss) = (r, l).
Proof.
  assert (H : forall n Ss l r l' r', (length Ss <= n)%nat -> Nat.Even (length Ss) ->
    rounds l r s Ss = (l', r') -> rounds r' l' s (rev Ss) = (r, l)).
  { clear Ss. induction n as [|n IH]; intros [|S1 [|S2 Ss]] l r l' r' Hn [k Hk] E; simpl in Hn, Hk, E;
      try (by simplify_eq/=); try lia.
    apply IH in E; [|lia|exists (k - 1)%nat; lia]. simpl.
    rewrite <-app_assoc, rounds_app, E by (exists (k - 1)%nat; rewrite length_rev; lia). simpl.
    by rewrite !D_ENCRYPT_invol. }
  intros l r l' r'. by apply (H (length Ss)).
Qed.

(** ** Block ciphers

    What the modes of operation rely on: two inverse functions on blocks. *)

Class BlockCipher (E D : block -> block) := {
  cipher_block d : is_block d -> is_block (E d);
  decipher_block d : is_block d -> is_block (D d);
  decipher_cipher d : is_block d -> D (E d) = d;
  cipher_decipher d : is_block d -> E (D d) = d
}.

Lemma cipher_sym E D : BlockCipher E D -> BlockCipher D E.
Proof. intros []. by split. Qed.

Lemma cipher_compose E1 D1 E2 D2 :
  BlockCipher E1 D1 -> BlockCipher E2 D2 -> BlockCipher (fun d => E2 (E1 d)) (fun d => D1 (D2 d)).
Proof.
  intros [] []. split; intros d Hd; [by auto..| |].
  - transitivity (D1 (E1 d)); [f_equal; by auto|by auto].
  - transitivity (E2 (D2 d)); [f_equal; by auto|by auto].
Qed.

Lemma cipher_ext E D E' D' :
  (forall d, E d = E' d) -> (forall d, D d = D' d) -> BlockCipher E' D' -> BlockCipher E D.
Proof. intros HE HD []. split; intros d Hd; rewrite ?HE, ?HD; auto. Qed.

Section Ciphers.
Context (ks ks1 ks2 ks3 : list Z).

Definition order (enc : bool) : list nat := if enc then enc_order else dec_order.

Lemma order_rev enc : order (negb enc) = rev (order enc).
Proof. by destruct enc. Qed.

Lemma des_encrypt2_block d enc : is_block d -> is_block (des_encrypt2 d ks enc).
Proof.
  destruct d as [r l]. intros [Hr Hl]. cbn [fst snd] in *. unfold des_encrypt2. fold (order enc).
  destruct (rounds _ _ _ _) eqn:E. split; apply word_land, ROTATE_word; lia.
Qed.

Lemma des_encrypt2_invol d enc : is_block d -> des_encrypt2 (des_encrypt2 d ks enc) ks (negb enc) = d.
Proof.
  destruct d as [r l]. intros [Hr Hl]. cbn [fst snd] in *. unfold des_encrypt2. fold (order enc) (order (negb enc)).
  rewrite !land_u32 by apply ROTATE_word.
  pose proof (rounds_word ks (order enc) (ROTATE l 29) (ROTATE r 29) ltac:(apply ROTATE_word) ltac:(apply ROTATE_word)) as Hw.
  destruct (rounds (ROTATE l 29) _ _ _) as [l' r'] eqn:E. destruct Hw as [Hl' Hr']. cbn [fst snd] in *.
  rewrite !land_u32 by apply ROTATE_word. rewrite !ROTATE_3_29 by done.
  apply rounds_rev in E; [|by destruct enc; exists 8%nat].
  rewrite order_rev, E. rewrite !land_u32 by apply ROTATE_word. by rewrite !ROTATE_29_3.
Qed.

#[export] Instance encrypt2_cipher : BlockCipher (fun d => des_encrypt2 d ks true) (fun d => des_encrypt2 d ks false).
Proof.
  split; intros d Hd; try by apply des_encrypt2_block.
  - by apply (des_encrypt2_invol d true).
  - by apply (des_encrypt2_invol d false).
Qed.

Definition IP_block (d : block) : block := IP d.1 d.2.
Definition FP_block (d : block) : block := let '(r, l) := FP d.2 d.1 in (l, r).

Lemma IP_cipher : BlockCipher IP_block FP_block.
Proof.
  assert (HI : forall d, is_block d -> is_block (IP_block d) /\ FP_block (IP_block d) = d).
  { intros [l r] [Hl Hr]. cbn [fst snd] in *. unfold IP_block, FP_block. cbn [fst snd].
    destruct (IP l r) as [l' r'] eqn:E. apply FP_IP in E as (?&?&E); [|assumption..].
    cbn [fst snd]. rewrite E. by split. }
  assert (HF : forall d, is_block d -> is_block (FP_block d) /\ IP_block (FP_block d) = d).
  { intros [l r] [Hl Hr]. cbn [fst snd] in *. unfold IP_block, FP_block. cbn [fst snd].
    destruct (FP r l) as [l' r'] eqn:E. apply IP_FP in E as (?&?&E); [|assumption..].
    cbn [fst snd]. by split. }
  split; intros d Hd; destruct (HI d Hd), (HF d Hd); assumption.
Qed.

(** The three ciphers are [des_encrypt2] between the permutations. *)
Lemma des_encrypt_eq d enc : des_encrypt d ks enc = FP_block (des_encrypt2 (IP_block d) ks enc).
Proof.
  destruct d as [d0 d1]. unfold des_encrypt, des_encrypt2, IP_block, FP_block. cbn [fst snd].
  destruct (IP d0 d1). destruct (rounds _ _ _ _). by destruct (FP _ _).
Qed.

Lemma des_encrypt3_eq d : des_encrypt3 d ks1 ks2 ks3 =
  FP_block (des_encrypt2 (des_encrypt2 (des_encrypt2 (IP_block d) ks1 true) ks2 false) ks3 true).
Proof.
  destruct d as [d0 d1]. unfold des_encrypt3, IP_block, FP_block. cbn [fst snd].
  destruct (IP d0 d1). destruct (des_encrypt2 _ ks3 _). by destruct (FP _ _).
Qed.

Lemma des_decrypt3_eq d : des_decrypt3 d ks1 ks2 ks3 =
  FP_block (des_encrypt2 (des_encrypt2 (des_encrypt2 (IP_block d) ks3 false) ks2 true) ks1 false).
Proof.
  destruct d as [d0 d1]. unfold des_decrypt3, IP_block, FP_block. cbn [fst snd].
  destruct (IP d0 d1). destruct (des_encrypt2 _ ks1 _). by destruct (FP _ _).
Qed.
End Ciphers.

#[export] Instance des_cipher ks : BlockCipher (fun d => des_encrypt d ks true) (fun d => des_encrypt d ks false).
Proof.
  eapply cipher_ext; [intros; apply des_encrypt_eq..|].
  pose proof (cipher_compose _ _ _ _ IP_cipher (encrypt2_cipher ks)) as H.
  exact (cipher_compose _ _ _ _ H (cipher_sym _ _ IP_cipher)).
Qed.

#[export] Instance des3_cipher ks1 ks2 ks3 :
  BlockCipher (fun d => des_encrypt3 d ks1 ks2 ks3) (fun d => des_decrypt3 d ks1 ks2 ks3).
Proof.
  eapply cipher_ext; [intros; apply des_encrypt3_eq|intros; apply des_decrypt3_eq|].
  pose proof (cipher_compose _ _ _ _ IP_cipher (encrypt2_cipher ks1)) as H.
  pose proof (cipher_compose _ _ _ _ H (cipher_sym _ _ (encrypt2_cipher ks2))) as H'.
  pose proof (cipher_compose _ _ _ _ H' (encrypt2_cipher ks3)) as H''.
  exact (cipher_compose _ _ _ _ H'' (cipher_sym _ _ IP_cipher)).
Qed.

(** ** Blocks of bytes *)

Lemma land_ff x : Z.land x 0xff = wrap 8 x.
Proof. by rewrite wrap_ones. Qed.

Lemma byte_cshl_0 x : is_byte x -> cshl 32 x 0 = x.
Proof. intros Hx. unfold cshl. rewrite Z.shiftl_0_r. apply wrap_small. eapply word_mono; [|done]. lia. Qed.

Ltac byte_bits :=
  apply Z.bits_inj'; intros ?i ?Hi; bits_norm; rewrite ?Z.lor_spec;
  repeat match goal with |- context [?a <? ?b] => destruct (Z.ltb_spec a b) end;
  cbn [andb orb]; rewrite ?orb_false_r;
  repeat match goal with
  | |- context [Z.testbit (Z.shiftr ?x ?n) ?i] => rewrite (Z.shiftr_spec x n i) by lia
  | |- context [Z.testbit ?x (?i - ?n + ?m)] => replace (i - n + m) with i by lia
  | |- context [Z.testbit ?x ?i] => rewrite (Z.testbit_neg_r x i) by lia
  | Hx : word ?w ?x |- context [Z.testbit ?x ?i] => rewrite (word_testbit_high w x i) by (done || lia)
  end; cbn [orb]; rewrite ?orb_false_r; try done; try lia; try (f_equal; lia).

Lemma c2l_l2c l c : is_u32 l -> c2l (l2c l ++ c) = Ret (l, c).
Proof.
  intros Hl. unfold c2l, l2c. cbn [app]. do 2 f_equal. rewrite !land_ff. byte_bits.
Qed.

Lemma c2l_word x0 x1 x2 x3 c : Forall is_byte [x0; x1; x2; x3] ->
  exists l, c2l (x0 :: x1 :: x2 :: x3 :: c) = Ret (l, c) /\ is_u32 l /\ l2c l = [x0; x1; x2; x3].
Proof.
  intros Hx. eexists. split; [reflexivity|]. rewrite !Forall_cons in Hx. destruct Hx as (H0 & H1 & H2 & H3 & _).
  split.
  { assert (is_u32 x0) by (eapply word_mono; [|done]; lia). repeat apply word_lor; auto with cword. }
  unfold l2c. rewrite !land_ff. repeat (f_equal; [byte_bits|]). f_equal. byte_bits.
Qed.

Lemma l2c_bytes l : Forall is_byte (l2c l).
Proof. repeat constructor; rewrite land_ff; by apply wrap_word. Qed.

Lemma length_l2c l : length (l2c l) = 4%nat.
Proof. done. Qed.
Opaque l2c c2l.

(** Eight bytes are a block, and back. *)
Definition blk (b : block) : list Z := l2c b.1 ++ l2c b.2.

Lemma length_blk b : length (blk b) = 8%nat.
Proof. unfold blk. by rewrite length_app, !length_l2c. Qed.

Lemma blk_bytes b : Forall is_byte (blk b).
Proof. apply Forall_app. split; apply l2c_bytes. Qed.

Lemma c2l_blk b c : is_block b ->
  c2l (blk b ++ c) = Ret (b.1, l2c b.2 ++ c) /\ c2l (l2c b.2 ++ c) = Ret (b.2, c).
Proof. intros [? ?]. unfold blk. rewrite <-app_assoc. by rewrite !c2l_l2c. Qed.

Lemma blk_surj bs : length bs = 8%nat -> Forall is_byte bs -> exists b, is_block b /\ blk b = bs.
Proof.
  intros Hl Hb. do 9 (destruct bs as [|? bs]; simpl in Hl; try lia).
  rewrite !Forall_cons in Hb. destruct Hb as (?&?&?&?&?&?&?&?&_).
  match goal with |- exists b, _ /\ _ = [?x0; ?x1; ?x2; ?x3; ?x4; ?x5; ?x6; ?x7] =>
    destruct (c2l_word x0 x1 x2 x3 []) as (l & _ & Hw & El); [by repeat apply Forall_cons_2|];
    destruct (c2l_word x4 x5 x6 x7 []) as (r & _ & Hw' & Er); [by repeat apply Forall_cons_2|]
  end.
  exists (l, r). split; [done|]. unfold blk. cbn [fst snd]. by rewrite El, Er.
Qed.

Lemma des_ecb_encrypt_blk b ks enc : is_block b -> des_ecb_encrypt (blk b) ks enc = Ret (blk (des_encrypt b ks enc)).
Proof.
  intros Hb. destruct (c2l_blk b [] Hb) as [H1 H2]. rewrite !app_nil_r in *. unfold des_ecb_encrypt.
  rewrite H1, H2. rewrite <-surjective_pairing. by destruct (des_encrypt b ks enc).
Qed.

Lemma des_encrypt_invol b ks enc : is_block b -> des_encrypt (des_encrypt b ks enc) ks (negb enc) = b.
Proof.
  intros Hb. destruct enc; [by apply (decipher_cipher (BlockCipher := des_cipher ks))|
    by apply (cipher_decipher (BlockCipher := des_cipher ks))].
Qed.

Lemma des_encrypt_block b ks enc : is_block b -> is_block (des_encrypt b ks enc).
Proof.
  intros Hb. destruct enc; [by apply (cipher_block (BlockCipher := des_cipher ks))|
    by apply (decipher_block (BlockCipher := des_cipher ks))].
Qed.

(** ** Parity *)

(** The number of 1 bits of a byte. *)
Definition ones (x : Z) : nat := length (filter (fun i => Z.testbit x (Z.of_nat i) = true) (seq 0 8)).

Definition odd_byte (x : Z) : bool := Nat.odd (ones x).

Lemma byte_check (P : Z -> Prop) (p : Z -> bool) :
  (forall x, p x = true -> P x) -> forallb (fun i => p (Z.of_nat i)) (seq 0 256) = true ->
  forall x, is_byte x -> P x.
Proof.
  intros HP Hall x [Hx Hx']. apply HP. rewrite forallb_forall in Hall.
  rewrite <-(Z2Nat.id x) by done. apply Hall, in_seq. lia.
Qed.

Lemma odd_parity_spec x : is_byte x ->
  is_byte (get odd_parity x) /\ odd_byte (get odd_parity x) = true /\
  Z.shiftr (get odd_parity x) 1 = Z.shiftr x 1 /\ (x =? get odd_parity x) = odd_byte x.
Proof.
  revert x. apply (byte_check _ (fun x =>
    (0 <=? get odd_parity x) && (get odd_parity x <? 2 ^ 8) && odd_byte (get odd_parity x) &&
    (Z.shiftr (get odd_parity x) 1 =? Z.shiftr x 1) && Bool.eqb (x =? get odd_parity x) (odd_byte x))).
  - intros x. rewrite !andb_true_iff, eqb_true_iff. unfold word. intros ((((?&?)&?)&?)&?). split_and!; try lia; done.
  - vm_compute. done.
Qed.
Opaque odd_parity.

Lemma check_parity_spec key : Forall is_byte key -> check_parity key = forallb odd_byte key.
Proof.
  induction 1 as [|x key Hx _ IH]; [done|]. cbn [check_parity forallb].
  fold (check_parity key). rewrite IH. f_equal. by apply odd_parity_spec.
Qed.

(** ** Key schedules *)

Lemma length_schedule_loop shifts : forall c d, length (schedule_loop shifts c d) = (2 * length shifts)%nat.
Proof. induction shifts as [|sh shifts IH]; intros c d; [done|]. cbn [schedule_loop length]. rewrite IH. lia. Qed.

(** The rounds see only the two words at the index they are given. *)
Definition round_keys (s : list Z) (Ss : list nat) : list block := map (fun S => (nth S s 0, nth (S + 1) s 0)) Ss.

Lemma D_ENCRYPT_keys LL R s s' S S' :
  (nth S s 0, nth (S + 1) s 0) = (nth S' s' 0, nth (S' + 1) s' 0) -> D_ENCRYPT LL R s S = D_ENCRYPT LL R s' S'.
Proof. Transparent D_ENCRYPT. intros [= E1 E2]. unfold D_ENCRYPT. by rewrite E1, E2. Opaque D_ENCRYPT. Qed.

Lemma rounds_keys s s' Ss Ss' : forall l r, round_keys s Ss = round_keys s' Ss' -> rounds l r s Ss = rounds l r s' Ss'.
Proof.
  assert (H : forall n Ss Ss' l r, (length Ss <= n)%nat -> round_keys s Ss = round_keys s' Ss' ->
    rounds l r s Ss = rounds l r s' Ss').
  { clear Ss Ss'. induction n as [|n IH]; intros [|S1 [|S2 Ss]] [|S1' [|S2' Ss']] l r Hn E; simpl in Hn; try done; try lia.
    cbn [round_keys map] in E. injection E as E1 E1' E2 E2' E. cbn [rounds].
    rewrite (D_ENCRYPT_keys l r s s' S1 S1'), (D_ENCRYPT_keys r _ s s' S2 S2') by congruence.
    apply IH; [lia|done]. }
  intros l r. by apply (H (length Ss)).
Qed.

(** A schedule that holds the rounds of another in reverse order decrypts
    what the other encrypts. *)
Lemma des_encrypt_reversed b ks ks' :
  round_keys ks' enc_order = round_keys ks dec_order -> des_encrypt b ks' true = des_encrypt b ks false.
Proof.
  intros H. unfold des_encrypt. destruct b, (IP _ _). by rewrite (rounds_keys ks' ks enc_order dec_order).
Qed.

(** ([des_ecb_encrypt]).  Whatever the key schedule, encrypting an
    eight-byte block and decrypting the result gives the block back, and the
    same with the two directions exchanged. *)
Theorem des_ecb_inverts input ks enc :
  length input = 8%nat -> Forall is_byte input ->
  exists out, des_ecb_encrypt input ks enc = Ret out /\ length out = 8%nat /\ Forall is_byte out /\
    des_ecb_encrypt out ks (negb enc) = Ret input.
Proof.
  intros Hl Hb. destruct (blk_surj input Hl Hb) as (b & Hw & <-).
  pose proof (des_encrypt_block b ks enc Hw) as Hw'.
  exists (blk (des_encrypt b ks enc)). rewrite !des_ecb_encrypt_blk by done.
  rewrite length_blk, des_encrypt_invol by done. pose proof blk_bytes. auto.
Qed.

Theorem des_ecb_inverts_witness : exists out, des_ecb_encrypt (repeat 7 8) [] true = Ret out /\ length out = 8%nat /\
  Forall is_byte out /\ des_ecb_encrypt out [] (negb true) = Ret (repeat 7 8).
Proof. refine (des_ecb_inverts (repeat 7 8) [] true eq_refl _). by apply words_check. Defined.

(** ([des_encrypt3]/[des_decrypt3]).  Triple DES decryption with three
    schedules inverts encryption with them, and the other way round; with
    three equal schedules it is single DES. *)
Theorem des_encrypt3_correct b ks1 ks2 ks3 :
  is_block b ->
  is_block (des_encrypt3 b ks1 ks2 ks3) /\
  des_decrypt3 (des_encrypt3 b ks1 ks2 ks3) ks1 ks2 ks3 = b /\
  des_encrypt3 (des_decrypt3 b ks1 ks2 ks3) ks1 ks2 ks3 = b /\
  des_encrypt3 b ks1 ks1 ks1 = des_encrypt b ks1 true.
Proof.
  intros Hb. pose proof (des3_cipher ks1 ks2 ks3) as H. split_and!.
  - by apply (cipher_block (BlockCipher := H)).
  - by apply (decipher_cipher (BlockCipher := H)).
  - by apply (cipher_decipher (BlockCipher := H)).
  - rewrite des_encrypt3_eq, des_encrypt_eq.
    pose proof (des_encrypt2_invol ks1 (IP_block b) true (cipher_block (BlockCipher := IP_cipher) b Hb)) as E.
    cbn [negb] in E. by rewrite E.
Qed.

Theorem des_encrypt3_correct_witness :
  des_decrypt3 (des_encrypt3 (1, 2) [3] [4] [5]) [3] [4] [5] = (1, 2).
Proof. refine (proj1 (proj2 (des_encrypt3_correct (1, 2) [3] [4] [5] _))). split; unfold word; simpl; lia. Defined.

Lemma schedule_loop_words shifts : forall c d, Forall is_u32 (schedule_loop shifts c d).
Proof.
  induction shifts as [|sh shifts IH]; intros c d; [done|]. cbn [schedule_loop].
  repeat apply Forall_cons_2; [apply word_land, ROTATE_word; lia..|apply IH].
Qed.

Lemma des_set_odd_parity_odd key : Forall is_byte key ->
  Forall is_byte (des_set_odd_parity key) /\ forallb odd_byte (des_set_odd_parity key) = true.
Proof.
  intros Hb. split.
  - apply Forall_map. eapply Forall_impl; [done|]. intros x Hx. by apply odd_parity_spec.
  - unfold des_set_odd_parity. apply forallb_forall. intros y (x & <- & Hx)%in_map_iff.
    apply odd_parity_spec. by eapply Forall_forall; [|apply list_elem_of_In].
Qed.

(** ([des_set_key], [des_set_odd_parity]).  A checked key is refused with
    -1 when a byte has an even number of 1 bits and with -2 when it is one of
    the listed weak keys, and accepted otherwise; an unchecked key is always
    accepted.  An accepted key gives 32 words.  Setting the parity of a key
    keeps the upper seven bits of its bytes and makes the parity check succeed. *)
Theorem des_set_key_correct des_check_key key :
  length key = 8%nat -> Forall is_byte key ->
  (exists ks, length ks = 32%nat /\ Forall is_u32 ks /\
    des_set_key des_check_key key =
      if des_check_key && negb (forallb odd_byte key) then Ret (-1, [])
      else if des_check_key && bool_decide (key ∈ weak_keys) then Ret (-2, [])
      else Ret (0, ks)) /\
  Forall is_byte (des_set_odd_parity key) /\
  forallb odd_byte (des_set_odd_parity key) = true /\
  map (fun x => Z.shiftr x 1) (des_set_odd_parity key) = map (fun x => Z.shiftr x 1) key.
Proof.
  intros Hl Hb. split; [|split_and!].
  - destruct (blk_surj key Hl Hb) as (b & Hw & <-). destruct (c2l_blk b [] Hw) as [H1 H2]. rewrite !app_nil_r in *.
    exists (schedule_loop shifts2 (pc1 b.1 b.2).1 (pc1 b.1 b.2).2).
    rewrite length_schedule_loop. split; [done|]. split; [apply schedule_loop_words|].
    assert (Hweak : des_is_weak_key (blk b) = bool_decide (blk b ∈ weak_keys)).
    { unfold des_is_weak_key. apply eq_true_iff_eq. rewrite existsb_exists, bool_decide_eq_true, list_elem_of_In.
      split; [intros (w & ? & ?%bool_decide_eq_true); by subst|intros; by exists (blk b); rewrite bool_decide_eq_true]. }
    unfold des_set_key. rewrite H1, H2, check_parity_spec, Hweak by done. by destruct (pc1 _ _).
  - by apply des_set_odd_parity_odd.
  - by apply des_set_odd_parity_odd.
  - unfold des_set_odd_parity. rewrite map_map. apply map_ext_in. intros x Hx.
    apply odd_parity_spec. by eapply Forall_forall; [|apply list_elem_of_In].
Qed.

Theorem des_set_key_correct_witness : forallb odd_byte (des_set_odd_parity (repeat 0 8)) = true.
Proof.
  refine (proj1 (proj2 (proj2 (des_set_key_correct true (repeat 0 8) eq_refl _)))).
  by apply words_check.
Defined.

(** The partner of a listed key: the first four keys are their own. *)
Definition partner (i : nat) : nat :=
  if (i <? 4)%nat then i else if Nat.even i then S i else (i - 1)%nat.

Definition schedule_of (key : list Z) : list Z :=
  match des_set_key false key with Ret (_, ks) => ks | Err _ => [] end.

(** [w'] undoes [w]: its schedule is that of [w] backwards. *)
Definition undoes (w w' : list Z) : bool :=
  bool_decide (des_set_key false w = Ret (0, schedule_of w)) &&
  bool_decide (des_set_key false w' = Ret (0, schedule_of w')) &&
  bool_decide (round_keys (schedule_of w') enc_order = round_keys (schedule_of w) dec_order).

Lemma undoes_inverts w w' input :
  undoes w w' = true -> length input = 8%nat -> Forall is_byte input ->
  exists ks ks' out, des_set_key false w = Ret (0, ks) /\ des_set_key false w' = Ret (0, ks') /\
    des_ecb_encrypt input ks true = Ret out /\ des_ecb_encrypt out ks' true = Ret input.
Proof.
  unfold undoes. rewrite !andb_true_iff, !bool_decide_eq_true. intros [[H1 H2] Hr] Hl Hb.
  destruct (blk_surj input Hl Hb) as (b & Hw & <-).
  pose proof (des_encrypt_block b (schedule_of w) true Hw).
  exists (schedule_of w), (schedule_of w'), (blk (des_encrypt b (schedule_of w) true)). split_and!; try assumption.
  - by apply des_ecb_encrypt_blk.
  - rewrite des_ecb_encrypt_blk, (des_encrypt_reversed _ _ _ Hr) by done.
    by rewrite (des_encrypt_invol b _ true).
Qed.

(** ([weak_keys]).  Every listed key but the third and the fourth is
    refused by the check and deserves it: encrypting under it and then under
    its partner (itself, for the first keys; the other key of its pair, for
    the semi-weak ones) is the identity on all blocks. *)
Theorem weak_keys_invert i input :
  (i < 16)%nat -> (i <> 2 /\ i <> 3)%nat -> length input = 8%nat -> Forall is_byte input ->
  des_set_key true (nth i weak_keys []) = Ret (-2, []) /\
  exists ks ks' out,
    des_set_key false (nth i weak_keys []) = Ret (0, ks) /\
    des_set_key false (nth (partner i) weak_keys []) = Ret (0, ks') /\
    des_ecb_encrypt input ks true = Ret out /\ des_ecb_encrypt out ks' true = Ret input.
Proof.
  intros Hi H23 Hl Hb.
  assert (H : forallb (fun i => (i =? 2)%nat || (i =? 3)%nat ||
    undoes (nth i weak_keys []) (nth (partner i) weak_keys []) &&
    bool_decide (des_set_key true (nth i weak_keys []) = Ret (-2, []))) (seq 0 16) = true) by (vm_compute; done).
  rewrite forallb_forall in H. specialize (H i ltac:(apply in_seq; lia)).
  rewrite (proj2 (Nat.eqb_neq i 2)), (proj2 (Nat.eqb_neq i 3)) in H by lia. cbn [orb] in H.
  apply andb_true_iff in H as [H Hc%bool_decide_eq_true]. split; [done|]. by apply undoes_inverts.
Qed.

Theorem weak_keys_invert_witness : des_set_key true (nth 4 weak_keys []) = Ret (-2, []).
Proof.
  refine (proj1 (weak_keys_invert 4 (repeat 9 8) _ _ eq_refl _)); [lia|lia|by apply words_check].
Defined.

(** ([weak_keys]).  The third and the fourth entry of the list are not
    weak keys (encrypting twice changes the zero block), and the two weak
    keys that belong there, 1F1F1F1F0E0E0E0E and E0E0E0E0F1F1F1F1, pass the
    check although encrypting twice under them is the identity. *)
Theorem weak_keys_missed w w' input :
  w' = [0x1F; 0x1F; 0x1F; 0x1F; 0x0E; 0x0E; 0x0E; 0x0E] \/ w' = [0xE0; 0xE0; 0xE0; 0xE0; 0xF1; 0xF1; 0xF1; 0xF1] ->
  w = nth 2 weak_keys [] \/ w = nth 3 weak_keys [] ->
  length input = 8%nat -> Forall is_byte input ->
  (exists ks out, des_set_key true w' = Ret (0, ks) /\
    des_ecb_encrypt input ks true = Ret out /\ des_ecb_encrypt out ks true = Ret input) /\
  (exists ks out out', des_set_key true w = Ret (-2, []) /\ des_set_key false w = Ret (0, ks) /\
    des_ecb_encrypt (repeat 0 8) ks true = Ret out /\ des_ecb_encrypt out ks true = Ret out' /\ out' <> repeat 0 8).
Proof.
  intros Hw' Hw Hl Hb. split.
  - assert (Hu : undoes w' w' = true) by (destruct Hw' as [->| ->]; vm_compute; done).
    assert (Hk : des_set_key true w' = des_set_key false w') by (destruct Hw' as [->| ->]; vm_compute; done).
    destruct (undoes_inverts w' w' input Hu Hl Hb) as (ks & ks' & out & H1 & H2 & H3 & H4).
    rewrite H1 in H2. injection H2 as <-. exists ks, out. by rewrite Hk.
  - destruct Hw as [-> | ->]; do 3 eexists; (split; [vm_compute; reflexivity|]); (split; [vm_compute; reflexivity|]);
      (split; [vm_compute; reflexivity|]); (split; [vm_compute; reflexivity|]); done.
Qed.

Theorem weak_keys_missed_witness :
  exists ks out, des_set_key true [0x1F; 0x1F; 0x1F; 0x1F; 0x0E; 0x0E; 0x0E; 0x0E] = Ret (0, ks) /\
    des_ecb_encrypt (repeat 9 8) ks true = Ret out /\ des_ecb_encrypt out ks true = Ret (repeat 9 8).
Proof.
  refine (proj1 (weak_keys_missed (nth 2 weak_keys []) _ (repeat 9 8) _ _ eq_refl _)); [by left|by left|by apply words_check].
Defined.
