(* ===== verification/DesSpec.v ===== *)
(** * The code of libdes computes the Data Encryption Standard

    Module [Fips] is the standard (FIPS PUB 46) as written there: lists of
    bits numbered from 1, most significant first, the published tables, and
    the cipher built from them.  The rest of the file relates the words of
    set_key.c and des_enc.c to those bit lists: which bit of a word holds
    which bit of the standard, that IP/FP, PC1, the key rotations and the
    combined S-box and P tables do what the standard's do, and from that the
    equality of the two ciphers for all keys and blocks in both directions. *)

From S2P Require Import Prelude Linear Crc Des.

(** ** The standard *)

Module Fips.
Abbreviation bits := (list bool).

(** Bits are numbered from 1. *)
Definition bit (v : bits) (k : nat) : bool := nth (k - 1) v false.
Definition permute (tab : list nat) (v : bits) : bits := map (bit v) tab.
Definition xor_bits (u v : bits) : bits := zip_with xorb u v.
Definition rotl (n : nat) (v : bits) : bits := drop n v ++ take n v.

Definition IP : list nat := [
  58; 50; 42; 34; 26; 18; 10; 2; 60; 52; 44; 36; 28; 20; 12; 4;
  62; 54; 46; 38; 30; 22; 14; 6; 64; 56; 48; 40; 32; 24; 16; 8;
  57; 49; 41; 33; 25; 17; 9; 1; 59; 51; 43; 35; 27; 19; 11; 3;
  61; 53; 45; 37; 29; 21; 13; 5; 63; 55; 47; 39; 31; 23; 15; 7]%nat.
Definition IPinv : list nat := [
  40; 8; 48; 16; 56; 24; 64; 32; 39; 7; 47; 15; 55; 23; 63; 31;
  38; 6; 46; 14; 54; 22; 62; 30; 37; 5; 45; 13; 53; 21; 61; 29;
  36; 4; 44; 12; 52; 20; 60; 28; 35; 3; 43; 11; 51; 19; 59; 27;
  34; 2; 42; 10; 50; 18; 58; 26; 33; 1; 41; 9; 49; 17; 57; 25]%nat.
Definition E : list nat := [
  32; 1; 2; 3; 4; 5; 4; 5; 6; 7; 8; 9;
  8; 9; 10; 11; 12; 13; 12; 13; 14; 15; 16; 17;
  16; 17; 18; 19; 20; 21; 20; 21; 22; 23; 24; 25;
  24; 25; 26; 27; 28; 29; 28; 29; 30; 31; 32; 1]%nat.
Definition P : list nat := [
  16; 7; 20; 21; 29; 12; 28; 17; 1; 15; 23; 26; 5; 18; 31; 10;
  2; 8; 24; 14; 32; 27; 3; 9; 19; 13; 30; 6; 22; 11; 4; 25]%nat.
Definition PC1 : list nat := [
  57; 49; 41; 33; 25; 17; 9; 1; 58; 50; 42; 34; 26; 18;
  10; 2; 59; 51; 43; 35; 27; 19; 11; 3; 60; 52; 44; 36;
  63; 55; 47; 39; 31; 23; 15; 7; 62; 54; 46; 38; 30; 22;
  14; 6; 61; 53; 45; 37; 29; 21; 13; 5; 28; 20; 12; 4]%nat.
Definition PC2 : list nat := [
  14; 17; 11; 24; 1; 5; 3; 28; 15; 6; 21; 10;
  23; 19; 12; 4; 26; 8; 16; 7; 27; 20; 13; 2;
  41; 52; 31; 37; 47; 55; 30; 40; 51; 45; 33; 48;
  44; 49; 39; 56; 34; 53; 46; 42; 50; 36; 29; 32]%nat.
Definition S1 : list nat := [
  14; 4; 13; 1; 2; 15; 11; 8; 3; 10; 6; 12; 5; 9; 0; 7;
  0; 15; 7; 4; 14; 2; 13; 1; 10; 6; 12; 11; 9; 5; 3; 8;
  4; 1; 14; 8; 13; 6; 2; 11; 15; 12; 9; 7; 3; 10; 5; 0;
  15; 12; 8; 2; 4; 9; 1; 7; 5; 11; 3; 14; 10; 0; 6; 13]%nat.
Definition S2 : list nat := [
  15; 1; 8; 14; 6; 11; 3; 4; 9; 7; 2; 13; 12; 0; 5; 10;
  3; 13; 4; 7; 15; 2; 8; 14; 12; 0; 1; 10; 6; 9; 11; 5;
  0; 14; 7; 11; 10; 4; 13; 1; 5; 8; 12; 6; 9; 3; 2; 15;
  13; 8; 10; 1; 3; 15; 4; 2; 11; 6; 7; 12; 0; 5; 14; 9]%nat.
Definition S3 : list nat := [
  10; 0; 9; 14; 6; 3; 15; 5; 1; 13; 12; 7; 11; 4; 2; 8;
  13; 7; 0; 9; 3; 4; 6; 10; 2; 8; 5; 14; 12; 11; 15; 1;
  13; 6; 4; 9; 8; 15; 3; 0; 11; 1; 2; 12; 5; 10; 14; 7;
  1; 10; 13; 0; 6; 9; 8; 7; 4; 15; 14; 3; 11; 5; 2; 12]%nat.
Definition S4 : list nat := [
  7; 13; 14; 3; 0; 6; 9; 10; 1; 2; 8; 5; 11; 12; 4; 15;
  13; 8; 11; 5; 6; 15; 0; 3; 4; 7; 2; 12; 1; 10; 14; 9;
  10; 6; 9; 0; 12; 11; 7; 13; 15; 1; 3; 14; 5; 2; 8; 4;
  3; 15; 0; 6; 10; 1; 13; 8; 9; 4; 5; 11; 12; 7; 2; 14]%nat.
Definition S5 : list nat := [
  2; 12; 4; 1; 7; 10; 11; 6; 8; 5; 3; 15; 13; 0; 14; 9;
  14; 11; 2; 12; 4; 7; 13; 1; 5; 0; 15; 10; 3; 9; 8; 6;
  4; 2; 1; 11; 10; 13; 7; 8; 15; 9; 12; 5; 6; 3; 0; 14;
  11; 8; 12; 7; 1; 14; 2; 13; 6; 15; 0; 9; 10; 4; 5; 3]%nat.
Definition S6 : list nat := [
  12; 1; 10; 15; 9; 2; 6; 8; 0; 13; 3; 4; 14; 7; 5; 11;
  10; 15; 4; 2; 7; 12; 9; 5; 6; 1; 13; 14; 0; 11; 3; 8;
  9; 14; 15; 5; 2; 8; 12; 3; 7; 0; 4; 10; 1; 13; 11; 6;
  4; 3; 2; 12; 9; 5; 15; 10; 11; 14; 1; 7; 6; 0; 8; 13]%nat.
Definition S7 : list nat := [
  4; 11; 2; 14; 15; 0; 8; 13; 3; 12; 9; 7; 5; 10; 6; 1;
  13; 0; 11; 7; 4; 9; 1; 10; 14; 3; 5; 12; 2; 15; 8; 6;
  1; 4; 11; 13; 12; 3; 7; 14; 10; 15; 6; 8; 0; 5; 9; 2;
  6; 11; 13; 8; 1; 4; 10; 7; 9; 5; 0; 15; 14; 2; 3; 12]%nat.
Definition S8 : list nat := [
  13; 2; 8; 4; 6; 15; 11; 1; 10; 9; 3; 14; 5; 0; 12; 7;
  1; 15; 13; 8; 10; 3; 7; 4; 12; 5; 6; 11; 0; 14; 9; 2;
  7; 11; 4; 1; 9; 12; 14; 2; 0; 6; 10; 13; 15; 3; 5; 8;
  2; 1; 14; 7; 4; 10; 8; 13; 15; 12; 9; 0; 3; 5; 6; 11]%nat.
Definition SBoxes : list (list nat) := [S1; S2; S3; S4; S5; S6; S7; S8].

Definition num (v : bits) : nat := fold_left (fun a b => 2 * a + Nat.b2n b)%nat v 0%nat.
Definition nibble (x : nat) : bits := map (fun i => Nat.testbit x i) [3; 2; 1; 0]%nat.

(** Bits 1 and 6 select the row of the table, bits 2 to 5 its column. *)
Definition sbox (tab : list nat) (b : bits) : bits :=
  let row := num [bit b 1; bit b 6] in
  let col := num [bit b 2; bit b 3; bit b 4; bit b 5] in
  nibble (nth (16 * row + col) tab 0%nat).

Definition f (R K : bits) : bits :=
  let B := xor_bits (permute E R) K in
  permute P (flat_map (fun i => sbox (nth i SBoxes []) (take 6 (drop (6 * i) B))) (seq 0 8)).

Definition shifts : list nat := [1; 1; 2; 2; 2; 2; 2; 2; 1; 2; 2; 2; 2; 2; 2; 1]%nat.

Fixpoint keys (shifts : list nat) (C D : bits) : list bits :=
  match shifts with
  | [] => []
  | n :: shifts => let C := rotl n C in let D := rotl n D in permute PC2 (C ++ D) :: keys shifts C D
  end.

Definition KS (key : bits) : list bits :=
  let CD := permute PC1 key in keys shifts (take 28 CD) (drop 28 CD).

Fixpoint rounds (Ks : list bits) (L R : bits) : bits * bits :=
  match Ks with
  | [] => (L, R)
  | K :: Ks => rounds Ks R (xor_bits L (f R K))
  end.

Definition crypt (Ks : list bits) (input : bits) : bits :=
  let LR := permute IP input in
  let '(L, R) := rounds Ks (take 32 LR) (drop 32 LR) in
  permute IPinv (R ++ L).

Definition des (key input : bits) (enc : bool) : bits :=
  crypt (if enc then KS key else rev (KS key)) input.

Definition of_bytes (bs : list Z) : bits := flat_map (fun x => map (Z.testbit x) [7; 6; 5; 4; 3; 2; 1; 0]) bs.

Example fips_example :
  des (of_bytes [0x13; 0x34; 0x57; 0x79; 0x9B; 0xBC; 0xDF; 0xF1])
      (of_bytes [0x01; 0x23; 0x45; 0x67; 0x89; 0xAB; 0xCD; 0xEF]) true =
  of_bytes [0x85; 0xE8; 0x13; 0x54; 0x0F; 0x0A; 0xB4; 0x05].
Proof. vm_compute. reflexivity. Qed.
End Fips.

(** ** Bits of words as lists *)

Definition zs (l : list nat) : list Z := map Z.of_nat l.
Definition sel (x : Z) (ps : list Z) : Fips.bits := map (Z.testbit x) ps.

(** A linear function that copies bits: checked on the basis. *)
Definition selects (n : Z) (f : Z -> Z) (bs ps : list Z) : bool :=
  (length bs =? length ps)%nat &&
  forallb (fun bp => (0 <=? bp.1) && (0 <=? bp.2) && (bp.2 <? n)) (zip bs ps) &&
  forallb (fun i => let y := f (2 ^ Z.of_nat i) in
    forallb (fun bp => Bool.eqb (Z.testbit y bp.1) (Z.of_nat i =? bp.2)) (zip bs ps)) (seq 0 (Z.to_nat n)).

Lemma linear_select {n m} f bs ps `{LinearOn n m f} :
  selects n f bs ps = true -> forall x, word n x -> sel (f x) bs = sel x ps.
Proof.
  unfold selects. rewrite !andb_true_iff, Nat.eqb_eq, !forallb_forall. intros [[Hl Hr] Hall] x Hx.
  change (Z.testbit (f x) <$> bs = Z.testbit x <$> ps).
  apply list_eq. intros j. rewrite !list_lookup_fmap.
  destruct (bs !! j) as [b|] eqn:Eb, (ps !! j) as [p|] eqn:Ep; simpl; try done.
  2,3: apply lookup_lt_Some in Eb || apply lookup_lt_Some in Ep;
    apply lookup_ge_None in Ep || apply lookup_ge_None in Eb; lia.
  assert (Hin : In (b, p) (zip bs ps)).
  { apply list_elem_of_In, (list_elem_of_lookup_2 _ j). apply lookup_zip_with_Some. by exists b, p. }
  specialize (Hr _ Hin). cbn [fst snd] in Hr. f_equal. apply (linear_testbit (m := m) f b p); [lia|lia| |done].
  apply forallb_forall. intros i Hi. specialize (Hall i Hi). cbv zeta in Hall.
  rewrite forallb_forall in Hall. by apply (Hall (b, p)).
Qed.

(** Permuting bits of a word selects other bits of it. *)
Lemma permute_sel tab x ps :
  forallb (fun k => (0 <? k)%nat && (k <=? length ps)%nat) tab = true ->
  Fips.permute tab (sel x ps) = sel x (map (fun k => nth (k - 1) ps 0) tab).
Proof.
  rewrite forallb_forall. intros H. unfold Fips.permute, sel. rewrite map_map. apply map_ext_in.
  intros k Hk. specialize (H k Hk). rewrite andb_true_iff, Nat.ltb_lt, Nat.leb_le in H. unfold Fips.bit.
  rewrite (nth_indep _ false (Z.testbit x 0)) by (rewrite length_map; lia). apply map_nth.
Qed.

Lemma sel_app x ps qs : sel x (ps ++ qs) = sel x ps ++ sel x qs.
Proof. apply map_app. Qed.

Lemma take_sel n x ps : take n (sel x ps) = sel x (take n ps).
Proof. unfold sel. by rewrite firstn_map. Qed.

Lemma drop_sel n x ps : drop n (sel x ps) = sel x (drop n ps).
Proof. unfold sel. by rewrite skipn_map. Qed.

(** ** Two words as one *)

Definition wide (k : Z) (d : block) : Z := Z.lor d.1 (Z.shiftl d.2 k).
Definition lo (k : Z) (x : Z) : Z := wrap k x.
Definition hi (k : Z) (x : Z) : Z := Z.shiftr x k.

Lemma wide_word k d : 0 <= k -> word k d.1 -> word k d.2 -> word (k + k) (wide k d).
Proof.
  intros Hk H1 H2. unfold wide. apply word_lor; [lia|eapply word_mono; [|done]; lia|].
  unfold word in *. rewrite Z.shiftl_mul_pow2, Z.pow_add_r by lia. nia.
Qed.

Lemma lo_wide k d : 0 <= k -> word k d.1 -> lo k (wide k d) = d.1.
Proof.
  intros Hk H1. unfold lo, wide. apply Z.bits_inj'; intros i Hi.
  rewrite wrap_testbit, Z.lor_spec, Z.shiftl_spec by lia. destruct (Z.ltb_spec i k); cbn [andb].
  - rewrite (Z.testbit_neg_r d.2) by lia. apply orb_false_r.
  - symmetry. by apply (word_testbit_high k).
Qed.

Lemma hi_wide k d : 0 <= k -> word k d.1 -> hi k (wide k d) = d.2.
Proof.
  intros Hk H1. unfold hi, wide. apply Z.bits_inj'; intros i Hi.
  rewrite Z.shiftr_spec, Z.lor_spec, Z.shiftl_spec by lia.
  rewrite (word_testbit_high k d.1) by (done || lia). by replace (i + k - k) with i by lia.
Qed.

Lemma sel_wide_lo k d ps : 0 <= k -> word k d.1 -> forallb (fun p => (0 <=? p) && (p <? k)) ps = true ->
  sel (wide k d) ps = sel d.1 ps.
Proof.
  rewrite forallb_forall. intros Hk H1 Hp. apply map_ext_in. intros p Hin. specialize (Hp p Hin).
  rewrite <-(lo_wide k d) by done. unfold lo. rewrite wrap_testbit by done.
  destruct (Z.ltb_spec p k); [done|lia].
Qed.

Lemma sel_wide_hi k d ps : 0 <= k -> word k d.1 -> forallb (fun p => 0 <=? p) ps = true ->
  sel (wide k d) (map (Z.add k) ps) = sel d.2 ps.
Proof.
  rewrite forallb_forall. intros Hk H1 Hp. unfold sel. rewrite map_map. apply map_ext_in. intros p Hin.
  specialize (Hp p Hin). rewrite <-(hi_wide k d) by done. unfold hi. rewrite Z.shiftr_spec by lia.
  by rewrite Z.add_comm.
Qed.

Lemma linear_lo k : 0 <= k -> LinearOn (k + k) k (lo k).
Proof.
  intros Hk. split; [lia|done|intros; by apply wrap_word|]. intros a b _ _. unfold lo.
  apply Z.bits_inj'; intros i Hi. rewrite Z.lxor_spec, !wrap_testbit, Z.lxor_spec by done.
  by destruct (i <? k), (Z.testbit a i), (Z.testbit b i).
Qed.

Lemma linear_hi k : 0 <= k -> LinearOn (k + k) k (hi k).
Proof.
  intros Hk. split; [lia|done| |intros; apply Z.shiftr_lxor].
  intros a [Ha Ha']. unfold hi, word. rewrite Z.shiftr_div_pow2 by done. split; [apply Z.div_pos; lia|].
  apply Z.div_lt_upper_bound; [lia|]. by rewrite <-Z.pow_add_r.
Qed.

(** ** Linear functions to two words *)

Section Pairs.
Context {n : Z}.

Definition LinearPair (p : Z -> block) : Prop :=
  LinearOn n 32 (fun x => (p x).1) /\ LinearOn n 32 (fun x => (p x).2).

Definition perm (k m : Z) (d : block) : block := PERM_OP d.1 d.2 k m.
Definition swp (d : block) : block := (d.2, d.1).

Lemma linear_perm k m p : 0 <= k -> LinearPair p -> LinearPair (fun x => perm k m (p x)).
Proof. intros Hk [H1 H2]. Transparent PERM_OP. unfold perm, PERM_OP. cbn [fst snd]. split; linear. Opaque PERM_OP. Qed.

Lemma linear_swp p : LinearPair p -> LinearPair (fun x => swp (p x)).
Proof. intros [H1 H2]. by split. Qed.

Lemma linear_rotate k p : 0 <= k <= 32 -> LinearPair p -> LinearPair (fun x => (ROTATE (p x).1 k, ROTATE (p x).2 k)).
Proof.
  intros Hk [H1 H2]. pose proof (linear_ROTATE k Hk). split; cbn [fst snd].
  - exact (linear_compose (m := 32) (fun a => ROTATE a k) (fun x => (p x).1)).
  - exact (linear_compose (m := 32) (fun a => ROTATE a k) (fun x => (p x).2)).
Qed.
End Pairs.

Lemma IP_perm d : IP_block d =
  swp (perm 1 0x55555555 (swp (perm 8 0x00ff00ff (swp (perm 2 0x33333333
    (swp (perm 16 0x0000ffff (swp (perm 4 0x0f0f0f0f (swp d)))))))))).
Proof.
  unfold IP_block, IP, perm. cbn [swp fst snd].
  repeat match goal with |- context [PERM_OP ?a ?b ?n ?m] => destruct (PERM_OP a b n m); cbn [swp fst snd] end. done.
Qed.

Lemma FP_perm d : FP_block d =
  swp (perm 4 0x0f0f0f0f (swp (perm 16 0x0000ffff (swp (perm 2 0x33333333
    (swp (perm 8 0x00ff00ff (swp (perm 1 0x55555555 (swp d)))))))))).
Proof.
  unfold FP_block, FP, perm. cbn [swp fst snd].
  repeat match goal with |- context [PERM_OP ?a ?b ?n ?m] => destruct (PERM_OP a b n m); cbn [swp fst snd] end. done.
Qed.

(** The words of a block as a function of the 64-bit word that holds both. *)
Definition split64 (x : Z) : block := (lo 32 x, hi 32 x).

Lemma linear_split64 : LinearPair (n := 64) split64.
Proof. split; [exact (linear_lo 32 ltac:(lia))|exact (linear_hi 32 ltac:(lia))]. Qed.

Lemma split64_wide d : is_block d -> split64 (wide 32 d) = d.
Proof. intros [H1 H2]. unfold split64. rewrite lo_wide, hi_wide by done. by destruct d. Qed.

Lemma linear_pointwise {n m} f g : (forall x, f x = g x) -> LinearOn n m g -> LinearOn n m f.
Proof. intros E [H1 H2 H3 H4]. split; [done..| |]; intros a; rewrite E; [by apply H3|]. intros b. rewrite !E. apply H4. Qed.

Lemma LinearPair_ext {n} p q : (forall x, p x = q x) -> LinearPair (n := n) q -> LinearPair (n := n) p.
Proof.
  intros E [H1 H2]. split; [apply (linear_pointwise _ (fun x => (q x).1))|apply (linear_pointwise _ (fun x => (q x).2))];
    try done; intros x; by rewrite E.
Qed.

Ltac linear_pair := repeat first [assumption | apply linear_split64 | apply linear_swp | apply linear_perm; [lia|]].

(** The halves before the first round, and the output after the last. *)
Definition start (x : Z) : block :=
  let d := IP_block (split64 x) in (ROTATE d.1 29, ROTATE d.2 29).
Definition finish (x : Z) : block :=
  let d := split64 x in FP_block (ROTATE d.1 3, ROTATE d.2 3).

Lemma linear_start : LinearPair (n := 64) start.
Proof.
  apply (linear_rotate 29 (fun x => IP_block (split64 x))); [lia|].
  eapply LinearPair_ext; [intros x; apply IP_perm|]. linear_pair.
Qed.

Lemma linear_finish : LinearPair (n := 64) finish.
Proof.
  eapply LinearPair_ext; [intros x; apply FP_perm|].
  assert (LinearPair (n := 64) (fun x => (ROTATE (split64 x).1 3, ROTATE (split64 x).2 3))).
  { apply linear_rotate; [lia|]. apply linear_split64. }
  linear_pair.
Qed.

(** ** Which bit is where

    A half of the standard is a word of the code rotated by three; the bytes
    of a block, most significant bit first, are the words of [c2l]. *)

Definition half_ps : list Z := map (fun j => (Z.of_nat j + 3) mod 32) (seq 0 32).
Definition half (w : Z) : Fips.bits := sel w half_ps.
Definition bytes_ps (n : nat) : list Z := flat_map (fun k => map (Z.add (8 * Z.of_nat k)) [7; 6; 5; 4; 3; 2; 1; 0]) (seq 0 n).

Lemma of_bytes_l2c l : Fips.of_bytes (l2c l) = sel l (bytes_ps 4).
Proof.
  Transparent l2c. unfold Fips.of_bytes, l2c. cbn [flat_map map app]. rewrite !land_ff.
  rewrite !wrap_testbit, !Z.shiftr_spec by lia. reflexivity.
Qed.

Lemma of_bytes_blk d : is_block d -> Fips.of_bytes (blk d) = sel (wide 32 d) (bytes_ps 8).
Proof.
  intros [H1 H2]. unfold blk, Fips.of_bytes. rewrite flat_map_app. fold Fips.of_bytes.
  change (Fips.of_bytes (l2c d.1) ++ Fips.of_bytes (l2c d.2) = sel (wide 32 d) (bytes_ps 8)).
  rewrite !of_bytes_l2c. change (bytes_ps 8) with (bytes_ps 4 ++ map (Z.add 32) (bytes_ps 4)).
  rewrite sel_app, sel_wide_lo, sel_wide_hi by done. done.
Qed.

Lemma start_bits d : is_block d ->
  Fips.permute Fips.IP (sel (wide 32 d) (bytes_ps 8)) = half (start (wide 32 d)).2 ++ half (start (wide 32 d)).1.
Proof.
  intros Hd. rewrite permute_sel by (vm_compute; done).
  pose proof (wide_word 32 d ltac:(lia) (proj1 Hd) (proj2 Hd)) as Hw. destruct linear_start as [H1 H2].
  set (ps := map _ _). rewrite <-(take_drop 32 ps), sel_app. unfold half. symmetry. f_equal.
  - exact (linear_select (n := 64) (m := 32) (fun x => (start x).2) half_ps (take 32 ps) ltac:(vm_compute; done) _ Hw).
  - exact (linear_select (n := 64) (m := 32) (fun x => (start x).1) half_ps (drop 32 ps) ltac:(vm_compute; done) _ Hw).
Qed.

Lemma finish_bits l r : is_block (l, r) ->
  Fips.permute Fips.IPinv (half r ++ half l) =
    sel (finish (wide 32 (l, r))).1 (bytes_ps 4) ++ sel (finish (wide 32 (l, r))).2 (bytes_ps 4).
Proof.
  intros Hd. pose proof (wide_word 32 (l, r) ltac:(lia) (proj1 Hd) (proj2 Hd)) as Hw.
  assert (E : half r ++ half l = sel (wide 32 (l, r)) (map (Z.add 32) half_ps ++ half_ps)).
  { rewrite sel_app, sel_wide_hi, sel_wide_lo by (apply Hd || done). done. }
  rewrite E, permute_sel by (vm_compute; done). destruct linear_finish as [H1 H2].
  set (ps := map _ Fips.IPinv). rewrite <-(take_drop 32 ps), sel_app. symmetry. f_equal.
  - exact (linear_select (n := 64) (m := 32) (fun x => (finish x).1) (bytes_ps 4) (take 32 ps) ltac:(vm_compute; done) _ Hw).
  - exact (linear_select (n := 64) (m := 32) (fun x => (finish x).2) (bytes_ps 4) (drop 32 ps) ltac:(vm_compute; done) _ Hw).
Qed.

(** ** The round function *)

Lemma ROTATE_testbit a n i : is_u32 a -> 0 <= n < 32 -> 0 <= i < 32 ->
  Z.testbit (ROTATE a n) i = Z.testbit a ((i + n) mod 32).
Proof.
  intros Ha Hn Hi. rewrite ROTATE_lxor, Z.lxor_spec, Z.shiftr_spec, cshl_testbit by (done || lia).
  destruct (Z.ltb_spec i 32); [cbn [andb]|lia]. destruct (Z.ltb_spec (i + n) 32) as [H'|H'].
  - rewrite Z.mod_small, (Z.testbit_neg_r a (i - _)) by lia. apply xorb_false_r.
  - rewrite (word_testbit_high 32 a (i + n)), xorb_false_l by (done || lia). f_equal.
    replace ((i + n) mod 32) with ((i + n - 32) mod 32); [rewrite Z.mod_small; lia|].
    rewrite <-(Z_mod_plus_full (i + n - 32) 1 32). f_equal. lia.
Qed.

Lemma int_shr8_testbit u i : 0 <= i < 24 -> Z.testbit (int_shr8 u) i = Z.testbit u (i + 8).
Proof.
  intros Hi. unfold int_shr8, u32. rewrite wrap_testbit, Z.shiftr_spec by lia.
  destruct (Z.ltb_spec i 32); [cbn [andb]|lia].
  assert (E : wrap 32 (s32 u) = wrap 32 u).
  { unfold wrap, s32, swrap. rewrite Zminus_mod_idemp_l. f_equal. lia. }
  pose proof (wrap_testbit 32 (s32 u) (i + 8) ltac:(lia)) as H1. rewrite E, wrap_testbit in H1 by lia.
  destruct (Z.ltb_spec (i + 8) 32); [done|lia].
Qed.

(** The six bits of a word that enter S-box [i]. *)
Definition box_ps (i : nat) : list Z := map (fun b => (4 * Z.of_nat i + 2 + Z.of_nat b) mod 32) (seq 0 6).
Definition win (i : nat) (w : Z) : Z := Z.land (ROTATE w (4 * Z.of_nat i + 2)) 0x3f.
Definition SP (i : nat) (x : Z) : Z := get (nth i des_SPtrans []) x.

Lemma land_3f x : Z.land x 0x3f = wrap 6 x.
Proof. by rewrite wrap_ones. Qed.

Lemma win_bits i w : (i < 8)%nat -> is_u32 w -> sel (win i w) (zs (seq 0 6)) = sel w (box_ps i).
Proof.
  intros Hi Hw. unfold sel, zs, box_ps. rewrite !map_map. apply map_ext_in. intros b Hb%in_seq.
  unfold win. rewrite land_3f, wrap_testbit, ROTATE_testbit by (done || lia).
  destruct (Z.ltb_spec (Z.of_nat b) 6); [cbn [andb]; do 2 f_equal; lia|lia].
Qed.

Lemma win_word i w : word 6 (win i w).
Proof. unfold win. rewrite land_3f. by apply wrap_word. Qed.

(** A byte offset into [des_SP] names a table and an entry. *)
Lemma SP_at_window i e w : (i < 8)%nat -> is_u32 w ->
  (forall j, 0 <= j < 6 -> Z.testbit e (j + 2) = Z.testbit w ((4 * Z.of_nat i + 2 + j) mod 32)) ->
  SP_at (0x100 * Z.of_nat i + Z.land e 0xfc) = SP i (win i w).
Proof.
  intros Hi Hw He. assert (Hx : Z.land e 0xfc = 4 * win i w).
  { change 4 with (2 ^ 2). rewrite Z.mul_comm, <-Z.shiftl_mul_pow2 by lia. apply Z.bits_inj'; intros j Hj.
    change 0xfc with (Z.shiftl (Z.ones 6) 2). unfold win.
    rewrite land_3f, Z.land_spec, !Z.shiftl_spec, wrap_testbit by lia.
    destruct (Z.ltb_spec j 2).
    { rewrite !(Z.testbit_neg_r _ (j - 2)) by lia. rewrite !andb_false_r. done. }
    rewrite ones_testbit by lia. destruct (Z.ltb_spec (j - 2) 6); [|by rewrite andb_false_r].
    rewrite andb_true_r. cbn [andb]. rewrite ROTATE_testbit by (done || lia).
    replace j with (j - 2 + 2) at 1 by lia. rewrite He by lia. do 2 f_equal. lia. }
  rewrite Hx. pose proof (win_word i w) as Hw6. unfold word in Hw6. unfold SP_at, SP. f_equal.
  - f_equal. replace ((0x100 * Z.of_nat i + 4 * win i w) / 0x100) with (Z.of_nat i); [by rewrite Nat2Z.id|].
    apply (Z.div_unique_pos _ _ _ (4 * win i w)); lia.
  - replace ((0x100 * Z.of_nat i + 4 * win i w) mod 0x100) with (4 * win i w).
    + rewrite Z.mul_comm, Z.div_mul by lia. done.
    + apply (Z.mod_unique_pos _ _ (Z.of_nat i)); lia.
Qed.

Lemma D_ENCRYPT_boxes LL R s S : is_u32 R -> is_u32 (nth S s 0) -> is_u32 (nth (S + 1) s 0) ->
  let u := Z.lxor R (nth S s 0) in let t := Z.lxor R (nth (S + 1) s 0) in
  D_ENCRYPT LL R s S =
    fold_left (fun a i => Z.lxor a (SP i (win i (if Nat.even i then u else t)))) [0; 2; 4; 6; 1; 3; 5; 7]%nat LL.
Proof.
  intros HR H0 H1 u t. assert (Hu : is_u32 u) by (by apply word_lxor). assert (Ht : is_u32 t) by (by apply word_lxor).
  Transparent D_ENCRYPT. unfold D_ENCRYPT. fold u t. cbv zeta. cbn [fold_left Nat.even].
  pose proof (ROTATE_word t 4) as Hrot.
  assert (Hr : forall j, 0 <= j < 32 -> Z.testbit (ROTATE t 4) j = Z.testbit t ((j + 4) mod 32)).
  { intros. by apply ROTATE_testbit. }
  repeat f_equal.
  - apply (SP_at_window 0 u u); [lia|done|]. intros j Hj. f_equal. rewrite Z.mod_small; lia.
  - apply (SP_at_window 2 (int_shr8 u) u); [lia|done|]. intros j Hj. rewrite int_shr8_testbit by lia.
    f_equal. rewrite Z.mod_small; lia.
  - apply (SP_at_window 4 (Z.shiftr u 16) u); [lia|done|]. intros j Hj. rewrite Z.shiftr_spec by lia.
    f_equal. rewrite Z.mod_small; lia.
  - apply (SP_at_window 6 (Z.shiftr (Z.shiftr u 16) 8) u); [lia|done|]. intros j Hj. rewrite !Z.shiftr_spec by lia.
    f_equal. rewrite Z.mod_small; lia.
  - apply (SP_at_window 1 (ROTATE t 4) t); [lia|done|]. intros j Hj. rewrite Hr by lia. do 2 f_equal. lia.
  - apply (SP_at_window 3 (int_shr8 (ROTATE t 4)) t); [lia|done|]. intros j Hj. rewrite int_shr8_testbit, Hr by lia.
    do 2 f_equal. lia.
  - apply (SP_at_window 5 (Z.shiftr (ROTATE t 4) 16) t); [lia|done|]. intros j Hj.
    rewrite Z.shiftr_spec, Hr by lia. do 2 f_equal. lia.
  - apply (SP_at_window 7 (int_shr8 (Z.shiftr (ROTATE t 4) 16)) t); [lia|done|]. intros j Hj.
    rewrite int_shr8_testbit, Z.shiftr_spec, Hr by lia. do 2 f_equal. lia.
Qed.
Opaque D_ENCRYPT.

(** *** Lists of bits *)

Lemma half_lxor a b : half (Z.lxor a b) = Fips.xor_bits (half a) (half b).
Proof.
  unfold half, sel, Fips.xor_bits. induction half_ps as [|p ps IH]; [done|].
  cbn [map zip_with]. by rewrite Z.lxor_spec, IH.
Qed.

Lemma sel_lxor a b ps : sel (Z.lxor a b) ps = Fips.xor_bits (sel a ps) (sel b ps).
Proof. induction ps as [|p ps IH]; [done|]. unfold sel in *. cbn. by rewrite Z.lxor_spec, IH. Qed.

Lemma xor_bits_assoc u v w : Fips.xor_bits u (Fips.xor_bits v w) = Fips.xor_bits (Fips.xor_bits u v) w.
Proof.
  revert v w. induction u as [|a u IH]; intros [|b v] [|c w]; try done. cbn. unfold Fips.xor_bits in IH.
  by rewrite IH, xorb_assoc.
Qed.

Lemma length_xor_bits u v : length u = length v -> length (Fips.xor_bits u v) = length u.
Proof. intros H. unfold Fips.xor_bits. rewrite length_zip_with. lia. Qed.

Lemma permute_xor tab u v : length u = length v ->
  Fips.permute tab (Fips.xor_bits u v) = Fips.xor_bits (Fips.permute tab u) (Fips.permute tab v).
Proof.
  intros Hl. assert (Hb : forall k, Fips.bit (Fips.xor_bits u v) k = xorb (Fips.bit u k) (Fips.bit v k)).
  { intros k. unfold Fips.bit. generalize (k - 1)%nat. revert v Hl.
    induction u as [|a u IH]; intros [|b v] Hl n; try done; [by destruct n|].
    destruct n as [|n]; [done|]. injection Hl as Hl. exact (IH v Hl n). }
  unfold Fips.permute. induction tab as [|k tab IH]; [done|]. cbn. rewrite Hb. f_equal. apply IH.
Qed.

(** The output of S-box [i] in its place among the 32. *)
Definition placed (i : nat) (v : Fips.bits) : Fips.bits := repeat false (4 * i) ++ v ++ repeat false (28 - 4 * i).

(** All 512 entries of the combined tables. *)
Lemma SP_half i x : (i < 8)%nat -> word 6 x ->
  half (SP i x) = Fips.permute Fips.P (placed i (Fips.sbox (nth i Fips.SBoxes []) (sel x (zs (seq 0 6))))).
Proof.
  intros Hi [Hx Hx'].
  assert (H : forallb (fun i => forallb (fun k => let x := Z.of_nat k in
    bool_decide (half (SP i x) = Fips.permute Fips.P (placed i (Fips.sbox (nth i Fips.SBoxes []) (sel x (zs (seq 0 6)))))))
    (seq 0 64)) (seq 0 8) = true) by (vm_compute; done).
  rewrite forallb_forall in H. specialize (H i ltac:(apply in_seq; lia)). cbv beta in H.
  rewrite forallb_forall in H. specialize (H (Z.to_nat x) ltac:(apply in_seq; lia)). cbv zeta in H.
  rewrite Z2Nat.id, bool_decide_eq_true in H by lia. done.
Qed.

(** The 48 key bits of the round whose two words are at [S]. *)
Definition subkey (s : list Z) (S : nat) : Fips.bits :=
  flat_map (fun i => sel (nth (S + (if Nat.even i then 0 else 1)) s 0) (box_ps i)) (seq 0 8).

Lemma expand_chunk R s S i : (i < 8)%nat ->
  take 6 (drop (6 * i) (Fips.xor_bits (Fips.permute Fips.E (half R)) (subkey s S))) =
  sel (Z.lxor R (nth (S + (if Nat.even i then 0 else 1)) s 0)) (box_ps i).
Proof.
  intros Hi. rewrite sel_lxor. unfold half. rewrite permute_sel by (vm_compute; done).
  unfold subkey. do 8 (destruct i as [|i]; [reflexivity|]). lia.
Qed.

Lemma nibble_inv x : exists a b c d, Fips.nibble x = [a; b; c; d].
Proof. by repeat eexists. Qed.

Lemma placed_xor v0 v1 v2 v3 v4 v5 v6 v7 :
  Forall (fun v => exists a b c d, v = [a; b; c; d]) [v0; v1; v2; v3; v4; v5; v6; v7] ->
  fold_left Fips.xor_bits [placed 2 v2; placed 4 v4; placed 6 v6; placed 1 v1; placed 3 v3; placed 5 v5; placed 7 v7]
    (placed 0 v0) = v0 ++ v1 ++ v2 ++ v3 ++ v4 ++ v5 ++ v6 ++ v7.
Proof.
  rewrite !Forall_cons. intros H. destruct_and!.
  repeat match goal with H : exists _, _ |- _ => destruct H as (? & ? & ? & ? & ->) end.
  cbn. rewrite ?xorb_false_r, ?xorb_false_l. reflexivity.
Qed.

Lemma length_placed i v : (i < 8)%nat -> length v = 4%nat -> length (placed i v) = 32%nat.
Proof. intros. unfold placed. rewrite !length_app, !repeat_length. lia. Qed.

Lemma length_sbox tab b : length (Fips.sbox tab b) = 4%nat.
Proof. done. Qed.

Lemma permute_fold tab n l : forall v, length v = n -> Forall (fun u => length u = n) l ->
  Fips.permute tab (fold_left Fips.xor_bits l v) = fold_left Fips.xor_bits (map (Fips.permute tab) l) (Fips.permute tab v).
Proof.
  induction l as [|u l IH]; intros v Hv Hl; [done|]. apply Forall_cons in Hl as [Hu Hl]. cbn [fold_left map].
  rewrite IH; [|rewrite length_xor_bits by congruence; done|done]. by rewrite permute_xor by congruence.
Qed.

Lemma fold_xor_start l : forall u v,
  fold_left Fips.xor_bits l (Fips.xor_bits u v) = Fips.xor_bits u (fold_left Fips.xor_bits l v).
Proof. induction l as [|w l IH]; intros u v; [done|]. cbn [fold_left]. by rewrite <-IH, xor_bits_assoc. Qed.

(** One round of the code is one application of the function [f] of the
    standard. *)
Lemma D_ENCRYPT_f LL R s S : is_u32 R -> is_u32 (nth S s 0) -> is_u32 (nth (S + 1) s 0) ->
  half (D_ENCRYPT LL R s S) = Fips.xor_bits (half LL) (Fips.f (half R) (subkey s S)).
Proof.
  intros HR H0 H1. rewrite (D_ENCRYPT_boxes LL R s S HR H0 H1).
  set (key i := nth (S + (if Nat.even i then 0 else 1)) s 0).
  set (out i := Fips.sbox (nth i Fips.SBoxes []) (sel (Z.lxor R (key i)) (box_ps i))).
  assert (Hk : forall i, is_u32 (Z.lxor R (key i))).
  { intros i. unfold key. destruct (Nat.even i); rewrite ?Nat.add_0_r; by apply word_lxor. }
  assert (Hs : forall i, (i < 8)%nat ->
    half (SP i (win i (if Nat.even i then Z.lxor R (nth S s 0) else Z.lxor R (nth (S + 1) s 0)))) =
    Fips.permute Fips.P (placed i (out i))).
  { intros i Hi. rewrite SP_half, win_bits by (done || apply win_word || by destruct (Nat.even i); apply word_lxor).
    unfold out, key. by destruct (Nat.even i); rewrite ?Nat.add_0_r. }
  cbn [fold_left]. rewrite !half_lxor, !Hs by lia. unfold Fips.f.
  assert (Ho : flat_map (fun i => Fips.sbox (nth i Fips.SBoxes [])
      (take 6 (drop (6 * i) (Fips.xor_bits (Fips.permute Fips.E (half R)) (subkey s S))))) (seq 0 8) =
    out 0%nat ++ out 1%nat ++ out 2%nat ++ out 3%nat ++ out 4%nat ++ out 5%nat ++ out 6%nat ++ out 7%nat).
  { cbn [seq flat_map]. rewrite app_nil_r.
    repeat (f_equal; [unfold out; by rewrite expand_chunk by lia|]).
    unfold out. by rewrite expand_chunk by lia. }
  rewrite Ho, <-placed_xor.
  - rewrite (permute_fold _ 32) by (repeat apply Forall_cons_2; try apply length_placed; done || lia).
    rewrite <-fold_xor_start. done.
  - repeat apply Forall_cons_2; try apply nibble_inv. constructor.
Qed.

(** Two rounds of the code, with the halves in alternating roles, are two
    rounds of the standard. *)
Lemma rounds_bits s Ss : Forall is_u32 s -> forall l r, Nat.Even (length Ss) -> is_u32 l -> is_u32 r ->
  Fips.rounds (map (subkey s) Ss) (half l) (half r) = (half (rounds l r s Ss).1, half (rounds l r s Ss).2).
Proof.
  intros Hs. assert (H : forall n Ss l r, (length Ss <= n)%nat -> Nat.Even (length Ss) -> is_u32 l -> is_u32 r ->
    Fips.rounds (map (subkey s) Ss) (half l) (half r) = (half (rounds l r s Ss).1, half (rounds l r s Ss).2)).
  { clear Ss. induction n as [|n IH]; intros [|S1 [|S2 Ss]] l r Hn [k Hk] Hl Hr; simpl in Hn, Hk; try done; try lia.
    pose proof (fun i => word_nth 32 s i ltac:(lia) Hs) as Hw. cbn [map Fips.rounds rounds].
    rewrite <-!D_ENCRYPT_f by (done || apply Hw || by apply D_ENCRYPT_word).
    apply IH; [lia|exists (k - 1)%nat; lia|by repeat apply D_ENCRYPT_word..]. }
  intros l r. by apply (H (length Ss)).
Qed.

(** ** The key schedule *)

(** *** Words under a mask *)

Definition under (M x : Z) : Prop := Z.land x M = x.

Lemma under_land m x : under m (Z.land x m).
Proof. unfold under. by rewrite <-Z.land_assoc, Z.land_diag. Qed.

Lemma under_lor M M' x y : under M x -> under M' y -> under (Z.lor M M') (Z.lor x y).
Proof.
  unfold under. intros Hx Hy. rewrite <-Hx, <-Hy. apply Z.bits_inj'; intros i Hi. rewrite !Z.land_spec, !Z.lor_spec, !Z.land_spec.
  by repeat destruct (Z.testbit _ _).
Qed.

Lemma under_bit M x i : under M x -> 0 <= i -> Z.testbit x i = true -> Z.testbit M i = true.
Proof. unfold under. intros Hx Hi. rewrite <-Hx at 1. rewrite Z.land_spec. by destruct (Z.testbit x i). Qed.

Lemma under_intro M x : (forall i, 0 <= i -> Z.testbit x i = true -> Z.testbit M i = true) -> under M x.
Proof.
  intros H. apply Z.bits_inj'; intros i Hi. rewrite Z.land_spec. specialize (H i Hi).
  destruct (Z.testbit x i); [by rewrite H|done].
Qed.

Lemma under_shiftr M x k : 0 <= k -> under M x -> under (Z.shiftr M k) (Z.shiftr x k).
Proof. unfold under. intros Hk Hx. by rewrite <-Z.shiftr_land, Hx. Qed.

Lemma under_cshl M x k : under M x -> under (cshl 32 M k) (cshl 32 x k).
Proof.
  intros Hx. apply under_intro. intros i Hi. rewrite !cshl_testbit by lia. rewrite !andb_true_iff.
  intros [H1 H2]. split; [done|]. destruct (Z.leb_spec 0 (i - k)); [by eapply under_bit|].
  by rewrite Z.testbit_neg_r in H2.
Qed.

Lemma under_disjoint M M' x y : under M x -> under M' y -> Z.land M M' = 0 -> Z.land x y = 0.
Proof.
  unfold under. intros Hx Hy Hd. rewrite <-Hx, <-Hy.
  rewrite (Z.land_comm y), Z.land_assoc, <-(Z.land_assoc x), Hd. by rewrite Z.land_0_r, Z.land_0_l.
Qed.

Lemma under_ones n x : word n x -> 0 <= n -> under (Z.ones n) x.
Proof. intros. unfold under. by rewrite <-wrap_ones, wrap_small. Qed.

Lemma word_of_under M n x : 0 <= n -> word n M -> under M x -> word n x.
Proof. unfold under. intros Hn HM <-. rewrite Z.land_comm. by apply word_land. Qed.

Create HintDb under discriminated.
#[export] Hint Resolve under_land under_lor under_shiftr under_cshl under_ones : under.
#[export] Hint Extern 2 (_ <= _) => lia : under.

(** Two words are disjoint when masks found by [eauto] are. *)
Ltac disjoint := eapply under_disjoint; [solve [eauto 12 with under]..|vm_compute; reflexivity].

(** *** The tables [des_skb] *)

Definition skb_mask (i : nat) : Z := fold_left Z.lor (nth i des_skb []) 0.

Lemma skb_tables i : (i < 8)%nat ->
  (forall x, word 6 x -> is_u32 (skb i x) /\ under (skb_mask i) (skb i x)) /\
  (forall x y, word 6 x -> word 6 y -> skb i (Z.lxor x y) = Z.lxor (skb i x) (skb i y)).
Proof.
  intros Hi.
  assert (H : forallb (fun i => forallb (fun a => let x := Z.of_nat a in
    wordb 32 (skb i x) && (Z.land (skb i x) (skb_mask i) =? skb i x) &&
    forallb (fun b => let y := Z.of_nat b in skb i (Z.lxor x y) =? Z.lxor (skb i x) (skb i y)) (seq 0 64))
    (seq 0 64)) (seq 0 8) = true) by (vm_compute; done).
  rewrite forallb_forall in H. specialize (H i ltac:(apply in_seq; lia)). cbv beta in H.
  rewrite forallb_forall in H. unfold word.
  split; intros x; [intros Hx|intros y Hx Hy];
    specialize (H (Z.to_nat x) ltac:(apply in_seq; lia)); cbv zeta in H; rewrite Z2Nat.id, !andb_true_iff in H by lia.
  - unfold wordb in H. unfold under. lia.
  - destruct H as [_ H]. rewrite forallb_forall in H. specialize (H (Z.to_nat y) ltac:(apply in_seq; lia)).
    rewrite Z2Nat.id in H by lia. lia.
Qed.

Lemma linear_skb i : (i < 8)%nat -> LinearOn 6 32 (skb i).
Proof.
  intros Hi. destruct (skb_tables i Hi) as [H1 H2]. split; [lia..|intros x Hx; by apply H1|intros x y Hx Hy; by apply H2].
Qed.

Lemma under_skb i x : (i < 8)%nat -> under (skb_mask i) (skb i x).
Proof.
  intros Hi. destruct (skb_tables i Hi) as [H _]. unfold skb, get. rewrite nth_lookup.
  destruct (nth i des_skb [] !! Z.to_nat x) as [v|] eqn:E; simpl; [|unfold under; apply Z.land_0_l].
  assert (Hl : length (nth i des_skb []) = 64%nat) by (do 8 (destruct i as [|i]; [done|]); lia).
  pose proof (lookup_lt_Some _ _ _ E) as Hlt.
  specialize (H (Z.of_nat (Z.to_nat x)) ltac:(unfold word; lia)). unfold skb, get in H.
  rewrite Nat2Z.id, nth_lookup, E in H. apply H.
Qed.
Opaque skb.
#[export] Hint Resolve under_skb : under.
#[export] Hint Extern 2 (_ < _)%nat => lia : under.

(** *** The round keys are linear in the rotated halves *)

Lemma linear_narrow {n m} k f : 0 <= k -> (forall x, word n x -> word k (f x)) -> LinearOn n m f -> LinearOn n k f.
Proof. intros Hk Hw H. split; [apply (linear_dom (f := f))|done|done|apply linear_lxor]. Qed.

Lemma linear_widen n m : 0 <= n <= m -> LinearOn n m (fun x => x).
Proof. intros H. split; [lia|lia| |done]. intros a Ha. eapply word_mono; [|done]. done. Qed.

Lemma linear_lor_of {n m} f g : LinearOn n m f -> LinearOn n m g ->
  (forall x, word n x -> Z.land (f x) (g x) = 0) -> LinearOn n m (fun x => Z.lor (f x) (g x)).
Proof. intros. by apply linear_lor. Qed.

Ltac linear_or :=
  repeat first
    [ assumption | apply linear_widen; lia | apply linear_land | apply linear_shiftr; [|lia] | apply linear_cshl
    | apply linear_lor_of; [| |intros; disjoint] ].

Ltac six_bits :=
  intros; repeat apply word_lor; try lia; (rewrite Z.land_comm; apply word_land; [lia|unfold word; lia]).

Ltac linear_index := apply (linear_narrow (m := 32) 6); [lia|six_bits|linear_or].

Lemma linear_skb_of i f : (i < 8)%nat -> LinearOn 28 6 f -> LinearOn 28 32 (fun c => skb i (f c)).
Proof. intros Hi Hf. pose proof (linear_skb i Hi). exact (linear_compose (m := 6) (skb i) f). Qed.

Ltac linear_round :=
  repeat first [apply linear_skb_of; [lia|linear_index] | apply linear_lor_of; [| |intros; disjoint]].

Lemma linear_round_s : LinearOn 28 32 round_s.
Proof. unfold round_s. linear_round. Qed.

Lemma linear_round_t : LinearOn 28 32 round_t.
Proof. unfold round_t. linear_round. Qed.

(** The two words of a round as functions of the 56 rotated key bits. *)
Definition key0 (y : Z) : Z :=
  Z.land (ROTATE (Z.land (Z.lor (cshl 32 (round_t (hi 28 y)) 16) (Z.land (round_s (lo 28 y)) 0x0000ffff)) 0xffffffff) 30)
    0xffffffff.
Definition key1 (y : Z) : Z :=
  Z.land (ROTATE (Z.lor (Z.shiftr (round_s (lo 28 y)) 16) (Z.land (round_t (hi 28 y)) 0xffff0000)) 26) 0xffffffff.

Lemma linear_rotate_of {n} k f : 0 <= k <= 32 -> LinearOn n 32 f -> LinearOn n 32 (fun x => ROTATE (f x) k).
Proof. intros Hk Hf. pose proof (linear_ROTATE k Hk). exact (linear_compose (m := 32) (fun a => ROTATE a k) f). Qed.

Lemma linear_keys : LinearOn 56 32 key0 /\ LinearOn 56 32 key1.
Proof.
  assert (Hs : LinearOn 56 32 (fun y => round_s (lo 28 y))).
  { pose proof linear_round_s. pose proof (linear_lo 28 ltac:(lia)). exact (linear_compose (m := 28) round_s (lo 28)). }
  assert (Ht : LinearOn 56 32 (fun y => round_t (hi 28 y))).
  { pose proof linear_round_t. pose proof (linear_hi 28 ltac:(lia)). exact (linear_compose (m := 28) round_t (hi 28)). }
  assert (Hw : forall y, word 56 y -> is_u32 (round_s (lo 28 y)) /\ is_u32 (round_t (hi 28 y))).
  { intros y Hy. split; [by apply (linear_word (f := fun y => round_s (lo 28 y)))|
      by apply (linear_word (f := fun y => round_t (hi 28 y)))]. }
  assert (Hd : forall y, word 56 y ->
    Z.land (cshl 32 (round_t (hi 28 y)) 16) (Z.land (round_s (lo 28 y)) 0x0000ffff) = 0 /\
    Z.land (Z.shiftr (round_s (lo 28 y)) 16) (Z.land (round_t (hi 28 y)) 0xffff0000) = 0).
  { intros y Hy. destruct (Hw y Hy). split; disjoint. }
  unfold key0, key1. split; apply linear_land; (apply linear_rotate_of; [lia|]).
  - apply linear_land. apply linear_lor_of; [linear_or..|]. intros y Hy. by apply Hd.
  - apply linear_lor_of; [linear_or..|]. intros y Hy. by apply Hd.
Qed.

Definition key_ps : list Z := zs (seq 0 56).

Lemma sel_flat_map {A} y (g : A -> list Z) l : sel y (flat_map g l) = flat_map (fun i => sel y (g i)) l.
Proof. induction l as [|i l IH]; [done|]. cbn [flat_map]. by rewrite sel_app, IH. Qed.

Lemma flat_map_ext_in {A B} (f g : A -> list B) l : (forall i, In i l -> f i = g i) -> flat_map f l = flat_map g l.
Proof. intros H. rewrite !flat_map_concat_map. f_equal. by apply map_ext_in. Qed.

Lemma key_bits y ks : word 56 y ->
  subkey (key0 y :: key1 y :: ks) 0 = Fips.permute Fips.PC2 (sel y key_ps).
Proof.
  intros Hy. destruct linear_keys as [H0 H1]. rewrite permute_sel by (vm_compute; done).
  set (ps := map _ Fips.PC2). set (g i := take 6 (drop (6 * i) ps)).
  assert (E : ps = flat_map g (seq 0 8)) by (vm_compute; done).
  assert (Hsel : forallb (fun i => selects 56 (if Nat.even i then key0 else key1) (box_ps i) (g i)) (seq 0 8) = true)
    by (vm_compute; done).
  rewrite E, sel_flat_map. apply flat_map_ext_in. intros i Hi. rewrite forallb_forall in Hsel. specialize (Hsel i Hi).
  destruct (Nat.even i); [exact (linear_select key0 _ _ Hsel y Hy)|exact (linear_select key1 _ _ Hsel y Hy)].
Qed.

Lemma round_key_eq c d : word 28 c -> word 28 d ->
  key0 (wide 28 (c, d)) = Z.land (ROTATE (Z.land (Z.lor (cshl 32 (round_t d) 16) (Z.land (round_s c) 0x0000ffff)) 0xffffffff) 30)
    0xffffffff /\
  key1 (wide 28 (c, d)) = Z.land (ROTATE (Z.lor (Z.shiftr (round_s c) 16) (Z.land (round_t d) 0xffff0000)) 26) 0xffffffff.
Proof. intros Hc Hd. unfold key0, key1. rewrite lo_wide, hi_wide by (lia || done). done. Qed.

(** *** The rotations *)

Definition c_ps : list Z := zs (seq 0 28).
Definition rot_count (sh : Z) : nat := if sh =? 0 then 1%nat else 2%nat.

Lemma linear_rot28 sh : LinearOn 28 28 (rot28 sh).
Proof.
  apply (linear_narrow (m := 32) 28); [lia| |].
  - intros c _. unfold rot28. rewrite Z.land_comm. apply word_land; [lia|unfold word; lia].
  - unfold rot28. destruct (sh =? 0); cbn [negb]; apply linear_land;
      (apply linear_lor_of; [linear_or..|]); intros c Hc; disjoint.
Qed.

Lemma rot28_bits sh c : word 28 c ->
  word 28 (rot28 sh c) /\ sel (rot28 sh c) c_ps = Fips.rotl (rot_count sh) (sel c c_ps).
Proof.
  intros Hc. pose proof (linear_rot28 sh) as Hl. split; [by apply linear_word|].
  unfold Fips.rotl. rewrite take_sel, drop_sel, <-sel_app.
  refine (linear_select (rot28 sh) _ _ _ c Hc).
  unfold rot28, rot_count. destruct (sh =? 0); vm_compute; done.
Qed.

Lemma schedule_bits shifts : forall c d, word 28 c -> word 28 d ->
  map (subkey (schedule_loop shifts c d)) (map (Nat.mul 2) (seq 0 (length shifts))) =
  Fips.keys (map rot_count shifts) (sel c c_ps) (sel d c_ps).
Proof.
  induction shifts as [|sh shifts IH]; intros c d Hc Hd; [done|].
  destruct (rot28_bits sh c Hc) as [Hc' Ec], (rot28_bits sh d Hd) as [Hd' Ed].
  destruct (round_key_eq (rot28 sh c) (rot28 sh d) Hc' Hd') as [E0 E1].
  pose proof (wide_word 28 (rot28 sh c, rot28 sh d) ltac:(lia) Hc' Hd') as Hw.
  cbn [schedule_loop length seq map Fips.keys]. cbv zeta. rewrite <-E0, <-E1, <-Ec, <-Ed. f_equal.
  - change (2 * 0)%nat with 0%nat. rewrite key_bits by done. f_equal.
    change key_ps with (c_ps ++ map (Z.add 28) c_ps).
    by rewrite sel_app, sel_wide_hi, sel_wide_lo by (done || lia).
  - rewrite <-IH by done. rewrite <-seq_shift, !map_map. apply map_ext. intros n.
    replace (2 * S n)%nat with (S (S (2 * n))) by lia. reflexivity.
Qed.

(** *** PC1 *)

Definition HPERM (n m : Z) (a : Z) : Z := HPERM_OP a n m.

Lemma linear_HPERM {k} n m f : 0 <= 16 - n -> LinearOn k 32 f -> LinearOn k 32 (fun x => HPERM n m (f x)).
Proof. intros Hn Hf. unfold HPERM, HPERM_OP. linear. Qed.

Definition on1 (f : Z -> Z) (d : block) : block := (f d.1, d.2).

Lemma linear_on1 {k} n m p : 0 <= 16 - n -> LinearPair (n := k) p -> LinearPair (n := k) (fun x => on1 (HPERM n m) (p x)).
Proof. intros Hn [H1 H2]. split; [|done]. unfold on1. cbn [fst]. by apply linear_HPERM. Qed.

(** The exchanges of PC1, before the halves are cut to 28 bits. *)
Definition pc1_perm (x : Z) : block :=
  swp (perm 1 0x55555555 (swp (perm 8 0x00ff00ff (swp (perm 1 0x55555555
    (on1 (HPERM (-2) 0xcccc0000) (swp (on1 (HPERM (-2) 0xcccc0000) (swp (perm 4 0x0f0f0f0f (swp (split64 x)))))))))))).

Definition pc1_c (p : block) : Z := Z.land p.1 0x0fffffff.
Definition pc1_d (p : block) : Z :=
  Z.lor (Z.lor (Z.lor (cshl 32 (Z.land p.2 0x000000ff) 16) (Z.land p.2 0x0000ff00))
    (Z.shiftr (Z.land p.2 0x00ff0000) 16)) (Z.shiftr (Z.land p.1 0xf0000000) 4).

Lemma pc1_eq d : is_block d -> pc1 d.1 d.2 = (pc1_c (pc1_perm (wide 32 d)), pc1_d (pc1_perm (wide 32 d))).
Proof.
  intros Hd. unfold pc1_perm. rewrite split64_wide by done. unfold pc1, perm, on1, HPERM, pc1_c, pc1_d.
  cbn [swp fst snd].
  repeat match goal with |- context [PERM_OP ?a ?b ?n ?m] => destruct (PERM_OP a b n m); cbn [swp fst snd] end. done.
Qed.

Lemma linear_pc1 : LinearOn 64 28 (fun x => pc1_c (pc1_perm x)) /\ LinearOn 64 28 (fun x => pc1_d (pc1_perm x)).
Proof.
  assert (H : LinearPair (n := 64) pc1_perm).
  { unfold pc1_perm. repeat first [apply linear_split64 | apply linear_swp | apply linear_on1; [lia|] | apply linear_perm; [lia|]]. }
  destruct H as [H1 H2]. split; apply (linear_narrow (m := 32) 28); try lia; unfold pc1_c, pc1_d.
  - intros x _. rewrite Z.land_comm. apply word_land; [lia|unfold word; lia].
  - by apply linear_land.
  - intros x _. apply (word_of_under 0x0fffffff); [lia|unfold word; lia|].
    change 0x0fffffff with (Z.lor (Z.lor (Z.lor (cshl 32 0xff 16) 0xff00) (Z.shiftr 0xff0000 16)) (Z.shiftr 0xf0000000 4)).
    auto 12 with under.
  - linear_or.
Qed.

Lemma pc1_bits d : is_block d ->
  word 28 (pc1 d.1 d.2).1 /\ word 28 (pc1 d.1 d.2).2 /\
  Fips.permute Fips.PC1 (sel (wide 32 d) (bytes_ps 8)) = sel (pc1 d.1 d.2).1 c_ps ++ sel (pc1 d.1 d.2).2 c_ps.
Proof.
  intros Hd. rewrite pc1_eq by done. cbn [fst snd]. destruct linear_pc1 as [H1 H2].
  pose proof (wide_word 32 d ltac:(lia) (proj1 Hd) (proj2 Hd)) as Hw.
  split; [by apply (linear_word (f := fun x => pc1_c (pc1_perm x)))|].
  split; [by apply (linear_word (f := fun x => pc1_d (pc1_perm x)))|].
  rewrite permute_sel by (vm_compute; done). set (ps := map _ Fips.PC1).
  rewrite <-(take_drop 28 ps), sel_app. symmetry. f_equal.
  - exact (linear_select (n := 64) (m := 28) (fun x => pc1_c (pc1_perm x)) c_ps (take 28 ps) ltac:(vm_compute; done) _ Hw).
  - exact (linear_select (n := 64) (m := 28) (fun x => pc1_d (pc1_perm x)) c_ps (drop 28 ps) ltac:(vm_compute; done) _ Hw).
Qed.

Lemma length_sel x ps : length (sel x ps) = length ps.
Proof. apply length_map. Qed.

(** The schedule [des_set_key] stores holds the keys of the standard. *)
Lemma des_set_key_bits d : is_block d ->
  exists ks, des_set_key false (blk d) = Ret (0, ks) /\ Forall is_u32 ks /\
    map (subkey ks) enc_order = Fips.KS (Fips.of_bytes (blk d)).
Proof.
  intros Hd. destruct (c2l_blk d [] Hd) as [E1 E2]. rewrite !app_nil_r in *.
  destruct (pc1_bits d Hd) as (Hc & Hc' & Hp).
  exists (schedule_loop shifts2 (pc1 d.1 d.2).1 (pc1 d.1 d.2).2). split_and!.
  - unfold des_set_key. cbn [andb]. rewrite E1, E2. by destruct (pc1 _ _).
  - apply schedule_loop_words.
  - unfold Fips.KS. rewrite of_bytes_blk, Hp by done. cbv zeta.
    rewrite take_app_length', drop_app_length' by (by rewrite length_sel).
    change enc_order with (map (Nat.mul 2) (seq 0 (length shifts2))). by rewrite schedule_bits.
Qed.

(** Both orders of the rounds, on the words of a block. *)
Lemma des_encrypt_bits d ks enc : is_block d -> Forall is_u32 ks ->
  Fips.of_bytes (blk (des_encrypt d ks enc)) =
  Fips.crypt (if enc then map (subkey ks) enc_order else rev (map (subkey ks) enc_order)) (Fips.of_bytes (blk d)).
Proof.
  intros Hd Hks. unfold Fips.crypt. rewrite !of_bytes_blk by (done || by apply des_encrypt_block).
  rewrite start_bits by done. cbv zeta.
  rewrite take_app_length', drop_app_length' by (unfold half; by rewrite length_sel).
  replace (if enc then _ else _) with (map (subkey ks) (order enc)) by (destruct enc; [done|by rewrite <-map_rev]).
  pose proof (wide_word 32 d ltac:(lia) (proj1 Hd) (proj2 Hd)) as Hw64. destruct linear_start as [L1 L2].
  assert (Hs : is_block (start (wide 32 d))).
  { split; [by apply (linear_word (f := fun x => (start x).1))|by apply (linear_word (f := fun x => (start x).2))]. }
  rewrite rounds_bits by (done || apply Hs || by destruct enc; exists 8%nat).
  assert (Hb : is_block (rounds (start (wide 32 d)).2 (start (wide 32 d)).1 ks (order enc))) by (by apply rounds_word; apply Hs).
  destruct (rounds _ _ _ _) as [l' r'] eqn:Er. cbn [fst snd].
  rewrite finish_bits by done.
  assert (E : des_encrypt d ks enc = finish (wide 32 (l', r'))).
  { unfold finish. rewrite split64_wide by done. cbv zeta. cbn [fst snd]. rewrite des_encrypt_eq. f_equal.
    unfold start in Er. rewrite split64_wide in Er by done. cbv zeta in Er. cbn [fst snd] in Er.
    unfold des_encrypt2. fold (order enc). destruct (IP_block d) as [r l]. cbn [fst snd] in Er.
    rewrite !land_u32 by apply ROTATE_word. rewrite Er. by rewrite !land_u32 by apply ROTATE_word. }
  rewrite E. pose proof (des_encrypt_block d ks enc Hd) as Hout. rewrite E in Hout.
  change (bytes_ps 8) with (bytes_ps 4 ++ map (Z.add 32) (bytes_ps 4)).
  by rewrite sel_app, sel_wide_hi, sel_wide_lo by (done || apply Hout).
Qed.

(** The same, for the modules that use the cipher. *)
Lemma ecb_fips key input enc :
  length key = 8%nat -> Forall is_byte key -> length input = 8%nat -> Forall is_byte input ->
  exists ks out, des_set_key false key = Ret (0, ks) /\ des_ecb_encrypt input ks enc = Ret out /\
    length out = 8%nat /\ Forall is_byte out /\
    Fips.of_bytes out = Fips.des (Fips.of_bytes key) (Fips.of_bytes input) enc.
Proof.
  intros Hk Hkb Hi Hib. destruct (blk_surj key Hk Hkb) as (k & Hkw & <-). destruct (blk_surj input Hi Hib) as (d & Hd & <-).
  destruct (des_set_key_bits k Hkw) as (ks & E & Hw & Hks).
  exists ks, (blk (des_encrypt d ks enc)). split_and!; [done|by apply des_ecb_encrypt_blk|apply length_blk|apply blk_bytes|].
  rewrite des_encrypt_bits by done. unfold Fips.des. by rewrite <-Hks.
Qed.

(** C1 ([des_set_key], [des_ecb_encrypt]).  For every key and block the
    code computes the Data Encryption Standard: with the schedule set from
    the key, encryption gives the bits the standard's cipher gives, and
    decryption those of the cipher with the round keys in reverse order. *)
Theorem des_is_fips46 key input enc :
  length key = 8%nat -> Forall is_byte key -> length input = 8%nat -> Forall is_byte input ->
  exists ks out, des_set_key false key = Ret (0, ks) /\ des_ecb_encrypt input ks enc = Ret out /\
    Fips.of_bytes out = Fips.des (Fips.of_bytes key) (Fips.of_bytes input) enc.
Proof.
  intros Hk Hkb Hi Hib. destruct (ecb_fips key input enc Hk Hkb Hi Hib) as (ks & out & E1 & E2 & _ & _ & E3).
  by exists ks, out.
Qed.

Theorem des_is_fips46_witness : exists ks out,
  des_set_key false (repeat 0x57 8) = Ret (0, ks) /\ des_ecb_encrypt (repeat 3 8) ks false = Ret out /\
    Fips.of_bytes out = Fips.des (Fips.of_bytes (repeat 0x57 8)) (Fips.of_bytes (repeat 3 8)) false.
Proof. refine (des_is_fips46 (repeat 0x57 8) (repeat 3 8) false eq_refl _ eq_refl _); by apply words_check. Defined.
