(* ===== verification/DesModes.v ===== *)
(** * Modes of operation of libdes (src/apps/libdes-4.04b)

    Cipher block chaining (cbc_enc.c, the two CBC routines of des_enc.c), its
    propagating variant (pcbc_enc.c), DESX (xcbc_enc.c), the checksum of
    cbc_cksm.c, triple DES blocks (ecb3_enc.c), the 64-bit cipher and output
    feedback modes for single and triple DES, and the key derivation of
    str2key.c.  The theorems use a block cipher through the class
    [BlockCipher] of Des.  Input and output are separate lists of bytes; a
    routine that updates its [ivec] returns the new one with its output.
    Lengths are natural numbers: the source's loops do not end for negative
    ones in the feedback modes. *)

From S2P Require Import Prelude CMem Linear Crc Des.

(** ** Chained modes

    The block loops of the chained modes differ in the body only: [step]
    takes the chaining value and an input block to the output block and the
    next chaining value.  [n] whole blocks are followed by one of [part]
    bytes when [part] is not 0: the encryption pads it with zeros and writes
    eight bytes, the decryption reads eight bytes and writes [part]. *)

Section Chain.
Context (step : block -> block -> block * block).

Fixpoint chain_enc (n part : nat) (c : list Z) (iv : block) {struct n} : outcome (list Z * block) :=
  match n with
  | S n =>
      let! (tin0, c) := c2l c in
      let! (tin1, c) := c2l c in
      let '(tout, iv) := step iv (tin0, tin1) in
      let! (out, iv) := chain_enc n part c iv in
      Ret (l2c tout.1 ++ l2c tout.2 ++ out, iv)
  | O =>
      if (part =? 0)%nat then Ret ([], iv)
      else if (length c <? part)%nat then Err Fault
      else
        let '(tout, iv) := step iv (c2ln c part) in
        Ret (l2c tout.1 ++ l2c tout.2, iv)
  end.

Fixpoint chain_dec (n part : nat) (c : list Z) (iv : block) {struct n} : outcome (list Z * block) :=
  match n with
  | S n =>
      let! (tin0, c) := c2l c in
      let! (tin1, c) := c2l c in
      let '(tout, iv) := step iv (tin0, tin1) in
      let! (out, iv) := chain_dec n part c iv in
      Ret (l2c tout.1 ++ l2c tout.2 ++ out, iv)
  | O =>
      if (part =? 0)%nat then Ret ([], iv)
      else
        let! (tin0, c) := c2l c in
        let! (tin1, c) := c2l c in
        let '(tout, iv) := step iv (tin0, tin1) in
        Ret (l2cn tout.1 tout.2 part, iv)
  end.
End Chain.

Definition xorb2 (a b : block) : block := (Z.lxor a.1 b.1, Z.lxor a.2 b.2).

(** [for (l-=8; l>=0; l-=8)] and the tail of [l+8] bytes. *)
Definition whole (length : nat) : nat := (length / 8)%nat.
Definition tail (length : nat) : nat := (length mod 8)%nat.

Definition load_iv (ivec : list Z) : outcome block :=
  let! (v0, iv) := c2l ivec in
  let! (v1, _) := c2l iv in
  Ret (v0, v1).
Definition store_iv (iv : block) : list Z := l2c iv.1 ++ l2c iv.2.

Definition cbc_enc_step (f : block -> block) (tout tin : block) : block * block :=
  let tout := f (xorb2 tin tout) in (tout, tout).
Definition cbc_dec_step (g : block -> block) (xor tin : block) : block * block :=
  let tout := xorb2 (g tin) xor in (tout, tin).

Definition des_ncbc_encrypt (input : list Z) (length : nat) (schedule ivec : list Z) (enc : bool) :
    outcome (list Z * list Z) :=
  let! iv := load_iv ivec in
  let! (out, iv) :=
    (if enc then chain_enc (cbc_enc_step (fun d => des_encrypt d schedule true)) (whole length) (tail length) input iv
     else chain_dec (cbc_dec_step (fun d => des_encrypt d schedule false)) (whole length) (tail length) input iv) in
  Ret (out, store_iv iv).

(** Leaves [ivec] alone. *)
Definition des_cbc_encrypt (input : list Z) (length : nat) (schedule ivec : list Z) (enc : bool) : outcome (list Z) :=
  let! iv := load_iv ivec in
  let! (out, _) :=
    (if enc then chain_enc (cbc_enc_step (fun d => des_encrypt d schedule true)) (whole length) (tail length) input iv
     else chain_dec (cbc_dec_step (fun d => des_encrypt d schedule false)) (whole length) (tail length) input iv) in
  Ret out.

Definition des_ede3_cbc_encrypt (input : list Z) (length : nat) (ks1 ks2 ks3 ivec : list Z) (enc : bool) :
    outcome (list Z * list Z) :=
  let! iv := load_iv ivec in
  let! (out, iv) :=
    (if enc then chain_enc (cbc_enc_step (fun d => des_encrypt3 d ks1 ks2 ks3)) (whole length) (tail length) input iv
     else chain_dec (cbc_dec_step (fun d => des_decrypt3 d ks1 ks2 ks3)) (whole length) (tail length) input iv) in
  Ret (out, store_iv iv).

Definition pcbc_enc_step (f : block -> block) (xor sin : block) : block * block :=
  let tout := f (xorb2 sin xor) in (tout, xorb2 sin tout).
Definition pcbc_dec_step (g : block -> block) (xor sin : block) : block * block :=
  let tout := xorb2 (g sin) xor in (tout, xorb2 tout sin).

Definition des_pcbc_encrypt (input : list Z) (length : nat) (schedule ivec : list Z) (enc : bool) : outcome (list Z) :=
  let! iv := load_iv ivec in
  let! (out, _) :=
    (if enc then chain_enc (pcbc_enc_step (fun d => des_encrypt d schedule true)) (whole length) (tail length) input iv
     else chain_dec (pcbc_dec_step (fun d => des_encrypt d schedule false)) (whole length) (tail length) input iv) in
  Ret out.

Definition xcbc_enc_step (f : block -> block) (inW outW tout tin : block) : block * block :=
  let tout := xorb2 (f (xorb2 tin (xorb2 tout inW))) outW in (tout, tout).
Definition xcbc_dec_step (g : block -> block) (inW outW xor tin : block) : block * block :=
  let tout := xorb2 (xorb2 (g (xorb2 tin outW)) xor) inW in (tout, tin).

(** The decryption's loop has [l>0]: its tail is 1 to 8 bytes. *)
Definition des_xcbc_encrypt (input : list Z) (length : nat) (schedule ivec inw outw : list Z) (enc : bool) :
    outcome (list Z * list Z) :=
  let! inW := load_iv inw in
  let! outW := load_iv outw in
  let! iv := load_iv ivec in
  let! (out, iv) :=
    (if enc then
       chain_enc (xcbc_enc_step (fun d => des_encrypt d schedule true) inW outW) (whole length) (tail length) input iv
     else
       chain_dec (xcbc_dec_step (fun d => des_encrypt d schedule false) inW outW) ((length - 1) / 8)
         (length - 8 * ((length - 1) / 8)) input iv) in
  Ret (out, store_iv iv).

(** The checksum and the returned word. *)
Definition des_cbc_cksum (input : list Z) (length : nat) (schedule ivec : list Z) : outcome (list Z * Z) :=
  let! iv := load_iv ivec in
  let! (_, tout) := chain_enc (cbc_enc_step (fun d => des_encrypt d schedule true)) (whole length) (tail length) input iv in
  Ret (store_iv tout, tout.2).

Definition des_ecb3_encrypt (input ks1 ks2 ks3 : list Z) (enc : bool) : outcome (list Z) :=
  let! (l0, c) := c2l input in
  let! (l1, _) := c2l c in
  let ll := (if enc then des_encrypt3 (l0, l1) ks1 ks2 ks3 else des_decrypt3 (l0, l1) ks1 ks2 ks3) in
  Ret (l2c ll.1 ++ l2c ll.2).

Definition desx_white_in2out : list Z := [
  0xBD; 0x56; 0xEA; 0xF2; 0xA2; 0xF1; 0xAC; 0x2A; 0xB0; 0x93; 0xD1; 0x9C; 0x1B; 0x33; 0xFD; 0xD0;
  0x30; 0x04; 0xB6; 0xDC; 0x7D; 0xDF; 0x32; 0x4B; 0xF7; 0xCB; 0x45; 0x9B; 0x31; 0xBB; 0x21; 0x5A;
  0x41; 0x9F; 0xE1; 0xD9; 0x4A; 0x4D; 0x9E; 0xDA; 0xA0; 0x68; 0x2C; 0xC3; 0x27; 0x5F; 0x80; 0x36;
  0x3E; 0xEE; 0xFB; 0x95; 0x1A; 0xFE; 0xCE; 0xA8; 0x34; 0xA9; 0x13; 0xF0; 0xA6; 0x3F; 0xD8; 0x0C;
  0x78; 0x24; 0xAF; 0x23; 0x52; 0xC1; 0x67; 0x17; 0xF5; 0x66; 0x90; 0xE7; 0xE8; 0x07; 0xB8; 0x60;
  0x48; 0xE6; 0x1E; 0x53; 0xF3; 0x92; 0xA4; 0x72; 0x8C; 0x08; 0x15; 0x6E; 0x86; 0x00; 0x84; 0xFA;
  0xF4; 0x7F; 0x8A; 0x42; 0x19; 0xF6; 0xDB; 0xCD; 0x14; 0x8D; 0x50; 0x12; 0xBA; 0x3C; 0x06; 0x4E;
  0xEC; 0xB3; 0x35; 0x11; 0xA1; 0x88; 0x8E; 0x2B; 0x94; 0x99; 0xB7; 0x71; 0x74; 0xD3; 0xE4; 0xBF;
  0x3A; 0xDE; 0x96; 0x0E; 0xBC; 0x0A; 0xED; 0x77; 0xFC; 0x37; 0x6B; 0x03; 0x79; 0x89; 0x62; 0xC6;
  0xD7; 0xC0; 0xD2; 0x7C; 0x6A; 0x8B; 0x22; 0xA3; 0x5B; 0x05; 0x5D; 0x02; 0x75; 0xD5; 0x61; 0xE3;
  0x18; 0x8F; 0x55; 0x51; 0xAD; 0x1F; 0x0B; 0x5E; 0x85; 0xE5; 0xC2; 0x57; 0x63; 0xCA; 0x3D; 0x6C;
  0xB4; 0xC5; 0xCC; 0x70; 0xB2; 0x91; 0x59; 0x0D; 0x47; 0x20; 0xC8; 0x4F; 0x58; 0xE0; 0x01; 0xE2;
  0x16; 0x38; 0xC4; 0x6F; 0x3B; 0x0F; 0x65; 0x46; 0xBE; 0x7E; 0x2D; 0x7B; 0x82; 0xF9; 0x40; 0xB5;
  0x1D; 0x73; 0xF8; 0xEB; 0x26; 0xC7; 0x87; 0x97; 0x25; 0x54; 0xB1; 0x28; 0xAA; 0x98; 0x9D; 0xA5;
  0x64; 0x6D; 0x7A; 0xD4; 0x10; 0x81; 0x44; 0xEF; 0x49; 0xD6; 0xAE; 0x2E; 0xDD; 0x76; 0x5C; 0x2F;
  0xA7; 0x1C; 0xC9; 0x09; 0x69; 0x9A; 0x83; 0xCF; 0x29; 0x39; 0xB9; 0xE9; 0x4C; 0xFF; 0x43; 0xAB
].

(** [out[i]=key[i]^desx_white_in2out[out0^out1]] and the two values carried on. *)
Fixpoint xwhite_loop (ixs : list nat) (src out : list Z) (out0 out1 : Z) {struct ixs} : outcome (list Z * Z * Z) :=
  match ixs with
  | [] => Ret (out, out0, out1)
  | i :: ixs =>
      let! x := load src i in
      let! out := store out i (Z.lxor x (get desx_white_in2out (Z.lxor out0 out1))) in
      let! o := load out (Nat.land i 7) in
      xwhite_loop ixs src out out1 o
  end.

(** [out] is the memory from [out_white] on. *)
Definition des_xwhite_in2out (des_key in_white out : list Z) : outcome (list Z) :=
  let out := list_inserts 0 (repeat 0 8) out in
  let! (out, _, _) := xwhite_loop (seq 0 8) des_key out 0 0 in
  let! out0 := load out 0 in
  let! out1 := load out 8 in
  let! (out, _, _) := xwhite_loop (seq 0 8) in_white out out0 out1 in
  Ret out.

(** ** Feedback modes

    [iv] is the array of eight bytes the caller keeps, [n] the number of its
    bytes already used. *)

Section Feedback.
Context (f : block -> block).

(** [if (n == 0)]: encrypts the register in place. *)
Definition refill (iv : list Z) (n : nat) : outcome (list Z) :=
  if (n =? 0)%nat then
    let! (v0, c) := c2l iv in
    let! (v1, _) := c2l c in
    let ti := f (v0, v1) in
    Ret (l2c ti.1 ++ l2c ti.2)
  else Ret iv.

Definition next_n (n : nat) : nat := Nat.land (n + 1) 7.

Fixpoint cfb64_enc (inp iv : list Z) (n : nat) {struct inp} : outcome (list Z * (list Z * nat)) :=
  match inp with
  | [] => Ret ([], (iv, n))
  | x :: inp =>
      let! iv := refill iv n in
      let! k := load iv n in
      let c := Z.lxor x k in
      let! iv := store iv n c in
      let! (out, st) := cfb64_enc inp iv (next_n n) in
      Ret (c :: out, st)
  end.

Fixpoint cfb64_dec (inp iv : list Z) (n : nat) {struct inp} : outcome (list Z * (list Z * nat)) :=
  match inp with
  | [] => Ret ([], (iv, n))
  | cc :: inp =>
      let! iv := refill iv n in
      let! c := load iv n in
      let! iv := store iv n cc in
      let! (out, st) := cfb64_dec inp iv (next_n n) in
      Ret (Z.lxor c cc :: out, st)
  end.

(** [d] holds the bytes of [ti]; [save] is set when [ti] changed. *)
Fixpoint ofb64_loop (inp : list Z) (ti : block) (d : list Z) (n : nat) (save : bool) {struct inp} :
    outcome (list Z * (block * nat * bool)) :=
  match inp with
  | [] => Ret ([], (ti, n, save))
  | x :: inp =>
      let '(ti, d, save) :=
        if (n =? 0)%nat then let ti := f ti in (ti, l2c ti.1 ++ l2c ti.2, true) else (ti, d, save) in
      let! k := load d n in
      let! (out, st) := ofb64_loop inp ti d (next_n n) save in
      Ret (Z.lxor x k :: out, st)
  end.

Definition ofb64 (inp iv : list Z) (n : nat) : outcome (list Z * (list Z * nat)) :=
  let! (v0, c) := c2l iv in
  let! (v1, _) := c2l c in
  let! (out, (ti, n, save)) := ofb64_loop inp (v0, v1) (l2c v0 ++ l2c v1) n false in
  Ret (out, (if save : bool then l2c ti.1 ++ l2c ti.2 else iv, n)).
End Feedback.

Definition des_cfb64_encrypt (inp schedule ivec : list Z) (num : nat) (enc : bool) :=
  if enc then cfb64_enc (fun d => des_encrypt d schedule true) inp ivec num
  else cfb64_dec (fun d => des_encrypt d schedule true) inp ivec num.

Definition des_ede3_cfb64_encrypt (inp ks1 ks2 ks3 ivec : list Z) (num : nat) (enc : bool) :=
  if enc then cfb64_enc (fun d => des_encrypt3 d ks1 ks2 ks3) inp ivec num
  else cfb64_dec (fun d => des_encrypt3 d ks1 ks2 ks3) inp ivec num.

Definition des_ofb64_encrypt (inp schedule ivec : list Z) (num : nat) :=
  ofb64 (fun d => des_encrypt d schedule true) inp ivec num.

Definition des_ede3_ofb64_encrypt (inp k1 k2 k3 ivec : list Z) (num : nat) :=
  ofb64 (fun d => des_encrypt3 d k1 k2 k3) inp ivec num.

(** ** Keys from strings *)

(** Exchanges nibbles, pairs and neighbours. *)
Definition rev8 (j : Z) : Z :=
  let j := Z.lor (Z.land (u8 (Z.shiftl j 4)) 0xf0) (Z.land (Z.shiftr j 4) 0x0f) in
  let j := Z.lor (Z.land (u8 (Z.shiftl j 2)) 0xcc) (Z.land (Z.shiftr j 2) 0x33) in
  Z.lor (Z.land (u8 (Z.shiftl j 1)) 0xaa) (Z.land (Z.shiftr j 1) 0x55).

Definition xor_at (key : list Z) (i : nat) (v : Z) : list Z := <[i := Z.lxor (nth i key 0) (u8 v)]> key.

Fixpoint s2k_loop (str key : list Z) (i : nat) {struct str} : list Z :=
  match str with
  | [] => key
  | j :: str =>
      let key :=
        if (i mod 16 <? 8)%nat then xor_at key (i mod 8) (Z.shiftl j 1)
        else xor_at key (7 - i mod 8) (rev8 j) in
      s2k_loop str key (S i)
  end.

(** The key is parity-adjusted, used to checksum the string and replaced by
    the checksum. *)
Definition des_string_to_key (str : list Z) : outcome (list Z) :=
  let key := des_set_odd_parity (s2k_loop str (repeat 0 8) 0) in
  let! (_, ks) := des_set_key false key in
  let! (key, _) := des_cbc_cksum str (length str) ks key in
  Ret (des_set_odd_parity key).

Fixpoint s2k2_loop (str key1 key2 : list Z) (i : nat) {struct str} : list Z * list Z :=
  match str with
  | [] => (key1, key2)
  | j :: str =>
      let '(key1, key2) :=
        if (i mod 32 <? 16)%nat then
          if (i mod 16 <? 8)%nat then (xor_at key1 (i mod 8) (Z.shiftl j 1), key2)
          else (key1, xor_at key2 (i mod 8) (Z.shiftl j 1))
        else
          if (i mod 16 <? 8)%nat then (xor_at key1 (7 - i mod 8) (rev8 j), key2)
          else (key1, xor_at key2 (7 - i mod 8) (rev8 j)) in
      s2k2_loop str key1 key2 (S i)
  end.

Definition des_string_to_2keys (str : list Z) : outcome (list Z * list Z) :=
  let '(key1, key2) := s2k2_loop str (repeat 0 8) (repeat 0 8) 0 in
  let key2 := if (length str <=? 8)%nat then key1 else key2 in
  let key1 := des_set_odd_parity key1 in
  let key2 := des_set_odd_parity key2 in
  let! (_, ks) := des_set_key false key1 in
  let! (key1, _) := des_cbc_cksum str (length str) ks key1 in
  let! (_, ks) := des_set_key false key2 in
  let! (key2, _) := des_cbc_cksum str (length str) ks key2 in
  Ret (des_set_odd_parity key1, des_set_odd_parity key2).

(** ** The vectors of destest.c *)

Module Destest.
Definition cbc_key := [0x01; 0x23; 0x45; 0x67; 0x89; 0xab; 0xcd; 0xef].
Definition cbc2_key := [0xf0; 0xe1; 0xd2; 0xc3; 0xb4; 0xa5; 0x96; 0x87].
Definition cbc3_key := [0xfe; 0xdc; 0xba; 0x98; 0x76; 0x54; 0x32; 0x10].
Definition cbc_iv := [0xfe; 0xdc; 0xba; 0x98; 0x76; 0x54; 0x32; 0x10].
Definition cbc_ok := [0xcc; 0xd1; 0x73; 0xff; 0xab; 0x20; 0x39; 0xf4; 0xac; 0xd8; 0xae; 0xfd; 0xdf; 
    0xd8; 0xa1; 0xeb; 0x46; 0x8e; 0x91; 0x15; 0x78; 0x88; 0xba; 0x68; 0x1d; 0x26; 0x93; 0x97; 0xf7; 
    0xfe; 0x62; 0xb4].
Definition xcbc_ok := [0x86; 0x74; 0x81; 0x0D; 0x61; 0xA4; 0xA5; 0x48; 0xB9; 0x93; 0x03; 0xE1; 0xB8; 
    0xBB; 0xBD; 0xBD; 0x64; 0x30; 0x0B; 0xB9; 0x06; 0x65; 0x81; 0x76; 0x04; 0x1D; 0x77; 0x62; 0x17; 
    0xCA; 0x2B; 0xD2].
Definition cbc3_ok := [0x3F; 0xE3; 0x01; 0xC9; 0x62; 0xAC; 0x01; 0xD0; 0x22; 0x13; 0x76; 0x3C; 0x1C; 
    0xBD; 0x4C; 0xDC; 0x79; 0x96; 0x57; 0xC0; 0x64; 0xEC; 0xF5; 0xD4; 0x1C; 0x67; 0x38; 0x12; 0xCF; 
    0xDE; 0x96; 0x75].
Definition pcbc_ok := [0xcc; 0xd1; 0x73; 0xff; 0xab; 0x20; 0x39; 0xf4; 0x6d; 0xec; 0xb4; 0x70; 0xa0; 
    0xe5; 0x6b; 0x15; 0xae; 0xa6; 0xbf; 0x61; 0xed; 0x7d; 0x9c; 0x9f; 0xf7; 0x17; 0x46; 0x3b; 0x8a; 
    0xb3; 0xcc; 0x88].
Definition plain := [0x4e; 0x6f; 0x77; 0x20; 0x69; 0x73; 0x20; 0x74; 0x68; 0x65; 0x20; 0x74; 0x69; 
    0x6d; 0x65; 0x20; 0x66; 0x6f; 0x72; 0x20; 0x61; 0x6c; 0x6c; 0x20].
Definition cfb_key := [0x01; 0x23; 0x45; 0x67; 0x89; 0xab; 0xcd; 0xef].
Definition cfb_iv := [0x12; 0x34; 0x56; 0x78; 0x90; 0xab; 0xcd; 0xef].
Definition cfb_cipher64 := [0xF3; 0x09; 0x62; 0x49; 0xC7; 0xF4; 0x6E; 0x51; 0xA6; 0x9E; 0x83; 0x9B; 
    0x1A; 0x92; 0xF7; 0x84; 0x03; 0x46; 0x71; 0x33; 0x89; 0x8E; 0xA6; 0x22].
Definition ofb_cipher := [0xf3; 0x09; 0x62; 0x49; 0xc7; 0xf4; 0x6e; 0x51; 0x35; 0xf2; 0x4a; 0x24; 
    0x2e; 0xeb; 0x3d; 0x3f; 0x3d; 0x6d; 0x5b; 0xe3; 0x25; 0x5a; 0xf8; 0xc3].
Definition cbc_cksum_data := [0x1D; 0x26; 0x93; 0x97; 0xf7; 0xfe; 0x62; 0xb4].
Definition cbc_data := [55; 54; 53; 52; 51; 50; 49; 32; 78; 111; 119; 32; 105; 115; 32; 116; 104; 
    101; 32; 116; 105; 109; 101; 32; 102; 111; 114; 32; 0; 49; 0; 0; 0; 0; 0; 0; 0; 0; 0; 0].

Definition ks := schedule_of cbc_key.
Definition cfb_ks := schedule_of cfb_key.
Definition out_of {B} (r : outcome (list Z * B)) : outcome (list Z) := let! (out, _) := r in Ret out.

Example cbc : out_of (des_ncbc_encrypt cbc_data 29 ks cbc_iv true) = Ret cbc_ok.
Proof. vm_compute. reflexivity. Qed.
Example xcbc : out_of (des_xcbc_encrypt cbc_data 29 ks cbc_iv cbc2_key cbc3_key true) = Ret xcbc_ok.
Proof. vm_compute. reflexivity. Qed.
Example cbc3 :
  (let! (o1, iv) := des_ede3_cbc_encrypt cbc_data 16 ks (schedule_of cbc2_key) (schedule_of cbc3_key) cbc_iv true in
   let! (o2, _) := des_ede3_cbc_encrypt (drop 16 cbc_data) (29 - 16) ks (schedule_of cbc2_key) (schedule_of cbc3_key) iv true in
   Ret (o1 ++ o2)) = Ret cbc3_ok.
Proof. vm_compute. reflexivity. Qed.
Example pcbc : des_pcbc_encrypt cbc_data 29 ks cbc_iv true = Ret pcbc_ok.
Proof. vm_compute. reflexivity. Qed.
Example cfb64_vector : out_of (des_cfb64_encrypt plain cfb_ks cfb_iv 0 true) = Ret cfb_cipher64.
Proof. vm_compute. reflexivity. Qed.
Example ofb64_vector : out_of (des_ofb64_encrypt plain cfb_ks cfb_iv 0) = Ret ofb_cipher.
Proof. vm_compute. reflexivity. Qed.
Example cksum : des_cbc_cksum cbc_data 28 ks cbc_iv = Ret (cbc_cksum_data, 0xB462FEF7).
Proof. vm_compute. reflexivity. Qed.
End Destest.

(** ** Blocks in a byte list *)

Lemma split_block c : (8 <= length c)%nat -> Forall is_byte c ->
  exists b c', c = blk b ++ c' /\ is_block b /\ Forall is_byte c'.
Proof.
  intros Hl Hb. rewrite <-(take_drop 8 c) in Hb. apply Forall_app in Hb as [Hb1 Hb2].
  destruct (blk_surj (take 8 c)) as (b & Hw & E); [rewrite length_take; lia|done|].
  exists b, (drop 8 c). by rewrite E, take_drop.
Qed.

Lemma byte_cshl_word x k : is_u32 (cshl 32 x k).
Proof. by apply word_cshl. Qed.

Lemma word_c2ln x0 x1 x2 x3 : Forall is_byte [x0; x1; x2; x3] ->
  c2l [x0; x1; x2; x3] = Ret (Z.lor (Z.lor (Z.lor (cshl 32 x3 24) (cshl 32 x2 16)) (cshl 32 x1 8)) (cshl 32 x0 0), []).
Proof.
  Transparent c2l. intros H. apply Forall_cons in H as [H _]. unfold c2l. do 2 f_equal. rewrite (byte_cshl_0 x0) by done.
  apply Z.bits_inj'; intros i Hi. rewrite !Z.lor_spec. by repeat destruct (Z.testbit _ i).
  Opaque c2l.
Qed.

(** [c2ln] reads the [part] bytes as if zeros followed them. *)
Lemma c2ln_pad c part : (part <= 8)%nat -> (part <= length c)%nat -> Forall is_byte c ->
  is_block (c2ln c part) /\ blk (c2ln c part) = take part c ++ repeat 0 (8 - part).
Proof.
  intros Hp Hl Hb. set (x i := if (i <? part)%nat then nth i c 0 else 0).
  assert (Hx : forall i, is_byte (x i)).
  { intros i. unfold x. destruct (i <? part)%nat; [by apply word_nth|done]. }
  assert (El : take part c ++ repeat 0 (8 - part) = map x (seq 0 8)).
  { apply (nth_ext _ _ 0 0).
    - rewrite length_app, length_take, repeat_length, length_map, length_seq. lia.
    - intros n Hn. rewrite length_app, length_take, repeat_length in Hn.
      rewrite (nth_indep (map x (seq 0 8)) 0 (x 0%nat)) by (rewrite length_map, length_seq; lia).
      rewrite map_nth, seq_nth by lia. unfold x. cbn [Nat.add]. destruct (Nat.ltb_spec n part).
      + rewrite app_nth1 by (rewrite length_take; lia). rewrite !nth_lookup, lookup_take_lt by done. done.
      + rewrite app_nth2 by (rewrite length_take; lia). by rewrite nth_repeat. }
  assert (E : c2ln c part =
    (Z.lor (Z.lor (Z.lor (cshl 32 (x 3%nat) 24) (cshl 32 (x 2%nat) 16)) (cshl 32 (x 1%nat) 8)) (cshl 32 (x 0%nat) 0),
     Z.lor (Z.lor (Z.lor (cshl 32 (x 7%nat) 24) (cshl 32 (x 6%nat) 16)) (cshl 32 (x 5%nat) 8)) (cshl 32 (x 4%nat) 0))).
  { unfold c2ln, x. by repeat (f_equal; try (destruct (_ <? part)%nat; done)). }
  destruct (c2l_word (x 0%nat) (x 1%nat) (x 2%nat) (x 3%nat) []) as (l & E1 & Hlw & Hl2); [by repeat apply Forall_cons_2|].
  destruct (c2l_word (x 4%nat) (x 5%nat) (x 6%nat) (x 7%nat) []) as (r & E2 & Hrw & Hr2); [by repeat apply Forall_cons_2|].
  rewrite word_c2ln in E1, E2 by (by repeat apply Forall_cons_2). injection E1 as E1. injection E2 as E2.
  rewrite E, E1, E2, El. split; [done|]. unfold blk. cbn [fst snd]. by rewrite Hl2, Hr2.
Qed.

Lemma c2l_two b c {B} (k : Z -> Z -> list Z -> outcome B) : is_block b ->
  (let! (t0, c) := c2l (blk b ++ c) in let! (t1, c) := c2l c in k t0 t1 c) = k b.1 b.2 c.
Proof. intros Hb. destruct (c2l_blk b c Hb) as [E1 E2]. by rewrite E1, E2. Qed.

Lemma xorb2_block a b : is_block a -> is_block b -> is_block (xorb2 a b).
Proof. intros [] []. split; by apply word_lxor. Qed.

Lemma xorb2_cancel a b : xorb2 (xorb2 a b) b = a.
Proof. destruct a, b. unfold xorb2. cbn. by rewrite !Z.lxor_assoc, !Z.lxor_nilpotent, !Z.lxor_0_r. Qed.

Lemma xorb2_comm a b : xorb2 a b = xorb2 b a.
Proof. unfold xorb2. f_equal; apply Z.lxor_comm. Qed.

Lemma xorb2_assoc a b c : xorb2 a (xorb2 b c) = xorb2 (xorb2 a b) c.
Proof. unfold xorb2. cbn. by rewrite !Z.lxor_assoc. Qed.

(** ** Chaining inverts when its steps do *)

Class ChainCipher (enc dec : block -> block -> block * block) := {
  chain_block iv t : is_block iv -> is_block t -> is_block (enc iv t).1 /\ is_block (enc iv t).2;
  chain_inverse iv t : is_block iv -> is_block t -> dec iv (enc iv t).1 = (t, (enc iv t).2)
}.

#[export] Instance cbc_chain f g : BlockCipher f g -> ChainCipher (cbc_enc_step f) (cbc_dec_step g).
Proof.
  intros H. split; intros iv t Hiv Ht; pose proof (xorb2_block t iv Ht Hiv) as Hx; cbn [cbc_enc_step cbc_dec_step fst snd].
  - split; by apply cipher_block.
  - unfold cbc_dec_step. rewrite (decipher_cipher (BlockCipher := H)) by done. by rewrite xorb2_cancel.
Qed.

#[export] Instance pcbc_chain f g : BlockCipher f g -> ChainCipher (pcbc_enc_step f) (pcbc_dec_step g).
Proof.
  intros H. split; intros iv t Hiv Ht; pose proof (xorb2_block t iv Ht Hiv) as Hx; cbn [pcbc_enc_step fst snd].
  - pose proof (cipher_block (BlockCipher := H) _ Hx). split; [done|by apply xorb2_block].
  - unfold pcbc_dec_step. rewrite (decipher_cipher (BlockCipher := H)) by done. by rewrite xorb2_cancel.
Qed.

#[export] Instance xcbc_chain f g inW outW : BlockCipher f g -> is_block inW -> is_block outW ->
  ChainCipher (xcbc_enc_step f inW outW) (xcbc_dec_step g inW outW).
Proof.
  intros H Hi Ho. split; intros iv t Hiv Ht; cbn [xcbc_enc_step fst snd];
    assert (Hx : is_block (xorb2 t (xorb2 iv inW))) by (by repeat apply xorb2_block);
    pose proof (cipher_block (BlockCipher := H) _ Hx).
  - split; by apply xorb2_block.
  - unfold xcbc_dec_step. rewrite xorb2_cancel, (decipher_cipher (BlockCipher := H)) by done.
    by rewrite (xorb2_comm iv inW), xorb2_assoc, !xorb2_cancel.
Qed.

Section ChainProofs.
Context {enc dec : block -> block -> block * block} `{!ChainCipher enc dec}.

(** The number of blocks the encryption writes. *)
Definition blocks (n part : nat) : nat := (n + if (part =? 0)%nat then 0 else 1)%nat.

(** Encryption returns; decryption of its output (whatever follows it in
    memory) gives the input back and ends with the same chaining value. *)
Lemma chain_roundtrip n part : (part <= 8)%nat -> forall c iv,
  is_block iv -> Forall is_byte c -> (8 * n + part <= length c)%nat ->
  exists out iv', chain_enc enc n part c iv = Ret (out, iv') /\ is_block iv' /\ Forall is_byte out /\
    length out = (8 * blocks n part)%nat /\
    forall rest, chain_dec dec n part (out ++ rest) iv = Ret (take (8 * n + part) c, iv').
Proof.
  intros Hp. induction n as [|n IH]; intros c iv Hiv Hb Hl.
  - cbn [chain_enc chain_dec]. unfold blocks. destruct (Nat.eqb_spec part 0) as [->|Hz].
    { exists [], iv. by rewrite take_0. }
    destruct (c2ln_pad c part Hp ltac:(lia) Hb) as [Hw Ew].
    destruct (Nat.ltb_spec (length c) part); [lia|].
    destruct (chain_block iv (c2ln c part) Hiv Hw) as [Ho Hiv'].
    pose proof (chain_inverse iv (c2ln c part) Hiv Hw) as Hd. destruct (enc iv (c2ln c part)) as [o iv'].
    cbn [fst snd] in *. exists (blk o), iv'. split; [done|]. split; [done|]. split; [apply blk_bytes|].
    split; [apply length_blk|]. intros rest. rewrite c2l_two, <-surjective_pairing, Hd by done. do 2 f_equal.
    change (take part (blk (c2ln c part)) = take (8 * 0 + part) c). rewrite Ew.
    rewrite take_app_le, take_take by (rewrite length_take; lia). f_equal. lia.
  - destruct (split_block c ltac:(lia) Hb) as (b & c' & -> & Hw & Hb').
    rewrite length_app, length_blk in Hl.
    destruct (chain_block iv b Hiv Hw) as [Ho Hiv']. pose proof (chain_inverse iv b Hiv Hw) as Hd.
    cbn [chain_enc]. rewrite c2l_two, <-surjective_pairing by done.
    destruct (enc iv b) as [o iv'] eqn:Eo. cbn [fst snd] in *.
    destruct (IH c' iv' Hiv' Hb' ltac:(lia)) as (out & iv'' & -> & Hw'' & Hout & Hlen & Hdec).
    exists (blk o ++ out), iv''. split; [unfold blk; by rewrite <-app_assoc|]. split; [done|].
    split; [apply Forall_app; split; [apply blk_bytes|done]|].
    split; [rewrite length_app, length_blk, Hlen; unfold blocks; lia|].
    intros rest. cbn [chain_dec]. rewrite <-app_assoc, c2l_two, <-surjective_pairing, Hd, Hdec by done.
    cbv beta iota. do 2 f_equal.
    replace (8 * S n + part)%nat with (8 + (8 * n + part))%nat by lia.
    rewrite take_app_ge by (rewrite length_blk; lia). rewrite length_blk.
    replace (8 + (8 * n + part) - 8)%nat with (8 * n + part)%nat by lia.
    change (blk b ++ take (8 * n + part) c' = l2c b.1 ++ l2c b.2 ++ take (8 * n + part) c'). 
    unfold blk. by rewrite <-app_assoc.
Qed.

(** Whole blocks first, the rest later, with the chaining value in between. *)
Lemma chain_enc_app n m part c c' : length c = (8 * n)%nat -> Forall is_byte c -> forall iv, is_block iv ->
  chain_enc enc (n + m) part (c ++ c') iv =
    (let! (o1, iv) := chain_enc enc n 0 c iv in let! (o2, iv) := chain_enc enc m part c' iv in Ret (o1 ++ o2, iv)).
Proof.
  revert c. induction n as [|n IH]; intros c Hl Hb iv Hiv.
  - destruct c; [|simpl in Hl; lia]. cbn [Nat.add app chain_enc Nat.eqb]. by destruct (chain_enc enc m part c' iv) as [[]|].
  - destruct (split_block c ltac:(lia) Hb) as (b & c'' & -> & Hw & Hb').
    rewrite length_app, length_blk in Hl. cbn [Nat.add chain_enc]. rewrite <-app_assoc, !c2l_two by done.
    destruct (chain_block iv (b.1, b.2) Hiv ltac:(by rewrite <-surjective_pairing)) as [_ Hiv'].
    destruct (enc iv (b.1, b.2)) as [o iv']. cbn [fst snd] in *.
    rewrite IH by (done || lia). destruct (chain_enc enc n 0 c'' iv') as [[o1 iv'']|]; [|done].
    destruct (chain_enc enc m part c' iv'') as [[o2 iv3]|]; [|done]. by rewrite <-!app_assoc.
Qed.
End ChainProofs.

Lemma whole_tail length : (8 * whole length + tail length)%nat = length /\ (tail length < 8)%nat /\
  blocks (whole length) (tail length) = ((length + 7) / 8)%nat.
Proof.
  unfold whole, tail, blocks. pose proof (Nat.div_mod length 8 ltac:(lia)) as E.
  pose proof (Nat.mod_upper_bound length 8 ltac:(lia)) as Hm. split; [lia|]. split; [done|].
  destruct (Nat.eqb_spec (length mod 8) 0) as [H0|H0].
  - apply (Nat.div_unique _ _ _ 7); lia.
  - apply (Nat.div_unique _ _ _ (length mod 8 - 1)); lia.
Qed.

Lemma load_iv_blk b c : is_block b -> load_iv (blk b ++ c) = Ret b.
Proof. intros Hb. unfold load_iv. rewrite c2l_two by done. by rewrite <-surjective_pairing. Qed.

Lemma load_iv_8 ivec : length ivec = 8%nat -> Forall is_byte ivec ->
  exists b, is_block b /\ ivec = blk b /\ load_iv ivec = Ret b.
Proof.
  intros Hl Hb. destruct (blk_surj ivec Hl Hb) as (b & Hw & <-). exists b. split; [done|]. split; [done|].
  rewrite <-(app_nil_r (blk b)). by apply load_iv_blk.
Qed.

(** The round trip of a chained mode on a buffer of any length. *)
Lemma mode_roundtrip enc dec length input iv : ChainCipher enc dec ->
  is_block iv -> Forall is_byte input -> (length <= List.length input)%nat ->
  exists out iv', chain_enc enc (whole length) (tail length) input iv = Ret (out, iv') /\
    is_block iv' /\ Forall is_byte out /\ List.length out = (8 * ((length + 7) / 8))%nat /\
    chain_dec dec (whole length) (tail length) out iv = Ret (take length input, iv').
Proof.
  intros H Hiv Hb Hl. destruct (whole_tail length) as (E & Ht & Eb).
  destruct (chain_roundtrip (whole length) (tail length) ltac:(lia) input iv Hiv Hb ltac:(lia))
    as (out & iv' & E1 & Hw & Hout & Hlen & Hd).
  exists out, iv'. rewrite Eb in Hlen. specialize (Hd []). rewrite app_nil_r, E in Hd. done.
Qed.

(** A last whole block as a tail of eight bytes. *)
Lemma chain_dec_8 step n : forall c iv, chain_dec step n 8 c iv = chain_dec step (S n) 0 c iv.
Proof.
  induction n as [|n IH]; intros c iv.
  - cbn [chain_dec Nat.eqb]. destruct (c2l c) as [[t0 c0]|]; [|done]. destruct (c2l c0) as [[t1 c1]|]; [|done].
    destruct (step iv (t0, t1)) as [o iv']. unfold l2cn. by rewrite app_nil_r.
  - cbn [chain_dec]. destruct (c2l c) as [[t0 c0]|]; [|done]. destruct (c2l c0) as [[t1 c1]|]; [|done].
    destruct (step iv (t0, t1)) as [o iv']. rewrite IH. cbn [chain_dec]. done.
Qed.

Lemma chain_dec_tail step length c iv :
  chain_dec step ((length - 1) / 8) (length - 8 * ((length - 1) / 8)) c iv =
  chain_dec step (whole length) (tail length) c iv.
Proof.
  destruct (whole_tail length) as (E & Ht & _). unfold whole, tail in *.
  pose proof (Nat.div_mod (length - 1) 8 ltac:(lia)) as E1. pose proof (Nat.mod_upper_bound (length - 1) 8 ltac:(lia)).
  destruct (Nat.eq_dec (length mod 8)%nat 0%nat) as [H0|H0].
  - destruct (length / 8)%nat as [|n] eqn:En.
    + replace length with 0%nat by lia. done.
    + replace ((length - 1) / 8)%nat with n by lia. rewrite H0.
      replace (length - 8 * n)%nat with 8%nat by lia. apply chain_dec_8.
  - replace ((length - 1) / 8)%nat with (length / 8)%nat by lia. f_equal. lia.
Qed.

(** C35 ([des_ncbc_encrypt], [des_cbc_encrypt], [des_ede3_cbc_encrypt]).
    For every key schedule, initial vector and length, CBC encryption returns
    whole blocks that cover the input, decrypting them with the same vector
    gives the input back, and both directions leave the same new vector; for
    triple DES as well, and [des_cbc_encrypt] gives the same output. *)
Theorem cbc_roundtrip input length ks ks2 ks3 ivec :
  (length <= List.length input)%nat -> Forall is_byte input -> List.length ivec = 8%nat -> Forall is_byte ivec ->
  (exists out iv', des_ncbc_encrypt input length ks ivec true = Ret (out, iv') /\
    List.length out = (8 * ((length + 7) / 8))%nat /\
    des_ncbc_encrypt out length ks ivec false = Ret (take length input, iv') /\
    des_cbc_encrypt input length ks ivec true = Ret out /\
    des_cbc_encrypt out length ks ivec false = Ret (take length input)) /\
  (exists out iv', des_ede3_cbc_encrypt input length ks ks2 ks3 ivec true = Ret (out, iv') /\
    List.length out = (8 * ((length + 7) / 8))%nat /\
    des_ede3_cbc_encrypt out length ks ks2 ks3 ivec false = Ret (take length input, iv')).
Proof.
  intros Hl Hb Hiv Hivb. destruct (load_iv_8 ivec Hiv Hivb) as (iv & Hw & _ & E).
  split.
  - destruct (mode_roundtrip _ _ length input iv (cbc_chain _ _ (des_cipher ks)) Hw Hb Hl)
      as (out & iv' & E1 & _ & _ & Hlen & E2).
    exists out, (store_iv iv'). unfold des_ncbc_encrypt, des_cbc_encrypt. by rewrite E, E1, E2.
  - destruct (mode_roundtrip _ _ length input iv (cbc_chain _ _ (des3_cipher ks ks2 ks3)) Hw Hb Hl)
      as (out & iv' & E1 & _ & _ & Hlen & E2).
    exists out, (store_iv iv'). unfold des_ede3_cbc_encrypt. by rewrite E, E1, E2.
Qed.

Theorem cbc_roundtrip_witness :
  exists out iv', des_ncbc_encrypt Destest.plain 21 [] Destest.cbc_iv true = Ret (out, iv') /\
    List.length out = (8 * ((21 + 7) / 8))%nat /\
    des_ncbc_encrypt out 21 [] Destest.cbc_iv false = Ret (take 21 Destest.plain, iv') /\
    des_cbc_encrypt Destest.plain 21 [] Destest.cbc_iv true = Ret out /\
    des_cbc_encrypt out 21 [] Destest.cbc_iv false = Ret (take 21 Destest.plain).
Proof.
  refine (proj1 (cbc_roundtrip Destest.plain 21 [] [] [] Destest.cbc_iv _ _ eq_refl _));
    [simpl; lia|by apply words_check..].
Defined.

(** ([des_pcbc_encrypt], [des_xcbc_encrypt]).  The same for the
    propagating mode and for DESX with any pair of whitening blocks. *)
Theorem pcbc_xcbc_roundtrip input length ks ivec inw outw :
  (length <= List.length input)%nat -> Forall is_byte input -> List.length ivec = 8%nat -> Forall is_byte ivec ->
  List.length inw = 8%nat -> Forall is_byte inw -> List.length outw = 8%nat -> Forall is_byte outw ->
  (exists out, des_pcbc_encrypt input length ks ivec true = Ret out /\
    List.length out = (8 * ((length + 7) / 8))%nat /\
    des_pcbc_encrypt out length ks ivec false = Ret (take length input)) /\
  (exists out iv', des_xcbc_encrypt input length ks ivec inw outw true = Ret (out, iv') /\
    List.length out = (8 * ((length + 7) / 8))%nat /\
    des_xcbc_encrypt out length ks ivec inw outw false = Ret (take length input, iv')).
Proof.
  intros Hl Hb Hiv Hivb Hi Hib Ho Hob. destruct (load_iv_8 ivec Hiv Hivb) as (iv & Hw & _ & E).
  destruct (load_iv_8 inw Hi Hib) as (inW & Hinw & _ & Ei), (load_iv_8 outw Ho Hob) as (outW & Houtw & _ & Eo).
  split.
  - destruct (mode_roundtrip _ _ length input iv (pcbc_chain _ _ (des_cipher ks)) Hw Hb Hl)
      as (out & iv' & E1 & _ & _ & Hlen & E2).
    exists out. unfold des_pcbc_encrypt. by rewrite E, E1, E2.
  - pose proof (xcbc_chain _ _ inW outW (des_cipher ks) Hinw Houtw) as Hc.
    destruct (mode_roundtrip _ _ length input iv Hc Hw Hb Hl) as (out & iv' & E1 & _ & _ & Hlen & E2).
    exists out, (store_iv iv'). unfold des_xcbc_encrypt. rewrite E, Ei, Eo, E1. split; [done|]. split; [done|].
    by rewrite chain_dec_tail, E2.
Qed.

Theorem pcbc_xcbc_roundtrip_witness :
  exists out, des_pcbc_encrypt Destest.plain 21 [] Destest.cbc_iv true = Ret out /\
    List.length out = (8 * ((21 + 7) / 8))%nat /\
    des_pcbc_encrypt out 21 [] Destest.cbc_iv false = Ret (take 21 Destest.plain).
Proof.
  refine (proj1 (pcbc_xcbc_roundtrip Destest.plain 21 [] Destest.cbc_iv Destest.cbc_key Destest.cbc_key _ _ eq_refl _ eq_refl _ eq_refl _));
    [simpl; lia|by apply words_check..].
Defined.

(** In CBC the chaining value is the last output block. *)
Lemma cbc_last_block f n part : forall c iv out iv', blocks n part <> 0%nat ->
  chain_enc (cbc_enc_step f) n part c iv = Ret (out, iv') -> exists pre, out = pre ++ blk iv'.
Proof.
  induction n as [|n IH]; intros c iv out iv' Hn; cbn [chain_enc].
  - destruct (part =? 0)%nat eqn:Ep; [unfold blocks in Hn; rewrite Ep in Hn; lia|].
    destruct (length c <? part)%nat; [done|]. cbn [cbc_enc_step]. intros [= <- <-]. by exists [].
  - destruct (c2l c) as [[t0 c0]|]; [|done]. destruct (c2l c0) as [[t1 c1]|]; [|done]. cbn [cbc_enc_step].
    set (e := f _). destruct (chain_enc _ n part c1 e) as [[o i]|] eqn:E; [|done]. intros [= <- <-].
    destruct (Nat.eq_dec (blocks n part) 0%nat) as [H0|H0].
    + unfold blocks in H0. assert (n = 0%nat) as -> by lia. cbn [chain_enc] in E.
      destruct (part =? 0)%nat; [|lia]. injection E as <- <-. by exists [].  
    + destruct (IH _ _ _ _ H0 E) as (pre & ->). exists (l2c e.1 ++ l2c e.2 ++ pre). by rewrite <-!app_assoc.
Qed.

(** ([des_ncbc_encrypt], [des_cbc_cksum]).  A message may be encrypted
    in pieces: after a piece of whole blocks, the vector the routine leaves
    continues it.  The checksum is the last block of the encryption, that is
    the vector it leaves. *)
Theorem cbc_streams input input' ks ivec :
  (List.length input mod 8 = 0)%nat -> Forall is_byte input -> Forall is_byte input' ->
  List.length ivec = 8%nat -> Forall is_byte ivec ->
  exists o1 iv1 o2 iv2,
    des_ncbc_encrypt input (List.length input) ks ivec true = Ret (o1, iv1) /\
    des_ncbc_encrypt input' (List.length input') ks iv1 true = Ret (o2, iv2) /\
    des_ncbc_encrypt (input ++ input') (List.length (input ++ input')) ks ivec true = Ret (o1 ++ o2, iv2) /\
    (exists w, des_cbc_cksum (input ++ input') (List.length (input ++ input')) ks ivec = Ret (iv2, w)) /\
    (input' <> [] -> iv2 = drop (List.length o2 - 8) o2).
Proof.
  intros H8 Hb Hb' Hiv Hivb. destruct (load_iv_8 ivec Hiv Hivb) as (iv & Hw & _ & E).
  pose proof (cbc_chain _ _ (des_cipher ks)) as Hc.
  destruct (whole_tail (List.length input)) as (El & _ & _). unfold tail in El. rewrite H8 in El.
  destruct (mode_roundtrip _ _ (List.length input) input iv Hc Hw Hb ltac:(lia)) as (o1 & iv1 & E1 & Hw1 & _ & _ & _).
  destruct (mode_roundtrip _ _ (List.length input') input' iv1 Hc Hw1 Hb' ltac:(lia)) as (o2 & iv2 & E2 & Hw2 & _ & _ & _).
  assert (Ew : whole (List.length (input ++ input')) = (whole (List.length input) + whole (List.length input'))%nat /\
    tail (List.length (input ++ input')) = tail (List.length input')).
  { rewrite length_app. unfold whole, tail in *.
    replace (List.length input + List.length input')%nat with (List.length input' + (List.length input / 8) * 8)%nat by lia.
    rewrite Nat.div_add, Nat.Div0.mod_add by lia. lia. }
  destruct Ew as [Ew Et].
  assert (Eapp : chain_enc (cbc_enc_step (fun d => des_encrypt d ks true)) (whole (List.length (input ++ input')))
    (tail (List.length (input ++ input'))) (input ++ input') iv = Ret (o1 ++ o2, iv2)).
  { rewrite Ew, Et, chain_enc_app by (done || lia). unfold tail in E1. rewrite H8 in E1. by rewrite E1, E2. }
  exists o1, (store_iv iv1), o2, (store_iv iv2). unfold des_ncbc_encrypt, des_cbc_cksum.
  rewrite E, E1, Eapp. pose proof (load_iv_blk iv1 [] Hw1) as L1. rewrite app_nil_r in L1. unfold blk in L1.
  unfold store_iv at 1 3. rewrite L1, E2. split_and!; try done; [by eexists|].
  intros Hne. destruct (whole_tail (List.length input')) as (El' & _ & Eb).
  apply cbc_last_block in E2 as (pre & ->).
  - rewrite length_app, length_blk, drop_app_ge by lia. by replace (_ - _ - _)%nat with 0%nat by lia.
  - rewrite Eb. destruct input'; [done|]. cbn [List.length].
    pose proof (Nat.div_str_pos (S (List.length input') + 7) 8 ltac:(lia)). lia.
Qed.

Theorem cbc_streams_witness : exists o1 iv1 o2 iv2,
    des_ncbc_encrypt Destest.plain 24 [] Destest.cbc_iv true = Ret (o1, iv1) /\
    des_ncbc_encrypt Destest.cbc_data 40 [] iv1 true = Ret (o2, iv2) /\
    des_ncbc_encrypt (Destest.plain ++ Destest.cbc_data) 64 [] Destest.cbc_iv true = Ret (o1 ++ o2, iv2) /\
    (exists w, des_cbc_cksum (Destest.plain ++ Destest.cbc_data) 64 [] Destest.cbc_iv = Ret (iv2, w)) /\
    (Destest.cbc_data <> [] -> iv2 = drop (List.length o2 - 8) o2).
Proof.
  refine (cbc_streams Destest.plain Destest.cbc_data [] Destest.cbc_iv eq_refl _ _ eq_refl _); by apply words_check.
Defined.

(** ** Feedback modes *)

Section FeedbackProofs.
Context (f : block -> block) (Hf : forall d, is_block d -> is_block (f d)).

Definition register (iv : list Z) : Prop := length iv = 8%nat /\ Forall is_byte iv.

Lemma register_blk b : register (blk b).
Proof. split; [apply length_blk|apply blk_bytes]. Qed.

Lemma refill_register iv n : register iv -> exists iv', refill f iv n = Ret iv' /\ register iv'.
Proof.
  intros [Hl Hb]. unfold refill. destruct (n =? 0)%nat; [|by exists iv].
  destruct (blk_surj iv Hl Hb) as (b & Hw & <-). rewrite <-(app_nil_r (blk b)), c2l_two by done.
  eexists. split; [reflexivity|]. apply (register_blk (f (b.1, b.2))).
Qed.

Lemma load_register iv n : register iv -> (n < 8)%nat -> exists k, load iv n = Ret k /\ is_byte k.
Proof.
  intros [Hl Hb] Hn. destruct (lookup_lt_is_Some_2 iv n ltac:(lia)) as [k Hk]. exists k.
  split; [by apply load_Some|by eapply Forall_lookup_word].
Qed.

Lemma store_register iv n c : register iv -> (n < 8)%nat -> is_byte c ->
  store iv n c = Ret (<[n := c]> iv) /\ register (<[n := c]> iv).
Proof.
  intros [Hl Hb] Hn Hc. rewrite store_lt by lia. split; [done|]. split; [by rewrite length_insert|].
  by apply Forall_insert.
Qed.

Lemma next_n_lt n : (n < 8)%nat -> (next_n n < 8)%nat.
Proof. intros Hn. unfold next_n. do 8 (destruct n as [|n]; [vm_compute; lia|]). lia. Qed.

Lemma cfb64_roundtrip inp : forall iv n, register iv -> (n < 8)%nat -> Forall is_byte inp ->
  exists out st, cfb64_enc f inp iv n = Ret (out, st) /\ register st.1 /\ (st.2 < 8)%nat /\
    length out = length inp /\ Forall is_byte out /\ cfb64_dec f out iv n = Ret (inp, st).
Proof.
  induction inp as [|x inp IH]; intros iv n Hr Hn Hb; [by exists [], (iv, n)|].
  apply Forall_cons in Hb as [Hx Hb]. cbn [cfb64_enc].
  destruct (refill_register iv n Hr) as (iv1 & E1 & Hr1). destruct (load_register iv1 n Hr1 Hn) as (k & Ek & Hk).
  assert (Hc : is_byte (Z.lxor x k)) by (by apply word_lxor).
  destruct (store_register iv1 n _ Hr1 Hn Hc) as [Es Hr2].
  destruct (IH _ (next_n n) Hr2 (next_n_lt n Hn) Hb) as (out & st & E & H1 & H2 & H3 & H4 & H5).
  exists (Z.lxor x k :: out), st. rewrite E1, Ek, Es, E. split_and!; try done; [simpl; lia|by apply Forall_cons|].
  cbn [cfb64_dec]. rewrite E1, Ek, Es, H5. do 3 f_equal.
  by rewrite Z.lxor_comm, Z.lxor_assoc, Z.lxor_nilpotent, Z.lxor_0_r.
Qed.

Lemma cfb64_enc_app a b : forall iv n,
  cfb64_enc f (a ++ b) iv n =
    (let! (o1, st) := cfb64_enc f a iv n in let! (o2, st) := cfb64_enc f b st.1 st.2 in Ret (o1 ++ o2, st)).
Proof.
  induction a as [|x a IH]; intros iv n; cbn [app cfb64_enc fst snd].
  - by destruct (cfb64_enc f b iv n) as [[]|].
  - destruct (refill f iv n) as [iv1|]; [|done]. destruct (load iv1 n) as [k|]; [|done].
    destruct (store iv1 n _) as [iv2|]; [|done]. rewrite IH.
    destruct (cfb64_enc f a iv2 (next_n n)) as [[o1 st]|]; [|done]. by destruct (cfb64_enc f b st.1 st.2) as [[]|].
Qed.

(** The key stream of output feedback: the bytes of the successive
    encryptions of the register. *)
Fixpoint keystream (len : nat) (ti : block) (n : nat) : list Z * (block * nat) :=
  match len with
  | O => ([], (ti, n))
  | S len =>
      let ti := if (n =? 0)%nat then f ti else ti in
      let r := keystream len ti (next_n n) in
      (nth n (blk ti) 0 :: r.1, r.2)
  end.

Lemma ofb64_loop_keystream inp : forall ti n save, is_block ti -> (n < 8)%nat ->
  let r := keystream (length inp) ti n in
  is_block r.2.1 /\
  exists save', ofb64_loop f inp ti (blk ti) n save = Ret (zip_with Z.lxor inp r.1, (r.2.1, r.2.2, save')) /\
    (save' = false -> save = false /\ r.2.1 = ti).
Proof.
  induction inp as [|x inp IH]; intros ti n save Hti Hn; [by split; [|exists save]|].
  cbn [length keystream ofb64_loop]. set (ti1 := if (n =? 0)%nat then f ti else ti).
  assert (Hti1 : is_block ti1) by (unfold ti1; destruct (n =? 0)%nat; auto).
  assert (Est : exists save1, (if (n =? 0)%nat then (f ti, l2c (f ti).1 ++ l2c (f ti).2, true) else (ti, blk ti, save)) =
    (ti1, blk ti1, save1) /\ (save1 = false -> save = false /\ ti1 = ti)).
  { unfold ti1. destruct (n =? 0)%nat; [by exists true|by exists save]. }
  destruct Est as (save1 & Est & Hs1). rewrite Est.
  destruct (IH ti1 (next_n n) save1 Hti1 (next_n_lt n Hn)) as (Hb & save' & E & Hs).
  destruct (keystream (length inp) ti1 (next_n n)) as [ks [ti' n']]. cbn [fst snd] in *. split; [done|].
  destruct (load_register (blk ti1) n (register_blk ti1) Hn) as (k & Ek & _).
  rewrite Ek. exists save'. rewrite E. split.
  - unfold load in Ek. rewrite nth_lookup. destruct (blk ti1 !! n); [|done]. injection Ek as <-. done.
  - intros H. destruct (Hs H) as [H1 ->]. by apply Hs1.
Qed.

Lemma ofb64_keystream inp ti n : is_block ti -> (n < 8)%nat ->
  let r := keystream (length inp) ti n in
  is_block r.2.1 /\ ofb64 f inp (blk ti) n = Ret (zip_with Z.lxor inp r.1, (blk r.2.1, r.2.2)).
Proof.
  intros Hti Hn. destruct (ofb64_loop_keystream inp ti n false Hti Hn) as (Hb & save & E & Hs).
  split; [done|]. unfold ofb64. destruct (c2l_blk ti [] Hti) as [E1 E2]. rewrite !app_nil_r in *.
  rewrite E1, E2. fold (blk ti). rewrite <-surjective_pairing, E.
  destruct save; [done|]. destruct (Hs eq_refl) as [_ ->]. done.
Qed.

Lemma length_keystream len : forall ti n, length (keystream len ti n).1 = len.
Proof. induction len as [|len IH]; intros ti n; [done|]. cbn [keystream fst length]. by rewrite IH. Qed.

Lemma keystream_lt len : forall ti n, (n < 8)%nat -> ((keystream len ti n).2.2 < 8)%nat.
Proof. induction len as [|len IH]; intros ti n Hn; [done|]. cbn [keystream fst snd]. by apply IH, next_n_lt. Qed.

Lemma keystream_add l l' : forall ti n,
  let r := keystream l ti n in let r' := keystream l' r.2.1 r.2.2 in
  keystream (l + l') ti n = (r.1 ++ r'.1, r'.2).
Proof.
  induction l as [|l IH]; intros ti n; cbn [Nat.add keystream fst snd app].
  - by rewrite <-surjective_pairing.
  - rewrite IH. cbv zeta. done.
Qed.

Lemma zip_lxor_invol (xs ks : list Z) : length xs = length ks -> zip_with Z.lxor (zip_with Z.lxor xs ks) ks = xs.
Proof.
  revert ks. induction xs as [|x xs IH]; intros [|k ks] H; try done. cbn. rewrite IH by (simpl in H; lia).
  by rewrite Z.lxor_assoc, Z.lxor_nilpotent, Z.lxor_0_r.
Qed.
End FeedbackProofs.

(** What a caller relies on: both directions of cipher feedback with the
    same block encryption, for any register and position. *)
Definition stream_state (st : list Z * nat) : Prop := register st.1 /\ (st.2 < 8)%nat.

(** ([des_cfb64_encrypt], [des_ede3_cfb64_encrypt]).  For any schedules,
    register and position, decrypting a cipher feedback encryption from the
    same state gives the input back and reaches the same state, which is a
    state again; and a message may be encrypted in pieces of any size. *)
Theorem cfb64_correct a b ks ks2 ks3 ivec num :
  Forall is_byte a -> Forall is_byte b -> length ivec = 8%nat -> Forall is_byte ivec -> (num < 8)%nat ->
  (exists out st, des_cfb64_encrypt a ks ivec num true = Ret (out, st) /\ stream_state st /\
    des_cfb64_encrypt out ks ivec num false = Ret (a, st) /\
    exists out' st', des_cfb64_encrypt b ks st.1 st.2 true = Ret (out', st') /\
      des_cfb64_encrypt (a ++ b) ks ivec num true = Ret (out ++ out', st')) /\
  (exists out st, des_ede3_cfb64_encrypt a ks ks2 ks3 ivec num true = Ret (out, st) /\ stream_state st /\
    des_ede3_cfb64_encrypt out ks ks2 ks3 ivec num false = Ret (a, st) /\
    exists out' st', des_ede3_cfb64_encrypt b ks ks2 ks3 st.1 st.2 true = Ret (out', st') /\
      des_ede3_cfb64_encrypt (a ++ b) ks ks2 ks3 ivec num true = Ret (out ++ out', st')).
Proof.
  intros Ha Hb Hl Hv Hn. assert (Hr : register ivec) by done.
  assert (H : forall f, exists out st, cfb64_enc f a ivec num = Ret (out, st) /\ stream_state st /\
    cfb64_dec f out ivec num = Ret (a, st) /\
    exists out' st', cfb64_enc f b st.1 st.2 = Ret (out', st') /\
      cfb64_enc f (a ++ b) ivec num = Ret (out ++ out', st')).
  { intros f. destruct (cfb64_roundtrip f a ivec num Hr Hn Ha) as (out & st & E & H1 & H2 & _ & _ & Hd).
    exists out, st. do 3 (split; [done|]).
    destruct (cfb64_roundtrip f b st.1 st.2 H1 H2 Hb) as (out' & st' & E' & _).
    exists out', st'. split; [done|]. by rewrite cfb64_enc_app, E, E'. }
  split; apply H.
Qed.

Theorem cfb64_correct_witness : exists out st, des_cfb64_encrypt Destest.plain [] Destest.cfb_iv 3 true = Ret (out, st) /\
    stream_state st /\ des_cfb64_encrypt out [] Destest.cfb_iv 3 false = Ret (Destest.plain, st) /\
    exists out' st', des_cfb64_encrypt [1; 2] [] st.1 st.2 true = Ret (out', st') /\
      des_cfb64_encrypt (Destest.plain ++ [1; 2]) [] Destest.cfb_iv 3 true = Ret (out ++ out', st').
Proof.
  refine (proj1 (cfb64_correct Destest.plain [1; 2] [] [] [] Destest.cfb_iv 3 _ _ eq_refl _ _));
    [by apply words_check..|lia].
Defined.

(** A mode [run] is output feedback with the block function [f]: it adds the
    key stream, so that running it twice from the same state is the identity,
    and a message may be processed in pieces. *)
Definition output_feedback (f : block -> block) (run : list Z -> list Z -> nat -> outcome (list Z * (list Z * nat)))
    (a b : list Z) (iv : block) (num : nat) : Prop :=
  let '(s, (iv', num')) := keystream f (length a) iv num in
  run a (blk iv) num = Ret (zip_with Z.lxor a s, (blk iv', num')) /\
  run (zip_with Z.lxor a s) (blk iv) num = Ret (a, (blk iv', num')) /\
  exists out st, run b (blk iv') num' = Ret (out, st) /\
    run (a ++ b) (blk iv) num = Ret (zip_with Z.lxor a s ++ out, st).

Lemma ofb64_output_feedback f a b iv num :
  (forall d, is_block d -> is_block (f d)) -> is_block iv -> (num < 8)%nat -> output_feedback f (ofb64 f) a b iv num.
Proof.
  intros Hf Hiv Hn. unfold output_feedback.
  destruct (keystream f (length a) iv num) as [s [iv' num']] eqn:Ek.
  pose proof (length_keystream f (length a) iv num) as Hlen. rewrite Ek in Hlen. cbn [fst] in Hlen.
  pose proof (keystream_lt f (length a) iv num Hn) as Hlt. rewrite Ek in Hlt. cbn [snd] in Hlt.
  destruct (ofb64_keystream f Hf a iv num Hiv Hn) as [Hiv' E]. rewrite Ek in Hiv', E. cbn [fst snd] in *.
  split; [done|]. split.
  - destruct (ofb64_keystream f Hf (zip_with Z.lxor a s) iv num Hiv Hn) as [_ E'].
    rewrite length_zip_with, Hlen, Nat.min_id, Ek in E'. cbn [fst snd] in E'. by rewrite zip_lxor_invol in E'.
  - destruct (ofb64_keystream f Hf b iv' num' Hiv' Hlt) as [_ Eb].
    do 2 eexists. split; [exact Eb|].
    destruct (ofb64_keystream f Hf (a ++ b) iv num Hiv Hn) as [_ Eab].
    rewrite length_app, keystream_add, Ek in Eab. cbn [fst snd] in Eab. rewrite Eab.
    by rewrite zip_with_app by done.
Qed.

(** ([des_ofb64_encrypt], [des_ede3_ofb64_encrypt]).  Output feedback,
    with single and with triple DES, adds to the input the bytes of the
    successive encryptions of the register, from the position on; so applying
    it twice from the same state is the identity, and a message may be
    processed in pieces of any size. *)
Theorem ofb64_correct a b ks ks2 ks3 iv num :
  is_block iv -> (num < 8)%nat ->
  output_feedback (fun d => des_encrypt d ks true) (fun a iv n => des_ofb64_encrypt a ks iv n) a b iv num /\
  output_feedback (fun d => des_encrypt3 d ks ks2 ks3) (fun a iv n => des_ede3_ofb64_encrypt a ks ks2 ks3 iv n) a b iv num.
Proof.
  intros Hiv Hn. split; apply ofb64_output_feedback; try done; intros d Hd.
  - by apply des_encrypt_block.
  - by apply (cipher_block (BlockCipher := des3_cipher ks ks2 ks3)).
Qed.

Theorem ofb64_correct_witness :
  output_feedback (fun d => des_encrypt d [] true) (fun a iv n => des_ofb64_encrypt a [] iv n) [1; 2; 3] [4] (7, 9) 6.
Proof. refine (proj1 (ofb64_correct [1; 2; 3] [4] [] [] [] (7, 9) 6 _ _)); [split; unfold word; simpl; lia|lia]. Defined.

(** ** Keys from strings *)

Lemma xor_at_register key i v : register key -> register (xor_at key i v).
Proof.
  intros [Hl Hb]. unfold xor_at. split; [by rewrite length_insert|]. apply Forall_insert; [done|].
  apply word_lxor; [lia|by apply word_nth|by apply wrap_word].
Qed.

Lemma s2k_loop_register str : forall key i, register key -> register (s2k_loop str key i).
Proof.
  induction str as [|j str IH]; intros key i Hk; [done|]. cbn [s2k_loop]. apply IH.
  destruct (_ <? _)%nat; by apply xor_at_register.
Qed.

Lemma s2k2_loop_register str : forall key1 key2 i, register key1 -> register key2 ->
  register (s2k2_loop str key1 key2 i).1 /\ register (s2k2_loop str key1 key2 i).2.
Proof.
  induction str as [|j str IH]; intros key1 key2 i H1 H2; [done|]. cbn [s2k2_loop].
  repeat destruct (_ <? _)%nat; apply IH; done || by apply xor_at_register.
Qed.

Definition odd_key (key : list Z) : Prop := register key /\ forallb odd_byte key = true.

Lemma des_set_odd_parity_key key : register key -> odd_key (des_set_odd_parity key).
Proof.
  intros [Hl Hb]. destruct (des_set_odd_parity_odd key Hb) as [H1 H2].
  split; [|done]. split; [|done]. unfold des_set_odd_parity. by rewrite length_map.
Qed.

Lemma cksum_register str ks key : Forall is_byte str -> register key ->
  exists key' w, des_cbc_cksum str (length str) ks key = Ret (key', w) /\ register key'.
Proof.
  intros Hs [Hl Hb]. destruct (load_iv_8 key Hl Hb) as (iv & Hw & _ & E).
  destruct (mode_roundtrip _ _ (length str) str iv (cbc_chain _ _ (des_cipher ks)) Hw Hs ltac:(lia))
    as (out & iv' & E1 & Hw' & _).
  exists (blk iv'), iv'.2. unfold des_cbc_cksum. rewrite E, E1. split; [done|apply register_blk].
Qed.

Lemma set_key_register key : register key -> exists ks, des_set_key false key = Ret (0, ks).
Proof.
  intros [Hl Hb]. destruct (blk_surj key Hl Hb) as (b & Hw & <-). destruct (c2l_blk b [] Hw) as [E1 E2].
  rewrite !app_nil_r in *. unfold des_set_key. cbn [andb]. rewrite E1, E2. destruct (pc1 _ _). by eexists.
Qed.

(** ([des_string_to_key], [des_string_to_2keys]).  Every string gives
    keys of eight bytes that pass the parity check, and a string of at most
    eight characters gives two equal keys. *)
Theorem string_to_key_correct str : Forall is_byte str ->
  (exists key, des_string_to_key str = Ret key /\ odd_key key) /\
  (exists key1 key2, des_string_to_2keys str = Ret (key1, key2) /\ odd_key key1 /\ odd_key key2 /\
    ((length str <= 8)%nat -> key1 = key2)).
Proof.
  intros Hs. assert (H0 : register (repeat 0 8)) by (by split; [|apply words_check]).
  assert (Hone : forall key, register key -> exists ks key' w, des_set_key false (des_set_odd_parity key) = Ret (0, ks) /\
    des_cbc_cksum str (length str) ks (des_set_odd_parity key) = Ret (key', w) /\ odd_key (des_set_odd_parity key')).
  { intros key Hk. destruct (des_set_odd_parity_key key Hk) as [Hp _]. destruct (set_key_register _ Hp) as [ks E].
    destruct (cksum_register str ks _ Hs Hp) as (key' & w & E' & Hk').
    exists ks, key', w. split; [done|]. split; [done|]. by apply des_set_odd_parity_key. }
  split.
  - destruct (Hone (s2k_loop str (repeat 0 8) 0)) as (ks & key' & w & E1 & E2 & H); [by apply s2k_loop_register|].
    exists (des_set_odd_parity key'). unfold des_string_to_key. by rewrite E1, E2.
  - destruct (s2k2_loop_register str _ _ 0 H0 H0) as [R1 R2]. unfold des_string_to_2keys.
    destruct (s2k2_loop str (repeat 0 8) (repeat 0 8) 0) as [k1 k2]. cbn [fst snd] in *.
    destruct (Hone k1 R1) as (ks1 & k1' & w1 & E1 & E1' & H1). rewrite E1, E1'.
    destruct (Nat.leb_spec (length str) 8) as [Hle|Hgt].
    + rewrite E1, E1'. by exists (des_set_odd_parity k1'), (des_set_odd_parity k1').
    + destruct (Hone k2 R2) as (ks2 & k2' & w2 & E2 & E2' & H2). rewrite E2, E2'.
      exists (des_set_odd_parity k1'), (des_set_odd_parity k2'). split_and!; try done; lia.
Qed.

Theorem string_to_key_correct_witness : exists key, des_string_to_key [112; 119] = Ret key /\ odd_key key.
Proof. refine (proj1 (string_to_key_correct [112; 119] _)). by apply words_check. Defined.

(** ** DESX whitening *)

Lemma xwhite_loop_ok ixs src out o0 o1 :
  Forall (fun i => (i < 8)%nat) ixs -> (8 <= length src)%nat -> (8 <= length out)%nat ->
  exists out' o0' o1', xwhite_loop ixs src out o0 o1 = Ret (out', o0', o1') /\ length out' = length out.
Proof.
  revert out o0 o1. induction ixs as [|i ixs IH]; intros out o0 o1 Hi Hs Ho; [by exists out, o0, o1|].
  apply Forall_cons in Hi as [Hi Hix]. cbn [xwhite_loop].
  destruct (lookup_lt_is_Some_2 src i ltac:(lia)) as [x Ex]. rewrite (load_Some _ _ _ Ex), store_lt by lia.
  set (out1 := <[i:=_]> out). assert (Hl : length out1 = length out) by apply length_insert.
  assert (H7 : (Nat.land i 7 < 8)%nat) by (do 8 (destruct i as [|i]; [vm_compute; lia|]); lia).
  destruct (lookup_lt_is_Some_2 out1 (Nat.land i 7) ltac:(lia)) as [y Ey]. rewrite (load_Some _ _ _ Ey).
  destruct (IH out1 o1 y Hix Hs ltac:(lia)) as (out' & o0' & o1' & E & Hl'). exists out', o0', o1'. by rewrite E, Hl', Hl.
Qed.

(** ([des_xwhite_in2out]).  The routine reads the byte after the
    eight-byte block it writes: it is out of bounds for a [des_cblock], and
    stays in bounds exactly when more memory follows. *)
Theorem xwhite_reads_past_block des_key in_white out :
  (8 <= length des_key)%nat -> (8 <= length in_white)%nat -> (8 <= length out)%nat ->
  (des_xwhite_in2out des_key in_white out = Err Fault <-> length out = 8%nat) /\
  ((8 < length out)%nat -> exists out', des_xwhite_in2out des_key in_white out = Ret out').
Proof.
  intros Hk Hw Ho. unfold des_xwhite_in2out.
  destruct (xwhite_loop_ok (seq 0 8) des_key (list_inserts 0 (repeat 0 8) out) 0 0) as (o1 & a & b & E & Hl);
    [by repeat constructor|done|by rewrite length_inserts|].
  rewrite length_inserts in Hl. rewrite E.
  destruct (lookup_lt_is_Some_2 o1 0 ltac:(lia)) as [x Ex]. rewrite (load_Some _ _ _ Ex).
  assert (H : (8 < length out)%nat -> exists out', (let! out1 := load o1 8 in
    let! (out, _, _) := xwhite_loop (seq 0 8) in_white o1 x out1 in Ret out) = Ret out').
  { intros Hlt. destruct (lookup_lt_is_Some_2 o1 8 ltac:(lia)) as [y Ey]. rewrite (load_Some _ _ _ Ey).
    destruct (xwhite_loop_ok (seq 0 8) in_white o1 x y) as (o2 & ? & ? & E2 & _); [by repeat constructor|done|lia|].
    exists o2. by rewrite E2. }
  split; [|done]. split.
  - intros HF. destruct (decide (8 < length out)%nat) as [Hlt|]; [|lia].
    destruct (H Hlt) as [o Hr]. by rewrite Hr in HF.
  - intros H8. unfold load at 1. rewrite lookup_ge_None_2 by lia. done.
Qed.

Theorem xwhite_reads_past_block_witness :
  des_xwhite_in2out Destest.cbc_key Destest.cbc2_key (repeat 0 8) = Err Fault <-> length (repeat 0 8) = 8%nat.
Proof. refine (proj1 (xwhite_reads_past_block _ _ _ _ _ _)); vm_compute; lia. Defined.
