(* ===== verification/Sort.v ===== *)
(** * The kernel's heap sort (lib/sort.c)

    [sort] works on bytes: elements of [size] bytes, counters scaled by
    [size], an element comparison [cmp] and a swap routine.  [lsort] is the
    same algorithm on a list of elements.  The byte-level routine refines it:
    on an array that represents a list it returns, within the fuel its own
    O(n log n) bound allows, and leaves an array that represents [lsort] of
    the list, touching nothing else ([sort_run]).  [lsort] permutes its list
    and, when [cmp] is a total preorder, sorts it.  [Swap] is the contract
    between [sort] and the swap routine, its own two or the caller's. *)

From S2P Require Import Prelude CMem.
From Stdlib Require Import Permutation.

(** ** The routine *)

(** An [n]-byte access at [p]. *)
Definition load_block (m : mem) (p : addr) (n : nat) : outcome (list Z) :=
  if (p + n <=? length m)%nat then Ret (take n (drop p m)) else Err Fault.

Definition store_block (m : mem) (p : addr) (bs : list Z) : outcome mem :=
  if (p + length bs <=? length m)%nat then Ret (list_inserts p bs m) else Err Fault.

Definition u32_swap (m : mem) (a b : addr) (size : Z) : outcome mem :=
  let! t := load_block m a 4 in
  let! x := load_block m b 4 in
  let! m := store_block m a x in
  store_block m b t.

(** [do { } while (--size > 0)]; [n] is one less than the rounds. *)
Fixpoint generic_swap_loop (n : nat) (m : mem) (a b : addr) : outcome mem :=
  let! t := load m a in
  let! x := load m b in
  let! m := store m a x in
  let! m := store m b t in
  match n with
  | O => Ret m
  | S n => generic_swap_loop n m (S a) (S b)
  end.

Definition generic_swap (m : mem) (a b : addr) (size : Z) : outcome mem :=
  generic_swap_loop (Z.to_nat (s32 size - 1)) m a b.

Section Sort.
Context (cmp : list Z -> list Z -> Z) (swap : mem -> addr -> addr -> Z -> outcome mem).
Context (base : addr) (size : Z).

(** [base + off] *)
Definition at_off (off : Z) : outcome addr :=
  if off <? 0 then Err Fault else Ret (base + Z.to_nat off)%nat.

Definition cmp_at (m : mem) (a b : Z) : outcome Z :=
  let! p := at_off a in
  let! q := at_off b in
  let! x := load_block m p (Z.to_nat size) in
  let! y := load_block m q (Z.to_nat size) in
  Ret (cmp x y).

Definition swap_at (m : mem) (a b : Z) : outcome mem :=
  let! p := at_off a in
  let! q := at_off b in
  swap m p q size.

(** The inner loop of both phases: [for (r = ...; r * 2 < n; r = c)].  In
    [c < n - size] the right side, hence the comparison, is unsigned. *)
Fixpoint sift (fuel : nat) (m : mem) (r n : Z) : outcome mem :=
  if s32 (r * 2) <? n then
    match fuel with
    | O => Err Diverge
    | S fuel =>
        let c := s32 (r * 2) in
        let! c :=
          (if u32 c <? u32 (n - size) then
             let! x := cmp_at m c (c + size) in Ret (if x <? 0 then s32 (c + size) else c)
           else Ret c) in
        let! x := cmp_at m r c in
        if 0 <=? x then Ret m
        else
          let! m := swap_at m r c in
          sift fuel m c n
    end
  else Ret m.

(** [rounds] bounds the outer loop, [fuel] each run of the inner one. *)
Fixpoint heapify (fuel rounds : nat) (m : mem) (i n : Z) : outcome mem :=
  if 0 <=? i then
    match rounds with
    | O => Err Diverge
    | S rounds =>
        let! m := sift fuel m i n in
        heapify fuel rounds m (s32 (i - size)) n
    end
  else Ret m.

Fixpoint extract (fuel rounds : nat) (m : mem) (i : Z) : outcome mem :=
  if 0 <=? i then
    match rounds with
    | O => Err Diverge
    | S rounds =>
        let! m := swap_at m 0 i in
        let! m := sift fuel m 0 i in
        extract fuel rounds m (s32 (i - size))
    end
  else Ret m.
End Sort.

(** The inner loop descends one level of the heap per iteration. *)
Definition sift_fuel (num : nat) : nat := 2 + Nat.log2 num.

(** [swap] is NULL or a routine of the caller. *)
Definition sort (m : mem) (base : addr) (num size : Z) (cmp : list Z -> list Z -> Z)
    (swap : option (mem -> addr -> addr -> Z -> outcome mem)) : outcome mem :=
  let i := s32 (num / 2 * size) in
  let n := s32 (num * size) in
  let swap := match swap with
              | Some swap => swap
              | None => if size =? 4 then u32_swap else generic_swap
              end in
  let fuel := sift_fuel (Z.to_nat num) in
  let! m := heapify cmp swap base size fuel (S (Z.to_nat (num / 2))) m i n in
  extract cmp swap base size fuel (Z.to_nat num) m (s32 (n - size)).

(** ** The same on a list *)

Section ListSort.
Context {A : Type} (d : A) (cmp : A -> A -> Z).

Definition at_ (l : list A) (i : nat) : A := nth i l d.
Definition exchange (l : list A) (i j : nat) : list A := <[i := at_ l j]> (<[j := at_ l i]> l).

(** The child of [r] that the sift descends to. *)
Definition child (l : list A) (r n : nat) : nat :=
  if (2 * r <? n - 1)%nat && (cmp (at_ l (2 * r)) (at_ l (S (2 * r))) <? 0)
  then S (2 * r) else (2 * r)%nat.

Fixpoint lsift (fuel : nat) (l : list A) (r n : nat) : list A :=
  match fuel with
  | O => l
  | S fuel =>
      if (2 * r <? n)%nat then
        let c := child l r n in
        if 0 <=? cmp (at_ l r) (at_ l c) then l else lsift fuel (exchange l r c) c n
      else l
  end.

(** Positions [i], [i - 1], ..., 0. *)
Fixpoint lheapify (fuel : nat) (l : list A) (i n : nat) : list A :=
  let l := lsift fuel l i n in
  match i with
  | O => l
  | S i => lheapify fuel l i n
  end.

Fixpoint lextract (fuel : nat) (l : list A) (i : nat) : list A :=
  let l := lsift fuel (exchange l 0 i) 0 i in
  match i with
  | O => l
  | S i => lextract fuel l i
  end.

Definition lsort (l : list A) : list A :=
  match length l with
  | O => l
  | S n =>
      let fuel := sift_fuel (S n) in
      lextract fuel (lheapify fuel l (S n / 2) (S n)) n
  end.
End ListSort.

Definition intcmp (x y : Z) : Z := x - y.
Example lsort_run : lsort 0 intcmp [3; 9; 1; 4; 4; 0; 7; 2; 8; 5] = [0; 1; 2; 3; 4; 4; 5; 7; 8; 9].
Proof. vm_compute. reflexivity. Qed.
Definition headcmp (x y : list Z) : Z := nth 0 x 0 - nth 0 y 0.
Example sort_run_bytes :
  sort [77; 3; 30; 9; 90; 1; 10; 4; 40; 4; 41; 0; 0; 99] 1 6 2 headcmp None =
  Ret [77; 0; 0; 1; 10; 3; 30; 4; 40; 4; 41; 9; 90; 99].
Proof. vm_compute. reflexivity. Qed.

(** ** Exchanges *)

Section Exchange.
Context {A : Type} (d : A).
Implicit Types l : list A.

Lemma at_lookup l i x : l !! i = Some x -> at_ d l i = x.
Proof. intros Hx. unfold at_. by rewrite nth_lookup, Hx. Qed.

Lemma lookup_at l i : (i < length l)%nat -> l !! i = Some (at_ d l i).
Proof.
  intros Hi. destruct (lookup_lt_is_Some_2 l i Hi) as [x Hx]. by rewrite (at_lookup l i x Hx).
Qed.

Lemma length_exchange l i j : length (exchange d l i j) = length l.
Proof. unfold exchange. by rewrite !length_insert. Qed.

Lemma at_exchange l i j k :
  (i < length l)%nat -> (j < length l)%nat ->
  at_ d (exchange d l i j) k =
    if decide (k = i) then at_ d l j else if decide (k = j) then at_ d l i else at_ d l k.
Proof.
  intros Hi Hj. unfold exchange, at_ at 1. rewrite nth_lookup.
  case_decide as Hk; [subst; by rewrite list_lookup_insert_eq by (by rewrite length_insert)|].
  rewrite list_lookup_insert_ne by done.
  case_decide as Hk'; [subst; by rewrite list_lookup_insert_eq by done|].
  rewrite list_lookup_insert_ne by done. by rewrite <-nth_lookup.
Qed.

(** The two ways an exchange of positions of a list can look. *)
Lemma exchange_self l i : (i < length l)%nat -> exchange d l i i = l.
Proof.
  intros Hi. unfold exchange. rewrite list_insert_insert_eq.
  by apply list_insert_id, lookup_at.
Qed.

Lemma exchange_comm l i j :
  (i < length l)%nat -> (j < length l)%nat -> exchange d l i j = exchange d l j i.
Proof.
  intros Hi Hj. destruct (decide (i = j)) as [->|Hne]; [done|].
  unfold exchange. by apply list_insert_insert_ne.
Qed.

Lemma split_two l i j :
  (i < j < length l)%nat ->
  exists l1 l2 l3 x y, l = l1 ++ x :: l2 ++ y :: l3 /\ length l1 = i /\ (i + S (length l2) = j)%nat
    /\ exchange d l i j = l1 ++ y :: l2 ++ x :: l3.
Proof.
  intros [Hij Hj].
  exists (take i l), (take (j - S i) (drop (S i) l)), (drop (S j) l), (at_ d l i), (at_ d l j).
  assert (Hl : l = take i l ++ at_ d l i :: take (j - S i) (drop (S i) l) ++ at_ d l j :: drop (S j) l).
  { rewrite <-(take_drop i l) at 1. f_equal.
    rewrite (drop_S l (at_ d l i) i) by (apply lookup_at; lia). f_equal.
    rewrite <-(take_drop (j - S i) (drop (S i) l)) at 1. f_equal.
    rewrite drop_drop. replace (S i + (j - S i))%nat with j by lia.
    apply drop_S, lookup_at. lia. }
  assert (H1 : length (take i l) = i) by (rewrite length_take; lia).
  assert (H2 : (i + S (length (take (j - S i) (drop (S i) l))) = j)%nat)
    by (rewrite length_take, length_drop; lia).
  split_and!; [done..|].
  unfold exchange. revert Hl H1 H2.
  generalize (take i l), (take (j - S i) (drop (S i) l)), (drop (S j) l), (at_ d l i), (at_ d l j).
  intros l1 l2 l3 x y -> H1 H2. subst i j.
  replace (l1 ++ x :: l2 ++ y :: l3) with ((l1 ++ x :: l2) ++ y :: l3) by (by rewrite <-app_assoc).
  replace (length l1 + S (length l2))%nat with (length (l1 ++ x :: l2) + 0)%nat
    by (rewrite length_app; simpl; lia).
  rewrite insert_app_r. simpl. rewrite <-app_assoc.
  replace (length l1) with (length l1 + 0)%nat at 1 by lia.
  by rewrite insert_app_r.
Qed.

Lemma exchange_perm l i j : (i < length l)%nat -> (j < length l)%nat -> exchange d l i j ≡ₚ l.
Proof.
  intros Hi Hj.
  assert (H : forall i j, (i < j < length l)%nat -> exchange d l i j ≡ₚ l).
  { clear. intros i j Hij. destruct (split_two l i j Hij) as (l1 & l2 & l3 & x & y & Hl & _ & _ & ->).
    rewrite Hl. apply Permutation_app_head.
    rewrite <-!Permutation_middle. apply perm_swap. }
  destruct (Nat.lt_trichotomy i j) as [?|[->|?]].
  - by apply H.
  - by rewrite exchange_self.
  - rewrite exchange_comm by done. by apply H.
Qed.
End Exchange.

(** ** The sift *)

Section Sift.
Context {A : Type} (d : A) (cmp : A -> A -> Z).
Implicit Types l : list A.
Abbreviation at_ := (at_ d).
Abbreviation ge x y := (0 <= cmp x y).

(** Enough fuel to descend from [r] to a leaf of a heap of [n] elements. *)
Definition enough (fuel r n : nat) : Prop :=
  (n <= r * 2 ^ fuel)%nat \/ exists f, fuel = S f /\ (n <= 2 ^ f)%nat.

Lemma enough_root n i : (n <= i)%nat -> enough (sift_fuel i) 0 n.
Proof.
  intros Hi. right. exists (S (Nat.log2 i)). split; [done|].
  destruct i; [simpl; lia|]. pose proof (Nat.log2_spec (S i) ltac:(lia)). lia.
Qed.

Lemma enough_any n i r : (n <= i)%nat -> enough (sift_fuel i) r n.
Proof.
  intros Hi. destruct (decide (r = 0%nat)) as [->|Hr]; [by apply enough_root|].
  left. destruct (enough_root n i Hi) as [H|(f & Hf & ?)]; [rewrite Nat.mul_0_l in H; lia|]. rewrite Hf, Nat.pow_succ_r'. nia.
Qed.

Lemma enough_0 r n : enough 0 r n -> (n <= r)%nat.
Proof. intros [H|(f & ? & _)]; [|done]. simpl in H. lia. Qed.

Lemma child_cases l r n :
  (child d cmp l r n = 2 * r \/ child d cmp l r n = S (2 * r) /\ S (2 * r) < n)%nat.
Proof. unfold child. destruct (Nat.ltb_spec (2 * r) (n - 1)), (cmp _ _ <? 0); cbn [andb]; lia. Qed.

Lemma child_lt l r n : (2 * r < n)%nat -> (child d cmp l r n < n)%nat.
Proof. intros. pose proof (child_cases l r n). simpl in *. lia. Qed.

Context (cmp_refl : forall x, ge x x).

(** The sift only moves to a proper child. *)
Lemma child_gt l r n :
  cmp (at_ l r) (at_ l (child d cmp l r n)) < 0 ->
  (r < child d cmp l r n /\ child d cmp l r n / 2 = r)%nat.
Proof.
  intros Hlt. assert (Hne : child d cmp l r n <> r).
  { intros E. rewrite E in Hlt. specialize (cmp_refl (at_ l r)). lia. }
  destruct (child_cases l r n) as [E|[E ?]]; rewrite E in *.
  - split; [lia|]. rewrite Nat.mul_comm. by apply Nat.div_mul.
  - split; [lia|]. symmetry. apply (Nat.div_unique _ _ _ 1); lia.
Qed.

Lemma enough_child l fuel r n :
  enough (S fuel) r n -> cmp (at_ l r) (at_ l (child d cmp l r n)) < 0 ->
  enough fuel (child d cmp l r n) n.
Proof.
  intros He Hlt. apply child_gt in Hlt as [Hc _]. destruct (child_cases l r n) as [E|[E ?]].
  all: destruct He as [He|(f & [= <-] & He)].
  all: rewrite ?Nat.pow_succ_r' in He; left; nia.
Qed.

(** One unfolding of the sift, by its two tests. *)
Lemma lsift_S fuel l r n :
  lsift d cmp (S fuel) l r n =
    if decide (2 * r < n)%nat then
      if decide (ge (at_ l r) (at_ l (child d cmp l r n))) then l
      else lsift d cmp fuel (exchange d l r (child d cmp l r n)) (child d cmp l r n) n
    else l.
Proof.
  cbn [lsift]. destruct (Nat.ltb_spec (2 * r) n); [rewrite decide_True by done|by rewrite decide_False by lia].
  destruct (Z.leb_spec 0 (cmp (at_ l r) (at_ l (child d cmp l r n))));
    [by rewrite decide_True|by rewrite decide_False by lia].
Qed.

Lemma lsift_perm fuel l r n : (n <= length l)%nat -> lsift d cmp fuel l r n ≡ₚ l.
Proof.
  revert l r. induction fuel as [|fuel IH]; intros l r Hn; [done|].
  rewrite lsift_S. case_decide; [|done]. case_decide; [done|].
  pose proof (child_lt l r n ltac:(lia)).
  rewrite IH by (by rewrite length_exchange). apply exchange_perm; lia.
Qed.

Lemma length_lsift fuel l r n : (n <= length l)%nat -> length (lsift d cmp fuel l r n) = length l.
Proof. intros. by apply Permutation_length, lsift_perm. Qed.

(** The elements of the heap stay in the heap, the others where they are. *)
Lemma lsift_all (P : A -> Prop) fuel l r n :
  (n <= length l)%nat -> (forall a, (a < n)%nat -> P (at_ l a)) ->
  forall a, (a < n)%nat -> P (at_ (lsift d cmp fuel l r n) a).
Proof.
  revert l r. induction fuel as [|fuel IH]; intros l r Hn HP; [done|].
  rewrite lsift_S. case_decide; [|done]. case_decide; [done|].
  pose proof (child_lt l r n ltac:(lia)).
  apply IH; [by rewrite length_exchange|]. intros a Ha.
  rewrite at_exchange by lia. repeat case_decide; apply HP; lia.
Qed.

Lemma lsift_out fuel l r n a :
  (n <= length l)%nat -> (n <= a)%nat -> at_ (lsift d cmp fuel l r n) a = at_ l a.
Proof.
  revert l r. induction fuel as [|fuel IH]; intros l r Hn Ha; [done|].
  rewrite lsift_S. case_decide; [|done]. case_decide; [done|].
  pose proof (child_lt l r n ltac:(lia)).
  rewrite IH by (rewrite ?length_exchange; lia). rewrite at_exchange by lia.
  by rewrite !decide_False by lia.
Qed.

(** ** The heap *)

Context (cmp_total : forall x y, cmp x y < 0 -> ge y x).
Context (cmp_trans : forall x y z, ge x y -> ge y z -> ge x z).

(** Every parent from [s] on, [r] aside, is at least as large as its children. *)
Definition heap_but (r : option nat) (s n : nat) l : Prop :=
  forall j, (1 <= j < n)%nat -> (s <= j / 2)%nat -> Some (j / 2)%nat <> r ->
    ge (at_ l (j / 2)) (at_ l j).
Abbreviation heap := (heap_but None).

(** The hole's children are below the hole's parent. *)
Definition bridged (r s n : nat) l : Prop :=
  forall j, (1 <= j < n)%nat -> (j / 2 = r)%nat -> (s <= r / 2 < r)%nat ->
    ge (at_ l (r / 2)) (at_ l j).

Lemma half_children j r : (j / 2 = r -> j = 2 * r \/ j = S (2 * r))%nat.
Proof.
  intros <-. pose proof (Nat.div_mod_eq j 2). pose proof (Nat.mod_upper_bound j 2). lia.
Qed.

(** The child the sift picks is the larger one. *)
Lemma child_largest l r n j :
  (1 <= j < n)%nat -> (j / 2 = r)%nat -> ge (at_ l (child d cmp l r n)) (at_ l j).
Proof.
  intros Hj Hr. unfold child. apply half_children in Hr as [->| ->].
  all: destruct (Nat.ltb_spec (2 * r) (n - 1)); simpl; try lia; try apply cmp_refl.
  all: case_bool; auto.
Qed.

Lemma heap_filled l r s n :
  heap_but (Some r) s n l ->
  (forall j, (1 <= j < n)%nat -> (j / 2 = r)%nat -> ge (at_ l r) (at_ l j)) -> heap s n l.
Proof.
  intros Hh Hr j Hj Hs _. destruct (decide (j / 2 = r)%nat) as [E|E].
  - rewrite E. by apply Hr.
  - apply Hh; congruence || done.
Qed.

(** One step of the sift moves the hole to the child. *)
Lemma sift_step l r s n :
  let c := child d cmp l r n in
  let l' := exchange d l r c in
  (n <= length l)%nat -> (2 * r < n)%nat -> (s <= r)%nat ->
  cmp (at_ l r) (at_ l c) < 0 ->
  heap_but (Some r) s n l -> bridged r s n l ->
  heap_but (Some c) s n l' /\ bridged c s n l'.
Proof.
  intros c l' Hn Hr Hs Hlt Hh Hb.
  pose proof (child_lt l r n Hr) as Hc. destruct (child_gt l r n Hlt) as [Hrc Hc2]. fold c in Hc, Hrc, Hc2.
  assert (Hat : forall k, at_ l' k = if decide (k = r) then at_ l c else
                                     if decide (k = c) then at_ l r else at_ l k)
    by (intros; apply at_exchange; lia).
  split.
  - intros j Hj Hsj Hne. rewrite !Hat.
    assert (Hjc : (j / 2 <> c)%nat) by congruence.
    rewrite (decide_False (P := (j / 2)%nat = c)) by done.
    destruct (decide (j / 2 = r)%nat) as [E|E].
    + rewrite (decide_False (P := j = r)).
      2:{ intros ->. pose proof (Nat.div_lt r 2). lia. }
      case_decide; [by apply cmp_total|]. by apply child_largest.
    + destruct (decide (j = r)) as [->|Hjr].
      * apply Hb; [|done|]; [lia|]. pose proof (Nat.div_lt r 2). lia.
      * rewrite decide_False by congruence. apply Hh; congruence || done.
  - intros j Hj Hjc Hsc. rewrite !Hat, Hc2. rewrite decide_True by done.
    assert (c <= j)%nat by (subst c; rewrite <-Hjc; apply Nat.Div0.div_le_upper_bound; lia).
    rewrite (decide_False (P := j = r)) by lia. rewrite decide_False.
    2:{ intros ->. lia. }
    rewrite <-Hjc. apply Hh; [done|lia|]. rewrite Hjc. intros [= E]. lia.
Qed.

Lemma lsift_heap fuel l r s n :
  (n <= length l)%nat -> (s <= r)%nat -> enough fuel r n ->
  heap_but (Some r) s n l -> bridged r s n l -> heap s n (lsift d cmp fuel l r n).
Proof.
  revert l r. induction fuel as [|fuel IH]; intros l r Hn Hs He Hh Hb.
  all: assert (Hleaf : (n <= 2 * r)%nat -> heap s n l) by
    (intros; apply (heap_filled l r); [done|]; intros j Hj Hjr; apply half_children in Hjr; lia || exfalso; lia).
  - simpl. apply Hleaf. apply enough_0 in He. lia.
  - rewrite lsift_S. case_decide; [|apply Hleaf; lia].
    case_decide as Hge.
    + apply (heap_filled l r); [done|]. intros j Hj Hjr.
      eapply cmp_trans; [exact Hge|]. by apply child_largest.
    + apply Z.nle_gt in Hge. destruct (sift_step l r s n) as [Hh' Hb']; [done..|].
      apply IH; [by rewrite length_exchange| |by apply enough_child|done..].
      pose proof (child_gt l r n ltac:(done)). lia.
Qed.

Lemma heap_punch l i n : heap (S i) n l -> heap_but (Some i) i n l.
Proof.
  intros Hh j Hj Hi Hne. apply Hh; [done| |done].
  assert (j / 2 <> i)%nat by congruence. lia.
Qed.

Lemma lheapify_perm fuel l i n : (n <= length l)%nat -> lheapify d cmp fuel l i n ≡ₚ l.
Proof.
  revert l. induction i as [|i IH]; intros l Hn; simpl; [by apply lsift_perm|].
  rewrite IH by (by rewrite length_lsift). by apply lsift_perm.
Qed.

Lemma lheapify_heap l i n k :
  (n <= length l)%nat -> (n <= k)%nat -> heap (S i) n l ->
  heap 0 n (lheapify d cmp (sift_fuel k) l i n).
Proof.
  intros Hn Hk. revert l Hn. induction i as [|i IH]; intros l Hn Hh; cbn [lheapify].
  all: assert (Hs : forall i, heap (S i) n l -> heap i n (lsift d cmp (sift_fuel k) l i n)) by
    (intros; apply lsift_heap; [done..|by apply enough_any|by apply heap_punch|intros ???; lia]).
  - by apply Hs.
  - apply IH; [by rewrite length_lsift|by apply Hs].
Qed.

(** The root of a heap is its largest element. *)
Lemma heap_root l n j : heap 0 n l -> (j < n)%nat -> ge (at_ l 0) (at_ l j).
Proof.
  intros Hh. induction j as [j IH] using lt_wf_ind. intros Hj.
  destruct (decide (j = 0%nat)) as [->|Hj0]; [apply cmp_refl|].
  assert (j / 2 < j)%nat by (apply Nat.div_lt; lia).
  eapply cmp_trans; [apply (IH (j / 2)%nat); lia|]. apply Hh; done || lia.
Qed.

(** What lies beyond [i] is in its final place. *)
Definition settled (i : nat) l : Prop :=
  forall a b, (a < b < length l)%nat -> (i < b)%nat -> ge (at_ l b) (at_ l a).

Lemma lextract_perm fuel l i : (i < length l)%nat -> lextract d cmp fuel l i ≡ₚ l.
Proof.
  revert l. induction i as [|i IH]; intros l Hi; cbn [lextract].
  - rewrite lsift_perm by lia. apply exchange_perm; lia.
  - assert (Hp : lsift d cmp fuel (exchange d l 0 (S i)) 0 (S i) ≡ₚ l)
      by (rewrite lsift_perm by (rewrite length_exchange; lia); apply exchange_perm; lia).
    rewrite IH; [done|]. rewrite Hp. lia.
Qed.

(** One round: the largest element goes to position [i]. *)
Lemma extract_step l i k :
  (i < length l)%nat -> (i <= k)%nat -> heap 0 (S i) l -> settled i l ->
  let l' := lsift d cmp (sift_fuel k) (exchange d l 0 i) 0 i in
  heap 0 i l' /\ settled (i - 1) l'.
Proof.
  intros Hi Hk Hh Hs l'.
  assert (Hle : (i <= length (exchange d l 0 i))%nat) by (rewrite length_exchange; lia).
  assert (Hlen : length l' = length l) by (unfold l'; by rewrite length_lsift, length_exchange).
  assert (Hat : forall a, at_ (exchange d l 0 i) a = if decide (a = 0%nat) then at_ l i else
                    if decide (a = i) then at_ l 0 else at_ l a) by (intros; apply at_exchange; lia).
  split.
  - apply lsift_heap; [done..|by apply enough_root| |].
    + intros j Hj _ Hne. rewrite !Hat.
      assert (j / 2 < j)%nat by (apply Nat.div_lt; lia).
      assert (j / 2 <> 0)%nat by congruence. rewrite !decide_False by lia. apply Hh; done || lia.
    + intros ???. lia.
  - intros a b Hab Hb. unfold l' at 1.
    rewrite (lsift_out (sift_fuel k) (exchange d l 0 i) 0 i b) by (done || lia).
    assert (Hb' : forall a, (a < i)%nat -> ge (at_ (exchange d l 0 i) b) (at_ l' a)).
    { intros a' Ha'. apply lsift_all with (a := a') (P := fun x => ge (at_ (exchange d l 0 i) b) x); [done| |done].
      intros a2 Ha2. rewrite !Hat. repeat case_decide; subst; try lia.
      all: try (apply (heap_root l (S i)); [done|lia]). all: apply Hs; lia. }
    destruct (decide (a < i)%nat) as [Ha|Ha]; [by apply Hb'|].
    unfold l'. rewrite lsift_out by (done || lia). rewrite !Hat. repeat case_decide; subst; try lia; apply Hs; lia.
Qed.

Lemma lextract_settled l i k :
  (i < length l)%nat -> (i <= k)%nat -> heap 0 (S i) l -> settled i l ->
  forall a b, (a < b < length l)%nat -> ge (at_ (lextract d cmp (sift_fuel k) l i) b) (at_ (lextract d cmp (sift_fuel k) l i) a).
Proof.
  revert l. induction i as [|i IH]; intros l Hi Hk Hh Hs; destruct (extract_step l _ k Hi Hk Hh Hs) as [Hh' Hs'].
  all: set (l' := lsift _ _ _ _ _ _) in *; cbn [lextract]; fold l'.
  all: assert (Hlen : length l' = length l) by
    (unfold l'; rewrite length_lsift, length_exchange; rewrite ?length_exchange; lia).
  - intros a b Hab. apply Hs'; lia.
  - intros a b Hab. apply IH; [lia|lia|done| |lia]. by replace (S i - 1)%nat with i in Hs' by lia.
Qed.

Lemma lsort_perm l : lsort d cmp l ≡ₚ l.
Proof.
  unfold lsort. destruct (length l) as [|n] eqn:Hl; [done|]. 
  assert (Hp : lheapify d cmp (sift_fuel (S n)) l (S n / 2) (S n) ≡ₚ l) by (apply lheapify_perm; lia).
  rewrite lextract_perm; [done|]. rewrite Hp. lia.
Qed.

Lemma lsort_sorted l a b :
  (a < b < length l)%nat -> ge (at_ (lsort d cmp l) b) (at_ (lsort d cmp l) a).
Proof.
  unfold lsort. destruct (length l) as [|n] eqn:Hl; [lia|]. intros Hab.
  assert (Hp : length (lheapify d cmp (sift_fuel (S n)) l (S n / 2) (S n)) = S n)
    by (rewrite lheapify_perm by lia; done).
  apply lextract_settled; rewrite ?Hp; [lia..| |intros ???; lia|lia].
  apply lheapify_heap; [lia..|]. intros j Hj Hn. exfalso.
  pose proof (Nat.div_mod_eq (S n) 2). pose proof (Nat.mod_upper_bound (S n) 2).
  pose proof (Nat.div_mod_eq j 2). lia.
Qed.
End Sift.

(** ** The swap routines *)

(** What [sort] asks of a swap routine: on an array of [sz]-byte elements it
    exchanges two elements, possibly the same one, and touches nothing else. *)
Abbreviation elems sz := (Forall (fun x : list Z => length x = sz)).

Class Swap (sz : nat) (swap : mem -> addr -> addr -> Z -> outcome mem) : Prop :=
  swap_spec (pre post : mem) (l : list (list Z)) (i j : nat) :
    elems sz l -> (i < length l)%nat -> (j < length l)%nat ->
    swap (pre ++ concat l ++ post) (length pre + i * sz)%nat (length pre + j * sz)%nat (Z.of_nat sz) =
    Ret (pre ++ concat (exchange [] l i j) ++ post).

Lemma length_concat_elems sz l : elems sz l -> length (concat l) = (length l * sz)%nat.
Proof. induction 1 as [|x l Hx _ IH]; simpl; [done|]. rewrite length_app. lia. Qed.

(** An element of the array, and the bytes before and after it. *)
Lemma split_elem sz (l : list (list Z)) i :
  elems sz l -> (i < length l)%nat ->
  exists p q, concat l = p ++ at_ [] l i ++ q /\ length p = (i * sz)%nat /\ length (at_ [] l i) = sz.
Proof.
  intros Hl Hi. pose proof (lookup_at [] l i Hi) as Hx.
  exists (concat (take i l)), (concat (drop (S i) l)). split_and!.
  - rewrite <-(take_drop_middle l i _ Hx) at 1. by rewrite concat_app.
  - rewrite (length_concat_elems sz) by (by apply Forall_take). rewrite length_take. f_equal. lia.
  - by apply (Forall_lookup_1 _ _ _ _ Hl Hx).
Qed.

(** A routine is a [Swap] when it exchanges two blocks that lie apart, in
    either order of the arguments, and leaves a block exchanged with itself. *)
Lemma Swap_intro sz swap :
  (forall p x q y r, length x = sz -> length y = sz ->
    swap (p ++ x ++ q ++ y ++ r) (length p) (length (p ++ x ++ q)) (Z.of_nat sz) = Ret (p ++ y ++ q ++ x ++ r) /\
    swap (p ++ x ++ q ++ y ++ r) (length (p ++ x ++ q)) (length p) (Z.of_nat sz) = Ret (p ++ y ++ q ++ x ++ r)) ->
  (forall p x r, length x = sz -> swap (p ++ x ++ r) (length p) (length p) (Z.of_nat sz) = Ret (p ++ x ++ r)) ->
  Swap sz swap.
Proof.
  intros Hsw Hid pre post l i j Hl Hi Hj.
  assert (H : forall i j, (i < j < length l)%nat ->
    exists p x q y r, length x = sz /\ length y = sz /\ pre ++ concat l ++ post = p ++ x ++ q ++ y ++ r
      /\ pre ++ concat (exchange [] l i j) ++ post = p ++ y ++ q ++ x ++ r
      /\ (length pre + i * sz)%nat = length p /\ (length pre + j * sz)%nat = length (p ++ x ++ q)).
  { clear i j Hi Hj. intros i j Hij.
    destruct (split_two [] l i j Hij) as (l1 & l2 & l3 & x & y & Hs & Hi & Hj & ->).
    rewrite Hs in Hl. apply Forall_app in Hl as [Hl1 Hl]. apply Forall_cons in Hl as [Hx Hl].
    apply Forall_app in Hl as [Hl2 Hl]. apply Forall_cons in Hl as [Hy Hl3].
    exists (pre ++ concat l1), x, (concat l2), y, (concat l3 ++ post). split_and!; [done..| | | |].
    - rewrite Hs, !concat_app. simpl. rewrite !concat_app. simpl. by rewrite <-!app_assoc.
    - rewrite !concat_app. simpl. rewrite !concat_app. simpl. by rewrite <-!app_assoc.
    - rewrite length_app, (length_concat_elems sz) by done. lia.
    - rewrite !length_app, !(length_concat_elems sz) by done. nia. }
  destruct (Nat.lt_trichotomy i j) as [Hij|[->|Hij]].
  - destruct (H i j ltac:(lia)) as (p & x & q & y & r & Hx & Hy & -> & -> & -> & ->). by apply Hsw.
  - rewrite exchange_self by done. destruct (split_elem sz l j Hl Hj) as (p & q & -> & Hp & Hx).
    rewrite <-!app_assoc, (app_assoc pre p). rewrite <-Hp, <-length_app. by apply Hid.
  - destruct (H j i ltac:(lia)) as (p & x & q & y & r & Hx & Hy & -> & E & -> & ->).
    rewrite exchange_comm, E by done. by apply Hsw.
Qed.

Lemma load_block_app (p x r : mem) n : length x = n -> load_block (p ++ x ++ r) (length p) n = Ret x.
Proof.
  intros <-. unfold load_block. rewrite !length_app.
  destruct (Nat.leb_spec (length p + length x) (length p + (length x + length r))); [|lia].
  by rewrite drop_app_length, take_app_length.
Qed.

Lemma store_block_app (p x y r : mem) :
  length x = length y -> store_block (p ++ x ++ r) (length p) y = Ret (p ++ y ++ r).
Proof.
  intros Hx. unfold store_block. rewrite !length_app.
  destruct (Nat.leb_spec (length p + length y) (length p + (length x + length r))); [|lia].
  f_equal. by apply inserts_middle.
Qed.

#[export] Instance u32_swap_ok : Swap 4 u32_swap.
Proof.
  apply Swap_intro.
  - intros p x q y r Hx Hy. unfold u32_swap.
    assert (Hm : forall u v : mem, p ++ u ++ q ++ v ++ r = (p ++ u ++ q) ++ v ++ r)
      by (intros; by rewrite <-!app_assoc).
    assert (Hl : length (p ++ x ++ q) = length (p ++ y ++ q)) by (rewrite !length_app; lia).
    rewrite load_block_app, Hm, load_block_app, <-Hm by done. split.
    + rewrite store_block_app by lia. rewrite Hm, Hl, store_block_app by lia. by rewrite <-Hm.
    + rewrite Hm, store_block_app, <-Hm by lia. by rewrite store_block_app by lia.
  - intros p x r Hx. unfold u32_swap. rewrite load_block_app by done. by rewrite !store_block_app.
Qed.

Lemma load_app (p r : mem) c : load (p ++ c :: r) (length p) = Ret c.
Proof. unfold load. by rewrite list_lookup_middle. Qed.

Lemma store_app (p r : mem) c c' : store (p ++ c :: r) (length p) c' = Ret (p ++ c' :: r).
Proof.
  rewrite store_lt by (rewrite length_app; simpl; lia).
  rewrite <-(Nat.add_0_r (length p)). by rewrite insert_app_r.
Qed.

(** One round exchanges the first bytes of the two blocks. *)
Lemma generic_swap_round n (p q r : mem) cx cy :
  (forall a b, a = length p /\ b = length (p ++ cx :: q) \/ a = length (p ++ cx :: q) /\ b = length p ->
   generic_swap_loop n (p ++ cx :: q ++ cy :: r) a b =
   match n with
   | O => Ret (p ++ cy :: q ++ cx :: r)
   | S n => generic_swap_loop n (p ++ cy :: q ++ cx :: r) (S a) (S b)
   end).
Proof.
  assert (Hm : forall u v, p ++ u :: q ++ v :: r = (p ++ u :: q) ++ v :: r)
    by (intros; by rewrite <-!app_assoc).
  assert (Hl : length (p ++ cx :: q) = length (p ++ cy :: q)) by (rewrite !length_app; done).
  assert (Hlx : forall k, load (p ++ cx :: q ++ k :: r) (length p) = Ret cx) by (intros; apply load_app).
  assert (Hly : load (p ++ cx :: q ++ cy :: r) (length (p ++ cx :: q)) = Ret cy)
    by (rewrite Hm; apply load_app).
  intros a b [[-> ->]|[-> ->]]; destruct n as [|n]; cbn [generic_swap_loop].
  all: rewrite Hly, Hlx.
  1,2: rewrite store_app, Hm, Hl, store_app, <-Hm; done.
  all: rewrite Hm, store_app, <-Hm, store_app; done.
Qed.

Lemma generic_swap_blocks n (p x q y r : mem) a b :
  length x = S n -> length y = S n ->
  a = length p /\ b = length (p ++ x ++ q) \/ a = length (p ++ x ++ q) /\ b = length p ->
  generic_swap_loop n (p ++ x ++ q ++ y ++ r) a b = Ret (p ++ y ++ q ++ x ++ r).
Proof.
  revert p x q y a b. induction n as [|n IH]; intros p x q y a b Hx Hy Hab.
  all: destruct x as [|cx x], y as [|cy y]; try done; injection Hx as Hx; injection Hy as Hy.
  all: cbn [app] in *.
  all: rewrite (app_assoc x q) in *; rewrite generic_swap_round by done.
  - by apply length_zero_iff_nil in Hx as ->, Hy as ->.
  - replace (p ++ cy :: (x ++ q) ++ cx :: y ++ r) with ((p ++ [cy]) ++ x ++ (q ++ [cx]) ++ y ++ r)
      by (by rewrite <-!app_assoc).
    rewrite IH; [by rewrite <-!app_assoc|done..|].
    rewrite !length_app in *. simpl in *. rewrite !length_app in *. lia.
Qed.

Lemma generic_swap_self n (p x r : mem) :
  length x = S n -> generic_swap_loop n (p ++ x ++ r) (length p) (length p) = Ret (p ++ x ++ r).
Proof.
  revert p x. induction n as [|n IH]; intros p [|c x] Hx; simplify_eq/=.
  all: rewrite load_app; simpl; rewrite !store_app; try done.
  replace (p ++ c :: x ++ r) with ((p ++ [c]) ++ x ++ r) by (by rewrite <-!app_assoc).
  replace (S (length p)) with (length (p ++ [c])) by (rewrite length_app; simpl; lia). by apply IH.
Qed.

Lemma generic_swap_ok sz : (0 < sz)%nat -> Z.of_nat sz < 2 ^ 31 -> Swap sz generic_swap.
Proof.
  intros H0 Hsz. destruct sz as [|n]; [lia|].
  assert (Hn : Z.to_nat (s32 (Z.of_nat (S n)) - 1) = n) by (rewrite s32_small by lia; lia).
  apply Swap_intro; unfold generic_swap; rewrite Hn.
  - intros p x q y r Hx Hy. split; apply generic_swap_blocks; auto.
  - intros. by apply generic_swap_self.
Qed.

(** ** The byte-level routine refines the list-level one *)

Section Refine.
Context (cmp : list Z -> list Z -> Z) (cmp_refl : forall x, 0 <= cmp x x).
Context (sz : nat) (sz_pos : (0 < sz)%nat) (swap : mem -> addr -> addr -> Z -> outcome mem) `{!Swap sz swap}.
Context (pre post : mem).
Implicit Types l : list (list Z).

(** The memory in which the array holds [l], and the byte offset of element [i]. *)
Definition arr l : mem := pre ++ concat l ++ post.
Abbreviation base := (length pre).
Abbreviation size := (Z.of_nat sz).
Definition off (i : nat) : Z := Z.of_nat i * size.

Lemma at_off_off i : at_off base (off i) = Ret (base + i * sz)%nat.
Proof. unfold at_off, off. case_bool; [lia|]. do 2 f_equal. lia. Qed.

Lemma cmp_at_off l a b :
  elems sz l -> (a < length l)%nat -> (b < length l)%nat ->
  cmp_at cmp base size (arr l) (off a) (off b) = Ret (cmp (at_ [] l a) (at_ [] l b)).
Proof.
  intros Hl Ha Hb. unfold cmp_at. rewrite !at_off_off, Nat2Z.id.
  assert (H : forall i, (i < length l)%nat -> load_block (arr l) (base + i * sz) sz = Ret (at_ [] l i)).
  { intros i Hi. destruct (split_elem sz l i Hl Hi) as (p & q & E & Hp & Hx).
    unfold arr. rewrite E, <-!app_assoc, (app_assoc pre), <-Hp, <-length_app. by apply load_block_app. }
  by rewrite !H.
Qed.

Lemma swap_at_off l a b :
  elems sz l -> (a < length l)%nat -> (b < length l)%nat ->
  swap_at swap base size (arr l) (off a) (off b) = Ret (arr (exchange [] l a b)).
Proof. intros. unfold swap_at. rewrite !at_off_off. by apply swap_spec. Qed.

Lemma elems_perm l l' : l ≡ₚ l' -> elems sz l' -> elems sz l.
Proof. by intros ->. Qed.

Lemma off_lt a b : (off a < off b <-> (a < b)%nat).
Proof. unfold off. nia. Qed.

Lemma off_mono a b : (a <= b)%nat -> 0 <= off a <= off b.
Proof. unfold off. nia. Qed.

(** The choice of the child, in scaled counters. *)
Lemma choose_child l r n :
  elems sz l -> (n <= length l)%nat -> (2 * r < n)%nat -> off n < 2 ^ 30 ->
  (if u32 (off (2 * r)) <? u32 (off n - size) then
     let! x := cmp_at cmp base size (arr l) (off (2 * r)) (off (2 * r) + size) in
     Ret (if x <? 0 then s32 (off (2 * r) + size) else off (2 * r))
   else Ret (off (2 * r))) = Ret (off (child [] cmp l r n)).
Proof.
  intros Hl Hn Hr Hb. pose proof (proj2 (off_lt (2 * r) n) Hr).
  assert (E : off n - size = off (n - 1)) by (unfold off; nia).
  assert (E' : off (2 * r) + size = off (S (2 * r))) by (unfold off; nia).
  assert (0 <= off (n - 1) <= off n) by (unfold off; nia).
  unfold u32. rewrite E, !wrap_small by (unfold word; unfold off in *; lia).
  unfold child. destruct (Z.ltb_spec (off (2 * r)) (off (n - 1))) as [H1|H1].
  - apply off_lt in H1. rewrite (proj2 (Nat.ltb_lt _ _)) by done. rewrite E', cmp_at_off by (done || lia).
    cbn [andb]. case_bool; [|done]. pose proof (proj2 (off_lt (S (2 * r)) n) ltac:(lia)).
    rewrite s32_small; [done|]. unfold off in *. lia.
  - rewrite (proj2 (Nat.ltb_ge _ _)); [done|]. unfold off in *. nia.
Qed.

Lemma sift_refines fuel l r n :
  elems sz l -> (r <= n <= length l)%nat -> off n < 2 ^ 30 -> enough fuel r n ->
  sift cmp swap base size fuel (arr l) (off r) (off n) = Ret (arr (lsift [] cmp fuel l r n)).
Proof.
  revert l r. induction fuel as [|fuel IH]; intros l r Hl [Hr Hn] Hb He.
  all: assert (E : s32 (off r * 2) = off (2 * r)) by
    (pose proof (off_mono r n Hr); rewrite s32_small by lia; unfold off; lia).
  all: cbn [sift]; rewrite E; clear E; destruct (Z.ltb_spec (off (2 * r)) (off n)) as [H1|H1].
  - apply off_lt in H1. apply enough_0 in He. lia.
  - done.
  - apply off_lt in H1. rewrite choose_child by done.
    pose proof (child_lt [] cmp l r n H1). rewrite cmp_at_off by (done || lia). rewrite lsift_S, decide_True by done.
    destruct (Z.leb_spec 0 (cmp (at_ [] l r) (at_ [] l (child [] cmp l r n)))).
    + by rewrite decide_True.
    + rewrite decide_False by lia. rewrite swap_at_off by (done || lia).
      apply IH; [|rewrite length_exchange; lia|done|by apply enough_child].
      eapply elems_perm; [|done]. apply exchange_perm; lia.
  - rewrite lsift_S, decide_False; [done|]. rewrite <-off_lt. lia.
Qed.

Lemma off_pred i : off (S i) < 2 ^ 30 -> s32 (off (S i) - size) = off i.
Proof. intros. pose proof (off_mono 0 i). rewrite s32_small; unfold off in *; lia. Qed.

Lemma off_last : off 1 < 2 ^ 30 -> s32 (off 0 - size) = - size.
Proof. intros. rewrite s32_small; unfold off in *; nia. Qed.

Lemma heapify_refines k rounds l i n :
  elems sz l -> (i <= n <= length l)%nat -> (n <= k)%nat -> off n < 2 ^ 30 -> off 1 < 2 ^ 30 -> (i < rounds)%nat ->
  heapify cmp swap base size (sift_fuel k) rounds (arr l) (off i) (off n) =
  Ret (arr (lheapify [] cmp (sift_fuel k) l i n)).
Proof.
  revert l i. induction rounds as [|rounds IH]; intros l i Hl [Hi Hn] Hk Hb H1 Hr; [lia|].
  cbn [heapify]. destruct (Z.leb_spec 0 (off i)); [|unfold off in *; lia].
  rewrite sift_refines by (done || by apply enough_any).
  assert (Hp : lsift [] cmp (sift_fuel k) l i n ≡ₚ l) by (by apply lsift_perm).
  destruct i as [|i]; cbn [lheapify].
  - rewrite off_last by done. destruct rounds; cbn [heapify]; destruct (Z.leb_spec 0 (- size)); done || lia.
  - rewrite off_pred by (unfold off in *; nia).
    apply IH; [by eapply elems_perm|rewrite Hp; lia|done..|lia].
Qed.

Lemma extract_refines k rounds l i :
  elems sz l -> (i < length l)%nat -> (i <= k)%nat -> off (length l) < 2 ^ 30 -> (i < rounds)%nat ->
  extract cmp swap base size (sift_fuel k) rounds (arr l) (off i) =
  Ret (arr (lextract [] cmp (sift_fuel k) l i)).
Proof.
  revert l i. induction rounds as [|rounds IH]; intros l i Hl Hi Hk Hb Hr; [lia|].
  assert (off i < 2 ^ 30 /\ off 1 < 2 ^ 30) as [Hbi Hb1] by (unfold off in *; nia).
  cbn [extract]. destruct (Z.leb_spec 0 (off i)); [|unfold off in *; lia].
  change 0 with (off 0). rewrite swap_at_off by (done || lia).
  assert (Hx : exchange [] l 0 i ≡ₚ l) by (apply exchange_perm; lia).
  rewrite sift_refines; [|by eapply elems_perm|rewrite Hx; lia|done|by apply enough_root].
  assert (Hp : lsift [] cmp (sift_fuel k) (exchange [] l 0 i) 0 i ≡ₚ l)
    by (rewrite lsift_perm; [done|rewrite Hx; lia]).
  destruct i as [|i]; cbn [lextract].
  - rewrite off_last by done. destruct rounds; cbn [extract]; destruct (Z.leb_spec 0 (- size)); done || lia.
  - rewrite off_pred by done. apply IH; [by eapply elems_perm|rewrite ?Hp; lia|lia|by rewrite Hp|lia].
Qed.

Lemma sort_run l :
  elems sz l -> off (length l) < 2 ^ 30 -> off 1 < 2 ^ 30 ->
  sort (arr l) base (Z.of_nat (length l)) size cmp (Some swap) = Ret (arr (lsort [] cmp l)).
Proof.
  intros Hl Hb H1. unfold sort. rewrite Nat2Z.id.
  assert (Hh : Z.of_nat (length l) / 2 = Z.of_nat (length l / 2)) by (by rewrite Nat2Z.inj_div).
  assert (length l / 2 <= length l)%nat by (apply Nat.Div0.div_le_upper_bound; lia).
  rewrite Hh, Nat2Z.id, (s32_small (Z.of_nat (_ / 2) * _)), (s32_small (Z.of_nat (length l) * _))
    by (unfold off in *; nia).
  change (Z.of_nat (length l / 2) * size) with (off (length l / 2)).
  change (Z.of_nat (length l) * size) with (off (length l)).
  rewrite heapify_refines by (done || lia).
  assert (Hp : lheapify [] cmp (sift_fuel (length l)) l (length l / 2) (length l) ≡ₚ l) by (by apply lheapify_perm).
  unfold lsort. destruct (length l) as [|n] eqn:Hlen.
  - rewrite off_last by done. cbn [extract]. destruct (Z.leb_spec 0 (- size)); [lia|].
    by apply length_zero_iff_nil in Hlen as ->.
  - rewrite off_pred by done. apply extract_refines; [by eapply elems_perm|..]; rewrite ?Hp, ?Hlen; done || lia.
Qed.
End Refine.

(** The comparison is a total preorder, as C's convention has it: its sign is
    antisymmetric and "not below" is transitive. *)
Class CmpOrder {A} (cmp : A -> A -> Z) : Prop := {
  cmp_anti x y : Z.sgn (cmp y x) = - Z.sgn (cmp x y);
  cmp_chain x y z : 0 <= cmp x y -> 0 <= cmp y z -> 0 <= cmp x z;
}.

Section Order.
Context {A} (cmp : A -> A -> Z) `{!CmpOrder cmp}.

Lemma order_refl x : 0 <= cmp x x.
Proof. pose proof (cmp_anti x x). lia. Qed.

Lemma order_total x y : cmp x y < 0 -> 0 <= cmp y x.
Proof. pose proof (cmp_anti x y). lia. Qed.

Lemma order_flip x y : 0 <= cmp y x -> cmp x y <= 0.
Proof. pose proof (cmp_anti x y). lia. Qed.
End Order.

#[export] Instance headcmp_order : CmpOrder headcmp.
Proof. split; intros; unfold headcmp in *; lia. Qed.

(** The swap routine [sort] uses when the caller gives none. *)
Definition default_swap (sz : nat) : mem -> addr -> addr -> Z -> outcome mem :=
  if (sz =? 4)%nat then u32_swap else generic_swap.

Lemma default_swap_ok sz : (0 < sz)%nat -> Z.of_nat sz < 2 ^ 30 -> Swap sz (default_swap sz).
Proof.
  intros. unfold default_swap. destruct (Nat.eqb_spec sz 4) as [->|]; [apply _|].
  apply generic_swap_ok; lia.
Qed.

Lemma sort_default m base num sz cmp :
  sort m base num (Z.of_nat sz) cmp None = sort m base num (Z.of_nat sz) cmp (Some (default_swap sz)).
Proof.
  unfold sort, default_swap. destruct (Nat.eqb_spec sz 4) as [->|]; [done|].
  by rewrite (proj2 (Z.eqb_neq _ _)) by lia.
Qed.

Lemma sort_run_any cmp sz (l : list (list Z)) pre post swap :
  (forall x, 0 <= cmp x x) -> (0 < sz)%nat -> elems sz l ->
  Z.of_nat (length l) * Z.of_nat sz < 2 ^ 30 -> Z.of_nat sz < 2 ^ 30 ->
  match swap with Some f => Swap sz f | None => True end ->
  sort (pre ++ concat l ++ post) (length pre) (Z.of_nat (length l)) (Z.of_nat sz) cmp swap =
  Ret (pre ++ concat (lsort [] cmp l) ++ post).
Proof.
  intros Hr Hsz Hl Hb Hb1 Hsw. assert (Hb1' : off sz 1 < 2 ^ 30) by (unfold off; lia).
  destruct swap as [f|].
  - by apply (sort_run cmp Hr sz Hsz f pre post).
  - rewrite sort_default. pose proof (default_swap_ok sz Hsz Hb1).
    by apply (sort_run cmp Hr sz Hsz _ pre post).
Qed.

(** (termination, safety): whatever answers [cmp] gives, as long as it
    never finds an element below itself, [sort] returns within its
    O(n log n) loop bounds, never leaves the array, and permutes the
    elements: for its own swap routines and for any that keep the [Swap]
    contract. *)
Theorem sort_terminates cmp sz (l : list (list Z)) pre post swap :
  (forall x, 0 <= cmp x x) -> (0 < sz)%nat -> elems sz l ->
  Z.of_nat (length l) * Z.of_nat sz < 2 ^ 30 -> Z.of_nat sz < 2 ^ 30 ->
  match swap with Some f => Swap sz f | None => True end ->
  exists l', sort (pre ++ concat l ++ post) (length pre) (Z.of_nat (length l)) (Z.of_nat sz) cmp swap
      = Ret (pre ++ concat l' ++ post) /\ l' ≡ₚ l.
Proof.
  intros. exists (lsort [] cmp l). split; [by apply sort_run_any|by apply lsort_perm].
Qed.

Lemma sort_terminates_witness :
  exists l', sort ([7] ++ concat [[3; 1]; [2; 2]; [1; 3]] ++ [9]) (length [7]) 3 2 headcmp None
      = Ret ([7] ++ concat l' ++ [9]) /\ l' ≡ₚ [[3; 1]; [2; 2]; [1; 3]].
Proof.
  refine (sort_terminates headcmp 2 [[3; 1]; [2; 2]; [1; 3]] [7] [9] None _ _ _ _ _ I); simpl; try lia.
  - intros. unfold headcmp. lia.
  - by repeat constructor.
Defined.

(** C21 (functional): for a comparison that is a total preorder [sort] leaves
    in the array a permutation of its elements in ascending order, and the
    memory around the array as it was. *)
Theorem sort_correct cmp sz (l : list (list Z)) pre post swap :
  CmpOrder cmp -> (0 < sz)%nat -> elems sz l ->
  Z.of_nat (length l) * Z.of_nat sz < 2 ^ 30 -> Z.of_nat sz < 2 ^ 30 ->
  match swap with Some f => Swap sz f | None => True end ->
  exists l', sort (pre ++ concat l ++ post) (length pre) (Z.of_nat (length l)) (Z.of_nat sz) cmp swap
      = Ret (pre ++ concat l' ++ post) /\ l' ≡ₚ l /\
    (forall a b x y, (a < b)%nat -> l' !! a = Some x -> l' !! b = Some y -> cmp x y <= 0).
Proof.
  intros Ho Hsz Hl Hb Hb1 Hsw. pose proof (order_refl cmp) as Hr.
  pose proof (lsort_perm [] cmp l) as Hp.
  exists (lsort [] cmp l). split_and!; [by apply sort_run_any|done|].
  - intros a b x y Hab Hx Hy. apply (order_flip cmp).
    rewrite <-(at_lookup [] _ _ _ Hx), <-(at_lookup [] _ _ _ Hy).
    apply (lsort_sorted [] cmp Hr (order_total cmp) cmp_chain).
    apply lookup_lt_Some in Hy. rewrite Hp in Hy. lia.
Qed.

Lemma sort_correct_witness :
  exists l', sort ([7] ++ concat [[3; 1]; [2; 2]; [1; 3]] ++ [9]) (length [7]) 3 2 headcmp None
      = Ret ([7] ++ concat l' ++ [9]) /\ l' ≡ₚ [[3; 1]; [2; 2]; [1; 3]] /\
    (forall a b x y, (a < b)%nat -> l' !! a = Some x -> l' !! b = Some y -> headcmp x y <= 0).
Proof.
  refine (sort_correct headcmp 2 [[3; 1]; [2; 2]; [1; 3]] [7] [9] None _ _ _ _ _ I); simpl; try lia.
  by repeat constructor.
Defined.
