(* ===== verification/HdIdle.v ===== *)
(** * The disk spin-down daemon (apps/hd-idle/hd-idle.c)

    The daemon polls /proc/diskstats, keeps one record per SCSI disk and
    stops a disk whose sector counters have not changed for [idle_time]
    seconds.  The model is the whole loop: reading the file line by line,
    parsing, the table of disks, the stop command and the log.  The answers
    of the system (clock, open, ioctl, fopen, malloc) are functions of the
    number of the call; every visible action is an event of the trace.
    [disk_step] is the specification, an automaton for one disk; the table
    is shown to run one such automaton per disk. *)

From stdpp Require Import gmap.
From S2P Require Import Prelude.
From Stdlib Require String.
Import String.StringSyntax.

(** ** Strings *)

(** The C library's classes in the C locale. *)
Definition isspace_c (c : Z) : bool := (c =? 32) || ((9 <=? c) && (c <=? 13)).
Definition isdigit_c (c : Z) : bool := (48 <=? c) && (c <=? 57).
Definition isalpha_c (c : Z) : bool := ((65 <=? c) && (c <=? 90)) || ((97 <=? c) && (c <=? 122)).

Fixpoint span (f : Z -> bool) (s : list Z) : list Z * list Z :=
  match s with
  | [] => ([], [])
  | c :: s' => if f c then let '(a, b) := span f s' in (c :: a, b) else ([], s)
  end.

Definition skip_space (s : list Z) : list Z := (span isspace_c s).2.

(** The value of decimal digits, and C's [strtol] and [strtoul] at base 10:
    white space, a sign, digits; a value out of range saturates. *)
Definition decimal (ds : list Z) : Z := fold_left (fun a d => a * 10 + (d - 48)) ds 0.

Definition scan_sign (s : list Z) : bool * list Z :=
  match s with
  | c :: s' => if c =? 45 then (true, s') else if c =? 43 then (false, s') else (false, s)
  | [] => (false, [])
  end.

(** The sign, the digits and what follows them; [None] without digits. *)
Definition scan_int (s : list Z) : option (bool * list Z * list Z) :=
  let s := skip_space s in
  let '(neg, s) := scan_sign s in
  match span isdigit_c s with
  | ([], _) => None
  | (ds, s) => Some (neg, ds, s)
  end.

Definition strtoul10 (neg : bool) (ds : list Z) : Z :=
  let v := decimal ds in
  if 2 ^ 32 <=? v then 2 ^ 32 - 1 else if neg then u32 (- v) else v.

Definition atoi (s : list Z) : Z :=
  match scan_int s with
  | None => 0
  | Some (neg, ds, _) =>
      let v := if neg then - decimal ds else decimal ds in
      Z.max (- 2 ^ 31) (Z.min v (2 ^ 31 - 1))
  end.

(** ** The statistics line *)

Record DISKSTATS := Diskstats {
  name : list Z;
  last_io : Z;
  spindown : Z;
  spinup : Z;
  spun_down : bool;
  reads : Z;
  writes : Z;
}.

Definition name_size : nat := 50.

#[export] Instance DISKSTATS_eq_dec : EqDecision DISKSTATS.
Proof. solve_decision. Defined.

Definition set_name (s : list Z) (d : DISKSTATS) : DISKSTATS :=
  Diskstats s (last_io d) (spindown d) (spinup d) (spun_down d) (reads d) (writes d).
Definition set_reads (n : Z) (d : DISKSTATS) : DISKSTATS :=
  Diskstats (name d) (last_io d) (spindown d) (spinup d) (spun_down d) n (writes d).
Definition set_writes (n : Z) (d : DISKSTATS) : DISKSTATS :=
  Diskstats (name d) (last_io d) (spindown d) (spinup d) (spun_down d) (reads d) n.

(** [sscanf] with a format of conversions separated by white space: a
    conversion is [%*d] or [%*u], [%s] into an array, or [%u]. *)
Inductive conv := SkipNum | GetStr (size : nat) (set : list Z -> DISKSTATS -> DISKSTATS)
  | GetUns (set : Z -> DISKSTATS -> DISKSTATS).

(** The conversions done before the first that fails; a word longer than its
    array overruns it. *)
Fixpoint sscanf (fmt : list conv) (s : list Z) (n : Z) (tmp : DISKSTATS) : outcome (Z * DISKSTATS) :=
  match fmt with
  | [] => Ret (n, tmp)
  | SkipNum :: fmt =>
      match scan_int s with
      | None => Ret (n, tmp)
      | Some (_, _, s) => sscanf fmt s n tmp
      end
  | GetUns set :: fmt =>
      match scan_int s with
      | None => Ret (n, tmp)
      | Some (neg, ds, s) => sscanf fmt s (n + 1) (set (strtoul10 neg ds) tmp)
      end
  | GetStr size set :: fmt =>
      match span (fun c => negb (isspace_c c)) (skip_space s) with
      | ([], _) => Ret (n, tmp)
      | (w, s) => if (length w <? size)%nat then sscanf fmt s (n + 1) (set w tmp) else Err Fault
      end
  end.

(** "%*d %*d %s %*u %*u %u %*u %*u %*u %u %*u %*u %*u %*u" *)
Definition stat_format : list conv :=
  [SkipNum; SkipNum; GetStr name_size set_name; SkipNum; SkipNum; GetUns set_reads;
   SkipNum; SkipNum; SkipNum; GetUns set_writes; SkipNum; SkipNum; SkipNum; SkipNum].

(** A buffer of [fgets] is read by [sscanf] up to its first NUL. *)
Definition scan_line (buf : list Z) (tmp : DISKSTATS) : outcome (Z * DISKSTATS) :=
  sscanf stat_format (span (fun c => negb (c =? 0)) buf).1 0 tmp.

(** The buffers successive calls of [fgets (buf, 200, fp)] fill: a line with
    its newline, or 199 characters of a longer one. *)
Fixpoint fgets_all (room : nat) (acc : list Z) (file : list Z) : list (list Z) :=
  match file with
  | [] => match acc with [] => [] | _ => [rev acc] end
  | c :: file =>
      match room with
      | O => rev acc :: (if c =? 10 then [c] :: fgets_all 199 [] file else fgets_all 198 [c] file)
      | S room => if c =? 10 then rev (c :: acc) :: fgets_all 199 [] file
                  else fgets_all room (c :: acc) file
      end
  end.

(** ** The system *)

Inductive event :=
| EvTime (t : Z)
| EvFopen (ok : bool)
| EvOpen (dev : list Z) (fd : Z)
| EvIoctl (fd : Z) (cdb : list Z) (cmd_len : Z)
| EvClose (fd : Z)
| EvPerror
| EvStatus (masked_status : Z)
| EvMessage
| EvLog (disk : list Z) (at_time running stopped : Z)
| EvSleep (seconds : Z)
| EvSync.

Record Env := MkEnv {
  e_time : nat -> Z;
  e_open : nat -> Z;
  e_ioctl : nat -> Z * Z;          (* the result and [masked_status] *)
  e_fopen : nat -> bool;
  e_malloc : nat -> bool;
}.

(** The number of system calls so far and what they did. *)
Record sys := Sys { calls : nat; trace : list event }.

Definition emit (e : event) (s : sys) : sys := Sys (S (calls s)) (trace s ++ [e]).

(** The options. *)
Record config := Config { idle_time : Z; have_logfile : bool; logfile : list Z; debug : bool }.

Definition default_config : config := Config 600 false (codes "/dev/null") false.

Section Daemon.
Context (env : Env).

Definition time_ (s : sys) : Z * sys :=
  let t := e_time env (calls s) in (t, emit (EvTime t) s).

Definition fopen (s : sys) : bool * sys :=
  let ok := e_fopen env (calls s) in (ok, emit (EvFopen ok) s).

(** SCSI START STOP UNIT with the start bit clear. *)
Definition stop_disk : list Z := [0x1b; 0; 0; 0; 0; 0].

Definition spindown_disk (nm : list Z) (s : sys) : sys :=
  let dev_name := take 99 (codes "/dev/" ++ nm) in
  let fd := e_open env (calls s) in
  let s := emit (EvOpen dev_name fd) s in
  if fd <? 0 then emit EvPerror s
  else
    let '(ret, masked_status) := e_ioctl env (calls s) in
    let s := emit (EvIoctl fd stop_disk 6) s in
    let s := if ret <? 0 then emit EvPerror s
             else if negb (masked_status =? 0) then emit (EvStatus masked_status) s
             else s in
    emit (EvClose fd) s.

Definition log_spinup (ds : DISKSTATS) (s : sys) : sys :=
  let '(ok, s) := fopen s in
  if ok then
    let '(now, s) := time_ s in
    let '(t, s) := time_ s in
    let s := emit (EvLog (name ds) now (s32 (spindown ds - spinup ds)) (s32 (t - spindown ds))) s in
    emit EvSync (emit (EvSleep 3) s)
  else s.

(** The position of the record of a disk in the list at [ds_root]. *)
Fixpoint get_diskstats (ds_root : list DISKSTATS) (nm : list Z) : option nat :=
  match ds_root with
  | [] => None
  | ds :: next =>
      if decide (name ds = nm) then Some 0%nat
      else match get_diskstats next nm with Some i => Some (S i) | None => None end
  end.

(** [sd] and a letter. *)
Definition scsi_name (nm : list Z) : bool :=
  (nth 0 nm 0 =? 115) && (nth 1 nm 0 =? 100) && isalpha_c (nth 2 nm 0) && (nth 3 nm 0 =? 0).

(** The three cases of a probe, the disk's record being [ds]. *)
Definition add_disk (tmp : DISKSTATS) (s : sys) : DISKSTATS * sys :=
  let '(t, s) := time_ s in
  (Diskstats (name tmp) t (spindown tmp) t (spun_down tmp) (reads tmp) (writes tmp), s).

Definition quiet_disk (cfg : config) (now : Z) (ds : DISKSTATS) (s : sys) : DISKSTATS * sys :=
  if negb (spun_down ds) && (idle_time cfg <? s32 (now - last_io ds)) then
    let s := spindown_disk (name ds) s in
    let '(t, s) := time_ s in
    (Diskstats (name ds) (last_io ds) t (spinup ds) true (reads ds) (writes ds), s)
  else (ds, s).

Definition active_disk (cfg : config) (tmp ds : DISKSTATS) (s : sys) : DISKSTATS * sys :=
  let '(ds, s) :=
    if spun_down ds then
      let s := if have_logfile cfg then log_spinup ds s else s in
      let '(t, s) := time_ s in
      (Diskstats (name ds) (last_io ds) (spindown ds) t (spun_down ds) (reads ds) (writes ds), s)
    else (ds, s) in
  let '(t, s) := time_ s in
  (Diskstats (name ds) t (spindown ds) (spinup ds) false (reads tmp) (writes tmp), s).

(** One line of the statistics.  A failed [malloc] is not noticed: the copy
    goes to address 0. *)
Definition handle_line (cfg : config) (buf : list Z) (tmp : DISKSTATS) (ds_root : list DISKSTATS)
    (s : sys) : outcome (DISKSTATS * list DISKSTATS * sys) :=
  let! (n, tmp) := scan_line buf tmp in
  if negb (n =? 3) then Ret (tmp, ds_root, s)
  else
    let '(now, s) := time_ s in
    if negb (scsi_name (name tmp)) then Ret (tmp, ds_root, s)
    else
      match get_diskstats ds_root (name tmp) with
      | None =>
          if e_malloc env (calls s) then
            let '(ds, s) := add_disk tmp s in Ret (tmp, ds :: ds_root, s)
          else Err Fault
      | Some i =>
          match ds_root !! i with
          | None => Err Fault
          | Some ds =>
              let '(ds, s) :=
                if (reads ds =? reads tmp) && (writes ds =? writes tmp)
                then quiet_disk cfg now ds s
                else active_disk cfg tmp ds s in
              Ret (tmp, <[i := ds]> ds_root, s)
          end
      end.

Fixpoint handle_lines (cfg : config) (bufs : list (list Z)) (tmp : DISKSTATS) (ds_root : list DISKSTATS)
    (s : sys) : outcome (list DISKSTATS * sys) :=
  match bufs with
  | [] => Ret (ds_root, s)
  | buf :: bufs =>
      let! (tmp, ds_root, s) := handle_line cfg buf tmp ds_root s in
      handle_lines cfg bufs tmp ds_root s
  end.

Definition tmp0 : DISKSTATS := Diskstats [] 0 0 0 false 0 0.

(** C's division truncates. *)
Definition sleep_time (cfg : config) : Z :=
  if Z.quot (idle_time cfg) 10 =? 0 then 1 else Z.quot (idle_time cfg) 10.

(** The result of the main loop so far: still running, or [return (2)]. *)
Definition poll (cfg : config) (file : list Z) (ds_root : list DISKSTATS) (s : sys) :
    outcome (option Z * list DISKSTATS * sys) :=
  let '(ok, s) := fopen s in
  if ok then
    let! (ds_root, s) := handle_lines cfg (fgets_all 199 [] file) tmp0 ds_root s in
    Ret (None, ds_root, emit (EvSleep (u32 (sleep_time cfg))) s)
  else Ret (Some 2, ds_root, emit EvPerror s).

(** As many rounds of the loop as there are contents of the file. *)
Fixpoint loop (cfg : config) (files : list (list Z)) (ds_root : list DISKSTATS) (s : sys) :
    outcome (option Z * list DISKSTATS * sys) :=
  match files with
  | [] => Ret (None, ds_root, s)
  | file :: files =>
      let! (code, ds_root, s) := poll cfg file ds_root s in
      match code with Some _ => Ret (code, ds_root, s) | None => loop cfg files ds_root s end
  end.

(** The answers of [getopt], as option character and argument. *)
Fixpoint options (opts : list (Z * list Z)) (cfg : config) (s : sys) : (Z + config) * sys :=
  match opts with
  | [] => (inr cfg, s)
  | (opt, optarg) :: opts =>
      if opt =? 116 then (inl 0, spindown_disk optarg s)
      else if opt =? 105 then
        options opts (Config (atoi optarg) (have_logfile cfg) (logfile cfg) (debug cfg)) s
      else if opt =? 108 then options opts (Config (idle_time cfg) true optarg (debug cfg)) s
      else if opt =? 100 then options opts (Config (idle_time cfg) (have_logfile cfg) (logfile cfg) true) s
      else if opt =? 104 then (inl 0, emit EvMessage s)
      else if (opt =? 58) || (opt =? 63) then (inl 1, emit EvMessage s)
      else options opts cfg s
  end.

Definition main (opts : list (Z * list Z)) (files : list (list Z)) (s : sys) :
    outcome (option Z * list DISKSTATS * sys) :=
  match options opts default_config s with
  | (inl code, s) => Ret (Some code, [], s)
  | (inr cfg, s) => loop cfg files [] s
  end.
End Daemon.

(** A quiet disk is stopped at the third poll and not again. *)
Definition demo_env : Env :=
  MkEnv (fun n => Z.min (1000 + 100 * Z.of_nat n) 100000) (fun _ => 3) (fun _ => (0, 0)) (fun _ => true) (fun _ => true).
Definition demo_line : list Z := codes "   8    0 sda 30 5 800 12 9 2 640 7 0 20 19" ++ [10].
Example demo_run :
  match main demo_env [(105, codes "300")] [demo_line; demo_line; demo_line; demo_line] (Sys 0 []) with
  | Ret (None, [ds], s) => (name ds, reads ds, writes ds, spun_down ds, List.filter (fun e => match e with EvIoctl _ _ _ => true | _ => false end) (trace s))
  | _ => ([], 0, 0, false, [])
  end = (codes "sda", 800, 640, true, [EvIoctl 3 stop_disk 6]).
Proof. vm_compute. reflexivity. Qed.

(** ** The specification: one automaton per disk *)

(** What the table knows of a disk, apart from the time stamps of the log. *)
Record disk := Disk { d_last : Z; d_stopped : bool; d_reads : Z; d_writes : Z }.

Inductive act := Appeared | Idle | Stopped | Active.

(** A probe: the disk and its counters, the clock when it was seen, what was
    done about it and the clock when that was done. *)
Record label := Lbl { l_disk : list Z; l_now : Z; l_reads : Z; l_writes : Z; l_act : act; l_done : Z }.

Abbreviation table := (gmap (list Z) disk).

Inductive dstep (idle : Z) (T : table) : label -> table -> Prop :=
| dstep_appear nm now r w t :
    T !! nm = None ->
    dstep idle T (Lbl nm now r w Appeared t) (<[nm := Disk t false r w]> T)
| dstep_idle nm now d t :
    T !! nm = Some d -> d_stopped d = true \/ s32 (now - d_last d) <= idle ->
    dstep idle T (Lbl nm now (d_reads d) (d_writes d) Idle t) T
| dstep_stop nm now d t :
    T !! nm = Some d -> d_stopped d = false -> idle < s32 (now - d_last d) ->
    dstep idle T (Lbl nm now (d_reads d) (d_writes d) Stopped t)
      (<[nm := Disk (d_last d) true (d_reads d) (d_writes d)]> T)
| dstep_active nm now r w d t :
    T !! nm = Some d -> (d_reads d, d_writes d) <> (r, w) ->
    dstep idle T (Lbl nm now r w Active t) (<[nm := Disk t false r w]> T).

Inductive druns (idle : Z) : table -> list label -> table -> Prop :=
| druns_nil T : druns idle T [] T
| druns_cons T T' T'' l ls :
    dstep idle T l T' -> druns idle T' ls T'' -> druns idle T (l :: ls) T''.

Lemma druns_app idle T1 T2 T3 ls1 ls2 :
  druns idle T1 ls1 T2 -> druns idle T2 ls2 T3 -> druns idle T1 (ls1 ++ ls2) T3.
Proof. induction 1; simpl; eauto using druns. Qed.

(** ** The table of the code *)

Definition abs (ds : DISKSTATS) : disk := Disk (last_io ds) (spun_down ds) (reads ds) (writes ds).
Definition view (l : list DISKSTATS) : table := list_to_map ((fun ds => (name ds, abs ds)) <$> l).

(** One record per disk, and only for SCSI disks. *)
Definition wf_table (l : list DISKSTATS) : Prop :=
  NoDup (name <$> l) /\ Forall (fun ds => scsi_name (name ds) = true) l.

Lemma get_diskstats_Some l nm i :
  get_diskstats l nm = Some i -> exists ds, l !! i = Some ds /\ name ds = nm.
Proof.
  revert i. induction l as [|ds l IH]; intros i; simpl; [done|].
  case_decide; [intros [= <-]; eauto|].
  destruct (get_diskstats l nm) as [j|]; [|done]. intros [= <-]. by apply IH.
Qed.

Lemma get_diskstats_None l nm : get_diskstats l nm = None -> nm ∉ name <$> l.
Proof.
  induction l as [|ds l IH]; simpl; [intros _; set_solver|].
  case_decide; [done|]. destruct (get_diskstats l nm); [done|]. set_solver.
Qed.

Lemma view_None l nm : nm ∉ name <$> l -> view l !! nm = None.
Proof.
  intros Hn. apply not_elem_of_list_to_map_1. by rewrite <-list_fmap_compose.
Qed.

Lemma view_Some l i ds :
  NoDup (name <$> l) -> l !! i = Some ds -> view l !! name ds = Some (abs ds).
Proof.
  intros Hd Hi. apply elem_of_list_to_map_1; [by rewrite <-list_fmap_compose|].
  apply list_elem_of_fmap. exists ds. split; [done|]. by eapply list_elem_of_lookup_2.
Qed.

Lemma view_inv l nm d : view l !! nm = Some d -> exists ds, ds ∈ l /\ name ds = nm /\ abs ds = d.
Proof.
  intros H. apply elem_of_list_to_map_2, list_elem_of_fmap in H as (ds & [= -> ->] & H). eauto.
Qed.

Lemma view_update l i ds ds' :
  NoDup (name <$> l) -> l !! i = Some ds -> name ds' = name ds ->
  view (<[i := ds']> l) = <[name ds := abs ds']> (view l).
Proof.
  intros Hd Hi Hn. revert i Hi. induction l as [|x l IH]; intros [|i] Hi; simplify_eq/=.
  - unfold view. simpl. rewrite Hn. by rewrite insert_insert_eq.
  - apply NoDup_cons in Hd as [Hx Hd]. unfold view in *. simpl. rewrite IH by done.
    rewrite insert_insert_ne; [done|]. intros E. apply Hx. rewrite E.
    apply list_elem_of_fmap. exists ds. split; [done|]. by eapply list_elem_of_lookup_2.
Qed.

Lemma names_update (l : list DISKSTATS) i ds ds' :
  l !! i = Some ds -> name ds' = name ds -> name <$> <[i := ds']> l = name <$> l.
Proof.
  intros Hi Hn. rewrite list_fmap_insert, Hn. apply list_insert_id.
  rewrite list_lookup_fmap, Hi. done.
Qed.

Lemma wf_update l i ds ds' :
  wf_table l -> l !! i = Some ds -> name ds' = name ds -> wf_table (<[i := ds']> l).
Proof.
  intros [Hd Hf] Hi Hn. split; [by rewrite (names_update _ _ ds)|].
  apply Forall_insert; [done|]. rewrite Hn. by apply (Forall_lookup_1 _ _ _ _ Hf Hi).
Qed.

Lemma wf_cons l ds :
  wf_table l -> name ds ∉ name <$> l -> scsi_name (name ds) = true -> wf_table (ds :: l).
Proof. intros [Hd Hf] Hn Hs. split; [by apply NoDup_cons|by constructor]. Qed.

(** ** Parsing does not depend on the scratch record *)

(** The fields a line leaves alone are those of a new record. *)
Definition clean (tmp : DISKSTATS) : Prop := spun_down tmp = false.

(** The disk and the counters of a line that is probed. *)
Definition line_probe (buf : list Z) : option (list Z * Z * Z) :=
  match scan_line buf tmp0 with
  | Ret (3, t) => if scsi_name (name t) then Some (name t, reads t, writes t) else None
  | _ => None
  end.

(** The number of conversions depends on the text alone. *)
Lemma sscanf_count fmt s k t1 t2 n1 n2 r1 r2 :
  sscanf fmt s k t1 = Ret (n1, r1) -> sscanf fmt s k t2 = Ret (n2, r2) -> n1 = n2.
Proof.
  revert s k t1 t2. induction fmt as [|c fmt IH]; intros s k t1 t2; simpl; [congruence|].
  destruct c as [|size set|set].
  - destruct (scan_int s) as [[[neg ds] s']|]; [apply IH|congruence].
  - destruct (span _ _) as [[|c w] s']; [congruence|]. destruct (_ <? _)%nat; [apply IH|done].
  - destruct (scan_int s) as [[[neg ds] s']|]; [apply IH|congruence].
Qed.

(** All three fields are set when the result is 3, and no other ever is. *)
Lemma scan_line_fields buf tmp n tmp' :
  scan_line buf tmp = Ret (n, tmp') ->
  (n = 3 -> exists t, scan_line buf tmp0 = Ret (3, t) /\
     name tmp' = name t /\ reads tmp' = reads t /\ writes tmp' = writes t) /\
  (clean tmp -> clean tmp').
Proof.
  unfold scan_line, stat_format, clean. cbn [sscanf]. intros H.
  repeat match type of H with
  | match ?x with _ => _ end = _ => destruct x as [[[? ?] ?]|] eqn:?
  | (let '(_, _) := ?x in _) = _ => destruct x as [? ?] eqn:?
  | match ?x with [] => _ | _ => _ end = _ => destruct x eqn:?
  | (if ?x then _ else _) = _ => destruct x eqn:?
  end; simplify_eq/=; (split; [intros ?; try lia; eauto 10|done]).
Qed.

(** ** What the code does to the system *)

(** The devices a piece of trace tries to stop: only [spindown_disk] opens one. *)
Definition stops (evs : list event) : list (list Z) :=
  omap (fun e => match e with EvOpen dev _ => Some dev | _ => None end) evs.

Definition dev_of (nm : list Z) : list Z := take 99 (codes "/dev/" ++ nm).

Lemma stops_app a b : stops (a ++ b) = stops a ++ stops b.
Proof. apply omap_app. Qed.

(** The attempt to stop a disk. *)
Definition stop_command (nm : list Z) (evs : list event) : Prop :=
  exists fd,
    fd < 0 /\ evs = [EvOpen (dev_of nm) fd; EvPerror] \/
    0 <= fd /\ exists status,
      evs = EvOpen (dev_of nm) fd :: EvIoctl fd stop_disk 6 :: status ++ [EvClose fd] /\
      (status = [] \/ status = [EvPerror] \/ exists st, st <> 0 /\ status = [EvStatus st]).

(** The log entry of a disk that runs again, or the attempt to write it. *)
Definition log_entry (nm : list Z) (evs : list event) : Prop :=
  evs = [EvFopen false] \/
  exists now t running stopped,
    evs = [EvFopen true; EvTime now; EvTime t; EvLog nm now running stopped; EvSleep 3; EvSync].

Lemma stop_command_stops nm evs : stop_command nm evs -> stops evs = [dev_of nm].
Proof.
  intros (fd & [[_ ->]|(_ & st & -> & [->|[->|(x & _ & ->)]])]); done.
Qed.

Lemma log_entry_stops nm evs : log_entry nm evs -> stops evs = [].
Proof. by intros [->|(? & ? & ? & ? & ->)]. Qed.

(** What the labelled step of a disk leaves in the trace: the clock reading
    that is the current time of the probe first, the reading that becomes the
    stamp of the disk last, and in between the stop command, or the log of a
    disk that was stopped. *)
Definition label_events (cfg : config) (l : label) (evs : list event) : Prop :=
  match l_act l with
  | Appeared => evs = [EvTime (l_now l); EvTime (l_done l)]
  | Idle => evs = [EvTime (l_now l)] /\ l_done l = l_now l
  | Stopped => exists cmd, evs = EvTime (l_now l) :: cmd ++ [EvTime (l_done l)] /\ stop_command (l_disk l) cmd
  | Active => exists woken, evs = EvTime (l_now l) :: woken ++ [EvTime (l_done l)] /\
      (woken = [] \/ exists log t, woken = log ++ [EvTime t] /\
         if have_logfile cfg then log_entry (l_disk l) log else log = [])
  end.

(** What one line of the file leaves: a step for the disk and the counters of
    the line, or at most a look at the clock. *)
Inductive line_told (cfg : config) (buf : list Z) : list label -> list event -> Prop :=
| line_skipped evs :
    line_probe buf = None -> evs = [] \/ (exists t, evs = [EvTime t]) -> line_told cfg buf [] evs
| line_probed l evs :
    line_probe buf = Some (l_disk l, l_reads l, l_writes l) -> label_events cfg l evs ->
    line_told cfg buf [l] evs.

Inductive lines_told (cfg : config) : list (list Z) -> list label -> list event -> Prop :=
| lines_none : lines_told cfg [] [] []
| lines_more buf bufs ls1 evs1 ls2 evs2 :
    line_told cfg buf ls1 evs1 -> lines_told cfg bufs ls2 evs2 ->
    lines_told cfg (buf :: bufs) (ls1 ++ ls2) (evs1 ++ evs2).

Definition poll_told (cfg : config) (file : list Z) (code : option Z) (ls : list label) (evs : list event) : Prop :=
  match code with
  | None => exists evs0, lines_told cfg (fgets_all 199 [] file) ls evs0 /\
      evs = EvFopen true :: evs0 ++ [EvSleep (u32 (sleep_time cfg))]
  | Some c => c = 2 /\ ls = [] /\ evs = [EvFopen false; EvPerror]
  end.

(** The whole run: a poll per content of the file until one cannot be opened. *)
Inductive run_told (cfg : config) : list (list Z) -> option Z -> list label -> list event -> Prop :=
| run_none : run_told cfg [] None [] []
| run_exit file files c ls evs :
    poll_told cfg file (Some c) ls evs -> run_told cfg (file :: files) (Some c) ls evs
| run_poll file files code ls1 evs1 ls2 evs2 :
    poll_told cfg file None ls1 evs1 -> run_told cfg files code ls2 evs2 ->
    run_told cfg (file :: files) code (ls1 ++ ls2) (evs1 ++ evs2).

(** The devices the labelled steps stop, and the lines they come from. *)
Definition stopped_devs (ls : list label) : list (list Z) :=
  omap (fun l => match l_act l with Stopped => Some (dev_of (l_disk l)) | _ => None end) ls.
Definition probes_of (ls : list label) : list (list Z * Z * Z) :=
  (fun l => (l_disk l, l_reads l, l_writes l)) <$> ls.
Definition file_probes (file : list Z) : list (list Z * Z * Z) := omap line_probe (fgets_all 199 [] file).

Lemma stopped_devs_app a b : stopped_devs (a ++ b) = stopped_devs a ++ stopped_devs b.
Proof. apply omap_app. Qed.

Lemma probes_of_app a b : probes_of (a ++ b) = probes_of a ++ probes_of b.
Proof. apply fmap_app. Qed.

Lemma label_events_stops cfg l evs : label_events cfg l evs -> stops evs = stopped_devs [l].
Proof.
  unfold label_events, stopped_devs. simpl. destruct (l_act l).
  - by intros ->.
  - by intros [-> _].
  - intros (cmd & -> & Hc). cbn [stops omap list_omap]. change (stops (cmd ++ [EvTime (l_done l)]) = [dev_of (l_disk l)]).
    rewrite stops_app, (stop_command_stops _ _ Hc). done.
  - intros (w & -> & Hw). change (stops (w ++ [EvTime (l_done l)]) = []). rewrite stops_app.
    destruct Hw as [->|(log & t & -> & Hl)]; [done|]. rewrite stops_app.
    destruct (have_logfile cfg); [by rewrite (log_entry_stops _ _ Hl)|by subst].
Qed.

Lemma line_told_facts cfg buf ls evs :
  line_told cfg buf ls evs -> stops evs = stopped_devs ls /\ probes_of ls = option_list (line_probe buf).
Proof.
  intros [evs' Hp [->|[t ->]]|l evs' Hp He]; rewrite Hp; [done|done|].
  split; [by eapply label_events_stops|done].
Qed.

Lemma lines_told_facts cfg bufs ls evs :
  lines_told cfg bufs ls evs -> stops evs = stopped_devs ls /\ probes_of ls = omap line_probe bufs.
Proof.
  induction 1 as [|buf bufs ls1 evs1 ls2 evs2 H1 _ [IH1 IH2]]; [done|].
  apply line_told_facts in H1 as [S1 P1].
  rewrite stops_app, stopped_devs_app, probes_of_app, S1, P1, IH1, IH2. split; [done|].
  simpl. by destruct (line_probe buf).
Qed.

Lemma poll_told_facts cfg file code ls evs :
  poll_told cfg file code ls evs ->
  stops evs = stopped_devs ls /\ probes_of ls = match code with None => file_probes file | Some _ => [] end.
Proof.
  destruct code as [c|]; simpl; [by intros (_ & -> & ->)|].
  intros (e0 & H & ->). apply lines_told_facts in H as [HS HP]. split; [|done].
  change (stops (e0 ++ [EvSleep (u32 (sleep_time cfg))]) = stopped_devs ls). by rewrite stops_app, HS, app_nil_r.
Qed.

Lemma run_told_facts cfg files code ls evs :
  run_told cfg files code ls evs ->
  stops evs = stopped_devs ls /\ (code = None -> probes_of ls = concat (file_probes <$> files)).
Proof.
  induction 1 as [|file files c ls evs H|file files code ls1 evs1 ls2 evs2 H _ [IH1 IH2]]; [done| |].
  - apply poll_told_facts in H as [HS _]. split; [done|discriminate].
  - apply poll_told_facts in H as [HS HP]. rewrite stops_app, stopped_devs_app, probes_of_app, HS, IH1, HP.
    split; [done|]. intros ->. simpl. by rewrite IH2.
Qed.

Section Refinement.
Context (env : Env).

(** The trace reports the answers of the system: call number [k] gave the
    first event, and so on. *)
Definition answer (k : nat) (e : event) : Prop :=
  match e with
  | EvTime t => t = e_time env k
  | EvFopen ok => ok = e_fopen env k
  | EvOpen _ fd => fd = e_open env k
  | _ => True
  end.

Fixpoint answered (k : nat) (evs : list event) : Prop :=
  match evs with [] => True | e :: evs => answer k e /\ answered (S k) evs end.

Lemma answered_app k a b : answered k (a ++ b) <-> answered k a /\ answered (k + length a) b.
Proof.
  revert k. induction a as [|e a IH]; intros k; simpl.
  - rewrite Nat.add_0_r. tauto.
  - rewrite IH, Nat.add_succ_r. tauto.
Qed.

(** The system moves on, and what happens is [evs]. *)
Record moves (s s' : sys) (evs : list event) : Prop := {
  mv_calls : calls s' = (calls s + length evs)%nat;
  mv_trace : trace s' = trace s ++ evs;
  mv_answered : answered (calls s) evs;
}.

Lemma moves_refl s : moves s s [].
Proof. split; [by rewrite Nat.add_0_r|by rewrite app_nil_r|done]. Qed.

Lemma moves_trans s1 s2 s3 a b : moves s1 s2 a -> moves s2 s3 b -> moves s1 s3 (a ++ b).
Proof.
  intros [C1 T1 A1] [C2 T2 A2]. split.
  - rewrite C2, C1, length_app. lia.
  - by rewrite T2, T1, app_assoc.
  - apply answered_app. by rewrite <-C1.
Qed.

Lemma moves_emit e s : answer (calls s) e -> moves s (emit e s) [e].
Proof. intros H. split; [simpl; lia|done|done]. Qed.

Lemma moves_emit_l e s s' evs : answer (calls s) e -> moves (emit e s) s' evs -> moves s s' (e :: evs).
Proof. intros H1 H2. apply (moves_trans _ _ _ [e] _ (moves_emit e s H1) H2). Qed.

Lemma moves_emit_r e s s' evs : answer (calls s') e -> moves s s' evs -> moves s (emit e s') (evs ++ [e]).
Proof. intros H1 H2. apply (moves_trans _ _ _ _ _ H2 (moves_emit e s' H1)). Qed.

Ltac moving := repeat (apply moves_emit_r; [first [done|by symmetry]|]); apply moves_refl.

Lemma spindown_disk_moves nm s : exists evs, moves s (spindown_disk env nm s) evs /\ stop_command nm evs.
Proof.
  unfold spindown_disk, stop_command. fold (dev_of nm). destruct (Z.ltb_spec (e_open env (calls s)) 0) as [Hfd|Hfd].
  { eexists. split; [moving|]. eexists. by left. }
  destruct (e_ioctl env _) as [ret st]. destruct (ret <? 0); [|destruct (Z.eqb_spec st 0); cbn [negb]].
  all: eexists; (split; [moving|]); eexists; right; (split; [done|]).
  - exists [EvPerror]. auto.
  - exists []. auto.
  - exists [EvStatus st]. split; [done|]. right. right. by exists st.
Qed.

Lemma log_spinup_moves ds s : exists evs, moves s (log_spinup env ds s) evs /\ log_entry (name ds) evs.
Proof.
  unfold log_spinup, fopen, time_. cbv zeta beta iota. destruct (e_fopen env (calls s)) eqn:E.
  - eexists. split; [moving|]. right. by do 4 eexists.
  - eexists. split; [moving|]. by left.
Qed.

(** The stamps of the labels follow each other from [lo] to [hi]. *)
Fixpoint timed (lo : Z) (ls : list label) (hi : Z) : Prop :=
  match ls with
  | [] => lo <= hi
  | l :: ls => lo <= l_now l <= l_done l /\ timed (l_done l) ls hi
  end.

Lemma timed_le lo ls hi : timed lo ls hi -> lo <= hi.
Proof. revert lo. induction ls as [|l ls IH]; intros lo; simpl; [done|]. intros [? H%IH]. lia. Qed.

Lemma timed_bounds lo ls hi x : timed lo ls hi -> x ∈ ls -> lo <= l_now x <= hi.
Proof.
  revert lo. induction ls as [|l ls IH]; intros lo; [by intros _ ?%elem_of_nil|]. simpl.
  intros [? H] [->|Hx]%elem_of_cons.
  - apply timed_le in H. lia.
  - specialize (IH _ H Hx). lia.
Qed.

Lemma timed_weaken lo lo' ls hi hi' : timed lo ls hi -> lo' <= lo -> hi <= hi' -> timed lo' ls hi'.
Proof.
  revert lo lo'. induction ls as [|l ls IH]; intros lo lo'; simpl; [lia|].
  intros [? H] Hl Hh. split; [lia|]. by eapply IH.
Qed.

Lemma timed_app lo ls1 mid ls2 hi : timed lo ls1 mid -> timed mid ls2 hi -> timed lo (ls1 ++ ls2) hi.
Proof.
  revert lo. induction ls1 as [|l ls1 IH]; intros lo; simpl; [|naive_solver].
  intros. eapply timed_weaken; [done..|lia].
Qed.

Definition steady_clock : Prop := forall i j, (i <= j)%nat -> e_time env i <= e_time env j.

(** Clock readings in a trace that reports the answers of a steady clock. *)
Lemma label_events_timed cfg l evs k :
  steady_clock -> answered k evs -> label_events cfg l evs ->
  timed (e_time env k) [l] (e_time env (k + length evs)).
Proof.
  intros Hc Ha He. unfold label_events in He. cbn [timed].
  assert (Hstep : forall a b, (a <= b)%nat -> e_time env a <= e_time env b) by auto.
  assert (Hgen : forall mid, evs = EvTime (l_now l) :: mid ++ [EvTime (l_done l)] ->
    e_time env k <= l_now l <= l_done l /\ l_done l <= e_time env (k + length evs)).
  { intros mid ->. destruct Ha as [E1 Ha]. apply answered_app in Ha as [_ [E2 _]]. cbn [answer] in E1, E2.
    rewrite E1, E2. cbn [length]. rewrite length_app. cbn [length].
    split; [split|]; apply Hstep; lia. }
  destruct (l_act l).
  - by apply (Hgen []).
  - destruct He as [-> ->]. destruct Ha as [E1 _]. cbn [answer length] in *. rewrite E1.
    split; [split|]; apply Hstep; lia.
  - destruct He as (cmd & He & _). by apply (Hgen cmd).
  - destruct He as (w & He & _). by apply (Hgen w).
Qed.

Lemma no_label_timed k n : steady_clock -> timed (e_time env k) [] (e_time env (k + n)).
Proof. intros Hc. simpl. apply Hc. lia. Qed.

Lemma lines_told_timed cfg bufs ls evs k :
  steady_clock -> answered k evs -> lines_told cfg bufs ls evs ->
  timed (e_time env k) ls (e_time env (k + length evs)).
Proof.
  intros Hc Ha Ht. revert k Ha. induction Ht as [|buf bufs ls1 evs1 ls2 evs2 H _ IH]; intros k Ha.
  { by apply no_label_timed. }
  apply answered_app in Ha as [A1 A2]. rewrite length_app, Nat.add_assoc.
  eapply timed_app; [|by apply IH]. destruct H as [evs' _ _|l evs' _ He].
  - by apply no_label_timed.
  - by eapply label_events_timed.
Qed.

Lemma poll_told_timed cfg file code ls evs k :
  steady_clock -> answered k evs -> poll_told cfg file code ls evs ->
  timed (e_time env k) ls (e_time env (k + length evs)).
Proof.
  intros Hc Ha Ht. destruct code as [c|].
  - destruct Ht as (_ & -> & ->). by apply no_label_timed.
  - destruct Ht as (e0 & Hl & ->). destruct Ha as [_ Ha]. apply answered_app in Ha as [Ha _].
    eapply timed_weaken; [by eapply (lines_told_timed cfg _ ls e0 (S k))|apply Hc; lia|].
    cbn [length]. rewrite length_app. apply Hc. lia.
Qed.

Lemma run_told_timed cfg files code ls evs k :
  steady_clock -> answered k evs -> run_told cfg files code ls evs ->
  timed (e_time env k) ls (e_time env (k + length evs)).
Proof.
  intros Hc Ha Ht. revert k Ha.
  induction Ht as [|file files c ls evs H|file files code ls1 evs1 ls2 evs2 H _ IH]; intros k Ha.
  - by apply no_label_timed.
  - by eapply poll_told_timed.
  - apply answered_app in Ha as [A1 A2]. rewrite length_app, Nat.add_assoc.
    eapply timed_app; [by eapply poll_told_timed|by apply IH].
Qed.

(** A piece of the run from the table [l] to [l'] does the labelled steps,
    and [evs] is what happens meanwhile. *)
Record explains (cfg : config) (l : list DISKSTATS) (s : sys) (l' : list DISKSTATS) (s' : sys)
    (ls : list label) (evs : list event) : Prop := {
  ex_steps : druns (idle_time cfg) (view l) ls (view l');
  ex_moves : moves s s' evs;
}.

Lemma explains_none cfg l s s' evs : moves s s' evs -> explains cfg l s l s' [] evs.
Proof. intros H. split; [constructor|done]. Qed.

Lemma explains_app cfg l1 s1 l2 s2 l3 s3 ls1 ls2 e1 e2 :
  explains cfg l1 s1 l2 s2 ls1 e1 -> explains cfg l2 s2 l3 s3 ls2 e2 ->
  explains cfg l1 s1 l3 s3 (ls1 ++ ls2) (e1 ++ e2).
Proof.
  intros [A1 M1] [A2 M2]. split; [by eapply druns_app|by eapply moves_trans].
Qed.

Lemma explains_one cfg l s l' s' lab evs :
  dstep (idle_time cfg) (view l) lab (view l') -> moves s s' evs -> explains cfg l s l' s' [lab] evs.
Proof. intros H1 H2. split; [by econstructor; [|constructor]|done]. Qed.

(** *** The three cases of a probe, each begun by a look at the clock *)

Lemma add_disk_spec cfg now tmp s ds s' :
  clean tmp -> add_disk env tmp s = (ds, s') ->
  name ds = name tmp /\ exists evs t, moves s s' evs /\
    label_events cfg (Lbl (name tmp) now (reads tmp) (writes tmp) Appeared t) (EvTime now :: evs) /\
    abs ds = Disk t false (reads tmp) (writes tmp).
Proof.
  unfold add_disk, time_. intros Hc [= <- <-]. split; [done|].
  exists [EvTime (e_time env (calls s))]. eexists. split_and!; [by apply moves_emit|done|].
  unfold abs. simpl. by rewrite Hc.
Qed.

Lemma quiet_disk_spec cfg now ds s ds' s' :
  quiet_disk env cfg now ds s = (ds', s') ->
  if negb (spun_down ds) && (idle_time cfg <? s32 (now - last_io ds)) then
    name ds' = name ds /\ exists evs t, moves s s' evs /\
      label_events cfg (Lbl (name ds) now (reads ds) (writes ds) Stopped t) (EvTime now :: evs) /\
      abs ds' = Disk (last_io ds) true (reads ds) (writes ds)
  else ds' = ds /\ s' = s.
Proof.
  unfold quiet_disk, time_. destruct (_ && _); intros [= <- <-]; [|done]. split; [done|].
  destruct (spindown_disk_moves (name ds) s) as (cmd & Hm & Hs).
  exists (cmd ++ [EvTime (e_time env (calls (spindown_disk env (name ds) s)))]). eexists.
  split_and!; [by apply moves_emit_r| |done]. by exists cmd.
Qed.

Lemma active_disk_spec cfg now tmp ds s ds' s' :
  active_disk env cfg tmp ds s = (ds', s') ->
  name ds' = name ds /\ exists evs t, moves s s' evs /\
    label_events cfg (Lbl (name ds) now (reads tmp) (writes tmp) Active t) (EvTime now :: evs) /\
    abs ds' = Disk t false (reads tmp) (writes tmp).
Proof.
  unfold active_disk, time_. set (r := if spun_down ds then _ else _).
  assert (Hr : name r.1 = name ds /\ exists woken, moves s r.2 woken /\
    (woken = [] \/ exists log t, woken = log ++ [EvTime t] /\
       if have_logfile cfg then log_entry (name ds) log else log = [])).
  { unfold r. destruct (spun_down ds); [|split; [done|]; exists []; split; [apply moves_refl|by left]].
    split; [done|]. destruct (have_logfile cfg).
    - destruct (log_spinup_moves ds s) as (log & Hm & Hl). eexists.
      split; [by apply moves_emit_r|]. right. by exists log, (e_time env (calls (log_spinup env ds s))).
    - eexists. split; [by apply moves_emit|]. right. by exists [], (e_time env (calls s)). }
  destruct r as [ds1 s1]. destruct Hr as (Hn & woken & Hm & Hw). cbn [fst snd] in *. intros [= <- <-].
  split; [done|]. exists (woken ++ [EvTime (e_time env (calls s1))]). eexists.
  split_and!; [by apply moves_emit_r| |done]. by exists woken.
Qed.

Lemma line_probe_Some buf tmp n tmp' :
  scan_line buf tmp = Ret (n, tmp') ->
  line_probe buf = if (n =? 3) && scsi_name (name tmp') then Some (name tmp', reads tmp', writes tmp') else None.
Proof.
  intros H. destruct (scan_line_fields _ _ _ _ H) as [H3 _]. unfold line_probe.
  destruct (Z.eqb_spec n 3) as [->|Hn]; simpl.
  - destruct (H3 eq_refl) as (t & -> & -> & -> & ->). done.
  - destruct (scan_line buf tmp0) as [[n0 t]|] eqn:E; [|done].
    assert (n0 = n) as ->; [|by repeat case_match].
    by eapply sscanf_count.
Qed.

Lemma handle_line_explains cfg buf tmp l s tmp' l' s' :
  wf_table l -> clean tmp -> handle_line env cfg buf tmp l s = Ret (tmp', l', s') ->
  clean tmp' /\ wf_table l' /\ exists ls evs, explains cfg l s l' s' ls evs /\ line_told cfg buf ls evs.
Proof.
  intros Hw Hcl. unfold handle_line.
  destruct (scan_line buf tmp) as [[n t]|] eqn:E; [|done].
  destruct (scan_line_fields _ _ _ _ E) as [_ Hc]. specialize (Hc Hcl).
  pose proof (line_probe_Some _ _ _ _ E) as Hp. destruct (n =? 3); cbn [negb andb] in *.
  2: { intros [= <- <- <-]. split_and!; [done..|]. exists [], []. split; [apply explains_none, moves_refl|].
       apply line_skipped; [done|by left]. }
  unfold time_ at 1. cbv zeta beta iota. set (now := e_time env (calls s)). set (s1 := emit _ s).
  assert (M1 : forall s2 evs, moves s1 s2 evs -> moves s s2 (EvTime now :: evs))
    by (intros; by apply moves_emit_l).
  destruct (scsi_name (name t)) eqn:Hsc; cbn [negb].
  2: { intros [= <- <- <-]. split_and!; [done..|]. exists [], [EvTime now].
       split; [apply explains_none, M1, moves_refl|]. apply line_skipped; [done|right; by exists now]. }
  destruct (get_diskstats l (name t)) as [i|] eqn:Hg.
  - apply get_diskstats_Some in Hg as (ds & Hi & Hn). rewrite Hi. rewrite <-Hn in *.
    pose proof (view_Some l i ds (proj1 Hw) Hi) as Hv.
    destruct (_ && _) eqn:Hsame.
    + apply andb_true_iff in Hsame as [Hr Hwr]. apply Z.eqb_eq in Hr, Hwr. rewrite <-Hr, <-Hwr in Hp.
      destruct (quiet_disk env cfg now ds s1) as [ds' s2] eqn:Hq. intros [= <- <- <-].
      apply quiet_disk_spec in Hq. destruct (negb (spun_down ds) && _) eqn:Hb.
      * apply andb_true_iff in Hb as [Hb1 Hb2]. apply Z.ltb_lt in Hb2. apply negb_true_iff in Hb1.
        destruct Hq as (Hn' & evs & tm & Hm & He & Ha). split_and!; [done|by eapply wf_update|].
        exists [Lbl (name ds) now (reads ds) (writes ds) Stopped tm], (EvTime now :: evs). split; [apply explains_one|by apply line_probed]; [|by apply M1].
        rewrite (view_update l i ds ds'), Ha by (done || apply Hw). by apply (dstep_stop _ _ _ _ (abs ds)).
      * destruct Hq as [-> ->]. rewrite list_insert_id by done. split_and!; [done..|].
        exists [Lbl (name ds) now (reads ds) (writes ds) Idle now], [EvTime now].
        split; [apply explains_one|by apply line_probed]; [|apply M1, moves_refl].
        apply (dstep_idle _ _ _ _ (abs ds)); [done|]. apply andb_false_iff in Hb as [Hb|Hb].
        { left. by apply negb_false_iff in Hb. } right. by apply Z.ltb_ge in Hb.
    + destruct (active_disk env cfg t ds s1) as [ds' s2] eqn:Hq. intros [= <- <- <-].
      apply (active_disk_spec cfg now) in Hq as (Hn' & evs & tm & Hm & He & Ha).
      split_and!; [done|by eapply wf_update|].
      exists [Lbl (name ds) now (reads t) (writes t) Active tm], (EvTime now :: evs). split; [apply explains_one|by apply line_probed]; [|by apply M1].
      rewrite (view_update l i ds ds'), Ha by (done || apply Hw). eapply dstep_active; [done|].
      simpl. intros [= H1 H2]. by rewrite H1, H2, !Z.eqb_refl in Hsame.
  - apply get_diskstats_None in Hg. destruct (e_malloc env (calls s1)); [|done].
    destruct (add_disk env t s1) as [ds s2] eqn:Ha. intros [= <- <- <-].
    apply (add_disk_spec cfg now) in Ha as (Hn & evs & tm & Hm & He & Ha); [|done].
    split_and!; [done|apply wf_cons; [done|by rewrite Hn..]|].
    exists [Lbl (name t) now (reads t) (writes t) Appeared tm], (EvTime now :: evs). split; [apply explains_one|by apply line_probed]; [|by apply M1].
    unfold view. simpl. rewrite Ha, Hn. by apply dstep_appear, view_None.
Qed.

Lemma handle_lines_explains cfg bufs tmp l s l' s' :
  wf_table l -> clean tmp -> handle_lines env cfg bufs tmp l s = Ret (l', s') ->
  wf_table l' /\ exists ls evs, explains cfg l s l' s' ls evs /\ lines_told cfg bufs ls evs.
Proof.
  revert tmp l s. induction bufs as [|buf bufs IH]; intros tmp l s Hw Hc; simpl.
  - intros [= <- <-]. split; [done|]. exists [], []. split; [apply explains_none, moves_refl|constructor].
  - destruct (handle_line env cfg buf tmp l s) as [[[t1 l1] s1]|] eqn:E; [|done]. intros H.
    destruct (handle_line_explains _ _ _ _ _ _ _ _ Hw Hc E) as (Hc1 & Hw1 & ls1 & e1 & E1 & T1).
    destruct (IH _ _ _ Hw1 Hc1 H) as (Hw2 & ls2 & e2 & E2 & T2). split; [done|].
    exists (ls1 ++ ls2), (e1 ++ e2). split; [by eapply explains_app|by constructor].
Qed.

Lemma poll_explains cfg file l s code l' s' :
  wf_table l -> poll env cfg file l s = Ret (code, l', s') ->
  wf_table l' /\ exists ls evs, explains cfg l s l' s' ls evs /\ poll_told cfg file code ls evs.
Proof.
  intros Hw. unfold poll, fopen. cbv zeta beta iota. destruct (e_fopen env (calls s)) eqn:Eo.
  - destruct (handle_lines _ _ _ _ _ _) as [[l1 s2]|] eqn:E; [|done]. intros [= <- <- <-].
    apply handle_lines_explains in E as (Hw1 & ls & evs & [Hd Hm] & T); [|done..]. split; [done|].
    exists ls, (EvFopen true :: evs ++ [EvSleep (u32 (sleep_time cfg))]). split; [|by exists evs].
    split; [done|]. apply moves_emit_l; [by rewrite <-Eo|]. by apply moves_emit_r.
  - intros [= <- <- <-]. split; [done|]. exists [], [EvFopen false; EvPerror]. split; [|done].
    apply explains_none. apply moves_emit_l; [by rewrite <-Eo|]. by apply moves_emit.
Qed.

Lemma loop_explains cfg files l s code l' s' :
  wf_table l -> loop env cfg files l s = Ret (code, l', s') ->
  wf_table l' /\ exists ls evs, explains cfg l s l' s' ls evs /\ run_told cfg files code ls evs.
Proof.
  revert l s. induction files as [|file files IH]; intros l s Hw; simpl.
  - intros [= <- <- <-]. split; [done|]. exists [], []. split; [apply explains_none, moves_refl|constructor].
  - destruct (poll env cfg file l s) as [[[code1 l1] s1]|] eqn:E; [|done].
    apply poll_explains in E as (Hw1 & ls1 & e1 & E1 & T1); [|done]. destruct code1 as [c|].
    + intros [= <- <- <-]. split; [done|]. exists ls1, e1. split; [done|by constructor].
    + intros H. destruct (IH _ _ Hw1 H) as (Hw2 & ls2 & e2 & E2 & T2). split; [done|].
      exists (ls1 ++ ls2), (e1 ++ e2). split; [by eapply explains_app|by constructor].
Qed.

(** *** Returning *)

Definition line_ok (buf : list Z) : Prop := exists r, scan_line buf tmp0 = Ret r.

Lemma sscanf_ok fmt s k t1 t2 r : sscanf fmt s k t1 = Ret r -> exists r2, sscanf fmt s k t2 = Ret r2.
Proof.
  revert s k t1 t2. induction fmt as [|c fmt IH]; intros s k t1 t2; simpl; [eauto|].
  destruct c as [|size set|set].
  - destruct (scan_int s) as [[[neg ds] s']|]; [apply IH|eauto].
  - destruct (span _ _) as [[|c w] s']; [eauto|]. destruct (_ <? _)%nat; [apply IH|done].
  - destruct (scan_int s) as [[[neg ds] s']|]; [apply IH|eauto].
Qed.

Context (malloc_ok : forall n, e_malloc env n = true).

Lemma handle_lines_returns cfg bufs tmp l s :
  Forall line_ok bufs -> exists l' s', handle_lines env cfg bufs tmp l s = Ret (l', s').
Proof.
  intros Hb. revert tmp l s. induction Hb as [|buf bufs [r Hr] _ IH]; intros tmp l s; cbn [handle_lines]; [eauto|].
  assert (exists t1 l1 s1, handle_line env cfg buf tmp l s = Ret (t1, l1, s1)) as (t1 & l1 & s1 & ->); [|apply IH].
  unfold handle_line. destruct (sscanf_ok _ _ _ _ tmp _ Hr) as [[n t] E].
  unfold scan_line. rewrite E. destruct (negb (n =? 3)); [eauto|].
  unfold time_ at 1. cbv zeta beta iota. destruct (negb _); [eauto|].
  destruct (get_diskstats l (name t)) as [i|] eqn:Hg.
  - apply get_diskstats_Some in Hg as (ds & Hi & Hn). rewrite Hi.
    destruct (if _ && _ then _ else _); eauto.
  - rewrite malloc_ok. destruct (add_disk _ _ _). eauto.
Qed.

Lemma loop_returns cfg files l s :
  Forall (fun f => Forall line_ok (fgets_all 199 [] f)) files ->
  exists code l' s', loop env cfg files l s = Ret (code, l', s').
Proof.
  intros Hf. revert l s. induction Hf as [|file files Hb _ IH]; intros l s; cbn [loop]; [eauto|].
  unfold poll, fopen. cbv zeta beta iota. destruct (e_fopen env (calls s)); [|eauto].
  destruct (handle_lines_returns cfg _ tmp0 l (emit (EvFopen true) s) Hb) as (l1 & s1 & ->). apply IH.
Qed.
End Refinement.

(** ** The automaton stops idle disks only *)

(** [past] justifies a stop: since the last sign of life of the disk it has
    only been seen idle, with the same counters, for more than [idle] seconds. *)
Definition justified (idle : Z) (past : list label) (l : label) : Prop :=
  exists a l0 b, past = a ++ l0 :: b /\ l_disk l0 = l_disk l /\
    (l_act l0 = Appeared \/ l_act l0 = Active) /\ (l_reads l0, l_writes l0) = (l_reads l, l_writes l) /\
    idle < s32 (l_now l - l_done l0) /\
    Forall (fun x => l_disk x = l_disk l -> l_act x = Idle /\ (l_reads x, l_writes x) = (l_reads l, l_writes l)) b.

(** What the state of a disk says about the past. *)
Definition recalls (past : list label) (nm : list Z) (d : disk) : Prop :=
  exists a l0 b, past = a ++ l0 :: b /\ l_disk l0 = nm /\
    (l_act l0 = Appeared \/ l_act l0 = Active) /\ (l_reads l0, l_writes l0) = (d_reads d, d_writes d) /\
    l_done l0 = d_last d /\
    Forall (fun x => l_disk x = nm -> (d_stopped d = false -> l_act x = Idle) /\
      (l_reads x, l_writes x) = (d_reads d, d_writes d)) b.

Definition recalls_all (past : list label) (T : table) : Prop :=
  forall nm d, T !! nm = Some d -> recalls past nm d.

Lemma recalls_snoc past nm d d' l :
  recalls past nm d -> (d_last d', d_reads d', d_writes d') = (d_last d, d_reads d, d_writes d) ->
  (d_stopped d' = false -> d_stopped d = false) ->
  (l_disk l = nm -> (d_stopped d' = false -> l_act l = Idle) /\ (l_reads l, l_writes l) = (d_reads d, d_writes d)) ->
  recalls (past ++ [l]) nm d'.
Proof.
  intros (a & l0 & b & -> & Hn & Ha & Hc & Ht & Hb) [= E1 E2 E3] Hs Hl.
  exists a, l0, (b ++ [l]). rewrite <-app_assoc, E1, E2, E3. split_and!; [done..|].
  apply Forall_app_2; [|by constructor]. eapply Forall_impl; [exact Hb|].
  intros x Hx Hd. destruct (Hx Hd). auto.
Qed.

Lemma recalls_new past l d :
  l_act l = Appeared \/ l_act l = Active -> d = Disk (l_done l) false (l_reads l) (l_writes l) ->
  recalls (past ++ [l]) (l_disk l) d.
Proof. intros Ha ->. exists past, l, []. split_and!; done. Qed.

Lemma dstep_other idle T l T' nm : dstep idle T l T' -> l_disk l <> nm -> T' !! nm = T !! nm.
Proof. intros Hs Hne. destruct Hs; simpl in Hne; rewrite ?lookup_insert_ne by done; done. Qed.

Lemma dstep_recalls idle T l T' past :
  recalls_all past T -> dstep idle T l T' -> recalls_all (past ++ [l]) T'.
Proof.
  intros HT Hs nm d. destruct (decide (l_disk l = nm)) as [<-|Hne].
  - destruct Hs as [nm now r w t Hn|nm now d0 t Hd Hc|nm now d0 t Hd Hst Hi|nm now r w d0 t Hd Hc]; simpl.
    + rewrite lookup_insert_eq. intros [= <-]. by apply (recalls_new past (Lbl nm now r w Appeared t)); [left|].
    + intros Hd'. simplify_eq. eapply recalls_snoc; [by apply HT|done|done|done].
    + rewrite lookup_insert_eq. intros [= <-]. by eapply recalls_snoc; [by apply HT|..].
    + rewrite lookup_insert_eq. intros [= <-]. by apply (recalls_new past (Lbl nm now r w Active t)); [right|].
  - intros Hd. rewrite (dstep_other _ _ _ _ _ Hs Hne) in Hd.
    by eapply recalls_snoc; [by apply HT|..].
Qed.

Lemma dstep_justified idle T l T' past :
  recalls_all past T -> dstep idle T l T' -> l_act l = Stopped -> justified idle past l.
Proof.
  intros HT Hs Ha. destruct Hs as [| |nm now d t Hd Hst Hi|]; simplify_eq/=.
  destruct (HT nm d Hd) as (a & l0 & b & -> & Hn & Ha0 & Hc & Ht & Hb).
  exists a, l0, b. simpl. rewrite Ht. split_and!; [done..|].
  eapply Forall_impl; [exact Hb|]. intros x Hx Hd'. destruct (Hx Hd'). auto.
Qed.

Lemma druns_justified idle T ls T' past :
  recalls_all past T -> druns idle T ls T' ->
  forall ls1 l ls2, ls = ls1 ++ l :: ls2 -> l_act l = Stopped -> justified idle (past ++ ls1) l.
Proof.
  intros HT Hr. revert past HT. induction Hr as [T|T T1 T2 l0 ls Hs _ IH]; intros past HT ls1 l ls2 E Ha.
  - by destruct ls1.
  - destruct ls1 as [|x ls1]; simplify_eq/=.
    + rewrite app_nil_r. by eapply dstep_justified.
    + rewrite cons_middle, app_assoc. eapply IH; [|done..]. by eapply dstep_recalls.
Qed.

(** ** The automaton stops every idle disk *)

Definition stop_of (d : disk) : disk := Disk (d_last d) true (d_reads d) (d_writes d).

(** A disk seen only with the counters on record stays as it is or is stopped. *)
Lemma dstep_steady idle T l T' d :
  dstep idle T l T' -> T !! l_disk l = Some d -> (l_reads l, l_writes l) = (d_reads d, d_writes d) ->
  if d_stopped d then T' !! l_disk l = Some d
  else if decide (idle < s32 (l_now l - d_last d))
       then l_act l = Stopped /\ T' !! l_disk l = Some (stop_of d) else T' !! l_disk l = Some d.
Proof.
  intros Hs Hd Hc. destruct Hs as [|nm now d0 t Hd0 Ho|nm now d0 t Hd0 Hst Hi|]; simplify_eq/=; try congruence.
  - destruct (d_stopped d0); [done|]. case_decide; [|done]. destruct Ho; [done|lia].
  - rewrite Hst, decide_True by done. split; [done|]. by rewrite lookup_insert_eq.
Qed.

Definition steady (nm : list Z) (d : disk) (ls : list label) : Prop :=
  Forall (fun l => l_disk l = nm -> (l_reads l, l_writes l) = (d_reads d, d_writes d)) ls.

Lemma druns_stopped_steady idle T ls T' nm d :
  druns idle T ls T' -> T !! nm = Some d -> d_stopped d = true -> steady nm d ls -> T' !! nm = Some d.
Proof.
  induction 1 as [T|T T1 T2 l ls Hs _ IH]; intros Hd Hst Hc; [done|].
  apply Forall_cons in Hc as [Hl Hc]. apply IH; [|done..].
  destruct (decide (l_disk l = nm)) as [<-|Hne]; [|by rewrite (dstep_other _ _ _ _ nm Hs)].
  pose proof (dstep_steady _ _ _ _ d Hs Hd (Hl eq_refl)) as H. by rewrite Hst in H.
Qed.

(** If some probe finds the disk idle for too long, the disk is stopped. *)
Lemma druns_stops idle T ls T' nm d :
  druns idle T ls T' -> T !! nm = Some d -> d_stopped d = false -> steady nm d ls ->
  (Exists (fun l => l_disk l = nm /\ idle < s32 (l_now l - d_last d)) ls ->
     T' !! nm = Some (stop_of d) /\ dev_of nm ∈ stopped_devs ls) /\
  (T' !! nm = Some d \/ T' !! nm = Some (stop_of d) /\ dev_of nm ∈ stopped_devs ls).
Proof.
  induction 1 as [T|T T1 T2 l ls Hs Hr IH]; intros Hd Hst Hc.
  { split; [by intros ?%Exists_nil|by left]. }
  apply Forall_cons in Hc as [Hl Hc].
  assert (Hkeep : T1 !! nm = Some d -> (l_disk l = nm -> ~ idle < s32 (l_now l - d_last d)) ->
    (Exists (fun l => l_disk l = nm /\ idle < s32 (l_now l - d_last d)) (l :: ls) ->
       T2 !! nm = Some (stop_of d) /\ dev_of nm ∈ stopped_devs (l :: ls)) /\
    (T2 !! nm = Some d \/ T2 !! nm = Some (stop_of d) /\ dev_of nm ∈ stopped_devs (l :: ls))).
  { intros H1 Hni. destruct (IH H1 Hst Hc) as [I1 I2].
    assert (Hin : dev_of nm ∈ stopped_devs ls -> dev_of nm ∈ stopped_devs (l :: ls))
      by (unfold stopped_devs; simpl; destruct (l_act l); [done|done| |done]; intros; by right).
    split; [|destruct I2 as [|[]]; auto].
    intros [[Hx Hi]|Hx]%Exists_cons; [by destruct (Hni Hx)|]. destruct (I1 Hx); auto. }
  destruct (decide (l_disk l = nm)) as [<-|Hne].
  - pose proof (dstep_steady _ _ _ _ d Hs Hd (Hl eq_refl)) as H. rewrite Hst in H.
    case_decide as Hi; [|by apply Hkeep]. destruct H as [Ha H].
    assert (T2 !! l_disk l = Some (stop_of d) /\ dev_of (l_disk l) ∈ stopped_devs (l :: ls)); [|tauto].
    split; [by eapply (druns_stopped_steady idle T1 ls T2)|].
    unfold stopped_devs. simpl. rewrite Ha. by left.
  - apply Hkeep; [|done]. by rewrite (dstep_other _ _ _ _ nm Hs).
Qed.

(** ** The daemon *)

(** The new events of a piece of run, and the devices they try to stop. *)
Definition stops_between (s s' : sys) (devs : list (list Z)) : Prop :=
  exists evs, trace s' = trace s ++ evs /\ stops evs = devs.

(** C19 (refinement, type): from a table with one record per SCSI disk the
    main loop returns after any number of polls, whatever the files contain
    as long as no word overruns the name field and memory for new records is
    to be had, with such a table again.  What
    it did is told by the trace, which reports the system's answers in order
    ([answered]): each line that parses as a SCSI disk is one step of the disk
    automaton, on the counters of the line, at the time the clock was first
    read for it, and with the last reading as the stamp the disk gets; each
    [Stopped] step sends one stop command to its disk, and nothing else does. *)
Theorem daemon_refines_automaton env cfg files l s :
  (forall n, e_malloc env n = true) -> wf_table l ->
  Forall (fun f => Forall line_ok (fgets_all 199 [] f)) files ->
  exists code l' s' ls evs, loop env cfg files l s = Ret (code, l', s') /\ wf_table l' /\
    trace s' = trace s ++ evs /\ answered env (calls s) evs /\
    run_told cfg files code ls evs /\ stops evs = stopped_devs ls /\
    druns (idle_time cfg) (view l) ls (view l').
Proof.
  intros Hm Hw Hf. destruct (loop_returns env Hm cfg files l s Hf) as (code & l' & s' & E).
  destruct (loop_explains env cfg files l s code l' s' Hw E) as (Hw' & ls & evs & [Hd [_ Ht Ha]] & Hr).
  exists code, l', s', ls, evs. split_and!; [done..|by eapply run_told_facts|done].
Qed.

(** C22 (safety): started with an empty table the daemon never tries to stop a
    disk that is not idle.  In the steps its trace tells, as above, each that
    sends a stop command belongs to a line with the counters with which the
    disk was last seen to appear or to be active, more than [idle_time]
    seconds ago by the clock, and since then every line of the disk had the
    same counters and did not stop it. *)
Theorem daemon_stops_idle_only env cfg files s code l' s' :
  loop env cfg files [] s = Ret (code, l', s') ->
  exists ls evs, trace s' = trace s ++ evs /\ answered env (calls s) evs /\
    run_told cfg files code ls evs /\ stops evs = stopped_devs ls /\
    (steady_clock env -> timed (e_time env (calls s)) ls (e_time env (calls s'))) /\
    forall past l rest, ls = past ++ l :: rest -> l_act l = Stopped -> justified (idle_time cfg) past l.
Proof.
  intros E. destruct (loop_explains env cfg files [] s code l' s') as (_ & ls & evs & [Hd [Hn Ht Ha]] & Hr);
    [by split; constructor|done|].
  exists ls, evs. split_and!; [done..|by eapply run_told_facts| |].
  - intros Hc. rewrite Hn. by eapply run_told_timed.
  - intros past l rest El Hst. by apply (druns_justified _ (view []) ls (view l') [] ltac:(by intros ??) Hd past l rest El).
Qed.

(** C23 (liveness): a running disk is stopped in time.  If its counters do not
    change in the files read, and a line of it is in the file of a poll that
    begins more than [idle_time] seconds after its last activity, then after
    that poll its record says it is stopped and a stop command has been tried
    on its device. *)
Theorem daemon_stops_idle_disk env cfg files f l s l1 s1 l2 s2 ds :
  steady_clock env -> (forall n, 0 <= e_time env n < 2 ^ 31) -> wf_table l ->
  loop env cfg files l s = Ret (None, l1, s1) -> poll env cfg f l1 s1 = Ret (None, l2, s2) ->
  ds ∈ l -> spun_down ds = false -> 0 <= last_io ds ->
  (forall r w, (name ds, r, w) ∈ concat (file_probes <$> files ++ [f]) -> (r, w) = (reads ds, writes ds)) ->
  (name ds, reads ds, writes ds) ∈ file_probes f ->
  0 <= idle_time cfg < e_time env (calls s1) - last_io ds ->
  (exists ds', ds' ∈ l2 /\ name ds' = name ds /\ spun_down ds' = true) /\
  exists devs, stops_between s s2 devs /\ dev_of (name ds) ∈ devs.
Proof.
  intros Hc Hb Hw E1 E2 Hin Hsp Hlast Hsame Hf Hidle.
  apply list_elem_of_lookup in Hin as [i Hi].
  pose proof (view_Some l i ds (proj1 Hw) Hi) as Hv.
  destruct (loop_explains env cfg files l s None l1 s1 Hw E1) as (Hw1 & ls1 & e1 & X1 & T1).
  destruct (poll_explains env cfg f l1 s1 None l2 s2 Hw1 E2) as (Hw2 & ls2 & e2 & X2 & T2).
  destruct (explains_app env _ _ _ _ _ _ _ _ _ _ _ X1 X2) as [R M].
  destruct (run_told_facts _ _ _ _ _ T1) as [S1 P1]. destruct (poll_told_facts _ _ _ _ _ T2) as [S2 P2].
  specialize (P1 eq_refl). destruct (ex_moves _ _ _ _ _ _ _ _ X2) as [N2 _ A2].
  pose proof (poll_told_timed env cfg f None ls2 e2 (calls s1) Hc A2 T2) as Htm. rewrite <-N2 in Htm.
  assert (Hst : steady (name ds) (abs ds) (ls1 ++ ls2)).
  { apply Forall_forall. intros x Hx Hd. apply Hsame. rewrite fmap_app, concat_app. simpl. rewrite app_nil_r.
    rewrite <-P1, <-P2, <-probes_of_app. apply list_elem_of_fmap. exists x. by rewrite Hd. }
  assert (Hex : Exists (fun x => l_disk x = name ds /\ idle_time cfg < s32 (l_now x - d_last (abs ds))) (ls1 ++ ls2)).
  { rewrite <-P2 in Hf. apply list_elem_of_fmap in Hf as (x & [= Hd _ _] & Hx).
    apply Exists_exists. exists x. split; [apply elem_of_app; by right|]. split; [done|].
    destruct (timed_bounds _ _ _ x Htm Hx) as [B1 B2].
    pose proof (Hb (calls s1)). pose proof (Hb (calls s2)). simpl.
    unfold s32, swrap. rewrite Z.mod_small by (simpl; lia). simpl. lia. }
  destruct (proj1 (druns_stops _ _ _ _ _ _ R Hv Hsp Hst) Hex) as [V D]. split.
  - apply view_inv in V as (ds' & Hin' & Hn' & Ha'). exists ds'. split_and!; [done..|].
    by injection Ha'.
  - eexists. split; [exists (e1 ++ e2); split; [apply M|done]|].
    by rewrite stops_app, S1, S2, <-stopped_devs_app.
Qed.

(** A poll late enough after the disk appeared. *)
Definition demo_cfg : config := Config 300 false [] false.
Definition demo_disk : DISKSTATS := Diskstats (codes "sda") 1000 0 1000 false 800 640.
Definition demo_start : sys := Sys 4 [].
Definition demo_after (k : nat) (l : list DISKSTATS) : list DISKSTATS * sys :=
  match loop demo_env demo_cfg (repeat demo_line k) l demo_start with
  | Ret (_, l, s) => (l, s)
  | Err _ => ([], demo_start)
  end.

Lemma demo_clock : steady_clock demo_env.
Proof. intros i j Hij. simpl. lia. Qed.

Lemma demo_wf : wf_table [demo_disk].
Proof. split; [apply NoDup_singleton|by repeat constructor]. Qed.

Lemma daemon_refines_automaton_witness :
  exists code l' s' ls evs, loop demo_env demo_cfg [demo_line] [] demo_start = Ret (code, l', s') /\ wf_table l' /\
    trace s' = evs /\ answered demo_env 4 evs /\
    run_told demo_cfg [demo_line] code ls evs /\ stops evs = stopped_devs ls /\
    druns 300 (view []) ls (view l').
Proof.
  apply (daemon_refines_automaton demo_env demo_cfg [demo_line] [] demo_start); [done|by split; constructor|].
  constructor; [|constructor]. vm_compute fgets_all. constructor; [|constructor].
  eexists. vm_compute. reflexivity.
Defined.

Lemma daemon_stops_idle_only_witness :
  loop demo_env demo_cfg (repeat demo_line 4) [] demo_start = Ret (None, (demo_after 4 []).1, (demo_after 4 []).2) /\
  exists ls evs, trace (demo_after 4 []).2 = evs /\ answered demo_env 4 evs /\
    run_told demo_cfg (repeat demo_line 4) None ls evs /\ stops evs = stopped_devs ls /\
    (steady_clock demo_env -> timed 1400 ls (e_time demo_env (calls (demo_after 4 []).2))) /\
    forall past l rest, ls = past ++ l :: rest -> l_act l = Stopped -> justified 300 past l.
Proof.
  split; [vm_compute; reflexivity|].
  apply (daemon_stops_idle_only demo_env demo_cfg (repeat demo_line 4) demo_start None (demo_after 4 []).1).
  vm_compute. reflexivity.
Defined.

Lemma daemon_stops_idle_disk_witness :
  spun_down demo_disk = false /\
  (exists ds', ds' ∈ (demo_after 3 [demo_disk]).1 /\ name ds' = codes "sda" /\ spun_down ds' = true) /\
  exists devs, stops_between demo_start (demo_after 3 [demo_disk]).2 devs /\ dev_of (codes "sda") ∈ devs.
Proof.
  split; [reflexivity|].
  apply (daemon_stops_idle_disk demo_env demo_cfg (repeat demo_line 2) demo_line [demo_disk] demo_start
    (demo_after 2 [demo_disk]).1 (demo_after 2 [demo_disk]).2 _ _ demo_disk).
  - apply demo_clock.
  - intros n. simpl. lia.
  - apply demo_wf.
  - vm_compute. reflexivity.
  - vm_compute. reflexivity.
  - by left.
  - reflexivity.
  - simpl. lia.
  - intros r w. vm_compute concat. rewrite !elem_of_cons, elem_of_nil. vm_compute reads. vm_compute writes.
    intros [H|[H|[H|[]]]]; by injection H as -> ->.
  - vm_compute file_probes. by left.
  - vm_compute. by split.
Defined.
