(* ===== verification/Diskstats.v ===== *)
(** * /proc/diskstats, from the kernel to the daemon

    The kernel side: [disk_name] (fs/partitions/check.c), [disk_round_stats]
    (block/ll_rw_blk.c), [seq_printf] (fs/seq_file.c) and [diskstats_show]
    (block/genhd.c), over the model of the kernel's formatter.  The theorem
    joins it to hd-idle: what the daemon parses from the text the kernel
    printed is, disk by disk, the sector counters the kernel holds. *)

From stdpp Require Import gmap.
From S2P Require Import Prelude CMem Ctype Vsprintf Format HdIdle.
From Stdlib Require String.
Import String.StringSyntax.

(** ** The data *)

(** [unsigned sectors[2]], ... of [struct disk_stats], the first for reads. *)
Record disk_stats := DiskStats {
  sectors : Z * Z; ios : Z * Z; merges : Z * Z; ticks : Z * Z; io_ticks : Z; time_in_queue : Z }.

Record hd_struct := HdStruct { nr_sects : Z; hd_ios : Z * Z; hd_sectors : Z * Z }.

Record gendisk := Gendisk {
  major : Z; first_minor : Z; minors : Z; gd_name : list Z;
  part : list (option hd_struct); in_flight : Z; stamp : Z; dkstats : disk_stats }.

(** ** The operations *)

Definition BDEVNAME_SIZE : Z := 32.

(** The string at [p]. *)
Definition string_at (m : mem) (p : nat) : list Z := (span (fun c => negb (c =? 0)) (drop p m)).1.

(** The buffer is the caller's array of [BDEVNAME_SIZE] characters, here at
    address 1 of a memory of its own. *)
Definition disk_name (hd : gendisk) (n : Z) (buf : mem) : outcome (list Z * mem) :=
  let nm := gd_name hd in
  let! (_, buf, _) :=
    (if n =? 0 then snprintf buf 1 BDEVNAME_SIZE (codes "%s") [VStr nm]
     else
       match last nm with
       | None => Err Fault
       | Some c =>
           if isdigit c then snprintf buf 1 BDEVNAME_SIZE (codes "%sp%d") [VStr nm; VNum n]
           else snprintf buf 1 BDEVNAME_SIZE (codes "%s%d") [VStr nm; VNum n]
       end) in
  Ret (string_at buf 1, buf).

(** HZ is 100. *)
Definition jiffies_to_msecs (j : Z) : Z := u32 (10 * j).

Definition disk_round_stats (now : Z) (d : gendisk) : gendisk :=
  if now =? stamp d then d
  else
    let st := dkstats d in
    let st :=
      if negb (in_flight d =? 0) then
        DiskStats (sectors st) (ios st) (merges st) (ticks st)
          (u32 (io_ticks st + u32 (now - stamp d)))
          (u32 (time_in_queue st + in_flight d * u32 (now - stamp d)))
      else st in
    Gendisk (major d) (first_minor d) (minors d) (gd_name d) (part d) (in_flight d) now st.

Record seq_file := SeqFile { sq_mem : mem; sq_buf : Z; sq_size : Z; sq_count : Z }.

Definition seq_printf (sq : seq_file) (f : list Z) (args : list varg) : outcome (Z * seq_file) :=
  if sq_count sq <? sq_size sq then
    let! (len, m, _) :=
      vsnprintf (sq_mem sq) (u32 (sq_buf sq + sq_count sq)) (u32 (sq_size sq - sq_count sq)) f args in
    if u32 (sq_count sq + len) <? sq_size sq then
      Ret (0, SeqFile m (sq_buf sq) (sq_size sq) (u32 (sq_count sq + len)))
    else Ret (-1, SeqFile m (sq_buf sq) (sq_size sq) (sq_size sq))
  else Ret (-1, SeqFile (sq_mem sq) (sq_buf sq) (sq_size sq) (sq_size sq)).

Definition disk_format : list Z := codes "%4d %4d %s %u %u %llu %u %u %u %llu %u %u %u %u" ++ [10].
Definition part_format : list Z := codes "%4d %4d %s %u %u %u %u" ++ [10].

(** The lines of the partitions [n], [n + 1], ..., with [rounds] to go. *)
Fixpoint show_parts (gp : gendisk) (n : nat) (rounds : nat) (sq : seq_file) (buf : mem) :
    outcome (seq_file * mem) :=
  match rounds with
  | O => Ret (sq, buf)
  | S rounds =>
      match part gp !! n with
      | None => Err Fault
      | Some hd =>
          let! (sq, buf) :=
            match hd with
            | Some hd =>
                if negb (nr_sects hd =? 0) then
                  let! (nm, buf) := disk_name gp (Z.of_nat n + 1) buf in
                  let! (_, sq) := seq_printf sq part_format
                    [VNum (major gp); VNum (Z.of_nat n + first_minor gp + 1); VStr nm;
                     VNum (hd_ios hd).1; VNum (hd_sectors hd).1; VNum (hd_ios hd).2; VNum (hd_sectors hd).2] in
                  Ret (sq, buf)
                else Ret (sq, buf)
            | None => Ret (sq, buf)
            end in
          show_parts gp (S n) rounds sq buf
      end
  end.

Definition disk_args (gp : gendisk) (nm : list Z) : list varg :=
  let st := dkstats gp in
  [VNum (major gp); VNum (first_minor gp); VStr nm;
   VNum (ios st).1; VNum (merges st).1; VNum (sectors st).1; VNum (jiffies_to_msecs (ticks st).1);
   VNum (ios st).2; VNum (merges st).2; VNum (sectors st).2; VNum (jiffies_to_msecs (ticks st).2);
   VNum (in_flight gp); VNum (jiffies_to_msecs (io_ticks st)); VNum (jiffies_to_msecs (time_in_queue st))].

(** One disk, at the time [now] of its [disk_round_stats]. *)
Definition diskstats_show (now : Z) (sq : seq_file) (gp : gendisk) : outcome (seq_file * gendisk) :=
  let gp := disk_round_stats now gp in
  let! (nm, buf) := disk_name gp 0 (replicate 33 0) in
  let! (_, sq) := seq_printf sq disk_format (disk_args gp nm) in
  let! (sq, _) := show_parts gp 0 (Z.to_nat (minors gp - 1)) sq buf in
  Ret (sq, gp).

(** The disks of one read of the file, from [diskstats_start] on. *)
Fixpoint show_all (now : Z) (sq : seq_file) (gps : list gendisk) : outcome seq_file :=
  match gps with
  | [] => Ret sq
  | gp :: gps =>
      let! (sq, _) := diskstats_show now sq gp in
      show_all now sq gps
  end.

Definition demo_stats : disk_stats := DiskStats (800, 640) (30, 9) (5, 2) (12, 7) 20 19.
Definition demo_gd : gendisk :=
  Gendisk 8 0 16 (codes "sda") (Some (HdStruct 100 (3, 4) (5, 6)) :: replicate 14 None) 0 7 demo_stats.
Example show_demo :
  match show_all 9 (SeqFile (replicate 200 7) 1 190 0) [demo_gd] with
  | Ret sq => take (Z.to_nat (sq_count sq)) (drop 1 (sq_mem sq))
  | Err _ => []
  end = codes "   8    0 sda 30 5 800 120 9 2 640 70 0 200 190" ++ [10]
     ++ codes "   8    1 sda1 3 5 4 6" ++ [10].
Proof. vm_compute. reflexivity. Qed.

(** ** The text of the file *)

Definition disk_line (gp : gendisk) : list Z :=
  let st := dkstats gp in
  dec_d 4 (major gp) ++ 32 :: dec_d 4 (first_minor gp) ++ 32 :: gd_name gp ++
  concat (map (fun z => 32 :: dec (u32 z))
    [(ios st).1; (merges st).1; (sectors st).1; jiffies_to_msecs (ticks st).1;
     (ios st).2; (merges st).2; (sectors st).2; jiffies_to_msecs (ticks st).2;
     in_flight gp; jiffies_to_msecs (io_ticks st); jiffies_to_msecs (time_in_queue st)]).

Definition part_name (gp : gendisk) (n : Z) : list Z :=
  gd_name gp ++ (match last (gd_name gp) with Some c => if isdigit c then [112] else [] | None => [] end) ++ dec n.

Definition part_line (gp : gendisk) (n : nat) (hd : hd_struct) : list Z :=
  dec_d 4 (major gp) ++ 32 :: dec_d 4 (Z.of_nat n + first_minor gp + 1) ++ 32 :: part_name gp (Z.of_nat n + 1) ++
  concat (map (fun z => 32 :: dec (u32 z)) [(hd_ios hd).1; (hd_sectors hd).1; (hd_ios hd).2; (hd_sectors hd).2]).

Fixpoint part_lines (gp : gendisk) (n rounds : nat) : list (list Z) :=
  match rounds with
  | O => []
  | S rounds =>
      match part gp !! n with
      | Some (Some hd) => if negb (nr_sects hd =? 0) then [part_line gp n hd] else []
      | _ => []
      end ++ part_lines gp (S n) rounds
  end.

Definition disk_lines (now : Z) (gp : gendisk) : list (list Z) :=
  let gp := disk_round_stats now gp in
  disk_line gp :: part_lines gp 0 (Z.to_nat (minors gp - 1)).

Definition text_of (lines : list (list Z)) : list Z := concat (map (fun l => l ++ [10]) lines).

Definition name_char (c : Z) : Prop := 0 < c < 256 /\ isspace_c c = false.

(** A disk as drivers register it; with a name this long no partition name
    is cut to the buffer. *)
Record good_disk (gp : gendisk) : Prop := {
  gd_name_ok : gd_name gp <> [] /\ (length (gd_name gp) <= 20)%nat /\ Forall name_char (gd_name gp);
  gd_major_ok : 0 <= major gp < 2 ^ 20;
  gd_minor_ok : 0 <= first_minor gp < 2 ^ 20;
  gd_minors_ok : 0 <= minors gp < 2 ^ 20 /\ (Z.to_nat (minors gp - 1) <= length (part gp))%nat;
  gd_sectors_ok : is_u32 (sectors (dkstats gp)).1 /\ is_u32 (sectors (dkstats gp)).2;
}.

Lemma round_stats_keeps now gp :
  let gp' := disk_round_stats now gp in
  gd_name gp' = gd_name gp /\ major gp' = major gp /\ first_minor gp' = first_minor gp /\
  minors gp' = minors gp /\ part gp' = part gp /\ sectors (dkstats gp') = sectors (dkstats gp).
Proof.
  unfold disk_round_stats. destruct (now =? stamp gp); [done|]. by destruct (negb _).
Qed.

Lemma good_round now gp : good_disk gp -> good_disk (disk_round_stats now gp).
Proof.
  intros [H1 H2 H3 H4 H5]. destruct (round_stats_keeps now gp) as (E1 & E2 & E3 & E4 & E5 & E6).
  split; by rewrite ?E1, ?E2, ?E3, ?E4, ?E5, ?E6.
Qed.

(** ** Printing it *)

Lemma prints_fields fields args fmt out :
  prints fmt args out ->
  prints (concat (map (fun _ => codes " %u") fields) ++ fmt) (map VNum fields ++ args)
    (concat (map (fun z => 32 :: dec (u32 z)) fields) ++ out).
Proof.
  intros Hp. induction fields as [|z fields IH]; [done|]. cbn [map concat app].
  change (codes " %u") with (32 :: codes "%u"). rewrite <-!app_comm_cons, <-!app_assoc.
  apply prints_char; [done..|]. by apply prints_u.
Qed.

Lemma dec_u64 z : is_u32 z -> dec (u64 z) = dec (u32 z).
Proof.
  intros Hz. unfold u64, u32. rewrite !wrap_small; [done|done|].
  by eapply word_mono; [|exact Hz].
Qed.

(** Concatenations to the right. *)
Ltac norm_app := repeat progress (rewrite <-?app_comm_cons; rewrite <-?app_assoc).

Lemma disk_format_prints gp :
  good_disk gp -> prints disk_format (disk_args gp (gd_name gp)) (disk_line gp ++ [10]).
Proof.
  intros [(_ & Hl & _) Hma Hmi _ [Hs1 Hs2]]. unfold disk_line, disk_args, disk_format.
  norm_app. apply (prints_4d (major gp)); [lia|].
  apply prints_char; [done..|]. apply (prints_4d (first_minor gp)); [lia|].
  apply prints_char; [done..|]. apply prints_s; [lia|].
  set (st := dkstats gp) in *. cbn [map concat]. norm_app.
  pose proof prints_nil as H. apply (prints_char 10 [] [] []) in H; [|done..].
  apply (prints_fields [jiffies_to_msecs (ticks st).2; in_flight gp; jiffies_to_msecs (io_ticks st);
    jiffies_to_msecs (time_in_queue st)]) in H.
  apply (prints_llu (sectors st).2) in H. apply (prints_char 32) in H; [|done..].
  apply (prints_fields [jiffies_to_msecs (ticks st).1; (ios st).2; (merges st).2]) in H.
  apply (prints_llu (sectors st).1) in H. apply (prints_char 32) in H; [|done..].
  apply (prints_fields [(ios st).1; (merges st).1]) in H.
  rewrite !dec_u64 in H by done. cbn [map concat] in H. rewrite ?app_nil_r in *.
  repeat progress (rewrite <-?app_assoc in H; rewrite <-?app_comm_cons in H).
  norm_app. exact H.
Qed.

Lemma part_name_length gp n :
  good_disk gp -> 0 < n < 2 ^ 20 -> (length (part_name gp n) < 29)%nat.
Proof.
  intros [(_ & Hl & _) _ _ _ _] Hn. unfold part_name.
  assert (length (dec n) <= 7)%nat by (apply dec_length; simpl; lia).
  rewrite !length_app. repeat case_match; simpl; lia.
Qed.

Lemma part_format_prints gp n hd :
  good_disk gp -> (n < Z.to_nat (minors gp))%nat ->
  prints part_format
    [VNum (major gp); VNum (Z.of_nat n + first_minor gp + 1); VStr (part_name gp (Z.of_nat n + 1));
     VNum (hd_ios hd).1; VNum (hd_sectors hd).1; VNum (hd_ios hd).2; VNum (hd_sectors hd).2]
    (part_line gp n hd ++ [10]).
Proof.
  intros Hg Hn. pose proof (gd_minors_ok gp Hg) as Hmn.
  pose proof (part_name_length gp (Z.of_nat n + 1) Hg ltac:(lia)) as Hl.
  destruct Hg as [_ Hma Hmi _ _]. unfold part_line, part_format.
  norm_app. apply (prints_4d (major gp)); [lia|].
  apply prints_char; [done..|].
  apply (prints_4d (Z.of_nat n + first_minor gp + 1)); [lia|].
  apply prints_char; [done..|]. apply prints_s; [lia|].
  pose proof prints_nil as H. apply (prints_char 10 [] [] []) in H; [|done..].
  by apply (prints_fields [(hd_ios hd).1; (hd_sectors hd).1; (hd_ios hd).2; (hd_sectors hd).2]) in H.
Qed.

Lemma span_all f l c rest :
  Forall (fun x => f x = true) l -> f c = false -> span f (l ++ c :: rest) = (l, c :: rest).
Proof. intros Hl Hc. induction Hl as [|x l Hx _ IH]; simpl; [by rewrite Hc|]. by rewrite Hx, IH. Qed.

Lemma string_at_inserts m (s : list Z) :
  (1 + length s < length m)%nat -> Forall (fun c => c <> 0) s ->
  string_at (list_inserts 1 (s ++ [0]) m) 1 = s.
Proof.
  intros Hl Hs. unfold string_at.
  rewrite <-(take_drop (length (s ++ [0])) (drop 1 _)).
  rewrite bytes_at_eq.
  - rewrite <-app_assoc. cbn [app]. rewrite span_all; [done| |done]. eapply Forall_impl; [exact Hs|].
    intros c Hc. simpl. by rewrite (proj2 (Z.eqb_neq c 0)).
  - rewrite length_inserts, length_app. simpl. lia.
  - apply bytes_at_inserts. rewrite length_app. simpl. lia.
Qed.

Lemma name_char_nonzero s : Forall name_char s -> Forall (fun c => c <> 0) s.
Proof. intros H. eapply Forall_impl; [exact H|]. intros c [[]]. lia. Qed.

Lemma dec_isdigit n : is_u64 n -> Forall (fun c => isdigit_c c = true) (dec n).
Proof.
  intros Hn. eapply Forall_impl; [by apply dec_range|]. intros c [H1 H2].
  apply andb_true_iff; split; apply Z.leb_le; lia.
Qed.

Lemma dec_name_char n : is_u64 n -> Forall name_char (dec n).
Proof.
  intros Hn. eapply Forall_impl; [by apply dec_isdigit|].
  intros c Hc. apply andb_true_iff in Hc as [H1%Z.leb_le H2%Z.leb_le].
  split; [lia|]. unfold isspace_c. rewrite (proj2 (Z.eqb_neq _ _)) by lia.
  rewrite (proj2 (Z.leb_gt c 13)) by lia. by rewrite andb_false_r.
Qed.

(** The buffer of [diskstats_show]. *)
Definition name_buf (buf : mem) : Prop := length buf = 33%nat.

Lemma snprintf_name buf fmt args (s : list Z) :
  name_buf buf -> (length s < 32)%nat -> Forall name_char s ->
  prints fmt args s ->
  exists buf', snprintf buf 1 BDEVNAME_SIZE fmt args = Ret (Z.of_nat (length s), buf', []) /\
    string_at buf' 1 = s /\ name_buf buf'.
Proof.
  intros Hb Hs Hn Hp. unfold snprintf, BDEVNAME_SIZE, name_buf in *.
  rewrite (vsnprintf_prints buf 1 32 fmt args s) by (done || lia). eexists. split_and!; [done| |].
  - apply string_at_inserts; [lia|by apply name_char_nonzero].
  - by rewrite length_inserts.
Qed.

Lemma disk_name_0 gp buf :
  good_disk gp -> name_buf buf -> exists buf', disk_name gp 0 buf = Ret (gd_name gp, buf') /\ name_buf buf'.
Proof.
  intros [(Hne & Hl & Hc) _ _ _ _] Hb. unfold disk_name. simpl (0 =? 0). cbv iota.
  destruct (snprintf_name buf (codes "%s") [VStr (gd_name gp)] (gd_name gp)) as (buf' & -> & Hs & Hb'); [done|lia|done| |].
  - rewrite <-(app_nil_r (gd_name gp)) at 2. apply (prints_s _ [] [] []); [lia|apply prints_nil].
  - exists buf'. by rewrite Hs.
Qed.

Lemma disk_name_part gp n buf :
  good_disk gp -> name_buf buf -> 0 < n < 2 ^ 20 ->
  exists buf', disk_name gp n buf = Ret (part_name gp n, buf') /\ name_buf buf' /\
    Forall name_char (part_name gp n) /\ (length (part_name gp n) < 29)%nat.
Proof.
  intros [(Hne & Hl & Hc) _ _ _ _] Hb Hn. unfold disk_name, part_name.
  rewrite (proj2 (Z.eqb_neq n 0)) by lia.
  destruct (last (gd_name gp)) as [c|] eqn:El; [|by apply last_None in El].
  assert (Hn64 : is_u64 n) by (unfold word; lia).
  assert (Hld : (length (dec n) <= 7)%nat) by (apply dec_length; simpl; lia).
  pose proof (dec_name_char n Hn64) as Hd.
  assert (Hp : prints (codes "%d") [VNum n] (dec n)).
  { rewrite <-(app_nil_r (dec n)). apply (prints_d n [] [] []); [lia|apply prints_nil]. }
  set (s := gd_name gp ++ _ ++ dec n).
  assert (Hs : Forall name_char s /\ (length s < 29)%nat).
  { unfold s. rewrite !length_app. destruct (isdigit c); simpl; (split; [|lia]); repeat apply Forall_app_2; try done.
    by repeat constructor. }
  destruct Hs as [Hsc Hsl].
  enough (exists buf', (if isdigit c then snprintf buf 1 BDEVNAME_SIZE (codes "%sp%d") [VStr (gd_name gp); VNum n]
     else snprintf buf 1 BDEVNAME_SIZE (codes "%s%d") [VStr (gd_name gp); VNum n]) = Ret (Z.of_nat (length s), buf', [])
     /\ string_at buf' 1 = s /\ name_buf buf') as (buf' & -> & <- & ?) by (by exists buf').
  destruct (isdigit c); apply snprintf_name; try done; try lia.
  - apply (prints_s _ (codes "p%d")); [lia|]. by apply prints_char.
  - by apply (prints_s _ (codes "%d")); [lia|].
Qed.

(** ** The sequence file *)

(** [sq] holds [text], with room up to its size. *)
Record holds (sq : seq_file) (text : list Z) : Prop := {
  h_buf : 0 < sq_buf sq;
  h_size : 0 <= sq_size sq < 2 ^ 31;
  h_mem : sq_buf sq + sq_size sq <= Z.of_nat (length (sq_mem sq)) < 2 ^ 32;
  h_count : sq_count sq = Z.of_nat (length text);
  h_text : bytes_at (sq_mem sq) (Z.to_nat (sq_buf sq)) text;
}.

Lemma seq_printf_appends sq text fmt args out :
  holds sq text -> Z.of_nat (length (text ++ out)) < sq_size sq ->
  prints fmt args out ->
  exists sq', seq_printf sq fmt args = Ret (0, sq') /\ holds sq' (text ++ out) /\ sq_size sq' = sq_size sq.
Proof.
  intros [Hb Hsz Hm Hc Ht] Hl Hp. rewrite length_app in Hl. unfold seq_printf. rewrite Hc.
  destruct (Z.ltb_spec (Z.of_nat (length text)) (sq_size sq)); [|lia].
  unfold u32. rewrite !(wrap_small 32) by (unfold word; lia).
  rewrite (vsnprintf_prints _ _ _ _ _ out) by (done || lia). rewrite wrap_small by (unfold word; lia).
  destruct (Z.ltb_spec (Z.of_nat (length text) + Z.of_nat (length out)) (sq_size sq)); [|lia].
  eexists. split; [done|]. split; [|done].
  split; simpl; try done; [by rewrite length_inserts|rewrite length_app; lia|].
  intros i x Hx. rewrite lookup_inserts_dec. pose proof (lookup_lt_Some _ _ _ Hx) as Hi. rewrite length_app in Hi.
  apply lookup_app_Some in Hx as [Hx|[Hge Hx]].
  - pose proof (lookup_lt_Some _ _ _ Hx). rewrite decide_False by lia. by apply Ht.
  - rewrite length_app. simpl. rewrite decide_True by lia. rewrite lookup_app_l by lia.
    rewrite <-Hx. f_equal. lia.
Qed.

Lemma text_of_app l1 l2 : text_of (l1 ++ l2) = text_of l1 ++ text_of l2.
Proof. unfold text_of. by rewrite map_app, concat_app. Qed.

Lemma text_of_cons l ls : text_of (l :: ls) = (l ++ [10]) ++ text_of ls.
Proof. done. Qed.

Lemma show_parts_text gp n rounds sq text buf :
  good_disk gp -> (n + rounds <= Z.to_nat (minors gp - 1))%nat -> name_buf buf -> holds sq text ->
  Z.of_nat (length (text ++ text_of (part_lines gp n rounds))) < sq_size sq ->
  exists sq' buf', show_parts gp n rounds sq buf = Ret (sq', buf') /\
    holds sq' (text ++ text_of (part_lines gp n rounds)) /\ sq_size sq' = sq_size sq.
Proof.
  intros Hg. revert n sq text buf. induction rounds as [|rounds IH]; intros n sq text buf Hn Hb Hh Hl.
  - exists sq, buf. simpl. rewrite app_nil_r. done.
  - cbn [show_parts part_lines] in *. pose proof (gd_minors_ok gp Hg) as [Hm Hp].
    destruct (lookup_lt_is_Some_2 (part gp) n ltac:(lia)) as [p Hpn]. rewrite Hpn in *.
    assert (Hskip : Z.of_nat (length (text ++ text_of (part_lines gp (S n) rounds))) < sq_size sq ->
      exists sq' buf', show_parts gp (S n) rounds sq buf = Ret (sq', buf') /\
      holds sq' (text ++ text_of (part_lines gp (S n) rounds)) /\ sq_size sq' = sq_size sq)
      by (intros; apply IH; done || lia).
    destruct p as [hd|]; [|by apply Hskip]. destruct (negb (nr_sects hd =? 0)); [|by apply Hskip].
    destruct (disk_name_part gp (Z.of_nat n + 1) buf) as (buf' & -> & Hb' & _); [done..|lia|].
    cbn [app] in *. rewrite text_of_cons, app_assoc in *.
    destruct (seq_printf_appends sq text part_format
      [VNum (major gp); VNum (Z.of_nat n + first_minor gp + 1); VStr (part_name gp (Z.of_nat n + 1));
       VNum (hd_ios hd).1; VNum (hd_sectors hd).1; VNum (hd_ios hd).2; VNum (hd_sectors hd).2]
      (part_line gp n hd ++ [10])) as (sq1 & -> & Hh1 & Hs1).
    { done. }
    { rewrite length_app in Hl. lia. }
    { apply part_format_prints; [done|lia]. }
    rewrite <-Hs1 in *. apply IH; done || lia.
Qed.

Lemma diskstats_show_text now sq text gp :
  good_disk gp -> holds sq text ->
  Z.of_nat (length (text ++ text_of (disk_lines now gp))) < sq_size sq ->
  exists sq', diskstats_show now sq gp = Ret (sq', disk_round_stats now gp) /\
    holds sq' (text ++ text_of (disk_lines now gp)) /\ sq_size sq' = sq_size sq.
Proof.
  intros Hg Hh Hl. unfold diskstats_show, disk_lines in *. apply (good_round now) in Hg.
  set (gp' := disk_round_stats now gp) in *. cbv zeta in *.
  destruct (disk_name_0 gp' (replicate 33 0) Hg) as (buf & -> & Hb); [done|].
  rewrite text_of_cons, app_assoc in *.
  destruct (seq_printf_appends sq text disk_format (disk_args gp' (gd_name gp')) (disk_line gp' ++ [10]))
    as (sq1 & -> & Hh1 & Hs1); [done| |by apply disk_format_prints|].
  { rewrite length_app in Hl. lia. }
  rewrite <-Hs1 in *.
  destruct (show_parts_text gp' 0 (Z.to_nat (minors gp' - 1)) sq1 (text ++ disk_line gp' ++ [10]) buf)
    as (sq2 & buf2 & -> & Hh2 & Hs2); [done|lia|done..|].
  by exists sq2.
Qed.

Definition all_lines (now : Z) (gps : list gendisk) : list (list Z) := concat (map (disk_lines now) gps).

Lemma show_all_text now sq text gps :
  Forall good_disk gps -> holds sq text ->
  Z.of_nat (length (text ++ text_of (all_lines now gps))) < sq_size sq ->
  exists sq', show_all now sq gps = Ret sq' /\ holds sq' (text ++ text_of (all_lines now gps)).
Proof.
  intros Hg. revert sq text. induction Hg as [|gp gps Hgp _ IH]; intros sq text Hh Hl.
  - exists sq. simpl. by rewrite app_nil_r.
  - unfold all_lines in *. cbn [map concat show_all] in *. rewrite text_of_app, app_assoc in *.
    destruct (diskstats_show_text now sq text gp) as (sq1 & -> & Hh1 & Hs1); [done..| |].
    { rewrite length_app in Hl. lia. }
    rewrite <-Hs1 in *. by apply IH.
Qed.

(** ** Reading it back *)

Lemma span_nil f c rest : f c = false -> span f (c :: rest) = ([], c :: rest).
Proof. intros H. simpl. by rewrite H. Qed.

Lemma decimal_dec n : is_u64 n -> decimal (dec n) = n.
Proof.
  intros Hn. destruct (dec_digits n Hn) as (vs & -> & Hv & _ & _). rewrite <-Hv.
  unfold decimal, horner. clear. generalize 0. induction vs as [|v vs IH]; intros a; simpl; [done|].
  rewrite IH. f_equal. lia.
Qed.

Lemma skip_spaces k c rest : isspace_c c = false -> skip_space (replicate k 32 ++ c :: rest) = c :: rest.
Proof.
  intros Hc. unfold skip_space. rewrite span_all; [done| |done].
  apply Forall_replicate. done.
Qed.

(** Blanks, digits and then something else are a number. *)
Lemma scan_int_digits k ds c rest :
  Forall (fun x => isdigit_c x = true) ds -> ds <> [] -> isdigit_c c = false ->
  scan_int (replicate k 32 ++ ds ++ c :: rest) = Some (false, ds, c :: rest).
Proof.
  intros Hd Hne Hc. unfold scan_int. destruct ds as [|d ds]; [done|].
  pose proof (Forall_inv Hd) as Hd0. apply andb_true_iff in Hd0 as [H1%Z.leb_le H2%Z.leb_le].
  cbn [app]. rewrite skip_spaces.
  2: { unfold isspace_c. rewrite (proj2 (Z.eqb_neq _ _)) by lia. rewrite (proj2 (Z.leb_gt d 13)) by lia.
       by rewrite andb_false_r. }
  unfold scan_sign. rewrite (proj2 (Z.eqb_neq d 45)), (proj2 (Z.eqb_neq d 43)) by lia. change (d :: ds ++ c :: rest) with ((d :: ds) ++ c :: rest). by rewrite span_all.
Qed.

Lemma scan_int_dec k n c rest :
  is_u64 n -> isdigit_c c = false ->
  scan_int (replicate k 32 ++ dec n ++ c :: rest) = Some (false, dec n, c :: rest).
Proof. intros. apply scan_int_digits; [by apply dec_isdigit|by apply dec_nonempty|done]. Qed.

Lemma strtoul_dec n : is_u32 n -> strtoul10 false (dec n) = n.
Proof.
  intros Hn. unfold strtoul10. rewrite decimal_dec by (by eapply word_mono; [|exact Hn]).
  destruct Hn. by destruct (Z.leb_spec (2 ^ 32) n); [lia|].
Qed.

Section Scan.
Context (fmt : list conv) (k : Z) (tmp : DISKSTATS).

Lemma sscanf_skip w n c rest :
  is_u64 n -> isdigit_c c = false ->
  sscanf (SkipNum :: fmt) (replicate w 32 ++ dec n ++ c :: rest) k tmp = sscanf fmt (c :: rest) k tmp.
Proof. intros. cbn [sscanf]. by rewrite scan_int_dec. Qed.

Lemma sscanf_skip1 n c rest :
  is_u64 n -> isdigit_c c = false ->
  sscanf (SkipNum :: fmt) (32 :: dec n ++ c :: rest) k tmp = sscanf fmt (c :: rest) k tmp.
Proof. apply (sscanf_skip 1). Qed.

Lemma sscanf_uns set n c rest :
  is_u32 n -> isdigit_c c = false ->
  sscanf (GetUns set :: fmt) (32 :: dec n ++ c :: rest) k tmp = sscanf fmt (c :: rest) (k + 1) (set n tmp).
Proof.
  intros Hn Hc. cbn [sscanf]. change (32 :: dec n ++ c :: rest) with (replicate 1 32 ++ dec n ++ c :: rest).
  rewrite scan_int_dec; [|by eapply word_mono; [|exact Hn]|done]. by rewrite strtoul_dec.
Qed.

Lemma sscanf_word set size w c rest :
  Forall name_char w -> w <> [] -> (length w < size)%nat -> isspace_c c = true ->
  sscanf (GetStr size set :: fmt) (32 :: w ++ c :: rest) k tmp = sscanf fmt (c :: rest) (k + 1) (set w tmp).
Proof.
  intros Hw Hne Hl Hc. cbn [sscanf]. destruct w as [|x w]; [done|].
  pose proof (Forall_inv Hw) as [_ Hx].
  change (32 :: (x :: w) ++ c :: rest) with (replicate 1 32 ++ x :: w ++ c :: rest). rewrite skip_spaces by done.
  change (x :: w ++ c :: rest) with ((x :: w) ++ c :: rest). rewrite span_all.
  - by rewrite (proj2 (Nat.ltb_lt _ _)) by done.
  - eapply Forall_impl; [exact Hw|]. intros y [_ Hy]. simpl. by rewrite Hy.
  - by rewrite Hc.
Qed.
End Scan.

Lemma dec_d_pos z : 0 <= z -> exists w, dec_d 4 z = replicate w 32 ++ dec z /\ (w <= 4)%nat.
Proof.
  intros Hz. unfold dec_d. destruct (Z.ltb_spec z 0); [lia|]. rewrite Z.abs_eq by lia.
  eexists. split; [done|]. lia.
Qed.

Lemma u32_u64 z : is_u64 (u32 z).
Proof. eapply word_mono; [|by apply wrap_word]. lia. Qed.

(** No character ends the line or the string. *)
Definition plain (c : Z) : Prop := c <> 0 /\ c <> 10.

Lemma name_char_plain s : Forall name_char s -> Forall plain s.
Proof.
  intros H. eapply Forall_impl; [exact H|]. intros c [Hc Hs]. split; [lia|]. by intros ->.
Qed.

Lemma span_full f l : Forall (fun x => f x = true) l -> span f l = (l, []).
Proof. induction 1 as [|x l Hx _ IH]; simpl; [done|]. by rewrite Hx, IH. Qed.

Lemma scan_line_plain line tmp :
  Forall plain line -> scan_line (line ++ [10]) tmp = sscanf stat_format (line ++ [10]) 0 tmp.
Proof.
  intros Hp. unfold scan_line. rewrite span_full; [done|]. apply Forall_app_2; [|by repeat constructor].
  eapply Forall_impl; [exact Hp|]. intros c [Hc _]. by rewrite (proj2 (Z.eqb_neq c 0)).
Qed.

Definition fields_text (fields : list Z) : list Z := concat (map (fun z => 32 :: dec (u32 z)) fields).

Lemma fields_plain fields : Forall plain (fields_text fields).
Proof.
  induction fields as [|z fields IH]; [constructor|]. unfold fields_text. cbn [map concat].
  apply Forall_app_2; [|done]. constructor; [done|]. apply name_char_plain, dec_name_char, u32_u64.
Qed.

Lemma fields_length fields : (length (fields_text fields) <= 11 * length fields)%nat.
Proof.
  induction fields as [|z fields IH]; [done|]. unfold fields_text in *. cbn [map concat].
  rewrite length_app. simpl. pose proof (wrap_word 32 z ltac:(done)).
  pose proof (dec_length (u32 z) 10 ltac:(lia) ltac:(unfold u32, word in *; simpl in *; lia)). lia.
Qed.

(** The part of a line that both kinds share. *)
Definition line_of (ma mi : Z) (nm : list Z) (fields : list Z) : list Z :=
  dec_d 4 ma ++ 32 :: dec_d 4 mi ++ 32 :: nm ++ fields_text fields.

Lemma dec_d_plain z : 0 <= z < 2 ^ 32 -> Forall plain (dec_d 4 z) /\ (length (dec_d 4 z) <= 14)%nat.
Proof.
  intros Hz. destruct (dec_d_pos z) as (w & -> & Hw); [lia|]. split.
  - apply Forall_app_2; [by apply Forall_replicate|]. apply name_char_plain, dec_name_char. unfold word. lia.
  - rewrite length_app, length_replicate.
    pose proof (dec_length z 10 ltac:(lia) ltac:(simpl; lia)). lia.
Qed.

Lemma line_of_plain ma mi nm fields :
  0 <= ma < 2 ^ 32 -> 0 <= mi < 2 ^ 32 -> Forall name_char nm ->
  Forall plain (line_of ma mi nm fields) /\
  (length (line_of ma mi nm fields) <= 30 + length nm + 11 * length fields)%nat.
Proof.
  intros Hma Hmi Hn. destruct (dec_d_plain ma Hma), (dec_d_plain mi Hmi). unfold line_of. split.
  - apply Forall_app_2; [done|]. constructor; [done|]. apply Forall_app_2; [done|]. constructor; [done|].
    apply Forall_app_2; [by apply name_char_plain|apply fields_plain].
  - pose proof (fields_length fields). rewrite !length_app. simpl. rewrite !length_app. simpl.
    rewrite !length_app. lia.
Qed.

(** Both start with two numbers and a word. *)
Lemma scan_line_of ma mi nm fields f fs k tmp fmt :
  0 <= ma < 2 ^ 32 -> 0 <= mi < 2 ^ 32 -> Forall name_char nm -> nm <> [] -> (length nm < 50)%nat ->
  fields = f :: fs ->
  sscanf (SkipNum :: SkipNum :: GetStr name_size set_name :: fmt) (line_of ma mi nm fields ++ [10]) k tmp =
  sscanf fmt (fields_text fields ++ [10]) (k + 1) (set_name nm tmp).
Proof.
  intros Hma Hmi Hn Hne Hl ->. unfold line_of.
  destruct (dec_d_pos ma) as (w1 & -> & _); [lia|]. destruct (dec_d_pos mi) as (w2 & -> & _); [lia|].
  norm_app. rewrite sscanf_skip by (done || unfold word; lia).
  change (32 :: replicate w2 32 ++ dec mi ++ ?r) with (replicate (S w2) 32 ++ dec mi ++ r).
  rewrite sscanf_skip by (done || unfold word; lia).
  unfold fields_text. cbn [map concat]. norm_app. by rewrite sscanf_word.
Qed.

Definition disk_fields (gp : gendisk) : list Z :=
  let st := dkstats gp in
  [(ios st).1; (merges st).1; (sectors st).1; jiffies_to_msecs (ticks st).1;
   (ios st).2; (merges st).2; (sectors st).2; jiffies_to_msecs (ticks st).2;
   in_flight gp; jiffies_to_msecs (io_ticks st); jiffies_to_msecs (time_in_queue st)].

Lemma disk_line_of gp : disk_line gp = line_of (major gp) (first_minor gp) (gd_name gp) (disk_fields gp).
Proof. done. Qed.

Lemma part_line_of gp n hd :
  part_line gp n hd = line_of (major gp) (Z.of_nat n + first_minor gp + 1) (part_name gp (Z.of_nat n + 1))
    [(hd_ios hd).1; (hd_sectors hd).1; (hd_ios hd).2; (hd_sectors hd).2].
Proof. done. Qed.

(** Steps the scan over the fields of a line. *)
Ltac scan_fields :=
  unfold fields_text; cbn [map concat]; norm_app; rewrite ?app_nil_l;
  repeat first [rewrite sscanf_skip1 by (done || apply u32_u64)
               |rewrite sscanf_uns by (done || by apply wrap_word)].

Lemma scan_disk_line gp :
  good_disk gp ->
  scan_line (disk_line gp ++ [10]) tmp0 =
    Ret (3, Diskstats (gd_name gp) 0 0 0 false (sectors (dkstats gp)).1 (sectors (dkstats gp)).2) /\
  Forall plain (disk_line gp) /\ (length (disk_line gp) <= 198)%nat.
Proof.
  intros [(Hne & Hl & Hn) Hma Hmi _ [Hs1 Hs2]]. rewrite disk_line_of.
  destruct (line_of_plain (major gp) (first_minor gp) (gd_name gp) (disk_fields gp)) as [Hp Hlen]; [lia..|done|].
  split_and!; [|done|simpl in Hlen; lia]. rewrite scan_line_plain by done. unfold stat_format.
  erewrite scan_line_of; [|lia..|done|done|lia|done]. unfold disk_fields. scan_fields.
  unfold u32. by rewrite !(wrap_small 32 (sectors (dkstats gp)).1), !(wrap_small 32 (sectors (dkstats gp)).2).
Qed.

Lemma scan_part_line gp n hd :
  good_disk gp -> (n < Z.to_nat (minors gp))%nat ->
  (exists t, scan_line (part_line gp n hd ++ [10]) tmp0 = Ret (2, t)) /\
  Forall plain (part_line gp n hd) /\ (length (part_line gp n hd) <= 198)%nat.
Proof.
  intros Hg Hn. pose proof Hg as [(Hne & _ & _) Hma Hmi Hmn _]. rewrite part_line_of.
  destruct (disk_name_part gp (Z.of_nat n + 1) (replicate 33 0)) as (_ & _ & _ & Hc & Hl); [done..|lia|].
  destruct (line_of_plain (major gp) (Z.of_nat n + first_minor gp + 1) (part_name gp (Z.of_nat n + 1))
    [(hd_ios hd).1; (hd_sectors hd).1; (hd_ios hd).2; (hd_sectors hd).2]) as [Hp Hlen]; [lia..|done|].
  split_and!; [|done|simpl in Hlen; lia]. rewrite scan_line_plain by done. unfold stat_format.
  erewrite scan_line_of; [|lia..|done| |lia|done].
  - scan_fields. cbn. eauto.
  - unfold part_name. by destruct (gd_name gp).
Qed.

Lemma fgets_line room acc line rest :
  Forall plain line -> (length line < room)%nat ->
  fgets_all room acc (line ++ 10 :: rest) = (rev acc ++ line ++ [10]) :: fgets_all 199 [] rest.
Proof.
  intros Hp. revert room acc. induction Hp as [|c line [_ Hc] _ IH]; intros [|room] acc Hr; simpl in *; try lia.
  - done.
  - rewrite (proj2 (Z.eqb_neq c 10)) by done. rewrite IH by lia. simpl. by rewrite <-app_assoc.
Qed.

Lemma fgets_text lines :
  Forall (fun l => Forall plain l /\ (length l <= 198)%nat) lines ->
  fgets_all 199 [] (text_of lines) = map (fun l => l ++ [10]) lines.
Proof.
  induction 1 as [|line lines [Hp Hl] _ IH]; [done|]. rewrite text_of_cons, <-app_assoc. cbn [app map].
  rewrite fgets_line by (done || lia). by rewrite IH.
Qed.

(** The counters the daemon is after. *)
Definition disk_probe (gp : gendisk) : option (list Z * Z * Z) :=
  if scsi_name (gd_name gp) then Some (gd_name gp, (sectors (dkstats gp)).1, (sectors (dkstats gp)).2) else None.

(** What the daemon makes of a line. *)
Definition line_yields (p : option (list Z * Z * Z)) (line : list Z) : Prop :=
  Forall plain line /\ (length line <= 198)%nat /\ line_ok (line ++ [10]) /\ line_probe (line ++ [10]) = p.

Lemma disk_line_yields gp : good_disk gp -> line_yields (disk_probe gp) (disk_line gp).
Proof.
  intros Hg. destruct (scan_disk_line gp Hg) as (Hs & Hp & Hl).
  split_and!; [done..|by eexists|]. unfold line_probe, disk_probe. by rewrite Hs.
Qed.

Lemma part_lines_yield gp n rounds :
  good_disk gp -> (n + rounds <= Z.to_nat (minors gp - 1))%nat ->
  Forall (line_yields None) (part_lines gp n rounds).
Proof.
  intros Hg. revert n. induction rounds as [|rounds IH]; intros n Hn; [constructor|]. cbn [part_lines].
  apply Forall_app_2; [|apply IH; lia].
  destruct (part gp !! n) as [[hd|]|]; [|constructor..]. destruct (negb _); [|constructor].
  constructor; [|constructor]. destruct (scan_part_line gp n hd Hg) as ([t Hs] & Hp & Hl); [lia|].
  split_and!; [done..|by eexists|]. unfold line_probe. by rewrite Hs.
Qed.

Lemma disk_lines_yield now gp :
  good_disk gp ->
  Forall (fun l => exists p, line_yields p l) (disk_lines now gp) /\
  omap line_probe (map (fun l => l ++ [10]) (disk_lines now gp)) = option_list (disk_probe gp).
Proof.
  intros Hg. pose proof (good_round now gp Hg) as Hg'. unfold disk_lines. cbv zeta.
  set (gp' := disk_round_stats now gp) in *.
  pose proof (disk_line_yields gp' Hg') as H1.
  pose proof (part_lines_yield gp' 0 (Z.to_nat (minors gp' - 1)) Hg' ltac:(lia)) as H2.
  assert (Hpr : disk_probe gp' = disk_probe gp).
  { unfold disk_probe. destruct (round_stats_keeps now gp) as (E1 & _ & _ & _ & _ & E6). fold gp' in E1, E6.
    by rewrite E1, E6. }
  split.
  - constructor; [by eexists|]. eapply Forall_impl; [exact H2|]. by eexists.
  - cbn [map]. destruct H1 as (_ & _ & _ & E).
    change (omap line_probe (?x :: ?l)) with
      (match line_probe x with Some y => y :: omap line_probe l | None => omap line_probe l end).
    rewrite E, Hpr.
    assert (E0 : omap line_probe (map (fun l => l ++ [10]) (part_lines gp' 0 (Z.to_nat (minors gp' - 1)))) = []).
    { induction H2 as [|l ls (_ & _ & _ & Hl) _ IH]; [done|]. simpl. by rewrite Hl. }
    rewrite E0. by destruct (disk_probe gp).
Qed.

(** C24 (roundtrip): what the daemon reads in /proc/diskstats is what the
    kernel holds.  For any list of disks, shown one after the other into a
    sequence file with enough room, the text parses line by line, no line is
    cut and no field overruns, and the disks and counters the daemon sees
    are exactly the SCSI disks of the list with their sector counters; the
    partition lines in between are ignored. *)
Theorem diskstats_reach_daemon now sq gps :
  Forall good_disk gps -> holds sq [] ->
  Z.of_nat (length (text_of (all_lines now gps))) < sq_size sq ->
  exists sq' text, show_all now sq gps = Ret sq' /\ holds sq' text /\
    Forall line_ok (fgets_all 199 [] text) /\ file_probes text = omap disk_probe gps.
Proof.
  intros Hg Hh Hl. destruct (show_all_text now sq [] gps Hg Hh Hl) as (sq' & E & Hh').
  exists sq', (text_of (all_lines now gps)). split_and!; [done..| |].
  all: assert (Hy : Forall (fun l => exists p, line_yields p l) (all_lines now gps)) by
    (clear -Hg; induction Hg as [|gp gps Hgp _ IH]; [constructor|]; apply Forall_app_2;
     [by apply disk_lines_yield|done]).
  all: unfold file_probes; rewrite fgets_text by
    (eapply Forall_impl; [exact Hy|]; intros l (p & ? & ? & _); done).
  - apply Forall_map. eapply Forall_impl; [exact Hy|]. intros l (p & _ & _ & Hok & _). done.
  - clear -Hg. unfold all_lines. induction Hg as [|gp gps Hgp _ IH]; [done|]. cbn [map concat].
    rewrite map_app, omap_app, IH. rewrite (proj2 (disk_lines_yield now gp Hgp)).
    simpl. by destruct (disk_probe gp).
Qed.

Definition demo_sq : seq_file := SeqFile (replicate 200 7) 1 190 0.

Lemma demo_gd_good : good_disk demo_gd.
Proof.
  split; simpl; unfold word; try lia.
  - split_and!; [done|simpl; lia|]. by repeat constructor.
Qed.

Lemma diskstats_reach_daemon_witness :
  exists sq' text, show_all 9 demo_sq [demo_gd] = Ret sq' /\ holds sq' text /\
    Forall line_ok (fgets_all 199 [] text) /\ file_probes text = [(codes "sda", 800, 640)].
Proof.
  apply (diskstats_reach_daemon 9 demo_sq [demo_gd]).
  - constructor; [apply demo_gd_good|constructor].
  - split; simpl; try lia. intros i c Hi. by rewrite lookup_nil in Hi.
  - vm_compute. reflexivity.
Defined.
