(* ===== verification/Md4.v ===== *)
(** * MD4 (apps/smbencrypt-0.1/md4.c)

    [MDbegin], [MDupdate] and the block function as the code has them: an
    [MDstruct] with four words, a 64-bit counter kept as bytes and a flag;
    data blocks are byte arrays read as little-endian words.  [Rfc] is the
    digest as the standard defines it on a string of bits: padding, the
    words of a block and 48 steps on rotating registers.  The theorems say
    that feeding a message block by block gives the standard's digest, for
    any number of bits, and what the error branches do. *)

From S2P Require Import Prelude CMem Des DesSpec.

(** ** Bytes and words *)

Definition byte_of (l k : Z) : Z := u8 (Z.shiftr l (8 * k)).

(** [SIVAL] stores the four bytes of a word, lowest first. *)
Definition le32 (v : Z) : list Z := [byte_of v 0; byte_of v 1; byte_of v 2; byte_of v 3].
Definition SIVAL (buf : list Z) (pos : nat) (val : Z) : outcome (list Z) :=
  if (pos + 4 <=? length buf)%nat then Ret (list_inserts pos (le32 (u32 val)) buf) else Err Fault.

(** The word [((unsigned int * ) X)[i]] of a little-endian machine. *)
Definition wd (X : list Z) (i : nat) : Z :=
  let b k := nth (4 * i + k) X 0 in
  Z.lor (b 0%nat) (Z.lor (Z.shiftl (b 1%nat) 8) (Z.lor (Z.shiftl (b 2%nat) 16) (Z.shiftl (b 3%nat) 24))).

(** ** The code *)

Record MDstruct := MD { buffer : Z * Z * Z * Z; count : list Z; done : Z }.

Definition I0 : Z := 0x67452301.
Definition I1 : Z := 0xefcdab89.
Definition I2 : Z := 0x98badcfe.
Definition I3 : Z := 0x10325476.
Definition C2 : Z := 0x5a827999.   (* 013240474631 *)
Definition C3 : Z := 0x6ed9eba1.   (* 015666365641 *)

Definition fs1 : Z := 3.
Definition fs2 : Z := 7.
Definition fs3 : Z := 11.
Definition fs4 : Z := 19.
Definition gs1 : Z := 3.
Definition gs2 : Z := 5.
Definition gs3 : Z := 9.
Definition gs4 : Z := 13.
Definition hs1 : Z := 3.
Definition hs2 : Z := 9.
Definition hs3 : Z := 11.
Definition hs4 : Z := 15.

Definition f (x y z : Z) : Z := Z.lor (Z.land x y) (Z.land (cnot 32 x) z).
Definition g (x y z : Z) : Z := Z.lor (Z.lor (Z.land x y) (Z.land x z)) (Z.land y z).
Definition h (x y z : Z) : Z := Z.lxor (Z.lxor x y) z.
Definition rot (x s : Z) : Z := Z.lor (cshl 32 x s) (Z.shiftr x (32 - s)).

(** The statements [ff(A,B,C,D,i,s)] and so on: the assigned register, the
    three it reads besides, the word and the shift. *)
Inductive reg := RA | RB | RC | RD.
Inductive op := ff | gg | hh.
Record stmt := Stmt { s_op : op; s_to : reg; s_1 : reg; s_2 : reg; s_3 : reg; s_i : nat; s_s : Z }.

Abbreviation regs := (Z * Z * Z * Z)%type.
Definition rget (r : reg) (st : regs) : Z :=
  let '(a, b, c, d) := st in match r with RA => a | RB => b | RC => c | RD => d end.
Definition rset (r : reg) (v : Z) (st : regs) : regs :=
  let '(a, b, c, d) := st in
  match r with RA => (v, b, c, d) | RB => (a, v, c, d) | RC => (a, b, v, d) | RD => (a, b, c, v) end.

Definition exec (X : list Z) (st : regs) (q : stmt) : regs :=
  let a := rget (s_to q) st in
  let x := rget (s_1 q) st in
  let y := rget (s_2 q) st in
  let z := rget (s_3 q) st in
  let v := match s_op q with
           | ff => a + f x y z + wd X (s_i q)
           | gg => a + g x y z + wd X (s_i q) + C2
           | hh => a + h x y z + wd X (s_i q) + C3
           end in
  rset (s_to q) (rot (u32 v) (s_s q)) st.

Definition MDstmts : list stmt := [
  Stmt ff RA RB RC RD 0 fs1;  Stmt ff RD RA RB RC 1 fs2;  Stmt ff RC RD RA RB 2 fs3;  Stmt ff RB RC RD RA 3 fs4;
  Stmt ff RA RB RC RD 4 fs1;  Stmt ff RD RA RB RC 5 fs2;  Stmt ff RC RD RA RB 6 fs3;  Stmt ff RB RC RD RA 7 fs4;
  Stmt ff RA RB RC RD 8 fs1;  Stmt ff RD RA RB RC 9 fs2;  Stmt ff RC RD RA RB 10 fs3; Stmt ff RB RC RD RA 11 fs4;
  Stmt ff RA RB RC RD 12 fs1; Stmt ff RD RA RB RC 13 fs2; Stmt ff RC RD RA RB 14 fs3; Stmt ff RB RC RD RA 15 fs4;
  Stmt gg RA RB RC RD 0 gs1;  Stmt gg RD RA RB RC 4 gs2;  Stmt gg RC RD RA RB 8 gs3;  Stmt gg RB RC RD RA 12 gs4;
  Stmt gg RA RB RC RD 1 gs1;  Stmt gg RD RA RB RC 5 gs2;  Stmt gg RC RD RA RB 9 gs3;  Stmt gg RB RC RD RA 13 gs4;
  Stmt gg RA RB RC RD 2 gs1;  Stmt gg RD RA RB RC 6 gs2;  Stmt gg RC RD RA RB 10 gs3; Stmt gg RB RC RD RA 14 gs4;
  Stmt gg RA RB RC RD 3 gs1;  Stmt gg RD RA RB RC 7 gs2;  Stmt gg RC RD RA RB 11 gs3; Stmt gg RB RC RD RA 15 gs4;
  Stmt hh RA RB RC RD 0 hs1;  Stmt hh RD RA RB RC 8 hs2;  Stmt hh RC RD RA RB 4 hs3;  Stmt hh RB RC RD RA 12 hs4;
  Stmt hh RA RB RC RD 2 hs1;  Stmt hh RD RA RB RC 10 hs2; Stmt hh RC RD RA RB 6 hs3;  Stmt hh RB RC RD RA 14 hs4;
  Stmt hh RA RB RC RD 1 hs1;  Stmt hh RD RA RB RC 9 hs2;  Stmt hh RC RD RA RB 5 hs3;  Stmt hh RB RC RD RA 13 hs4;
  Stmt hh RA RB RC RD 3 hs1;  Stmt hh RD RA RB RC 11 hs2; Stmt hh RC RD RA RB 7 hs3;  Stmt hh RB RC RD RA 15 hs4]%nat.

Definition MDbegin : MDstruct := MD (I0, I1, I2, I3) (replicate 8 0) 0.

Fixpoint MDreverse_loop (ns : list nat) (X : list Z) : outcome (list Z) :=
  match ns with
  | [] => Ret X
  | i :: ns =>
      if (4 * i + 4 <=? length X)%nat then
        let! X := SIVAL X (4 * i) (wd X i) in MDreverse_loop ns X
      else Err Fault
  end.

Definition MDreverse (X : list Z) : outcome (list Z) := MDreverse_loop (seq 0 16) X.

(** The new state and the block, which [MDreverse] has stored back. *)
Definition MDblock (MDp : MDstruct) (X : list Z) : outcome (MDstruct * list Z) :=
  let! X := MDreverse X in
  let '(b0, b1, b2, b3) := buffer MDp in
  let '(A, B, C, D) := fold_left (exec X) MDstmts (buffer MDp) in
  Ret (MD (u32 (b0 + A), u32 (b1 + B), u32 (b2 + C), u32 (b3 + D)) (count MDp) (done MDp), X).

(** [while (tmp) { tmp += *p; *p++ = tmp; tmp = tmp >> 8; }] *)
Fixpoint add_count (fuel : nat) (c : list Z) (p : nat) (tmp : Z) : outcome (list Z) :=
  if tmp =? 0 then Ret c
  else match fuel with
  | O => Err Diverge
  | S fuel =>
      match c !! p with
      | None => Err Fault
      | Some x =>
          let tmp := u32 (tmp + x) in
          add_count fuel (<[p := u8 tmp]> c) (S p) (Z.shiftr tmp 8)
      end
  end.

(** What [MDupdate] reports on its standard output. *)
Inductive report := Silent | AlreadyDone | IllegalCount.

(** The last byte: the data bits, a 1 and zeros. *)
Definition pad_byte (x bit : Z) : Z :=
  let mask := Z.shiftl 1 (7 - bit) in
  u8 (Z.land (Z.lor x mask) (cnot 32 (mask - 1))).

(** The whole of [X] may be rewritten, by the same bytes. *)
Definition MDupdate (MDp : MDstruct) (X : list Z) (cnt : Z) : outcome (MDstruct * list Z * report) :=
  if (cnt =? 0) && negb (done MDp =? 0) then Ret (MDp, X, Silent)
  else if negb (done MDp =? 0) then Ret (MDp, X, AlreadyDone)
  else
    let! c := add_count 9 (count MDp) 0 cnt in
    let MDp := MD (buffer MDp) c (done MDp) in
    if cnt =? 512 then
      let! (MDp, X) := MDblock MDp X in Ret (MDp, X, Silent)
    else if 512 <? cnt then Ret (MDp, X, IllegalCount)
    else
      let byte := Z.to_nat (Z.shiftr cnt 3) in
      let bit := Z.land cnt 7 in
      if (byte <? length X)%nat then
        let XX := take (S byte) X ++ replicate (63 - byte) 0 in
        let XX := <[byte := pad_byte (nth byte XX 0) bit]> XX in
        let! MDp :=
          (if (byte <=? 55)%nat then
             let! (MDp, _) := MDblock MDp (list_inserts 56 c XX) in Ret MDp
           else
             let! (MDp, XX) := MDblock MDp XX in
             let! (MDp, _) := MDblock MDp (list_inserts 56 c (list_inserts 0 (replicate 56 0) XX)) in
             Ret MDp) in
        Ret (MD (buffer MDp) (count MDp) 1, X, Silent)
      else Err Fault.

(** [MDprint]: the bytes in the order they are printed. *)
Definition digest (MDp : MDstruct) : list Z :=
  let '(a, b, c, d) := buffer MDp in le32 a ++ le32 b ++ le32 c ++ le32 d.

(** A message as full blocks and a last part of [cnt] bits. *)
Fixpoint MDfull (MDp : MDstruct) (Xs : list (list Z)) : outcome MDstruct :=
  match Xs with
  | [] => Ret MDp
  | X :: Xs => let! (MDp, _, _) := MDupdate MDp X 512 in MDfull MDp Xs
  end.

Definition MDmessage (Xs : list (list Z)) (X : list Z) (cnt : Z) : outcome MDstruct :=
  let! MDp := MDfull MDbegin Xs in
  let! (MDp, _, _) := MDupdate MDp X cnt in
  Ret MDp.

(** ** The standard *)

Module Rfc.
(** Bytes from bits, the high-order bit first. *)
Fixpoint bytes_of (fuel : nat) (v : list bool) : list Z :=
  match fuel with
  | O => []
  | S fuel => Z.of_nat (Fips.num (take 8 v)) :: bytes_of fuel (drop 8 v)
  end.

(** A one, zeros up to 448 modulo 512, and the length as 64 bits, low-order
    byte first. *)
Definition length_bytes (n : Z) : list Z := map (fun k => Z.shiftr n (8 * Z.of_nat k) mod 256) (seq 0 8).
Definition pad (v : list bool) : list bool :=
  let n := Z.of_nat (length v) in
  v ++ true :: replicate (Z.to_nat ((447 - n) mod 512)) false ++ Fips.of_bytes (length_bytes n).

Definition step (X : list Z) (st : regs) (q : op * nat * Z) : regs :=
  let '(o, k, s) := q in
  let '(a, b, c, d) := st in
  let v := match o with
           | ff => a + f b c d + wd X k
           | gg => a + g b c d + wd X k + C2
           | hh => a + h b c d + wd X k + C3
           end in
  (d, rot (u32 v) s, b, c).

(** The words and shifts of the three rounds. *)
Definition steps : list (op * nat * Z) :=
  let round o ks ss := map (fun i => (o, nth i ks 0%nat, nth (i mod 4) ss 0)) (seq 0 16) in
  round ff [0; 1; 2; 3; 4; 5; 6; 7; 8; 9; 10; 11; 12; 13; 14; 15]%nat [3; 7; 11; 19] ++
  round gg [0; 4; 8; 12; 1; 5; 9; 13; 2; 6; 10; 14; 3; 7; 11; 15]%nat [3; 5; 9; 13] ++
  round hh [0; 8; 4; 12; 2; 10; 6; 14; 1; 9; 5; 13; 3; 11; 7; 15]%nat [3; 9; 11; 15].

Definition compress (b : regs) (X : list Z) : regs :=
  let '(a', b', c', d') := fold_left (step X) steps b in
  let '(a, b, c, d) := b in
  (u32 (a + a'), u32 (b + b'), u32 (c + c'), u32 (d + d')).

Fixpoint blocks (k : nat) (l : list Z) : list (list Z) :=
  match k with O => [] | S k => take 64 l :: blocks k (drop 64 l) end.

Definition md4 (v : list bool) : regs :=
  let p := pad v in
  fold_left compress (blocks (length p / 512) (bytes_of (length p / 8) p)) (I0, I1, I2, I3).
End Rfc.

(** The vectors of the standard: the empty string, "abc" and the alphabet. *)
Definition digest_of (s : list Z) : outcome (list Z) :=
  let! MDp := MDmessage [] (s ++ [0]) (8 * Z.of_nat (length s)) in Ret (digest MDp).
Example md4_empty : digest_of [] =
  Ret [0x31; 0xd6; 0xcf; 0xe0; 0xd1; 0x6a; 0xe9; 0x31; 0xb7; 0x3c; 0x59; 0xd7; 0xe0; 0xc0; 0x89; 0xc0].
Proof. vm_compute. reflexivity. Qed.
Example md4_abc : digest_of [97; 98; 99] =
  Ret [0xa4; 0x48; 0x01; 0x7a; 0xaf; 0x21; 0xd8; 0x52; 0x5f; 0xc1; 0x0a; 0xe8; 0x7a; 0xa6; 0x72; 0x9d].
Proof. vm_compute. reflexivity. Qed.
Example md4_rfc_abc : Rfc.md4 (Fips.of_bytes [97; 98; 99]) =
  (wd [0xa4; 0x48; 0x01; 0x7a] 0, wd [0xaf; 0x21; 0xd8; 0x52] 0, wd [0x5f; 0xc1; 0x0a; 0xe8] 0, wd [0x7a; 0xa6; 0x72; 0x9d] 0).
Proof. vm_compute. reflexivity. Qed.

(** ** The block function is the standard's *)

(** Four statements are four steps on rotating registers. *)
Record quad := Quad { q_op : op; q_k : nat * nat * nat * nat; q_s : Z * Z * Z * Z }.

Definition quad_stmts (q : quad) : list stmt :=
  let '(k1, k2, k3, k4) := q_k q in
  let '(s1, s2, s3, s4) := q_s q in
  [Stmt (q_op q) RA RB RC RD k1 s1; Stmt (q_op q) RD RA RB RC k2 s2;
   Stmt (q_op q) RC RD RA RB k3 s3; Stmt (q_op q) RB RC RD RA k4 s4].

Definition quad_steps (q : quad) : list (op * nat * Z) :=
  let '(k1, k2, k3, k4) := q_k q in
  let '(s1, s2, s3, s4) := q_s q in
  [(q_op q, k1, s1); (q_op q, k2, s2); (q_op q, k3, s3); (q_op q, k4, s4)].

Lemma quads_run X qs st :
  fold_left (exec X) (flat_map quad_stmts qs) st = fold_left (Rfc.step X) (flat_map quad_steps qs) st.
Proof.
  revert st. induction qs as [|q qs IH]; intros st; [done|]. cbn [flat_map]. rewrite !fold_left_app, <-IH. f_equal.
  destruct q as [o [[[k1 k2] k3] k4] [[[s1 s2] s3] s4]], st as [[[a b] c] d].
  by destruct o.
Qed.

Definition md4_quads : list quad :=
  let fq a b c d := Quad ff (a, b, c, d) (3, 7, 11, 19) in
  let gq a b c d := Quad gg (a, b, c, d) (3, 5, 9, 13) in
  let hq a b c d := Quad hh (a, b, c, d) (3, 9, 11, 15) in
  [fq 0 1 2 3; fq 4 5 6 7; fq 8 9 10 11; fq 12 13 14 15;
   gq 0 4 8 12; gq 1 5 9 13; gq 2 6 10 14; gq 3 7 11 15;
   hq 0 8 4 12; hq 2 10 6 14; hq 1 9 5 13; hq 3 11 7 15]%nat.

Lemma MDstmts_steps X st : fold_left (exec X) MDstmts st = fold_left (Rfc.step X) Rfc.steps st.
Proof.
  change MDstmts with (flat_map quad_stmts md4_quads). change Rfc.steps with (flat_map quad_steps md4_quads).
  apply quads_run.
Qed.

(** ** Words and bytes *)

Lemma byte_of_wd X i :
  Forall is_byte X -> (4 * i + 4 <= length X)%nat ->
  le32 (u32 (wd X i)) = take 4 (drop (4 * i) X).
Proof.
  intros Hb Hl.
  destruct (drop (4 * i) X) as [|b0 [|b1 [|b2 [|b3 r]]]] eqn:E;
    try (apply (f_equal length) in E; rewrite length_drop in E; simpl in E; lia).
  assert (Hn : forall k, nth (4 * i + k) X 0 = nth k (b0 :: b1 :: b2 :: b3 :: r) 0).
  { intros k. by rewrite <-E, nth_skipn. }
  assert (HF : Forall is_byte (b0 :: b1 :: b2 :: b3 :: r)) by (rewrite <-E; by apply Forall_drop).
  apply Forall_cons in HF as [H0 HF]. apply Forall_cons in HF as [H1 HF].
  apply Forall_cons in HF as [H2 HF]. apply Forall_cons in HF as [H3 _].
  unfold wd. rewrite !Hn. cbn [nth take]. unfold le32, byte_of, u8, u32.
  repeat (f_equal; [byte_bits|]). f_equal. byte_bits.
Qed.

(** On a little-endian machine [MDreverse] stores back what it read. *)
Lemma MDreverse_id X : Forall is_byte X -> (64 <= length X)%nat -> MDreverse X = Ret X.
Proof.
  intros Hb Hl. unfold MDreverse.
  assert (Hi : Forall (fun i => (4 * i + 4 <= length X)%nat) (seq 0 16))
    by (apply Forall_forall; intros i Hi%elem_of_seq; lia).
  induction Hi as [|i ns Hi _ IH]; [done|]. cbn [MDreverse_loop].
  unfold SIVAL. rewrite (proj2 (Nat.leb_le (4 * i + 4) (length X))) by done.
  rewrite byte_of_wd by done.
  replace (list_inserts (4 * i) (take 4 (drop (4 * i) X)) X) with X; [done|].
  apply list_eq. intros j. rewrite lookup_inserts_dec. case_decide as Hj; [|done].
  rewrite length_take_drop in Hj by done. rewrite lookup_take_lt, lookup_drop by lia. f_equal. lia.
Qed.

Lemma wd_take X i : (i < 16)%nat -> wd (take 64 X) i = wd X i.
Proof.
  intros Hi. unfold wd.
  assert (H : forall k, (k < 4)%nat -> nth (4 * i + k) (take 64 X) 0 = nth (4 * i + k) X 0).
  { intros k Hk. rewrite !nth_lookup. by rewrite lookup_take_lt by lia. }
  by rewrite !H by lia.
Qed.

Lemma compress_take b X : Rfc.compress b (take 64 X) = Rfc.compress b X.
Proof.
  unfold Rfc.compress. assert (E : fold_left (Rfc.step (take 64 X)) Rfc.steps b = fold_left (Rfc.step X) Rfc.steps b).
  { assert (Hk : Forall (fun q : op * nat * Z => (q.1.2 < 16)%nat) Rfc.steps)
      by (apply Forall_forall; vm_compute; intros q Hq; repeat (apply elem_of_cons in Hq as [->|Hq]; [simpl; lia|]); by apply elem_of_nil in Hq).
    revert b. induction Hk as [|[[o k] s] qs Hk _ IH]; intros [[[a b] c] d]; [done|]. cbn [fold_left].
    rewrite <-IH. f_equal. unfold Rfc.step. simpl in Hk. by rewrite wd_take. }
  by rewrite E.
Qed.

Lemma MDblock_run MDp X :
  Forall is_byte X -> (64 <= length X)%nat ->
  MDblock MDp X = Ret (MD (Rfc.compress (buffer MDp) (take 64 X)) (count MDp) (done MDp), X).
Proof.
  intros Hb Hl. unfold MDblock. rewrite MDreverse_id by done. rewrite compress_take, MDstmts_steps.
  unfold Rfc.compress. destruct (buffer MDp) as [[[b0 b1] b2] b3].
  by destruct (fold_left _ _ _) as [[[A B] C] D].
Qed.

(** ** The counter *)

Fixpoint le_value (c : list Z) : Z := match c with [] => 0 | x :: c => x + 256 * le_value c end.

Lemma le_value_nonneg c : Forall is_byte c -> 0 <= le_value c.
Proof. induction 1 as [|x c Hx _ IH]; simpl; [lia|]. destruct Hx. lia. Qed.

Lemma le_value_inj c c' :
  Forall is_byte c -> Forall is_byte c' -> length c = length c' -> le_value c = le_value c' -> c = c'.
Proof.
  intros Hc. revert c'. induction Hc as [|x c Hx Hc IH]; intros [|y c'] Hc' Hl Hv; try done.
  apply Forall_cons in Hc' as [Hy Hc']. simpl in *. unfold word in *.
  assert (le_value c = le_value c' /\ x = y) as [E ->] by lia. f_equal. apply IH; auto.
Qed.

Lemma add_count_run fuel pre c tmp :
  Forall is_byte c -> 0 <= tmp < 2 ^ 31 -> le_value c + tmp < 256 ^ Z.of_nat (length c) -> (length c < fuel)%nat ->
  exists c', add_count fuel (pre ++ c) (length pre) tmp = Ret (pre ++ c') /\
    Forall is_byte c' /\ length c' = length c /\ le_value c' = le_value c + tmp.
Proof.
  intros Hc. revert fuel pre tmp. induction Hc as [|x c Hx Hc IH]; intros fuel pre tmp Ht Hv Hf.
  - assert (tmp = 0) as -> by (simpl in Hv; lia). exists []. destruct fuel; done.
  - destruct fuel as [|fuel]; [simpl in Hf; lia|]. cbn [add_count].
    destruct (Z.eqb_spec tmp 0) as [->|Hne].
    { exists (x :: c). split_and!; [done|by constructor|done|lia]. }
    rewrite list_lookup_middle by done. unfold word in Hx. simpl in Hx.
    unfold u32. rewrite wrap_small by (unfold word; lia).
    rewrite <-(Nat.add_0_r (length pre)), insert_app_r. cbn [insert list_insert].
    rewrite Nat.add_0_r. rewrite cons_middle, app_assoc.
    replace (S (length pre)) with (length (pre ++ [u8 (tmp + x)])) by (rewrite length_app; simpl; lia).
    assert (Hs : Z.shiftr (tmp + x) 8 = (tmp + x) / 256) by (by rewrite Z.shiftr_div_pow2).
    rewrite Hs. pose proof (Z.div_mod (tmp + x) 256). pose proof (Z.mod_pos_bound (tmp + x) 256).
    cbn [length] in Hv. rewrite Nat2Z.inj_succ, Z.pow_succ_r in Hv by lia. cbn [le_value] in Hv.
    destruct (IH fuel (pre ++ [u8 (tmp + x)]) ((tmp + x) / 256)) as (c' & E & Hb & Hl & Hval);
      [lia|lia|simpl in Hf; lia|].
    exists (u8 (tmp + x) :: c'). rewrite E, <-app_assoc. cbn [app length le_value]. split_and!; [done| |lia|].
    + constructor; [by apply wrap_word|done].
    + change (u8 (tmp + x)) with ((tmp + x) mod 256). lia.
Qed.

Lemma length_bytes_spec n :
  0 <= n < 2 ^ 64 -> Forall is_byte (Rfc.length_bytes n) /\ le_value (Rfc.length_bytes n) = n.
Proof.
  intros Hn. split.
  - apply Forall_map, Forall_forall. intros k _. apply (Z.mod_pos_bound _ 256). lia.
  - unfold Rfc.length_bytes. cbn [map seq le_value]. rewrite !Z.shiftr_div_pow2 by lia.
    change (Z.of_nat 0) with 0. simpl Z.of_nat. simpl Z.mul. simpl Z.pow. 
    rewrite Z.div_1_r.
    Z.to_euclidean_division_equations. lia.
Qed.

Lemma add_count_length n cnt :
  0 <= n -> 0 <= cnt < 2 ^ 31 -> n + cnt < 2 ^ 64 ->
  add_count 9 (Rfc.length_bytes n) 0 cnt = Ret (Rfc.length_bytes (n + cnt)).
Proof.
  intros Hn Hc Hs. destruct (length_bytes_spec n ltac:(lia)) as [Hb Hv].
  destruct (length_bytes_spec (n + cnt) ltac:(lia)) as [Hb' Hv'].
  destruct (add_count_run 9 [] (Rfc.length_bytes n) cnt) as (c & E & Hbc & Hlc & Hvc); [done|lia| |simpl; lia|].
  { rewrite Hv. simpl. lia. }
  cbn [app length] in E. rewrite E. f_equal. apply le_value_inj; [done..|]. by rewrite Hvc, Hv, Hv'.
Qed.

(** ** Padding *)

Abbreviation bits_of := Fips.of_bytes.

Lemma bits_of_app l1 l2 : bits_of (l1 ++ l2) = bits_of l1 ++ bits_of l2.
Proof. unfold bits_of. apply flat_map_app. Qed.

Lemma bits_of_cons x l : bits_of (x :: l) = bits_of [x] ++ bits_of l.
Proof. done. Qed.

Lemma length_bits_of l : length (bits_of l) = (8 * length l)%nat.
Proof. induction l as [|x l IH]; [done|]. rewrite bits_of_cons, length_app, IH. simpl. lia. Qed.

Lemma bits_of_zeros k : bits_of (replicate k 0) = replicate (8 * k) false.
Proof.
  induction k as [|k IH]; [done|].
  change (replicate (S k) 0) with (0 :: replicate k 0). rewrite bits_of_cons, IH.
  replace (8 * S k)%nat with (8 + 8 * k)%nat by lia. done.
Qed.

(** A check over all bytes. *)
Lemma all_bytes (P : Z -> bool) x : forallb P (seqZ 0 256) = true -> is_byte x -> P x = true.
Proof.
  intros H Hx. rewrite forallb_forall in H. apply H. apply list_elem_of_In, elem_of_seqZ. unfold word in Hx. lia.
Qed.

Lemma num_bits x : is_byte x -> Z.of_nat (Fips.num (bits_of [x])) = x.
Proof.
  intros Hx. apply Z.eqb_eq.
  apply (all_bytes (fun x => Z.of_nat (Fips.num (bits_of [x])) =? x)); [vm_compute; reflexivity|done].
Qed.

Lemma bytes_of_bits l rest :
  Forall is_byte l -> Rfc.bytes_of (length l) (bits_of l ++ rest) = l.
Proof.
  induction 1 as [|x l Hx _ IH]; [done|]. rewrite bits_of_cons, <-app_assoc. cbn [length Rfc.bytes_of].
  replace 8%nat with (length (bits_of [x])) by done. rewrite take_app_length, drop_app_length, IH.
  by rewrite num_bits.
Qed.

Definition pad_byte_ok (bit : nat) (x : Z) : bool :=
  bool_decide (bits_of [pad_byte x (Z.of_nat bit)] = take bit (bits_of [x]) ++ true :: replicate (7 - bit) false)
  && wordb 8 (pad_byte x (Z.of_nat bit)).

Lemma pad_byte_bits x bit :
  is_byte x -> (bit < 8)%nat ->
  bits_of [pad_byte x (Z.of_nat bit)] = take bit (bits_of [x]) ++ true :: replicate (7 - bit) false /\
  is_byte (pad_byte x (Z.of_nat bit)).
Proof.
  intros Hx Hb. assert (Hall : forallb (fun b => forallb (pad_byte_ok b) (seqZ 0 256)) (seq 0 8) = true)
    by (vm_compute; reflexivity).
  rewrite forallb_forall in Hall. specialize (Hall bit ltac:(apply in_seq; lia)).
  apply (all_bytes _ x) in Hall; [|done]. apply andb_true_iff in Hall as [H1 H2].
  split; [by apply bool_decide_eq_true in H1|]. unfold wordb in H2. unfold word. lia.
Qed.

(** The bytes of the last blocks: the data, the padded byte, zeros and the
    length of the whole message. *)
Definition tail_bytes (X : list Z) (byte bit : nat) (n : Z) : list Z :=
  take byte X ++ pad_byte (nth byte X 0) (Z.of_nat bit) ::
  replicate (if (byte <=? 55)%nat then 55 - byte else 119 - byte) 0 ++ Rfc.length_bytes n.

Lemma take_bits X byte bit :
  (byte < length X)%nat -> (bit < 8)%nat ->
  take (8 * byte + bit) (bits_of X) = bits_of (take byte X) ++ take bit (bits_of [nth byte X 0]).
Proof.
  intros Hb Hbit. destruct (lookup_lt_is_Some_2 X byte Hb) as [x Hx].
  rewrite <-(take_drop_middle X byte x Hx) at 1. rewrite bits_of_app, bits_of_cons.
  assert (Hl : length (bits_of (take byte X)) = (8 * byte)%nat) by (rewrite length_bits_of, length_take; lia).
  rewrite take_app, Hl, take_ge by lia. replace (8 * byte + bit - 8 * byte)%nat with bit by lia.
  rewrite take_app_le by (rewrite length_bits_of; simpl; lia). by rewrite nth_lookup, Hx.
Qed.

Lemma pad_tail pre X byte bit k :
  length pre = (64 * k)%nat -> Forall is_byte X -> (byte < length X)%nat -> (byte < 64)%nat -> (bit < 8)%nat ->
  let v := bits_of pre ++ take (8 * byte + bit) (bits_of X) in
  Rfc.pad v = bits_of (pre ++ tail_bytes X byte bit (Z.of_nat (length v))).
Proof.
  intros Hp HX Hb Hb64 Hbit v.
  assert (Hlen : length v = (512 * k + 8 * byte + bit)%nat).
  { unfold v. rewrite length_app, length_take, !length_bits_of. lia. }
  unfold Rfc.pad. rewrite Hlen. unfold v, tail_bytes.
  rewrite take_bits by done. rewrite !bits_of_app, (bits_of_cons (pad_byte _ _)), bits_of_app, bits_of_zeros.
  rewrite (proj1 (pad_byte_bits (nth byte X 0) bit ltac:(apply Forall_nth; done) Hbit)).
  rewrite <-!app_assoc. do 3 f_equal. cbn [app]. f_equal. rewrite app_assoc. f_equal.
  rewrite <-replicate_add. f_equal.
  destruct (Nat.leb_spec byte 55).
  - rewrite <-(Z.mod_unique (447 - Z.of_nat (512 * k + 8 * byte + bit)) 512 (- Z.of_nat k)
      (447 - Z.of_nat (8 * byte + bit))) by lia. lia.
  - rewrite <-(Z.mod_unique (447 - Z.of_nat (512 * k + 8 * byte + bit)) 512 (- Z.of_nat k - 1)
      (959 - Z.of_nat (8 * byte + bit))) by lia. lia.
Qed.

(** ** Whole messages *)

Lemma blocks_app k1 k2 l1 l2 :
  length l1 = (64 * k1)%nat -> Rfc.blocks (k1 + k2) (l1 ++ l2) = Rfc.blocks k1 l1 ++ Rfc.blocks k2 l2.
Proof.
  revert l1. induction k1 as [|k1 IH]; intros l1 Hl.
  - by apply length_zero_iff_nil in Hl as ->.
  - cbn [Rfc.blocks Nat.add app]. rewrite take_app_le by lia. f_equal.
    rewrite drop_app_le by lia. apply IH. rewrite length_drop. lia.
Qed.

Abbreviation is_block64 := (fun X : list Z => length X = 64%nat /\ Forall is_byte X).

Lemma length_blocks Xs : Forall is_block64 Xs -> length (concat Xs) = (64 * length Xs)%nat.
Proof. induction 1 as [|X Xs [HX _] _ IH]; simpl; [done|]. rewrite length_app. lia. Qed.

Lemma blocks_bytes Xs : Forall is_block64 Xs -> Forall is_byte (concat Xs).
Proof. induction 1 as [|X Xs [_ HX] _ IH]; simpl; [constructor|]. by apply Forall_app_2. Qed.

Lemma blocks_concat Xs : Forall is_block64 Xs -> Rfc.blocks (length Xs) (concat Xs) = Xs.
Proof.
  induction 1 as [|X Xs [HX _] _ IH]; [done|]. cbn [length Rfc.blocks concat].
  rewrite <-HX, take_app_length, drop_app_length. by rewrite IH.
Qed.

(** The standard's digest of a message padded to whole blocks. *)
Lemma md4_blocks v Ys :
  Forall is_block64 Ys -> Rfc.pad v = bits_of (concat Ys) ->
  Rfc.md4 v = fold_left Rfc.compress Ys (I0, I1, I2, I3).
Proof.
  intros HY Hp. unfold Rfc.md4. rewrite Hp, length_bits_of.
  assert (H8 : (8 * length (concat Ys) / 8 = length (concat Ys))%nat) by (rewrite Nat.mul_comm; by apply Nat.div_mul).
  rewrite H8. rewrite (length_blocks Ys HY) at 1.
  replace (8 * (64 * length Ys))%nat with (length Ys * 512)%nat by lia. rewrite Nat.div_mul by lia.
  rewrite <-(app_nil_r (bits_of (concat Ys))), bytes_of_bits by (by apply blocks_bytes).
  by rewrite blocks_concat.
Qed.

(** The state after whole blocks. *)
Definition md_after (Xs : list (list Z)) : MDstruct :=
  MD (fold_left Rfc.compress Xs (I0, I1, I2, I3)) (Rfc.length_bytes (512 * Z.of_nat (length Xs))) 0.

Lemma MDupdate_full Xs X :
  Forall is_byte X -> (64 <= length X)%nat -> 512 * Z.of_nat (S (length Xs)) < 2 ^ 64 ->
  MDupdate (md_after Xs) X 512 = Ret (md_after (Xs ++ [take 64 X]), X, Silent).
Proof.
  intros Hb Hl Hn. unfold MDupdate. cbn [done md_after Z.eqb negb andb count].
  rewrite add_count_length by lia. cbn [Z.eqb Pos.eqb]. rewrite MDblock_run by done.
  unfold md_after. cbn [buffer count done]. rewrite fold_left_app, length_app. cbn [fold_left].
  do 4 f_equal. f_equal. simpl length. lia.
Qed.

Lemma MDfull_run Xs Ys :
  Forall is_block64 Ys -> 512 * Z.of_nat (length (Xs ++ Ys)) < 2 ^ 64 ->
  MDfull (md_after Xs) Ys = Ret (md_after (Xs ++ Ys)).
Proof.
  intros HY. revert Xs. induction HY as [|Y Ys [Hl Hb] _ IH]; intros Xs Hn; [by rewrite app_nil_r|].
  cbn [MDfull]. rewrite length_app in Hn. simpl in Hn.
  rewrite MDupdate_full by (done || lia). rewrite take_ge by lia. rewrite IH.
  - by rewrite <-app_assoc.
  - rewrite !length_app. simpl. lia.
Qed.

Lemma tail_blocks X byte bit n :
  Forall is_byte X -> (byte < length X)%nat -> (byte < 64)%nat -> (bit < 8)%nat -> 0 <= n < 2 ^ 64 ->
  let t := tail_bytes X byte bit n in
  Forall is_byte t /\ length t = if (byte <=? 55)%nat then 64%nat else 128%nat.
Proof.
  intros HX Hb Hb64 Hbit Hn t. unfold t, tail_bytes. split.
  - apply Forall_app_2; [by apply Forall_take|]. constructor.
    + apply pad_byte_bits; [by apply Forall_nth|done].
    + apply Forall_app_2; [apply Forall_replicate; by apply word_0|by apply length_bytes_spec].
  - rewrite length_app, length_take. cbn [length]. rewrite length_app, length_replicate.
    change (length (Rfc.length_bytes n)) with 8%nat. destruct (Nat.leb_spec byte 55); lia.
Qed.

(** The scratch block [XX] with the padded byte. *)
Lemma scratch_block X byte pb :
  (byte < length X)%nat -> (byte < 64)%nat ->
  <[byte := pb]> (take (S byte) X ++ replicate (63 - byte) 0) = take byte X ++ pb :: replicate (63 - byte) 0.
Proof.
  intros Hb Hb64. destruct (lookup_lt_is_Some_2 X byte Hb) as [x Hx].
  rewrite (take_S_r X byte x Hx), <-app_assoc. cbn [app].
  assert (Hl : byte = length (take byte X)) by (rewrite length_take; lia).
  rewrite Hl at 1. rewrite <-(Nat.add_0_r (length (take byte X))). by rewrite insert_app_r.
Qed.

(** It has 64 bytes. *)
Abbreviation scratch X byte pb := (take byte X ++ pb :: replicate (63 - byte) 0).

Lemma scratch_ok X byte pb :
  Forall is_byte X -> (byte < length X)%nat -> (byte < 64)%nat -> is_byte pb -> is_block64 (scratch X byte pb).
Proof.
  intros HX Hb Hb64 Hpb. split.
  - rewrite length_app, length_take. cbn [length]. rewrite length_replicate. lia.
  - apply Forall_app_2; [by apply Forall_take|]. constructor; [done|]. apply Forall_replicate. by apply word_0.
Qed.

(** One block is enough. *)
Lemma tail_one X byte bit n :
  (byte < length X)%nat -> (byte <= 55)%nat ->
  list_inserts 56 (Rfc.length_bytes n) (scratch X byte (pad_byte (nth byte X 0) (Z.of_nat bit))) = tail_bytes X byte bit n.
Proof.
  intros Hb H55. unfold tail_bytes. rewrite (proj2 (Nat.leb_le byte 55)) by done. set (pb := pad_byte _ _).
  pose proof (inserts_middle (take byte X ++ pb :: replicate (55 - byte) 0) (replicate 8 0) (Rfc.length_bytes n) [] eq_refl) as H.
  replace (length (take byte X ++ pb :: replicate (55 - byte) 0)) with 56%nat in H
    by (rewrite length_app, length_take; cbn [length]; rewrite length_replicate; lia).
  rewrite !app_nil_r, <-!app_assoc in H. rewrite <-!app_comm_cons, <-replicate_add in H.
  by replace (55 - byte + 8)%nat with (63 - byte)%nat in H by lia.
Qed.

(** Two blocks: the second holds zeros and the length. *)
Definition last_block (n : Z) : list Z := replicate 56 0 ++ Rfc.length_bytes n.

Lemma last_block_ok n : 0 <= n < 2 ^ 64 -> is_block64 (last_block n).
Proof.
  intros Hn. split; [done|].
  apply Forall_app_2; [apply Forall_replicate; by apply word_0|by apply length_bytes_spec].
Qed.

Lemma tail_two X byte bit n :
  (55 < byte < 64)%nat ->
  tail_bytes X byte bit n = scratch X byte (pad_byte (nth byte X 0) (Z.of_nat bit)) ++ last_block n.
Proof.
  intros Hb. unfold tail_bytes, last_block. rewrite (proj2 (Nat.leb_gt byte 55)) by lia. rewrite <-app_assoc. cbn [app].
  rewrite app_assoc, <-replicate_add. by replace (119 - byte)%nat with (63 - byte + 56)%nat by lia.
Qed.

Lemma refill_block XX n :
  length XX = 64%nat ->
  list_inserts 56 (Rfc.length_bytes n) (list_inserts 0 (replicate 56 0) XX) = last_block n.
Proof.
  intros Hl. pose proof (inserts_middle [] (take 56 XX) (replicate 56 0) (drop 56 XX)) as H.
  rewrite length_take, Hl, length_replicate in H. specialize (H eq_refl). change (length []) with 0%nat in H.
  rewrite !app_nil_l, take_drop in H. rewrite H.
  pose proof (inserts_middle (replicate 56 0) (drop 56 XX) (Rfc.length_bytes n) []) as H'.
  rewrite length_drop, Hl, !app_nil_r, length_replicate in H'. exact (H' eq_refl).
Qed.

(** The last blocks through the block function. *)
Lemma finish_blocks MDp X byte bit n :
  Forall is_byte X -> (byte < length X)%nat -> (byte < 64)%nat -> (bit < 8)%nat -> 0 <= n < 2 ^ 64 ->
  let XX := scratch X byte (pad_byte (nth byte X 0) (Z.of_nat bit)) in
  exists Ys, Forall is_block64 Ys /\ concat Ys = tail_bytes X byte bit n /\
  (if (byte <=? 55)%nat then
     let! (MDp, _) := MDblock MDp (list_inserts 56 (Rfc.length_bytes n) XX) in Ret MDp
   else
     let! (MDp, XX) := MDblock MDp XX in
     let! (MDp, _) := MDblock MDp (list_inserts 56 (Rfc.length_bytes n) (list_inserts 0 (replicate 56 0) XX)) in
     Ret MDp) =
  Ret (MD (fold_left Rfc.compress Ys (buffer MDp)) (count MDp) (done MDp)).
Proof.
  intros HX Hb Hb64 Hbit Hn XX.
  assert (Hpb : is_byte (pad_byte (nth byte X 0) (Z.of_nat bit))) by (apply pad_byte_bits; [by apply Forall_nth|done]).
  destruct (Nat.leb_spec byte 55) as [H55|H55].
  - destruct (tail_blocks X byte bit n) as [Htb Htl]; [done..|]. cbv zeta in Htb, Htl.
    rewrite (proj2 (Nat.leb_le byte 55)) in Htl by done.
    exists [tail_bytes X byte bit n]. split_and!; [by constructor|by simpl; rewrite app_nil_r|].
    unfold XX. rewrite tail_one, MDblock_run by (done || lia). by rewrite take_ge by lia.
  - destruct (scratch_ok X byte _ HX Hb Hb64 Hpb) as [Hl HB]. fold XX in Hl, HB.
    destruct (last_block_ok n Hn) as [Hl2 HB2].
    exists [XX; last_block n]. split_and!; [by repeat apply Forall_cons_2| |].
    { rewrite tail_two by lia. cbn [concat]. by rewrite app_nil_r. }
    rewrite MDblock_run by (done || lia). rewrite refill_block, MDblock_run by (done || lia).
    by rewrite !take_ge by lia.
Qed.

Lemma MDupdate_partial Xs X byte bit :
  Forall is_block64 Xs -> Forall is_byte X -> (byte < length X)%nat -> (byte < 64)%nat -> (bit < 8)%nat ->
  let cnt := (8 * byte + bit)%nat in
  let n := 512 * Z.of_nat (length Xs) + Z.of_nat cnt in
  n < 2 ^ 64 ->
  MDupdate (md_after Xs) X (Z.of_nat cnt) =
    Ret (MD (Rfc.md4 (bits_of (concat Xs) ++ take cnt (bits_of X))) (Rfc.length_bytes n) 1, X, Silent).
Proof.
  intros HXs HX Hb Hb64 Hbit cnt n Hn.
  assert (Hpad := pad_tail (concat Xs) X byte bit (length Xs) (length_blocks Xs HXs) HX Hb Hb64 Hbit).
  cbv zeta in Hpad. fold cnt in Hpad. set (v := bits_of (concat Xs) ++ take cnt (bits_of X)) in *.
  replace (Z.of_nat (length v)) with n in Hpad.
  2: { unfold v. rewrite length_app, length_take, !length_bits_of, (length_blocks Xs HXs). lia. }
  unfold MDupdate. cbn [done md_after Z.eqb negb count]. rewrite andb_false_r.
  rewrite add_count_length by lia. fold n. cbn [Z.eqb negb].
  destruct (Z.eqb_spec (Z.of_nat cnt) 512); [lia|]. destruct (Z.ltb_spec 512 (Z.of_nat cnt)); [lia|].
  assert (Eby : Z.to_nat (Z.shiftr (Z.of_nat cnt) 3) = byte).
  { rewrite Z.shiftr_div_pow2 by lia. rewrite <-(Z.div_unique (Z.of_nat cnt) (2 ^ 3) (Z.of_nat byte) (Z.of_nat bit)); simpl; lia. }
  assert (Ebi : Z.land (Z.of_nat cnt) 7 = Z.of_nat bit).
  { change 7 with (Z.ones 3). rewrite Z.land_ones by lia.
    rewrite <-(Z.mod_unique (Z.of_nat cnt) (2 ^ 3) (Z.of_nat byte) (Z.of_nat bit)); simpl; lia. }
  rewrite Eby, Ebi. rewrite (proj2 (Nat.ltb_lt _ _)) by done. cbv zeta.
  replace (nth byte (take (S byte) X ++ replicate (63 - byte) 0) 0) with (nth byte X 0).
  2: { rewrite app_nth1 by (rewrite length_take; lia). rewrite !nth_lookup. by rewrite lookup_take_lt by lia. }
  rewrite scratch_block by done. unfold md_after. cbn [buffer done].
  destruct (finish_blocks (MD (fold_left Rfc.compress Xs (I0, I1, I2, I3)) (Rfc.length_bytes n) 0) X byte bit n)
    as (Ys & HYs & HcY & ->); [done..|lia|]. cbn [buffer count done].
  rewrite <-fold_left_app, <-(md4_blocks v); [done|by apply Forall_app_2|].
  by rewrite concat_app, HcY.
Qed.

(** The message and its digest. *)
Lemma MDmessage_run Xs X byte bit :
  Forall is_block64 Xs -> Forall is_byte X -> (byte < length X)%nat -> (byte < 64)%nat -> (bit < 8)%nat ->
  512 * Z.of_nat (length Xs) + Z.of_nat (8 * byte + bit) < 2 ^ 64 ->
  exists MDp, MDmessage Xs X (Z.of_nat (8 * byte + bit)) = Ret MDp /\
    buffer MDp = Rfc.md4 (bits_of (concat Xs) ++ take (8 * byte + bit) (bits_of X)) /\ done MDp = 1.
Proof.
  intros HXs HX Hb Hb64 Hbit Hn. unfold MDmessage. change MDbegin with (md_after []).
  rewrite (MDfull_run [] Xs) by (done || (simpl; lia)). rewrite app_nil_l.
  rewrite MDupdate_partial by done. eexists. split_and!; done.
Qed.

(** C20 (MDbegin, MDupdate): for every message, given as full blocks and a
    last part of fewer than 512 bits, the calls return the digest the
    standard defines for that string of bits, whatever follows the bits in
    the last array; the arrays are not changed and nothing is reported. *)
Theorem md4_correct Xs X byte bit :
  Forall is_block64 Xs -> Forall is_byte X -> (byte < length X)%nat -> (byte < 64)%nat -> (bit < 8)%nat ->
  512 * Z.of_nat (length Xs) + Z.of_nat (8 * byte + bit) < 2 ^ 64 ->
  exists MDp MDp', MDfull MDbegin Xs = Ret MDp /\
    MDupdate MDp X (Z.of_nat (8 * byte + bit)) = Ret (MDp', X, Silent) /\
    buffer MDp' = Rfc.md4 (bits_of (concat Xs) ++ take (8 * byte + bit) (bits_of X)).
Proof.
  intros HXs HX Hb Hb64 Hbit Hn. change MDbegin with (md_after []).
  rewrite (MDfull_run [] Xs) by (done || (simpl; lia)). rewrite app_nil_l.
  eexists _, _. split; [done|]. rewrite MDupdate_partial by done. split; done.
Qed.

Lemma md4_correct_witness :
  exists MDp MDp', MDfull MDbegin [replicate 64 7] = Ret MDp /\
    MDupdate MDp [97; 98; 99] (Z.of_nat (8 * 2 + 3)) = Ret (MDp', [97; 98; 99], Silent) /\
    buffer MDp' = Rfc.md4 (bits_of (concat [replicate 64 7]) ++ take 19 (bits_of [97; 98; 99])).
Proof.
  apply (md4_correct [replicate 64 7] [97; 98; 99] 2 3); try (simpl; lia).
  - constructor; [|constructor]. split; [done|]. by apply words_check.
  - by apply words_check.
Defined.

(** (MDupdate, error branches): once a digest is complete a call changes
    nothing, silently for a count of 0 and with a report otherwise; a count
    above 512 is reported and leaves the digest alone, but the bit counter
    has been advanced by it. *)
Theorem md4_errors MDp X cnt :
  (done MDp <> 0 -> MDupdate MDp X cnt = Ret (MDp, X, if cnt =? 0 then Silent else AlreadyDone)) /\
  (forall Xs, MDp = md_after Xs -> 512 < cnt < 2 ^ 31 -> 512 * Z.of_nat (length Xs) + cnt < 2 ^ 64 ->
   exists MDp', MDupdate MDp X cnt = Ret (MDp', X, IllegalCount) /\ buffer MDp' = buffer MDp /\
     count MDp' = Rfc.length_bytes (512 * Z.of_nat (length Xs) + cnt) /\ done MDp' = 0).
Proof.
  split.
  - intros Hd. unfold MDupdate. rewrite (proj2 (Z.eqb_neq (done MDp) 0)) by done.
    cbn [negb]. by destruct (cnt =? 0).
  - intros Xs -> Hc Hn. unfold MDupdate. cbn [done md_after Z.eqb negb count]. rewrite andb_false_r.
    rewrite add_count_length by lia. destruct (Z.eqb_spec cnt 512); [lia|].
    destruct (Z.ltb_spec 512 cnt); [|lia]. eexists. split_and!; done.
Qed.

Lemma md4_errors_witness :
  MDupdate (MD (1, 2, 3, 4) (replicate 8 0) 1) [] 8 = Ret (MD (1, 2, 3, 4) (replicate 8 0) 1, [], AlreadyDone) /\
  exists MDp', MDupdate MDbegin [] 600 = Ret (MDp', [], IllegalCount).
Proof.
  split.
  - apply (proj1 (md4_errors (MD (1, 2, 3, 4) (replicate 8 0) 1) [] 8)). done.
  - destruct (proj2 (md4_errors MDbegin [] 600) [] eq_refl ltac:(lia) ltac:(simpl; lia)) as (MDp' & E & _). by exists MDp'.
Defined.
