(* ===== verification/Smb.v ===== *)
(** * The Samba password tool (apps/smbencrypt-0.1)

    smbencrypt.c, SMBPasswdGen.c, main.c and the parts of nt.h they use: the LanMan
    hash and the NT hash of a password and the responses to a challenge.
    Arrays are byte lists with every access checked; bytes of the stack that
    the code does not initialise are parameters.  DES and MD4 are those of
    [Des] and [Md4], and their standards those of [Fips] and [Rfc]. *)

From S2P Require Import Prelude CMem Des DesSpec Md4.

(** ** Strings *)

Definition toupper_c (c : Z) : Z := if (97 <=? c) && (c <=? 122) then c - 32 else c.

Fixpoint strlen (s : list Z) : outcome Z :=
  match s with
  | [] => Err Fault
  | c :: s => if c =? 0 then Ret 0 else let! n := strlen s in Ret (n + 1)
  end.

(** Up to and including the terminator. *)
Fixpoint strupr (s : list Z) : outcome (list Z) :=
  match s with
  | [] => Err Fault
  | c :: s =>
      if toupper_c c =? 0 then Ret (toupper_c c :: s)
      else let! s := strupr s in Ret (toupper_c c :: s)
  end.

(** [strncpy]: [n] characters, those after the end of [src] 0. *)
Fixpoint strncpy_chars (src : list Z) (n : nat) : outcome (list Z) :=
  match n with
  | O => Ret []
  | S n =>
      match src with
      | [] => Err Fault
      | c :: src' =>
          if c =? 0 then Ret (replicate (S n) 0)
          else let! r := strncpy_chars src' n in Ret (c :: r)
      end
  end.

Definition strncpy (dst src : list Z) (n : nat) : outcome (list Z) :=
  if (n <=? length dst)%nat then
    let! r := strncpy_chars src n in Ret (list_inserts 0 r dst)
  else Err Fault.

Definition at_byte (s : list Z) (i : nat) : outcome Z :=
  match s !! i with Some c => Ret c | None => Err Fault end.

(** ** smbencrypt.c *)

Definition str_to_key (str : list Z) : outcome (list Z) :=
  match str with
  | s0 :: s1 :: s2 :: s3 :: s4 :: s5 :: s6 :: _ =>
      let key := [Z.shiftr s0 1;
                  Z.lor (Z.shiftl (Z.land s0 0x01) 6) (Z.shiftr s1 2);
                  Z.lor (Z.shiftl (Z.land s1 0x03) 5) (Z.shiftr s2 3);
                  Z.lor (Z.shiftl (Z.land s2 0x07) 4) (Z.shiftr s3 4);
                  Z.lor (Z.shiftl (Z.land s3 0x0F) 3) (Z.shiftr s4 5);
                  Z.lor (Z.shiftl (Z.land s4 0x1F) 2) (Z.shiftr s5 6);
                  Z.lor (Z.shiftl (Z.land s5 0x3F) 1) (Z.shiftr s6 7);
                  Z.land s6 0x7F] in
      Ret (des_set_odd_parity (map (fun k => u8 (Z.shiftl k 1)) key))
  | _ => Err Fault
  end.

(** [D1] and [E1]; the result of [des_set_key] is not looked at. *)
Definition crypt1 (enc : bool) (k d : list Z) : outcome (list Z) :=
  let! deskey := str_to_key k in
  let! (_, ks) := des_set_key false deskey in
  des_ecb_encrypt d ks enc.
Definition D1 (k d : list Z) : outcome (list Z) := crypt1 false k d.
Definition E1 (k d : list Z) : outcome (list Z) := crypt1 true k d.

Definition sp8 : list Z := [0xAA; 0xD3; 0xB4; 0x35; 0xB5; 0x14; 0x04; 0xEE].

Definition E_P16 (p14 : list Z) : outcome (list Z) :=
  let sp7 := replicate 7 0 in
  let! x := D1 sp7 sp8 in
  let! a := E1 p14 x in
  let! b := E1 (drop 7 p14) x in
  Ret (a ++ b).

Definition E_P24 (p21 c8 : list Z) : outcome (list Z) :=
  let! a := E1 p21 c8 in
  let! b := E1 (drop 7 p21) c8 in
  let! c := E1 (drop 14 p21) c8 in
  Ret (a ++ b ++ c).

(** [p14] has 15 bytes; the last is not initialised. *)
Definition SMBencrypt (junk : Z) (passwd c8 : list Z) : outcome (list Z) :=
  let p21 := replicate 21 0 in
  let p14 := replicate 14 0 ++ [junk] in
  let! p14 := strncpy p14 passwd 14 in
  let! p14 := strupr p14 in
  let! p16 := E_P16 p14 in
  E_P24 (list_inserts 0 p16 p21) c8.

(** An [int16] array as its bytes. *)
Definition wget (w : list Z) (i : nat) : outcome Z :=
  let! lo := at_byte w (2 * i) in
  let! hi := at_byte w (2 * i + 1) in
  Ret (lo + 256 * hi).
Definition SSVAL (w : list Z) (i : nat) (val : Z) : outcome (list Z) :=
  if (2 * i + 2 <=? length w)%nat then Ret (list_inserts (2 * i) [Z.land val 0xff; Z.shiftr val 8] w)
  else Err Fault.

Fixpoint _my_wcslen (fuel : nat) (w : list Z) (i : nat) : outcome nat :=
  match fuel with
  | O => Err Diverge
  | S fuel =>
      let! c := wget w i in
      if c =? 0 then Ret 0%nat else let! n := _my_wcslen fuel w (S i) in Ret (S n)
  end.

(** [n] rounds left, at position [i]. *)
Fixpoint _my_mbstowcs (n i : nat) (dst src : list Z) : outcome (list Z) :=
  match n with
  | O => Ret dst
  | S n =>
      let! val := at_byte src i in
      let! dst := SSVAL dst i val in
      if val =? 0 then Ret dst else _my_mbstowcs n (S i) dst src
  end.

(** [for (i = 0; i + 64 <= len; i += 64) MDupdate (&MD, wpwd + (i / 2), 512);] *)
Fixpoint hash_blocks (fuel : nat) (MDp : MDstruct) (wpwd : list Z) (i len : nat) : outcome (MDstruct * list Z * nat) :=
  if (i + 64 <=? len)%nat then
    match fuel with
    | O => Err Diverge
    | S fuel =>
        let! (MDp, X, _) := MDupdate MDp (drop i wpwd) 512 in
        hash_blocks fuel MDp (take i wpwd ++ X) (i + 64) len
    end
  else Ret (MDp, wpwd, i).

(** [junk] is what the 258 bytes of [wpwd] hold before. *)
Definition E_md4hash (junk passwd : list Z) : outcome (list Z) :=
  let! len := strlen passwd in
  let len := Nat.min (Z.to_nat len) 128 in
  let! wpwd := _my_mbstowcs len 0 junk passwd in
  let! wpwd := SSVAL wpwd len 0 in
  let! n := _my_wcslen 130 wpwd 0 in
  let len := (n * 2)%nat in
  let! (MDp, wpwd, i) := hash_blocks len MDbegin wpwd 0 len in
  let! (MDp, _, _) := MDupdate MDp (drop i wpwd) (Z.of_nat ((len - i) * 8)) in
  Ret (digest MDp).

Definition SMBNTencrypt (junk passwd c8 : list Z) : outcome (list Z) :=
  let! p16 := E_md4hash junk passwd in
  E_P24 (list_inserts 0 p16 (replicate 21 0)) c8.

(** ** SMBPasswdGen.c *)

Definition hex_digit (d : Z) : Z := if d <? 10 then 48 + d else 55 + d.
(** [sprintf (p, "%02X", x)], with its terminator. *)
Definition hex02 (x : Z) : list Z := [hex_digit (x / 16); hex_digit (x mod 16); 0].

Fixpoint hex_loop (pos : nat) (out bytes : list Z) : list Z :=
  match bytes with
  | [] => out
  | x :: bytes => hex_loop (pos + 2) (list_inserts pos (hex02 x) out) bytes
  end.

(** [pass] is a terminated string; [fill] and [wfill] are the contents of
    [new_passwd] and [wpwd] before, [out] those of [ascii_p16]. *)
Definition SambaPassGen (fill wfill out pass : list Z) : outcome (list Z) :=
  let! new_passwd := strncpy (<[0%nat := 0]> fill) pass 128 in
  let! new_nt_p16 := E_md4hash wfill new_passwd in
  let new_passwd := <[14%nat := 0]> new_passwd in
  let! new_passwd := strupr new_passwd in
  let! new_p16 := E_P16 new_passwd in
  let out := hex_loop 0 out new_p16 in
  let out := <[32%nat := 58]> out in
  let out := hex_loop 33 out new_nt_p16 in
  Ret (<[65%nat := 0]> out).

(** main.c; [strdup] of a missing argument faults. *)
Definition main (fill wfill out : list Z) (argv : list (list Z)) : outcome (list Z) :=
  match argv !! 1%nat with
  | None => Err Fault
  | Some arg =>
      let! result := SambaPassGen fill wfill out (arg ++ [0]) in
      Ret (take 65 result ++ [10])
  end.

Definition hex (bytes : list Z) : list Z := flat_map (fun x => [hex_digit (x / 16); hex_digit (x mod 16)]) bytes.

(** "password": the two hashes as they are published. *)
Example samba_vector :
  SambaPassGen (replicate 128 9) (replicate 258 9) (replicate 66 9) [112; 97; 115; 115; 119; 111; 114; 100; 0] =
  Ret (hex [0xE5; 0x2C; 0xAC; 0x67; 0x41; 0x9A; 0x9A; 0x22; 0x4A; 0x3B; 0x10; 0x8F; 0x3F; 0xA6; 0xCB; 0x6D] ++ [58] ++
       hex [0x88; 0x46; 0xF7; 0xEA; 0xEE; 0x8F; 0xB1; 0x17; 0xAD; 0x06; 0xBD; 0xD8; 0x30; 0xB7; 0x58; 0x6C] ++ [0]).
Proof. vm_compute. reflexivity. Qed.

(** ** The DES keys *)

Definition parity (v : list bool) : bool := fold_left xorb v false.

(** Seven bytes as a DES key: a bit of odd parity after every seven bits. *)
Definition key_bits (s7 : list Z) : list bool :=
  flat_map (fun i => let v := take 7 (drop (7 * i) (bits_of s7)) in v ++ [negb (parity v)]) (seq 0 8).

(** The low seven bits, high bit first. *)
Definition bits7 (k : Z) : list bool := map (Z.testbit k) [6; 5; 4; 3; 2; 1; 0].

Definition parity_byte_ok (k : Z) : bool :=
  bool_decide (bits_of (des_set_odd_parity [u8 (Z.shiftl k 1)]) = bits7 k ++ [negb (parity (bits7 k))])
  && forallb (wordb 8) (des_set_odd_parity [u8 (Z.shiftl k 1)]).

Lemma parity_bytes_checked : forallb parity_byte_ok (seqZ 0 128) = true.
Proof. vm_compute. reflexivity. Qed.

Opaque des_set_odd_parity.
Lemma parity_byte k :
  word 7 k -> bits_of (des_set_odd_parity [u8 (Z.shiftl k 1)]) = bits7 k ++ [negb (parity (bits7 k))] /\
  Forall is_byte (des_set_odd_parity [u8 (Z.shiftl k 1)]).
Proof.
  intros Hk. pose proof parity_bytes_checked as Hall. rewrite forallb_forall in Hall. specialize (Hall k).
  assert (Hin : In k (seqZ 0 128)) by (apply list_elem_of_In, elem_of_seqZ; unfold word in Hk; lia).
  specialize (Hall Hin). unfold parity_byte_ok in Hall. apply andb_true_iff in Hall as [H1 H2].
  split; [exact (proj1 (bool_decide_eq_true _) H1)|]. by apply words_check.
Qed.

Transparent des_set_odd_parity.

(** A list of seven-bit groups becomes the key with its parity bits. *)
Lemma parity_bytes ks :
  Forall (word 7) ks ->
  let key := des_set_odd_parity (map (fun k => u8 (Z.shiftl k 1)) ks) in
  bits_of key = flat_map (fun k => bits7 k ++ [negb (parity (bits7 k))]) ks /\ Forall is_byte key.
Proof.
  induction 1 as [|k ks Hk _ [IH1 IH2]]; [by split|]. destruct (parity_byte k Hk) as [H1 H2].
  cbn [map flat_map]. split.
  - rewrite <-IH1, <-H1. change (des_set_odd_parity (?a :: ?l)) with (des_set_odd_parity [a] ++ des_set_odd_parity l).
    apply bits_of_app.
  - by apply (Forall_app_2 _ (des_set_odd_parity [u8 (Z.shiftl k 1)])).
Qed.

(** Two neighbouring bytes contribute to a group. *)
Lemma group_bits s0 s1 n :
  is_byte s0 -> is_byte s1 -> (1 <= n <= 6)%nat ->
  let k := Z.lor (Z.shiftl (Z.land s0 (Z.ones (Z.of_nat n))) (7 - Z.of_nat n)) (Z.shiftr s1 (Z.of_nat n + 1)) in
  word 7 k /\ bits7 k = drop (8 - n) (bits_of [s0]) ++ take (7 - n) (bits_of [s1]).
Proof.
  intros H0 H1 Hn k.
  assert (Hbit : forall j, 0 <= j -> Z.testbit k j =
    if decide (j < 7 - Z.of_nat n) then Z.testbit s1 (j + Z.of_nat n + 1)
    else if decide (j < 7) then Z.testbit s0 (j - (7 - Z.of_nat n)) else false).
  { intros j Hj. unfold k. rewrite Z.lor_spec, Z.shiftl_spec, Z.shiftr_spec, Z.land_spec by lia.
    case_decide.
    - rewrite (Z.testbit_neg_r s0) by lia. simpl. f_equal. lia.
    - rewrite (word_testbit_high 8 s1) by (done || lia). rewrite orb_false_r, ones_testbit by lia.
      case_decide; destruct (Z.ltb_spec (j - (7 - Z.of_nat n)) (Z.of_nat n)); try lia;
        by rewrite ?andb_true_r, ?andb_false_r. }
  split.
  - apply word_of_bits; [lia|]. intros i Hi. rewrite Hbit by lia. by rewrite !decide_False by lia.
  - unfold bits7. cbn [map]. rewrite !Hbit by lia.
    assert (n = 1 \/ n = 2 \/ n = 3 \/ n = 4 \/ n = 5 \/ n = 6)%nat as Hc by lia.
    by destruct Hc as [->|[->|[->|[->|[->| ->]]]]].
Qed.

Lemma first_group s : is_byte s -> word 7 (Z.shiftr s 1) /\ bits7 (Z.shiftr s 1) = take 7 (bits_of [s]).
Proof.
  intros Hs. split.
  - apply word_of_bits; [lia|]. intros i Hi. rewrite Z.shiftr_spec by lia. apply (word_testbit_high 8); done || lia.
  - unfold bits7. cbn [map]. by rewrite !Z.shiftr_spec by lia.
Qed.

Lemma last_group s : is_byte s -> word 7 (Z.land s 0x7F) /\ bits7 (Z.land s 0x7F) = drop 1 (bits_of [s]).
Proof.
  intros Hs. change 0x7F with (Z.ones 7). split.
  - rewrite Z.land_ones by lia. by apply wrap_word.
  - unfold bits7. cbn [map]. by rewrite !Z.land_spec, !ones_testbit, !andb_true_r by lia.
Qed.

Lemma str_to_key_bits str :
  (7 <= length str)%nat -> Forall is_byte str ->
  exists key, str_to_key str = Ret key /\ length key = 8%nat /\ Forall is_byte key /\ bits_of key = key_bits (take 7 str).
Proof.
  intros Hl Hb. do 7 (destruct str as [|? str]; [simpl in Hl; lia|]).
  repeat (apply Forall_cons in Hb as [? Hb]). unfold str_to_key. eexists. split; [done|]. split; [done|].
  match goal with |- Forall _ (des_set_odd_parity (map _ ?ks)) /\ _ => set (key := ks) end.
  destruct (first_group z) as [W0 B0]; [done|]. destruct (last_group z5) as [W7 B7]; [done|].
  destruct (group_bits z z0 1) as [W1 B1]; [done..|lia|]. destruct (group_bits z0 z1 2) as [W2 B2]; [done..|lia|].
  destruct (group_bits z1 z2 3) as [W3 B3]; [done..|lia|]. destruct (group_bits z2 z3 4) as [W4 B4]; [done..|lia|].
  destruct (group_bits z3 z4 5) as [W5 B5]; [done..|lia|]. destruct (group_bits z4 z5 6) as [W6 B6]; [done..|lia|].
  destruct (parity_bytes key) as [HB HF].
  { unfold key. repeat (apply Forall_cons_2; [first [exact W0|exact W1|exact W2|exact W3|exact W4|exact W5|exact W6|exact W7]|]).
    constructor. }
  split; [exact HF|]. etrans; [exact HB|].
  assert (Hk : map bits7 key = map (fun i => take 7 (drop (7 * i) (bits_of [z; z0; z1; z2; z3; z4; z5]))) (seq 0 8)).
  { unfold key. cbn [map seq]. repeat (apply f_equal2; [assumption|]). done. }
  unfold key_bits. rewrite !flat_map_concat_map.
  change (map (fun k => bits7 k ++ [negb (parity (bits7 k))]) key) with
    (map (fun k => (fun v => v ++ [negb (parity v)]) (bits7 k)) key).
  rewrite <-(map_map bits7 (fun v => v ++ [negb (parity v)])), Hk, map_map. done.
Qed.

Lemma crypt1_bits enc k d :
  (7 <= length k)%nat -> Forall is_byte k -> length d = 8%nat -> Forall is_byte d ->
  exists out, crypt1 enc k d = Ret out /\ length out = 8%nat /\ Forall is_byte out /\
    bits_of out = Fips.des (key_bits (take 7 k)) (bits_of d) enc.
Proof.
  intros Hk Hkb Hd Hdb. destruct (str_to_key_bits k Hk Hkb) as (key & E & Hl & Hb & <-).
  destruct (ecb_fips key d enc Hl Hb Hd Hdb) as (ks & out & E1' & E2 & Hlo & Hbo & Eo).
  exists out. unfold crypt1. by rewrite E, E1', E2.
Qed.

(** ** The LanMan hash *)

(** "KGS!@#$%" *)
Definition magic : list Z := [0x4b; 0x47; 0x53; 0x21; 0x40; 0x23; 0x24; 0x25].

Lemma magic_constant : D1 (replicate 7 0) sp8 = Ret magic.
Proof. vm_compute. reflexivity. Qed.

(** The hash of the standard: the constant enciphered under each half. *)
Definition lm_bits (p14 : list Z) : list bool :=
  Fips.des (key_bits (take 7 p14)) (bits_of magic) true ++
  Fips.des (key_bits (take 7 (drop 7 p14))) (bits_of magic) true.

Lemma E_P16_bits p14 :
  (14 <= length p14)%nat -> Forall is_byte p14 ->
  exists p16, E_P16 p14 = Ret p16 /\ length p16 = 16%nat /\ Forall is_byte p16 /\ bits_of p16 = lm_bits p14.
Proof.
  intros Hl Hb. unfold E_P16. rewrite magic_constant.
  assert (Hm : Forall is_byte magic) by (by apply words_check).
  destruct (crypt1_bits true p14 magic) as (a & Ea & Hla & Hba & Ba); [lia|done..|].
  destruct (crypt1_bits true (drop 7 p14) magic) as (b & Eb & Hlb & Hbb & Bb);
    [rewrite length_drop; lia|by apply Forall_drop|done..|].
  unfold E1. rewrite Ea, Eb. exists (a ++ b). split_and!; [done|rewrite length_app; lia|by apply Forall_app_2|].
  unfold lm_bits. by rewrite bits_of_app, Ba, Bb.
Qed.

(** The response to a challenge: it is enciphered under three keys. *)
Definition response_bits (p21 c8 : list Z) : list bool :=
  Fips.des (key_bits (take 7 p21)) (bits_of c8) true ++
  Fips.des (key_bits (take 7 (drop 7 p21))) (bits_of c8) true ++
  Fips.des (key_bits (take 7 (drop 14 p21))) (bits_of c8) true.

Lemma E_P24_bits p21 c8 :
  length p21 = 21%nat -> Forall is_byte p21 -> length c8 = 8%nat -> Forall is_byte c8 ->
  exists p24, E_P24 p21 c8 = Ret p24 /\ length p24 = 24%nat /\ Forall is_byte p24 /\ bits_of p24 = response_bits p21 c8.
Proof.
  intros Hl Hb Hc Hcb. unfold E_P24, E1.
  destruct (crypt1_bits true p21 c8) as (a & -> & Hla & Hba & Ba); [lia|done..|].
  destruct (crypt1_bits true (drop 7 p21) c8) as (b & -> & Hlb & Hbb & Bb); [rewrite length_drop; lia|by apply Forall_drop|done..|].
  destruct (crypt1_bits true (drop 14 p21) c8) as (c & -> & Hlc & Hbc & Bc); [rewrite length_drop; lia|by apply Forall_drop|done..|].
  exists (a ++ b ++ c). split_and!; [done|rewrite !length_app; lia|by repeat apply Forall_app_2|].
  unfold response_bits. by rewrite !bits_of_app, Ba, Bb, Bc.
Qed.

(** ** Strings in arrays *)

Abbreviation chars := (Forall (fun c => 0 < c < 256)).

Lemma chars_bytes s : chars s -> Forall is_byte s.
Proof. intros H. eapply Forall_impl; [exact H|]. intros c Hc. simpl in Hc. unfold word. lia. Qed.

Lemma strlen_run s rest : chars s -> strlen (s ++ 0 :: rest) = Ret (Z.of_nat (length s)).
Proof.
  induction 1 as [|c s Hc _ IH]; [done|]. cbn [strlen app]. rewrite (proj2 (Z.eqb_neq c 0)) by lia.
  rewrite IH. f_equal. cbn [length]. lia.
Qed.

Lemma strlen_runs_off s : chars s -> strlen s = Err Fault.
Proof.
  induction 1 as [|c s Hc _ IH]; [done|]. cbn [strlen]. rewrite (proj2 (Z.eqb_neq c 0)) by lia. by rewrite IH.
Qed.

Lemma toupper_char c : 0 < c < 256 -> 0 < toupper_c c < 256.
Proof. intros Hc. unfold toupper_c. repeat case_bool; simpl; lia. Qed.

Lemma strupr_run s rest : chars s -> strupr (s ++ 0 :: rest) = Ret (map toupper_c s ++ 0 :: rest).
Proof.
  induction 1 as [|c s Hc _ IH]; [done|]. cbn [strupr app map]. pose proof (toupper_char c Hc).
  rewrite (proj2 (Z.eqb_neq (toupper_c c) 0)) by lia. by rewrite IH.
Qed.

Lemma strupr_runs_off s : chars s -> strupr s = Err Fault.
Proof.
  induction 1 as [|c s Hc _ IH]; [done|]. cbn [strupr]. pose proof (toupper_char c Hc).
  rewrite (proj2 (Z.eqb_neq (toupper_c c) 0)) by lia. by rewrite IH.
Qed.

(** At most [n] characters, filled up with zeros. *)
Lemma strncpy_chars_run s rest n :
  chars s -> strncpy_chars (s ++ 0 :: rest) n = Ret (take n s ++ replicate (n - length s) 0).
Proof.
  intros Hs. revert n. induction Hs as [|c s Hc _ IH]; intros [|n]; try done.
  cbn [strncpy_chars app]. rewrite (proj2 (Z.eqb_neq c 0)) by lia. by rewrite IH.
Qed.

Lemma length_strncpy (s : list Z) n : length (take n s ++ replicate (n - length s) 0) = n.
Proof. rewrite length_app, length_take, length_replicate. lia. Qed.

(** A block at the start of an array. *)
Lemma inserts_head (k l : list Z) : (length k <= length l)%nat -> list_inserts 0 k l = k ++ drop (length k) l.
Proof.
  intros Hl. pose proof (inserts_middle [] (take (length k) l) k (drop (length k) l)) as H.
  rewrite length_take, Nat.min_l in H by done. specialize (H eq_refl). rewrite !app_nil_l, take_drop in H. exact H.
Qed.

Lemma strncpy_run dst s rest n :
  chars s -> length dst = n ->
  strncpy dst (s ++ 0 :: rest) n = Ret (take n s ++ replicate (n - length s) 0).
Proof.
  intros Hs Hd. unfold strncpy. rewrite (proj2 (Nat.leb_le n (length dst))) by lia.
  rewrite strncpy_chars_run by done. rewrite inserts_head by (rewrite length_strncpy; lia).
  rewrite length_strncpy, drop_ge by lia. by rewrite app_nil_r.
Qed.

(** ** The NT hash *)

Definition utf16 (s : list Z) : list Z := flat_map (fun c => [c; 0]) s.

Lemma length_utf16 s : length (utf16 s) = (2 * length s)%nat.
Proof.
  induction s as [|c s IH]; [done|]. change (utf16 (c :: s)) with (c :: 0 :: utf16 s). cbn [length]. rewrite IH. lia.
Qed.

Lemma utf16_bytes s : chars s -> Forall is_byte (utf16 s).
Proof.
  induction 1 as [|c s Hc _ IH]; [constructor|]. simpl in Hc. simpl. constructor; [unfold word; lia|].
  constructor; [by apply word_0|done].
Qed.

Lemma SSVAL_run w i c :
  is_byte c -> (2 * i + 2 <= length w)%nat -> SSVAL w i c = Ret (list_inserts (2 * i) [c; 0] w).
Proof.
  intros Hc Hl. unfold SSVAL. rewrite (proj2 (Nat.leb_le _ _)) by done.
  replace (Z.land c 0xff) with c by (change 0xff with (Z.ones 8); rewrite Z.land_ones by lia; symmetry; by apply wrap_small).
  replace (Z.shiftr c 8) with 0; [done|]. symmetry. rewrite Z.shiftr_div_pow2 by lia. by apply Z.div_small.
Qed.

Lemma mbstowcs_run n i dst s rest :
  chars s -> (i + n <= length s)%nat -> (2 * (i + n) <= length dst)%nat ->
  _my_mbstowcs n i dst (s ++ rest) = Ret (list_inserts (2 * i) (utf16 (take n (drop i s))) dst).
Proof.
  intros Hs. revert i dst. induction n as [|n IH]; intros i dst Hi Hd; [done|].
  cbn [_my_mbstowcs]. destruct (lookup_lt_is_Some_2 s i ltac:(lia)) as [c Hc].
  unfold at_byte. rewrite (lookup_app_l_Some _ _ _ _ Hc).
  pose proof (Forall_lookup_1 _ _ _ _ Hs Hc) as Hch. simpl in Hch.
  rewrite SSVAL_run by (unfold word; lia). rewrite (proj2 (Z.eqb_neq c 0)) by lia.
  rewrite IH by (rewrite ?length_inserts; lia).
  rewrite (drop_S s c i Hc). cbn [take]. change (utf16 (c :: ?l)) with ([c; 0] ++ utf16 l).
  rewrite list_inserts_app_l. do 2 f_equal. simpl. lia.
Qed.

Lemma wget_run pre lo hi rest : wget (utf16 pre ++ lo :: hi :: rest) (length pre) = Ret (lo + 256 * hi).
Proof.
  unfold wget, at_byte. rewrite list_lookup_middle by (by rewrite length_utf16).
  rewrite cons_middle, app_assoc, list_lookup_middle; [done|].
  rewrite length_app, length_utf16. simpl. lia.
Qed.

Lemma wcslen_run fuel s pre rest :
  chars s -> (length s < fuel)%nat ->
  _my_wcslen fuel (utf16 pre ++ utf16 s ++ 0 :: 0 :: rest) (length pre) = Ret (length s).
Proof.
  intros Hs. revert fuel pre. induction Hs as [|c s Hc _ IH]; intros [|fuel] pre Hf; simpl in Hf; try lia.
  - cbn [_my_wcslen]. change (utf16 [] ++ ?l) with l. by rewrite wget_run.
  - cbn [_my_wcslen]. change (utf16 (c :: s) ++ ?l) with (c :: 0 :: utf16 s ++ l).
    rewrite wget_run. rewrite (proj2 (Z.eqb_neq _ 0)) by lia.
    specialize (IH fuel (pre ++ [c]) ltac:(lia)). rewrite length_app, Nat.add_1_r in IH.
    replace (utf16 (pre ++ [c])) with (utf16 pre ++ [c; 0]) in IH by (unfold utf16; by rewrite flat_map_app).
    rewrite <-app_assoc in IH. cbn [app] in IH. by rewrite IH.
Qed.

(** ** Hashing the array *)

Lemma length_rfc_blocks k w : length (Rfc.blocks k w) = k.
Proof. revert w. induction k; intros; simpl; auto. Qed.

Lemma blocks_snoc k w : Rfc.blocks k w ++ [take 64 (drop (64 * k) w)] = Rfc.blocks (S k) w.
Proof.
  revert w. induction k as [|k IH]; intros w; [done|].
  change (Rfc.blocks (S (S k)) w) with (take 64 w :: Rfc.blocks (S k) (drop 64 w)). rewrite <-(IH (drop 64 w)).
  rewrite drop_drop. replace (64 + 64 * k)%nat with (64 * S k)%nat by lia. done.
Qed.

Lemma hash_blocks_run fuel k w i len :
  Forall is_byte w -> (len < length w)%nat -> (length w < 1000)%nat -> i = (64 * k)%nat -> (i <= len)%nat ->
  (len - i <= 64 * fuel)%nat ->
  exists k', hash_blocks fuel (md_after (Rfc.blocks k w)) w i len =
    Ret (md_after (Rfc.blocks k' w), w, (64 * k')%nat) /\ (64 * k' <= len < 64 * k' + 64)%nat.
Proof.
  intros Hb Hl Hl2. revert k i. induction fuel as [|fuel IH]; intros k i Hi Hle Hf; cbn [hash_blocks].
  all: destruct (Nat.leb_spec (i + 64) len); [|exists k; subst i; split; [done|lia]]; try lia.
  rewrite MDupdate_full.
  - rewrite take_drop.
    rewrite Hi, blocks_snoc. apply IH; lia.
  - by apply Forall_drop.
  - rewrite length_drop. lia.
  - rewrite length_rfc_blocks. lia.
Qed.

Lemma blocks_take k w : (64 * k <= length w)%nat -> concat (Rfc.blocks k w) = take (64 * k) w.
Proof.
  revert w. induction k as [|k IH]; intros w Hl; [done|]. cbn [Rfc.blocks concat].
  rewrite IH by (rewrite length_drop; lia). replace (64 * S k)%nat with (64 + 64 * k)%nat by lia.
  rewrite take_drop_commute. symmetry. rewrite <-(take_drop 64 (take (64 + 64 * k) w)) at 1.
  rewrite take_take. by rewrite Nat.min_l by lia.
Qed.

Lemma blocks_ok k w : (64 * k <= length w)%nat -> Forall is_byte w -> Forall is_block64 (Rfc.blocks k w).
Proof.
  revert w. induction k as [|k IH]; intros w Hl Hb; [constructor|]. cbn [Rfc.blocks]. constructor.
  - split; [rewrite length_take; lia|by apply Forall_take].
  - apply IH; [rewrite length_drop; lia|by apply Forall_drop].
Qed.

Lemma bits_take n l : take (8 * n) (bits_of l) = bits_of (take n l).
Proof.
  revert l. induction n as [|n IH]; intros [|x l]; try done. rewrite bits_of_cons. cbn [take].
  rewrite (bits_of_cons x (take n l)), <-IH. replace (8 * S n)%nat with (8 + 8 * n)%nat by lia. done.
Qed.

Definition words_bytes (r : regs) : list Z := let '(a, b, c, d) := r in le32 a ++ le32 b ++ le32 c ++ le32 d.

(** The digest of the first [len] bytes, the array going on. *)
Lemma hash_array w len :
  Forall is_byte w -> (len < length w)%nat -> (length w < 1000)%nat ->
  (let! (MDp, w, i) := hash_blocks len MDbegin w 0 len in
   let! (MDp, _, _) := MDupdate MDp (drop i w) (Z.of_nat ((len - i) * 8)) in
   Ret (digest MDp)) = Ret (words_bytes (Rfc.md4 (bits_of (take len w)))).
Proof.
  intros Hb Hl Hl2. change MDbegin with (md_after (Rfc.blocks 0 w)).
  destruct (hash_blocks_run len 0 w 0 len) as (k & -> & Hk); [done..|lia|lia|].
  replace ((len - 64 * k) * 8)%nat with (8 * (len - 64 * k) + 0)%nat by lia.
  rewrite MDupdate_partial; [|apply blocks_ok; done || lia|by apply Forall_drop|rewrite length_drop; lia|lia|lia|rewrite length_rfc_blocks; lia].
  unfold digest. cbn [buffer]. f_equal. rewrite blocks_take by lia. rewrite Nat.add_0_r.
  rewrite bits_take, <-bits_of_app.
  replace (take (64 * k) w ++ take (len - 64 * k) (drop (64 * k) w)) with (take len w); [done|].
  rewrite take_take_drop. f_equal. lia.
Qed.

Definition nt_hash (s : list Z) : list Z := words_bytes (Rfc.md4 (bits_of (utf16 (take 128 s)))).

Lemma E_md4hash_run junk s rest :
  chars s -> length junk = 258%nat -> Forall is_byte junk -> E_md4hash junk (s ++ 0 :: rest) = Ret (nt_hash s).
Proof.
  intros Hs Hj Hjb. unfold E_md4hash. rewrite strlen_run by done. rewrite Nat2Z.id.
  set (n := Nat.min (length s) 128). cbv zeta.
  rewrite mbstowcs_run by (done || lia).
  assert (Hln : length (take n s) = n) by (rewrite length_take; lia).
  rewrite SSVAL_run by (done || rewrite length_inserts; lia).
  change (2 * 0)%nat with 0%nat. rewrite drop_0.
  replace (list_inserts (2 * n) [0; 0] (list_inserts 0 (utf16 (take n s)) junk))
    with (list_inserts 0 (utf16 (take n s) ++ [0; 0]) junk).
  2: { rewrite list_inserts_app_l, length_utf16, Hln. do 2 f_equal. lia. }
  rewrite inserts_head by (rewrite length_app, length_utf16; simpl; lia). rewrite <-app_assoc. cbn [app].
  assert (Hc : chars (take n s)) by (by apply Forall_take).
  pose proof (wcslen_run 130 (take n s) [] (drop (length (utf16 (take n s) ++ [0; 0])) junk) Hc ltac:(lia)) as Hw.
  change (utf16 []) with (@nil Z) in Hw. cbn [app length] in Hw. rewrite Hw, Hln. clear Hw.
  set (w := utf16 (take n s) ++ _).
  assert (Hwl : length w = 258%nat).
  { unfold w. rewrite length_app, length_utf16. cbn [length]. rewrite length_drop, length_app, length_utf16. simpl. lia. }
  rewrite hash_array; [| |lia|lia].
  - unfold nt_hash. do 4 f_equal. unfold w.
    replace (n * 2)%nat with (length (utf16 (take n s))) by (rewrite length_utf16; lia).
    rewrite take_app_length. f_equal. unfold n. destruct (Nat.min_spec (length s) 128) as [[? ->]|[? ->]]; [|done].
    by rewrite !take_ge by lia.
  - unfold w. apply Forall_app_2; [by apply utf16_bytes|].
    repeat (constructor; [by apply word_0|]). by apply Forall_drop.
Qed.

(** ** The password file entry *)

(** What the LanMan hash is taken of: fourteen upper-case characters. *)
Definition lm_input (s : list Z) : list Z := map toupper_c (take 14 s ++ replicate (14 - length s) 0).

Lemma upper_zeros k : map toupper_c (replicate k 0) = replicate k 0.
Proof. induction k as [|k IH]; [done|]. cbn [replicate map]. by rewrite IH. Qed.

Lemma lm_input_ok s : chars s -> length (lm_input s) = 14%nat /\ Forall is_byte (lm_input s).
Proof.
  intros Hs. unfold lm_input. rewrite length_map, length_strncpy. split; [done|].
  rewrite map_app. apply Forall_app_2.
  - apply Forall_map. eapply Forall_impl; [apply Forall_take; exact Hs|].
    intros c Hc. pose proof (toupper_char c Hc). unfold word. lia.
  - rewrite upper_zeros. apply Forall_replicate. by apply word_0.
Qed.

Lemma strupr_padded s k rest :
  chars s -> strupr (s ++ replicate k 0 ++ 0 :: rest) = Ret (map toupper_c (s ++ replicate k 0) ++ 0 :: rest).
Proof.
  intros Hs. destruct k as [|k].
  - cbn [replicate app]. rewrite app_nil_r. by apply strupr_run.
  - cbn [replicate app]. rewrite strupr_run by done. rewrite map_app, <-app_assoc. cbn [map].
    rewrite upper_zeros. done.
Qed.

Lemma lm_bits_prefix p14 rest : length p14 = 14%nat -> lm_bits (p14 ++ rest) = lm_bits p14.
Proof.
  intros Hl. unfold lm_bits. rewrite take_app_le by lia. rewrite drop_app_le by lia.
  by rewrite take_app_le by (rewrite length_drop; lia).
Qed.

Lemma E_P16_input s rest :
  chars s -> Forall is_byte rest ->
  exists lm, E_P16 (lm_input s ++ rest) = Ret lm /\ length lm = 16%nat /\ Forall is_byte lm /\
    bits_of lm = lm_bits (lm_input s).
Proof.
  intros Hs Hr. destruct (lm_input_ok s Hs) as [Hl Hb].
  destruct (E_P16_bits (lm_input s ++ rest)) as (lm & E & Hlm & Hbm & Hbits).
  - rewrite length_app. lia.
  - by apply Forall_app_2.
  - exists lm. split_and!; [exact E|exact Hlm|exact Hbm|]. etrans; [exact Hbits|]. exact (lm_bits_prefix _ rest Hl).
Qed.

Lemma hex_loop_run bytes pos out :
  bytes <> [] -> (pos + 2 * length bytes + 1 <= length out)%nat ->
  hex_loop pos out bytes = list_inserts pos (hex bytes ++ [0]) out.
Proof.
  revert pos out. induction bytes as [|x bytes IH]; intros pos out Hne Hl; [done|]. cbn [hex_loop].
  destruct bytes as [|y bytes]; [done|]. cbn [length] in Hl.
  rewrite IH by (done || rewrite length_inserts; cbn [length]; lia).
  apply list_eq. intros j. rewrite !lookup_inserts_dec, length_inserts.
  change (hex (x :: y :: bytes)) with ([hex_digit (x / 16); hex_digit (x mod 16)] ++ hex (y :: bytes)).
  rewrite <-app_assoc, !length_app. cbn [length hex02].
  set (H := hex (y :: bytes) ++ [0]). assert (HH : (0 < length H)%nat) by (unfold H; rewrite length_app; simpl; lia).
  repeat case_decide; try lia; try done.
  - rewrite lookup_app_r by (simpl; lia). f_equal. simpl. lia.
  - destruct (j - pos)%nat as [|[|[|d]]] eqn:E; try lia; done.
Qed.

Lemma length_hex bytes : length (hex bytes) = (2 * length bytes)%nat.
Proof.
  induction bytes as [|x bytes IH]; [done|].
  change (hex (x :: bytes)) with ([hex_digit (x / 16); hex_digit (x mod 16)] ++ hex bytes).
  rewrite length_app, IH. simpl. lia.
Qed.

(** The two loops and the separator. *)
Lemma hex_entry out lm nt :
  length out = 66%nat -> length lm = 16%nat -> length nt = 16%nat ->
  <[65%nat := 0]> (hex_loop 33 (<[32%nat := 58]> (hex_loop 0 out lm)) nt) = hex lm ++ [58] ++ hex nt ++ [0].
Proof.
  intros Ho Hl Hn. pose proof (length_hex lm) as Hhl. pose proof (length_hex nt) as Hhn.
  rewrite (hex_loop_run lm) by (try lia; by destruct lm).
  rewrite inserts_head by (rewrite length_app, Hhl; simpl; lia).
  rewrite length_app, Hhl. simpl length. rewrite <-app_assoc. cbn [app].
  replace (<[32%nat := 58]> (hex lm ++ 0 :: drop (2 * length lm + 1) out)) with ((hex lm ++ [58]) ++ drop 33 out ++ []).
  2: { assert (E : 32%nat = (length (hex lm) + 0)%nat) by lia. rewrite E at 2. rewrite insert_app_r, Hl.
       by rewrite app_nil_r, <-app_assoc. }
  rewrite hex_loop_run by (try (by destruct nt); rewrite !length_app, length_drop; simpl; lia).
  pose proof (inserts_middle (hex lm ++ [58]) (drop 33 out) (hex nt ++ [0]) []
    ltac:(rewrite length_drop, length_app; simpl; lia)) as Hm.
  replace (length (hex lm ++ [58])) with 33%nat in Hm by (rewrite length_app; simpl; lia).
  rewrite Hm, app_nil_r, <-app_assoc.
  apply list_insert_id. rewrite app_comm_cons, app_assoc. apply list_lookup_middle.
  rewrite length_app. cbn [length]. lia.
Qed.

Lemma length_words_bytes r : length (words_bytes r) = 16%nat.
Proof. by destruct r as [[[a b] c] d]. Qed.

Lemma words_bytes_ok r : Forall is_byte (words_bytes r).
Proof. destruct r as [[[a b] c] d]. repeat constructor; by apply wrap_word. Qed.

(** The terminator that [SambaPassGen] puts after the fourteenth character. *)
Lemma cut_at_14 (s : list Z) :
  (length s < 128)%nat ->
  <[14%nat := 0]> (s ++ replicate (128 - length s) 0) =
  take 14 s ++ replicate (14 - length s) 0 ++ 0 :: drop 15 (s ++ replicate (128 - length s) 0).
Proof.
  intros Hl. rewrite app_assoc. apply list_eq. intros i. destruct (decide (i = 14%nat)) as [->|Hi].
  - rewrite list_lookup_insert_eq by (rewrite length_app, length_replicate; lia).
    symmetry. apply list_lookup_middle. by rewrite length_strncpy.
  - rewrite list_lookup_insert_ne by done. destruct (decide (i < 14)%nat).
    + rewrite (lookup_app_l (_ ++ _)) by (rewrite length_strncpy; lia).
      destruct (decide (i < length s)%nat).
      * rewrite !lookup_app_l, lookup_take_lt by (rewrite ?length_take; lia). done.
      * rewrite lookup_app_r, (lookup_app_r (take 14 s)) by (rewrite ?length_take; lia).
        rewrite length_take, Nat.min_r by lia. rewrite !lookup_replicate_2 by lia. done.
    + rewrite (lookup_app_r (_ ++ _)) by (rewrite length_strncpy; lia). rewrite length_strncpy.
      destruct (i - 14)%nat as [|k] eqn:Ek; [lia|]. change ((0 :: ?l) !! S k) with (l !! k). rewrite lookup_drop.
      f_equal. lia.
Qed.

(** C36 (SambaPassGen): for a password of fewer than 128 characters the entry
    is the LanMan hash in hexadecimal, a colon and the NT hash: the first is
    DES of the magic constant under the two halves of the first fourteen
    characters in upper case, the second MD4 of the password in UTF-16; the
    uninitialised bytes of the buffers have no influence. *)
Theorem samba_entry_correct fill wfill out s :
  chars s -> (length s < 128)%nat ->
  length fill = 128%nat -> length wfill = 258%nat -> Forall is_byte wfill -> length out = 66%nat ->
  exists lm, SambaPassGen fill wfill out (s ++ [0]) = Ret (hex lm ++ [58] ++ hex (nt_hash s) ++ [0]) /\
    bits_of lm = lm_bits (lm_input s).
Proof.
  intros Hs Hl Hf Hwl Hwb Ho. unfold SambaPassGen.
  rewrite strncpy_run by (done || by rewrite length_insert). rewrite take_ge by lia.
  assert (E : E_md4hash wfill (s ++ replicate (128 - length s) 0) = Ret (nt_hash s)).
  { replace (128 - length s)%nat with (S (127 - length s)) by lia. by apply E_md4hash_run. }
  rewrite E. clear E. cbv beta iota zeta.
  rewrite cut_at_14, strupr_padded by (done || by apply Forall_take). fold (lm_input s).
  destruct (E_P16_input s (0 :: drop 15 (s ++ replicate (128 - length s) 0))) as (lm & -> & Hlm & _ & Hbits); [done| |].
  { constructor; [by apply word_0|]. apply Forall_drop, Forall_app_2; [by apply chars_bytes|].
    apply Forall_replicate. by apply word_0. }
  exists lm. split; [|exact Hbits]. by rewrite hex_entry by (done || apply length_words_bytes).
Qed.

Definition demo_pass : list Z := [112; 97; 115; 115; 119; 111; 114; 100].

Lemma demo_pass_chars : chars demo_pass.
Proof. repeat constructor. Qed.

Lemma samba_entry_correct_witness :
  exists lm, SambaPassGen (replicate 128 9) (replicate 258 9) (replicate 66 9) (demo_pass ++ [0]) =
      Ret (hex lm ++ [58] ++ hex (nt_hash demo_pass) ++ [0]) /\ bits_of lm = lm_bits (lm_input demo_pass).
Proof.
  apply (samba_entry_correct (replicate 128 9) (replicate 258 9) (replicate 66 9) demo_pass).
  - apply demo_pass_chars.
  - simpl. lia.
  - reflexivity.
  - reflexivity.
  - by apply words_check.
  - reflexivity.
Defined.

(** With a password of 128 characters or more the copy
    fills its buffer without a terminator, and the length computation runs
    off the end of the buffer. *)
Lemma samba_long_password fill wfill out s :
  chars s -> (128 <= length s)%nat -> length fill = 128%nat ->
  SambaPassGen fill wfill out (s ++ [0]) = Err Fault.
Proof.
  intros Hs Hl Hf. unfold SambaPassGen. rewrite strncpy_run by (done || by rewrite length_insert).
  replace (128 - length s)%nat with 0%nat by lia. cbn [replicate]. rewrite app_nil_r.
  unfold E_md4hash. by rewrite strlen_runs_off by (by apply Forall_take).
Qed.

Lemma p21_of p16 : length p16 = 16%nat -> list_inserts 0 p16 (replicate 21 0) = p16 ++ replicate 5 0.
Proof. intros Hl. rewrite inserts_head by (rewrite Hl, length_replicate; lia). by rewrite Hl. Qed.

Lemma response_run p16 c8 :
  length p16 = 16%nat -> Forall is_byte p16 -> length c8 = 8%nat -> Forall is_byte c8 ->
  exists p24, E_P24 (list_inserts 0 p16 (replicate 21 0)) c8 = Ret p24 /\
    bits_of p24 = response_bits (p16 ++ replicate 5 0) c8.
Proof.
  intros Hl Hb Hc Hcb. rewrite p21_of by done.
  destruct (E_P24_bits (p16 ++ replicate 5 0) c8) as (p24 & E & _ & _ & B).
  - rewrite length_app, Hl. done.
  - apply Forall_app_2; [done|]. apply Forall_replicate. by apply word_0.
  - done.
  - done.
  - by exists p24.
Qed.

(** (SMBencrypt, SMBNTencrypt): the response to an eight-byte challenge is
    the challenge enciphered under the three keys made of the password's
    hash and five zero bytes, with the LanMan hash (for a password of fewer
    than fourteen characters) and with the NT hash. *)
Theorem challenge_responses junk wjunk s c8 :
  chars s -> (length s < 14)%nat -> is_byte junk ->
  length wjunk = 258%nat -> Forall is_byte wjunk -> length c8 = 8%nat -> Forall is_byte c8 ->
  (exists lm p24, SMBencrypt junk (s ++ [0]) c8 = Ret p24 /\ bits_of lm = lm_bits (lm_input s) /\
     bits_of p24 = response_bits (lm ++ replicate 5 0) c8) /\
  (exists p24, SMBNTencrypt wjunk (s ++ [0]) c8 = Ret p24 /\
     bits_of p24 = response_bits (nt_hash s ++ replicate 5 0) c8).
Proof.
  intros Hs Hl Hj Hwl Hwb Hc Hcb. split.
  - unfold SMBencrypt, strncpy. rewrite (proj2 (Nat.leb_le 14 _)) by (simpl; lia).
    rewrite strncpy_chars_run by done. cbv beta iota.
    rewrite inserts_head by (rewrite length_strncpy; simpl; lia). rewrite length_strncpy, <-app_assoc.
    change (drop 14 (replicate 14 0 ++ [junk])) with [junk].
    replace (14 - length s)%nat with (S (13 - length s)) by lia. cbn [replicate].
    assert (E : strupr (take 14 s ++ (0 :: replicate (13 - length s) 0) ++ [junk]) = Ret (lm_input s ++ [junk])).
    { rewrite <-app_comm_cons, strupr_run by (by apply Forall_take).
      unfold lm_input. replace (14 - length s)%nat with (S (13 - length s)) by lia.
      rewrite map_app, <-app_assoc. cbn [replicate map]. by rewrite upper_zeros. }
    rewrite E. cbv beta iota.
    destruct (E_P16_input s [junk] Hs) as (lm & -> & Hlm & Hbm & Hbits); [by apply Forall_singleton|].
    destruct (response_run lm c8 Hlm Hbm Hc Hcb) as (p24 & E24 & B24). exists lm, p24.
    split_and!; [exact E24|exact Hbits|exact B24].
  - unfold SMBNTencrypt. rewrite E_md4hash_run by done.
    destruct (response_run (nt_hash s) c8) as (p24 & E24 & B24);
      [apply length_words_bytes|apply words_bytes_ok|done..|]. exists p24. split; [exact E24|exact B24].
Qed.

Lemma challenge_responses_witness :
  (exists lm p24, SMBencrypt 7 (demo_pass ++ [0]) (replicate 8 1) = Ret p24 /\ bits_of lm = lm_bits (lm_input demo_pass) /\
     bits_of p24 = response_bits (lm ++ replicate 5 0) (replicate 8 1)) /\
  (exists p24, SMBNTencrypt (replicate 258 9) (demo_pass ++ [0]) (replicate 8 1) = Ret p24 /\
     bits_of p24 = response_bits (nt_hash demo_pass ++ replicate 5 0) (replicate 8 1)).
Proof.
  apply (challenge_responses 7 (replicate 258 9) demo_pass (replicate 8 1)).
  - apply demo_pass_chars.
  - simpl. lia.
  - split; simpl; lia.
  - reflexivity.
  - by apply words_check.
  - reflexivity.
  - by apply words_check.
Defined.

(** With fourteen characters or more nothing terminates the
    upper-case conversion inside its fifteen-byte buffer, unless the byte
    that was never initialised happens to be 0. *)
Lemma SMBencrypt_runs_off junk s c8 :
  chars s -> (14 <= length s)%nat -> 0 < junk < 256 -> SMBencrypt junk (s ++ [0]) c8 = Err Fault.
Proof.
  intros Hs Hl Hj. unfold SMBencrypt, strncpy. rewrite (proj2 (Nat.leb_le 14 _)) by (simpl; lia).
  rewrite strncpy_chars_run by done. cbv beta iota.
  rewrite inserts_head by (rewrite length_strncpy; simpl; lia). rewrite length_strncpy.
  change (drop 14 (replicate 14 0 ++ [junk])) with [junk].
  replace (14 - length s)%nat with 0%nat by lia. cbn [replicate]. rewrite app_nil_r.
  by rewrite strupr_runs_off by (apply Forall_app_2; [by apply Forall_take|by constructor]).
Qed.

(** (SambaPassGen, SMBencrypt): two passwords run off their buffers.  One
    of 128 characters or more leaves [new_passwd] without a terminator and
    the NT hash reads beyond it; one of fourteen or more leaves [p14] without
    one, unless a byte that was never initialised happens to be 0, and the
    upper-case conversion goes on beyond it. *)
Theorem smb_overruns fill wfill out junk c8 s :
  chars s -> length fill = 128%nat -> 0 < junk < 256 ->
  ((128 <= length s)%nat -> SambaPassGen fill wfill out (s ++ [0]) = Err Fault) /\
  ((14 <= length s)%nat -> SMBencrypt junk (s ++ [0]) c8 = Err Fault).
Proof. intros Hs Hf Hj. split; intros Hl; [by apply samba_long_password|by apply SMBencrypt_runs_off]. Qed.

Lemma smb_overruns_witness :
  SambaPassGen (replicate 128 9) [] [] (replicate 128 65 ++ [0]) = Err Fault /\
  SMBencrypt 1 (replicate 128 65 ++ [0]) (replicate 8 1) = Err Fault.
Proof.
  destruct (smb_overruns (replicate 128 9) [] [] 1 (replicate 8 1) (replicate 128 65)) as [H1 H2].
  - by apply Forall_replicate.
  - reflexivity.
  - lia.
  - split; [apply H1|apply H2]; rewrite length_replicate; lia.
Defined.
