(* ===== verification/RbSpec.v ===== *)
(** * Red-black trees as trees

    The tree algorithms behind lib/rbtree.c, on inductive trees with a focus:
    a path of frames from the focus up to the root.  [ins_fix] and [del_fix]
    are the recolouring loops of [rb_insert_color] and [__rb_erase_color];
    [Rbtree] proves that the pointer code computes them.  Here they are shown
    to keep the order of the nodes and to establish the red-black invariant. *)

From S2P Require Import Prelude.

(** A node is known by its address. *)
Abbreviation ptr := nat (only parsing).

Inductive color := RB_RED | RB_BLACK.
#[export] Instance color_eq_dec : EqDecision color.
Proof. solve_decision. Defined.

Inductive tree :=
| E
| T (c : color) (x : ptr) (l r : tree).

Fixpoint elems (t : tree) : list ptr :=
  match t with E => [] | T _ x l r => elems l ++ x :: elems r end.

Definition blackish (t : tree) : bool := match t with T RB_RED _ _ _ => false | _ => true end.
Definition blacken (t : tree) : tree := match t with E => E | T _ x l r => T RB_BLACK x l r end.
Definition redden (t : tree) : tree := match t with E => E | T _ x l r => T RB_RED x l r end.

(** ** Paths *)

(** The focus is the left ([FL]) or right ([FR]) child of [x]; the other
    child is [t]. *)
Inductive frame :=
| FL (c : color) (x : ptr) (t : tree)
| FR (c : color) (x : ptr) (t : tree).
Abbreviation path := (list frame) (only parsing).

Definition fill_frame (f : frame) (t : tree) : tree :=
  match f with FL c x r => T c x t r | FR c x l => T c x l t end.
Fixpoint plug (C : path) (t : tree) : tree :=
  match C with [] => t | f :: C => plug C (fill_frame f t) end.

Fixpoint before (C : path) : list ptr :=
  match C with
  | [] => []
  | FL _ _ _ :: C => before C
  | FR _ x l :: C => before C ++ elems l ++ [x]
  end.
Fixpoint after (C : path) : list ptr :=
  match C with
  | [] => []
  | FL _ x r :: C => x :: elems r ++ after C
  | FR _ _ _ :: C => after C
  end.

Lemma elems_plug C t : elems (plug C t) = before C ++ elems t ++ after C.
Proof.
  revert t. induction C as [|[c x r|c x l] C IH]; intros t; cbn [plug before after].
  - by rewrite app_nil_r.
  - rewrite IH. cbn [fill_frame elems]. by rewrite <-app_assoc.
  - rewrite IH. cbn [fill_frame elems]. by rewrite <-!app_assoc.
Qed.

Lemma plug_app C D t : plug (D ++ C) t = plug C (plug D t).
Proof. revert t. induction D as [|f D IH]; intros t; simpl; auto. Qed.

Lemma before_app C D : before (D ++ C) = before C ++ before D.
Proof.
  induction D as [|[c x r|c x l] D IH]; cbn [app before]; rewrite ?app_nil_r, ?IH; [done..|]. by rewrite <-app_assoc.
Qed.

Lemma after_app C D : after (D ++ C) = after D ++ after C.
Proof.
  induction D as [|[c x r|c x l] D IH]; cbn [app after]; rewrite ?IH; [done| |done]. by rewrite <-app_assoc.
Qed.

Lemma elems_blacken t : elems (blacken t) = elems t.
Proof. by destruct t. Qed.
Lemma elems_redden t : elems (redden t) = elems t.
Proof. by destruct t. Qed.

(** Both sides as one right-nested list of nodes and subtrees. *)
Ltac in_order :=
  cbn [elems before after fill_frame]; rewrite ?elems_blacken, ?elems_redden;
  repeat (rewrite <-app_assoc; cbn [app]); cbn [app].

(** ** The loops on trees *)

(** [rb_insert_color]: the focus [t] has just become red. *)
Fixpoint ins_fix (C : path) (t : tree) : tree :=
  match C with
  | FL RB_RED p b :: FL _ g u :: C' =>
      if blackish u then plug C' (T RB_BLACK p t (T RB_RED g b u))
      else ins_fix C' (T RB_RED g (T RB_BLACK p t b) (blacken u))
  | FR RB_RED p a :: FL _ g u :: C' =>
      if blackish u then
        match t with
        | T _ x b c => plug C' (T RB_BLACK x (T RB_RED p a b) (T RB_RED g c u))
        | E => E
        end
      else ins_fix C' (T RB_RED g (T RB_BLACK p a t) (blacken u))
  | FR RB_RED p a :: FR _ g u :: C' =>
      if blackish u then plug C' (T RB_BLACK p (T RB_RED g u a) t)
      else ins_fix C' (T RB_RED g (blacken u) (T RB_BLACK p a t))
  | FL RB_RED p b :: FR _ g u :: C' =>
      if blackish u then
        match t with
        | T _ x a c => plug C' (T RB_BLACK x (T RB_RED g u a) (T RB_RED p c b))
        | E => E
        end
      else ins_fix C' (T RB_RED g (blacken u) (T RB_BLACK p t b))
  | _ => plug C t
  end.

Definition insert_color (C : path) (t : tree) : tree := blacken (ins_fix C t).

(** The end of [__rb_erase_color] for a black sibling [other] of the focus
    [t], under a parent of colour [c]; [up] goes on with the parent. *)
Definition del_left (up : tree -> option tree) (C : path) (c : color) (x : ptr) (t other : tree) : option tree :=
  match other with
  | E => None
  | T _ y b d =>
      if blackish b && blackish d then up (T c x t (T RB_RED y b d))
      else if blackish d then
        match b with
        | E => None
        | T _ z b1 b2 => Some (blacken (plug C (T c z (T RB_BLACK x t b1) (T RB_BLACK y b2 d))))
        end
      else Some (blacken (plug C (T c y (T RB_BLACK x t b) (blacken d))))
  end.
Definition del_right (up : tree -> option tree) (C : path) (c : color) (x : ptr) (t other : tree) : option tree :=
  match other with
  | E => None
  | T _ y d b =>
      if blackish d && blackish b then up (T c x (T RB_RED y d b) t)
      else if blackish d then
        match b with
        | E => None
        | T _ z b2 b1 => Some (blacken (plug C (T c z (T RB_BLACK y d b2) (T RB_BLACK x b1 t))))
        end
      else Some (blacken (plug C (T c y (blacken d) (T RB_BLACK x b t))))
  end.

(** [__rb_erase_color]: below the focus [t] one black node is missing. *)
Fixpoint del_fix (C : path) (t : tree) : option tree :=
  match C with
  | [] => Some (blacken t)
  | f :: C' =>
      if negb (blackish t) then Some (plug C (blacken t))
      else match f with
           | FL _ x (T RB_RED y b d) =>
               let C2 := FL RB_BLACK y d :: C' in
               del_left (fun t => Some (plug C2 (blacken t))) C2 RB_RED x t b
           | FL c x r => del_left (del_fix C') C' c x t r
           | FR _ x (T RB_RED y d b) =>
               let C2 := FR RB_BLACK y d :: C' in
               del_right (fun t => Some (plug C2 (blacken t))) C2 RB_RED x t b
           | FR c x l => del_right (del_fix C') C' c x t l
           end
  end.

(** The node that follows the root of [t]'s left spine: the first of [t]. *)
Fixpoint leftmost (D : path) (c : color) (x : ptr) (l r : tree) : path * color * ptr * tree :=
  match l with
  | E => (D, c, x, r)
  | T c' x' l' r' => leftmost (FL c x r :: D) c' x' l' r'
  end.

(** [rb_erase] of the root [x] of the focus. *)
Definition erase (C : path) (c : color) (x : ptr) (l r : tree) : option tree :=
  match l, r with
  | E, _ => if decide (c = RB_BLACK) then del_fix C r else Some (plug C r)
  | _, E => if decide (c = RB_BLACK) then del_fix C l else Some (plug C l)
  | _, T cr xr lr rr =>
      let '(D, cy, y, t) := leftmost [] cr xr lr rr in
      let C := D ++ FR c y l :: C in
      if decide (cy = RB_BLACK) then del_fix C t else Some (plug C t)
  end.

(** ** The red-black invariant

    [rb c n t]: below a parent of colour [c], [t] has no red node with a red
    parent and [n] black nodes on every way down. *)
Inductive rb : color -> nat -> tree -> Prop :=
| rb_E c : rb c 0 E
| rb_red n x l r : rb RB_RED n l -> rb RB_RED n r -> rb RB_BLACK n (T RB_RED x l r)
| rb_black c n x l r : rb RB_BLACK n l -> rb RB_BLACK n r -> rb c (S n) (T RB_BLACK x l r).

(** [ctx c n C]: a tree with [rb c n] at the focus makes the whole a
    red-black tree with a black root. *)
Inductive ctx : color -> nat -> path -> Prop :=
| ctx_root n : ctx RB_RED n []
| ctx_FL_red n x r C : rb RB_RED n r -> ctx RB_BLACK n C -> ctx RB_RED n (FL RB_RED x r :: C)
| ctx_FR_red n x l C : rb RB_RED n l -> ctx RB_BLACK n C -> ctx RB_RED n (FR RB_RED x l :: C)
| ctx_FL_black c n x r C : rb RB_BLACK n r -> ctx c (S n) C -> ctx RB_BLACK n (FL RB_BLACK x r :: C)
| ctx_FR_black c n x l C : rb RB_BLACK n l -> ctx c (S n) C -> ctx RB_BLACK n (FR RB_BLACK x l :: C).

(** A red-black tree: black root, or empty. *)
Definition red_black (t : tree) : Prop := exists n, rb RB_RED n t.

Create HintDb rbtree discriminated.
#[export] Hint Constructors rb ctx : rbtree.

Lemma rb_weaken c n t : rb RB_RED n t -> rb c n t.
Proof. inversion 1; subst; eauto with rbtree. Qed.
#[export] Hint Resolve rb_weaken : rbtree.

Lemma rb_any_black c n t : rb c n t -> rb RB_BLACK n t.
Proof. inversion 1; subst; eauto with rbtree. Qed.

Lemma plug_red_black C : forall c n t, ctx c n C -> rb c n t -> red_black (plug C t).
Proof.
  induction C as [|f C IH]; intros c n t HC Ht; inversion HC; subst; cbn [plug fill_frame].
  - by exists n.
  - eapply IH; [done|]. eauto with rbtree.
  - eapply IH; [done|]. eauto with rbtree.
  - eapply IH; [done|]. eauto with rbtree.
  - eapply IH; [done|]. eauto with rbtree.
Qed.

(** Every place of a red-black tree has a context. *)
Lemma plug_inv C t : red_black (plug C t) -> exists c n, ctx c n C /\ rb c n t.
Proof.
  revert t. induction C as [|f C IH]; intros t Ht.
  - destruct Ht as [n Hn]. exists RB_RED, n. split; [constructor|done].
  - destruct (IH _ Ht) as (c & n & HC & Hf).
    destruct f as [cf x r|cf x l]; cbn [fill_frame] in Hf; inversion Hf; subst; do 2 eexists; (split; [|done]);
      econstructor; done.
Qed.

Lemma rb_blacken_red n x l r : rb RB_RED n l -> rb RB_RED n r -> rb RB_RED (S n) (T RB_BLACK x l r).
Proof. intros. apply rb_black; by apply rb_weaken. Qed.

(** The red sibling of a node that may be red, made black. *)
Lemma rb_not_blackish n t : rb RB_BLACK n t -> blackish t = false -> rb RB_RED (S n) (blacken t).
Proof. inversion 1; subst; simpl; try done. intros _. by apply rb_blacken_red. Qed.

Lemma rb_blackish c n t : rb c n t -> blackish t = true -> rb RB_RED n t.
Proof. inversion 1; subst; simpl; try done; eauto with rbtree. Qed.

Lemma red_black_blacken n t : rb RB_BLACK n t -> red_black (blacken t).
Proof.
  inversion 1; subst; simpl; [exists 0%nat|exists (S n)|exists (S n0)]; eauto using rb_blacken_red with rbtree.
Qed.

Lemma blacken_id t : red_black t -> blacken t = t.
Proof. intros [n Hn]. by inversion Hn. Qed.

(** ** Insertion *)

Lemma ins_fix_elems C c x a b :
  elems (ins_fix C (T c x a b)) = before C ++ (elems a ++ x :: elems b) ++ after C.
Proof.
  remember (length C) as k eqn:Hk. revert C c x a b Hk.
  induction (lt_wf k) as [k _ IH]. intros C c x a b ->.
  destruct C as [|f1 [|f2 C]].
  - apply (elems_plug []).
  - destruct f1 as [[] ? ?|[] ? ?]; apply (elems_plug [_]).
  - destruct f1 as [[] p t1|[] p t1], f2 as [cg g u|cg g u]; cbn [ins_fix];
      try apply (elems_plug (_ :: _ :: C)).
    all: destruct (blackish u); [rewrite elems_plug|rewrite (IH (length C)) by (simpl; lia || done)].
    all: by in_order.
Qed.

Lemma ins_fix_ok C c n x a b :
  ctx c n C -> rb RB_RED n a -> rb RB_RED n b -> exists m, rb RB_BLACK m (ins_fix C (T RB_RED x a b)).
Proof.
  remember (length C) as k eqn:Hk. revert C c n x a b Hk.
  induction (lt_wf k) as [k _ IH]. intros C c n x a b -> HC Ha Hb.
  assert (Hplug : forall C' c' n' t, ctx c' n' C' -> rb c' n' t -> exists m, rb RB_BLACK m (plug C' t)).
  { intros C' c' n' t HC' Ht. destruct (plug_red_black C' c' n' t HC' Ht) as [m Hm]. exists m. eauto with rbtree. }
  assert (Hred : rb RB_BLACK n (T RB_RED x a b)) by eauto with rbtree.
  assert (IH' := fun C' c' n' x' a' b' Hl => IH (length C') Hl C' c' n' x' a' b' eq_refl). clear IH.
  inversion HC; subst; cbn [ins_fix plug]; [by exists n| | | |].
  3,4: exact (Hplug (_ :: _) RB_BLACK n _ HC Hred).
  all: match goal with H : ctx RB_BLACK _ _ |- _ => inversion H; subst end; cbn [ins_fix].
  all: destruct (blackish _) eqn:Eu.
  all: try (eapply Hplug; [done|]).
  all: try (eapply IH'; [simpl; lia|done|..]).
  all: eauto using rb_blackish, rb_not_blackish, rb_blacken_red with rbtree.
Qed.

(** Inserting a red node without children keeps the tree red-black and puts
    the node at the place of the leaf. *)
Lemma insert_color_ok C x :
  red_black (plug C E) ->
  red_black (insert_color C (T RB_RED x E E)) /\
  elems (insert_color C (T RB_RED x E E)) = before C ++ x :: after C.
Proof.
  intros Ht. destruct (plug_inv C E Ht) as (c & n & HC & HE). inversion HE; subst.
  unfold insert_color. split.
  - destruct (ins_fix_ok C c 0 x E E HC) as [m Hm]; [constructor..|]. by eapply red_black_blacken.
  - rewrite elems_blacken, ins_fix_elems. done.
Qed.

(** ** Deletion *)

(** What the end of the loop has to establish, [C] and [t] being the focus. *)
Definition restored (C : path) (ts : list ptr) (r : option tree) : Prop :=
  exists t', r = Some t' /\ red_black t' /\ elems t' = before C ++ ts ++ after C.

Lemma restored_plug C c n t r ts :
  ctx c n C -> rb c n t -> elems t = ts -> r = Some (plug C t) -> restored C ts r.
Proof.
  intros HC Ht <- ->. exists (plug C t). split; [done|]. split; [by eapply plug_red_black|apply elems_plug].
Qed.

Lemma restored_blacken C c n t r ts :
  ctx c n C -> rb c n t -> elems t = ts -> r = Some (blacken (plug C t)) -> restored C ts r.
Proof.
  intros HC Ht Hts ->. rewrite blacken_id by (by eapply plug_red_black). by eapply restored_plug.
Qed.

(** The place of a parent of colour [c] whose children have black height [S n]. *)
Definition parent_ctx (c : color) (n : nat) (C : path) : Prop :=
  match c with RB_RED => ctx RB_BLACK (S n) C | RB_BLACK => exists c0, ctx c0 (S (S n)) C end.

Lemma parent_black c n C x l r r' ts :
  parent_ctx c n C -> rb RB_RED (S n) l -> rb RB_RED (S n) r -> elems (T c x l r) = ts ->
  r' = Some (blacken (plug C (T c x l r))) -> restored C ts r'.
Proof.
  destruct c; [intros HC|intros (c0 & HC)]; intros Hl Hr Hts ->.
  - apply (restored_blacken C RB_BLACK (S n) (T RB_RED x l r)); auto with rbtree.
  - apply (restored_blacken C c0 (S (S n)) (T RB_BLACK x l r)); auto with rbtree.
Qed.

(** What the rest of the loop does with a parent whose subtree has become one
    black node shorter. *)
Definition goes_up (up : tree -> option tree) (C : path) (c : color) (n : nat) : Prop :=
  match c with
  | RB_RED => forall x l r, up (T RB_RED x l r) = Some (plug C (T RB_BLACK x l r))
  | RB_BLACK => forall t, rb RB_RED (S n) t -> restored C (elems t) (up t)
  end.

Lemma goes_up_ok up C c n x l r :
  parent_ctx c n C -> goes_up up C c n -> rb RB_BLACK n l -> rb RB_BLACK n r ->
  restored C (elems l ++ x :: elems r) (up (T c x l r)).
Proof.
  destruct c; [intros HC Hup|intros (c0 & HC) Hup]; intros Hl Hr.
  - apply (restored_plug C RB_BLACK (S n) (T RB_BLACK x l r)); [done|by apply rb_black|done|apply Hup].
  - apply (Hup (T RB_BLACK x l r)). by apply rb_black.
Qed.

(** One round with a black sibling. *)
Lemma del_left_ok up C c n x t co y b d :
  parent_ctx c n C -> goes_up up C c n -> rb RB_RED n t -> rb RB_BLACK n b -> rb RB_BLACK n d ->
  restored C (elems t ++ x :: elems b ++ y :: elems d) (del_left up C c x t (T co y b d)).
Proof.
  intros HC Hup Ht Hb Hd. unfold del_left. destruct (blackish d) eqn:Ed.
  - destruct (blackish b) eqn:Eb; cbn [andb].
    + apply (goes_up_ok up C c n x t (T RB_RED y b d)); eauto using rb_blackish with rbtree.
    + destruct b as [|[] z b1 b2]; [done| |done]. inversion Hb; subst.
      eapply parent_black; [done| | | |done]; eauto using rb_blacken_red, rb_blackish with rbtree.
      by in_order.
  - rewrite andb_false_r. eapply parent_black; [done| | | |done].
    + apply rb_black; eauto with rbtree.
    + by apply rb_not_blackish.
    + by in_order.
Qed.

Lemma del_right_ok up C c n x t co y b d :
  parent_ctx c n C -> goes_up up C c n -> rb RB_RED n t -> rb RB_BLACK n b -> rb RB_BLACK n d ->
  restored C (elems d ++ y :: elems b ++ x :: elems t) (del_right up C c x t (T co y d b)).
Proof.
  intros HC Hup Ht Hb Hd. unfold del_right. destruct (blackish d) eqn:Ed.
  - destruct (blackish b) eqn:Eb; cbn [andb].
    + replace (elems d ++ y :: elems b ++ x :: elems t) with (elems (T RB_RED y d b) ++ x :: elems t) by (by in_order).
      apply (goes_up_ok up C c n x (T RB_RED y d b) t); eauto using rb_blackish with rbtree.
    + destruct b as [|[] z b2 b1]; [done| |done]. inversion Hb; subst.
      eapply parent_black; [done| | | |done]; eauto using rb_blacken_red, rb_blackish with rbtree.
      by in_order.
  - cbn [andb]. eapply parent_black; [done| | | |done].
    + by apply rb_not_blackish.
    + apply rb_black; eauto with rbtree.
    + by in_order.
Qed.

Lemma restored_app C C' ts ts' r :
  restored C ts r -> before C ++ ts ++ after C = before C' ++ ts' ++ after C' -> restored C' ts' r.
Proof. intros (t' & ? & ? & He) E. exists t'. by rewrite He. Qed.

(** A focus one black node short is made up for. *)
Lemma del_fix_ok C c n t : ctx c (S n) C -> rb RB_BLACK n t -> restored C (elems t) (del_fix C t).
Proof.
  revert c n t. induction C as [|f C IH]; intros c n t HC Ht.
  - exists (blacken t). cbn. rewrite app_nil_r, elems_blacken. split; [done|]. split; [|done].
    by eapply red_black_blacken.
  - cbn [del_fix]. destruct (blackish t) eqn:Et; cbn [negb].
    2: { eapply restored_plug; [done| | |done]; [|apply elems_blacken]. apply rb_weaken. by apply rb_not_blackish. }
    apply rb_blackish in Ht; [|done]. clear Et.
    assert (Hup : forall c0, parent_ctx c0 n C -> goes_up (del_fix C) C c0 n).
    { intros [] H; simpl in *.
      - intros x l r. destruct C as [|f' C']; [inversion H|done].
      - intros t' Ht'. destruct H as [c0 H]. by apply (IH c0 (S n)), rb_weaken. }
    destruct f as [cf x s|cf x s].
    + assert (HC' : rb cf (S n) s /\ parent_ctx cf n C) by (inversion HC; subst; simpl; eauto).
      destruct HC' as [Hs HC'].
      inversion Hs as [|? y b d Hb Hd|? ? y b d Hb Hd]; subst.
      * inversion Hb; subst. eapply restored_app; [eapply (del_left_ok _ (FL _ _ _ :: C) RB_RED n)|by in_order]; try done.
        destruct HC' as [c0 ?]. eapply ctx_FL_black; [by apply rb_weaken|done].
      * eapply restored_app; [eapply (del_left_ok _ C cf n)|by in_order]; eauto.
    + assert (HC' : rb cf (S n) s /\ parent_ctx cf n C) by (inversion HC; subst; simpl; eauto).
      destruct HC' as [Hs HC'].
      inversion Hs as [|? y d b Hd Hb|? ? y d b Hd Hb]; subst.
      * inversion Hb; subst. eapply restored_app; [eapply (del_right_ok _ (FR _ _ _ :: C) RB_RED n)|by in_order]; try done.
        destruct HC' as [c0 ?]. eapply ctx_FR_black; [by apply rb_weaken|done].
      * eapply restored_app; [eapply (del_right_ok _ C cf n)|by in_order]; eauto.
Qed.

(** The first node of a tree and what is left of it. *)
Lemma leftmost_plug D c x l r :
  let '(D', cy, y, t) := leftmost D c x l r in plug D' (T cy y E t) = plug D (T c x l r).
Proof.
  revert D c x r. induction l as [|c' x' l' IH r' _]; intros D c x r; [done|].
  exact (IH (FL c x r :: D) c' x' r').
Qed.

Lemma leftmost_before D c x l r :
  let '(D', cy, y, t) := leftmost D c x l r in before D' = before D.
Proof.
  revert D c x r. induction l as [|c' x' l' IH r' _]; intros D c x r; [done|].
  exact (IH (FL c x r :: D) c' x' r').
Qed.

(** A node with at most one child, replaced by the child. *)
Lemma unlink_ok C c0 n c x t :
  ctx c0 n C -> rb c0 n (T c x E t) \/ rb c0 n (T c x t E) ->
  restored C (elems t) (if decide (c = RB_BLACK) then del_fix C t else Some (plug C t)).
Proof.
  intros HC Ht.
  assert (H0 : exists m, n = match c with RB_RED => m | RB_BLACK => S m end /\ rb c m t /\ m = 0%nat).
  { destruct Ht as [Ht|Ht]; inversion Ht; subst; eexists; (split; [done|]);
      (split; [done|]); match goal with H : rb _ _ E |- _ => by inversion H end. }
  destruct H0 as (m & -> & H & ->). destruct c; simpl decide.
  - by eapply restored_plug; [done|by apply rb_weaken| |].
  - by eapply del_fix_ok.
Qed.

(** The invariant does not depend on which nodes the frames carry. *)
Lemma ctx_rename C2 x y k l D c n : ctx c n (D ++ FR k x l :: C2) -> ctx c n (D ++ FR k y l :: C2).
Proof.
  revert c n. induction D as [|f D IH]; intros c n; cbn [app]; inversion 1; subst; eauto with rbtree.
Qed.

(** [rb_erase] removes the node and nothing else, keeps the order of the
    others and the red-black invariant; no dereference of a missing sibling
    or nephew happens. *)
Lemma erase_ok C c x l r :
  red_black (plug C (T c x l r)) -> restored C (elems l ++ elems r) (erase C c x l r).
Proof.
  intros Ht. unfold erase.
  destruct l as [|cl xl ll rl]; [|destruct r as [|cr xr lr rr]].
  - destruct (plug_inv C _ Ht) as (c0 & n & HC & Hx). eapply unlink_ok; eauto.
  - rewrite app_nil_r. destruct (plug_inv C _ Ht) as (c0 & n & HC & Hx). eapply unlink_ok; eauto.
  - set (l := T cl xl ll rl) in *. set (r := T cr xr lr rr) in *.
    pose proof (leftmost_plug [] cr xr lr rr) as Hp. pose proof (leftmost_before [] cr xr lr rr) as Hb.
    destruct (leftmost [] cr xr lr rr) as [[[D cy] y] t]. fold r in Hp. cbn [plug] in Hp.
    assert (Ht' : red_black (plug (D ++ FR c x l :: C) (T cy y E t))).
    { rewrite plug_app, Hp. exact Ht. }
    destruct (plug_inv _ _ Ht') as (c0 & n & HC & Hy). apply (ctx_rename C x y) in HC.
    eapply restored_app; [eapply unlink_ok; eauto|].
    pose proof (f_equal elems Hp) as He. rewrite elems_plug, Hb in He. cbn [before elems app] in He.
    rewrite <-He, before_app, after_app, Hb. by in_order.
Qed.

(** ** Places of a tree *)

(** Where a node is in the order tells where it is in the tree. *)
Lemma focus t xs x ys :
  elems t = xs ++ x :: ys -> exists C c l r, t = plug C (T c x l r) /\ before C ++ elems l = xs /\ elems r ++ after C = ys.
Proof.
  revert xs ys. induction t as [|c y l IHl r IHr]; intros xs ys He; cbn [elems] in *; [by destruct xs|].
  apply app_eq_inv in He as [(k & H1 & H2)|(k & H1 & H2)]; destruct k as [|z k]; cbn [app] in H2.
  - injection H2 as -> ->. exists [], c, l, r. cbn [before after plug app]. by rewrite H1, !app_nil_r.
  - injection H2 as <- ->. destruct (IHl xs k H1) as (C & c' & l' & r' & -> & <- & <-).
    exists (C ++ [FL c y r]), c', l', r'. rewrite plug_app, before_app, after_app.
    split_and!; [done|done|]. cbn [before after]. by rewrite app_nil_r, app_assoc.
  - injection H2 as -> <-. exists [], c, l, r. cbn [before after plug app]. by rewrite H1, !app_nil_r.
  - injection H2 as <- H2. destruct (IHr k ys H2) as (C & c' & l' & r' & -> & <- & <-).
    exists (C ++ [FR c y l]), c', l', r'. rewrite plug_app, before_app, after_app. cbn [before after app].
    split_and!; [done| |by rewrite app_nil_r]. rewrite H1. by rewrite <-!app_assoc.
Qed.

(** ** Height *)

Fixpoint height (t : tree) : nat :=
  match t with E => 0 | T _ _ l r => S (height l `max` height r) end.

Lemma rb_size c n t : rb c n t -> (2 ^ n <= S (length (elems t)))%nat.
Proof.
  induction 1; cbn [elems]; rewrite ?length_app; cbn [length]; [simpl; lia|lia|].
  cbn [Nat.pow]. lia.
Qed.

Lemma rb_height c n t : rb c n t -> (height t <= 2 * n + match c with RB_RED => 0 | RB_BLACK => 1 end)%nat.
Proof. induction 1; cbn [height]; try destruct c; cbn iota in *; lia. Qed.

(** A red-black tree of [n] nodes has height at most [2 log2 (n + 1)]. *)
Lemma height_log t : red_black t -> (height t <= 2 * Nat.log2 (S (length (elems t))))%nat.
Proof.
  intros [n Hn]. pose proof (rb_height _ _ _ Hn) as Hh. pose proof (rb_size _ _ _ Hn) as Hs.
  apply Nat.log2_le_mono in Hs. rewrite Nat.log2_pow2 in Hs by lia. cbn iota in Hh. lia.
Qed.

Lemma height_plug C t : (length C + height t <= height (plug C t))%nat.
Proof.
  revert t. induction C as [|f C IH]; intros t; cbn [plug length]; [simpl; lia|].
  etrans; [|apply IH]. destruct f; cbn [fill_frame height]; lia.
Qed.
