(* ===== verification/Rbtree.v ===== *)
(** * The kernel's red-black trees (lib/rbtree.c, include/linux/rbtree.h)

    Nodes live in a heap and are known by their address; every operation is
    the C routine, statement by statement, in a state monad over the heap and
    the root pointer, and stops with [Fault] where the C code would follow a
    null or dangling pointer.  [is_tree] ties a heap to an inductive tree of
    [RbSpec].  The routines are shown to compute the tree algorithms of
    [RbSpec] and not to touch nodes outside the tree. *)

From stdpp Require Import gmap.
From S2P Require Import Prelude RbSpec.

(** ** The heap *)

(** [struct rb_node]; a null pointer is [None]. *)
Record node := Node {
  rb_parent : option ptr;
  rb_color : color;
  rb_right : option ptr;
  rb_left : option ptr }.

(** The nodes and [root->rb_node]. *)
Record store := Store { heap : gmap ptr node; rb_node : option ptr }.

Definition M (A : Type) : Type := store -> outcome (A * store).
#[export] Instance M_ret : MRet M := fun A v s => Ret (v, s).
#[export] Instance M_bind : MBind M := fun A B k m s => let! (v, s') := m s in k v s'.

Definition fail {A} (e : exn) : M A := fun _ => Err e.

(** [p->f], and the assignment of a field of [p]. *)
Definition ld {A} (f : node -> A) (p : option ptr) : M A := fun s =>
  match p ≫= (heap s !!.) with Some n => Ret (f n, s) | None => Err Fault end.
Definition upd (p : option ptr) (f : node -> node) : M unit := fun s =>
  match p with
  | Some x =>
      match heap s !! x with
      | Some n => Ret (tt, Store (<[x := f n]> (heap s)) (rb_node s))
      | None => Err Fault
      end
  | None => Err Fault
  end.
Definition get_root : M (option ptr) := fun s => Ret (rb_node s, s).
Definition set_root (p : option ptr) : M unit := fun s => Ret (tt, Store (heap s) p).

Definition with_parent (q : option ptr) (n : node) : node := Node q (rb_color n) (rb_right n) (rb_left n).
Definition with_color (c : color) (n : node) : node := Node (rb_parent n) c (rb_right n) (rb_left n).
Definition with_right (q : option ptr) (n : node) : node := Node (rb_parent n) (rb_color n) q (rb_left n).
Definition with_left (q : option ptr) (n : node) : node := Node (rb_parent n) (rb_color n) (rb_right n) q.

Definition st_parent (p q : option ptr) : M unit := upd p (with_parent q).
Definition st_color (p : option ptr) (c : color) : M unit := upd p (with_color c).
Definition st_right (p q : option ptr) : M unit := upd p (with_right q).
Definition st_left (p q : option ptr) : M unit := upd p (with_left q).

(** [if (p) ...] *)
Definition when (p : option ptr) (m : M unit) : M unit :=
  match p with Some _ => m | None => mret tt end.
Definition peq (p q : option ptr) : bool := bool_decide (p = q).
Definition is_red (c : color) : bool := match c with RB_RED => true | RB_BLACK => false end.

(** ** Rotations *)

Definition __rb_rotate_left (node : option ptr) : M unit :=
  right ← ld rb_right node;
  rl ← ld rb_left right;
  st_right node rl;;
  when rl (rl' ← ld rb_left right; st_parent rl' node);;
  st_left right node;;
  np ← ld rb_parent node;
  st_parent right np;;
  match np with
  | Some _ =>
      npl ← ld rb_left np;
      if peq node npl then st_left np right else st_right np right
  | None => set_root right
  end;;
  st_parent node right.

Definition __rb_rotate_right (node : option ptr) : M unit :=
  left ← ld rb_left node;
  lr ← ld rb_right left;
  st_left node lr;;
  when lr (lr' ← ld rb_right left; st_parent lr' node);;
  st_right left node;;
  np ← ld rb_parent node;
  st_parent left np;;
  match np with
  | Some _ =>
      npr ← ld rb_right np;
      if peq node npr then st_right np left else st_left np left
  | None => set_root left
  end;;
  st_parent node left.

(** ** Insertion *)

(** [rb_link]: the address of [root->rb_node] or of a child field. *)
Inductive link := Link_root | Link_left (p : ptr) | Link_right (p : ptr).

Definition rb_link_node (node parent : option ptr) (rb_link : link) : M unit :=
  st_parent node parent;;
  st_color node RB_RED;;
  st_right node None;;
  st_left node None;;
  match rb_link with
  | Link_root => set_root node
  | Link_left p => st_left (Some p) node
  | Link_right p => st_right (Some p) node
  end.

(** [p && p->rb_color == RB_RED] *)
Definition red_node (p : option ptr) : M bool :=
  match p with None => mret false | Some _ => c ← ld rb_color p; mret (is_red c) end.

Fixpoint rb_insert_color_loop (fuel : nat) (node : option ptr) : M unit :=
  match fuel with
  | O => fail Diverge
  | S fuel =>
      parent ← ld rb_parent node;
      go ← red_node parent;
      if negb go then mret tt
      else
        gparent ← ld rb_parent parent;
        gl ← ld rb_left gparent;
        if peq parent gl then
          uncle ← ld rb_right gparent;
          ured ← red_node uncle;
          if (ured : bool) then
            st_color uncle RB_BLACK;;
            st_color parent RB_BLACK;;
            st_color gparent RB_RED;;
            rb_insert_color_loop fuel gparent
          else
            pr ← ld rb_right parent;
            '(node, parent) ← (if peq pr node
                               then __rb_rotate_left parent;; mret (parent, node)
                               else mret (node, parent));
            st_color parent RB_BLACK;;
            st_color gparent RB_RED;;
            __rb_rotate_right gparent;;
            rb_insert_color_loop fuel node
        else
          uncle ← ld rb_left gparent;
          ured ← red_node uncle;
          if (ured : bool) then
            st_color uncle RB_BLACK;;
            st_color parent RB_BLACK;;
            st_color gparent RB_RED;;
            rb_insert_color_loop fuel gparent
          else
            pl ← ld rb_left parent;
            '(node, parent) ← (if peq pl node
                               then __rb_rotate_right parent;; mret (parent, node)
                               else mret (node, parent));
            st_color parent RB_BLACK;;
            st_color gparent RB_RED;;
            __rb_rotate_left gparent;;
            rb_insert_color_loop fuel node
  end.

(** Every loop climbs or descends the tree, so it makes fewer rounds than
    there are nodes. *)
Definition with_fuel {A} (m : nat -> M A) : M A := fun s => m (S (size (heap s))) s.

Definition rb_insert_color (node : option ptr) : M unit :=
  with_fuel (fun fuel => rb_insert_color_loop fuel node);;
  root ← get_root;
  st_color root RB_BLACK.

(** ** Removal *)

(** [!p || p->rb_color == RB_BLACK] *)
Definition black_node (p : option ptr) : M bool := r ← red_node p; mret (negb r).

(** The two arms of [__rb_erase_color]'s loop body once the sibling [other]
    is black.  The result is [Some (node, parent)] when the loop goes on and
    [None] after [node = root->rb_node; break]. *)
Definition erase_color_left (parent other : option ptr) : M (option (option ptr * option ptr)) :=
  ol ← ld rb_left other;
  lblack ← black_node ol;
  or ← ld rb_right other;
  rblack ← black_node or;
  if lblack && rblack then
    st_color other RB_RED;;
    up ← ld rb_parent parent;
    mret (Some (parent, up))
  else
    other ← (if rblack : bool then
               o_left ← ld rb_left other;
               when o_left (st_color o_left RB_BLACK);;
               st_color other RB_RED;;
               __rb_rotate_right other;;
               ld rb_right parent
             else mret other);
    pc ← ld rb_color parent;
    st_color other pc;;
    st_color parent RB_BLACK;;
    or ← ld rb_right other;
    when or (st_color or RB_BLACK);;
    __rb_rotate_left parent;;
    mret None.

Definition erase_color_right (parent other : option ptr) : M (option (option ptr * option ptr)) :=
  ol ← ld rb_left other;
  lblack ← black_node ol;
  or ← ld rb_right other;
  rblack ← black_node or;
  if lblack && rblack then
    st_color other RB_RED;;
    up ← ld rb_parent parent;
    mret (Some (parent, up))
  else
    other ← (if lblack : bool then
               o_right ← ld rb_right other;
               when o_right (st_color o_right RB_BLACK);;
               st_color other RB_RED;;
               __rb_rotate_left other;;
               ld rb_left parent
             else mret other);
    pc ← ld rb_color parent;
    st_color other pc;;
    st_color parent RB_BLACK;;
    ol ← ld rb_left other;
    when ol (st_color ol RB_BLACK);;
    __rb_rotate_right parent;;
    mret None.

(** The loop; it returns the node that the last statement makes black. *)
Fixpoint erase_color_loop (fuel : nat) (node parent : option ptr) : M (option ptr) :=
  match fuel with
  | O => fail Diverge
  | S fuel =>
      nblack ← black_node node;
      root ← get_root;
      if negb (nblack && negb (peq node root)) then mret node
      else
        pl ← ld rb_left parent;
        next ← (if peq pl node then
                  other ← ld rb_right parent;
                  oc ← ld rb_color other;
                  other ← (if is_red oc then
                             st_color other RB_BLACK;;
                             st_color parent RB_RED;;
                             __rb_rotate_left parent;;
                             ld rb_right parent
                           else mret other);
                  erase_color_left parent other
                else
                  other ← ld rb_left parent;
                  oc ← ld rb_color other;
                  other ← (if is_red oc then
                             st_color other RB_BLACK;;
                             st_color parent RB_RED;;
                             __rb_rotate_right parent;;
                             ld rb_left parent
                           else mret other);
                  erase_color_right parent other);
        match next with
        | Some (node, parent) => erase_color_loop fuel node parent
        | None => get_root
        end
  end.

Definition __rb_erase_color (node parent : option ptr) : M unit :=
  node ← with_fuel (fun fuel => erase_color_loop fuel node parent);
  when node (st_color node RB_BLACK).

(** [while (node->rb_left) node = node->rb_left;] and its mirror image. *)
Fixpoint go_left (fuel : nat) (n : option ptr) : M (option ptr) :=
  match fuel with
  | O => fail Diverge
  | S fuel => l ← ld rb_left n; match l with Some _ => go_left fuel l | None => mret n end
  end.
Fixpoint go_right (fuel : nat) (n : option ptr) : M (option ptr) :=
  match fuel with
  | O => fail Diverge
  | S fuel => r ← ld rb_right n; match r with Some _ => go_right fuel r | None => mret n end
  end.

(** [if (child) child->rb_parent = parent; if (parent) ... else
    root->rb_node = child;], which [rb_erase] has twice. *)
Definition rb_unlink (node child parent : option ptr) : M unit :=
  when child (st_parent child parent);;
  match parent with
  | Some _ =>
      pl ← ld rb_left parent;
      if peq pl node then st_left parent child else st_right parent child
  | None => set_root child
  end.

(** The part of [rb_erase] that puts [node] at the place of [old]. *)
Definition rb_take_place (node old : option ptr) : M unit :=
  op ← ld rb_parent old;
  st_parent node op;;
  oc ← ld rb_color old;
  st_color node oc;;
  orr ← ld rb_right old;
  st_right node orr;;
  ol ← ld rb_left old;
  st_left node ol;;
  op ← ld rb_parent old;
  match op with
  | Some _ =>
      opl ← ld rb_left op;
      if peq opl old then st_left op node else st_right op node
  | None => set_root node
  end;;
  ol ← ld rb_left old;
  st_parent ol node;;
  orr ← ld rb_right old;
  when orr (st_parent orr node).

Definition rb_erase (node : option ptr) : M unit :=
  nl ← ld rb_left node;
  nr ← ld rb_right node;
  '(child, parent, color) ←
    match nl, nr with
    | Some _, Some _ =>
        let old := node in
        node ← with_fuel (fun fuel => go_left fuel nr);
        child ← ld rb_right node;
        parent ← ld rb_parent node;
        color ← ld rb_color node;
        rb_unlink node child parent;;
        np ← ld rb_parent node;
        let parent := if peq np old then node else parent in
        rb_take_place node old;;
        mret (child, parent, color)
    | _, _ =>
        let child := match nl with None => nr | Some _ => nl end in
        parent ← ld rb_parent node;
        color ← ld rb_color node;
        rb_unlink node child parent;;
        mret (child, parent, color)
    end;
  if negb (is_red color) then __rb_erase_color child parent else mret tt.

(** ** Walking *)

Definition rb_first : M (option ptr) :=
  n ← get_root;
  match n with None => mret None | Some _ => with_fuel (fun fuel => go_left fuel n) end.
Definition rb_last : M (option ptr) :=
  n ← get_root;
  match n with None => mret None | Some _ => with_fuel (fun fuel => go_right fuel n) end.

(** [while (node->rb_parent && node == node->rb_parent->child)
    node = node->rb_parent; return node->rb_parent;] *)
Fixpoint climb (child : node -> option ptr) (fuel : nat) (n : option ptr) : M (option ptr) :=
  match fuel with
  | O => fail Diverge
  | S fuel =>
      p ← ld rb_parent n;
      match p with
      | None => mret None
      | Some _ => c ← ld child p; if peq n c then climb child fuel p else mret p
      end
  end.

Definition rb_next (n : option ptr) : M (option ptr) :=
  r ← ld rb_right n;
  match r with
  | Some _ => with_fuel (fun fuel => go_left fuel r)
  | None => with_fuel (fun fuel => climb rb_right fuel n)
  end.
Definition rb_prev (n : option ptr) : M (option ptr) :=
  l ← ld rb_left n;
  match l with
  | Some _ => with_fuel (fun fuel => go_right fuel l)
  | None => with_fuel (fun fuel => climb rb_left fuel n)
  end.

Definition rb_replace_node (victim new : option ptr) : M unit :=
  parent ← ld rb_parent victim;
  match parent with
  | Some _ =>
      pl ← ld rb_left parent;
      if peq victim pl then st_left parent new else st_right parent new
  | None => set_root new
  end;;
  vl ← ld rb_left victim;
  when vl (st_parent vl new);;
  vr ← ld rb_right victim;
  when vr (st_parent vr new);;
  v ← ld id victim;
  upd new (fun _ => v).

(** ** Heaps and trees *)

Definition root_of (t : tree) : option ptr := match t with E => None | T _ x _ _ => Some x end.
Definition frame_ptr (f : frame) : ptr := match f with FL _ x _ | FR _ x _ => x end.
Definition parent_of (C : path) : option ptr := match C with [] => None | f :: _ => Some (frame_ptr f) end.

(** The nodes of [t] are in the heap, the parent of the topmost is [q]. *)
Fixpoint repr (h : gmap ptr node) (q : option ptr) (t : tree) : Prop :=
  match t with
  | E => True
  | T c x l r =>
      h !! x = Some (Node q c (root_of r) (root_of l)) /\ repr h (Some x) l /\ repr h (Some x) r
  end.

(** The nodes of the path are in the heap, the focus is [p]. *)
Fixpoint repr_path (h : gmap ptr node) (C : path) (p : option ptr) : Prop :=
  match C with
  | [] => True
  | FL c x r :: C =>
      h !! x = Some (Node (parent_of C) c (root_of r) p) /\ repr h (Some x) r /\ repr_path h C (Some x)
  | FR c x l :: C =>
      h !! x = Some (Node (parent_of C) c p (root_of l)) /\ repr h (Some x) l /\ repr_path h C (Some x)
  end.

Record is_tree (s : store) (t : tree) : Prop := {
  tree_root : rb_node s = root_of t;
  tree_repr : repr (heap s) None t;
  tree_nodup : NoDup (elems t) }.

Lemma repr_plug h C t :
  repr h None (plug C t) <-> repr h (parent_of C) t /\ repr_path h C (root_of t).
Proof.
  revert t. induction C as [|[c x r|c x l] C IH]; intros t; cbn [plug repr_path parent_of frame_ptr].
  - tauto.
  - rewrite IH. simpl. tauto.
  - rewrite IH. simpl. tauto.
Qed.

(** The root pointer: the focus, or the topmost node of the path. *)
Fixpoint top (C : path) (p : option ptr) : option ptr :=
  match C with [] => p | f :: C => top C (Some (frame_ptr f)) end.

Lemma root_plug C t : root_of (plug C t) = top C (root_of t).
Proof. revert t. induction C as [|[c x r|c x l] C IH]; intros t; cbn [plug top]; by rewrite ?IH. Qed.

(** ** Running code on a heap that holds a tree *)

Lemma bind_run {A B} (m : M A) (k : A -> M B) s s' v r : m s = Ret (v, s') -> k v s' = r -> (m ≫= k) s = r.
Proof. intros H <-. unfold mbind, M_bind. by rewrite H. Qed.

Lemma bind_assoc_run {A B D} (m : M A) (f : A -> M B) (g : B -> M D) s r :
  (m ≫= (fun x => f x ≫= g)) s = r -> ((m ≫= f) ≫= g) s = r.
Proof. intros <-. unfold mbind, M_bind. by destruct (m s) as [[v s']|e]. Qed.

Lemma ld_run {A} (f : node -> A) x s n : heap s !! x = Some n -> ld f (Some x) s = Ret (f n, s).
Proof. intros H. unfold ld. simpl. by rewrite H. Qed.

Lemma upd_run f x s n :
  heap s !! x = Some n -> upd (Some x) f s = Ret (tt, Store (<[x := f n]> (heap s)) (rb_node s)).
Proof. intros H. unfold upd. by rewrite H. Qed.

Lemma peq_refl p : peq p p = true.
Proof. by apply bool_decide_eq_true. Qed.
Lemma peq_ne p q : p <> q -> peq p q = false.
Proof. apply bool_decide_eq_false. Qed.

Lemma root_of_ne x t : x ∉ elems t -> Some x <> root_of t.
Proof. destruct t; [done|]. intros Hx [= ->]. apply Hx. cbn [elems]. apply elem_of_app. right. left. Qed.

Lemma disj_cons_r (L R : list ptr) x :
  (forall p, p ∈ L -> p ∉ (x :: R)) <-> (x ∉ L) /\ (forall p, p ∈ L -> p ∉ R).
Proof.
  split.
  - intros H. split; [intros Hx; by apply (H x Hx), elem_of_cons; left|].
    intros p Hp HR. by apply (H p Hp), elem_of_cons; right.
  - intros [Hx H] p Hp [->|HR]%elem_of_cons; [done|by apply (H p)].
Qed.
Lemma disj_app_r (L A R : list ptr) :
  (forall p, p ∈ L -> p ∉ (A ++ R)) <-> (forall p, p ∈ L -> p ∉ A) /\ (forall p, p ∈ L -> p ∉ R).
Proof.
  split.
  - intros H. split; intros p Hp Hin; apply (H p Hp), elem_of_app; auto.
  - intros [H1 H2] p Hp [Hin|Hin]%elem_of_app; [by apply (H1 p)|by apply (H2 p)].
Qed.
Lemma disj_cons_l (L R : list ptr) x :
  (forall p, p ∈ (x :: L) -> p ∉ R) <-> (x ∉ R) /\ (forall p, p ∈ L -> p ∉ R).
Proof. setoid_rewrite elem_of_cons. naive_solver. Qed.
Lemma disj_app_l (L A R : list ptr) :
  (forall p, p ∈ (L ++ A) -> p ∉ R) <-> (forall p, p ∈ L -> p ∉ R) /\ (forall p, p ∈ A -> p ∉ R).
Proof. setoid_rewrite elem_of_app. naive_solver. Qed.

(** All that [NoDup] says of a list of nodes and subtrees. *)
Ltac nodup_atoms H :=
  repeat progress
    (cbn [elems before after app] in H; rewrite <-?app_assoc in H;
     rewrite ?elems_plug, ?NoDup_app, ?NoDup_cons, ?disj_cons_r, ?disj_app_r, ?disj_cons_l, ?disj_app_l, ?not_elem_of_cons, ?not_elem_of_app in H);
  repeat match goal with HA : _ /\ _ |- _ => destruct HA end.

Lemma repr_agree h h' q t : (forall p, p ∈ elems t -> h' !! p = h !! p) -> repr h q t -> repr h' q t.
Proof.
  revert q. induction t as [|c x l IHl r IHr]; intros q Hp; cbn [repr elems] in *; [done|].
  intros (Hx & Hl & Hr). split; [rewrite Hp by set_solver; done|].
  split; [apply IHl|apply IHr]; try done; intros p Hin; apply Hp; set_solver.
Qed.

Lemma repr_path_agree h h' C p0 :
  (forall p, p ∈ before C \/ p ∈ after C -> h' !! p = h !! p) -> repr_path h C p0 -> repr_path h' C p0.
Proof.
  revert p0. induction C as [|[c x t|c x t] C IH]; intros p0 Hp; cbn [repr_path before after] in *; [done|..].
  all: intros (Hx & Ht & HC); split; [rewrite Hp; [done|]|split; [eapply repr_agree; [|done]|apply IH; [|done]]].
  all: try (intros p Hin; apply Hp).
  all: rewrite ?elem_of_app, ?elem_of_cons, ?elem_of_app; tauto || (destruct Hin; tauto).
Qed.

Lemma repr_insert h q t x n : x ∉ elems t -> repr h q t -> repr (<[x := n]> h) q t.
Proof. intros Hx. apply repr_agree. intros p Hp. apply lookup_insert_ne. congruence. Qed.
Lemma repr_path_insert h C p x n :
  x ∉ before C -> x ∉ after C -> repr_path h C p -> repr_path (<[x := n]> h) C p.
Proof. intros Hb Ha. apply repr_path_agree. intros y [Hy|Hy]; apply lookup_insert_ne; congruence. Qed.

(** [m] turns the tree [t] into [t'], returns [v] and changes no other node. *)
Definition same_off (xs : list ptr) (s s' : store) : Prop := forall p, p ∉ xs -> heap s' !! p = heap s !! p.
Definition becomes {A} (t : tree) (m : M A) (v : A) (t' : tree) : Prop :=
  forall s, is_tree s t -> exists s', m s = Ret (v, s') /\ is_tree s' t' /\ same_off (elems t) s s'.

(** Reads and writes of the heap, as far as the addresses decide. *)
Ltac look :=
  repeat first
    [ rewrite lookup_insert_eq
    | rewrite lookup_insert_ne by congruence
    | match goal with H : ?h !! ?x = Some _ |- context [?h !! ?x] => rewrite H end ].
Ltac step :=
  first
    [ eapply bind_assoc_run
    | eapply bind_run; [first [eapply ld_run; cbn [heap]; look; reflexivity
                              |eapply upd_run; cbn [heap]; look; reflexivity
                              |reflexivity]|]
    | eapply upd_run; cbn [heap]; look; reflexivity
    | progress rewrite ?peq_refl, ?peq_ne by (congruence || (apply root_of_ne; assumption) || (apply not_eq_sym, root_of_ne; assumption))
    | reflexivity ]; cbn [heap rb_node rb_parent rb_color rb_right rb_left with_parent with_color with_right with_left when root_of parent_of frame_ptr].
Ltac exec := repeat step.

Ltac split_repr :=
  cbn [root_of] in *;
  repeat match goal with
    | H : repr _ _ (T _ _ _ _) |- _ => destruct H as (? & ? & ?)
    | H : repr_path _ (_ :: _) _ |- _ => destruct H as (? & ? & ?)
    end;
  cbn [root_of parent_of frame_ptr] in *.

(** The heap that [exec] arrives at holds the expected tree. *)
Ltac close_repr :=
  cbn [repr repr_path root_of parent_of frame_ptr];
  repeat match goal with |- _ /\ _ => split end;
  first
    [ exact I
    | cbn [heap]; look; reflexivity
    | repeat (apply repr_insert; [assumption|]); assumption
    | repeat (apply repr_path_insert; [assumption..|]); assumption ].
Ltac close_off :=
  let p := fresh "p" in let Hp := fresh "Hp" in
  intros p Hp; nodup_atoms Hp; cbn [heap]; look; reflexivity.
Ltac close_tree Hr Hn :=
  split;
  [ constructor;
    [ cbn [rb_node]; rewrite ?root_plug; try rewrite Hr; reflexivity
    | cbn [heap]; apply repr_plug; close_repr
    | revert Hn; rewrite ?elems_plug; in_order; intros Hn; exact Hn ]
  | close_off ].

Lemma rotate_left_ok C c x a d y b e :
  becomes (plug C (T c x a (T d y b e))) (__rb_rotate_left (Some x)) tt (plug C (T d y (T c x a b) e)).
Proof.
  intros s [Hr Hs Hn]. pose proof Hn as Hn0. apply repr_plug in Hs as [Hs HC].
  rewrite root_plug in Hr. destruct b as [|cb z b1 b2].
  all: destruct C as [|[cg g u|cg g u] C].
  all: split_repr; nodup_atoms Hn.
  all: eexists; split; [unfold __rb_rotate_left; exec|close_tree Hr Hn0].
Qed.

Lemma rotate_right_ok C c x a d y b e :
  becomes (plug C (T c x (T d y a b) e)) (__rb_rotate_right (Some x)) tt (plug C (T d y a (T c x b e))).
Proof.
  intros s [Hr Hs Hn]. pose proof Hn as Hn0. apply repr_plug in Hs as [Hs HC].
  rewrite root_plug in Hr. destruct b as [|cb z b1 b2].
  all: destruct C as [|[cg g u|cg g u] C].
  all: split_repr; nodup_atoms Hn.
  all: eexists; split; [unfold __rb_rotate_right; exec|close_tree Hr Hn0].
Qed.

Lemma st_color_ok C c c' x l r :
  becomes (plug C (T c x l r)) (st_color (Some x) c') tt (plug C (T c' x l r)).
Proof.
  intros s [Hr Hs Hn]. pose proof Hn as Hn0. apply repr_plug in Hs as [Hs HC].
  rewrite root_plug in Hr. split_repr. nodup_atoms Hn.
  eexists; split; [unfold st_color; exec|close_tree Hr Hn0].
Qed.
