(* ===== verification/RbRefine.v ===== *)
(** * The red-black tree routines on trees

    Rules to run the code of [Rbtree] on a heap that holds a tree, in terms of
    the tree alone, and the proofs that insertion, removal, walking and
    replacement do what the algorithms of [RbSpec] do. *)

From stdpp Require Import gmap.
From S2P Require Import Prelude RbSpec Rbtree.

(** ** Stepping through code, tree by tree *)

Lemma same_off_refl xs s : same_off xs s s.
Proof. by intros p Hp. Qed.
Lemma same_off_trans xs s1 s2 s3 : same_off xs s1 s2 -> same_off xs s2 s3 -> same_off xs s1 s3.
Proof. intros H1 H2 p Hp. by rewrite H2, H1. Qed.

Lemma becomes_bind {A B} t t1 t2 (m : M A) (k : A -> M B) v w :
  becomes t m v t1 -> elems t1 = elems t -> becomes t1 (k v) w t2 -> becomes t (m ≫= k) w t2.
Proof.
  intros Hm He Hk s Hs. destruct (Hm s Hs) as (s1 & H1 & Hs1 & Ho1).
  destruct (Hk s1 Hs1) as (s2 & H2 & Hs2 & Ho2). exists s2.
  split; [by eapply bind_run|]. split; [done|]. rewrite He in Ho2. by eapply same_off_trans.
Qed.

Lemma becomes_ret {A} t (v : A) : becomes t (mret v) v t.
Proof. intros s Hs. exists s. split; [done|]. split; [done|apply same_off_refl]. Qed.

Lemma becomes_assoc {A B D} t (m : M A) (f : A -> M B) (g : B -> M D) w t' :
  becomes t (m ≫= (fun x => f x ≫= g)) w t' -> becomes t ((m ≫= f) ≫= g) w t'.
Proof. intros H s Hs. destruct (H s Hs) as (s' & H' & ?). exists s'. split; [by apply bind_assoc_run|done]. Qed.

Lemma becomes_nodup {A} t (m : M A) v t' : (NoDup (elems t) -> becomes t m v t') -> becomes t m v t'.
Proof. intros H s Hs. apply H; [apply Hs|done]. Qed.

(** Reads: the node at a known place. *)
Lemma tree_at s C c x l r :
  is_tree s (plug C (T c x l r)) -> heap s !! x = Some (Node (parent_of C) c (root_of r) (root_of l)).
Proof. intros [_ Hs _]. apply repr_plug in Hs as [(Hx & _ & _) _]. done. Qed.

Lemma ld_ok {A} (f : node -> A) C c x l r :
  becomes (plug C (T c x l r)) (ld f (Some x)) (f (Node (parent_of C) c (root_of r) (root_of l))) (plug C (T c x l r)).
Proof.
  intros s Hs. exists s. split; [|split; [done|apply same_off_refl]]. apply ld_run. by apply tree_at.
Qed.

Lemma red_node_ok C u : becomes (plug C u) (red_node (root_of u)) (negb (blackish u)) (plug C u).
Proof.
  destruct u as [|c x l r]; cbn [root_of red_node]; [apply becomes_ret|].
  eapply becomes_bind; [apply ld_ok|done|]. cbn [rb_color]. destruct c; apply becomes_ret.
Qed.

Lemma get_root_ok t : becomes t get_root (root_of t) t.
Proof.
  intros s Hs. exists s. split; [|split; [done|apply same_off_refl]]. unfold get_root. by rewrite (tree_root s t Hs).
Qed.

Lemma bind_ld {A B} (f : node -> A) C c x l r (k : A -> M B) w t :
  becomes (plug C (T c x l r)) (k (f (Node (parent_of C) c (root_of r) (root_of l)))) w t ->
  becomes (plug C (T c x l r)) (ld f (Some x) ≫= k) w t.
Proof. intros H. eapply becomes_bind; [apply ld_ok|done|done]. Qed.
Lemma bind_red {B} C u (k : bool -> M B) w t :
  becomes (plug C u) (k (negb (blackish u))) w t -> becomes (plug C u) (red_node (root_of u) ≫= k) w t.
Proof. intros H. eapply becomes_bind; [apply red_node_ok|done|done]. Qed.
Lemma bind_root {B} t0 (k : option ptr -> M B) w t :
  becomes t0 (k (root_of t0)) w t -> becomes t0 (get_root ≫= k) w t.
Proof. intros H. eapply becomes_bind; [apply get_root_ok|done|done]. Qed.
Lemma bind_ret {A B} t0 (v : A) (k : A -> M B) w t : becomes t0 (k v) w t -> becomes t0 (mret v ≫= k) w t.
Proof. intros H. eapply becomes_bind; [apply becomes_ret|done|done]. Qed.
Lemma bind_color {B} C c c' x l r (k : unit -> M B) w t :
  becomes (plug C (T c' x l r)) (k tt) w t -> becomes (plug C (T c x l r)) (st_color (Some x) c' ≫= k) w t.
Proof. intros H. eapply becomes_bind; [apply st_color_ok|by rewrite !elems_plug|done]. Qed.
Lemma bind_rotl {B} C c x a d y b e (k : unit -> M B) w t :
  becomes (plug C (T d y (T c x a b) e)) (k tt) w t ->
  becomes (plug C (T c x a (T d y b e))) (__rb_rotate_left (Some x) ≫= k) w t.
Proof. intros H. eapply becomes_bind; [apply rotate_left_ok|rewrite !elems_plug; by in_order|done]. Qed.
Lemma bind_rotr {B} C c x a d y b e (k : unit -> M B) w t :
  becomes (plug C (T d y a (T c x b e))) (k tt) w t ->
  becomes (plug C (T c x (T d y a b) e)) (__rb_rotate_right (Some x) ≫= k) w t.
Proof. intros H. eapply becomes_bind; [apply rotate_right_ok|rewrite !elems_plug; by in_order|done]. Qed.

(** Find the node [x], or the subtree [v], below the focus [u] of [C]. *)
Ltac focus_node x C u k :=
  match u with
  | T _ x _ _ => k C
  | T ?c ?y ?l ?r => first [focus_node x constr:(FL c y r :: C) l k | focus_node x constr:(FR c y l :: C) r k]
  end.
Ltac focus_tree v C u k :=
  match u with
  | v => k C
  | T ?c ?y ?l ?r => first [focus_tree v constr:(FL c y r :: C) l k | focus_tree v constr:(FR c y l :: C) r k]
  end.
Ltac tidy :=
  cbn [rb_parent rb_color rb_right rb_left root_of parent_of frame_ptr plug fill_frame blackish blacken negb andb when
       is_red];
  rewrite ?peq_refl, ?peq_ne by (congruence || (apply root_of_ne; assumption) || (apply not_eq_sym, root_of_ne; assumption)).
Ltac tstep :=
  try lazymatch goal with |- becomes (T ?c ?x ?l ?r) ?m ?v ?t => change (becomes (plug [] (T c x l r)) m v t) end;
  lazymatch goal with
  | |- becomes (plug ?C ?u) (ld _ (Some ?x) ≫= _) _ _ => focus_node x C u ltac:(fun D => apply (bind_ld _ D))
  | |- becomes (plug ?C ?u) (red_node (Some ?x) ≫= _) _ _ => focus_node x C u ltac:(fun D => apply (bind_red D (T _ x _ _)))
  | |- becomes (plug ?C ?u) (red_node (root_of ?v) ≫= _) _ _ => focus_tree v C u ltac:(fun D => apply (bind_red D v))
  | |- becomes (plug ?C ?u) (st_color (Some ?x) _ ≫= _) _ _ => focus_node x C u ltac:(fun D => apply (bind_color D))
  | |- becomes (plug ?C ?u) (__rb_rotate_left (Some ?x) ≫= _) _ _ => focus_node x C u ltac:(fun D => apply (bind_rotl D))
  | |- becomes (plug ?C ?u) (__rb_rotate_right (Some ?x) ≫= _) _ _ => focus_node x C u ltac:(fun D => apply (bind_rotr D))
  | |- becomes _ (black_node _ ≫= _) _ _ => unfold black_node at 1; apply becomes_assoc
  | |- becomes _ (red_node None ≫= _) _ _ => apply bind_ret
  | |- becomes _ (get_root ≫= _) _ _ => apply bind_root
  | |- becomes _ (mret _ ≫= _) _ _ => apply bind_ret
  | |- becomes _ ((_ ≫= _) ≫= _) _ _ => apply becomes_assoc
  end; tidy.

(** ** Insertion refines [ins_fix] *)

Definition frame_color (f : frame) : color := match f with FL c _ _ | FR c _ _ => c end.

(** The loop stops below a black parent. *)
Lemma insert_loop_stop fuel C f c x a b :
  (0 < fuel)%nat -> frame_color f = RB_BLACK ->
  becomes (plug (f :: C) (T c x a b)) (rb_insert_color_loop fuel (Some x)) tt (plug (f :: C) (T c x a b)).
Proof.
  destruct fuel; [lia|]. intros _ Hf.
  destruct f as [? g u|? g u]; cbn in Hf; subst; cbn [rb_insert_color_loop plug fill_frame]; repeat tstep; apply becomes_ret.
Qed.

Lemma insert_loop_ok fuel : forall C c n x a b,
  (length C < fuel)%nat -> ctx c n C -> rb RB_RED n a -> rb RB_RED n b ->
  becomes (plug C (T RB_RED x a b)) (rb_insert_color_loop fuel (Some x)) tt (ins_fix C (T RB_RED x a b)).
Proof.
  induction fuel as [|fuel IH]; intros C c n x a b Hf HC Ha Hb; [lia|].
  apply becomes_nodup. intros Hn.
  inversion HC as [|n0 p t C1 Ht H1|n0 p t C1 Ht H1|? ? p t C1|? ? p t C1]; subst.
  4,5: apply insert_loop_stop; [lia|done].
  - cbn. repeat tstep. apply becomes_ret.
  - cbn [rb_insert_color_loop]. inversion H1 as [| | |c2 ? g u C2 Hu H2|c2 ? g u C2 Hu H2]; subst; cbn [length] in Hf;
      cbn [plug fill_frame ins_fix] in *; destruct u as [|[] z zl zr]; nodup_atoms Hn; repeat tstep.
    2,5: eapply IH; [lia|done|..]; inversion Hu; subst; auto with rbtree.
    1,2: apply (insert_loop_stop fuel C2 (FL _ _ _)); [lia|done].
    all: apply (insert_loop_stop fuel C2 (FR _ _ _)); [lia|done].
  - cbn [rb_insert_color_loop]. inversion H1 as [| | |c2 ? g u C2 Hu H2|c2 ? g u C2 Hu H2]; subst; cbn [length] in Hf;
      cbn [plug fill_frame ins_fix] in *; destruct u as [|[] z zl zr]; nodup_atoms Hn; repeat tstep.
    2,5: eapply IH; [lia|done|..]; inversion Hu; subst; auto with rbtree.
    1,2: apply (insert_loop_stop fuel C2 (FL _ _ _)); [lia|done].
    all: apply (insert_loop_stop fuel C2 (FR _ _ _)); [lia|done].
Qed.

Lemma length_plug C t : (length C + length (elems t) <= length (elems (plug C t)))%nat.
Proof.
  revert t. induction C as [|f C IH]; intros t; cbn [plug]; [simpl; lia|].
  etrans; [|apply IH]. destruct f; cbn [fill_frame elems length]; rewrite length_app; cbn [length]; lia.
Qed.

Lemma size_heap s t : is_tree s t -> (length (elems t) <= size (heap s))%nat.
Proof.
  intros [_ Hs Hn]. rewrite <-size_dom, <-(size_list_to_set (C := gset ptr)) by done. apply subseteq_size.
  intros p Hp%elem_of_list_to_set. apply elem_of_dom. clear Hn.
  revert Hs Hp. generalize (@None ptr). induction t as [|c x l IHl r IHr]; intros q; cbn [repr elems]; [by rewrite elem_of_nil|].
  rewrite elem_of_app, elem_of_cons. intros (Hx & Hl & Hr) [Hp|[->|Hp]]; eauto.
Qed.

Lemma becomes_fuel {A} t (m : nat -> M A) v t' :
  (forall fuel, (length (elems t) < fuel)%nat -> becomes t (m fuel) v t') -> becomes t (with_fuel m) v t'.
Proof. intros H s Hs. apply H; [|done]. apply size_heap in Hs. lia. Qed.

(** [root->rb_node->rb_color = RB_BLACK] *)
Lemma blacken_root t : becomes t (root ← get_root; when root (st_color root RB_BLACK)) tt (blacken t).
Proof.
  apply bind_root. destruct t as [|c x l r]; cbn [root_of when]; [apply becomes_ret|].
  apply (st_color_ok []).
Qed.

Lemma insert_color_ref C c n x a b :
  ctx c n C -> rb RB_RED n a -> rb RB_RED n b ->
  becomes (plug C (T RB_RED x a b)) (rb_insert_color (Some x)) tt (insert_color C (T RB_RED x a b)).
Proof.
  intros HC Ha Hb. unfold rb_insert_color, insert_color. eapply becomes_bind.
  - apply becomes_fuel. intros fuel Hf. eapply insert_loop_ok; [|done..].
    pose proof (length_plug C (T RB_RED x a b)). lia.
  - by rewrite ins_fix_elems, elems_plug.
  - pose proof (ins_fix_elems C RB_RED x a b) as He.
    destruct (ins_fix C (T RB_RED x a b)) as [|c' y l r]; [|apply bind_root, (st_color_ok [])].
    apply (f_equal length) in He. rewrite !length_app in He. simpl in He. lia.
Qed.
