(* ===== verification/RbErase.v ===== *)
(** * Removal from a red-black tree, on trees

    [rb_erase] and [rb_replace_node] on heaps that hold a tree. *)

From stdpp Require Import gmap.
From S2P Require Import Prelude RbSpec Rbtree RbRefine.

(** ** Removal refines [del_fix] *)

(** [k] is the rest of the loop: with a node, the next round; with none, the
    loop is over and the root is made black. *)
Lemma erase_left_ok up C c x t other t' (k : option (option ptr * option ptr) -> M unit) :
  del_left up C c x t other = Some t' ->
  (forall l r, up (T c x l r) = Some t' -> becomes (plug C (T c x l r)) (k (Some (Some x, parent_of C))) tt t') ->
  (forall t0, becomes t0 (k None) tt (blacken t0)) ->
  becomes (plug C (T c x t other)) (erase_color_left (Some x) (root_of other) ≫= k) tt t'.
Proof.
  intros Hd Hup Hend. unfold del_left in Hd. destruct other as [|cy y b d]; [done|]. unfold erase_color_left.
  destruct b as [|[] z b1 b2], d as [|[] w d1 d2]; cbn [blackish andb blacken] in Hd; repeat tstep.
  all: first [by apply Hup|injection Hd as <-; apply Hend].
Qed.

Lemma erase_right_ok up C c x t other t' (k : option (option ptr * option ptr) -> M unit) :
  del_right up C c x t other = Some t' ->
  (forall l r, up (T c x l r) = Some t' -> becomes (plug C (T c x l r)) (k (Some (Some x, parent_of C))) tt t') ->
  (forall t0, becomes t0 (k None) tt (blacken t0)) ->
  becomes (plug C (T c x other t)) (erase_color_right (Some x) (root_of other) ≫= k) tt t'.
Proof.
  intros Hd Hup Hend. unfold del_right in Hd. destruct other as [|cy y d b]; [done|]. unfold erase_color_right.
  destruct b as [|[] z b1 b2], d as [|[] w d1 d2]; cbn [blackish andb blacken] in Hd; repeat tstep.
  all: first [by apply Hup|injection Hd as <-; apply Hend].
Qed.

Lemma top_focus C f t : NoDup (elems (plug (f :: C) t)) -> root_of t <> root_of (plug (f :: C) t).
Proof.
  rewrite elems_plug, root_plug. intros Hn.
  assert (Ht : forall D z, exists y, top D (Some z) = Some y /\ (y = z \/ y ∈ before D \/ y ∈ after D)).
  { clear. induction D as [|g D IH]; intros z; cbn [top]; [eauto|].
    destruct (IH (frame_ptr g)) as (y & -> & Hy). exists y. split; [done|]. right.
    destruct g; cbn [frame_ptr before after] in *; rewrite ?elem_of_app, ?elem_of_cons, ?elem_of_app, ?elem_of_cons.
    all: destruct Hy as [->|[Hy|Hy]]; auto 7. }
  assert (He : exists y, top (f :: C) (root_of t) = Some y /\ (y ∈ before (f :: C) \/ y ∈ after (f :: C))).
  { destruct (Ht C (frame_ptr f)) as (y & Hy & Hin). exists y. split; [exact Hy|].
    destruct f; cbn [frame_ptr before after] in *; rewrite ?elem_of_app, ?elem_of_cons, ?elem_of_app, ?elem_of_cons.
    all: destruct Hin as [->|[Hin|Hin]]; auto 7. }
  destruct He as (y & -> & Hy). destruct t as [|c x l r]; [done|]. intros [= ->].
  apply NoDup_app in Hn as (_ & Hb & Hn). apply NoDup_app in Hn as (_ & Ha & _).
  assert (Hin : y ∈ elems (T c y l r)) by (cbn [elems]; rewrite elem_of_app, elem_of_cons; auto).
  destruct Hy as [Hy|Hy]; [apply (Hb y Hy), elem_of_app; auto|by apply (Ha y Hin)].
Qed.

(** [if (node) node->rb_color = RB_BLACK] *)
Definition blacken_node (node : option ptr) : M unit := when node (st_color node RB_BLACK).

Lemma blacken_node_ok C t : becomes (plug C t) (blacken_node (root_of t)) tt (plug C (blacken t)).
Proof. destruct t; [apply becomes_ret|apply st_color_ok]. Qed.

(** The loop stops at a red node. *)
Lemma erase_loop_stop fuel C t t' :
  (0 < fuel)%nat -> blackish t = false -> plug C (blacken t) = t' ->
  becomes (plug C t) (erase_color_loop fuel (root_of t) (parent_of C) ≫= blacken_node) tt t'.
Proof.
  destruct fuel; [lia|]. intros _ Ht <-. destruct t as [|[] x l r]; try done. cbn [erase_color_loop root_of].
  unfold black_node. apply becomes_assoc, becomes_assoc, (bind_red C (T _ x _ _)). rewrite Ht.
  apply bind_ret. apply becomes_assoc, bind_root. cbn. apply bind_ret. apply (blacken_node_ok C (T _ x _ _)).
Qed.

Lemma erase_loop_ok fuel : forall C t t',
  (length C < fuel)%nat -> del_fix C t = Some t' ->
  becomes (plug C t) (erase_color_loop fuel (root_of t) (parent_of C) ≫= blacken_node) tt t'.
Proof.
  induction fuel as [|fuel IH]; intros C t t' Hf Hd; [lia|].
  apply becomes_nodup. intros Hn. destruct (blackish t) eqn:Et.
  2: { apply erase_loop_stop; [lia|done|]. destruct t as [|[]]; try done. destruct C; [by injection Hd as <-|].
       cbn [del_fix blackish negb] in Hd. by injection Hd as <-. }
  cbn [erase_color_loop]. unfold black_node. do 2 apply becomes_assoc.
  apply bind_red. rewrite Et. apply bind_ret, becomes_assoc, bind_root.
  destruct C as [|f C].
  { cbn [plug]. rewrite peq_refl. apply bind_ret. injection Hd as <-. apply (blacken_node_ok []). }
  rewrite peq_ne by by apply top_focus. cbn [negb andb].
  cbn [del_fix] in Hd. rewrite Et in Hd. cbn [negb] in Hd. cbn [length] in Hf.
  assert (Hend : forall t0, becomes t0 (get_root ≫= blacken_node) tt (blacken t0)) by apply blacken_root.
  assert (Hgo : forall c x l r, del_fix C (T c x l r) = Some t' ->
            becomes (plug C (T c x l r)) (erase_color_loop fuel (Some x) (parent_of C) ≫= blacken_node) tt t')
    by (intros; apply (IH C (T c x l r)); [lia|done]).
  assert (Hstop : forall g x l r, Some (plug (g :: C) (T RB_BLACK x l r)) = Some t' ->
            becomes (plug (g :: C) (T RB_RED x l r)) (erase_color_loop fuel (Some x) (parent_of (g :: C)) ≫= blacken_node) tt t')
    by (intros g x l r [= <-]; apply (erase_loop_stop fuel (g :: C) (T RB_RED x l r)); [lia|done..]).
  destruct f as [cf x o|cf x o]; cbn [plug fill_frame parent_of frame_ptr].
  - destruct o as [|[] y b d]; [done|..]; repeat tstep.
    + eapply (erase_left_ok _ (FL RB_BLACK y d :: C) RB_RED x t b); [done|by intros; apply Hstop|done].
    + eapply (erase_left_ok _ C cf x t (T RB_BLACK y b d)); [done|by intros; apply Hgo|done].
  - destruct o as [|[] y d b]; [done|..]; nodup_atoms Hn; repeat tstep.
    + eapply (erase_right_ok _ (FR RB_BLACK y d :: C) RB_RED x t b); [done|by intros; apply Hstop|done].
    + eapply (erase_right_ok _ C cf x t (T RB_BLACK y d b)); [done|by intros; apply Hgo|done].
Qed.

Lemma erase_color_ref C t t' :
  del_fix C t = Some t' -> becomes (plug C t) (__rb_erase_color (root_of t) (parent_of C)) tt t'.
Proof.
  intros Hd. pose proof (length_plug C t) as Hl.
  change (becomes (plug C t) (with_fuel (fun fuel => erase_color_loop fuel (root_of t) (parent_of C) ≫= blacken_node)) tt t').
  apply becomes_fuel.
  intros fuel Hf. apply erase_loop_ok; [lia|done].
Qed.

(** ** Unlinking and replacing nodes *)

(** A node with at most one child, cut out. *)
Lemma unlink_ref C c x l r t :
  (l = E /\ r = t) \/ (l = t /\ r = E) ->
  forall s, is_tree s (plug C (T c x l r)) -> exists s',
    rb_unlink (Some x) (root_of t) (parent_of C) s = Ret (tt, s') /\ is_tree s' (plug C t) /\
    same_off (before C ++ elems t ++ after C) s s'.
Proof.
  intros Hlr s [Hr Hs Hn]. apply repr_plug in Hs as [Hs HC]. rewrite root_plug in Hr.
  assert (Ht : repr (heap s) (Some x) t) by (destruct Hlr as [[-> ->]|[-> ->]]; apply Hs). clear Hs.
  assert (Hn0 : NoDup (elems (plug C (T c x E t)))).
  { revert Hn. rewrite !elems_plug. destruct Hlr as [[-> ->]|[-> ->]]; in_order; [done|].
    intros Hn. by rewrite (Permutation_middle (elems t)). }
  clear Hn Hlr. pose proof Hn0 as Hn.
  assert (Hn1 : NoDup (elems (plug C t))).
  { revert Hn0. rewrite !elems_plug. in_order. rewrite <-(Permutation_middle (before C)). by intros [_ ?]%NoDup_cons. }
  destruct t as [|ct z t1 t2], C as [|[cg g u|cg g u] C]; split_repr; nodup_atoms Hn.
  all: eexists; split; [unfold rb_unlink; exec|close_tree Hr Hn1].
Qed.

Lemma nodup_rename C c x y l r :
  NoDup (elems (plug C (T c x l r))) -> y ∉ elems (plug C (T c x l r)) -> NoDup (elems (plug C (T c y l r))).
Proof.
  rewrite !elems_plug. in_order. rewrite !(app_assoc (before C)), <-!(Permutation_middle (before C ++ elems l)).
  rewrite not_elem_of_cons, !NoDup_cons. tauto.
Qed.

(** [node] gets the place, the colour and the children of [old]. *)
Lemma take_place_ref C c x y l r ny :
  l <> E ->
  forall s, is_tree s (plug C (T c x l r)) -> heap s !! y = Some ny -> y ∉ elems (plug C (T c x l r)) ->
  exists s', rb_take_place (Some y) (Some x) s = Ret (tt, s') /\ is_tree s' (plug C (T c y l r)) /\
    same_off (y :: elems (plug C (T c x l r))) s s' /\ heap s' !! x = heap s !! x.
Proof.
  intros Hl s [Hr Hs Hn] Hy Hin. apply repr_plug in Hs as [Hs HC]. rewrite root_plug in Hr.
  pose proof Hn as Hn0. destruct l as [|cl xl ll lr]; [done|]. clear Hl.
  pose proof (nodup_rename _ _ _ _ _ _ Hn Hin) as Hn1.
  destruct r as [|cr xr rl rr], C as [|[cg g u|cg g u] C]; split_repr; nodup_atoms Hn; nodup_atoms Hin.
  all: eexists; split; [unfold rb_take_place; exec|].
  all: cut (forall P Q R : Prop, (P /\ Q) -> R -> P /\ Q /\ R); [intros Hand; apply Hand|tauto].
  all: first [close_tree Hr Hn1|cbn [heap]; look; reflexivity].
Qed.

Lemma replace_ref C c x y l r ny :
  forall s, is_tree s (plug C (T c x l r)) -> heap s !! y = Some ny -> y ∉ elems (plug C (T c x l r)) ->
  exists s', rb_replace_node (Some x) (Some y) s = Ret (tt, s') /\ is_tree s' (plug C (T c y l r)) /\
    same_off (y :: elems (plug C (T c x l r))) s s'.
Proof.
  intros s [Hr Hs Hn] Hy Hin. apply repr_plug in Hs as [Hs HC]. rewrite root_plug in Hr.
  pose proof Hn as Hn0. pose proof (nodup_rename _ _ _ _ _ _ Hn Hin) as Hn1.
  destruct l as [|cl xl ll lr], r as [|cr xr rl rr], C as [|[cg g u|cg g u] C]; split_repr; nodup_atoms Hn; nodup_atoms Hin.
  all: eexists; split; [unfold rb_replace_node; exec|close_tree Hr Hn1].
Qed.
