(* ===== verification/RbOps.v ===== *)
(** * The operations of the red-black tree library

    What [rb_link_node] with [rb_insert_color], [rb_erase], [rb_replace_node],
    [rb_first], [rb_last], [rb_next] and [rb_prev] do to a heap that holds a
    red-black tree. *)

From stdpp Require Import gmap.
From S2P Require Import Prelude RbSpec Rbtree RbRefine RbErase.

(** ** Removal refines [erase] *)

Lemma leftmost_app D c x l r :
  leftmost D c x l r = let '(D', cy, y, t) := leftmost [] c x l r in (D' ++ D, cy, y, t).
Proof.
  revert D c x r. induction l as [|c' x' l' IH r' _]; intros D c x r; cbn [leftmost]; [done|].
  rewrite (IH (FL c x r :: D)), (IH [FL c x r]). destruct (leftmost [] c' x' l' r') as [[[D' cy] y] t].
  by rewrite <-app_assoc.
Qed.

(** [m] returns [v] on a heap that holds [t], and changes nothing. *)
Definition reads {A} (t : tree) (m : M A) (v : A) : Prop := forall s, is_tree s t -> m s = Ret (v, s).

Lemma reads_ld {A B} (f : node -> A) (k : A -> M B) C c x l r v :
  reads (plug C (T c x l r)) (k (f (Node (parent_of C) c (root_of r) (root_of l)))) v ->
  reads (plug C (T c x l r)) (ld f (Some x) ≫= k) v.
Proof. intros H s Hs. eapply bind_run; [eapply ld_run; by apply tree_at|by apply H]. Qed.

Lemma reads_ret {A} t (v : A) : reads t (mret v) v.
Proof. by intros s Hs. Qed.

Lemma reads_fuel {A} t (m : nat -> M A) v :
  (forall fuel, (length (elems t) < fuel)%nat -> reads t (m fuel) v) -> reads t (with_fuel m) v.
Proof. intros H s Hs. apply H; [|done]. apply size_heap in Hs. lia. Qed.

Lemma go_left_ok fuel C c x l r :
  (length (elems l) < fuel)%nat ->
  let '(_, _, y, _) := leftmost C c x l r in reads (plug C (T c x l r)) (go_left fuel (Some x)) (Some y).
Proof.
  revert fuel C c x r. induction l as [|c' x' l' IH r' _]; intros [|fuel] C c x r Hf; try lia; cbn [leftmost go_left].
  - apply reads_ld, reads_ret.
  - specialize (IH fuel (FL c x r :: C) c' x' r'). destruct (leftmost _ _ _ _ _) as [[[D cy] y] t].
    apply reads_ld, IH. cbn [elems] in Hf. rewrite length_app in Hf. cbn [length] in Hf. lia.
Qed.

(** The last part of [rb_erase]. *)
Lemma erase_end_ok C t cy t' s :
  (if decide (cy = RB_BLACK) then del_fix C t else Some (plug C t)) = Some t' ->
  is_tree s (plug C t) -> exists s',
    (if negb (is_red cy) then __rb_erase_color (root_of t) (parent_of C) else mret tt) s = Ret (tt, s') /\
    is_tree s' t' /\ same_off (elems (plug C t)) s s'.
Proof. destruct cy; cbn; [intros [= <-]; apply becomes_ret|intros Hd; by apply erase_color_ref]. Qed.

Lemma same_off_weaken xs ys s s' : (forall p, p ∈ xs -> p ∈ ys) -> same_off xs s s' -> same_off ys s s'.
Proof. intros Hi H p Hp. apply H. auto. Qed.

Lemma erase_one_ref C c x l r t t' s :
  (l = E /\ r = t) \/ (l = t /\ r = E) ->
  (if decide (c = RB_BLACK) then del_fix C t else Some (plug C t)) = Some t' ->
  is_tree s (plug C (T c x l r)) -> exists s', rb_erase (Some x) s = Ret (tt, s') /\ is_tree s' t' /\
    same_off (elems (plug C (T c x l r))) s s'.
Proof.
  intros Hlr Hd Hs. destruct (unlink_ref C c x l r t Hlr s Hs) as (s1 & H1 & Hs1 & Ho1).
  destruct (erase_end_ok C t c t' s1 Hd Hs1) as (s2 & H2 & Hs2 & Ho2). exists s2.
  assert (Hx := tree_at _ _ _ _ _ _ Hs).
  split.
  - unfold rb_erase.
    do 2 (eapply bind_run; [by eapply ld_run|]). cbn [rb_left rb_right].
    eapply (bind_run _ _ _ s1 (root_of t, parent_of C, c)); [|exact H2].
    destruct Hlr as [[-> ->]|[-> ->]]; [|destruct t]; cbn [root_of].
    all: do 2 (eapply bind_run; [by eapply ld_run|]); cbn [rb_parent rb_color].
    all: eapply bind_run; [exact H1|done].
  - split; [done|]. rewrite elems_plug in Ho2 |- *.
    eapply same_off_trans; (eapply same_off_weaken; [|done]).
    all: intros p; rewrite !elem_of_app; cbn [elems]; rewrite elem_of_app, elem_of_cons.
    all: destruct Hlr as [[-> ->]|[-> ->]]; tauto.
Qed.

Lemma frame_ptr_in f D : frame_ptr f ∈ before (f :: D) \/ frame_ptr f ∈ after (f :: D).
Proof. destruct f; cbn [frame_ptr before after]; rewrite ?elem_of_app, ?elem_of_cons, ?elem_of_app; auto 6. Qed.

(** The successor [y] of a node [x] with two children, its path [D] from the
    right child of [x], and the tree without [y]. *)
Lemma successor_apart C c x l D cy y t :
  NoDup (elems (plug (D ++ FR c x l :: C) (T cy y E t))) ->
  y ∉ elems (plug C (T c x l (plug D t))) /\
  peq (parent_of (D ++ FR c x l :: C)) (Some x) = match D with [] => true | _ => false end /\
  y ∉ before (D ++ FR c x l :: C) ++ elems t ++ after (D ++ FR c x l :: C).
Proof.
  rewrite plug_app. intros Hn. cbn [plug fill_frame] in Hn.
  assert (Hx : x ∉ before D /\ x ∉ after D /\ y ∉ elems (plug C (T c x l (plug D t)))).
  { nodup_atoms Hn. rewrite !elems_plug. cbn [elems]. rewrite elems_plug, !not_elem_of_app, not_elem_of_cons, !not_elem_of_app.
    by split_and!. }
  destruct Hx as (Hb & Ha & Hy). split_and!; [done| |].
  - destruct D as [|f D]; [apply peq_refl|]. apply peq_ne. cbn [app parent_of]. intros [= <-].
    by destruct (frame_ptr_in f D).
  - by rewrite <-elems_plug, plug_app.
Qed.

Lemma erase_two_ref C c x cl xl ll rl cr xr lr rr t' s :
  let l := T cl xl ll rl in let r := T cr xr lr rr in
  erase C c x l r = Some t' ->
  is_tree s (plug C (T c x l r)) -> exists s', rb_erase (Some x) s = Ret (tt, s') /\ is_tree s' t' /\
    same_off (elems (plug C (T c x l r))) s s'.
Proof.
  intros l r. unfold erase, l at 1. cbn [r].
  pose proof (leftmost_plug [] cr xr lr rr) as Hp.
  pose proof (fun fuel => go_left_ok fuel (FR c x l :: C) cr xr lr rr) as Hgo.
  rewrite leftmost_app in Hgo.
  destruct (leftmost [] cr xr lr rr) as [[[D cy] y] t] eqn:El. cbn [plug] in Hp. fold r in Hp.
  intros Hd Hs.
  assert (Hs0 : is_tree s (plug (D ++ FR c x l :: C) (T cy y E t))) by by rewrite plug_app, Hp.
  destruct (unlink_ref (D ++ FR c x l :: C) cy y E t t (or_introl (conj eq_refl eq_refl)) s Hs0) as (s1 & H1 & Hs1 & Ho1).
  assert (Hy := tree_at _ _ _ _ _ _ Hs0). assert (Hx := tree_at _ _ _ _ _ _ Hs).
  destruct (successor_apart _ _ _ _ _ _ _ _ (tree_nodup _ _ Hs0)) as (Hyn & Hpeq & Hy1).
  assert (Hy2 : heap s1 !! y = heap s !! y) by by apply Ho1.
  rewrite Hy in Hy2.
  rewrite plug_app in Hs1.
  destruct (take_place_ref C c x y l (plug D t) _ ltac:(done) s1 Hs1 Hy2 Hyn) as (s2 & H2 & Hs2 & Ho2 & _).
  assert (Hs2' : is_tree s2 (plug (D ++ FR c y l :: C) t)) by by rewrite plug_app.
  destruct (erase_end_ok _ _ _ _ _ Hd Hs2') as (s3 & H3 & Hs3 & Ho3).
  exists s3. split; [|split; [done|]].
  - unfold rb_erase.
    do 2 (eapply bind_run; [by eapply ld_run|]). cbn [rb_left rb_right root_of l r].
    eapply (bind_run _ _ _ s2 (root_of t, parent_of (D ++ FR c y l :: C), cy)); [|exact H3].
    eapply bind_run. 
    { refine (reads_fuel _ _ (Some y) _ s Hs). intros fuel Hf. apply Hgo.
      pose proof (length_plug (FR c x l :: C) r) as Hlen. cbn [plug fill_frame elems r] in Hlen, Hf.
      rewrite !length_app in Hlen. lia. }
    do 3 (eapply bind_run; [by eapply ld_run|]). cbn [rb_parent rb_color rb_right].
    eapply bind_run; [exact H1|]. eapply bind_run; [by eapply ld_run|]. cbn [rb_parent]. rewrite Hpeq.
    eapply bind_run; [exact H2|]. by destruct D.
  - assert (Hin : forall p, p ∈ elems (plug C (T c x l r)) <->
      p ∈ before C \/ p ∈ elems l \/ p = x \/ p ∈ before D \/ p = y \/ p ∈ elems t \/ p ∈ after D \/ p ∈ after C).
    { intros p. rewrite <-Hp, elems_plug. cbn [elems]. rewrite elems_plug. cbn [elems app].
      rewrite !elem_of_app, !elem_of_cons, !elem_of_app, !elem_of_cons, !elem_of_app. tauto. }
    eapply same_off_trans; [|eapply same_off_trans]; (eapply same_off_weaken; [|eassumption]); intros p; rewrite Hin.
    all: rewrite ?elem_of_cons, ?elems_plug, ?before_app, ?after_app; cbn [elems before after app]; rewrite ?elems_plug.
    all: rewrite ?elem_of_app, ?elem_of_cons, ?elem_of_app, ?elem_of_cons, ?elem_of_app, ?elem_of_nil; tauto.
Qed.

(** [rb_erase] computes [erase]. *)
Lemma erase_ref C c x l r t' :
  erase C c x l r = Some t' -> becomes (plug C (T c x l r)) (rb_erase (Some x)) tt t'.
Proof.
  intros Hd s Hs. destruct l as [|cl xl ll rl], r as [|cr xr lr rr]; [..|by apply erase_two_ref].
  all: eapply erase_one_ref; [|exact Hd|exact Hs]; auto.
Qed.

(** ** Insertion *)

(** Where the code keeps the pointer to the focus. *)
Definition link_of (C : path) : link :=
  match C with
  | [] => Link_root
  | FL _ p _ :: _ => Link_left p
  | FR _ p _ :: _ => Link_right p
  end.

Lemma link_ref C x s :
  is_tree s (plug C E) -> is_Some (heap s !! x) -> x ∉ elems (plug C E) ->
  exists s', rb_link_node (Some x) (parent_of C) (link_of C) s = Ret (tt, s') /\
    is_tree s' (plug C (T RB_RED x E E)) /\ same_off (x :: elems (plug C E)) s s'.
Proof.
  intros [Hr Hs Hn] [nx Hx] Hin. apply repr_plug in Hs as [_ HC]. rewrite root_plug in Hr.
  assert (Hn1 : NoDup (elems (plug C (T RB_RED x E E)))).
  { revert Hn Hin. rewrite !elems_plug. in_order. rewrite <-Permutation_middle, NoDup_cons. done. }
  destruct C as [|[cg g u|cg g u] C]; split_repr; nodup_atoms Hn; nodup_atoms Hin.
  all: eexists; split; [unfold rb_link_node, link_of; exec|close_tree Hr Hn1].
Qed.

(** Linking a node at a leaf and rebalancing: the node is in its place, the
    other nodes keep theirs. *)
Lemma rb_insert_spec s C x :
  is_tree s (plug C E) -> red_black (plug C E) -> is_Some (heap s !! x) -> x ∉ elems (plug C E) ->
  exists s' t',
    (rb_link_node (Some x) (parent_of C) (link_of C);; rb_insert_color (Some x)) s = Ret (tt, s') /\
    is_tree s' t' /\ red_black t' /\ elems t' = before C ++ x :: after C /\
    same_off (x :: elems (plug C E)) s s'.
Proof.
  intros Hs Hrb Hx Hin. destruct (link_ref C x s Hs Hx Hin) as (s1 & H1 & Hs1 & Ho1).
  destruct (plug_inv C E Hrb) as (c & n & HC & HE). inversion HE; subst.
  destruct (insert_color_ref C c 0 x E E HC ltac:(constructor) ltac:(constructor) s1 Hs1) as (s2 & H2 & Hs2 & Ho2).
  destruct (insert_color_ok C x Hrb) as [Hrb' He].
  exists s2, (insert_color C (T RB_RED x E E)). split_and!; [by eapply bind_run|done..|].
  eapply same_off_trans; [done|]. eapply same_off_weaken; [|done]. intros p.
  rewrite elem_of_cons, !elems_plug. cbn [elems app]. rewrite !elem_of_app, elem_of_cons. tauto.
Qed.

(** ** Removal *)

Lemma rb_erase_spec s t xs x ys :
  is_tree s t -> red_black t -> elems t = xs ++ x :: ys ->
  exists s' t', rb_erase (Some x) s = Ret (tt, s') /\ is_tree s' t' /\ red_black t' /\
    elems t' = xs ++ ys /\ same_off (elems t) s s'.
Proof.
  intros Hs Hrb He. destruct (focus t xs x ys He) as (C & c & l & r & -> & <- & <-).
  destruct (erase_ok C c x l r Hrb) as (t' & Ht' & Hrb' & He').
  destruct (erase_ref C c x l r t' Ht' s Hs) as (s' & H & Hs' & Ho).
  exists s', t'. split_and!; [done..| |done]. rewrite He'. by rewrite <-!app_assoc.
Qed.

(** ** Walking *)

Lemma head_app {A} (l k : list A) : head (l ++ k) = match l with [] => head k | x :: _ => Some x end.
Proof. by destruct l. Qed.

Lemma leftmost_head C c x l r :
  let '(_, _, y, _) := leftmost C c x l r in head (elems (T c x l r)) = Some y.
Proof.
  revert C c x r. induction l as [|c' x' l' IH r' _]; intros C c x r; cbn [leftmost]; [done|].
  specialize (IH (FL c x r :: C) c' x' r'). destruct (leftmost _ _ _ _ _) as [[[D cy] y] t].
  cbn [elems] in *. rewrite head_app. destruct (elems l' ++ x' :: elems r'); [done|exact IH].
Qed.

(** Down to the first node of the focus. *)
Lemma go_left_first C c x l r :
  reads (plug C (T c x l r)) (with_fuel (fun fuel => go_left fuel (Some x))) (head (elems (T c x l r))).
Proof.
  apply reads_fuel. intros fuel Hf. pose proof (go_left_ok fuel C c x l r) as Hgo.
  pose proof (leftmost_head C c x l r) as Hh. destruct (leftmost C c x l r) as [[[D cy] y] t].
  rewrite Hh. apply Hgo. pose proof (length_plug C (T c x l r)) as Hl. cbn [elems] in Hl. rewrite length_app in Hl. lia.
Qed.

Lemma go_right_last fuel C c x l r :
  (length (elems r) < fuel)%nat -> reads (plug C (T c x l r)) (go_right fuel (Some x)) (last (elems (T c x l r))).
Proof.
  revert fuel C c x l. induction r as [|c' x' l' _ r' IH]; intros [|fuel] C c x l Hf; try lia; cbn [go_right].
  - cbn [elems]. rewrite last_snoc. apply reads_ld, reads_ret.
  - replace (last (elems (T c x l (T c' x' l' r')))) with (last (elems (T c' x' l' r'))).
    + apply reads_ld, (IH fuel (FR c x l :: C)). cbn [elems] in Hf. rewrite length_app in Hf. cbn [length] in Hf. lia.
    + cbn [elems]. rewrite !last_app, !last_cons, last_app, last_cons. by destruct (last (elems r')).
Qed.

(** Up to the first ancestor whose other side we come from. *)
Lemma climb_right fuel C t x c l r :
  t = T c x l r -> NoDup (elems (plug C t)) -> (length C < fuel)%nat ->
  reads (plug C t) (climb rb_right fuel (Some x)) (head (after C)).
Proof.
  revert C t x c l r. induction fuel as [|fuel IH]; intros C t x c l r -> Hn Hf; [lia|]. cbn [climb].
  apply reads_ld. cbn [rb_parent]. destruct C as [|[cp p u|cp p u] C]; cbn [parent_of frame_ptr after].
  - apply reads_ret.
  - apply (reads_ld _ _ C). cbn [rb_right]. rewrite peq_ne; [apply reads_ret|].
    apply root_of_ne. nodup_atoms Hn. done.
  - apply (reads_ld _ _ C). cbn [rb_right root_of]. rewrite peq_refl.
    apply (IH C (T cp p u (T c x l r)) p cp u (T c x l r)); [done|done|]. cbn [length] in Hf. lia.
Qed.

Lemma climb_left fuel C t x c l r :
  t = T c x l r -> NoDup (elems (plug C t)) -> (length C < fuel)%nat ->
  reads (plug C t) (climb rb_left fuel (Some x)) (last (before C)).
Proof.
  revert C t x c l r. induction fuel as [|fuel IH]; intros C t x c l r -> Hn Hf; [lia|]. cbn [climb].
  apply reads_ld. cbn [rb_parent]. destruct C as [|[cp p u|cp p u] C]; cbn [parent_of frame_ptr before].
  - apply reads_ret.
  - apply (reads_ld _ _ C). cbn [rb_left root_of]. rewrite peq_refl.
    apply (IH C (T cp p (T c x l r) u) p cp (T c x l r) u); [done|done|]. cbn [length] in Hf. lia.
  - apply (reads_ld _ _ C). cbn [rb_left]. rewrite peq_ne.
    + rewrite !last_app. apply reads_ret.
    + apply root_of_ne. nodup_atoms Hn. done.
Qed.

Lemma rb_first_spec s t : is_tree s t -> rb_first s = Ret (head (elems t), s).
Proof.
  intros Hs. unfold rb_first, get_root. eapply bind_run; [reflexivity|]. rewrite (tree_root _ _ Hs).
  destruct t as [|c x l r]; [done|]. by apply (go_left_first []).
Qed.

Lemma rb_last_spec s t : is_tree s t -> rb_last s = Ret (last (elems t), s).
Proof.
  intros Hs. unfold rb_last, get_root. eapply bind_run; [reflexivity|]. rewrite (tree_root _ _ Hs).
  destruct t as [|c x l r]; [done|]. refine (reads_fuel _ _ _ _ s Hs). intros fuel Hf.
  apply (go_right_last fuel []). cbn [elems] in Hf. rewrite length_app in Hf. cbn [length] in Hf. lia.
Qed.

Lemma rb_next_spec s t xs x ys :
  is_tree s t -> elems t = xs ++ x :: ys -> rb_next (Some x) s = Ret (head ys, s).
Proof.
  intros Hs He. destruct (focus t xs x ys He) as (C & c & l & r & -> & _ & <-).
  pose proof (tree_nodup _ _ Hs) as Hn.
  unfold rb_next. refine (reads_ld _ _ C c x l r _ _ s Hs). cbn [rb_right].
  destruct r as [|cr xr lr rr]; cbn [root_of].
  - apply reads_fuel. intros fuel Hf. pose proof (length_plug C (T c x l E)).
    eapply climb_right; [done|done|]. lia.
  - rewrite head_app. pose proof (go_left_first (FR c x l :: C) cr xr lr rr) as Hgo.
    destruct (elems (T cr xr lr rr)) as [|y ys] eqn:E; [|exact Hgo].
    cbn [elems] in E. by destruct (elems lr).
Qed.

Lemma rb_prev_spec s t xs x ys :
  is_tree s t -> elems t = xs ++ x :: ys -> rb_prev (Some x) s = Ret (last xs, s).
Proof.
  intros Hs He. destruct (focus t xs x ys He) as (C & c & l & r & -> & <- & _).
  pose proof (tree_nodup _ _ Hs) as Hn.
  unfold rb_prev. refine (reads_ld _ _ C c x l r _ _ s Hs). cbn [rb_left].
  destruct l as [|cl xl ll rl]; cbn [root_of].
  - rewrite app_nil_r. apply reads_fuel. intros fuel Hf. pose proof (length_plug C (T c x E r)).
    eapply climb_left; [done|done|]. lia.
  - rewrite last_app. apply reads_fuel. intros fuel Hf.
    pose proof (go_right_last fuel (FL c x r :: C) cl xl ll rl) as Hgo.
    pose proof (length_plug C (T c x (T cl xl ll rl) r)) as Hl. cbn [elems] in Hl.
    repeat (rewrite !length_app in Hl; cbn [length] in Hl).
    destruct (last (elems (T cl xl ll rl))) eqn:E; [apply Hgo; lia|].
    apply last_None in E. cbn [elems] in E. by destruct (elems ll).
Qed.

(** ** Theorems *)

(** C12 ([rb_link_node] and [rb_insert_color]): when a node that is not in
    the tree is linked at a leaf of a red-black tree and the tree is then
    rebalanced, the code follows no null or dangling pointer and comes to an
    end; the heap then holds a red-black tree, in order, with the node at
    the place of that leaf and all others where they were; no other node of
    the heap has changed. *)
Theorem rb_insert_correct s C x :
  is_tree s (plug C E) -> red_black (plug C E) -> is_Some (heap s !! x) -> x ∉ elems (plug C E) ->
  exists s' t',
    (rb_link_node (Some x) (parent_of C) (link_of C);; rb_insert_color (Some x)) s = Ret (tt, s') /\
    is_tree s' t' /\ red_black t' /\ elems t' = before C ++ x :: after C /\
    same_off (x :: elems (plug C E)) s s'.
Proof. apply rb_insert_spec. Qed.

(** C13 ([rb_erase]): removing any node of a red-black tree comes to an end
    without following a null pointer; the heap then holds a red-black tree
    with the other nodes in the same order, and nothing outside the tree has
    changed. *)
Theorem rb_erase_correct s t xs x ys :
  is_tree s t -> red_black t -> elems t = xs ++ x :: ys ->
  exists s' t', rb_erase (Some x) s = Ret (tt, s') /\ is_tree s' t' /\ red_black t' /\
    elems t' = xs ++ ys /\ same_off (elems t) s s'.
Proof. apply rb_erase_spec. Qed.

(** ([rb_first], [rb_last], [rb_next], [rb_prev]): they return the ends
    of the in-order sequence of the tree, and the node after and before a
    given one, null at the ends; they change nothing. *)
Theorem rb_walk_correct s t :
  is_tree s t ->
  rb_first s = Ret (head (elems t), s) /\ rb_last s = Ret (last (elems t), s) /\
  forall xs x ys, elems t = xs ++ x :: ys ->
    rb_next (Some x) s = Ret (head ys, s) /\ rb_prev (Some x) s = Ret (last xs, s).
Proof.
  intros Hs. split; [by apply rb_first_spec|]. split; [by apply rb_last_spec|].
  intros xs x ys He. split; [by eapply rb_next_spec|by eapply rb_prev_spec].
Qed.

(** ([rb_replace_node]): the new node takes the place of the victim in
    the order, the tree stays a red-black tree, and no node outside the tree
    other than the new one changes. *)
Theorem rb_replace_node_correct s t xs x ys y :
  is_tree s t -> red_black t -> elems t = xs ++ x :: ys -> is_Some (heap s !! y) -> y ∉ elems t ->
  exists s' t', rb_replace_node (Some x) (Some y) s = Ret (tt, s') /\ is_tree s' t' /\ red_black t' /\
    elems t' = xs ++ y :: ys /\ same_off (y :: elems t) s s'.
Proof.
  intros Hs Hrb He [ny Hy] Hin. destruct (focus t xs x ys He) as (C & c & l & r & -> & <- & <-).
  destruct (replace_ref C c x y l r ny s Hs Hy Hin) as (s' & H & Hs' & Ho).
  exists s', (plug C (T c y l r)). split_and!; [done|done| | |done].
  - destruct (plug_inv _ _ Hrb) as (c0 & n & HC & Ht). eapply plug_red_black; [exact HC|].
    inversion Ht; subst; constructor; done.
  - rewrite elems_plug. by in_order.
Qed.

(** ([rb_insert_color], [rb_next]): the rebalancing loop that follows an
    insertion, and the climb of [rb_next], end after at most
    [2 log2 (n + 1) + 1] rounds in a tree of [n] nodes. *)
Theorem rb_rounds s C x fuel :
  is_tree s (plug C (T RB_RED x E E)) -> red_black (plug C E) ->
  (2 * Nat.log2 (length (elems (plug C (T RB_RED x E E)))) < fuel)%nat ->
  (exists s', rb_insert_color_loop fuel (Some x) s = Ret (tt, s')) /\
  climb rb_right fuel (Some x) s = Ret (head (after C), s).
Proof.
  intros Hs Hrb Hf. destruct (plug_inv C E Hrb) as (c & n & HC & HE). inversion HE; subst.
  assert (Hl : (length C < fuel)%nat).
  { pose proof (height_plug C E). pose proof (height_log _ Hrb) as Hh.
    replace (length (elems (plug C (T RB_RED x E E)))) with (S (length (elems (plug C E)))) in Hf; [cbn [height] in *; lia|].
    rewrite !elems_plug. cbn [elems app]. rewrite !length_app. cbn [length]. lia. }
  split.
  - destruct (insert_loop_ok fuel C c 0 x E E Hl HC ltac:(constructor) ltac:(constructor) s Hs) as (s' & H & _). by exists s'.
  - by apply (climb_right fuel C (T RB_RED x E E) x RB_RED E E eq_refl (tree_nodup _ _ Hs) Hl).
Qed.

(** ** Examples *)

Definition leaf_node (q : option ptr) (c : color) : node := Node q c None None.
Definition sample : store :=
  Store (list_to_map [(1%nat, leaf_node (Some 2%nat) RB_RED); (2%nat, Node None RB_BLACK (Some 3%nat) (Some 1%nat));
                      (3%nat, leaf_node (Some 2%nat) RB_RED); (4%nat, leaf_node None RB_BLACK)]) (Some 2%nat).
Definition sample_tree : tree := T RB_BLACK 2 (T RB_RED 1 E E) (T RB_RED 3 E E).
Definition sample_path : path := [FR RB_RED 3 E; FR RB_BLACK 2 (T RB_RED 1 E E)].

Lemma sample_is_tree : is_tree sample sample_tree.
Proof. split; [done|by vm_compute|apply (bool_decide_unpack _); by vm_compute]. Qed.
Lemma sample_red_black : red_black sample_tree.
Proof. exists 1%nat. repeat constructor. Qed.

Lemma rb_insert_correct_witness :
  exists s' t',
    (rb_link_node (Some 4%nat) (Some 3%nat) (Link_right 3);; rb_insert_color (Some 4%nat)) sample = Ret (tt, s') /\
    is_tree s' t' /\ red_black t' /\ elems t' = [1; 2; 3; 4]%nat.
Proof.
  destruct (rb_insert_correct sample sample_path 4 sample_is_tree sample_red_black) as (s' & t' & H & Ht & Hrb & He & _).
  - by eexists.
  - apply (bool_decide_unpack _). by vm_compute.
  - exists s', t'. auto.
Defined.

Lemma rb_erase_correct_witness :
  exists s' t', rb_erase (Some 2%nat) sample = Ret (tt, s') /\ is_tree s' t' /\ red_black t' /\ elems t' = [1; 3]%nat.
Proof.
  destruct (rb_erase_correct sample sample_tree [1%nat] 2 [3%nat] sample_is_tree sample_red_black eq_refl)
    as (s' & t' & H & Ht & Hrb & He & _).
  exists s', t'. auto.
Defined.

Lemma rb_walk_correct_witness :
  rb_first sample = Ret (Some 1%nat, sample) /\ rb_next (Some 2%nat) sample = Ret (Some 3%nat, sample).
Proof.
  destruct (rb_walk_correct sample sample_tree sample_is_tree) as (H & _ & Hn). split; [exact H|].
  apply (Hn [1%nat] 2%nat [3%nat] eq_refl).
Defined.

Lemma rb_replace_node_correct_witness :
  exists s' t', rb_replace_node (Some 2%nat) (Some 4%nat) sample = Ret (tt, s') /\ is_tree s' t' /\
    red_black t' /\ elems t' = [1; 4; 3]%nat.
Proof.
  destruct (rb_replace_node_correct sample sample_tree [1%nat] 2 [3%nat] 4 sample_is_tree sample_red_black eq_refl)
    as (s' & t' & H & Ht & Hrb & He & _).
  - by eexists.
  - apply (bool_decide_unpack _). by vm_compute.
  - exists s', t'. auto.
Defined.

(** [sample] with node 4 linked below node 3. *)
Definition sample_linked : store :=
  Store (list_to_map [(1%nat, leaf_node (Some 2%nat) RB_RED); (2%nat, Node None RB_BLACK (Some 3%nat) (Some 1%nat));
                      (3%nat, Node (Some 2%nat) RB_RED (Some 4%nat) None); (4%nat, leaf_node (Some 3%nat) RB_RED)]) (Some 2%nat).

Lemma rb_rounds_witness :
  (exists s', rb_insert_color_loop 5 (Some 4%nat) sample_linked = Ret (tt, s')) /\
  climb rb_right 5 (Some 4%nat) sample_linked = Ret (None, sample_linked).
Proof.
  apply (rb_rounds sample_linked sample_path 4 5).
  - split; [done|by vm_compute|apply (bool_decide_unpack _); by vm_compute].
  - exact sample_red_black.
  - vm_compute. lia.
Defined.

(** The code runs: nine insertions in ascending order, by address. *)
Fixpoint insert_all (xs : list ptr) : M unit :=
  match xs with
  | [] => mret tt
  | x :: xs =>
      l ← rb_last;
      rb_link_node (Some x) l (match l with None => Link_root | Some p => Link_right p end);;
      rb_insert_color (Some x);;
      insert_all xs
  end.
Example insert_nine :
  match insert_all (seq 1 9) (Store (list_to_map ((fun x => (x, leaf_node None RB_RED)) <$> seq 1 9)) None) with
  | Ret (_, s) => (rb_node s, rb_left <$> heap s !! 4%nat, rb_right <$> heap s !! 4%nat) = (Some 4, Some (Some 2), Some (Some 6))%nat
  | Err _ => False
  end.
Proof. by vm_compute. Qed.
