(* ===== verification/ListHead.v ===== *)
(** * The kernel's linked lists (include/linux/list.h)

    A [struct list_head] is a ring of nodes with [next] and [prev] pointers;
    a list is such a ring through a head that carries no data.  The heap has
    one map per field.  [rings] ties a heap to the sequences its lists hold;
    each routine is shown to be its operation on sequences. *)

From stdpp Require Import gmap.
From S2P Require Import Prelude.

Section list_head.
Context {A : Type} `{Countable A}.

(** The fields of all [list_head]s, by address. *)
Record heads := Heads { nxt : gmap A A; prv : gmap A A }.

Definition next (h : heads) (a : A) : outcome A := match nxt h !! a with Some b => Ret b | None => Err Fault end.
Definition prev (h : heads) (a : A) : outcome A := match prv h !! a with Some b => Ret b | None => Err Fault end.
Definition set_next (h : heads) (a b : A) : outcome heads :=
  match nxt h !! a with Some _ => Ret (Heads (<[a := b]> (nxt h)) (prv h)) | None => Err Fault end.
Definition set_prev (h : heads) (a b : A) : outcome heads :=
  match prv h !! a with Some _ => Ret (Heads (nxt h) (<[a := b]> (prv h))) | None => Err Fault end.

(** ** The routines *)

Definition INIT_LIST_HEAD (h : heads) (list : A) : outcome heads :=
  let! h := set_next h list list in
  set_prev h list list.

Definition __list_add (h : heads) (new prev next : A) : outcome heads :=
  let! h := set_prev h next new in
  let! h := set_next h new next in
  let! h := set_prev h new prev in
  set_next h prev new.

Definition list_add (h : heads) (new head : A) : outcome heads :=
  let! n := next h head in __list_add h new head n.

Definition list_add_tail (h : heads) (new head : A) : outcome heads :=
  let! p := prev h head in __list_add h new p head.

Definition __list_del (h : heads) (prev next : A) : outcome heads :=
  let! h := set_prev h next prev in
  set_next h prev next.

(** [LIST_POISON1] and [LIST_POISON2] are addresses where nothing is. *)
Definition list_del (LIST_POISON1 LIST_POISON2 : A) (h : heads) (entry : A) : outcome heads :=
  let! p := prev h entry in
  let! n := next h entry in
  let! h := __list_del h p n in
  let! h := set_next h entry LIST_POISON1 in
  set_prev h entry LIST_POISON2.

Definition list_del_init (h : heads) (entry : A) : outcome heads :=
  let! p := prev h entry in
  let! n := next h entry in
  let! h := __list_del h p n in
  INIT_LIST_HEAD h entry.

Definition list_move (h : heads) (list head : A) : outcome heads :=
  let! p := prev h list in
  let! n := next h list in
  let! h := __list_del h p n in
  list_add h list head.

Definition list_move_tail (h : heads) (list head : A) : outcome heads :=
  let! p := prev h list in
  let! n := next h list in
  let! h := __list_del h p n in
  list_add_tail h list head.

Definition list_empty (h : heads) (head : A) : outcome bool :=
  let! n := next h head in Ret (bool_decide (n = head)).

Definition list_empty_careful (h : heads) (head : A) : outcome bool :=
  let! n := next h head in
  let! p := prev h head in
  Ret (bool_decide (n = head) && bool_decide (n = p)).

Definition __list_splice (h : heads) (list head : A) : outcome heads :=
  let! first := next h list in
  let! last := prev h list in
  let! at_ := next h head in
  let! h := set_prev h first head in
  let! h := set_next h head first in
  let! h := set_next h last at_ in
  set_prev h at_ last.

Definition list_splice (h : heads) (list head : A) : outcome heads :=
  let! e := list_empty h list in
  if (e : bool) then Ret h else __list_splice h list head.

Definition list_splice_init (h : heads) (list head : A) : outcome heads :=
  let! e := list_empty h list in
  if (e : bool) then Ret h
  else
    let! h := __list_splice h list head in
    INIT_LIST_HEAD h list.

(** ** Rings *)

Definition link (h : heads) (a b : A) : Prop := nxt h !! a = Some b /\ prv h !! b = Some a.

(** Each node of the path is linked to the one after it. *)
Fixpoint linked (h : heads) (l : list A) : Prop :=
  match l with
  | a :: (b :: _) as l' => link h a b /\ linked h l'
  | _ => True
  end.

Definition joint (h : heads) (o o' : option A) : Prop :=
  match o, o' with Some p, Some n => link h p n | _, _ => True end.

Lemma linked_cons h a l : linked h (a :: l) <-> joint h (Some a) (hd_error l) /\ linked h l.
Proof. destruct l; simpl; tauto. Qed.

Lemma linked_app h l k : linked h (l ++ k) <-> linked h l /\ joint h (last l) (hd_error k) /\ linked h k.
Proof.
  induction l as [|a l IH]; [simpl; tauto|]. rewrite <-app_comm_cons, !linked_cons, IH.
  destruct l as [|b l]; simpl; tauto.
Qed.

(** Only the [next] fields of all but the last node and the [prev] fields of
    all but the first matter. *)
Lemma linked_agree h h' a l :
  (forall x, x ∈ removelast (a :: l) -> nxt h' !! x = nxt h !! x) ->
  (forall x, x ∈ l -> prv h' !! x = prv h !! x) -> linked h (a :: l) -> linked h' (a :: l).
Proof.
  revert a. induction l as [|b l IH]; intros a Hn Hp; [done|]. cbn [linked]. intros [[H1 H2] Hl].
  split; [split; [rewrite Hn; [done|apply elem_of_cons; auto]|rewrite Hp; [done|apply elem_of_cons; auto]]|].
  apply IH; [..|done]; intros x Hx; [apply Hn|apply Hp]; apply elem_of_cons; auto.
Qed.

(** The list at head [a] holds [xs]. *)
Definition ring (h : heads) (a : A) (xs : list A) : Prop := linked h (a :: xs ++ [a]).

(** The heap holds the lists [m], and no node is in two of them. *)
Record rings (h : heads) (m : gmap A (list A)) : Prop := {
  rings_ring a xs : m !! a = Some xs -> ring h a xs;
  rings_nodup a xs : m !! a = Some xs -> NoDup (a :: xs);
  rings_disj a b xs ys x : m !! a = Some xs -> m !! b = Some ys -> x ∈ a :: xs -> x ∈ b :: ys -> a = b }.

(** [x] is a node, but in none of the lists. *)
Definition allocated (h : heads) (x : A) : Prop := is_Some (nxt h !! x) /\ is_Some (prv h !! x).
Definition apart (m : gmap A (list A)) (x : A) : Prop := forall a xs, m !! a = Some xs -> x ∉ a :: xs.

(** Only the nodes [L] have changed. *)
Record frame (L : list A) (h h' : heads) : Prop := {
  frame_off x : x ∉ L -> nxt h' !! x = nxt h !! x /\ prv h' !! x = prv h !! x;
  frame_alloc x : allocated h x -> allocated h' x }.

Lemma frame_refl L h : frame L h h.
Proof. split; [done|done]. Qed.

Lemma frame_trans L h1 h2 h3 : frame L h1 h2 -> frame L h2 h3 -> frame L h1 h3.
Proof.
  intros [O1 A1] [O2 A2]. split; [|auto]. intros x Hx. destruct (O1 x Hx), (O2 x Hx). split; congruence.
Qed.

Lemma frame_weaken L L' h h' : (forall x, x ∈ L -> x ∈ L') -> frame L h h' -> frame L' h h'.
Proof. intros HL [O A1]. split; [|done]. intros x Hx. apply O. auto. Qed.

Lemma ring_frame L h h' a xs : (forall x, x ∈ L -> x ∉ a :: xs) -> frame L h h' -> ring h a xs -> ring h' a xs.
Proof.
  intros HL [HO _]. assert (Hi : forall x, x ∈ a :: xs ++ [a] -> x ∉ L).
  { intros x Hx Hin. apply (HL x Hin). revert Hx. rewrite !elem_of_cons, elem_of_app, list_elem_of_singleton. tauto. }
  apply linked_agree; intros x Hx; apply HO, Hi; [|apply elem_of_cons; auto].
  change (a :: xs ++ [a]) with ((a :: xs) ++ [a]) in Hx. rewrite removelast_last in Hx.
  change (a :: xs ++ [a]) with ((a :: xs) ++ [a]). apply elem_of_app. auto.
Qed.

(** One list changes, by nodes of its own and by free ones. *)
Lemma rings_update L h h' m a zs zs' :
  rings h m -> m !! a = Some zs -> frame L h h' -> (forall x, x ∈ L -> x ∈ a :: zs \/ apart m x) ->
  ring h' a zs' -> NoDup (a :: zs') -> (forall x, x ∈ zs' -> x ∈ zs \/ apart m x) ->
  rings h' (<[a := zs']> m).
Proof.
  intros [HR HN HD] Ha HF HL Hring Hnd Hz.
  assert (Hz' : forall x, x ∈ a :: zs' -> x ∈ a :: zs \/ apart m x).
  { intros x. rewrite !elem_of_cons. intros [->|Hx]; [auto|]. destruct (Hz x Hx); auto. }
  split.
  - intros b ys. destruct (decide (a = b)) as [<-|Hab]; [rewrite lookup_insert_eq; by intros [= <-]|].
    rewrite lookup_insert_ne by done. intros Hb. eapply ring_frame; [|exact HF|by apply HR].
    intros x Hx Hin. destruct (HL x Hx) as [Hx'|Hx']; [by apply Hab, (HD a b zs ys x)|by apply (Hx' b ys)].
  - intros b ys. destruct (decide (a = b)) as [<-|Hab]; [rewrite lookup_insert_eq; by intros [= <-]|].
    rewrite lookup_insert_ne by done. apply HN.
  - assert (Hx : forall b ys x, a <> b -> m !! b = Some ys -> x ∈ a :: zs' -> x ∈ b :: ys -> False).
    { intros b ys x Hab Hb Hx Hy. destruct (Hz' x Hx) as [Hx'|Hx']; [by apply Hab, (HD a b zs ys x)|by apply (Hx' b ys)]. }
    intros b c xs ys x. destruct (decide (a = b)) as [<-|Hab], (decide (a = c)) as [<-|Hac]; try done.
    + rewrite lookup_insert_eq, lookup_insert_ne by done. intros [= <-] Hc Hxa Hxc. by destruct (Hx c ys x).
    + rewrite lookup_insert_ne, lookup_insert_eq by done. intros Hb [= <-] Hxb Hxa. by destruct (Hx b xs x).
    + rewrite !lookup_insert_ne by done. apply HD.
Qed.

(** A ring cut open between [p] and [n]. *)
Record cut (h : heads) (a : A) (xs ys : list A) (p n : A) : Prop := {
  cut_left : linked h (a :: xs);
  cut_right : linked h (ys ++ [a]);
  cut_p : last (a :: xs) = Some p;
  cut_n : hd_error (ys ++ [a]) = Some n;
  cut_nodup : NoDup (a :: xs ++ ys) }.

Lemma cut_in h a xs ys p n : cut h a xs ys p n -> p ∈ a :: xs ++ ys /\ n ∈ a :: xs ++ ys.
Proof.
  intros [_ _ Hp Hn _]. split.
  - apply last_Some in Hp as [l Hl]. change (a :: xs ++ ys) with ((a :: xs) ++ ys). rewrite Hl.
    rewrite !elem_of_app, list_elem_of_singleton. auto.
  - destruct ys as [|y ys]; injection Hn as <-; rewrite elem_of_cons, ?elem_of_app, ?elem_of_cons; auto.
Qed.

(** Changes at [p] and [n], and at nodes outside, leave the two halves. *)
Lemma cut_agree h h' a xs ys p n :
  (forall x, x ∈ a :: xs ++ ys -> x <> p -> nxt h' !! x = nxt h !! x) ->
  (forall x, x ∈ a :: xs ++ ys -> x <> n -> prv h' !! x = prv h !! x) ->
  cut h a xs ys p n -> cut h' a xs ys p n.
Proof.
  intros Hx Hy [Hl Hr Hp Hn Hnd]. split; try done.
  - apply last_Some in Hp as [l Hl']. assert (Hnd1 : NoDup (l ++ [p])).
    { rewrite <-Hl'. by apply (NoDup_app (a :: xs) ys). }
    assert (Hnx : n ∉ xs).
    { apply NoDup_cons in Hnd as [Ha Hnd]. rewrite not_elem_of_app in Ha. apply NoDup_app in Hnd as (_ & Hd & _).
      destruct ys as [|y ys]; injection Hn as <-; [tauto|]. intros Hin. by apply (Hd y Hin), elem_of_cons; left. }
    revert Hl. apply linked_agree; intros x Hin.
    + rewrite Hl', removelast_last in Hin. apply Hx.
      * change (a :: xs ++ ys) with ((a :: xs) ++ ys). rewrite Hl', !elem_of_app. auto.
      * intros ->. apply NoDup_app in Hnd1 as (_ & Hd & _). apply (Hd p Hin). by apply elem_of_cons; left.
    + apply Hy; [rewrite elem_of_cons, elem_of_app; auto|]. by intros ->.
  - assert (Hp' : p ∈ a :: xs) by (apply last_Some in Hp as [l ->]; apply elem_of_app; right; by apply elem_of_cons; left).
    assert (Hnd2 : NoDup (ys ++ [a])).
    { revert Hnd. change (a :: xs ++ ys) with ((a :: xs) ++ ys). rewrite NoDup_app. intros (_ & Hd & Hys).
      rewrite (Permutation_app_comm ys [a]). apply NoDup_cons. split; [|done]. apply Hd. by apply elem_of_cons; left. }
    change (a :: xs ++ ys) with ((a :: xs) ++ ys) in Hnd. apply NoDup_app in Hnd as (_ & Hd & _).
    destruct (ys ++ [a]) as [|n' k] eqn:E; [done|]. injection Hn as ->.
    assert (Hk : forall x, x ∈ n :: k -> x ∈ a :: xs ++ ys).
    { intros x. rewrite <-E, elem_of_app, list_elem_of_singleton, elem_of_cons, elem_of_app. tauto. }
    revert Hr. apply linked_agree; intros x Hin.
    + rewrite <-E, removelast_last in Hin. apply Hx; [rewrite elem_of_cons, elem_of_app; auto|].
      intros ->. by apply (Hd p).
    + apply Hy; [apply Hk, elem_of_cons; auto|]. intros ->. by apply NoDup_cons in Hnd2 as [].
Qed.

Lemma ring_cut h m a xs ys :
  rings h m -> m !! a = Some (xs ++ ys) -> exists p n, cut h a xs ys p n /\ link h p n.
Proof.
  intros Hr Ha. pose proof (rings_ring h m Hr a _ Ha) as H1. pose proof (rings_nodup h m Hr a _ Ha) as H2.
  unfold ring in H1. rewrite <-app_assoc in H1. change (a :: xs ++ ys ++ [a]) with ((a :: xs) ++ (ys ++ [a])) in H1.
  apply linked_app in H1 as (Hl & Hj & Hk).
  destruct (last (a :: xs)) as [p|] eqn:Ep; [|by apply last_None in Ep].
  destruct (hd_error (ys ++ [a])) as [n|] eqn:En; [|by destruct ys].
  exists p, n. split; [by split|exact Hj].
Qed.

Lemma cut_join h a xs ys p n : cut h a xs ys p n -> link h p n -> ring h a (xs ++ ys).
Proof.
  intros [Hl Hr Hp Hn Hnd] Hj. unfold ring. rewrite <-app_assoc.
  change (a :: xs ++ ys ++ [a]) with ((a :: xs) ++ (ys ++ [a])).
  apply linked_app. split_and!; [done| |done]. by rewrite Hp, Hn.
Qed.

Lemma cut_insert h a xs ys p n x :
  cut h a xs ys p n -> link h p x -> link h x n -> ring h a (xs ++ x :: ys).
Proof.
  intros [Hl Hr Hp Hn Hnd] Hj1 Hj2. unfold ring. rewrite <-app_assoc.
  change (a :: xs ++ (x :: ys) ++ [a]) with ((a :: xs) ++ (x :: (ys ++ [a]))).
  apply linked_app. split_and!; [done|by rewrite Hp|]. apply linked_cons. rewrite Hn. done.
Qed.

(** ** Reads and writes *)

Lemma set_next_ok h a b : is_Some (nxt h !! a) -> set_next h a b = Ret (Heads (<[a := b]> (nxt h)) (prv h)).
Proof. intros [x Hx]. unfold set_next. by rewrite Hx. Qed.
Lemma set_prev_ok h a b : is_Some (prv h !! a) -> set_prev h a b = Ret (Heads (nxt h) (<[a := b]> (prv h))).
Proof. intros [x Hx]. unfold set_prev. by rewrite Hx. Qed.

Lemma lookup_insert_some {B} (f : gmap A B) a b (v : B) : is_Some (f !! b) -> is_Some (<[a := v]> f !! b).
Proof. destruct (decide (a = b)) as [<-|Hab]; [rewrite lookup_insert_eq; eauto|by rewrite lookup_insert_ne]. Qed.

(** ** The routines on sequences *)

(** A free node [new] is put between [p] and [n]. *)
Lemma __list_add_ok h m a xs ys p n new :
  rings h m -> m !! a = Some (xs ++ ys) -> cut h a xs ys p n -> link h p n -> allocated h new -> apart m new ->
  exists h', __list_add h new p n = Ret h' /\ rings h' (<[a := xs ++ new :: ys]> m) /\ frame (new :: a :: xs ++ ys) h h'.
Proof.
  intros Hr Ha Hc [Hpn Hnp] [Hnn Hnv] Hap.
  destruct (cut_in _ _ _ _ _ _ Hc) as [Hp Hn].
  assert (Hne : new ∉ a :: xs ++ ys) by by apply Hap.
  assert (Hp' : new <> p) by by intros ->. assert (Hn' : new <> n) by by intros ->.
  unfold __list_add.
  rewrite set_prev_ok by eauto. rewrite set_next_ok by done. rewrite set_prev_ok by (cbn; by apply lookup_insert_some).
  cbn [nxt prv]. rewrite set_next_ok by (cbn; apply lookup_insert_some; eauto). cbn [nxt prv].
  eexists. split; [reflexivity|].
  match goal with |- rings ?h' _ /\ _ => assert (HF : frame (new :: a :: xs ++ ys) h h') end.
  { split.
    - intros x Hx. apply not_elem_of_cons in Hx as [H1 H2]. cbn [nxt prv].
      rewrite !lookup_insert_ne by congruence. done.
    - intros x [H1 H2]. split; cbn [nxt prv]; by do 2 apply lookup_insert_some. }
  split; [|exact HF]. eapply rings_update; [exact Hr|exact Ha|exact HF|..].
  - intros x. rewrite elem_of_cons. intros [->|Hx]; auto.
  - eapply (cut_insert _ a xs ys p n new).
    + eapply cut_agree; [| |exact Hc]; intros x Hx Hne'; cbn [nxt prv]; rewrite !lookup_insert_ne by congruence; done.
    + split; cbn [nxt prv]; by rewrite lookup_insert_eq.
    + split; cbn [nxt prv]; rewrite lookup_insert_ne by done; by rewrite lookup_insert_eq.
  - change (a :: xs ++ new :: ys) with ((a :: xs) ++ new :: ys). rewrite <-Permutation_middle. apply NoDup_cons.
    split; [done|apply Hc].
  - intros x. rewrite !elem_of_app, elem_of_cons. intros [Hx|[->|Hx]]; auto.
Qed.

(** The node [x] between [p] and [n] is taken out; its own fields stay. *)
Lemma __list_del_ok h m a xs x ys :
  rings h m -> m !! a = Some (xs ++ x :: ys) ->
  exists p n h', prev h x = Ret p /\ next h x = Ret n /\ __list_del h p n = Ret h' /\
    rings h' (<[a := xs ++ ys]> m) /\ frame (a :: xs ++ ys) h h'.
Proof.
  intros Hr Ha. pose proof (rings_ring h m Hr a _ Ha) as H1. pose proof (rings_nodup h m Hr a _ Ha) as H2.
  unfold ring in H1. rewrite <-app_assoc in H1.
  change (a :: xs ++ (x :: ys) ++ [a]) with ((a :: xs) ++ (x :: (ys ++ [a]))) in H1.
  apply linked_app in H1 as (Hl & Hj & Hk). apply linked_cons in Hk as [Hk Hr'].
  destruct (last (a :: xs)) as [p|] eqn:Ep; [|by apply last_None in Ep].
  destruct (hd_error (ys ++ [a])) as [n|] eqn:En; [|by destruct ys].
  cbn [hd_error joint] in Hj, Hk. destruct Hj as [Hpx Hxp], Hk as [Hxn Hnx].
  change (a :: xs ++ x :: ys) with ((a :: xs) ++ x :: ys) in H2.
  rewrite <-Permutation_middle in H2. apply NoDup_cons in H2 as [Hxin H2].
  assert (Hc : cut h a xs ys p n) by by split.
  exists p, n. unfold prev, next, __list_del. rewrite Hxp, Hxn.
  rewrite set_prev_ok by eauto. rewrite set_next_ok by (cbn; eauto). cbn [nxt prv].
  destruct (cut_in _ _ _ _ _ _ Hc) as [Hp Hn].
  eexists. do 3 (split; [reflexivity|]).
  match goal with |- rings ?h' _ /\ _ => assert (HF : frame (a :: xs ++ ys) h h') end.
  { split.
    - intros z Hz. cbn [nxt prv]. rewrite !lookup_insert_ne by congruence. done.
    - intros z [Hz1 Hz2]. split; cbn [nxt prv]; by apply lookup_insert_some. }
  split; [|exact HF]. eapply rings_update; [exact Hr|exact Ha|exact HF|..].
  - intros z. rewrite !elem_of_cons, !elem_of_app, elem_of_cons. tauto.
  - eapply (cut_join _ a xs ys p n).
    + eapply cut_agree; [| |exact Hc]; intros z Hz Hne'; cbn [nxt prv]; rewrite !lookup_insert_ne by congruence; done.
    + split; cbn [nxt prv]; by rewrite lookup_insert_eq.
  - done.
  - intros z. rewrite !elem_of_app, elem_of_cons. tauto.
Qed.

Lemma rings_delete h m a : rings h m -> rings h (delete a m).
Proof.
  intros [HR HN HD]. split.
  - intros b xs [_ Hb]%lookup_delete_Some. by apply HR.
  - intros b xs [_ Hb]%lookup_delete_Some. by apply HN in Hb.
  - intros b c xs ys x [_ Hb]%lookup_delete_Some [_ Hc]%lookup_delete_Some. by apply HD.
Qed.

Lemma rings_apart h m a xs x : rings h m -> m !! a = Some xs -> x ∈ a :: xs -> apart (delete a m) x.
Proof. intros Hr Ha Hx b ys [Hab Hb]%lookup_delete_Some Hin. by apply Hab, (rings_disj h m Hr a b xs ys x). Qed.

(** A node made a list head of its own. *)
Lemma INIT_LIST_HEAD_ok h m a :
  rings h m -> allocated h a -> apart m a ->
  exists h', INIT_LIST_HEAD h a = Ret h' /\ rings h' (<[a := []]> m) /\ frame [a] h h'.
Proof.
  intros Hr [Hn Hp] Hap. unfold INIT_LIST_HEAD. rewrite set_next_ok by done. rewrite set_prev_ok by done. cbn [nxt prv].
  eexists. split; [reflexivity|].
  match goal with |- rings ?h' _ /\ _ => assert (HF : frame [a] h h') end.
  { split.
    - intros z Hz. cbn [nxt prv]. rewrite list_elem_of_singleton in Hz. by rewrite !lookup_insert_ne by congruence.
    - intros z [Hz1 Hz2]. split; cbn [nxt prv]; by apply lookup_insert_some. }
  split; [|exact HF].
  assert (Hm : m !! a = None).
  { destruct (m !! a) as [xs|] eqn:E; [|done]. destruct (Hap a xs E). by apply elem_of_cons; left. }
  destruct Hr as [HR HN HD]. split.
  - intros b ys. destruct (decide (a = b)) as [<-|Hab].
    + rewrite lookup_insert_eq. intros [= <-]. split; [|done]. split; cbn [nxt prv]; by rewrite lookup_insert_eq.
    + rewrite lookup_insert_ne by done. intros Hb. eapply ring_frame; [|exact HF|by apply HR].
      intros x ->%list_elem_of_singleton. by apply Hap.
  - intros b ys. destruct (decide (a = b)) as [<-|Hab]; [rewrite lookup_insert_eq; intros [= <-]; apply NoDup_singleton|].
    rewrite lookup_insert_ne by done. by apply HN.
  - intros b c xs ys x. destruct (decide (a = b)) as [<-|Hab], (decide (a = c)) as [<-|Hac]; try done.
    + rewrite lookup_insert_eq, lookup_insert_ne by done. intros [= <-] Hc ->%list_elem_of_singleton Hin. by destruct (Hap c ys).
    + rewrite lookup_insert_ne, lookup_insert_eq by done. intros Hb [= <-] Hin ->%list_elem_of_singleton. by destruct (Hap b xs).
    + rewrite !lookup_insert_ne by done. apply HD.
Qed.

Lemma list_add_ok h m a xs new :
  rings h m -> m !! a = Some xs -> allocated h new -> apart m new ->
  exists h', list_add h new a = Ret h' /\ rings h' (<[a := new :: xs]> m) /\ frame (new :: a :: xs) h h'.
Proof.
  intros Hr Ha Hal Hap. destruct (ring_cut h m a [] xs Hr Ha) as (p & n & Hc & Hl).
  pose proof (cut_p _ _ _ _ _ _ Hc) as Hp. injection Hp as ->.
  unfold list_add, next. destruct Hl as [Hl1 Hl2]. rewrite Hl1.
  by apply (__list_add_ok h m p [] xs p n new).
Qed.

Lemma list_add_tail_ok h m a xs new :
  rings h m -> m !! a = Some xs -> allocated h new -> apart m new ->
  exists h', list_add_tail h new a = Ret h' /\ rings h' (<[a := xs ++ [new]]> m) /\ frame (new :: a :: xs) h h'.
Proof.
  intros Hr Ha Hal Hap. rewrite <-(app_nil_r xs) in Ha.
  destruct (ring_cut h m a xs [] Hr Ha) as (p & n & Hc & Hl).
  pose proof (cut_n _ _ _ _ _ _ Hc) as Hn. injection Hn as ->.
  unfold list_add_tail, prev. destruct Hl as [Hl1 Hl2]. rewrite Hl2.
  destruct (__list_add_ok h m n xs [] p n new) as (h' & H1 & H2 & H3); try done.
  exists h'. by rewrite app_nil_r in H3.
Qed.

Lemma list_empty_ok h m a xs :
  rings h m -> m !! a = Some xs -> list_empty h a = Ret (match xs with [] => true | _ => false end).
Proof.
  intros Hr Ha. destruct (ring_cut h m a [] xs Hr Ha) as (p & n & Hc & Hl).
  pose proof (cut_p _ _ _ _ _ _ Hc) as Hp. injection Hp as ->. pose proof (cut_n _ _ _ _ _ _ Hc) as Hn.
  unfold list_empty, next. destruct Hl as [Hl1 Hl2]. rewrite Hl1. f_equal.
  destruct xs as [|y xs]; injection Hn as ->; [by apply bool_decide_eq_true|]. apply bool_decide_eq_false. intros ->.
  pose proof (cut_nodup _ _ _ _ _ _ Hc) as Hnd. apply NoDup_cons in Hnd as [Hnd _]. apply Hnd. by apply elem_of_cons; left.
Qed.

(** [list_empty_careful] reads both fields, of a list no one else changes. *)
Lemma list_empty_careful_ok h m a xs :
  rings h m -> m !! a = Some xs -> list_empty_careful h a = list_empty h a.
Proof.
  intros Hr Ha. rewrite (list_empty_ok h m a xs Hr Ha).
  destruct (ring_cut h m a [] xs Hr Ha) as (p & n & Hc & [Hl1 Hl2]).
  pose proof (cut_p _ _ _ _ _ _ Hc) as Hp. injection Hp as ->. pose proof (cut_n _ _ _ _ _ _ Hc) as Hn.
  unfold list_empty_careful, next, prev. rewrite Hl1. destruct xs as [|y xs]; injection Hn as ->.
  - rewrite Hl2. by rewrite !bool_decide_eq_true_2.
  - pose proof (rings_nodup h m Hr p _ Ha) as [Hni _]%NoDup_cons.
    rewrite bool_decide_eq_false_2 by (intros ->; apply Hni; by left).
    rewrite <-(app_nil_r (n :: xs)) in Ha. destruct (ring_cut h m p (n :: xs) [] Hr Ha) as (q & z & Hc' & [_ Hq]).
    pose proof (cut_n _ _ _ _ _ _ Hc') as E. injection E as <-. by rewrite Hq.
Qed.

(** A node that was taken out is free. *)
Lemma removed_apart h m a xs x ys :
  rings h m -> m !! a = Some (xs ++ x :: ys) -> apart (<[a := xs ++ ys]> m) x.
Proof.
  intros Hr Ha b zs. pose proof (rings_nodup h m Hr a _ Ha) as Hn.
  change (a :: xs ++ x :: ys) with ((a :: xs) ++ x :: ys) in Hn. rewrite <-Permutation_middle in Hn.
  apply NoDup_cons in Hn as [Hn _].
  destruct (decide (a = b)) as [<-|Hab]; [rewrite lookup_insert_eq; by intros [= <-]|].
  rewrite lookup_insert_ne by done. intros Hb Hin. apply Hab, (rings_disj h m Hr a b _ _ x Ha Hb); [|done].
  rewrite elem_of_cons, elem_of_app, elem_of_cons. auto.
Qed.

Lemma in_ring_allocated h m a xs x ys : rings h m -> m !! a = Some (xs ++ x :: ys) -> allocated h x.
Proof.
  intros Hr Ha. destruct (__list_del_ok h m a xs x ys Hr Ha) as (p & n & _ & Hp & Hn & _).
  unfold prev, next in *. split; [destruct (nxt h !! x)|destruct (prv h !! x)]; eauto; done.
Qed.

Lemma list_del_ok P1 P2 h m a xs x ys :
  rings h m -> m !! a = Some (xs ++ x :: ys) ->
  exists h', list_del P1 P2 h x = Ret h' /\ rings h' (<[a := xs ++ ys]> m) /\ frame (x :: a :: xs ++ ys) h h' /\
    nxt h' !! x = Some P1 /\ prv h' !! x = Some P2.
Proof.
  intros Hr Ha. destruct (__list_del_ok h m a xs x ys Hr Ha) as (p & n & h1 & Hp & Hn & H1 & Hr1 & HF1).
  destruct (frame_alloc _ _ _ HF1 x (in_ring_allocated _ _ _ _ _ _ Hr Ha)) as [Hx1 Hx2].
  unfold list_del. rewrite Hp, Hn, H1. rewrite set_next_ok by done. rewrite set_prev_ok by done. cbn [nxt prv].
  eexists. split; [reflexivity|]. pose proof (removed_apart _ _ _ _ _ _ Hr Ha) as Hap.
  match goal with |- rings ?h' _ /\ _ => assert (HF : frame [x] h1 h') end.
  { split.
    - intros z Hz. cbn [nxt prv]. rewrite list_elem_of_singleton in Hz. by rewrite !lookup_insert_ne by congruence.
    - intros z [Hz1 Hz2]. split; cbn [nxt prv]; by apply lookup_insert_some. }
  split_and!.
  - destruct Hr1 as [HR HN HD]. split; [|done|done]. intros b zs Hb. eapply ring_frame; [|exact HF|by apply HR].
    intros z ->%list_elem_of_singleton. by apply Hap.
  - eapply frame_trans; (eapply frame_weaken; [|eassumption]); intros z; rewrite !elem_of_cons, ?elem_of_nil; tauto.
  - cbn [nxt]. by rewrite lookup_insert_eq.
  - cbn [prv]. by rewrite lookup_insert_eq.
Qed.

Lemma list_del_init_ok h m a xs x ys :
  rings h m -> m !! a = Some (xs ++ x :: ys) ->
  exists h', list_del_init h x = Ret h' /\ rings h' (<[x := []]> (<[a := xs ++ ys]> m)).
Proof.
  intros Hr Ha. destruct (__list_del_ok h m a xs x ys Hr Ha) as (p & n & h1 & Hp & Hn & H1 & Hr1 & HF1).
  unfold list_del_init. rewrite Hp, Hn, H1.
  destruct (INIT_LIST_HEAD_ok h1 _ x Hr1) as (h2 & H2 & Hr2 & _).
  - apply (frame_alloc _ _ _ HF1). by eapply in_ring_allocated.
  - by eapply removed_apart.
  - eauto.
Qed.

(** [x] leaves its list for the head or the tail of another, or of its own. *)
Lemma list_move_ok h m a xs x ys b zs :
  rings h m -> m !! a = Some (xs ++ x :: ys) -> <[a := xs ++ ys]> m !! b = Some zs ->
  (exists h', list_move h x b = Ret h' /\ rings h' (<[b := x :: zs]> (<[a := xs ++ ys]> m))) /\
  (exists h', list_move_tail h x b = Ret h' /\ rings h' (<[b := zs ++ [x]]> (<[a := xs ++ ys]> m))).
Proof.
  intros Hr Ha Hb. destruct (__list_del_ok h m a xs x ys Hr Ha) as (p & n & h1 & Hp & Hn & H1 & Hr1 & HF1).
  assert (Hal : allocated h1 x) by (apply (frame_alloc _ _ _ HF1); by eapply in_ring_allocated).
  pose proof (removed_apart _ _ _ _ _ _ Hr Ha) as Hap.
  unfold list_move, list_move_tail. rewrite Hp, Hn, H1. split.
  - destruct (list_add_ok h1 _ b zs x Hr1 Hb Hal Hap) as (h2 & ? & ? & _). eauto.
  - destruct (list_add_tail_ok h1 _ b zs x Hr1 Hb Hal Hap) as (h2 & ? & ? & _). eauto.
Qed.

(** The nodes [y :: xs] of the list [b] go in front of those of [a]. *)
Lemma __list_splice_ok h m b y xs a ys :
  rings h m -> m !! b = Some (y :: xs) -> m !! a = Some ys -> a <> b ->
  exists h', __list_splice h b a = Ret h' /\ rings h' (<[a := y :: xs ++ ys]> (delete b m)) /\
    frame (a :: y :: xs ++ ys) h h'.
Proof.
  intros Hr Hb Ha Hab.
  pose proof (ring_cut h m b [] (y :: xs) Hr Hb) as (b' & y' & Hc1 & [Hby Hyb]).
  pose proof (cut_p _ _ _ _ _ _ Hc1) as E; injection E as <-. pose proof (cut_n _ _ _ _ _ _ Hc1) as E; injection E as <-.
  assert (Hb' := Hb). rewrite <-(app_nil_r (y :: xs)) in Hb'.
  pose proof (ring_cut h m b (y :: xs) [] Hr Hb') as (l & b' & Hc2 & [Hlb Hbl]).
  pose proof (cut_n _ _ _ _ _ _ Hc2) as E; injection E as <-.
  pose proof (cut_p _ _ _ _ _ _ Hc2) as Hlast. cbn [last] in Hlast.
  pose proof (cut_left _ _ _ _ _ _ Hc2) as Hlink. apply linked_cons in Hlink as [_ Hlink].
  pose proof (ring_cut h m a [] ys Hr Ha) as (a' & n & Hc3 & [Han Hna]).
  pose proof (cut_p _ _ _ _ _ _ Hc3) as E; injection E as <-.
  assert (HD : forall z, z ∈ a :: ys -> z ∈ y :: xs -> False).
  { intros z H1 H2. apply Hab, (rings_disj h m Hr a b ys (y :: xs) z Ha Hb H1). by apply elem_of_cons; right. }
  assert (Hnin : n ∈ a :: ys) by apply (cut_in _ _ _ _ _ _ Hc3).
  assert (Hain : a ∈ a :: ys) by by apply elem_of_cons; left.
  assert (Hyin : y ∈ y :: xs) by by apply elem_of_cons; left.
  assert (Hlin : l ∈ y :: xs) by (apply last_Some in Hlast as [k ->]; apply elem_of_app; right; by apply elem_of_cons; left).
  assert (Hla : l <> a) by (intros ->; by apply (HD a)). assert (Hny : n <> y) by (intros ->; by apply (HD y)).
  assert (Hnd : NoDup (y :: xs)) by by apply (NoDup_cons_1_2 b), (rings_nodup h m Hr b).
  unfold __list_splice, next, prev. rewrite Hby, Hbl, Han. rewrite set_prev_ok by eauto. rewrite set_next_ok by (cbn; eauto).
  cbn [nxt prv]. rewrite set_next_ok by (cbn; apply lookup_insert_some; eauto). cbn [nxt prv].
  rewrite set_prev_ok by (cbn; apply lookup_insert_some; eauto). cbn [nxt prv].
  eexists. split; [reflexivity|].
  match goal with |- rings ?h' _ /\ _ => assert (HF : frame (a :: y :: xs ++ ys) h h') end.
  { split.
    - intros z Hz. cbn [nxt prv].
      assert (z <> a /\ z <> y /\ z <> l /\ z <> n) as (? & ? & ? & ?)
        by (split_and!; intros ->; apply Hz; revert Hnin Hlin; rewrite !elem_of_cons, elem_of_app; tauto).
      by rewrite !lookup_insert_ne by congruence.
    - intros z [Hz1 Hz2]. split; cbn [nxt prv]; by do 2 apply lookup_insert_some. }
  assert (Hma : delete b m !! a = Some ys) by by rewrite lookup_delete_ne.
  split; [|exact HF]. eapply rings_update; [by apply rings_delete|exact Hma|exact HF|..].
  - intros z Hz. destruct (decide (z ∈ y :: xs)) as [Hin|Hin].
    + right. eapply rings_apart; [exact Hr|exact Hb|by apply elem_of_cons; right].
    + left. revert Hz Hin. rewrite !elem_of_cons, elem_of_app. tauto.
  - unfold ring. change (a :: (y :: xs ++ ys) ++ [a]) with ([a] ++ ((y :: xs) ++ ys) ++ [a]). rewrite <-(app_assoc (y :: xs)).
    rewrite (linked_app _ [a]), (linked_app _ (y :: xs)). pose proof (cut_n _ _ _ _ _ _ Hc3) as Hnh.
    split; [done|split; [|split; [|split]]].
    + split; cbn [nxt prv]; [rewrite lookup_insert_ne by done|rewrite lookup_insert_ne by done]; by rewrite lookup_insert_eq.
    + revert Hlink. apply linked_agree; intros z Hz; cbn [nxt prv].
      * assert (z <> l) by (intros ->; apply last_Some in Hlast as [k Hk]; rewrite Hk, removelast_last in Hz;
          rewrite Hk in Hnd; apply NoDup_app in Hnd as (_ & Hd & _); apply (Hd l Hz); by apply elem_of_cons; left).
        assert (z <> a) by (intros ->; apply (HD a Hain); apply last_Some in Hlast as [k Hk]; rewrite Hk in *;
          rewrite removelast_last in Hz; apply elem_of_app; auto).
        by rewrite !lookup_insert_ne by congruence.
      * assert (z <> y) by (intros ->; by apply NoDup_cons in Hnd as []).
        assert (z <> n) by (intros ->; apply (HD n Hnin); by apply elem_of_cons; right).
        by rewrite !lookup_insert_ne by congruence.
    + rewrite Hlast, Hnh. split; cbn [nxt prv]; by rewrite lookup_insert_eq.
    + eapply cut_right, cut_agree; [| |exact Hc3]; intros z Hz Hne; cbn [nxt prv app] in *.
      * rewrite !lookup_insert_ne; [done|congruence|intros ->; by apply (HD z)].
      * rewrite !lookup_insert_ne; [done|intros ->; by apply (HD z)|congruence].
  - change (a :: y :: xs ++ ys) with ([a] ++ (y :: xs) ++ ys).
    pose proof (rings_nodup h m Hr a ys Ha) as Hna'. apply NoDup_cons in Hna' as [Ha1 Ha2].
    rewrite !NoDup_app. split_and!; [apply NoDup_singleton| |done| |done].
    + intros z ->%list_elem_of_singleton. rewrite elem_of_app. intros [Hz|Hz]; [by apply (HD a)|done].
    + intros z Hz1 Hz2. apply (HD z); [by apply elem_of_cons; right|done].
  - intros z. rewrite app_comm_cons, elem_of_app. intros [Hz|Hz]; [|auto]. right.
    eapply rings_apart; [exact Hr|exact Hb|by apply elem_of_cons; right].
Qed.

Lemma list_splice_init_ok h m b xs a ys :
  rings h m -> m !! b = Some xs -> m !! a = Some ys -> a <> b ->
  exists h', list_splice_init h b a = Ret h' /\ rings h' (<[b := []]> (<[a := xs ++ ys]> m)) /\
    frame (b :: a :: xs ++ ys) h h'.
Proof.
  intros Hr Hb Ha Hab. unfold list_splice_init. rewrite (list_empty_ok h m b xs Hr Hb).
  destruct xs as [|y xs].
  { exists h. split; [done|]. split; [|apply frame_refl]. cbn [app].
    rewrite (insert_id m a ys Ha), (insert_id m b [] Hb). done. }
  destruct (__list_splice_ok h m b y xs a ys Hr Hb Ha Hab) as (h1 & H1 & Hr1 & HF1). rewrite H1.
  destruct (INIT_LIST_HEAD_ok h1 _ b Hr1) as (h2 & H2 & Hr2 & HF2).
  - apply (frame_alloc _ _ _ HF1). destruct (ring_cut h m b [] (y :: xs) Hr Hb) as (p & n & Hc & [? ?]).
    pose proof (cut_p _ _ _ _ _ _ Hc) as E; injection E as <-.
    destruct (ring_cut h m b (y :: xs) [] Hr) as (p' & n' & Hc' & [? ?]); [by rewrite app_nil_r|].
    pose proof (cut_n _ _ _ _ _ _ Hc') as E; injection E as <-. split; eauto.
  - intros c zs. destruct (decide (a = c)) as [<-|Hac].
    + rewrite lookup_insert_eq. intros [= <-]. rewrite elem_of_cons, app_comm_cons, elem_of_app.
      pose proof (rings_nodup h m Hr b _ Hb) as Hn. apply NoDup_cons in Hn as [Hn _].
      intros [->|[?|Hin]]; [done|done|]. apply Hab, (rings_disj h m Hr a b ys (y :: xs) b Ha Hb); apply elem_of_cons; auto.
    + rewrite lookup_insert_ne by done. intros [Hbc Hc]%lookup_delete_Some Hin.
      apply Hbc, (rings_disj h m Hr b c (y :: xs) zs b Hb Hc); [by apply elem_of_cons; left|done].
  - exists h2. rewrite H2. split; [done|]. split.
    + rewrite insert_insert_ne in Hr2 by done. rewrite insert_delete_eq in Hr2. by rewrite insert_insert_ne.
    + eapply frame_trans; (eapply frame_weaken; [|eassumption]); intros z; rewrite ?elem_of_cons, ?elem_of_app, ?elem_of_cons, ?elem_of_app, ?elem_of_nil; tauto.
Qed.

(** [list_splice] leaves the fields of the head [b] as they are. *)
Lemma list_splice_ok h m b xs a ys :
  rings h m -> m !! b = Some xs -> m !! a = Some ys -> a <> b ->
  exists h', list_splice h b a = Ret h' /\ rings h' (<[a := xs ++ ys]> (delete b m)).
Proof.
  intros Hr Hb Ha Hab. unfold list_splice. rewrite (list_empty_ok h m b xs Hr Hb). destruct xs as [|y xs].
  - exists h. split; [done|]. rewrite insert_id by by rewrite lookup_delete_ne. by apply rings_delete.
  - destruct (__list_splice_ok h m b y xs a ys Hr Hb Ha Hab) as (h1 & H1 & Hr1 & _). eauto.
Qed.

(** C26 (the routines are operations on sequences): on a heap whose lists hold
    the sequences [m], every routine of list.h ends without a stray access and
    leaves lists with the sequences it should: [list_add] puts a free node in
    front, [list_add_tail] behind; [list_del] and [list_del_init] take a node
    out of any position, [list_move] and [list_move_tail] bring it to an end
    of its own or another list; the splices put all nodes of a list in front
    of another's.  [list_empty] says whether the sequence is empty.  No other
    list changes. *)
Theorem list_h_correct h m a xs :
  rings h m -> m !! a = Some xs ->
  (list_empty h a = Ret (match xs with [] => true | _ => false end) /\ list_empty_careful h a = list_empty h a) /\
  (forall new, allocated h new -> apart m new ->
     (exists h', list_add h new a = Ret h' /\ rings h' (<[a := new :: xs]> m)) /\
     (exists h', list_add_tail h new a = Ret h' /\ rings h' (<[a := xs ++ [new]]> m))) /\
  (forall ys x zs, xs = ys ++ x :: zs ->
     (forall P1 P2, exists h', list_del P1 P2 h x = Ret h' /\ rings h' (<[a := ys ++ zs]> m)) /\
     (exists h', list_del_init h x = Ret h' /\ rings h' (<[x := []]> (<[a := ys ++ zs]> m))) /\
     (forall b ws, <[a := ys ++ zs]> m !! b = Some ws ->
        (exists h', list_move h x b = Ret h' /\ rings h' (<[b := x :: ws]> (<[a := ys ++ zs]> m))) /\
        (exists h', list_move_tail h x b = Ret h' /\ rings h' (<[b := ws ++ [x]]> (<[a := ys ++ zs]> m))))) /\
  (forall b ys, m !! b = Some ys -> a <> b ->
     (exists h', list_splice h b a = Ret h' /\ rings h' (<[a := ys ++ xs]> (delete b m))) /\
     (exists h', list_splice_init h b a = Ret h' /\ rings h' (<[b := []]> (<[a := ys ++ xs]> m)))).
Proof.
  intros Hr Ha. split; [|split; [|split]].
  - split; [by apply (list_empty_ok h m)|by apply (list_empty_careful_ok h m a xs)].
  - intros new Hal Hap. destruct (list_add_ok h m a xs new Hr Ha Hal Hap) as (h1 & ? & ? & _).
    destruct (list_add_tail_ok h m a xs new Hr Ha Hal Hap) as (h2 & ? & ? & _). split; eauto.
  - intros ys x zs ->. split; [|split; [by apply list_del_init_ok|intros b ws; by apply list_move_ok]].
    intros P1 P2. destruct (list_del_ok P1 P2 h m a ys x zs Hr Ha) as (h1 & ? & ? & _). eauto.
  - intros b ys Hb Hab. split; [by apply list_splice_ok|].
    destruct (list_splice_init_ok h m b ys a xs Hr Hb Ha Hab) as (h1 & ? & ? & _). by exists h1.
Qed.
End list_head.
Arguments heads A {_ _}.

(** The list [1; 2] at head 0, the empty list at head 4, and a free node 3. *)
Definition demo_lists : heads nat :=
  Heads (list_to_map [(0, 1); (1, 2); (2, 0); (3, 3); (4, 4)]%nat) (list_to_map [(0, 2); (1, 0); (2, 1); (3, 3); (4, 4)]%nat).
Definition demo_sequences : gmap nat (list nat) := (<[0 := [1; 2]]> {[4 := []]})%nat.

Lemma demo_sequences_at a xs :
  demo_sequences !! a = Some xs -> (a = 0 /\ xs = [1; 2])%nat \/ (a = 4 /\ xs = [])%nat.
Proof.
  unfold demo_sequences. rewrite lookup_insert_Some, lookup_singleton_Some. intros [[<- <-]|(_ & <- & <-)]; auto.
Qed.

Lemma demo_lists_rings : rings demo_lists demo_sequences.
Proof.
  split.
  - intros a xs [[-> ->]|[-> ->]]%demo_sequences_at; repeat split.
  - intros a xs [[-> ->]|[-> ->]]%demo_sequences_at; by apply (bool_decide_unpack _).
  - intros a b xs ys x [[-> ->]|[-> ->]]%demo_sequences_at [[-> ->]|[-> ->]]%demo_sequences_at;
      rewrite !elem_of_cons, !elem_of_nil; intros; lia.
Qed.

Lemma list_h_correct_witness :
  rings demo_lists demo_sequences /\
  (exists h', list_add_tail demo_lists 3%nat 0%nat = Ret h' /\ rings h' (<[0%nat := [1; 2; 3]%nat]> demo_sequences)) /\
  exists h', list_move demo_lists 2%nat 4%nat = Ret h' /\
    rings h' (<[4%nat := [2%nat]]> (<[0%nat := [1%nat]]> demo_sequences)).
Proof.
  pose proof demo_lists_rings as Hr.
  destruct (list_h_correct demo_lists _ 0%nat [1; 2]%nat Hr eq_refl) as (_ & Hadd & Hrest & _).
  split; [done|]. split.
  - apply Hadd; [split; by eexists|]. intros a xs [[-> ->]|[-> ->]]%demo_sequences_at; by apply (bool_decide_unpack _).
  - destruct (Hrest [1]%nat 2%nat [] eq_refl) as (_ & _ & Hmv). by apply (Hmv 4%nat []).
Defined.
