(* ===== verification/Timer.v ===== *)
(** * Kernel timers (kernel/timer.c, include/linux/timer.h)

    The timer wheel of one processor: five levels of list heads, the pending
    timers in their lists by expiry, and the routines that add, remove,
    cascade and run them, on the list heap of [ListHead].  The processor is
    a single one and locks are no-ops, as the boards of this firmware are
    configured (no CONFIG_SMP, CONFIG_BASE_SMALL=0).

    A timer's function is code outside of the wheel.  What it does to the
    wheel is a list of calls of [mod_timer] and [del_timer], which may depend
    on all that was run before. *)

From stdpp Require Import gmap.
From S2P Require Import Prelude ListHead.

(** ** Addresses *)

(** The list heads of [base->tvN.vec], the local [work_list] of
    [__run_timers], and the [entry] of each timer. *)
Inductive addr :=
| NULL
| LIST_POISON2
| vec (tv : nat) (i : Z)
| work_list
| entry (t : nat).

#[export] Instance addr_eq_dec : EqDecision addr.
Proof. solve_decision. Defined.
#[export] Instance addr_countable : Countable addr.
Proof.
  refine (inj_countable'
    (fun a => match a with NULL => (0, 0)%nat | LIST_POISON2 => (1, 0)%nat | work_list => (2, 0)%nat
              | entry t => (3, t)%nat | vec tv i => (4 + tv, encode_nat i)%nat end)
    (fun p => match p.1 with O => NULL | S O => LIST_POISON2 | S (S O) => work_list | S (S (S O)) => entry p.2
              | S (S (S (S tv))) => vec tv (default 0%Z (decode_nat p.2)) end) _).
  intros [| |tv i| |t]; try done. cbn. by rewrite decode_encode_nat.
Defined.

(** ** State *)

(** [struct timer_list], without its [entry]. *)
Record timer_list := Timer { expires : Z; function : Z; data : Z }.

(** What has been run: the timer, and the tick. *)
Record event := Ran { ran : nat; at_tick : Z }.

Record tvec_base := Base {
  lists : heads addr;
  timers : gmap nat timer_list;
  timer_jiffies : Z;
  jiffies : Z;
  log : list event }.

Definition set_lists (s : tvec_base) (h : heads addr) : tvec_base :=
  Base h (timers s) (timer_jiffies s) (jiffies s) (log s).
Definition set_timers (s : tvec_base) (ts : gmap nat timer_list) : tvec_base :=
  Base (lists s) ts (timer_jiffies s) (jiffies s) (log s).
Definition set_timer_jiffies (s : tvec_base) (j : Z) : tvec_base :=
  Base (lists s) (timers s) j (jiffies s) (log s).
Definition set_log (s : tvec_base) (l : list event) : tvec_base :=
  Base (lists s) (timers s) (timer_jiffies s) (jiffies s) l.

Definition timer (s : tvec_base) (t : nat) : outcome timer_list :=
  match timers s !! t with Some tm => Ret tm | None => Err Fault end.

Definition TVN_BITS : Z := 6.
Definition TVR_BITS : Z := 8.
Definition TVN_SIZE : Z := Z.shiftl 1 TVN_BITS.
Definition TVR_SIZE : Z := Z.shiftl 1 TVR_BITS.
Definition TVN_MASK : Z := TVN_SIZE - 1.
Definition TVR_MASK : Z := TVR_SIZE - 1.

(** ** Adding and removing *)

(** The list head [internal_add_timer] chooses. *)
Definition timer_vec (timer_jiffies expires : Z) : addr :=
  let idx := u32 (expires - timer_jiffies) in
  if idx <? TVR_SIZE then vec 1 (Z.land expires TVR_MASK)
  else if idx <? Z.shiftl 1 (TVR_BITS + TVN_BITS) then
    vec 2 (Z.land (Z.shiftr expires TVR_BITS) TVN_MASK)
  else if idx <? Z.shiftl 1 (TVR_BITS + 2 * TVN_BITS) then
    vec 3 (Z.land (Z.shiftr expires (TVR_BITS + TVN_BITS)) TVN_MASK)
  else if idx <? Z.shiftl 1 (TVR_BITS + 3 * TVN_BITS) then
    vec 4 (Z.land (Z.shiftr expires (TVR_BITS + 2 * TVN_BITS)) TVN_MASK)
  else if s32 idx <? 0 then vec 1 (Z.land timer_jiffies TVR_MASK)
  else
    let expires := if 0xffffffff <? idx then u32 (0xffffffff + timer_jiffies) else expires in
    vec 5 (Z.land (Z.shiftr expires (TVR_BITS + 3 * TVN_BITS)) TVN_MASK).

Definition internal_add_timer (s : tvec_base) (t : nat) : outcome tvec_base :=
  let! tm := timer s t in
  let! h := list_add_tail (lists s) (entry t) (timer_vec (timer_jiffies s) (expires tm)) in
  Ret (set_lists s h).

Definition init_timer (s : tvec_base) (t : nat) : outcome tvec_base :=
  let! h := set_next (lists s) (entry t) NULL in
  Ret (set_lists s h).

Definition timer_pending (s : tvec_base) (t : nat) : outcome bool :=
  let! n := next (lists s) (entry t) in Ret (negb (bool_decide (n = NULL))).

Definition detach_timer (s : tvec_base) (t : nat) (clear_pending : bool) : outcome tvec_base :=
  let! p := prev (lists s) (entry t) in
  let! n := next (lists s) (entry t) in
  let! h := __list_del (lists s) p n in
  let! h := if clear_pending then set_next h (entry t) NULL else Ret h in
  let! h := set_prev h (entry t) LIST_POISON2 in
  Ret (set_lists s h).

Definition set_expires (s : tvec_base) (t : nat) (e : Z) : outcome tvec_base :=
  let! tm := timer s t in
  Ret (set_timers s (<[t := Timer e (function tm) (data tm)]> (timers s))).

Definition __mod_timer (s : tvec_base) (t : nat) (e : Z) : outcome (Z * tvec_base) :=
  let! tm := timer s t in
  if function tm =? 0 then Err Bug
  else
    let! pending := timer_pending s t in
    let! (ret, s) := (if (pending : bool) then let! s := detach_timer s t false in Ret (1, s) else Ret (0, s)) in
    let! s := set_expires s t e in
    let! s := internal_add_timer s t in
    Ret (ret, s).

Definition mod_timer (s : tvec_base) (t : nat) (e : Z) : outcome (Z * tvec_base) :=
  let! tm := timer s t in
  if function tm =? 0 then Err Bug
  else
    let! pending := (if expires tm =? e then timer_pending s t else Ret false) in
    if (pending : bool) then Ret (1, s) else __mod_timer s t e.

Definition add_timer (s : tvec_base) (t : nat) : outcome tvec_base :=
  let! pending := timer_pending s t in
  if (pending : bool) then Err Bug
  else
    let! tm := timer s t in
    let! (_, s) := __mod_timer s t (expires tm) in
    Ret s.

Definition del_timer (s : tvec_base) (t : nat) : outcome (Z * tvec_base) :=
  let! pending := timer_pending s t in
  if (pending : bool) then let! s := detach_timer s t true in Ret (1, s) else Ret (0, s).

(** ** Running *)

(** [cascade]'s loop over the list of [head]; the entries are not detached,
    [list_add_tail] overwrites their links. *)
Fixpoint cascade_loop (fuel : nat) (s : tvec_base) (head curr : addr) : outcome tvec_base :=
  match fuel with
  | O => Err Diverge
  | S fuel =>
      if bool_decide (curr = head) then Ret s
      else
        match curr with
        | entry t =>
            let! curr := next (lists s) curr in
            let! s := internal_add_timer s t in
            cascade_loop fuel s head curr
        | _ => Err Fault
        end
  end.

Definition cascade (s : tvec_base) (tv : nat) (index : Z) : outcome (Z * tvec_base) :=
  let head := vec tv index in
  let! curr := next (lists s) head in
  let! s := cascade_loop (S (size (timers s))) s head curr in
  let! h := INIT_LIST_HEAD (lists s) head in
  Ret (index, set_lists s h).

Definition INDEX (timer_jiffies N : Z) : Z :=
  Z.land (Z.shiftr timer_jiffies (TVR_BITS + N * TVN_BITS)) TVN_MASK.

(** [!index && !cascade(..) && !cascade(..) && !cascade(..)], and then the
    last level. *)
Definition cascade_all (s : tvec_base) (index : Z) : outcome tvec_base :=
  if negb (index =? 0) then Ret s
  else
    let! (i, s) := cascade s 2 (INDEX (timer_jiffies s) 0) in
    if negb (i =? 0) then Ret s
    else
      let! (i, s) := cascade s 3 (INDEX (timer_jiffies s) 1) in
      if negb (i =? 0) then Ret s
      else
        let! (i, s) := cascade s 4 (INDEX (timer_jiffies s) 2) in
        if negb (i =? 0) then Ret s
        else
          let! (_, s) := cascade s 5 (INDEX (timer_jiffies s) 3) in
          Ret s.

(** What a timer's function may do to the wheel. *)
Inductive call := Mod_timer (t : nat) (e : Z) | Del_timer (t : nat).

Definition do_call (s : tvec_base) (c : call) : outcome tvec_base :=
  match c with
  | Mod_timer t e => let! (_, s) := mod_timer s t e in Ret s
  | Del_timer t => let! (_, s) := del_timer s t in Ret s
  end.
Fixpoint do_calls (s : tvec_base) (cs : list call) : outcome tvec_base :=
  match cs with [] => Ret s | c :: cs => let! s := do_call s c in do_calls s cs end.

Section run.
(** The calls of the function [fn] with [data], after the events so far. *)
Variable calls_of : forall (fn data : Z), list event -> list call.

(** [while (!list_empty(head))] over the work list of one tick. *)
Fixpoint run_work_list (fuel : nat) (s : tvec_base) : outcome tvec_base :=
  match fuel with
  | O => Err Diverge
  | S fuel =>
      let! e := list_empty (lists s) work_list in
      if (e : bool) then Ret s
      else
        let! n := next (lists s) work_list in
        match n with
        | entry t =>
            let! tm := timer s t in
            let! s := detach_timer s t true in
            let s := set_log s (log s ++ [Ran t (u32 (timer_jiffies s - 1))]) in
            let! s := do_calls s (calls_of (function tm) (data tm) (log s)) in
            run_work_list fuel s
        | _ => Err Fault
        end
  end.

(** One round of [__run_timers]. *)
Definition run_tick (s : tvec_base) : outcome tvec_base :=
  let! h := INIT_LIST_HEAD (lists s) work_list in
  let s := set_lists s h in
  let index := Z.land (timer_jiffies s) TVR_MASK in
  let! s := cascade_all s index in
  let s := set_timer_jiffies s (u32 (timer_jiffies s + 1)) in
  let! h := list_splice_init (lists s) (vec 1 index) work_list in
  run_work_list (S (size (timers s))) (set_lists s h).

Definition time_after_eq (a b : Z) : bool := 0 <=? s32 (a - b).

Fixpoint run_loop (fuel : nat) (s : tvec_base) : outcome tvec_base :=
  match fuel with
  | O => Err Diverge
  | S fuel =>
      if time_after_eq (jiffies s) (timer_jiffies s) then
        let! s := run_tick s in run_loop fuel s
      else Ret s
  end.

Definition __run_timers (s : tvec_base) : outcome tvec_base :=
  run_loop (S (Z.to_nat (s32 (jiffies s - timer_jiffies s) + 1))) s.

(** [hrtimers] is what [hrtimer_run_queues] does to the wheel, through the
    functions of the high-resolution timers it runs. *)
Definition run_timer_softirq (hrtimers : list call) (s : tvec_base) : outcome tvec_base :=
  let! s := do_calls s hrtimers in
  if time_after_eq (jiffies s) (timer_jiffies s) then __run_timers s else Ret s.
End run.

(** ** Start *)

Fixpoint init_vecs (n : nat) (h : heads addr) (tvs : list nat) : outcome (heads addr) :=
  match n with
  | O => Ret h
  | S n =>
      let! h := init_vecs n h tvs in
      foldl (fun h tv => let! h := h in INIT_LIST_HEAD h (vec tv (Z.of_nat n))) (Ret h) tvs
  end.

Definition init_timers_cpu (s : tvec_base) : outcome tvec_base :=
  let! h := init_vecs (Z.to_nat TVN_SIZE) (lists s) [5; 4; 3; 2]%nat in
  let! h := init_vecs (Z.to_nat TVR_SIZE) h [1%nat] in
  Ret (set_timer_jiffies (set_lists s h) (jiffies s)).
