(* ===== verification/TimerWheel.v ===== *)
(** * The timer wheel keeps its timers by expiry

    The invariant of the wheel ([wheel]): each pending timer is in exactly
    one list, the one that the levels prescribe for the tick it is due at.
    Adding, removing and cascading keep it; the abstract machine ([fires])
    that runs at each tick the timers due then is what [run_tick] refines. *)

From stdpp Require Import gmap.
From S2P Require Import Prelude ListHead Timer.

(** ** Time

    Ticks are counted without wrap-around by [T]; the code's
    [base->timer_jiffies] is [u32 T]. *)

(** When a timer set at tick [T] for [expires] is due: as soon as possible
    if that is more than half the range of [jiffies] ahead. *)
Definition due_of (T expires : Z) : Z :=
  let idx := u32 (expires - T) in if idx <? 2 ^ 31 then T + idx else T.

(** The ticks that a bucket of level [tv] spans. *)
Definition span (tv : nat) : Z :=
  match tv with 2%nat => 256 | 3%nat => 16384 | 4%nat => 1048576 | 5%nat => 67108864 | _ => 1 end.

(** A timer due at tick [D] fits the list [a] at tick [T]; [c tv] is the next
    bucket of level [tv] to be cascaded. *)
Definition fits (T : Z) (c : nat -> Z) (a : addr) (D expires : Z) : Prop :=
  match a with
  | vec 1 i => T <= D < T + 256 /\ i = D mod 256
  | vec tv i => (2 <= tv <= 5)%nat /\ c tv <= D / span tv < c tv + 64 /\ i = (D / span tv) mod 64 /\
      expires = u32 D /\ D < T + 2 ^ 31
  | work_list => D = T - 1
  | _ => False
  end.

(** The levels at or above [tv] wait for the next bucket that starts at or
    after [T]; those below have done the one that starts at [T]. *)
Definition next_bucket (T : Z) (c : nat -> Z) : Prop :=
  forall tv, (2 <= tv <= 5)%nat -> c tv = T / span tv + 1 \/ (T mod span tv = 0 /\ c tv = T / span tv).

Definition is_head (a : addr) : Prop :=
  match a with
  | vec 1 i => 0 <= i < 256
  | vec tv i => (2 <= tv <= 5)%nat /\ 0 <= i < 64
  | _ => False
  end.

Lemma bucket_index k D : 0 <= k <= 26 -> Z.land (Z.shiftr (u32 D) k) TVN_MASK = (D / 2 ^ k) mod 64.
Proof.
  intros Hk. change TVN_MASK with (Z.ones 6). rewrite Z.land_ones, Z.shiftr_div_pow2 by lia.
  unfold u32, wrap. replace (2 ^ 32) with (2 ^ k * 2 ^ (32 - k)) by (rewrite <-Z.pow_add_r by lia; f_equal; lia).
  rewrite Z.rem_mul_r by (try apply Z.pow_nonzero; lia).
  rewrite (Z.mul_comm (2 ^ k)), Z.div_add by (apply Z.pow_nonzero; lia).
  rewrite (Z.div_small (D mod 2 ^ k)) by (apply Z.mod_pos_bound, Z.pow_pos_nonneg; lia).
  change (2 ^ 6) with 64. rewrite Z.add_0_l. replace (32 - k) with (6 + (26 - k)) by lia.
  rewrite Z.pow_add_r by lia. change (2 ^ 6) with 64.
  rewrite Z.rem_mul_r by (try apply Z.pow_nonzero; lia).
  rewrite (Z.mul_comm 64), Z.mod_add by lia. by rewrite Z.mod_mod by lia.
Qed.

Lemma ring_index D : Z.land (u32 D) TVR_MASK = D mod 256.
Proof.
  change TVR_MASK with (Z.ones 8). rewrite Z.land_ones by lia. unfold u32, wrap. change (2 ^ 8) with 256.
  change (2 ^ 32) with (256 * 16777216). rewrite Z.rem_mul_r by lia.
  rewrite (Z.mul_comm 256), Z.mod_add by lia. by rewrite Z.mod_mod by lia.
Qed.

Lemma u32_sub_u32 e T : u32 (e - u32 T) = u32 (e - T).
Proof. unfold u32, wrap. by rewrite Zminus_mod_idemp_r. Qed.

Lemma u32_due T e : is_u32 e -> u32 (e - T) < 2 ^ 31 -> e = u32 (T + u32 (e - T)).
Proof.
  intros He _. unfold u32, wrap. rewrite Zplus_mod_idemp_r. replace (T + (e - T)) with e by lia.
  symmetry. apply Z.mod_small. exact He.
Qed.

(** Linear arithmetic with division by constants. *)
Ltac div_lia := Z.to_euclidean_division_equations; lia.

(** The list chosen for a timer is the one its expiry prescribes. *)
Lemma timer_vec_fits T c e :
  is_u32 e -> next_bucket T c ->
  fits T c (timer_vec (u32 T) e) (due_of T e) e /\ is_head (timer_vec (u32 T) e).
Proof.
  intros He Hc. unfold timer_vec, due_of. rewrite u32_sub_u32.
  pose proof (Z.mod_pos_bound (e - T) (2 ^ 32) ltac:(lia)) as Hi. change ((e - T) mod 2 ^ 32) with (u32 (e - T)) in Hi.
  pose proof (u32_due T e He) as Hd. set (idx := u32 (e - T)) in *. clearbody idx.
  change TVR_SIZE with 256. change (Z.shiftl 1 (TVR_BITS + TVN_BITS)) with 16384.
  change (Z.shiftl 1 (TVR_BITS + 2 * TVN_BITS)) with 1048576. change (Z.shiftl 1 (TVR_BITS + 3 * TVN_BITS)) with 67108864.
  change TVR_BITS with 8. change (8 + TVN_BITS) with 14. change (8 + 2 * TVN_BITS) with 20. change (8 + 3 * TVN_BITS) with 26.
  destruct (idx <? 256) eqn:E1; [|destruct (idx <? 16384) eqn:E2; [|destruct (idx <? 1048576) eqn:E3;
    [|destruct (idx <? 67108864) eqn:E4; [|destruct (s32 idx <? 0) eqn:E5]]]].
  all: match goal with
    | H : (s32 _ <? 0) = true |- _ => idtac
    | _ => assert (Hlt : idx < 2 ^ 31); [|assert (Hd' := Hd Hlt); assert (E : (idx <? 2 ^ 31) = true) by lia; rewrite E; clear Hd; subst e]
    end.
  all: try lia.
  all: try (unfold s32, swrap in *; change (2 ^ (32 - 1)) with 2147483648 in *; change (2 ^ 32) with 4294967296 in *; div_lia).
  - rewrite ring_index. cbn [fits is_head]. repeat split; try lia; apply Z.mod_pos_bound; lia.
  - rewrite (bucket_index 8) by lia. pose proof (Hc 2%nat ltac:(lia)) as Hc2. change (2 ^ 8) with 256.
    cbn [fits is_head span] in *. repeat split; try lia; div_lia.
  - rewrite (bucket_index 14) by lia. pose proof (Hc 3%nat ltac:(lia)) as Hc2. change (2 ^ 14) with 16384.
    cbn [fits is_head span] in *. repeat split; try lia; div_lia.
  - rewrite (bucket_index 20) by lia. pose proof (Hc 4%nat ltac:(lia)) as Hc2. change (2 ^ 20) with 1048576.
    cbn [fits is_head span] in *. repeat split; try lia; div_lia.
  - assert (Hge : 2 ^ 31 <= idx).
    { destruct (Z_lt_ge_dec idx (2 ^ 31)); [|lia]. rewrite s32_small in E5 by lia. lia. }
    assert (E : (idx <? 2 ^ 31) = false) by lia. rewrite E, ring_index.
    cbn [fits is_head]. repeat split; try lia; apply Z.mod_pos_bound; lia.
  - assert (E6 : (4294967295 <? idx) = false) by lia. change 0xffffffff with 4294967295. rewrite E6.
    rewrite (bucket_index 26) by lia. pose proof (Hc 5%nat ltac:(lia)) as Hc2. change (2 ^ 26) with 67108864.
    cbn [fits is_head span] in *. repeat split; try lia; div_lia.
Qed.

(** ** The invariant *)

Definition heads_in (m : gmap addr (list addr)) : Prop := forall a, is_head a -> is_Some (m !! a).

(** The lists [m] hold the pending timers, [pend] says when they are due; the
    timers [X] are on their way from one list to another. *)
Record wheel (s : tvec_base) (T : Z) (c : nat -> Z) (pend : gmap nat Z)
    (m : gmap addr (list addr)) (X : list nat) : Prop := {
  w_rings : rings (lists s) m;
  w_jiffies : timer_jiffies s = u32 T;
  w_keys a xs : m !! a = Some xs -> is_head a \/ a = work_list;
  w_entries a xs x : m !! a = Some xs -> x ∈ xs ->
    exists t tm D, x = entry t /\ timers s !! t = Some tm /\ pend !! t = Some D /\ fits T c a D (expires tm);
  w_pending t D : pend !! t = Some D -> exists a xs, m !! a = Some xs /\ entry t ∈ xs;
  w_floating t : t ∈ X -> pend !! t = None;
  w_idle t tm : timers s !! t = Some tm -> t ∉ X -> pend !! t = None -> nxt (lists s) !! entry t = Some NULL;
  w_alloc t tm : timers s !! t = Some tm -> allocated (lists s) (entry t);
  w_timers t tm : timers s !! t = Some tm -> function tm <> 0 /\ is_u32 (expires tm) }.

Lemma not_head_entry t : ~ is_head (entry t).
Proof. by intros H. Qed.

Section wheel.
Context {s : tvec_base} {T : Z} {c : nat -> Z} {pend : gmap nat Z} {m : gmap addr (list addr)} {X : list nat}.
Context (W : wheel s T c pend m X).

Lemma wheel_ring_known a xs x : m !! a = Some xs -> x ∈ a :: xs -> x <> NULL.
Proof.
  intros Ha [->|Hx]%elem_of_cons ->.
  - by destruct (w_keys _ _ _ _ _ _ W NULL xs Ha).
  - destruct (w_entries _ _ _ _ _ _ W a xs NULL Ha Hx) as (t & tm & D & E & _). done.
Qed.

Lemma wheel_apart t : pend !! t = None -> apart m (entry t).
Proof.
  intros Ht a xs Ha [<-|Hx]%elem_of_cons.
  - by destruct (w_keys _ _ _ _ _ _ W _ _ Ha) as [?%not_head_entry|?].
  - destruct (w_entries _ _ _ _ _ _ W a xs _ Ha Hx) as (t' & tm & D & [= <-] & _ & HD & _). congruence.
Qed.

Lemma wheel_next a xs1 x xs2 :
  m !! a = Some (xs1 ++ x :: xs2) -> exists n, nxt (lists s) !! x = Some n /\ n <> NULL.
Proof.
  intros Ha. rewrite cons_middle, app_assoc in Ha.
  destruct (ring_cut _ m a (xs1 ++ [x]) xs2 (w_rings _ _ _ _ _ _ W) Ha) as (p & n & Hc & [Hn _]).
  pose proof (cut_p _ _ _ _ _ _ Hc) as Hp. rewrite app_comm_cons, last_snoc in Hp. injection Hp as <-.
  exists n. split; [done|]. eapply wheel_ring_known; [exact Ha|]. apply (cut_in _ _ _ _ _ _ Hc).
Qed.

Lemma wheel_where t D :
  pend !! t = Some D -> exists a xs1 xs2, m !! a = Some (xs1 ++ entry t :: xs2).
Proof.
  intros Ht. destruct (w_pending _ _ _ _ _ _ W t D Ht) as (a & xs & Ha & Hin).
  apply list_elem_of_split in Hin as (xs1 & xs2 & ->). eauto.
Qed.

Lemma timer_pending_ok t tm :
  timers s !! t = Some tm -> t ∉ X -> timer_pending s t = Ret (match pend !! t with Some _ => true | None => false end).
Proof.
  intros Ht HX. unfold timer_pending, next. destruct (pend !! t) as [D|] eqn:E.
  - destruct (wheel_where t D E) as (a & xs1 & xs2 & Ha). destruct (wheel_next _ _ _ _ Ha) as (n & -> & Hn).
    by rewrite bool_decide_eq_false_2.
  - rewrite (w_idle _ _ _ _ _ _ W t tm Ht HX E). by rewrite bool_decide_eq_true_2.
Qed.

(** A floating timer is added to its list. *)
Lemma internal_add_ok t X' tm xs :
  X = t :: X' -> t ∉ X' -> timers s !! t = Some tm -> next_bucket T c ->
  m !! timer_vec (u32 T) (expires tm) = Some xs ->
  let a := timer_vec (u32 T) (expires tm) in
  exists h', internal_add_timer s t = Ret (set_lists s h') /\
    wheel (set_lists s h') T c (<[t := due_of T (expires tm)]> pend) (<[a := xs ++ [entry t]]> m) X' /\
    frame (entry t :: a :: xs) (lists s) h'.
Proof.
  intros EX Ht' Ht Hc Ha a. fold a in Ha. assert (Hpt : pend !! t = None).
  { apply (w_floating _ _ _ _ _ _ W). rewrite EX. by apply elem_of_cons; left. }
  destruct (list_add_tail_ok (lists s) m a xs (entry t) (w_rings _ _ _ _ _ _ W) Ha) as (h' & H1 & H2 & H3).
  { by eapply w_alloc. } { by apply wheel_apart. }
  exists h'. destruct (w_timers _ _ _ _ _ _ W t tm Ht) as [_ Hu].
  unfold internal_add_timer, timer. rewrite Ht, (w_jiffies _ _ _ _ _ _ W). fold a. rewrite H1.
  split; [done|]. split; [|done].
  destruct (timer_vec_fits T c (expires tm) Hu Hc) as [Hf Hh]. fold a in Hf, Hh.
  split; cbn [lists timers timer_jiffies set_lists]; try done; try apply W.
  - intros b ys. destruct (decide (a = b)) as [<-|Hab]; [by left|]. rewrite lookup_insert_ne by done. apply W.
  - intros b ys x. destruct (decide (a = b)) as [<-|Hab].
    + rewrite lookup_insert_eq. intros [= <-] [Hx|Hx]%elem_of_app.
      * destruct (w_entries _ _ _ _ _ _ W a xs x Ha Hx) as (t1 & tm1 & D & -> & H4 & H5 & H6).
        exists t1, tm1, D. rewrite lookup_insert_ne by congruence. done.
      * apply list_elem_of_singleton in Hx as ->. exists t, tm, (due_of T (expires tm)). by rewrite lookup_insert_eq.
    + rewrite lookup_insert_ne by done. intros Hb Hx.
      destruct (w_entries _ _ _ _ _ _ W b ys x Hb Hx) as (t1 & tm1 & D & -> & H4 & H5 & H6).
      exists t1, tm1, D. rewrite lookup_insert_ne by congruence. done.
  - intros t1 D. destruct (decide (t = t1)) as [<-|Htt].
    + intros _. exists a, (xs ++ [entry t]). rewrite lookup_insert_eq. split; [done|]. apply elem_of_app. right. by apply list_elem_of_singleton.
    + rewrite lookup_insert_ne by done. intros HD. destruct (w_pending _ _ _ _ _ _ W t1 D HD) as (b & ys & Hb & Hin).
      destruct (decide (a = b)) as [<-|Hab].
      * exists a, (xs ++ [entry t]). rewrite lookup_insert_eq. split; [done|]. apply elem_of_app. left.
        rewrite Ha in Hb. by injection Hb as ->.
      * exists b, ys. by rewrite lookup_insert_ne.
  - intros t1 Hin. rewrite lookup_insert_ne by by intros ->. apply (w_floating _ _ _ _ _ _ W). rewrite EX. by apply elem_of_cons; right.
  - intros t1 tm1 H4 H5. destruct (decide (t = t1)) as [<-|Htt]; [by rewrite lookup_insert_eq|].
    rewrite lookup_insert_ne by done. intros H6.
    destruct (frame_off _ _ _ H3 (entry t1)) as [-> _].
    + rewrite !not_elem_of_cons. split_and!; [congruence| |].
      * intros E. rewrite <-E in Hh. by apply not_head_entry in Hh.
      * intros Hin. apply (wheel_apart t1 H6 a xs Ha). by apply elem_of_cons; right.
    + apply (w_idle _ _ _ _ _ _ W t1 tm1); [done| |done]. rewrite EX. by apply not_elem_of_cons.
  - intros t1 tm1 H4. apply (frame_alloc _ _ _ H3). by eapply w_alloc.
Qed.

(** A pending timer leaves its list, to be idle or to float. *)
Lemma detach_ok a xs1 t xs2 (b : bool) :
  m !! a = Some (xs1 ++ entry t :: xs2) ->
  exists h', detach_timer s t b = Ret (set_lists s h') /\
    wheel (set_lists s h') T c (delete t pend) (<[a := xs1 ++ xs2]> m) (if b then X else t :: X) /\
    forall x, allocated (lists s) x -> allocated h' x.
Proof.
  intros Ha. pose proof (w_rings _ _ _ _ _ _ W) as HR.
  destruct (__list_del_ok (lists s) m a xs1 (entry t) xs2 HR Ha) as (p & n & h1 & Hp & Hn & H1 & HR1 & HF1).
  pose proof (in_ring_allocated _ _ _ _ _ _ HR Ha) as Hal.
  destruct (frame_alloc _ _ _ HF1 _ Hal) as [Hal1 Hal2].
  pose proof (removed_apart _ _ _ _ _ _ HR Ha) as Hap.
  assert (exists h', (let! h := if b then set_next h1 (entry t) NULL else Ret h1 in set_prev h (entry t) LIST_POISON2) = Ret h' /\
            frame [entry t] h1 h' /\ (b = true -> nxt h' !! entry t = Some NULL)) as (h' & H2 & HF2 & Hnull).
  { destruct b.
    - rewrite set_next_ok by done. rewrite set_prev_ok by done. eexists. split; [done|]. cbn [nxt prv]. split.
      + split.
        * intros z Hz. rewrite list_elem_of_singleton in Hz. cbn [nxt prv]. by rewrite !lookup_insert_ne by congruence.
        * intros z [Hz1 Hz2]. split; cbn [nxt prv]; by apply lookup_insert_some.
      + intros _. by rewrite lookup_insert_eq.
    - rewrite set_prev_ok by done. eexists. split; [done|]. cbn [nxt prv]. split; [|done]. split.
      + intros z Hz. rewrite list_elem_of_singleton in Hz. cbn [nxt prv]. by rewrite !lookup_insert_ne by congruence.
      + intros z [Hz1 Hz2]. split; cbn [nxt prv]; [done|by apply lookup_insert_some]. }
  exists h'. unfold detach_timer. rewrite Hp, Hn, H1. split.
  { destruct b; revert H2; [destruct (set_next h1 (entry t) NULL) as [h2|]; [|done]|]; by intros ->. }
  assert (HR' : rings h' (<[a := xs1 ++ xs2]> m)).
  { destruct HR1 as [R1 R2 R3]. split; [|done|done]. intros d ds Hd. eapply ring_frame; [|exact HF2|by apply R1].
    intros z ->%list_elem_of_singleton. by apply Hap. }
  split; [|intros x Hx; by apply (frame_alloc _ _ _ HF2), (frame_alloc _ _ _ HF1)].
  split; cbn [lists timers timer_jiffies set_lists]; try done; try apply W.
  - intros d ds. destruct (decide (a = d)) as [<-|Had]; [intros _; by apply (w_keys _ _ _ _ _ _ W a _ Ha)|].
    rewrite lookup_insert_ne by done. apply W.
  - intros d ds x Hd Hx. assert (Hxt : x <> entry t) by (intros ->; apply (Hap d ds Hd); by apply elem_of_cons; right).
    assert (exists ds', m !! d = Some ds' /\ x ∈ ds') as (ds' & Hd' & Hx').
    { destruct (decide (a = d)) as [<-|Had].
      - rewrite lookup_insert_eq in Hd. injection Hd as <-. eexists. split; [exact Ha|]. revert Hx.
        rewrite !elem_of_app, elem_of_cons. tauto.
      - rewrite lookup_insert_ne in Hd by done. eauto. }
    destruct (w_entries _ _ _ _ _ _ W d ds' x Hd' Hx') as (t1 & tm1 & D & -> & H4 & H5 & H6).
    exists t1, tm1, D. rewrite lookup_delete_ne by congruence. done.
  - intros t1 D [Htt HD]%lookup_delete_Some. destruct (w_pending _ _ _ _ _ _ W t1 D HD) as (d & ds & Hd & Hin).
    destruct (decide (a = d)) as [<-|Had].
    + exists a, (xs1 ++ xs2). rewrite lookup_insert_eq. split; [done|]. rewrite Ha in Hd. injection Hd as <-.
      revert Hin. rewrite !elem_of_app, elem_of_cons. intros [?|[[= ?]|?]]; [auto|congruence|auto].
    + exists d, ds. by rewrite lookup_insert_ne.
  - intros t1 Hin. destruct (decide (t = t1)) as [<-|Htt]; [apply lookup_delete_eq|]. rewrite lookup_delete_ne by done.
    apply (w_floating _ _ _ _ _ _ W). destruct b; [done|]. by apply elem_of_cons in Hin as [->|].
  - intros t1 tm1 H4 H5 H6. destruct (decide (t = t1)) as [<-|Htt].
    + destruct b; [by apply Hnull|]. destruct H5. by apply elem_of_cons; left.
    + rewrite lookup_delete_ne in H6 by done.
      assert (Hne : entry t1 ∉ a :: xs1 ++ xs2).
      { intros Hin. apply (wheel_apart t1 H6 a _ Ha). revert Hin. rewrite !elem_of_cons, !elem_of_app, elem_of_cons. tauto. }
      destruct (frame_off _ _ _ HF2 (entry t1)) as [-> _]; [rewrite list_elem_of_singleton; congruence|].
      destruct (frame_off _ _ _ HF1 (entry t1) Hne) as [-> _].
      apply (w_idle _ _ _ _ _ _ W t1 tm1); [done| |done]. destruct b; [done|]. by apply not_elem_of_cons in H5 as [].
  - intros t1 tm1 H4. apply (frame_alloc _ _ _ HF2), (frame_alloc _ _ _ HF1). by eapply w_alloc.
Qed.
End wheel.

(** ** Cascading *)

Lemma due_of_u32 T D : T <= D < T + 2 ^ 31 -> due_of T (u32 D) = D.
Proof.
  intros HD. unfold due_of. replace (u32 (u32 D - T)) with (D - T).
  - assert (E : (D - T <? 2 ^ 31) = true) by lia. rewrite E. lia.
  - unfold u32, wrap. rewrite Zminus_mod_idemp_l. symmetry. apply Z.mod_small. lia.
Qed.

(** A timer due within the span of level [tv] goes to a lower level. *)
Lemma timer_vec_lower T D tv i :
  (2 <= tv <= 5)%nat -> T <= D < T + span tv -> timer_vec (u32 T) (u32 D) <> vec tv i.
Proof.
  intros Htv HD. assert (span tv <= 2 ^ 31) by (destruct tv as [|[|[|[|[|[|]]]]]]; cbn; lia).
  assert (E : u32 (u32 D - u32 T) = D - T).
  { unfold u32, wrap. rewrite <-Zminus_mod. apply Z.mod_small. lia. }
  unfold timer_vec. rewrite E. change TVR_SIZE with 256. change (Z.shiftl 1 (TVR_BITS + TVN_BITS)) with 16384.
  change (Z.shiftl 1 (TVR_BITS + 2 * TVN_BITS)) with 1048576. change (Z.shiftl 1 (TVR_BITS + 3 * TVN_BITS)) with 67108864.
  destruct tv as [|[|[|[|[|[|]]]]]]; try lia; cbn [span] in HD.
  all: repeat match goal with |- context [if ?b then _ else _] => destruct b eqn:?; [congruence|] end; lia.
Qed.

Section cascade.
Context (T : Z) (c : nat -> Z) (head : addr).

(** From [curr] the [next] pointers lead through [ts] to the head. *)
Fixpoint leads (h : heads addr) (curr : addr) (ts : list nat) : Prop :=
  match ts with
  | [] => curr = head
  | t :: ts => curr = entry t /\ exists n, nxt h !! entry t = Some n /\ leads h n ts
  end.

Lemma leads_agree h h' curr ts :
  (forall t, t ∈ ts -> nxt h' !! entry t = nxt h !! entry t) -> leads h curr ts -> leads h' curr ts.
Proof.
  revert curr. induction ts as [|t ts IH]; intros curr Hn; [done|]. cbn [leads]. intros (-> & n & H1 & H2).
  split; [done|]. exists n. rewrite Hn by (by apply elem_of_cons; left). split; [done|]. apply IH; [|done].
  intros t' Ht'. apply Hn. by apply elem_of_cons; right.
Qed.

Lemma cascade_loop_ok fuel s curr ts m pend pendF :
  wheel s T c pend m ts -> next_bucket T c -> NoDup ts -> (forall t, head <> entry t) ->
  (forall a, is_head a -> a <> head -> is_Some (m !! a)) -> m !! head = None ->
  leads (lists s) curr ts -> (length ts < fuel)%nat ->
  (forall t, t ∈ ts -> exists tm, timers s !! t = Some tm /\ pendF !! t = Some (due_of T (expires tm)) /\
     timer_vec (u32 T) (expires tm) <> head) ->
  (forall t, t ∉ ts -> pendF !! t = pend !! t) ->
  exists h' m', cascade_loop fuel s head curr = Ret (set_lists s h') /\ wheel (set_lists s h') T c pendF m' [] /\
    (forall a, is_head a -> a <> head -> is_Some (m' !! a)) /\ m' !! head = None /\
    m' !! work_list = m !! work_list /\ (forall x, allocated (lists s) x -> allocated h' x).
Proof.
  revert s curr ts m pend. induction fuel as [|fuel IH]; intros s curr ts m pend W Hc Hnd Hhe Hh Hm Hl Hf Hin Hout; [lia|].
  cbn [cascade_loop]. destruct ts as [|t ts]; cbn [leads] in Hl.
  - rewrite bool_decide_eq_true_2 by done. exists (lists s), m.
    assert (pendF = pend) as -> by (apply map_eq; intros t; apply Hout; apply not_elem_of_nil).
    split; [by destruct s|]. split; [by destruct s|]. done.
  - destruct Hl as (-> & n & Hn & Hl). rewrite bool_decide_eq_false_2 by by apply not_eq_sym, Hhe.
    unfold next at 1. rewrite Hn. apply NoDup_cons in Hnd as [Hni Hnd].
    destruct (Hin t) as (tm & Ht & HpF & Hvec); [by apply elem_of_cons; left|].
    destruct (w_timers _ _ _ _ _ _ W t tm Ht) as [_ Hu].
    destruct (timer_vec_fits T c (expires tm) Hu Hc) as [_ Hhd].
    destruct (Hh _ Hhd Hvec) as [xs Hxs].
    destruct (internal_add_ok W t ts tm xs eq_refl Hni Ht Hc Hxs) as (h1 & H1 & W1 & HF1). rewrite H1.
    assert (Hpt : forall t', t' ∈ ts -> pend !! t' = None).
    { intros t' Ht'. apply (w_floating _ _ _ _ _ _ W). by apply elem_of_cons; right. }
    edestruct (IH (set_lists s h1) n ts _ _ W1 Hc Hnd Hhe) as (h' & m' & H2 & W2 & H3 & H4 & H5 & H6).
    + intros a Ha Hne. destruct (decide (timer_vec (u32 T) (expires tm) = a)) as [<-|]; [rewrite lookup_insert_eq; eauto|].
      rewrite lookup_insert_ne by done. by apply Hh.
    + by rewrite lookup_insert_ne.
    + eapply leads_agree; [|exact Hl]. intros t' Ht'. apply (frame_off _ _ _ HF1). rewrite !not_elem_of_cons. split_and!.
      * intros [= ->]. done.
      * intros E. rewrite <-E in Hhd. by apply not_head_entry in Hhd.
      * intros Hx. apply (wheel_apart W t' (Hpt t' Ht') _ _ Hxs). by apply elem_of_cons; right.
    + cbn [length] in Hf. lia.
    + intros t' Ht'. apply Hin. by apply elem_of_cons; right.
    + intros t' Ht'. destruct (decide (t = t')) as [<-|Hne]; [by rewrite lookup_insert_eq|].
      rewrite lookup_insert_ne by done. apply Hout. by apply not_elem_of_cons.
    + exists h', m'. split; [exact H2|]. split; [exact W2|]. split; [done|]. split; [done|]. split.
      * rewrite H5. apply lookup_insert_ne. intros E. by rewrite E in Hhd.
      * intros x Hx. apply H6. by apply (frame_alloc _ _ _ HF1).
Qed.
End cascade.

Lemma ring_leads h head a ts :
  linked h (a :: (entry <$> ts) ++ [head]) -> exists n, nxt h !! a = Some n /\ leads head h n ts.
Proof.
  revert a. induction ts as [|t ts IH]; intros a Hl; cbn in Hl.
  - destruct Hl as [[Hn _] _]. by exists head.
  - destruct Hl as [[Hn _] Hl]. destruct (IH (entry t) Hl) as (n & H1 & H2). exists (entry t). split; [done|].
    cbn [leads]. eauto.
Qed.

Lemma entries_map (xs : list addr) : (forall x, x ∈ xs -> exists t, x = entry t) -> exists ts, xs = entry <$> ts.
Proof.
  induction xs as [|x xs IH]; intros H; [by exists []|].
  destruct (H x) as [t ->]; [by apply elem_of_cons; left|]. destruct IH as [ts ->].
  - intros y Hy. apply H. by apply elem_of_cons; right.
  - by exists (t :: ts).
Qed.

#[export] Instance entry_inj : Inj eq eq entry.
Proof. by intros ?? [=]. Qed.

Lemma wheel_entries s T c pend m X a xs :
  wheel s T c pend m X -> m !! a = Some xs -> exists ts, xs = entry <$> ts /\ NoDup ts /\ (length ts <= size (timers s))%nat.
Proof.
  intros W Ha. destruct (entries_map xs) as [ts ->].
  { intros x Hx. destruct (w_entries _ _ _ _ _ _ W a xs x Ha Hx) as (t & _ & _ & -> & _). by exists t. }
  pose proof (rings_nodup _ _ (w_rings _ _ _ _ _ _ W) a _ Ha) as Hn. apply NoDup_cons in Hn as [_ Hn].
  apply NoDup_fmap_1 in Hn. exists ts. split; [done|]. split; [done|].
  rewrite <-size_dom, <-(size_list_to_set (C := gset nat) ts) by done. apply subseteq_size.
  intros t Ht%elem_of_list_to_set. destruct (w_entries _ _ _ _ _ _ W a _ (entry t) Ha) as (t' & tm & D & [= <-] & Htm & _).
  { by apply list_elem_of_fmap_2. }
  apply elem_of_dom. eauto.
Qed.

Definition bump (c : nat -> Z) (tv : nat) (k : Z) : nat -> Z := fun tv' => if decide (tv' = tv) then k else c tv'.

(** The bucket of level [tv] that starts now is set apart. *)
Lemma cascade_start s T c pend m tv ts :
  let head := vec tv ((T / span tv) mod 64) in
  (2 <= tv <= 5)%nat -> c tv = T / span tv ->
  wheel s T c pend m [] -> m !! head = Some (entry <$> ts) ->
  wheel s T (bump c tv (T / span tv + 1)) (filter (fun p => p.1 ∉ ts) pend) (delete head m) ts.
Proof.
  intros head Htv Hc W Hh. pose proof (w_rings _ _ _ _ _ _ W) as HR.
  assert (Hpf : forall t D, filter (fun p => p.1 ∉ ts) pend !! t = Some D <-> pend !! t = Some D /\ t ∉ ts)
    by (intros t D; by rewrite map_lookup_filter_Some).
  split; try apply W.
  - by apply rings_delete.
  - intros a xs [_ Ha]%lookup_delete_Some. by apply (w_keys _ _ _ _ _ _ W a xs).
  - intros a xs x [Hne Ha]%lookup_delete_Some Hx.
    destruct (w_entries _ _ _ _ _ _ W a xs x Ha Hx) as (t & tm & D & -> & H1 & H2 & H3).
    exists t, tm, D. split; [done|]. split; [done|]. split.
    + apply Hpf. split; [done|]. intros Hin. apply Hne, (rings_disj _ _ HR head a _ xs (entry t) Hh Ha).
      * apply elem_of_cons. right. by apply list_elem_of_fmap_2.
      * by apply elem_of_cons; right.
    + destruct a as [| |tv' i| |]; try done. unfold fits in *. destruct tv' as [|[|tv']]; [destruct H3; lia|done|].
      destruct H3 as (H3 & H4 & -> & H6). split; [done|]. split; [|done].
      unfold bump. destruct (decide _) as [Etv|Hne']; [|done]. rewrite Etv in *.
      assert (D / span tv <> T / span tv) by (intros E; apply Hne; unfold head; by rewrite E). lia.
  - intros t D [HD Ht]%Hpf. destruct (w_pending _ _ _ _ _ _ W t D HD) as (a & xs & Ha & Hin).
    exists a, xs. split; [|done]. apply lookup_delete_Some. split; [|done]. intros <-.
    rewrite Hh in Ha. injection Ha as <-. apply list_elem_of_fmap in Hin as (t' & [= ->] & ?). done.
  - intros t Ht. destruct (filter _ pend !! t) as [D|] eqn:E; [|done]. apply Hpf in E as [_ []]. done.
  - intros t tm H1 H2 H3. apply (w_idle _ _ _ _ _ _ W t tm H1 (not_elem_of_nil t)).
    destruct (pend !! t) as [D|] eqn:E; [|done]. assert (filter (fun p => p.1 ∉ ts) pend !! t = Some D) by by apply Hpf. congruence.
Qed.

(** An emptied bucket becomes a list again. *)
Lemma cascade_end s T c pend m a :
  wheel s T c pend m [] -> is_head a \/ a = work_list -> m !! a = None -> allocated (lists s) a ->
  exists h', INIT_LIST_HEAD (lists s) a = Ret h' /\ wheel (set_lists s h') T c pend (<[a := []]> m) [] /\ frame [a] (lists s) h'.
Proof.
  intros W Hh Hm Hal. assert (Hne : forall t, entry t <> a) by (intros t <-; by destruct Hh as [?%not_head_entry|]).
  destruct (INIT_LIST_HEAD_ok (lists s) m a (w_rings _ _ _ _ _ _ W) Hal) as (h' & H1 & H2 & HF).
  { intros b xs Hb [->|Hx]%elem_of_cons; [congruence|].
    destruct (w_entries _ _ _ _ _ _ W b xs a Hb Hx) as (t & _ & _ & -> & _). by apply (Hne t). }
  exists h'. split; [done|]. split; [|done]. split; cbn [lists timers timer_jiffies set_lists]; try done; try apply W.
  - intros b xs. destruct (decide (a = b)) as [<-|Hab]; [done|]. rewrite lookup_insert_ne by done. apply W.
  - intros b xs x. destruct (decide (a = b)) as [<-|Hab].
    + rewrite lookup_insert_eq. intros [= <-] Hx. by apply elem_of_nil in Hx.
    + rewrite lookup_insert_ne by done. apply W.
  - intros t D HD. destruct (w_pending _ _ _ _ _ _ W t D HD) as (b & xs & Hb & Hin). exists b, xs.
    split; [|done]. rewrite lookup_insert_ne; [done|congruence].
  - intros t tm H4 H5 H6. destruct (frame_off _ _ _ HF (entry t)) as [-> _]; [rewrite list_elem_of_singleton; apply Hne|].
    by apply (w_idle _ _ _ _ _ _ W t tm).
  - intros t tm H4. apply (frame_alloc _ _ _ HF). by eapply w_alloc.
Qed.

(** The span of a level is a multiple of the spans below. *)
Lemma next_bucket_bump T c tv k :
  next_bucket T c -> k = T / span tv + 1 -> next_bucket T (bump c tv k).
Proof. intros Hc -> tv' Htv. unfold bump. destruct (decide _) as [->|]; [by left|by apply Hc]. Qed.

(** [cascade] moves the timers of the bucket that starts now to lower levels. *)
Lemma cascade_ok s T c pend m tv :
  (2 <= tv <= 5)%nat -> wheel s T c pend m [] -> heads_in m -> next_bucket T c ->
  T mod span tv = 0 -> c tv = T / span tv ->
  let index := (T / span tv) mod 64 in
  exists h' m', cascade s tv index = Ret (index, set_lists s h') /\
    wheel (set_lists s h') T (bump c tv (T / span tv + 1)) pend m' [] /\ heads_in m' /\
    m' !! work_list = m !! work_list /\ (forall x, allocated (lists s) x -> allocated h' x).
Proof.
  intros Htv W Hh Hc Hmod Hctv index. set (head := vec tv index).
  assert (Hhd : is_head head).
  { pose proof (Z.mod_pos_bound (T / span tv) 64 ltac:(lia)). destruct tv as [|[|tv]]; [lia..|]. cbn. fold index in H. lia. }
  destruct (Hh head Hhd) as [xs Hxs].
  destruct (wheel_entries _ _ _ _ _ _ _ _ W Hxs) as (ts & -> & Hnd & Hlen).
  pose proof (cascade_start s T c pend m tv ts Htv Hctv W Hxs) as W1.
  pose proof (rings_ring _ _ (w_rings _ _ _ _ _ _ W) head _ Hxs) as Hring.
  destruct (ring_leads _ _ _ _ Hring) as (n & Hn & Hl).
  assert (Hhe : forall t, head <> entry t) by done.
  edestruct (cascade_loop_ok T (bump c tv (T / span tv + 1)) head (S (size (timers s))) s n ts _ _ pend W1) as
    (h1 & m1 & H1 & W2 & H2 & H3 & H4 & H5).
  - by apply next_bucket_bump.
  - done.
  - done.
  - intros a Ha Hne. rewrite lookup_delete_ne by done. by apply Hh.
  - apply lookup_delete_eq.
  - done.
  - lia.
  - intros t Ht. destruct (w_entries _ _ _ _ _ _ W head _ (entry t) Hxs) as (t' & tm & D & [= <-] & E1 & E2 & E3).
    { by apply list_elem_of_fmap_2. }
    exists tm. assert (HD : (2 <= tv <= 5)%nat /\ c tv <= D / span tv < c tv + 64 /\ index = (D / span tv) mod 64 /\
        expires tm = u32 D /\ D < T + 2 ^ 31) by (destruct tv as [|[|tv]]; [lia..|exact E3]).
    destruct HD as (_ & HD1 & HD2 & -> & HD3). rewrite Hctv in HD1.
    assert (HDT : T <= D < T + span tv).
    { assert (D / span tv = T / span tv) by (unfold index in HD2; clear -HD1 HD2; div_lia).
      destruct tv as [|[|[|[|[|[|]]]]]]; try lia; cbn [span] in *; div_lia. }
    split; [done|]. split; [rewrite due_of_u32 by lia; done|]. by apply timer_vec_lower.
  - intros t Ht. destruct (pend !! t) as [D|] eqn:E; symmetry.
    + by apply map_lookup_filter_Some.
    + apply map_lookup_filter_None. by left.
  - destruct (cascade_end _ T _ pend m1 head W2) as (h2 & E1 & W3 & HF).
    + by left.
    + done.
    + apply H5. destruct (ring_cut _ _ head [] _ (w_rings _ _ _ _ _ _ W) Hxs) as (p & q & Hcut & [? ?]).
      pose proof (cut_p _ _ _ _ _ _ Hcut) as E; injection E as <-.
      rewrite <-(app_nil_r (entry <$> ts)) in Hxs.
      destruct (ring_cut _ _ head _ [] (w_rings _ _ _ _ _ _ W) Hxs) as (p' & q' & Hcut' & [? ?]).
      pose proof (cut_n _ _ _ _ _ _ Hcut') as E; injection E as <-. split; eauto.
    + exists h2, (<[head := []]> m1). unfold cascade. fold head. unfold next. rewrite Hn, H1. cbn [lists set_lists] in E1 |- *.
      rewrite E1. split; [done|]. split; [exact W3|]. split; [|split].
      * intros a Ha. destruct (decide (head = a)) as [<-|Hne]; [rewrite lookup_insert_eq; eauto|].
        rewrite lookup_insert_ne by done. by apply H2.
      * rewrite lookup_insert_ne by done. rewrite H4. by apply lookup_delete_ne.
      * intros x Hx. apply (frame_alloc _ _ _ HF). by apply H5.
Qed.
