(* ===== verification/TimerRun.v ===== *)
(** * Running the timers

    One round of [__run_timers] is one step of an abstract machine that
    keeps a due tick for every pending timer and, at each tick, runs those
    due then and no others.  With timer functions that leave the wheel alone
    the timers run exactly at the ticks they are due. *)

From stdpp Require Import gmap.
From S2P Require Import Prelude ListHead Timer TimerWheel.

(** ** Cascading at a tick *)

(** Between ticks the next bucket of a level is the first that starts at [T]
    or later. *)
Definition rest (T : Z) (c : nat -> Z) (tv : nat) : Prop := c tv = (T + span tv - 1) / span tv.
Definition past (T : Z) (c : nat -> Z) (tv : nat) : Prop := c tv = T / span tv + 1.

Lemma wheel_ext s T c c' pend m X :
  (forall tv, (2 <= tv <= 5)%nat -> c' tv = c tv) -> wheel s T c pend m X -> wheel s T c' pend m X.
Proof.
  intros Hc W. split; try apply W. intros a xs x Ha Hx.
  destruct (w_entries _ _ _ _ _ _ W a xs x Ha Hx) as (t & tm & D & -> & H1 & H2 & H3).
  exists t, tm, D. split_and!; try done. destruct a as [| |[|[|tv]] i| |]; try done; unfold fits in *; [destruct H3; lia|].
  destruct H3 as (H3 & H4). rewrite Hc by lia. done.
Qed.

Lemma span_cases tv : (2 <= tv <= 5)%nat -> tv = 2%nat \/ tv = 3%nat \/ tv = 4%nat \/ tv = 5%nat.
Proof. lia. Qed.

Lemma rest_next_bucket T c tv : (2 <= tv <= 5)%nat -> rest T c tv -> past T c tv \/ (T mod span tv = 0 /\ c tv = T / span tv).
Proof.
  unfold rest, past. intros Htv ->. destruct (span_cases tv Htv) as [->|[->|[->| ->]]]; cbn [span]; div_lia.
Qed.

(** Level [tv] is the next to be cascaded. *)
Definition up_to (T : Z) (c : nat -> Z) (tv : nat) : Prop :=
  forall tv', (2 <= tv' <= 5)%nat -> if decide (tv' < tv)%nat then past T c tv' else rest T c tv'.

Lemma up_to_next_bucket T c tv : up_to T c tv -> next_bucket T c.
Proof.
  intros Hc tv' Htv. specialize (Hc tv' Htv). destruct (decide _); [by left|]. by apply rest_next_bucket.
Qed.

(** When the bucket of level [tv] does not start now, no higher one does. *)
Lemma up_to_done T c tv :
  up_to T c tv -> (2 <= tv <= 6)%nat -> ((tv < 6)%nat -> T mod span tv <> 0) ->
  forall tv', (2 <= tv' <= 5)%nat -> past T c tv'.
Proof.
  intros Hc Htv Hmod tv' Htv'. specialize (Hc tv' Htv'). destruct (decide _) as [|Hge]; [done|].
  unfold past, rest in *. rewrite Hc.
  assert (Hm : T mod span tv <> 0) by (apply Hmod; lia). clear Hmod Hc.
  destruct (span_cases tv ltac:(lia)) as [->|[->|[->| ->]]], (span_cases tv' Htv') as [->|[->|[->| ->]]];
    try lia; cbn [span] in *; div_lia.
Qed.

Section cascade.
Context (s : tvec_base) (T : Z) (pend : gmap nat Z).

(** What a few cascades have done. *)
Definition cascaded (m : gmap addr (list addr)) (h' : heads addr) (c' : nat -> Z) (m' : gmap addr (list addr)) : Prop :=
  wheel (set_lists s h') T c' pend m' [] /\ heads_in m' /\ m' !! work_list = m !! work_list /\
  (forall x, allocated (lists s) x -> allocated h' x).
End cascade.

Lemma cascade_step s T c pend m tv :
  (2 <= tv <= 5)%nat -> wheel s T c pend m [] -> heads_in m -> up_to T c tv -> T mod span tv = 0 ->
  exists h' m' c', cascade s tv ((T / span tv) mod 64) = Ret ((T / span tv) mod 64, set_lists s h') /\
    cascaded s T pend m h' c' m' /\ up_to T c' (S tv).
Proof.
  intros Htv W Hh Hc Hmod. assert (Hr : c tv = T / span tv).
  { pose proof (Hc tv Htv) as Hr. destruct (decide _); [lia|]. unfold rest in Hr. rewrite Hr.
    destruct (span_cases tv Htv) as [->|[->|[->| ->]]]; cbn [span] in *; div_lia. }
  destruct (cascade_ok s T c pend m tv Htv W Hh (up_to_next_bucket _ _ _ Hc) Hmod Hr) as (h' & m' & H1 & H2 & H3 & H4 & H5).
  exists h', m', (bump c tv (T / span tv + 1)). split; [exact H1|]. split; [done|].
  intros tv' Htv'. specialize (Hc tv' Htv'). unfold bump, past, rest in *.
  destruct (decide (tv' = tv)) as [->|Hne].
  - by rewrite !decide_True by lia.
  - destruct (decide (tv' < S tv)%nat).
    + rewrite decide_True in Hc by lia. done.
    + rewrite decide_False in Hc by lia. done.
Qed.

Lemma INDEX_ok T N : 0 <= N <= 3 -> INDEX (u32 T) N = (T / span (Z.to_nat (N + 2))) mod 64.
Proof.
  intros HN. unfold INDEX. change TVR_BITS with 8. change TVN_BITS with 6. rewrite bucket_index by lia.
  assert (N = 0 \/ N = 1 \/ N = 2 \/ N = 3) as [->|[->|[->| ->]]] by lia; done.
Qed.

Lemma fits_ge T c a D e : next_bucket T c -> fits T c a D e -> a <> work_list -> T <= D.
Proof.
  intros Hc Hf Ha. destruct a as [| |[|[|tv]] i| |]; try done; unfold fits in Hf; [destruct Hf; lia|lia|].
  destruct Hf as (Htv & HD & _). specialize (Hc (S (S tv)) Htv).
  destruct (span_cases _ Htv) as [E|[E|[E|E]]]; rewrite E in *; cbn [span] in *; div_lia.
Qed.

Lemma mod_span_S T tv :
  (2 <= tv <= 4)%nat -> T mod span tv = 0 -> ((T / span tv) mod 64 = 0 <-> T mod span (S tv) = 0).
Proof.
  intros Htv. destruct (span_cases tv ltac:(lia)) as [->|[->|[->| ->]]]; try lia; cbn [span]; div_lia.
Qed.

(** The levels [tv], [tv + 1], ... as long as their bucket starts now. *)
Fixpoint cascade_from (n tv : nat) (s : tvec_base) : outcome tvec_base :=
  match n with
  | O => Ret s
  | S n =>
      let! (i, s) := cascade s tv (INDEX (timer_jiffies s) (Z.of_nat tv - 2)) in
      if negb (i =? 0) then Ret s else cascade_from n (S tv) s
  end.

Lemma cascade_all_from s index :
  cascade_all s index = if negb (index =? 0) then Ret s else cascade_from 4 2 s.
Proof.
  unfold cascade_all. destruct (negb _); [done|]. cbn [cascade_from]. change (Z.of_nat 2 - 2) with 0.
  change (Z.of_nat 3 - 2) with 1. change (Z.of_nat 4 - 2) with 2. change (Z.of_nat 5 - 2) with 3.
  destruct (cascade s 2 _) as [[i1 s1]|]; [|done]. destruct (negb _); [done|].
  destruct (cascade s1 3 _) as [[i2 s2]|]; [|done]. destruct (negb _); [done|].
  destruct (cascade s2 4 _) as [[i3 s3]|]; [|done]. destruct (negb _); [done|].
  destruct (cascade s3 5 _) as [[i4 s4]|]; [|done]. by destruct (negb _).
Qed.

Lemma cascade_from_ok n : forall tv s T c pend m,
  (2 <= tv)%nat -> (n + tv = 6)%nat -> wheel s T c pend m [] -> heads_in m -> up_to T c tv ->
  (n <> 0%nat -> T mod span tv = 0) ->
  exists h' m' c', cascade_from n tv s = Ret (set_lists s h') /\ cascaded s T pend m h' c' m' /\
    forall tv, (2 <= tv <= 5)%nat -> past T c' tv.
Proof.
  induction n as [|n IH]; intros tv s T c pend m Htv Hn W Hh Hc Hmod; cbn [cascade_from].
  - exists (lists s), m, c. split; [by destruct s|]. split; [by split_and!; [destruct s|..]|].
    apply (up_to_done T c tv Hc); lia.
  - specialize (Hmod ltac:(done)). rewrite (w_jiffies _ _ _ _ _ _ W), INDEX_ok by lia.
    replace (Z.to_nat (Z.of_nat tv - 2 + 2)) with tv by lia.
    destruct (cascade_step s T c pend m tv ltac:(lia) W Hh Hc Hmod) as (h1 & m1 & c1 & H1 & (W1 & Hh1 & Hw1 & Ha1) & Hc1).
    rewrite H1. destruct ((T / span tv) mod 64 =? 0) eqn:E; cbn [negb].
    + destruct (IH (S tv) (set_lists s h1) T c1 pend m1) as (h2 & m2 & c2 & H2 & (W2 & Hh2 & Hw2 & Ha2) & Hc2);
        [lia|lia|done|done|done| |].
      { intros Hn0. apply Z.eqb_eq in E. apply mod_span_S; [lia|done..]. }
      exists h2, m2, c2. split; [exact H2|]. split; [|done]. split_and!; [exact W2|done|by rewrite Hw2|].
      intros x Hx. by apply Ha2, Ha1.
    + exists h1, m1, c1. split; [done|]. split; [done|]. apply (up_to_done T c1 (S tv) Hc1); [lia|].
      intros Hlt Hm. apply Z.eqb_neq in E. by apply E, mod_span_S; [lia|..].
Qed.

(** The cascades of one tick. *)
Lemma cascade_all_ok s T c pend m :
  wheel s T c pend m [] -> heads_in m -> up_to T c 2 ->
  exists h' m' c', cascade_all s (T mod 256) = Ret (set_lists s h') /\ cascaded s T pend m h' c' m' /\
    forall tv, (2 <= tv <= 5)%nat -> past T c' tv.
Proof.
  intros W Hh Hc. rewrite cascade_all_from. destruct (T mod 256 =? 0) eqn:E2; cbn [negb].
  - apply (cascade_from_ok 4 2 s T c pend m); try done; cbn [span]; lia.
  - exists (lists s), m, c. split; [by destruct s|]. split; [by split_and!; [destruct s|..]|].
    apply (up_to_done T c 2 Hc); [lia|]. cbn [span]. lia.
Qed.

(** ** [mod_timer] and [del_timer] *)

Definition is_pending (pend : gmap nat Z) (t : nat) : bool := match pend !! t with Some _ => true | None => false end.

(** The due ticks after [mod_timer]: a pending timer with the same expiry
    stays where it is. *)
Definition mod_due (T : Z) (pend : gmap nat Z) (t : nat) (old e : Z) : gmap nat Z :=
  if (old =? e) && is_pending pend t then pend else <[t := due_of T e]> pend.

Definition work_length (m : gmap addr (list addr)) : nat := length (default [] (m !! work_list)).

(** What an operation on timer [t] leaves alone. *)
Record kept (s s' : tvec_base) (m m' : gmap addr (list addr)) : Prop := {
  k_jiffies : timer_jiffies s' = timer_jiffies s /\ jiffies s' = jiffies s /\ log s' = log s;
  k_heads : heads_in m -> heads_in m';
  k_work : (work_length m' <= work_length m)%nat;
  k_is_work : is_Some (m' !! work_list) <-> is_Some (m !! work_list);
  k_alloc x : allocated (lists s) x -> allocated (lists s') x }.

Lemma wheel_kept_refl s m : kept s s m m.
Proof. by split. Qed.

Lemma wheel_kept_trans s1 s2 s3 m1 m2 m3 : kept s1 s2 m1 m2 -> kept s2 s3 m2 m3 -> kept s1 s3 m1 m3.
Proof.
  intros [(A1 & A2 & A3) B1 C1 D1 E1] [(A4 & A5 & A6) B2 C2 D2 E2]. split; [split_and!; congruence|auto|lia| |auto].
  by rewrite D2.
Qed.

Lemma float_idle s T c pend m t : pend !! t = None -> wheel s T c pend m [] -> wheel s T c pend m [t].
Proof.
  intros Ht W. split; try apply W.
  - by intros t' ->%list_elem_of_singleton.
  - intros t' tm H1 _. apply (w_idle _ _ _ _ _ _ W t' tm H1). apply not_elem_of_nil.
Qed.

(** The expiry of a timer in no list may be changed. *)
Lemma set_expires_ok s T c pend m t tm e :
  wheel s T c pend m [t] -> timers s !! t = Some tm -> is_u32 e ->
  set_expires s t e = Ret (set_timers s (<[t := Timer e (function tm) (data tm)]> (timers s))) /\
  wheel (set_timers s (<[t := Timer e (function tm) (data tm)]> (timers s))) T c pend m [t].
Proof.
  intros W Ht He. assert (Hp : pend !! t = None) by (apply (w_floating _ _ _ _ _ _ W); by apply elem_of_cons; left).
  split; [unfold set_expires, timer; by rewrite Ht|].
  assert (Hins : forall t' tm', <[t := Timer e (function tm) (data tm)]> (timers s) !! t' = Some tm' ->
    exists tm0, timers s !! t' = Some tm0 /\ function tm' = function tm0 /\ is_u32 (expires tm')).
  { intros t' tm' H. destruct (decide (t = t')) as [<-|Hne].
    - rewrite lookup_insert_eq in H. injection H as <-. exists tm. done.
    - rewrite lookup_insert_ne in H by done. exists tm'. split; [done|]. split; [done|]. by apply (w_timers _ _ _ _ _ _ W t'). }
  split; cbn [lists timers timer_jiffies set_timers]; try apply W.
  - intros a xs x Ha Hx. destruct (w_entries _ _ _ _ _ _ W a xs x Ha Hx) as (t' & tm' & D & -> & H1 & H2 & H3).
    exists t', tm', D. rewrite lookup_insert_ne by congruence. done.
  - intros t' tm' (tm0 & H0 & _)%Hins. by apply (w_idle _ _ _ _ _ _ W t' tm0).
  - intros t' tm' (tm0 & H0 & _)%Hins. by apply (w_alloc _ _ _ _ _ _ W t' tm0).
  - intros t' tm' (tm0 & H0 & -> & Hu)%Hins. split; [|done]. by apply (w_timers _ _ _ _ _ _ W t' tm0).
Qed.

(** Taking a timer out of its list. *)
Lemma detach_kept s T c pend m t tm (b : bool) D :
  wheel s T c pend m [] -> timers s !! t = Some tm -> pend !! t = Some D ->
  exists h' m', detach_timer s t b = Ret (set_lists s h') /\
    wheel (set_lists s h') T c (delete t pend) m' (if b then [] else [t]) /\ kept s (set_lists s h') m m'.
Proof.
  intros W Ht HD. destruct (wheel_where W t D HD) as (a & xs1 & xs2 & Ha).
  destruct (detach_ok W a xs1 t xs2 b Ha) as (h' & H1 & W1 & Hal).
  exists h', (<[a := xs1 ++ xs2]> m). split; [done|]. split; [done|]. split; [done| | | |done].
  - intros Hh d Hd. destruct (decide (a = d)) as [<-|Hne]; [rewrite lookup_insert_eq; eauto|].
    rewrite lookup_insert_ne by done. by apply Hh.
  - unfold work_length. destruct (decide (a = work_list)) as [->|Hne].
    + rewrite lookup_insert_eq, Ha. simpl. rewrite !length_app. simpl. lia.
    + by rewrite lookup_insert_ne.
  - destruct (decide (a = work_list)) as [->|Hne]; [rewrite lookup_insert_eq, Ha; split; eauto|by rewrite lookup_insert_ne].
Qed.

Lemma add_kept s T c pend m t tm :
  wheel s T c pend m [t] -> timers s !! t = Some tm -> heads_in m -> next_bucket T c ->
  exists h' m', internal_add_timer s t = Ret (set_lists s h') /\
    wheel (set_lists s h') T c (<[t := due_of T (expires tm)]> pend) m' [] /\ kept s (set_lists s h') m m'.
Proof.
  intros W Ht Hh Hc. destruct (w_timers _ _ _ _ _ _ W t tm Ht) as [_ Hu].
  destruct (timer_vec_fits T c (expires tm) Hu Hc) as [_ Hhd]. destruct (Hh _ Hhd) as [xs Hxs].
  destruct (internal_add_ok W t [] tm xs eq_refl (not_elem_of_nil t) Ht Hc Hxs) as (h' & H1 & W1 & HF).
  set (a := timer_vec _ _) in *. assert (a <> work_list) by by intros E; rewrite E in Hhd.
  exists h', (<[a := xs ++ [entry t]]> m). split; [done|]. split; [done|]. split; [done| | | |apply HF].
  - intros _ d Hd. destruct (decide (a = d)) as [<-|Hne]; [rewrite lookup_insert_eq; eauto|].
    rewrite lookup_insert_ne by done. by apply Hh.
  - unfold work_length. by rewrite lookup_insert_ne.
  - by rewrite lookup_insert_ne.
Qed.

Lemma __mod_timer_ok s T c pend m t tm e :
  wheel s T c pend m [] -> heads_in m -> next_bucket T c -> timers s !! t = Some tm -> is_u32 e ->
  exists s' m', __mod_timer s t e = Ret (b2z (is_pending pend t), s') /\
    wheel s' T c (<[t := due_of T e]> pend) m' [] /\ kept s s' m m' /\
    timers s' = <[t := Timer e (function tm) (data tm)]> (timers s).
Proof.
  intros W Hh Hc Ht He. unfold __mod_timer, timer. rewrite Ht.
  destruct (w_timers _ _ _ _ _ _ W t tm Ht) as [Hf _]. apply Z.eqb_neq in Hf. rewrite Hf.
  rewrite (timer_pending_ok W t tm Ht (not_elem_of_nil t)). unfold is_pending.
  assert (exists h1 m1, (let! (ret, s) := (if match pend !! t with Some _ => true | None => false end
              then let! s := detach_timer s t false in Ret (1, s) else Ret (0, s)) in Ret (ret, s)) =
            Ret (b2z match pend !! t with Some _ => true | None => false end, set_lists s h1) /\
            wheel (set_lists s h1) T c (delete t pend) m1 [t] /\ kept s (set_lists s h1) m m1)
    as (h1 & m1 & H1 & W1 & K1).
  { destruct (pend !! t) as [D|] eqn:HD.
    - destruct (detach_kept s T c pend m t tm false D W Ht HD) as (h1 & m1 & -> & W1 & K1). by exists h1, m1.
    - exists (lists s), m. replace (set_lists s (lists s)) with s by by destruct s. split; [done|].
      rewrite delete_id by done. split; [by apply float_idle|apply wheel_kept_refl]. }
  destruct (if match pend !! t with Some _ => true | None => false end then _ else _) as [[ret s1]|]; [|done].
  injection H1 as -> ->.
  destruct (set_expires_ok _ T c (delete t pend) m1 t tm e W1 Ht He) as [H2 W2]. cbn [timers set_lists] in H2, W2. rewrite H2.
  edestruct (add_kept _ T c (delete t pend) m1 t (Timer e (function tm) (data tm)) W2) as (h3 & m3 & H3 & W3 & K3).
  - apply lookup_insert_eq.
  - by apply (k_heads _ _ _ _ K1).
  - done.
  - rewrite H3. eexists _, m3. split; [done|]. cbn [expires] in W3. rewrite insert_delete_eq in W3.
    split; [exact W3|]. split; [|done]. eapply wheel_kept_trans; [exact K1|].
    destruct K3 as [A B C D F]. by split.
Qed.

Lemma mod_timer_ok s T c pend m t tm e :
  wheel s T c pend m [] -> heads_in m -> next_bucket T c -> timers s !! t = Some tm -> is_u32 e ->
  exists s' m', mod_timer s t e = Ret (b2z (is_pending pend t), s') /\
    wheel s' T c (mod_due T pend t (expires tm) e) m' [] /\ kept s s' m m' /\
    timers s' = <[t := Timer e (function tm) (data tm)]> (timers s).
Proof.
  intros W Hh Hc Ht He. unfold mod_timer, timer, mod_due. rewrite Ht.
  destruct (w_timers _ _ _ _ _ _ W t tm Ht) as [Hf _]. apply Z.eqb_neq in Hf. rewrite Hf.
  destruct (__mod_timer_ok s T c pend m t tm e W Hh Hc Ht He) as (s' & m' & H1 & W1 & K1 & E1).
  destruct (expires tm =? e) eqn:Ee; cbn [andb]; [|by exists s', m'].
  rewrite (timer_pending_ok W t tm Ht (not_elem_of_nil t)). fold (is_pending pend t).
  destruct (is_pending pend t) eqn:Ep; [|by exists s', m'].
  exists s, m. split; [done|]. split; [done|]. split; [apply wheel_kept_refl|].
  apply Z.eqb_eq in Ee as <-. rewrite insert_id; [done|]. by destruct tm.
Qed.

Lemma del_timer_ok s T c pend m t tm :
  wheel s T c pend m [] -> timers s !! t = Some tm ->
  exists s' m', del_timer s t = Ret (b2z (is_pending pend t), s') /\
    wheel s' T c (delete t pend) m' [] /\ kept s s' m m' /\ timers s' = timers s.
Proof.
  intros W Ht. unfold del_timer. rewrite (timer_pending_ok W t tm Ht (not_elem_of_nil t)). unfold is_pending.
  destruct (pend !! t) as [D|] eqn:HD.
  - destruct (detach_kept s T c pend m t tm true D W Ht HD) as (h1 & m1 & -> & W1 & K1). by exists (set_lists s h1), m1.
  - exists s, m. rewrite delete_id by done. split; [done|]. split; [done|]. split; [apply wheel_kept_refl|done].
Qed.

(** ** The abstract machine *)

(** The due ticks of the pending timers, the expiry of every timer, and what
    was run. *)
Record sstate := SState { due : gmap nat Z; exps : gmap nat Z; slog : list event }.

Definition spec_call (T : Z) (st : sstate) (c : call) : sstate :=
  match c with
  | Mod_timer t e => SState (mod_due T (due st) t (default 0 (exps st !! t)) e) (<[t := e]> (exps st)) (slog st)
  | Del_timer t => SState (delete t (due st)) (exps st) (slog st)
  end.

Section machine.
(** What the functions of the timers do, and which timers there are. *)
Context (calls_of : Z -> Z -> list event -> list call) (F : gmap nat (Z * Z)).

Definition good_call (c : call) : Prop :=
  match c with Mod_timer t e => is_Some (F !! t) /\ is_u32 e | Del_timer t => is_Some (F !! t) end.

(** The timer [t] runs at tick [T]: it is no longer pending, and its
    function makes its calls, for which the next tick is the earliest. *)
Definition spec_run (T : Z) (st : sstate) (t : nat) (fd : Z * Z) : sstate :=
  let st := SState (delete t (due st)) (exps st) (slog st ++ [Ran t (u32 T)]) in
  foldl (spec_call (T + 1)) st (calls_of fd.1 fd.2 (slog st)).

(** One tick: timers that are due run, in some order, until none is left. *)
Inductive fires (T : Z) : sstate -> sstate -> Prop :=
| fires_done st : (forall t D, due st !! t = Some D -> D <> T) -> fires T st st
| fires_run st st' t fd :
    due st !! t = Some T -> F !! t = Some fd -> fires T (spec_run T st t fd) st' -> fires T st st'.

(** All ticks from [T] on, [n] of them. *)
Inductive ticks : nat -> Z -> sstate -> sstate -> Prop :=
| ticks_0 T st : ticks 0 T st st
| ticks_S n T st st1 st2 : fires T st st1 -> ticks n (T + 1) st1 st2 -> ticks (S n) T st st2.

(** ** Refinement *)

Definition fn_data (tm : timer_list) : Z * Z := (function tm, data tm).

(** The wheel at tick [T] holds the timers of [st]. *)
Record sim (s : tvec_base) (st : sstate) (T : Z) (c : nat -> Z) (m : gmap addr (list addr)) : Prop := {
  sim_wheel : wheel s T c (due st) m [];
  sim_heads : heads_in m;
  sim_exps : exps st = expires <$> timers s;
  sim_log : slog st = log s;
  sim_fn : F = fn_data <$> timers s }.

Lemma fmap_insert_id {A B} (f : A -> B) (g : gmap nat A) k x y : g !! k = Some x -> f y = f x -> f <$> <[k := y]> g = f <$> g.
Proof. intros Hk E. rewrite fmap_insert, E. apply insert_id. by rewrite lookup_fmap, Hk. Qed.

Lemma do_call_ok s st T c m cl :
  sim s st T c m -> next_bucket T c -> good_call cl ->
  exists s' m', do_call s cl = Ret s' /\ sim s' (spec_call T st cl) T c m' /\ kept s s' m m'.
Proof.
  intros [W Hh He Hl Hf] Hc Hg.
  assert (Hex : forall t, is_Some (F !! t) -> exists tm, timers s !! t = Some tm).
  { intros t [fd Hfd]. rewrite Hf, lookup_fmap in Hfd. destruct (timers s !! t); [eauto|done]. }
  destruct cl as [t e|t]; cbn [do_call spec_call good_call] in *.
  - destruct Hg as [Ht Hu]. destruct (Hex t Ht) as [tm Htm].
    destruct (mod_timer_ok s T c (due st) m t tm e W Hh Hc Htm Hu) as (s' & m' & -> & W' & K & Et).
    exists s', m'. split; [done|]. split; [|done]. split; cbn [due exps slog].
    + by rewrite He, lookup_fmap, Htm.
    + by apply (k_heads _ _ _ _ K).
    + by rewrite Et, fmap_insert, He.
    + rewrite Hl. symmetry. apply K.
    + by rewrite Et, (fmap_insert_id _ _ _ tm).
  - destruct (Hex t Hg) as [tm Htm].
    destruct (del_timer_ok s T c (due st) m t tm W Htm) as (s' & m' & -> & W' & K & Et).
    exists s', m'. split; [done|]. split; [|done]. split; cbn [due exps slog].
    + done.
    + by apply (k_heads _ _ _ _ K).
    + by rewrite Et.
    + rewrite Hl. symmetry. apply K.
    + by rewrite Et.
Qed.

Lemma do_calls_ok cs : forall s st T c m,
  sim s st T c m -> next_bucket T c -> Forall good_call cs ->
  exists s' m', do_calls s cs = Ret s' /\ sim s' (foldl (spec_call T) st cs) T c m' /\ kept s s' m m'.
Proof.
  induction cs as [|cl cs IH]; intros s st T c m S Hc Hg; cbn [do_calls foldl].
  - exists s, m. split; [done|]. split; [done|apply wheel_kept_refl].
  - apply Forall_cons in Hg as [Hg1 Hg]. destruct (do_call_ok s st T c m cl S Hc Hg1) as (s1 & m1 & -> & S1 & K1).
    destruct (IH s1 _ T c m1 S1 Hc Hg) as (s2 & m2 & H2 & S2 & K2). exists s2, m2. split; [done|].
    split; [done|]. by eapply wheel_kept_trans.
Qed.

(** Only the work list holds timers due before the wheel's tick. *)

Context (Hcalls : forall fn data l, Forall good_call (calls_of fn data l)).

Lemma work_list_ok fuel : forall s st T c m w,
  sim s st T c m -> next_bucket T c -> m !! work_list = Some w -> (length w < fuel)%nat ->
  exists s' st' m', run_work_list calls_of fuel s = Ret s' /\ fires (T - 1) st st' /\ sim s' st' T c m' /\
    m' !! work_list = Some [] /\ timer_jiffies s' = timer_jiffies s /\ jiffies s' = jiffies s /\
    (forall x, allocated (lists s) x -> allocated (lists s') x).
Proof.
  induction fuel as [|fuel IH]; intros s st T c m w S Hc Hw Hf; [lia|]. cbn [run_work_list].
  destruct S as [W Hh He Hl HF]. pose proof (w_rings _ _ _ _ _ _ W) as HR.
  rewrite (list_empty_ok _ _ _ _ HR Hw). destruct w as [|x w].
  - exists s, st, m. split; [done|]. split; [|done]. apply fires_done. intros t D HD.
    destruct (w_pending _ _ _ _ _ _ W t D HD) as (a & xs & Ha & Hin).
    destruct (w_entries _ _ _ _ _ _ W a xs _ Ha Hin) as (t' & tm & D' & [= <-] & _ & HD' & Hfit).
    assert (D' = D) as -> by congruence. assert (a <> work_list).
    { intros ->. rewrite Hw in Ha. injection Ha as <-. by apply elem_of_nil in Hin. }
    pose proof (fits_ge _ _ _ _ _ Hc Hfit H). lia.
  - destruct (w_entries _ _ _ _ _ _ W work_list _ x Hw) as (t & tm & D & -> & Htm & HD & Hfit); [by apply elem_of_cons; left|].
    cbn [fits] in Hfit. subst D.
    destruct (ring_cut _ _ work_list [] _ HR Hw) as (p & n & Hcut & [Hn _]).
    pose proof (cut_p _ _ _ _ _ _ Hcut) as E; injection E as <-. pose proof (cut_n _ _ _ _ _ _ Hcut) as E; injection E as <-.
    unfold next. rewrite Hn. unfold timer. rewrite Htm.
    destruct (detach_ok W work_list [] t w true Hw) as (h1 & H1 & W1 & Hal1). rewrite H1. cbn [app] in W1.
    set (s1 := set_log _ _).
    assert (S1 : sim s1 (SState (delete t (due st)) (exps st) (slog st ++ [Ran t (u32 (T - 1))])) T c (<[work_list := w]> m)).
    { split; cbn [due exps slog s1 timers log timer_jiffies set_log set_lists]; try done.
      - destruct W1 as [A1 A2 A3 A4 A5 A6 A7 A8 A9]. by split.
      - intros a Ha. rewrite lookup_insert_ne; [by apply Hh|]. intros <-. done.
      - rewrite Hl, (w_jiffies _ _ _ _ _ _ W). do 3 f_equal. unfold u32, wrap. by rewrite Zminus_mod_idemp_l. }
    destruct (do_calls_ok (calls_of (function tm) (data tm) (log s1)) s1 _ T c _ S1 Hc (Hcalls _ _ _)) as (s2 & m2 & H2 & S2 & K2).
    rewrite H2. destruct (k_is_work _ _ _ _ K2) as [_ Hw2]. destruct Hw2 as [w2 Hw2]; [rewrite lookup_insert_eq; eauto|].
    destruct (IH s2 _ T c m2 w2 S2 Hc Hw2) as (s3 & st3 & m3 & H3 & F3 & S3 & Hw3 & Hj3 & Hjf & Hal3).
    { pose proof (k_work _ _ _ _ K2) as Hlen. unfold work_length in Hlen. rewrite lookup_insert_eq, Hw2 in Hlen. simpl in Hlen, Hf. lia. }
    destruct (k_jiffies _ _ _ _ K2) as (J1 & J2 & _).
    exists s3, st3, m3. split; [exact H3|]. split.
    + eapply (fires_run (T - 1) st st3 t (fn_data tm)); [done|by rewrite HF, lookup_fmap, Htm|].
      unfold spec_run. cbn [due exps slog fn_data fst snd]. replace (T - 1 + 1) with T by lia.
      replace (slog st ++ [Ran t (u32 (T - 1))]) with (log s1) at 2; [exact F3|]. symmetry. apply S1.
    + split; [done|]. split; [done|]. split; [by rewrite Hj3, J1|]. split; [by rewrite Hjf, J2|].
      intros x Hx. apply Hal3, (k_alloc _ _ _ _ K2). cbn [s1 lists set_log set_lists]. by apply Hal1.
Qed.
End machine.

(** ** One tick *)

Definition ceil (T : Z) (tv : nat) : Z := (T + span tv - 1) / span tv.

(** Between two rounds: no local work list. *)
Definition ready (F : gmap nat (Z * Z)) (s : tvec_base) (st : sstate) (T : Z) : Prop :=
  exists m, sim F s st T (ceil T) m /\ m !! work_list = None /\ allocated (lists s) work_list.

Lemma ready_jiffies F s st T : ready F s st T -> timer_jiffies s = u32 T.
Proof. intros (m & S & _). apply S. Qed.

Lemma up_to_ceil T : up_to T (ceil T) 2.
Proof. intros tv Htv. rewrite decide_False by lia. done. Qed.

Lemma ring_allocated h (m : gmap addr (list addr)) a xs : rings h m -> m !! a = Some xs -> allocated h a.
Proof.
  intros HR Ha. destruct (ring_cut _ _ a [] xs HR Ha) as (p & n & Hc & [? _]).
  pose proof (cut_p _ _ _ _ _ _ Hc) as E; injection E as <-.
  rewrite <-(app_nil_r xs) in Ha. destruct (ring_cut _ _ a xs [] HR Ha) as (p' & n' & Hc' & [_ ?]).
  pose proof (cut_n _ _ _ _ _ _ Hc') as E; injection E as <-. split; eauto.
Qed.

(** The timers due at [T] go to the work list, and the tick is over. *)
Lemma splice_ok s T c pend m :
  wheel s T c pend m [] -> heads_in m -> (forall tv, (2 <= tv <= 5)%nat -> past T c tv) -> m !! work_list = Some [] ->
  exists h' xs, list_splice_init (lists s) (vec 1 (T mod 256)) work_list = Ret h' /\
    let s' := set_lists (set_timer_jiffies s (u32 (timer_jiffies s + 1))) h' in
    let m' := <[vec 1 (T mod 256) := []]> (<[work_list := xs]> m) in
    wheel s' (T + 1) c pend m' [] /\ (length xs <= size (timers s))%nat /\ (forall x, allocated (lists s) x -> allocated h' x).
Proof.
  intros W Hh Hc Hw. set (a := vec 1 (T mod 256)).
  assert (Hha : is_head a) by (pose proof (Z.mod_pos_bound T 256); cbn; lia).
  destruct (Hh a Hha) as [xs Hxs]. assert (Hne : work_list <> a) by done.
  destruct (list_splice_init_ok _ _ a xs work_list [] (w_rings _ _ _ _ _ _ W) Hxs Hw Hne) as (h' & H1 & HR & HF).
  rewrite app_nil_r in HR, HF. exists h', xs. split; [done|]. cbn zeta.
  destruct (wheel_entries _ _ _ _ _ _ _ _ W Hxs) as (ts & -> & _ & Hlen). rewrite length_fmap.
  split; [|split; [done|apply HF]].
  assert (Hin : forall b ys x, <[a := []]> (<[work_list := entry <$> ts]> m) !! b = Some ys -> x ∈ ys ->
    (b = work_list /\ x ∈ entry <$> ts) \/ (b <> work_list /\ b <> a /\ m !! b = Some ys)).
  { intros b ys x Hb Hx. destruct (decide (a = b)) as [<-|Hab].
    - rewrite lookup_insert_eq in Hb. injection Hb as <-. by apply elem_of_nil in Hx.
    - rewrite lookup_insert_ne in Hb by done. destruct (decide (work_list = b)) as [<-|Hwb].
      + rewrite lookup_insert_eq in Hb. injection Hb as <-. auto.
      + rewrite lookup_insert_ne in Hb by done. auto. }
  split; cbn [lists timers timer_jiffies set_lists set_timer_jiffies]; try done; try apply W.
  - rewrite (w_jiffies _ _ _ _ _ _ W). unfold u32, wrap. by rewrite Zplus_mod_idemp_l.
  - intros b ys. destruct (decide (a = b)) as [<-|Hab]; [by left|]. rewrite lookup_insert_ne by done.
    destruct (decide (work_list = b)) as [<-|Hwb]; [by right|]. rewrite lookup_insert_ne by done. apply W.
  - intros b ys x Hb Hx. destruct (Hin b ys x Hb Hx) as [[-> Hx']|(Hbw & Hba & Hb')].
    + destruct (w_entries _ _ _ _ _ _ W a _ x Hxs Hx') as (t & tm & D & -> & H3 & H4 & H5 & H6).
      exists t, tm, D. split_and!; [done..|]. cbn [fits]. div_lia.
    + destruct (w_entries _ _ _ _ _ _ W b ys x Hb' Hx) as (t & tm & D & -> & H3 & H4 & H5).
      exists t, tm, D. split_and!; [done..|]. destruct b as [| |[|[|tv]] i| |]; try done; unfold fits in *; [destruct H5; lia| |].
      * destruct H5 as [H5 ->]. split; [|done]. assert (D <> T) by (intros ->; done). lia.
      * destruct H5 as (H5 & H6 & H7 & H8 & H9). split_and!; [lia..|done|done|lia].
  - intros t D HD. destruct (w_pending _ _ _ _ _ _ W t D HD) as (b & ys & Hb & Hy).
    destruct (decide (b = a)) as [->|Hba].
    + exists work_list, (entry <$> ts). rewrite lookup_insert_ne, lookup_insert_eq by done. split; [done|].
      rewrite Hxs in Hb. by injection Hb as <-.
    + exists b, ys. assert (b <> work_list) by (intros ->; rewrite Hw in Hb; injection Hb as <-; by apply elem_of_nil in Hy).
      by rewrite !lookup_insert_ne by done.
  - intros t tm H3 _ H5. destruct (frame_off _ _ _ HF (entry t)) as [-> _].
    + rewrite !not_elem_of_cons. split_and!; [done..|]. intros Hx.
      apply (wheel_apart W t H5 a _ Hxs). by apply elem_of_cons; right.
    + apply (w_idle _ _ _ _ _ _ W t tm H3); [apply not_elem_of_nil|done].
  - intros t tm H3. apply HF. by eapply w_alloc.
Qed.

Section ticks.
Context (calls_of : Z -> Z -> list event -> list call) (F : gmap nat (Z * Z)).
Context (Hcalls : forall fn data l, Forall (good_call F) (calls_of fn data l)).

(** One round of [__run_timers] is one tick of the abstract machine. *)
Lemma run_tick_ok s st T :
  ready F s st T -> exists s' st', run_tick calls_of s = Ret s' /\ fires calls_of F T st st' /\ ready F s' st' (T + 1) /\
    jiffies s' = jiffies s.
Proof.
  intros (m & [W Hh He Hl HF] & Hw & Hal). unfold run_tick.
  destruct (cascade_end s T (ceil T) (due st) m work_list W ltac:(by right) Hw Hal) as (h1 & H1 & W1 & HF1). rewrite H1.
  assert (Hh1 : heads_in (<[work_list := []]> m)).
  { intros a Ha. rewrite lookup_insert_ne; [by apply Hh|]. by intros <-. }
  cbn [timer_jiffies set_lists]. rewrite (w_jiffies _ _ _ _ _ _ W), ring_index.
  destruct (cascade_all_ok _ T (ceil T) (due st) _ W1 Hh1 (up_to_ceil T)) as (h2 & m2 & c2 & H2 & (W2 & Hh2 & Hw2 & Hal2) & Hc2).
  rewrite H2. rewrite lookup_insert_eq in Hw2.
  destruct (splice_ok _ T c2 (due st) m2 W2 Hh2 Hc2 Hw2) as (h3 & xs & H3 & W3 & Hlen & Hal3).
  cbn [lists set_lists set_timer_jiffies timer_jiffies timers jiffies log] in *. rewrite H3.
  assert (Hc3 : next_bucket (T + 1) c2).
  { intros tv Htv. specialize (Hc2 tv Htv). unfold past in Hc2. rewrite Hc2.
    destruct (span_cases tv Htv) as [->|[->|[->| ->]]]; cbn [span]; div_lia. }
  rewrite (w_jiffies _ _ _ _ _ _ W) in W3.
  set (s3 := set_lists (set_timer_jiffies (set_lists (set_lists s h1) h2) (u32 (u32 T + 1))) h3) in *. set (m3 := <[vec 1 (T mod 256) := []]> (<[work_list := xs]> m2)) in *.
  assert (S3 : sim F s3 st (T + 1) c2 m3).
  { split; [exact W3| |done..]. intros a Ha. unfold m3. destruct (decide (vec 1 (T mod 256) = a)) as [<-|Hne].
    - rewrite lookup_insert_eq. eauto.
    - rewrite lookup_insert_ne by done. destruct (decide (work_list = a)) as [<-|Hne']; [done|].
      rewrite lookup_insert_ne by done. by apply Hh2. }
  destruct (work_list_ok calls_of F Hcalls (S (size (timers s3))) s3 st (T + 1) c2 m3 xs S3 Hc3) as
    (s4 & st4 & m4 & H4 & F4 & [W4 Hh4 He4 Hl4 HF4] & Hw4 & Hj4 & Hjf4 & Hal4).
  { unfold m3. rewrite lookup_insert_ne by done. apply lookup_insert_eq. }
  { change (timers s3) with (timers s). change (timers (set_lists (set_lists s h1) h2)) with (timers s) in Hlen. lia. }
  exists s4, st4. split; [rewrite (w_jiffies _ _ _ _ _ _ W); exact H4|]. split; [by replace (T + 1 - 1) with T in F4 by lia|]. split; [|done].
  exists (delete work_list m4). split; [|split; [apply lookup_delete_eq|]].
  - split; [|intros a Ha; rewrite lookup_delete_ne; [by apply Hh4|by intros <-]|done..].
    apply (wheel_ext _ _ c2).
    { intros tv Htv. specialize (Hc2 tv Htv). unfold past in Hc2. rewrite Hc2. unfold ceil.
      destruct (span_cases tv Htv) as [->|[->|[->| ->]]]; cbn [span]; div_lia. }
    split; try apply W4.
    + by apply rings_delete, W4.
    + intros a ys [_ Ha]%lookup_delete_Some. by apply (w_keys _ _ _ _ _ _ W4 a ys).
    + intros a ys x [_ Ha]%lookup_delete_Some. by apply (w_entries _ _ _ _ _ _ W4).
    + intros t D HD. destruct (w_pending _ _ _ _ _ _ W4 t D HD) as (a & ys & Ha & Hin). exists a, ys. split; [|done].
      rewrite lookup_delete_ne; [done|]. intros <-. rewrite Hw4 in Ha. injection Ha as <-. by apply elem_of_nil in Hin.
  - eapply ring_allocated; [apply W4|exact Hw4].
Qed.

Lemma s32_jiffies T n : - 2 ^ 31 <= n < 2 ^ 31 -> s32 (u32 (T + n) - u32 T) = n.
Proof.
  intros Hn. unfold s32, swrap, u32, wrap. change (2 ^ (32 - 1)) with (2 ^ 31).
  rewrite <-Zplus_mod_idemp_l, <-Zminus_mod, Zplus_mod_idemp_l.
  replace (T + n - T + 2 ^ 31) with (n + 2 ^ 31) by lia. rewrite Z.mod_small by lia. lia.
Qed.

(** [__run_timers] catches up with [jiffies]. *)
Lemma run_loop_ok n : forall fuel s st T,
  ready F s st T -> jiffies s = u32 (T + Z.of_nat n - 1) -> Z.of_nat n < 2 ^ 31 -> (n < fuel)%nat ->
  exists s' st', run_loop calls_of fuel s = Ret s' /\ ticks calls_of F n T st st' /\ ready F s' st' (T + Z.of_nat n) /\
    jiffies s' = jiffies s.
Proof.
  induction n as [|n IH]; intros [|fuel] s st T R Hj Hn Hf; try lia; cbn [run_loop].
  - assert (E : time_after_eq (jiffies s) (timer_jiffies s) = false).
    { unfold time_after_eq. rewrite Hj, (ready_jiffies _ _ _ _ R).
      replace (T + Z.of_nat 0 - 1) with (T + -1) by lia. by rewrite s32_jiffies by lia. }
    rewrite E. exists s, st. split; [done|]. split; [constructor|]. split; [by replace (T + Z.of_nat 0) with T by lia|done].
  - assert (E : time_after_eq (jiffies s) (timer_jiffies s) = true).
    { unfold time_after_eq. rewrite Hj, (ready_jiffies _ _ _ _ R).
      replace (T + Z.of_nat (S n) - 1) with (T + Z.of_nat n) by lia. rewrite s32_jiffies by lia. lia. }
    rewrite E. destruct (run_tick_ok s st T R) as (s1 & st1 & H1 & F1 & R1 & J1). rewrite H1.
    destruct (IH fuel s1 st1 (T + 1) R1) as (s2 & st2 & H2 & F2 & R2 & J2); [rewrite J1, Hj; f_equal; lia|lia|lia|].
    exists s2, st2. split; [done|]. split; [by econstructor|]. split; [|by rewrite J2].
    by replace (T + Z.of_nat (S n)) with (T + 1 + Z.of_nat n) by lia.
Qed.

(** [__run_timers] runs one tick for every jiffy that has passed. *)
Lemma run_timers_spec s st T n :
  ready F s st T -> jiffies s = u32 (T + Z.of_nat n - 1) -> Z.of_nat n < 2 ^ 31 ->
  exists s' st', __run_timers calls_of s = Ret s' /\ ticks calls_of F n T st st' /\ ready F s' st' (T + Z.of_nat n) /\
    jiffies s' = jiffies s.
Proof.
  intros R Hj Hn. unfold __run_timers. apply run_loop_ok; try done.
  rewrite Hj, (ready_jiffies _ _ _ _ R). replace (T + Z.of_nat n - 1) with (T + (Z.of_nat n - 1)) by lia.
  rewrite s32_jiffies by lia. lia.
Qed.
End ticks.
