(* ===== verification/TimerMain.v ===== *)
(** * What the kernel timers guarantee

    The start of the wheel, and the theorems: the calls of the timer
    interface, the rounds of [__run_timers] as steps of the abstract machine,
    and timers that run exactly when they are due. *)

From Stdlib Require Import Sorted.
From stdpp Require Import gmap sorting.
From S2P Require Import Prelude ListHead Timer TimerWheel TimerRun.

(** ** Start *)

(** The heads that [init_vecs n _ tvs] makes lists of. *)
Definition init_head (n : nat) (tvs : list nat) (a : addr) : Prop :=
  exists tv i, a = vec tv i /\ tv ∈ tvs /\ 0 <= i < Z.of_nat n.

(** The lists are empty, and their heads are those of [P]. *)
Definition empty_lists (h : heads addr) (P : addr -> Prop) : Prop :=
  exists m, rings h m /\ (forall a xs, m !! a = Some xs -> P a /\ xs = []) /\ (forall a, P a -> is_Some (m !! a)).

Lemma empty_lists_ext h (P Q : addr -> Prop) : (forall a, P a <-> Q a) -> empty_lists h P -> empty_lists h Q.
Proof.
  intros HPQ (m & HR & H1 & H2). exists m. split; [done|]. split.
  - intros a xs Ha. destruct (H1 a xs Ha). by rewrite <-HPQ.
  - intros a Ha. by apply H2, HPQ.
Qed.

Lemma init_head_ok h P a :
  empty_lists h P -> ~ P a -> allocated h a ->
  exists h', INIT_LIST_HEAD h a = Ret h' /\ empty_lists h' (fun x => P x \/ x = a) /\ frame [a] h h'.
Proof.
  intros (m & HR & H1 & H2) Ha Hal. destruct (INIT_LIST_HEAD_ok h m a HR Hal) as (h' & E & HR' & HF).
  { intros b xs Hb. destruct (H1 b xs Hb) as [Hb' ->]. rewrite list_elem_of_singleton. by intros ->. }
  exists h'. split; [done|]. split; [|done]. exists (<[a := []]> m). split; [done|]. split.
  - intros b xs. destruct (decide (a = b)) as [<-|Hab]; [rewrite lookup_insert_eq; intros [= <-]; auto|].
    rewrite lookup_insert_ne by done. intros Hb. destruct (H1 b xs Hb). auto.
  - intros b [Hb| ->]; [|rewrite lookup_insert_eq; eauto]. rewrite lookup_insert_ne; [by apply H2|]. by intros <-.
Qed.

(** [INIT_LIST_HEAD] of one index in several vectors. *)
Lemma init_row_ok n tvs : forall h P,
  empty_lists h P -> NoDup tvs -> (forall tv, tv ∈ tvs -> ~ P (vec tv n) /\ allocated h (vec tv n)) ->
  exists h', foldl (fun h tv => let! h := h in INIT_LIST_HEAD h (vec tv n)) (Ret h) tvs = Ret h' /\
    empty_lists h' (fun x => P x \/ exists tv, tv ∈ tvs /\ x = vec tv n) /\ frame ((fun tv => vec tv n) <$> tvs) h h'.
Proof.
  induction tvs as [|tv tvs IH]; intros h P HE Hnd Hal; cbn [foldl].
  - exists h. split; [done|]. split; [|apply frame_refl]. eapply empty_lists_ext; [|done].
    intros a. split; [auto|]. intros [?|(tv & Hin & _)]; [done|by apply elem_of_nil in Hin].
  - apply NoDup_cons in Hnd as [Hni Hnd]. destruct (Hal tv) as [HP Ha]; [by apply elem_of_cons; left|].
    destruct (init_head_ok h P (vec tv n) HE HP Ha) as (h1 & E1 & HE1 & HF1). rewrite E1.
    destruct (IH h1 _ HE1 Hnd) as (h2 & E2 & HE2 & HF2).
    { intros tv' Hin. destruct (Hal tv') as [HP' Ha']; [by apply elem_of_cons; right|]. split; [|by apply (frame_alloc _ _ _ HF1)].
      intros [?|[= ->]]; done. }
    exists h2. split; [done|]. split.
    + eapply empty_lists_ext; [|exact HE2]. intros a. split.
      * intros [[?| ->]|(tv' & Hin & ->)]; [auto| |]; right; [exists tv|exists tv']; rewrite elem_of_cons; auto.
      * intros [?|(tv' & Hin & ->)]; [auto|]. apply elem_of_cons in Hin as [->|Hin]; [auto|]. right. eauto.
    + eapply frame_trans; (eapply frame_weaken; [|eassumption]); intros x; rewrite fmap_cons, ?elem_of_cons, ?elem_of_nil; tauto.
Qed.

Lemma init_vecs_ok n tvs : forall h P,
  empty_lists h P -> NoDup tvs -> (forall tv i, tv ∈ tvs -> 0 <= i < Z.of_nat n -> ~ P (vec tv i) /\ allocated h (vec tv i)) ->
  exists h', init_vecs n h tvs = Ret h' /\ empty_lists h' (fun x => P x \/ init_head n tvs x) /\
    (forall x, allocated h x -> allocated h' x) /\ (forall t, nxt h' !! entry t = nxt h !! entry t).
Proof.
  induction n as [|n IH]; intros h P HE Hnd Hal; cbn [init_vecs].
  - exists h. split; [done|]. split; [|done]. eapply empty_lists_ext; [|done].
    intros a. split; [auto|]. intros [?|(tv & i & _ & _ & Hi)]; [done|lia].
  - destruct (IH h P HE Hnd) as (h1 & E1 & HE1 & Hal1 & Hn1); [intros tv i Hin Hi; apply Hal; [done|lia]|].
    rewrite E1. destruct (init_row_ok (Z.of_nat n) tvs h1 _ HE1 Hnd) as (h2 & E2 & HE2 & HF2).
    { intros tv Hin. destruct (Hal tv (Z.of_nat n) Hin ltac:(lia)) as [HP Ha]. split; [|by apply Hal1].
      intros [?|(tv' & i & [= -> <-] & _ & Hi)]; [done|lia]. }
    exists h2. split; [done|]. split; [|split].
    + eapply empty_lists_ext; [|exact HE2]. intros a. split.
      * intros [[?|(tv & i & -> & Hin & Hi)]|(tv & Hin & ->)]; [auto| |]; right; [exists tv, i|exists tv, (Z.of_nat n)];
          (split; [done|split; [done|lia]]).
      * intros [?|(tv & i & -> & Hin & Hi)]; [auto|]. destruct (decide (i = Z.of_nat n)) as [->|]; [right; eauto|].
        left. right. exists tv, i. split; [done|split; [done|lia]].
    + intros x Hx. by apply (frame_alloc _ _ _ HF2), Hal1.
    + intros t. destruct (frame_off _ _ _ HF2 (entry t)) as [-> _]; [|by apply Hn1].
      intros (tv & E & _)%list_elem_of_fmap. done.
Qed.

(** After [init_timers_cpu] the wheel is at the current jiffy, with every
    timer idle. *)
Lemma init_timers_ok s :
  is_u32 (jiffies s) -> (forall a, is_head a \/ a = work_list -> allocated (lists s) a) ->
  (forall t tm, timers s !! t = Some tm -> function tm <> 0 /\ is_u32 (expires tm) /\
     allocated (lists s) (entry t) /\ nxt (lists s) !! entry t = Some NULL) ->
  exists s', init_timers_cpu s = Ret s' /\ timers s' = timers s /\ jiffies s' = jiffies s /\ log s' = log s /\
    ready (fn_data <$> timers s) s' (SState ∅ (expires <$> timers s) (log s)) (jiffies s).
Proof.
  intros Hj Hal Ht. unfold init_timers_cpu.
  assert (E0 : empty_lists (lists s) (fun _ => False)).
  { exists ∅. split; [|split; [|done]].
    - by split; intros *; rewrite lookup_empty.
    - by intros a xs; rewrite lookup_empty. }
  destruct (init_vecs_ok (Z.to_nat TVN_SIZE) [5; 4; 3; 2]%nat (lists s) _ E0) as (h1 & H1 & E1 & Hal1 & Hn1).
  { by apply (bool_decide_unpack _). }
  { intros tv i Hin Hi. change (Z.of_nat (Z.to_nat TVN_SIZE)) with 64 in Hi. split; [tauto|]. apply Hal. left.
    rewrite !elem_of_cons, elem_of_nil in Hin. assert (2 <= tv <= 5)%nat by lia.
    destruct tv as [|[|tv]]; [lia..|]. cbn. lia. }
  rewrite H1. destruct (init_vecs_ok (Z.to_nat TVR_SIZE) [1%nat] h1 _ E1) as (h2 & H2 & (m & HR & Hm1 & Hm2) & Hal2 & Hn2).
  { by apply (bool_decide_unpack _). }
  { intros tv i ->%list_elem_of_singleton Hi. change (Z.of_nat (Z.to_nat TVR_SIZE)) with 256 in Hi. split.
    - intros [?|(tv & j & [= <- <-] & Hin & _)]; [done|]. rewrite !elem_of_cons, elem_of_nil in Hin. lia.
    - apply Hal1, Hal. left. cbn. lia. }
  rewrite H2. eexists. split; [reflexivity|]. do 3 (split; [done|]).
  assert (Hdom : forall a, ((False \/ init_head (Z.to_nat TVN_SIZE) [5; 4; 3; 2]%nat a) \/ init_head (Z.to_nat TVR_SIZE) [1%nat] a) <-> is_head a).
  { intros a. split.
    - intros [[[]|(tv & i & -> & Hin & Hi)]|(tv & i & -> & ->%list_elem_of_singleton & Hi)].
      + change (Z.of_nat (Z.to_nat TVN_SIZE)) with 64 in Hi. rewrite !elem_of_cons, elem_of_nil in Hin.
        destruct tv as [|[|tv]]; [lia..|]. cbn. lia.
      + change (Z.of_nat (Z.to_nat TVR_SIZE)) with 256 in Hi. done.
    - intros Ha. destruct a as [| |[|[|tv]] i| |]; try done; cbn in Ha; [lia| |].
      + right. exists 1%nat, i. split; [done|]. split; [by apply list_elem_of_singleton|]. done.
      + left. right. exists (S (S tv)), i. split; [done|]. split; [|change (Z.of_nat (Z.to_nat TVN_SIZE)) with 64; lia].
        rewrite !elem_of_cons, elem_of_nil. lia. }
  exists m. split; [|split].
  - split; cbn [due exps slog timers log set_timer_jiffies set_lists]; try done.
    + split; cbn [lists timers timer_jiffies set_lists set_timer_jiffies]; try done.
      * symmetry. by apply Z.mod_small.
      * intros a xs Ha. left. by apply Hdom, (Hm1 a xs).
      * intros a xs x Ha Hx. destruct (Hm1 a xs Ha) as [_ ->]. by apply elem_of_nil in Hx.
      * intros t tm H3 _ _. rewrite Hn2, Hn1. by apply (Ht t tm).
      * intros t tm H3. apply Hal2, Hal1. by apply (Ht t tm).
      * intros t tm H3. by destruct (Ht t tm H3) as (? & ? & _).
    + intros a Ha. by apply Hm2, Hdom.
  - destruct (m !! work_list) as [xs|] eqn:E; [|done]. by destruct (proj1 (Hdom work_list) (proj1 (Hm1 work_list xs E))).
  - apply Hal2, Hal1, Hal. by right.
Qed.

(** ** Timers in time *)

(** Timer functions that leave the wheel alone. *)
Definition quiet (fn data : Z) (l : list event) : list call := [].

Lemma fires_quiet F T st st' :
  fires quiet F T st st' -> exists ts, NoDup ts /\ (forall t, t ∈ ts <-> due st !! t = Some T) /\
    st' = SState (filter (fun p => p.2 <> T) (due st)) (exps st) (slog st ++ ((fun t => Ran t (u32 T)) <$> ts)).
Proof.
  induction 1 as [st Hd|st st' t fd Ht Hfd _ (ts & Hnd & Hts & ->)].
  - exists []. split; [constructor|]. split; [intros t; rewrite elem_of_nil; split; [done|intros H; by destruct (Hd t T H)]|].
    destruct st as [d e l]. cbn in *. f_equal; [|by rewrite app_nil_r].
    symmetry. apply map_filter_id. intros t D HD. by apply (Hd t).
  - unfold spec_run, quiet in *. cbn [foldl due exps slog] in *. exists (t :: ts). split; [|split].
    + apply NoDup_cons. split; [|done]. rewrite Hts, lookup_delete_eq. done.
    + intros t'. rewrite elem_of_cons, Hts, lookup_delete_Some. destruct (decide (t = t')) as [<-|]; naive_solver.
    + rewrite <-app_assoc. f_equal. apply map_eq. intros t'. apply option_eq. intros D.
      rewrite !map_lookup_filter_Some, lookup_delete_Some. cbn. naive_solver.
Qed.

(** The event of a timer [p.1] that was due at [p.2]. *)
Definition run_at (p : nat * Z) : event := Ran p.1 (u32 p.2).

Lemma ticks_quiet F n : forall T st st',
  ticks quiet F n T st st' -> (forall t D, due st !! t = Some D -> T <= D) ->
  exists ps, st' = SState (filter (fun p => T + Z.of_nat n <= p.2) (due st)) (exps st) (slog st ++ (run_at <$> ps)) /\
    NoDup ps.*1 /\ StronglySorted Z.le ps.*2 /\
    forall t D, (t, D) ∈ ps <-> due st !! t = Some D /\ D < T + Z.of_nat n.
Proof.
  induction n as [|n IH]; intros T st st' Hs Hge; inversion Hs as [|? ? ? st1 ? HF HT]; subst.
  - exists []. split_and!; [|constructor..|].
    + destruct st' as [d e l]. cbn in *. f_equal; [|by rewrite app_nil_r].
      symmetry. apply map_filter_id. intros t D HD. cbn. specialize (Hge t D HD). lia.
    + intros t D. rewrite elem_of_nil. split; [done|]. intros [HD Hlt]. specialize (Hge t D HD). lia.
  - destruct (fires_quiet F T st st1 HF) as (ts & Hnd & Hts & ->). cbn [due exps slog] in *.
    destruct (IH _ _ _ HT) as (ps & -> & Hndl & Hsort & Hps).
    { intros t D [HD Hne]%map_lookup_filter_Some. cbn in Hne. specialize (Hge t D HD). lia. }
    cbn [due exps slog] in *.
    assert (Hlate : forall t D, (t, D) ∈ ps -> due st !! t = Some D /\ T < D < T + Z.of_nat (S n)).
    { intros t D [[HD Hne]%map_lookup_filter_Some Hlt]%Hps. cbn in Hne. specialize (Hge t D HD). split; [done|lia]. }
    exists (((fun t => (t, T)) <$> ts) ++ ps). split_and!.
    + rewrite fmap_app, <-list_fmap_compose, app_assoc. f_equal. apply map_eq. intros t. apply option_eq. intros D.
      rewrite !map_lookup_filter_Some. cbn. split; [intros [[HD _] H]; split; [done|lia]|intros [HD H]; split; [split; [done|]|]; lia].
    + rewrite fmap_app, <-list_fmap_compose. unfold compose. cbn. rewrite list_fmap_id.
      apply NoDup_app. split; [done|]. split; [|done]. intros t Ht Hin. apply list_elem_of_fmap in Hin as ([t' D] & -> & Hin).
      cbn in Ht. apply Hts in Ht. apply Hlate in Hin as [HD ?]. assert (D = T) by congruence. lia.
    + rewrite fmap_app, <-list_fmap_compose. apply StronglySorted_app. split_and!; [|  |done].
      * intros x y Hx Hy. apply list_elem_of_fmap in Hx as (t & -> & _). apply list_elem_of_fmap in Hy as ([t' D] & -> & Hin).
        cbn. apply Hlate in Hin as [_ ?]. lia.
      * clear. induction ts as [|t ts IH]; cbn; constructor; [done|]. apply Forall_fmap, Forall_true. intros x. cbn. lia.
    + intros t D. rewrite elem_of_app, list_elem_of_fmap. split.
      * intros [(t' & [= -> ->] & Ht)|Hin%Hlate]; [rewrite <-Hts; split; [done|lia]|destruct Hin; split; [done|lia]].
      * intros [HD Hlt]. destruct (decide (D = T)) as [->|Hne]; [left; exists t; by rewrite Hts|right].
        apply Hps. rewrite map_lookup_filter_Some. cbn. split_and!; [done..|lia].
Qed.

Lemma ready_due F s st T t D : ready F s st T -> due st !! t = Some D -> T <= D.
Proof.
  intros (m & S & Hw & _) HD. pose proof (sim_wheel _ _ _ _ _ _ S) as W.
  destruct (w_pending _ _ _ _ _ _ W t D HD) as (a & xs & Ha & Hin).
  destruct (w_entries _ _ _ _ _ _ W a xs _ Ha Hin) as (t' & tm & D' & [= <-] & _ & HD' & Hfit).
  assert (D' = D) as -> by congruence.
  apply (fits_ge _ _ _ _ _ (up_to_next_bucket _ _ _ (up_to_ceil T)) Hfit). intros ->. congruence.
Qed.

(** ** The interface between ticks *)

Lemma kept_ready F s s' st' T m m' :
  kept s s' m m' -> m !! work_list = None -> allocated (lists s) work_list -> sim F s' st' T (ceil T) m' -> ready F s' st' T.
Proof.
  intros K Hw Hal S. exists m'. split; [done|]. split; [|by apply (k_alloc _ _ _ _ K)].
  destruct (m' !! work_list) as [xs|] eqn:E; [|done].
  assert (is_Some (m !! work_list)) as [? ?] by (apply (k_is_work _ _ _ _ K); eauto). congruence.
Qed.

Lemma ready_timer F s st T t : ready F s st T -> is_Some (F !! t) -> exists tm, timers s !! t = Some tm /\ exps st !! t = Some (expires tm).
Proof.
  intros (m & S & _) [fd Hfd]. rewrite (sim_fn _ _ _ _ _ _ S), lookup_fmap in Hfd.
  destruct (timers s !! t) as [tm|] eqn:E; [|done]. exists tm. split; [done|]. by rewrite (sim_exps _ _ _ _ _ _ S), lookup_fmap, E.
Qed.

Lemma mod_timer_spec F s st T t e :
  ready F s st T -> is_Some (F !! t) -> is_u32 e ->
  exists s', mod_timer s t e = Ret (b2z (is_pending (due st) t), s') /\ ready F s' (spec_call T st (Mod_timer t e)) T.
Proof.
  intros R Ht He. destruct (ready_timer F s st T t R Ht) as (tm & Htm & _). destruct R as (m & S & Hw & Hal).
  destruct (do_call_ok F s st T (ceil T) m (Mod_timer t e) S) as (s1 & m1 & H1 & S1 & K1).
  { exact (up_to_next_bucket _ _ _ (up_to_ceil _)). } { done. }
  destruct (mod_timer_ok s T (ceil T) (due st) m t tm e) as (s2 & ? & H2 & _); try done; [apply S|apply S| |].
  { exact (up_to_next_bucket _ _ _ (up_to_ceil _)). }
  cbn [do_call] in H1. rewrite H2 in H1. injection H1 as ->. exists s1. split; [done|]. by eapply kept_ready.
Qed.

Lemma del_timer_spec F s st T t :
  ready F s st T -> is_Some (F !! t) ->
  exists s', del_timer s t = Ret (b2z (is_pending (due st) t), s') /\ ready F s' (spec_call T st (Del_timer t)) T.
Proof.
  intros R Ht. destruct (ready_timer F s st T t R Ht) as (tm & Htm & _). destruct R as (m & S & Hw & Hal).
  destruct (do_call_ok F s st T (ceil T) m (Del_timer t) S) as (s1 & m1 & H1 & S1 & K1).
  { exact (up_to_next_bucket _ _ _ (up_to_ceil _)). } { done. }
  destruct (del_timer_ok s T (ceil T) (due st) m t tm) as (s2 & ? & H2 & _); try done; [apply S|].
  cbn [do_call] in H1. rewrite H2 in H1. injection H1 as ->. exists s1. split; [done|]. by eapply kept_ready.
Qed.

Lemma add_timer_spec F s st T t e :
  ready F s st T -> exps st !! t = Some e -> is_Some (F !! t) ->
  if is_pending (due st) t then add_timer s t = Err Bug
  else exists s', add_timer s t = Ret s' /\ ready F s' (SState (<[t := due_of T e]> (due st)) (exps st) (slog st)) T.
Proof.
  intros R Hex Ht. destruct (ready_timer F s st T t R Ht) as (tm & Htm & He). destruct R as (m & S & Hw & Hal).
  rewrite Hex in He. injection He as ->. pose proof (sim_wheel _ _ _ _ _ _ S) as W.
  unfold add_timer. rewrite (timer_pending_ok W t tm Htm (not_elem_of_nil t)). fold (is_pending (due st) t).
  destruct (is_pending (due st) t) eqn:Ep; [done|]. unfold timer. rewrite Htm.
  destruct (w_timers _ _ _ _ _ _ W t tm Htm) as [_ Hu].
  destruct (__mod_timer_ok s T (ceil T) (due st) m t tm (expires tm)) as (s1 & m1 & H1 & W1 & K1 & E1); try done; [apply S| |].
  { exact (up_to_next_bucket _ _ _ (up_to_ceil _)). }
  rewrite H1. exists s1. split; [done|]. eapply kept_ready; [exact K1|done..|].
  assert (Et : timers s1 = timers s) by (rewrite E1; apply insert_id; by destruct tm).
  split; cbn [due exps slog]; [done| | | |].
  - apply (k_heads _ _ _ _ K1), S.
  - rewrite Et. apply S.
  - rewrite (sim_log _ _ _ _ _ _ S). symmetry. apply K1.
  - rewrite Et. apply S.
Qed.

(** The clock interrupt advances [jiffies]. *)
Definition set_jiffies (s : tvec_base) (j : Z) : tvec_base :=
  Base (lists s) (timers s) (timer_jiffies s) j (log s).

Lemma ready_set_jiffies F s st T j : ready F s st T -> ready F (set_jiffies s j) st T.
Proof.
  intros (m & [W HH HE HL HF] & Hw & Hal). exists m. split; [|done]. split; try done. by destruct W.
Qed.

Lemma ready_calls F s st T cs :
  ready F s st T -> Forall (good_call F) cs ->
  exists s', do_calls s cs = Ret s' /\ ready F s' (foldl (spec_call T) st cs) T /\ jiffies s' = jiffies s.
Proof.
  intros (m & S & Hw & Hal) Hg. destruct (do_calls_ok F cs s st T (ceil T) m S (up_to_next_bucket _ _ _ (up_to_ceil T)) Hg)
    as (s' & m' & H' & S' & K).
  exists s'. split; [done|]. split; [by eapply kept_ready|apply K].
Qed.

Lemma softirq_spec calls_of F hrtimers s st T n :
  (forall fn data l, Forall (good_call F) (calls_of fn data l)) -> Forall (good_call F) hrtimers ->
  ready F s st T -> jiffies s = u32 (T + Z.of_nat n - 1) -> Z.of_nat n < 2 ^ 31 ->
  exists s' st', run_timer_softirq calls_of hrtimers s = Ret s' /\
    ticks calls_of F n T (foldl (spec_call T) st hrtimers) st' /\
    ready F s' st' (T + Z.of_nat n) /\ jiffies s' = jiffies s.
Proof.
  intros Hc Hh R0 Hj0 Hn. destruct (ready_calls F s st T hrtimers R0 Hh) as (s1 & H1 & R & J1).
  unfold run_timer_softirq. rewrite H1. rewrite <-J1 in *. revert R J1 Hj0. generalize (foldl (spec_call T) st hrtimers).
  intros st1 R _ Hj. destruct (run_timers_spec calls_of F Hc s1 st1 T n R Hj Hn) as (s' & st' & H' & Ht & R' & J').
  destruct (time_after_eq _ _) eqn:E; [by exists s', st'|].
  unfold time_after_eq in E. rewrite Hj, (ready_jiffies _ _ _ _ R) in E.
  replace (T + Z.of_nat n - 1) with (T + (Z.of_nat n - 1)) in E by lia. rewrite s32_jiffies in E by lia.
  assert (n = 0%nat) as -> by lia. exists s1, st1. split; [done|]. split; [constructor|].
  split; [by replace (T + Z.of_nat 0) with T by lia|done].
Qed.

Lemma quiet_good F fn data l : Forall (good_call F) (quiet fn data l).
Proof. constructor. Qed.

(** C10 (the softirq refines the timer machine): when [n] jiffies have passed
    since the wheel was last run, the timer softirq terminates, and what it does to the wheel is [n]
    ticks of the abstract machine: at each tick the timers that are due run
    one by one, each is no longer pending when its function is called, and
    the function may add, change and delete any timers, its own included;
    a timer added for the current tick or before runs at the next tick.
    What the high-resolution timers do to the wheel comes first. *)
Theorem run_timers_refines calls_of F hrtimers s st T n :
  (forall fn data l, Forall (good_call F) (calls_of fn data l)) -> Forall (good_call F) hrtimers ->
  ready F s st T -> jiffies s = u32 (T + Z.of_nat n - 1) -> Z.of_nat n < 2 ^ 31 ->
  exists s' st', run_timer_softirq calls_of hrtimers s = Ret s' /\
    ticks calls_of F n T (foldl (spec_call T) st hrtimers) st' /\
    ready F s' st' (T + Z.of_nat n) /\ jiffies s' = jiffies s.
Proof. apply softirq_spec. Qed.

(** C11 (timers run on time): with timer functions that leave the wheel
    alone, the softirq runs exactly the pending timers that are due by now,
    each one once and in its very tick, in the order of the ticks, however
    far ahead it was added and whatever the jiffies counter wraps around;
    the others stay pending. *)
Theorem timers_on_time F s st T n :
  ready F s st T -> jiffies s = u32 (T + Z.of_nat n - 1) -> Z.of_nat n < 2 ^ 31 ->
  exists s' ps, run_timer_softirq quiet [] s = Ret s' /\ log s' = log s ++ (run_at <$> ps) /\
    NoDup ps.*1 /\ StronglySorted Z.le ps.*2 /\
    (forall t D, (t, D) ∈ ps <-> due st !! t = Some D /\ D < T + Z.of_nat n) /\
    ready F s' (SState (filter (fun p => T + Z.of_nat n <= p.2) (due st)) (exps st) (log s')) (T + Z.of_nat n).
Proof.
  intros R Hj Hn. destruct (softirq_spec quiet F [] s st T n (quiet_good F) (Forall_nil_2 _) R Hj Hn) as (s' & st' & H' & Ht & R' & _).
  destruct (ticks_quiet F n T st st' Ht) as (ps & -> & Hnd & Hs & Hps); [intros t D; by apply (ready_due F s)|].
  assert (El : log s' = slog st ++ (run_at <$> ps)) by (destruct R' as (m' & S' & _); symmetry; apply S').
  assert (log s = slog st) as -> by (destruct R as (m & S & _); symmetry; apply S).
  exists s', ps. rewrite El in *. done.
Qed.

(** C25 (the timer interface): on a wheel between two runs [mod_timer] makes
    the timer due at its expiry, or at the next tick when that is in the
    past, and tells whether it was pending, as [del_timer] does, after which
    it is not; [add_timer] is the same for an idle timer with the expiry in
    its structure, and stops the kernel for a pending one.  None of them
    changes another timer. *)
Theorem timer_api_correct F s st T t e :
  ready F s st T -> exps st !! t = Some e -> is_Some (F !! t) ->
  (forall e', is_u32 e' -> exists s',
     mod_timer s t e' = Ret (b2z (is_pending (due st) t), s') /\
     ready F s' (SState (mod_due T (due st) t e e') (<[t := e']> (exps st)) (slog st)) T) /\
  (exists s', del_timer s t = Ret (b2z (is_pending (due st) t), s') /\
     ready F s' (SState (delete t (due st)) (exps st) (slog st)) T) /\
  (if is_pending (due st) t then add_timer s t = Err Bug
   else exists s', add_timer s t = Ret s' /\
     ready F s' (SState (<[t := due_of T e]> (due st)) (exps st) (slog st)) T).
Proof.
  intros R He Ht. split_and!.
  - intros e' He'. destruct (mod_timer_spec F s st T t e' R Ht He') as (s' & H' & R'). exists s'.
    split; [done|]. cbn [spec_call] in R'. by rewrite He in R'.
  - by apply del_timer_spec.
  - by apply add_timer_spec.
Qed.

(** ** Concrete wheels *)

(** Two timers that will expire at tick 300, before [init_timers_cpu]. *)
Definition demo_heads : list addr :=
  work_list :: entry 0 :: entry 1 :: ((fun i => vec 1 (Z.of_nat i)) <$> seq 0 256) ++
  ([2; 3; 4; 5]%nat ≫= fun tv => (fun i => vec tv (Z.of_nat i)) <$> seq 0 64).
Definition demo_heap : gmap addr addr := list_to_map ((fun a => (a, NULL)) <$> demo_heads).
Definition demo_base : tvec_base :=
  Base (Heads demo_heap demo_heap) (<[0%nat := Timer 300 1 0]> {[1%nat := Timer 300 1 1]}) 0 0 [].
Definition demo_functions : gmap nat (Z * Z) := fn_data <$> timers demo_base.

Lemma demo_heap_at a : a ∈ demo_heads -> demo_heap !! a = Some NULL.
Proof.
  intros Ha. apply elem_of_list_to_map_1'; [|apply list_elem_of_fmap; by exists a].
  intros y Hy. by apply list_elem_of_fmap in Hy as (b & [= -> ->] & _).
Qed.

Lemma demo_head a : is_head a \/ a = work_list -> a ∈ demo_heads.
Proof.
  assert (Hrow : forall tv i n, 0 <= i < Z.of_nat n -> vec tv i ∈ (fun i => vec tv (Z.of_nat i)) <$> seq 0 n).
  { intros tv i n Hi. apply list_elem_of_fmap. exists (Z.to_nat i). rewrite Z2Nat.id by lia. split; [done|].
    apply elem_of_seq. lia. }
  unfold demo_heads. rewrite !elem_of_cons, elem_of_app. intros [Ha| ->]; [|auto]. do 3 right.
  destruct a as [| |[|[|tv]] i| |]; cbn in Ha; try done; [lia|left; by apply Hrow|right].
  apply list_elem_of_bind. exists (S (S tv)). split; [by apply Hrow; lia|]. rewrite !elem_of_cons, elem_of_nil. lia.
Qed.

(** The wheel of [demo_base] starts at tick 0, and its timer 0 is added. *)
Lemma demo_ready : exists s, ready demo_functions s (SState {[0%nat := 300]} (expires <$> timers demo_base) []) 0.
Proof.
  assert (Hal : forall a, a ∈ demo_heads -> allocated (lists demo_base) a).
  { intros a Ha. apply demo_heap_at in Ha. split; eauto. }
  destruct (init_timers_ok demo_base) as (s1 & _ & _ & _ & _ & R1).
  - by apply (bool_decide_unpack _).
  - intros a Ha. by apply Hal, demo_head.
  - intros t tm. change (timers demo_base) with (<[0%nat := Timer 300 1 0]> {[1%nat := Timer 300 1 1]} : gmap nat timer_list).
    rewrite lookup_insert_Some, lookup_singleton_Some. intros [(<- & <-)|(_ & <- & <-)]; cbn [function expires]; (split; [done|]; split; [by apply (bool_decide_unpack _)|]; split;
      [apply Hal|apply demo_heap_at]; unfold demo_heads; rewrite !elem_of_cons; auto).
  - destruct (add_timer_spec demo_functions s1 _ _ 0 300 R1) as (s2 & _ & R2); [done..|]. by exists s2.
Qed.

(** At tick 299 only timers due before are run, and timer 0 stays. *)
Lemma timers_on_time_witness :
  exists s T, ready demo_functions s (SState {[0%nat := 300]} (expires <$> timers demo_base) []) T /\
    exists s' ps, run_timer_softirq quiet [] s = Ret s' /\ log s' = log s ++ (run_at <$> ps) /\ ps = [(0%nat, 300)].
Proof.
  destruct demo_ready as [s R]. exists (set_jiffies s 300), 0. split; [by apply ready_set_jiffies|].
  destruct (timers_on_time demo_functions (set_jiffies s 300) _ 0 301 (ready_set_jiffies _ _ _ _ 300 R)) as (s' & ps & H' & Hl & Hnd & _ & Hps & _);
    [done..|]. exists s', ps. split; [done|]. split; [done|]. cbn [due] in Hps.
  assert (Hin : (0%nat, 300) ∈ ps) by (apply Hps; rewrite lookup_singleton_eq; split; [done|lia]).
  assert (Hall : forall p, p ∈ ps -> p = (0%nat, 300)).
  { intros [t D] [E _]%Hps. apply lookup_singleton_Some in E as [<- <-]. done. }
  destruct ps as [|p [|q ps]].
  - by apply elem_of_nil in Hin.
  - f_equal. apply Hall. by left.
  - rewrite (Hall p), (Hall q) in Hnd by (rewrite !elem_of_cons; auto). apply NoDup_cons in Hnd as [[] _]. cbn. left.
Defined.

(** Timer 0 adds itself again 100 ticks later, and deletes timer 1. *)
Definition demo_calls (fn data : Z) (l : list event) : list call :=
  [Mod_timer 0 (u32 (100 * Z.of_nat (length l) + 300)); Del_timer 1].

Lemma demo_calls_good fn data l : Forall (good_call demo_functions) (demo_calls fn data l).
Proof. unfold demo_calls. rewrite Forall_cons, Forall_singleton. split; [split; [by eexists|by apply wrap_word]|by eexists]. Qed.

Lemma demo_hrtimer : good_call demo_functions (Mod_timer 1 7).
Proof. split; [by eexists|by apply (bool_decide_unpack _)]. Qed.

Lemma run_timers_refines_witness :
  exists s s' st', ready demo_functions s (SState {[0%nat := 300]} (expires <$> timers demo_base) []) 0 /\
    run_timer_softirq demo_calls [Mod_timer 1 7] s = Ret s' /\ ticks demo_calls demo_functions 301 0 (spec_call 0 (SState {[0%nat := 300]} (expires <$> timers demo_base) []) (Mod_timer 1 7)) st' /\
    ready demo_functions s' st' 301.
Proof.
  destruct demo_ready as [s R].
  destruct (run_timers_refines demo_calls demo_functions [Mod_timer 1 7] (set_jiffies s 300) _ 0 301 demo_calls_good
    (proj2 (Forall_singleton _ _) demo_hrtimer)
    (ready_set_jiffies _ _ _ _ 300 R)) as (s' & st' & H' & Ht & R' & _); [done..|].
  exists (set_jiffies s 300), s', st'. split; [by apply ready_set_jiffies|done].
Defined.

Lemma timer_api_correct_witness :
  exists s, ready demo_functions s (SState {[0%nat := 300]} (expires <$> timers demo_base) []) 0 /\
    add_timer s 0 = Err Bug /\ (exists s', del_timer s 0 = Ret (1, s')) /\ (exists s', mod_timer s 0 500 = Ret (1, s')).
Proof.
  destruct demo_ready as [s R]. exists s. split; [done|].
  destruct (timer_api_correct demo_functions s _ 0 0 300 R) as (Hm & (s1 & Hd & _) & Ha); [done..|].
  split; [exact Ha|]. split; [by exists s1|]. destruct (Hm 500) as (s2 & H2 & _); [by apply (bool_decide_unpack _)|]. by exists s2.
Defined.

(** Timers with the same expiry do not run in the order they were added:
    timer 0 is added at tick 0 and waits in [tv2]; timer 1 is added at tick
    200 for the same tick 300 and is put in [tv1]; when the bucket of [tv2]
    is cascaded at tick 256, timer 0 goes behind timer 1. *)
Definition demo_order : outcome (list event) :=
  let! s := init_timers_cpu demo_base in
  let! s := add_timer s 0 in
  let! s := run_timer_softirq quiet [] (set_jiffies s 199) in
  let! s := add_timer s 1 in
  let! s := run_timer_softirq quiet [] (set_jiffies s 300) in
  Ret (log s).

Example timers_not_fifo : demo_order = Ret [Ran 1 300; Ran 0 300].
Proof. vm_compute. reflexivity. Qed.
