(* ===== verification/Skb.v ===== *)
(** * Socket buffers (include/linux/skbuff.h, net/core/skbuff.c)

    A packet in a [sk_buff] lies in three places: the linear buffer between
    [data] and [tail], the page fragments, and the buffers of [frag_list].
    This file has the routines the socket filter uses on it: reading bytes at
    an offset and cutting the end off.  [contents] is the packet as a list of
    bytes. *)

From Stdlib Require Import ZifyBool.
From S2P Require Import Prelude.

(** ** State *)

(** [skb_frag_t], with the bytes of its page. *)
Record frag := Frag { page : list Z; page_offset : Z; fsize : Z }.

(** [struct sk_buff], what filters use of it, with its [skb_shared_info].
    [buffer] holds the bytes from [head] on, the shared info behind [end]
    included; [data], [tail], [nh] and [mac] are distances from [head]. *)
Inductive sk_buff := SkBuff {
  buffer : list Z;
  data : Z;
  tail : Z;
  nh : Z;
  mac : Z;
  len : Z;
  data_len : Z;
  cloned : bool;
  dataref : Z;
  protocol : Z;
  pkt_type : Z;
  ifindex : Z;
  frags : list frag;
  frag_list : list sk_buff }.

(** Everything but the size: what [skb_trim] leaves. *)
Definition resize (skb : sk_buff) (tl n dn : Z) (fs : list frag) (fl : list sk_buff) : sk_buff :=
  SkBuff (buffer skb) (data skb) tl (nh skb) (mac skb) n dn (cloned skb) (dataref skb) (protocol skb)
    (pkt_type skb) (ifindex skb) fs fl.

Definition skb_headlen (skb : sk_buff) : Z := u32 (len skb - data_len skb).
Definition skb_cloned (skb : sk_buff) : bool := cloned skb && negb (Z.land (dataref skb) 0xffff =? 1).

(** ** Reading *)

(** The bytes a [memcpy] of [n] bytes reads. *)
Definition memcpy_from (m : list Z) (p n : Z) : outcome (list Z) :=
  if (0 <=? p) && (p + n <=? Z.of_nat (length m)) then Ret (take (Z.to_nat n) (drop (Z.to_nat p) m)) else Err Fault.

(** How far [skb_copy_bits] has come: done, or [len] bytes from [offset] are
    still to be copied and the next place starts at [start]. *)
Inductive progress :=
| Copied (to : list Z)
| More (start offset len : Z) (to : list Z).

(** The bytes of one place that ends at [end_], read through [from]. *)
Definition copy_part (from : Z -> Z -> outcome (list Z)) (start end_ offset len : Z) (to : list Z) : outcome progress :=
  let copy := s32 (end_ - offset) in
  if 0 <? copy then
    let copy := if len <? copy then len else copy in
    let! bs := from (s32 (offset - start)) copy in
    let to := to ++ bs in
    let len := s32 (len - copy) in
    Ret (if len =? 0 then Copied to else More end_ (s32 (offset + copy)) len to)
  else Ret (More end_ offset len to).

Definition frag_from (f : frag) (at_ copy : Z) : outcome (list Z) := memcpy_from (page f) (page_offset f + at_) copy.

Fixpoint copy_frags (fs : list frag) (start offset len : Z) (to : list Z) : outcome progress :=
  match fs with
  | [] => Ret (More start offset len to)
  | f :: fs =>
      let! p := copy_part (frag_from f) start (s32 (start + fsize f)) offset len to in
      match p with
      | Copied to => Ret (Copied to)
      | More start offset len to => copy_frags fs start offset len to
      end
  end.

Section copy_list.
(** [skb_copy_bits] on the buffers of the list. *)
Variable copy_bits : sk_buff -> Z -> Z -> outcome (option (list Z)).

(** [None] is [-EFAULT]; a failure inside a buffer of [frag_list] is one too. *)
Fixpoint copy_list (l : list sk_buff) (start offset n : Z) (to : list Z) : outcome (option (list Z)) :=
  match l with
  | [] => Ret (if n =? 0 then Some to else None)
  | b :: l =>
      let end_ := s32 (start + len b) in
      let copy := s32 (end_ - offset) in
      if 0 <? copy then
        let copy := if n <? copy then n else copy in
        let! r := copy_bits b (s32 (offset - start)) copy in
        match r with
        | None => Ret None
        | Some bs =>
            let n := s32 (n - copy) in
            if n =? 0 then Ret (Some (to ++ bs)) else copy_list l end_ (s32 (offset + copy)) n (to ++ bs)
        end
      else copy_list l end_ offset n to
  end.
End copy_list.

Fixpoint skb_copy_bits (skb : sk_buff) (offset n : Z) : outcome (option (list Z)) :=
  let start := s32 (skb_headlen skb) in
  if s32 (s32 (len skb) - n) <? offset then Ret None
  else
    let! p := copy_part (fun at_ copy => memcpy_from (buffer skb) (data skb + at_) copy) 0 start offset n [] in
    match p with
    | Copied to => Ret (Some to)
    | More start offset n to =>
        let! p := copy_frags (frags skb) start offset n to in
        match p with
        | Copied to => Ret (Some to)
        | More start offset n to => copy_list skb_copy_bits (frag_list skb) start offset n to
        end
    end.

(** A pointer into the buffer of the packet, or to the copy in [tmp]. *)
Inductive pointer := In_skb (p : Z) | In_tmp (bs : list Z).

Definition skb_header_pointer (skb : sk_buff) (offset n : Z) : outcome (option pointer) :=
  if n <=? s32 (s32 (skb_headlen skb) - offset) then Ret (Some (In_skb (data skb + offset)))
  else
    let! r := skb_copy_bits skb offset n in
    Ret (match r with Some bs => Some (In_tmp bs) | None => None end).

(** ** Trimming *)

(** The loop of [___pskb_trim] with [realloc] 0: the fragments with their new
    sizes, the new [nr_frags], and the end of the last fragment. *)
Fixpoint trim_frags (is_cloned : bool) (fs : list frag) (offset n : Z) (nr : nat) : outcome (list frag * nat * Z) :=
  match fs with
  | [] => Ret ([], nr, offset)
  | f :: fs =>
      let end_ := s32 (offset + fsize f) in
      if n <? u32 end_ then
        if is_cloned then Err Bug
        else
          let '(f, nr) := if n <=? u32 offset then (f, pred nr) else (Frag (page f) (page_offset f) (u16 (n - offset)), nr) in
          let! (fs, nr, e) := trim_frags is_cloned fs end_ n nr in
          Ret (f :: fs, nr, e)
      else
        let! (fs, nr, e) := trim_frags is_cloned fs end_ n nr in
        Ret (f :: fs, nr, e)
  end.

Definition ___pskb_trim (skb : sk_buff) (n : Z) : outcome sk_buff :=
  let! (fs, nr, offset) := trim_frags (skb_cloned skb) (frags skb) (s32 (skb_headlen skb)) n (length (frags skb)) in
  let fs := take nr fs in
  let cut := u32 (data_len skb - (len skb - n)) in
  Ret
    (if u32 offset <? n then resize skb (tail skb) n cut fs (frag_list skb)
     else if n <=? skb_headlen skb then
       resize skb (data skb + n) n 0 fs (if skb_cloned skb then frag_list skb else [])
     else resize skb (tail skb) n cut fs (frag_list skb)).

Definition __skb_trim (skb : sk_buff) (n : Z) : outcome sk_buff :=
  if data_len skb =? 0 then Ret (resize skb (data skb + n) n (data_len skb) (frags skb) (frag_list skb))
  else ___pskb_trim skb n.

Definition skb_trim (skb : sk_buff) (n : Z) : outcome sk_buff :=
  if n <? len skb then __skb_trim skb n else Ret skb.

(** ** The packet as a list of bytes *)

Definition frag_bytes (f : frag) : list Z := take (Z.to_nat (fsize f)) (drop (Z.to_nat (page_offset f)) (page f)).
Definition linear (skb : sk_buff) : list Z :=
  take (Z.to_nat (len skb - data_len skb)) (drop (Z.to_nat (data skb)) (buffer skb)).

Fixpoint contents (skb : sk_buff) : list Z :=
  take (Z.to_nat (len skb)) (linear skb ++ flat_map frag_bytes (frags skb) ++ flat_map contents (frag_list skb)).
Definition stored (skb : sk_buff) : list Z :=
  linear skb ++ flat_map frag_bytes (frags skb) ++ flat_map contents (frag_list skb).

(** A sound buffer.  The shared info behind [end] is larger than a word. *)
Record good_frag (f : frag) : Prop := {
  gf_off : 0 <= page_offset f;
  gf_size : word 16 (fsize f);
  gf_in : page_offset f + fsize f <= Z.of_nat (length (page f));
  gf_bytes : Forall is_byte (page f) }.

Record good_parts (skb : sk_buff) : Prop := {
  gp_data : 0 <= data skb;
  gp_len : 0 <= data_len skb <= len skb;
  gp_tail : tail skb = data skb + (len skb - data_len skb);
  gp_end : tail skb + 4 <= Z.of_nat (length (buffer skb));
  gp_bytes : Forall is_byte (buffer skb);
  gp_type : word 3 (pkt_type skb);
  gp_frags : Forall good_frag (frags skb);
  gp_enough : len skb <= Z.of_nat (length (stored skb)) < 2 ^ 31 }.

Fixpoint good (skb : sk_buff) : Prop :=
  good_parts skb /\ fold_right (fun b P => good b /\ P) True (frag_list skb).

Section sk_buff_induction.
Context (P : sk_buff -> Prop) (H : forall skb, Forall P (frag_list skb) -> P skb).
Fixpoint sk_buff_rect' (skb : sk_buff) : P skb :=
  H skb ((fix all (l : list sk_buff) : Forall P l :=
    match l with [] => Forall_nil_2 P | b :: l => Forall_cons_2 P b l (sk_buff_rect' b) (all l) end) (frag_list skb)).
End sk_buff_induction.

Lemma good_eq skb : good skb <-> good_parts skb /\ Forall good (frag_list skb).
Proof.
  destruct skb as [bu da ta n ma le dl cl dr pr pk ifi fs fl]. cbn [good frag_list].
  apply and_iff_compat_l. induction fl as [|b fl IH]; cbn [fold_right]; [by split|]. by rewrite Forall_cons, IH.
Qed.

Lemma contents_eq skb : contents skb = take (Z.to_nat (len skb)) (stored skb).
Proof. by destruct skb. Qed.

Lemma good_parts_of skb : good skb -> good_parts skb.
Proof. rewrite good_eq. tauto. Qed.

Lemma length_contents_skb skb : good skb -> Z.of_nat (length (contents skb)) = len skb.
Proof. intros [[] _]%good_eq. rewrite contents_eq, length_take. lia. Qed.

Lemma length_frag_bytes f : good_frag f -> Z.of_nat (length (frag_bytes f)) = fsize f.
Proof. intros [? [? ?] ? _]. unfold frag_bytes. rewrite length_take, length_drop. lia. Qed.

Lemma length_linear skb : good_parts skb -> Z.of_nat (length (linear skb)) = len skb - data_len skb.
Proof. intros []. unfold linear. rewrite length_take, length_drop. lia. Qed.

(** ** Reading *)

(** The bytes [S] from [start] on have been gone through. *)
Definition copies (S : list Z) (start offset n : Z) (to : list Z) (p : progress) : Prop :=
  let e := start + Z.of_nat (length S) in
  p = if offset + n <=? e then Copied (to ++ take (Z.to_nat n) (drop (Z.to_nat (offset - start)) S))
      else More e (Z.max offset e) (n - (Z.max offset e - offset)) (to ++ drop (Z.to_nat (offset - start)) S).

(** Offsets and sizes stay in the range of [int]. *)
Definition in_range (start offset n : Z) (S : list Z) : Prop :=
  0 <= start <= offset /\ 0 < n /\ offset + n < 2 ^ 31 /\ start + Z.of_nat (length S) < 2 ^ 31.

Lemma copies_app S1 S2 start offset n to r :
  0 <= start <= offset -> 0 < n ->
  copies S1 start offset n to (Copied r) -> copies (S1 ++ S2) start offset n to (Copied r).
Proof.
  unfold copies. intros Hs Hn. rewrite length_app. destruct (offset + n <=? start + Z.of_nat (length S1)) eqn:E; [|done].
  intros [= ->]. assert (E2 : (offset + n <=? start + Z.of_nat (length S1 + length S2)) = true) by lia. rewrite E2.
  rewrite drop_app_le by lia. rewrite take_app_le by (rewrite length_drop; lia).
  done.
Qed.

Lemma copies_more S1 S2 start offset n to s o k t p :
  0 <= start <= offset -> 0 < n ->
  copies S1 start offset n to (More s o k t) -> copies S2 s o k t p -> copies (S1 ++ S2) start offset n to p.
Proof.
  unfold copies. intros Hs Hn. rewrite length_app. destruct (offset + n <=? start + Z.of_nat (length S1)) eqn:E; [done|].
  intros [= -> -> -> ->] ->. set (e := start + Z.of_nat (length S1)).
  replace (Z.max offset e + (n - (Z.max offset e - offset))) with (offset + n) by lia.
  replace (start + Z.of_nat (length S1 + length S2)) with (e + Z.of_nat (length S2)) by lia.
  destruct (offset + n <=? e + Z.of_nat (length S2)) eqn:E2.
  - f_equal. rewrite <-app_assoc. f_equal. rewrite drop_app, take_app, !length_drop.
    destruct (decide (offset <= e)).
    + rewrite (take_ge (drop _ S1)) by (rewrite length_drop; lia). f_equal. f_equal; [lia|f_equal; lia].
    + rewrite (drop_ge S1) by lia. cbn [app]. rewrite take_nil. cbn [app]. f_equal; [lia|f_equal; lia].
  - f_equal; [lia|lia|]. rewrite <-app_assoc. f_equal. rewrite drop_app. f_equal. f_equal. lia.
Qed.

Lemma copy_part_ok from S start e offset n to :
  in_range start offset n S -> e = start + Z.of_nat (length S) ->
  (forall a c, 0 <= a -> 0 < c -> a + c <= Z.of_nat (length S) -> from a c = Ret (take (Z.to_nat c) (drop (Z.to_nat a) S))) ->
  exists p, copy_part from start e offset n to = Ret p /\ copies S start offset n to p.
Proof.
  intros (Hs & Hn & Hon & He) -> Hfrom. unfold copy_part, copies.
  set (e := start + Z.of_nat (length S)) in *. rewrite !(s32_small (e - offset)) by lia.
  destruct (0 <? e - offset) eqn:E1.
  - destruct (n <? e - offset) eqn:E2.
    + rewrite (s32_small (offset - start)) by lia. rewrite Hfrom by lia.
      rewrite Z.sub_diag. change (s32 0 =? 0) with true. cbn match.
      assert (E3 : (offset + n <=? e) = true) by lia. rewrite E3. eauto.
    + rewrite !(s32_small (offset - start)), !(s32_small (n - _)), !(s32_small (offset + _)) by lia. rewrite Hfrom by lia.
      assert (Hall : take (Z.to_nat (e - offset)) (drop (Z.to_nat (offset - start)) S) = drop (Z.to_nat (offset - start)) S).
      { apply take_ge. rewrite length_drop. lia. }
      rewrite Hall. eexists. split; [reflexivity|]. destruct (n - (e - offset) =? 0) eqn:E3.
      * assert (E4 : (offset + n <=? e) = true) by lia. rewrite E4. do 2 f_equal. symmetry. apply take_ge. rewrite length_drop. lia.
      * assert (E4 : (offset + n <=? e) = false) by lia. rewrite E4. f_equal; lia.
  - eexists. split; [reflexivity|]. assert (E3 : (offset + n <=? e) = false) by lia. rewrite E3.
    rewrite (drop_ge S), app_nil_r by lia. f_equal; lia.
Qed.

Lemma memcpy_from_ok m p n :
  0 <= p -> 0 <= n -> p + n <= Z.of_nat (length m) -> memcpy_from m p n = Ret (take (Z.to_nat n) (drop (Z.to_nat p) m)).
Proof.
  intros H1 H2 H3. unfold memcpy_from. destruct (Z.leb_spec 0 p), (Z.leb_spec (p + n) (Z.of_nat (length m))); [done|lia..].
Qed.

(** A part of a part. *)
Lemma take_drop_part {A} (l : list A) a k b c :
  (b + c <= k)%nat -> take c (drop b (take k (drop a l))) = take c (drop (a + b) l).
Proof.
  intros H. rewrite <-drop_drop. generalize (drop a l). clear l. intros l.
  rewrite !(take_drop_commute _ c b), take_take. do 2 f_equal. lia.
Qed.

Lemma frag_from_ok f a c :
  good_frag f -> 0 <= a -> 0 < c -> a + c <= Z.of_nat (length (frag_bytes f)) ->
  frag_from f a c = Ret (take (Z.to_nat c) (drop (Z.to_nat a) (frag_bytes f))).
Proof.
  intros G Ha Hc. rewrite length_frag_bytes by done. intros Hac. destruct G as [? [? ?] ? _].
  unfold frag_from, frag_bytes. rewrite memcpy_from_ok by lia. rewrite take_drop_part by lia.
  do 3 f_equal. lia.
Qed.

Lemma linear_from_ok skb a c :
  good_parts skb -> 0 <= a -> 0 < c -> a + c <= Z.of_nat (length (linear skb)) ->
  memcpy_from (buffer skb) (data skb + a) c = Ret (take (Z.to_nat c) (drop (Z.to_nat a) (linear skb))).
Proof.
  intros G Ha Hc. rewrite length_linear by done. intros Hac. destruct G.
  unfold linear. rewrite memcpy_from_ok by lia. rewrite take_drop_part by lia. do 3 f_equal. lia.
Qed.

Lemma copies_range S1 S2 start offset n to s o k t :
  in_range start offset n (S1 ++ S2) -> copies S1 start offset n to (More s o k t) -> in_range s o k S2.
Proof.
  unfold in_range, copies. rewrite length_app. intros (Hs & Hn & Hon & He).
  destruct (offset + n <=? _) eqn:E; [done|]. intros [= -> -> -> ->]. lia.
Qed.

Lemma in_range_l S1 S2 start offset n : in_range start offset n (S1 ++ S2) -> in_range start offset n S1.
Proof. unfold in_range. rewrite length_app. lia. Qed.

(** One part and then the others. *)
Lemma copies_seq S1 S2 start offset n to p1 (rest : progress -> outcome progress) :
  in_range start offset n (S1 ++ S2) -> copies S1 start offset n to p1 ->
  (forall r, rest (Copied r) = Ret (Copied r)) ->
  (forall s o k t, in_range s o k S2 -> exists p, rest (More s o k t) = Ret p /\ copies S2 s o k t p) ->
  exists p, rest p1 = Ret p /\ copies (S1 ++ S2) start offset n to p.
Proof.
  intros HR H1 Hc Hm. destruct p1 as [r|s o k t].
  - exists (Copied r). split; [apply Hc|]. apply copies_app; [apply HR..|done].
  - destruct (Hm s o k t) as (p & Hp & H2); [by eapply copies_range|]. exists p. split; [done|].
    eapply copies_more; [apply HR..|done|done].
Qed.

Lemma copy_frags_ok fs : forall start offset n to,
  Forall good_frag fs -> in_range start offset n (flat_map frag_bytes fs) ->
  exists p, copy_frags fs start offset n to = Ret p /\ copies (flat_map frag_bytes fs) start offset n to p.
Proof.
  induction fs as [|f fs IH]; intros start offset n to Hg HR; cbn [copy_frags flat_map].
  - eexists. split; [done|]. unfold copies. cbn [length flat_map] in *. unfold in_range in HR. cbn [length] in HR.
    assert (E : (offset + n <=? start + Z.of_nat 0) = false) by lia. rewrite E, drop_nil, app_nil_r. f_equal; lia.
  - apply Forall_cons in Hg as [Hf Hg]. cbn [flat_map] in HR. pose proof (length_frag_bytes f Hf) as Hlen.
    destruct (copy_part_ok (frag_from f) (frag_bytes f) start (s32 (start + fsize f)) offset n to) as (p & Hp & Hc).
    { by eapply in_range_l. }
    { rewrite s32_small; [lia|]. destruct (in_range_l _ _ _ _ _ HR) as (? & ? & ? & ?). lia. }
    { intros. by apply frag_from_ok. }
    rewrite Hp. eapply (copies_seq _ _ _ _ _ _ p (fun p => match p with Copied to => Ret (Copied to)
      | More s o k t => copy_frags fs s o k t end)); eauto.
Qed.

(** What [skb_copy_bits] is for. *)
Definition copies_bits (copy_bits : sk_buff -> Z -> Z -> outcome (option (list Z))) (skb : sk_buff) : Prop :=
  forall offset n, 0 <= offset < 2 ^ 31 -> 0 < n < 2 ^ 31 ->
    copy_bits skb offset n =
      Ret (if offset + n <=? len skb then Some (take (Z.to_nat n) (drop (Z.to_nat offset) (contents skb))) else None).

Definition copied (p : progress) : option (list Z) := match p with Copied to => Some to | More _ _ _ _ => None end.

Lemma copy_list_ok copy_bits l : forall start offset n to,
  Forall good l -> Forall (copies_bits copy_bits) l -> in_range start offset n (flat_map contents l) ->
  exists p, copy_list copy_bits l start offset n to = Ret (copied p) /\ copies (flat_map contents l) start offset n to p.
Proof.
  induction l as [|b l IH]; intros start offset n to Hg Hb HR; cbn [copy_list flat_map].
  - exists (More start offset n to). destruct HR as (Hs & Hn & _). split; [by destruct (Z.eqb_spec n 0); [lia|]|].
    unfold copies. cbn [length flat_map]. assert (E : (offset + n <=? start + Z.of_nat 0) = false) by lia.
    rewrite E, drop_nil, app_nil_r. f_equal; lia.
  - apply Forall_cons in Hg as [Hgb Hg]. apply Forall_cons in Hb as [Hbb Hb]. cbn [flat_map] in HR.
    pose proof (length_contents_skb b Hgb) as Hlen. pose proof (in_range_l _ _ _ _ _ HR) as HR1.
    set (from := fun a c => Ret (take (Z.to_nat c) (drop (Z.to_nat a) (contents b)))).
    destruct (copy_part_ok from (contents b) start (s32 (start + len b)) offset n to) as (p & Hp & Hc).
    { done. } { rewrite s32_small; [lia|]. destruct HR1 as (? & ? & ? & ?). lia. } { done. }
    assert (Ep : copy_list copy_bits (b :: l) start offset n to =
      match p with Copied to => Ret (Some to) | More s o k t => copy_list copy_bits l s o k t end).
    { revert Hp. unfold copy_part, from. cbn [copy_list]. destruct HR1 as (? & ? & ? & ?).
      rewrite !(s32_small (start + len b)) by lia. rewrite !(s32_small (start + len b - offset)) by lia.
      destruct (Z.ltb_spec 0 (start + len b - offset)); [|by intros [= <-]].
      set (c := if n <? start + len b - offset then n else start + len b - offset).
      assert (Hc' : 0 < c <= start + len b - offset) by (unfold c; destruct (Z.ltb_spec n (start + len b - offset)); lia).
      rewrite !(s32_small (offset - start)) by lia. rewrite Hbb by lia.
      assert (E : (offset - start + c <=? len b) = true) by lia. rewrite E.
      destruct (s32 (n - c) =? 0); by intros [= <-]. }
    fold (copy_list copy_bits). cbn [copy_list] in Ep |- *. rewrite Ep. clear Ep Hp.
    destruct p as [r|s o k t].
    + exists (Copied r). split; [done|]. apply copies_app; [apply HR..|done].
    + destruct (IH s o k t Hg Hb (copies_range _ _ _ _ _ _ _ _ _ _ HR Hc)) as (p & H1 & H2). exists p. split; [done|].
      eapply copies_more; [apply HR..|done|done].
Qed.

Lemma headlen_ok skb : good_parts skb -> skb_headlen skb = len skb - data_len skb /\ s32 (skb_headlen skb) = len skb - data_len skb.
Proof.
  intros G. pose proof (length_linear skb G) as Hl. destruct G.
  assert (length (linear skb) <= length (stored skb))%nat by (unfold stored; rewrite length_app; lia).
  assert (E : skb_headlen skb = len skb - data_len skb) by (apply wrap_small; unfold word; lia). rewrite E. split; [done|].
  apply s32_small. lia.
Qed.

Lemma skb_copy_bits_eq skb offset n :
  skb_copy_bits skb offset n =
  if s32 (s32 (len skb) - n) <? offset then Ret None
  else
    let! p := copy_part (fun at_ copy => memcpy_from (buffer skb) (data skb + at_) copy) 0 (s32 (skb_headlen skb)) offset n [] in
    match p with
    | Copied to => Ret (Some to)
    | More start offset n to =>
        let! p := copy_frags (frags skb) start offset n to in
        match p with
        | Copied to => Ret (Some to)
        | More start offset n to => copy_list skb_copy_bits (frag_list skb) start offset n to
        end
    end.
Proof. by destruct skb. Qed.

Lemma skb_copy_bits_ok skb : good skb -> copies_bits skb_copy_bits skb.
Proof.
  induction skb as [skb IH] using sk_buff_rect'. intros G offset n Ho Hn. apply good_eq in G as [G Gl].
  assert (IHl : Forall (copies_bits skb_copy_bits) (frag_list skb)).
  { rewrite Forall_forall in *. auto. }
  destruct (headlen_ok skb G) as [Eh Es]. pose proof (length_linear skb G) as Hl. pose proof (gp_enough _ G) as He.
  pose proof (gp_len _ G). pose proof (gp_frags _ G) as Gf.
  rewrite skb_copy_bits_eq.
  rewrite Es. rewrite !(s32_small (len skb)) by lia. rewrite (s32_small (len skb - n)) by lia.
  destruct (Z.ltb_spec (len skb - n) offset), (Z.leb_spec (offset + n) (len skb)); try lia; [done|].
  assert (HR : in_range 0 offset n (stored skb)) by (split_and!; lia).
  assert (Hfin : forall p, copies (stored skb) 0 offset n [] p ->
    copied p = Some (take (Z.to_nat n) (drop (Z.to_nat offset) (contents skb)))).
  { intros p ->. assert (E : (offset + n <=? 0 + Z.of_nat (length (stored skb))) = true) by lia. rewrite E. cbn [copied app].
    rewrite contents_eq, Z.sub_0_r. f_equal. symmetry.
    rewrite <-(drop_0 (stored skb)) at 1. rewrite take_drop_part by lia. done. }
  unfold stored in HR, Hfin. pose proof (in_range_l _ _ _ _ _ HR) as HR1.
  destruct (copy_part_ok _ (linear skb) 0 (len skb - data_len skb) offset n [] HR1 ltac:(lia)
    (fun a c Ha Hc Hac => linear_from_ok skb a c G Ha Hc Hac)) as (p1 & E1 & C1). rewrite E1. clear E1.
  destruct p1 as [r|s o k t].
  { rewrite <-(Hfin (Copied r)); [done|]. apply copies_app; [apply HR..|done]. }
  pose proof (copies_range _ _ _ _ _ _ _ _ _ _ HR C1) as HR2.
  destruct (copy_frags_ok (frags skb) s o k t Gf (in_range_l _ _ _ _ _ HR2)) as (p2 & E2 & C2). rewrite E2. clear E2.
  destruct p2 as [r|s2 o2 k2 t2].
  { rewrite <-(Hfin (Copied r)); [done|]. eapply copies_more; [apply HR..|exact C1|]. apply copies_app; [apply HR2..|done]. }
  destruct (copy_list_ok _ (frag_list skb) s2 o2 k2 t2 Gl IHl (copies_range _ _ _ _ _ _ _ _ _ _ HR2 C2)) as (p3 & E3 & C3).
  rewrite E3. f_equal. apply Hfin. eapply copies_more; [apply HR..|exact C1|]. eapply copies_more; [apply HR2..|exact C2|done].
Qed.

(** What a pointer reads. *)
Definition read_pointer (skb : sk_buff) (p : pointer) (n : Z) : outcome (list Z) :=
  match p with In_skb q => memcpy_from (buffer skb) q n | In_tmp bs => memcpy_from bs 0 n end.

Lemma linear_contents skb k n :
  good_parts skb -> 0 <= k -> 0 <= n -> k + n <= len skb - data_len skb ->
  take (Z.to_nat n) (drop (Z.to_nat k) (contents skb)) = take (Z.to_nat n) (drop (Z.to_nat k) (linear skb)).
Proof.
  intros G Hk Hn Hkn. pose proof (length_linear skb G) as Hl. pose proof (gp_len _ G).
  rewrite contents_eq. rewrite <-(drop_0 (stored skb)). rewrite take_drop_part by lia. cbn [Nat.add]. unfold stored.
  rewrite drop_app_le by lia. rewrite take_app_le by (rewrite length_drop; lia). done.
Qed.

Lemma skb_header_pointer_ok skb k n :
  good skb -> 0 <= k < 2 ^ 31 -> 0 < n < 2 ^ 31 ->
  if k + n <=? len skb
  then exists p, skb_header_pointer skb k n = Ret (Some p) /\
    read_pointer skb p n = Ret (take (Z.to_nat n) (drop (Z.to_nat k) (contents skb)))
  else skb_header_pointer skb k n = Ret None.
Proof.
  intros G Hk Hn. pose proof (good_parts_of skb G) as GP. destruct (headlen_ok skb GP) as [_ Es]. pose proof (gp_len _ GP).
  pose proof (gp_enough _ GP). unfold skb_header_pointer. rewrite Es, s32_small by lia.
  destruct (Z.leb_spec n (len skb - data_len skb - k)).
  - destruct (Z.leb_spec (k + n) (len skb)); [|lia]. eexists. split; [done|]. cbn [read_pointer].
    rewrite linear_from_ok by (rewrite ?length_linear by done; try done; lia). by rewrite linear_contents by (done || lia).
  - rewrite (skb_copy_bits_ok skb G) by lia. destruct (Z.leb_spec (k + n) (len skb)); [|done].
    eexists. split; [done|]. cbn [read_pointer]. rewrite memcpy_from_ok; [|lia..|].
    + by rewrite drop_0, take_take, Nat.min_id.
    + pose proof (length_contents_skb skb G). rewrite length_take, length_drop. lia.
Qed.

(** ** Trimming *)

Lemma frag_bytes_cut f k :
  0 <= k <= fsize f -> frag_bytes (Frag (page f) (page_offset f) k) = take (Z.to_nat k) (frag_bytes f).
Proof. intros Hk. unfold frag_bytes. cbn [page page_offset fsize]. rewrite take_take. f_equal. lia. Qed.

Lemma trim_frags_ok fs : forall offset n nr,
  Forall good_frag fs -> 0 <= offset -> 0 <= n < 2 ^ 31 -> offset + Z.of_nat (length (flat_map frag_bytes fs)) < 2 ^ 31 ->
  exists fs' d, trim_frags false fs offset n nr = Ret (fs', (nr - d)%nat, offset + Z.of_nat (length (flat_map frag_bytes fs))) /\
    length fs' = length fs /\ (d <= length fs)%nat /\ (n < offset -> d = length fs) /\ Forall good_frag fs' /\
    flat_map frag_bytes (take (length fs - d) fs') = take (Z.to_nat (n - offset)) (flat_map frag_bytes fs).
Proof.
  induction fs as [|f fs IH]; intros offset n nr Hg Ho Hn Ht; cbn [trim_frags].
  - exists [], 0%nat. cbn. rewrite take_nil. split_and!; try done. by rewrite Nat.sub_0_r, Z.add_0_r.
  - apply Forall_cons in Hg as [Hf Hg]. cbn [flat_map] in Ht. rewrite length_app in Ht.
    pose proof (length_frag_bytes f Hf) as Hl. destruct (gf_size f Hf) as [? Hsz]. change (2 ^ 16) with 65536 in Hsz.
    rewrite !s32_small by lia. unfold u32. rewrite !wrap_small by (unfold word; lia).
    set (e := offset + fsize f).
    assert (Hstep : forall nr, exists fs' d, trim_frags false fs e n nr = Ret (fs', (nr - d)%nat, offset + Z.of_nat (length (flat_map frag_bytes (f :: fs)))) /\
      length fs' = length fs /\ (d <= length fs)%nat /\ (n < e -> d = length fs) /\ Forall good_frag fs' /\
      flat_map frag_bytes (take (length fs - d) fs') = take (Z.to_nat (n - e)) (flat_map frag_bytes fs)).
    { intros nr'. destruct (IH e n nr') as (fs' & d & E & ?); [done|lia..|]. exists fs', d. split; [|done].
      rewrite E. f_equal. f_equal. cbn [flat_map]. rewrite length_app. lia. }
    destruct (Z.ltb_spec n e) as [Hne|Hne].
    + destruct (Z.leb_spec n offset) as [Hno|Hno].
      * destruct (Hstep (pred nr)) as (fs' & d & E & Hl' & Hd & Hall & Hg' & Hb). rewrite E. specialize (Hall Hne). subst d.
        exists (f :: fs'), (S (length fs)). rewrite !Nat.sub_diag in *. cbn [length take flat_map].
        split_and!; [do 3 f_equal; lia|lia|lia|done|by constructor|].
        replace (Z.to_nat (n - offset)) with 0%nat by lia. done.
      * destruct (Hstep nr) as (fs' & d & E & Hl' & Hd & Hall & Hg' & Hb). rewrite E. specialize (Hall Hne). subst d.
        assert (Hu : u16 (n - offset) = n - offset) by (apply wrap_small; unfold word; lia). rewrite Hu.
        exists (Frag (page f) (page_offset f) (n - offset) :: fs'), (length fs). cbn [length].
        replace (S (length fs) - length fs)%nat with 1%nat by lia. cbn [take flat_map].
        split_and!; [done|lia|lia|lia| |].
        -- constructor; [|done]. destruct Hf as [? [? ?] ? ?]. split; cbn [page page_offset fsize]; [done|unfold word; lia|lia|done].
        -- rewrite frag_bytes_cut by lia. rewrite app_nil_r, take_app_le by lia. done.
    + destruct (Hstep nr) as (fs' & d & E & Hl' & Hd & Hall & Hg' & Hb). rewrite E.
      exists (f :: fs'), d. cbn [length]. split_and!; [done|lia|lia|lia|by constructor|].
      replace (S (length fs) - d)%nat with (S (length fs - d)) by lia. cbn [take flat_map]. rewrite Hb.
      rewrite take_app_ge by lia. do 2 f_equal. lia.
Qed.

Definition frags_end (skb : sk_buff) : Z :=
  len skb - data_len skb + Z.of_nat (length (flat_map frag_bytes (frags skb))).

(** Cutting to [n] bytes would change a page fragment that a clone shares. *)
Definition cuts_shared (skb : sk_buff) (n : Z) : bool :=
  skb_cloned skb && negb (data_len skb =? 0) && (n <? len skb) &&
  match frags skb with [] => false | _ => n <? frags_end skb end.

Lemma trim_frags_cloned fs : forall offset n nr,
  Forall good_frag fs -> 0 <= offset -> offset + Z.of_nat (length (flat_map frag_bytes fs)) < 2 ^ 31 ->
  trim_frags true fs offset n nr =
    if match fs with [] => false | _ => n <? offset + Z.of_nat (length (flat_map frag_bytes fs)) end then Err Bug
    else Ret (fs, nr, offset + Z.of_nat (length (flat_map frag_bytes fs))).
Proof.
  induction fs as [|f fs IH]; intros offset n nr Hg Ho Ht; cbn [trim_frags].
  - cbn. by rewrite Z.add_0_r.
  - apply Forall_cons in Hg as [Hf Hg]. cbn [flat_map] in *. rewrite length_app in *.
    pose proof (length_frag_bytes f Hf) as Hl. destruct (gf_size f Hf) as [? Hsz]. change (2 ^ 16) with 65536 in Hsz.
    rewrite s32_small by lia. unfold u32. rewrite wrap_small by (unfold word; lia).
    destruct (Z.ltb_spec n (offset + fsize f)).
    + destruct (Z.ltb_spec n (offset + Z.of_nat (length (frag_bytes f) + length (flat_map frag_bytes fs)))); [done|lia].
    + rewrite IH by (done || lia).
      replace (offset + fsize f + Z.of_nat (length (flat_map frag_bytes fs)))
        with (offset + Z.of_nat (length (frag_bytes f) + length (flat_map frag_bytes fs))) by lia.
      destruct fs as [|f' fs]; [|by destruct (_ <? _)].
      simpl. destruct (Z.ltb_spec n (offset + Z.of_nat (length (frag_bytes f) + 0))); [lia|done].
Qed.

(** The loop for any packet that may be cut. *)
Lemma trim_frags_allowed c fs offset n nr :
  Forall good_frag fs -> 0 <= offset -> 0 <= n < 2 ^ 31 -> offset + Z.of_nat (length (flat_map frag_bytes fs)) < 2 ^ 31 ->
  (c = true -> fs = [] \/ offset + Z.of_nat (length (flat_map frag_bytes fs)) <= n) ->
  exists fs' d, trim_frags c fs offset n nr = Ret (fs', (nr - d)%nat, offset + Z.of_nat (length (flat_map frag_bytes fs))) /\
    length fs' = length fs /\ (d <= length fs)%nat /\ Forall good_frag fs' /\
    flat_map frag_bytes (take (length fs - d) fs') = take (Z.to_nat (n - offset)) (flat_map frag_bytes fs).
Proof.
  intros Hg Ho Hn Ht Hc. destruct c.
  - exists fs, 0%nat. rewrite trim_frags_cloned by done. rewrite !Nat.sub_0_r, firstn_all.
    destruct Hc as [->|Hc]; [done| |].
    { cbn. by rewrite take_nil. }
    rewrite (take_ge (flat_map _ _)) by lia.
    destruct fs as [|f fs]; [done|]. destruct (Z.ltb_spec n (offset + Z.of_nat (length (flat_map frag_bytes (f :: fs))))); [lia|].
    split_and!; [done..|lia|done|done].
  - destruct (trim_frags_ok fs offset n nr Hg Ho Hn Ht) as (fs' & d & ? & ? & ? & _ & ? & ?). by exists fs', d.
Qed.

(** The buffer with its end moved to [n] bytes, when [xs] is what is left of
    the parts behind the linear one. *)
Lemma resize_ok skb n dn tl fs fl :
  good_parts skb -> Forall good_frag fs -> Forall good fl -> 0 <= n <= len skb -> 0 <= dn <= n ->
  tl = data skb + (n - dn) -> n - dn <= len skb - data_len skb ->
  let xs := take (Z.to_nat (n - dn)) (linear skb) ++ flat_map frag_bytes fs ++ flat_map contents fl in
  Z.of_nat (length xs) < 2 ^ 31 -> take (Z.to_nat n) xs = take (Z.to_nat n) (stored skb) ->
  good (resize skb tl n dn fs fl) /\ contents (resize skb tl n dn fs fl) = take (Z.to_nat n) (contents skb).
Proof.
  intros G Hfs Hfl Hn Hdn -> Hle xs Hxs Heq. pose proof (length_linear skb G) as Hl. destruct G.
  assert (Hst : stored (resize skb (data skb + (n - dn)) n dn fs fl) = xs).
  { unfold stored, xs, linear, resize. cbn [len data_len data buffer frags frag_list]. rewrite take_take. do 2 f_equal. lia. }
  assert (Hlen : (length (take (Z.to_nat n) xs) = Z.to_nat n)%nat).
  { rewrite Heq, length_take. lia. }
  split.
  - apply good_eq. split; [|done].
    split; rewrite ?Hst; unfold resize; cbn [len data_len data tail buffer frags frag_list pkt_type]; try done; try lia.
    rewrite length_take in Hlen. lia.
  - rewrite !contents_eq, Hst. cbn [resize len]. rewrite take_take, Heq. f_equal. lia.
Qed.

Lemma ___pskb_trim_ok skb n :
  good skb -> 0 <= n < len skb -> data_len skb <> 0 -> cuts_shared skb n = false ->
  exists skb', ___pskb_trim skb n = Ret skb' /\ good skb' /\ contents skb' = take (Z.to_nat n) (contents skb).
Proof.
  intros G0 Hn Hd0 Hc. pose proof G0 as [G Gl]%good_eq.
  pose proof (length_linear skb G) as Hl. pose proof (gp_len _ G) as Hlen. pose proof (gp_enough _ G) as He.
  pose proof (gp_tail _ G). pose proof (gp_frags _ G) as Gf. unfold ___pskb_trim. destruct (headlen_ok skb G) as [Eh Es].
  rewrite Es, Eh. unfold stored in He. rewrite !length_app in He.
  destruct (trim_frags_allowed (skb_cloned skb) (frags skb) (len skb - data_len skb) n (length (frags skb)) Gf)
    as (fs & d & E & Hlf & Hd & Gf' & Hb); [lia..| |].
  { intros Hcl. unfold cuts_shared, frags_end in Hc. rewrite Hcl, (proj2 (Z.eqb_neq _ _) Hd0), (proj2 (Z.ltb_lt _ _) (proj2 Hn)) in Hc.
    cbn [negb andb] in Hc. destruct (frags skb); [by left|right]. by apply Z.ltb_ge in Hc. }
  rewrite E. unfold u32. rewrite !(wrap_small 32 (_ + _)) by (unfold word; lia).
  assert (Gt : Forall good_frag (take (length (frags skb) - d) fs)) by by apply Forall_take.
  assert (Htk : forall k (l : list Z), Z.of_nat (length (take k l)) <= Z.of_nat (length l)) by (intros; rewrite length_take; lia).
  pose proof (Htk (Z.to_nat (n - (len skb - data_len skb))) (flat_map frag_bytes (frags skb))) as Hfl.
  assert (Hall : take (Z.to_nat (n - (n - (len skb - data_len skb)))) (linear skb) = linear skb) by (apply take_ge; lia).
  destruct (Z.ltb_spec (len skb - data_len skb + Z.of_nat (length (flat_map frag_bytes (frags skb)))) n) as [Hc1|Hc1].
  - rewrite (wrap_small 32 (data_len skb - _)) by (unfold word; lia). eexists. split; [reflexivity|].
    replace (data_len skb - (len skb - n)) with (n - (len skb - data_len skb)) by lia.
    apply resize_ok; try done; try lia; rewrite Hall, Hb.
    + rewrite !length_app. lia.
    + unfold stored. rewrite (take_ge (flat_map frag_bytes _)) by lia. done.
  - destruct (Z.leb_spec n (len skb - data_len skb)) as [Hc2|Hc2].
    + eexists. split; [reflexivity|]. set (fl := if skb_cloned skb then _ else _).
      assert (Hfl' : Forall good fl /\ (length (flat_map contents fl) <= length (flat_map contents (frag_list skb)))%nat)
        by (unfold fl; destruct (skb_cloned skb); [done|split; [constructor|simpl; lia]]).
      destruct Hfl' as [Gfl Hlfl]. apply resize_ok; try done; try lia; rewrite Z.sub_0_r, Hb.
      * rewrite !length_app. specialize (Htk (Z.to_nat n) (linear skb)). lia.
      * replace (Z.to_nat (n - (len skb - data_len skb))) with 0%nat by lia. cbn [take app]. unfold stored.
        rewrite !take_app_le by (rewrite ?length_take; lia). by rewrite take_take, Nat.min_id.
    + rewrite (wrap_small 32 (data_len skb - _)) by (unfold word; lia). eexists. split; [reflexivity|].
      replace (data_len skb - (len skb - n)) with (n - (len skb - data_len skb)) by lia.
      apply resize_ok; try done; try lia; rewrite Hall, Hb.
      * rewrite !length_app. lia.
      * unfold stored. rewrite !(take_app_ge (linear skb)) by lia. f_equal.
        rewrite !take_app_le by (rewrite ?length_take; lia). rewrite take_take. f_equal. lia.
Qed.

Lemma skb_trim_ok skb n :
  good skb -> 0 <= n ->
  if cuts_shared skb n then skb_trim skb n = Err Bug
  else exists skb', skb_trim skb n = Ret skb' /\ good skb' /\ contents skb' = take (Z.to_nat n) (contents skb).
Proof.
  intros G0 Hn. pose proof (length_contents_skb skb G0) as Hlc. pose proof G0 as [G Gl]%good_eq.
  pose proof (length_linear skb G) as Hl. pose proof (gp_len _ G) as Hlen. pose proof (gp_enough _ G) as He.
  destruct (cuts_shared skb n) eqn:Hc.
  { unfold cuts_shared, frags_end in Hc. rewrite !andb_true_iff in Hc. destruct Hc as [[[Hcl Hd0] Hlt] Hf].
    unfold skb_trim, __skb_trim, ___pskb_trim. destruct (headlen_ok skb G) as [_ Es].
    rewrite Hlt. apply negb_true_iff in Hd0. rewrite Hd0, Hcl, Es. unfold stored in He. rewrite !length_app in He.
    rewrite trim_frags_cloned by (apply G || lia). by rewrite Hf. }
  unfold skb_trim.
  destruct (Z.ltb_spec n (len skb)) as [Hlt|]; [|exists skb; split; [done|]; split; [done|]; rewrite take_ge by lia; done].
  unfold __skb_trim. destruct (Z.eqb_spec (data_len skb) 0) as [Hd0|Hd0].
  - eexists. split; [reflexivity|]. rewrite Hd0. apply resize_ok; try done; try lia; [apply G| |]; rewrite Z.sub_0_r.
    + revert He. unfold stored. rewrite !length_app, length_take. lia.
    + unfold stored. rewrite !take_app_le by (rewrite ?length_take; lia). by rewrite take_take, Nat.min_id.
  - by apply ___pskb_trim_ok.
Qed.

(** (the packet is one list of bytes): wherever its parts lie,
    [skb_copy_bits] and [skb_header_pointer] give the bytes asked for when
    the packet has them and fail otherwise, and [skb_trim] cuts the packet to
    its first bytes, or stops the kernel when that changes a shared fragment. *)
Theorem skb_bits_correct skb offset n :
  good skb -> 0 <= offset < 2 ^ 31 -> 0 < n < 2 ^ 31 ->
  let slice := take (Z.to_nat n) (drop (Z.to_nat offset) (contents skb)) in
  skb_copy_bits skb offset n = Ret (if offset + n <=? len skb then Some slice else None) /\
  (if offset + n <=? len skb
   then exists p, skb_header_pointer skb offset n = Ret (Some p) /\ read_pointer skb p n = Ret slice
   else skb_header_pointer skb offset n = Ret None) /\
  (if cuts_shared skb n then skb_trim skb n = Err Bug
   else exists skb', skb_trim skb n = Ret skb' /\ good skb' /\ contents skb' = take (Z.to_nat n) (contents skb)).
Proof.
  intros G Ho Hn slice. split; [by apply skb_copy_bits_ok|]. split; [by apply skb_header_pointer_ok|].
  apply skb_trim_ok; [done|lia].
Qed.

(** Two bytes in the buffer, two in a page, and two in a buffer of the list. *)
Definition demo_parts : sk_buff :=
  SkBuff [1; 2; 0; 0; 0; 0] 0 2 0 0 6 4 false 1 0 0 0 [Frag [9; 3; 4] 1 2]
    [SkBuff [5; 6; 0; 0; 0; 0] 0 2 0 0 2 0 false 1 0 0 0 [] []].

Lemma demo_parts_good : good demo_parts.
Proof.
  apply good_eq. split.
  - split; try (by apply (bool_decide_unpack _)); try done. apply Forall_singleton. split; by apply (bool_decide_unpack _).
  - apply Forall_singleton, good_eq. split; [|constructor]. split; try (by apply (bool_decide_unpack _)); done.
Qed.

Lemma skb_bits_correct_witness :
  good demo_parts /\ skb_copy_bits demo_parts 1 4 = Ret (Some [2; 3; 4; 5]) /\
  exists skb', skb_trim demo_parts 4 = Ret skb' /\ contents skb' = [1; 2; 3; 4].
Proof.
  split; [apply demo_parts_good|].
  destruct (skb_bits_correct demo_parts 1 4 demo_parts_good) as (H & _ & Ht); [by apply (bool_decide_unpack _)..|].
  split; [rewrite H; vm_compute; reflexivity|]. destruct Ht as (skb' & H1 & _ & H2).
  exists skb'. split; [exact H1|]. rewrite H2. vm_compute. reflexivity.
Defined.
