(* ===== verification/Filter.v ===== *)
(** * Socket filters (net/core/filter.c, include/linux/filter.h)

    The classic BPF interpreter [sk_run_filter] and the checker
    [sk_chk_filter] that admits a program, on the packets of [Skb], and what
    a socket does with a filter: attaching, detaching and charging for it
    (net/core/sock.c), and passing packets through it (include/net/sock.h).

    [mem] of [sk_run_filter] is not initialised: its words are an argument.
    So are the results of shifts by 32 and more, which C leaves undefined. *)

From stdpp Require Import gmap.
From S2P Require Import Prelude Crc Skb.

(** ** Instructions *)

Record sock_filter := Insn { code : Z; jt : Z; jf : Z; k : Z }.

Definition BPF_CLASS (code : Z) : Z := Z.land code 0x07.
Definition BPF_LD := 0x00.
Definition BPF_LDX := 0x01.
Definition BPF_ST := 0x02.
Definition BPF_STX := 0x03.
Definition BPF_ALU := 0x04.
Definition BPF_JMP := 0x05.
Definition BPF_RET := 0x06.
Definition BPF_MISC := 0x07.
Definition BPF_W := 0x00.
Definition BPF_H := 0x08.
Definition BPF_B := 0x10.
Definition BPF_IMM := 0x00.
Definition BPF_ABS := 0x20.
Definition BPF_IND := 0x40.
Definition BPF_MEM := 0x60.
Definition BPF_LEN := 0x80.
Definition BPF_MSH := 0xa0.
Definition BPF_ADD := 0x00.
Definition BPF_SUB := 0x10.
Definition BPF_MUL := 0x20.
Definition BPF_DIV := 0x30.
Definition BPF_OR := 0x40.
Definition BPF_AND := 0x50.
Definition BPF_LSH := 0x60.
Definition BPF_RSH := 0x70.
Definition BPF_NEG := 0x80.
Definition BPF_JA := 0x00.
Definition BPF_JEQ := 0x10.
Definition BPF_JGT := 0x20.
Definition BPF_JGE := 0x30.
Definition BPF_JSET := 0x40.
Definition BPF_K := 0x00.
Definition BPF_X := 0x08.
Definition BPF_A := 0x10.
Definition BPF_TAX := 0x00.
Definition BPF_TXA := 0x80.
Definition BPF_MAXINSNS := 4096.
Definition BPF_MEMWORDS := 16.
Definition SKF_AD_OFF := (-0x1000).
Definition SKF_AD_PROTOCOL := 0.
Definition SKF_AD_PKTTYPE := 4.
Definition SKF_AD_IFINDEX := 8.
Definition SKF_NET_OFF := (-0x100000).
Definition SKF_LL_OFF := (-0x200000).

(** The cases of the two [switch]es, and their labels. *)
Inductive operand := K | X.
Inductive alu_op := ADD | SUB | MUL | DIV | AND | OR | LSH | RSH.
Inductive jmp_op := JGT | JGE | JEQ | JSET.
Inductive width := W | H | B.
Inductive opcode :=
| ALU (op : alu_op) (s : operand) | NEG
| JA | JMP (op : jmp_op) (s : operand)
| LD_ABS (w : width) | LD_IND (w : width) | LD_LEN | LDX_LEN | LDX_MSH
| LD_IMM | LDX_IMM | LD_MEM | LDX_MEM
| TAX | TXA | RET_K | RET_A | ST | STX.

#[export] Instance operand_eq_dec : EqDecision operand.
Proof. solve_decision. Defined.
#[export] Instance alu_op_eq_dec : EqDecision alu_op.
Proof. solve_decision. Defined.
#[export] Instance jmp_op_eq_dec : EqDecision jmp_op.
Proof. solve_decision. Defined.
#[export] Instance width_eq_dec : EqDecision width.
Proof. solve_decision. Defined.
#[export] Instance opcode_eq_dec : EqDecision opcode.
Proof. solve_decision. Defined.

Local Infix "∣" := Z.lor (at level 50, left associativity).

Definition opcodes : list (Z * opcode) := [
  (BPF_ALU∣BPF_ADD∣BPF_X, ALU ADD X); (BPF_ALU∣BPF_ADD∣BPF_K, ALU ADD K);
  (BPF_ALU∣BPF_SUB∣BPF_X, ALU SUB X); (BPF_ALU∣BPF_SUB∣BPF_K, ALU SUB K);
  (BPF_ALU∣BPF_MUL∣BPF_X, ALU MUL X); (BPF_ALU∣BPF_MUL∣BPF_K, ALU MUL K);
  (BPF_ALU∣BPF_DIV∣BPF_X, ALU DIV X); (BPF_ALU∣BPF_DIV∣BPF_K, ALU DIV K);
  (BPF_ALU∣BPF_AND∣BPF_X, ALU AND X); (BPF_ALU∣BPF_AND∣BPF_K, ALU AND K);
  (BPF_ALU∣BPF_OR∣BPF_X, ALU OR X); (BPF_ALU∣BPF_OR∣BPF_K, ALU OR K);
  (BPF_ALU∣BPF_LSH∣BPF_X, ALU LSH X); (BPF_ALU∣BPF_LSH∣BPF_K, ALU LSH K);
  (BPF_ALU∣BPF_RSH∣BPF_X, ALU RSH X); (BPF_ALU∣BPF_RSH∣BPF_K, ALU RSH K);
  (BPF_ALU∣BPF_NEG, NEG);
  (BPF_JMP∣BPF_JA, JA);
  (BPF_JMP∣BPF_JGT∣BPF_K, JMP JGT K); (BPF_JMP∣BPF_JGE∣BPF_K, JMP JGE K);
  (BPF_JMP∣BPF_JEQ∣BPF_K, JMP JEQ K); (BPF_JMP∣BPF_JSET∣BPF_K, JMP JSET K);
  (BPF_JMP∣BPF_JGT∣BPF_X, JMP JGT X); (BPF_JMP∣BPF_JGE∣BPF_X, JMP JGE X);
  (BPF_JMP∣BPF_JEQ∣BPF_X, JMP JEQ X); (BPF_JMP∣BPF_JSET∣BPF_X, JMP JSET X);
  (BPF_LD∣BPF_W∣BPF_ABS, LD_ABS W); (BPF_LD∣BPF_H∣BPF_ABS, LD_ABS H); (BPF_LD∣BPF_B∣BPF_ABS, LD_ABS B);
  (BPF_LD∣BPF_W∣BPF_LEN, LD_LEN); (BPF_LDX∣BPF_W∣BPF_LEN, LDX_LEN);
  (BPF_LD∣BPF_W∣BPF_IND, LD_IND W); (BPF_LD∣BPF_H∣BPF_IND, LD_IND H); (BPF_LD∣BPF_B∣BPF_IND, LD_IND B);
  (BPF_LDX∣BPF_B∣BPF_MSH, LDX_MSH);
  (BPF_LD∣BPF_IMM, LD_IMM); (BPF_LDX∣BPF_IMM, LDX_IMM); (BPF_LD∣BPF_MEM, LD_MEM); (BPF_LDX∣BPF_MEM, LDX_MEM);
  (BPF_MISC∣BPF_TAX, TAX); (BPF_MISC∣BPF_TXA, TXA);
  (BPF_RET∣BPF_K, RET_K); (BPF_RET∣BPF_A, RET_A); (BPF_ST, ST); (BPF_STX, STX)].

(** The case of [switch (code)]; [None] is [default]. *)
Definition case_of (code : Z) : option opcode :=
  match find (fun p => p.1 =? code) opcodes with Some p => Some p.2 | None => None end.

(** ** Packet access *)

Definition __load_pointer (skb : sk_buff) (k : Z) : option pointer :=
  let ptr := if SKF_NET_OFF <=? k then Some (nh skb + k - SKF_NET_OFF)
             else if SKF_LL_OFF <=? k then Some (mac skb + k - SKF_LL_OFF)
             else None in
  match ptr with
  | Some ptr => if (0 <=? ptr) && (ptr <? tail skb) then Some (In_skb ptr) else None
  | None => None
  end.

Definition load_pointer (skb : sk_buff) (k size : Z) : outcome (option pointer) :=
  if 0 <=? k then skb_header_pointer skb k size
  else if SKF_AD_OFF <=? k then Ret None
  else Ret (__load_pointer skb k).

(** Loads of a word, a half word and a byte on this CPU, and network order. *)
Definition ld_le (bs : list Z) : Z := foldr (fun b v => Z.lor b (Z.shiftl v 8)) 0 bs.
Definition ntohl (x : Z) : Z := ___arch__swab32 x.
Definition ntohs (x : Z) : Z := u16 (Z.lor (Z.shiftl (Z.land x 0x00ff) 8) (Z.shiftr (Z.land x 0xff00) 8)).
Definition htons (x : Z) : Z := ntohs x.

Definition size_of (w : width) : Z := match w with W => 4 | H => 2 | B => 1 end.
Definition convert (w : width) (v : Z) : Z := match w with W => ntohl v | H => ntohs v | B => v end.

(** [load_w], [load_h] and [load_b]; [None] is a NULL pointer. *)
Definition load (skb : sk_buff) (w : width) (k : Z) : outcome (option Z) :=
  let! ptr := load_pointer skb k (size_of w) in
  match ptr with
  | Some ptr => let! bs := read_pointer skb ptr (size_of w) in Ret (Some (convert w (ld_le bs)))
  | None => Ret None
  end.

(** The second [switch]. *)
Definition ancillary (skb : sk_buff) (k : Z) : option Z :=
  let c := s32 (k - SKF_AD_OFF) in
  if c =? SKF_AD_PROTOCOL then Some (htons (protocol skb))
  else if c =? SKF_AD_PKTTYPE then Some (pkt_type skb)
  else if c =? SKF_AD_IFINDEX then Some (u32 (ifindex skb))
  else None.

(** ** The interpreter *)

Record regs := Regs { rA : Z; rX : Z; rmem : list Z }.
Definition set_A (r : regs) (v : Z) : regs := Regs v (rX r) (rmem r).
Definition set_X (r : regs) (v : Z) : regs := Regs (rA r) v (rmem r).

(** Where an instruction leads: on with [pc], or out. *)
Inductive next := Cont (pc : Z) (r : regs) | Return (v : Z).

Definition read_mem (r : regs) (i : Z) : outcome Z :=
  match rmem r !! Z.to_nat i with Some v => Ret v | None => Err Fault end.
Definition write_mem (r : regs) (i v : Z) : outcome regs :=
  if i <? Z.of_nat (length (rmem r)) then Ret (Regs (rA r) (rX r) (<[Z.to_nat i := v]> (rmem r))) else Err Fault.

Section run.
(** [A << n] and [A >> n] when [n] is 32 or more. *)
Variables oshl oshr : Z -> Z -> Z.

Definition shl (a n : Z) : Z := if n <? 32 then cshl 32 a n else oshl a n.
Definition shr (a n : Z) : Z := if n <? 32 then Z.shiftr a n else oshr a n.

(** [None] is a division by zero. *)
Definition alu (op : alu_op) (a b : Z) : option Z :=
  match op with
  | ADD => Some (u32 (a + b))
  | SUB => Some (u32 (a - b))
  | MUL => Some (u32 (a * b))
  | DIV => if b =? 0 then None else Some (a / b)
  | AND => Some (Z.land a b)
  | OR => Some (Z.lor a b)
  | LSH => Some (shl a b)
  | RSH => Some (shr a b)
  end.

Definition test (op : jmp_op) (a b : Z) : bool :=
  match op with
  | JGT => b <? a
  | JGE => b <=? a
  | JEQ => a =? b
  | JSET => negb (Z.land a b =? 0)
  end.

Definition operand_of (i : sock_filter) (r : regs) (s : operand) : Z := match s with K => k i | X => rX r end.

(** One round of the loop in [sk_run_filter]; [pc] is that of [i]. *)
Definition step (skb : sk_buff) (i : sock_filter) (pc : Z) (r : regs) : outcome next :=
  let continue pc r := Ret (Cont (s32 (pc + 1)) r) in
  let load_into k w :=
    let! v := load skb w k in
    match v with
    | Some v => continue pc (set_A r v)
    | None => match ancillary skb k with Some v => continue pc (set_A r v) | None => Ret (Return 0) end
    end in
  match case_of (code i) with
  | Some (ALU op s) =>
      match alu op (rA r) (operand_of i r s) with
      | Some v => continue pc (set_A r v)
      | None => match s with X => Ret (Return 0) | K => Err Fault end
      end
  | Some NEG => continue pc (set_A r (u32 (- rA r)))
  | Some JA => continue (s32 (pc + k i)) r
  | Some (JMP op s) => continue (s32 (pc + (if test op (rA r) (operand_of i r s) then jt i else jf i))) r
  | Some (LD_ABS w) => load_into (s32 (k i)) w
  | Some (LD_IND w) => load_into (s32 (rX r + k i)) w
  | Some LD_LEN => continue pc (set_A r (len skb))
  | Some LDX_LEN => continue pc (set_X r (len skb))
  | Some LDX_MSH =>
      let! v := load skb B (s32 (k i)) in
      match v with
      | Some v => continue pc (set_X r (Z.shiftl (Z.land v 0xf) 2))
      | None => Ret (Return 0)
      end
  | Some LD_IMM => continue pc (set_A r (k i))
  | Some LDX_IMM => continue pc (set_X r (k i))
  | Some LD_MEM => let! v := read_mem r (k i) in continue pc (set_A r v)
  | Some LDX_MEM => let! v := read_mem r (k i) in continue pc (set_X r v)
  | Some TAX => continue pc (set_X r (rA r))
  | Some TXA => continue pc (set_A r (rX r))
  | Some RET_K => Ret (Return (k i))
  | Some RET_A => Ret (Return (rA r))
  | Some ST => let! r := write_mem r (k i) (rA r) in continue pc r
  | Some STX => let! r := write_mem r (k i) (rX r) in continue pc r
  | None => Ret (Return 0)
  end.

Definition fetch (filter : list sock_filter) (pc : Z) : outcome sock_filter :=
  if 0 <=? pc then match filter !! Z.to_nat pc with Some i => Ret i | None => Err Fault end else Err Fault.

Fixpoint run_loop (fuel : nat) (skb : sk_buff) (filter : list sock_filter) (flen pc : Z) (r : regs) : outcome Z :=
  match fuel with
  | O => Err Diverge
  | S fuel =>
      if pc <? flen then
        let! i := fetch filter pc in
        let! n := step skb i pc r in
        match n with
        | Cont pc r => run_loop fuel skb filter flen pc r
        | Return v => Ret v
        end
      else Ret 0
  end.

(** A filter that passes the check runs each instruction at most once. *)
Definition sk_run_filter (skb : sk_buff) (filter : list sock_filter) (flen : Z) (mem : list Z) : outcome Z :=
  run_loop (S (Z.to_nat flen)) skb filter flen 0 (Regs 0 0 mem).
End run.

(** ** The checker *)

Definition EINVAL : Z := 22.

(** Whether one instruction passes. *)
Definition chk_insn (ftest : sock_filter) (flen pc : Z) : bool :=
  match case_of (code ftest) with
  | Some (ALU DIV K) => negb (k ftest =? 0)
  | Some LD_MEM | Some LDX_MEM | Some ST | Some STX => negb (BPF_MEMWORDS <=? k ftest)
  | Some JA => negb (u32 (flen - pc - 1) <=? k ftest)
  | Some (JMP _ _) => negb ((flen <=? pc + jt ftest + 1) || (flen <=? pc + jf ftest + 1))
  | Some _ => true
  | None => false
  end.

Fixpoint chk_loop (fuel : nat) (filter : list sock_filter) (flen pc : Z) : outcome bool :=
  match fuel with
  | O => Err Diverge
  | S fuel =>
      if pc <? flen then
        let! ftest := fetch filter pc in
        if chk_insn ftest flen pc then chk_loop fuel filter flen (pc + 1) else Ret false
      else Ret true
  end.

Definition sk_chk_filter (filter : list sock_filter) (flen : Z) : outcome Z :=
  if (flen =? 0) || (BPF_MAXINSNS <? flen) then Ret (- EINVAL)
  else
    let! ok := chk_loop (S (Z.to_nat flen)) filter flen 0 in
    if (ok : bool) then
      let! last := fetch filter (flen - 1) in
      Ret (if BPF_CLASS (code last) =? BPF_RET then 0 else - EINVAL)
    else Ret (- EINVAL).

(** ** Sockets *)

Definition EPERM : Z := 1.
Definition ENOMEM : Z := 12.
Definition EFAULT : Z := 14.
Definition ENONET : Z := 64.

Record sk_filter_t := SkFilter { refcnt : Z; flen : Z; insns : list sock_filter }.
Definition sizeof_sock_filter : Z := 8.
Definition sizeof_sk_filter : Z := 8.
Definition sk_filter_len (fp : sk_filter_t) : Z := flen fp * sizeof_sock_filter + sizeof_sk_filter.

(** A socket and the filters in kernel memory. *)
Record sock := Sock {
  sk_filter_ptr : option nat;
  sk_omem_alloc : Z;
  kmem : gmap nat sk_filter_t }.

(** [sock_kmalloc]: [mem] is the answer of [kmalloc]. *)
Definition sock_kmalloc (sysctl_optmem_max : Z) (mem : option nat) (sk : sock) (size : Z) : option nat * sock :=
  if (u32 size <=? u32 sysctl_optmem_max) && (s32 (sk_omem_alloc sk + size) <? sysctl_optmem_max) then
    let charged := Sock (sk_filter_ptr sk) (s32 (sk_omem_alloc sk + size)) (kmem sk) in
    match mem with
    | Some p => (Some p, charged)
    | None => (None, Sock (sk_filter_ptr charged) (s32 (sk_omem_alloc charged - size)) (kmem charged))
    end
  else (None, sk).

Definition sock_kfree_s (sk : sock) (mem : nat) (size : Z) : sock :=
  Sock (sk_filter_ptr sk) (s32 (sk_omem_alloc sk - size)) (delete mem (kmem sk)).

Definition sk_filter_release (sk : sock) (fp : nat) : outcome sock :=
  match kmem sk !! fp with
  | Some f =>
      let refcnt := s32 (refcnt f - 1) in
      let omem := s32 (sk_omem_alloc sk - sk_filter_len f) in
      Ret (Sock (sk_filter_ptr sk) omem
        (if refcnt =? 0 then delete fp (kmem sk) else <[fp := SkFilter refcnt (flen f) (insns f)]> (kmem sk)))
  | None => Err Fault
  end.

(** [struct sock_fprog]; [filter] is a NULL pointer, memory that cannot be
    read, or the program. *)
Inductive user_filter := Null | Unreadable | Program (p : list sock_filter).
Record sock_fprog := Fprog { plen : Z; filter : user_filter }.

Definition copy_from_user (fprog : sock_fprog) : option (list sock_filter) :=
  match filter fprog with
  | Program p => if (Z.to_nat (plen fprog) <=? length p)%nat then Some (take (Z.to_nat (plen fprog)) p) else None
  | _ => None
  end.

Definition sk_attach_filter (sysctl_optmem_max : Z) (mem : option nat) (fprog : sock_fprog) (sk : sock) : outcome (Z * sock) :=
  match filter fprog with
  | Null => Ret (- EINVAL, sk)
  | _ =>
      let fsize := sizeof_sock_filter * plen fprog in
      let '(fp, sk) := sock_kmalloc sysctl_optmem_max mem sk (fsize + sizeof_sk_filter) in
      match fp with
      | None => Ret (- ENOMEM, sk)
      | Some fp =>
          match copy_from_user fprog with
          | None => Ret (- EFAULT, sock_kfree_s sk fp (fsize + sizeof_sk_filter))
          | Some insns =>
              let sk := Sock (sk_filter_ptr sk) (sk_omem_alloc sk) (<[fp := SkFilter 1 (plen fprog) insns]> (kmem sk)) in
              let! err := sk_chk_filter insns (plen fprog) in
              let '(fp, sk) := if err =? 0 then (sk_filter_ptr sk, Sock (Some fp) (sk_omem_alloc sk) (kmem sk)) else (Some fp, sk) in
              match fp with
              | Some fp => let! sk := sk_filter_release sk fp in Ret (err, sk)
              | None => Ret (err, sk)
              end
          end
      end
  end.

(** SO_DETACH_FILTER of [sock_setsockopt]. *)
Definition sk_detach_filter (sk : sock) : outcome (Z * sock) :=
  match sk_filter_ptr sk with
  | Some filter =>
      let sk := Sock None (sk_omem_alloc sk) (kmem sk) in
      let! sk := sk_filter_release sk filter in Ret (0, sk)
  | None => Ret (- ENONET, sk)
  end.

(** [security] is the answer of the security hook. *)
Definition sk_filter (oshl oshr : Z -> Z -> Z) (security : Z) (mem : list Z) (sk : sock) (skb : sk_buff) : outcome (Z * sk_buff) :=
  if negb (security =? 0) then Ret (security, skb)
  else
    match sk_filter_ptr sk with
    | None => Ret (0, skb)
    | Some filter =>
        match kmem sk !! filter with
        | None => Err Fault
        | Some filter =>
            let! pkt_len := sk_run_filter oshl oshr skb (insns filter) (flen filter) mem in
            if pkt_len =? 0 then Ret (- EPERM, skb)
            else let! skb := skb_trim skb pkt_len in Ret (0, skb)
        end
    end.
