(* ===== verification/FilterMain.v ===== *)
(** * What socket filters guarantee

    A program that passes [sk_chk_filter] runs safely and ends, and computes
    what the reference semantics [eval] says, which knows no program counter:
    a jump drops instructions. *)

From Stdlib Require Import ZifyBool.
From Equations Require Import Equations.
From stdpp Require Import gmap.
From S2P Require Import Prelude Ctype Linear Crc Skb Filter.

(** ** Instructions *)

Record typed (i : sock_filter) : Prop := {
  t_code : word 16 (code i);
  t_jt : is_byte (jt i);
  t_jf : is_byte (jf i);
  t_k : is_u32 (k i) }.

(** An instruction at [pc] in a program of [n]. *)
Definition legal (n pc : Z) (i : sock_filter) : Prop :=
  match case_of (code i) with
  | Some (ALU DIV K) => k i <> 0
  | Some LD_MEM | Some LDX_MEM | Some ST | Some STX => k i < 16
  | Some JA => pc + 1 + k i < n
  | Some (JMP _ _) => pc + 1 + jt i < n /\ pc + 1 + jf i < n
  | Some _ => True
  | None => False
  end.

Definition is_ret (i : sock_filter) : Prop := case_of (code i) = Some RET_K \/ case_of (code i) = Some RET_A.

(** A legal program. *)
Record program (l : list sock_filter) : Prop := {
  p_length : 0 < Z.of_nat (length l) <= 4096;
  p_legal pc i : l !! pc = Some i -> legal (Z.of_nat (length l)) (Z.of_nat pc) i;
  p_last : exists i, last l = Some i /\ is_ret i }.

Lemma case_of_in c op : case_of c = Some op -> (c, op) ∈ opcodes.
Proof.
  unfold case_of. destruct (find _ opcodes) as [[c' op']|] eqn:E; [|done]. intros [= <-]. apply find_some in E as [Hin Hc].
  cbn in *. assert (c' = c) as <- by lia. by apply list_elem_of_In.
Qed.

Lemma ret_class c op : case_of c = Some op -> (BPF_CLASS c =? BPF_RET) = true <-> op = RET_K \/ op = RET_A.
Proof.
  intros Hin%case_of_in.
  assert (H : Forall (fun p => (BPF_CLASS p.1 =? BPF_RET) = true <-> p.2 = RET_K \/ p.2 = RET_A) opcodes).
  { apply (bool_decide_unpack _). vm_compute. done. }
  rewrite Forall_forall in H. apply (H _ Hin).
Qed.

(** ** The checker *)

Lemma fetch_ok l pc i : l !! pc = Some i -> fetch l (Z.of_nat pc) = Ret i.
Proof. intros H. unfold fetch. destruct (Z.leb_spec 0 (Z.of_nat pc)); [|lia]. by rewrite Nat2Z.id, H. Qed.

Lemma chk_insn_ok n pc i : typed i -> 0 <= pc < n -> n < 2 ^ 31 -> chk_insn i n pc = true <-> legal n pc i.
Proof.
  intros [_ _ _ [Hk _]] Hpc Hn. unfold chk_insn, legal. change BPF_MEMWORDS with 16.
  unfold u32. rewrite wrap_small by (unfold word; lia).
  destruct (case_of (code i)) as [op|]; [|done].
  destruct op as [[] []| | | | | | | | | | | | | | | | | |]; try tauto; try lia.
Qed.

Lemma chk_loop_ok fuel l : forall pc,
  Forall typed l -> (pc <= length l)%nat -> Z.of_nat (length l) < 2 ^ 31 -> (length l - pc < fuel)%nat ->
  exists b : bool, chk_loop fuel l (Z.of_nat (length l)) (Z.of_nat pc) = Ret b /\
    (b = true <-> forall j i, (pc <= j)%nat -> l !! j = Some i -> legal (Z.of_nat (length l)) (Z.of_nat j) i).
Proof.
  induction fuel as [|fuel IH]; intros pc Ht Hpc Hl Hf; [lia|]. cbn [chk_loop].
  destruct (Z.ltb_spec (Z.of_nat pc) (Z.of_nat (length l))) as [Hlt|Hge].
  - destruct (lookup_lt_is_Some_2 l pc) as [i Hi]; [lia|]. rewrite (fetch_ok l pc i Hi).
    assert (Ti : typed i) by (rewrite Forall_lookup in Ht; by apply (Ht pc)).
    pose proof (chk_insn_ok (Z.of_nat (length l)) (Z.of_nat pc) i Ti ltac:(lia) Hl) as Hc.
    destruct (chk_insn i _ _).
    + replace (Z.of_nat pc + 1) with (Z.of_nat (S pc)) by lia.
      destruct (IH (S pc)) as (b & -> & Hb); [done|lia..|]. exists b. split; [done|]. rewrite Hb. split.
      * intros H j i' Hj Hi'. destruct (decide (j = pc)) as [->|]; [|apply H; [lia|done]].
        rewrite Hi in Hi'. injection Hi' as <-. by apply Hc.
      * intros H j i' Hj. apply H. lia.
    + exists false. split; [done|]. split; [done|]. intros H. apply Hc. by apply H.
  - exists true. split; [done|]. split; [|done]. intros _ j i Hj Hi. apply lookup_lt_Some in Hi. lia.
Qed.

Lemma chk_filter_spec l :
  Forall typed l -> Z.of_nat (length l) < 2 ^ 31 ->
  exists b : bool, sk_chk_filter l (Z.of_nat (length l)) = Ret (if b then 0 else - EINVAL) /\ (b = true <-> program l).
Proof.
  intros Ht Hl. unfold sk_chk_filter. change BPF_MAXINSNS with 4096.
  destruct (Z.eqb_spec (Z.of_nat (length l)) 0) as [H0|H0]; cbn [orb].
  { exists false. split; [done|]. split; [done|]. intros [? _ _]. lia. }
  destruct (Z.ltb_spec 4096 (Z.of_nat (length l))) as [H1|H1].
  { exists false. split; [done|]. split; [done|]. intros [? _ _]. lia. }
  destruct (chk_loop_ok (S (Z.to_nat (Z.of_nat (length l)))) l 0 Ht ltac:(lia) Hl ltac:(lia)) as (b & E & Hb).
  change (Z.of_nat 0) with 0 in E. rewrite E. clear E.
  destruct b.
  - destruct (last l) as [i|] eqn:El; [|apply last_None in El; by subst l].
    assert (Hi : l !! (length l - 1)%nat = Some i) by (rewrite <-El, last_lookup; f_equal; lia).
    replace (Z.of_nat (length l) - 1) with (Z.of_nat (length l - 1)) by lia. rewrite (fetch_ok l _ i Hi).
    assert (Hleg : legal (Z.of_nat (length l)) (Z.of_nat (length l - 1)) i) by (apply Hb; [done|lia|done]).
    unfold legal in Hleg. destruct (case_of (code i)) as [op|] eqn:Ec; [|done]. pose proof (ret_class _ _ Ec) as Hr.
    exists (BPF_CLASS (code i) =? BPF_RET). split; [done|]. rewrite Hr. split.
    + intros Hop. split; [lia|intros pc i' Hi'; apply Hb; [done|lia|done]|]. exists i. split; [done|].
      unfold is_ret. rewrite Ec. destruct Hop; [left|right]; congruence.
    + intros [_ _ (i' & Hl' & Hret)]. rewrite El in Hl'. injection Hl' as <-. unfold is_ret in Hret. rewrite Ec in Hret.
      destruct Hret; [left|right]; congruence.
  - exists false. split; [done|]. split; [done|]. intros [_ Hp _]. apply Hb. intros j i _. apply Hp.
Qed.

(** ** Network order *)

(** The number big-endian bytes spell. *)
Definition be (bs : list Z) : Z := foldl (fun v b => 256 * v + b) 0 bs.

Lemma byte_lxor b v : is_byte b -> Z.lor b (Z.shiftl v 8) = Z.lxor b (Z.shiftl v 8).
Proof.
  intros Hb. symmetry. apply Z.lxor_lor, Z.bits_inj'. intros i Hi. rewrite Z.land_spec, Z.shiftl_spec, Z.testbit_0_l by lia.
  destruct (Z.ltb_spec i 8); [by rewrite (Z.testbit_neg_r v), andb_false_r by lia|].
  by rewrite (word_testbit_high 8 b) by (lia || done).
Qed.

Lemma be_snoc bs b : is_byte b -> be (bs ++ [b]) = Z.lxor (Z.shiftl (be bs) 8) b.
Proof.
  intros Hb. unfold be. rewrite foldl_app. cbn [foldl]. fold (be bs).
  rewrite Z.lxor_comm, <-byte_lxor, Z.lor_comm, lor_shift_add by (done || lia). lia.
Qed.

Lemma swab32_bytes b :
  is_byte b ->
  ___arch__swab32 b = Z.shiftl b 24 /\ ___arch__swab32 (Z.shiftl b 8) = Z.shiftl b 16 /\
  ___arch__swab32 (Z.shiftl b 16) = Z.shiftl b 8 /\ ___arch__swab32 (Z.shiftl b 24) = b.
Proof.
  intros Hb. split_and!; apply Z.eqb_eq; revert b Hb.
  - by_bytes (fun b => ___arch__swab32 b =? Z.shiftl b 24).
  - by_bytes (fun b => ___arch__swab32 (Z.shiftl b 8) =? Z.shiftl b 16).
  - by_bytes (fun b => ___arch__swab32 (Z.shiftl b 16) =? Z.shiftl b 8).
  - by_bytes (fun b => ___arch__swab32 (Z.shiftl b 24) =? b).
Qed.

Lemma byte_shift_u32 b n : is_byte b -> 0 <= n <= 24 -> is_u32 (Z.shiftl b n).
Proof.
  intros [Hb1 Hb2] Hn. rewrite Z.shiftl_mul_pow2 by lia. assert (0 < 2 ^ n <= 2 ^ 24) by (split; [lia|apply Z.pow_le_mono_r; lia]).
  unfold word in *. change (2 ^ 8) with 256 in Hb2. change (2 ^ 32) with (256 * 2 ^ 24). nia.
Qed.

Lemma ntohl_be b0 b1 b2 b3 : Forall is_byte [b0; b1; b2; b3] -> ntohl (ld_le [b0; b1; b2; b3]) = be [b0; b1; b2; b3].
Proof.
  rewrite !Forall_cons. intros (H0 & H1 & H2 & H3 & _).
  change [b0; b1; b2; b3] with ((([b0] ++ [b1]) ++ [b2]) ++ [b3]) at 2. rewrite !be_snoc by done.
  cbn [ld_le foldr]. rewrite !byte_lxor by done. change (be [b0]) with b0. rewrite Z.shiftl_0_l, Z.lxor_0_r.
  rewrite !Z.shiftl_lxor, !Z.shiftl_shiftl by lia. change (8 + 8) with 16. change (16 + 8) with 24. change (8 + 16) with 24.
  unfold ntohl. destruct (swab32_bytes b0 H0) as (E0 & _), (swab32_bytes b1 H1) as (_ & E1 & _),
    (swab32_bytes b2 H2) as (_ & _ & E2 & _), (swab32_bytes b3 H3) as (_ & _ & _ & E3).
  rewrite !(linear_lxor (f := ___arch__swab32)) by (repeat apply word_lxor; try lia; try (apply byte_shift_u32; [done|lia]); by apply byte_u32).
  by rewrite E0, E1, E2, E3, !Z.lxor_assoc.
Qed.

Lemma ntohs_be b0 b1 : Forall is_byte [b0; b1] -> ntohs (ld_le [b0; b1]) = be [b0; b1].
Proof.
  rewrite !Forall_cons. intros (H0 & H1 & _). apply Z.eqb_eq.
  apply (byte_forall (fun b1 => ntohs (ld_le [b0; b1]) =? be [b0; b1])); [|done]. revert b0 H0.
  by_bytes (fun b0 => forallb (fun b1 => ntohs (ld_le [b0; b1]) =? be [b0; b1]) all_bytes).
Qed.

Lemma convert_be w bs : Forall is_byte bs -> Z.of_nat (length bs) = size_of w -> convert w (ld_le bs) = be bs.
Proof.
  intros Hb Hl. destruct w; cbn [size_of] in Hl.
  - destruct bs as [|b0 [|b1 [|b2 [|b3 [|]]]]]; try (cbn [length] in Hl; lia). by apply ntohl_be.
  - destruct bs as [|b0 [|b1 [|]]]; try (cbn [length] in Hl; lia). by apply ntohs_be.
  - destruct bs as [|b0 [|]]; try (cbn [length] in Hl; lia). cbn [convert ld_le foldr be foldl].
    by rewrite Z.shiftl_0_l, Z.lor_0_r.
Qed.

Lemma be_range bs : Forall is_byte bs -> 0 <= be bs < 256 ^ Z.of_nat (length bs).
Proof.
  induction bs as [|b bs IH] using rev_ind; intros Hb; [done|]. apply Forall_app in Hb as [Hb [Hb1 _]%Forall_cons].
  specialize (IH Hb). unfold be in *. rewrite foldl_app. cbn [foldl]. rewrite length_app. cbn [length].
  replace (Z.of_nat (length bs + 1)) with (Z.succ (Z.of_nat (length bs))) by lia. rewrite Z.pow_succ_r by lia.
  destruct Hb1 as [? Hb1]. change (2 ^ 8) with 256 in Hb1. lia.
Qed.

(** ** Reference semantics *)

(** The big-endian number at [p]. *)
Definition number_at (m : list Z) (p : Z) (w : width) : Z := be (take (Z.to_nat (size_of w)) (drop (Z.to_nat p) m)).

(** A load at [k]: from the packet, or relative to its network or link-level
    header.  Through a header the first byte must be in the linear part; the
    others may lie behind it. *)
Definition spec_load (skb : sk_buff) (w : width) (k : Z) : option Z :=
  if 0 <=? k then if k + size_of w <=? len skb then Some (number_at (contents skb) k w) else None
  else
    let at_ q := if (0 <=? q) && (q <? tail skb) then Some (number_at (buffer skb) q w) else None in
    if -0x1000 <=? k then None
    else if -0x100000 <=? k then at_ (nh skb + (k + 0x100000))
    else if -0x200000 <=? k then at_ (mac skb + (k + 0x200000))
    else None.

Definition spec_ancillary (skb : sk_buff) (k : Z) : option Z :=
  if k =? -0x1000 then Some (htons (protocol skb))
  else if k =? -0x1000 + 4 then Some (pkt_type skb)
  else if k =? -0x1000 + 8 then Some (u32 (ifindex skb))
  else None.

Definition or_else {A} (o o' : option A) : option A := match o with Some a => Some a | None => o' end.

(** What an instruction does: the next one after skipping [n], or the end. *)
Inductive effect := Next (n : Z) (r : regs) | Stop (v : Z).

Section eval.
Context (oshl oshr : Z -> Z -> Z) (skb : sk_buff).

Definition exec (i : sock_filter) (r : regs) : effect :=
  let into_A o := match o with Some v => Next 0 (set_A r v) | None => Stop 0 end in
  let into_X o := match o with Some v => Next 0 (set_X r v) | None => Stop 0 end in
  let load w k := or_else (spec_load skb w k) (spec_ancillary skb k) in
  match case_of (code i) with
  | Some (ALU op s) => into_A (alu oshl oshr op (rA r) (operand_of i r s))
  | Some NEG => Next 0 (set_A r (u32 (- rA r)))
  | Some JA => Next (k i) r
  | Some (JMP op s) => Next (if test op (rA r) (operand_of i r s) then jt i else jf i) r
  | Some (LD_ABS w) => into_A (load w (s32 (k i)))
  | Some (LD_IND w) => into_A (load w (s32 (rX r + k i)))
  | Some LD_LEN => Next 0 (set_A r (Z.of_nat (length (contents skb))))
  | Some LDX_LEN => Next 0 (set_X r (Z.of_nat (length (contents skb))))
  | Some LDX_MSH =>
      into_X (match spec_load skb B (s32 (k i)) with Some v => Some (v mod 16 * 4) | None => None end)
  | Some LD_IMM => Next 0 (set_A r (k i))
  | Some LDX_IMM => Next 0 (set_X r (k i))
  | Some LD_MEM => into_A (rmem r !! Z.to_nat (k i))
  | Some LDX_MEM => into_X (rmem r !! Z.to_nat (k i))
  | Some TAX => Next 0 (set_X r (rA r))
  | Some TXA => Next 0 (set_A r (rX r))
  | Some RET_K => Stop (k i)
  | Some RET_A => Stop (rA r)
  | Some ST => Next 0 (Regs (rA r) (rX r) (<[Z.to_nat (k i) := rA r]> (rmem r)))
  | Some STX => Next 0 (Regs (rA r) (rX r) (<[Z.to_nat (k i) := rX r]> (rmem r)))
  | None => Stop 0
  end.

(** What a program returns on the packet. *)
Equations eval (l : list sock_filter) (r : regs) : Z by wf (length l) lt :=
  eval [] r := 0;
  eval (i :: l) r with exec i r := {
    | Stop v => v
    | Next n r' => eval (drop (Z.to_nat n) l) r' }.
Next Obligation. intros. rewrite length_drop. cbn [length]. lia. Qed.
End eval.

(** ** Loads *)

Lemma read_bytes m p n bs : Forall is_byte m -> memcpy_from m p n = Ret bs -> 0 <= n -> Forall is_byte bs /\ Z.of_nat (length bs) = n.
Proof.
  intros Hm. unfold memcpy_from. destruct (Z.leb_spec 0 p), (Z.leb_spec (p + n) (Z.of_nat (length m))); try done.
  intros [= <-] Hn. split; [by apply Forall_take, Forall_drop|]. rewrite length_take, length_drop. lia.
Qed.

Lemma contents_bytes skb : good skb -> Forall is_byte (contents skb).
Proof.
  induction skb as [skb IH] using sk_buff_rect'. intros [G Gl]%good_eq. rewrite contents_eq. apply Forall_take.
  unfold stored, linear. rewrite !Forall_app. split_and!.
  - apply Forall_take, Forall_drop, G.
  - pose proof (gp_frags _ G) as Gf. rewrite Forall_forall. intros x Hx%list_elem_of_In. apply in_flat_map in Hx as (f & Hf & Hx).
    rewrite Forall_forall in Gf. specialize (Gf f ltac:(by apply list_elem_of_In)). apply list_elem_of_In in Hx. revert x Hx.
    rewrite <-Forall_forall. apply Forall_take, Forall_drop, Gf.
  - rewrite Forall_forall. intros x Hx%list_elem_of_In. apply in_flat_map in Hx as (b & Hb & Hx).
    apply list_elem_of_In in Hb. apply list_elem_of_In in Hx. revert x Hx. rewrite <-Forall_forall.
    rewrite Forall_forall in IH, Gl. by apply IH; [|apply Gl].
Qed.

Lemma size_of_range w : 1 <= size_of w <= 4.
Proof. destruct w; cbn; lia. Qed.

Lemma number_at_range m p w : Forall is_byte m -> is_u32 (number_at m p w).
Proof.
  intros Hm. unfold number_at. pose proof (size_of_range w).
  destruct (be_range (take (Z.to_nat (size_of w)) (drop (Z.to_nat p) m))) as [H1 H2]; [by apply Forall_take, Forall_drop|].
  split; [done|]. eapply Z.lt_le_trans; [exact H2|]. change (2 ^ 32) with (256 ^ 4). apply Z.pow_le_mono_r; [lia|].
  rewrite length_take. lia.
Qed.

(** Any read inside a buffer is the number there. *)
Lemma load_number w m p :
  Forall is_byte m -> 0 <= p -> p + size_of w <= Z.of_nat (length m) ->
  (let! bs := memcpy_from m p (size_of w) in Ret (Some (convert w (ld_le bs)))) = Ret (Some (number_at m p w)).
Proof.
  intros Hm Hp Hpw. pose proof (size_of_range w). pose proof (memcpy_from_ok m p (size_of w) Hp ltac:(lia) Hpw) as E.
  destruct (read_bytes m p (size_of w) _ Hm E ltac:(lia)) as [Hb Hl]. rewrite E. by rewrite convert_be.
Qed.

Lemma load_ok skb w k : good skb -> - 2 ^ 31 <= k < 2 ^ 31 -> load skb w k = Ret (spec_load skb w k).
Proof.
  intros G Hk. pose proof (size_of_range w) as Hw. pose proof (good_parts_of skb G) as GP. pose proof (contents_bytes skb G) as Hcb.
  unfold load, load_pointer, spec_load. destruct (Z.leb_spec 0 k) as [H0|H0].
  - pose proof (skb_header_pointer_ok skb k (size_of w) G ltac:(lia) ltac:(lia)) as Hp.
    destruct (k + size_of w <=? len skb) eqn:E; [|by rewrite Hp]. destruct Hp as (p & -> & Hr). rewrite Hr.
    rewrite <-(load_number w (contents skb) k Hcb H0); [|rewrite length_contents_skb by done; lia].
    rewrite memcpy_from_ok; [done|lia..|]. rewrite length_contents_skb by done. lia.
  - change SKF_AD_OFF with (-0x1000). destruct (Z.leb_spec (-0x1000) k) as [H1|H1]; [done|].
    unfold __load_pointer. change SKF_NET_OFF with (-0x100000). change SKF_LL_OFF with (-0x200000).
    assert (Hat : forall q, (let! ptr := Ret (if (0 <=? q) && (q <? tail skb) then Some (In_skb q) else None) in
      match ptr with
      | Some ptr => let! bs := read_pointer skb ptr (size_of w) in Ret (Some (convert w (ld_le bs)))
      | None => Ret None
      end) = Ret (if (0 <=? q) && (q <? tail skb) then Some (number_at (buffer skb) q w) else None)).
    { intros q. destruct (Z.leb_spec 0 q), (Z.ltb_spec q (tail skb)); try done. cbn [andb read_pointer].
      pose proof (gp_end _ GP). apply load_number; [apply GP|lia..]. }
    destruct (Z.leb_spec (-0x100000) k); [|destruct (Z.leb_spec (-0x200000) k); [|done]].
    + replace (nh skb + (k + 0x100000)) with (nh skb + k - -0x100000) by lia. apply Hat.
    + replace (mac skb + (k + 0x200000)) with (mac skb + k - -0x200000) by lia. apply Hat.
Qed.

Lemma ancillary_ok skb k : - 2 ^ 31 <= k < 2 ^ 31 -> ancillary skb k = spec_ancillary skb k.
Proof.
  intros Hk. unfold ancillary, spec_ancillary. change SKF_AD_OFF with (-0x1000).
  change SKF_AD_PROTOCOL with 0. change SKF_AD_PKTTYPE with 4. change SKF_AD_IFINDEX with 8.
  destruct (decide (k < 2 ^ 31 - 0x1000)).
  - rewrite s32_small by lia.
    destruct (Z.eqb_spec k (-0x1000)); [by destruct (Z.eqb_spec (k - -0x1000) 0); [|lia]|].
    destruct (Z.eqb_spec (k - -0x1000) 0); [lia|].
    destruct (Z.eqb_spec k (-0x1000 + 4)); [by destruct (Z.eqb_spec (k - -0x1000) 4); [|lia]|].
    destruct (Z.eqb_spec (k - -0x1000) 4); [lia|].
    destruct (Z.eqb_spec k (-0x1000 + 8)); [by destruct (Z.eqb_spec (k - -0x1000) 8); [|lia]|].
    by destruct (Z.eqb_spec (k - -0x1000) 8); [lia|].
  - assert (E : s32 (k - -0x1000) = k + 0x1000 - 2 ^ 32).
    { unfold s32, swrap. replace (k - -0x1000 + 2 ^ (32 - 1)) with (k + 0x1000 - 2 ^ 31 + 1 * 2 ^ 32) by lia.
      rewrite Z.mod_add by lia. rewrite Z.mod_small by lia. lia. }
    rewrite E. repeat match goal with |- context [?a =? ?b] => destruct (Z.eqb_spec a b); [lia|] end. done.
Qed.

(** ** One instruction *)

Record good_regs (r : regs) : Prop := {
  gr_A : is_u32 (rA r);
  gr_X : is_u32 (rX r);
  gr_mem : length (rmem r) = 16%nat;
  gr_words : Forall is_u32 (rmem r) }.

Section safe.
Context (oshl oshr : Z -> Z -> Z).
Context (Hshl : forall a n, is_u32 a -> is_u32 n -> is_u32 (oshl a n)) (Hshr : forall a n, is_u32 a -> is_u32 n -> is_u32 (oshr a n)).

Lemma alu_word op a b v : is_u32 a -> is_u32 b -> alu oshl oshr op a b = Some v -> is_u32 v.
Proof.
  intros Ha Hb. destruct op; cbn [alu].
  1-3: intros [= <-]; by apply wrap_word.
  - destruct (Z.eqb_spec b 0); [done|]. intros [= <-]. destruct Ha, Hb. split; [by apply Z.div_pos; lia|].
    apply Z.div_lt_upper_bound; nia.
  - intros [= <-]. by apply word_land.
  - intros [= <-]. by apply word_lor.
  - intros [= <-]. unfold shl. destruct (Z.ltb_spec b 32); [by apply word_cshl|by apply Hshl].
  - intros [= <-]. unfold shr. destruct (Z.ltb_spec b 32); [destruct Hb; by apply word_shiftr|by apply Hshr].
Qed.

(** What follows an instruction in a program of [n] at [pc]. *)
Definition leads (n pc : Z) (e : effect) (o : outcome next) : Prop :=
  match e with
  | Next m r => o = Ret (Cont (pc + 1 + m) r) /\ good_regs r /\ 0 <= m /\ pc + 1 + m <= n
  | Stop v => o = Ret (Return v) /\ is_u32 v
  end.

Lemma good_set_A r v : good_regs r -> is_u32 v -> good_regs (set_A r v).
Proof. intros [] Hv. by split. Qed.
Lemma good_set_X r v : good_regs r -> is_u32 v -> good_regs (set_X r v).
Proof. intros [] Hv. by split. Qed.

Context (skb : sk_buff) (G : good skb).

Lemma spec_load_word w k v : spec_load skb w k = Some v -> is_u32 v.
Proof.
  pose proof (contents_bytes skb G) as Hc. pose proof (gp_bytes _ (good_parts_of skb G)) as Hb. unfold spec_load.
  repeat case_match; intros E; try discriminate; injection E as <-; by apply number_at_range.
Qed.

Lemma ancillary_word k v : spec_ancillary skb k = Some v -> is_u32 v.
Proof.
  unfold spec_ancillary. repeat case_match; intros E; try discriminate; injection E as <-.
  - apply (word_mono 16); [lia|by apply wrap_word].
  - apply (word_mono 3); [lia|apply (good_parts_of skb G)].
  - by apply wrap_word.
Qed.

Lemma load_into_A w k r n pc :
  good_regs r -> 0 <= pc < n -> n <= 4096 -> - 2 ^ 31 <= k < 2 ^ 31 ->
  leads n pc
    (match or_else (spec_load skb w k) (spec_ancillary skb k) with Some v => Next 0 (set_A r v) | None => Stop 0 end)
    (let! v := load skb w k in
     match v with
     | Some v => Ret (Cont (s32 (pc + 1)) (set_A r v))
     | None => match ancillary skb k with Some v => Ret (Cont (s32 (pc + 1)) (set_A r v)) | None => Ret (Return 0) end
     end).
Proof.
  intros Hr Hpc Hn Hk. rewrite load_ok, ancillary_ok by done. rewrite s32_small by lia.
  destruct (spec_load skb w k) as [v|] eqn:E; cbn [or_else].
  - split; [by rewrite Z.add_0_r|]. split; [|lia]. apply good_set_A; [done|]. by eapply spec_load_word.
  - destruct (spec_ancillary skb k) as [v|] eqn:E2; [|done].
    split; [by rewrite Z.add_0_r|]. split; [|lia]. apply good_set_A; [done|]. by eapply ancillary_word.
Qed.

Lemma leads_next n pc r : good_regs r -> 0 <= pc < n -> n <= 4096 -> leads n pc (Next 0 r) (Ret (Cont (s32 (pc + 1)) r)).
Proof. intros Hr Hpc Hn. rewrite s32_small by lia. split; [by rewrite Z.add_0_r|]. split; [done|lia]. Qed.

Lemma step_ok i r n pc :
  typed i -> good_regs r -> legal n pc i -> 0 <= pc < n -> n <= 4096 ->
  leads n pc (exec oshl oshr skb i r) (step oshl oshr skb i pc r).
Proof.
  intros Ti Gr Hl Hpc Hn. pose proof Gr as [HA HX Hlen Hmem]. pose proof Ti as [_ [Hjt1 Hjt2] [Hjf1 Hjf2] Hk].
  change (2 ^ 8) with 256 in *. assert (Hop : forall s, is_u32 (operand_of i r s)) by by intros [].
  unfold exec, step, legal in *. destruct (case_of (code i)) as [op|]; [|done].
  assert (Hcl : is_u32 (len skb)).
  { pose proof (good_parts_of skb G) as GP. pose proof (gp_enough _ GP). pose proof (gp_len _ GP). unfold word. lia. }
  assert (Hm : k i < 16 -> exists v, rmem r !! Z.to_nat (k i) = Some v /\ is_u32 v).
  { intros Hk16. destruct (lookup_lt_is_Some_2 (rmem r) (Z.to_nat (k i))) as [v Hv]; [destruct Hk; lia|]. exists v. split; [done|].
    rewrite Forall_lookup in Hmem. by apply (Hmem (Z.to_nat (k i))). }
  destruct op.
  - (* ALU *) destruct (alu _ _ op _ _) as [v|] eqn:E.
    + apply leads_next; [|done..]. apply good_set_A; [done|]. eapply alu_word; [exact HA|apply Hop|exact E].
    + destruct s; [|done]. exfalso. destruct op; try done. cbn [alu operand_of] in E. by destruct (Z.eqb_spec (k i) 0).
  - apply leads_next; [|done..]. apply good_set_A; [done|]. by apply wrap_word.
  - destruct Hk. rewrite (s32_small (pc + k i)), s32_small by lia. split; [do 2 f_equal; lia|]. split; [done|lia].
  - destruct (test _ _ _); rewrite (s32_small (pc + _)), s32_small by lia; (split; [do 2 f_equal; lia|]; split; [done|lia]).
  - apply load_into_A; [done..|apply s32_range].
  - apply load_into_A; [done..|apply s32_range].
  - rewrite length_contents_skb by done. apply leads_next; [by apply good_set_A|done..].
  - rewrite length_contents_skb by done. apply leads_next; [by apply good_set_X|done..].
  - rewrite load_ok by (done || apply s32_range). destruct (spec_load _ _ _) as [v|] eqn:E; [|done].
    apply spec_load_word in E. replace (Z.shiftl (Z.land v 0xf) 2) with (v mod 16 * 4).
    + apply leads_next; [|done..]. apply good_set_X; [done|]. pose proof (Z.mod_pos_bound v 16 ltac:(lia)). unfold word. lia.
    + rewrite Z.shiftl_mul_pow2 by lia. change 0xf with (Z.ones 4). by rewrite Z.land_ones by lia.
  - apply leads_next; [by apply good_set_A|done..].
  - apply leads_next; [by apply good_set_X|done..].
  - destruct (Hm Hl) as (v & Hv & Hw). unfold read_mem. rewrite Hv. apply leads_next; [by apply good_set_A|done..].
  - destruct (Hm Hl) as (v & Hv & Hw). unfold read_mem. rewrite Hv. apply leads_next; [by apply good_set_X|done..].
  - apply leads_next; [by apply good_set_X|done..].
  - apply leads_next; [by apply good_set_A|done..].
  - done.
  - done.
  - unfold write_mem. rewrite Hlen. destruct (Z.ltb_spec (k i) (Z.of_nat 16)); [|lia]. apply leads_next; [|done..].
    split; cbn [rA rX rmem]; [done..|by rewrite length_insert|by apply Forall_insert].
  - unfold write_mem. rewrite Hlen. destruct (Z.ltb_spec (k i) (Z.of_nat 16)); [|lia]. apply leads_next; [|done..].
    split; cbn [rA rX rmem]; [done..|by rewrite length_insert|by apply Forall_insert].
Qed.

Lemma filter_loop_ok fuel l : forall pc r,
  Forall typed l -> program l -> good_regs r -> (pc <= length l)%nat -> (length l - pc < fuel)%nat ->
  run_loop oshl oshr fuel skb l (Z.of_nat (length l)) (Z.of_nat pc) r = Ret (eval oshl oshr skb (drop pc l) r) /\
  is_u32 (eval oshl oshr skb (drop pc l) r).
Proof.
  induction fuel as [|fuel IH]; intros pc r Ht P Gr Hpc Hf; [lia|]. cbn [run_loop].
  destruct (Z.ltb_spec (Z.of_nat pc) (Z.of_nat (length l))) as [Hlt|Hge].
  - destruct (lookup_lt_is_Some_2 l pc) as [i Hi]; [lia|]. rewrite (fetch_ok l pc i Hi). rewrite (drop_S l i pc Hi).
    assert (Ti : typed i) by (rewrite Forall_lookup in Ht; by apply (Ht pc)).
    pose proof (step_ok i r (Z.of_nat (length l)) (Z.of_nat pc) Ti Gr (p_legal l P pc i Hi) ltac:(lia) (proj2 (p_length l P))) as Hs.
    simp eval. unfold leads in Hs. destruct (exec oshl oshr skb i r) as [m r'|v]; cbn [eval_unfold_clause_2].
    + destruct Hs as (-> & Gr' & Hm & Hpm). rewrite drop_drop.
      replace (Z.of_nat pc + 1 + m) with (Z.of_nat (S pc + Z.to_nat m)) by lia. apply IH; [done..|lia|lia].
    + by destruct Hs as [-> Hv].
  - rewrite drop_ge by lia. simp eval. done.
Qed.

Lemma run_filter_spec l mem :
  Forall typed l -> program l -> length mem = 16%nat -> Forall is_u32 mem ->
  sk_run_filter oshl oshr skb l (Z.of_nat (length l)) mem = Ret (eval oshl oshr skb l (Regs 0 0 mem)) /\
  is_u32 (eval oshl oshr skb l (Regs 0 0 mem)).
Proof.
  intros Ht P Hl Hw. apply (filter_loop_ok _ l 0); [done..|by split|lia|lia].
Qed.
End safe.

(** ** Sockets *)

(** A filter in use: checked when it was attached. *)
Record admitted (f : sk_filter_t) : Prop := {
  a_len : flen f = Z.of_nat (length (insns f));
  a_refcnt : 1 <= refcnt f < 2 ^ 31;
  a_typed : Forall typed (insns f);
  a_program : program (insns f) }.

(** What the socket is charged for its filter. *)
Definition charge (sk : sock) : Z :=
  match sk_filter_ptr sk with
  | Some p => match kmem sk !! p with Some f => sk_filter_len f | None => 0 end
  | None => 0
  end.

(** [other] is what else the socket is charged for. *)
Record good_sock (other : Z) (sk : sock) : Prop := {
  gs_other : 0 <= other;
  gs_omem : sk_omem_alloc sk = other + charge sk;
  gs_small : sk_omem_alloc sk < 2 ^ 30;
  gs_filter p : sk_filter_ptr sk = Some p -> exists f, kmem sk !! p = Some f /\ admitted f }.

Lemma filter_len_range f : admitted f -> 0 < sk_filter_len f < 2 ^ 16.
Proof. intros [E _ _ P]. pose proof (p_length _ P). unfold sk_filter_len, sizeof_sock_filter, sizeof_sk_filter. rewrite E. lia. Qed.

Lemma release_ok sk p f :
  kmem sk !! p = Some f -> 1 <= refcnt f < 2 ^ 31 -> 0 <= sk_filter_len f < 2 ^ 30 -> 0 <= sk_omem_alloc sk < 2 ^ 31 ->
  exists km, sk_filter_release sk p = Ret (Sock (sk_filter_ptr sk) (sk_omem_alloc sk - sk_filter_len f) km) /\
    (forall q, q <> p -> km !! q = kmem sk !! q) /\ (refcnt f = 1 -> km = delete p (kmem sk)).
Proof.
  intros Hp Hr Hl Ho. unfold sk_filter_release. rewrite Hp, !s32_small by lia. eexists. split; [reflexivity|].
  destruct (Z.eqb_spec (refcnt f - 1) 0).
  - split; [|done]. intros q Hq. by rewrite lookup_delete_ne.
  - split; [|lia]. intros q Hq. by rewrite lookup_insert_ne.
Qed.

Section attach.
Context (sysctl_optmem_max : Z) (Hmax : 0 <= sysctl_optmem_max < 2 ^ 30).

Definition room (sk : sock) (fprog : sock_fprog) : bool := sk_omem_alloc sk + (8 * plen fprog + 8) <? sysctl_optmem_max.

Lemma kmalloc_ok mem sk fprog :
  0 <= sk_omem_alloc sk < 2 ^ 30 -> word 16 (plen fprog) ->
  sock_kmalloc sysctl_optmem_max mem sk (sizeof_sock_filter * plen fprog + sizeof_sk_filter) =
    if room sk fprog then
      match mem with
      | Some p => (Some p, Sock (sk_filter_ptr sk) (sk_omem_alloc sk + (8 * plen fprog + 8)) (kmem sk))
      | None => (None, sk)
      end
    else (None, sk).
Proof.
  intros Ho [Hp1 Hp2]. change (2 ^ 16) with 65536 in Hp2. unfold sock_kmalloc, room, sizeof_sock_filter, sizeof_sk_filter.
  unfold u32. rewrite !wrap_small by (unfold word; lia). rewrite !(s32_small (sk_omem_alloc sk + _)) by lia.
  destruct (Z.leb_spec (8 * plen fprog + 8) sysctl_optmem_max),
    (Z.ltb_spec (sk_omem_alloc sk + (8 * plen fprog + 8)) sysctl_optmem_max); try lia; try done.
  destruct mem; [done|]. cbn [sk_omem_alloc sk_filter_ptr kmem]. rewrite s32_small by lia.
  f_equal. destruct sk as [fp om km]. cbn [sk_omem_alloc]. f_equal. cbn. lia.
Qed.

Lemma good_sock_range other sk : good_sock other sk -> 0 <= sk_omem_alloc sk < 2 ^ 30.
Proof.
  intros [Ho Hm Hs Hf]. split; [|done]. rewrite Hm. unfold charge. destruct (sk_filter_ptr sk) as [p|] eqn:E; [|lia].
  destruct (Hf p eq_refl) as (f & -> & Ha). pose proof (filter_len_range f Ha). lia.
Qed.

(** The new filter [f] of [sk] replaces the old one. *)
Lemma install_ok other sk p f :
  good_sock other sk -> kmem sk !! p = None -> admitted f -> refcnt f = 1 -> other + charge sk + sk_filter_len f < 2 ^ 30 ->
  exists sk',
    match sk_filter_ptr sk with
    | Some old => sk_filter_release (Sock (Some p) (sk_omem_alloc sk + sk_filter_len f) (<[p := f]> (kmem sk))) old
    | None => Ret (Sock (Some p) (sk_omem_alloc sk + sk_filter_len f) (<[p := f]> (kmem sk)))
    end = Ret sk' /\ good_sock other sk' /\ sk_filter_ptr sk' = Some p /\ kmem sk' !! p = Some f.
Proof.
  intros [Ho Hm Hs Hf] Hp Ha Hr Hroom. pose proof (filter_len_range f Ha). unfold charge in *.
  assert (Hgood : forall km, km !! p = Some f -> good_sock other (Sock (Some p) (other + sk_filter_len f) km)).
  { intros km Hkm. split; cbn [sk_omem_alloc sk_filter_ptr kmem]; [done| | |].
    - unfold charge. cbn. by rewrite Hkm.
    - destruct (sk_filter_ptr sk) as [old|] eqn:E; [|lia]. destruct (Hf old eq_refl) as (g & Hg & Hag). rewrite Hg in Hroom.
      pose proof (filter_len_range g Hag). lia.
    - intros q [= <-]. by exists f. }
  destruct (sk_filter_ptr sk) as [old|] eqn:E.
  - destruct (Hf old eq_refl) as (g & Hg & Hag). rewrite Hg in *. pose proof (filter_len_range g Hag).
    assert (Hne : old <> p) by congruence.
    destruct (release_ok (Sock (Some p) (sk_omem_alloc sk + sk_filter_len f) (<[p := f]> (kmem sk))) old g) as (km & -> & Hkm & _).
    { cbn. by rewrite lookup_insert_ne. } { apply Hag. } { lia. } { cbn [sk_omem_alloc]. lia. }
    assert (Hkp : km !! p = Some f) by (rewrite Hkm by done; cbn; by rewrite lookup_insert_eq).
    cbn [sk_omem_alloc sk_filter_ptr]. replace (sk_omem_alloc sk + sk_filter_len f - sk_filter_len g) with (other + sk_filter_len f) by lia.
    eexists. split; [reflexivity|]. split; [by apply Hgood|]. done.
  - replace (sk_omem_alloc sk + sk_filter_len f) with (other + sk_filter_len f) by lia.
    eexists. split; [reflexivity|]. assert (<[p := f]> (kmem sk) !! p = Some f) by by rewrite lookup_insert_eq.
    split; [by apply Hgood|]. done.
Qed.

Lemma attach_eq mem fprog sk :
  0 <= sk_omem_alloc sk < 2 ^ 30 -> word 16 (plen fprog) -> (forall p, mem = Some p -> kmem sk !! p = None) ->
  sk_attach_filter sysctl_optmem_max mem fprog sk =
    match filter fprog, mem with
    | Null, _ => Ret (- EINVAL, sk)
    | _, Some p =>
        if room sk fprog then
          match copy_from_user fprog with
          | None => Ret (- EFAULT, sk)
          | Some l =>
              let omem := sk_omem_alloc sk + sk_filter_len (SkFilter 1 (plen fprog) l) in
              let km := <[p := SkFilter 1 (plen fprog) l]> (kmem sk) in
              let! err := sk_chk_filter l (plen fprog) in
              if err =? 0 then
                let! sk := match sk_filter_ptr sk with
                           | Some old => sk_filter_release (Sock (Some p) omem km) old
                           | None => Ret (Sock (Some p) omem km)
                           end in Ret (err, sk)
              else Ret (err, sk)
          end
        else Ret (- ENOMEM, sk)
    | _, None => Ret (- ENOMEM, sk)
    end.
Proof.
  intros Ho Hw Hfresh. pose proof Hw as [Hw1 Hw2]. change (2 ^ 16) with 65536 in Hw2.
  unfold sk_attach_filter. destruct (filter fprog) as [| |prog]; [done|..]; rewrite kmalloc_ok by done.
  all: destruct (room sk fprog); [|by destruct mem].
  all: destruct mem as [p|]; [specialize (Hfresh p eq_refl)|done].
  all: destruct (copy_from_user fprog) as [l|]; cbn [sk_filter_ptr sk_omem_alloc kmem].
  2, 4: unfold sock_kfree_s, sizeof_sock_filter, sizeof_sk_filter; cbn [sk_filter_ptr sk_omem_alloc kmem];
    rewrite s32_small by lia; rewrite delete_id by done; destruct sk as [fp om km0]; cbn [sk_omem_alloc]; do 3 f_equal; cbn; lia.
  all: assert (El : sk_filter_len (SkFilter 1 (plen fprog) l) = 8 * plen fprog + 8)
    by (unfold sk_filter_len, sizeof_sock_filter, sizeof_sk_filter; cbn; lia).
  all: rewrite El; destruct (sk_chk_filter l (plen fprog)) as [err|]; [|done]; destruct (Z.eqb_spec err 0) as [->|];
    [by destruct (sk_filter_ptr sk)|].
  all: destruct (release_ok (Sock (sk_filter_ptr sk) (sk_omem_alloc sk + (8 * plen fprog + 8)) (<[p:=SkFilter 1 (plen fprog) l]> (kmem sk)))
      p (SkFilter 1 (plen fprog) l)) as (km & -> & _ & Hkm); rewrite ?El; cbn [sk_omem_alloc kmem refcnt]; try lia; [by rewrite lookup_insert_eq|].
  all: rewrite Hkm by done; cbn [sk_filter_ptr kmem sk_omem_alloc]; rewrite delete_insert_eq, delete_id by done;
    destruct sk as [fp om km0]; cbn [sk_omem_alloc]; do 3 f_equal; cbn; lia.
Qed.

Lemma attach_spec other mem fprog sk :
  good_sock other sk -> word 16 (plen fprog) -> (forall p, mem = Some p -> kmem sk !! p = None) ->
  (forall l, copy_from_user fprog = Some l -> Forall typed l) ->
  exists err sk', sk_attach_filter sysctl_optmem_max mem fprog sk = Ret (err, sk') /\ good_sock other sk' /\
    (err = 0 <-> room sk fprog = true /\ is_Some mem /\ exists l, copy_from_user fprog = Some l /\ program l) /\
    (err = 0 -> exists p l, mem = Some p /\ copy_from_user fprog = Some l /\ sk_filter_ptr sk' = Some p /\
       kmem sk' !! p = Some (SkFilter 1 (plen fprog) l)) /\
    (err <> 0 -> sk' = sk).
Proof.
  intros Gs Hw Hfresh Htyped. pose proof (good_sock_range other sk Gs) as Hrange. rewrite attach_eq by done.
  assert (Hfail : forall e, e <> 0 -> ~ (room sk fprog = true /\ is_Some mem /\ exists l, copy_from_user fprog = Some l /\ program l) ->
    exists err sk', Ret (e, sk) = Ret (err, sk') /\ good_sock other sk' /\
    (err = 0 <-> room sk fprog = true /\ is_Some mem /\ exists l, copy_from_user fprog = Some l /\ program l) /\
    (err = 0 -> exists p l, mem = Some p /\ copy_from_user fprog = Some l /\ sk_filter_ptr sk' = Some p /\
       kmem sk' !! p = Some (SkFilter 1 (plen fprog) l)) /\
    (err <> 0 -> sk' = sk)).
  { intros e He Hno. exists e, sk. by split_and!. }
  destruct (copy_from_user fprog) as [l|] eqn:Ec.
  2: { destruct (filter fprog), mem, (room sk fprog); apply Hfail; try done; by intros (_ & _ & ? & [=] & _). }
  assert (Hlen : Z.of_nat (length l) = plen fprog).
  { unfold copy_from_user in Ec. destruct (filter fprog); try done. case_match; [|done]. injection Ec as <-.
    rewrite length_take. destruct Hw. lia. }
  assert (Hnn : match filter fprog with Null => False | _ => True end)
    by (unfold copy_from_user in Ec; by destruct (filter fprog)).
  destruct mem as [p|]; [|destruct (filter fprog); try done; apply Hfail; try done; by intros (_ & [? [=]] & _)].
  destruct (room sk fprog) eqn:Er; [|destruct (filter fprog); try done; apply Hfail; try done; by intros ([=] & _)].
  destruct Hw as [Hw1 Hw2]. change (2 ^ 16) with 65536 in Hw2.
  destruct (chk_filter_spec l (Htyped l eq_refl)) as (b & Hchk & Hb); [lia|]. rewrite <-Hlen in *. rewrite Hchk.
  destruct b.
  - destruct (install_ok other sk p (SkFilter 1 (Z.of_nat (length l)) l) Gs (Hfresh p eq_refl)) as (sk' & E & Gs' & Hp & Hk).
    { split; cbn; [done|lia|by apply Htyped|by apply Hb]. } { done. }
    { unfold room in Er. rewrite <-(gs_omem _ _ Gs). unfold sk_filter_len, sizeof_sock_filter, sizeof_sk_filter. cbn [flen]. lia. }
    exists 0, sk'. split; [destruct (filter fprog); [done|..]; cbv zeta; cbn [Z.eqb]; by rewrite E|]. split; [done|].
    split; [split; [intros _; split_and!; [done|by eexists|exists l; split; [done|by apply Hb]]|done]|].
    split; [|done]. intros _. by exists p, l.
  - destruct (filter fprog); [done|..]; apply Hfail; try done; intros (_ & _ & l' & [= <-] & Hpr); apply Hb in Hpr; done.
Qed.

Lemma detach_spec other sk :
  good_sock other sk ->
  exists sk', sk_detach_filter sk = Ret (if sk_filter_ptr sk then 0 else - ENONET, sk') /\ good_sock other sk' /\
    sk_filter_ptr sk' = None /\ sk_omem_alloc sk' = other.
Proof.
  intros Gs. pose proof (good_sock_range other sk Gs) as Hr. destruct Gs as [Ho Hm Hs Hf]. unfold sk_detach_filter, charge in *.
  destruct (sk_filter_ptr sk) as [p|] eqn:E.
  - destruct (Hf p eq_refl) as (f & Hk & Ha). rewrite Hk in Hm. pose proof (filter_len_range f Ha).
    destruct (release_ok (Sock None (sk_omem_alloc sk) (kmem sk)) p f) as (km & -> & _); cbn [kmem sk_omem_alloc]; try done; try lia; [apply Ha|].
    eexists. split; [reflexivity|]. cbn [sk_omem_alloc sk_filter_ptr]. split; [|split; [done|lia]].
    split; cbn [sk_omem_alloc sk_filter_ptr]; [done|unfold charge; cbn; lia|lia|done].
  - exists sk. rewrite E. split; [done|]. split; [|split; [done|lia]]. split; [done|unfold charge; rewrite E; lia|done|by rewrite E].
Qed.
End attach.

Lemma sk_filter_spec oshl oshr mem other sk skb :
  (forall a n, is_u32 a -> is_u32 n -> is_u32 (oshl a n)) -> (forall a n, is_u32 a -> is_u32 n -> is_u32 (oshr a n)) ->
  length mem = 16%nat -> Forall is_u32 mem -> good_sock other sk -> good skb ->
  match sk_filter_ptr sk with
  | None => sk_filter oshl oshr 0 mem sk skb = Ret (0, skb)
  | Some p => exists f, kmem sk !! p = Some f /\
      let v := eval oshl oshr skb (insns f) (Regs 0 0 mem) in
      if v =? 0 then sk_filter oshl oshr 0 mem sk skb = Ret (- EPERM, skb)
      else if cuts_shared skb v then sk_filter oshl oshr 0 mem sk skb = Err Bug
      else exists skb', sk_filter oshl oshr 0 mem sk skb = Ret (0, skb') /\ good skb' /\
        contents skb' = take (Z.to_nat v) (contents skb)
  end.
Proof.
  intros Hl Hr Hm Hmw Gs G. unfold sk_filter. destruct (sk_filter_ptr sk) as [p|] eqn:E; [|done].
  destruct (gs_filter _ _ Gs p E) as (f & Hk & Ha). exists f. split; [done|]. cbn [negb Z.eqb]. rewrite Hk, (a_len f Ha).
  destruct (run_filter_spec oshl oshr Hl Hr skb G (insns f) mem (a_typed f Ha) (a_program f Ha) Hm Hmw) as [-> [Hv _]].
  destruct (Z.eqb_spec (eval oshl oshr skb (insns f) (Regs 0 0 mem)) 0); [done|].
  pose proof (skb_trim_ok skb _ G Hv) as Ht. destruct (cuts_shared _ _); [by rewrite Ht|].
  destruct Ht as (skb' & -> & G' & Hc'). by exists skb'.
Qed.

(** ** The theorems *)

(** C8 (checked filters are safe): a program that [sk_chk_filter] admits runs
    on every packet, whatever it holds and however it is scattered, to a
    result: it ends, every access stays in the packet's memory and in [mem],
    and nothing is divided by zero.  The result is that of the reference
    semantics, in which a jump drops instructions and loads see the packet as
    one list of bytes. *)
Theorem checked_filters_safe oshl oshr skb l mem :
  (forall a n, is_u32 a -> is_u32 n -> is_u32 (oshl a n)) -> (forall a n, is_u32 a -> is_u32 n -> is_u32 (oshr a n)) ->
  good skb -> Forall typed l -> Z.of_nat (length l) < 2 ^ 31 -> sk_chk_filter l (Z.of_nat (length l)) = Ret 0 ->
  length mem = 16%nat -> Forall is_u32 mem ->
  sk_run_filter oshl oshr skb l (Z.of_nat (length l)) mem = Ret (eval oshl oshr skb l (Regs 0 0 mem)) /\
  is_u32 (eval oshl oshr skb l (Regs 0 0 mem)).
Proof.
  intros Hl Hr G Ht Hlen Hchk Hm Hmw. apply run_filter_spec; try done.
  destruct (chk_filter_spec l Ht Hlen) as ([] & E & Hb); rewrite Hchk in E; [by apply Hb|done].
Qed.

(** C9 (the checker is exact): [sk_chk_filter] admits the legal programs,
    those of 1 to 4096 known instructions that jump inside, use words 0 to 15
    of [mem], do not divide by the constant 0 and end with a return, and
    answers -EINVAL for all others. *)
Theorem chk_filter_correct l :
  Forall typed l -> Z.of_nat (length l) < 2 ^ 31 ->
  (sk_chk_filter l (Z.of_nat (length l)) = Ret 0 <-> program l) /\
  (~ program l -> sk_chk_filter l (Z.of_nat (length l)) = Ret (- EINVAL)).
Proof.
  intros Ht Hl. destruct (chk_filter_spec l Ht Hl) as (b & -> & Hb). rewrite <-Hb.
  destruct b; (split; [by split|]); [by intros []|done].
Qed.

(** C27 (packets through a socket's filter): a packet that the security hook
    does not refuse, and that is well formed, passes whole when the socket has
    no filter, is refused with -EPERM when the filter's result is 0, and is
    cut to the filter's result otherwise, unless the packet is a clone whose
    page fragments the cut would change: then the kernel stops at a BUG_ON. *)
Theorem sk_filter_correct oshl oshr mem other sk skb :
  (forall a n, is_u32 a -> is_u32 n -> is_u32 (oshl a n)) -> (forall a n, is_u32 a -> is_u32 n -> is_u32 (oshr a n)) ->
  length mem = 16%nat -> Forall is_u32 mem -> good_sock other sk -> good skb ->
  match sk_filter_ptr sk with
  | None => sk_filter oshl oshr 0 mem sk skb = Ret (0, skb)
  | Some p => exists f, kmem sk !! p = Some f /\
      let v := eval oshl oshr skb (insns f) (Regs 0 0 mem) in
      if v =? 0 then sk_filter oshl oshr 0 mem sk skb = Ret (- EPERM, skb)
      else if cuts_shared skb v then sk_filter oshl oshr 0 mem sk skb = Err Bug
      else exists skb', sk_filter oshl oshr 0 mem sk skb = Ret (0, skb') /\ good skb' /\
        contents skb' = take (Z.to_nat v) (contents skb)
  end.
Proof. apply sk_filter_spec. Qed.

(** C28 (attaching and detaching): a socket only ever holds a checked filter,
    and is charged for exactly that one.  Attaching succeeds when there is
    room and memory, the program can be read and is legal, and leaves the
    socket as it was otherwise; detaching takes filter and charge away. *)
Theorem attach_detach_correct sysctl_optmem_max other mem fprog sk :
  0 <= sysctl_optmem_max < 2 ^ 30 ->
  good_sock other sk -> word 16 (plen fprog) -> (forall p, mem = Some p -> kmem sk !! p = None) ->
  (forall l, copy_from_user fprog = Some l -> Forall typed l) ->
  (exists err sk', sk_attach_filter sysctl_optmem_max mem fprog sk = Ret (err, sk') /\ good_sock other sk' /\
    (err = 0 <-> room sysctl_optmem_max sk fprog = true /\ is_Some mem /\
                 exists l, copy_from_user fprog = Some l /\ program l) /\
    (err = 0 -> exists p l, mem = Some p /\ copy_from_user fprog = Some l /\ sk_filter_ptr sk' = Some p /\
       kmem sk' !! p = Some (SkFilter 1 (plen fprog) l)) /\
    (err <> 0 -> sk' = sk)) /\
  (exists sk', sk_detach_filter sk = Ret (if sk_filter_ptr sk then 0 else - ENONET, sk') /\ good_sock other sk' /\
    sk_filter_ptr sk' = None /\ sk_omem_alloc sk' = other).
Proof. intros Hmax Gs Hw Hf Ht. split; [by apply attach_spec|by apply detach_spec]. Qed.

Lemma Ret_inj {A} (a b : A) : Ret a = Ret b -> a = b.
Proof. congruence. Qed.

(** ** Concrete packets *)

(** Four bytes in the buffer and two in a page; 80 is left from before. *)
Definition demo_skb (is_cloned : bool) : sk_buff :=
  SkBuff [10; 20; 30; 40; 50; 60; 70; 80; 0; 0; 0; 0] 2 6 2 0 6 2 is_cloned 2 0x0008 0 1 [Frag [1; 2; 3; 4] 1 2] [].

Lemma demo_skb_good b : good (demo_skb b).
Proof.
  apply good_eq. split; [|constructor]. split; try (by apply (bool_decide_unpack _)); try done.
  apply Forall_singleton. split; by apply (bool_decide_unpack _).
Qed.

(** Is the half word at 3 equal to 0x3c02?  Then the first five bytes. *)
Definition demo_filter : list sock_filter :=
  [Insn 0x28 0 0 3; Insn 0x15 0 1 0x3c02; Insn 0x06 0 0 5; Insn 0x06 0 0 0].

Lemma demo_filter_typed : Forall typed demo_filter.
Proof. repeat constructor; by apply (bool_decide_unpack _). Qed.

Definition demo_mem : list Z := replicate 16 7.
Definition no_shift (a n : Z) : Z := 0.

Lemma no_shift_word a n : is_u32 a -> is_u32 n -> is_u32 (no_shift a n).
Proof. intros _ _. by apply (bool_decide_unpack _). Qed.
Lemma demo_mem_words : Forall is_u32 demo_mem.
Proof. by apply (bool_decide_unpack _). Qed.

Lemma checked_filters_safe_witness :
  sk_chk_filter demo_filter 4 = Ret 0 /\ sk_run_filter no_shift no_shift (demo_skb false) demo_filter 4 demo_mem = Ret 5 /\
  eval no_shift no_shift (demo_skb false) demo_filter (Regs 0 0 demo_mem) = 5.
Proof.
  split; [vm_compute; reflexivity|]. assert (E : sk_run_filter no_shift no_shift (demo_skb false) demo_filter 4 demo_mem = Ret 5) by (vm_compute; reflexivity).
  split; [exact E|].
  destruct (checked_filters_safe no_shift no_shift (demo_skb false) demo_filter demo_mem) as [H _];
    [apply no_shift_word|apply no_shift_word|apply demo_skb_good|apply demo_filter_typed|vm_compute; reflexivity|
     vm_compute; reflexivity|reflexivity|apply demo_mem_words|].
  change (Z.of_nat (length demo_filter)) with 4 in H. rewrite E in H. symmetry. apply (Ret_inj _ _ H).
Defined.

Lemma chk_filter_correct_witness : program demo_filter /\ ~ program [Insn 0x05 0 0 1; Insn 0x06 0 0 0].
Proof.
  split; [apply (chk_filter_correct demo_filter demo_filter_typed ltac:(done)); vm_compute; reflexivity|].
  intros P. assert (T : Forall typed [Insn 0x05 0 0 1; Insn 0x06 0 0 0]) by (repeat constructor; by apply (bool_decide_unpack _)).
  apply (chk_filter_correct _ T ltac:(done)) in P. vm_compute in P. discriminate P.
Defined.

Lemma demo_program : program demo_filter.
Proof.
  destruct (chk_filter_spec demo_filter demo_filter_typed) as ([] & E & Hb); [done|by apply Hb|vm_compute in E; discriminate E].
Qed.

Lemma demo_eval b : eval no_shift no_shift (demo_skb b) demo_filter (Regs 0 0 demo_mem) = 5.
Proof.
  destruct (run_filter_spec no_shift no_shift no_shift_word no_shift_word _ (demo_skb_good b) demo_filter demo_mem demo_filter_typed
    demo_program eq_refl demo_mem_words) as [E _].
  apply Ret_inj. rewrite <-E. by destruct b; vm_compute.
Qed.

(** A socket with [demo_filter]. *)
Definition demo_sock : sock := Sock (Some 0%nat) 140 {[0%nat := SkFilter 1 4 demo_filter]}.

Lemma demo_sock_good : good_sock 100 demo_sock.
Proof.
  split; [done|done|done|]. intros p [= <-]. exists (SkFilter 1 4 demo_filter). split; [done|].
  split; [done|done|apply demo_filter_typed|apply demo_program].
Qed.

Lemma sk_filter_correct_witness :
  (exists skb', sk_filter no_shift no_shift 0 demo_mem demo_sock (demo_skb false) = Ret (0, skb') /\
    contents skb' = [30; 40; 50; 60; 2]) /\
  sk_filter no_shift no_shift 0 demo_mem demo_sock (demo_skb true) = Err Bug.
Proof.
  split.
  2: { pose proof (sk_filter_correct no_shift no_shift demo_mem 100 demo_sock (demo_skb true) no_shift_word no_shift_word
         eq_refl demo_mem_words demo_sock_good (demo_skb_good true)) as (f & Hf & H).
       cbn [demo_sock kmem] in Hf. rewrite lookup_singleton_eq in Hf. injection Hf as <-. cbn [insns] in H.
       rewrite demo_eval in H. exact H. }
  pose proof (sk_filter_correct no_shift no_shift demo_mem 100 demo_sock (demo_skb false) no_shift_word no_shift_word eq_refl demo_mem_words
    demo_sock_good (demo_skb_good false)) as (f & Hf & H).
  cbn [demo_sock kmem] in Hf. rewrite lookup_singleton_eq in Hf. injection Hf as <-. cbn [insns] in H. rewrite demo_eval in H.
  change (cuts_shared (demo_skb false) 5) with false in H. destruct H as (skb' & H' & _ & Hc). exists skb'. split; [exact H'|]. rewrite Hc. vm_compute. reflexivity.
Defined.

Lemma attach_detach_correct_witness :
  exists sk', sk_attach_filter 10240 (Some 1%nat) (Fprog 4 (Program demo_filter)) demo_sock = Ret (0, sk') /\ good_sock 100 sk'.
Proof.
  destruct (attach_detach_correct 10240 100 (Some 1%nat) (Fprog 4 (Program demo_filter)) demo_sock) as [(err & sk' & E & G & H0 & _) _];
    [done|apply demo_sock_good|by apply (bool_decide_unpack _)| | |].
  - intros p [= <-]. reflexivity.
  - intros l [= <-]. apply demo_filter_typed.
  - assert (err = 0) as ->; [|by exists sk'].
    apply H0. split; [vm_compute; reflexivity|]. split; [by eexists|]. exists demo_filter. split; [reflexivity|apply demo_program].
Defined.

(** C29 (what the checker lets through): admitted programs can return words of
    kernel memory that are no part of the packet: a word of [mem] that was
    never written, and bytes behind the end of the linear buffer, read through
    the link-level header. *)
Theorem filters_leak oshl oshr (skb : sk_buff) (secret : Z) (mem : list Z) :
  let read_mem := [Insn 0x60 0 0 0; Insn 0x16 0 0 0] in
  let read_behind := [Insn 0x20 0 0 0xffe00000; Insn 0x16 0 0 0] in
  let packet := SkBuff [1; secret; 0; 0; 0; 0] 0 1 0 0 1 0 false 1 0 0 0 [] [] in
  sk_chk_filter read_mem 2 = Ret 0 /\ sk_chk_filter read_behind 2 = Ret 0 /\
  sk_run_filter oshl oshr skb read_mem 2 (secret :: mem) = Ret secret /\
  contents packet = [1] /\
  sk_run_filter oshl oshr packet read_behind 2 mem = Ret (ntohl (ld_le [1; secret; 0; 0])).
Proof.
  split; [vm_compute; reflexivity|]. split; [vm_compute; reflexivity|]. split; [lazy; reflexivity|].
  split; [lazy; reflexivity|]. lazy -[ntohl ld_le]. reflexivity.
Qed.

(** A clone with page fragments that is to be cut stops the kernel. *)
Example cloned_paged_bug :
  sk_filter no_shift no_shift 0 demo_mem demo_sock (demo_skb true) = Err Bug.
Proof. vm_compute. reflexivity. Qed.
