(* ===== verification/Fragtree.v ===== *)
(** * JFFS2: the fragment trees (fs/jffs2/nodelist.c, nodelist.h, read.c)

    The flash file system writes every change of a file as a new node.  For
    an open file it keeps a red-black tree of fragments that tells which node
    each part of the file comes from.  This file is the code, statement by
    statement, in a state monad over the objects it works on; the tree is the
    one of [Rbtree], and a fragment and its [rb_node] share one address.

    A null, dangling or freed pointer that is followed stops a run with
    [Fault].  What the slab allocator answers is part of the state, with the
    uninitialised [rb_node] of the new object.  Calls of
    [jffs2_mark_node_obsolete] are recorded. *)

From stdpp Require Import gmap.
From S2P Require Import Prelude RbSpec Rbtree.

(** ** State *)

(** [struct jffs2_node_frag] without its [rb_node]; no node: a hole. *)
Record jffs2_node_frag := Frag { fnode : option ptr; fsize : Z; fofs : Z }.

(** [struct jffs2_full_dnode]. *)
Record jffs2_full_dnode := Dnode { draw : ptr; dofs : Z; dsize : Z; dfrags : Z }.

(** [struct jffs2_tmp_dnode_info] without its [rb_node]. *)
Record jffs2_tmp_dnode_info := TmpDnode {
  tn_fn : ptr; tn_version : Z; tn_data_crc : Z; tn_partial_crc : Z; tn_csize : Z }.

Record jffs2 := Jffs2 {
  rbs : store;                          (* the [rb_node]s and [f->fragtree] *)
  frags : gmap ptr jffs2_node_frag;
  dnodes : gmap ptr jffs2_full_dnode;
  raws : gmap ptr Z;                    (* [flash_offset] of each [jffs2_raw_node_ref] *)
  slab : list (option (ptr * node));    (* what [jffs2_alloc_node_frag] will answer *)
  obsoleted : list ptr                  (* calls of [jffs2_mark_node_obsolete] *) }.

Definition set_rbs (r : store) (s : jffs2) : jffs2 := Jffs2 r (frags s) (dnodes s) (raws s) (slab s) (obsoleted s).
Definition set_frags (m : gmap ptr jffs2_node_frag) (s : jffs2) : jffs2 :=
  Jffs2 (rbs s) m (dnodes s) (raws s) (slab s) (obsoleted s).
Definition set_dnodes (m : gmap ptr jffs2_full_dnode) (s : jffs2) : jffs2 :=
  Jffs2 (rbs s) (frags s) m (raws s) (slab s) (obsoleted s).
Definition set_raws (m : gmap ptr Z) (s : jffs2) : jffs2 :=
  Jffs2 (rbs s) (frags s) (dnodes s) m (slab s) (obsoleted s).
Definition set_slab (l : list (option (ptr * node))) (s : jffs2) : jffs2 :=
  Jffs2 (rbs s) (frags s) (dnodes s) (raws s) l (obsoleted s).
Definition set_obsoleted (l : list ptr) (s : jffs2) : jffs2 :=
  Jffs2 (rbs s) (frags s) (dnodes s) (raws s) (slab s) l.

Definition F (A : Type) : Type := jffs2 -> outcome (A * jffs2).
#[export] Instance F_ret : MRet F := fun A v s => Ret (v, s).
#[export] Instance F_bind : MBind F := fun A B k m s => let! (v, s') := m s in k v s'.

Definition failF {A} (e : exn) : F A := fun _ => Err e.
Definition retF {A} (v : A) : F A := mret v.

(** A routine of [Rbtree] on the part it works on. *)
Definition rb {A} (m : M A) : F A := fun s => let! (v, r) := m (rbs s) in Ret (v, set_rbs r s).

(** [p->f], and the assignment of a field, for each kind of object. *)
Definition ld_obj {T A} (sel : jffs2 -> gmap ptr T) (f : T -> A) (p : option ptr) : F A := fun s =>
  match p ≫= (sel s !!.) with Some x => Ret (f x, s) | None => Err Fault end.
Definition st_obj {T} (sel : jffs2 -> gmap ptr T) (put : gmap ptr T -> jffs2 -> jffs2) (p : option ptr) (f : T -> T) : F unit :=
  fun s => match p with
           | Some x => match sel s !! x with
                       | Some n => Ret (tt, put (<[x := f n]> (sel s)) s)
                       | None => Err Fault
                       end
           | None => Err Fault
           end.
Definition ldf {A} (f : jffs2_node_frag -> A) (p : option ptr) : F A := ld_obj frags f p.
Definition ldd {A} (f : jffs2_full_dnode -> A) (p : option ptr) : F A := ld_obj dnodes f p.
Definition ldr (p : ptr) : F Z := ld_obj raws id (Some p).
Definition st_size (p : option ptr) (z : Z) : F unit :=
  st_obj frags set_frags p (fun f => Frag (fnode f) z (fofs f)).
Definition st_ofs (p : option ptr) (z : Z) : F unit :=
  st_obj frags set_frags p (fun f => Frag (fnode f) (fsize f) z).
Definition st_dfrags (p : option ptr) (z : Z) : F unit :=
  st_obj dnodes set_dnodes p (fun d => Dnode (draw d) (dofs d) (dsize d) z).
Definition st_flash_offset (p : ptr) (z : Z) : F unit := st_obj raws set_raws (Some p) (fun _ => z).

(** ** Status of a node on flash *)

Definition REF_UNCHECKED : Z := 0.
Definition REF_OBSOLETE : Z := 1.
Definition REF_PRISTINE : Z := 2.
Definition REF_NORMAL : Z := 3.
Definition ref_flags (flash_offset : Z) : Z := Z.land flash_offset 3.
Definition ref_offset (flash_offset : Z) : Z := Z.land flash_offset (cnot 32 3).
Definition ref_obsolete (flash_offset : Z) : bool := Z.land flash_offset 3 =? REF_OBSOLETE.

Definition mark_ref (flag : Z) (r : ptr) : F unit := x ← ldr r; st_flash_offset r (Z.lor (ref_offset x) flag).
Definition mark_ref_normal (r : ptr) : F unit := mark_ref REF_NORMAL r.

Definition PAGE_CACHE_SHIFT : Z := 12.
Definition PAGE_CACHE_SIZE : Z := 4096.
Definition ENOMEM : Z := 12.

(** ** Objects *)

(** [jffs2_mark_node_obsolete], as far as this state goes: a node that is not
    obsolete yet gets its status; the calls are recorded.  The accounting of
    the erase blocks is not part of this state, and nothing looks at a
    reference after this call. *)
Definition set_ref_obsolete (r : ptr) (flash_offset : Z) : F unit := st_flash_offset r (Z.lor (ref_offset flash_offset) REF_OBSOLETE).
Definition record_obsolete (r : ptr) : F unit := fun s => Ret (tt, set_obsoleted (obsoleted s ++ [r]) s).
Definition mark_obsolete (r : ptr) : F unit :=
  x ← ldr r;
  (if ref_obsolete x then retF tt else set_ref_obsolete r x);;
  record_obsolete r.

Definition jffs2_alloc_node_frag : F (option ptr) := fun s =>
  match slab s with
  | [] => Ret (None, s)
  | None :: l => Ret (None, set_slab l s)
  | Some (p, n) :: l =>
      Ret (Some p, Jffs2 (Store (<[p := n]> (heap (rbs s))) (rb_node (rbs s))) (<[p := Frag None 0 0]> (frags s))
                     (dnodes s) (raws s) l (obsoleted s))
  end.

Definition jffs2_free_node_frag (p : option ptr) : F unit := fun s =>
  match p with
  | Some x =>
      match frags s !! x with
      | Some _ => Ret (tt, Jffs2 (Store (delete x (heap (rbs s))) (rb_node (rbs s))) (delete x (frags s))
                             (dnodes s) (raws s) (slab s) (obsoleted s))
      | None => Err Fault
      end
  | None => Err Fault
  end.

Definition jffs2_free_full_dnode (p : option ptr) : F unit := fun s =>
  match p with
  | Some x =>
      match dnodes s !! x with
      | Some _ => Ret (tt, set_dnodes (delete x (dnodes s)) s)
      | None => Err Fault
      end
  | None => Err Fault
  end.

Definition new_fragment (fn : option ptr) (ofs size : Z) : F (option ptr) :=
  newfrag ← jffs2_alloc_node_frag;
  match newfrag with
  | Some _ => st_obj frags set_frags newfrag (fun _ => Frag fn size ofs);; retF newfrag
  | None => retF None
  end.

(** ** The tree *)

(** Loops that follow the tree make at most one round for every node. *)
Definition with_fuelF {A} (m : nat -> F A) : F A := fun s => m (S (size (heap (rbs s)))) s.
(** Two rounds for each node. *)
Definition with_fuel2 {A} (m : nat -> F A) : F A := fun s => m (2 * size (heap (rbs s)) + 2)%nat s.

Definition frag_first : F (option ptr) := rb rb_first.
Definition frag_last : F (option ptr) := rb rb_last.
Definition frag_next (frag : option ptr) : F (option ptr) := rb (rb_next frag).
Definition frag_prev (frag : option ptr) : F (option ptr) := rb (rb_prev frag).
Definition frag_erase (frag : option ptr) : F unit := rb (rb_erase frag).

(** [frag->ofs + frag->size] *)
Definition frag_end (frag : option ptr) : F Z := o ← ldf fofs frag; z ← ldf fsize frag; retF (u32 (o + z)).

Fixpoint lookup_loop (fuel : nat) (next prev : option ptr) (offset : Z) : F (option ptr) :=
  match fuel with
  | O => failF Diverge
  | S fuel =>
      match next with
      | None => retF prev
      | Some _ =>
          let frag := next in
          e ← frag_end frag;
          o ← ldf fofs frag;
          if e <=? offset then
            prev ← match prev with
                   | None => retF frag
                   | Some _ => po ← ldf fofs prev; retF (if po <? o then frag else prev)
                   end;
            next ← rb (ld rb_right frag);
            lookup_loop fuel next prev offset
          else if offset <? o then
            next ← rb (ld rb_left frag);
            lookup_loop fuel next prev offset
          else retF frag
      end
  end.

Definition jffs2_lookup_node_frag (offset : Z) : F (option ptr) :=
  next ← rb get_root;
  with_fuelF (fun fuel => lookup_loop fuel next None offset).

(** The loop of [jffs2_fragtree_insert]: the last node and the child field
    below it that [link] ends at. *)
Fixpoint insert_descend (fuel : nat) (newfrag : option ptr) (base : ptr) : F (ptr * link) :=
  match fuel with
  | O => failF Diverge
  | S fuel =>
      no ← ldf fofs newfrag;
      bo ← ldf fofs (Some base);
      if bo <? no then
        child ← rb (ld rb_right (Some base));
        match child with Some c => insert_descend fuel newfrag c | None => retF (base, Link_right base) end
      else if no <? bo then
        child ← rb (ld rb_left (Some base));
        match child with Some c => insert_descend fuel newfrag c | None => retF (base, Link_left base) end
      else failF Bug
  end.

Definition jffs2_fragtree_insert (newfrag base : option ptr) : F unit :=
  match base with
  | None => failF Fault
  | Some b =>
      '(base, link) ← with_fuelF (fun fuel => insert_descend fuel newfrag b);
      rb (rb_link_node newfrag (Some base) link)
  end.

Definition jffs2_obsolete_node_frag (this : option ptr) : F unit :=
  n ← ldf fnode this;
  match n with
  | Some _ =>
      fr ← ldd dfrags n;
      st_dfrags n (u32 (fr - 1));;
      fr ← ldd dfrags n;
      r ← ldd draw n;
      if fr =? 0 then mark_obsolete r;; jffs2_free_full_dnode n else mark_ref_normal r
  | None => retF tt
  end;;
  jffs2_free_node_frag this.

(** ** Adding a node *)

(** [rb_link_node] below [this] on its right, or at the root. *)
Definition link_right (frag this : option ptr) : F unit :=
  match this with
  | Some t => rb (rb_link_node frag this (Link_right t))
  | None => rb (rb_link_node frag None Link_root)
  end.

(** Every [newfrag] here has a node, whose [ofs] the code reads. *)
Definition node_ofs (newfrag : option ptr) : F Z := n ← ldf fnode newfrag; ldd dofs n.

Definition no_overlapping_node (newfrag this : option ptr) (lastend : Z) : F Z :=
  no ← node_ofs newfrag;
  hole ← (if lastend <? no then
            holefrag ← new_fragment None lastend (u32 (no - lastend));
            match holefrag with
            | None => jffs2_free_node_frag newfrag;; retF None
            | Some _ =>
                link_right holefrag this;;
                rb (rb_insert_color holefrag);;
                retF (Some holefrag)
            end
          else retF (Some this));
  match hole with
  | None => retF (- ENOMEM)
  | Some this =>
      link_right newfrag this;;
      rb (rb_insert_color newfrag);;
      retF 0
  end.

(** [mark_ref_normal(frag->node->raw)] *)
Definition mark_node_normal (frag : option ptr) : F unit :=
  n ← ldf fnode frag; r ← ldd draw n; mark_ref_normal r.
(** [if (frag->node) mark_ref_normal(frag->node->raw);] *)
Definition mark_any_normal (frag : option ptr) : F unit :=
  n ← ldf fnode frag;
  match n with Some _ => r ← ldd draw n; mark_ref_normal r | None => retF tt end.

(** [while ((this = frag_next(newfrag)) && ...) ...]: the fragments that the
    new one covers go. *)
Fixpoint obsolete_covered (fuel : nat) (newfrag : option ptr) : F (option ptr) :=
  match fuel with
  | O => failF Diverge
  | S fuel =>
      this ← frag_next newfrag;
      match this with
      | None => retF None
      | Some _ =>
          ne ← frag_end newfrag;
          te ← frag_end this;
          if te <=? ne then
            frag_erase this;;
            jffs2_obsolete_node_frag this;;
            obsolete_covered fuel newfrag
          else retF this
      end
  end.

(** The end of [jffs2_add_frag_to_fragtree]: [newfrag] is in its place, the
    fragments after it may be overlapped by it. *)
Definition trim_overlapped (newfrag : option ptr) : F Z :=
  this ← with_fuelF (fun fuel => obsolete_covered fuel newfrag);
  match this with
  | None => retF 0
  | Some _ =>
      ne ← frag_end newfrag;
      o ← ldf fofs this;
      if ne =? o then retF 0
      else
        te ← frag_end this;
        st_size this (u32 (te - ne));;
        st_ofs this ne;;
        mark_any_normal this;;
        mark_node_normal newfrag;;
        retF 0
  end.

(** The start of [this] stays valid. *)
Definition add_inside (newfrag this : option ptr) : F Z :=
  mark_node_normal newfrag;;
  mark_any_normal this;;
  no ← ldf fofs newfrag;
  o ← ldf fofs this;
  te ← frag_end this;
  ne ← frag_end newfrag;
  if ne <? te then
    n ← ldf fnode this;
    newfrag2 ← new_fragment n ne (u32 (te - ne));
    match newfrag2 with
    | None => retF (- ENOMEM)
    | Some _ =>
        match n with Some _ => fr ← ldd dfrags n; st_dfrags n (u32 (fr + 1)) | None => retF tt end;;
        st_size this (u32 (no - o));;
        jffs2_fragtree_insert newfrag this;;
        rb (rb_insert_color newfrag);;
        jffs2_fragtree_insert newfrag2 newfrag;;
        rb (rb_insert_color newfrag2);;
        retF 0
    end
  else
    st_size this (u32 (no - o));;
    jffs2_fragtree_insert newfrag this;;
    rb (rb_insert_color newfrag);;
    trim_overlapped newfrag.

(** The new fragment starts where [this] does. *)
Definition add_replacing (newfrag this : option ptr) : F Z :=
  rb (rb_replace_node this newfrag);;
  te ← frag_end this;
  ne ← frag_end newfrag;
  if te <=? ne then
    jffs2_obsolete_node_frag this;;
    trim_overlapped newfrag
  else
    o ← ldf fofs this;
    z ← ldf fsize this;
    nz ← ldf fsize newfrag;
    st_ofs this (u32 (o + nz));;
    st_size this (u32 (z - nz));;
    jffs2_fragtree_insert this newfrag;;
    rb (rb_insert_color this);;
    retF 0.

Definition jffs2_add_frag_to_fragtree (newfrag : option ptr) : F Z :=
  nno ← node_ofs newfrag;
  this ← jffs2_lookup_node_frag nno;
  lastend ← match this with Some _ => frag_end this | None => retF 0 end;
  no ← ldf fofs newfrag;
  if lastend <=? no then
    (if negb (lastend =? 0) &&
        (Z.shiftr (u32 (lastend - 1)) PAGE_CACHE_SHIFT =? Z.shiftr no PAGE_CACHE_SHIFT) then
       mark_any_normal this;; mark_node_normal newfrag
     else retF tt);;
    no_overlapping_node newfrag this lastend
  else
    o ← ldf fofs this;
    if o <? no then add_inside newfrag this else add_replacing newfrag this.

(** The last part of [jffs2_add_full_dnode_to_inode]: nodes that share a page
    are marked. *)
Definition mark_sharing (fn newfrag : option ptr) : F unit :=
  no ← ldf fofs newfrag;
  (if negb (Z.land no (PAGE_CACHE_SIZE - 1) =? 0) then
     prev ← frag_prev newfrag;
     r ← ldd draw fn;
     mark_ref_normal r;;
     mark_any_normal prev
   else retF tt);;
  ne ← frag_end newfrag;
  (if negb (Z.land ne (PAGE_CACHE_SIZE - 1) =? 0) then
     next ← frag_next newfrag;
     match next with
     | Some _ => r ← ldd draw fn; mark_ref_normal r;; mark_any_normal next
     | None => retF tt
     end
   else retF tt).

Definition jffs2_add_full_dnode_to_inode (fn : option ptr) : F Z :=
  z ← ldd dsize fn;
  if z =? 0 then retF 0
  else
    o ← ldd dofs fn;
    newfrag ← new_fragment fn o z;
    match newfrag with
    | None => retF (- ENOMEM)
    | Some _ =>
        st_dfrags fn 1;;
        ret ← jffs2_add_frag_to_fragtree newfrag;
        if negb (ret =? 0) then retF ret
        else mark_sharing fn newfrag;; retF 0
    end.

(** ** Truncation *)

Fixpoint truncate_loop (fuel : nat) (frag : option ptr) (size : Z) : F unit :=
  match fuel with
  | O => failF Diverge
  | S fuel =>
      match frag with
      | None => retF tt
      | Some _ =>
          o ← ldf fofs frag;
          if size <=? o then
            next ← frag_next frag;
            frag_erase frag;;
            jffs2_obsolete_node_frag frag;;
            truncate_loop fuel next size
          else retF tt
      end
  end.

(** The end of [jffs2_truncate_fragtree]: a last fragment that starts a page
    is pristine. *)
Definition truncate_mark (size : Z) : F unit :=
  if size =? 0 then retF tt
  else
    frag ← frag_last;
    n ← ldf fnode frag;
    o ← ldf fofs frag;
    match n with
    | Some _ =>
        if Z.land o (PAGE_CACHE_SIZE - 1) =? 0 then r ← ldd draw n; mark_ref REF_PRISTINE r else retF tt
    | None => retF tt
    end.

Definition jffs2_truncate_fragtree (size : Z) : F unit :=
  frag ← jffs2_lookup_node_frag size;
  frag ← match frag with
         | None => retF None
         | Some _ =>
             o ← ldf fofs frag;
             if negb (o =? size) then
               e ← frag_end frag;
               (if size <? e then st_size frag (u32 (size - o)) else retF tt);;
               frag_next frag
             else retF frag
         end;
  with_fuelF (fun fuel => truncate_loop fuel frag size);;
  truncate_mark size.

(** ** Nodes in decreasing version order

    When an inode is built, its nodes are added from the newest to the
    oldest; an older node only gets what the newer ones left. *)

(** [out_ok] with a status, or a value that is returned at once. *)
Inductive ending := Out_ok (ref_flag : Z) | Return (err : Z).

Definition split_hole (newfrag hole : option ptr) : F Z :=
  ho ← ldf fofs hole;
  no ← ldf fofs newfrag;
  he ← frag_end hole;
  ne ← frag_end newfrag;
  if ho =? no then
    if ne <? he then
      rb (rb_replace_node hole newfrag);;
      hz ← ldf fsize hole;
      nz ← ldf fsize newfrag;
      st_ofs hole (u32 (ho + nz));;
      st_size hole (u32 (hz - nz));;
      jffs2_fragtree_insert hole newfrag;;
      rb (rb_insert_color hole);;
      retF 0
    else
      rb (rb_replace_node hole newfrag);;
      jffs2_free_node_frag hole;;
      retF 0
  else
    newfrag2 ← (if ne <? he then
                  newfrag2 ← new_fragment None ne (u32 (he - ne));
                  match newfrag2 with
                  | None => jffs2_free_node_frag newfrag;; retF None
                  | Some _ => retF (Some newfrag2)
                  end
                else retF (Some None));
    match newfrag2 with
    | None => retF (- ENOMEM)
    | Some newfrag2 =>
        st_size hole (u32 (no - ho));;
        jffs2_fragtree_insert newfrag hole;;
        rb (rb_insert_color newfrag);;
        match newfrag2 with
        | Some _ =>
            jffs2_fragtree_insert newfrag2 newfrag;;
            rb (rb_insert_color newfrag2)
        | None => retF tt
        end;;
        retF 0
    end.

Section Older.
(** What [check_node_data] answers for a node: it reads the flash. *)
Variable check_node_data : jffs2_tmp_dnode_info -> Z.

Definition check_node (tn : jffs2_tmp_dnode_info) : F Z :=
  r ← ldd draw (Some (tn_fn tn));
  x ← ldr r;
  if ref_obsolete x then failF Bug
  else if negb (ref_flags x =? REF_UNCHECKED) then retF 0
  else
    let ret := check_node_data tn in
    (if 0 <? ret then mark_obsolete r else retF tt);;
    retF ret.

(** [fn->frags += 1; newfrag = new_fragment(fn, ofs, size);] *)
Definition one_more_fragment (fn : ptr) (ofs size : Z) : F (option ptr) :=
  fr ← ldd dfrags (Some fn);
  st_dfrags (Some fn) (u32 (fr + 1));;
  new_fragment (Some fn) ofs size.

(** What the loop carries on with. *)
Record older_pos := Older { o_this : option ptr; o_ofs : Z; o_size : Z; o_checked : bool; o_flag : Z }.

(** [if (!checked) { err = check_node(...); ... }] *)
Definition check_once (tn : jffs2_tmp_dnode_info) (checked : bool) : F Z :=
  if checked then retF 0 else check_node tn.

(** The part of the loop's body for a hole; it ends the routine or goes on
    with the next fragment. *)
Definition older_hole (tn : jffs2_tmp_dnode_info) (pos : older_pos) : F (ending + older_pos) :=
  let '(Older this fn_ofs fn_size checked ref_flag) := pos in
  err ← check_once tn checked;
  if negb (err =? 0) then retF (inl (Return err))
  else
    te ← frag_end this;
    if u32 (fn_ofs + fn_size) <=? te then
      newfrag ← one_more_fragment (tn_fn tn) fn_ofs fn_size;
      match newfrag with
      | None => retF (inl (Return (- ENOMEM)))
      | Some _ =>
          err ← split_hole newfrag this;
          if negb (err =? 0) then retF (inl (Return err)) else retF (inl (Out_ok ref_flag))
      end
    else
      newfrag ← one_more_fragment (tn_fn tn) fn_ofs (u32 (te - fn_ofs));
      match newfrag with
      | None => retF (inl (Return (- ENOMEM)))
      | Some _ =>
          o ← ldf fofs this;
          nz ← ldf fsize newfrag;
          (if fn_ofs =? o then
             rb (rb_replace_node this newfrag);;
             jffs2_free_node_frag this
           else
             z ← ldf fsize this;
             st_size this (u32 (z - nz));;
             jffs2_fragtree_insert newfrag this;;
             rb (rb_insert_color newfrag));;
          this ← frag_next newfrag;
          retF (inr (Older this (u32 (fn_ofs + nz)) (u32 (fn_size - nz)) true REF_NORMAL))
      end.

(** The part for a fragment of a newer node. *)
Definition older_data (tn : jffs2_tmp_dnode_info) (pos : older_pos) : F (ending + older_pos) :=
  let '(Older this fn_ofs fn_size checked ref_flag) := pos in
  te ← frag_end this;
  if u32 (fn_ofs + fn_size) <=? te then
    fr ← ldd dfrags (Some (tn_fn tn));
    retF (inl (Out_ok (if fr =? 0 then REF_OBSOLETE else ref_flag)))
  else
    let fn_size := u32 (fn_size - (te - fn_ofs)) in
    let fn_ofs := te in
    new_this ← frag_next this;
    match new_this with
    | None =>
        err ← check_once tn checked;
        if negb (err =? 0) then retF (inl (Return err))
        else
          newfrag ← one_more_fragment (tn_fn tn) fn_ofs fn_size;
          match newfrag with
          | None => retF (inl (Return (- ENOMEM)))
          | Some _ =>
              link_right newfrag this;;
              rb (rb_insert_color newfrag);;
              retF (inl (Out_ok REF_NORMAL))
          end
    | Some _ => retF (inr (Older new_this fn_ofs fn_size checked REF_NORMAL))
    end.

Fixpoint older_loop (fuel : nat) (tn : jffs2_tmp_dnode_info) (pos : older_pos) : F ending :=
  match fuel with
  | O => failF Diverge
  | S fuel =>
      n ← ldf fnode (o_this pos);
      next ← match n with None => older_hole tn pos | Some _ => retF (inr pos) end;
      match next with
      | inl e => retF e
      | inr pos =>
          next ← older_data tn pos;
          match next with
          | inl e => retF e
          | inr pos => older_loop fuel tn pos
          end
      end
  end.

Definition older_out_ok (tn : jffs2_tmp_dnode_info) (ref_flag : Z) : F Z :=
  z ← ldd dsize (Some (tn_fn tn));
  if (z <? PAGE_CACHE_SIZE) && (ref_flag =? REF_PRISTINE) then failF Bug
  else
    r ← ldd draw (Some (tn_fn tn));
    if ref_flag =? REF_OBSOLETE then mark_obsolete r;; retF 1
    else mark_ref ref_flag r;; retF 0.

Definition older_end (tn : jffs2_tmp_dnode_info) (e : ending) : F Z :=
  match e with Return err => retF err | Out_ok ref_flag => older_out_ok tn ref_flag end.

Definition jffs2_add_older_frag_to_fragtree (tn : jffs2_tmp_dnode_info) : F Z :=
  let fn := Some (tn_fn tn) in
  fn_size ← ldd dsize fn;
  fn_ofs ← ldd dofs fn;
  this ← jffs2_lookup_node_frag fn_ofs;
  lastend ← match this with Some _ => frag_end this | None => retF 0 end;
  let ref_flag := if PAGE_CACHE_SIZE <=? fn_size then REF_PRISTINE else REF_NORMAL in
  if lastend <=? fn_ofs then
    err ← check_node tn;
    if negb (err =? 0) then retF err
    else
      st_dfrags fn 1;;
      newfrag ← new_fragment fn fn_ofs fn_size;
      match newfrag with
      | None => retF (- ENOMEM)
      | Some _ =>
          err ← no_overlapping_node newfrag this lastend;
          if negb (err =? 0) then jffs2_free_node_frag newfrag;; retF err
          else older_out_ok tn ref_flag
      end
  else
    st_dfrags fn 0;;
    e ← with_fuelF (fun fuel => older_loop fuel tn (Older this fn_ofs fn_size false ref_flag));
    older_end tn e.
End Older.

(** ** Killing the tree *)

(** The fragment goes, and its node when this was its last fragment; [c] tells
    whether the node is marked obsolete. *)
Definition kill_node (frag : option ptr) (c : bool) : F unit :=
  n ← ldf fnode frag;
  match n with
  | Some _ =>
      fr ← ldd dfrags n;
      st_dfrags n (u32 (fr - 1));;
      if u32 (fr - 1) =? 0 then
        (if c then r ← ldd draw n; mark_obsolete r else retF tt);;
        jffs2_free_full_dnode n
      else retF tt
  | None => retF tt
  end.

(** It is unhooked from its parent. *)
Definition unhook (frag : option ptr) : F (option ptr) :=
  parent ← rb (ld rb_parent frag);
  match parent with
  | Some _ =>
      pl ← rb (ld rb_left parent);
      if peq pl frag then rb (st_left parent None) else rb (st_right parent None)
  | None => retF tt
  end;;
  retF parent.

(** The loop goes down to a leaf, frees it and goes on with its parent. *)
Fixpoint kill_loop (fuel : nat) (frag : option ptr) (c : bool) : F unit :=
  match fuel with
  | O => failF Diverge
  | S fuel =>
      match frag with
      | None => retF tt
      | Some _ =>
          l ← rb (ld rb_left frag);
          r ← rb (ld rb_right frag);
          match l, r with
          | Some _, _ => kill_loop fuel l c
          | None, Some _ => kill_loop fuel r c
          | None, None =>
              kill_node frag c;;
              parent ← unhook frag;
              jffs2_free_node_frag frag;;
              kill_loop fuel parent c
          end
      end
  end.

(** Every fragment is entered from above and from each of its children. *)
Definition jffs2_kill_fragtree (c : bool) : F unit :=
  root ← rb get_root;
  match root with
  | None => retF tt
  | Some _ => with_fuel2 (fun fuel => kill_loop fuel root c)
  end.

(** ** Reading *)

Section Read.
(** [jffs2_read_dnode] of a node: what it returns and the bytes it puts into
    the buffer. *)
Variable read_dnode : ptr -> Z -> Z -> Z * list Z.

(** [memset(buf, 0, n)]; the buffer is filled from its start to its end. *)
Definition zeros (n : Z) : list Z := replicate (Z.to_nat n) 0.

Fixpoint read_loop (fuel : nat) (frag : option ptr) (offset end_ : Z) : F (Z * list Z) :=
  match fuel with
  | O => failF Diverge
  | S fuel =>
      if negb (offset <? end_) then retF (0, [])
      else
        gap ← match frag with
              | None => retF (Some (u32 (end_ - offset)))
              | Some _ =>
                  o ← ldf fofs frag;
                  if offset <? o then retF (Some (Z.min (u32 (end_ - offset)) (u32 (o - offset)))) else retF None
              end;
        match gap with
        | Some holesize =>
            '(ret, buf) ← read_loop fuel frag (u32 (offset + holesize)) end_;
            retF (ret, zeros holesize ++ buf)
        | None =>
            n ← ldf fnode frag;
            o ← ldf fofs frag;
            z ← ldf fsize frag;
            match n with
            | None =>
                let holeend := Z.min end_ (u32 (o + z)) in
                frag ← frag_next frag;
                '(ret, buf) ← read_loop fuel frag holeend end_;
                retF (ret, zeros (u32 (holeend - offset)) ++ buf)
            | Some d =>
                let fragofs := u32 (offset - o) in
                let readlen := Z.min (u32 (z - fragofs)) (u32 (end_ - offset)) in
                no ← ldd dofs n;
                let '(ret, data) := read_dnode d (u32 (fragofs + o - no)) readlen in
                if negb (ret =? 0) then retF (ret, zeros readlen)
                else
                  frag ← frag_next frag;
                  '(ret, buf) ← read_loop fuel frag (u32 (offset + readlen)) end_;
                  retF (ret, data ++ buf)
            end
        end
  end.

(** A round ends the loop, moves on to the next fragment or fills a gap
    before one. *)
Definition jffs2_read_inode_range (offset len : Z) : F (Z * list Z) :=
  let end_ := u32 (offset + len) in
  frag ← jffs2_lookup_node_frag offset;
  with_fuel2 (fun fuel => read_loop fuel frag offset end_).
End Read.
