(* ===== verification/FragRep.v ===== *)
(** * The sequence of fragments a heap holds

    [tree_part] says that the red-black tree of a state holds a given
    sequence of fragments, and names the fragments that are allocated but not
    in the tree.  The rules of this file run the code of [Fragtree] in these
    terms; a routine is specified by [wp], the weakest precondition for
    total correctness. *)

From stdpp Require Import gmap.
From S2P Require Import Prelude RbSpec Rbtree RbRefine RbErase RbOps Fragtree.

(** ** Weakest preconditions *)

(** [m] returns from [s], with a result and a state that satisfy [Q]. *)
Definition wp {A} (m : F A) (s : jffs2) (Q : A -> jffs2 -> Prop) : Prop :=
  match m s with Ret (v, s') => Q v s' | Err _ => False end.

Lemma wp_run {A} (m : F A) s Q : wp m s Q <-> exists v s', m s = Ret (v, s') /\ Q v s'.
Proof. unfold wp. destruct (m s) as [[v s']|e]; naive_solver. Qed.

Lemma wp_mono {A} (m : F A) s (Q Q' : A -> jffs2 -> Prop) : wp m s Q -> (forall v s', Q v s' -> Q' v s') -> wp m s Q'.
Proof. unfold wp. destruct (m s) as [[v s']|e]; auto. Qed.

Lemma wp_bind {A B} (m : F A) (k : A -> F B) s Q : wp m s (fun v s' => wp (k v) s' Q) -> wp (m ≫= k) s Q.
Proof. unfold wp, mbind, F_bind. by destruct (m s) as [[v s']|e]. Qed.

Lemma wp_ret {A} (v : A) s (Q : A -> jffs2 -> Prop) : Q v s -> wp (retF v) s Q.
Proof. done. Qed.

Lemma wp_seq {A B D} (m : F A) (m' : F B) (k : F D) s Q :
  wp (m;; m') s (fun _ s' => wp k s' Q) -> wp (m;; m';; k) s Q.
Proof.
  unfold wp, mbind, F_bind. destruct (m s) as [[v s']|e]; [|done]. by destruct (m' s') as [[v' s'']|e'].
Qed.

Lemma wp_rb {A} (m : M A) s r' v (Q : A -> jffs2 -> Prop) :
  m (rbs s) = Ret (v, r') -> Q v (set_rbs r' s) -> wp (rb m) s Q.
Proof. unfold wp, rb. by intros ->. Qed.

Lemma wp_rb2 {A B} (m : M A) (m' : M B) s r' v (Q : B -> jffs2 -> Prop) :
  (m;; m') (rbs s) = Ret (v, r') -> Q v (set_rbs r' s) -> wp (rb m;; rb m') s Q.
Proof.
  unfold wp, rb, mbind, M_bind, F_bind. destruct (m (rbs s)) as [[v1 r1]|e]; [|done].
  cbn [rbs set_rbs]. intros H HQ. by rewrite H.
Qed.

Lemma set_rbs_id s : set_rbs (rbs s) s = s.
Proof. by destruct s. Qed.

Lemma wp_rb_read {A} (m : M A) s v (Q : A -> jffs2 -> Prop) :
  m (rbs s) = Ret (v, rbs s) -> Q v s -> wp (rb m) s Q.
Proof. intros H HQ. eapply wp_rb; [exact H|]. by rewrite set_rbs_id. Qed.

(** ** Sequences of fragments *)

Abbreviation fseq := (list (ptr * jffs2_node_frag)).

Definition fend (f : jffs2_node_frag) : Z := fofs f + fsize f.

(** The fragments cover [lo] to [hi] without a gap. *)
Fixpoint chain (lo : Z) (fs : fseq) (hi : Z) : Prop :=
  match fs with
  | [] => lo = hi
  | (_, f) :: fs => fofs f = lo /\ 0 < fsize f /\ chain (fend f) fs hi
  end.

Lemma chain_app lo fs gs hi : chain lo (fs ++ gs) hi <-> exists mid, chain lo fs mid /\ chain mid gs hi.
Proof.
  revert lo. induction fs as [|[p f] fs IH]; intros lo; cbn [app chain].
  - split; [by exists lo|]. by intros (mid & -> & H).
  - rewrite IH. naive_solver.
Qed.

Lemma chain_le lo fs hi : chain lo fs hi -> lo <= hi.
Proof.
  revert lo. induction fs as [|[p f] fs IH]; intros lo; cbn [chain]; [lia|].
  intros (H1 & H2 & H3%IH). unfold fend in H3. lia.
Qed.

Lemma chain_bounds lo fs hi p f : chain lo fs hi -> (p, f) ∈ fs -> lo <= fofs f /\ 0 < fsize f /\ fend f <= hi.
Proof.
  revert lo. induction fs as [|[q g] fs IH]; intros lo; cbn [chain]; [by rewrite elem_of_nil|].
  intros (H1 & H2 & H3) [[= -> ->]|Hin]%elem_of_cons.
  - apply chain_le in H3. lia.
  - destruct (IH _ H3 Hin) as (? & ? & ?). unfold fend in *. lia.
Qed.

(** The fragment in which an offset lies. *)
Lemma chain_at lo fs hi off : chain lo fs hi -> lo <= off < hi ->
  exists l x f r, fs = l ++ (x, f) :: r /\ fofs f <= off < fend f.
Proof.
  revert lo. induction fs as [|[p f] fs IH]; intros lo; cbn [chain]; [lia|].
  intros (H1 & H2 & H3) Hoff. destruct (decide (off < fend f)) as [Hlt|Hge].
  - exists [], p, f, fs. split; [done|]. unfold fend in *. lia.
  - destruct (IH _ H3 ltac:(lia)) as (l & x & g & r & -> & Hg). by exists ((p, f) :: l), x, g, r.
Qed.

(** ** The tree *)

Record tree_part (s : jffs2) (fs out : fseq) : Prop := {
  tp_tree : exists t, is_tree (rbs s) t /\ red_black t /\ elems t = fs.*1;
  tp_frags : frags s = list_to_map (fs ++ out);
  tp_nodup : NoDup ((fs ++ out).*1);
  tp_dom : forall p, is_Some (heap (rbs s) !! p) <-> is_Some (frags s !! p) }.

Lemma tp_lookup s fs out x f : tree_part s fs out -> (x, f) ∈ fs ++ out -> frags s !! x = Some f.
Proof. intros [_ -> Hn _] Hin. by apply elem_of_list_to_map_1. Qed.

Lemma tp_in s fs out x f : tree_part s fs out -> (x, f) ∈ fs -> frags s !! x = Some f.
Proof. intros Hs Hin. eapply tp_lookup; [done|]. apply elem_of_app. by left. Qed.

Lemma tp_out s fs out x f : tree_part s fs out -> (x, f) ∈ out -> frags s !! x = Some f.
Proof. intros Hs Hin. eapply tp_lookup; [done|]. apply elem_of_app. by right. Qed.

Lemma tp_size s fs out : tree_part s fs out -> (length fs <= size (heap (rbs s)))%nat.
Proof. intros [(t & Ht & _ & He) _ _ _]. apply size_heap in Ht. by rewrite He, length_fmap in Ht. Qed.

Lemma perm_fsts (l k : fseq) : l ≡ₚ k -> l.*1 ≡ₚ k.*1.
Proof. by intros ->. Qed.

(** The fragments outside the tree in another order. *)
Lemma tp_perm s fs out out' : out ≡ₚ out' -> tree_part s fs out -> tree_part s fs out'.
Proof.
  intros Hp [Ht Hf Hn Hd]. assert (Hp' : fs ++ out ≡ₚ fs ++ out') by by rewrite Hp. split; [done| | |done].
  - rewrite Hf. by apply list_to_map_proper.
  - by rewrite <-(perm_fsts _ _ Hp').
Qed.

(** *** Reading fields *)

Lemma wp_ldf {A} (g : jffs2_node_frag -> A) x s f (Q : A -> jffs2 -> Prop) :
  frags s !! x = Some f -> Q (g f) s -> wp (ldf g (Some x)) s Q.
Proof. intros H HQ. unfold wp, ldf, ld_obj. cbn. by rewrite H. Qed.

Lemma wp_ldd {A} (g : jffs2_full_dnode -> A) x s f (Q : A -> jffs2 -> Prop) :
  dnodes s !! x = Some f -> Q (g f) s -> wp (ldd g (Some x)) s Q.
Proof. intros H HQ. unfold wp, ldd, ld_obj. cbn. by rewrite H. Qed.

Lemma wp_frag_end x s f (Q : Z -> jffs2 -> Prop) :
  frags s !! x = Some f -> 0 <= fend f < 2 ^ 32 -> Q (fend f) s -> wp (frag_end (Some x)) s Q.
Proof.
  intros H Hw HQ. unfold frag_end. apply wp_bind. eapply wp_ldf; [done|]. apply wp_bind. eapply wp_ldf; [done|].
  apply wp_ret. unfold u32. rewrite wrap_small by done. done.
Qed.

Lemma wp_fuelF {A} (m : nat -> F A) s fs out Q :
  tree_part s fs out -> (forall fuel, (length fs < fuel)%nat -> wp (m fuel) s Q) -> wp (with_fuelF m) s Q.
Proof. intros Hs H. apply H. apply tp_size in Hs. lia. Qed.

Create HintDb keeps discriminated.

(** *** Operations of the tree that keep its set of objects *)

Definition keeps {A} (m : M A) : Prop :=
  forall s v s', m s = Ret (v, s') -> forall p, is_Some (heap s' !! p) <-> is_Some (heap s !! p).

Lemma keeps_bind {A B} (m : M A) (k : A -> M B) : keeps m -> (forall v, keeps (k v)) -> keeps (m ≫= k).
Proof.
  intros Hm Hk s v s' H p. unfold mbind, M_bind in H. destruct (m s) as [[v1 s1]|] eqn:E; [|done].
  rewrite (Hk _ _ _ _ H), (Hm _ _ _ E). done.
Qed.
Lemma keeps_ret {A} (v : A) : keeps (mret v).
Proof. by intros s w s' [= <- <-]. Qed.
Lemma keeps_fail {A} e : keeps (fail (A := A) e).
Proof. by intros s w s' H. Qed.
Lemma keeps_ld {A} (f : node -> A) p : keeps (ld f p).
Proof. intros s w s' H. unfold ld in H. by case_match; simplify_eq. Qed.
Lemma keeps_upd p f : keeps (upd p f).
Proof.
  intros s w s' H q. unfold upd in H. destruct p as [x|]; [|done]. destruct (heap s !! x) as [n|] eqn:E; [|done].
  injection H as _ <-. cbn [heap]. destruct (decide (q = x)) as [->|].
  - rewrite lookup_insert_eq, E. by split; eexists.
  - by rewrite lookup_insert_ne by congruence.
Qed.
Lemma keeps_root : keeps get_root.
Proof. by intros s w s' [= <- <-]. Qed.
Lemma keeps_set_root p : keeps (set_root p).
Proof. by intros s w s' [= <- <-]. Qed.
Lemma keeps_fuel {A} (m : nat -> M A) : (forall n, keeps (m n)) -> keeps (with_fuel m).
Proof. intros H s. apply H. Qed.

Ltac keep :=
  repeat first
    [ apply keeps_ld | apply keeps_upd | apply keeps_root | apply keeps_set_root | apply keeps_ret | apply keeps_fail
    | apply keeps_bind; intros | apply keeps_fuel; intros
    | progress unfold st_parent, st_color, st_left, st_right, red_node, black_node, when
    | match goal with |- keeps (match ?x with _ => _ end) => destruct x end
    | solve [eauto with keeps] ].

Lemma keeps_rotl p : keeps (__rb_rotate_left p).
Proof. unfold __rb_rotate_left. keep. Qed.
Lemma keeps_rotr p : keeps (__rb_rotate_right p).
Proof. unfold __rb_rotate_right. keep. Qed.
#[local] Hint Resolve keeps_rotl keeps_rotr : keeps.

Lemma keeps_link x p l : keeps (rb_link_node x p l).
Proof. unfold rb_link_node. keep. Qed.
Lemma keeps_insert_loop fuel p : keeps (rb_insert_color_loop fuel p).
Proof. revert p. induction fuel as [|fuel IH]; intros p; cbn [rb_insert_color_loop]; keep. Qed.
Lemma keeps_insert_color p : keeps (rb_insert_color p).
Proof. unfold rb_insert_color. keep. apply keeps_insert_loop. Qed.
Lemma keeps_erase_arms p o : keeps (erase_color_left p o) /\ keeps (erase_color_right p o).
Proof. unfold erase_color_left, erase_color_right. split; keep. Qed.
Lemma keeps_erase_loop fuel p q : keeps (erase_color_loop fuel p q).
Proof.
  revert p q. induction fuel as [|fuel IH]; intros p q; cbn [erase_color_loop]; keep; apply keeps_erase_arms.
Qed.
Lemma keeps_go_left fuel p : keeps (go_left fuel p).
Proof. revert p. induction fuel as [|fuel IH]; intros p; cbn [go_left]; keep. Qed.
Lemma keeps_erase p : keeps (rb_erase p).
Proof.
  unfold rb_erase, rb_unlink, rb_take_place, __rb_erase_color. keep; apply keeps_go_left || apply keeps_erase_loop.
Qed.
Lemma keeps_replace p q : keeps (rb_replace_node p q).
Proof. unfold rb_replace_node. keep. Qed.

(** *** Rules for the tree *)

(** All but the tree and the fragments. *)
Definition rest_of (s : jffs2) := (dnodes s, raws s, slab s, obsoleted s).

Lemma fsts_app (l r : fseq) : (l ++ r).*1 = l.*1 ++ r.*1.
Proof. apply fmap_app. Qed.

Lemma not_in_of_nodup (fs out : fseq) x f : NoDup ((fs ++ (x, f) :: out).*1) -> x ∉ fs.*1 /\ x ∉ out.*1.
Proof.
  rewrite fmap_app, fmap_cons, NoDup_app, NoDup_cons. cbn [fst]. intros (_ & H1 & H2 & _).
  split; [|done]. intros Hx. apply (H1 x Hx). left.
Qed.

Lemma tp_out_notin s fs out x f : tree_part s fs ((x, f) :: out) -> x ∉ fs.*1.
Proof. intros [_ _ Hn _]. by apply not_in_of_nodup in Hn as [? _]. Qed.

Lemma tp_heap s fs out x f : tree_part s fs out -> (x, f) ∈ fs ++ out -> is_Some (heap (rbs s) !! x).
Proof. intros Hs Hin. apply (tp_dom _ _ _ Hs). rewrite (tp_lookup _ _ _ _ _ Hs Hin). by eexists. Qed.

(** The same objects with another tree. *)
Lemma tp_retree s fs out fs' out' r t :
  tree_part s fs out -> fs' ++ out' ≡ₚ fs ++ out -> is_tree r t -> red_black t -> elems t = fs'.*1 ->
  (forall p, is_Some (heap r !! p) <-> is_Some (heap (rbs s) !! p)) ->
  tree_part (set_rbs r s) fs' out'.
Proof.
  intros [_ Hf Hn Hd] Hp Ht Hrb He Hk. split; cbn [rbs frags set_rbs].
  - by exists t.
  - rewrite Hf. symmetry. apply list_to_map_proper; [by rewrite (perm_fsts _ _ Hp)|done].
  - by rewrite (perm_fsts _ _ Hp).
  - intros p. by rewrite Hk.
Qed.

(** Linking at a leaf and rebalancing. *)
Lemma tp_inserted s l r x fx out C :
  tree_part s (l ++ r) ((x, fx) :: out) -> is_tree (rbs s) (plug C E) -> red_black (plug C E) ->
  before C = l.*1 -> after C = r.*1 ->
  exists r', (rb_link_node (Some x) (parent_of C) (link_of C);; rb_insert_color (Some x)) (rbs s) = Ret (tt, r') /\
    tree_part (set_rbs r' s) (l ++ (x, fx) :: r) out.
Proof.
  intros Hs Ht Hrb Hb Ha.
  assert (He : elems (plug C E) = (l ++ r).*1) by by rewrite elems_plug, Hb, Ha, fsts_app.
  destruct (rb_insert_spec (rbs s) C x Ht Hrb) as (r' & t' & Hrun & Ht' & Hrb' & He' & _).
  - eapply tp_heap; [done|]. rewrite elem_of_app. right. left.
  - rewrite He. by eapply tp_out_notin.
  - exists r'. split; [done|]. eapply tp_retree; [done| |done|done| |].
    + by rewrite <-(Permutation_middle l r), <-(Permutation_middle (l ++ r) out).
    + by rewrite He', Hb, Ha, fsts_app.
    + assert (Hk : keeps (rb_link_node (Some x) (parent_of C) (link_of C);; rb_insert_color (Some x))).
      { apply keeps_bind; [apply keeps_link|]. intros _. apply keeps_insert_color. }
      intros p. by rewrite (Hk _ _ _ Hrun p).
Qed.

(** Where a node of the tree is, and what is before and after it. *)
Lemma tp_focus s l b fb r out :
  tree_part s (l ++ (b, fb) :: r) out ->
  exists C c tl tr, is_tree (rbs s) (plug C (T c b tl tr)) /\ red_black (plug C (T c b tl tr)) /\
    before C ++ elems tl = l.*1 /\ elems tr ++ after C = r.*1.
Proof.
  intros [(t & Ht & Hrb & He) _ _ _]. rewrite fsts_app in He.
  destruct (focus t _ _ _ He) as (C & c & tl & tr & -> & Hl & Hr). by exists C, c, tl, tr.
Qed.

(** From a node on, the loop of [jffs2_fragtree_insert] reaches the first leaf
    of the subtree when all of it lies behind the new fragment. *)
Lemma descend_left s fs out x fx fuel : forall C c b tl tr,
  tree_part s fs out -> frags s !! x = Some fx -> is_tree (rbs s) (plug C (T c b tl tr)) ->
  (length (elems tl) < fuel)%nat ->
  (forall p, p ∈ elems (T c b tl tr) -> exists f, frags s !! p = Some f /\ fofs fx < fofs f) ->
  exists D p, insert_descend fuel (Some x) b s = Ret ((p, link_of D), s) /\ parent_of D = Some p /\
    plug D E = plug C (T c b tl tr) /\ before D = before C /\ after D = elems (T c b tl tr) ++ after C.
Proof.
  induction fuel as [|fuel IH]; intros C c b tl tr Hs Hx Ht Hf Hlt; [lia|].
  destruct (Hlt b) as (fb & Hfb & Hb); [cbn [elems]; rewrite elem_of_app; right; left|].
  assert (Hrun : forall r, wp (child ← rb (ld rb_left (Some b));
            match child with Some c => insert_descend fuel (Some x) c | None => retF (b, Link_left b) end) s
            (fun v s' => Ret (v, s') = r) -> insert_descend (S fuel) (Some x) b s = r).
  { intros r Hr. cbn [insert_descend]. apply wp_run in Hr as (v & s' & Hr & <-).
    unfold ldf, ld_obj, mbind, F_bind. cbn [option_bind]. cbn. rewrite Hx, Hfb.
    destruct (Z.ltb_spec (fofs fb) (fofs fx)); [lia|]. destruct (Z.ltb_spec (fofs fx) (fofs fb)); [|lia]. exact Hr. }
  pose proof (tree_at _ _ _ _ _ _ Ht) as Hbn.
  destruct tl as [|cl bl tll tlr].
  - exists (FL c b tr :: C), b. split; [|by split_and!].
    apply Hrun, wp_bind. eapply wp_rb_read; [by eapply ld_run|]. done.
  - destruct (IH (FL c b tr :: C) cl bl tll tlr) as (D & p & Hrun' & HD & Hpl & Hbe & Haf); [done..| | |].
    + cbn [elems] in Hf. rewrite length_app in Hf. cbn [length] in Hf. lia.
    + intros q Hq. apply Hlt. cbn [elems] in *. rewrite elem_of_app. by left.
    + exists D, p. split; [|split; [done|]].
      * apply Hrun, wp_bind. eapply wp_rb_read; [by eapply ld_run|]. cbn [rb_left root_of]. unfold wp. by rewrite Hrun'.
      * rewrite Hpl, Hbe, Haf. cbn [plug fill_frame before after elems]. split_and!; [done..|]. by rewrite <-!app_assoc.
Qed.

Lemma descend_after s l b fb r x fx out fuel :
  tree_part s (l ++ (b, fb) :: r) ((x, fx) :: out) -> fofs fb < fofs fx ->
  (forall p f, (p, f) ∈ r -> fofs fx < fofs f) -> (S (length r) < fuel)%nat ->
  exists D p, insert_descend fuel (Some x) b s = Ret ((p, link_of D), s) /\ parent_of D = Some p /\
    is_tree (rbs s) (plug D E) /\ red_black (plug D E) /\ before D = (l ++ [(b, fb)]).*1 /\ after D = r.*1.
Proof.
  intros Hs Hlo Hhi Hf. destruct fuel as [|fuel]; [lia|].
  destruct (tp_focus _ _ _ _ _ _ Hs) as (C & c & tl & tr & Ht & Hrb & Hl & Hr).
  assert (Hx : frags s !! x = Some fx) by (eapply tp_out; [done|left]).
  assert (Hb : frags s !! b = Some fb) by (eapply tp_in; [done|rewrite elem_of_app; right; left]).
  pose proof (tree_at _ _ _ _ _ _ Ht) as Hbn.
  assert (Hrun : insert_descend (S fuel) (Some x) b s =
            match root_of tr with Some c => insert_descend fuel (Some x) c s | None => Ret ((b, Link_right b), s) end).
  { cbn [insert_descend]. unfold ldf, ld_obj, rb, mbind, F_bind. cbn. rewrite Hx, Hb.
    destruct (Z.ltb_spec (fofs fb) (fofs fx)); [|lia]. rewrite (ld_run _ _ _ _ Hbn). cbn [rb_right].
    rewrite set_rbs_id. by destruct (root_of tr). }
  rewrite Hrun, fsts_app. destruct tr as [|cr br trl trr]; cbn [root_of].
  - exists (FR c b tl :: C), b. cbn [plug fill_frame before after parent_of frame_ptr link_of elems app] in *.
    by rewrite <-Hr, <-Hl, <-app_assoc.
  - destruct (descend_left s (l ++ (b, fb) :: r) ((x, fx) :: out) x fx fuel (FR c b tl :: C) cr br trl trr) as (D & p & H1 & H2 & H3 & H4 & H5);
      [done..| | |].
    + apply (f_equal length) in Hr. rewrite length_app, length_fmap in Hr. cbn [elems] in Hr. rewrite length_app in Hr.
      cbn [length] in Hr. lia.
    + intros q Hq. assert (Hin : q ∈ r.*1) by (rewrite <-Hr, elem_of_app; by left).
      apply list_elem_of_fmap in Hin as ([q' f] & -> & Hin). exists f. split; [|by eapply Hhi].
      eapply tp_in; [done|]. rewrite elem_of_app. right. by right.
    + exists D, p. split_and!; [exact H1|exact H2|by rewrite H3|by rewrite H3| |].
      * rewrite H4. cbn [before]. by rewrite <-Hl, <-app_assoc.
      * by rewrite H5.
Qed.

Lemma wp_insert_after s l b fb r x fx out (Q : unit -> jffs2 -> Prop) :
  tree_part s (l ++ (b, fb) :: r) ((x, fx) :: out) -> fofs fb < fofs fx ->
  (forall p f, (p, f) ∈ r -> fofs fx < fofs f) ->
  (forall s', tree_part s' (l ++ (b, fb) :: (x, fx) :: r) out -> rest_of s' = rest_of s -> Q tt s') ->
  wp (jffs2_fragtree_insert (Some x) (Some b);; rb (rb_insert_color (Some x))) s Q.
Proof.
  intros Hs Hlo Hhi HQ.
  assert (Hf : (S (length r) < S (size (heap (rbs s))))%nat).
  { pose proof (tp_size _ _ _ Hs) as Hl. rewrite length_app in Hl. cbn [length] in Hl. lia. }
  destruct (descend_after s l b fb r x fx out _ Hs Hlo Hhi Hf) as (D & p & Hrun & HD & Ht & Hrb & Hb & Ha).
  destruct (tp_inserted s (l ++ [(b, fb)]) r x fx out D) as (r' & Hr' & Hs'); [by rewrite <-app_assoc|done..|].
  rewrite <-app_assoc in Hs'. cbn [app] in Hs'.
  unfold wp, jffs2_fragtree_insert, with_fuelF, mbind, F_bind. rewrite Hrun.
  pose proof (wp_rb2 _ _ s r' tt Q Hr' (HQ _ Hs' eq_refl)) as Hw. rewrite HD in Hw. exact Hw.
Qed.

Lemma wp_link_right s l x fx out (Q : unit -> jffs2 -> Prop) :
  tree_part s l ((x, fx) :: out) ->
  (forall s', tree_part s' (l ++ [(x, fx)]) out -> rest_of s' = rest_of s -> Q tt s') ->
  wp (link_right (Some x) (fst <$> last l);; rb (rb_insert_color (Some x))) s Q.
Proof.
  intros Hs HQ. destruct l as [|[b fb] l _] using rev_ind.
  - destruct (tp_tree _ _ _ Hs) as (t & Ht & Hrb & He). destruct t; [|cbn in He; by destruct (elems t1)].
    destruct (tp_inserted s [] [] x fx out [] Hs Ht Hrb eq_refl eq_refl) as (r' & Hr' & Hs').
    eapply wp_rb2; [exact Hr'|]. by apply HQ.
  - rewrite last_snoc. cbn [fmap option_fmap option_map fst link_right].
    destruct (tp_focus _ _ _ _ _ _ Hs) as (C & c & tl & tr & Ht & Hrb & Hl & Hr).
    destruct tr; [|cbn in Hr; by destruct (elems tr1)].
    destruct (tp_inserted s (l ++ [(b, fb)]) [] x fx out (FR c b tl :: C)) as (r' & Hr' & Hs').
    + by rewrite app_nil_r.
    + exact Ht.
    + exact Hrb.
    + cbn [before]. by rewrite app_assoc, Hl, fsts_app.
    + exact Hr.
    + eapply wp_rb2; [exact Hr'|]. by apply HQ.
Qed.

Lemma wp_replace s l x fx r y fy out (Q : unit -> jffs2 -> Prop) :
  tree_part s (l ++ (x, fx) :: r) ((y, fy) :: out) ->
  (forall s', tree_part s' (l ++ (y, fy) :: r) ((x, fx) :: out) -> rest_of s' = rest_of s -> Q tt s') ->
  wp (rb (rb_replace_node (Some x) (Some y))) s Q.
Proof.
  intros Hs HQ. destruct (tp_tree _ _ _ Hs) as (t & Ht & Hrb & He). rewrite fsts_app in He.
  destruct (rb_replace_node_correct (rbs s) t _ x _ y Ht Hrb He) as (r' & t' & Hrun & Ht' & Hrb' & He' & _).
  - eapply tp_heap; [done|]. rewrite elem_of_app. right. left.
  - rewrite He, <-fsts_app. by eapply (tp_out_notin _ (l ++ (x, fx) :: r)).
  - eapply wp_rb; [exact Hrun|]. apply HQ; [|done]. eapply tp_retree; [done| |done|done| |].
    + rewrite <-!app_assoc. cbn [app]. apply Permutation_app_head.
      rewrite <-!Permutation_middle. apply Permutation_swap.
    + by rewrite He', fsts_app.
    + intros p. by rewrite (keeps_replace _ _ _ _ _ Hrun p).
Qed.

Lemma wp_erase s l x fx r out (Q : unit -> jffs2 -> Prop) :
  tree_part s (l ++ (x, fx) :: r) out ->
  (forall s', tree_part s' (l ++ r) ((x, fx) :: out) -> rest_of s' = rest_of s -> Q tt s') ->
  wp (frag_erase (Some x)) s Q.
Proof.
  intros Hs HQ. destruct (tp_tree _ _ _ Hs) as (t & Ht & Hrb & He). rewrite fsts_app in He.
  destruct (rb_erase_spec (rbs s) t _ x _ Ht Hrb He) as (r' & t' & Hrun & Ht' & Hrb' & He' & _).
  eapply wp_rb; [exact Hrun|]. apply HQ; [|done]. eapply tp_retree; [done| |done|done| |].
  - by rewrite <-(Permutation_middle l r), <-(Permutation_middle (l ++ r) out).
  - by rewrite He', fsts_app.
  - intros p. by rewrite (keeps_erase _ _ _ _ Hrun p).
Qed.

(** *** Walking *)

Lemma wp_next s l x fx r out (Q : option ptr -> jffs2 -> Prop) :
  tree_part s (l ++ (x, fx) :: r) out -> Q (fst <$> head r) s -> wp (frag_next (Some x)) s Q.
Proof.
  intros Hs HQ. destruct (tp_tree _ _ _ Hs) as (t & Ht & Hrb & He). rewrite fsts_app in He.
  eapply wp_rb_read; [by eapply rb_next_spec|]. by destruct r.
Qed.

Lemma last_fsts (l : fseq) : last l.*1 = fst <$> last l.
Proof. apply fmap_last. Qed.

Lemma wp_prev s l x fx r out (Q : option ptr -> jffs2 -> Prop) :
  tree_part s (l ++ (x, fx) :: r) out -> Q (fst <$> last l) s -> wp (frag_prev (Some x)) s Q.
Proof.
  intros Hs HQ. destruct (tp_tree _ _ _ Hs) as (t & Ht & Hrb & He). rewrite fsts_app in He.
  eapply wp_rb_read; [by eapply rb_prev_spec|]. by rewrite last_fsts.
Qed.

Lemma wp_last s fs out (Q : option ptr -> jffs2 -> Prop) :
  tree_part s fs out -> Q (fst <$> last fs) s -> wp frag_last s Q.
Proof.
  intros Hs HQ. destruct (tp_tree _ _ _ Hs) as (t & Ht & Hrb & He).
  eapply wp_rb_read; [by eapply rb_last_spec|]. by rewrite He, last_fsts.
Qed.

(** *** Fields, allocation and release *)

Lemma list_to_map_update (fs gs : fseq) x f g :
  NoDup ((fs ++ (x, f) :: gs).*1) ->
  <[x := g]> (list_to_map (fs ++ (x, f) :: gs) : gmap ptr jffs2_node_frag) = list_to_map (fs ++ (x, g) :: gs).
Proof.
  intros Hn. apply not_in_of_nodup in Hn as [Hx _].
  rewrite !list_to_map_app. cbn [list_to_map foldr]. fold (list_to_map (M := gmap ptr jffs2_node_frag) gs).
  rewrite insert_union_r by (by apply not_elem_of_list_to_map_1). by rewrite insert_insert_eq.
Qed.

(** [x] is in the tree or not; its fields change. *)
Lemma tp_set s fs gs out out' x f g :
  tree_part s fs out -> fs ++ out = gs ++ (x, f) :: out' ->
  forall fs' out2, fs' ++ out2 = gs ++ (x, g) :: out' -> fs'.*1 = fs.*1 ->
  tree_part (set_frags (<[x := g]> (frags s)) s) fs' out2.
Proof.
  intros [Ht Hf Hn Hd] E fs' out2 E' Hfst. split; cbn [rbs frags set_frags].
  - by rewrite Hfst.
  - rewrite Hf, E, E'. apply list_to_map_update. by rewrite <-E.
  - rewrite E'. rewrite E in Hn. rewrite !fmap_app, !fmap_cons in *. exact Hn.
  - intros p. rewrite Hd, Hf, E.
    assert (Hx : (list_to_map (gs ++ (x, f) :: out') : gmap ptr jffs2_node_frag) !! x = Some f).
    { apply elem_of_list_to_map_1; [by rewrite <-E|]. rewrite elem_of_app. right. left. }
    destruct (decide (p = x)) as [->|].
    + rewrite lookup_insert_eq, Hx. by split; eexists.
    + by rewrite lookup_insert_ne.
Qed.

Lemma wp_st_obj {T} (sel : jffs2 -> gmap ptr T) put x (g : T -> T) s f (Q : unit -> jffs2 -> Prop) :
  sel s !! x = Some f -> Q tt (put (<[x := g f]> (sel s)) s) -> wp (st_obj sel put (Some x) g) s Q.
Proof. intros H HQ. unfold wp, st_obj. by rewrite H. Qed.

Lemma wp_set_in s l x f r out g (Q : unit -> jffs2 -> Prop) :
  tree_part s (l ++ (x, f) :: r) out ->
  (forall s', tree_part s' (l ++ (x, g f) :: r) out -> rest_of s' = rest_of s -> Q tt s') ->
  wp (st_obj frags set_frags (Some x) g) s Q.
Proof.
  intros Hs HQ. eapply wp_st_obj; [eapply tp_in; [done|rewrite elem_of_app; right; left]|].
  apply HQ; [|done]. eapply (tp_set _ _ l _ (r ++ out)); [done|by rewrite <-app_assoc|by rewrite <-app_assoc|].
  by rewrite !fmap_app.
Qed.

Lemma wp_set_out s fs x f out g (Q : unit -> jffs2 -> Prop) :
  tree_part s fs ((x, f) :: out) ->
  (forall s', tree_part s' fs ((x, g f) :: out) -> rest_of s' = rest_of s -> Q tt s') ->
  wp (st_obj frags set_frags (Some x) g) s Q.
Proof.
  intros Hs HQ. eapply wp_st_obj; [eapply tp_out; [done|left]|].
  apply HQ; [|done]. by eapply (tp_set _ _ fs _ out).
Qed.

Lemma wp_free s fs x f out (Q : unit -> jffs2 -> Prop) :
  tree_part s fs ((x, f) :: out) ->
  (forall s', tree_part s' fs out -> rest_of s' = rest_of s -> Q tt s') ->
  wp (jffs2_free_node_frag (Some x)) s Q.
Proof.
  intros Hs HQ. unfold wp, jffs2_free_node_frag. rewrite (tp_out s fs _ x f Hs) by left.
  apply HQ; [|done]. destruct Hs as [(t & Ht & Hrb & He) Hf Hn Hd].
  pose proof (not_in_of_nodup _ _ _ _ Hn) as [Hx Hx'].
  assert (Hp : fs ++ (x, f) :: out ≡ₚ (x, f) :: fs ++ out) by by rewrite <-Permutation_middle.
  split; cbn [rbs frags heap rb_node].
  - exists t. split_and!; [|done..]. destruct Ht as [Hr Hre Hnd]. split; [done| |done].
    eapply repr_agree; [|exact Hre]. intros p Hin. cbn [heap]. rewrite He in Hin. apply lookup_delete_ne. by intros ->.
  - rewrite Hf. rewrite (list_to_map_proper _ ((x, f) :: fs ++ out)) by done. cbn [list_to_map foldr].
    apply delete_insert_id. apply not_elem_of_list_to_map_1. by rewrite fmap_app, not_elem_of_app.
  - rewrite (perm_fsts _ _ Hp) in Hn. by apply NoDup_cons_1_2 in Hn.
  - intros p. destruct (decide (p = x)) as [->|].
    + rewrite !lookup_delete_eq. by split; intros [? ?].
    + rewrite !lookup_delete_ne by done. apply Hd.
Qed.

(** The allocator hands out addresses that are not in use, and none twice. *)
Definition slab_fresh (s : jffs2) : Prop :=
  NoDup (omap (fmap fst) (slab s)) /\ forall p, p ∈ omap (fmap fst) (slab s) -> frags s !! p = None.

Definition alloc_answer (s : jffs2) : option (ptr * node) := default None (head (slab s)).

Lemma wp_new s fs out fn ofs size (Q : option ptr -> jffs2 -> Prop) :
  tree_part s fs out -> slab_fresh s ->
  (forall s', alloc_answer s = None -> tree_part s' fs out -> dnodes s' = dnodes s -> raws s' = raws s ->
     obsoleted s' = obsoleted s -> slab_fresh s' -> Q None s') ->
  (forall s' p n, alloc_answer s = Some (p, n) -> tree_part s' fs ((p, Frag fn size ofs) :: out) -> dnodes s' = dnodes s ->
     raws s' = raws s -> obsoleted s' = obsoleted s -> slab_fresh s' -> slab s' = tail (slab s) -> Q (Some p) s') ->
  wp (new_fragment fn ofs size) s Q.
Proof.
  intros Hs [Hnd Hfr] HN HS. unfold new_fragment. apply wp_bind. unfold wp at 1, jffs2_alloc_node_frag.
  unfold alloc_answer in *. destruct (slab s) as [|[[p n]|] l] eqn:El; cbn [head default] in *.
  - apply wp_ret. apply HN; [done|done|done..|]. split; rewrite El; [done|]. by intros p Hp%elem_of_nil.
  - cbn [omap list_omap fmap option_fmap option_map fst] in Hnd, Hfr. apply NoDup_cons in Hnd as [Hp Hnd].
    pose proof (Hfr p ltac:(left)) as Hfp.
    assert (Hpn : p ∉ (fs ++ out).*1).
    { intros Hin. apply list_elem_of_fmap in Hin as ([q f] & Hq & Hin). cbn [fst] in Hq. subst q.
      by rewrite (tp_lookup _ _ _ _ _ Hs Hin) in Hfp. }
    destruct Hs as [(t & Ht & Hrb & He) Hf Hn Hd].
    apply wp_bind. eapply (wp_set_out _ fs p (Frag None 0 0) out).
    + split; cbn [rbs frags heap rb_node].
      * exists t. split_and!; [|done..]. destruct Ht as [Hr Hre Hndt]. split; [done| |done].
        apply repr_insert; [|exact Hre]. rewrite He. rewrite fmap_app, not_elem_of_app in Hpn. tauto.
      * rewrite (list_to_map_proper (fs ++ (p, Frag None 0 0) :: out) ((p, Frag None 0 0) :: fs ++ out)).
        -- cbn [list_to_map foldr]. by rewrite Hf.
        -- rewrite fmap_app, fmap_cons, <-Permutation_middle, <-fmap_app. cbn [fst]. by apply NoDup_cons.
        -- by rewrite <-Permutation_middle.
      * rewrite fmap_app, fmap_cons, <-Permutation_middle, <-fmap_app. cbn [fst]. by apply NoDup_cons.
      * intros q. destruct (decide (q = p)) as [->|].
        -- rewrite !lookup_insert_eq. by split; eexists.
        -- rewrite !lookup_insert_ne by congruence. apply Hd.
    + intros s' Hs' Hrest. injection Hrest as Hd1 Hr1 Hsl Hob. cbn [dnodes raws slab obsoleted] in *.
      apply wp_ret. eapply HS; [done..| |done]. split; rewrite Hsl; [done|].
      intros q Hq. destruct (frags s' !! q) as [fq|] eqn:Eq; [|done]. exfalso.
      assert (Hin : (q, fq) ∈ fs ++ (p, Frag fn size ofs) :: out).
      { rewrite (tp_frags _ _ _ Hs') in Eq. by apply elem_of_list_to_map_2 in Eq. }
      assert (Hq' : frags s !! q = None) by (apply Hfr; by right).
      assert (q <> p) by by intros ->.
      assert (Hin' : (q, fq) ∈ fs ++ out) by set_solver.
      rewrite Hf in Hq'. apply not_elem_of_list_to_map_2 in Hq'. apply Hq', list_elem_of_fmap. by exists (q, fq).
  - apply wp_ret. apply HN; [done| |done..|].
    + destruct Hs as [Ht Hf Hn Hd]. by split.
    + split; cbn [slab set_slab frags]; [done|]. intros p Hp. by apply Hfr.
Qed.

(** ** Lookup *)

(** [x] is what [jffs2_lookup_node_frag] returns: the fragment that covers
    the offset, or else the last one. *)
Definition looked_up (fs : fseq) (hi off : Z) (prev x : option ptr) : Prop :=
  if decide (off < hi) then exists l y f r, fs = l ++ (y, f) :: r /\ fofs f <= off < fend f /\ x = Some y
  else x = match last fs with Some (y, _) => Some y | None => prev end.

Lemma looked_up_right l y f r hi off prev x :
  fend f <= off -> looked_up r hi off (Some y) x -> looked_up (l ++ (y, f) :: r) hi off prev x.
Proof.
  unfold looked_up. intros Hf. case_decide.
  - intros (l' & z & g & r' & -> & Hg & ->). exists (l ++ (y, f) :: l'), z, g, r'. by rewrite <-app_assoc.
  - intros ->. rewrite last_app, last_cons. by destruct (last r) as [[]|].
Qed.

Lemma looked_up_left l y f r mid hi off prev x :
  chain (fend f) r hi -> off < mid -> mid <= fend f -> looked_up l mid off prev x -> looked_up (l ++ (y, f) :: r) hi off prev x.
Proof.
  intros Hr%chain_le Hm Hf. unfold looked_up. rewrite !decide_True by lia.
  intros (l' & z & g & r' & -> & Hg & ->). exists l', z, g, (r' ++ (y, f) :: r). by rewrite <-app_assoc.
Qed.

Section Lookup.
Context (s : jffs2) (off : Z).
Hypothesis off_word : 0 <= off < 2 ^ 32.

Definition is_before (lo : Z) (prev : option ptr) : Prop :=
  forall p, prev = Some p -> exists f, frags s !! p = Some f /\ fofs f < lo.

Lemma wp_closest lo f y prev (Q : option ptr -> jffs2 -> Prop) :
  is_before lo prev -> lo <= fofs f -> Q (Some y) s ->
  wp (match prev with
      | None => retF (Some y)
      | Some _ => po ← ldf fofs prev; retF (if po <? fofs f then Some y else prev)
      end) s Q.
Proof.
  intros Hp Hlo HQ. destruct prev as [p|]; [|by apply wp_ret].
  destruct (Hp p eq_refl) as (g & Hg & Hlt). apply wp_bind. eapply wp_ldf; [exact Hg|]. apply wp_ret.
  by destruct (Z.ltb_spec (fofs g) (fofs f)); [|lia].
Qed.

Lemma lookup_tree t : forall fs lo hi q prev fuel,
  repr (heap (rbs s)) q t -> elems t = fs.*1 -> chain lo fs hi -> 0 <= lo <= off -> hi < 2 ^ 32 ->
  (forall p f, (p, f) ∈ fs -> frags s !! p = Some f) -> is_before lo prev -> (length fs < fuel)%nat ->
  wp (lookup_loop fuel (root_of t) prev off) s (fun x s' => s' = s /\ looked_up fs hi off prev x).
Proof.
  induction t as [|c y tl IHl tr IHr]; intros fs lo hi q prev fuel Hre He Hc Hlo Hhi Hfr Hp Hf;
    (destruct fuel as [|fuel]; [lia|]); cbn [lookup_loop root_of].
  - destruct fs; [|done]. cbn in Hc. subst. apply wp_ret. split; [done|]. unfold looked_up. by rewrite decide_False by lia.
  - destruct Hre as (Hy & Hrl & Hrr). cbn [elems] in He.
    apply symmetry, fmap_app_inv in He as (l & [|[y' f] r] & Hl & Hr & ->); [done|].
    rewrite fmap_cons in Hr. injection Hr as <- Hr. cbn [fst] in *.
    apply chain_app in Hc as (mid & Hcl & <- & Hsz & Hcr).
    pose proof (chain_le _ _ _ Hcl). pose proof (chain_le _ _ _ Hcr).
    rewrite length_app in Hf. cbn [length] in Hf.
    assert (Hyf : frags s !! y = Some f) by (apply Hfr; rewrite elem_of_app; right; left).
    apply wp_bind. eapply wp_frag_end; [exact Hyf|unfold fend in *; lia|].
    apply wp_bind. eapply wp_ldf; [exact Hyf|].
    destruct (Z.leb_spec (fend f) off) as [Hle|Hgt].
    + apply wp_bind. eapply wp_closest; [exact Hp|lia|]. apply wp_bind. eapply wp_rb_read; [by eapply ld_run|].
      eapply wp_mono; [eapply (IHr r (fend f) hi (Some y) (Some y) fuel); try done|].
      * unfold fend in *. lia.
      * intros p g Hin. apply Hfr. rewrite elem_of_app. right. by right.
      * intros p [= <-]. exists f. split; [done|]. unfold fend. lia.
      * lia.
      * cbn. intros x s' [-> Hx]. split; [done|]. by apply looked_up_right.
    + destruct (Z.ltb_spec off (fofs f)) as [Hlt|Hin].
      * apply wp_bind. eapply wp_rb_read; [by eapply ld_run|].
        eapply wp_mono; [eapply (IHl l lo (fofs f) (Some y) prev fuel); try done; try lia|].
        -- unfold fend in *. lia.
        -- intros p g Hin. apply Hfr. rewrite elem_of_app. by left.
        -- cbn. intros x s' [-> Hx]. split; [done|]. eapply looked_up_left; [exact Hcr|exact Hlt|unfold fend; lia|done].
      * apply wp_ret. split; [done|]. unfold looked_up. rewrite decide_True by lia. exists l, y, f, r. auto.
Qed.
End Lookup.

Lemma wp_lookup s fs out hi off (Q : option ptr -> jffs2 -> Prop) :
  tree_part s fs out -> chain 0 fs hi -> hi < 2 ^ 32 -> 0 <= off < 2 ^ 32 ->
  (forall x, looked_up fs hi off None x -> Q x s) -> wp (jffs2_lookup_node_frag off) s Q.
Proof.
  intros Hs Hc Hhi Hoff HQ. destruct (tp_tree _ _ _ Hs) as (t & Ht & Hrb & He).
  unfold jffs2_lookup_node_frag. apply wp_bind. eapply wp_rb_read.
  { unfold get_root. rewrite (tree_root _ _ Ht). reflexivity. }
  eapply wp_fuelF; [exact Hs|]. intros fuel Hf.
  eapply wp_mono; [eapply lookup_tree; try done; [apply (tree_repr _ _ Ht)|lia|]|].
  - intros p f. by eapply tp_in.
  - by intros x s' [-> Hx]; apply HQ.
Qed.

(** [lastend] when the lookup found no fragment at its offset. *)
Lemma wp_lastend s fs out hi x (Q : Z -> jffs2 -> Prop) :
  tree_part s fs out -> chain 0 fs hi -> hi < 2 ^ 32 -> x = fst <$> last fs -> Q hi s ->
  wp (match x with Some _ => frag_end x | None => retF 0 end) s Q.
Proof.
  intros Hs Hc Hhi -> HQ. destruct (last fs) as [[y f]|] eqn:El; cbn [fmap option_fmap option_map fst].
  - apply last_Some in El as [l ->]. apply chain_app in Hc as (mid & Hl%chain_le & <- & Hz & Hr). cbn in Hr.
    eapply wp_frag_end; [eapply tp_in; [exact Hs|rewrite elem_of_app; right; left]|unfold fend in *; lia|]. by rewrite Hr.
  - apply last_None in El as ->. cbn in Hc. subst hi. by apply wp_ret.
Qed.
