(* ===== verification/FragNodes.v ===== *)
(** * The nodes behind the fragments

    Every fragment with a node counts in that node's [frags]; a node whose
    count reaches zero is marked obsolete and freed.  [nodes_inv] states this
    against the state a routine started from, and [world] puts it together
    with the tree and the allocator.  The rules of [FragRep] are lifted to
    [world]; the later files use only these. *)

From stdpp Require Import gmap.
From S2P Require Import Prelude RbSpec Rbtree RbOps Fragtree FragRep.

(** ** Counting *)

(** Nodes that are referred to, with repetitions; [None] for a hole. *)
Abbreviation live_list := (list (option ptr)).

Definition nodes_of (fs : fseq) : live_list := (fun pf => fnode pf.2) <$> fs.
Definition refs (d : ptr) (live : live_list) : nat := length (filter (fun n => n = Some d) live).

Lemma nodes_of_app fs gs : nodes_of (fs ++ gs) = nodes_of fs ++ nodes_of gs.
Proof. apply fmap_app. Qed.

Lemma refs_app d l k : refs d (l ++ k) = (refs d l + refs d k)%nat.
Proof. unfold refs. by rewrite filter_app, length_app. Qed.

Lemma refs_cons d n l : refs d (n :: l) = ((if decide (n = Some d) then 1 else 0) + refs d l)%nat.
Proof. unfold refs. rewrite filter_cons. by case_decide. Qed.

Lemma refs_perm d l k : l ≡ₚ k -> refs d l = refs d k.
Proof. unfold refs. by intros ->. Qed.

Lemma refs_in d l : (0 < refs d l)%nat <-> Some d ∈ l.
Proof.
  induction l as [|n l IH]; [by split; [cbn; lia|intros ?%elem_of_nil]|].
  rewrite refs_cons, elem_of_cons, <-IH. case_decide; subst; split; intros; try lia; auto.
  destruct H0; [congruence|lia].
Qed.

Lemma refs_le d l : (refs d l <= length l)%nat.
Proof. apply length_filter. Qed.

Definition with_frags (n : nat) (dn : jffs2_full_dnode) : jffs2_full_dnode :=
  Dnode (draw dn) (dofs dn) (dsize dn) (Z.of_nat n).

(** ** The invariant *)

(** Since the state [s0], where [live0] was referred to, references have come
    and gone and now [live] is referred to. *)
Record nodes_inv (s0 : jffs2) (live0 live : live_list) (s : jffs2) : Prop := {
  ni_live : forall d, (0 < refs d live)%nat -> (0 < refs d live0)%nat /\ exists dn,
    dnodes s0 !! d = Some dn /\ dnodes s !! d = Some (with_frags (refs d live) dn) /\ is_Some (raws s !! draw dn);
  ni_dead : exists dead, NoDup dead /\ (forall d, d ∈ dead <-> (0 < refs d live0)%nat /\ refs d live = 0%nat) /\
    (forall d, d ∈ dead -> dnodes s !! d = None) /\
    exists rs, obsoleted s = obsoleted s0 ++ rs /\
      Forall2 (fun d r => exists dn, dnodes s0 !! d = Some dn /\ draw dn = r) dead rs;
  ni_other : forall d, refs d live0 = 0%nat -> dnodes s !! d = dnodes s0 !! d;
  ni_raws : forall r, is_Some (raws s !! r) <-> is_Some (raws s0 !! r) }.

Lemma nodes_inv_perm s0 live0 live live' s : live ≡ₚ live' -> nodes_inv s0 live0 live s -> nodes_inv s0 live0 live' s.
Proof.
  intros Hp [Hl (dead & Hnd & Hd & Hrest) Ho Hr]. split; [| |done..].
  - intros d. rewrite <-(refs_perm d _ _ Hp). apply Hl.
  - exists dead. split; [done|]. split; [|done]. intros d. by rewrite <-(refs_perm d _ _ Hp).
Qed.

(** The invariant reads nothing but the nodes. *)
Lemma nodes_inv_rest s0 live0 live s s' :
  dnodes s' = dnodes s -> obsoleted s' = obsoleted s -> (forall r, is_Some (raws s' !! r) <-> is_Some (raws s !! r)) ->
  nodes_inv s0 live0 live s -> nodes_inv s0 live0 live s'.
Proof.
  intros Hd Ho Hr [Hl Hdead Hot Hra]. split; rewrite ?Hd, ?Ho; [|done|done|].
  - intros d H. destruct (Hl d H) as (H0 & dn & H1 & H2 & H3). split; [done|]. exists dn. by rewrite Hr.
  - intros r. by rewrite Hr.
Qed.

(** A property of a state that reads nothing but its nodes. *)
Record node_pred := NodePred {
  np_prop :> jffs2 -> Prop;
  np_same s s' : dnodes s' = dnodes s -> raws s' = raws s -> obsoleted s' = obsoleted s -> np_prop s -> np_prop s' }.

Lemma nodes_inv_same s0 live0 live s s' :
  dnodes s' = dnodes s -> raws s' = raws s -> obsoleted s' = obsoleted s ->
  nodes_inv s0 live0 live s -> nodes_inv s0 live0 live s'.
Proof. intros Hd Hr Ho. apply nodes_inv_rest; [done|done|]. intros r. by rewrite Hr. Qed.

Definition nodes_np (s0 : jffs2) (live0 live : live_list) : node_pred :=
  NodePred (nodes_inv s0 live0 live) (nodes_inv_same s0 live0 live).

(** The next [k] allocations will succeed. *)
Definition supply (k : nat) (s : jffs2) : Prop := forall i, (i < k)%nat -> exists a, slab s !! i = Some (Some a).

(** The tree, a property of the nodes, and what is known of the allocator. *)
Definition world (P : node_pred) (k : nat) (s : jffs2) (fs out : fseq) : Prop :=
  tree_part s fs out /\ P s /\ slab_fresh s /\ supply k s.

(** ** Rules for the tree *)

Section Tree.
Context (P : node_pred) (k : nat).
Abbreviation W := (world P k).

Lemma world_out s fs out out' : out ≡ₚ out' -> W s fs out -> W s fs out'.
Proof. intros Ho (H1 & H2). split; [by eapply tp_perm|done]. Qed.

Lemma slab_fresh_sub s fs out s' fs' out' :
  tree_part s fs out -> tree_part s' fs' out' -> slab s' = slab s ->
  (forall p, p ∈ (fs' ++ out').*1 -> p ∈ (fs ++ out).*1) -> slab_fresh s -> slab_fresh s'.
Proof.
  intros Hs Hs' Hsl Hsub [Hn Hf]. split; rewrite Hsl; [done|]. intros p Hp.
  apply Hf in Hp. rewrite (tp_frags _ _ _ Hs) in Hp. rewrite (tp_frags _ _ _ Hs').
  apply not_elem_of_list_to_map. apply not_elem_of_list_to_map in Hp. auto.
Qed.

Lemma world_tree s fs out s' fs' out' :
  W s fs out -> tree_part s' fs' out' -> rest_of s' = rest_of s ->
  (forall p, p ∈ (fs' ++ out').*1 -> p ∈ (fs ++ out).*1) -> W s' fs' out'.
Proof.
  intros (H1 & H2 & H3 & H4) H' Hr Hsub. injection Hr as Hd Hra Hsl Hob. split_and!; [done| | |].
  - by apply (np_same P s).
  - exact (slab_fresh_sub _ _ _ _ _ _ H1 H' Hsl Hsub H3).
  - intros i Hi. rewrite Hsl. by apply H4.
Qed.

Ltac sub :=
  let p := fresh "p" in
  intros p; rewrite ?fmap_app, ?fmap_cons, ?elem_of_app, ?elem_of_cons, ?fmap_app, ?fmap_cons, ?elem_of_app, ?elem_of_cons;
  cbn [fst]; tauto.
Lemma w_insert_after s l b fb r x fx out (Q : unit -> jffs2 -> Prop) :
  W s (l ++ (b, fb) :: r) ((x, fx) :: out) -> fofs fb < fofs fx -> (forall p f, (p, f) ∈ r -> fofs fx < fofs f) ->
  (forall s', W s' (l ++ (b, fb) :: (x, fx) :: r) out -> Q tt s') ->
  wp (jffs2_fragtree_insert (Some x) (Some b);; rb (rb_insert_color (Some x))) s Q.
Proof.
  intros HW H1 H2 HQ. eapply wp_insert_after; [apply HW|done..|]. intros s' Hs' Hr. apply HQ.
  eapply world_tree; [done..|]. sub.
Qed.

Lemma w_link_right s l x fx out (Q : unit -> jffs2 -> Prop) :
  W s l ((x, fx) :: out) -> (forall s', W s' (l ++ [(x, fx)]) out -> Q tt s') ->
  wp (link_right (Some x) (fst <$> last l);; rb (rb_insert_color (Some x))) s Q.
Proof.
  intros HW HQ. eapply wp_link_right; [apply HW|]. intros s' Hs' Hr. apply HQ. eapply world_tree; [done..|].
  intros p. rewrite !fmap_app, !fmap_cons, !elem_of_app, !elem_of_cons. cbn. rewrite elem_of_nil. tauto.
Qed.

Lemma w_replace s l x fx r y fy out (Q : unit -> jffs2 -> Prop) :
  W s (l ++ (x, fx) :: r) ((y, fy) :: out) ->
  (forall s', W s' (l ++ (y, fy) :: r) ((x, fx) :: out) -> Q tt s') ->
  wp (rb (rb_replace_node (Some x) (Some y))) s Q.
Proof.
  intros HW HQ. eapply wp_replace; [apply HW|]. intros s' Hs' Hr. apply HQ. eapply world_tree; [done..|]. sub.
Qed.

Lemma w_erase s l x fx r out (Q : unit -> jffs2 -> Prop) :
  W s (l ++ (x, fx) :: r) out -> (forall s', W s' (l ++ r) ((x, fx) :: out) -> Q tt s') ->
  wp (frag_erase (Some x)) s Q.
Proof.
  intros HW HQ. eapply wp_erase; [apply HW|]. intros s' Hs' Hr. apply HQ. eapply world_tree; [done..|]. sub.
Qed.

Lemma w_set_in s l x f r out g (Q : unit -> jffs2 -> Prop) :
  W s (l ++ (x, f) :: r) out -> (forall s', W s' (l ++ (x, g f) :: r) out -> Q tt s') ->
  wp (st_obj frags set_frags (Some x) g) s Q.
Proof.
  intros HW HQ. eapply wp_set_in; [apply HW|]. intros s' Hs' Hr. apply HQ. eapply world_tree; [done..|]. sub.
Qed.

Lemma w_set_out s fs x f out g (Q : unit -> jffs2 -> Prop) :
  W s fs ((x, f) :: out) -> (forall s', W s' fs ((x, g f) :: out) -> Q tt s') ->
  wp (st_obj frags set_frags (Some x) g) s Q.
Proof.
  intros HW HQ. eapply wp_set_out; [apply HW|]. intros s' Hs' Hr. apply HQ. eapply world_tree; [done..|]. sub.
Qed.

Lemma w_free s fs x f out (Q : unit -> jffs2 -> Prop) :
  W s fs ((x, f) :: out) -> (forall s', W s' fs out -> Q tt s') ->
  wp (jffs2_free_node_frag (Some x)) s Q.
Proof.
  intros HW HQ. eapply wp_free; [apply HW|]. intros s' Hs' Hr. apply HQ. eapply world_tree; [done..|]. sub.
Qed.

Lemma w_new s fs out fn ofs size (Q : option ptr -> jffs2 -> Prop) :
  W s fs out -> (forall s', k = 0%nat -> W s' fs out -> Q None s') ->
  (forall s' p, world P (pred k) s' fs ((p, Frag fn size ofs) :: out) -> Q (Some p) s') ->
  wp (new_fragment fn ofs size) s Q.
Proof.
  intros (H1 & H2 & H3 & H4) HN HS. eapply wp_new; [done..| |].
  - intros s' Ha Ht Hd Hr Ho Hf. assert (k = 0%nat) as ->.
    { destruct k as [|k']; [done|]. destruct (H4 0%nat ltac:(lia)) as [a Ha']. unfold alloc_answer in Ha.
      destruct (slab s) as [|o l]; cbn in *; simplify_eq. }
    apply HN; [done|]. split_and!; [done|by apply (np_same P s)|done|]. intros i Hi. lia.
  - intros s' p n Ha Ht Hd Hr Ho Hf Hsl. apply HS. split_and!; [done|by apply (np_same P s)|done|].
    intros i Hi. rewrite Hsl, lookup_tail. apply H4. lia.
Qed.

(** *** Reading *)

Lemma w_in s fs out x f : W s fs out -> (x, f) ∈ fs -> frags s !! x = Some f.
Proof. intros HW. eapply tp_in, HW. Qed.
Lemma w_mid s l x f r out : W s (l ++ (x, f) :: r) out -> frags s !! x = Some f.
Proof. intros HW. eapply w_in; [done|]. rewrite elem_of_app. right. left. Qed.
Lemma w_out s fs x f out : W s fs ((x, f) :: out) -> frags s !! x = Some f.
Proof. intros HW. eapply tp_out; [apply HW|left]. Qed.

Lemma w_next s l x fx r out (Q : option ptr -> jffs2 -> Prop) :
  W s (l ++ (x, fx) :: r) out -> Q (fst <$> head r) s -> wp (frag_next (Some x)) s Q.
Proof. intros HW. eapply wp_next, HW. Qed.
Lemma w_prev s l x fx r out (Q : option ptr -> jffs2 -> Prop) :
  W s (l ++ (x, fx) :: r) out -> Q (fst <$> last l) s -> wp (frag_prev (Some x)) s Q.
Proof. intros HW. eapply wp_prev, HW. Qed.
Lemma w_last s fs out (Q : option ptr -> jffs2 -> Prop) :
  W s fs out -> Q (fst <$> last fs) s -> wp frag_last s Q.
Proof. intros HW. eapply wp_last, HW. Qed.

Lemma w_lookup s fs out hi off (Q : option ptr -> jffs2 -> Prop) :
  W s fs out -> chain 0 fs hi -> hi < 2 ^ 32 -> 0 <= off < 2 ^ 32 ->
  (forall x, looked_up fs hi off None x -> Q x s) -> wp (jffs2_lookup_node_frag off) s Q.
Proof. intros HW. eapply wp_lookup, HW. Qed.

Lemma w_fuel {A} (m : nat -> F A) s fs out Q :
  W s fs out -> (forall fuel, (length fs < fuel)%nat -> wp (m fuel) s Q) -> wp (with_fuelF m) s Q.
Proof. intros HW. eapply wp_fuelF, HW. Qed.
End Tree.

Lemma world_less P k k' s fs out : (k' <= k)%nat -> world P k s fs out -> world P k' s fs out.
Proof. intros Hk (H1 & H2 & H3 & H4). split_and!; [done..|]. intros i Hi. apply H4. lia. Qed.

(** *** A fragment behind the last one *)

(** What fills the gap from [hi] to [o]. *)
Definition is_gap (hole : fseq) (hi o : Z) : Prop :=
  hole = [] /\ o = hi \/ exists h, hole = [(h, Frag None (o - hi) hi)] /\ hi < o.

Lemma w_no_overlap P k s fs n fn d dn hi out (Q : Z -> jffs2 -> Prop) :
  world P k s fs ((n, fn) :: out) -> fnode fn = Some d -> dnodes s !! d = Some dn -> dofs dn = fofs fn ->
  0 <= hi <= fofs fn -> fofs fn < 2 ^ 32 ->
  (forall s', k = 0%nat -> world P 0 s' fs out -> Q (- ENOMEM) s') ->
  (forall s' hole, is_gap hole hi (fofs fn) -> world P (pred k) s' (fs ++ hole ++ [(n, fn)]) out -> Q 0 s') ->
  wp (no_overlapping_node (Some n) (fst <$> last fs) hi) s Q.
Proof.
  intros HW Hd Hdn Ho Hhi Hw HN HS. unfold no_overlapping_node. apply wp_bind. unfold node_ofs.
  apply wp_bind. eapply wp_ldf; [by eapply w_out|]. rewrite Hd. eapply wp_ldd; [exact Hdn|]. rewrite Ho.
  apply wp_bind. destruct (Z.ltb_spec hi (fofs fn)) as [Hlt|Hge].
  - replace (u32 (fofs fn - hi)) with (fofs fn - hi) by (symmetry; apply Z.mod_small; lia).
    apply wp_bind. eapply w_new; [exact HW|..].
    + intros s1 Hk HW1. apply wp_bind. eapply w_free; [exact HW1|]. intros s2 HW2. apply wp_ret, wp_ret. subst k. by apply HN.
    + intros s1 h HW1. apply wp_seq. eapply w_link_right; [exact HW1|]. intros s2 HW2. apply wp_ret.
      apply wp_seq. replace (Some h) with (fst <$> last (fs ++ [(h, Frag None (fofs fn - hi) hi)])) by by rewrite last_snoc.
      eapply w_link_right; [exact HW2|]. intros s3 HW3. apply wp_ret. rewrite <-app_assoc in HW3.
      eapply HS; [|exact HW3]. right. eauto.
  - apply wp_ret, wp_seq. eapply w_link_right; [exact HW|]. intros s1 HW1. apply wp_ret. apply (HS s1 []).
    + left. split; [done|lia].
    + eapply world_less; [|exact HW1]. lia.
Qed.

(** ** Rules for the nodes *)

Section World.
Context (s0 : jffs2) (live0 : live_list).
(** The world with the live references. *)
Abbreviation W k s fs out live := (world (nodes_np s0 live0 live) k s fs out).

Lemma world_perm k s fs out out' live live' : out ≡ₚ out' -> live ≡ₚ live' -> W k s fs out live -> W k s fs out' live'.
Proof. intros Ho Hl (H1 & H2 & H3). split_and!; [by eapply tp_perm|by eapply nodes_inv_perm|apply H3..]. Qed.

Lemma w_dnode k s fs out live d : W k s fs out live -> Some d ∈ live ->
  exists dn, dnodes s0 !! d = Some dn /\ dnodes s !! d = Some (with_frags (refs d live) dn) /\ is_Some (raws s !! draw dn).
Proof. intros (_ & H & _) Hd%refs_in. destruct (ni_live _ _ _ _ H d Hd) as (_ & dn & ?). by exists dn. Qed.

(** Only [raws] changes, and no reference in it goes or comes. *)
Lemma w_raws k s fs out live r v :
  W k s fs out live -> is_Some (raws s !! r) -> W k (set_raws (<[r := v]> (raws s)) s) fs out live.
Proof.
  intros (H1 & H2 & H3) [v0 Hr]. split; [|split; [|exact H3]].
  - destruct H1. by split.
  - apply (nodes_inv_rest _ _ _ s); [done..| |done]. intros q. cbn [raws set_raws].
    destruct (decide (q = r)) as [->|]; [rewrite lookup_insert_eq, Hr; by split; eexists|].
    by rewrite lookup_insert_ne.
Qed.

Lemma w_mark_ref flag k s fs out live r (Q : unit -> jffs2 -> Prop) :
  W k s fs out live -> is_Some (raws s !! r) -> (forall s', W k s' fs out live -> Q tt s') ->
  wp (mark_ref flag r) s Q.
Proof.
  intros HW Hr HQ. pose proof Hr as [v Hv]. unfold mark_ref. apply wp_bind. unfold wp at 1, ldr, ld_obj. cbn. rewrite Hv.
  eapply wp_st_obj; [done|]. apply HQ. by apply w_raws.
Qed.

Lemma w_mark_any k s fs out live x f (Q : unit -> jffs2 -> Prop) :
  W k s fs out live -> (x, f) ∈ fs ++ out -> (forall d, fnode f = Some d -> Some d ∈ live) ->
  (forall s', W k s' fs out live -> Q tt s') -> wp (mark_any_normal (Some x)) s Q.
Proof.
  intros HW Hx Hd HQ. unfold mark_any_normal. apply wp_bind. eapply wp_ldf; [eapply tp_lookup; [apply HW|done]|].
  destruct (fnode f) as [d|]; [|by apply HQ].
  destruct (w_dnode _ _ _ _ _ d HW (Hd d eq_refl)) as (dn & _ & H1 & H2).
  apply wp_bind. eapply wp_ldd; [exact H1|]. by eapply w_mark_ref.
Qed.

Lemma w_mark_node k s fs out live x f d (Q : unit -> jffs2 -> Prop) :
  W k s fs out live -> (x, f) ∈ fs ++ out -> fnode f = Some d -> Some d ∈ live ->
  (forall s', W k s' fs out live -> Q tt s') -> wp (mark_node_normal (Some x)) s Q.
Proof.
  intros HW Hx Hf Hd HQ. eapply (w_mark_any k s fs out live x f Q) in HW as Hw; [|done| |done].
  - unfold mark_any_normal in Hw. unfold mark_node_normal.
    assert (Hl : frags s !! x = Some f) by (eapply tp_lookup; [apply HW|done]).
    revert Hw. unfold wp, mbind, F_bind, ldf, ld_obj. cbn. by rewrite Hl, Hf.
  - intros d' Hd'. by simplify_eq.
Qed.

(** One reference less. *)
Lemma nodes_inv_drop live d s dn :
  nodes_inv s0 live0 (Some d :: live) s -> (0 < refs d live)%nat -> dnodes s0 !! d = Some dn ->
  nodes_inv s0 live0 live (set_dnodes (<[d := with_frags (refs d live) dn]> (dnodes s)) s).
Proof.
  intros [Hl (dead & Hnd & Hd & Hdn & Hob) Ho Hr] Hpos Hdn0. split; cbn [dnodes set_dnodes raws obsoleted].
  - intros d' Hd'. destruct (Hl d') as (H0 & dn' & H1 & H2 & H3); [rewrite refs_cons; lia|]. split; [done|]. exists dn'.
    split; [done|]. split; [|done]. destruct (decide (d' = d)) as [->|].
    + rewrite lookup_insert_eq. by simplify_eq.
    + rewrite lookup_insert_ne by done. rewrite H2, refs_cons, decide_False by congruence. done.
  - exists dead. split; [done|]. split; [|split; [|done]].
    + intros d'. rewrite Hd, refs_cons. case_decide as E; [injection E as ->; lia|]. by rewrite Nat.add_0_l.
    + intros d' Hd'. destruct (decide (d' = d)) as [->|]; [|rewrite lookup_insert_ne by done; by apply Hdn].
      apply Hd in Hd' as [_ Hz]. rewrite refs_cons in Hz. lia.
  - intros d' Hd'. rewrite lookup_insert_ne; [by apply Ho|]. intros <-.
    destruct (Hl d) as [H0 _]; [rewrite refs_cons, decide_True by done; lia|]. lia.
  - done.
Qed.

(** The last reference goes, and the node with it. *)
Lemma nodes_inv_die live d s dn s' :
  nodes_inv s0 live0 (Some d :: live) s -> refs d live = 0%nat -> dnodes s0 !! d = Some dn ->
  dnodes s' = delete d (dnodes s) -> obsoleted s' = obsoleted s ++ [draw dn] ->
  (forall r, is_Some (raws s' !! r) <-> is_Some (raws s !! r)) ->
  nodes_inv s0 live0 live s'.
Proof.
  intros [Hl (dead & Hnd & Hd & Hdn & rs & Hob & Hrs) Ho Hr] Hz Hdn0 Hs' Hob' Hra.
  destruct (Hl d) as [H0 _]; [rewrite refs_cons, decide_True by done; lia|].
  assert (Hdd : d ∉ dead) by (rewrite Hd, refs_cons, decide_True by done; lia).
  split.
  - intros d' Hd'. destruct (Hl d') as (H0' & dn' & H1 & H2 & H3); [rewrite refs_cons; lia|].
    assert (d' <> d) by by (intros ->; lia).
    split; [done|]. exists dn'. split; [done|]. split; [|by rewrite Hra].
    rewrite Hs', lookup_delete_ne by done. rewrite H2, refs_cons, decide_False by congruence. done.
  - exists (dead ++ [d]). split; [|split; [|split]].
    + apply NoDup_app. split_and!; [done| |apply NoDup_singleton]. intros d' H1 ->%list_elem_of_singleton. done.
    + intros d'. rewrite elem_of_app, list_elem_of_singleton, Hd, refs_cons. case_decide as E.
      * injection E as ->. split; [|by auto]. by intros [[_ ?]|_].
      * split; [intros [?|?]; [lia|congruence]|]. intros [? ?]. left. lia.
    + intros d'. rewrite elem_of_app, list_elem_of_singleton, Hs'. intros [H1| ->]; [|by rewrite lookup_delete_eq].
      rewrite lookup_delete_ne by by intros ->. by apply Hdn.
    + exists (rs ++ [draw dn]). split; [by rewrite Hob', Hob, <-app_assoc|].
      apply Forall2_app; [done|]. constructor; [by exists dn|done].
  - intros d' Hd'. rewrite Hs', lookup_delete_ne; [by apply Ho|]. intros <-. lia.
  - intros r. by rewrite Hra.
Qed.

Lemma nodes_inv_hole live s : nodes_inv s0 live0 (None :: live) s -> nodes_inv s0 live0 live s.
Proof.
  assert (E : forall d, refs d (None :: live) = refs d live) by (intros d; rewrite refs_cons; by case_decide).
  intros [Hl (dead & Hnd & Hd & Hrest) Ho Hr]. split; [| |done..].
  - intros d. rewrite <-E. apply Hl.
  - exists dead. split; [done|]. split; [|done]. intros d. by rewrite <-E.
Qed.

(** One reference more to a node that has some. *)
Lemma nodes_inv_more live d s dn :
  nodes_inv s0 live0 live s -> (0 < refs d live)%nat -> dnodes s0 !! d = Some dn ->
  nodes_inv s0 live0 (Some d :: live) (set_dnodes (<[d := with_frags (S (refs d live)) dn]> (dnodes s)) s).
Proof.
  intros [Hl (dead & Hnd & Hd & Hdn & Hob) Ho Hr] Hpos Hdn0.
  destruct (Hl d Hpos) as (Hd0 & dn1 & Hdn1 & Hsd & Hra1).
  split; cbn [dnodes set_dnodes raws obsoleted].
  - intros d'. rewrite refs_cons. case_decide as E.
    + injection E as <-. intros _. split; [done|]. exists dn. rewrite lookup_insert_eq. by simplify_eq.
    + rewrite Nat.add_0_l. intros Hd'. destruct (Hl d' Hd') as (H0 & dn' & H1 & H2 & H3).
      split; [done|]. exists dn'. rewrite lookup_insert_ne by congruence. done.
  - exists dead. split; [done|]. split; [|split; [|done]].
    + intros d'. rewrite Hd, refs_cons. case_decide as E; [injection E as ->; lia|]. by rewrite Nat.add_0_l.
    + intros d' Hd'. destruct (decide (d' = d)) as [->|]; [|rewrite lookup_insert_ne by done; by apply Hdn].
      apply Hd in Hd' as [_ Hz]. lia.
  - intros d' Hd'. rewrite lookup_insert_ne; [by apply Ho|]. by intros <-; lia.
  - done.
Qed.

Lemma nodes_inv_more_hole live s : nodes_inv s0 live0 live s -> nodes_inv s0 live0 (None :: live) s.
Proof.
  assert (E : forall d, refs d (None :: live) = refs d live) by (intros d; rewrite refs_cons; by case_decide).
  intros [Hl (dead & Hnd & Hd & Hrest) Ho Hr]. split; [| |done..].
  - intros d. rewrite E. apply Hl.
  - exists dead. split; [done|]. split; [|done]. intros d. by rewrite E.
Qed.

Lemma tree_part_nodes s fs out s' : rbs s' = rbs s -> frags s' = frags s -> tree_part s fs out -> tree_part s' fs out.
Proof. intros H1 H2 []. by split; rewrite ?H1, ?H2. Qed.

Lemma w_mark_obsolete r s (Q : unit -> jffs2 -> Prop) :
  is_Some (raws s !! r) ->
  (forall m, (forall q, is_Some (m !! q) <-> is_Some (raws s !! q)) -> (forall q, q <> r -> m !! q = raws s !! q) ->
     Q tt (set_obsoleted (obsoleted s ++ [r]) (set_raws m s))) ->
  wp (mark_obsolete r) s Q.
Proof.
  intros [v Hv] HQ. unfold mark_obsolete. apply wp_bind. unfold wp at 1, ldr, ld_obj. cbn. rewrite Hv. apply wp_bind.
  destruct (ref_obsolete _).
  - apply wp_ret. unfold wp, record_obsolete. specialize (HQ (raws s)). destruct s. by apply HQ.
  - eapply (wp_st_obj raws); [done|]. unfold wp, record_obsolete. apply HQ; intros q.
    + destruct (decide (q = r)) as [->|]; [rewrite lookup_insert_eq, Hv; by split; eexists|by rewrite lookup_insert_ne].
    + intros Hq. by rewrite lookup_insert_ne.
Qed.

(** [jffs2_obsolete_node_frag] of a fragment that is out of the tree. *)
Lemma w_obsolete k s fs x f out live (Q : unit -> jffs2 -> Prop) :
  W k s fs ((x, f) :: out) (fnode f :: live) -> Z.of_nat (length live) < 2 ^ 32 ->
  (forall s', W k s' fs out live -> Q tt s') ->
  wp (jffs2_obsolete_node_frag (Some x)) s Q.
Proof.
  intros HW Hlen HQ. unfold jffs2_obsolete_node_frag.
  apply wp_bind. eapply wp_ldf; [by eapply w_out|]. apply wp_bind.
  assert (Hend : forall s1, W k s1 fs ((x, f) :: out) live -> wp (jffs2_free_node_frag (Some x)) s1 Q).
  { intros s1 HW1. eapply w_free; [exact HW1|done]. }
  destruct (fnode f) as [d|] eqn:Ef.
  - destruct (w_dnode _ _ _ _ _ d HW ltac:(left)) as (dn & H0 & H1 & H2). destruct HW as (Ht & Hn & Hs).
    pose proof (refs_le d live). rewrite refs_cons, decide_True in H1 by done.
    apply wp_bind. eapply wp_ldd; [exact H1|]. cbn [dfrags with_frags]. rewrite Nat2Z.inj_add.
    replace (u32 _) with (Z.of_nat (refs d live)) by (unfold u32; rewrite wrap_small; unfold word; lia).
    apply wp_bind. eapply wp_st_obj; [exact H1|]. cbn [draw dofs dsize with_frags].
    set (s1 := set_dnodes _ s).
    assert (H1' : dnodes s1 !! d = Some (with_frags (refs d live) dn)) by apply lookup_insert_eq.
    apply wp_bind. eapply wp_ldd; [exact H1'|]. apply wp_bind. eapply wp_ldd; [exact H1'|].
    cbn [dfrags with_frags draw]. destruct (Z.eqb_spec (Z.of_nat (refs d live)) 0) as [Hz|Hz].
    + apply wp_bind. apply w_mark_obsolete; [done|]. intros m Hm _.
      unfold wp, jffs2_free_full_dnode. cbn [dnodes set_obsoleted set_raws]. rewrite H1'.
      apply Hend. split; [by apply (tree_part_nodes s)|]. split; [|exact Hs].
      eapply nodes_inv_die; [exact Hn|lia|exact H0| |done|exact Hm].
      cbn [dnodes set_dnodes set_obsoleted set_raws]. unfold s1. cbn [dnodes set_dnodes]. by rewrite delete_insert_eq.
    + eapply w_mark_ref; [|done|intros s2 HW2; by apply Hend]. split; [by apply (tree_part_nodes s)|]. split; [|exact Hs].
      apply nodes_inv_drop; [done|lia|done].
  - apply wp_ret. apply Hend. destruct HW as (Ht & Hn & Hs). split; [done|]. split; [by apply nodes_inv_hole|exact Hs].
Qed.

(** [if (n) n->frags++;] for a node that is referred to. *)
Lemma w_more k s fs out live n (Q : unit -> jffs2 -> Prop) :
  W k s fs out live -> (forall d, n = Some d -> Some d ∈ live) -> Z.of_nat (length live) < 2 ^ 32 - 1 ->
  (forall s', W k s' fs out (n :: live) -> Q tt s') ->
  wp (match n with Some _ => fr ← ldd dfrags n; st_dfrags n (u32 (fr + 1)) | None => retF tt end) s Q.
Proof.
  intros HW Hn Hlen HQ. destruct n as [d|].
  - destruct (w_dnode _ _ _ _ _ d HW (Hn d eq_refl)) as (dn & H0 & H1 & H2). destruct HW as (Ht & Hi & Hs).
    pose proof (refs_le d live). pose proof (proj2 (refs_in d live) (Hn d eq_refl)).
    apply wp_bind. eapply wp_ldd; [exact H1|]. cbn [dfrags with_frags].
    replace (u32 _) with (Z.of_nat (S (refs d live))) by (unfold u32; rewrite wrap_small; unfold word; lia).
    eapply wp_st_obj; [exact H1|]. cbn [draw dofs dsize with_frags]. apply HQ.
    split; [by apply (tree_part_nodes s)|]. split; [|exact Hs]. by apply nodes_inv_more.
  - apply wp_ret, HQ. destruct HW as (Ht & Hi & Hs). split; [done|]. split; [by apply nodes_inv_more_hole|exact Hs].
Qed.
End World.
