(* ===== verification/FragAdd.v ===== *)
(** * Adding the newest node of a file

    [owners] reads a sequence of fragments as a map from the bytes of the
    file to nodes.  [jffs2_add_frag_to_fragtree] and its callers are shown to
    put the new node over the bytes it covers and to leave the others alone. *)

From stdpp Require Import gmap.
From S2P Require Import Prelude RbSpec Rbtree RbOps Fragtree FragRep FragNodes.

(** ** The bytes of the file *)

(** For each byte from the start of the file the node it comes from; [None]
    is a hole. *)
Fixpoint owners (fs : fseq) : list (option ptr) :=
  match fs with [] => [] | (_, f) :: fs => replicate (Z.to_nat (fsize f)) (fnode f) ++ owners fs end.

Lemma owners_app fs gs : owners (fs ++ gs) = owners fs ++ owners gs.
Proof. induction fs as [|[p f] fs IH]; cbn [app owners]; [done|]. by rewrite IH, app_assoc. Qed.

Lemma length_owners lo fs hi : chain lo fs hi -> length (owners fs) = Z.to_nat (hi - lo).
Proof.
  revert lo. induction fs as [|[p f] fs IH]; intros lo; cbn [chain owners].
  - intros ->. cbn. lia.
  - intros (<- & Hz & Hc). rewrite length_app, length_replicate, (IH _ Hc). apply chain_le in Hc. unfold fend in *. lia.
Qed.

(** [size] bytes from [ofs] on now come from [n]; a gap before them becomes
    a hole. *)
Definition overlay {A} (ow : list (option A)) (ofs size : nat) (n : option A) : list (option A) :=
  take ofs (ow ++ replicate (ofs - length ow) None) ++ replicate size n ++ drop (ofs + size) ow.

Lemma length_overlay {A} (ow : list (option A)) ofs size n :
  length (overlay ow ofs size n) = (length ow `max` (ofs + size))%nat.
Proof.
  unfold overlay. rewrite !length_app, length_take, length_app, !length_replicate, length_drop. lia.
Qed.

Lemma overlay_past {A} (ow : list (option A)) ofs size n :
  (length ow <= ofs)%nat -> overlay ow ofs size n = ow ++ replicate (ofs - length ow) None ++ replicate size n.
Proof.
  intros H. unfold overlay. rewrite take_ge by (rewrite length_app, length_replicate; lia).
  by rewrite drop_ge, app_nil_r, <-app_assoc by lia.
Qed.

Lemma overlay_within {A} (ow : list (option A)) ofs size n :
  (ofs <= length ow)%nat -> overlay ow ofs size n = take ofs ow ++ replicate size n ++ drop (ofs + size) ow.
Proof. intros H. unfold overlay. replace (ofs - length ow)%nat with 0%nat by lia. by rewrite app_nil_r. Qed.

(** Putting the new fragment at its place in [fs = l ++ k]. *)
Lemma overlay_split {A} (ow1 ow2 : list (option A)) a size n :
  (a <= length ow2)%nat ->
  overlay (ow1 ++ ow2) (length ow1 + a) size n = ow1 ++ take a ow2 ++ replicate size n ++ drop (a + size) ow2.
Proof.
  intros H. rewrite overlay_within by (rewrite length_app; lia).
  rewrite take_app_add, <-app_assoc. do 3 f_equal.
  replace (length ow1 + a + size)%nat with (length ow1 + (a + size))%nat by lia. by rewrite drop_app_add.
Qed.

Lemma take_replicate_app {A} (x : A) a n l : (a <= n)%nat -> take a (replicate n x ++ l) = replicate a x.
Proof. intros H. rewrite take_app_le by (by rewrite length_replicate). by rewrite take_replicate, min_l. Qed.
Lemma drop_replicate_app {A} (x : A) a n l : (a <= n)%nat -> drop a (replicate n x ++ l) = replicate (n - a) x ++ l.
Proof. intros H. rewrite drop_app_le by (by rewrite length_replicate). by rewrite drop_replicate. Qed.

(** ** The fragments that the new one covers *)

Section Add.
Context (s0 : jffs2) (live0 : live_list).
(** Fragments that are allocated elsewhere. *)
Context (out : fseq).
Abbreviation W k s fs out live := (world (nodes_np s0 live0 live) k s fs out).
(** The tree's references are the live ones. *)
Definition tree_world (k : nat) (s : jffs2) (fs out' : fseq) (extra : live_list) : Prop := W k s fs out' (nodes_of fs ++ extra).

Lemma live_mid l x f r extra :
  nodes_of (l ++ (x, f) :: r) ++ extra ≡ₚ fnode f :: nodes_of (l ++ r) ++ extra.
Proof. unfold nodes_of. rewrite !fmap_app, fmap_cons. cbn [snd]. rewrite <-!app_assoc. cbn [app]. by rewrite <-Permutation_middle. Qed.

Lemma live_node l x f r extra d : fnode f = Some d -> Some d ∈ nodes_of (l ++ (x, f) :: r) ++ extra.
Proof. intros Hf. rewrite live_mid, Hf. left. Qed.

Lemma length_chain lo fs hi : chain lo fs hi -> Z.of_nat (length fs) <= hi - lo.
Proof.
  revert lo. induction fs as [|[p f] fs IH]; intros lo; cbn [chain length]; [lia|].
  intros (<- & Hz & Hc%IH). unfold fend in *. lia.
Qed.

Lemma length_live fs extra : length (nodes_of fs ++ extra) = (length fs + length extra)%nat.
Proof. unfold nodes_of. by rewrite length_app, length_fmap. Qed.

Lemma covered_ok k fuel : forall l n fn r s mid hi,
  tree_world k s (l ++ (n, fn) :: r) out [] -> chain mid r hi -> mid <= fend fn -> 0 <= mid ->
  hi < 2 ^ 32 -> 0 <= fend fn < 2 ^ 32 -> Z.of_nat (length (l ++ (n, fn) :: r)) <= 2 ^ 32 -> (length r < fuel)%nat ->
  wp (obsolete_covered fuel (Some n)) s (fun x s' => exists r' mid',
    tree_world k s' (l ++ (n, fn) :: r') out [] /\ x = fst <$> head r' /\ chain mid' r' hi /\ mid <= mid' <= fend fn /\
    (forall p f, head r' = Some (p, f) -> fend fn < fend f) /\ owners r' = drop (Z.to_nat (mid' - mid)) (owners r)).
Proof.
  induction fuel as [|fuel IH]; intros l n fn r s mid hi HW Hc Hm Hm0 Hhi Hn Hlen Hf; [lia|]. cbn [obsolete_covered].
  apply wp_bind. eapply w_next; [exact HW|]. destruct r as [|[x f] r]; cbn [head fmap option_fmap option_map fst].
  - apply wp_ret. exists [], mid. cbn in Hc. subst. split_and!; try done. by destruct (Z.to_nat _).
  - destruct Hc as (Ho & Hz & Hc). pose proof (chain_le _ _ _ Hc) as Hle.
    assert (Hnf : frags s !! n = Some fn) by (by eapply w_mid).
    assert (Hxf : frags s !! x = Some f) by (eapply w_in; [exact HW|rewrite elem_of_app; right; right; left]).
    apply wp_bind. eapply wp_frag_end; [exact Hnf|done|]. apply wp_bind.
    eapply wp_frag_end; [exact Hxf|unfold fend in *; lia|].
    destruct (Z.leb_spec (fend f) (fend fn)) as [Hcov|Hcov].
    + apply wp_bind. change (l ++ (n, fn) :: (x, f) :: r) with (l ++ [(n, fn)] ++ (x, f) :: r) in HW, Hlen.
      unfold tree_world in HW. rewrite app_assoc in HW, Hlen. eapply w_erase; [exact HW|]. intros s1 HW1.
      apply wp_bind. eapply w_obsolete with (live := nodes_of ((l ++ [(n, fn)]) ++ r) ++ []).
      { eapply world_perm; [done|apply live_mid|exact HW1]. }
      { rewrite length_live. rewrite !length_app in *. cbn [length] in *. lia. }
      rewrite <-app_assoc. intros s2 HW2.
      eapply wp_mono; [eapply (IH l n fn r s2 (fend f) hi); try done|].
      * unfold fend in *. lia.
      * rewrite !length_app in *. cbn [length] in *. lia.
      * cbn [length] in Hf. lia.
      * cbn. intros y s' (r' & mid' & H1 & H2 & H3 & H4 & H5 & H6). exists r', mid'. split_and!; [done..| | |done|].
        -- unfold fend in *. lia.
        -- lia.
        -- rewrite H6, drop_app_ge by (rewrite length_replicate; unfold fend in *; lia).
           f_equal. rewrite length_replicate. unfold fend in *. lia.
    + apply wp_ret. exists ((x, f) :: r), mid. split_and!; try done.
      * by intros p g [= <- <-].
      * by rewrite Z.sub_diag.
Qed.

(** After it, at most one fragment is left that overlaps the new one. *)
Lemma trim_ok k l n fn d r s mid hi (Q : Z -> jffs2 -> Prop) :
  tree_world k s (l ++ (n, fn) :: r) out [] -> chain mid r hi -> mid <= fend fn -> 0 <= mid ->
  hi < 2 ^ 32 -> 0 <= fend fn < 2 ^ 32 -> Z.of_nat (length (l ++ (n, fn) :: r)) <= 2 ^ 32 -> fnode fn = Some d ->
  (forall s' r', tree_world k s' (l ++ (n, fn) :: r') out [] -> chain (fend fn) r' (Z.max hi (fend fn)) ->
     owners r' = drop (Z.to_nat (fend fn - mid)) (owners r) -> Q 0 s') ->
  wp (trim_overlapped (Some n)) s Q.
Proof.
  intros HW Hc Hm Hm0 Hhi Hn Hlen Hd HQ. unfold trim_overlapped. apply wp_bind. eapply w_fuel; [exact HW|].
  intros fuel Hf. rewrite length_app in Hf. cbn [length] in Hf.
  pose proof (length_owners _ _ _ Hc) as Hlo.
  eapply wp_mono; [eapply covered_ok; try done; lia|]. cbn.
  intros x s1 (r' & mid' & HW1 & -> & Hc' & Hm' & Hhd & Hr').
  destruct r' as [|[x f] r']; cbn [head fmap option_fmap option_map fst].
  - cbn in Hc'. subst mid'. apply wp_ret. apply (HQ s1 []); [done|cbn; lia|]. rewrite drop_ge; [done|lia].
  - destruct Hc' as (Ho & Hz & Hc'). specialize (Hhd x f eq_refl). pose proof (chain_le _ _ _ Hc') as Hle.
    assert (Hnf : frags s1 !! n = Some fn) by (by eapply w_mid).
    assert (Hxf : frags s1 !! x = Some f) by (eapply w_in; [exact HW1|rewrite elem_of_app; right; right; left]).
    apply wp_bind. eapply wp_frag_end; [exact Hnf|done|]. apply wp_bind. eapply wp_ldf; [exact Hxf|].
    destruct (Z.eqb_spec (fend fn) (fofs f)) as [He|Hne].
    + apply wp_ret. apply (HQ s1 ((x, f) :: r')); [done| |].
      * cbn [chain]. split_and!; [lia|done|]. by rewrite Z.max_l by lia.
      * rewrite Hr'. f_equal. lia.
    + apply wp_bind. eapply wp_frag_end; [exact Hxf|lia|].
      replace (u32 (fend f - fend fn)) with (fend f - fend fn) by (unfold u32; rewrite wrap_small; unfold word; lia).
      change (l ++ (n, fn) :: (x, f) :: r') with (l ++ [(n, fn)] ++ (x, f) :: r') in HW1.
      unfold tree_world in HW1. rewrite app_assoc in HW1.
      apply wp_bind. eapply w_set_in; [exact HW1|]. intros s2 HW2.
      apply wp_bind. eapply w_set_in; [exact HW2|]. cbn [fnode fsize fofs]. intros s3 HW3.
      set (g := Frag (fnode f) (fend f - fend fn) (fend fn)) in *.
      assert (HW3' : tree_world k s3 (l ++ (n, fn) :: (x, g) :: r') out []).
      { unfold tree_world. change (l ++ (n, fn) :: (x, g) :: r') with (l ++ [(n, fn)] ++ (x, g) :: r'). rewrite app_assoc.
        eapply world_perm; [done| |exact HW3]. by rewrite !live_mid. }
      apply wp_bind. eapply w_mark_any; [exact HW3'|rewrite !elem_of_app; left; right; right; left| |].
      { intros e He. eapply (live_node (l ++ [(n, fn)])) in He. rewrite <-app_assoc in He. exact He. }
      intros s4 HW4. apply wp_bind. eapply w_mark_node; [exact HW4| |exact Hd|by apply live_node|].
      { rewrite !elem_of_app. left. right. left. }
      intros s5 HW5. apply wp_ret. apply (HQ s5 ((x, g) :: r')); [done| |].
      * assert (Hg : fend g = fend f) by (unfold g, fend; cbn [fofs fsize]; lia).
        cbn [chain]. rewrite Hg. split_and!; [done|cbn; lia|]. by rewrite Z.max_l by lia.
      * replace (Z.to_nat (fend fn - mid)) with (Z.to_nat (mid' - mid) + Z.to_nat (fend fn - mid'))%nat by lia.
        rewrite <-drop_drop, <-Hr'. cbn [owners]. rewrite drop_replicate_app by (unfold fend in *; lia).
        subst g. cbn [fsize fnode]. f_equal. f_equal. unfold fend in *. lia.
Qed.

(** ** The cases of [jffs2_add_frag_to_fragtree] *)

(** The new fragment is in the tree and has taken its bytes. *)
Definition added (k : nat) (s' : jffs2) (fs : fseq) (hi : Z) (n : ptr) (fn : jffs2_node_frag) : Prop :=
  exists l r, tree_world k s' (l ++ (n, fn) :: r) out [] /\ chain 0 (l ++ (n, fn) :: r) (Z.max hi (fend fn)) /\
    owners (l ++ (n, fn) :: r) = overlay (owners fs) (Z.to_nat (fofs fn)) (Z.to_nat (fsize fn)) (fnode fn).

(** The hypotheses on the new fragment [n], which is not in the tree yet. *)
Record newcomer (fn : jffs2_node_frag) (d : ptr) : Prop := {
  nc_node : fnode fn = Some d;
  nc_ofs : 0 <= fofs fn;
  nc_size : 0 < fsize fn;
  nc_end : fend fn < 2 ^ 32;
  nc_dofs : exists dn, dnodes s0 !! d = Some dn /\ dofs dn = fofs fn }.

Lemma wp_node_ofs k s fs n fn d extra (Q : Z -> jffs2 -> Prop) :
  tree_world k s fs ((n, fn) :: out) extra -> Some d ∈ extra -> newcomer fn d -> Q (fofs fn) s -> wp (node_ofs (Some n)) s Q.
Proof.
  intros HW Hd Hn HQ. unfold node_ofs. apply wp_bind. eapply wp_ldf; [by eapply w_out|]. rewrite (nc_node _ _ Hn).
  destruct (w_dnode _ _ _ _ _ _ _ d HW) as (dn & H0 & H1 & _); [rewrite elem_of_app; by right|].
  destruct (nc_dofs _ _ Hn) as (dn' & H0' & Ho). simplify_eq. eapply wp_ldd; [exact H1|]. cbn [dofs with_frags].
  by rewrite Ho.
Qed.

Lemma no_overlapping_ok k s fs n fn d hi (Q : Z -> jffs2 -> Prop) :
  tree_world k s fs ((n, fn) :: out) [Some d] -> chain 0 fs hi -> hi <= fofs fn -> newcomer fn d ->
  (forall s', k = 0%nat -> tree_world k s' fs out [Some d] -> Q (- ENOMEM) s') ->
  (forall s', added (pred k) s' fs hi n fn -> Q 0 s') ->
  wp (no_overlapping_node (Some n) (fst <$> last fs) hi) s Q.
Proof.
  intros HW Hc Hhi Hn HN HS. pose proof (chain_le _ _ _ Hc) as Hlo. pose proof (length_owners _ _ _ Hc) as Hlen.
  pose proof Hn as [Hnd Hno Hnz Hne (dn & Hdn0 & Hdo)].
  destruct (w_dnode _ _ _ _ _ _ _ d HW) as (dn' & H0' & H1 & _); [rewrite elem_of_app; right; left|]. simplify_eq.
  eapply w_no_overlap; [exact HW|done|exact H1|done|lia|unfold fend in *; lia|..].
  { intros s' -> HW'. by apply HN. }
  intros s' hole Hgap HW'.
  assert (Hg : chain hi hole (fofs fn) /\ owners hole = replicate (Z.to_nat (fofs fn - hi)) None /\
    nodes_inv s0 live0 (nodes_of (fs ++ hole ++ [(n, fn)])) s').
  { destruct HW' as (_ & Hi & _). cbn [np_prop nodes_np] in Hi. rewrite !nodes_of_app. cbn. rewrite Hnd.
    destruct Hgap as [[-> Hz]|(h & -> & Hlt)]; cbn; unfold fend; cbn.
    - by rewrite Hz, Z.sub_diag.
    - rewrite app_nil_r. split_and!; try done; [lia..|]. eapply nodes_inv_perm; [|apply nodes_inv_more_hole; exact Hi].
      by rewrite Permutation_middle. }
  destruct Hg as (Hch & Hoh & Hi). apply HS. exists (fs ++ hole), []. rewrite <-app_assoc. split_and!.
  - destruct HW' as (H2 & _ & H3). split; [done|]. by rewrite app_nil_r.
  - rewrite Z.max_r by (unfold fend; lia). apply chain_app. exists hi. split; [done|].
    apply chain_app. by exists (fofs fn).
  - rewrite !owners_app, Hoh. cbn [owners]. rewrite app_nil_r, overlay_past by lia. repeat f_equal. lia.
Qed.

(** What trimming the fragments behind [n] gives, when the fragments before it
    have the bytes they had. *)
Lemma trimmed_added k s fs l n fn d r old mid hi (Q : Z -> jffs2 -> Prop) :
  tree_world k s (l ++ (n, fn) :: r) out [] -> chain 0 l (fofs fn) -> chain mid r hi -> mid <= fend fn -> 0 <= mid ->
  hi < 2 ^ 32 -> Z.of_nat (length (l ++ (n, fn) :: r)) <= 2 ^ 32 -> newcomer fn d ->
  owners fs = owners l ++ old ++ owners r -> Z.of_nat (length old) = mid - fofs fn ->
  (forall s', added k s' fs hi n fn -> Q 0 s') ->
  wp (trim_overlapped (Some n)) s Q.
Proof.
  intros HW Hl Hr Hm Hm0 Hhi Hlen [Hnd Hno Hnz Hne _] Hfs Hk HQ.
  pose proof (length_owners _ _ _ Hl) as Hll.
  eapply trim_ok; [exact HW|exact Hr|done|done|done| |done|exact Hnd|].
  { unfold fend in *. lia. }
  intros s' r' HW' Hc' Hr'. apply HQ. exists l, r'. split_and!; [done| |].
  - apply chain_app. exists (fofs fn). split; [done|]. cbn [chain]. done.
  - rewrite owners_app. cbn [owners]. rewrite Hfs.
    replace (Z.to_nat (fofs fn)) with (length (owners l) + 0)%nat by lia. rewrite overlay_split by lia.
    rewrite take_0, app_nil_l, Nat.add_0_l. rewrite drop_app_ge by (unfold fend in *; lia). rewrite Hr'. do 3 f_equal.
    unfold fend in *. lia.
Qed.

Lemma chain_mid l x f r hi : chain 0 (l ++ (x, f) :: r) hi ->
  chain 0 l (fofs f) /\ 0 < fsize f /\ chain (fend f) r hi /\ 0 <= fofs f /\ fend f <= hi.
Proof.
  intros (mid & Hl & <- & Hz & Hr)%chain_app. split_and!; [done..| |]; by eapply chain_le.
Qed.

Lemma later_frags mid r hi fx p f : chain mid r hi -> fofs fx < mid -> (p, f) ∈ r -> fofs fx < fofs f.
Proof. intros Hc Hlt Hin. destruct (chain_bounds _ _ _ _ _ Hc Hin) as (? & _). lia. Qed.

Lemma u32_id z : 0 <= z < 2 ^ 32 -> u32 z = z.
Proof. apply Z.mod_small. Qed.

Lemma add_inside_ok k s l x f r n fn d hi (Q : Z -> jffs2 -> Prop) :
  let fs := l ++ (x, f) :: r in
  tree_world k s fs ((n, fn) :: out) [Some d] -> chain 0 fs hi -> hi < 2 ^ 32 -> fofs f < fofs fn < fend f -> newcomer fn d ->
  (forall s', k = 0%nat -> tree_world k s' fs ((n, fn) :: out) [Some d] -> Q (- ENOMEM) s') ->
  (forall s', added (pred k) s' fs hi n fn -> Q 0 s') ->
  wp (add_inside (Some n) (Some x)) s Q.
Proof.
  intros fs HW Hc Hhi Hin Hn HN HS. pose proof Hn as [Hnd Hno Hnz Hne _].
  destruct (chain_mid _ _ _ _ _ Hc) as (Hl & Hz & Hr & Hf0 & Hfe).
  pose proof (length_chain _ _ _ Hl) as Hll. pose proof (length_chain _ _ _ Hr) as Hlr.
  assert (Hlen : Z.of_nat (length fs) <= hi - (fsize f - 1)).
  { unfold fs. rewrite length_app. cbn [length]. unfold fend in *. lia. }
  unfold add_inside. apply wp_bind. eapply w_mark_node; [exact HW| |exact Hnd| |].
  { rewrite elem_of_app. right. left. }
  { rewrite elem_of_app. right. left. }
  intros s1 HW1. apply wp_bind. eapply w_mark_any; [exact HW1| | |].
  { rewrite elem_of_app. left. unfold fs. rewrite elem_of_app. right. left. }
  { intros e He. by eapply live_node. }
  intros s2 HW2.
  assert (Hnf : frags s2 !! n = Some fn) by by eapply w_out.
  assert (Hxf : frags s2 !! x = Some f) by by eapply w_mid.
  apply wp_bind. eapply wp_ldf; [exact Hnf|]. apply wp_bind. eapply wp_ldf; [exact Hxf|].
  apply wp_bind. eapply wp_frag_end; [exact Hxf|unfold fend in *; lia|].
  apply wp_bind. eapply wp_frag_end; [exact Hnf|unfold fend in *; lia|].
  rewrite (u32_id (fofs fn - fofs f)) by lia.
  set (f1 := Frag (fnode f) (fofs fn - fofs f) (fofs f)).
  assert (Hl1 : chain 0 (l ++ [(x, f1)]) (fofs fn)).
  { apply chain_app. exists (fofs f). split; [done|]. unfold f1. cbn [chain]. unfold fend. cbn. split_and!; lia. }
  destruct (Z.ltb_spec (fend fn) (fend f)) as [Hsplit|Hover].
  - apply wp_bind. eapply wp_ldf; [exact Hxf|]. rewrite u32_id by (unfold fend in *; lia).
    apply wp_bind. eapply w_new; [exact HW2|..].
    { intros s3 -> HW3. apply wp_ret. by apply HN. }
    intros s3 p HW3. set (f2 := Frag (fnode f) (fend f - fend fn) (fend fn)) in *.
    apply wp_bind. eapply w_more; [exact HW3|intros e He; by eapply live_node| |].
    { rewrite length_live. cbn [length]. fold fs. unfold fend in *. lia. }
    intros s4 HW4. apply wp_bind. eapply w_set_in; [exact HW4|]. intros s5 HW5. fold f1 in HW5.
    apply wp_seq. eapply w_insert_after.
    { eapply world_perm; [apply Permutation_swap|done|exact HW5]. }
    { cbn. lia. }
    { intros q g. eapply later_frags; [exact Hr|lia]. }
    intros s6 HW6. apply wp_seq.
    change (l ++ (x, f1) :: (n, fn) :: r) with (l ++ [(x, f1)] ++ (n, fn) :: r) in HW6. rewrite app_assoc in HW6.
    eapply w_insert_after; [exact HW6|cbn; unfold fend; lia| |].
    { intros q g. eapply later_frags; [exact Hr|cbn; lia]. }
    intros s7 HW7. apply wp_ret, HS. exists (l ++ [(x, f1)]), ((p, f2) :: r). split_and!.
    + eapply world_perm; [done| |exact HW7]. unfold nodes_of, fs. rewrite <-!app_assoc. cbn [app].
      rewrite !fmap_app, !fmap_cons. cbn [snd f1 f2 fnode]. rewrite Hnd, app_nil_r, <-app_assoc.
      rewrite Permutation_middle. apply Permutation_app_head, perm_skip.
      by rewrite <-Permutation_cons_append.
    + apply chain_app. exists (fofs fn). split; [done|]. cbn [chain]. unfold f2 at 1 2. cbn [fofs fsize].
      assert (He2 : fend f2 = fend f) by (unfold f2, fend; cbn; lia). rewrite He2, Z.max_l by lia. split_and!; [done..|lia|done].
    + unfold fs. rewrite !owners_app. cbn [owners]. rewrite app_nil_r. unfold f1, f2. cbn [fsize fnode].
      replace (Z.to_nat (fofs fn)) with (length (owners l) + Z.to_nat (fofs fn - fofs f))%nat
        by (rewrite (length_owners _ _ _ Hl); lia).
      rewrite overlay_split by (rewrite length_app, length_replicate; unfold fend in *; lia).
      rewrite take_replicate_app, drop_replicate_app by (unfold fend in *; lia). rewrite <-app_assoc.
      do 5 f_equal. unfold fend in *. lia.
  - apply (world_less _ _ (pred k)) in HW2; [|lia]. apply wp_bind. eapply w_set_in; [exact HW2|]. intros s3 HW3. fold f1 in HW3. apply wp_seq.
    eapply w_insert_after; [exact HW3|cbn; lia| |].
    { intros q g. eapply later_frags; [exact Hr|lia]. }
    intros s4 HW4. change (l ++ (x, f1) :: (n, fn) :: r) with (l ++ [(x, f1)] ++ (n, fn) :: r) in HW4. rewrite app_assoc in HW4.
    eapply (trimmed_added (pred k) s4 fs (l ++ [(x, f1)]) n fn d r (replicate (Z.to_nat (fend f - fofs fn)) (fnode f)) (fend f) hi);
      try done; [| | | |].
    + eapply world_perm; [done| |exact HW4]. rewrite (live_mid (l ++ [(x, f1)])). unfold nodes_of, fs.
      rewrite <-app_assoc, !fmap_app, !fmap_cons. cbn [snd f1 fnode app]. rewrite Hnd, app_nil_r.
      by rewrite <-Permutation_cons_append.
    + unfold fend in *. lia.
    + unfold fs in Hlen. rewrite !length_app in *. cbn [length] in *. lia.
    + unfold fs. rewrite !owners_app. cbn [owners]. rewrite app_nil_r. unfold f1. cbn [fsize fnode].
      rewrite <-app_assoc. f_equal. rewrite app_assoc, <-replicate_add. do 2 f_equal. unfold fend in *. lia.
    + rewrite length_replicate. lia.
Qed.

Lemma add_replacing_ok k s l x f r n fn d hi (Q : Z -> jffs2 -> Prop) :
  let fs := l ++ (x, f) :: r in
  tree_world k s fs ((n, fn) :: out) [Some d] -> chain 0 fs hi -> hi < 2 ^ 32 -> fofs f = fofs fn -> newcomer fn d ->
  (forall s', added (pred k) s' fs hi n fn -> Q 0 s') ->
  wp (add_replacing (Some n) (Some x)) s Q.
Proof.
  intros fs HW Hc Hhi Ho Hn HS. pose proof Hn as [Hnd Hno Hnz Hne _].
  destruct (chain_mid _ _ _ _ _ Hc) as (Hl & Hz & Hr & Hf0 & Hfe).
  pose proof (length_chain _ _ _ Hc) as Hlen.
  apply (world_less _ _ (pred k)) in HW; [|lia]. unfold add_replacing. apply wp_bind. eapply w_replace; [exact HW|]. intros s1 HW1.
  assert (Hnf : frags s1 !! n = Some fn) by by eapply w_mid.
  assert (Hxf : frags s1 !! x = Some f) by by eapply w_out.
  apply wp_bind. eapply wp_frag_end; [exact Hxf|unfold fend in *; lia|].
  apply wp_bind. eapply wp_frag_end; [exact Hnf|unfold fend in *; lia|].
  assert (Hlive : nodes_of fs ++ [Some d] ≡ₚ fnode f :: nodes_of (l ++ (n, fn) :: r) ++ []).
  { unfold fs. rewrite !live_mid, Hnd, app_nil_r. apply perm_skip. by rewrite <-Permutation_cons_append. }
  destruct (Z.leb_spec (fend f) (fend fn)) as [Hover|Hshort].
  - apply wp_bind. eapply w_obsolete.
    { eapply world_perm; [done|exact Hlive|exact HW1]. }
    { rewrite length_live. unfold fs in Hlen. rewrite !length_app in *. cbn [length] in *. lia. }
    intros s2 HW2.
    eapply (trimmed_added (pred k) s2 fs l n fn d r (replicate (Z.to_nat (fsize f)) (fnode f)) (fend f) hi); try done.
    + by rewrite <-Ho.
    + unfold fend in *. lia.
    + unfold fs in Hlen. rewrite !length_app in *. cbn [length] in *. lia.
    + unfold fs. by rewrite owners_app.
    + rewrite length_replicate. unfold fend. lia.
  - apply wp_bind. eapply wp_ldf; [exact Hxf|]. apply wp_bind. eapply wp_ldf; [exact Hxf|].
    apply wp_bind. eapply wp_ldf; [exact Hnf|]. rewrite !u32_id by (unfold fend in *; lia).
    apply wp_bind. eapply w_set_out; [exact HW1|]. intros s2 HW2. apply wp_bind. eapply w_set_out; [exact HW2|].
    intros s3 HW3. cbn [fnode fsize fofs] in HW3. set (f2 := Frag _ _ _) in HW3.
    assert (He2 : fend f2 = fend f) by (unfold f2, fend; cbn; lia).
    apply wp_seq. eapply w_insert_after; [exact HW3|cbn; lia| |].
    { intros q g. eapply later_frags; [exact Hr|cbn; unfold fend in *; lia]. }
    intros s4 HW4. apply wp_ret, HS. exists l, ((x, f2) :: r). split_and!.
    + eapply world_perm; [done| |exact HW4]. rewrite Hlive, !live_mid. cbn [f2 fnode]. apply Permutation_swap.
    + apply chain_app. exists (fofs fn). split; [by rewrite <-Ho|]. cbn [chain]. rewrite He2, Z.max_l by lia.
      split_and!; [done..| | |done]; cbn; unfold fend in *; lia.
    + unfold fs. rewrite !owners_app. cbn [owners]. unfold f2. cbn [fsize fnode].
      replace (Z.to_nat (fofs fn)) with (length (owners l) + 0)%nat by (rewrite (length_owners _ _ _ Hl); lia).
      rewrite overlay_split, take_0, app_nil_l, Nat.add_0_l by lia.
      rewrite drop_replicate_app by (unfold fend in *; lia). do 4 f_equal. unfold fend in *. lia.
Qed.

(** ** The whole routine *)

(** It adds the fragment, or fails for want of memory: then the tree is as it
    was, and the new fragment is either freed or left outside of the tree. *)
Lemma add_frag_ok k s fs n fn d hi (Q : Z -> jffs2 -> Prop) :
  tree_world k s fs ((n, fn) :: out) [Some d] -> chain 0 fs hi -> hi < 2 ^ 32 -> newcomer fn d ->
  (forall s' out', k = 0%nat -> tree_world k s' fs out' [Some d] ->
     (hi <= fofs fn /\ out' = out \/ fofs fn < hi /\ out' = (n, fn) :: out) -> Q (- ENOMEM) s') ->
  (forall s', added (pred k) s' fs hi n fn -> Q 0 s') ->
  wp (jffs2_add_frag_to_fragtree (Some n)) s Q.
Proof.
  intros HW Hc Hhi Hn HN HS. pose proof Hn as [Hnd Hno Hnz Hne _]. unfold jffs2_add_frag_to_fragtree.
  pose proof (chain_le _ _ _ Hc) as H0. assert (Hw : 0 <= fofs fn < 2 ^ 32) by (unfold fend in *; lia).
  apply wp_bind. eapply wp_node_ofs; [exact HW|left|done|].
  apply wp_bind. eapply w_lookup; [exact HW|exact Hc|done|done|]. intros x Hx.
  assert (Hnf : frags s !! n = Some fn) by by eapply w_out.
  unfold looked_up in Hx. case_decide as Hin.
  - destruct Hx as (l & y & f & r & -> & Hf & ->). pose proof (chain_mid _ _ _ _ _ Hc) as (_ & Hz & _ & Hf0 & Hfe).
    assert (Hyf : frags s !! y = Some f) by by eapply w_mid.
    apply wp_bind. eapply wp_frag_end; [exact Hyf|unfold fend in *; lia|].
    apply wp_bind. eapply wp_ldf; [exact Hnf|]. destruct (Z.leb_spec (fend f) (fofs fn)); [lia|].
    apply wp_bind. eapply wp_ldf; [exact Hyf|]. destruct (Z.ltb_spec (fofs f) (fofs fn)).
    + eapply add_inside_ok; [exact HW|exact Hc|done|lia|exact Hn| |exact HS].
      intros s' Hk HW'. eapply HN; [exact Hk|exact HW'|auto].
    + eapply add_replacing_ok; [exact HW|exact Hc|done|lia|exact Hn|exact HS].
  - assert (Hx' : x = fst <$> last fs) by (rewrite Hx; by destruct (last fs) as [[]|]). clear Hx.
    apply wp_bind. eapply wp_lastend; [apply HW|exact Hc|done|done|]. subst x.
    apply wp_bind. eapply wp_ldf; [exact Hnf|]. destruct (Z.leb_spec hi (fofs fn)); [|lia].
    assert (Hno_ok : forall s1, tree_world k s1 fs ((n, fn) :: out) [Some d] -> wp (no_overlapping_node (Some n) (fst <$> last fs) hi) s1 Q).
    { intros s1 HW1. eapply no_overlapping_ok; [exact HW1|exact Hc|done|exact Hn| |exact HS].
      intros s' Hk HW'. eapply HN; [exact Hk|exact HW'|auto]. }
    apply wp_bind. destruct (negb (hi =? 0) && _) eqn:Epage; [|apply wp_ret; by apply Hno_ok].
    apply andb_prop in Epage as [Hpos _].
    destruct fs as [|[y f] l _] using rev_ind; [by cbn in Hc; subst hi|]. rewrite last_snoc in *.
    apply wp_bind. eapply w_mark_any; [exact HW| | |].
    { rewrite !elem_of_app. left. right. left. }
    { intros e He. by eapply live_node. }
    intros s1 HW1. eapply w_mark_node; [exact HW1| |exact Hnd| |].
    { rewrite elem_of_app. right. left. }
    { rewrite elem_of_app. right. left. }
    intros s2 HW2. by apply Hno_ok.
Qed.
End Add.
