(* ===== verification/FragFile.v ===== *)
(** * Files in JFFS2: adding nodes and truncation

    [frag_ok] is the invariant between two calls.  The exported routines of
    [Fragtree] are shown to act on the map from bytes to nodes that the tree
    stands for, and to keep and drop nodes as this map does. *)

From stdpp Require Import gmap.
From S2P Require Import Prelude RbSpec Rbtree RbOps Fragtree FragRep FragNodes FragAdd.

(** ** The invariant *)

(** The tree holds the fragments [fs], which cover the file from 0 to [hi];
    [out] are allocated elsewhere; every node counts its fragments. *)
Record frag_ok (s : jffs2) (fs out : fseq) (hi : Z) : Prop := {
  fo_tree : tree_part s fs out;
  fo_chain : chain 0 fs hi;
  fo_hi : hi < 2 ^ 32;
  fo_nodes : forall d, Some d ∈ nodes_of fs -> exists dn,
    dnodes s !! d = Some dn /\ dfrags dn = Z.of_nat (refs d (nodes_of fs)) /\ is_Some (raws s !! draw dn);
  fo_slab : slab_fresh s }.

Lemma nodes_of_owners lo fs hi n : chain lo fs hi -> n ∈ nodes_of fs <-> n ∈ owners fs.
Proof.
  revert lo. induction fs as [|[p f] fs IH]; intros lo; cbn [chain]; [done|].
  intros (_ & Hz & Hc). unfold nodes_of in *. rewrite fmap_cons, elem_of_cons, (IH _ Hc). cbn [owners snd].
  rewrite elem_of_app, elem_of_replicate. split; intros [H|H]; auto; [|left; apply H].
  left. split; [done|]. lia.
Qed.

Definition same_node (dn dn' : jffs2_full_dnode) : Prop :=
  draw dn' = draw dn /\ dofs dn' = dofs dn /\ dsize dn' = dsize dn.

(** Between [s] and [s'] the bytes [ow] of the file became [ow']: the nodes
    that had a byte and have none are marked obsolete, once, and freed; the
    nodes with a byte stay; the other nodes are left alone. *)
Record nodes_follow (s s' : jffs2) (ow ow' : list (option ptr)) : Prop := {
  nf_dead : exists dead rs, NoDup dead /\ (forall d, d ∈ dead <-> Some d ∈ ow /\ Some d ∉ ow') /\
    (forall d, d ∈ dead -> dnodes s' !! d = None) /\ obsoleted s' = obsoleted s ++ rs /\
    Forall2 (fun d r => exists dn, dnodes s !! d = Some dn /\ draw dn = r) dead rs;
  nf_live : forall d, Some d ∈ ow' -> exists dn dn', dnodes s !! d = Some dn /\ dnodes s' !! d = Some dn' /\ same_node dn dn';
  nf_other : forall d, Some d ∉ ow -> Some d ∉ ow' -> dnodes s' !! d = dnodes s !! d;
  nf_raws : forall r, is_Some (raws s' !! r) <-> is_Some (raws s !! r) }.

(** ** From the invariant to [world] and back *)

Lemma refs_zero d l : refs d l = 0%nat <-> Some d ∉ l.
Proof. rewrite <-refs_in. lia. Qed.

Lemma frag_ok_inv s fs out hi : frag_ok s fs out hi -> nodes_inv s (nodes_of fs) (nodes_of fs) s.
Proof.
  intros [Ht Hc Hhi Hn Hs]. split.
  - intros d Hd. split; [done|]. destruct (Hn d) as (dn & H1 & H2 & H3); [by apply refs_in|].
    exists dn. split; [done|]. split; [|done]. rewrite H1. destruct dn; cbn in *. by subst.
  - exists []. split_and!; [constructor| | |].
    + intros d. rewrite elem_of_nil. lia.
    + intros d. by rewrite elem_of_nil.
    + exists []. by rewrite app_nil_r.
  - done.
  - done.
Qed.

Lemma frag_ok_world s fs out hi k : frag_ok s fs out hi -> supply k s -> tree_world s (nodes_of fs) k s fs out [].
Proof.
  intros Hok Hk. split; [apply Hok|]. split; [|split; [apply Hok|done]]. rewrite app_nil_r. by eapply frag_ok_inv.
Qed.

Lemma world_frag_ok s0 live0 k s fs out hi :
  tree_world s0 live0 k s fs out [] -> chain 0 fs hi -> hi < 2 ^ 32 -> frag_ok s fs out hi /\ supply k s.
Proof.
  unfold tree_world. rewrite app_nil_r. intros (Ht & Hn & Hs & Hk) Hc Hhi. split; [|done]. split; [done..| |done].
  intros d Hd%refs_in. destruct (ni_live _ _ _ _ Hn d Hd) as (_ & dn & H0 & H1 & H2). eexists. split; [exact H1|]. done.
Qed.

(** What the invariant of the nodes says about the file: [d] has joined the
    nodes that were there. *)
Lemma inv_follow s s1 s' fs hi fs' hi' extra :
  nodes_inv s1 (nodes_of fs ++ extra) (nodes_of fs') s' -> chain 0 fs hi -> chain 0 fs' hi' ->
  (forall d, Some d ∈ extra -> Some d ∈ nodes_of fs') ->
  (forall d dn1, dnodes s1 !! d = Some dn1 -> exists dn, dnodes s !! d = Some dn /\ same_node dn dn1) ->
  (forall d, Some d ∉ extra -> dnodes s1 !! d = dnodes s !! d) -> obsoleted s1 = obsoleted s ->
  (forall r, is_Some (raws s1 !! r) <-> is_Some (raws s !! r)) ->
  nodes_follow s s' (owners fs) (owners fs').
Proof.
  intros [Hl (dead & Hnd & Hd & Hdn & rs & Hob & Hrs) Ho Hr] Hc Hc' Hex H1 H1' Hob1 Hr1.
  pose proof (fun n => nodes_of_owners _ _ _ n Hc) as Ho1. pose proof (fun n => nodes_of_owners _ _ _ n Hc') as Ho2.
  split.
  - exists dead, rs. split_and!; [done| |done|by rewrite Hob, Hob1|].
    + intros d. rewrite Hd, refs_zero, refs_in, elem_of_app, Ho2, Ho1. split; [|tauto].
      intros [[H|H] Hn]; [done|]. by apply Hex, Ho2 in H.
    + eapply Forall2_impl; [exact Hrs|]. intros d r (dn1 & Hdn1 & <-). destruct (H1 d dn1 Hdn1) as (dn & Hdn' & Hs & _).
      by exists dn.
  - intros d Hdo. apply Ho2, refs_in in Hdo. destruct (Hl d Hdo) as (_ & dn1 & H0 & H2 & _).
    destruct (H1 d dn1 H0) as (dn & Hdn' & Hs). exists dn. eexists. split; [done|]. split; [exact H2|]. done.
  - intros d Hd1 Hd2. rewrite <-Ho1 in Hd1. rewrite <-Ho2 in Hd2.
    assert (He : Some d ∉ extra) by (intros H; by apply Hd2, Hex).
    rewrite <-H1' by done. apply Ho. apply refs_zero. by rewrite elem_of_app; intros [?|?].
  - intros r. by rewrite Hr, Hr1.
Qed.

(** ** Adding a node *)

Lemma sharing_ok s0 live0 out k s l n fn d r hi (Q : unit -> jffs2 -> Prop) :
  tree_world s0 live0 k s (l ++ (n, fn) :: r) out [] -> chain 0 (l ++ (n, fn) :: r) hi -> hi < 2 ^ 32 ->
  fnode fn = Some d -> (forall s', tree_world s0 live0 k s' (l ++ (n, fn) :: r) out [] -> Q tt s') ->
  wp (mark_sharing (Some d) (Some n)) s Q.
Proof.
  intros HW Hc Hhi Hd HQ. destruct (chain_mid _ _ _ _ _ Hc) as (Hl & Hz & Hr & Hf0 & Hfe).
  assert (Hmark : forall s1 (k' : F unit) (Q' : unit -> jffs2 -> Prop), tree_world s0 live0 k s1 (l ++ (n, fn) :: r) out [] ->
    (forall s2, tree_world s0 live0 k s2 (l ++ (n, fn) :: r) out [] -> wp k' s2 Q') ->
    wp (r ← ldd draw (Some d); mark_ref_normal r;; k') s1 Q').
  { intros s1 k' Q' HW1 Hk. destruct (w_dnode _ _ _ _ _ _ _ d HW1) as (dn & _ & H1 & H2); [by apply live_node|].
    apply wp_bind. eapply wp_ldd; [exact H1|]. apply wp_bind. eapply w_mark_ref; [exact HW1|done|]. exact Hk. }
  assert (Hany : forall s1 x f (Q' : unit -> jffs2 -> Prop), tree_world s0 live0 k s1 (l ++ (n, fn) :: r) out [] ->
    (x, f) ∈ l ++ (n, fn) :: r ->
    (forall s2, tree_world s0 live0 k s2 (l ++ (n, fn) :: r) out [] -> Q' tt s2) -> wp (mark_any_normal (Some x)) s1 Q').
  { intros s1 x f Q' HW1 Hin HQ'. eapply w_mark_any; [exact HW1|rewrite elem_of_app; by left| |exact HQ'].
    intros e He. rewrite app_nil_r. apply list_elem_of_fmap. by exists (x, f). }
  unfold mark_sharing. apply wp_bind. eapply wp_ldf; [by eapply w_mid|].
  assert (Hnext : forall s1, tree_world s0 live0 k s1 (l ++ (n, fn) :: r) out [] ->
    wp (ne ← frag_end (Some n);
        if negb (Z.land ne (PAGE_CACHE_SIZE - 1) =? 0) then
          next ← frag_next (Some n);
          match next with
          | Some _ => r ← ldd draw (Some d); mark_ref_normal r;; mark_any_normal next
          | None => retF tt
          end
        else retF tt) s1 Q).
  { intros s1 HW1. apply wp_bind. eapply wp_frag_end; [by eapply w_mid|unfold fend in *; lia|].
    destruct (negb _); [|by apply wp_ret, HQ].
    apply wp_bind. eapply w_next; [exact HW1|]. destruct r as [|[y g] r]; [by apply wp_ret, HQ|].
    cbn [head fmap option_fmap option_map fst]. apply Hmark; [done|]. intros s2 HW2.
    eapply Hany; [exact HW2| |exact HQ]. rewrite elem_of_app. right. right. left. }
  apply wp_bind. destruct (negb _) eqn:Ep; [|by apply wp_ret, Hnext].
  apply wp_bind. eapply w_prev; [exact HW|].
  destruct l as [|[y g] l _] using rev_ind.
  { cbn in Hl. rewrite <-Hl in Ep. done. }
  rewrite last_snoc. cbn [fmap option_fmap option_map fst]. apply Hmark; [done|]. intros s1 HW1.
  eapply Hany; [exact HW1| |exact Hnext]. rewrite !elem_of_app. left. right. left.
Qed.

(** What adding a node of [dsize] bytes at [dofs] may come to. *)
Definition add_result (s s' : jffs2) (fs out : fseq) (hi : Z) (d : ptr) (dn : jffs2_full_dnode) (k : nat) (ret : Z) : Prop :=
  (ret = 0 /\ supply (k - 2) s' /\ exists fs', frag_ok s' fs' out (Z.max hi (dofs dn + dsize dn)) /\
     owners fs' = overlay (owners fs) (Z.to_nat (dofs dn)) (Z.to_nat (dsize dn)) (Some d) /\
     nodes_follow s s' (owners fs) (owners fs')) \/
  (ret = - ENOMEM /\ (k < 2)%nat /\ obsoleted s' = obsoleted s /\
   exists out', frag_ok s' fs out' hi /\ (out' = out \/ dofs dn < hi /\ exists p, out' = (p, Frag (Some d) (dsize dn) (dofs dn)) :: out)).

(** While no reference goes for good, nothing is marked obsolete. *)
Lemma inv_no_dead s0 live0 live s :
  nodes_inv s0 live0 live s -> (forall d, Some d ∈ live0 -> Some d ∈ live) -> obsoleted s = obsoleted s0.
Proof.
  intros Hi Hsub. destruct (ni_dead _ _ _ _ Hi) as (dead & _ & Hde & _ & rs & -> & Hrs).
  destruct dead as [|e dead]; [inversion Hrs; by rewrite app_nil_r|]. exfalso.
  destruct (proj1 (Hde e) ltac:(left)) as [H1%refs_in H2%refs_zero]. auto.
Qed.

(** With the references of the start, the nodes are those of the start. *)
Lemma inv_same_nodes s fs out hi s1 :
  frag_ok s fs out hi -> nodes_inv s (nodes_of fs) (nodes_of fs) s1 -> forall e, dnodes s1 !! e = dnodes s !! e.
Proof.
  intros Hok Hi e. destruct (decide (Some e ∈ nodes_of fs)) as [Hin|Hin].
  - apply refs_in in Hin as Hr. destruct (ni_live _ _ _ _ Hi e Hr) as (_ & dne & H0 & H1 & _).
    destruct (fo_nodes _ _ _ _ Hok e Hin) as (dn0 & H0' & Hc0 & _). rewrite H1, H0'.
    assert (dn0 = dne) as -> by congruence. destruct dne; cbn in *. by subst.
  - apply refs_zero in Hin. by apply (ni_other _ _ _ _ Hi e).
Qed.

(** Counting starts anew with one reference to a node that had none. *)
Lemma inv_start s s1 fs out hi d dn :
  frag_ok s fs out hi -> (forall e, dnodes s1 !! e = dnodes s !! e) -> dnodes s !! d = Some dn -> is_Some (raws s !! draw dn) ->
  (forall r, is_Some (raws s1 !! r) <-> is_Some (raws s !! r)) -> Some d ∉ nodes_of fs ->
  let s2 := set_dnodes (<[d := with_frags 1 dn]> (dnodes s1)) s1 in
  nodes_inv s2 (nodes_of fs ++ [Some d]) (nodes_of fs ++ [Some d]) s2.
Proof.
  intros Hok Hs1 Hdn Hraw Hr Hd s2. split.
  - intros e He. split; [done|]. apply refs_in, elem_of_app in He as [He|He].
    + assert (Hne : e <> d) by by intros ->. destruct (fo_nodes _ _ _ _ Hok e He) as (dne & H0 & H1 & H2).
      assert (Hs2 : dnodes s2 !! e = Some dne) by (unfold s2; cbn [dnodes set_dnodes]; by rewrite lookup_insert_ne, Hs1).
      exists dne. split; [done|]. rewrite refs_app, refs_cons, decide_False by congruence. cbn [refs filter length].
      rewrite Nat.add_0_r. split; [|by apply Hr]. rewrite Hs2. destruct dne; cbn in *. by subst.
    + apply list_elem_of_singleton in He as [= ->]. exists (with_frags 1 dn).
      assert (Hs2 : dnodes s2 !! d = Some (with_frags 1 dn)) by apply lookup_insert_eq. split; [done|].
      apply refs_zero in Hd. rewrite refs_app, refs_cons, decide_True, Hd by done. split; [done|]. by apply Hr.
  - exists []. split_and!; [constructor| | |].
    + intros e. rewrite elem_of_nil. lia.
    + intros e. by rewrite elem_of_nil.
    + exists []. by rewrite app_nil_r.
  - done.
  - done.
Qed.

Lemma add_full_spec s fs out hi d dn k :
  frag_ok s fs out hi -> supply k s -> dnodes s !! d = Some dn -> is_Some (raws s !! draw dn) -> Some d ∉ owners fs ->
  0 <= dofs dn -> 0 < dsize dn -> dofs dn + dsize dn < 2 ^ 32 ->
  wp (jffs2_add_full_dnode_to_inode (Some d)) s (fun ret s' => add_result s s' fs out hi d dn k ret).
Proof.
  intros Hok Hk Hdn Hraw Hd Hdo Hdz Hde. pose proof Hok as [Ht Hc Hhi Hn Hs].
  assert (Hd' : Some d ∉ nodes_of fs) by by rewrite nodes_of_owners.
  unfold jffs2_add_full_dnode_to_inode. apply wp_bind. eapply wp_ldd; [exact Hdn|].
  destruct (Z.eqb_spec (dsize dn) 0) as [?|_]; [lia|]. apply wp_bind. eapply wp_ldd; [exact Hdn|].
  apply wp_bind. eapply w_new; [exact (frag_ok_world _ _ _ _ _ Hok Hk)|..].
  { intros s1 -> HW1. apply wp_ret. right. destruct (world_frag_ok _ _ _ _ _ _ _ HW1 Hc Hhi) as [Hok1 _].
    rewrite app_nil_r in HW1. destruct HW1 as (_ & Hi1 & _).
    split; [done|]. split; [lia|]. split; [by apply (inv_no_dead _ _ _ _ Hi1)|eauto]. }
  intros s1 n HW1. rewrite app_nil_r in HW1. destruct HW1 as (Ht1 & Hi1 & Hs1).
  pose proof (inv_same_nodes _ _ _ _ _ Hok Hi1) as Hsame1. pose proof (ni_raws _ _ _ _ Hi1) as Hraw1.
  assert (Hob1 : obsoleted s1 = obsoleted s) by by apply (inv_no_dead _ _ _ _ Hi1).
  apply wp_bind. eapply wp_st_obj; [by rewrite Hsame1|].
  pose proof (inv_start s s1 fs out hi d dn Hok Hsame1 Hdn Hraw Hraw1 Hd') as Hi2. cbn zeta in Hi2.
  change (Dnode (draw dn) (dofs dn) (dsize dn) 1) with (with_frags 1 dn).
  set (s2 := set_dnodes _ s1) in *. set (fn := Frag (Some d) (dsize dn) (dofs dn)) in *.
  assert (Hd2 : dnodes s2 !! d = Some (with_frags 1 dn)) by apply lookup_insert_eq.
  assert (Hother : forall e, e <> d -> dnodes s2 !! e = dnodes s !! e).
  { intros e He. unfold s2. cbn [dnodes set_dnodes]. by rewrite lookup_insert_ne. }
  assert (HW2 : tree_world s2 (nodes_of fs ++ [Some d]) (pred k) s2 fs ((n, fn) :: out) [Some d]).
  { split; [by apply (tree_part_nodes s1)|]. split; [exact Hi2|exact Hs1]. }
  assert (Hnew : newcomer s2 fn d).
  { split; cbn; [done..| |]; [unfold fend; cbn; lia|]. by exists (with_frags 1 dn). }
  apply wp_bind. eapply add_frag_ok; [exact HW2|exact Hc|done|exact Hnew| |].
  - intros s3 out' Hk0 HW3 Hout. apply wp_ret. right. split; [done|]. split; [lia|].
    destruct HW3 as (Ht3 & Hi3 & Hs3 & _). split; [by rewrite (inv_no_dead _ _ _ _ Hi3)|]. exists out'. split.
    + split; [done..| |done]. intros e He. assert (e <> d) by by intros ->.
      assert (Hr : refs e (nodes_of fs ++ [Some d]) = refs e (nodes_of fs)).
      { rewrite refs_app, refs_cons, decide_False by congruence. cbn. lia. }
      destruct (ni_live _ _ _ _ Hi3 e) as (_ & dne & _ & H1 & H2); [rewrite Hr; by apply refs_in|].
      rewrite Hr in H1. eexists. split; [exact H1|]. done.
    + destruct Hout as [[_ ->]|[Hlt ->]]; [auto|]. right. split; [done|]. by exists n.
  - intros s3 (l & r & HW3 & Hc3 & Ho3). cbn [Z.eqb negb]. apply wp_bind.
    eapply sharing_ok; [exact HW3|exact Hc3|unfold fend in *; cbn in *; lia|done|]. intros s4 HW4. apply wp_ret. left.
    split; [done|]. destruct (world_frag_ok _ _ _ _ _ _ _ HW4 Hc3) as [Hok4 Hk4]; [unfold fend; cbn; lia|].
    split; [intros i Hi; apply Hk4; lia|]. exists (l ++ (n, fn) :: r). split; [exact Hok4|]. split; [exact Ho3|].
    destruct HW4 as (_ & Hi4 & _). rewrite app_nil_r in Hi4.
    eapply (inv_follow s s2); [exact Hi4|exact Hc|exact Hc3| | | |exact Hob1|exact Hraw1].
    + intros e [= ->]%list_elem_of_singleton. unfold nodes_of. rewrite fmap_app, elem_of_app, fmap_cons. right. left.
    + intros e dn1 He. destruct (decide (e = d)) as [->|Hne].
      * rewrite Hd2 in He. injection He as <-. by exists dn.
      * rewrite Hother in He by done. by exists dn1.
    + intros e He. apply Hother. intros ->. apply He. left.
Qed.

(** ** Truncation *)

Section Truncate.
Context (s0 : jffs2) (live0 : live_list) (out : fseq) (k : nat) (size : Z).
Hypothesis size_word : 0 <= size < 2 ^ 32.
Abbreviation TW s fs := (tree_world s0 live0 k s fs out []).

Lemma truncate_loop_ok fuel : forall r l s mid hi (Q : unit -> jffs2 -> Prop),
  TW s (l ++ r) -> chain mid r hi -> size <= mid -> 0 <= mid -> hi < 2 ^ 32 -> Z.of_nat (length (l ++ r)) <= 2 ^ 32 ->
  (length r < fuel)%nat -> (forall s', TW s' l -> Q tt s') -> wp (truncate_loop fuel (fst <$> head r) size) s Q.
Proof.
  induction fuel as [|fuel IH]; intros r l s mid hi Q HW Hc Hm Hm0 Hhi Hlen Hf HQ; [lia|]. cbn [truncate_loop].
  destruct r as [|[x f] r]; cbn [head fmap option_fmap option_map fst].
  - apply wp_ret, HQ. by rewrite app_nil_r in HW.
  - destruct Hc as (Ho & Hz & Hc). apply wp_bind. eapply wp_ldf; [by eapply w_mid|].
    destruct (Z.leb_spec size (fofs f)); [|lia].
    apply wp_bind. eapply w_next; [exact HW|]. apply wp_bind. eapply w_erase; [exact HW|]. intros s1 HW1.
    apply wp_bind. eapply w_obsolete with (live := nodes_of (l ++ r) ++ []).
    { eapply world_perm; [done|apply live_mid|exact HW1]. }
    { rewrite length_live. rewrite !length_app in *. cbn [length] in *. lia. }
    intros s2 HW2. eapply (IH r l); [exact HW2|exact Hc|unfold fend; lia|unfold fend; lia|done| | |exact HQ].
    + rewrite !length_app in *. cbn [length] in *. lia.
    + cbn [length] in Hf. lia.
Qed.

(** The end of the routine: the fragments [r] go, and the last one that is
    left may become pristine. *)
Lemma truncate_end l r s hi mid (Q : unit -> jffs2 -> Prop) :
  TW s (l ++ r) -> chain mid r hi -> size <= mid -> (l = [] -> size = 0) -> hi < 2 ^ 32 -> Z.of_nat (length (l ++ r)) <= 2 ^ 32 -> (forall s', TW s' l -> Q tt s') ->
  wp (with_fuelF (fun fuel => truncate_loop fuel (fst <$> head r) size);; truncate_mark size) s Q.
Proof.
  intros HW Hr Hm Hne Hhi Hlen HQ.
  assert (Hrest : forall s1, TW s1 l -> wp (truncate_mark size) s1 Q).
  { intros s1 HW1. unfold truncate_mark. destruct (Z.eqb_spec size 0) as [_|Hz]; [by apply wp_ret, HQ|].
    destruct l as [|[x f] l _] using rev_ind; [by destruct Hz; auto|].
    apply wp_bind. eapply w_last; [exact HW1|]. rewrite last_snoc. cbn [fmap option_fmap option_map fst].
    apply wp_bind. eapply wp_ldf; [by eapply w_mid|]. apply wp_bind. eapply wp_ldf; [by eapply w_mid|].
    destruct (fnode f) as [d|] eqn:Ef; [|by apply wp_ret, HQ]. destruct (_ =? 0); [|by apply wp_ret, HQ].
    destruct (w_dnode _ _ _ _ _ _ _ d HW1) as (dn & _ & H1 & H2); [by apply live_node|].
    apply wp_bind. eapply wp_ldd; [exact H1|]. eapply w_mark_ref; [exact HW1|done|exact HQ]. }
  apply wp_bind. eapply w_fuel; [exact HW|]. intros fuel Hf. rewrite length_app in Hf.
  eapply truncate_loop_ok; [exact HW|exact Hr|done|lia|done|done|lia|exact Hrest].
Qed.
End Truncate.

Lemma truncate_spec s fs out hi k size :
  frag_ok s fs out hi -> supply k s -> 0 <= size < 2 ^ 32 -> (fs = [] -> size = 0) ->
  wp (jffs2_truncate_fragtree size) s (fun _ s' => supply k s' /\ exists fs',
    frag_ok s' fs' out (Z.min hi size) /\ owners fs' = take (Z.to_nat size) (owners fs) /\
    nodes_follow s s' (owners fs) (owners fs')).
Proof.
  intros Hok Hk Hsz Hne. pose proof (frag_ok_world _ _ _ _ _ Hok Hk) as HW. pose proof Hok as [Ht Hc Hhi Hn Hs].
  pose proof (chain_le _ _ _ Hc) as Hhi0. pose proof (length_chain _ _ _ Hc) as Hlen.
  pose proof (length_owners _ _ _ Hc) as Hlo.
  assert (Hdone : forall l s', tree_world s (nodes_of fs) k s' l out [] -> chain 0 l (Z.min hi size) ->
    owners l = take (Z.to_nat size) (owners fs) -> supply k s' /\ exists fs',
    frag_ok s' fs' out (Z.min hi size) /\ owners fs' = take (Z.to_nat size) (owners fs) /\
    nodes_follow s s' (owners fs) (owners fs')).
  { intros l s' HW' Hc' Ho. destruct (world_frag_ok _ _ _ _ _ _ _ HW' Hc' ltac:(lia)) as [Hok' Hk']. split; [done|].
    exists l. split; [done|]. split; [done|]. destruct HW' as (_ & Hi & _). rewrite app_nil_r in Hi.
    eapply (inv_follow s s s' fs hi l _ []); [by rewrite app_nil_r|done|exact Hc'|by intros d ?%elem_of_nil| |done..].
    intros d dn Hd. by exists dn. }
  unfold jffs2_truncate_fragtree. apply wp_bind. eapply w_lookup; [exact HW|exact Hc|done|done|]. intros x Hx.
  unfold looked_up in Hx. case_decide as Hin.
  - destruct Hx as (l & y & f & r & -> & Hf & ->). destruct (chain_mid _ _ _ _ _ Hc) as (Hl & Hz & Hr & Hf0 & Hfe).
    pose proof (length_owners _ _ _ Hl) as Hll. rewrite Z.min_r in * by lia.
    assert (Hyf : frags s !! y = Some f) by by eapply w_mid.
    apply wp_bind, wp_bind. eapply wp_ldf; [exact Hyf|]. destruct (Z.eqb_spec (fofs f) size) as [He|Hneq]; cbn [negb].
    + apply wp_ret. eapply (truncate_end _ _ _ _ _ Hsz l ((y, f) :: r) s hi size); [exact HW|by cbn [chain]|done| |done|lia|].
      * intros ->. cbn in Hl. lia.
      * intros s' HW'. eapply Hdone; [exact HW'|by rewrite <-He|].
        rewrite owners_app, take_app_le, take_ge by lia. done.
    + apply wp_bind. eapply wp_frag_end; [exact Hyf|lia|]. destruct (Z.ltb_spec size (fend f)); [|lia].
      rewrite u32_id by lia. apply wp_bind. eapply w_set_in; [exact HW|]. intros s1 HW1.
      set (g := Frag _ _ _) in HW1. eapply w_next; [exact HW1|].
      assert (HW1' : tree_world s (nodes_of (l ++ (y, f) :: r)) k s1 ((l ++ [(y, g)]) ++ r) out []).
      { unfold tree_world. rewrite <-app_assoc. cbn [app]. eapply world_perm; [done| |exact HW1]. by rewrite !live_mid. }
      assert (Hl1 : chain 0 (l ++ [(y, g)]) size).
      { apply chain_app. exists (fofs f). split; [done|]. cbn [chain g fofs fsize]. unfold fend. cbn. lia. }
      eapply (truncate_end _ _ _ _ _ Hsz (l ++ [(y, g)]) r s1 hi (fend f)); [exact HW1'|exact Hr|lia| |done| |].
      * by destruct l.
      * rewrite !length_app in *. cbn [length] in *. lia.
      * intros s' HW'. eapply Hdone; [exact HW'|exact Hl1|]. rewrite !owners_app. cbn [owners]. rewrite app_nil_r.
        replace (Z.to_nat size) with (length (owners l) + Z.to_nat (size - fofs f))%nat by lia.
        rewrite take_app_add, take_replicate_app by (unfold fend in *; lia). done.
  - assert (Hend : wp (with_fuelF (fun fuel => truncate_loop fuel None size);; truncate_mark size) s (fun _ s' => supply k s' /\ exists fs',
           frag_ok s' fs' out (Z.min hi size) /\ owners fs' = take (Z.to_nat size) (owners fs) /\
           nodes_follow s s' (owners fs) (owners fs'))).
    { eapply (truncate_end _ _ _ _ _ Hsz fs [] s size size); [by rewrite app_nil_r|done|lia|done|lia|rewrite app_nil_r; lia|].
      intros s' HW'. eapply Hdone; [exact HW'|by rewrite Z.min_l by lia|]. by rewrite take_ge by lia. }
    destruct (last fs) as [[y f]|] eqn:El; subst x; [|apply wp_bind, wp_ret, Hend].
    apply last_Some in El as [l ->]. destruct (chain_mid _ _ _ _ _ Hc) as (Hl & Hz & Hr & Hf0 & Hfe). cbn in Hr.
    assert (Hyf : frags s !! y = Some f) by by eapply w_mid.
    apply wp_bind, wp_bind. eapply wp_ldf; [exact Hyf|]. destruct (Z.eqb_spec (fofs f) size); [unfold fend in *; lia|].
    apply wp_bind. eapply wp_frag_end; [exact Hyf|lia|]. destruct (Z.ltb_spec size (fend f)); [lia|].
    apply wp_bind, wp_ret. eapply w_next; [exact HW|]. exact Hend.
Qed.
