(* ===== verification/FragFill.v ===== *)
(** * Filling the holes of a map from bytes to nodes

    [fill] gives a node only the bytes that have no owner yet; it is
    associative, so that adding nodes from the newest to the oldest and
    overwriting from the oldest to the newest come to the same. *)

From stdpp Require Import gmap.
From S2P Require Import Prelude RbSpec Rbtree RbOps Fragtree FragRep FragNodes FragAdd.

(** ** Filling holes *)

Section Fill.
Context {A : Type}.
Implicit Types ow : list (option A).

(** [ow] where it has an owner, [ow'] elsewhere. *)
Fixpoint fill ow ow' : list (option A) :=
  match ow, ow' with
  | [], _ => ow'
  | _, [] => ow
  | Some x :: ow, _ :: ow' => Some x :: fill ow ow'
  | None :: ow, y :: ow' => y :: fill ow ow'
  end.

(** [z] bytes at [o]. *)
Definition span (o z : nat) (n : option A) : list (option A) := replicate o None ++ replicate z n.

Lemma fill_nil_r ow : fill ow [] = ow.
Proof. by destruct ow as [|[]]. Qed.

Lemma lookup_fill ow ow' i :
  fill ow ow' !! i =
    match ow !! i with
    | Some (Some x) => Some (Some x)
    | Some None => Some (default None (ow' !! i))
    | None => ow' !! i
    end.
Proof.
  revert ow ow'. induction i as [|i IH]; intros [|[x|] ow] [|y ow']; cbn; try done; try apply IH.
  all: by destruct (ow !! i) as [[]|].
Qed.

Lemma fill_assoc a b c : fill a (fill b c) = fill (fill a b) c.
Proof.
  apply list_eq. intros i. rewrite !lookup_fill.
  by destruct (a !! i) as [[]|], (b !! i) as [[]|].
Qed.

Lemma lookup_app_dec (l k : list (option A)) i :
  (l ++ k) !! i = if decide (i < length l)%nat then l !! i else k !! (i - length l)%nat.
Proof. case_decide; [by apply lookup_app_l|apply lookup_app_r; lia]. Qed.

Lemma lookup_replicate_dec n (x : option A) i : replicate n x !! i = if decide (i < n)%nat then Some x else None.
Proof. case_decide; [by apply lookup_replicate_2|]. apply lookup_replicate_None. lia. Qed.

Lemma lookup_span o z (n : option A) i :
  span o z n !! i = if decide (i < o)%nat then Some None else if decide (i < o + z)%nat then Some n else None.
Proof.
  unfold span. rewrite lookup_app_dec, length_replicate, !lookup_replicate_dec.
  repeat case_decide; try done; lia.
Qed.

(** A new node over the old ones. *)
Lemma overlay_fill ow o z x : overlay ow o z (Some x) = fill (span o z (Some x)) ow.
Proof.
  apply list_eq. intros i. rewrite lookup_fill, lookup_span. unfold overlay.
  rewrite !lookup_app_dec, length_take, length_app, !length_replicate.
  rewrite lookup_replicate_dec, lookup_take, lookup_drop, lookup_app_dec, lookup_replicate_dec.
  repeat case_decide; try lia; try done.
  - by destruct (lookup_lt_is_Some_2 ow i) as [y ->].
  - by rewrite lookup_ge_None_2 by lia.
  - f_equal. lia.
Qed.

(** Filling run by run. *)
Lemma fill_app a c k : fill (a ++ c) (replicate (length a) None ++ k) = a ++ fill c k.
Proof. induction a as [|[x|] a IH]; cbn; [done|by rewrite IH..]. Qed.

Lemma fill_span_skip a c o z (x : option A) : fill (a ++ c) (span (length a + o) z x) = a ++ fill c (span o z x).
Proof. unfold span. by rewrite replicate_add, <-app_assoc, fill_app. Qed.

Lemma fill_hole_run v c k : (length k <= v)%nat -> fill (replicate v None ++ c) k = k ++ replicate (v - length k) None ++ c.
Proof.
  revert k. induction v as [|v IH]; intros [|y k] H; cbn in *; rewrite ?fill_nil_r; try done; [lia|]. by rewrite IH by lia.
Qed.

Lemma fill_hole_run_past c k k' : fill (replicate (length k) None ++ c) (k ++ k') = k ++ fill c k'.
Proof. induction k as [|y k IH]; cbn; [done|by rewrite IH]. Qed.

Lemma fill_data_run v x c k : (length k <= v)%nat -> fill (replicate v (Some x) ++ c) k = replicate v (Some x) ++ c.
Proof.
  revert k. induction v as [|v IH]; intros [|y k] H; cbn in *; rewrite ?fill_nil_r; try done; [lia|]. by rewrite IH by lia.
Qed.

Lemma fill_data_run_past x c k k' :
  fill (replicate (length k) (Some x) ++ c) (k ++ k') = replicate (length k) (Some x) ++ fill c k'.
Proof. induction k as [|y k IH]; cbn; [done|by rewrite IH]. Qed.

(** A node with [z] bytes from [length a + u] on meets a run of [u + v] bytes
    that starts at [length a] and reaches to [length a + u + v]. *)
Lemma fill_in_hole a b u v z (x : option A) : (z <= v)%nat ->
  fill (a ++ replicate (u + v) None ++ b) (span (length a + u) z x) =
  a ++ replicate u None ++ replicate z x ++ replicate (v - z) None ++ b.
Proof.
  intros H. rewrite replicate_add, <-app_assoc, fill_span_skip. f_equal.
  pose proof (fill_span_skip (replicate u None) (replicate v None ++ b) 0 z x) as E0.
  rewrite length_replicate, Nat.add_0_r in E0. rewrite E0. f_equal.
  unfold span. cbn [replicate app]. rewrite fill_hole_run by (by rewrite length_replicate). by rewrite length_replicate.
Qed.

Lemma fill_past_hole a b u v z (x : A) : (v <= z)%nat ->
  fill (a ++ replicate (u + v) None ++ b) (span (length a + u) z (Some x)) =
  fill ((a ++ replicate u None ++ replicate v (Some x)) ++ b) (span (length a + u + v) (z - v) (Some x)).
Proof.
  intros H. replace (length a + u + v)%nat with (length (a ++ replicate u None ++ replicate v (Some x)) + 0)%nat
    by (rewrite !length_app, !length_replicate; lia).
  rewrite (fill_span_skip (a ++ _)), (fill_span_skip a), replicate_add, <-!app_assoc. f_equal.
  pose proof (fill_span_skip (replicate u None) (replicate v None ++ b) 0 z (Some x)) as E0.
  rewrite length_replicate, Nat.add_0_r in E0. rewrite E0. f_equal.
  unfold span. cbn [replicate app]. replace z with (v + (z - v))%nat at 1 by lia. rewrite replicate_add.
  pose proof (fill_hole_run_past b (replicate v (Some x)) (replicate (z - v) (Some x))) as E.
  by rewrite length_replicate in E.
Qed.

Lemma fill_in_data a b u v z e (x : option A) : (z <= v)%nat ->
  fill (a ++ replicate (u + v) (Some e) ++ b) (span (length a + u) z x) = a ++ replicate (u + v) (Some e) ++ b.
Proof.
  intros H. rewrite fill_span_skip. f_equal. apply fill_data_run. unfold span. rewrite length_app, !length_replicate. lia.
Qed.

Lemma fill_past_data a b u v z e (x : option A) : (v <= z)%nat ->
  fill (a ++ replicate (u + v) (Some e) ++ b) (span (length a + u) z x) =
  fill (a ++ replicate (u + v) (Some e) ++ b) (span (length a + u + v) (z - v) x).
Proof.
  intros H. replace (length a + u + v)%nat with (length (a ++ replicate (u + v) (Some e)) + 0)%nat
    by (rewrite !length_app, !length_replicate; lia).
  rewrite (app_assoc a) at 2. rewrite (fill_span_skip (a ++ _)), (fill_span_skip a), <-app_assoc. f_equal. unfold span at 2. cbn [replicate app].
  replace (span u z x) with (span u v x ++ replicate (z - v) x)
    by (unfold span; rewrite <-app_assoc, <-replicate_add; do 2 f_equal; lia).
  pose proof (fill_data_run_past e b (span u v x) (replicate (z - v) x)) as E.
  assert (L : length (span u v x) = (u + v)%nat) by (unfold span; by rewrite length_app, !length_replicate).
  by rewrite L in E.
Qed.

Lemma fill_past_end a z (x : option A) : fill a (span (length a) z x) = a ++ replicate z x.
Proof.
  pose proof (fill_span_skip a [] 0 z x) as E. by rewrite app_nil_r, Nat.add_0_r in E.
Qed.

Lemma length_fill ow ow' : length (fill ow ow') = (length ow `max` length ow')%nat.
Proof.
  revert ow'. induction ow as [|[x|] ow IH]; intros [|y ow']; cbn [fill length]; rewrite ?IH; lia.
Qed.
End Fill.

(** ** No two holes side by side, none at the end *)

Definition starts_data (ns : live_list) : Prop := match ns with Some _ :: _ => True | _ => False end.
Fixpoint packed (ns : live_list) : Prop :=
  match ns with
  | [] => True
  | Some _ :: ns => packed ns
  | None :: ns => starts_data ns /\ packed ns
  end.

Lemma packed_app_r a b : packed (a ++ b) -> packed b.
Proof. induction a as [|[d|] a IH]; cbn; [done|auto|intros [_ H]; auto]. Qed.

Lemma packed_mid a m m' : packed (a ++ m) -> packed m' -> (starts_data m -> starts_data m') -> packed (a ++ m').
Proof.
  intros Ha Hm' Hs. induction a as [|[d|] a IH]; cbn [app packed] in *; [done|by apply IH|].
  destruct Ha as [H1 H2]. split; [|by apply IH]. destruct a as [|n a]; cbn in *; [by apply Hs|by destruct n].
Qed.

Lemma packed_app a b : packed a -> packed b -> packed (a ++ b).
Proof.
  intros Ha Hb. induction a as [|[e|] a IH]; cbn; [done|by apply IH|]. destruct Ha as [H1 H2]. split; [|by apply IH].
  by destruct a as [|[]].
Qed.
