(* ===== verification/FragOld.v ===== *)
(** * JFFS2: adding the nodes of a file from the newest to the oldest

    [jffs2_add_older_frag_to_fragtree] fills the holes of the tree with a
    node, from the fragment at the node's start on.  [at_pos] is the invariant
    of its loop, [older_final] what the loop has done when it ends, and
    [older_spec] the outcome of the routine. *)

From stdpp Require Import gmap.
From S2P Require Import Prelude RbSpec Rbtree RbOps Fragtree FragRep FragNodes FragAdd FragFile FragFill.

Section Older.
Context (check_node_data : jffs2_tmp_dnode_info -> Z) (tn : jffs2_tmp_dnode_info).
Context (s0 : jffs2) (out : fseq) (dn : jffs2_full_dnode) (flash : Z).
(** Allocations that are left at the end. *)
Context (spare : nat).
Abbreviation d := (tn_fn tn).
Hypothesis Hdn : dnodes s0 !! d = Some dn.
Hypothesis Hflash : raws s0 !! draw dn = Some flash.
Hypothesis Hfresh : ref_obsolete flash = false.

(** The node counts [j] fragments; nothing else happened to the nodes. *)
Definition one_count (j : nat) (s : jffs2) : Prop :=
  dnodes s = <[d := with_frags j dn]> (dnodes s0) /\ raws s = raws s0 /\ obsoleted s = obsoleted s0.
Lemma one_count_same j s s' :
  dnodes s' = dnodes s -> raws s' = raws s -> obsoleted s' = obsoleted s -> one_count j s -> one_count j s'.
Proof. unfold one_count. by intros -> -> ->. Qed.
Definition one_np (j : nat) : node_pred := NodePred (one_count j) (one_count_same j).
Abbreviation OW j k s fs out' := (world (one_np j) k s fs out').

Lemma ow_dnode j k s fs out' : OW j k s fs out' -> dnodes s !! d = Some (with_frags j dn).
Proof. intros (_ & (-> & _) & _). apply lookup_insert_eq. Qed.

(** What the check of the node's data on flash comes to. *)
Definition check_result : Z := if ref_flags flash =? REF_UNCHECKED then check_node_data tn else 0.

(** The state after a check that failed: the tree is as it was. *)
Definition rejected (s s' : jffs2) : Prop :=
  rbs s' = rbs s /\ frags s' = frags s /\ dnodes s' = dnodes s /\ slab s' = slab s /\
  obsoleted s' = obsoleted s ++ (if 0 <? check_result then [draw dn] else []) /\
  (forall r, is_Some (raws s' !! r) <-> is_Some (raws s !! r)) /\ forall r, r <> draw dn -> raws s' !! r = raws s !! r.

Lemma check_once_ok s dn' checked (Q : Z -> jffs2 -> Prop) :
  dnodes s !! d = Some dn' -> draw dn' = draw dn -> raws s = raws s0 -> (checked = true \/ check_result = 0 -> Q 0 s) ->
  (forall s', checked = false -> check_result <> 0 -> rejected s s' -> Q check_result s') ->
  wp (check_once check_node_data tn checked) s Q.
Proof.
  intros Hd Hdr Hr H0 H1. destruct checked; [by apply wp_ret; auto|].
  unfold check_once, check_node. apply wp_bind. eapply wp_ldd; [exact Hd|].
  rewrite Hdr. apply wp_bind. unfold wp at 1, ldr, ld_obj. cbn. rewrite Hr, Hflash. cbn. rewrite Hfresh.
  revert H0 H1. unfold rejected, check_result. destruct (ref_flags flash =? REF_UNCHECKED); cbn [negb];
    intros H0 H1; [|apply wp_ret, H0; auto].
  destruct (Z.eqb_spec (check_node_data tn) 0) as [Hz|Hz].
  - rewrite Hz. apply wp_bind, wp_ret, wp_ret, H0. auto.
  - apply wp_bind. revert H1. destruct (0 <? check_node_data tn); intros H1.
    + apply w_mark_obsolete; [by rewrite Hr, Hflash|]. intros m Hm Hm'. apply wp_ret, H1; [done..|]. by split_and!.
    + apply wp_ret, wp_ret, H1; [done..|]. split_and!; rewrite ?app_nil_r; done.
Qed.

Lemma one_more_ok j k s fs out' ofs size (Q : option ptr -> jffs2 -> Prop) :
  OW j k s fs out' -> (0 < k)%nat -> Z.of_nat j + 1 < 2 ^ 32 ->
  (forall s' n, OW (S j) (pred k) s' fs ((n, Frag (Some d) size ofs) :: out') -> Q (Some n) s') ->
  wp (one_more_fragment d ofs size) s Q.
Proof.
  intros HW Hk Hj HQ. pose proof (ow_dnode _ _ _ _ _ HW) as Hd. unfold one_more_fragment. apply wp_bind.
  eapply wp_ldd; [exact Hd|]. cbn [dfrags with_frags]. apply wp_bind.
  replace (u32 (Z.of_nat j + 1)) with (Z.of_nat (S j)) by (rewrite u32_id; lia).
  eapply wp_st_obj; [exact Hd|]. cbn [draw dofs dsize with_frags].
  destruct HW as (Ht & (Hdd & Hr & Ho) & Hs). eapply (w_new (one_np (S j))).
  - split; [by apply (tree_part_nodes s)|]. split; [|exact Hs]. split; [|by split].
    cbn [dnodes set_dnodes]. by rewrite Hdd, insert_insert_eq.
  - intros s' -> _. lia.
  - exact HQ.
Qed.

(** [newfrag] lies in the hole [h]; it takes the place of the hole, with what
    is left of it on both sides. *)
Lemma split_hole_ok j k s l h f r n fn hi (Q : Z -> jffs2 -> Prop) :
  OW j k s (l ++ (h, f) :: r) ((n, fn) :: out) -> chain 0 (l ++ (h, f) :: r) hi -> hi < 2 ^ 32 -> (0 < k)%nat ->
  fnode f = None -> fnode fn = Some d -> 0 < fsize fn -> fofs f <= fofs fn -> fend fn <= fend f ->
  (forall s' m, OW j (pred k) s' (l ++ m ++ r) out -> chain (fofs f) m (fend f) ->
     owners m = replicate (Z.to_nat (fofs fn - fofs f)) None ++ replicate (Z.to_nat (fsize fn)) (Some d) ++
                replicate (Z.to_nat (fend f - fend fn)) None ->
     (exists a b, nodes_of m = a ++ Some d :: b /\ (a = [] \/ a = [None]) /\ (b = [] \/ b = [None])) -> Q 0 s') ->
  wp (split_hole (Some n) (Some h)) s Q.
Proof.
  intros HW Hc Hhi Hk Hf Hfn Hz Ho He HQ. destruct (chain_mid _ _ _ _ _ Hc) as (Hl & Hfz & Hr & Hf0 & Hfe).
  assert (Hhf : frags s !! h = Some f) by by eapply w_mid.
  assert (Hnf : frags s !! n = Some fn) by by eapply w_out.
  unfold split_hole. apply wp_bind. eapply wp_ldf; [exact Hhf|]. apply wp_bind. eapply wp_ldf; [exact Hnf|].
  apply wp_bind. eapply wp_frag_end; [exact Hhf|unfold fend in *; lia|].
  apply wp_bind. eapply wp_frag_end; [exact Hnf|unfold fend in *; lia|].
  destruct (Z.eqb_spec (fofs f) (fofs fn)) as [Heq|Hne].
  - rewrite <-Heq, Z.sub_diag in HQ. destruct (Z.ltb_spec (fend fn) (fend f)) as [Hlt|Hge].
    + apply wp_bind. eapply w_replace; [exact HW|]. intros s1 HW1.
      apply wp_bind. eapply wp_ldf; [by eapply w_out|]. apply wp_bind. eapply wp_ldf; [by eapply w_mid|].
      rewrite !u32_id by (unfold fend in *; lia).
      apply wp_bind. eapply w_set_out; [exact HW1|]. intros s2 HW2. apply wp_bind. eapply w_set_out; [exact HW2|].
      intros s3 HW3. cbn [fnode fsize fofs] in HW3. set (f2 := Frag _ _ _) in HW3.
      assert (He2 : fend f2 = fend f) by (unfold f2, fend; cbn; lia).
      apply wp_seq. eapply w_insert_after; [exact HW3|cbn; lia| |].
      { intros q g. eapply later_frags; [exact Hr|cbn; unfold fend in *; lia]. }
      intros s4 HW4. apply wp_ret. apply (HQ s4 [(n, fn); (h, f2)]).
      * eapply world_less; [|exact HW4]. lia.
      * cbn [chain]. rewrite He2. unfold f2. cbn. unfold fend in *. split_and!; lia.
      * cbn [owners]. rewrite Hfn, app_nil_r. unfold f2. cbn [fsize fnode]. rewrite Hf. change (Z.to_nat 0) with 0%nat. cbn [replicate app].
        do 3 f_equal. unfold fend in *. lia.
      * exists [], [None]. cbn. rewrite Hf, Hfn. auto.
    + apply wp_bind. eapply w_replace; [exact HW|]. intros s1 HW1. apply wp_bind. eapply w_free; [exact HW1|].
      intros s2 HW2. apply wp_ret. apply (HQ s2 [(n, fn)]).
      * eapply world_less; [|exact HW2]. lia.
      * cbn [chain]. split_and!; [done..|lia].
      * cbn [owners]. rewrite Hfn. change (Z.to_nat 0) with 0%nat. cbn [replicate app]. do 2 f_equal. by replace (Z.to_nat _) with 0%nat by lia.
      * exists [], []. cbn. rewrite Hfn. auto.
  - set (f1 := Frag None (fofs fn - fofs f) (fofs f)).
    assert (Hf1 : fend f1 = fofs fn) by (unfold f1, fend; cbn; lia).
    rewrite (u32_id (fofs fn - fofs f)) by (unfold fend in *; lia). apply wp_bind.
    destruct (Z.ltb_spec (fend fn) (fend f)) as [Hlt|Hge].
    + rewrite u32_id by (unfold fend in *; lia). apply wp_bind. eapply w_new; [exact HW|intros s1 ->; lia|].
      intros s1 p HW1. apply wp_ret. set (f2 := Frag None (fend f - fend fn) (fend fn)) in HW1.
      assert (He2 : fend f2 = fend f) by (unfold f2, fend; cbn; lia).
      apply wp_bind. eapply w_set_in; [exact HW1|]. intros s2 HW2. rewrite Hf in HW2. fold f1 in HW2.
      apply wp_seq. eapply w_insert_after; [eapply world_out; [apply Permutation_swap|exact HW2]|cbn; lia| |].
      { intros q g. eapply later_frags; [exact Hr|cbn; unfold fend in *; lia]. }
      intros s3 HW3. apply wp_bind.
      change (l ++ (h, f1) :: (n, fn) :: r) with (l ++ [(h, f1)] ++ (n, fn) :: r) in HW3. rewrite app_assoc in HW3.
      eapply w_insert_after; [exact HW3|cbn; unfold fend; lia| |].
      { intros q g. eapply later_frags; [exact Hr|cbn; lia]. }
      intros s4 HW4. rewrite <-app_assoc in HW4. apply wp_ret. apply (HQ s4 [(h, f1); (n, fn); (p, f2)]).
      * eapply world_less; [|exact HW4]. lia.
      * cbn [chain]. rewrite Hf1, He2. unfold f1, f2. cbn. split_and!; try done; lia.
      * cbn [owners]. rewrite Hfn, app_nil_r. done.
      * exists [None], [None]. cbn. rewrite Hfn. auto.
    + apply wp_ret. apply wp_bind. eapply w_set_in; [exact HW|]. intros s2 HW2. rewrite Hf in HW2. fold f1 in HW2.
      apply wp_seq. eapply w_insert_after; [exact HW2|cbn; lia| |].
      { intros q g. eapply later_frags; [exact Hr|unfold fend in *; lia]. }
      intros s3 HW3. apply wp_bind, wp_ret, wp_ret. apply (HQ s3 [(h, f1); (n, fn)]).
      * eapply world_less; [|exact HW3]. lia.
      * cbn [chain]. rewrite Hf1. unfold f1. cbn. split_and!; try done; lia.
      * cbn [owners]. rewrite Hfn. unfold f1. cbn [fsize fnode]. do 2 f_equal. by replace (Z.to_nat _) with 0%nat by lia.
      * exists [None], []. cbn. rewrite Hfn. auto.
Qed.
(** *** The loop *)

(** [this] covers the offset [o]; [z] bytes from there on are still to be
    given out. *)
Record at_pos (j k : nat) (s : jffs2) (l : fseq) (x : ptr) (f : jffs2_node_frag) (r : fseq) (hi o z : Z) : Prop := {
  ap_world : OW j k s (l ++ (x, f) :: r) out;
  ap_chain : chain 0 (l ++ (x, f) :: r) hi;
  ap_hi : hi < 2 ^ 32;
  ap_packed : packed (nodes_of (l ++ (x, f) :: r));
  ap_refs : j = refs d (nodes_of (l ++ (x, f) :: r));
  ap_at : fofs f <= o < fend f;
  ap_size : 0 < z;
  ap_end : o + z < 2 ^ 32 }.

(** The fragments [fs'] are [fs] with the node's bytes in its holes; the
    status is [fl], which is [flag] or a lower one. *)
Record older_final (s' : jffs2) (fs fs' : fseq) (hi o z flag fl : Z) : Prop := {
  of_world : OW (refs d (nodes_of fs')) spare s' fs' out;
  of_chain : chain 0 fs' (Z.max hi (o + z));
  of_owners : owners fs' = fill (owners fs) (span (Z.to_nat o) (Z.to_nat z) (Some d));
  of_packed : packed (nodes_of fs');
  of_others : forall e, e <> d -> refs e (nodes_of fs') = refs e (nodes_of fs);
  of_flag : fl = REF_OBSOLETE /\ refs d (nodes_of fs') = 0%nat \/ (fl = flag \/ fl = REF_NORMAL) /\ (0 < refs d (nodes_of fs'))%nat }.

(** [fs1] differs from [fs] in bytes that the node got already. *)
Record steps_to (fs fs1 : fseq) (o z o1 z1 : Z) : Prop := {
  sn_owners : fill (owners fs) (span (Z.to_nat o) (Z.to_nat z) (Some d)) =
              fill (owners fs1) (span (Z.to_nat o1) (Z.to_nat z1) (Some d));
  sn_end : o1 + z1 = o + z;
  sn_others : forall e, e <> d -> refs e (nodes_of fs1) = refs e (nodes_of fs) }.

Lemma final_step s' fs fs1 fs' hi o z o1 z1 flag fl :
  steps_to fs fs1 o z o1 z1 -> older_final s' fs1 fs' hi o1 z1 REF_NORMAL fl -> older_final s' fs fs' hi o z flag fl.
Proof.
  intros [Ho He Hr] [H1 H2 H3 H4 H5 H6]. split; [done|by rewrite <-He|by rewrite H3|done| |tauto].
  intros e Hne. by rewrite H5, Hr.
Qed.

Lemma steps_trans fs fs1 fs2 o z o1 z1 o2 z2 :
  steps_to fs fs1 o z o1 z1 -> steps_to fs1 fs2 o1 z1 o2 z2 -> steps_to fs fs2 o z o2 z2.
Proof. intros [A1 A2 A3] [B1 B2 B3]. split; [by rewrite A1|lia|]. intros e He. by rewrite B3, A3. Qed.

Definition one_or_no_hole (p : live_list) : Prop := p = [] \/ p = [None].

Lemma refs_hole e l p q r : one_or_no_hole p -> one_or_no_hole q ->
  refs e (l ++ (p ++ Some d :: q) ++ r) = ((if decide (e = d) then 1 else 0) + refs e (l ++ None :: r))%nat.
Proof.
  intros [-> | ->] [-> | ->]; cbn [app]; rewrite ?refs_app, ?refs_cons, ?refs_app; cbn [refs filter length];
    repeat case_decide; simplify_eq; lia.
Qed.

Lemma packed_hole l p q r : packed (l ++ None :: r) -> one_or_no_hole p -> one_or_no_hole q -> packed (l ++ (p ++ Some d :: q) ++ r).
Proof.
  intros H Hp Hq. pose proof (packed_app_r _ _ H) as [Hs Hr]. eapply packed_mid; [exact H| |done].
  by destruct Hp as [-> | ->], Hq as [-> | ->].
Qed.

Lemma nodes_of_mid l x f r : nodes_of (l ++ (x, f) :: r) = nodes_of l ++ fnode f :: nodes_of r.
Proof. unfold nodes_of. by rewrite fmap_app. Qed.

(** A hole counts for nothing. *)
Lemma refs_hole_lt l x f r hi : fnode f = None -> chain 0 (l ++ (x, f) :: r) hi -> Z.of_nat (refs d (nodes_of (l ++ (x, f) :: r))) + 1 <= hi.
Proof.
  intros Hf Hc%length_chain. rewrite nodes_of_mid, Hf, refs_app, refs_cons, decide_False, Nat.add_0_l, <-refs_app by done.
  pose proof (refs_le d (nodes_of l ++ nodes_of r)) as H.
  assert (L : length (nodes_of l ++ nodes_of r) = (length l + length r)%nat) by (unfold nodes_of; by rewrite length_app, !length_fmap).
  rewrite length_app in Hc. cbn [length] in Hc. lia.
Qed.
(** The byte counts of a position. *)
Lemma at_pos_bytes j k s l x f r hi o z : at_pos j k s l x f r hi o z ->
  let u := Z.to_nat (o - fofs f) in let v := Z.to_nat (fend f - o) in
  owners (l ++ (x, f) :: r) = owners l ++ replicate (u + v) (fnode f) ++ owners r /\
  Z.to_nat o = (length (owners l) + u)%nat /\ Z.to_nat (fend f) = (length (owners l) + u + v)%nat /\ 0 <= fofs f.
Proof.
  intros [_ Hc _ _ _ Hat _ _]. cbn zeta. destruct (chain_mid _ _ _ _ _ Hc) as (Hl & Hz & Hr & Hf0 & Hfe).
  pose proof (length_owners _ _ _ Hl) as Hll. split_and!; [|lia..].
  rewrite owners_app. cbn [owners]. do 3 f_equal. unfold fend in *. lia.
Qed.

(** What becomes of a hole that ends after the node. *)
Lemma hole_end j k s l x f r hi o z m p q s' flag :
  at_pos j k s l x f r hi o z -> fnode f = None -> o + z <= fend f ->
  OW (S j) spare s' (l ++ m ++ r) out -> chain (fofs f) m (fend f) -> nodes_of m = p ++ Some d :: q -> one_or_no_hole p -> one_or_no_hole q ->
  owners m = replicate (Z.to_nat (o - fofs f)) None ++ replicate (Z.to_nat z) (Some d) ++ replicate (Z.to_nat (fend f - (o + z))) None ->
  older_final s' (l ++ (x, f) :: r) (l ++ m ++ r) hi o z flag flag.
Proof.
  intros Hpos Hf Hle HW Hm Hn Hp Hq Ho. destruct (at_pos_bytes _ _ _ _ _ _ _ _ _ _ Hpos) as (Hown & Hoo & _ & _).
  destruct Hpos as [_ Hc Hhi Hpk -> Hat Hz He]. destruct (chain_mid _ _ _ _ _ Hc) as (Hl & Hfz & Hr & Hf0 & Hfe).
  assert (E : nodes_of (l ++ m ++ r) = nodes_of l ++ (p ++ Some d :: q) ++ nodes_of r) by by rewrite !nodes_of_app, Hn.
  rewrite nodes_of_mid, Hf in HW, Hpk.
  assert (Hj : refs d (nodes_of (l ++ m ++ r)) = S (refs d (nodes_of l ++ None :: nodes_of r))).
  { rewrite E, refs_hole by done. by rewrite decide_True. }
  split.
  - by rewrite Hj.
  - rewrite Z.max_l by lia. apply chain_app. exists (fofs f). split; [done|]. apply chain_app. by exists (fend f).
  - rewrite Hown, Hoo, Hf, fill_in_hole, !owners_app, Ho, <-!app_assoc by lia.
    by replace (_ - Z.to_nat z)%nat with (Z.to_nat (fend f - (o + z))) by lia.
  - rewrite E. by apply packed_hole.
  - intros e He'. rewrite E, nodes_of_mid, Hf, refs_hole by done. by rewrite decide_False.
  - right. rewrite Hj. split; [auto|lia].
Qed.

(** What becomes of one that ends before it. *)
Lemma hole_past j k s l x f r hi o z m p s' k' l' y g r' :
  at_pos j k s l x f r hi o z -> fnode f = None -> fend f < o + z -> r = (y, g) :: r' -> l' = l ++ m ->
  OW (S j) k' s' (l ++ m ++ r) out -> chain (fofs f) m (fend f) -> nodes_of m = p ++ [Some d] -> one_or_no_hole p ->
  owners m = replicate (Z.to_nat (o - fofs f)) None ++ replicate (Z.to_nat (fend f - o)) (Some d) ->
  at_pos (S j) k' s' l' y g r' hi (fend f) (o + z - fend f) /\ steps_to (l ++ (x, f) :: r) (l' ++ (y, g) :: r') o z (fend f) (o + z - fend f).
Proof.
  intros Hpos Hf Hlt -> -> HW Hm Hn Hp Ho. destruct (at_pos_bytes _ _ _ _ _ _ _ _ _ _ Hpos) as (Hown & Hoo & Hee & _).
  destruct Hpos as [_ Hc Hhi Hpk -> Hat Hz He]. destruct (chain_mid _ _ _ _ _ Hc) as (Hl & Hfz & Hr & Hf0 & Hfe).
  assert (E : nodes_of ((l ++ m) ++ (y, g) :: r') = nodes_of l ++ (p ++ Some d :: []) ++ nodes_of ((y, g) :: r'))
    by (rewrite !nodes_of_app, Hn; by rewrite <-app_assoc).
  rewrite nodes_of_mid, Hf in Hpk. split.
  - split.
    + by rewrite <-app_assoc.
    + apply chain_app. exists (fend f). split; [|done]. apply chain_app. by exists (fofs f).
    + done.
    + rewrite E. apply packed_hole; [done..|by left].
    + rewrite E, nodes_of_mid, Hf, refs_hole by first [done|by left]. by rewrite decide_True.
    + cbn [chain] in Hr. unfold fend in *. lia.
    + lia.
    + lia.
  - split; [|lia|].
    + rewrite Hown, Hoo, Hee, Hf, fill_past_hole, !owners_app, Ho by lia. by do 2 f_equal; lia.
    + intros e He'. rewrite E, nodes_of_mid, Hf, refs_hole by first [done|by left]. by rewrite decide_False.
Qed.
(** The check has been passed, or is not due. *)
Definition passed (checked : bool) : Prop := checked = true \/ check_result = 0.

Lemma wp_check s dn' checked {B} (m : F B) (r : Z -> B) (Q : B -> jffs2 -> Prop) :
  dnodes s !! d = Some dn' -> draw dn' = draw dn -> raws s = raws s0 -> (forall s', checked = false -> check_result <> 0 -> rejected s s' -> Q (r check_result) s') ->
  (passed checked -> wp m s Q) ->
  wp (err ← check_once check_node_data tn checked; if negb (err =? 0) then retF (r err) else m) s Q.
Proof.
  intros Hd Hdr Hr HR HQ. apply wp_bind. eapply check_once_ok; [exact Hd|done|done|exact HQ|].
  intros s' H1 H2 H3. destruct (Z.eqb_spec check_result 0); [done|]. by apply wp_ret, HR.
Qed.

Lemma w_check j k s fs out' checked {B} (m : F B) (r : Z -> B) (Q : B -> jffs2 -> Prop) :
  OW j k s fs out' -> (forall s', checked = false -> check_result <> 0 -> rejected s s' -> Q (r check_result) s') ->
  (passed checked -> wp m s Q) ->
  wp (err ← check_once check_node_data tn checked; if negb (err =? 0) then retF (r err) else m) s Q.
Proof. intros HW. eapply wp_check; [by eapply ow_dnode|done|]. by destruct HW as (_ & (_ & ? & _) & _). Qed.

Lemma hole_step j k s l x f r hi o z checked flag (Q : ending + older_pos -> jffs2 -> Prop) :
  at_pos j k s l x f r hi o z -> fnode f = None -> (2 + spare <= k)%nat ->
  (forall s', checked = false -> check_result <> 0 -> rejected s s' -> Q (inl (Return check_result)) s') ->
  (forall s' fs', passed checked -> older_final s' (l ++ (x, f) :: r) fs' hi o z flag flag -> Q (inl (Out_ok flag)) s') ->
  (forall s' l' y g r', passed checked -> r = (y, g) :: r' -> is_Some (fnode g) -> at_pos (S j) (pred k) s' l' y g r' hi (fend f) (o + z - fend f) ->
     steps_to (l ++ (x, f) :: r) (l' ++ (y, g) :: r') o z (fend f) (o + z - fend f) ->
     Q (inr (Older (Some y) (fend f) (o + z - fend f) true REF_NORMAL)) s') ->
  wp (older_hole check_node_data tn (Older (Some x) o z checked flag)) s Q.
Proof.
  intros Hpos Hf Hk HR HF HN. pose proof Hpos as [HW Hc Hhi Hpk Hj Hat Hz He].
  destruct (chain_mid _ _ _ _ _ Hc) as (Hl & Hfz & Hr & Hf0 & Hfe).
  pose proof (refs_hole_lt _ _ _ _ _ Hf Hc) as Hlt. rewrite <-Hj in Hlt.
  cbn [older_hole]. eapply (w_check _ _ _ _ _ _ _ (fun e => inl (Return e))); [exact HW|exact HR|]. intros Hp.
  apply wp_bind. eapply wp_frag_end; [by eapply w_mid|lia|]. rewrite (u32_id (o + z)) by lia.
  destruct (Z.leb_spec (o + z) (fend f)) as [Hin|Hover].
  - apply wp_bind. eapply one_more_ok; [exact HW|lia|lia|]. intros s1 n HW1. apply wp_bind.
    eapply split_hole_ok; [exact HW1|exact Hc|done|lia|done|done|cbn; lia|cbn; lia|unfold fend in *; cbn; lia|].
    intros s2 m HW2 Hm Ho (p & q & Hn & Hpp & Hqq). apply wp_ret. cbn [fofs fsize] in Ho.
    eapply HF; [done|]. eapply hole_end; [exact Hpos|done|done|eapply world_less; [|exact HW2]; lia|done|exact Hn|done|done|exact Ho].
  - destruct r as [|[y g] r].
    { rewrite nodes_of_mid, Hf in Hpk. by apply packed_app_r in Hpk as [[] _]. }
    assert (Hg : is_Some (fnode g)).
    { rewrite nodes_of_mid, Hf in Hpk. apply packed_app_r in Hpk as [Hpk _]. cbn in Hpk. by destruct (fnode g). }
    rewrite (u32_id (fend f - o)) by lia.
    apply wp_bind. eapply one_more_ok; [exact HW|lia|lia|]. intros s1 n HW1.
    set (fn := Frag (Some d) (fend f - o) o) in *.
    assert (Hfn : fend fn = fend f) by (unfold fn, fend; cbn; lia).
    apply wp_bind. eapply wp_ldf; [by eapply w_mid|]. apply wp_bind. eapply wp_ldf; [by eapply w_out|].
    cbn [fsize fn]. rewrite (u32_id (o + _)), (u32_id (z - _)) by lia. replace (o + (fend f - o)) with (fend f) by lia.
    replace (z - (fend f - o)) with (o + z - fend f) by lia.
    assert (Hend : forall s2 m p, OW (S j) (pred k) s2 (l ++ m ++ (y, g) :: r) out -> (exists a, m = a ++ [(n, fn)]) ->
      chain (fofs f) m (fend f) -> nodes_of m = p ++ [Some d] -> one_or_no_hole p ->
      owners m = replicate (Z.to_nat (o - fofs f)) None ++ replicate (Z.to_nat (fend f - o)) (Some d) ->
      wp (this ← frag_next (Some n); retF (inr (Older this (fend f) (o + z - fend f) true REF_NORMAL))) s2 Q).
    { intros s2 m p HW2 [a Hm] Hmc Hn Hpp Ho. apply wp_bind. pose proof HW2 as HW2'. rewrite Hm in HW2'.
      eapply w_next; [rewrite <-app_assoc, app_assoc in HW2'; exact HW2'|].
      destruct (hole_past _ _ _ _ _ _ _ _ _ _ m p s2 (pred k) _ y g r Hpos Hf Hover eq_refl eq_refl HW2 Hmc Hn Hpp Ho) as [H1 H2].
      apply wp_ret. by eapply HN. }
    apply wp_bind. destruct (Z.eqb_spec o (fofs f)) as [Heq|Hneq].
    + apply wp_bind. eapply w_replace; [exact HW1|]. intros s2 HW2. eapply w_free; [exact HW2|]. intros s3 HW3.
      eapply (Hend s3 [(n, fn)] []); [exact HW3|by exists []| |done|by left|].
      * cbn [chain]. rewrite Hfn. cbn. split_and!; lia.
      * cbn [owners]. rewrite app_nil_r, Heq, Z.sub_diag. cbn. by rewrite <-Heq.
    + apply wp_bind. eapply wp_ldf; [by eapply w_mid|]. rewrite u32_id by (unfold fend in *; lia).
      apply wp_bind. eapply w_set_in; [exact HW1|]. intros s2 HW2. set (f1 := Frag _ _ _) in HW2.
      assert (Hf1 : fend f1 = o) by (unfold f1, fend; cbn; unfold fend; lia).
      eapply w_insert_after; [exact HW2|cbn; lia| |].
      { intros q h. eapply later_frags; [exact Hr|cbn; lia]. }
      intros s3 HW3. eapply (Hend s3 [(x, f1); (n, fn)] [None]); [exact HW3|by exists [(x, f1)]| | |by right|].
      * cbn [chain]. rewrite Hf1, Hfn. cbn. unfold fend in *. split_and!; lia.
      * cbn. by rewrite Hf.
      * cbn [owners]. rewrite app_nil_r. unfold f1. cbn [fnode fsize fn]. rewrite Hf.
        by replace (fsize f - (fend f - o)) with (o - fofs f) by (unfold fend; lia).
Qed.
(** A fragment with a node keeps its bytes. *)
Lemma data_in j k s l x f r hi o z flag fl :
  at_pos j k s l x f r hi o z -> is_Some (fnode f) -> (spare <= k)%nat -> o + z <= fend f ->
  fl = REF_OBSOLETE /\ j = 0%nat \/ (fl = flag \/ fl = REF_NORMAL) /\ (0 < j)%nat ->
  older_final s (l ++ (x, f) :: r) (l ++ (x, f) :: r) hi o z flag fl.
Proof.
  intros Hpos [e Hf] Hk Hle Hfl. destruct (at_pos_bytes _ _ _ _ _ _ _ _ _ _ Hpos) as (Hown & Hoo & _ & _).
  destruct Hpos as [HW Hc Hhi Hpk -> Hat Hz He]. destruct (chain_mid _ _ _ _ _ Hc) as (_ & _ & _ & _ & Hfe).
  split; [eapply world_less; [|exact HW]; lia|by rewrite Z.max_l by lia| |done..].
  rewrite Hown, Hoo, Hf, fill_in_data by lia. done.
Qed.

Lemma data_past j k s l x f y g r hi o z :
  at_pos j k s l x f ((y, g) :: r) hi o z -> is_Some (fnode f) -> fend f < o + z ->
  at_pos j k s (l ++ [(x, f)]) y g r hi (fend f) (o + z - fend f) /\
  steps_to (l ++ (x, f) :: (y, g) :: r) ((l ++ [(x, f)]) ++ (y, g) :: r) o z (fend f) (o + z - fend f).
Proof.
  intros Hpos [e Hf] Hlt. destruct (at_pos_bytes _ _ _ _ _ _ _ _ _ _ Hpos) as (Hown & Hoo & Hee & _).
  destruct Hpos as [HW Hc Hhi Hpk Hj Hat Hz He]. destruct (chain_mid _ _ _ _ _ Hc) as (_ & _ & Hr & _ & _).
  rewrite <-app_assoc. cbn [app chain] in *. split.
  - split; rewrite <-?app_assoc; try done; [|lia..]. unfold fend in *. lia.
  - split; [|lia|done]. rewrite Hown, Hoo, Hee, Hf, fill_past_data by lia. by do 2 f_equal; lia.
Qed.

(** The node has bytes behind the end of the file. *)
Lemma data_append j k s l x f hi o z n s' k' flag :
  at_pos j k s l x f [] hi o z -> is_Some (fnode f) -> (spare <= k')%nat -> fend f < o + z ->
  OW (S j) k' s' ((l ++ [(x, f)]) ++ [(n, Frag (Some d) (o + z - fend f) (fend f))]) out ->
  older_final s' (l ++ [(x, f)]) ((l ++ [(x, f)]) ++ [(n, Frag (Some d) (o + z - fend f) (fend f))]) hi o z flag REF_NORMAL.
Proof.
  intros Hpos [e Hf] Hk Hlt HW'. destruct (at_pos_bytes _ _ _ _ _ _ _ _ _ _ Hpos) as (Hown & Hoo & Hee & _).
  destruct Hpos as [HW Hc Hhi Hpk Hj Hat Hz He]. destruct (chain_mid _ _ _ _ _ Hc) as (_ & _ & Hr & _ & _). cbn in Hr.
  set (fn := Frag _ _ _) in *.
  assert (En : forall e', refs e' (nodes_of ((l ++ [(x, f)]) ++ [(n, fn)])) = ((if decide (e' = d) then 1 else 0) + refs e' (nodes_of (l ++ [(x, f)])))%nat).
  { intros e'. rewrite nodes_of_app, refs_app. cbn [nodes_of fmap list_fmap fn snd fnode]. rewrite refs_cons. cbn [refs filter length].
    repeat case_decide; simplify_eq; cbn; lia. }
  split.
  - rewrite En, decide_True, <-Hj by done. eapply world_less; [|exact HW']. lia.
  - apply chain_app. exists hi. split; [done|]. cbn [chain]. unfold fend in *. cbn. split_and!; lia.
  - rewrite (owners_app (l ++ _)), Hown, Hoo, Hf, fill_past_data by lia. cbn [owners]. rewrite !app_nil_r.
    pose proof (fill_past_end (owners l ++ replicate (Z.to_nat (o - fofs f) + Z.to_nat (fend f - o)) (Some e))
      (Z.to_nat z - Z.to_nat (fend f - o)) (Some d)) as E.
    rewrite length_app, length_replicate, Nat.add_assoc in E. rewrite E. unfold fn. cbn [fsize fnode].
    by replace (Z.to_nat z - _)%nat with (Z.to_nat (o + z - fend f)) by lia.
  - rewrite nodes_of_app. by apply packed_app.
  - intros e' Hne. by rewrite En, decide_False.
  - right. rewrite En, decide_True by done. split; [auto|lia].
Qed.

Lemma data_step j k s l x f r hi o z checked flag (Q : ending + older_pos -> jffs2 -> Prop) :
  at_pos j k s l x f r hi o z -> is_Some (fnode f) -> (1 + spare <= k)%nat -> ((0 < j)%nat -> passed checked) ->
  (forall s', checked = false -> check_result <> 0 -> rejected s s' -> Q (inl (Return check_result)) s') ->
  (forall s' fs' fl, passed checked \/ fl = REF_OBSOLETE -> older_final s' (l ++ (x, f) :: r) fs' hi o z flag fl -> Q (inl (Out_ok fl)) s') ->
  (forall y g r', r = (y, g) :: r' -> at_pos j k s (l ++ [(x, f)]) y g r' hi (fend f) (o + z - fend f) ->
     steps_to (l ++ (x, f) :: r) ((l ++ [(x, f)]) ++ (y, g) :: r') o z (fend f) (o + z - fend f) ->
     Q (inr (Older (Some y) (fend f) (o + z - fend f) checked REF_NORMAL)) s) ->
  wp (older_data check_node_data tn (Older (Some x) o z checked flag)) s Q.
Proof.
  intros Hpos Hf Hk Hpass HR HF HN. pose proof Hpos as [HW Hc Hhi Hpk Hj Hat Hz He].
  destruct (chain_mid _ _ _ _ _ Hc) as (Hl & Hfz & Hr & Hf0 & Hfe).
  cbn [older_data]. apply wp_bind. eapply wp_frag_end; [by eapply w_mid|lia|]. rewrite (u32_id (o + z)) by lia.
  destruct (Z.leb_spec (o + z) (fend f)) as [Hin|Hover].
  - apply wp_bind. eapply wp_ldd; [by eapply ow_dnode|]. cbn [dfrags with_frags]. apply wp_ret.
    destruct (Z.eqb_spec (Z.of_nat j) 0) as [Hz0|Hz0].
    + eapply HF; [by right|]. eapply data_in; [exact Hpos|done|lia|done|left; split; [done|lia]].
    + eapply HF; [left; apply Hpass; lia|]. eapply data_in; [exact Hpos|done|lia|done|right; split; [auto|lia]].
  - rewrite u32_id by lia. replace (z - (fend f - o)) with (o + z - fend f) by lia.
    apply wp_bind. eapply w_next; [exact HW|]. destruct r as [|[y g] r]; cbn [head fmap option_fmap option_map fst].
    + eapply (w_check _ _ _ _ _ _ _ (fun e => inl (Return e))); [exact HW|exact HR|]. intros Hp.
      cbn in Hr. pose proof (length_chain _ _ _ Hc) as Hlen. pose proof (refs_le d (nodes_of (l ++ [(x, f)]))) as Hrl.
      assert (L : length (nodes_of (l ++ [(x, f)])) = length (l ++ [(x, f)])) by apply length_fmap.
      apply wp_bind. eapply one_more_ok; [exact HW|lia|lia|]. intros s1 n HW1. apply wp_seq.
      replace (Some x) with (fst <$> last (l ++ [(x, f)])) by by rewrite last_snoc.
      eapply w_link_right; [exact HW1|].
      intros s2 HW2. apply wp_ret. eapply HF; [by left|]. eapply data_append; [exact Hpos|done| |done|exact HW2]. lia.
    + apply wp_ret. destruct (data_past _ _ _ _ _ _ _ _ _ _ _ _ Hpos Hf Hover) as [H1 H2]. by eapply HN.
Qed.
(** The rest of a round, and the rounds after it. *)
Definition older_after (fuel : nat) (pos : older_pos) : F ending :=
  next ← older_data check_node_data tn pos;
  match next with inl e => retF e | inr pos => older_loop check_node_data fuel tn pos end.

Definition loop_ends (s : jffs2) (fs : fseq) (hi o z : Z) (checked : bool) (flag : Z) (Q : ending -> jffs2 -> Prop) : Prop :=
  (forall s', checked = false -> check_result <> 0 -> rejected s s' -> Q (Return check_result) s') /\
  (forall s' fs' fl, passed checked \/ fl = REF_OBSOLETE -> older_final s' fs fs' hi o z flag fl -> Q (Out_ok fl) s').

Definition loop_ok (fuel : nat) (m : older_pos -> F ending) : Prop := forall j k s l x f r hi o z checked flag Q,
  at_pos j k s l x f r hi o z -> (length r < fuel)%nat -> (length r + 3 + spare <= k)%nat -> ((0 < j)%nat -> passed checked) ->
  loop_ends s (l ++ (x, f) :: r) hi o z checked flag Q -> wp (m (Older (Some x) o z checked flag)) s Q.

Lemma after_ok fuel j k s l x f r hi o z checked flag Q :
  loop_ok fuel (older_loop check_node_data fuel tn) -> at_pos j k s l x f r hi o z -> is_Some (fnode f) ->
  (length r <= fuel)%nat -> (length r + 2 + spare <= k)%nat -> ((0 < j)%nat -> passed checked) ->
  loop_ends s (l ++ (x, f) :: r) hi o z checked flag Q -> wp (older_after fuel (Older (Some x) o z checked flag)) s Q.
Proof.
  intros IH Hpos Hf Hfuel Hk Hpass [HR HF]. apply wp_bind. eapply data_step; [exact Hpos|done|lia|done|exact HR|exact HF|].
  intros y g r' -> H1 H2. cbn [length] in *. eapply IH; [exact H1|lia|lia|done|]. split; [exact HR|].
  intros s' fs' fl Hp Hfin. eapply HF; [exact Hp|]. by eapply final_step.
Qed.

Lemma older_loop_ok fuel : loop_ok fuel (older_loop check_node_data fuel tn).
Proof.
  induction fuel as [|fuel IH]; intros j k s l x f r hi o z checked flag Q Hpos Hfuel Hk Hpass [HR HF]; [lia|].
  cbn [older_loop o_this]. apply wp_bind. eapply wp_ldf; [eapply w_mid, Hpos|].
  destruct (fnode f) as [e|] eqn:Ef; apply wp_bind.
  - apply wp_ret. eapply (after_ok fuel); [exact IH|exact Hpos|by rewrite Ef|lia|lia|done|done].
  - eapply hole_step; [exact Hpos|done|lia|exact HR|..].
    + intros s' fs' Hp Hfin. apply wp_ret. eapply HF; [by left|done].
    + intros s' l' y g r' Hp -> Hg H1 H2. cbn [length] in *.
      eapply (after_ok fuel); [exact IH|exact H1|done|lia|lia|by left|]. split; [done|].
      intros s1 fs' fl _ Hfin. eapply HF; [by left|]. by eapply final_step.
Qed.
(** *** The end of the routine *)

Lemma out_ok_ok fl s (Q : Z -> jffs2 -> Prop) :
  (exists j, dnodes s !! d = Some (with_frags j dn)) -> raws s !! draw dn = Some flash ->
  (fl = REF_PRISTINE -> PAGE_CACHE_SIZE <= dsize dn) ->
  (fl = REF_OBSOLETE -> forall m, (forall q, is_Some (m !! q) <-> is_Some (raws s !! q)) ->
     (forall q, q <> draw dn -> m !! q = raws s !! q) ->
     Q 1 (set_obsoleted (obsoleted s ++ [draw dn]) (set_raws m s))) ->
  (fl <> REF_OBSOLETE -> Q 0 (set_raws (<[draw dn := Z.lor (ref_offset flash) fl]> (raws s)) s)) ->
  wp (older_out_ok tn fl) s Q.
Proof.
  intros [j Hd] Hr Hp HO HN. unfold older_out_ok. apply wp_bind. eapply wp_ldd; [exact Hd|]. cbn [dsize with_frags].
  assert (E : (dsize dn <? PAGE_CACHE_SIZE) && (fl =? REF_PRISTINE) = false).
  { destruct (Z.eqb_spec fl REF_PRISTINE) as [H|]; [|apply andb_false_r]. apply Hp in H. destruct (Z.ltb_spec (dsize dn) PAGE_CACHE_SIZE); [lia|done]. }
  rewrite E. apply wp_bind. eapply wp_ldd; [exact Hd|]. cbn [draw with_frags].
  destruct (Z.eqb_spec fl REF_OBSOLETE) as [He|He]; apply wp_bind.
  - apply w_mark_obsolete; [by rewrite Hr|]. intros m Hm Hm'. apply wp_ret. by apply HO.
  - unfold mark_ref. apply wp_bind. unfold wp at 1, ldr, ld_obj. cbn. rewrite Hr. eapply wp_st_obj; [exact Hr|].
    apply wp_ret. by apply HN.
Qed.

(** The node starts behind the end of the file. *)
Lemma end_append s' fs hole n hi k flag :
  chain 0 fs hi -> packed (nodes_of fs) -> Some d ∉ nodes_of fs -> 0 < dsize dn ->
  is_gap hole hi (dofs dn) -> (spare <= k)%nat -> OW 1 k s' (fs ++ hole ++ [(n, Frag (Some d) (dsize dn) (dofs dn))]) out ->
  older_final s' fs (fs ++ hole ++ [(n, Frag (Some d) (dsize dn) (dofs dn))]) hi (dofs dn) (dsize dn) flag flag.
Proof.
  intros Hc Hp Hd Hz Hgap Hk HW. set (fn := Frag _ _ _) in *. pose proof (length_owners _ _ _ Hc) as Hlen. pose proof (chain_le _ _ _ Hc) as Hlo.
  apply refs_zero in Hd.
  assert (Hg : exists p, nodes_of (hole ++ [(n, fn)]) = p ++ [Some d] /\ one_or_no_hole p /\
    owners (hole ++ [(n, fn)]) = span (Z.to_nat (dofs dn - hi)) (Z.to_nat (dsize dn)) (Some d) /\
    chain hi (hole ++ [(n, fn)]) (dofs dn + dsize dn) /\ hi <= dofs dn).
  { destruct Hgap as [[-> <-]|(h & -> & Hlt)]; cbn; unfold fend, span; cbn; rewrite app_nil_r.
    - exists []. rewrite Z.sub_diag. split_and!; try done; try lia. by left.
    - exists [None]. split_and!; try done; try lia. by right. }
  destruct Hg as (p & Hn & Hpp & Ho & Hch & Hle).
  assert (Hr : forall e, refs e (nodes_of (fs ++ hole ++ [(n, fn)])) = ((if decide (e = d) then 1 else 0) + refs e (nodes_of fs))%nat).
  { intros e. rewrite nodes_of_app, Hn, refs_app. destruct Hpp as [-> | ->]; cbn [app]; rewrite !refs_cons; cbn [refs filter length];
      repeat case_decide; simplify_eq; cbn; lia. }
  split.
  - rewrite Hr, Hd, decide_True by done. eapply world_less; [|exact HW]. lia.
  - rewrite Z.max_r by lia. apply chain_app. by exists hi.
  - pose proof (fill_span_skip (owners fs) [] (Z.to_nat (dofs dn - hi)) (Z.to_nat (dsize dn)) (Some d)) as E.
    rewrite app_nil_r in E. cbn [fill] in E. rewrite owners_app, Ho, <-E. do 2 f_equal. lia.
  - rewrite nodes_of_app, Hn. apply packed_app; [done|]. by destruct Hpp as [-> | ->].
  - intros e He. by rewrite Hr, decide_False.
  - right. rewrite Hr, decide_True by done. split; [auto|lia].
Qed.
(** *** The whole routine *)

(** The invariant reads of [raws] only what exists, and not [obsoleted]. *)
Lemma frag_ok_marks s s' fs out' hi :
  frag_ok s fs out' hi -> rbs s' = rbs s -> frags s' = frags s -> slab s' = slab s ->
  (forall e, e ∈ omap id (nodes_of fs) -> dnodes s' !! e = dnodes s !! e) ->
  (forall r, is_Some (raws s' !! r) <-> is_Some (raws s !! r)) -> frag_ok s' fs out' hi.
Proof.
  intros [Ht Hc Hhi Hn Hs] H1 H2 H3 H4 H5. split; [by eapply tree_part_nodes|done|done| |].
  - intros e He. rewrite H4 by (apply list_elem_of_omap; by exists (Some e)).
    destruct (Hn e He) as (x & Hx & Hcx & Hrx). exists x. by rewrite H5.
  - destruct Hs as [A B]. split; by rewrite ?H3, ?H2.
Qed.

Lemma frag_ok_final s' fs fs' hi o z flag fl :
  frag_ok s0 fs out hi -> o + z < 2 ^ 32 -> older_final s' fs fs' hi o z flag fl -> frag_ok s' fs' out (Z.max hi (o + z)).
Proof.
  intros [_ _ Hhi Hn _] Hoz [(Ht & (Hd & Hr & _) & Hs & _) Hc _ _ Hot _]. split; [done|done|lia| |done].
  intros e He. rewrite Hd, Hr. destruct (decide (e = d)) as [->|Hne].
  - exists (with_frags (refs d (nodes_of fs')) dn). rewrite lookup_insert_eq. cbn. by rewrite Hflash.
  - rewrite lookup_insert_ne by congruence. rewrite (Hot e Hne). apply Hn. apply refs_in. rewrite <-(Hot e Hne). by apply refs_in.
Qed.

(** The bytes the tree maps afterwards. *)
Definition older_bytes (fs : fseq) : list (option ptr) :=
  fill (owners fs) (span (Z.to_nat (dofs dn)) (Z.to_nat (dsize dn)) (Some d)).

(** The node fails its check: only its own status changes. *)
Definition older_rejected (s' : jffs2) (fs : fseq) (hi : Z) : Prop :=
  frag_ok s' fs out hi /\ obsoleted s' = obsoleted s0 ++ (if 0 <? check_result then [draw dn] else []).

(** It joins the tree, or has no byte to give and is marked obsolete. *)
Definition older_added (s' : jffs2) (fs : fseq) (hi ret : Z) : Prop :=
  exists fs', frag_ok s' fs' out (Z.max hi (dofs dn + dsize dn)) /\ owners fs' = older_bytes fs /\ packed (nodes_of fs') /\
    (ret = 0 /\ check_result = 0 /\ Some d ∈ older_bytes fs /\ obsoleted s' = obsoleted s0 \/
     ret = 1 /\ Some d ∉ older_bytes fs /\ obsoleted s' = obsoleted s0 ++ [draw dn]).

Definition older_result (s' : jffs2) (fs : fseq) (hi ret : Z) : Prop :=
  supply spare s' /\ (forall e, e <> d -> dnodes s' !! e = dnodes s0 !! e) /\
  (exists dn', dnodes s' !! d = Some dn' /\ same_node dn dn') /\
  (forall r, r <> draw dn -> raws s' !! r = raws s0 !! r) /\
  (ret = check_result /\ check_result <> 0 /\ older_rejected s' fs hi \/ older_added s' fs hi ret).

Definition start_flag : Z := if PAGE_CACHE_SIZE <=? dsize dn then REF_PRISTINE else REF_NORMAL.

Lemma final_ok s fs fs' hi fl :
  frag_ok s0 fs out hi -> 0 <= dofs dn -> dofs dn + dsize dn < 2 ^ 32 -> passed false \/ fl = REF_OBSOLETE ->
  older_final s fs fs' hi (dofs dn) (dsize dn) start_flag fl ->
  wp (older_out_ok tn fl) s (fun ret s' => older_result s' fs hi ret).
Proof.
  intros Hok Ho Hoz Hp Hfin. pose proof (frag_ok_final _ _ _ _ _ _ _ _ Hok Hoz Hfin) as Hok'. pose proof Hok' as [_ Hc' _ _ _].
  destruct Hfin as [HW Hc Hown Hpk Hot Hfl]. pose proof HW as (_ & (Hd & Hr & Hob) & _ & Hsup).
  assert (Hother : forall e, e <> d -> dnodes s !! e = dnodes s0 !! e).
  { intros e He. by rewrite Hd, lookup_insert_ne by congruence. }
  assert (Hself : exists dn', dnodes s !! d = Some dn' /\ same_node dn dn').
  { eexists. split; [by eapply ow_dnode|done]. }
  assert (Hst : start_flag <> REF_OBSOLETE) by (unfold start_flag; by destruct (_ <=? _)).
  eapply out_ok_ok.
  - eexists. by eapply ow_dnode.
  - by rewrite Hr.
  - intros ->. destruct Hfl as [[? _]|[[H|H] _]]; [done| |done]. unfold start_flag in H. by destruct (Z.leb_spec PAGE_CACHE_SIZE (dsize dn)).
  - intros Hf m Hm Hm'. assert (Hz : refs d (nodes_of fs') = 0%nat) by (destruct Hfl as [[_ ?]|[[?|?] _]]; [done|congruence..|subst fl; done]).
    split; [done|]. split; [done|]. split; [done|]. split; [by rewrite <-Hr|]. right. exists fs'. split; [|split; [done|split; [done|]]].
    + eapply frag_ok_marks; [exact Hok'|done..|exact Hm].
    + right. unfold older_bytes. rewrite <-Hown, <-(nodes_of_owners _ _ _ _ Hc'), <-Hob. by apply refs_zero in Hz.
  - intros Hf. assert (Hz : (0 < refs d (nodes_of fs'))%nat) by (destruct Hfl as [[? _]|[_ ?]]; [done|done]).
    split; [done|]. split; [done|]. split; [done|].
    split; [intros q Hq; cbn [raws set_raws]; by rewrite lookup_insert_ne, Hr by congruence|].
    right. exists fs'. split; [|split; [done|split; [done|]]].
    + eapply frag_ok_marks; [exact Hok'|done..|]. intros q. cbn [raws set_raws].
      destruct (decide (q = draw dn)) as [->|]; [rewrite lookup_insert_eq, Hr, Hflash; by split; eexists|by rewrite lookup_insert_ne].
    + left. unfold older_bytes. rewrite <-Hown, <-(nodes_of_owners _ _ _ _ Hc').
      split; [done|]. split; [by destruct Hp as [[|]|]|]. split; [by apply refs_in|done].
Qed.
(** The counts are set, and the world of the node starts. *)
Lemma start_world j k fs hi :
  frag_ok s0 fs out hi -> supply k s0 -> let s1 := set_dnodes (<[d := with_frags j dn]> (dnodes s0)) s0 in OW j k s1 fs out.
Proof.
  intros Hok Hk s1. split; [by apply (tree_part_nodes s0), Hok|]. split; [by split|]. split; [apply Hok|exact Hk].
Qed.

Lemma rejected_result s1 s' fs hi :
  frag_ok s0 fs out hi -> supply spare s0 -> Some d ∉ nodes_of fs -> check_result <> 0 ->
  rbs s1 = rbs s0 -> frags s1 = frags s0 -> slab s1 = slab s0 -> raws s1 = raws s0 -> obsoleted s1 = obsoleted s0 ->
  (forall e, e <> d -> dnodes s1 !! e = dnodes s0 !! e) ->
  (exists dn', dnodes s1 !! d = Some dn' /\ same_node dn dn') -> rejected s1 s' -> older_result s' fs hi check_result.
Proof.
  intros Hok Hk Hd Hne E1 E2 E3 E4 E5 E6 E7 (R1 & R2 & R3 & R4 & R5 & R6 & R7).
  assert (Hother : forall e, e <> d -> dnodes s' !! e = dnodes s0 !! e) by (intros e He; rewrite R3; by apply E6).
  split; [intros i Hi; rewrite R4, E3; by apply Hk|]. split; [done|].
  split; [by rewrite R3|]. split; [intros r Hr; rewrite R7, E4 by done; done|].
  left. split; [done|]. split; [done|]. split; [|by rewrite R5, E5].
  eapply (frag_ok_marks s0); [exact Hok|congruence..| |].
  - intros e He. apply Hother. intros ->. apply Hd. apply list_elem_of_omap in He as (x & Hx & Hid). by unfold id in Hid; subst.
  - intros q. by rewrite R6, E4.
Qed.

Theorem older_spec fs hi :
  frag_ok s0 fs out hi -> packed (nodes_of fs) -> supply (length fs + 2 + spare) s0 -> Some d ∉ owners fs ->
  0 <= dofs dn -> 0 < dsize dn -> dofs dn + dsize dn < 2 ^ 32 ->
  wp (jffs2_add_older_frag_to_fragtree check_node_data tn) s0 (fun ret s' => older_result s' fs hi ret).
Proof.
  intros Hok Hpk Hk Hd Ho Hz Hoz. pose proof Hok as [Ht Hc Hhi _ _]. rewrite <-(nodes_of_owners _ _ _ _ Hc) in Hd.
  assert (Hsp : supply spare s0) by (intros i Hi; apply Hk; lia).
  unfold jffs2_add_older_frag_to_fragtree. apply wp_bind. eapply wp_ldd; [exact Hdn|]. apply wp_bind. eapply wp_ldd; [exact Hdn|].
  apply wp_bind. eapply wp_lookup; [exact Ht|exact Hc|done|lia|]. intros x Hx. fold start_flag.
  unfold looked_up in Hx. case_decide as Hin.
  - destruct Hx as (l & y & f & r & -> & Hf & ->). destruct (chain_mid _ _ _ _ _ Hc) as (_ & _ & _ & Hf0 & Hfe).
    apply wp_bind. eapply wp_frag_end; [eapply tp_in; [exact Ht|rewrite elem_of_app; right; left]|lia|].
    destruct (Z.leb_spec (fend f) (dofs dn)); [lia|]. apply wp_bind. eapply wp_st_obj; [exact Hdn|].
    pose proof (start_world 0 _ _ _ Hok Hk) as HW. cbn zeta in HW.
    change (Dnode (draw dn) (dofs dn) (dsize dn) 0) with (with_frags 0 dn).
    set (s1 := set_dnodes _ s0) in *. apply wp_bind. eapply w_fuel; [exact HW|]. intros fuel Hfuel.
    rewrite length_app in *. cbn [length] in *.
    eapply older_loop_ok with (k := (length r + 3 + spare)%nat); [split; [|exact Hc|done|done| |lia..]| | | |].
    + eapply world_less; [|exact HW]. lia.
    + by apply refs_zero in Hd.
    + lia.
    + lia.
    + lia.
    + split.
      * intros s' _ Hne Hrej. apply wp_ret. eapply (rejected_result s1); [exact Hok|done|done|done|done..| | |exact Hrej].
        -- intros e He. cbn. by rewrite lookup_insert_ne by congruence.
        -- exists (with_frags 0 dn). split; [apply lookup_insert_eq|done].
      * intros s' fs' fl Hp Hfin. cbn [older_end]. by eapply final_ok.
  - assert (Hx' : x = fst <$> last fs) by (rewrite Hx; by destruct (last fs) as [[]|]). clear Hx.
    apply wp_bind. eapply wp_lastend; [exact Ht|exact Hc|done|done|]. subst x.
    destruct (Z.leb_spec hi (dofs dn)); [|lia].
    change (check_node check_node_data tn) with (check_once check_node_data tn false).
    eapply (wp_check s0 dn false _ id); [exact Hdn|done|done| |].
    { intros s' _ Hne Hrej. eapply (rejected_result s0); [exact Hok|done..| |exact Hrej]. by exists dn. }
    intros Hp. apply wp_bind. eapply wp_st_obj; [exact Hdn|].
    change (Dnode (draw dn) (dofs dn) (dsize dn) 1) with (with_frags 1 dn).
    pose proof (start_world 1 _ _ _ Hok Hk) as HW. cbn zeta in HW.
    apply wp_bind. eapply w_new; [exact HW|intros; lia|]. intros s2 n HW2. apply wp_bind.
    eapply w_no_overlap; [exact HW2|done|by eapply ow_dnode|done| |cbn; lia|intros; lia|].
    { apply chain_le in Hc. cbn. lia. }
    intros s3 hole Hgap HW3. cbn [Z.eqb negb]. eapply final_ok; [exact Hok|done|done|by left|].
    eapply end_append; [exact Hc|done..| |exact HW3]. lia.
Qed.
End Older.
