(* ===== verification/FragInode.v ===== *)
(** * JFFS2: building the tree of an inode (fs/jffs2/readinode.c)

    When an inode is read, its nodes are considered from the newest to the
    oldest.  [consider_nodes] is that loop, on the list of the nodes; it is
    shown to build what writing the same nodes one after the other builds. *)

From stdpp Require Import gmap.
From S2P Require Import Prelude RbSpec Rbtree RbOps Fragtree FragRep FragNodes FragAdd FragFile FragFill FragOld.

(** ** The code *)

Section Inode.
Context (check_node_data : jffs2_tmp_dnode_info -> Z).

(** [first_fn] and [f->metadata]. *)
Record found := Found { first_fn : option ptr; metadata : option ptr }.

(** One round of the loop, for the node of [tn]. *)
Definition consider_node (tn : jffs2_tmp_dnode_info) (st : found) : F found :=
  let fn := Some (tn_fn tn) in
  z ← ldd dsize fn;
  '(ret, st) ← (if negb (z =? 0) then
                  ret ← jffs2_add_older_frag_to_fragtree check_node_data tn;
                  if ret <? 0 then failF Bug
                  else
                    match first_fn st with
                    | None => retF (ret, if ret =? 0 then Found fn (metadata st) else st)
                    | Some _ => retF (ret, st)
                    end
                else
                  match first_fn st with
                  | None => retF (0, Found fn fn)
                  | Some _ => r ← ldd draw fn; mark_obsolete r;; retF (1, st)
                  end);
  (if negb (ret =? 0) then jffs2_free_full_dnode fn else retF tt);;
  retF st.

Fixpoint consider_nodes (tns : list jffs2_tmp_dnode_info) (st : found) : F found :=
  match tns with
  | [] => retF st
  | tn :: tns => st ← consider_node tn st; consider_nodes tns st
  end.

(** ** What a round does *)

(** A node that is still to be considered, with its object and its status on
    flash. *)
Record waiting := Waiting { w_tn : jffs2_tmp_dnode_info; w_dn : jffs2_full_dnode; w_flash : Z }.
Definition w_node (w : waiting) : ptr := tn_fn (w_tn w).
Definition w_check (w : waiting) : Z := check_result check_node_data (w_tn w) (w_flash w).

(** The bytes it covers, and those of the file when it has been considered. *)
Definition w_span (w : waiting) : list (option ptr) :=
  span (Z.to_nat (dofs (w_dn w))) (Z.to_nat (dsize (w_dn w))) (Some (w_node w)).
Definition gives (w : waiting) : bool := (0 <? dsize (w_dn w)) && (w_check w =? 0).
Definition consider (ow : list (option ptr)) (w : waiting) : list (option ptr) :=
  if gives w then fill ow (w_span w) else ow.

(** [size] bounds the file. *)
Record waits (size : Z) (s : jffs2) (ow : list (option ptr)) (w : waiting) : Prop := {
  wt_node : dnodes s !! w_node w = Some (w_dn w);
  wt_flash : raws s !! draw (w_dn w) = Some (w_flash w);
  wt_fresh : ref_obsolete (w_flash w) = false;
  wt_check : 0 <= w_check w;
  wt_ofs : 0 <= dofs (w_dn w);
  wt_size : 0 <= dsize (w_dn w);
  wt_end : dofs (w_dn w) + dsize (w_dn w) <= size;
  wt_new : Some (w_node w) ∉ ow }.

(** The tree [fs] and the nodes [ws] that are left. *)
Record inode_inv (size : Z) (s : jffs2) (fs out : fseq) (hi : Z) (ws : list waiting) : Prop := {
  ii_frag : frag_ok s fs out hi;
  ii_hi : hi <= size;
  ii_packed : packed (nodes_of fs);
  ii_waits : forall w, w ∈ ws -> waits size s (owners fs) w;
  ii_nodes : NoDup (w_node <$> ws);
  ii_raws : NoDup ((fun w => draw (w_dn w)) <$> ws) }.

(** The nodes that do not stay: they have no byte, and are not the metadata. *)
Definition gone (ow : list (option ptr)) (md : option ptr) (w : waiting) : Prop :=
  Some (w_node w) ∉ ow /\ md <> Some (w_node w).
#[local] Instance gone_dec ow md w : Decision (gone ow md w).
Proof. unfold gone. apply _. Defined.

Definition found_ok (st : found) : Prop := first_fn st = None -> metadata st = None.

Record considered (s s' : jffs2) (fs' : fseq) (w : waiting) (st st' : found) : Prop := {
  cd_other : forall e, e <> w_node w -> dnodes s' !! e = dnodes s !! e;
  cd_found : found_ok st';
  cd_metadata : metadata st' = metadata st \/ metadata st = None /\ metadata st' = Some (w_node w);
  cd_stays : first_fn st <> None -> metadata st' = metadata st;
  cd_first : first_fn st <> None -> first_fn st' <> None;
  cd_gone : if decide (gone (owners fs') (metadata st') w)
            then dnodes s' !! w_node w = None /\ obsoleted s' = obsoleted s ++ [draw (w_dn w)]
            else dnodes s' !! w_node w <> None /\ obsoleted s' = obsoleted s }.

(** *** Lemmas *)

(** A node that gives no byte leaves the map as it is. *)
Lemma fill_covered {A} (ow : list (option A)) o z x :
  (0 < z)%nat -> Some x ∉ fill ow (span o z (Some x)) -> fill ow (span o z (Some x)) = ow.
Proof.
  intros Hz Hx. apply list_eq. intros i. rewrite lookup_fill, lookup_span.
  assert (H : forall j, fill ow (span o z (Some x)) !! j <> Some (Some x)).
  { intros j Hj. by apply Hx, (list_elem_of_lookup_2 _ j). }
  assert (Hlen : (o + z <= length ow)%nat).
  { destruct (decide (o + z <= length ow)%nat) as [|Hlt]; [done|]. exfalso. apply (H (o + z - 1)%nat).
    rewrite lookup_fill, lookup_span, (lookup_ge_None_2 ow) by lia. by rewrite decide_False, decide_True by lia. }
  specialize (H i). rewrite lookup_fill, lookup_span in H.
  destruct (ow !! i) as [[y|]|] eqn:E; [done| |].
  - by repeat case_decide.
  - apply lookup_ge_None in E. by rewrite !decide_False by lia.
Qed.

Lemma elem_of_fill {A} (ow k : list (option A)) x : Some x ∈ ow -> Some x ∈ fill ow k.
Proof.
  intros [i Hi]%list_elem_of_lookup. apply (list_elem_of_lookup_2 _ i). by rewrite lookup_fill, Hi.
Qed.

Lemma elem_of_fill_inv {A} (ow k : list (option A)) x : Some x ∈ fill ow k -> Some x ∈ ow \/ Some x ∈ k.
Proof.
  intros [i Hi]%list_elem_of_lookup. rewrite lookup_fill in Hi. destruct (ow !! i) as [[y|]|] eqn:E.
  - injection Hi as <-. left. by apply (list_elem_of_lookup_2 _ i).
  - right. apply (list_elem_of_lookup_2 _ i). destruct (k !! i) as [[]|]; cbn in Hi; congruence.
  - right. by apply (list_elem_of_lookup_2 _ i).
Qed.

Lemma elem_of_span {A} o z (x y : A) : Some x ∈ span o z (Some y) -> x = y.
Proof. intros [[? _]%elem_of_replicate|[? _]%elem_of_replicate]%elem_of_app; congruence. Qed.

Lemma consider_mono ow w d : Some d ∈ ow -> Some d ∈ consider ow w.
Proof. unfold consider. destruct (gives w); [|done]. apply elem_of_fill. Qed.

Lemma consider_inv ow w d : Some d ∈ consider ow w -> Some d ∈ ow \/ d = w_node w.
Proof.
  unfold consider. destruct (gives w); [|auto]. intros [?|H]%elem_of_fill_inv; [auto|]. right. by apply elem_of_span in H.
Qed.

(** The node [w] is done with. *)
Lemma inode_next size s fs out hi w ws s' fs' hi' :
  inode_inv size s fs out hi (w :: ws) -> frag_ok s' fs' out hi' -> hi' <= size -> packed (nodes_of fs') ->
  owners fs' = consider (owners fs) w -> (forall e, e <> w_node w -> dnodes s' !! e = dnodes s !! e) ->
  (forall r, r <> draw (w_dn w) -> raws s' !! r = raws s !! r) -> inode_inv size s' fs' out hi' ws.
Proof.
  intros [Hok Hhi Hpk Hw Hn Hr] Hok' Hhi' Hpk' Ho Hd Hra. rewrite fmap_cons in Hn, Hr.
  apply NoDup_cons in Hn as [Hn1 Hn], Hr as [Hr1 Hr]. split; [done..| |done|done].
  intros v Hv. assert (Hnw : w_node v <> w_node w).
  { intros E. apply Hn1. rewrite <-E. by apply list_elem_of_fmap_2. }
  assert (Hrw : draw (w_dn v) <> draw (w_dn w)).
  { intros E. apply Hr1. rewrite <-E. by apply (list_elem_of_fmap_2 (fun w => draw (w_dn w))). }
  destruct (Hw v ltac:(by right)) as [H1 H2 H3 H4 H5 H6 H7 H8]. split; try done.
  - by rewrite Hd.
  - by rewrite Hra.
  - rewrite Ho. by intros [?|?]%consider_inv.
Qed.

(** A node without fragments is freed. *)
Lemma frag_ok_free s fs out hi d : frag_ok s fs out hi -> Some d ∉ owners fs -> frag_ok (set_dnodes (delete d (dnodes s)) s) fs out hi.
Proof.
  intros Hok Hd. pose proof Hok as [_ Hc _ _ _]. rewrite <-(nodes_of_owners _ _ _ _ Hc) in Hd.
  eapply frag_ok_marks; [exact Hok|done..| |done]. intros e He. cbn [dnodes set_dnodes]. apply lookup_delete_ne. intros ->.
  apply Hd. apply list_elem_of_omap in He as (x & Hx & Hid). by unfold id in Hid; subst.
Qed.

Lemma length_frags s fs out hi : frag_ok s fs out hi -> Z.of_nat (length fs) <= hi.
Proof. intros [_ Hc%length_chain _ _ _]. lia. Qed.

(** *** One round *)

Lemma wp_free_dnode s d dn (Q : unit -> jffs2 -> Prop) :
  dnodes s !! d = Some dn -> Q tt (set_dnodes (delete d (dnodes s)) s) -> wp (jffs2_free_full_dnode (Some d)) s Q.
Proof. intros H HQ. unfold wp, jffs2_free_full_dnode. by rewrite H. Qed.

(** What a round leaves behind, before and after the node is freed. *)
Definition round_ok (size : Z) (spare : nat) (s : jffs2) (fs out : fseq) (w : waiting) (ws : list waiting) (st st' : found) (s' : jffs2) : Prop :=
  exists fs' hi', inode_inv size s' fs' out hi' ws /\ supply spare s' /\ owners fs' = consider (owners fs) w /\
    considered s s' fs' w st st'.

Lemma round_free size spare s s1 fs out w ws st fs' hi' dn' ret :
  ret <> 0 ->
  inode_inv size s1 fs' out hi' ws -> supply spare s1 -> owners fs' = consider (owners fs) w ->
  (forall e, e <> w_node w -> dnodes s1 !! e = dnodes s !! e) -> dnodes s1 !! w_node w = Some dn' ->
  obsoleted s1 = obsoleted s ++ [draw (w_dn w)] -> Some (w_node w) ∉ owners fs' -> w_node w ∉ w_node <$> ws ->
  metadata st <> Some (w_node w) -> found_ok st ->
  wp ((if negb (ret =? 0) then jffs2_free_full_dnode (Some (w_node w)) else retF tt);; retF st) s1
    (round_ok size spare s fs out w ws st).
Proof.
  intros Hret [Hok Hhi Hpk Hw Hn Hr] Hsup Hown Hoth Hdn Hob Hnew Hnin Hmd Hst. destruct (Z.eqb_spec ret 0) as [?|_]; [done|]. apply wp_bind.
  eapply wp_free_dnode; [exact Hdn|]. apply wp_ret. exists fs', hi'. split; [|split; [done|split; [done|]]].
  - split; [by apply frag_ok_free|done|done| |done|done]. intros v Hv. destruct (Hw v Hv) as [H1 H2 H3 H4 H5 H6 H7 H8].
    split; try done. cbn [dnodes set_dnodes]. rewrite lookup_delete_ne; [done|]. intros E. apply Hnin.
    rewrite E. by apply list_elem_of_fmap_2.
  - split; [|done|by left|done|done|].
    + intros e He. cbn [dnodes set_dnodes]. by rewrite lookup_delete_ne, Hoth by congruence.
    + rewrite decide_True by done. split; [|done]. apply lookup_delete_eq.
Qed.

Lemma round_keep size spare s s1 fs out w ws st st' fs' hi' :
  inode_inv size s1 fs' out hi' ws -> supply spare s1 -> owners fs' = consider (owners fs) w ->
  (forall e, e <> w_node w -> dnodes s1 !! e = dnodes s !! e) -> dnodes s1 !! w_node w <> None -> obsoleted s1 = obsoleted s ->
  Some (w_node w) ∈ owners fs' \/ metadata st' = Some (w_node w) -> found_ok st' ->
  metadata st' = metadata st \/ metadata st = None /\ metadata st' = Some (w_node w) ->
  (first_fn st <> None -> metadata st' = metadata st) -> (first_fn st <> None -> first_fn st' <> None) ->
  wp ((if negb (0 =? 0) then jffs2_free_full_dnode (Some (w_node w)) else retF tt);; retF st') s1
    (round_ok size spare s fs out w ws st).
Proof.
  intros Hi Hsup Hown Hoth Hdn Hob Hin Hst Hmd Hfm Hff. apply wp_bind, wp_ret, wp_ret. exists fs', hi'.
  split; [done|]. split; [done|]. split; [done|]. split; try done. rewrite decide_False; [done|]. unfold gone. tauto.
Qed.

Lemma consider_ok size spare s fs out hi w ws st :
  inode_inv size s fs out hi (w :: ws) -> size < 2 ^ 32 -> supply (Z.to_nat size + 2 + spare) s -> found_ok st ->
  metadata st <> Some (w_node w) ->
  wp (consider_node (w_tn w) st) s (round_ok size spare s fs out w ws st).
Proof.
  intros Hi Hsz Hsup Hst Hmd. pose proof Hi as [Hok Hhi Hpk Hw Hn Hr]. pose proof (length_frags _ _ _ _ Hok) as Hlen.
  destruct (Hw w ltac:(left)) as [H1 H2 H3 H4 H5 H6 H7 H8]. rewrite fmap_cons in Hn. apply NoDup_cons in Hn as [Hn _].
  assert (Hspare : supply spare s) by (intros i Hi'; apply Hsup; lia).
  unfold consider_node. apply wp_bind. eapply wp_ldd; [exact H1|]. apply wp_bind.
  destruct (Z.eqb_spec (dsize (w_dn w)) 0) as [Hz|Hz]; cbn [negb].
  - assert (Hown : owners fs = consider (owners fs) w) by (unfold consider, gives; by rewrite Hz).
    destruct (first_fn st) as [f|] eqn:Ef.
    + apply wp_bind. eapply wp_ldd; [exact H1|]. apply wp_bind. apply w_mark_obsolete; [by rewrite H2|]. intros m Hm Hm'.
      apply wp_ret. eapply round_free; [done| |done|exact Hown|done|exact H1|done|done|exact Hn|done|done].
      eapply inode_next; [exact Hi| |exact Hhi|done|done|done|exact Hm']. eapply frag_ok_marks; [exact Hok|done..|exact Hm].
    + apply wp_ret. eapply round_keep; [|exact Hspare|exact Hown|done|by rewrite H1|done|by right|done| | |].
      * by eapply (inode_next _ _ _ _ hi _ _ _ _ hi).
      * right. split; [by apply Hst|done].
      * by rewrite Ef.
      * done.
  - apply wp_bind. eapply wp_mono.
    { eapply (older_spec check_node_data (w_tn w) s out (w_dn w) (w_flash w) spare H1 H2 H3 fs hi Hok Hpk); try lia; [|done].
      intros i Hi'. apply Hsup. lia. }
    intros ret s1 (Hsup1 & Hoth & (dn' & Hdn' & _) & Hra & Hres).
    assert (Hc : exists fs' hi', inode_inv size s1 fs' out hi' ws /\ owners fs' = consider (owners fs) w /\
      (ret = 0 /\ Some (w_node w) ∈ owners fs' /\ obsoleted s1 = obsoleted s \/
       0 < ret /\ Some (w_node w) ∉ owners fs' /\ obsoleted s1 = obsoleted s ++ [draw (w_dn w)])).
    { assert (Hgz : 0 <? dsize (w_dn w) = true) by (apply Z.ltb_lt; lia).
      destruct Hres as [(-> & Hne & Hok1 & Hob)|(fs' & Hok1 & Hown & Hpk1 & Hres)].
      - fold (w_check w) in Hne, Hob. assert (Hown : owners fs = consider (owners fs) w).
        { unfold consider, gives. destruct (Z.eqb_spec (w_check w) 0); [done|]. by rewrite andb_false_r. }
        exists fs, hi. split; [by eapply (inode_next _ _ _ _ hi)|]. split; [done|]. right. fold (w_check w).
        destruct (Z.ltb_spec 0 (w_check w)); [|lia]. done.
      - unfold older_bytes in *. fold (w_node w) in *. assert (Hown' : owners fs' = consider (owners fs) w).
        { rewrite Hown. unfold consider, gives. fold (w_span w) in *. rewrite Hgz. destruct (Z.eqb_spec (w_check w) 0) as [|Hne]; [done|].
          destruct Hres as [(_ & ? & _)|(_ & Hnot & _)]; [done|]. apply fill_covered; [lia|done]. }
        exists fs', (Z.max hi (dofs (w_dn w) + dsize (w_dn w))). rewrite Hown.
        split; [eapply inode_next; try done; lia|]. split; [by rewrite <-Hown|].
        destruct Hres as [(-> & _ & ? & ?)|(-> & ? & ?)]; [by left|by right]. }
    destruct Hc as (fs' & hi' & Hi1 & Hown1 & [(-> & Hin & Hob)|(Hpos & Hnin & Hob)]).
    + cbn [Z.ltb Z.compare Z.eqb]. destruct (first_fn st) as [f|] eqn:Ef; apply wp_ret.
      * eapply round_keep; [exact Hi1|done|done|done|by unfold w_node; rewrite Hdn'|done|by left|done|by left|done|done].
      * eapply round_keep; [exact Hi1|done|done|done|by unfold w_node; rewrite Hdn'|done|by left| |by left|by rewrite Ef|by rewrite Ef].
        intros E. by apply Hst.
    + destruct (Z.ltb_spec ret 0); [lia|]. destruct (Z.eqb_spec ret 0); [lia|].
      assert (Hfree : wp ((if negb (ret =? 0) then jffs2_free_full_dnode (Some (w_node w)) else retF tt);; retF st) s1
        (round_ok size spare s fs out w ws st)) by by eapply round_free.
      destruct (first_fn st); apply wp_ret; exact Hfree.
Qed.

(** *** The loop *)

Lemma consider_all_in ow ws d : d ∉ w_node <$> ws -> Some d ∈ foldl consider ow ws <-> Some d ∈ ow.
Proof.
  revert ow. induction ws as [|w ws IH]; intros ow; cbn [foldl]; [done|].
  rewrite fmap_cons, not_elem_of_cons. intros [H1 H2]. rewrite IH by done. split; [|apply consider_mono].
  by intros [?|?]%consider_inv.
Qed.

Record all_considered (s s' : jffs2) (fs' : fseq) (ws : list waiting) (st st' : found) : Prop := {
  ac_other : forall e, e ∉ w_node <$> ws -> dnodes s' !! e = dnodes s !! e;
  ac_metadata : metadata st' = metadata st \/ exists w, w ∈ ws /\ metadata st' = Some (w_node w);
  ac_stays : first_fn st <> None -> metadata st' = metadata st;
  ac_gone : forall w, w ∈ ws -> dnodes s' !! w_node w = None <-> gone (owners fs') (metadata st') w;
  ac_obsolete : obsoleted s' = obsoleted s ++ ((fun w => draw (w_dn w)) <$> filter (gone (owners fs') (metadata st')) ws) }.

Lemma all_cons s s1 s' fs1 fs' w ws st st1 st' :
  considered s s1 fs1 w st st1 -> all_considered s1 s' fs' ws st1 st' -> owners fs' = foldl consider (owners fs1) ws ->
  found_ok st -> w_node w ∉ w_node <$> ws -> all_considered s s' fs' (w :: ws) st st'.
Proof.
  intros [A1 A2 A3 A4 A5 A6] [B1 B2 B3 B4 B5] Hown Hst Hn.
  assert (Hmd : metadata st' = Some (w_node w) <-> metadata st1 = Some (w_node w)).
  { split.
    - intros E. destruct B2 as [<-|(v & Hv & E')]; [done|]. exfalso. apply Hn.
      assert (w_node w = w_node v) as -> by congruence. by apply list_elem_of_fmap_2.
    - intros E. rewrite B3; [done|]. intros E'. apply A2 in E'. congruence. }
  assert (Hg : gone (owners fs') (metadata st') w <-> gone (owners fs1) (metadata st1) w).
  { unfold gone. by rewrite Hmd, Hown, consider_all_in. }
  split.
  - intros e [H1 H2]%not_elem_of_cons. by rewrite B1, A1.
  - destruct B2 as [E|(v & Hv & E)].
    + rewrite E. destruct A3 as [?|[_ ?]]; [by left|]. right. exists w. split; [left|done].
    + right. exists v. split; [by right|done].
  - intros Hf. by rewrite B3, A4 by auto.
  - intros v [->|Hv]%elem_of_cons; [|by apply B4]. rewrite B1, Hg by done.
    case_decide; destruct A6; by split.
  - rewrite B5, filter_cons, (decide_ext _ _ _ _ Hg). revert A6. case_decide; intros [_ ->]; [|done].
    by rewrite <-app_assoc.
Qed.

Lemma consider_nodes_spec size spare ws : forall s fs out hi st,
  inode_inv size s fs out hi ws -> size < 2 ^ 32 -> supply (length ws * (Z.to_nat size + 2) + spare) s -> found_ok st ->
  (forall w, w ∈ ws -> metadata st <> Some (w_node w)) ->
  wp (consider_nodes (w_tn <$> ws) st) s (fun st' s' => exists fs' hi',
    inode_inv size s' fs' out hi' [] /\ supply spare s' /\ owners fs' = foldl consider (owners fs) ws /\
    all_considered s s' fs' ws st st').
Proof.
  induction ws as [|w ws IH]; intros s fs out hi st Hi Hsz Hsup Hst Hmd; cbn [fmap list_fmap consider_nodes foldl].
  - apply wp_ret. exists fs, hi. split; [done|]. split; [done|]. split; [done|]. split; [done|by left|done| |by rewrite app_nil_r].
    by intros w ?%elem_of_nil.
  - pose proof Hi as [_ _ _ _ Hn _]. rewrite fmap_cons in Hn. apply NoDup_cons in Hn as [Hn _].
    apply wp_bind. eapply wp_mono.
    { eapply (consider_ok size (length ws * (Z.to_nat size + 2) + spare)); [exact Hi|done| |done|apply Hmd; left].
      intros i Hi'. apply Hsup. cbn [length]. lia. }
    intros st1 s1 (fs1 & hi1 & Hi1 & Hsup1 & Hown1 & Hcd). eapply wp_mono.
    { eapply IH; [exact Hi1|done|done|apply Hcd|]. intros v Hv E. destruct (cd_metadata _ _ _ _ _ _ Hcd) as [E'|[_ E']].
      - apply (Hmd v); [by right|congruence].
      - apply Hn. assert (w_node w = w_node v) as -> by congruence. by apply list_elem_of_fmap_2. }
    intros st' s' (fs' & hi' & Hi' & Hsup' & Hown' & Hall). exists fs', hi'. split; [done|]. split; [done|].
    split; [by rewrite Hown', Hown1|]. by eapply all_cons.
Qed.

(** ** The order does not matter *)

(** A file to which the node of [w] is written. *)
Definition write (ow : list (option ptr)) (w : waiting) : list (option ptr) :=
  overlay ow (Z.to_nat (dofs (w_dn w))) (Z.to_nat (dsize (w_dn w))) (Some (w_node w)).

Lemma consider_fill ow ws : foldl consider ow ws = fill ow (foldl consider [] ws).
Proof.
  revert ow. induction ws as [|w ws IH]; intros ow; cbn [foldl]; [by rewrite fill_nil_r|].
  rewrite IH, (IH (consider [] w)). unfold consider. destruct (gives w); cbn [fill]; [|done]. by rewrite fill_assoc.
Qed.

Lemma consider_write ws : foldl consider [] ws = foldl write [] (reverse (filter gives ws)).
Proof.
  induction ws as [|w ws IH]; [done|]. cbn [foldl]. rewrite consider_fill, IH, filter_cons. unfold consider.
  destruct (gives w); cbn [fill]; [|by rewrite decide_False by by intros ?].
  rewrite decide_True by done. rewrite reverse_cons, foldl_app. cbn [foldl]. unfold w_span. by rewrite <-overlay_fill.
Qed.
End Inode.

(** ** Writing nodes one after the other *)

(** The calls, and what they return. *)
Fixpoint write_nodes (ds : list ptr) : F (list Z) :=
  match ds with
  | [] => retF []
  | d :: ds => ret ← jffs2_add_full_dnode_to_inode (Some d); rets ← write_nodes ds; retF (ret :: rets)
  end.

(** A node that can be added. *)
Record writable (size : Z) (s : jffs2) (ow : list (option ptr)) (d : ptr) (dn : jffs2_full_dnode) : Prop := {
  wr_node : dnodes s !! d = Some dn;
  wr_raw : is_Some (raws s !! draw dn);
  wr_new : Some d ∉ ow;
  wr_ofs : 0 <= dofs dn;
  wr_size : 0 < dsize dn;
  wr_end : dofs dn + dsize dn <= size }.

Definition write_dn (ow : list (option ptr)) (w : ptr * jffs2_full_dnode) : list (option ptr) :=
  overlay ow (Z.to_nat (dofs w.2)) (Z.to_nat (dsize w.2)) (Some w.1).

Lemma write_dn_in ow w d : Some d ∈ write_dn ow w -> Some d ∈ ow \/ d = w.1.
Proof.
  unfold write_dn. rewrite overlay_fill. intros [H|H]%elem_of_fill_inv; [|auto]. right. by apply elem_of_span in H.
Qed.

Lemma write_nodes_spec size ws : forall s fs out hi k,
  frag_ok s fs out hi -> supply (2 * length ws + k) s -> hi <= size -> size < 2 ^ 32 -> NoDup ws.*1 ->
  (forall d dn, (d, dn) ∈ ws -> writable size s (owners fs) d dn) ->
  wp (write_nodes ws.*1) s (fun rets s' => Forall (eq 0) rets /\ supply k s' /\ exists fs' hi',
    frag_ok s' fs' out hi' /\ hi' <= size /\ owners fs' = foldl write_dn (owners fs) ws).
Proof.
  induction ws as [|[d dn] ws IH]; intros s fs out hi k Hok Hk Hhi Hsz Hn Hw; cbn [fmap list_fmap fst write_nodes foldl].
  - apply wp_ret. split; [done|]. split; [done|]. by exists fs, hi.
  - rewrite fmap_cons in Hn. apply NoDup_cons in Hn as [Hn1 Hn]. cbn [length fst] in *.
    destruct (Hw d dn ltac:(left)) as [H1 H2 H3 H4 H5 H6].
    apply wp_bind. eapply wp_mono; [eapply add_full_spec; try done; lia|].
    intros ret s1 [(-> & Hk1 & fs1 & Hok1 & Hown1 & Hnf)|(_ & Hlt & _)]; [|lia].
    apply wp_bind. eapply wp_mono.
    { eapply (IH s1 fs1 out _ k Hok1); [|lia|done|done|].
      - intros i Hi. apply Hk1. lia.
      - intros e en He. destruct (Hw e en ltac:(by right)) as [G1 G2 G3 G4 G5 G6].
        assert (Hne : e <> d). { intros ->. apply Hn1, list_elem_of_fmap. by exists (d, en). }
        assert (Hnew : Some e ∉ owners fs1).
        { rewrite Hown1. intros [?|?]%(write_dn_in _ (d, dn)); [done|]. by apply Hne. }
        split; try done; [|by apply Hnf]. by rewrite (nf_other _ _ _ _ Hnf). }
    intros rets s' (Hr & Hk' & fs' & hi' & Hok' & Hhi' & Hown'). apply wp_ret. split; [by constructor|]. split; [done|].
    exists fs', hi'. split; [done|]. split; [done|]. by rewrite Hown', Hown1.
Qed.
