(* ===== verification/FragRead.v ===== *)
(** * Reading a file in JFFS2

    [jffs2_read_inode_range] walks the fragments and puts together what they
    say; [byte_at] is the file as bytes, and [read_range_spec] says that the
    routine returns these.  It is right for a range that starts in the file or
    at its end. *)

From stdpp Require Import gmap.
From S2P Require Import Prelude RbSpec Rbtree RbOps Fragtree FragRep FragNodes FragAdd FragFile FragFill.

Section Reading.
Context (read_dnode : ptr -> Z -> Z -> Z * list Z).
(** The data of each node. *)
Context (content : ptr -> list Z).

(** [jffs2_read_dnode] returns the part of a node's data that is asked for. *)
Definition reads (d : ptr) (dn : jffs2_full_dnode) : Prop :=
  Z.of_nat (length (content d)) = dsize dn /\
  forall o n, 0 <= o -> 0 <= n -> o + n <= dsize dn ->
    read_dnode d o n = (0, take (Z.to_nat n) (drop (Z.to_nat o) (content d))).

(** The node that has the byte at [i]. *)
Definition owner (ow : list (option ptr)) (i : nat) : option ptr := default None (ow !! i).

(** Every byte lies in the node it comes from. *)
Definition fits (s : jffs2) (ow : list (option ptr)) : Prop := forall i d, owner ow i = Some d ->
  exists dn, dnodes s !! d = Some dn /\ 0 <= dofs dn <= Z.of_nat i /\ Z.of_nat i < dofs dn + dsize dn /\ reads d dn.

(** The byte of the file at [i]; 0 in a hole and behind the end. *)
Definition byte_at (s : jffs2) (ow : list (option ptr)) (i : nat) : Z :=
  match owner ow i with
  | Some d =>
      match dnodes s !! d with
      | Some dn => default 0 (content d !! Z.to_nat (Z.of_nat i - dofs dn))
      | None => 0
      end
  | None => 0
  end.
Definition bytes (s : jffs2) (ow : list (option ptr)) (ofs len : Z) : list Z := byte_at s ow <$> seq (Z.to_nat ofs) (Z.to_nat len).

(** ** Runs of one owner *)

Lemma bytes_split s ow ofs m n : 0 <= ofs -> 0 <= m -> 0 <= n -> bytes s ow ofs (m + n) = bytes s ow ofs m ++ bytes s ow (ofs + m) n.
Proof. intros H1 H2 H3. unfold bytes. by rewrite !Z2Nat.inj_add, seq_app, fmap_app by lia. Qed.

Lemma bytes_zero s ow ofs n : (forall i, ofs <= Z.of_nat i < ofs + n -> owner ow i = None) -> 0 <= ofs -> bytes s ow ofs n = zeros n.
Proof.
  intros H Ho. unfold bytes, zeros. apply list_eq. intros i. rewrite list_lookup_fmap.
  destruct (decide (i < Z.to_nat n)%nat) as [Hi|Hi].
  - rewrite lookup_seq_lt, lookup_replicate_2 by done. cbn. f_equal. unfold byte_at. by rewrite (H (Z.to_nat ofs + i)%nat) by lia.
  - rewrite lookup_seq_ge by lia. symmetry. apply lookup_replicate_None. lia.
Qed.

Lemma bytes_node s ow d dn ofs n :
  (forall i, ofs <= Z.of_nat i < ofs + n -> owner ow i = Some d) -> dnodes s !! d = Some dn -> reads d dn ->
  0 <= ofs -> dofs dn <= ofs -> 0 <= n -> ofs + n <= dofs dn + dsize dn ->
  read_dnode d (ofs - dofs dn) n = (0, bytes s ow ofs n).
Proof.
  intros H Hd [Hlen Hr] Ho Ho' Hn He. rewrite Hr by lia. f_equal. apply list_eq. intros i. unfold bytes. rewrite list_lookup_fmap.
  destruct (decide (i < Z.to_nat n)%nat) as [Hi|Hi].
  - rewrite lookup_seq_lt, lookup_take_lt, lookup_drop by done. cbn. unfold byte_at. rewrite (H (Z.to_nat ofs + i)%nat), Hd by lia.
    replace (Z.to_nat (Z.of_nat (Z.to_nat ofs + i) - dofs dn)) with (Z.to_nat (ofs - dofs dn) + i)%nat by lia.
    destruct (lookup_lt_is_Some_2 (content d) (Z.to_nat (ofs - dofs dn) + i)) as [b ->]; [lia|done].
  - rewrite lookup_seq_ge, lookup_take_ge by lia. done.
Qed.

(** A fragment's bytes in the map. *)
Lemma owner_of l x f r hi i :
  chain 0 (l ++ (x, f) :: r) hi -> fofs f <= Z.of_nat i < fend f -> owner (owners (l ++ (x, f) :: r)) i = fnode f.
Proof.
  intros Hc Hi. destruct (chain_mid _ _ _ _ _ Hc) as (Hl & Hz & _ & Hf0 & _). pose proof (length_owners _ _ _ Hl) as Hlen.
  unfold owner. rewrite owners_app. cbn [owners]. rewrite lookup_app_r by lia. rewrite lookup_app_l by (rewrite length_replicate; unfold fend in *; lia).
  by rewrite lookup_replicate_2 by (unfold fend in *; lia).
Qed.

Lemma fits_frag s l x f r hi d :
  fits s (owners (l ++ (x, f) :: r)) -> chain 0 (l ++ (x, f) :: r) hi -> fnode f = Some d ->
  exists dn, dnodes s !! d = Some dn /\ 0 <= dofs dn <= fofs f /\ fend f <= dofs dn + dsize dn /\ reads d dn.
Proof.
  intros Hfit Hc Hd. destruct (chain_mid _ _ _ _ _ Hc) as (_ & Hz & _ & Hf0 & _).
  destruct (Hfit (Z.to_nat (fofs f)) d) as (dn & H1 & H2 & H3 & H4).
  { rewrite (owner_of _ _ _ _ _ _ Hc), Hd by (unfold fend; lia). done. }
  destruct (Hfit (Z.to_nat (fend f - 1)) d) as (dn' & H1' & H2' & H3' & _).
  { rewrite (owner_of _ _ _ _ _ _ Hc), Hd by (unfold fend; lia). done. }
  simplify_eq. exists dn. unfold fend in *. split_and!; [done|lia..|done].
Qed.

(** ** The loop *)

Section Loop.
Context (s : jffs2) (fs out : fseq) (hi end_ : Z).
Hypothesis Htree : tree_part s fs out.
Hypothesis Hchain : chain 0 fs hi.
Hypothesis Hfits : fits s (owners fs).
Hypothesis Hhi : hi < 2 ^ 32.
Hypothesis Hend : end_ < 2 ^ 32.

(** What is left of the file from [offset] on: the fragments [r]; in a range
    that starts at the end of the file, the last fragment as well. *)
Definition rest_at (l r : fseq) (offset : Z) : Prop :=
  fs = l ++ r /\ 0 <= offset /\ match r with [] => hi <= offset | (_, f) :: _ => fofs f <= offset <= fend f end.

Definition reads_bytes (offset : Z) (v : Z * list Z) (s' : jffs2) : Prop :=
  s' = s /\ v = (0, bytes s (owners fs) offset (end_ - offset)).

Lemma rest_next l x f r offset : rest_at l ((x, f) :: r) offset -> rest_at (l ++ [(x, f)]) r (fend f).
Proof.
  intros (-> & Ho & Hat). destruct (chain_mid _ _ _ _ _ Hchain) as (_ & Hz & Hr & Hf0 & _).
  split; [by rewrite <-app_assoc|]. split; [unfold fend in *; lia|]. destruct r as [|[y g] r]; cbn in Hr; [lia|].
  unfold fend in *. lia.
Qed.

(** One round's bytes, and those of the others. *)
Lemma reads_more (m : F (Z * list Z)) offset n data :
  data = bytes s (owners fs) offset n -> 0 <= offset -> 0 <= n -> offset + n <= end_ -> wp m s (reads_bytes (offset + n)) ->
  wp ('(ret, buf) ← m; retF (ret, data ++ buf)) s (reads_bytes offset).
Proof.
  intros -> Ho Hn He Hm. apply wp_bind. eapply wp_mono; [exact Hm|]. intros [ret buf] s' [-> [= -> ->]]. apply wp_ret.
  split; [done|]. rewrite <-bytes_split by lia. do 2 f_equal. lia.
Qed.

Lemma read_done offset fuel frag : end_ <= offset -> (0 < fuel)%nat -> wp (read_loop read_dnode fuel frag offset end_) s (reads_bytes offset).
Proof.
  intros H Hf. destruct fuel as [|fuel]; [lia|]. cbn [read_loop]. destruct (Z.ltb_spec offset end_); [lia|]. apply wp_ret.
  split; [done|]. unfold bytes. by replace (Z.to_nat (end_ - offset)) with 0%nat by lia.
Qed.

Lemma read_loop_ok fuel : forall l r offset,
  rest_at l r offset -> (length r + 2 <= fuel)%nat -> wp (read_loop read_dnode fuel (fst <$> head r) offset end_) s (reads_bytes offset).
Proof.
  induction fuel as [|fuel IH]; intros l r offset Hrest Hf; [lia|].
  destruct (Z.leb_spec end_ offset) as [Hle|Hlt]; [apply read_done; [done|lia]|].
  cbn [read_loop]. destruct (Z.ltb_spec offset end_); [|lia]. cbn [negb].
  destruct r as [|[x f] r]; cbn [head fmap option_fmap option_map fst].
  - destruct Hrest as (_ & Ho & Hpast). apply wp_bind, wp_ret.
    rewrite (u32_id (end_ - offset)), u32_id by lia. eapply (reads_more _ offset (end_ - offset)); try lia.
    + symmetry. apply bytes_zero; [|done]. intros i Hi. unfold owner. rewrite lookup_ge_None_2; [done|].
      rewrite (length_owners _ _ _ Hchain). lia.
    + apply read_done; [lia|cbn in Hf; lia].
  - pose proof (rest_next _ _ _ _ _ Hrest) as Hnext. destruct Hrest as (Hfs & Ho & Hat).
    pose proof Hchain as Hc. rewrite Hfs in Hc. destruct (chain_mid _ _ _ _ _ Hc) as (_ & Hz & _ & Hf0 & Hfe).
    assert (Hx : frags s !! x = Some f) by (eapply tp_in; [exact Htree|rewrite Hfs, elem_of_app; right; left]).
    assert (Hgo : wp (frag_next (Some x)) s (fun v s' => s' = s /\ v = fst <$> head r)).
    { rewrite Hfs in Htree. by eapply wp_next. }
    apply wp_bind, wp_bind. eapply wp_ldf; [exact Hx|]. destruct (Z.ltb_spec offset (fofs f)); [lia|]. apply wp_ret.
    apply wp_bind. eapply wp_ldf; [exact Hx|]. apply wp_bind. eapply wp_ldf; [exact Hx|]. apply wp_bind. eapply wp_ldf; [exact Hx|].
    change (fofs f + fsize f) with (fend f). cbn [length] in Hf.
    assert (Hrest : forall n, offset + n = Z.min end_ (fend f) ->
      wp (read_loop read_dnode fuel (fst <$> head r) (offset + n) end_) s (reads_bytes (offset + n))).
    { intros n ->. destruct (Z.le_gt_cases end_ (fend f)) as [Hle|Hgt].
      - rewrite Z.min_l by lia. apply read_done; lia.
      - rewrite Z.min_r by lia. by apply (IH (l ++ [(x, f)])); [|lia]. }
    destruct (fnode f) as [d|] eqn:Ed.
    + rewrite (u32_id (offset - fofs f)), (u32_id (fsize f - _)), (u32_id (end_ - offset)) by (unfold fend in *; lia).
      set (n := Z.min _ _). assert (Hn : 0 <= n /\ offset + n = Z.min end_ (fend f)) by (unfold n, fend in *; lia).
      pose proof Hfits as Hft. rewrite Hfs in Hft.
      destruct (fits_frag _ _ _ _ _ _ _ Hft Hc Ed) as (dn & Hd & Hd1 & Hd2 & Hr). pose proof Hr as [Hcl _].
      apply wp_bind. eapply wp_ldd; [exact Hd|].
      replace (offset - fofs f + fofs f - dofs dn) with (offset - dofs dn) by lia.
      rewrite u32_id by (unfold fend in *; lia).
      rewrite (bytes_node s (owners fs) d dn offset n); [|by intros i Hi; rewrite Hfs, <-Ed; eapply owner_of; [exact Hc|lia]|done|done|lia..].
      cbn [Z.eqb negb]. apply wp_bind. eapply wp_mono; [exact Hgo|]. intros v s' [-> ->].
      rewrite u32_id by lia. eapply (reads_more _ offset n); [done|lia..|]. apply Hrest; lia.
    + rewrite (u32_id (fend f)) by lia. apply wp_bind. eapply wp_mono; [exact Hgo|]. intros v s' [-> ->].
      rewrite u32_id by lia. specialize (Hrest (Z.min end_ (fend f) - offset) ltac:(lia)).
      pose proof (reads_more _ offset (Z.min end_ (fend f) - offset) _ eq_refl ltac:(lia) ltac:(lia) ltac:(lia) Hrest) as Hgoal.
      rewrite bytes_zero in Hgoal; [|by intros i Hi; rewrite Hfs, (owner_of _ _ _ _ _ _ Hc), Ed by lia|lia].
      by replace (offset + (Z.min end_ (fend f) - offset)) with (Z.min end_ (fend f)) in Hgoal by lia.
Qed.
End Loop.

Lemma wp_fuel2 {A} (m : nat -> F A) s fs out Q :
  tree_part s fs out -> (forall fuel, (2 * length fs + 2 <= fuel)%nat -> wp (m fuel) s Q) -> wp (with_fuel2 m) s Q.
Proof. intros Hs H. apply H. apply tp_size in Hs. lia. Qed.

Lemma read_range_spec s fs out hi offset len :
  frag_ok s fs out hi -> fits s (owners fs) -> 0 <= offset <= hi -> 0 <= len -> offset + len < 2 ^ 32 ->
  wp (jffs2_read_inode_range read_dnode offset len) s (fun v s' => s' = s /\ v = (0, bytes s (owners fs) offset len)).
Proof.
  intros [Ht Hc Hhi _ _] Hfits Ho Hl He. unfold jffs2_read_inode_range. rewrite u32_id by lia.
  apply wp_bind. eapply wp_lookup; [exact Ht|exact Hc|done|lia|]. intros x Hx.
  assert (Hrest : exists l r, rest_at fs hi l r offset /\ x = fst <$> head r).
  { unfold looked_up in Hx. case_decide as Hin.
    - destruct Hx as (l & y & f & r & Hfs & Hf & ->). exists l, ((y, f) :: r). split; [|done]. split; [done|]. cbn. lia.
    - destruct (last fs) as [[y f]|] eqn:El; subst x.
      + apply last_Some in El as [l Hfs]. exists l, [(y, f)]. split; [|done]. split; [done|]. cbn.
        rewrite Hfs in Hc. destruct (chain_mid _ _ _ _ _ Hc) as (_ & Hz & Hr & _ & _). cbn in Hr. unfold fend in *. lia.
      + apply last_None in El as ->. exists [], []. split; [|done]. cbn in Hc. split; [done|]. lia. }
  destruct Hrest as (l & r & Hrest & ->). eapply wp_fuel2; [exact Ht|]. intros fuel Hf.
  pose proof Hrest as (Hfs & _). apply (f_equal length) in Hfs. rewrite length_app in Hfs.
  eapply wp_mono; [eapply read_loop_ok; try done; lia|]. cbn. unfold reads_bytes.
  intros v s' [-> ->]. split; [done|]. by replace (offset + len - offset) with len by lia.
Qed.

(** ** Reading what was written *)

Section Written.
Context (s s' : jffs2) (ow : list (option ptr)) (d : ptr) (dn : jffs2_full_dnode).
Abbreviation ow' := (overlay ow (Z.to_nat (dofs dn)) (Z.to_nat (dsize dn)) (Some d)).
Hypothesis Hdn : dnodes s !! d = Some dn.
Hypothesis Hofs : 0 <= dofs dn.
Hypothesis Hnew : Some d ∉ ow.
Hypothesis Hfollow : nodes_follow s s' ow ow'.
Hypothesis Hfits : fits s ow.
Hypothesis Hreads : reads d dn.

Definition covers (i : nat) : Prop := dofs dn <= Z.of_nat i < dofs dn + dsize dn.

Lemma owner_after i : owner ow' i = if decide (covers i) then Some d else owner ow i.
Proof.
  unfold owner, covers. rewrite overlay_fill, lookup_fill, lookup_span. repeat case_decide; try lia; try done. 
Qed.

Lemma node_after e : Some e ∈ ow' -> exists dn0, dnodes s !! e = Some dn0 /\ exists dn1, dnodes s' !! e = Some dn1 /\ same_node dn0 dn1.
Proof. intros He. destruct (nf_live _ _ _ _ Hfollow e He) as (dn0 & dn1 & H0 & H1 & H2). exists dn0. split; [done|]. by exists dn1. Qed.

Lemma owner_in o i e : owner o i = Some e -> Some e ∈ o.
Proof. unfold owner. destruct (o !! i) as [[x|]|] eqn:E; [|done..]. intros [= ->]. by apply (list_elem_of_lookup_2 _ i). Qed.

Lemma fits_after : fits s' ow'.
Proof.
  intros i e He. destruct (node_after e (owner_in _ _ _ He)) as (dn0 & H0 & dn1 & H1 & _ & Ho & Hz). exists dn1. split; [done|].
  rewrite Ho, Hz. unfold reads. rewrite Hz. change (0 <= dofs dn0 <= Z.of_nat i /\ Z.of_nat i < dofs dn0 + dsize dn0 /\ reads e dn0).
  rewrite owner_after in He. case_decide as Hi.
  - injection He as <-. assert (dn0 = dn) as -> by congruence. unfold covers in Hi. split_and!; [lia..|done].
  - destruct (Hfits i e He) as (dn2 & H2 & H3 & H4 & H5). by simplify_eq.
Qed.

(** The bytes of the new node, and around them what was there. *)
Lemma byte_after i :
  byte_at s' ow' i = if decide (covers i) then default 0 (content d !! Z.to_nat (Z.of_nat i - dofs dn)) else byte_at s ow i.
Proof.
  unfold byte_at. pose proof (owner_after i) as E. destruct (owner ow' i) as [e|] eqn:Ee.
  - destruct (node_after e (owner_in _ _ _ Ee)) as (dn0 & H0 & dn1 & H1 & _ & Ho & _). rewrite H1, Ho. case_decide.
    + injection E as ->. by simplify_eq.
    + by rewrite <-E, H0.
  - case_decide; [done|]. by rewrite <-E.
Qed.
End Written.
End Reading.
