(* ===== verification/FragKill.v ===== *)
(** * JFFS2: taking a fragment tree apart

    [jffs2_kill_fragtree] frees a tree from its leaves on, without keeping it
    balanced and without touching the root pointer.  [loose] is what is left
    of [tree_part] on the way; every fragment and every node without another
    reference is freed, and the loop ends. *)

From stdpp Require Import gmap.
From S2P Require Import Prelude RbSpec Rbtree RbRefine RbOps Fragtree FragRep FragNodes FragAdd FragFile.

(** A tree with its fragments, of any shape. *)
Record loose (s : jffs2) (t : tree) (fs out : fseq) : Prop := {
  lo_repr : repr (heap (rbs s)) None t;
  lo_elems : elems t = fs.*1;
  lo_frags : frags s = list_to_map (fs ++ out);
  lo_nodup : NoDup ((fs ++ out).*1);
  lo_dom : forall p, is_Some (heap (rbs s) !! p) <-> is_Some (frags s !! p) }.

Lemma tree_loose s fs out : tree_part s fs out -> exists t, rb_node (rbs s) = root_of t /\ loose s t fs out.
Proof. intros [(t & Ht & _ & He) Hf Hn Hd]. exists t. split; [apply Ht|]. split; try done. apply Ht. Qed.

Lemma loose_in s t fs out x f : loose s t fs out -> (x, f) ∈ fs -> frags s !! x = Some f.
Proof. intros [_ _ -> Hn _] Hin. apply elem_of_list_to_map_1; [done|]. rewrite elem_of_app. by left. Qed.

(** ** A leaf *)

(** A leaf's pointer in its parent is cleared, and the leaf can go. *)
Lemma unhook_ok s C co x (Q : option ptr -> jffs2 -> Prop) :
  repr (heap (rbs s)) None (plug C (T co x E E)) -> NoDup (elems (plug C (T co x E E))) ->
  (forall r, (forall p, is_Some (heap r !! p) <-> is_Some (heap (rbs s) !! p)) -> repr (delete x (heap r)) None (plug C E) ->
     Q (parent_of C) (set_rbs r s)) -> wp (unhook (Some x)) s Q.
Proof.
  intros Hre Hnd HQ. apply repr_plug in Hre as [(Hx & _ & _) Hp]. rewrite elems_plug in Hnd. cbn [elems app] in Hnd.
  apply NoDup_app in Hnd as (HndB & Hdis & [HxA HndA]%NoDup_cons).
  assert (HxB : x ∉ before C) by (intros H; apply (Hdis x H); left).
  unfold unhook. apply wp_bind. eapply wp_rb_read; [by apply ld_run|]. cbn [rb_parent].
  assert (Hdel : forall h, repr_path h C None -> repr (delete x h) None (plug C E)).
  { intros h Hh. apply repr_plug. split; [done|]. eapply repr_path_agree; [|exact Hh].
    intros p Hin. apply lookup_delete_ne. intros ->. tauto. }
  destruct C as [|fr C]; cbn [parent_of].
  - apply wp_bind, wp_ret, wp_ret. rewrite <-(set_rbs_id s). by apply HQ; [|apply Hdel].
  - assert (Hnode : exists n, heap (rbs s) !! frame_ptr fr = Some n /\
      (if peq (rb_left n) (Some x) then repr_path (<[frame_ptr fr := with_left None n]> (heap (rbs s))) (fr :: C) None
       else repr_path (<[frame_ptr fr := with_right None n]> (heap (rbs s))) (fr :: C) None)).
    { destruct fr as [cf p tr|cf p tl]; cbn [repr_path before after frame_ptr root_of] in *; destruct Hp as (Hn & Ht & HC).
      - apply NoDup_cons in HndA as [[HpT HpA]%not_elem_of_app _]. eexists. split; [exact Hn|]. cbn [rb_left]. rewrite peq_refl.
        rewrite lookup_insert_eq. split; [done|]. split; [by apply repr_insert|]. apply repr_path_insert; [|done|done].
        intros H. apply (Hdis p H). right. left.
      - apply NoDup_app in HndB as (_ & Hd2 & (_ & Hd3 & _)%NoDup_app). rewrite !not_elem_of_app in HxB.
        assert (Hp1 : p ∉ before C) by (intros H; apply (Hd2 p H); rewrite elem_of_app; right; left).
        assert (Hp2 : p ∉ elems tl) by (intros H; apply (Hd3 p H); left).
        assert (Hp3 : p ∉ after C) by (intros H; apply (Hdis p); [rewrite !elem_of_app; right; right; left|by right]).
        eexists. split; [exact Hn|]. cbn [rb_left]. rewrite peq_ne by (intros H; symmetry in H; revert H; apply root_of_ne; tauto).
        rewrite lookup_insert_eq. split; [done|]. split; [by apply repr_insert|]. by apply repr_path_insert. }
    destruct Hnode as (n & Hn & Hcut). apply wp_bind, wp_bind. eapply wp_rb_read; [by apply ld_run|].
    assert (Hend : forall g, repr_path (<[frame_ptr fr := g n]> (heap (rbs s))) (fr :: C) None ->
      wp (rb (upd (Some (frame_ptr fr)) g)) s (fun _ s' => wp (retF (Some (frame_ptr fr))) s' Q)).
    { intros g Hg. eapply wp_rb; [by apply upd_run|]. apply wp_ret, HQ; cbn [heap].
      - intros q. destruct (decide (q = frame_ptr fr)) as [->|].
        + rewrite lookup_insert_eq, Hn. by split; eexists.
        + by rewrite lookup_insert_ne by congruence.
      - by apply Hdel. }
    destruct (peq _ _); by apply Hend.
Qed.

Lemma loose_cut s C co x l f r out rb' (Q : unit -> jffs2 -> Prop) :
  loose s (plug C (T co x E E)) (l ++ (x, f) :: r) out -> l.*1 = before C -> r.*1 = after C ->
  (forall p, is_Some (heap rb' !! p) <-> is_Some (heap (rbs s) !! p)) -> repr (delete x (heap rb')) None (plug C E) ->
  (forall s', loose s' (plug C E) (l ++ r) out -> rest_of s' = rest_of s -> Q tt s') ->
  wp (jffs2_free_node_frag (Some x)) (set_rbs rb' s) Q.
Proof.
  intros [Hre He Hf Hn Hd] Hl Hr Hk Hre' HQ.
  assert (Hp : (l ++ (x, f) :: r) ++ out ≡ₚ (x, f) :: (l ++ r) ++ out) by by rewrite <-app_assoc, <-app_assoc, Permutation_middle.
  assert (Hn' : NoDup (((x, f) :: (l ++ r) ++ out).*1)) by by rewrite <-(perm_fsts _ _ Hp).
  assert (Hf' : frags s = list_to_map ((x, f) :: (l ++ r) ++ out)) by (rewrite Hf; by apply list_to_map_proper).
  unfold wp, jffs2_free_node_frag. cbn [frags set_rbs]. rewrite Hf'. cbn [list_to_map foldr fst snd]. rewrite lookup_insert_eq.
  apply NoDup_cons in Hn' as [Hx Hn']. apply HQ; [|done]. split; cbn [rbs frags heap set_rbs]; try done.
  - by rewrite elems_plug, fsts_app, Hl, Hr.
  - apply delete_insert_id. by apply not_elem_of_list_to_map_1.
  - intros p. destruct (decide (p = x)) as [->|].
    + rewrite !lookup_delete_eq. by split; intros [? ?].
    + rewrite !lookup_delete_ne by done. rewrite Hk, Hd, Hf'. cbn [list_to_map foldr fst snd]. by rewrite lookup_insert_ne.
Qed.

(** ** The references *)

Section Kill.
Context (c : bool) (s0 : jffs2) (live0 : live_list) (out : fseq).

(** Without [c] the calls of [jffs2_mark_node_obsolete] are left out. *)
Definition kill_inv (live : live_list) (s : jffs2) : Prop :=
  exists log, nodes_inv s0 live0 live (set_obsoleted log s) /\ obsoleted s = (if c then log else obsoleted s0).

Lemma kill_inv_perm live live' s : live ≡ₚ live' -> kill_inv live s -> kill_inv live' s.
Proof. intros Hp (log & Hi & Ho). exists log. split; [by eapply nodes_inv_perm|done]. Qed.

Lemma kill_inv_same live s s' :
  dnodes s' = dnodes s -> raws s' = raws s -> obsoleted s' = obsoleted s -> kill_inv live s -> kill_inv live s'.
Proof.
  intros Hd Hr Ho (log & Hi & Hl). exists log. split; [|by rewrite Ho].
  by apply (nodes_inv_same _ _ _ (set_obsoleted log s)).
Qed.

Lemma kill_node_ok live x f s (Q : unit -> jffs2 -> Prop) :
  kill_inv (fnode f :: live) s -> frags s !! x = Some f -> Z.of_nat (length live) < 2 ^ 32 ->
  (forall s', rbs s' = rbs s -> frags s' = frags s -> kill_inv live s' -> Q tt s') -> wp (kill_node (Some x) c) s Q.
Proof.
  intros (log & Hi & Ho) Hx Hlen HQ. unfold kill_node. apply wp_bind. eapply wp_ldf; [exact Hx|].
  destruct (fnode f) as [d|]; [|apply wp_ret, HQ; [done..|]; exists log; split; [by apply nodes_inv_hole|done]].
  destruct (ni_live _ _ _ _ Hi d) as (_ & dn & H0 & H1 & H2); [rewrite refs_cons, decide_True by done; lia|].
  cbn [dnodes raws set_obsoleted] in H1, H2. pose proof (refs_le d live). rewrite refs_cons, decide_True in H1 by done.
  apply wp_bind. eapply wp_ldd; [exact H1|]. cbn [dfrags with_frags]. rewrite Nat2Z.inj_add.
  replace (u32 _) with (Z.of_nat (refs d live)) by (rewrite u32_id; lia).
  apply wp_bind. eapply wp_st_obj; [exact H1|]. cbn [draw dofs dsize with_frags].
  set (s1 := set_dnodes _ s). assert (H1' : dnodes s1 !! d = Some (with_frags (refs d live) dn)) by apply lookup_insert_eq.
  destruct (Z.eqb_spec (Z.of_nat (refs d live)) 0) as [Hz|Hz].
  - assert (Hdie : forall s2 log', rbs s2 = rbs s -> frags s2 = frags s -> dnodes s2 = dnodes s1 -> log' = log ++ [draw dn] ->
      obsoleted s2 = (if c then log' else obsoleted s0) ->
      (forall r, is_Some (raws s2 !! r) <-> is_Some (raws s !! r)) -> wp (jffs2_free_full_dnode (Some d)) s2 Q).
    { intros s2 log' Hrb Hfr Hd2 -> Hob Hra. unfold wp, jffs2_free_full_dnode. rewrite Hd2, H1'. apply HQ; [done..|].
      exists (log ++ [draw dn]). split; [|done]. eapply nodes_inv_die; [exact Hi|lia|exact H0| |done|exact Hra].
      cbn [dnodes set_dnodes set_obsoleted]. unfold s1. cbn [dnodes set_dnodes]. by rewrite delete_insert_eq. }
    apply wp_bind. destruct c.
    + apply wp_bind. eapply wp_ldd; [exact H1'|]. apply w_mark_obsolete; [done|]. intros m Hm _.
      eapply Hdie; try done. cbn [obsoleted set_obsoleted set_raws]. unfold s1. cbn [obsoleted set_dnodes]. by rewrite Ho.
    + apply wp_ret. by eapply Hdie.
  - apply wp_ret, HQ; [done..|]. exists log. split; [|done].
    assert (Hpos : (0 < refs d live)%nat) by lia. exact (nodes_inv_drop _ _ _ _ _ _ Hi Hpos H0).
Qed.

(** ** The loop *)

(** A tree on its way, with its references. *)
Definition killing (t : tree) (fs : fseq) (s : jffs2) : Prop := loose s t fs out /\ kill_inv (nodes_of fs) s /\ Z.of_nat (length fs) < 2 ^ 32.

Lemma killing_node C co x tl tr fs s : killing (plug C (T co x tl tr)) fs s ->
  heap (rbs s) !! x = Some (Node (parent_of C) co (root_of tr) (root_of tl)).
Proof. intros ([Hre _ _ _ _] & _). by apply repr_plug in Hre as [(Hx & _ & _) _]. Qed.

(** What the loop does at the root of the subtree [t], which holds [m]: it
    comes back to the parent when the subtree is gone. *)
Definition kills (t : tree) : Prop := forall C l m r s fuel (Q : unit -> jffs2 -> Prop),
  t <> E -> killing (plug C t) (l ++ m ++ r) s -> l.*1 = before C -> m.*1 = elems t -> r.*1 = after C ->
  (2 * length m <= fuel + 1)%nat ->
  (forall s' fuel', (fuel + 1 <= fuel' + 2 * length m)%nat -> killing (plug C E) (l ++ r) s' -> wp (kill_loop fuel' (parent_of C) c) s' Q) ->
  wp (kill_loop fuel (root_of t) c) s Q.

Lemma kills_leaf co x : kills (T co x E E).
Proof.
  intros C l m r s fuel Q _ HK Hl Hm Hr Hf HQ. destruct m as [|[y f] [|]]; [done| |done]. cbn in Hm. injection Hm as ->.
  destruct fuel as [|fuel]; [cbn in Hf; lia|]. cbn [kill_loop root_of].
  pose proof (killing_node _ _ _ _ _ _ _ HK) as Hx. destruct HK as (Hlo & Hi & Hlen).
  apply wp_bind. eapply wp_rb_read; [by apply ld_run|]. apply wp_bind. eapply wp_rb_read; [by apply ld_run|]. cbn [rb_left rb_right root_of].
  cbn [app] in *. rewrite length_app in Hlen. cbn [length] in Hlen.
  apply wp_bind. eapply (kill_node_ok (nodes_of (l ++ r)) x f).
  { eapply kill_inv_perm; [|exact Hi]. rewrite nodes_of_app, nodes_of_app. cbn. by rewrite Permutation_middle. }
  { eapply loose_in; [exact Hlo|]. rewrite elem_of_app. right. left. }
  { unfold nodes_of. rewrite length_fmap, length_app. lia. }
  intros s1 Hrb Hfr Hi1.
  assert (Hlo1 : loose s1 (plug C (T co x E E)) (l ++ (x, f) :: r) out) by (destruct Hlo; split; by rewrite ?Hrb, ?Hfr).
  apply wp_bind. eapply unhook_ok; [apply Hlo1| |].
  { rewrite (lo_elems _ _ _ _ Hlo1). pose proof (lo_nodup _ _ _ _ Hlo1) as Hn. rewrite fmap_app in Hn. by apply NoDup_app in Hn as [? _]. }
  intros rb' Hk Hre. apply wp_bind. eapply loose_cut; [exact Hlo1|done|done|exact Hk|exact Hre|].
  intros s2 Hlo2 Hrest. apply HQ; [cbn; lia|]. split; [done|]. split; [|rewrite length_app; lia].
  injection Hrest as Hd Hra _ Hob. by apply (kill_inv_same _ s1).
Qed.

Lemma kills_right co x tr : kills tr -> kills (T co x E tr).
Proof.
  intros IH C l m r s fuel Q _ HK Hl Hm Hr Hf HQ. destruct tr as [|cr xr rl rr]; [by eapply kills_leaf|].
  set (tr := T cr xr rl rr) in *. destruct m as [|[y f] m]; [done|]. cbn in Hm. injection Hm as -> Hm.
  destruct fuel as [|fuel]; [cbn in Hf; lia|]. cbn [kill_loop root_of].
  pose proof (killing_node _ _ _ _ _ _ _ HK) as Hx.
  apply wp_bind. eapply wp_rb_read; [by apply ld_run|]. apply wp_bind. eapply wp_rb_read; [by apply ld_run|]. cbn [rb_left rb_right root_of].
  change (match root_of tr with Some _ => kill_loop fuel (root_of tr) c | None => kill_node (Some x) c;; (parent ← unhook (Some x); jffs2_free_node_frag (Some x);; kill_loop fuel parent c) end) with (kill_loop fuel (root_of tr) c).
  cbn [length] in Hf. eapply (IH (FR co x E :: C) (l ++ [(x, f)]) m r); [done| | |done|done|lia|].
  - by rewrite <-app_assoc.
  - by rewrite fsts_app, Hl.
  - intros s1 fuel1 Hf1 HK1. eapply (kills_leaf co x C l [(x, f)] r); [done| |done|done|done|cbn; lia|].
    + by rewrite <-app_assoc in HK1.
    + intros s2 fuel2 Hf2 HK2. apply HQ; [cbn [length] in *; lia|done].
Qed.

Lemma kills_all t : kills t.
Proof.
  induction t as [|co x tl IHl tr IHr]; [by intros C l m r s fuel Q ?|]. destruct tl as [|cl xl ll lr]; [by apply kills_right|].
  set (tl := T cl xl ll lr) in *. intros C l m r s fuel Q _ HK Hl Hm Hr Hf HQ.
  cbn [elems] in Hm. symmetry in Hm. destruct (fmap_app_inv _ _ _ _ (eq_sym Hm)) as (ml & mr' & H1 & H2 & ->).
  destruct mr' as [|[y f] mr]; [done|]. cbn in H2. injection H2 as <- H2. rewrite length_app in *. cbn [length] in *.
  destruct fuel as [|fuel]; [lia|]. cbn [kill_loop root_of].
  pose proof (killing_node _ _ _ _ _ _ _ HK) as Hx.
  apply wp_bind. eapply wp_rb_read; [by apply ld_run|]. apply wp_bind. eapply wp_rb_read; [by apply ld_run|]. cbn [rb_left rb_right root_of].
  rewrite <-app_assoc in HK. cbn [app] in HK.
  eapply (IHl (FL co x tr :: C) l ml ((x, f) :: mr ++ r)); [done|exact HK|done|done| |lia|].
  - rewrite fmap_cons, fsts_app, Hr. cbn. by rewrite <-H2.
  - intros s1 fuel1 Hf1 HK1. eapply (kills_right co x tr IHr C l ((x, f) :: mr) r); [done|exact HK1|done| |done|cbn [length]; lia|].
    + cbn. by rewrite <-H2.
    + intros s2 fuel2 Hf2 HK2. apply HQ; [cbn [length] in *; lia|done].
Qed.
End Kill.

(** ** The routine *)

(** Nothing of the file is left in memory; its nodes are marked obsolete if
    that is asked for, each of them once. *)
Record killed (c : bool) (s s' : jffs2) (fs out : fseq) : Prop := {
  kd_frags : frags s' = list_to_map out;
  kd_nodes : forall p, is_Some (heap (rbs s') !! p) <-> is_Some (frags s' !! p);
  kd_freed : forall d, Some d ∈ owners fs -> dnodes s' !! d = None;
  kd_other : forall d, Some d ∉ owners fs -> dnodes s' !! d = dnodes s !! d;
  kd_obsolete : exists dead rs, NoDup dead /\ (forall d, d ∈ dead <-> Some d ∈ owners fs) /\
    Forall2 (fun d r => exists dn, dnodes s !! d = Some dn /\ draw dn = r) dead rs /\
    obsoleted s' = obsoleted s ++ (if c then rs else []) }.

Lemma killed_end c s fs out hi s' t :
  frag_ok s fs out hi -> kill_inv c s (nodes_of fs) [] s' -> loose s' t [] out -> killed c s s' fs out.
Proof.
  intros Hok (log & Hi & Ho) [_ _ Hf _ Hd]. pose proof Hok as [_ Hc _ _ _].
  destruct (ni_dead _ _ _ _ Hi) as (dead & Hnd & Hde & Hdn & rs & Hlog & Hrs). cbn [obsoleted set_obsoleted dnodes] in *.
  assert (Hin : forall d, d ∈ dead <-> Some d ∈ owners fs).
  { intros d. rewrite Hde, refs_in, (nodes_of_owners _ _ _ _ Hc). split; [by intros [? _]|done]. }
  split; [done|done| | |].
  - intros d Hdo. by apply Hdn, Hin.
  - intros d Hdo. apply (ni_other _ _ _ _ Hi). apply refs_zero. by rewrite (nodes_of_owners _ _ _ _ Hc).
  - exists dead, rs. split; [done|]. split; [done|]. split; [done|]. rewrite Ho, Hlog. destruct c; [done|by rewrite app_nil_r].
Qed.

Lemma kill_spec c s fs out hi :
  frag_ok s fs out hi -> wp (jffs2_kill_fragtree c) s (fun _ s' => killed c s s' fs out).
Proof.
  intros Hok. pose proof Hok as [Ht Hc Hhi _ _]. pose proof (length_chain _ _ _ Hc) as Hlen.
  pose proof (tp_size _ _ _ Ht) as Hsize. destruct (tree_loose _ _ _ Ht) as (t & Hroot & Hlo).
  assert (Hi0 : kill_inv c s (nodes_of fs) (nodes_of fs) s).
  { exists (obsoleted s). split; [|by destruct c]. apply (nodes_inv_same _ _ _ s); [done..|]. by eapply frag_ok_inv. }
  unfold jffs2_kill_fragtree. apply wp_bind. eapply wp_rb_read; [reflexivity|]. rewrite Hroot.
  destruct t as [|co x tl tr]; cbn [root_of].
  - destruct fs; [|by pose proof (lo_elems _ _ _ _ Hlo)]. apply wp_ret. eapply killed_end; [exact Hok|exact Hi0|exact Hlo].
  - unfold with_fuel2, wp. change (match ?m s with Ret (v, s') => ?P s' | Err _ => False end) with (wp m s (fun _ => P)).
    eapply (kills_all c s (nodes_of fs) out (T co x tl tr) [] [] fs []); [done| |done| |done| |].
    + rewrite app_nil_r. split; [exact Hlo|]. split; [exact Hi0|cbn [app]; lia].
    + by rewrite (lo_elems _ _ _ _ Hlo).
    + lia.
    + intros s' fuel Hf (Hlo' & Hi' & _). destruct fuel as [|fuel]; [lia|]. cbn [kill_loop parent_of]. apply wp_ret.
      by eapply killed_end.
Qed.
