(* ===== verification/FragMain.v ===== *)
(** * JFFS2's fragment trees: the theorems

    The routines of nodelist.c, read.c and readinode.c, from a tree in order
    to a tree in order: what they return, what the file's bytes are
    afterwards, and which nodes are marked obsolete and freed. *)

From stdpp Require Import gmap.
From S2P Require Import Prelude RbSpec Rbtree RbOps Fragtree FragRep FragNodes FragAdd FragFile FragFill FragOld FragInode FragRead FragKill.

Lemma run_of {A} (m : F A) s Q : wp m s Q -> exists v s', m s = Ret (v, s') /\ Q v s'.
Proof. apply wp_run. Qed.

Lemma bind_ret_run {A B} (m : F A) (k : A -> F B) s v s' : m s = Ret (v, s') -> (m ≫= k) s = k v s'.
Proof. unfold mbind, F_bind. by intros ->. Qed.

Lemma nodup_filter {A B} (f : A -> B) (P : A -> Prop) `{!forall x, Decision (P x)} (l : list A) : NoDup (f <$> l) -> NoDup (f <$> filter P l).
Proof.
  induction l as [|x l IH]; [done|]. rewrite fmap_cons, NoDup_cons, filter_cons. intros [H1 H2]. case_decide; [|auto].
  rewrite fmap_cons, NoDup_cons. split; [|auto]. intros (y & Hy & Hin)%list_elem_of_fmap. apply H1, list_elem_of_fmap.
  exists y. split; [done|]. by apply list_elem_of_filter in Hin as [_ ?].
Qed.

(** ** The theorems *)

(** C2 (refinement).  [jffs2_add_full_dnode_to_inode] puts a new node over the
    bytes it covers: they come from the node afterwards, a gap before them is
    a hole, and all other bytes come from where they came from.  The nodes
    that lose their last byte are marked obsolete and freed, and no others.
    When an allocation fails it returns -ENOMEM, the bytes are as they were,
    and no node is lost; the new fragment may stay allocated outside of the
    tree. *)
Theorem add_full_correct s fs out hi d dn k :
  frag_ok s fs out hi -> supply k s -> dnodes s !! d = Some dn -> is_Some (raws s !! draw dn) -> Some d ∉ owners fs ->
  0 <= dofs dn -> 0 < dsize dn -> dofs dn + dsize dn < 2 ^ 32 ->
  exists ret s', jffs2_add_full_dnode_to_inode (Some d) s = Ret (ret, s') /\ add_result s s' fs out hi d dn k ret.
Proof. intros. by apply run_of, add_full_spec. Qed.

(** C14 (refinement).  [jffs2_truncate_fragtree] cuts the file off at [size]
    (a shorter file keeps its length) and the nodes that lose their last byte
    are marked obsolete and freed. *)
Theorem truncate_correct s fs out hi k size :
  frag_ok s fs out hi -> supply k s -> 0 <= size < 2 ^ 32 -> (fs = [] -> size = 0) ->
  exists s' fs', jffs2_truncate_fragtree size s = Ret (tt, s') /\ frag_ok s' fs' out (Z.min hi size) /\
    owners fs' = take (Z.to_nat size) (owners fs) /\ nodes_follow s s' (owners fs) (owners fs').
Proof.
  intros Hok Hk Hsz Hne. destruct (run_of _ _ _ (truncate_spec _ _ _ _ _ _ Hok Hk Hsz Hne)) as ([] & s' & Hrun & _ & fs' & H).
  by exists s', fs'.
Qed.

(** C15 (refinement).  [jffs2_add_older_frag_to_fragtree] gives a node the
    bytes that no newer node has.  It returns 0 if there are such bytes and
    the node passes its check, 1 after marking the node obsolete if there are
    none, and what the check returns if the node fails it; then the tree is
    as it was. *)
Theorem add_older_correct check_node_data tn s fs out hi dn flash :
  frag_ok s fs out hi -> packed (nodes_of fs) -> supply (length fs + 2) s ->
  dnodes s !! tn_fn tn = Some dn -> raws s !! draw dn = Some flash -> ref_obsolete flash = false ->
  Some (tn_fn tn) ∉ owners fs -> 0 <= dofs dn -> 0 < dsize dn -> dofs dn + dsize dn < 2 ^ 32 ->
  exists ret s', jffs2_add_older_frag_to_fragtree check_node_data tn s = Ret (ret, s') /\
    older_result check_node_data tn s out dn flash 0 s' fs hi ret.
Proof.
  intros Hok Hpk Hk Hdn Hfl Hfr Hnew Ho Hz He. apply run_of, older_spec; try done.
  intros i Hi. apply Hk. lia.
Qed.

(** C3 (equivalence).  Building the tree of an inode from the nodes on flash,
    from the newest to the oldest, comes to the same as writing the nodes that
    pass their check one after the other: every byte comes from the same node.
    The nodes without a byte are freed and marked obsolete, each of them once,
    unless one is the metadata. *)
Theorem rebuild_equals_writes check_node_data size ws s t out out' :
  inode_inv check_node_data size s [] out 0 ws -> size < 2 ^ 32 -> supply (length ws * (Z.to_nat size + 2)) s ->
  frag_ok t [] out' 0 -> supply (2 * length ws) t ->
  (forall w, w ∈ ws -> gives check_node_data w -> dnodes t !! w_node w = Some (w_dn w) /\ is_Some (raws t !! draw (w_dn w))) ->
  exists st s' fs hi rets t' fs' hi',
    consider_nodes check_node_data (w_tn <$> ws) (Found None None) s = Ret (st, s') /\ frag_ok s' fs out hi /\
    write_nodes (w_node <$> reverse (filter (gives check_node_data) ws)) t = Ret (rets, t') /\ Forall (eq 0) rets /\
    frag_ok t' fs' out' hi' /\ owners fs = owners fs' /\ all_considered s s' fs ws (Found None None) st.
Proof.
  intros Hi Hsz Hk Ht Hk' Hw. pose proof Hi as [Hok Hhi Hpk Hwt Hn Hr].
  destruct (run_of _ _ _ (consider_nodes_spec check_node_data size 0 ws s [] out 0 (Found None None) Hi Hsz
    ltac:(by rewrite Nat.add_0_r) (fun _ => eq_refl) ltac:(done))) as (st & s' & Hrun & fs & hi & [Hok' _ _ _ _ _] & _ & Hown & Hall).
  set (ds := reverse (filter (gives check_node_data) ws)) in *.
  set (dns := (fun w => (w_node w, w_dn w)) <$> ds).
  assert (Hds : forall w, w ∈ ds -> w ∈ ws /\ gives check_node_data w).
  { intros w. unfold ds. rewrite elem_of_reverse, list_elem_of_filter. tauto. }
  assert (Hfst : dns.*1 = w_node <$> ds) by (unfold dns; rewrite <-list_fmap_compose; done).
  assert (Hnd : NoDup dns.*1).
  { rewrite Hfst. unfold ds. rewrite reverse_Permutation. by apply nodup_filter. }
  assert (Hsup : supply (2 * length dns + 0) t).
  { intros i Hi'. apply Hk'. unfold dns, ds in Hi'. rewrite length_fmap, length_reverse in Hi'.
    pose proof (length_filter (fun w => gives check_node_data w) ws). lia. }
  assert (Hwr : forall d dn, (d, dn) ∈ dns -> writable size t (owners []) d dn).
  { intros d dn (w & [= -> ->] & [Hin Hg]%Hds)%list_elem_of_fmap. destruct (Hw w Hin Hg) as [G1 G2].
    destruct (Hwt w Hin) as [_ _ _ _ H5 H6 H7 H8]. split; try done.
    unfold gives in Hg. by apply andb_prop_elim in Hg as [Hg%Is_true_true%Z.ltb_lt _]. }
  destruct (run_of _ _ _ (write_nodes_spec size dns t [] out' 0 0 Ht Hsup Hhi Hsz Hnd Hwr))
    as (rets & t' & Hrun' & Hrets & _ & fs' & hi' & Ht' & _ & Hown').
  rewrite Hfst in Hrun'. exists st, s', fs, hi, rets, t', fs', hi'. do 5 (split; [done|]). split; [|done].
  rewrite Hown, Hown'. cbn [owners]. rewrite consider_write. fold ds. unfold dns. by rewrite foldl_fmap.
Qed.

(** C4 (functional).  What is written is what is read: after a node has been
    added, [jffs2_read_inode_range] returns the node's data for the bytes it
    covers and what the file held for all others, with zeros in holes and
    behind the end.  The range starts in the file or at its end. *)
Theorem read_after_write read_dnode content s fs out hi d dn offset len :
  frag_ok s fs out hi -> fits read_dnode content s (owners fs) -> supply 2 s ->
  dnodes s !! d = Some dn -> is_Some (raws s !! draw dn) -> Some d ∉ owners fs -> reads read_dnode content d dn ->
  0 <= dofs dn -> 0 < dsize dn -> dofs dn + dsize dn < 2 ^ 32 ->
  0 <= offset <= Z.max hi (dofs dn + dsize dn) -> 0 <= len -> offset + len < 2 ^ 32 ->
  exists s', jffs2_add_full_dnode_to_inode (Some d) s = Ret (0, s') /\
    jffs2_read_inode_range read_dnode offset len s' =
      Ret (0, (fun i => if decide (covers dn i) then default 0 (content d !! Z.to_nat (Z.of_nat i - dofs dn))
                        else byte_at content s (owners fs) i) <$> seq (Z.to_nat offset) (Z.to_nat len), s').
Proof.
  intros Hok Hfits Hk Hdn Hraw Hnew Hrd Ho Hz He Hoff Hlen Hend.
  destruct (run_of _ _ _ (add_full_spec _ _ _ _ _ _ 2 Hok Hk Hdn Hraw Hnew Ho Hz He)) as (ret & s' & Hrun & Hres).
  destruct Hres as [(-> & _ & fs' & Hok' & Hown & Hnf)|(_ & ? & _)]; [|lia]. exists s'. split; [done|].
  rewrite Hown in Hnf. assert (Hfits' : fits read_dnode content s' (owners fs')) by (rewrite Hown; by eapply fits_after).
  destruct (run_of _ _ _ (read_range_spec read_dnode content s' fs' out _ offset len Hok' Hfits' Hoff Hlen Hend)) as (v & s1 & Hread & -> & ->).
  rewrite Hread. do 3 f_equal. unfold bytes. rewrite Hown. apply list_fmap_ext. intros j i _. by eapply byte_after.
Qed.

(** C37 (termination).  [jffs2_kill_fragtree] ends, with every fragment of the
    tree freed and every node of the file; with [c] the nodes are marked
    obsolete, each of them once. *)
Theorem kill_fragtree_correct c s fs out hi :
  frag_ok s fs out hi -> exists s', jffs2_kill_fragtree c s = Ret (tt, s') /\ killed c s s' fs out.
Proof. intros Hok. destruct (run_of _ _ _ (kill_spec c s fs out hi Hok)) as ([] & s' & H). by exists s'. Qed.

(** C38 (error).  An empty tree that is cut off at a size other than 0 makes
    [jffs2_truncate_fragtree] follow the null pointer that [frag_last]
    returns.  (The size is that of the newest node, whose data, and that of
    all others, may have failed the check.) *)
Theorem truncate_empty_faults s out size :
  tree_part s [] out -> 0 < size < 2 ^ 32 -> jffs2_truncate_fragtree size s = Err Fault.
Proof.
  intros Ht Hsz.
  destruct (run_of _ _ _ (wp_lookup s [] out 0 size (fun v s' => v = None /\ s' = s) Ht eq_refl ltac:(lia) ltac:(lia) ltac:(intros v; unfold looked_up; rewrite decide_False by lia; by intros ->)))
    as (v & s' & Hrun & -> & ->).
  destruct (run_of _ _ _ (wp_last s [] out (fun v s' => v = None /\ s' = s) Ht ltac:(done))) as (v & s' & Hlast & -> & ->).
  unfold jffs2_truncate_fragtree. rewrite bind_ret_run with (1 := Hrun). change (truncate_mark size s = Err Fault).
  unfold truncate_mark. destruct (Z.eqb_spec size 0); [lia|]. by rewrite bind_ret_run with (1 := Hlast).
Qed.

(** (error).  A range that starts behind the last fragment makes
    [jffs2_read_inode_range] ask for bytes that the fragment's node does not
    have, instead of filling the buffer with zeros. *)
Theorem read_past_end s fs out hi l x f d dn read_dnode offset len :
  frag_ok s fs out hi -> fs = l ++ [(x, f)] -> fnode f = Some d -> dnodes s !! d = Some dn -> 0 <= dofs dn <= fofs f ->
  hi < offset -> 0 < len -> offset + len < 2 ^ 32 ->
  exists data ret, read_dnode d (offset - dofs dn) len = (ret, data) /\
    jffs2_read_inode_range read_dnode offset len s = Ret (if ret =? 0 then (0, data) else (ret, zeros len), s).
Proof.
  intros [Ht Hc Hhi _ _] -> Hd Hdn Hdo Hoff Hl He. destruct (chain_mid _ _ _ _ _ Hc) as (_ & Hz & Hr & Hf0 & _). cbn in Hr.
  destruct (read_dnode d (offset - dofs dn) len) as [ret data] eqn:Eread. exists data, ret. split; [done|].
  assert (Hx : frags s !! x = Some f) by (eapply tp_in; [exact Ht|rewrite elem_of_app; right; left]).
  set (v := if ret =? 0 then (0, data) else (ret, zeros len)).
  assert (Hhi0 : 0 < hi) by (unfold fend in *; lia).
  cut (wp (jffs2_read_inode_range read_dnode offset len) s (fun w s' => w = v /\ s' = s)).
  { intros H. destruct (run_of _ _ _ H) as (w & s' & -> & -> & ->). done. }
  unfold jffs2_read_inode_range. rewrite u32_id by lia. apply wp_bind. eapply wp_lookup; [exact Ht|exact Hc|done|lia|].
  intros y Hy. unfold looked_up in Hy. rewrite decide_False, last_snoc in Hy by lia. subst y.
  eapply wp_fuel2; [exact Ht|]. intros fuel Hf. destruct fuel as [|[|fuel]]; [lia..|]. unfold read_loop at 1. fold (read_loop read_dnode).
  destruct (Z.ltb_spec offset (offset + len)); [|lia]. cbn [negb].
  apply wp_bind, wp_bind. eapply wp_ldf; [exact Hx|]. destruct (Z.ltb_spec offset (fofs f)); [unfold fend in *; lia|]. apply wp_ret.
  apply wp_bind. eapply wp_ldf; [exact Hx|]. rewrite Hd. apply wp_bind. eapply wp_ldf; [exact Hx|]. apply wp_bind. eapply wp_ldf; [exact Hx|].
  apply wp_bind. eapply wp_ldd; [exact Hdn|].
  assert (E1 : u32 (fsize f - u32 (offset - fofs f)) = 2 ^ 32 - (offset - hi)).
  { rewrite (u32_id (offset - fofs f)) by (unfold fend in *; lia). unfold u32, wrap, word. unfold fend in Hr.
    replace (fsize f - (offset - fofs f)) with (2 ^ 32 - (offset - hi) + (-1) * 2 ^ 32) by lia. rewrite Z_mod_plus_full. apply Z.mod_small. lia. }
  rewrite E1, (u32_id (offset - fofs f)), (u32_id (offset + len - offset)) by (unfold fend in *; lia).
  rewrite Z.min_r by lia. replace (offset - fofs f + fofs f - dofs dn) with (offset - dofs dn) by lia.
  rewrite u32_id by (unfold fend in *; lia). replace (offset + len - offset) with len by lia. rewrite Eread.
  unfold v. destruct (ret =? 0); cbn [negb]; [|by apply wp_ret].
  apply wp_bind. eapply wp_next; [exact Ht|]. rewrite u32_id by lia. apply wp_bind. unfold read_loop.
  destruct (Z.ltb_spec (offset + len) (offset + len)); [lia|]. apply wp_ret, wp_ret. by rewrite app_nil_r.
Qed.

(** ** The theorems at concrete states *)

Definition junk : node := Node None RB_RED None None.
Definition supply_from (p n : nat) : list (option (ptr * node)) := (fun q => Some (q, junk)) <$> seq p n.

(** No fragment; three nodes that can be added. *)
Definition nodes3 : gmap ptr jffs2_full_dnode :=
  list_to_map [(1%nat, Dnode 11 0 10 0); (2%nat, Dnode 12 4 3 0); (3%nat, Dnode 13 8 6 0)].
Definition raws3 : gmap ptr Z := list_to_map [(11%nat, 0); (12%nat, 0); (13%nat, 0)].
Definition empty_file : jffs2 := Jffs2 (Store ∅ None) ∅ nodes3 raws3 (supply_from 100 60) [].

(** The first of them has been added. *)
Definition one_fragment : fseq := [(100%nat, Frag (Some 1%nat) 10 0)].
Definition small_file : jffs2 :=
  Jffs2 (Store {[100%nat := Node None RB_BLACK None None]} (Some 100%nat)) {[100%nat := Frag (Some 1%nat) 10 0]}
    (<[1%nat := Dnode 11 0 10 1]> nodes3) raws3 (supply_from 200 60) [].

Lemma supply_ok p n k s : slab s = supply_from p n -> (k <= n)%nat -> supply k s.
Proof. intros Hs Hk i Hi. exists ((p + i)%nat, junk). rewrite Hs. unfold supply_from. by rewrite list_lookup_fmap, lookup_seq_lt by lia. Qed.

Lemma slab_ok p n s : slab s = supply_from p n -> (forall q, (p <= q)%nat -> frags s !! q = None) -> slab_fresh s.
Proof.
  intros Hs Hq. assert (E : omap (fmap fst) (slab s) = seq p n).
  { rewrite Hs. unfold supply_from. clear. revert p. induction n as [|n IH]; intros p; cbn; [done|]. by rewrite IH. }
  split; rewrite E; [apply NoDup_seq|]. intros q Hin%elem_of_seq. apply Hq. lia.
Qed.

Lemma empty_tree : tree_part empty_file [] [].
Proof.
  split; [|done|constructor|].
  - exists E. split; [by split; [| |constructor]|]. split; [|done]. by exists 0%nat; constructor.
  - intros p. cbn [rbs heap frags empty_file]. by rewrite !lookup_empty.
Qed.
Lemma empty_ok : frag_ok empty_file [] [] 0.
Proof.
  split; [apply empty_tree|done|done| |by eapply (slab_ok 100 60)]. by intros d ?%elem_of_nil.
Qed.

Lemma small_ok : frag_ok small_file one_fragment [] 10.
Proof.
  split.
  - split; [|done|cbn; apply NoDup_singleton|].
    + exists (T RB_BLACK 100 E E). split; [|split; [|done]].
      * split; [done|by cbn; rewrite lookup_singleton_eq|cbn; apply NoDup_singleton].
      * exists 1%nat. by repeat constructor.
    + intros p. cbn [rbs heap frags small_file]. destruct (decide (p = 100%nat)) as [->|].
      * rewrite !lookup_singleton_eq. by split; eexists.
      * rewrite !lookup_singleton_ne by done. by split; intros [? ?].
  - done.
  - done.
  - intros d Hd. cbn in Hd. apply list_elem_of_singleton in Hd as [= ->]. exists (Dnode 11 0 10 1). by split_and!; [..|eexists].
  - apply (slab_ok 200 60); [done|]. intros q Hq. cbn [frags small_file]. by rewrite lookup_singleton_ne by lia.
Qed.

Lemma add_full_correct_witness : exists ret s',
  jffs2_add_full_dnode_to_inode (Some 2%nat) small_file = Ret (ret, s') /\
  add_result small_file s' one_fragment [] 10 2 (Dnode 12 4 3 0) 2 ret.
Proof.
  apply add_full_correct; [apply small_ok|by eapply (supply_ok 200 60); [|lia]|done|by eexists| |done..].
  by apply (bool_decide_unpack _).
Defined.

Lemma truncate_correct_witness : exists s' fs',
  jffs2_truncate_fragtree 5 small_file = Ret (tt, s') /\ frag_ok s' fs' [] (Z.min 10 5) /\
  owners fs' = take 5 (owners one_fragment) /\ nodes_follow small_file s' (owners one_fragment) (owners fs').
Proof. apply (truncate_correct small_file one_fragment [] 10 0 5); [apply small_ok|by intros i ?; lia|lia|done]. Defined.

Definition tn2 : jffs2_tmp_dnode_info := TmpDnode 2 0 0 0 1.
Definition tn3 : jffs2_tmp_dnode_info := TmpDnode 3 0 0 0 1.

Lemma add_older_correct_witness : exists ret s',
  jffs2_add_older_frag_to_fragtree (fun _ => 0) tn3 small_file = Ret (ret, s') /\
  older_result (fun _ => 0) tn3 small_file [] (Dnode 13 8 6 0) 0 0 s' one_fragment 10 ret.
Proof.
  apply add_older_correct; [apply small_ok|done|by eapply (supply_ok 200 60); [|cbn; lia]|done..| |done|done|done].
  by apply (bool_decide_unpack _).
Defined.

Lemma kill_fragtree_correct_witness :
  exists s', jffs2_kill_fragtree true small_file = Ret (tt, s') /\ killed true small_file s' one_fragment [].
Proof. apply (kill_fragtree_correct true small_file one_fragment [] 10). apply small_ok. Defined.

Lemma truncate_empty_faults_witness : jffs2_truncate_fragtree 5 empty_file = Err Fault.
Proof. apply (truncate_empty_faults empty_file []); [apply empty_tree|lia]. Defined.

Lemma read_past_end_witness : exists data ret, (0, [7; 7; 7]) = (ret, data) /\
  jffs2_read_inode_range (fun _ _ n => (0, replicate (Z.to_nat n) 7)) 20 3 small_file = Ret (if ret =? 0 then (0, data) else (ret, zeros 3), small_file).
Proof.
  apply (read_past_end small_file one_fragment [] 10 [] 100 (Frag (Some 1%nat) 10 0) 1 (Dnode 11 0 10 1) (fun _ _ n => (0, replicate (Z.to_nat n) 7)) 20 3);
    [apply small_ok|done..|cbn; lia|lia|lia|lia].
Defined.

(** Node [d] holds bytes with the value of [d]. *)
Definition sample_content (d : ptr) : list Z := replicate (match d with 1%nat => 10 | 2%nat => 3 | _ => 6 end) (Z.of_nat d).
Definition sample_read (d : ptr) (o n : Z) : Z * list Z := (0, take (Z.to_nat n) (drop (Z.to_nat o) (sample_content d))).

Lemma read_after_write_witness : exists s',
  jffs2_add_full_dnode_to_inode (Some 2%nat) small_file = Ret (0, s') /\
  jffs2_read_inode_range sample_read 2 10 s' = Ret (0, [1; 1; 2; 2; 2; 1; 1; 1; 0; 0], s').
Proof.
  apply (read_after_write sample_read sample_content small_file one_fragment [] 10 2 (Dnode 12 4 3 0) 2 10);
    [apply small_ok| |by eapply (supply_ok 200 60); [|lia]|done|by eexists| |done|done..].
  - intros i d Hi. assert (Hlt : (i < 10)%nat).
    { destruct (decide (i < 10)%nat); [done|]. unfold owner in Hi. exfalso. rewrite lookup_ge_None_2 in Hi; [done|]. change (length (owners one_fragment)) with 10%nat. lia. }
    exists (Dnode 11 0 10 1). do 10 (destruct i as [|i]; [by injection Hi as <-; split_and!; [..|split]|]). lia.
  - by apply (bool_decide_unpack _).
Defined.

Definition waiting3 : list waiting :=
  [Waiting tn3 (Dnode 13 8 6 0) 0; Waiting tn2 (Dnode 12 4 3 0) 0; Waiting (TmpDnode 1 0 0 0 1) (Dnode 11 0 10 0) 0].

Lemma rebuild_equals_writes_witness : exists st s' fs hi rets t' fs' hi',
  consider_nodes (fun _ => 0) (w_tn <$> waiting3) (Found None None) empty_file = Ret (st, s') /\ frag_ok s' fs [] hi /\
  write_nodes [1%nat; 2%nat; 3%nat] empty_file = Ret (rets, t') /\ Forall (eq 0) rets /\
  frag_ok t' fs' [] hi' /\ owners fs = owners fs' /\ all_considered empty_file s' fs waiting3 (Found None None) st.
Proof.
  apply (rebuild_equals_writes (fun _ => 0) 14 waiting3 empty_file empty_file [] []); [|lia| |apply empty_ok| |].
  - split; [apply empty_ok|lia|done| | |].
    + intros w Hw. unfold waiting3 in Hw. rewrite !elem_of_cons, elem_of_nil in Hw.
      destruct Hw as [->|[->|[->|[]]]]; (split; try done; try (cbn; lia); apply not_elem_of_nil).
    + cbn. by apply (bool_decide_unpack _).
    + cbn. by apply (bool_decide_unpack _).
  - by eapply (supply_ok 100 60); [|cbn; lia].
  - by eapply (supply_ok 100 60); [|cbn; lia].
  - intros w Hw _. unfold waiting3 in Hw. rewrite !elem_of_cons, elem_of_nil in Hw. by destruct Hw as [->|[->|[->|[]]]]; (split; [|eexists]).
Defined.

(** ** When memory runs out *)

(** A node behind the end of the file, and memory for [n] fragments. *)
Definition tight_file (n : nat) : jffs2 :=
  set_slab (supply_from 200 n) (set_dnodes (<[3%nat := Dnode 13 20 5 0]> (dnodes small_file)) small_file).

(** There is none for the hole before the node's fragment:
    [no_overlapping_node] frees the fragment, and its caller frees it again. *)
Lemma older_frees_twice : jffs2_add_older_frag_to_fragtree (fun _ => 0) tn3 (tight_file 1) = Err Fault.
Proof. by vm_compute. Qed.

(** There is none for the second half of a fragment that is split: the new
    fragment stays allocated, and no pointer to it is left. *)
Lemma split_leaks :
  exists s', jffs2_add_full_dnode_to_inode (Some 2%nat) (tight_file 1) = Ret (- ENOMEM, s') /\
    frags s' = <[200%nat := Frag (Some 2%nat) 3 4]> (frags (tight_file 1)).
Proof. eexists. split; by vm_compute. Qed.
