(* ===== verification/Compr.v ===== *)
(** * Compressors of JFFS2: the list of them and its users

    fs/jffs2/compr.c and compr.h: compressors register with a priority;
    [jffs2_compress] takes the first that succeeds, or the one with the
    smallest result, [jffs2_decompress] the one that has the type of the
    data.  A registered structure is kept with its address; buffers are byte
    memories of their own.  The spin lock makes the routines atomic apart
    from the calls of compressors, which do not see the list; the model runs
    them one after the other.  What [kmalloc] answers is a list, the contents
    of a buffer that was got being arbitrary.  [Codec] is what a compressor
    promises to the others. *)

From S2P Require Import Prelude CMem.

Definition EIO : Z := 5.

Definition JFFS2_COMPR_NONE : Z := 0x00.
Definition JFFS2_COMPR_ZERO : Z := 0x01.
Definition JFFS2_COMPR_RTIME : Z := 0x02.
Definition JFFS2_COMPR_RUBINMIPS : Z := 0x03.
Definition JFFS2_COMPR_DYNRUBIN : Z := 0x05.
Definition JFFS2_COMPR_ZLIB : Z := 0x06.

Definition JFFS2_COMPR_MODE_NONE : Z := 0.
Definition JFFS2_COMPR_MODE_PRIORITY : Z := 1.
Definition JFFS2_COMPR_MODE_SIZE : Z := 2.

(** The input, the output, and the two lengths; the return value, the output
    and the lengths, which are results too. *)
Definition compress_fn : Type := mem -> mem -> Z -> Z -> outcome (Z * mem * Z * Z).
Definition decompress_fn : Type := mem -> mem -> Z -> Z -> outcome (Z * mem).

Record jffs2_compressor := Compressor {
  priority : Z;
  name : option (list Z);
  compr : Z;
  compress : option compress_fn;
  decompress : decompress_fn;
  usecount : Z;
  disabled : bool;
  compr_buf : option mem;
  compr_buf_size : Z;
  stat_compr_orig_size : Z;
  stat_compr_new_size : Z;
  stat_compr_blocks : Z;
  stat_decompr_blocks : Z
}.

(** The global variables of compr.c; [jffs2_compressor_list] from its head. *)
Record comprs := Comprs {
  jffs2_compressor_list : list (Z * jffs2_compressor);
  jffs2_compression_mode : Z;
  none_stat_compr_blocks : Z;
  none_stat_decompr_blocks : Z;
  none_stat_compr_size : Z
}.

(** ** Assignments to fields *)

Definition set_usecount (c : jffs2_compressor) (u : Z) : jffs2_compressor :=
  let '(Compressor pr n ty cf df _ dis b bs so sn sc sd) := c in
  Compressor pr n ty cf df u dis b bs so sn sc sd.

Definition set_disabled (c : jffs2_compressor) (dis : bool) : jffs2_compressor :=
  let '(Compressor pr n ty cf df u _ b bs so sn sc sd) := c in
  Compressor pr n ty cf df u dis b bs so sn sc sd.

Definition set_priority (c : jffs2_compressor) (pr : Z) : jffs2_compressor :=
  let '(Compressor _ n ty cf df u dis b bs so sn sc sd) := c in
  Compressor pr n ty cf df u dis b bs so sn sc sd.

Definition set_buf (c : jffs2_compressor) (b : option mem) (size : Z) : jffs2_compressor :=
  let '(Compressor pr n ty cf df u dis _ _ so sn sc sd) := c in
  Compressor pr n ty cf df u dis b size so sn sc sd.

(** The statistics of a block of [datalen] bytes put into [cdatalen]. *)
Definition count_compr (c : jffs2_compressor) (datalen cdatalen : Z) : jffs2_compressor :=
  let '(Compressor pr n ty cf df u dis b bs so sn sc sd) := c in
  Compressor pr n ty cf df u dis b bs (u32 (so + datalen)) (u32 (sn + cdatalen)) (u32 (sc + 1)) sd.

Definition count_decompr (c : jffs2_compressor) : jffs2_compressor :=
  let '(Compressor pr n ty cf df u dis b bs so sn sc sd) := c in
  Compressor pr n ty cf df u dis b bs so sn sc (u32 (sd + 1)).

Definition set_list (st : comprs) (l : list (Z * jffs2_compressor)) : comprs :=
  let '(Comprs _ mode cb db cs) := st in Comprs l mode cb db cs.

Definition set_mode (st : comprs) (mode : Z) : comprs :=
  let '(Comprs l _ cb db cs) := st in Comprs l mode cb db cs.

(** ** Compressing *)

Definition kmalloc (answers : list (option mem)) : option mem * list (option mem) :=
  match answers with [] => (None, []) | a :: answers => (a, answers) end.

(** The loop of the priority mode: the type, the output, the lengths and the
    list afterwards. *)
Fixpoint compress_priority (l : list (Z * jffs2_compressor)) (data_in output_buf : mem)
    (orig_slen orig_dlen datalen cdatalen : Z) :
    outcome (Z * mem * Z * Z * list (Z * jffs2_compressor)) :=
  match l with
  | [] => Ret (JFFS2_COMPR_NONE, output_buf, datalen, cdatalen, [])
  | (a, this) :: l =>
      match compress this, disabled this with
      | Some f, false =>
          let this := set_usecount this (s32 (usecount this + 1)) in
          let! (compr_ret, output_buf, datalen, cdatalen) := f data_in output_buf orig_slen orig_dlen in
          let this := set_usecount this (s32 (usecount this - 1)) in
          if compr_ret =? 0 then
            Ret (compr this, output_buf, datalen, cdatalen, (a, count_compr this datalen cdatalen) :: l)
          else
            let! (ret, output_buf, datalen, cdatalen, l) :=
              compress_priority l data_in output_buf orig_slen orig_dlen datalen cdatalen in
            Ret (ret, output_buf, datalen, cdatalen, (a, this) :: l)
      | _, _ =>
          let! (ret, output_buf, datalen, cdatalen, l) :=
            compress_priority l data_in output_buf orig_slen orig_dlen datalen cdatalen in
          Ret (ret, output_buf, datalen, cdatalen, (a, this) :: l)
      end
  end.

(** A buffer of at least [orig_dlen] bytes for [this]: the buffer, if there
    is one, and [this] with it. *)
Definition get_compr_buf (this : jffs2_compressor) (orig_dlen : Z) (answers : list (option mem)) :
    option mem * jffs2_compressor * list (option mem) :=
  let this :=
    if (compr_buf_size this <? orig_dlen) && bool_decide (compr_buf this <> None)
    then set_buf this None 0 else this in
  match compr_buf this with
  | Some b => (Some b, this, answers)
  | None =>
      let '(tmp_buf, answers) := kmalloc answers in
      match tmp_buf with
      | None => (None, this, answers)
      | Some b => (Some b, set_buf this (Some b) orig_dlen, answers)
      end
  end.

(** What the loop of the size mode has found: the address of [best], and the
    lengths of its result. *)
Record best_compr := Best { best : option Z; best_slen : Z; best_dlen : Z }.

Fixpoint compress_size (l : list (Z * jffs2_compressor)) (data_in : mem)
    (orig_slen orig_dlen datalen cdatalen : Z) (bst : best_compr) (answers : list (option mem)) :
    outcome (best_compr * Z * Z * list (option mem) * list (Z * jffs2_compressor)) :=
  match l with
  | [] => Ret (bst, datalen, cdatalen, answers, [])
  | (a, this) :: l =>
      match compress this, disabled this with
      | Some f, false =>
          let '(b, this, answers) := get_compr_buf this orig_dlen answers in
          match b with
          | None =>
              let! (bst, datalen, cdatalen, answers, l) :=
                compress_size l data_in orig_slen orig_dlen datalen cdatalen bst answers in
              Ret (bst, datalen, cdatalen, answers, (a, this) :: l)
          | Some b =>
              let this := set_usecount this (s32 (usecount this + 1)) in
              let! (compr_ret, b, datalen, cdatalen) := f data_in b orig_slen orig_dlen in
              let this := set_buf this (Some b) (compr_buf_size this) in
              let this := set_usecount this (s32 (usecount this - 1)) in
              let bst :=
                if (compr_ret =? 0) && ((best_dlen bst =? 0) || (cdatalen <? best_dlen bst))
                then Best (Some a) datalen cdatalen else bst in
              let! (bst, datalen, cdatalen, answers, l) :=
                compress_size l data_in orig_slen orig_dlen datalen cdatalen bst answers in
              Ret (bst, datalen, cdatalen, answers, (a, this) :: l)
          end
      | _, _ =>
          let! (bst, datalen, cdatalen, answers, l) :=
            compress_size l data_in orig_slen orig_dlen datalen cdatalen bst answers in
          Ret (bst, datalen, cdatalen, answers, (a, this) :: l)
      end
  end.

(** Taking the result from the structure at [a]: its buffer and its type. *)
Fixpoint take_best (l : list (Z * jffs2_compressor)) (a best_slen best_dlen : Z) :
    outcome (option mem * Z * list (Z * jffs2_compressor)) :=
  match l with
  | [] => Err Fault
  | (a', this) :: l =>
      if a' =? a then
        Ret (compr_buf this, compr this,
             (a', count_compr (set_buf this None 0) best_slen best_dlen) :: l)
      else
        let! (b, ty, l) := take_best l a best_slen best_dlen in
        Ret (b, ty, (a', this) :: l)
  end.

(** [*cpage_out] is [data_in] itself ([None]) or a buffer. *)
Record compressed := Compressed {
  c_type : Z; cpage_out : option mem; c_datalen : Z; c_cdatalen : Z
}.

(** What follows the label [out]. *)
Definition compress_out (st : comprs) (ret : Z) (output_buf : option mem) (datalen cdatalen : Z) :
    compressed * comprs :=
  if ret =? JFFS2_COMPR_NONE then
    let '(Comprs l mode cb db cs) := st in
    (Compressed (u16 ret) None cdatalen cdatalen,
     Comprs l mode (u32 (cb + 1)) db (u32 (cs + cdatalen)))
  else (Compressed (u16 ret) output_buf datalen cdatalen, st).

Definition jffs2_compress (st : comprs) (answers : list (option mem)) (data_in : mem)
    (datalen cdatalen : Z) : outcome (compressed * comprs * list (option mem)) :=
  let mode := jffs2_compression_mode st in
  if mode =? JFFS2_COMPR_MODE_PRIORITY then
    let '(output_buf, answers) := kmalloc answers in
    match output_buf with
    | None => Ret (compress_out st JFFS2_COMPR_NONE None datalen cdatalen, answers)
    | Some output_buf =>
        let! (ret, output_buf, datalen, cdatalen, l) :=
          compress_priority (jffs2_compressor_list st) data_in output_buf datalen cdatalen
            datalen cdatalen in
        Ret (compress_out (set_list st l) ret (Some output_buf) datalen cdatalen, answers)
    end
  else if mode =? JFFS2_COMPR_MODE_SIZE then
    let! (bst, datalen, cdatalen, answers, l) :=
      compress_size (jffs2_compressor_list st) data_in datalen cdatalen datalen cdatalen
        (Best None 0 0) answers in
    match best bst with
    | Some a =>
        if best_dlen bst =? 0 then
          Ret (compress_out (set_list st l) JFFS2_COMPR_NONE None datalen cdatalen, answers)
        else
          let! (output_buf, ret, l) := take_best l a (best_slen bst) (best_dlen bst) in
          Ret (compress_out (set_list st l) ret output_buf (best_slen bst) (best_dlen bst), answers)
    | None => Ret (compress_out (set_list st l) JFFS2_COMPR_NONE None datalen cdatalen, answers)
    end
  else Ret (compress_out st JFFS2_COMPR_NONE None datalen cdatalen, answers).

(** The buffer [jffs2_free_comprbuf] hands to [kfree], if any. *)
Definition jffs2_free_comprbuf (comprbuf : option mem) : option mem := comprbuf.

(** ** Decompressing *)

(** [memcpy] between buffers, and [memset]. *)
Definition copy_into (data_out cdata_in : mem) (n : Z) : outcome mem :=
  let n := Z.to_nat n in
  if (n <=? length cdata_in)%nat && (n <=? length data_out)%nat
  then Ret (take n cdata_in ++ drop n data_out) else Err Fault.

Definition clear (data_out : mem) (n : Z) : outcome mem :=
  let n := Z.to_nat n in
  if (n <=? length data_out)%nat then Ret (replicate n 0 ++ drop n data_out) else Err Fault.

Fixpoint decompress_list (l : list (Z * jffs2_compressor)) (comprtype : Z) (cdata_in data_out : mem)
    (cdatalen datalen : Z) : outcome (Z * mem * list (Z * jffs2_compressor)) :=
  match l with
  | [] => Ret (- EIO, data_out, [])
  | (a, this) :: l =>
      if comprtype =? compr this then
        let this := set_usecount this (s32 (usecount this + 1)) in
        let! (ret, data_out) := decompress this cdata_in data_out cdatalen datalen in
        let this := if ret =? 0 then count_decompr this else this in
        let this := set_usecount this (s32 (usecount this - 1)) in
        Ret (ret, data_out, (a, this) :: l)
      else
        let! (ret, data_out, l) := decompress_list l comprtype cdata_in data_out cdatalen datalen in
        Ret (ret, data_out, (a, this) :: l)
  end.

Definition jffs2_decompress (st : comprs) (comprtype : Z) (cdata_in data_out : mem)
    (cdatalen datalen : Z) : outcome (Z * mem * comprs) :=
  let comprtype :=
    if Z.land comprtype 0xff <=? JFFS2_COMPR_ZLIB then Z.land comprtype 0xff else comprtype in
  if Z.land comprtype 0xff =? JFFS2_COMPR_NONE then
    let! data_out := copy_into data_out cdata_in datalen in
    let '(Comprs l mode cb db cs) := st in
    Ret (0, data_out, Comprs l mode cb (u32 (db + 1)) cs)
  else if Z.land comprtype 0xff =? JFFS2_COMPR_ZERO then
    let! data_out := clear data_out datalen in
    Ret (0, data_out, st)
  else
    let! (ret, data_out, l) :=
      decompress_list (jffs2_compressor_list st) comprtype cdata_in data_out cdatalen datalen in
    Ret (ret, data_out, set_list st l).

(** ** The list *)

(** The loops that look for the place of [comp] and add it there. *)
Fixpoint insert_priority (comp : Z * jffs2_compressor) (l : list (Z * jffs2_compressor)) :
    list (Z * jffs2_compressor) :=
  match l with
  | [] => [comp]
  | this :: l =>
      if priority this.2 <? priority comp.2 then comp :: this :: l
      else this :: insert_priority comp l
  end.

Definition jffs2_register_compressor (st : comprs) (a : Z) (comp : jffs2_compressor) : Z * comprs :=
  let '(Compressor pr n ty cf df _ dis _ _ _ _ _ _) := comp in
  match n with
  | None => (-1, st)
  | Some _ =>
      let comp := Compressor pr n ty cf df 0 dis None 0 0 0 0 0 in
      (0, set_list st (insert_priority (a, comp) (jffs2_compressor_list st)))
  end.

(** [list_del] of the structure at [a]: what it holds, and the rest. *)
Fixpoint unlink_compressor (a : Z) (l : list (Z * jffs2_compressor)) :
    outcome (jffs2_compressor * list (Z * jffs2_compressor)) :=
  match l with
  | [] => Err Fault
  | (a', this) :: l =>
      if a' =? a then Ret (this, l)
      else let! (c, l) := unlink_compressor a l in Ret (c, (a', this) :: l)
  end.

Definition jffs2_unregister_compressor (st : comprs) (a : Z) : outcome (Z * comprs) :=
  let! (comp, l) := unlink_compressor a (jffs2_compressor_list st) in
  if negb (usecount comp =? 0) then Ret (-1, st) else Ret (0, set_list st l).

(** The name of the mode, and setting it. *)
Definition name_none : list Z := [110; 111; 110; 101].
Definition name_priority : list Z := [112; 114; 105; 111; 114; 105; 116; 121].
Definition name_size : list Z := [115; 105; 122; 101].
Definition name_unkown : list Z := [117; 110; 107; 111; 119; 110].

Definition jffs2_get_compression_mode_name (st : comprs) : list Z :=
  let mode := jffs2_compression_mode st in
  if mode =? JFFS2_COMPR_MODE_NONE then name_none
  else if mode =? JFFS2_COMPR_MODE_PRIORITY then name_priority
  else if mode =? JFFS2_COMPR_MODE_SIZE then name_size
  else name_unkown.

Definition jffs2_set_compression_mode_name (st : comprs) (nm : list Z) : Z * comprs :=
  if bool_decide (name_none = nm) then (0, set_mode st JFFS2_COMPR_MODE_NONE)
  else if bool_decide (name_priority = nm) then (0, set_mode st JFFS2_COMPR_MODE_PRIORITY)
  else if bool_decide (name_size = nm) then (0, set_mode st JFFS2_COMPR_MODE_SIZE)
  else (1, st).

(** The first structure with a name, and what is before and after it. *)
Fixpoint find_name (nm : list Z) (l : list (Z * jffs2_compressor)) :
    option (list (Z * jffs2_compressor) * (Z * jffs2_compressor) * list (Z * jffs2_compressor)) :=
  match l with
  | [] => None
  | this :: l =>
      if bool_decide (name this.2 = Some nm) then Some ([], this, l)
      else match find_name nm l with
           | Some (l1, c, l2) => Some (this :: l1, c, l2)
           | None => None
           end
  end.

Definition jffs2_compressor_Xable (st : comprs) (nm : list Z) (dis : bool) : Z * comprs :=
  match find_name nm (jffs2_compressor_list st) with
  | Some (l1, (a, this), l2) => (0, set_list st (l1 ++ (a, set_disabled this dis) :: l2))
  | None => (1, st)
  end.

Definition jffs2_enable_compressor_name (st : comprs) (nm : list Z) : Z * comprs :=
  jffs2_compressor_Xable st nm false.

Definition jffs2_disable_compressor_name (st : comprs) (nm : list Z) : Z * comprs :=
  jffs2_compressor_Xable st nm true.

Definition jffs2_set_compressor_priority (st : comprs) (nm : list Z) (pr : Z) : Z * comprs :=
  match find_name nm (jffs2_compressor_list st) with
  | Some (l1, (a, this), l2) =>
      (0, set_list st (insert_priority (a, set_priority this pr) (l1 ++ l2)))
  | None => (1, st)
  end.

(** ** What a compressor promises *)

(** [page] with its first [p] bytes those of [data]. *)
Definition fill (data : list Z) (p : nat) (page : mem) : mem := take p data ++ drop p page.

Lemma length_filled data p page :
  (p <= length data)%nat -> (p <= length page)%nat -> length (fill data p page) = length page.
Proof. intros. unfold fill. rewrite length_app, length_take, length_drop. lia. Qed.

Lemma fill_lookup data p page i :
  (i < p <= length data)%nat -> fill data p page !! i = data !! i.
Proof.
  intros Hi. unfold fill. rewrite lookup_app_l by (rewrite length_take; lia).
  by rewrite lookup_take_lt by lia.
Qed.

Lemma fill_next data p page c :
  data !! p = Some c -> (p < length page)%nat ->
  <[p := c]> (fill data p page) = fill data (S p) page.
Proof.
  intros Hc Hp. pose proof (lookup_lt_Some _ _ _ Hc). unfold fill.
  destruct (lookup_lt_is_Some_2 page p Hp) as [x Hx].
  rewrite (drop_S page x p Hx), (take_S_r data p c Hc), <-app_assoc.
  replace p with (length (take p data) + 0)%nat at 1 by (rewrite length_take; lia).
  by rewrite insert_app_r.
Qed.

(** [PAGE_CACHE_SIZE]: what is compressed at once. *)
Definition PAGE_CACHE_SIZE : nat := 4096.

(** What [jffs2_compress] asks a compressor for: [s] bytes of [data], and
    room for [d] bytes, which is at least 2 and not more than [s]. *)
Definition request (data out : mem) (s d : nat) : Prop :=
  Forall is_byte data /\ Forall is_byte out /\ (s <= length data)%nat /\ (s <= PAGE_CACHE_SIZE)%nat /\
  (2 <= d)%nat /\ (d <= s)%nat /\ (d <= length out)%nat.

(** [out'] is [out] with other bytes among the first [d]. *)
Definition wrote (d : nat) (out out' : mem) : Prop :=
  length out' = length out /\ Forall is_byte out' /\ drop d out' = drop d out.

(** A compressor stays within the [d] bytes.  It fails and leaves the
    lengths alone, or it makes [n] bytes of the first [e] of [data], fewer
    than these, which decompress to them whatever follows. *)
Class Codec (compress : compress_fn) (decompress : decompress_fn) : Prop :=
  codec data out s d : request data out s d ->
    exists out', wrote d out out' /\
      ((exists r, r <> 0 /\
          compress data out (Z.of_nat s) (Z.of_nat d) = Ret (r, out', Z.of_nat s, Z.of_nat d)) \/
       exists e n, (e <= s)%nat /\ (0 < n)%nat /\ (n < e)%nat /\ (n <= d)%nat /\
         compress data out (Z.of_nat s) (Z.of_nat d) = Ret (0, out', Z.of_nat e, Z.of_nat n) /\
         forall post page, Forall is_byte post -> (e <= length page)%nat ->
           decompress (take n out' ++ post) page (Z.of_nat n) (Z.of_nat e) =
             Ret (0, fill data e page)).
