(* ===== verification/Rtime.v ===== *)
(** * The rtime compressor of JFFS2

    fs/jffs2/compr_rtime.c of the kernel and fs/jffs2/compr_rtime.c of
    U-Boot: a byte is followed by the number of bytes that repeat what came
    after its previous occurrence.  A buffer is a byte memory of its own;
    the [int] variables are numbers ([pos] and [outpos] only grow), what is
    stored in the array of shorts is cut to 16 bits. *)

From S2P Require Import Prelude CMem KString Compr.

(** ** Arrays at a C index, which may be negative *)

Definition idx (i : Z) : outcome addr := if i <? 0 then Err Fault else Ret (Z.to_nat i).
Definition zload (m : mem) (i : Z) : outcome Z := let! a := idx i in load m a.
Definition zstore (m : mem) (i c : Z) : outcome mem := let! a := idx i in store m a c.

Definition s16 : Z -> Z := swrap 16.

(** ** The kernel's compressor *)

(** The loop that extends a match: [pos] and [runlen] afterwards. *)
Fixpoint rtime_match (fuel : nat) (data_in : mem) (sourcelen pos backpos runlen : Z) :
    outcome (Z * Z) :=
  match fuel with
  | O => Err Diverge
  | S fuel =>
      if (backpos <? pos) && (pos <? sourcelen) then
        let! a := zload data_in pos in
        let! b := zload data_in backpos in
        if (a =? b) && (runlen <? 255) then
          rtime_match fuel data_in sourcelen (pos + 1) (backpos + 1) (runlen + 1)
        else Ret (pos, runlen)
      else Ret (pos, runlen)
  end.

(** The outer loop: the output, [outpos] and [pos]. *)
Fixpoint rtime_encode (fuel : nat) (data_in cpage_out : mem) (sourcelen dstlen : Z)
    (positions : list Z) (outpos pos : Z) : outcome (mem * Z * Z) :=
  match fuel with
  | O => Err Diverge
  | S fuel =>
      if (pos <? sourcelen) && (outpos <=? u32 (dstlen - 2)) then
        let! value := zload data_in pos in
        let! cpage_out := zstore cpage_out outpos value in
        let outpos := outpos + 1 in
        let pos := pos + 1 in
        let! backpos := zload positions value in
        let! positions := zstore positions value (s16 pos) in
        let! (pos, runlen) := rtime_match (S (length data_in)) data_in sourcelen pos backpos 0 in
        let! cpage_out := zstore cpage_out outpos (u8 runlen) in
        rtime_encode fuel data_in cpage_out sourcelen dstlen positions (outpos + 1) pos
      else Ret (cpage_out, outpos, pos)
  end.

(** The return value, the output, [*sourcelen] and [*dstlen]. *)
Definition jffs2_rtime_compress (data_in cpage_out : mem) (sourcelen dstlen : Z) :
    outcome (Z * mem * Z * Z) :=
  let! (cpage_out, outpos, pos) :=
    rtime_encode (S (length data_in)) data_in cpage_out sourcelen dstlen (replicate 256 0) 0 0 in
  if pos <=? outpos then Ret (-1, cpage_out, sourcelen, dstlen)
  else Ret (0, cpage_out, pos, outpos).

(** ** The kernel's decompressor *)

(** [while(repeat)]: the output and [outpos]. *)
Fixpoint rtime_copy (repeat : nat) (cpage_out : mem) (outpos backoffs : Z) : outcome (mem * Z) :=
  match repeat with
  | O => Ret (cpage_out, outpos)
  | S repeat =>
      let! c := zload cpage_out backoffs in
      let! cpage_out := zstore cpage_out outpos c in
      rtime_copy repeat cpage_out (outpos + 1) (backoffs + 1)
  end.

(** What [if (repeat)] guards. *)
Definition rtime_repeat (cpage_out : mem) (repeat outpos backoffs : Z) : outcome (mem * Z) :=
  if repeat =? 0 then Ret (cpage_out, outpos)
  else if outpos <=? backoffs + repeat then rtime_copy (Z.to_nat repeat) cpage_out outpos backoffs
  else
    let! d := idx outpos in
    let! s := idx backoffs in
    let! cpage_out := memcpy cpage_out d s (Z.to_nat repeat) in
    Ret (cpage_out, outpos + repeat).

Fixpoint rtime_decode (fuel : nat) (data_in cpage_out : mem) (destlen : Z)
    (positions : list Z) (outpos pos : Z) : outcome mem :=
  match fuel with
  | O => Err Diverge
  | S fuel =>
      if outpos <? destlen then
        let! value := zload data_in pos in
        let! cpage_out := zstore cpage_out outpos value in
        let outpos := outpos + 1 in
        let! repeat := zload data_in (pos + 1) in
        let! backoffs := zload positions value in
        let! positions := zstore positions value (s16 outpos) in
        let! (cpage_out, outpos) := rtime_repeat cpage_out repeat outpos backoffs in
        rtime_decode fuel data_in cpage_out destlen positions outpos (pos + 2)
      else Ret cpage_out
  end.

Definition jffs2_rtime_decompress (data_in cpage_out : mem) (srclen destlen : Z) :
    outcome (Z * mem) :=
  let! cpage_out :=
    rtime_decode (S (length data_in)) data_in cpage_out destlen (replicate 256 0) 0 0 in
  Ret (0, cpage_out).

(** ** U-Boot's decompressor *)

(** [for (i = 0; i < repeat; i++)], for the copies that do not overlap:
    [i] and what is left of [repeat]. *)
Fixpoint uboot_rtime_for (n : nat) (cpage_out : mem) (outpos backoffs i : Z) : outcome mem :=
  match n with
  | O => Ret cpage_out
  | S n =>
      let! c := zload cpage_out (backoffs + i) in
      let! cpage_out := zstore cpage_out (outpos + i) c in
      uboot_rtime_for n cpage_out outpos backoffs (i + 1)
  end.

Definition uboot_rtime_repeat (cpage_out : mem) (repeat outpos backoffs : Z) : outcome (mem * Z) :=
  if repeat =? 0 then Ret (cpage_out, outpos)
  else if outpos <=? backoffs + repeat then rtime_copy (Z.to_nat repeat) cpage_out outpos backoffs
  else
    let! cpage_out := uboot_rtime_for (Z.to_nat repeat) cpage_out outpos backoffs 0 in
    Ret (cpage_out, outpos + repeat).

Fixpoint uboot_rtime_decode (fuel : nat) (data_in cpage_out : mem) (destlen : Z)
    (positions : list Z) (outpos pos : Z) : outcome mem :=
  match fuel with
  | O => Err Diverge
  | S fuel =>
      if outpos <? destlen then
        let! value := zload data_in pos in
        let! cpage_out := zstore cpage_out outpos value in
        let outpos := outpos + 1 in
        let! repeat := zload data_in (pos + 1) in
        let! backoffs := zload positions value in
        let! positions := zstore positions value outpos in
        let! (cpage_out, outpos) := uboot_rtime_repeat cpage_out repeat outpos backoffs in
        uboot_rtime_decode fuel data_in cpage_out destlen positions outpos (pos + 2)
      else Ret cpage_out
  end.

Definition rtime_decompress (data_in cpage_out : mem) (srclen destlen : Z) : outcome mem :=
  uboot_rtime_decode (S (length data_in)) data_in cpage_out destlen (replicate 256 0) 0 0.

(** ** Accesses *)

Create HintDb rtime discriminated.

Lemma zload_Some m i c : m !! i = Some c -> zload m (Z.of_nat i) = Ret c.
Proof.
  intros Hc. unfold zload, idx. case_bool; [lia|]. rewrite Nat2Z.id. by apply load_Some.
Qed.

Lemma zload_byte m v c : 0 <= v -> m !! Z.to_nat v = Some c -> zload m v = Ret c.
Proof. intros Hv Hc. rewrite <-(Z2Nat.id v) by done. by apply zload_Some. Qed.

Lemma zstore_lt m i c : (i < length m)%nat -> zstore m (Z.of_nat i) c = Ret (<[i := c]> m).
Proof.
  intros Hi. unfold zstore, idx. case_bool; [lia|]. rewrite Nat2Z.id. by apply store_lt.
Qed.

Lemma zstore_byte m v c :
  0 <= v -> (Z.to_nat v < length m)%nat -> zstore m v c = Ret (<[Z.to_nat v := c]> m).
Proof. intros Hv Hl. rewrite <-(Z2Nat.id v) at 1 by done. by apply zstore_lt. Qed.

Lemma s16_small p : Z.of_nat p < 2 ^ 15 -> s16 (Z.of_nat p) = Z.of_nat p.
Proof. intros Hp. unfold s16, swrap. change (16 - 1) with 15. rewrite Z.mod_small; lia. Qed.

(** The array of the last occurrences when [p] bytes have been seen. *)
Definition seen (p : nat) (ps : list Z) : Prop :=
  length ps = 256%nat /\ Forall (fun x => 0 <= x <= Z.of_nat p) ps.

Lemma seen_start : seen 0 (replicate 256 0).
Proof. split; [by rewrite length_replicate|]. apply Forall_replicate. lia. Qed.

Lemma seen_lookup p ps v :
  seen p ps -> is_byte v -> exists b, (b <= p)%nat /\ ps !! Z.to_nat v = Some (Z.of_nat b).
Proof.
  intros [Hl Hps] Hv. assert (Z.to_nat v < length ps)%nat as Hlt.
  { rewrite Hl. unfold word in Hv. lia. }
  destruct (lookup_lt_is_Some_2 ps _ Hlt) as [x Hx].
  pose proof (Forall_lookup_1 _ _ _ _ Hps Hx) as Hxr. simpl in Hxr. exists (Z.to_nat x). split; [lia|].
  rewrite Hx. f_equal. lia.
Qed.

Lemma seen_insert p q ps i :
  seen p ps -> (p <= q)%nat -> seen q (<[i := Z.of_nat q]> ps).
Proof.
  intros [Hl Hps] Hq. split; [by rewrite length_insert|].
  apply Forall_insert; [|lia]. eapply Forall_impl; [done|]. simpl. lia.
Qed.

Lemma seen_mono p q ps : seen p ps -> (p <= q)%nat -> seen q ps.
Proof. intros [Hl Hps] Hq. split; [done|]. eapply Forall_impl; [done|]. simpl. lia. Qed.

(** ** What the compressor writes

    [coded data e ps p bs]: with [ps] after [p] bytes of [data], the bytes
    [bs] stand for the bytes from [p] up to [e]. *)
Inductive coded (data : list Z) (e : nat) : list Z -> nat -> list Z -> Prop :=
| coded_end ps : coded data e ps e []
| coded_run ps p v b r bs :
    data !! p = Some v ->
    ps !! Z.to_nat v = Some (Z.of_nat b) ->
    (b <= p)%nat -> (S p + r <= e)%nat -> (r <= 255)%nat ->
    (forall i, (i < r)%nat -> data !! (S p + i)%nat = data !! (b + i)%nat) ->
    coded data e (<[Z.to_nat v := Z.of_nat (S p)]> ps) (S p + r) bs ->
    coded data e ps p (v :: Z.of_nat r :: bs).

Lemma coded_le data e ps p bs : coded data e ps p bs -> (p <= e)%nat.
Proof. induction 1; lia. Qed.

Lemma coded_bytes data e ps p bs :
  coded data e ps p bs -> Forall is_byte data -> Forall is_byte bs.
Proof.
  induction 1 as [|ps p v b r bs Hv Hb Hbp Hpr Hr Hrun Hc IH]; intros Hd; constructor.
  - exact (Forall_lookup_word 8 _ _ _ Hd Hv).
  - constructor; [unfold word; lia|by apply IH].
Qed.

Section Encode.
Context (data : list Z) (s : nat).
Hypothesis Hs : (s <= length data)%nat.
Hypothesis Hbytes : Forall is_byte data.

Lemma rtime_match_run fuel p b k :
  (b < p)%nat -> (p <= s)%nat -> (s - p < fuel)%nat -> 0 <= k <= 255 ->
  exists r, rtime_match fuel data (Z.of_nat s) (Z.of_nat p) (Z.of_nat b) k =
              Ret (Z.of_nat (p + r), k + Z.of_nat r) /\
    (p + r <= s)%nat /\ k + Z.of_nat r <= 255 /\
    forall i, (i < r)%nat -> data !! (p + i)%nat = data !! (b + i)%nat.
Proof using Hs.
  revert p b k. induction fuel as [|fuel IH]; intros p b k Hb Hp Hf Hk; [lia|]. simpl.
  assert (Hstop : exists r, Ret (Z.of_nat p, k) = Ret (Z.of_nat (p + r), k + Z.of_nat r) /\
    (p + r <= s)%nat /\ k + Z.of_nat r <= 255 /\
    forall i, (i < r)%nat -> data !! (p + i)%nat = data !! (b + i)%nat).
  { exists 0%nat. rewrite Nat.add_0_r, Z.add_0_r. repeat split; lia. }
  case_bool; [|lia]. case_bool; simpl; [|done].
  destruct (lookup_lt_is_Some_2 data p ltac:(lia)) as [x Hx].
  destruct (lookup_lt_is_Some_2 data b ltac:(lia)) as [y Hy].
  rewrite (zload_Some _ _ _ Hx), (zload_Some _ _ _ Hy).
  case_bool; simpl; [|done]. case_bool; simpl; [|done]. subst y.
  destruct (IH (S p) (S b) (k + 1)) as (r & E & Hr & Hkr & Hrun); [lia..|].
  exists (S r). rewrite !Z.add_1_r, <-!Nat2Z.inj_succ in *. rewrite E.
  replace (S p + r)%nat with (p + S r)%nat by lia. repeat split; [f_equal; f_equal; lia|lia|lia|].
  intros [|i] Hi; [by rewrite !Nat.add_0_r, Hx, Hy|].
  replace (p + S i)%nat with (S p + i)%nat by lia. replace (b + S i)%nat with (S b + i)%nat by lia.
  apply Hrun. lia.
Qed.

Lemma rtime_encode_coded fuel d ps p w rest :
  Z.of_nat s < 2 ^ 15 -> (2 <= d)%nat -> Z.of_nat d < 2 ^ 32 ->
  seen p ps -> (p <= s)%nat -> (s - p < fuel)%nat ->
  (length w <= d)%nat -> (d <= length w + length rest)%nat ->
  exists bs e,
    rtime_encode fuel data (w ++ rest) (Z.of_nat s) (Z.of_nat d) ps
        (Z.of_nat (length w)) (Z.of_nat p) =
      Ret (w ++ bs ++ drop (length bs) rest, Z.of_nat (length w + length bs), Z.of_nat e) /\
    coded data e ps p bs /\ (e <= s)%nat /\ (length w + length bs <= d)%nat.
Proof using Hs Hbytes.
  intros Hs15 Hd Hd32. revert ps p w rest.
  induction fuel as [|fuel IH]; intros ps p w rest Hps Hp Hf Hw Hr; [lia|]. cbn [rtime_encode].
  destruct (_ && _) eqn:G; cycle 1.
  { exists [], p. rewrite Nat.add_0_r, drop_0. split_and!; [done|constructor|done|simpl; lia]. }
  apply andb_true_iff in G as [G1%Z.ltb_lt G2%Z.leb_le].
  unfold u32 in G2. rewrite wrap_small in G2 by (unfold word; lia).
  destruct (lookup_lt_is_Some_2 data p ltac:(lia)) as [v Hv].
  pose proof (Forall_lookup_word _ _ _ _ Hbytes Hv) as Hbv.
  destruct (seen_lookup p ps v Hps Hbv) as (b & Hb & Hpb).
  destruct rest as [|c0 [|c1 rest]]; simpl in Hr; [lia..|].
  rewrite (zload_Some _ _ _ Hv), zstore_lt by (rewrite length_app; simpl; lia).
  rewrite (zload_byte _ _ _ (proj1 Hbv) Hpb), zstore_byte;
    [|by destruct Hbv|by apply lookup_lt_Some in Hpb].
  rewrite Z.add_1_r, <-Nat2Z.inj_succ, s16_small by lia.
  destruct (rtime_match_run (S (length data)) (S p) b 0) as (r & E & Hpr & Hr255 & Hrun); [lia..|].
  rewrite E. rewrite Z.add_1_r, <-Nat2Z.inj_succ, Z.add_0_l, zstore_lt
    by (rewrite length_insert, length_app; simpl; lia).
  unfold u8. rewrite wrap_small by (unfold word; lia).
  replace (<[S (length w) := Z.of_nat r]> (<[length w := v]> (w ++ c0 :: c1 :: rest)))
    with ((w ++ [v; Z.of_nat r]) ++ rest); cycle 1.
  { rewrite <-app_assoc. simpl. symmetry.
    replace (S (length w)) with (length w + 1)%nat by lia.
    rewrite <-(Nat.add_0_r (length w)) at 2. by rewrite !insert_app_r. }
  rewrite Z.add_1_r, <-Nat2Z.inj_succ.
  replace (S (S (length w))) with (length (w ++ [v; Z.of_nat r]))
    by (rewrite length_app; simpl; lia).
  destruct (IH (<[Z.to_nat v := Z.of_nat (S p)]> ps) (S p + r)%nat (w ++ [v; Z.of_nat r]) rest)
    as (bs & e & E' & Hc & He & Hl).
  { eapply seen_mono; [eapply seen_insert; [done|lia]|lia]. }
  1-4: try rewrite length_app; simpl; lia.
  rewrite E'. exists (v :: Z.of_nat r :: bs), e. rewrite length_app in *. simpl in *. split_and!.
  - rewrite <-app_assoc. simpl. do 3 f_equal. lia.
  - apply (coded_run data e ps p v b r); try done; [|lia]. pose proof (coded_le _ _ _ _ _ Hc). lia.
  - done.
  - lia.
Qed.
End Encode.

(** ** Decoding it *)

Lemma rtime_copy_memcpy n page p b :
  (p + n <= length page)%nat -> (b <= p)%nat ->
  rtime_copy n page (Z.of_nat p) (Z.of_nat b) =
    (let! page := memcpy page p b n in Ret (page, Z.of_nat (p + n))).
Proof.
  revert page p b. induction n as [|n IH]; intros page p b Hn Hb; simpl.
  { by rewrite Nat.add_0_r. }
  destruct (lookup_lt_is_Some_2 page b ltac:(lia)) as [c Hc].
  rewrite (zload_Some _ _ _ Hc), zstore_lt by lia. rewrite (load_Some _ _ _ Hc), store_lt by lia.
  rewrite !Z.add_1_r, <-!Nat2Z.inj_succ, IH by (try rewrite length_insert; lia).
  by rewrite Nat.add_succ_r.
Qed.

(** Both ways of repeating bytes are one forward copy. *)
Lemma rtime_repeat_memcpy page r p b :
  (p + r <= length page)%nat -> (b <= p)%nat ->
  rtime_repeat page (Z.of_nat r) (Z.of_nat p) (Z.of_nat b) =
    (let! page := memcpy page p b r in Ret (page, Z.of_nat (p + r))).
Proof.
  intros Hr Hb. unfold rtime_repeat, idx. rewrite Nat2Z.id.
  case_bool; [by replace r with 0%nat by lia; rewrite Nat.add_0_r|].
  do 2 (case_bool; [lia|]). rewrite !Nat2Z.id. case_bool; [by apply rtime_copy_memcpy|].
  destruct (memcpy page p b r); [|done]. do 2 f_equal. lia.
Qed.

Lemma memcpy_fill data page p b r :
  (b < p)%nat -> (p + r <= length data)%nat -> (p + r <= length page)%nat ->
  (forall i, (i < r)%nat -> data !! (p + i)%nat = data !! (b + i)%nat) ->
  memcpy (fill data p page) p b r = Ret (fill data (p + r) page).
Proof.
  revert p b. induction r as [|r IH]; intros p b Hb Hd Hp Hrun; simpl.
  { by rewrite Nat.add_0_r. }
  destruct (lookup_lt_is_Some_2 data p ltac:(lia)) as [c Hc].
  pose proof (Hrun 0%nat ltac:(lia)) as H0. rewrite !Nat.add_0_r in H0.
  rewrite (load_Some _ _ c), store_lt, (fill_next _ _ _ c), IH;
    [by rewrite Nat.add_succ_r|lia..| |done|lia| |].
  - intros i Hi. specialize (Hrun (S i) ltac:(lia)).
    by rewrite !Nat.add_succ_r in Hrun.
  - rewrite length_filled; lia.
  - by rewrite fill_lookup, <-H0 by lia.
Qed.

Lemma rtime_decode_coded data e ps p bs :
  coded data e ps p bs -> Forall is_byte data -> (e <= length data)%nat -> Z.of_nat e < 2 ^ 15 ->
  seen p ps -> forall fuel pre post page, (length bs < fuel)%nat -> (e <= length page)%nat ->
  rtime_decode fuel (pre ++ bs ++ post) (fill data p page) (Z.of_nat e) ps
    (Z.of_nat p) (Z.of_nat (length pre)) = Ret (fill data e page).
Proof.
  intros Hc Hbytes He He15. induction Hc as [ps|ps p v b r bs Hv Hb Hbp Hpr Hr Hrun Hc IH];
    intros Hps fuel pre post page Hf Hpage.
  { destruct fuel; [lia|]. simpl. by case_bool; [lia|]. }
  destruct fuel as [|fuel]; [lia|]. cbn [rtime_decode app]. case_bool; [|lia].
  pose proof (Forall_lookup_word _ _ _ _ Hbytes Hv) as Hbv.
  rewrite (zload_Some _ _ v) by (by rewrite list_lookup_middle).
  rewrite zstore_lt, fill_next by (try rewrite length_filled; lia || done).
  rewrite Z.add_1_r, <-Nat2Z.inj_succ, (zload_Some _ _ (Z.of_nat r)).
  2: { rewrite lookup_app_r by lia. by replace (S (length pre) - length pre)%nat with 1%nat by lia. }
  rewrite (zload_byte _ _ _ (proj1 Hbv) Hb), zstore_byte;
    [|by destruct Hbv|by apply lookup_lt_Some in Hb].
  rewrite Z.add_1_r, <-Nat2Z.inj_succ, s16_small by lia.
  rewrite rtime_repeat_memcpy, memcpy_fill by (try rewrite length_filled; lia || done).
  replace (pre ++ v :: Z.of_nat r :: bs ++ post) with ((pre ++ [v; Z.of_nat r]) ++ bs ++ post)
    by (by rewrite <-app_assoc).
  replace (Z.of_nat (length pre) + 2) with (Z.of_nat (length (pre ++ [v; Z.of_nat r])))
    by (rewrite length_app; simpl; lia).
  apply IH; [|simpl in Hf; lia|done].
  eapply seen_mono; [eapply seen_insert; [done|lia]|lia].
Qed.

(** What the decoders need to know: the first [n] bytes of [block] stand for
    the first [e] bytes of [data]. *)
Definition rtime_block (block data : mem) (e n : nat) : Prop :=
  coded data e (replicate 256 0) 0 (take n block) /\ (n <= length block)%nat.

Lemma rtime_block_take m data e n post :
  rtime_block m data e n -> rtime_block (take n m ++ post) data e n.
Proof.
  intros [Hc Hn]. split; [|rewrite length_app, length_take; lia].
  by rewrite take_app_le, take_take, Nat.min_id by (rewrite length_take; lia).
Qed.

(** It stays inside a buffer of [dstlen >= 2] bytes. *)
Lemma rtime_compress_ok data out s d :
  Forall is_byte data -> Forall is_byte out -> (s <= length data)%nat -> Z.of_nat s < 2 ^ 15 ->
  (2 <= d <= length out)%nat -> Z.of_nat d < 2 ^ 32 ->
  exists out', wrote d out out' /\
    (jffs2_rtime_compress data out (Z.of_nat s) (Z.of_nat d) =
       Ret (-1, out', Z.of_nat s, Z.of_nat d) \/
     exists e n, (e <= s)%nat /\ (n < e)%nat /\ (n <= d)%nat /\
       jffs2_rtime_compress data out (Z.of_nat s) (Z.of_nat d) =
         Ret (0, out', Z.of_nat e, Z.of_nat n) /\ rtime_block out' data e n).
Proof.
  intros Hb Ho Hs Hs15 Hd Hd32.
  destruct (rtime_encode_coded data s Hs Hb (S (length data)) d (replicate 256 0) 0 [] out)
    as (bs & e & E & Hc & He & Hn); [done|lia|done|apply seen_start|simpl; lia..|].
  change (length []) with 0%nat in E, Hn. rewrite !Nat.add_0_l, !app_nil_l in *.
  change (Z.of_nat 0) with 0 in E. exists (bs ++ drop (length bs) out).
  split.
  { split_and!; [rewrite length_app, length_drop; lia| |by rewrite drop_app_ge, drop_drop by lia; f_equal; lia].
    apply Forall_app. split; [by eapply coded_bytes|by apply Forall_drop]. }
  unfold jffs2_rtime_compress. rewrite E. case_bool; [by left|right].
  exists e, (length bs). split_and!; [lia..|done|].
  split; [by rewrite take_app_length|]. rewrite length_app. lia.
Qed.

Lemma rtime_decompress_ok block data e n page srclen :
  rtime_block block data e n -> Forall is_byte data -> (e <= length data)%nat ->
  Z.of_nat e < 2 ^ 15 -> (e <= length page)%nat ->
  jffs2_rtime_decompress block page srclen (Z.of_nat e) = Ret (0, fill data e page).
Proof.
  intros [Hc Hn] Hb He He15 Hp. unfold jffs2_rtime_decompress.
  pose proof (rtime_decode_coded data e _ 0 _ Hc Hb He He15 seen_start
    (S (length block)) [] (drop n block) page) as D.
  change (fill data 0 page) with page in D. change (length []) with 0%nat in D.
  change (Z.of_nat 0) with 0 in D. rewrite app_nil_l, take_drop in D.
  rewrite D; [done| |done]. rewrite length_take. lia.
Qed.

#[export] Instance rtime_codec : Codec jffs2_rtime_compress jffs2_rtime_decompress.
Proof.
  intros data out s d (Hdata & Hout & Hs & Hpage & Hd2 & Hds & Hd). unfold PAGE_CACHE_SIZE in Hpage.
  destruct (rtime_compress_ok data out s d) as (out' & Hw & [E|(e & n & He & Hn & Hnd & E & Hblk)]);
    [done|done|done|lia|lia|lia| |]; exists out'; (split; [done|]).
  - left. exists (-1). done.
  - right. exists e, n. split_and!; [done| |done|done|done|].
    + destruct n; [|lia]. destruct Hblk as [Hc _]. rewrite take_0 in Hc. inversion Hc. lia.
    + intros post page _ Hp. apply (rtime_decompress_ok _ data e n); [|done|lia|lia|done].
      by apply rtime_block_take.
Qed.

(** ** U-Boot decodes as the kernel does *)

Lemma uboot_for_memcpy n page p b i :
  uboot_rtime_for n page (Z.of_nat p) (Z.of_nat b) (Z.of_nat i) = memcpy page (p + i) (b + i) n.
Proof.
  revert page i. induction n as [|n IH]; intros page i; simpl; [done|].
  unfold zload, zstore, idx. do 2 (case_bool; [lia|]). rewrite <-!Nat2Z.inj_add, !Nat2Z.id.
  destruct (load page (b + i)) as [c|]; [|done]. destruct (store page (p + i) c) as [m|]; [|done].
  replace (Z.of_nat i + 1) with (Z.of_nat (S i)) by lia. by rewrite IH, !Nat.add_succ_r.
Qed.

Lemma uboot_repeat_same page r p b :
  uboot_rtime_repeat page (Z.of_nat r) (Z.of_nat p) (Z.of_nat b) =
  rtime_repeat page (Z.of_nat r) (Z.of_nat p) (Z.of_nat b).
Proof.
  unfold uboot_rtime_repeat, rtime_repeat, idx. case_bool; [done|].
  do 2 (case_bool; [lia|]). rewrite !Nat2Z.id. case_bool; [done|].
  by rewrite (uboot_for_memcpy _ _ _ _ 0), !Nat.add_0_r.
Qed.

Lemma zload_byte_inv m i v : Forall is_byte m -> zload m i = Ret v -> is_byte v.
Proof.
  intros Hm. unfold zload, idx, load. case_bool; [done|].
  destruct (m !! Z.to_nat i) eqn:E; [|done]. intros [= <-]. by eapply Forall_lookup_word.
Qed.

(** Where a repetition ends, if it ends. *)
Lemma rtime_repeat_end page r p b page' q :
  rtime_repeat page (Z.of_nat r) (Z.of_nat p) (Z.of_nat b) = Ret (page', q) -> q = Z.of_nat (p + r).
Proof.
  assert (Hcopy : forall n page p b q,
    rtime_copy n page (Z.of_nat p) b = Ret (page', q) -> q = Z.of_nat (p + n)).
  { clear. induction n as [|n IH]; intros page p b q; simpl.
    - intros [= _ <-]. by rewrite Nat.add_0_r.
    - destruct (zload page b); [|done]. destruct (zstore page (Z.of_nat p) a); [|done].
      rewrite Z.add_1_r, <-Nat2Z.inj_succ. intros H%IH. lia. }
  unfold rtime_repeat, idx. rewrite Nat2Z.id. case_bool; [intros [= _ <-]; lia|].
  do 2 (case_bool; [lia|]). case_bool; [apply Hcopy|].
  destruct (memcpy _ _ _ _); [|done]. intros [= _ <-]. lia.
Qed.

Lemma uboot_rtime_decode_same data destlen fuel ps p page pos :
  Forall is_byte data -> destlen < 2 ^ 15 -> seen p ps ->
  uboot_rtime_decode fuel data page destlen ps (Z.of_nat p) pos =
  rtime_decode fuel data page destlen ps (Z.of_nat p) pos.
Proof.
  intros Hb Hd. revert ps p page pos.
  induction fuel as [|fuel IH]; intros ps p page pos Hps; [done|]. cbn [rtime_decode uboot_rtime_decode].
  case_bool; [|done]. destruct (zload data pos) as [v|] eqn:Ev; [|done].
  pose proof (zload_byte_inv _ _ _ Hb Ev) as Hv. destruct (seen_lookup p ps v Hps Hv) as (b & Hbp & Hpb).
  destruct (zstore page (Z.of_nat p) v) as [page1|]; [|done].
  destruct (zload data (pos + 1)) as [r|] eqn:Er; [|done].
  pose proof (zload_byte_inv _ _ _ Hb Er) as Hr. rewrite (zload_byte _ _ _ (proj1 Hv) Hpb).
  rewrite !Z.add_1_r, <-!Nat2Z.inj_succ, s16_small by lia.
  rewrite zstore_byte; [|by destruct Hv|by apply lookup_lt_Some in Hpb].
  rewrite <-(Z2Nat.id r) by apply Hr. rewrite uboot_repeat_same.
  destruct (rtime_repeat _ _ _ _) as [[page2 q]|] eqn:E; [|done].
  apply rtime_repeat_end in E as ->. apply IH.
  eapply seen_mono; [eapply seen_insert; [done|lia]|lia].
Qed.

(** ** Bytes that were never compressed *)

Lemma memcpy_inside n page p b k :
  (p + n <= k)%nat -> (k <= length page)%nat -> (b <= p)%nat ->
  exists page', memcpy page p b n = Ret page' /\ length page' = length page /\
    drop k page' = drop k page.
Proof.
  revert page p b. induction n as [|n IH]; intros page p b Hn Hk Hb; simpl; [by eexists|].
  destruct (lookup_lt_is_Some_2 page b ltac:(lia)) as [c Hc].
  rewrite (load_Some _ _ _ Hc), store_lt by lia.
  destruct (IH (<[p := c]> page) (S p) (S b)) as (page' & E & Hl & Hd);
    [lia|rewrite length_insert; lia|lia|].
  exists page'. rewrite Hl, Hd, length_insert, drop_insert_lt by lia. done.
Qed.

(** A run that stays below [k] in the output. *)
Definition below (k : nat) (page page' : mem) : Prop :=
  length page' = length page /\ drop k page' = drop k page.

Lemma zload_None m i : (length m <= i)%nat -> zload m (Z.of_nat i) = Err Fault.
Proof.
  intros Hi. unfold zload, idx, load. case_bool; [lia|]. rewrite Nat2Z.id.
  by rewrite (proj2 (lookup_ge_None m i)).
Qed.

(** The only access that can fail is a read past the end of the source, two
    bytes of which are used for each round. *)
Lemma rtime_decode_below data d k fuel ps p page pos :
  Forall is_byte data -> Z.of_nat d < 2 ^ 15 -> (d + 255 <= k)%nat -> (k <= length page)%nat ->
  seen p ps -> (pos <= 2 * p)%nat -> (0 < fuel)%nat -> (length data < fuel + pos)%nat ->
  match rtime_decode fuel data page (Z.of_nat d) ps (Z.of_nat p) (Z.of_nat pos) with
  | Ret page' => below k page page'
  | Err x => x = Fault /\ (length data < 2 * d)%nat
  end.
Proof.
  intros Hb Hd15 Hk. revert ps p page pos.
  induction fuel as [|fuel IH]; intros ps p page pos Hpage Hps Hpos H0 Hf; [lia|].
  cbn [rtime_decode]. case_bool; [|done].
  destruct (data !! pos) as [v|] eqn:Hv; [|apply lookup_ge_None in Hv; rewrite zload_None by lia; split; [done|lia]].
  pose proof (lookup_lt_Some _ _ _ Hv) as Hpl.
  rewrite (zload_Some _ _ _ Hv), zstore_lt, Z.add_1_r, <-Nat2Z.inj_succ by lia.
  destruct (data !! S pos) as [r|] eqn:Hr;
    [|apply lookup_ge_None in Hr; rewrite Z.add_1_r, <-Nat2Z.inj_succ, zload_None by lia; split; [done|lia]].
  rewrite Z.add_1_r, <-Nat2Z.inj_succ, (zload_Some _ _ _ Hr).
  pose proof (Forall_lookup_word _ _ _ _ Hb Hv) as Hbv.
  pose proof (Forall_lookup_word _ _ _ _ Hb Hr) as Hbr. pose proof (lookup_lt_Some _ _ _ Hr) as Hpr.
  destruct (seen_lookup p ps v Hps Hbv) as (b & Hbp & Hpb).
  rewrite (zload_byte _ _ _ (proj1 Hbv) Hpb), s16_small by lia.
  rewrite zstore_byte; [|by destruct Hbv|by apply lookup_lt_Some in Hpb].
  unfold word in Hbr. rewrite <-(Z2Nat.id r), rtime_repeat_memcpy by (try rewrite length_insert; lia).
  destruct (memcpy_inside (Z.to_nat r) (<[p := v]> page) (S p) b k) as (page1 & E & Hl & Hdr);
    [lia|rewrite length_insert; lia|lia|]. rewrite E, length_insert in *.
  rewrite drop_insert_lt in Hdr by lia.
  replace (Z.of_nat pos + 2) with (Z.of_nat (S (S pos))) by lia. unfold below in *.
  rewrite <-Hl, <-Hdr. apply IH; [lia| |lia..].
  eapply seen_mono; [eapply seen_insert; [done|lia]|lia].
Qed.

Lemma uboot_rtime_same block page srclen destlen :
  Forall is_byte block -> destlen < 2 ^ 15 ->
  rtime_decompress block page srclen destlen =
    (let! (_, page) := jffs2_rtime_decompress block page srclen destlen in Ret page).
Proof.
  intros Hb Hd. unfold rtime_decompress, jffs2_rtime_decompress.
  pose proof (uboot_rtime_decode_same block destlen (S (length block)) _ 0 page 0 Hb Hd seen_start) as E.
  change (Z.of_nat 0) with 0 in E. rewrite E. by destruct (rtime_decode _ _ _ _ _ _ _).
Qed.

(** U-Boot's, as a decompressor of the kernel. *)
Definition uboot_rtime : decompress_fn := fun src dest csize dsize =>
  let! dest := rtime_decompress src dest csize dsize in Ret (0, dest).

#[export] Instance uboot_rtime_codec : Codec jffs2_rtime_compress uboot_rtime.
Proof.
  intros data out s d Hreq. destruct (rtime_codec data out s d Hreq) as (out' & Hw & H).
  exists out'. split; [done|]. destruct H as [H|(e & n & He & Hn & Hne & Hnd & E & H)]; [by left|right].
  exists e, n. split_and!; [done..|]. intros post page Hpost Hp. unfold uboot_rtime.
  rewrite uboot_rtime_same, H; [done|done|done| |].
  - apply Forall_app. split; [|done]. by apply Forall_take, Hw.
  - destruct Hreq as (_ & _ & _ & Hs & _). unfold PAGE_CACHE_SIZE in Hs. lia.
Qed.

(** ** Theorems *)

(** C7 (rtime round trip).  The compressor of compr_rtime.c, given fewer than
    2^15 bytes and room for at least 2, returns and writes only to the room
    it was given.  When it succeeds, it used fewer bytes than it took, and
    both decompressors, the kernel's and U-Boot's, restore exactly these from
    the bytes it wrote, whatever follows them. *)
Theorem rtime_roundtrip data out s d :
  Forall is_byte data -> Forall is_byte out -> (s <= length data)%nat -> Z.of_nat s < 2 ^ 15 ->
  (2 <= d <= length out)%nat -> Z.of_nat d < 2 ^ 32 ->
  exists out', wrote d out out' /\
    (jffs2_rtime_compress data out (Z.of_nat s) (Z.of_nat d) =
       Ret (-1, out', Z.of_nat s, Z.of_nat d) \/
     exists e n, (e <= s)%nat /\ (n < e)%nat /\ (n <= d)%nat /\
       jffs2_rtime_compress data out (Z.of_nat s) (Z.of_nat d) =
         Ret (0, out', Z.of_nat e, Z.of_nat n) /\
       forall post page srclen, Forall is_byte post -> (e <= length page)%nat ->
         jffs2_rtime_decompress (take n out' ++ post) page srclen (Z.of_nat e) =
           Ret (0, fill data e page) /\
         rtime_decompress (take n out' ++ post) page srclen (Z.of_nat e) = Ret (fill data e page)).
Proof.
  intros Hb Ho Hs Hs15 Hd Hd32.
  destruct (rtime_compress_ok data out s d) as (out' & Hw & [E|(e & n & He & Hn & Hnd & E & Hblk)]);
    [done..| |]; exists out'; (split; [done|]); [by left|right].
  exists e, n. split_and!; [done..|]. intros post page srclen Hpost Hp.
  assert (E' : jffs2_rtime_decompress (take n out' ++ post) page srclen (Z.of_nat e) =
    Ret (0, fill data e page)).
  { apply (rtime_decompress_ok _ data e n); [by apply rtime_block_take|done|lia..]. }
  split; [done|]. rewrite uboot_rtime_same; [by rewrite E'| |lia].
  apply Forall_app. split; [|done]. by apply Forall_take, Hw.
Qed.

Lemma rtime_roundtrip_witness :
  exists out', wrote 9 (replicate 9 0) out' /\
    (jffs2_rtime_compress [7; 7; 7; 7; 1; 2; 7; 1; 2; 7] (replicate 9 0) (Z.of_nat 10) (Z.of_nat 9) =
       Ret (-1, out', Z.of_nat 10, Z.of_nat 9) \/
     exists e n, (e <= 10)%nat /\ (n < e)%nat /\ (n <= 9)%nat /\
       jffs2_rtime_compress [7; 7; 7; 7; 1; 2; 7; 1; 2; 7] (replicate 9 0) (Z.of_nat 10) (Z.of_nat 9) =
         Ret (0, out', Z.of_nat e, Z.of_nat n) /\
       forall post page srclen, Forall is_byte post -> (e <= length page)%nat ->
         jffs2_rtime_decompress (take n out' ++ post) page srclen (Z.of_nat e) =
           Ret (0, fill [7; 7; 7; 7; 1; 2; 7; 1; 2; 7] e page) /\
         rtime_decompress (take n out' ++ post) page srclen (Z.of_nat e) =
           Ret (fill [7; 7; 7; 7; 1; 2; 7; 1; 2; 7] e page)).
Proof.
  apply (rtime_roundtrip [7; 7; 7; 7; 1; 2; 7; 1; 2; 7] (replicate 9 0) 10 9).
  - repeat constructor; unfold word; lia.
  - repeat constructor; unfold word; lia.
  - simpl; lia.
  - lia.
  - simpl; lia.
  - lia.
Defined.

(** C18 (rtime on foreign data).  Whatever bytes a block consists of, also
    when no compressor wrote it, the two decompressors do the same when asked
    for fewer than 2^15 bytes into a memory that goes on for 255 more: they end,
    touch nothing past the 255 bytes after the destination (no repetition
    starts behind its end, and none is longer), and fail in one way only, by
    reading past the end of a block of fewer than two bytes per byte of output.
    That it is this read that fails: with enough bytes [post] behind the block,
    whatever they are, both return. *)
Theorem rtime_decompress_bounds block page srclen d :
  Forall is_byte block -> Z.of_nat d < 2 ^ 15 -> (d + 255 <= length page)%nat ->
  match jffs2_rtime_decompress block page srclen (Z.of_nat d) with
  | Ret (ret, page') => ret = 0 /\ below (d + 255) page page' /\
      rtime_decompress block page srclen (Z.of_nat d) = Ret page'
  | Err x => x = Fault /\ rtime_decompress block page srclen (Z.of_nat d) = Err x /\
      (length block < 2 * d)%nat /\
      forall post, Forall is_byte post -> (2 * d <= length (block ++ post))%nat ->
        exists page', below (d + 255) page page' /\
          jffs2_rtime_decompress (block ++ post) page srclen (Z.of_nat d) = Ret (0, page') /\
          rtime_decompress (block ++ post) page srclen (Z.of_nat d) = Ret page'
  end.
Proof.
  intros Hb Hd15 Hp.
  assert (H : forall data, Forall is_byte data ->
    match jffs2_rtime_decompress data page srclen (Z.of_nat d) with
    | Ret (ret, page') => ret = 0 /\ below (d + 255) page page'
    | Err x => x = Fault /\ (length data < 2 * d)%nat
    end).
  { intros data Hdata. unfold jffs2_rtime_decompress.
    pose proof (rtime_decode_below data d (d + 255) (S (length data)) (replicate 256 0) 0 page 0
      Hdata Hd15 ltac:(lia) Hp seen_start ltac:(lia) ltac:(lia) ltac:(lia)) as E.
    change (Z.of_nat 0) with 0 in E. by destruct (rtime_decode _ _ _ _ _ _ _). }
  pose proof (H block Hb) as Hblk. rewrite uboot_rtime_same by (done || lia).
  destruct (jffs2_rtime_decompress block _ _ _) as [[ret page']|x]; [by destruct Hblk|].
  destruct Hblk as [-> Hl]. split_and!; [done..|]. intros post Hpost Hlen.
  assert (Hall : Forall is_byte (block ++ post)) by (by apply Forall_app).
  specialize (H _ Hall). rewrite uboot_rtime_same by (done || lia).
  destruct (jffs2_rtime_decompress (block ++ post) _ _ _) as [[ret page']|x]; [|lia].
  destruct H as [-> H]. by exists page'.
Qed.

(** Two rounds of foreign bytes, and one byte too few for the second. *)
Definition demo_block : mem := [7; 0; 1].

Lemma rtime_decompress_bounds_witness :
  match jffs2_rtime_decompress demo_block (replicate 260 0) 3 (Z.of_nat 2) with
  | Ret (ret, page') => ret = 0 /\ below (2 + 255) (replicate 260 0) page' /\
      rtime_decompress demo_block (replicate 260 0) 3 (Z.of_nat 2) = Ret page'
  | Err x => x = Fault /\ rtime_decompress demo_block (replicate 260 0) 3 (Z.of_nat 2) = Err x /\
      (length demo_block < 2 * 2)%nat /\
      forall post, Forall is_byte post -> (2 * 2 <= length (demo_block ++ post))%nat ->
        exists page', below (2 + 255) (replicate 260 0) page' /\
          jffs2_rtime_decompress (demo_block ++ post) (replicate 260 0) 3 (Z.of_nat 2) = Ret (0, page') /\
          rtime_decompress (demo_block ++ post) (replicate 260 0) 3 (Z.of_nat 2) = Ret page'
  end.
Proof.
  apply (rtime_decompress_bounds demo_block (replicate 260 0) 3 2).
  - repeat constructor; unfold word; lia.
  - lia.
  - rewrite length_replicate; lia.
Defined.

(** C39 (accesses outside of the buffers of rtime).  With room for one byte
    the compressor writes two, since [*dstlen - 2] wraps.  The decompressors
    check neither length while they run: a repetition is copied past the end
    of the destination, and bytes are read past the end of the source. *)
Theorem rtime_overruns v :
  is_byte v ->
  jffs2_rtime_compress [v] [0] 1 1 = Err Fault /\
  jffs2_rtime_decompress [v; 255] (replicate 255 0) 2 1 = Err Fault /\
  rtime_decompress [v; 255] (replicate 255 0) 2 1 = Err Fault /\
  jffs2_rtime_decompress [v; 0] [0; 0] 2 2 = Err Fault.
Proof.
  intros Hv. assert (H : forallb (fun v =>
    bool_decide (jffs2_rtime_compress [v] [0] 1 1 = Err Fault) &&
    bool_decide (jffs2_rtime_decompress [v; 255] (replicate 255 0) 2 1 = Err Fault) &&
    bool_decide (rtime_decompress [v; 255] (replicate 255 0) 2 1 = Err Fault) &&
    bool_decide (jffs2_rtime_decompress [v; 0] [0; 0] 2 2 = Err Fault)) (seqZ 0 256) = true)
    by by vm_compute.
  rewrite forallb_forall in H. unfold word in Hv.
  specialize (H v ltac:(apply list_elem_of_In, elem_of_seqZ; lia)).
  repeat (apply andb_true_iff in H as [H ?%bool_decide_eq_true_1]).
  by apply bool_decide_eq_true_1 in H.
Qed.

Lemma rtime_overruns_witness :
  jffs2_rtime_compress [65] [0] 1 1 = Err Fault /\
  jffs2_rtime_decompress [65; 255] (replicate 255 0) 2 1 = Err Fault /\
  rtime_decompress [65; 255] (replicate 255 0) 2 1 = Err Fault /\
  jffs2_rtime_decompress [65; 0] [0; 0] 2 2 = Err Fault.
Proof. apply (rtime_overruns 65). unfold word. lia. Defined.
