(* ===== verification/Rubin.v ===== *)
(** * The Rubin compressors of JFFS2

    fs/jffs2/pushpull.h, compr_rubin.h, histo_mips.h and compr_rubin.c of the
    kernel: an arithmetic coder over the bits of each byte, with a table of
    eight probabilities.  A buffer is a byte memory; [unsigned long] has 32
    bits.  [rec_q], which the coder does not use, starts as 0 there. *)

From S2P Require Import Prelude CMem.

Definition ENOSPC : Z := 28.

(** ** Bits in a buffer: pushpull.h *)

Record pushpull := Pushpull { buf : addr; buflen : Z; ofs : Z; reserve : Z }.

Definition init_pushpull (buf : addr) (buflen ofs reserve : Z) : pushpull :=
  Pushpull buf buflen ofs reserve.

Definition pushbit (m : mem) (pp : pushpull) (bit use_reserved : bool) :
    outcome (Z * mem * pushpull) :=
  let '(Pushpull buf buflen ofs reserve) := pp in
  if u32 (buflen - (if use_reserved then 0 else reserve)) <=? ofs then Ret (- ENOSPC, m, pp)
  else
    let a := (buf + Z.to_nat (Z.shiftr ofs 3))%nat in
    let! c := load m a in
    let mask := Z.shiftl 1 (7 - Z.land ofs 7) in
    let! m := store m a (u8 (if bit then Z.lor c mask else Z.land c (Z.lnot mask))) in
    Ret (0, m, Pushpull buf buflen (u32 (ofs + 1)) reserve).

Definition pushedbits (pp : pushpull) : Z := s32 (ofs pp).

Definition pullbit (m : mem) (pp : pushpull) : outcome (Z * pushpull) :=
  let '(Pushpull buf buflen ofs reserve) := pp in
  let! c := load m (buf + Z.to_nat (Z.shiftr ofs 3))%nat in
  Ret (Z.land (Z.shiftr c (7 - Z.land ofs 7)) 1, Pushpull buf buflen (u32 (ofs + 1)) reserve).

Definition pulledbits (pp : pushpull) : Z := s32 (ofs pp).

(** ** The coder *)

Definition RUBIN_REG_SIZE : nat := 16.
Definition UPPER_BIT_RUBIN : Z := Z.shiftl 1 15.
Definition LOWER_BITS_RUBIN : Z := Z.shiftl 1 15 - 1.

Record rubin_state := Rubin {
  rs_p : Z; rs_q : Z; rec_q : Z; bit_number : Z; pp : pushpull; bit_divider : Z; bits : list Z
}.

Definition init_rubin (pp : pushpull) (div : Z) (bits : list Z) : rubin_state :=
  Rubin (2 * UPPER_BIT_RUBIN) 0 0 0 pp div bits.

(** The condition of the loops that shift a bit out. *)
Definition rubin_full (p q : Z) : bool :=
  (UPPER_BIT_RUBIN <=? q) || (u32 (p + q) <=? UPPER_BIT_RUBIN).

(** The loop of [encode]: the value to return if it is not 0. *)
Fixpoint rubin_shift (fuel : nat) (m : mem) (rs : rubin_state) : outcome (Z * mem * rubin_state) :=
  match fuel with
  | O => Err Diverge
  | S fuel =>
      let '(Rubin p q rec_q n pp div bits) := rs in
      if rubin_full p q then
        let n := s32 (n + 1) in
        let! (ret, m, pp) := pushbit m pp (negb (Z.land q UPPER_BIT_RUBIN =? 0)) false in
        if negb (ret =? 0) then Ret (ret, m, Rubin p q rec_q n pp div bits)
        else
          rubin_shift fuel m
            (Rubin (cshl 32 p 1) (cshl 32 (Z.land q LOWER_BITS_RUBIN) 1) rec_q n pp div bits)
      else Ret (0, m, rs)
  end.

(** [A * rs->p / (A + B)], clamped to lie between 1 and [p - 1]: where
    [encode] and [decode] divide the interval. *)
Definition rubin_i0 (A B p : Z) : outcome Z :=
  let d := u32 (A + B) in
  if d =? 0 then Err Fault
  else
    let i0 := s32 (u32 (A * p) / d) in
    let i0 := if i0 <=? 0 then 1 else i0 in
    Ret (if p <=? u32 i0 then s32 (u32 (p - 1)) else i0).

Definition encode (m : mem) (rs : rubin_state) (A B : Z) (symbol : bool) :
    outcome (Z * mem * rubin_state) :=
  let! (ret, m, rs) := rubin_shift (S RUBIN_REG_SIZE) m rs in
  if negb (ret =? 0) then Ret (ret, m, rs)
  else
    let '(Rubin p q rec_q n pp div bits) := rs in
    let! i0 := rubin_i0 A B p in
    let i1 := s32 (u32 (p - i0)) in
    Ret (0, m,
      if negb symbol then Rubin (u32 i0) q rec_q n pp div bits
      else Rubin (u32 i1) (u32 (q + i0)) rec_q n pp div bits).

Fixpoint end_rubin_loop (i : nat) (m : mem) (rs : rubin_state) : outcome (mem * rubin_state) :=
  match i with
  | O => Ret (m, rs)
  | S i =>
      let '(Rubin p q rec_q n pp div bits) := rs in
      let! (_, m, pp) := pushbit m pp (negb (Z.land UPPER_BIT_RUBIN q =? 0)) true in
      end_rubin_loop i m (Rubin p (cshl 32 (Z.land q LOWER_BITS_RUBIN) 1) rec_q n pp div bits)
  end.

Definition end_rubin (m : mem) (rs : rubin_state) : outcome (mem * rubin_state) :=
  end_rubin_loop RUBIN_REG_SIZE m rs.

(** Pulling [n] bits into [rec_q]. *)
Fixpoint init_decode_loop (n : nat) (m : mem) (rec_q : Z) (pp : pushpull) : outcome (Z * pushpull) :=
  match n with
  | O => Ret (rec_q, pp)
  | S n =>
      let! (c, pp) := pullbit m pp in
      init_decode_loop n m (u32 (rec_q * 2 + c)) pp
  end.

Definition init_decode (m : mem) (pp : pushpull) (div : Z) (bits : list Z) : outcome rubin_state :=
  let '(Rubin p q _ _ pp div bits) := init_rubin pp div bits in
  let! (rec_q, pp) := init_decode_loop RUBIN_REG_SIZE m 0 pp in
  Ret (Rubin p q rec_q (Z.of_nat RUBIN_REG_SIZE + 1) pp div bits).

(** The first loop of [__do_decode], after its first round: [bits], [p], [q]. *)
Fixpoint do_decode_count (fuel : nat) (n : nat) (p q : Z) : outcome (nat * Z * Z) :=
  match fuel with
  | O => Err Diverge
  | S fuel =>
      let n := S n in
      let q := cshl 32 (Z.land q LOWER_BITS_RUBIN) 1 in
      let p := cshl 32 p 1 in
      if rubin_full p q then do_decode_count fuel n p q else Ret (n, p, q)
  end.

Fixpoint do_decode_pull (n : nat) (m : mem) (rec_q : Z) (pp : pushpull) : outcome (Z * pushpull) :=
  match n with
  | O => Ret (rec_q, pp)
  | S n =>
      let! (c, pp) := pullbit m pp in
      do_decode_pull n m (u32 (cshl 32 (Z.land rec_q LOWER_BITS_RUBIN) 1 + c)) pp
  end.

Definition __do_decode (m : mem) (rs : rubin_state) (p q : Z) : outcome rubin_state :=
  let '(Rubin _ _ rec_q bit_number pp div bits) := rs in
  let! (n, p, q) := do_decode_count (S RUBIN_REG_SIZE) 0 p q in
  let bit_number := s32 (bit_number + Z.of_nat n) in
  let! (rec_q, pp) := do_decode_pull n m rec_q pp in
  Ret (Rubin p q rec_q bit_number pp div bits).

Definition decode (m : mem) (rs : rubin_state) (A B : Z) : outcome (bool * rubin_state) :=
  let! rs := (if rubin_full (rs_p rs) (rs_q rs) then __do_decode m rs (rs_p rs) (rs_q rs) else Ret rs) in
  let '(Rubin p q rec_q n pp div bits) := rs in
  let! i0 := rubin_i0 A B p in
  let threshold := s32 (u32 (q + i0)) in
  if u32 threshold <=? rec_q then
    let q := u32 (q + i0) in
    let i0 := s32 (u32 (p - i0)) in
    Ret (true, Rubin (u32 i0) q rec_q n pp div bits)
  else Ret (false, Rubin (u32 i0) q rec_q n pp div bits).

(** ** Bytes *)

(** The loop of [out_byte], over the probabilities [js] that are left. *)
Fixpoint out_byte_loop (js : list Z) (m : mem) (rs : rubin_state) (byte : Z) :
    outcome (Z * mem * rubin_state) :=
  match js with
  | [] => Ret (0, m, rs)
  | b :: js =>
      let! (ret, m, rs) := encode m rs (bit_divider rs - b) b (negb (Z.land byte 1 =? 0)) in
      if negb (ret =? 0) then Ret (ret, m, rs)
      else out_byte_loop js m rs (Z.shiftr byte 1)
  end.

(** The state is restored on failure, not what was pushed. *)
Definition out_byte (m : mem) (rs : rubin_state) (byte : Z) : outcome (Z * mem * rubin_state) :=
  let! (ret, m, rs') := out_byte_loop (bits rs) m rs byte in
  Ret (ret, m, if negb (ret =? 0) then rs else rs').

Fixpoint in_byte_loop (js : list Z) (i : Z) (m : mem) (rs : rubin_state) (bit_divider result : Z) :
    outcome (Z * rubin_state) :=
  match js with
  | [] => Ret (result, rs)
  | b :: js =>
      let! (symbol, rs) := decode m rs (bit_divider - b) b in
      in_byte_loop js (i + 1) m rs bit_divider (Z.lor result (Z.shiftl (b2z symbol) i))
  end.

Definition in_byte (m : mem) (rs : rubin_state) : outcome (Z * rubin_state) :=
  in_byte_loop (bits rs) 0 m rs (bit_divider rs) 0.

(** ** Buffers *)

(** The loop of [rubin_do_compress]: [pos] afterwards. *)
Fixpoint rubin_compress_loop (fuel : nat) (data_in m : mem) (rs : rubin_state) (sourcelen pos : Z) :
    outcome (mem * rubin_state * Z) :=
  match fuel with
  | O => Err Diverge
  | S fuel =>
      if pos <? sourcelen then
        let! c := load data_in (Z.to_nat pos) in
        let! (ret, m, rs) := out_byte m rs c in
        if ret =? 0 then rubin_compress_loop fuel data_in m rs sourcelen (pos + 1)
        else Ret (m, rs, pos)
      else Ret (m, rs, pos)
  end.

(** The return value, the output, [*sourcelen] and [*dstlen]; the output
    starts at [cpage_out] in [m]. *)
Definition rubin_do_compress (bit_divider : Z) (bits : list Z) (data_in m : mem) (cpage_out : addr)
    (sourcelen dstlen : Z) : outcome (Z * mem * Z * Z) :=
  let rs := init_rubin (init_pushpull cpage_out (u32 (dstlen * 8)) 0 32) bit_divider bits in
  let! (m, rs, pos) := rubin_compress_loop (S (length data_in)) data_in m rs sourcelen 0 in
  let! (m, rs) := end_rubin m rs in
  if pos <? 0 then Ret (-1, m, sourcelen, dstlen)
  else
    let outpos := Z.quot (pushedbits (pp rs) + 7) 8 in
    if pos <=? outpos then Ret (-1, m, sourcelen, dstlen)
    else Ret (0, m, pos, outpos).

Fixpoint rubin_decompress_loop (fuel : nat) (m page_out : mem) (rs : rubin_state)
    (destlen outpos : Z) : outcome mem :=
  match fuel with
  | O => Err Diverge
  | S fuel =>
      if outpos <? destlen then
        let! (c, rs) := in_byte m rs in
        let! page_out := store page_out (Z.to_nat outpos) (u8 c) in
        rubin_decompress_loop fuel m page_out rs destlen (outpos + 1)
      else Ret page_out
  end.

Definition rubin_do_decompress (bit_divider : Z) (bits : list Z) (m : mem) (cdata_in : addr)
    (page_out : mem) (srclen destlen : Z) : outcome mem :=
  let! rs := init_decode m (init_pushpull cdata_in srclen 0 0) bit_divider bits in
  rubin_decompress_loop (S (length page_out)) m page_out rs destlen 0.

(** ** The compressors *)

(** [histo[data_in[i]]++] for the bytes from [i] on. *)
Fixpoint dynrubin_histo (n : nat) (i : addr) (data_in histo : mem) : outcome mem :=
  match n with
  | O => Ret histo
  | S n =>
      let! v := load data_in i in
      let! h := load histo (Z.to_nat v) in
      let! histo := store histo (Z.to_nat v) (u8 (h + 1)) in
      dynrubin_histo n (S i) data_in histo
  end.

(** How often each bit is set, from the number of each byte. *)
Definition dynrubin_tally (histo : mem) : list Z :=
  fold_left (fun bits i =>
    imap (fun k b => if Z.land i (Z.shiftl 1 (Z.of_nat k)) =? 0 then b
                     else b + nth (Z.to_nat i) histo 0) bits)
    (seqZ 0 256) (replicate 8 0).

(** A probability, out of 256. *)
Definition dynrubin_scale (mysrclen b : Z) : outcome Z :=
  if mysrclen =? 0 then Err Fault
  else
    let b := s32 (u32 (b * 256) / mysrclen) in
    let b := if b =? 0 then 1 else b in
    Ret (if 255 <? b then 255 else b).

(** The last loop: the probabilities, which go to the start of the output. *)
Fixpoint dynrubin_table (tally : list Z) (i : addr) (mysrclen : Z) (cpage_out : mem) :
    outcome (list Z * mem) :=
  match tally with
  | [] => Ret ([], cpage_out)
  | b :: tally =>
      let! b := dynrubin_scale mysrclen b in
      let! cpage_out := store cpage_out i (u8 b) in
      let! (bits, cpage_out) := dynrubin_table tally (S i) mysrclen cpage_out in
      Ret (b :: bits, cpage_out)
  end.

Definition jffs2_dynrubin_compress (data_in cpage_out : mem) (sourcelen dstlen : Z) :
    outcome (Z * mem * Z * Z) :=
  let mysrclen := sourcelen in
  let mydstlen := u32 (dstlen - 8) in
  if dstlen <=? 12 then Ret (-1, cpage_out, sourcelen, dstlen)
  else
    let! histo := dynrubin_histo (Z.to_nat mysrclen) 0 data_in (replicate 256 0) in
    let! (bits, cpage_out) := dynrubin_table (dynrubin_tally histo) 0 mysrclen cpage_out in
    let! (ret, cpage_out, mysrclen, mydstlen) :=
      rubin_do_compress 256 bits data_in cpage_out 8 mysrclen mydstlen in
    if negb (ret =? 0) then Ret (ret, cpage_out, sourcelen, dstlen)
    else
      let mydstlen := u32 (mydstlen + 8) in
      if mysrclen <=? mydstlen then Ret (-1, cpage_out, sourcelen, dstlen)
      else Ret (0, cpage_out, mysrclen, mydstlen).

Definition BIT_DIVIDER_MIPS : Z := 1043.
Definition bits_mips : list Z := [277; 249; 290; 267; 229; 341; 212; 241].

Definition jffs2_rubinmips_decompress (data_in cpage_out : mem) (sourcelen dstlen : Z) :
    outcome (Z * mem) :=
  let! cpage_out :=
    rubin_do_decompress BIT_DIVIDER_MIPS bits_mips data_in 0 cpage_out sourcelen dstlen in
  Ret (0, cpage_out).

(** [bits[c] = data_in[c]] for [c] from 0 to 7. *)
Fixpoint load_bits (n : nat) (c : addr) (data_in : mem) : outcome (list Z) :=
  match n with
  | O => Ret []
  | S n =>
      let! b := load data_in c in
      let! bits := load_bits n (S c) data_in in
      Ret (b :: bits)
  end.

Definition jffs2_dynrubin_decompress (data_in cpage_out : mem) (sourcelen dstlen : Z) :
    outcome (Z * mem) :=
  let! bits := load_bits 8 0 data_in in
  let! cpage_out :=
    rubin_do_decompress 256 bits data_in 8 cpage_out (u32 (sourcelen - 8)) dstlen in
  Ret (0, cpage_out).
