(* ===== verification/RubinSpec.v ===== *)
(** * The Rubin coder on lists of bits

    What fs/jffs2/compr_rubin.c computes, without its buffers: an interval
    [q, q + p) within 2^16 is divided for each symbol, and bits leave it at
    the top.  [enc] is the coder, [win] the 16 bits a decoder looks at;
    [enc_window] is the reason why the decoder takes the coder's choices. *)

From S2P Require Import Prelude.

(** The interval, and whether its upper bit is settled. *)
Definition interval (p q : Z) : Prop := 1 <= p /\ 0 <= q /\ p + q <= 2 ^ 16.
Definition settled (p q : Z) : bool := (2 ^ 15 <=? q) || (p + q <=? 2 ^ 15).

(** Shift settled bits out: the bits, and the interval left. *)
Fixpoint norm (fuel : nat) (p q : Z) : list bool * (Z * Z) :=
  match fuel with
  | O => ([], (p, q))
  | S fuel =>
      if settled p q then
        let '(l, r) := norm fuel (2 * p) (2 * (q mod 2 ^ 15)) in ((2 ^ 15 <=? q) :: l, r)
      else ([], (p, q))
  end.

Definition rounds : nat := 17.

(** Where the interval is divided when a symbol [false] has [A] chances of [D]. *)
Definition divide (D A p : Z) : Z := Z.min (Z.max 1 (A * p / D)) (p - 1).

Definition narrow (D A p q : Z) (symbol : bool) : Z * Z :=
  if symbol then (p - divide D A p, q + divide D A p) else (divide D A p, q).

(** Symbols, each with its [A]. *)
Fixpoint enc (D : Z) (ss : list (Z * bool)) (p q : Z) : list bool * (Z * Z) :=
  match ss with
  | [] => ([], (p, q))
  | (A, s) :: ss =>
      let '(l1, (p, q)) := norm rounds p q in
      let '(p, q) := narrow D A p q s in
      let '(l2, r) := enc D ss p q in
      (l1 ++ l2, r)
  end.

(** ** Windows *)

(** The [n] bits of [code] from [o] on, as a number. *)
Fixpoint win (code : nat -> bool) (o n : nat) : Z :=
  match n with
  | O => 0
  | S n => 2 * win code o n + b2z (code (o + n)%nat)
  end.

(** [l] is what [code] holds from [o] on. *)
Definition holds (code : nat -> bool) (o : nat) (l : list bool) : Prop :=
  forall i b, l !! i = Some b -> code (o + i)%nat = b.

Section Windows.
Context (code : nat -> bool).

Lemma win_range o n : 0 <= win code o n < 2 ^ Z.of_nat n.
Proof.
  induction n as [|n IH]; [done|]. cbn [win].
  rewrite Nat2Z.inj_succ, Z.pow_succ_r by lia. destruct (code _); simpl b2z; lia.
Qed.

Lemma win_front o n : win code o (S n) = b2z (code o) * 2 ^ Z.of_nat n + win code (S o) n.
Proof.
  induction n as [|n IH]; [simpl; rewrite Nat.add_0_r; lia|].
  change (win code o (S (S n))) with (2 * win code o (S n) + b2z (code (o + S n)%nat)).
  rewrite IH. cbn [win]. rewrite (Nat.add_succ_comm o n), Nat2Z.inj_succ, Z.pow_succ_r by lia. lia.
Qed.

(** One bit further: the upper bit falls out, a bit comes in. *)
Lemma win_next o n :
  win code (S o) (S n) = 2 * (win code o (S n) mod 2 ^ Z.of_nat n) + b2z (code (S o + n)%nat) /\
  code o = (2 ^ Z.of_nat n <=? win code o (S n)).
Proof.
  pose proof (win_range (S o) n). split.
  - by rewrite (win_front o n), (Z.add_comm (b2z (code o) * _)), Z_mod_plus_full, Z.mod_small.
  - rewrite win_front. destruct (code o); simpl b2z; case_bool; lia || done.
Qed.

Lemma win16_range o : 0 <= win code o 16 < 2 ^ 16.
Proof. apply (win_range o 16). Qed.

Lemma win16_next o :
  win code (S o) 16 = 2 * (win code o 16 mod 2 ^ 15) + b2z (code (o + 16)%nat) /\
  code o = (2 ^ 15 <=? win code o 16).
Proof.
  destruct (win_next o 15) as [E1 E2]. rewrite (Nat.add_succ_comm o 15) in E1. by split.
Qed.

Lemma holds_nil o : holds code o [].
Proof. by intros i b. Qed.

Lemma holds_cons o b l : holds code o (b :: l) <-> code o = b /\ holds code (S o) l.
Proof.
  split.
  - intros H. split; [rewrite <-(Nat.add_0_r o); by apply H|].
    intros i c Hi. rewrite Nat.add_succ_comm. by apply H.
  - intros [H1 H2] [|i] c Hi; simplify_eq/=; [by rewrite Nat.add_0_r|].
    rewrite <-Nat.add_succ_comm. by apply H2.
Qed.

Lemma holds_app o l1 l2 : holds code o (l1 ++ l2) <-> holds code o l1 /\ holds code (o + length l1) l2.
Proof.
  revert o. induction l1 as [|b l1 IH]; intros o; simpl.
  - rewrite Nat.add_0_r. split; [intros; split; [apply holds_nil|done]|by intros []].
  - rewrite !holds_cons, IH, Nat.add_succ_r, Nat.add_succ_l. tauto.
Qed.
End Windows.

(** ** Shifting *)

Lemma settled_bit p q : interval p q -> settled p q = true ->
  interval (2 * p) (2 * (q mod 2 ^ 15)) /\
  (if 2 ^ 15 <=? q then q = 2 ^ 15 + q mod 2 ^ 15 else q = q mod 2 ^ 15 /\ p + q <= 2 ^ 15).
Proof.
  intros (Hp & Hq & Hpq) Hs. unfold settled in Hs. apply orb_true_iff in Hs.
  destruct (Z.leb_spec (2 ^ 15) q) as [Hu|Hu].
  - assert (E : q mod 2 ^ 15 = q - 2 ^ 15) by (symmetry; apply (Z.mod_unique _ _ 1); lia).
    rewrite E. split; [unfold interval; lia|lia].
  - rewrite Z.mod_small by lia. destruct Hs as [|Hs%Z.leb_le]; [done|].
    split; [unfold interval; lia|lia].
Qed.

Lemma norm_spec fuel p q l p1 q1 :
  interval p q -> 2 ^ 16 < p * 2 ^ Z.of_nat fuel -> norm fuel p q = (l, (p1, q1)) ->
  interval p1 q1 /\ settled p1 q1 = false /\ 2 <= p1.
Proof.
  revert p q l. induction fuel as [|fuel IH]; intros p q l Hi Hf E.
  - destruct Hi. change (2 ^ Z.of_nat 0) with 1 in Hf. lia.
  - cbn [norm] in E. destruct (settled p q) eqn:Es.
    + destruct (norm fuel _ _) as [l' [? ?]] eqn:En. simplify_eq.
      apply (IH _ _ l' (proj1 (settled_bit p q Hi Es))); [|done].
      rewrite Nat2Z.inj_succ, Z.pow_succ_r in Hf by lia. lia.
    + simplify_eq. split; [done|split; [done|]].
      unfold settled in Es. apply orb_false_iff in Es as [E1%Z.leb_gt E2%Z.leb_gt]. lia.
Qed.

Lemma norm_rounds p q l p1 q1 :
  interval p q -> norm rounds p q = (l, (p1, q1)) ->
  interval p1 q1 /\ settled p1 q1 = false /\ 2 <= p1.
Proof.
  intros Hi. apply norm_spec; [done|]. destruct Hi.
  change (2 ^ Z.of_nat rounds) with (2 ^ 17). lia.
Qed.

(** One shift backwards: [w] is the window before it, [w'] the one after. *)
Lemma window_back p q w w' b :
  interval p q -> settled p q = true -> 0 <= w < 2 ^ 16 ->
  w' = 2 * (w mod 2 ^ 15) + b2z b -> (2 ^ 15 <=? w) = (2 ^ 15 <=? q) ->
  2 * (q mod 2 ^ 15) <= w' < 2 * (q mod 2 ^ 15) + 2 * p -> q <= w < q + p.
Proof.
  intros Hi Hs Hw -> Hb Hw'. destruct (settled_bit p q Hi Hs) as [_ Hq].
  assert (E : if 2 ^ 15 <=? w then w = 2 ^ 15 + w mod 2 ^ 15 else w = w mod 2 ^ 15).
  { destruct (Z.leb_spec (2 ^ 15) w); [|symmetry; apply Z.mod_small; lia].
    assert (w mod 2 ^ 15 = w - 2 ^ 15) by (symmetry; apply (Z.mod_unique _ _ 1); lia). lia. }
  rewrite Hb in E. destruct (2 ^ 15 <=? q), b; simpl b2z in *; lia.
Qed.

(** If the window is in the interval after the shifts, it was before. *)
Lemma norm_window code fuel p q o l p1 q1 :
  interval p q -> norm fuel p q = (l, (p1, q1)) -> holds code o l ->
  q1 <= win code (o + length l) 16 < q1 + p1 -> q <= win code o 16 < q + p.
Proof.
  revert p q o l. induction fuel as [|fuel IH]; intros p q o l Hi E Hl Hw; cbn [norm] in E.
  { simplify_eq. by rewrite Nat.add_0_r in Hw. }
  destruct (settled p q) eqn:Es; [|simplify_eq; by rewrite Nat.add_0_r in Hw].
  destruct (norm fuel _ _) as [l' [? ?]] eqn:En. simplify_eq.
  apply holds_cons in Hl as [Hb Hl]. cbn [length] in Hw. rewrite Nat.add_succ_r in Hw.
  destruct (settled_bit p q Hi Es) as [Hi' _].
  pose proof (IH _ _ (S o) l' Hi' En Hl Hw) as H.
  destruct (win16_next code o) as [E1 E2].
  apply (window_back _ _ _ _ _ Hi Es (win16_range code o) E1).
  - by rewrite <-Hb, E2.
  - done.
Qed.

(** ** Dividing *)

Lemma divide_range D A p : 2 <= p -> 1 <= divide D A p <= p - 1.
Proof. intros. unfold divide. lia. Qed.

Lemma narrow_interval D A p q s p1 q1 :
  interval p q -> 2 <= p -> narrow D A p q s = (p1, q1) ->
  interval p1 q1 /\ q <= q1 /\ q1 + p1 <= q + p /\
  forall w, q1 <= w < q1 + p1 -> (q + divide D A p <=? w) = s.
Proof.
  intros (H1 & H2 & H3) Hp. pose proof (divide_range D A p Hp) as Hd. unfold narrow.
  destruct s; intros [= <- <-]; (split; [split_and!; lia|]); (split; [lia|]); (split; [lia|]);
    intros w Hw; [apply Z.leb_le|apply Z.leb_gt]; lia.
Qed.

Lemma enc_interval D ss p q l p1 q1 :
  interval p q -> enc D ss p q = (l, (p1, q1)) -> interval p1 q1.
Proof.
  revert p q l. induction ss as [|[A s] ss IH]; intros p q l Hi E; cbn [enc] in E; [by simplify_eq|].
  destruct (norm rounds p q) as [l1 [pn qn]] eqn:En.
  destruct (narrow D A pn qn s) as [ps qs] eqn:Ew. destruct (enc D ss ps qs) as [l2 [? ?]] eqn:Ee.
  simplify_eq. destruct (norm_rounds _ _ _ _ _ Hi En) as (Hin & _ & Hp2).
  destruct (narrow_interval _ _ _ _ _ _ _ Hin Hp2 Ew) as (Hiw & _). by eapply IH.
Qed.

(** The window is in the interval before the symbols if it is in the one
    they leave. *)
Lemma enc_window code D ss p q o l p1 q1 :
  interval p q -> enc D ss p q = (l, (p1, q1)) -> holds code o l ->
  q1 <= win code (o + length l) 16 < q1 + p1 -> q <= win code o 16 < q + p.
Proof.
  revert p q o l. induction ss as [|[A s] ss IH]; intros p q o l Hi E Hl Hw; cbn [enc] in E.
  { simplify_eq. by rewrite Nat.add_0_r in Hw. }
  destruct (norm rounds p q) as [l1 [pn qn]] eqn:En.
  destruct (narrow D A pn qn s) as [ps qs] eqn:Ew. destruct (enc D ss ps qs) as [l2 [? ?]] eqn:Ee.
  simplify_eq. destruct (norm_rounds _ _ _ _ _ Hi En) as (Hin & _ & Hp2).
  destruct (narrow_interval _ _ _ _ _ _ _ Hin Hp2 Ew) as (Hiw & Hqs & Hps & _).
  apply holds_app in Hl as [Hl1 Hl2]. rewrite length_app, Nat.add_assoc in Hw.
  pose proof (IH _ _ _ _ Hiw Ee Hl2 Hw). eapply norm_window; [done..|lia].
Qed.

Lemma enc_app D ss1 ss2 p q l1 p1 q1 l2 r :
  enc D ss1 p q = (l1, (p1, q1)) -> enc D ss2 p1 q1 = (l2, r) ->
  enc D (ss1 ++ ss2) p q = (l1 ++ l2, r).
Proof.
  revert p q l1. induction ss1 as [|[A s] ss1 IH]; intros p q l1 E1 E2; cbn [enc app] in *; [by simplify_eq|].
  destruct (norm rounds p q) as [l [pn qn]] eqn:En. destruct (narrow D A pn qn s) as [ps qs] eqn:Ew.
  destruct (enc D ss1 ps qs) as [l3 [? ?]] eqn:Ee. simplify_eq.
  rewrite (IH _ _ _ Ee E2). by rewrite app_assoc.
Qed.

(** ** The end: the 16 bits of [q] *)

Fixpoint flush (n : nat) (q : Z) : list bool :=
  match n with
  | O => []
  | S n => (2 ^ 15 <=? q) :: flush n (2 * (q mod 2 ^ 15))
  end.

Lemma length_flush n q : length (flush n q) = n.
Proof. revert q. induction n; intros q; simpl; auto. Qed.

Lemma flush_window code n o q :
  0 <= q < 2 ^ 16 -> (n <= 16)%nat -> q mod 2 ^ (16 - Z.of_nat n) = 0 ->
  holds code o (flush n q) -> win code o n * 2 ^ (16 - Z.of_nat n) = q.
Proof.
  revert o q. induction n as [|n IH]; intros o q Hq Hn Hm Hl.
  { change (16 - Z.of_nat 0) with 16 in *. rewrite Z.mod_small in Hm by done. simpl. lia. }
  apply holds_cons in Hl as [Hb Hl]. rewrite win_front, Hb.
  assert (E2 : 2 ^ (16 - Z.of_nat n) = 2 * 2 ^ (16 - Z.of_nat (S n))).
  { rewrite <-Z.pow_succ_r by lia. f_equal. lia. }
  assert (E15 : 2 ^ 15 = 2 ^ Z.of_nat n * 2 ^ (16 - Z.of_nat (S n))).
  { rewrite <-Z.pow_add_r by lia. f_equal. lia. }
  assert (Hpos : 0 < 2 ^ (16 - Z.of_nat (S n))) by (apply Z.pow_pos_nonneg; lia).
  assert (Hpos' : 0 < 2 ^ Z.of_nat n) by (apply Z.pow_pos_nonneg; lia).
  pose proof (Z.mod_pos_bound q (2 ^ 15) ltac:(lia)) as Hr.
  assert (H := IH (S o) (2 * (q mod 2 ^ 15)) ltac:(lia) ltac:(lia)). rewrite E2 in H.
  assert (Hdiv : q mod 2 ^ 15 mod 2 ^ (16 - Z.of_nat (S n)) = 0).
  { rewrite E15, (Z.mul_comm (2 ^ Z.of_nat n)), Z.rem_mul_r, Hm, Z.add_0_l, Z.mul_comm by lia.
    by rewrite Z.mod_mul by lia. }
  specialize (H ltac:(rewrite Z.mul_mod_distr_l, Hdiv; lia) Hl).
  destruct (Z.leb_spec (2 ^ 15) q); simpl b2z.
  - assert (q mod 2 ^ 15 = q - 2 ^ 15) by (symmetry; apply (Z.mod_unique _ _ 1); lia). nia.
  - rewrite Z.mod_small in H by lia. nia.
Qed.

Lemma flush_window16 code o q :
  0 <= q < 2 ^ 16 -> holds code o (flush 16 q) -> win code o 16 = q.
Proof.
  intros Hq Hl. pose proof (flush_window code 16 o q Hq ltac:(lia)) as H.
  change (2 ^ (16 - Z.of_nat 16)) with 1 in H. rewrite Z.mod_1_r, Z.mul_1_r in H. by apply H.
Qed.
