(* ===== verification/RubinMain.v ===== *)
(** * The Rubin compressors compute the coder, and it decodes

    [Rubin] run on [RubinSpec]: what has been pushed into a buffer is read
    as a function from bit positions to bits ([mem_code]), the coder's
    pushes and the decoder's pulls are followed on it. *)

From S2P Require Import Prelude CMem Compr Rubin RubinSpec.

(** Bit [i] of the buffer at [base]. *)
Definition mem_code (m : mem) (base : addr) (i : nat) : bool :=
  Z.testbit (nth (base + i / 8) m 0) (7 - Z.of_nat (i mod 8)).

(** ** Numbers *)

Lemma ofs_byte o : Z.to_nat (Z.shiftr (Z.of_nat o) 3) = (o / 8)%nat.
Proof. rewrite Z.shiftr_div_pow2 by lia. change (2 ^ 3) with (Z.of_nat 8).
  by rewrite <-Nat2Z.inj_div, Nat2Z.id.
Qed.

Lemma ofs_bit o : Z.land (Z.of_nat o) 7 = Z.of_nat (o mod 8).
Proof.
  change 7 with (Z.ones 3). rewrite Z.land_ones by lia. change (2 ^ 3) with (Z.of_nat 8).
  by rewrite Nat2Z.inj_mod.
Qed.

Lemma mod8 o : (o mod 8 < 8)%nat.
Proof. by apply Nat.mod_upper_bound. Qed.

Lemma div8_lt o d : (o < 8 * d)%nat -> (o / 8 < d)%nat.
Proof. intros. apply Nat.Div0.div_lt_upper_bound. lia. Qed.

Lemma rubin_full_settled p q : interval p q -> rubin_full p q = settled p q.
Proof.
  intros (? & ? & ?). unfold rubin_full, settled, u32. rewrite wrap_small by (unfold word; lia). done.
Qed.

Lemma rubin_upper q : 0 <= q < 2 ^ 16 -> negb (Z.land q UPPER_BIT_RUBIN =? 0) = (2 ^ 15 <=? q).
Proof.
  intros Hq. change UPPER_BIT_RUBIN with (2 ^ 15).
  assert (E : Z.land q (2 ^ 15) = if 2 ^ 15 <=? q then 2 ^ 15 else 0).
  { apply Z.bits_inj'. intros i Hi. rewrite Z.land_spec, pow2_testbit by lia.
    destruct (Z.eqb_spec i 15) as [->|]; cycle 1.
    - rewrite andb_false_r. case_bool; [|by rewrite Z.testbit_0_l].
      symmetry. by apply Z.pow2_bits_false.
    - rewrite andb_true_r, Z.testbit_odd, Z.shiftr_div_pow2 by lia. case_bool.
      + by replace (q / 2 ^ 15) with 1 by (apply (Z.div_unique _ _ _ (q - 2 ^ 15)); lia).
      + by rewrite Z.div_small by lia. }
  rewrite E. by destruct (2 ^ 15 <=? q).
Qed.

Lemma rubin_lower q : 0 <= q < 2 ^ 16 ->
  cshl 32 (Z.land q LOWER_BITS_RUBIN) 1 = 2 * (q mod 2 ^ 15).
Proof.
  intros Hq. change LOWER_BITS_RUBIN with (Z.ones 15). rewrite Z.land_ones by lia.
  pose proof (Z.mod_pos_bound q (2 ^ 15)). unfold cshl. rewrite Z.shiftl_mul_pow2 by lia.
  rewrite wrap_small by (unfold word; lia). lia.
Qed.

Lemma rubin_double p : 1 <= p <= 2 ^ 16 -> cshl 32 p 1 = 2 * p.
Proof.
  intros Hp. unfold cshl. rewrite Z.shiftl_mul_pow2, wrap_small by (unfold word; lia). lia.
Qed.

Lemma u32_s32_small x : 0 <= x < 2 ^ 31 -> u32 (s32 (u32 x)) = x.
Proof. intros. by rewrite (u32_small x), s32_small, u32_small by lia. Qed.

Lemma rubin_i0_divide D A B p :
  A + B = D -> 0 < D < 2 ^ 16 -> 0 <= A <= D -> A * p < 2 ^ 32 -> 2 <= p <= 2 ^ 16 ->
  rubin_i0 A B p = Ret (divide D A p).
Proof.
  intros HD HDr HA HAp Hp. unfold rubin_i0, divide. rewrite HD. unfold u32.
  rewrite (wrap_small 32 D), (wrap_small 32 (A * p)), (wrap_small 32 (p - 1)) by (unfold word; nia).
  case_bool; [lia|].
  assert (0 <= A * p / D <= p).
  { split; [apply Z.div_pos; nia|]. apply Z.div_le_upper_bound; nia. }
  rewrite !s32_small by lia. f_equal. destruct (Z.leb_spec (A * p / D) 0).
  - rewrite wrap_small by (unfold word; lia). case_bool; lia.
  - rewrite wrap_small by (unfold word; lia). case_bool; lia.
Qed.

(** ** Pushing *)

(** The symbols of the low bits of [v], with the probabilities [js]. *)
Fixpoint syms (D : Z) (js : list Z) (v : Z) : list (Z * bool) :=
  match js with
  | [] => []
  | b :: js => (D - b, Z.testbit v 0) :: syms D js (Z.shiftr v 1)
  end.

Lemma land_1_testbit v : negb (Z.land v 1 =? 0) = Z.testbit v 0.
Proof.
  change 1 with (Z.ones 1). rewrite Z.land_ones, Z.bit0_odd, Zmod_odd by lia. by destruct (Z.odd v).
Qed.

(** The symbols of a block of bytes. *)
Definition data_syms (D : Z) (bs : list Z) (data : list Z) : list (Z * bool) :=
  concat (map (syms D bs) data).

Section Push.
Context (base d : nat) (D : Z) (bs : list Z).
Hypothesis Hd : 4 <= Z.of_nat d.
Hypothesis Hd32 : 8 * Z.of_nat d < 2 ^ 31.
Hypothesis HD : 0 < D <= 2 ^ 11.

(** The buffer lies in a memory of bytes. *)
Definition room (m : mem) : Prop := (base + d <= length m)%nat /\ Forall is_byte m.

(** [m'] differs from [m] only in the buffer, from its bit [o] on. *)
Definition upto (o : nat) (m m' : mem) : Prop :=
  length m' = length m /\ Forall is_byte m' /\
  (forall j, (j < o)%nat -> mem_code m' base j = mem_code m base j) /\
  (forall a, (a < base \/ base + d <= a)%nat -> m' !! a = m !! a).

Lemma upto_refl o m : room m -> upto o m m.
Proof. by intros []. Qed.

Lemma upto_room o m m' : room m -> upto o m m' -> room m'.
Proof. intros [Hl _] (E & Hb & _). split; [lia|done]. Qed.

Lemma upto_trans o o' m m1 m2 : (o <= o')%nat -> upto o m m1 -> upto o' m1 m2 -> upto o m m2.
Proof.
  intros Ho (L1 & _ & C1 & F1) (L2 & B2 & C2 & F2). split; [lia|split; [done|split]].
  - intros j Hj. rewrite C2 by lia. by apply C1.
  - intros a Ha. by rewrite F2, F1.
Qed.

Lemma upto_holds o o' m1 m2 l :
  upto o' m1 m2 -> (o + length l <= o')%nat -> holds (mem_code m1 base) o l -> holds (mem_code m2 base) o l.
Proof.
  intros (_ & _ & C & _) Ho Hl i b Hi. pose proof (lookup_lt_Some _ _ _ Hi). rewrite C by lia. by apply Hl.
Qed.

Definition buffer (o : nat) : pushpull := Pushpull base (8 * Z.of_nat d) (Z.of_nat o) 32.

Lemma pushbit_ok m o b u :
  room m -> Z.of_nat o < 8 * Z.of_nat d - (if u : bool then 0 else 32) ->
  exists m', pushbit m (buffer o) b u = Ret (0, m', buffer (S o)) /\ upto o m m' /\
    mem_code m' base o = b.
Proof using Hd Hd32.
  intros [Hl Hb] Ho. unfold pushbit, buffer, u32.
  rewrite wrap_small by (unfold word; destruct u; lia). case_bool; [lia|].
  rewrite ofs_byte, ofs_bit. pose proof (mod8 o) as H8.
  assert (Hdo : (o / 8 < d)%nat) by (apply div8_lt; destruct u; lia).
  destruct (lookup_lt_is_Some_2 m (base + o / 8)%nat ltac:(lia)) as [c Hc].
  pose proof (Forall_lookup_word _ _ _ _ Hb Hc) as Hcb.
  rewrite (load_Some _ _ _ Hc), store_lt by lia. rewrite wrap_small by (unfold word; destruct u; lia).
  set (c' := u8 _). assert (Hc' : forall i, 0 <= i < 8 ->
    Z.testbit c' i = if i =? 7 - Z.of_nat (o mod 8) then b else Z.testbit c i).
  { intros i Hi. unfold c', u8. rewrite wrap_testbit by lia. destruct (Z.ltb_spec i 8); [|lia]. simpl.
    destruct b; rewrite ?Z.lor_spec, ?Z.land_spec, ?Z.lnot_spec, shiftl1_testbit by lia;
      case_bool; by rewrite ?orb_true_r, ?orb_false_r, ?andb_false_r, ?andb_true_r. }
  exists (<[(base + o / 8)%nat := c']> m). split; [unfold buffer; by rewrite Nat2Z.inj_succ, <-Z.add_1_r|]. split.
  - split; [by rewrite length_insert|split; [apply Forall_insert; [done|by apply wrap_word]|split]].
    + intros j Hj. unfold mem_code. rewrite !nth_lookup.
      destruct (decide (j / 8 = o / 8)%nat) as [E|E].
      * rewrite E, list_lookup_insert_eq, Hc by lia. cbn [default from_option]. pose proof (mod8 j).
        rewrite Hc' by lia. case_bool; [|done].
        pose proof (Nat.div_mod_eq j 8). pose proof (Nat.div_mod_eq o 8). lia.
      * by rewrite list_lookup_insert_ne by lia.
    + intros a Ha. rewrite list_lookup_insert_ne; [done|]. lia.
  - unfold mem_code. rewrite nth_lookup, list_lookup_insert_eq by lia. cbn [default from_option].
    rewrite Hc' by lia. by rewrite Z.eqb_refl.
Qed.

Lemma pushbit_full m o b :
  8 * Z.of_nat d - 32 <= Z.of_nat o -> pushbit m (buffer o) b false = Ret (- ENOSPC, m, buffer o).
Proof using Hd Hd32.
  intros Ho. unfold pushbit, buffer, u32. rewrite wrap_small by (unfold word; lia).
  by case_bool; [|lia].
Qed.

Definition state (p q n : Z) (o : nat) : rubin_state := Rubin p q 0 n (buffer o) D bs.

(** How a step of the coder ends: it has pushed [l] and left the interval
    [p1, q1], or the buffer is full. *)
Definition pushes (m : mem) (o : nat) (l : list bool) (p1 q1 : Z)
    (r : outcome (Z * mem * rubin_state)) : Prop :=
  (exists m' n', r = Ret (0, m', state p1 q1 n' (o + length l)) /\ upto o m m' /\
     holds (mem_code m' base) o l /\ Z.of_nat (o + length l) <= 8 * Z.of_nat d - 32) \/
  (exists m' rs', r = Ret (- ENOSPC, m', rs') /\ upto o m m').

Lemma rubin_shift_ok fuel m n o p q l p1 q1 :
  interval p q -> 2 ^ 16 < p * 2 ^ Z.of_nat fuel -> norm fuel p q = (l, (p1, q1)) ->
  room m -> Z.of_nat o <= 8 * Z.of_nat d - 32 ->
  pushes m o l p1 q1 (rubin_shift fuel m (state p q n o)).
Proof using Hd Hd32.
  revert m n o p q l. induction fuel as [|fuel IH]; intros m n o p q l Hi Hf E Hm Ho.
  { destruct Hi. change (2 ^ Z.of_nat 0) with 1 in Hf. lia. }
  cbn [norm] in E. cbn [rubin_shift state]. rewrite rubin_full_settled by done.
  destruct (settled p q) eqn:Es; cycle 1.
  { simplify_eq. left. exists m, n. rewrite Nat.add_0_r.
    split; [done|split; [by apply upto_refl|split; [apply holds_nil|lia]]]. }
  destruct (norm fuel _ _) as [l' [? ?]] eqn:En. simplify_eq.
  pose proof Hi as (Hp & Hq & Hpq). rewrite rubin_upper by lia.
  destruct (Z.le_gt_cases (8 * Z.of_nat d - 32) (Z.of_nat o)) as [Hfull|Hroom].
  { rewrite pushbit_full by done. right. do 2 eexists. split; [done|]. by apply upto_refl. }
  destruct (pushbit_ok m o (2 ^ 15 <=? q) false Hm ltac:(lia)) as (m' & Ep & Hu & Hc).
  rewrite Ep. simpl negb. cbn iota. rewrite rubin_double, rubin_lower by lia.
  rewrite Nat2Z.inj_succ, Z.pow_succ_r in Hf by lia.
  destruct (IH m' (s32 (n + 1)) (S o) (2 * p) (2 * (q mod 2 ^ 15)) l' (proj1 (settled_bit p q Hi Es)) ltac:(lia) En)
    as [(m2 & n2 & E2 & Hu2 & Hl2 & Ho2)|(m2 & rs2 & E2 & Hu2)]; [by eapply upto_room|lia| |].
  - left. exists m2, n2. cbn [length]. rewrite Nat.add_succ_r. split; [done|].
    split; [eapply upto_trans; [|done..]; lia|]. split; [|lia].
    apply holds_cons. split; [|done]. destruct Hu2 as (_ & _ & C2 & _). rewrite C2 by lia. done.
  - right. exists m2, rs2. split; [done|]. eapply upto_trans; [|done..]. lia.
Qed.

Lemma encode_ok m n o A p q s l p1 q1 :
  interval p q -> 0 <= A <= D -> enc D [(A, s)] p q = (l, (p1, q1)) ->
  room m -> Z.of_nat o <= 8 * Z.of_nat d - 32 ->
  pushes m o l p1 q1 (encode m (state p q n o) A (D - A) s).
Proof using Hd Hd32 HD.
  intros Hi HA E Hm Ho. cbn [enc] in E. destruct (norm rounds p q) as [l1 [pn qn]] eqn:En.
  destruct (narrow D A pn qn s) as [ps qs] eqn:Ew. rewrite app_nil_r in E. simplify_eq.
  destruct (norm_rounds _ _ _ _ _ Hi En) as (Hin & _ & Hp2). pose proof Hin as (_ & Hqn & Hpq).
  unfold encode. pose proof Hi as [Hp _].
  destruct (rubin_shift_ok rounds m n o p q l pn qn Hi
    ltac:(change (2 ^ Z.of_nat rounds) with (2 ^ 17); lia) En Hm Ho)
    as [(m' & n' & Es & Hu & Hl & Ho')|(m' & rs' & Es & Hu)];
    change (S RUBIN_REG_SIZE) with rounds; rewrite Es; cbn -[rubin_i0].
  - left. exists m', n'. split; [|done].
    rewrite (rubin_i0_divide D) by nia. pose proof (divide_range D A pn Hp2) as Hdv.
    unfold narrow in Ew. destruct s; simplify_eq; simpl.
    + by rewrite u32_s32_small, u32_small by lia.
    + by rewrite u32_small by lia.
  - right. by exists m', rs'.
Qed.

Lemma out_byte_loop_ok js v m n o p q l p1 q1 :
  Forall (fun b => 0 <= b <= D) js -> interval p q -> enc D (syms D js v) p q = (l, (p1, q1)) ->
  room m -> Z.of_nat o <= 8 * Z.of_nat d - 32 ->
  pushes m o l p1 q1 (out_byte_loop js m (state p q n o) v).
Proof using Hd Hd32 HD.
  revert v m n o p q l. induction js as [|b js IH]; intros v m n o p q l Hjs Hi E Hm Ho.
  { cbn [syms enc] in E. simplify_eq. left. exists m, n. rewrite Nat.add_0_r.
    split; [done|split; [by apply upto_refl|split; [apply holds_nil|done]]]. }
  apply Forall_cons in Hjs as [Hb Hjs]. cbn [syms] in E.
  destruct (enc D [(D - b, Z.testbit v 0)] p q) as [l1 [ps qs]] eqn:E1.
  destruct (enc D (syms D js (Z.shiftr v 1)) ps qs) as [l2 [pe qe]] eqn:E2.
  change (_ :: syms D js _) with ([(D - b, Z.testbit v 0)] ++ syms D js (Z.shiftr v 1)) in E.
  rewrite (enc_app _ _ _ _ _ _ _ _ _ _ E1 E2) in E. simplify_eq.
  cbn [out_byte_loop]. rewrite land_1_testbit. change (bit_divider (state p q n o)) with D.
  pose proof (encode_ok m n o (D - b) p q (Z.testbit v 0) l1 ps qs Hi ltac:(lia) E1 Hm Ho) as He.
  replace (D - (D - b)) with b in He by lia.
  destruct He as [(m' & n' & Es & Hu & Hl & Ho')|(m' & rs' & Es & Hu)]; rewrite Es; simpl.
  - destruct (IH (Z.shiftr v 1) m' n' (o + length l1)%nat ps qs l2)
      as [(m2 & n2 & Ef & Hu2 & Hl2 & Ho2)|(m2 & rs2 & Ef & Hu2)]; try done.
    + by eapply enc_interval.
    + by eapply upto_room.
    + left. exists m2, n2. rewrite length_app, Nat.add_assoc. split; [done|].
      split; [eapply upto_trans; [|done..]; lia|]. split; [|done].
      apply holds_app. split; [|done]. by eapply upto_holds.
    + right. exists m2, rs2. split; [done|]. eapply upto_trans; [|done..]. lia.
  - right. by exists m', rs'.
Qed.

Lemma out_byte_ok v m n o p q l p1 q1 :
  Forall (fun b => 0 <= b <= D) bs -> interval p q -> enc D (syms D bs v) p q = (l, (p1, q1)) ->
  room m -> Z.of_nat o <= 8 * Z.of_nat d - 32 ->
  exists m', upto o m m' /\
    ((exists n', out_byte m (state p q n o) v = Ret (0, m', state p1 q1 n' (o + length l)) /\
        holds (mem_code m' base) o l /\ Z.of_nat (o + length l) <= 8 * Z.of_nat d - 32) \/
     out_byte m (state p q n o) v = Ret (- ENOSPC, m', state p q n o)).
Proof using Hd Hd32 HD.
  intros Hbs Hi E Hm Ho. unfold out_byte. change (bits (state p q n o)) with bs.
  destruct (out_byte_loop_ok bs v m n o p q l p1 q1 Hbs Hi E Hm Ho)
    as [(m' & n' & Es & Hu & Hl & Ho')|(m' & rs' & Es & Hu)]; rewrite Es; exists m'; split; try done.
  - left. by exists n'.
  - by right.
Qed.

Lemma rubin_compress_loop_ok data s fuel i m n o p q :
  Forall (fun b => 0 <= b <= D) bs -> (s <= length data)%nat -> (i <= s)%nat -> (s - i < fuel)%nat ->
  interval p q -> room m -> Z.of_nat o <= 8 * Z.of_nat d - 32 ->
  exists e m' n' l p1 q1, (i <= e <= s)%nat /\
    rubin_compress_loop fuel data m (state p q n o) (Z.of_nat s) (Z.of_nat i) =
      Ret (m', state p1 q1 n' (o + length l), Z.of_nat e) /\
    enc D (data_syms D bs (take (e - i) (drop i data))) p q = (l, (p1, q1)) /\
    upto o m m' /\ holds (mem_code m' base) o l /\ Z.of_nat (o + length l) <= 8 * Z.of_nat d - 32.
Proof using Hd Hd32 HD.
  intros Hbs Hs. revert i m n o p q. induction fuel as [|fuel IH]; intros i m n o p q Hi Hf Hpq Hm Ho; [lia|].
  cbn [rubin_compress_loop].
  assert (Hstop : forall m', upto o m m' -> exists e m2 n' l p1 q1, (i <= e <= s)%nat /\
    Ret (m', state p q n o, Z.of_nat i) = Ret (m2, state p1 q1 n' (o + length l), Z.of_nat e) /\
    enc D (data_syms D bs (take (e - i) (drop i data))) p q = (l, (p1, q1)) /\
    upto o m m2 /\ holds (mem_code m2 base) o l /\ Z.of_nat (o + length l) <= 8 * Z.of_nat d - 32).
  { intros m' Hu. exists i, m', n, [], p, q. rewrite Nat.sub_diag, Nat.add_0_r.
    split; [lia|]. do 2 (split; [done|]). split; [done|]. by split; [apply holds_nil|]. }
  case_bool; [|by apply Hstop, upto_refl].
  rewrite Nat2Z.id. destruct (lookup_lt_is_Some_2 data i ltac:(lia)) as [v Hv].
  rewrite (load_Some _ _ _ Hv). destruct (enc D (syms D bs v) p q) as [l1 [pe qe]] eqn:E1.
  destruct (out_byte_ok v m n o p q l1 pe qe Hbs Hpq E1 Hm Ho) as (m1 & Hu1 & [(n1 & Es & Hl1 & Ho1)|Es]);
    rewrite Es; simpl; [|by apply Hstop].
  rewrite Z.add_1_r, <-Nat2Z.inj_succ.
  destruct (IH (S i) m1 n1 (o + length l1)%nat pe qe) as (e & m2 & n2 & l2 & p2 & q2 & He & Er & E2 & Hu2 & Hl2 & Ho2);
    [lia|lia|by eapply enc_interval|by eapply upto_room|done|].
  exists e, m2, n2, (l1 ++ l2), p2, q2. rewrite length_app, Nat.add_assoc.
  split; [lia|split; [done|]]. split; [|split; [eapply upto_trans; [|done..]; lia|split; [|done]]].
  - replace (e - i)%nat with (S (e - S i)) by lia. rewrite (drop_S data v i Hv).
    unfold data_syms in *. cbn [take map concat]. by eapply enc_app.
  - apply holds_app. split; [|done]. by eapply upto_holds.
Qed.

Lemma end_rubin_loop_ok k m n o p q :
  0 <= q < 2 ^ 16 -> room m -> Z.of_nat (o + k) <= 8 * Z.of_nat d ->
  exists m' rs', end_rubin_loop k m (state p q n o) = Ret (m', rs') /\ pp rs' = buffer (o + k) /\
    upto o m m' /\ holds (mem_code m' base) o (flush k q).
Proof using Hd Hd32.
  revert m o q. induction k as [|k IH]; intros m o q Hq Hm Ho; cbn [end_rubin_loop flush state].
  { do 2 eexists. split; [done|]. rewrite Nat.add_0_r.
    split; [done|split; [by apply upto_refl|apply holds_nil]]. }
  rewrite Z.land_comm, rubin_upper, rubin_lower by done.
  destruct (pushbit_ok m o (2 ^ 15 <=? q) true Hm ltac:(lia)) as (m1 & Ep & Hu1 & Hc).
  rewrite Ep. pose proof (Z.mod_pos_bound q (2 ^ 15) ltac:(lia)).
  destruct (IH m1 (S o) (2 * (q mod 2 ^ 15)) ltac:(lia)) as (m2 & rs2 & E & Hpp & Hu2 & Hl2);
    [by eapply upto_room|lia|].
  exists m2, rs2. rewrite Nat.add_succ_r. split; [done|split; [done|]].
  split; [eapply upto_trans; [|done..]; lia|]. apply holds_cons. split; [|done].
  destruct Hu2 as (_ & _ & C2 & _). rewrite C2 by lia. done.
Qed.

(** [rubin_do_compress] writes the code of the bytes it read. *)
Lemma rubin_do_compress_ok data s m :
  Forall (fun b => 0 <= b <= D) bs -> (s <= length data)%nat -> room m ->
  exists m', upto 0 m m' /\
    (rubin_do_compress D bs data m base (Z.of_nat s) (Z.of_nat d) =
       Ret (-1, m', Z.of_nat s, Z.of_nat d) \/
     exists e k l p1 q1, (e <= s)%nat /\ (k < e)%nat /\ (k <= d)%nat /\
       rubin_do_compress D bs data m base (Z.of_nat s) (Z.of_nat d) =
         Ret (0, m', Z.of_nat e, Z.of_nat k) /\
       enc D (data_syms D bs (take e data)) (2 ^ 16) 0 = (l, (p1, q1)) /\
       holds (mem_code m' base) 0 (l ++ flush 16 q1) /\ (length l + 16 <= 8 * k)%nat).
Proof using Hd Hd32 HD.
  intros Hbs Hs Hm. unfold rubin_do_compress.
  rewrite (u32_small (_ * 8)), (Z.mul_comm _ 8) by lia.
  destruct (rubin_compress_loop_ok data s (S (length data)) 0 m 0 0 (2 ^ 16) 0)
    as (e & m1 & n1 & l & p1 & q1 & He & Er & Ee & Hu1 & Hl1 & Ho1);
    [done..|lia|lia|unfold interval; lia|done|lia|].
  change (init_rubin _ _ _) with (state (2 ^ 16) 0 0 0). change (Z.of_nat 0) with 0 in Er.
  rewrite Er. rewrite Nat.sub_0_r, drop_0 in Ee. rewrite !Nat.add_0_l in *.
  destruct (enc_interval _ _ (2 ^ 16) 0 _ _ _ ltac:(unfold interval; lia) Ee) as (Hp1 & Hq1 & Hpq1).
  destruct (end_rubin_loop_ok 16 m1 n1 (length l) p1 q1) as (m2 & rs2 & Ef & Hpp & Hu2 & Hl2);
    [lia|by eapply upto_room|lia|].
  unfold end_rubin. change RUBIN_REG_SIZE with 16%nat. rewrite Ef. case_bool; [lia|].
  exists m2. split; [eapply upto_trans; [|done..]; lia|].
  unfold pushedbits. rewrite Hpp. cbn [ofs buffer]. rewrite s32_small by lia.
  rewrite Z.quot_div_nonneg by lia.
  assert (E8 : (Z.of_nat (length l + 16) + 7) / 8 = Z.of_nat ((length l + 16 + 7) / 8)).
  { by rewrite Nat2Z.inj_div, (Nat2Z.inj_add _ 7). }
  rewrite E8. pose proof (Nat.div_mod_eq (length l + 16 + 7) 8). pose proof (mod8 (length l + 16 + 7)).
  case_bool; [by left|right].
  exists e, ((length l + 16 + 7) / 8)%nat, l, p1, q1. split_and!; [lia|lia|lia|done|done| |lia].
  apply holds_app. split; [|done]. by eapply upto_holds.
Qed.
End Push.

(** ** Pulling *)

Lemma shiftr_bit c k : 0 <= k -> Z.land (Z.shiftr c k) 1 = b2z (Z.testbit c k).
Proof.
  intros Hk. change 1 with (Z.ones 1). rewrite Z.land_ones by lia.
  rewrite (Z.testbit_odd c k), Zmod_odd. by destruct (Z.odd _).
Qed.

(** A byte from its bits, as [in_byte] collects them. *)
Fixpoint gather (n : nat) (i v result : Z) : Z :=
  match n with
  | O => result
  | S n => gather n (i + 1) (Z.shiftr v 1) (Z.lor result (Z.shiftl (b2z (Z.testbit v 0)) i))
  end.

Lemma gather_byte v : is_byte v -> gather 8 0 v 0 = v.
Proof.
  intros Hv. unfold word in Hv.
  assert (H : forallb (fun v => gather 8 0 v 0 =? v) (seqZ 0 256) = true) by by vm_compute.
  rewrite forallb_forall in H. apply Z.eqb_eq, H. apply list_elem_of_In, elem_of_seqZ. lia.
Qed.

Section Pull.
Context (m : mem) (base k : nat) (L R D : Z) (bs : list Z).
Hypothesis Hm : (base + k <= length m)%nat.
Hypothesis Hk : 8 * Z.of_nat k < 2 ^ 31.
Hypothesis HD : 0 < D <= 2 ^ 11.

Definition source (o : nat) : pushpull := Pushpull base L (Z.of_nat o) R.

Lemma pullbit_ok o : (o < 8 * k)%nat -> pullbit m (source o) = Ret (b2z (mem_code m base o), source (S o)).
Proof using Hm Hk.
  intros Ho. unfold pullbit, source. rewrite ofs_byte, ofs_bit.
  pose proof (div8_lt o k Ho). pose proof (mod8 o).
  destruct (lookup_lt_is_Some_2 m (base + o / 8)%nat ltac:(lia)) as [c Hc].
  rewrite (load_Some _ _ _ Hc), shiftr_bit, u32_small by lia.
  unfold mem_code. rewrite nth_lookup, Hc. cbn [default from_option].
  by rewrite Nat2Z.inj_succ, <-Z.add_1_r.
Qed.

Lemma init_decode_loop_ok n o :
  (o + n <= 16)%nat -> (16 <= 8 * k)%nat ->
  init_decode_loop n m (win (mem_code m base) 0 o) (source o) =
    Ret (win (mem_code m base) 0 (o + n), source (o + n)).
Proof using Hm Hk.
  revert o. induction n as [|n IH]; intros o Ho Hk16; cbn [init_decode_loop].
  { by rewrite Nat.add_0_r. }
  rewrite pullbit_ok by lia.
  replace (u32 _) with (win (mem_code m base) 0 (S o)); cycle 1.
  { pose proof (win_range (mem_code m base) 0 (S o)) as Hr.
    assert (2 ^ Z.of_nat (S o) <= 2 ^ 16) by (apply Z.pow_le_mono_r; lia).
    cbn [win] in Hr |- *. rewrite Nat.add_0_l in *. rewrite u32_small by lia. lia. }
  rewrite IH by lia. by rewrite Nat.add_succ_r.
Qed.

Lemma do_decode_count_ok fuel n p q l p1 q1 :
  interval p q -> settled p q = true -> 2 ^ 16 < p * 2 ^ Z.of_nat fuel ->
  norm fuel p q = (l, (p1, q1)) -> do_decode_count fuel n p q = Ret ((n + length l)%nat, p1, q1).
Proof.
  revert n p q l. induction fuel as [|fuel IH]; intros n p q l Hi Hs Hf E.
  { destruct Hi. change (2 ^ Z.of_nat 0) with 1 in Hf. lia. }
  cbn [norm] in E. rewrite Hs in E. destruct (norm fuel _ _) as [l' [? ?]] eqn:En. simplify_eq.
  destruct (settled_bit p q Hi Hs) as [Hi' _]. pose proof Hi as (Hp & Hq & Hpq).
  cbn [do_decode_count length]. rewrite rubin_double, rubin_lower, rubin_full_settled by (lia || done).
  rewrite Nat2Z.inj_succ, Z.pow_succ_r in Hf by lia.
  destruct (settled (2 * p) (2 * (q mod 2 ^ 15))) eqn:Es.
  - rewrite (IH _ _ _ l') by (try done; lia). by rewrite Nat.add_succ_r.
  - destruct fuel as [|fuel]; cbn [norm] in En; [|rewrite Es in En];
      simplify_eq; simpl; by rewrite Nat.add_1_r.
Qed.

Lemma do_decode_pull_ok n o :
  (o + n + 16 <= 8 * k)%nat ->
  do_decode_pull n m (win (mem_code m base) o 16) (source (o + 16)) =
    Ret (win (mem_code m base) (o + n) 16, source (o + n + 16)).
Proof using Hm Hk.
  revert o. induction n as [|n IH]; intros o Ho; cbn [do_decode_pull].
  { by rewrite Nat.add_0_r. }
  rewrite pullbit_ok by lia. rewrite rubin_lower by apply win16_range.
  destruct (win16_next (mem_code m base) o) as [E _].
  rewrite <-E, u32_small by (pose proof (win16_range (mem_code m base) (S o)); lia).
  change (S (o + 16)) with (S o + 16)%nat. rewrite IH by lia. by rewrite (Nat.add_succ_r o n).
Qed.

(** The decoder's state when the coder's is the interval [p, q] at bit [o]. *)
Definition dstate (p q n : Z) (o : nat) : rubin_state :=
  Rubin p q (win (mem_code m base) o 16) n (source (o + 16)) D bs.

Lemma decode_ok A p q n o s l p1 q1 :
  interval p q -> 0 <= A <= D -> enc D [(A, s)] p q = (l, (p1, q1)) ->
  (o + length l + 16 <= 8 * k)%nat ->
  q1 <= win (mem_code m base) (o + length l) 16 < q1 + p1 ->
  exists n', decode m (dstate p q n o) A (D - A) = Ret (s, dstate p1 q1 n' (o + length l)).
Proof using Hm Hk HD.
  intros Hi HA E Ho Hw. cbn [enc] in E. destruct (norm rounds p q) as [l1 [pn qn]] eqn:En.
  destruct (narrow D A pn qn s) as [ps qs] eqn:Ew. rewrite app_nil_r in E. simplify_eq.
  destruct (norm_rounds _ _ _ _ _ Hi En) as (Hin & _ & Hp2). pose proof Hin as (_ & Hqn & Hpq).
  destruct (narrow_interval _ _ _ _ _ _ _ Hin Hp2 Ew) as (_ & _ & _ & Hsym).
  assert (Hnorm : exists n', (if rubin_full p q then __do_decode m (dstate p q n o) p q
    else Ret (dstate p q n o)) = Ret (dstate pn qn n' (o + length l))).
  { rewrite rubin_full_settled by done. destruct (settled p q) eqn:Es; cycle 1.
    - unfold rounds in En. cbn [norm] in En. rewrite Es in En. simplify_eq.
      exists n. by rewrite Nat.add_0_r.
    - unfold __do_decode, dstate at 1. change (S RUBIN_REG_SIZE) with rounds.
      rewrite (do_decode_count_ok rounds 0 p q l pn qn) by
        (try done; destruct Hi; change (2 ^ Z.of_nat rounds) with (2 ^ 17); lia).
      rewrite Nat.add_0_l, do_decode_pull_ok by lia. by eexists. }
  destruct Hnorm as [n' Hnorm]. exists n'. unfold decode.
  change (rs_p (dstate p q n o)) with p. change (rs_q (dstate p q n o)) with q. rewrite Hnorm.
  unfold dstate at 1. rewrite (rubin_i0_divide D) by nia.
  pose proof (divide_range D A pn Hp2) as Hdv.
  rewrite u32_s32_small, (Hsym _ Hw) by lia. unfold narrow in Ew.
  destruct s; simplify_eq; unfold dstate.
  - by rewrite u32_s32_small, u32_small by lia.
  - by rewrite u32_small by lia.
Qed.

Lemma in_byte_loop_ok js v i p q n o l p1 q1 result :
  Forall (fun b => 0 <= b <= D) js -> interval p q -> enc D (syms D js v) p q = (l, (p1, q1)) ->
  holds (mem_code m base) o l -> (o + length l + 16 <= 8 * k)%nat ->
  q1 <= win (mem_code m base) (o + length l) 16 < q1 + p1 ->
  exists n', in_byte_loop js i m (dstate p q n o) D result =
    Ret (gather (length js) i v result, dstate p1 q1 n' (o + length l)).
Proof using Hm Hk HD.
  revert v i p q n o l result. induction js as [|b js IH]; intros v i p q n o l result Hjs Hi E Hl Ho Hw.
  { cbn [syms enc] in E. simplify_eq. exists n. by rewrite Nat.add_0_r. }
  apply Forall_cons in Hjs as [Hb Hjs]. cbn [syms] in E.
  destruct (enc D [(D - b, Z.testbit v 0)] p q) as [l1 [ps qs]] eqn:E1.
  destruct (enc D (syms D js (Z.shiftr v 1)) ps qs) as [l2 [pe qe]] eqn:E2.
  change (_ :: syms D js _) with ([(D - b, Z.testbit v 0)] ++ syms D js (Z.shiftr v 1)) in E.
  rewrite (enc_app _ _ _ _ _ _ _ _ _ _ E1 E2) in E. simplify_eq.
  apply holds_app in Hl as [Hl1 Hl2]. rewrite length_app, Nat.add_assoc in *.
  pose proof (enc_interval _ _ _ _ _ _ _ Hi E1) as His.
  pose proof (enc_window _ _ _ _ _ _ _ _ _ His E2 Hl2 Hw) as Hw1.
  destruct (decode_ok (D - b) p q n o _ l1 ps qs Hi ltac:(lia) E1 ltac:(lia) Hw1) as [n1 E1'].
  replace (D - (D - b)) with b in E1' by lia. cbn [in_byte_loop length gather]. rewrite E1'.
  destruct (IH (Z.shiftr v 1) (i + 1) ps qs n1 (o + length l1)%nat l2
    (Z.lor result (Z.shiftl (b2z (Z.testbit v 0)) i)) Hjs His E2 Hl2 Ho Hw) as [n2 E2'].
  exists n2. exact E2'.
Qed.

Lemma rubin_decompress_loop_ok data e fuel i p q n o l p1 q1 page :
  Forall (fun b => 0 <= b <= D) bs -> length bs = 8%nat -> Forall is_byte data ->
  (e <= length data)%nat -> (e <= length page)%nat -> (i <= e)%nat -> (e - i < fuel)%nat ->
  interval p q -> enc D (data_syms D bs (take (e - i) (drop i data))) p q = (l, (p1, q1)) ->
  holds (mem_code m base) o l -> (o + length l + 16 <= 8 * k)%nat ->
  q1 <= win (mem_code m base) (o + length l) 16 < q1 + p1 ->
  rubin_decompress_loop fuel m (fill data i page) (dstate p q n o) (Z.of_nat e) (Z.of_nat i) =
    Ret (fill data e page).
Proof using Hm Hk HD.
  intros Hbs H8 Hdata He Hpage. revert i p q n o l.
  induction fuel as [|fuel IH]; intros i p q n o l Hi Hf Hpq E Hl Ho Hw; [lia|].
  cbn [rubin_decompress_loop]. case_bool; [|by replace i with e by lia].
  destruct (lookup_lt_is_Some_2 data i ltac:(lia)) as [v Hv].
  replace (e - i)%nat with (S (e - S i)) in E by lia. rewrite (drop_S data v i Hv) in E.
  unfold data_syms in E. cbn [take map concat] in E.
  destruct (enc D (syms D bs v) p q) as [l1 [ps qs]] eqn:E1.
  destruct (enc D (concat (map (syms D bs) (take (e - S i) (drop (S i) data)))) ps qs)
    as [l2 [pe qe]] eqn:E2.
  rewrite (enc_app _ _ _ _ _ _ _ _ _ _ E1 E2) in E. simplify_eq.
  apply holds_app in Hl as [Hl1 Hl2]. rewrite length_app, Nat.add_assoc in *.
  pose proof (enc_interval _ _ _ _ _ _ _ Hpq E1) as His.
  pose proof (enc_window _ _ _ _ _ _ _ _ _ His E2 Hl2 Hw) as Hw1.
  destruct (in_byte_loop_ok bs v 0 p q n o l1 ps qs 0 Hbs Hpq E1 Hl1 ltac:(lia) Hw1) as [n1 E1'].
  unfold in_byte. change (bits (dstate p q n o)) with bs. change (bit_divider (dstate p q n o)) with D.
  pose proof (Forall_lookup_word _ _ _ _ Hdata Hv) as Hvb.
  rewrite E1', H8, gather_byte by done. rewrite Nat2Z.id. unfold u8. rewrite wrap_small by done.
  rewrite store_lt by (rewrite length_filled; lia). rewrite fill_next by (done || lia).
  rewrite Z.add_1_r, <-Nat2Z.inj_succ. eapply IH; [lia|lia|done..|lia|done].
Qed.

(** The code of [take e data], followed by the last [q], decodes to it. *)
Lemma rubin_do_decompress_ok data e page l p1 q1 :
  Forall (fun b => 0 <= b <= D) bs -> length bs = 8%nat -> Forall is_byte data ->
  (e <= length data)%nat -> (e <= length page)%nat -> R = 0 ->
  enc D (data_syms D bs (take e data)) (2 ^ 16) 0 = (l, (p1, q1)) ->
  holds (mem_code m base) 0 (l ++ flush 16 q1) -> (length l + 16 <= 8 * k)%nat ->
  rubin_do_decompress D bs m base page L (Z.of_nat e) = Ret (fill data e page).
Proof using Hm Hk HD.
  intros Hbs H8 Hdata He Hpage HR E Hl Hlen.
  assert (Hi0 : interval (2 ^ 16) 0) by (unfold interval; lia).
  destruct (enc_interval _ _ _ _ _ _ _ Hi0 E) as (Hp1 & Hq1 & Hpq1).
  apply holds_app in Hl as [Hl Hfl]. rewrite Nat.add_0_l in Hfl.
  pose proof (flush_window16 _ _ q1 ltac:(lia) Hfl) as Hw.
  unfold rubin_do_decompress, init_decode. change (init_rubin _ _ _) with
    (Rubin (2 ^ 16) 0 0 0 (init_pushpull base L 0 0) D bs). cbn iota.
  replace (init_pushpull base L 0 0) with (source 0) by (unfold source; by rewrite HR).
  pose proof (init_decode_loop_ok 16 0 ltac:(lia) ltac:(lia)) as Ei. change (win _ 0 0) with 0 in Ei.
  change RUBIN_REG_SIZE with 16%nat. rewrite Ei.
  eapply (rubin_decompress_loop_ok data e _ 0 (2 ^ 16) 0 _ 0 l p1 q1 page);
    rewrite ?Nat.sub_0_r, ?drop_0, ?Nat.add_0_l; try done; lia.
Qed.
End Pull.

(** ** The probabilities *)

Lemma dynrubin_histo_ok data n i histo :
  Forall is_byte data -> (i + n <= length data)%nat -> length histo = 256%nat ->
  Forall is_byte histo ->
  exists histo', dynrubin_histo n i data histo = Ret histo' /\ Forall is_byte histo'.
Proof.
  intros Hd. revert i histo. induction n as [|n IH]; intros i histo Hi Hl Hb; cbn [dynrubin_histo].
  { by eexists. }
  destruct (lookup_lt_is_Some_2 data i ltac:(lia)) as [v Hv].
  pose proof (Forall_lookup_word _ _ _ _ Hd Hv) as Hvb. unfold word in Hvb.
  assert (Hlt : (Z.to_nat v < length histo)%nat) by (rewrite Hl; lia).
  destruct (lookup_lt_is_Some_2 histo _ Hlt) as [h Hh].
  rewrite (load_Some _ _ _ Hv), (load_Some _ _ _ Hh), store_lt by done.
  apply IH; [lia|by rewrite length_insert|]. apply Forall_insert; [done|by apply wrap_word].
Qed.

Lemma dynrubin_tally_ok histo :
  Forall is_byte histo ->
  length (dynrubin_tally histo) = 8%nat /\ Forall (fun b => 0 <= b <= 255 * 256) (dynrubin_tally histo).
Proof.
  intros Hh. unfold dynrubin_tally.
  assert (H : forall is0 c bits, length bits = 8%nat -> Forall (fun b => 0 <= b <= c) bits ->
    let r := fold_left (fun bits i => imap (fun k b =>
      if Z.land i (Z.shiftl 1 (Z.of_nat k)) =? 0 then b else b + nth (Z.to_nat i) histo 0) bits) is0 bits in
    length r = 8%nat /\ Forall (fun b => 0 <= b <= c + 255 * Z.of_nat (length is0)) r).
  { induction is0 as [|i is0 IH]; intros c bits Hl Hb; simpl.
    - split; [done|]. eapply Forall_impl; [done|]. simpl. lia.
    - destruct (IH (c + 255) (imap (fun k b => if Z.land i (Z.shiftl 1 (Z.of_nat k)) =? 0 then b
        else b + nth (Z.to_nat i) histo 0) bits)) as [H1 H2]; [by rewrite length_imap| |].
      + apply Forall_lookup. intros k b Hk. rewrite list_lookup_imap in Hk.
        destruct (bits !! k) as [b0|] eqn:E; simplify_eq/=.
        pose proof (Forall_lookup_1 _ _ _ _ Hb E) as Hb0. simpl in Hb0.
        assert (0 <= nth (Z.to_nat i) histo 0 < 2 ^ 8).
        { rewrite nth_lookup. destruct (histo !! Z.to_nat i) eqn:En; simpl; [|lia].
          by apply (Forall_lookup_word 8 _ _ _ Hh En). }
        case_bool; lia.
      + split; [done|]. eapply Forall_impl; [done|]. intros x Hx. cbn beta in Hx |- *. lia. }
  destruct (H (seqZ 0 256) 0 (replicate 8 0)) as [H1 H2]; [done|by apply Forall_replicate|].
  split; [done|]. eapply Forall_impl; [done|]. intros x Hx. cbn beta in Hx |- *.
  change (Z.of_nat (length (seqZ 0 256))) with 256 in Hx. lia.
Qed.

Lemma dynrubin_scale_ok s b :
  0 < s < 2 ^ 31 -> 0 <= b <= 255 * 256 -> exists c, dynrubin_scale s b = Ret c /\ 1 <= c <= 255.
Proof.
  intros Hs Hb. unfold dynrubin_scale. case_bool; [lia|]. eexists. split; [done|].
  rewrite u32_small by lia. pose proof (Z.div_pos (b * 256) s ltac:(lia) ltac:(lia)).
  pose proof (Z.div_le_upper_bound (b * 256) s (b * 256) ltac:(lia) ltac:(nia)).
  rewrite s32_small by lia. repeat case_bool; lia.
Qed.

Lemma dynrubin_table_ok s tally i out :
  0 < s < 2 ^ 31 -> Forall (fun b => 0 <= b <= 255 * 256) tally -> (i + length tally <= length out)%nat ->
  exists bits, dynrubin_table tally i s out = Ret (bits, list_inserts i bits out) /\
    length bits = length tally /\ Forall (fun b => 1 <= b <= 255) bits.
Proof.
  intros Hs. revert i out. induction tally as [|b tally IH]; intros i out Ht Hi; cbn [dynrubin_table].
  { by exists []. }
  apply Forall_cons in Ht as [Hb Ht]. destruct (dynrubin_scale_ok s b Hs Hb) as (c & Ec & Hc).
  simpl in Hi. rewrite Ec, store_lt by lia. unfold u8. rewrite wrap_small by (unfold word; lia).
  destruct (IH (S i) (<[i := c]> out) Ht) as (bits & E & Hl & Hf); [rewrite length_insert; lia|].
  rewrite E, inserts_cons. exists (c :: bits). simpl. rewrite Hl. split; [done|split; [done|by constructor]].
Qed.

Lemma load_bits_ok bits c m :
  (forall j, (j < length bits)%nat -> m !! (c + j)%nat = bits !! j) ->
  load_bits (length bits) c m = Ret bits.
Proof.
  revert c. induction bits as [|b bits IH]; intros c H; cbn [load_bits length]; [done|].
  pose proof (H 0%nat ltac:(simpl; lia)) as H0. rewrite Nat.add_0_r in H0.
  rewrite (load_Some _ _ _ H0), IH; [done|]. intros j Hj.
  rewrite Nat.add_succ_comm. apply (H (S j)). simpl. lia.
Qed.

(** ** The compressor *)

(** What the decoders need to know of a compressed block: the table, and
    the code of the first [e] bytes of [data] in [k] bytes. *)
Definition dynrubin_block (block data : mem) (e k : nat) : Prop :=
  exists bits l p1 q1, length bits = 8%nat /\ Forall (fun b => 1 <= b <= 255) bits /\
    (8 + k <= length block)%nat /\ 8 * Z.of_nat k < 2 ^ 31 /\
    (forall j, (j < 8)%nat -> block !! j = bits !! j) /\
    enc 256 (data_syms 256 bits (take e data)) (2 ^ 16) 0 = (l, (p1, q1)) /\
    holds (mem_code block 8) 0 (l ++ flush 16 q1) /\ (length l + 16 <= 8 * k)%nat.

(** More bytes after it do not matter. *)
Lemma dynrubin_block_take m data e k post :
  dynrubin_block m data e k -> dynrubin_block (take (8 + k) m ++ post) data e k.
Proof.
  intros (bits & l & p1 & q1 & H8 & Hbits & Hlen & Hk & Htab & E & Hl & Hll).
  assert (Hlook : forall a, (a < 8 + k)%nat -> (take (8 + k) m ++ post) !! a = m !! a).
  { intros a Ha. rewrite lookup_app_l by (rewrite length_take; lia). by rewrite lookup_take_lt. }
  exists bits, l, p1, q1. split_and!; [done|done| |done| |done| |done].
  - rewrite length_app, length_take. lia.
  - intros j Hj. rewrite Hlook by lia. by apply Htab.
  - intros i b Hi. pose proof (lookup_lt_Some _ _ _ Hi) as Hil.
    rewrite length_app, length_flush in Hil. rewrite <-(Hl i b Hi). unfold mem_code.
    pose proof (div8_lt (0 + i) k ltac:(lia)). by rewrite !nth_lookup, Hlook by lia.
Qed.

Lemma dynrubin_compress_ok data out s d :
  Forall is_byte data -> Forall is_byte out -> (0 < s <= length data)%nat -> Z.of_nat s < 2 ^ 31 ->
  (d <= length out)%nat -> 8 * Z.of_nat d < 2 ^ 31 ->
  exists out', wrote d out out' /\
    (jffs2_dynrubin_compress data out (Z.of_nat s) (Z.of_nat d) =
       Ret (-1, out', Z.of_nat s, Z.of_nat d) \/
     exists e k, (e <= s)%nat /\ (8 + k < e)%nat /\ (8 + k <= d)%nat /\
       jffs2_dynrubin_compress data out (Z.of_nat s) (Z.of_nat d) =
         Ret (0, out', Z.of_nat e, Z.of_nat (8 + k)) /\
       dynrubin_block out' data e k).
Proof.
  intros Hdata Hout Hs Hs31 Hd Hd31. unfold jffs2_dynrubin_compress.
  destruct (Z.leb_spec (Z.of_nat d) 12) as [Hsmall|Hbig].
  { exists out. split; [done|by left]. }
  rewrite Nat2Z.id, u32_small by lia.
  destruct (dynrubin_histo_ok data s 0 (replicate 256 0)) as (histo & Eh & Hh);
    [done|lia|done|by apply Forall_replicate|]. rewrite Eh.
  destruct (dynrubin_tally_ok histo Hh) as [Ht8 Ht].
  destruct (dynrubin_table_ok (Z.of_nat s) _ 0 out ltac:(lia) Ht ltac:(lia)) as (bits & Et & Hl8 & Hb).
  rewrite Et. rewrite Ht8 in Hl8. set (out1 := list_inserts 0 bits out).
  assert (Hl1 : length out1 = length out) by apply length_inserts.
  assert (Hb1 : Forall is_byte out1).
  { apply Forall_lookup. intros j x. unfold out1. rewrite lookup_inserts_dec. case_decide; intros Hx.
    - pose proof (Forall_lookup_1 _ _ _ _ Hb Hx) as Hxr. simpl in Hxr. unfold word. lia.
    - exact (Forall_lookup_word 8 _ _ _ Hout Hx). }
  assert (Hbits : Forall (fun b => 0 <= b <= 256) bits) by (eapply Forall_impl; [done|simpl; lia]).
  replace (Z.of_nat d - 8) with (Z.of_nat (d - 8)) by lia.
  destruct (rubin_do_compress_ok 8 (d - 8) 256 bits ltac:(lia) ltac:(lia) ltac:(lia) data s out1)
    as (m' & (Hlm & Hbm & _ & Hfr) & Hr); [done|lia|split; [lia|done]|].
  exists m'. split.
  { split; [lia|split; [done|]]. apply list_eq. intros j. rewrite !lookup_drop, Hfr by lia.
    unfold out1. rewrite lookup_inserts_dec, decide_False; [done|]. lia. }
  destruct Hr as [Er|(e & k & l & p1 & q1 & He & Hk & Hkd & Er & Ee & Hl & Hll)]; rewrite Er; simpl negb;
    cbn iota; [by left|]. rewrite u32_small by lia. case_bool; [by left|right].
  exists e, k. split_and!; [done|lia|lia|do 2 f_equal; lia|].
  exists bits, l, p1, q1. split_and!; try done; [lia|lia|].
  intros j Hj. rewrite Hfr by lia. unfold out1. rewrite lookup_inserts_dec, decide_True by lia.
  f_equal. lia.
Qed.

Lemma dynrubin_decompress_ok block data e k page srclen :
  dynrubin_block block data e k -> Forall is_byte data -> (e <= length data)%nat ->
  (e <= length page)%nat ->
  jffs2_dynrubin_decompress block page srclen (Z.of_nat e) = Ret (0, fill data e page).
Proof.
  intros (bits & l & p1 & q1 & H8 & Hbits & Hlen & Hk & Htab & E & Hl & Hll) Hdata He Hpage.
  unfold jffs2_dynrubin_decompress. rewrite <-H8 at 1. rewrite (load_bits_ok bits) by (by rewrite H8).
  rewrite (rubin_do_decompress_ok block 8 k (u32 (srclen - 8)) 0 256 bits Hlen Hk ltac:(lia)
    data e page l p1 q1); try done.
  eapply Forall_impl; [done|]. simpl. lia.
Qed.

#[export] Instance dynrubin_codec : Codec jffs2_dynrubin_compress jffs2_dynrubin_decompress.
Proof.
  intros data out s d (Hdata & Hout & Hs & Hpage & Hd2 & Hds & Hd). unfold PAGE_CACHE_SIZE in Hpage.
  destruct (dynrubin_compress_ok data out s d) as (out' & Hw & [E|(e & k & He & Hk & Hkd & E & Hblk)]);
    [done|done|lia|lia|done|lia| |]; exists out'; (split; [done|]).
  - left. exists (-1). done.
  - right. exists e, (8 + k)%nat. split_and!; [done|lia|done|done|done|].
    intros post page _ Hp. apply (dynrubin_decompress_ok _ data e k); [|done|lia|done].
    by apply dynrubin_block_take.
Qed.
