(* ===== verification/RubinBoot.v ===== *)
(** * U-Boot's decompressor for the Rubin code

    fs/jffs2/compr_rubin.c of U-Boot reads the code by 32-bit words and
    divides the interval with a shift.  It is shown to decode what the
    kernel's compressor writes; it needs four readable bytes after the block,
    since it loads the next word before it knows that there is one.  Loads
    are taken to work at any address. *)

From S2P Require Import Prelude CMem Compr Rubin RubinSpec RubinMain.

(** Reading a [u32] at an address, in the byte order of the target. *)
Definition load_u32 (m : mem) (a : addr) : outcome Z :=
  let! b0 := load m a in
  let! b1 := load m (a + 1)%nat in
  let! b2 := load m (a + 2)%nat in
  let! b3 := load m (a + 3)%nat in
  Ret (b0 + 2 ^ 8 * b1 + 2 ^ 16 * b2 + 2 ^ 24 * b3).

(** The variables of [rubin_do_decompress] that the loops change. *)
Record uboot_rubin := URubin {
  u_in : addr; u_temp : Z; u_bit : Z; u_p : Z; u_q : Z; u_rec_q : Z
}.

(** The inner [while]. *)
Fixpoint uboot_shift (fuel : nat) (m : mem) (st : uboot_rubin) : outcome uboot_rubin :=
  match fuel with
  | O => Err Diverge
  | S fuel =>
      let '(URubin a temp bit p q rec_q) := st in
      if negb (Z.land q UPPER_BIT_RUBIN =? 0) || (u32 (p + q) <=? UPPER_BIT_RUBIN) then
        let q := cshl 32 (Z.land q (cnot 32 UPPER_BIT_RUBIN)) 1 in
        let p := cshl 32 p 1 in
        let rec_q := cshl 32 (Z.land rec_q (cnot 32 UPPER_BIT_RUBIN)) 1 in
        let rec_q := Z.lor rec_q (Z.land (Z.shiftr temp (Z.lxor bit 7)) 1) in
        let bit := u32 (bit + 1) in
        if 31 <? bit then
          let a := (a + 4)%nat in
          let! temp := load_u32 m a in
          uboot_shift fuel m (URubin a temp 0 p q rec_q)
        else uboot_shift fuel m (URubin a temp bit p q rec_q)
      else Ret st
  end.

(** One round of the [for], for the probability [b]: [result] too. *)
Definition uboot_decode (m : mem) (st : uboot_rubin) (b result : Z) : outcome (Z * uboot_rubin) :=
  let! st := uboot_shift (S RUBIN_REG_SIZE) m st in
  let '(URubin a temp bit p q rec_q) := st in
  let i0 := s32 (Z.shiftr (u32 (b * p)) 8) in
  let i0 := if i0 <=? 0 then 1 else i0 in
  let result := Z.shiftr result 1 in
  if rec_q <? u32 (q + i0) then Ret (result, URubin a temp bit (u32 i0) q rec_q)
  else Ret (Z.lor result 0x80, URubin a temp bit (u32 (p - i0)) (u32 (q + i0)) rec_q).

Fixpoint uboot_in_byte (js : list Z) (m : mem) (st : uboot_rubin) (result : Z) :
    outcome (Z * uboot_rubin) :=
  match js with
  | [] => Ret (result, st)
  | b :: js =>
      let! (result, st) := uboot_decode m st b result in
      uboot_in_byte js m st result
  end.

(** The outer [while], [n] being [end - curr]. *)
Fixpoint uboot_rubin_loop (n : nat) (bits : list Z) (m page_out : mem) (st : uboot_rubin)
    (curr : addr) : outcome mem :=
  match n with
  | O => Ret page_out
  | S n =>
      let! (result, st) := uboot_in_byte bits m st 0 in
      let! page_out := store page_out curr (u8 result) in
      uboot_rubin_loop n bits m page_out st (S curr)
  end.

Definition uboot_rubin_do_decompress (bits : list Z) (m : mem) (a : addr) (page_out : mem)
    (destlen : Z) : outcome mem :=
  let! temp := load_u32 m a in
  let! b0 := load m a in
  let! b1 := load m (a + 1)%nat in
  uboot_rubin_loop (Z.to_nat destlen) bits m page_out
    (URubin a temp 16 (2 * UPPER_BIT_RUBIN) 0 (Z.lor (Z.shiftl b0 8) b1)) 0.

(** [bits[c] = (256 - data_in[c])]. *)
Definition dynrubin_decompress (data_in cpage_out : mem) (sourcelen dstlen : Z) : outcome mem :=
  let! bits := load_bits 8 0 data_in in
  uboot_rubin_do_decompress (map (fun b => u8 (256 - b)) bits) data_in 8 cpage_out dstlen.

(** ** Words *)

Definition word_at (m : mem) (a : addr) : Z :=
  nth a m 0 + 2 ^ 8 * nth (a + 1) m 0 + 2 ^ 16 * nth (a + 2) m 0 + 2 ^ 24 * nth (a + 3) m 0.

Lemma load_nth m a : (a < length m)%nat -> load m a = Ret (nth a m 0).
Proof.
  intros Ha. destruct (lookup_lt_is_Some_2 m a Ha) as [c Hc].
  by rewrite (load_Some _ _ _ Hc), nth_lookup, Hc.
Qed.

Lemma load_u32_ok m a : (a + 4 <= length m)%nat -> load_u32 m a = Ret (word_at m a).
Proof. intros Ha. unfold load_u32. by rewrite !load_nth by lia. Qed.

Lemma nth_byte m a : Forall is_byte m -> is_byte (nth a m 0).
Proof.
  intros Hm. rewrite nth_lookup. destruct (m !! a) eqn:E; simpl; [|unfold word; lia].
  exact (Forall_lookup_word 8 _ _ _ Hm E).
Qed.

Lemma word_at_testbit m a j i :
  Forall is_byte m -> (j < 4)%nat -> 0 <= i < 8 ->
  Z.testbit (word_at m a) (8 * Z.of_nat j + i) = Z.testbit (nth (a + j) m 0) i.
Proof.
  intros Hm Hj Hi. pose proof (fun a => nth_byte m a Hm) as Hb.
  replace (word_at m a) with
    (((nth (a + 3) m 0 * 2 ^ 8 + nth (a + 2) m 0) * 2 ^ 8 + nth (a + 1) m 0) * 2 ^ 8 + nth a m 0)
    by (unfold word_at; lia).
  destruct j as [|[|[|[|j]]]]; [..|lia];
    repeat (rewrite testbit_append by (done || lia || apply Hb); case_bool; try lia);
    rewrite ?Nat.add_0_r; f_equal; lia.
Qed.

(** The order in which the bits of a word are used. *)
Lemma xor7 n : (n < 32)%nat ->
  Z.lxor (Z.of_nat n) 7 = 8 * Z.of_nat (n / 8) + (7 - Z.of_nat (n mod 8)).
Proof.
  intros Hn.
  assert (H : forallb (fun n => Z.lxor (Z.of_nat n) 7 =?
    8 * Z.of_nat (n / 8) + (7 - Z.of_nat (n mod 8))) (seq 0 32) = true) by by vm_compute.
  rewrite forallb_forall in H. apply Z.eqb_eq, H, in_seq. lia.
Qed.

Lemma clear_upper q : 0 <= q < 2 ^ 16 ->
  cshl 32 (Z.land q (cnot 32 UPPER_BIT_RUBIN)) 1 = 2 * (q mod 2 ^ 15).
Proof.
  intros Hq. rewrite <-rubin_lower by done. f_equal.
  change UPPER_BIT_RUBIN with (2 ^ 15). change LOWER_BITS_RUBIN with (Z.ones 15).
  apply Z.bits_inj'. intros i Hi.
  rewrite !Z.land_spec, cnot_testbit, pow2_testbit, ones_testbit by lia.
  destruct (Z.ltb_spec i 16).
  - do 3 case_bool; try lia; by rewrite ?andb_true_r.
  - by rewrite (word_testbit_high 16 q) by (done || lia).
Qed.

Lemma lor_double x b : Z.lor (2 * x) (b2z b) = 2 * x + b2z b.
Proof.
  replace (2 * x) with (Z.shiftl x 1) at 1 by (rewrite Z.shiftl_mul_pow2 by lia; lia).
  rewrite lor_shift_add; [lia|lia|]. destruct b; unfold word; simpl; lia.
Qed.

(** Windows of bytes. *)
Lemma win_app code o a b : win code o (a + b) = win code o a * 2 ^ Z.of_nat b + win code (o + a) b.
Proof.
  induction b as [|b IH]; [simpl; rewrite Nat.add_0_r; lia|].
  rewrite Nat.add_succ_r. cbn [win]. rewrite IH, Nat2Z.inj_succ, Z.pow_succ_r, Nat.add_assoc by lia. lia.
Qed.

Lemma byte_bits v : is_byte v -> win (fun i => Z.testbit v (7 - Z.of_nat i)) 0 8 = v.
Proof.
  intros Hv. unfold word in Hv.
  assert (H : forallb (fun v => win (fun i => Z.testbit v (7 - Z.of_nat i)) 0 8 =? v) (seqZ 0 256) = true)
    by by vm_compute.
  rewrite forallb_forall in H. apply Z.eqb_eq, H. apply list_elem_of_In, elem_of_seqZ. lia.
Qed.

Lemma win_ext code code' o o' n :
  (forall i, (i < n)%nat -> code (o + i)%nat = code' (o' + i)%nat) -> win code o n = win code' o' n.
Proof.
  induction n as [|n IH]; intros H; [done|]. cbn [win]. rewrite IH, H by (auto with lia). done.
Qed.

Lemma win_byte m base j : Forall is_byte m -> win (mem_code m base) (8 * j) 8 = nth (base + j) m 0.
Proof.
  intros Hm. rewrite <-(byte_bits (nth (base + j) m 0)) by by apply nth_byte.
  apply win_ext. intros i Hi. unfold mem_code.
  pose proof (Nat.div_mod_eq (8 * j + i) 8). pose proof (mod8 (8 * j + i)).
  replace ((8 * j + i) / 8)%nat with j by lia. by replace ((8 * j + i) mod 8)%nat with i by lia.
Qed.

(** ** Decoding *)

(** A byte from its bits, as U-Boot collects them. *)
Fixpoint ugather (n : nat) (v result : Z) : Z :=
  match n with
  | O => result
  | S n => ugather n (Z.shiftr v 1)
      (let r := Z.shiftr result 1 in if Z.testbit v 0 then Z.lor r 0x80 else r)
  end.

Lemma ugather_byte v : is_byte v -> ugather 8 v 0 = v.
Proof.
  intros Hv. unfold word in Hv.
  assert (H : forallb (fun v => ugather 8 v 0 =? v) (seqZ 0 256) = true) by by vm_compute.
  rewrite forallb_forall in H. apply Z.eqb_eq, H. apply list_elem_of_In, elem_of_seqZ. lia.
Qed.

Section Boot.
Context (m : mem) (base k : nat) (bs : list Z).
Hypothesis Hm : (base + k + 4 <= length m)%nat.
Hypothesis Hbytes : Forall is_byte m.
Hypothesis Hbs : Forall (fun b => 1 <= b <= 255) bs.

Let code := mem_code m base.

(** The decoder's state when the coder's is the interval [p, q] at bit [o]. *)
Definition ustate (p q : Z) (o : nat) : uboot_rubin :=
  let a := (base + 4 * ((o + 16) / 32))%nat in
  URubin a (word_at m a) (Z.of_nat ((o + 16) mod 32)) p q (win code o 16).

Lemma word_bit c :
  Z.land (Z.shiftr (word_at m (base + 4 * (c / 32))) (Z.lxor (Z.of_nat (c mod 32)) 7)) 1 =
  b2z (code c).
Proof using Hm Hbytes.
  assert (Hc : (c mod 32 < 32)%nat) by by apply Nat.mod_upper_bound.
  pose proof (mod8 (c mod 32)). rewrite xor7, shiftr_bit, word_at_testbit by (done || lia || by apply div8_lt).
  unfold code, mem_code.
  pose proof (Nat.div_mod_eq c 32). pose proof (Nat.div_mod_eq (c mod 32) 8).
  pose proof (Nat.div_mod_eq c 8). pose proof (mod8 c).
  assert (E8 : (4 * (c / 32) + (c mod 32) / 8 = c / 8)%nat) by lia.
  replace (base + 4 * (c / 32) + c mod 32 / 8)%nat with (base + c / 8)%nat by lia.
  by replace ((c mod 32) mod 8)%nat with (c mod 8)%nat by lia.
Qed.

Lemma uboot_shift_ok fuel p q o l p1 q1 :
  interval p q -> 2 ^ 16 < p * 2 ^ Z.of_nat fuel -> norm fuel p q = (l, (p1, q1)) ->
  (o + length l + 16 <= 8 * k)%nat ->
  uboot_shift fuel m (ustate p q o) = Ret (ustate p1 q1 (o + length l)).
Proof using Hm Hbytes.
  revert p q o l. induction fuel as [|fuel IH]; intros p q o l Hi Hf E Ho.
  { destruct Hi. change (2 ^ Z.of_nat 0) with 1 in Hf. lia. }
  cbn [norm] in E. pose proof Hi as (Hp & Hq & Hpq).
  unfold ustate at 1. cbn [uboot_shift]. rewrite rubin_upper by lia.
  change (_ || _) with (rubin_full p q). rewrite rubin_full_settled by done.
  destruct (settled p q) eqn:Es; [|simplify_eq; by rewrite Nat.add_0_r].
  destruct (norm fuel _ _) as [l' [? ?]] eqn:En. simplify_eq. cbn [length] in *.
  rewrite word_bit, !clear_upper, rubin_double by (lia || apply win16_range).
  rewrite Nat2Z.inj_succ, Z.pow_succ_r in Hf by lia.
  replace (o + S (length l'))%nat with (S o + length l')%nat by lia.
  rewrite <-(IH _ _ (S o) l' (proj1 (settled_bit p q Hi Es)) ltac:(lia) En ltac:(lia)).
  destruct (win16_next code o) as [Ew _].
  rewrite lor_double, <-Ew.
  unfold ustate. assert (Hc : ((o + 16) mod 32 < 32)%nat) by by apply Nat.mod_upper_bound.
  pose proof (Nat.div_mod_eq (o + 16) 32). pose proof (Nat.div_mod_eq (S o + 16) 32).
  assert ((S o + 16) mod 32 < 32)%nat by by apply Nat.mod_upper_bound.
  rewrite u32_small by lia. case_bool.
  - rewrite load_u32_ok by lia.
    replace (base + 4 * ((o + 16) / 32) + 4)%nat with (base + 4 * ((S o + 16) / 32))%nat by lia.
    by replace ((S o + 16) mod 32)%nat with 0%nat by lia.
  - replace ((S o + 16) / 32)%nat with ((o + 16) / 32)%nat by lia.
    by replace (Z.of_nat ((S o + 16) mod 32)) with (Z.of_nat ((o + 16) mod 32) + 1) by lia.
Qed.

Lemma uboot_i0 b p :
  1 <= b <= 255 -> 2 <= p <= 2 ^ 16 ->
  (let i0 := s32 (Z.shiftr (u32 (u8 (256 - b) * p)) 8) in if i0 <=? 0 then 1 else i0) =
  divide 256 (256 - b) p.
Proof.
  intros Hb Hp. unfold u8. rewrite wrap_small, u32_small by (unfold word; nia).
  rewrite Z.shiftr_div_pow2 by lia. unfold divide. change (2 ^ 8) with 256.
  assert (0 <= (256 - b) * p / 256 < p).
  { split; [apply Z.div_pos; nia|apply Z.div_lt_upper_bound; nia]. }
  rewrite s32_small by lia. cbn zeta. case_bool; lia.
Qed.

Lemma uboot_decode_ok b p q o s l p1 q1 result :
  interval p q -> 1 <= b <= 255 -> enc 256 [(256 - b, s)] p q = (l, (p1, q1)) ->
  (o + length l + 16 <= 8 * k)%nat -> q1 <= win code (o + length l) 16 < q1 + p1 ->
  uboot_decode m (ustate p q o) (u8 (256 - b)) result =
    Ret (let r := Z.shiftr result 1 in if s then Z.lor r 0x80 else r, ustate p1 q1 (o + length l)).
Proof using Hm Hbytes.
  intros Hi Hb E Ho Hw. cbn [enc] in E. destruct (norm rounds p q) as [l1 [pn qn]] eqn:En.
  destruct (narrow 256 (256 - b) pn qn s) as [ps qs] eqn:Ew. rewrite app_nil_r in E. simplify_eq.
  destruct (norm_rounds _ _ _ _ _ Hi En) as (Hin & _ & Hp2). pose proof Hin as (_ & Hqn & Hpq).
  destruct (narrow_interval _ _ _ _ _ _ _ Hin Hp2 Ew) as (_ & _ & _ & Hsym).
  unfold uboot_decode. change (S RUBIN_REG_SIZE) with rounds. pose proof Hi as [Hp _].
  rewrite (uboot_shift_ok rounds p q o l pn qn Hi) by
    (done || change (2 ^ Z.of_nat rounds) with (2 ^ 17); lia).
  unfold ustate at 1. pose proof (uboot_i0 b pn Hb ltac:(lia)) as Hi0. cbn zeta in Hi0.
  rewrite Hi0. pose proof (divide_range 256 (256 - b) pn Hp2) as Hdv.
  rewrite (u32_small (qn + _)) by lia. rewrite Z.ltb_antisym, (Hsym _ Hw). unfold narrow in Ew.
  destruct s; simplify_eq; simpl negb; cbn iota; unfold ustate; by rewrite u32_small by lia.
Qed.

Lemma uboot_in_byte_ok js v p q o l p1 q1 result :
  Forall (fun b => 1 <= b <= 255) js -> interval p q -> enc 256 (syms 256 js v) p q = (l, (p1, q1)) ->
  holds code o l -> (o + length l + 16 <= 8 * k)%nat -> q1 <= win code (o + length l) 16 < q1 + p1 ->
  uboot_in_byte (map (fun b => u8 (256 - b)) js) m (ustate p q o) result =
    Ret (ugather (length js) v result, ustate p1 q1 (o + length l)).
Proof using Hm Hbytes.
  revert v p q o l result. induction js as [|b js IH]; intros v p q o l result Hjs Hi E Hl Ho Hw.
  { cbn [syms enc] in E. simplify_eq. by rewrite Nat.add_0_r. }
  apply Forall_cons in Hjs as [Hb Hjs]. cbn [syms] in E.
  destruct (enc 256 [(256 - b, Z.testbit v 0)] p q) as [l1 [ps qs]] eqn:E1.
  destruct (enc 256 (syms 256 js (Z.shiftr v 1)) ps qs) as [l2 [pe qe]] eqn:E2.
  change (_ :: syms 256 js _) with ([(256 - b, Z.testbit v 0)] ++ syms 256 js (Z.shiftr v 1)) in E.
  rewrite (enc_app _ _ _ _ _ _ _ _ _ _ E1 E2) in E. simplify_eq.
  apply holds_app in Hl as [Hl1 Hl2]. rewrite length_app, Nat.add_assoc in *.
  pose proof (enc_interval _ _ _ _ _ _ _ Hi E1) as His.
  pose proof (enc_window _ _ _ _ _ _ _ _ _ His E2 Hl2 Hw) as Hw1.
  cbn [map uboot_in_byte length ugather].
  rewrite (uboot_decode_ok b p q o _ l1 ps qs result Hi Hb E1 ltac:(lia) Hw1). by apply (IH _ _ _ _ l2).
Qed.

Lemma uboot_rubin_loop_ok data e n i p q o l p1 q1 page :
  length bs = 8%nat -> Forall is_byte data -> (e <= length data)%nat -> (e <= length page)%nat ->
  (i + n = e)%nat -> interval p q ->
  enc 256 (data_syms 256 bs (take n (drop i data))) p q = (l, (p1, q1)) ->
  holds code o l -> (o + length l + 16 <= 8 * k)%nat -> q1 <= win code (o + length l) 16 < q1 + p1 ->
  uboot_rubin_loop n (map (fun b => u8 (256 - b)) bs) m (fill data i page) (ustate p q o) i =
    Ret (fill data e page).
Proof using Hm Hbytes Hbs.
  intros H8 Hdata He Hpage. revert i p q o l.
  induction n as [|n IH]; intros i p q o l Hi Hpq E Hl Ho Hw; cbn [uboot_rubin_loop].
  { by replace i with e by lia. }
  destruct (lookup_lt_is_Some_2 data i ltac:(lia)) as [v Hv]. rewrite (drop_S data v i Hv) in E.
  unfold data_syms in E. cbn [take map concat] in E.
  destruct (enc 256 (syms 256 bs v) p q) as [l1 [ps qs]] eqn:E1.
  destruct (enc 256 (concat (map (syms 256 bs) (take n (drop (S i) data)))) ps qs)
    as [l2 [pe qe]] eqn:E2.
  rewrite (enc_app _ _ _ _ _ _ _ _ _ _ E1 E2) in E. simplify_eq.
  apply holds_app in Hl as [Hl1 Hl2]. rewrite length_app, Nat.add_assoc in *.
  pose proof (enc_interval _ _ _ _ _ _ _ Hpq E1) as His.
  pose proof (enc_window _ _ _ _ _ _ _ _ _ His E2 Hl2 Hw) as Hw1.
  pose proof (Forall_lookup_word _ _ _ _ Hdata Hv) as Hvb.
  rewrite (uboot_in_byte_ok bs v p q o l1 ps qs 0 Hbs Hpq E1 Hl1 ltac:(lia) Hw1), H8, ugather_byte by done.
  unfold u8 at 1. rewrite wrap_small by done. rewrite store_lt by (rewrite length_filled; lia).
  rewrite fill_next by (done || lia). eapply IH; [lia|done..].
Qed.

Lemma uboot_rubin_ok data e page l p1 q1 :
  length bs = 8%nat -> Forall is_byte data -> (e <= length data)%nat -> (e <= length page)%nat ->
  enc 256 (data_syms 256 bs (take e data)) (2 ^ 16) 0 = (l, (p1, q1)) ->
  holds code 0 (l ++ flush 16 q1) -> (length l + 16 <= 8 * k)%nat ->
  uboot_rubin_do_decompress (map (fun b => u8 (256 - b)) bs) m base page (Z.of_nat e) =
    Ret (fill data e page).
Proof using Hm Hbytes Hbs.
  intros H8 Hdata He Hpage E Hl Hlen.
  assert (Hi0 : interval (2 ^ 16) 0) by (unfold interval; lia).
  destruct (enc_interval _ _ _ _ _ _ _ Hi0 E) as (Hp1 & Hq1 & Hpq1).
  apply holds_app in Hl as [Hl Hfl]. rewrite Nat.add_0_l in Hfl.
  pose proof (flush_window16 _ _ q1 ltac:(lia) Hfl) as Hw.
  unfold uboot_rubin_do_decompress. rewrite load_u32_ok, !load_nth, Nat2Z.id by lia.
  replace (URubin _ _ _ _ _ _) with (ustate (2 ^ 16) 0 0).
  - eapply (uboot_rubin_loop_ok data e e 0 _ _ _ l p1 q1 page);
      rewrite ?drop_0, ?Nat.add_0_l; try done; lia.
  - unfold ustate. rewrite !Nat.add_0_l. change (16 / 32)%nat with 0%nat.
    rewrite Nat.mul_0_r, Nat.add_0_r. f_equal.
    change 16%nat with (8 + 8)%nat. unfold code.
    pose proof (win_byte m base 0 Hbytes) as W0. pose proof (win_byte m base 1 Hbytes) as W1.
    change (8 * 0)%nat with 0%nat in W0. change (8 * 1)%nat with 8%nat in W1.
    rewrite win_app, Nat.add_0_l, W0, W1, Nat.add_0_r.
    rewrite lor_shift_add by (lia || by apply nth_byte). done.
Qed.
End Boot.

Lemma dynrubin_uboot_ok block data e k page srclen :
  dynrubin_block block data e k -> Forall is_byte block -> (8 + k + 4 <= length block)%nat ->
  Forall is_byte data -> (e <= length data)%nat -> (e <= length page)%nat ->
  dynrubin_decompress block page srclen (Z.of_nat e) = Ret (fill data e page).
Proof.
  intros (bits & l & p1 & q1 & H8 & Hbits & _ & _ & Htab & E & Hl & Hll) Hb Hlen Hdata He Hpage.
  unfold dynrubin_decompress. rewrite <-H8 at 1. rewrite (load_bits_ok bits) by (by rewrite H8).
  by apply (uboot_rubin_ok block 8 k bits Hlen Hb Hbits data e page l p1 q1).
Qed.

(** C6 (dynrubin round trip).  The compressor of compr_rubin.c returns and
    writes only to the room it was given.  When it succeeds, it used fewer
    bytes than it took, and both decompressors restore exactly these: the
    kernel's from the bytes it wrote, whatever follows them, and U-Boot's if
    at least four bytes follow. *)
Theorem dynrubin_roundtrip data out s d :
  Forall is_byte data -> Forall is_byte out -> (0 < s <= length data)%nat -> Z.of_nat s < 2 ^ 31 ->
  (d <= length out)%nat -> 8 * Z.of_nat d < 2 ^ 31 ->
  exists out', wrote d out out' /\
    (jffs2_dynrubin_compress data out (Z.of_nat s) (Z.of_nat d) =
       Ret (-1, out', Z.of_nat s, Z.of_nat d) \/
     exists e n, (e <= s)%nat /\ (n < e)%nat /\ (n <= d)%nat /\
       jffs2_dynrubin_compress data out (Z.of_nat s) (Z.of_nat d) =
         Ret (0, out', Z.of_nat e, Z.of_nat n) /\
       forall post page srclen, Forall is_byte post -> (e <= length page)%nat ->
         jffs2_dynrubin_decompress (take n out' ++ post) page srclen (Z.of_nat e) =
           Ret (0, fill data e page) /\
         ((4 <= length post)%nat ->
          dynrubin_decompress (take n out' ++ post) page srclen (Z.of_nat e) =
            Ret (fill data e page))).
Proof.
  intros Hb Ho Hs Hs31 Hd Hd31.
  destruct (dynrubin_compress_ok data out s d) as (out' & Hw & [E|(e & k & He & Hk & Hkd & E & Hblk)]);
    [done..| |]; exists out'; (split; [done|]); [by left|right].
  exists e, (8 + k)%nat. split_and!; [done..|]. intros post page srclen Hpost Hp.
  pose proof (dynrubin_block_take _ _ _ _ post Hblk) as Hblk'. split.
  - apply (dynrubin_decompress_ok _ data e k); [done|done|lia|done].
  - intros H4. destruct Hw as (Hlen & Hbytes & _).
    apply (dynrubin_uboot_ok _ data e k); [done| | |done|lia|done].
    + apply Forall_app. split; [by apply Forall_take|done].
    + rewrite length_app, length_take. lia.
Qed.

Lemma dynrubin_roundtrip_witness :
  exists out', wrote 40 (replicate 40 170) out' /\
    (jffs2_dynrubin_compress (replicate 40 3) (replicate 40 170) (Z.of_nat 40) (Z.of_nat 40) =
       Ret (-1, out', Z.of_nat 40, Z.of_nat 40) \/
     exists e n, (e <= 40)%nat /\ (n < e)%nat /\ (n <= 40)%nat /\
       jffs2_dynrubin_compress (replicate 40 3) (replicate 40 170) (Z.of_nat 40) (Z.of_nat 40) =
         Ret (0, out', Z.of_nat e, Z.of_nat n) /\
       forall post page srclen, Forall is_byte post -> (e <= length page)%nat ->
         jffs2_dynrubin_decompress (take n out' ++ post) page srclen (Z.of_nat e) =
           Ret (0, fill (replicate 40 3) e page) /\
         ((4 <= length post)%nat ->
          dynrubin_decompress (take n out' ++ post) page srclen (Z.of_nat e) =
            Ret (fill (replicate 40 3) e page))).
Proof.
  apply (dynrubin_roundtrip (replicate 40 3) (replicate 40 170) 40 40).
  - apply Forall_replicate. unfold word. lia.
  - apply Forall_replicate. unfold word. lia.
  - rewrite length_replicate. lia.
  - lia.
  - rewrite length_replicate. lia.
  - lia.
Defined.
