(* ===== verification/ComprMain.v ===== *)
(** * Compressors of JFFS2: the theorems

    The invariant of the list of compressors, round trips through
    [jffs2_compress] and [jffs2_decompress] for any compressors that keep the
    promise [Codec], the compressors of the kernel registered as
    [jffs2_compressors_init] does, and what U-Boot makes of their results. *)

From Stdlib Require Import Sorted.
From stdpp Require Import relations.
From S2P Require Import Prelude CMem Compr Rtime Rubin RubinMain RubinBoot.

(** ** The registered compressors *)

Definition name_rtime : list Z := [114; 116; 105; 109; 101].
Definition name_rubinmips : list Z := [114; 117; 98; 105; 110; 109; 105; 112; 115].
Definition name_dynrubin : list Z := [100; 121; 110; 114; 117; 98; 105; 110].

Definition jffs2_rtime_comp : jffs2_compressor :=
  Compressor 50 (Some name_rtime) JFFS2_COMPR_RTIME (Some jffs2_rtime_compress)
    jffs2_rtime_decompress 0 false None 0 0 0 0 0.

Definition jffs2_rubinmips_comp : jffs2_compressor :=
  Compressor 10 (Some name_rubinmips) JFFS2_COMPR_DYNRUBIN None
    jffs2_rubinmips_decompress 0 true None 0 0 0 0 0.

Definition jffs2_dynrubin_comp : jffs2_compressor :=
  Compressor 20 (Some name_dynrubin) JFFS2_COMPR_RUBINMIPS (Some jffs2_dynrubin_compress)
    jffs2_dynrubin_decompress 0 true None 0 0 0 0 0.

(** The addresses of these structures. *)
Record comp_addrs := CompAddrs { zlib_at : Z; rtime_at : Z; rubinmips_at : Z; dynrubin_at : Z }.

Definition jffs2_rtime_init (at_ : comp_addrs) (st : comprs) : Z * comprs :=
  jffs2_register_compressor st (rtime_at at_) jffs2_rtime_comp.
Definition jffs2_rubinmips_init (at_ : comp_addrs) (st : comprs) : Z * comprs :=
  jffs2_register_compressor st (rubinmips_at at_) jffs2_rubinmips_comp.
Definition jffs2_dynrubin_init (at_ : comp_addrs) (st : comprs) : Z * comprs :=
  jffs2_register_compressor st (dynrubin_at at_) jffs2_dynrubin_comp.

(** [jffs2_compressors_init] with all compressors configured, and the priority
    mode.  The structure that compr_zlib.c registers, a wrapper of the zlib
    library, is an argument. *)
Definition jffs2_compressors_init (at_ : comp_addrs) (zlib : jffs2_compressor) (st : comprs) :
    Z * comprs :=
  let '(_, st) := jffs2_register_compressor st (zlib_at at_) zlib in
  let '(_, st) := jffs2_rtime_init at_ st in
  let '(_, st) := jffs2_rubinmips_init at_ st in
  let '(_, st) := jffs2_dynrubin_init at_ st in
  (0, st).

(** And the exit functions, in their order. *)
Definition jffs2_compressors_exit (at_ : comp_addrs) (st : comprs) : outcome (Z * comprs) :=
  let! (_, st) := jffs2_unregister_compressor st (dynrubin_at at_) in
  let! (_, st) := jffs2_unregister_compressor st (rubinmips_at at_) in
  let! (_, st) := jffs2_unregister_compressor st (rtime_at at_) in
  let! (_, st) := jffs2_unregister_compressor st (zlib_at at_) in
  Ret (0, st).

(** The static variables before: no compressor, the priority mode. *)
Definition comprs_start : comprs := Comprs [] JFFS2_COMPR_MODE_PRIORITY 0 0 0.

(** ** U-Boot's switch over the types, in [jffs2_1pass_read_inode] of
    fs/jffs2/jffs2_1pass.c: the destination, or [None] for [return -1].  The
    decompressor of zlib is an argument. *)
Definition uboot_decompress (zlib_decompress : decompress_fn) (type : Z) (src dest : mem)
    (csize dsize : Z) : outcome (option mem) :=
  if type =? JFFS2_COMPR_NONE then
    let! dest := copy_into dest src dsize in Ret (Some dest)
  else if type =? JFFS2_COMPR_ZERO then
    let! dest := clear dest dsize in Ret (Some dest)
  else if type =? JFFS2_COMPR_RTIME then
    let! dest := rtime_decompress src dest csize dsize in Ret (Some dest)
  else if type =? JFFS2_COMPR_DYNRUBIN then
    let! dest := dynrubin_decompress src dest csize dsize in Ret (Some dest)
  else if type =? JFFS2_COMPR_ZLIB then
    let! (_, dest) := zlib_decompress src dest csize dsize in Ret (Some dest)
  else Ret None.

(** ** The invariant *)

(** What the routines for blocks leave alone. *)
Definition statics (c : jffs2_compressor) :=
  (priority c, name c, compr c, compress c, decompress c, disabled c).

Definition shape (l : list (Z * jffs2_compressor)) := map (fun x => (x.1, statics x.2)) l.

Definition codec_ok (c : jffs2_compressor) : Prop :=
  (forall f, compress c = Some f -> Codec f (decompress c)) /\ is_byte (compr c) /\
  compr c <> JFFS2_COMPR_NONE /\ compr c <> JFFS2_COMPR_ZERO.

(** A buffer that is kept has the size that is noted. *)
Definition buf_ok (c : jffs2_compressor) : Prop :=
  forall b, compr_buf c = Some b -> Forall is_byte b /\ compr_buf_size c = Z.of_nat (length b).

Definition comp_ok (c : jffs2_compressor) : Prop := codec_ok c /\ buf_ok c.

Definition before (x y : Z * jffs2_compressor) : Prop := priority y.2 <= priority x.2.

(** The addresses and types are different, priorities fall. *)
Definition list_ok (l : list (Z * jffs2_compressor)) : Prop :=
  Forall (fun x => comp_ok x.2) l /\ NoDup (map fst l) /\ NoDup (map (fun x => compr x.2) l) /\
  StronglySorted before l.

Definition comprs_ok (st : comprs) : Prop := list_ok (jffs2_compressor_list st).

(** What [kmalloc] may answer to a request for [d] bytes. *)
Definition granted (d : nat) (answer : option mem) : Prop :=
  forall b, answer = Some b -> Forall is_byte b /\ length b = d.

(** A request to [jffs2_compress]. *)
Definition block_request (data : mem) (s d : nat) : Prop :=
  Forall is_byte data /\ (s <= length data)%nat /\ (s <= PAGE_CACHE_SIZE)%nat /\
  (2 <= d)%nat /\ (d <= s)%nat.

Lemma statics_inv c c' : statics c' = statics c ->
  priority c' = priority c /\ name c' = name c /\ compr c' = compr c /\ compress c' = compress c /\
  decompress c' = decompress c /\ disabled c' = disabled c.
Proof. unfold statics. by intros [= -> -> -> -> -> ->]. Qed.

Lemma codec_ok_statics c c' : statics c' = statics c -> codec_ok c -> codec_ok c'.
Proof.
  intros (_ & _ & Et & Ec & Ed & _)%statics_inv. unfold codec_ok. by rewrite Et, Ec, Ed.
Qed.

Lemma shape_cons x x' l l' : shape (x' :: l') = shape (x :: l) ->
  x'.1 = x.1 /\ statics x'.2 = statics x.2 /\ shape l' = shape l.
Proof. unfold shape. simpl. intros E. split_and!; congruence. Qed.

(** [list_ok] but for the buffers is a matter of the shape. *)
Lemma list_ok_shape l l' :
  shape l' = shape l -> Forall (fun x => comp_ok x.2) l' -> list_ok l -> list_ok l'.
Proof.
  intros E Hf (_ & Ha & Ht & Hs). split; [done|].
  assert (E1 : map fst l' = map fst l).
  { apply (f_equal (map fst)) in E. unfold shape in E. by rewrite !map_map in E. }
  assert (E2 : map (fun x => compr x.2) l' = map (fun x => compr x.2) l).
  { apply (f_equal (map (fun x => x.2.1.1.1.2))) in E. unfold shape in E. by rewrite !map_map in E. }
  rewrite E1, E2. do 2 (split; [done|]). clear -E Hs. revert l' E.
  induction Hs as [|x l Hs IH Hf]; intros [|x' l'] E; try done; [constructor|].
  apply shape_cons in E as (_ & E2 & E). constructor; [by apply IH|].
  clear -Hf E E2. revert l' E. induction Hf as [|y l Hy Hf IH]; intros [|y' l'] E; try done.
  apply shape_cons in E as (_ & F2 & E). constructor; [|by apply IH].
  unfold before in *. apply statics_inv in E2 as (-> & _). by apply statics_inv in F2 as (-> & _).
Qed.

Lemma statics_usecount c u : statics (set_usecount c u) = statics c.
Proof. by destruct c. Qed.
Lemma statics_buf c b n : statics (set_buf c b n) = statics c.
Proof. by destruct c. Qed.
Lemma statics_count c x y : statics (count_compr c x y) = statics c.
Proof. by destruct c. Qed.
Lemma statics_count_decompr c : statics (count_decompr c) = statics c.
Proof. by destruct c. Qed.

Create HintDb compr discriminated.
Create Rewrite HintDb comprw.
#[export] Hint Rewrite statics_usecount statics_buf statics_count statics_count_decompr : comprw.

Lemma buf_usecount c u : buf_ok c -> buf_ok (set_usecount c u).
Proof. by destruct c. Qed.
Lemma buf_count c x y : buf_ok c -> buf_ok (count_compr c x y).
Proof. by destruct c. Qed.
Lemma buf_count_decompr c : buf_ok c -> buf_ok (count_decompr c).
Proof. by destruct c. Qed.
Lemma buf_none c n : buf_ok (set_buf c None n).
Proof. by destruct c. Qed.
Lemma buf_some c b : Forall is_byte b -> buf_ok (set_buf c (Some b) (Z.of_nat (length b))).
Proof. destruct c. by intros Hb ? [= <-]. Qed.

#[export] Hint Resolve buf_usecount buf_count buf_count_decompr buf_none buf_some : compr.

(** [c'] is [c] with other statistics or another buffer. *)
Lemma comp_ok_update c c' : statics c' = statics c -> buf_ok c' -> comp_ok c -> comp_ok c'.
Proof. intros E Hb [Hc _]. split; [by eapply codec_ok_statics|done]. Qed.

Ltac solve_comp :=
  match goal with
  | H : comp_ok ?c |- _ =>
      apply (comp_ok_update c);
        [cbn [snd]; by autorewrite with comprw
        |cbn [snd]; pose proof (proj2 H); by auto 8 with compr
        |exact H]
  end.

Lemma shape_eq_cons a c c' l l' :
  statics c' = statics c -> shape l' = shape l -> shape ((a, c') :: l') = shape ((a, c) :: l).
Proof. unfold shape. intros E1 E2. simpl. by rewrite E1, E2. Qed.

(** ** Compressing *)

Section Compress.
Context (data : mem) (s d : nat).
Hypothesis Hreq : block_request data s d.

(** [b] holds [n] bytes that [f] made of the first [e] bytes of [data]. *)
Definition produced (f : compress_fn) (b : mem) (e n : nat) : Prop :=
  (e <= s)%nat /\ (0 < n)%nat /\ (n < e)%nat /\ (n <= d)%nat /\ (n <= length b)%nat /\
  Forall is_byte b /\
  exists out, request data out s d /\ f data out (Z.of_nat s) (Z.of_nat d) = Ret (0, b, Z.of_nat e, Z.of_nat n).

Lemma produced_decodes f g b e n :
  Codec f g -> produced f b e n -> forall post page, Forall is_byte post -> (e <= length page)%nat ->
  g (take n b ++ post) page (Z.of_nat n) (Z.of_nat e) = Ret (0, fill data e page).
Proof.
  intros Hc (_ & _ & _ & _ & _ & _ & out & Ho & E) post page Hpost Hp.
  destruct (Hc data out s d Ho) as (out' & _ & [(r & Hr & E')|(e' & n' & _ & _ & _ & _ & E' & H)]);
    rewrite E in E'; simplify_eq. by apply H.
Qed.

Lemma call_ok f g out :
  Codec f g -> Forall is_byte out -> (d <= length out)%nat ->
  exists out', wrote d out out' /\
    ((exists r, r <> 0 /\
        f data out (Z.of_nat s) (Z.of_nat d) = Ret (r, out', Z.of_nat s, Z.of_nat d)) \/
     exists e n, f data out (Z.of_nat s) (Z.of_nat d) = Ret (0, out', Z.of_nat e, Z.of_nat n) /\
       produced f out' e n).
Proof using Hreq.
  intros Hc Ho Hd. destruct Hreq as (Hb & Hs & Hp & Hd2 & Hds).
  assert (Hr : request data out s d) by (by split_and!).
  destruct (Hc data out s d Hr) as (out' & Hw & [H|(e & n & He & Hn & Hne & Hnd & E & _)]);
    exists out'; (split; [done|]); [by left|right].
  exists e, n. split; [done|]. destruct Hw as (Hl & Hbo & _). split_and!; [done..|lia|done|by exists out].
Qed.

(** A compressor that [jffs2_compress] may take. *)
Definition usable (c : jffs2_compressor) (f : compress_fn) : Prop :=
  compress c = Some f /\ disabled c = false.

Lemma compress_priority_ok l out :
  Forall (fun x => comp_ok x.2) l -> Forall is_byte out -> (d <= length out)%nat ->
  exists ret out' dl cdl l',
    compress_priority l data out (Z.of_nat s) (Z.of_nat d) (Z.of_nat s) (Z.of_nat d) =
      Ret (ret, out', dl, cdl, l') /\
    shape l' = shape l /\ Forall (fun x => comp_ok x.2) l' /\
    ((ret = JFFS2_COMPR_NONE /\ dl = Z.of_nat s /\ cdl = Z.of_nat d) \/
     exists x f e n, x ∈ l /\ usable x.2 f /\ ret = compr x.2 /\ dl = Z.of_nat e /\
       cdl = Z.of_nat n /\ produced f out' e n).
Proof using Hreq.
  revert out. induction l as [|[a c] l IH]; intros out Hl Ho Hd; cbn [compress_priority].
  { do 5 eexists. split; [done|]. split; [done|]. split; [done|]. by left. }
  apply Forall_cons in Hl as [Hc Hl].
  assert (Hskip : forall c' out', statics c' = statics c -> comp_ok c' -> Forall is_byte out' ->
    (d <= length out')%nat -> exists ret out2 dl cdl l',
    (let! (ret, output_buf, datalen, cdatalen, l) :=
       compress_priority l data out' (Z.of_nat s) (Z.of_nat d) (Z.of_nat s) (Z.of_nat d) in
     Ret (ret, output_buf, datalen, cdatalen, (a, c') :: l)) = Ret (ret, out2, dl, cdl, l') /\
    shape l' = shape ((a, c) :: l) /\ Forall (fun x => comp_ok x.2) l' /\
    ((ret = JFFS2_COMPR_NONE /\ dl = Z.of_nat s /\ cdl = Z.of_nat d) \/
     exists x f e n, x ∈ (a, c) :: l /\ usable x.2 f /\ ret = compr x.2 /\ dl = Z.of_nat e /\
       cdl = Z.of_nat n /\ produced f out2 e n)).
  { intros c' out' Es Hc' Ho' Hd'.
    destruct (IH out' Hl Ho' Hd') as (ret & out2 & dl & cdl & l' & E & Esh & Hl' & Hr). rewrite E.
    do 5 eexists. split; [done|]. split; [by apply shape_eq_cons|]. split; [by constructor|].
    destruct Hr as [Hr|(x & f & e & n & Hx & Hr)]; [by left|right].
    exists x, f, e, n. split; [by right|done]. }
  destruct (compress c) as [f|] eqn:Ef; [|by apply Hskip].
  destruct (disabled c) eqn:Edis; [by apply Hskip|].
  destruct (call_ok f (decompress c) out ltac:(by apply Hc) Ho Hd)
    as (out' & (Hlen & Hb & _) & [(r & Hr & E)|(e & n & E & Hp)]); rewrite E.
  - case_bool; [done|]. apply Hskip; [by autorewrite with comprw|solve_comp|done|lia].
  - cbn iota. simpl (0 =? 0). cbn iota. do 5 eexists. split; [done|].
    split; [apply shape_eq_cons; [by autorewrite with comprw|done]|].
    split; [constructor; [solve_comp|done]|]. right.
    exists (a, c), f, e, n. split; [by left|]. split; [done|]. split; [by destruct c|done].
Qed.

Lemma get_compr_buf_ok c answers :
  comp_ok c -> Forall (granted d) answers ->
  exists b c' answers', get_compr_buf c (Z.of_nat d) answers = (b, c', answers') /\
    statics c' = statics c /\ comp_ok c' /\ Forall (granted d) answers' /\
    forall b', b = Some b' -> Forall is_byte b' /\ (d <= length b')%nat /\
      compr_buf_size c' = Z.of_nat (length b').
Proof.
  intros Hc Ha. unfold get_compr_buf.
  set (c1 := if (compr_buf_size c <? Z.of_nat d) && bool_decide (compr_buf c <> None)
    then set_buf c None 0 else c).
  assert (H1 : statics c1 = statics c /\ comp_ok c1 /\
    forall b, compr_buf c1 = Some b -> Z.of_nat d <= compr_buf_size c1).
  { unfold c1. destruct (compr_buf c) as [b|] eqn:Eb.
    - rewrite bool_decide_eq_true_2, andb_true_r by done. case_bool.
      + split; [by autorewrite with comprw|]. split; [solve_comp|]. by destruct c.
      + split; [done|]. split; [done|]. intros b' _. lia.
    - rewrite andb_false_r. split; [done|]. split; [done|]. congruence. }
  destruct H1 as (Es & Hc1 & Hsz). destruct (compr_buf c1) as [b|] eqn:Eb.
  { exists (Some b), c1, answers. do 4 (split; [done|]). intros b' [= <-].
    destruct (proj2 Hc1 _ Eb) as [Hb Hl]. specialize (Hsz _ eq_refl). split_and!; [done|lia|done]. }
  destruct answers as [|x answers]; cbn [kmalloc].
  { exists None, c1, []. by do 4 (split; [done|]). }
  apply Forall_cons in Ha as [Hx Ha]. destruct x as [b|]; cycle 1.
  { exists None, c1, answers. by do 4 (split; [done|]). }
  destruct (Hx b eq_refl) as [Hb <-].
  exists (Some b), (set_buf c1 (Some b) (Z.of_nat (length b))), answers.
  split; [done|]. split; [by autorewrite with comprw|]. split; [solve_comp|]. split; [done|].
  intros b' [= <-]. split_and!; [done|done|by destruct c1].
Qed.

(** What the size mode has found is the buffer of one of the compressors. *)
Definition found (l : list (Z * jffs2_compressor)) (bst : best_compr) : Prop :=
  exists a c f b e n, (a, c) ∈ l /\ usable c f /\ compr_buf c = Some b /\ produced f b e n /\
    bst = Best (Some a) (Z.of_nat e) (Z.of_nat n).

Lemma compress_size_ok l bst dl cdl answers :
  Forall (fun x => comp_ok x.2) l -> Forall (granted d) answers ->
  (best_dlen bst = 0 -> dl = Z.of_nat s /\ cdl = Z.of_nat d) -> 0 <= best_dlen bst ->
  exists bst' dl' cdl' answers' l',
    compress_size l data (Z.of_nat s) (Z.of_nat d) dl cdl bst answers =
      Ret (bst', dl', cdl', answers', l') /\
    shape l' = shape l /\ Forall (fun x => comp_ok x.2) l' /\ Forall (granted d) answers' /\
    (best_dlen bst' = 0 -> dl' = Z.of_nat s /\ cdl' = Z.of_nat d) /\
    (bst' = bst \/ found l' bst').
Proof using Hreq.
  revert bst dl cdl answers. induction l as [|[a c] l IH]; intros bst dl cdl answers Hl Ha Hd Hpos;
    cbn [compress_size].
  { do 5 eexists. split; [done|]. do 4 (split; [done|]). by left. }
  apply Forall_cons in Hl as [Hc Hl].
  assert (Hcons : forall c' bst1 dl1 cdl1 answers1, statics c' = statics c -> comp_ok c' ->
    Forall (granted d) answers1 -> (best_dlen bst1 = 0 -> dl1 = Z.of_nat s /\ cdl1 = Z.of_nat d) ->
    0 <= best_dlen bst1 -> bst1 = bst \/ found [(a, c')] bst1 ->
    exists bst' dl' cdl' answers' l',
    (let! (bst, datalen, cdatalen, answers, l) :=
       compress_size l data (Z.of_nat s) (Z.of_nat d) dl1 cdl1 bst1 answers1 in
     Ret (bst, datalen, cdatalen, answers, (a, c') :: l)) = Ret (bst', dl', cdl', answers', l') /\
    shape l' = shape ((a, c) :: l) /\ Forall (fun x => comp_ok x.2) l' /\ Forall (granted d) answers' /\
    (best_dlen bst' = 0 -> dl' = Z.of_nat s /\ cdl' = Z.of_nat d) /\
    (bst' = bst \/ found l' bst')).
  { intros c' bst1 dl1 cdl1 answers1 Es Hc' Ha1 Hd1 Hp1 Hb1.
    destruct (IH bst1 dl1 cdl1 answers1 Hl Ha1 Hd1 Hp1)
      as (bst' & dl' & cdl' & answers' & l' & E & Esh & Hl' & Ha' & Hd' & Hb'). rewrite E.
    do 5 eexists. split; [done|]. split; [by apply shape_eq_cons|]. split; [by constructor|].
    do 2 (split; [done|]). destruct Hb' as [->|(x & c2 & f & b & e & n & Hx & Hr)].
    - destruct Hb1 as [->|(x & c2 & f & b & e & n & Hx%list_elem_of_singleton & Hr)]; [by left|].
      simplify_eq. right. exists a, c', f, b, e, n. split; [by left|done].
    - right. exists x, c2, f, b, e, n. split; [by right|done]. }
  destruct (compress c) as [f|] eqn:Ef; [|apply Hcons; auto].
  destruct (disabled c) eqn:Edis; [apply Hcons; auto|].
  destruct (get_compr_buf_ok c answers Hc Ha) as (b & c1 & answers1 & Eg & Es1 & Hc1 & Ha1 & Hb).
  rewrite Eg. destruct b as [b|]; [|apply Hcons; auto].
  destruct (Hb b eq_refl) as (Hbb & Hbl & Hbs).
  destruct (call_ok f (decompress c) b ltac:(by apply Hc) Hbb Hbl)
    as (b' & (Hlen & Hbb' & _) & Hr).
  set (u := s32 (usecount c1 + 1)). set (c2 := set_buf (set_usecount c1 u) (Some b') (compr_buf_size (set_usecount c1 u))).
  assert (Ec2 : forall u, statics (set_usecount c2 u) = statics c /\ comp_ok (set_usecount c2 u) /\
    compr_buf (set_usecount c2 u) = Some b').
  { intros v. unfold c2. replace (compr_buf_size (set_usecount c1 u)) with (Z.of_nat (length b'))
      by (rewrite Hlen, <-Hbs; by destruct c1).
    split; [by autorewrite with comprw|]. split; [|by destruct c1].
    apply (comp_ok_update c1); [by autorewrite with comprw| |done].
    apply buf_usecount, buf_some. done. }
  destruct Hr as [(r & Hr & E)|(e & n & E & Hp)]; rewrite E; simpl negb; cbn iota.
  - fold u. fold c2. destruct (Ec2 (s32 (usecount c2 - 1))) as (E1 & E2 & E3).
    rewrite (proj2 (Z.eqb_neq r 0) Hr). simpl andb. cbn iota. apply Hcons; auto.
  - fold u. fold c2. destruct (Ec2 (s32 (usecount c2 - 1))) as (E1 & E2 & E3).
    simpl (0 =? 0). cbn [andb]. pose proof Hp as (_ & Hn & _).
    destruct ((best_dlen bst =? 0) || (Z.of_nat n <? best_dlen bst)) eqn:Eb.
    + apply Hcons; [done|done|done|simpl; lia|simpl; lia|]. right.
      exists a, (set_usecount c2 (s32 (usecount c2 - 1))), f, b', e, n.
      split; [by left|]. split; [|done].
      apply statics_inv in E1 as (_ & _ & _ & Ecf & _ & Ed'). split; [by rewrite Ecf|by rewrite Ed'].
    + apply orb_false_iff in Eb as [Eb%Z.eqb_neq _]. apply Hcons; auto. done.
Qed.

Lemma take_best_ok l a c x y :
  NoDup (map fst l) -> (a, c) ∈ l -> Forall (fun x => comp_ok x.2) l ->
  exists l', take_best l a x y = Ret (compr_buf c, compr c, l') /\ shape l' = shape l /\
    Forall (fun x => comp_ok x.2) l'.
Proof.
  induction l as [|[a' c'] l IH]; intros Hnd Hin Hl; [by apply elem_of_nil in Hin|].
  apply Forall_cons in Hl as [Hc Hl]. simpl in Hnd. apply NoDup_cons in Hnd as [Hni Hnd].
  cbn [take_best]. apply elem_of_cons in Hin as [Hin|Hin].
  - simplify_eq. rewrite Z.eqb_refl. eexists. split; [done|].
    split; [apply shape_eq_cons; [by autorewrite with comprw|done]|].
    constructor; [solve_comp|done].
  - case_bool.
    + subst a'. exfalso. apply Hni, list_elem_of_In, in_map_iff. exists (a, c).
      split; [done|]. by apply list_elem_of_In.
    + destruct (IH Hnd Hin Hl) as (l' & E & Esh & Hl'). rewrite E. eexists. split; [done|].
      split; [by apply shape_eq_cons|by constructor].
Qed.

(** What [jffs2_compress] makes of a block: the block itself, or the bytes of
    a compressor, with its type. *)
Definition result_ok (l : list (Z * jffs2_compressor)) (res : compressed) : Prop :=
  res = Compressed JFFS2_COMPR_NONE None (Z.of_nat d) (Z.of_nat d) \/
  exists x f b e n, x ∈ l /\ usable x.2 f /\ produced f b e n /\
    res = Compressed (compr x.2) (Some b) (Z.of_nat e) (Z.of_nat n).

Lemma shape_mem l l' x : shape l' = shape l -> x ∈ l' -> exists y, y ∈ l /\ statics y.2 = statics x.2.
Proof.
  revert l. induction l' as [|x' l' IH]; intros [|y l] E Hx; try done; [by apply elem_of_nil in Hx|].
  apply shape_cons in E as (_ & E2 & E). apply elem_of_cons in Hx as [->|Hx].
  - exists y. split; [by left|done].
  - destruct (IH l E Hx) as (z & Hz & Ez). exists z. split; [by right|done].
Qed.

Lemma u16_byte x : is_byte x -> u16 x = x.
Proof. intros Hx. apply wrap_small. unfold word in *. lia. Qed.

Lemma jffs2_compress_ok st answers :
  comprs_ok st -> Forall (granted d) answers ->
  exists res st' answers',
    jffs2_compress st answers data (Z.of_nat s) (Z.of_nat d) = Ret (res, st', answers') /\
    shape (jffs2_compressor_list st') = shape (jffs2_compressor_list st) /\ comprs_ok st' /\
    Forall (granted d) answers' /\ result_ok (jffs2_compressor_list st) res.
Proof using Hreq.
  intros Hok Ha. pose proof Hok as (Hl & Hna & _). destruct st as [l mode cb db cs].
  assert (Hnone : forall l', shape l' = shape l -> Forall (fun x => comp_ok x.2) l' ->
    forall ans b, Forall (granted d) ans -> exists res st' answers',
    Ret (compress_out (Comprs l' mode cb db cs) JFFS2_COMPR_NONE b (Z.of_nat s) (Z.of_nat d), ans) =
      Ret (res, st', answers') /\
    shape (jffs2_compressor_list st') = shape l /\ comprs_ok st' /\
    Forall (granted d) answers' /\ result_ok l res).
  { intros l' Esh Hl' ans b Hans. do 3 eexists. split; [done|]. split; [done|].
    split; [by eapply list_ok_shape|]. split; [done|by left]. }
  assert (Hsome : forall l' x f b e n, shape l' = shape l -> Forall (fun x => comp_ok x.2) l' ->
    x ∈ l -> usable x.2 f -> produced f b e n -> forall ans, Forall (granted d) ans ->
    exists res st' answers',
    Ret (compress_out (Comprs l' mode cb db cs) (compr x.2) (Some b) (Z.of_nat e) (Z.of_nat n), ans) =
      Ret (res, st', answers') /\
    shape (jffs2_compressor_list st') = shape l /\ comprs_ok st' /\
    Forall (granted d) answers' /\ result_ok l res).
  { intros l' x f b e n Esh Hl' Hx Hu Hp ans Hans. unfold compress_out.
    pose proof (proj1 (Forall_forall _ _) Hl x Hx) as ((_ & Ht & Ht0 & _) & _).
    rewrite (proj2 (Z.eqb_neq _ _) Ht0), u16_byte by done.
    do 3 eexists. split; [done|]. split; [done|]. split; [by eapply list_ok_shape|].
    split; [done|]. right. by exists x, f, b, e, n. }
  unfold jffs2_compress. cbn [jffs2_compression_mode jffs2_compressor_list set_list] in *.
  destruct (mode =? JFFS2_COMPR_MODE_PRIORITY).
  - destruct answers as [|[out|] answers]; cbn [kmalloc]; [by apply Hnone|..];
      apply Forall_cons in Ha as [Hout Ha]; [|by apply Hnone].
    destruct (Hout out eq_refl) as [Hob Hol].
    destruct (compress_priority_ok l out Hl Hob ltac:(lia))
      as (ret & out' & dl & cdl & l' & E & Esh & Hl' & [(-> & -> & ->)|(x & f & e & n & Hx & Hu & -> & -> & -> & Hp)]);
      rewrite E; [by apply Hnone|by eapply Hsome].
  - destruct (mode =? JFFS2_COMPR_MODE_SIZE); [|by apply Hnone].
    destruct (compress_size_ok l (Best None 0 0) (Z.of_nat s) (Z.of_nat d) answers Hl Ha
      ltac:(done) ltac:(done)) as (bst & dl & cdl & ans & l' & E & Esh & Hl' & Ha' & Hd' & Hb).
    rewrite E. destruct Hb as [->|(a & c & f & b & e & n & Hin & Hu & Eb & Hp & ->)].
    + cbn [best]. destruct (Hd' eq_refl) as [-> ->]. by apply Hnone.
    + cbn [best best_dlen best_slen]. pose proof Hp as (_ & Hn & _).
      case_bool; [lia|].
      pose proof (list_ok_shape l l' Esh Hl' Hok) as (_ & Hna' & _).
      destruct (take_best_ok l' a c (Z.of_nat e) (Z.of_nat n) Hna' Hin Hl') as (l2 & E2 & Esh2 & Hl2).
      rewrite E2, Eb. destruct (shape_mem _ _ _ Esh Hin) as (y & Hy & Ey).
      apply statics_inv in Ey as (_ & _ & Et & Ecf & _ & Ed). simpl in Et, Ecf, Ed. rewrite <-Et.
      eapply Hsome; [by rewrite Esh2|done|done| |done|done].
      destruct Hu as [Hu1 Hu2]. split; congruence.
Qed.
End Compress.

(** ** Decompressing *)

(** The decompressor of a type: the first on the list. *)
Fixpoint decoder (l : list (Z * jffs2_compressor)) (ty : Z) : option decompress_fn :=
  match l with
  | [] => None
  | x :: l => if ty =? compr x.2 then Some (decompress x.2) else decoder l ty
  end.

Lemma decoder_mem l x :
  NoDup (map (fun x => compr x.2) l) -> x ∈ l -> decoder l (compr x.2) = Some (decompress x.2).
Proof.
  induction l as [|y l IH]; intros Hnd Hx; [by apply elem_of_nil in Hx|].
  simpl in Hnd. apply NoDup_cons in Hnd as [Hni Hnd]. cbn [decoder].
  apply elem_of_cons in Hx as [->|Hx]; [by rewrite Z.eqb_refl|].
  case_bool; [|by apply IH]. exfalso. apply Hni.
  match goal with E : compr x.2 = compr y.2 |- _ => rewrite <-E end.
  apply list_elem_of_In, in_map_iff. exists x. split; [done|]. by apply list_elem_of_In.
Qed.

Lemma decompress_list_shape l ty src dest cd dd r dest' l' :
  decompress_list l ty src dest cd dd = Ret (r, dest', l') ->
  Forall (fun x => comp_ok x.2) l -> shape l' = shape l /\ Forall (fun x => comp_ok x.2) l'.
Proof.
  revert l'. induction l as [|[a c] l IH]; intros l' E Hl; cbn [decompress_list] in E; [by simplify_eq|].
  apply Forall_cons in Hl as [Hc Hl]. destruct (ty =? compr c).
  - destruct (decompress _ src dest cd dd) as [[ret d']|]; [|done].
    destruct (ret =? 0); simplify_eq; (split; [apply shape_eq_cons; [by autorewrite with comprw|done]|]);
      (constructor; [solve_comp|done]).
  - destruct (decompress_list l ty src dest cd dd) as [[[ret d'] l2]|]; [|done]. simplify_eq.
    destruct (IH l2 eq_refl Hl) as [Esh Hl2]. split; [by apply shape_eq_cons|by constructor].
Qed.

Lemma decompress_list_decoder l ty g src dest cd dd r dest' :
  decoder l ty = Some g -> g src dest cd dd = Ret (r, dest') ->
  exists l', decompress_list l ty src dest cd dd = Ret (r, dest', l').
Proof.
  induction l as [|[a c] l IH]; intros Hg E; cbn [decompress_list decoder snd] in *; [done|].
  destruct (ty =? compr c).
  - simplify_eq. replace (decompress (set_usecount c _)) with (decompress c) by by destruct c.
    rewrite E. by eexists.
  - destruct (IH Hg E) as [l' E']. rewrite E'. by eexists.
Qed.

Lemma land_type x : is_byte x -> Z.land x 0xff = x.
Proof. intros Hx. change 0xff with (Z.ones 8). rewrite Z.land_ones by lia. by apply Z.mod_small. Qed.

Lemma jffs2_decompress_typed st ty g src dest cd dd r dest' :
  is_byte ty -> ty <> JFFS2_COMPR_NONE -> ty <> JFFS2_COMPR_ZERO ->
  decoder (jffs2_compressor_list st) ty = Some g -> g src dest cd dd = Ret (r, dest') ->
  exists st', jffs2_decompress st ty src dest cd dd = Ret (r, dest', st').
Proof.
  intros Hty H0 H1 Hg E. unfold jffs2_decompress. rewrite (land_type ty) by done.
  assert (Ei : (if ty <=? JFFS2_COMPR_ZLIB then ty else ty) = ty)
    by by destruct (ty <=? JFFS2_COMPR_ZLIB).
  rewrite Ei, (land_type ty), (proj2 (Z.eqb_neq _ _) H0), (proj2 (Z.eqb_neq _ _) H1) by done.
  destruct (decompress_list_decoder _ _ _ _ _ _ _ _ _ Hg E) as [l' ->]. by eexists.
Qed.

Lemma copy_into_take data post page n :
  (n <= length data)%nat -> (n <= length page)%nat ->
  copy_into page (take n data ++ post) (Z.of_nat n) = Ret (fill data n page).
Proof.
  intros Hd Hp. unfold copy_into, fill. rewrite Nat2Z.id.
  rewrite (proj2 (Nat.leb_le _ _)) by (rewrite length_app, length_take; lia).
  rewrite (proj2 (Nat.leb_le _ _)) by lia. simpl. do 2 f_equal.
  by rewrite take_app_le, take_take, Nat.min_id by (rewrite length_take; lia).
Qed.

(** The bytes of a result. *)
Definition block_of (data : mem) (res : compressed) : mem := default data (cpage_out res).

(** ** The list *)

Lemma insert_priority_Permutation x l : insert_priority x l ≡ₚ x :: l.
Proof.
  induction l as [|y l IH]; simpl; [done|]. case_bool; [done|]. rewrite IH. apply Permutation_swap.
Qed.

Lemma insert_priority_sorted x l :
  StronglySorted before l -> StronglySorted before (insert_priority x l).
Proof.
  induction 1 as [|y l Hs IH Hf]; simpl; [by repeat constructor|]. case_bool.
  - constructor; [by constructor|]. constructor; [unfold before; lia|].
    eapply Forall_impl; [done|]. unfold before. simpl. lia.
  - constructor; [done|]. rewrite insert_priority_Permutation. constructor; [unfold before; lia|done].
Qed.

Lemma sublist_Forall {A} (P : A -> Prop) l l' : l' `sublist_of` l -> Forall P l -> Forall P l'.
Proof.
  induction 1; intros Hf; [done|..]; apply Forall_cons in Hf as [? Hf]; [constructor; auto|auto].
Qed.

Lemma sublist_map {A B} (f : A -> B) l l' : l' `sublist_of` l -> map f l' `sublist_of` map f l.
Proof. induction 1; simpl; by constructor. Qed.

Lemma sublist_sorted (l l' : list (Z * jffs2_compressor)) :
  l' `sublist_of` l -> StronglySorted before l -> StronglySorted before l'.
Proof.
  induction 1 as [|x l1 l2 Hsub IH|x l1 l2 Hsub IH]; intros Hs; [constructor|..];
    inversion Hs as [|? ? Hs' Hf]; subst.
  - constructor; [by apply IH|]. by eapply sublist_Forall.
  - by apply IH.
Qed.

Lemma list_ok_sublist l l' : l' `sublist_of` l -> list_ok l -> list_ok l'.
Proof.
  intros Hsub (Hf & Ha & Ht & Hs). split_and!.
  - by eapply sublist_Forall.
  - eapply sublist_NoDup; [exact Ha|]. by apply sublist_map.
  - eapply sublist_NoDup; [exact Ht|]. by apply (sublist_map (fun x => compr x.2)).
  - by eapply sublist_sorted.
Qed.

Lemma list_ok_insert a c l :
  list_ok l -> comp_ok c -> a ∉ map fst l -> compr c ∉ map (fun x => compr x.2) l ->
  list_ok (insert_priority (a, c) l).
Proof.
  intros (Hf & Ha & Ht & Hs) Hc Hna Hnt. pose proof (insert_priority_Permutation (a, c) l) as Hp.
  split_and!; [| | |by apply insert_priority_sorted].
  - rewrite Hp. by constructor.
  - apply (Permutation_map fst) in Hp. rewrite Hp. by apply NoDup_cons.
  - apply (Permutation_map (fun x => compr x.2)) in Hp. rewrite Hp. by apply NoDup_cons.
Qed.

Lemma unlink_sublist a l c l' : unlink_compressor a l = Ret (c, l') -> l' `sublist_of` l.
Proof.
  revert l'. induction l as [|[a' c'] l IH]; intros l' E; cbn [unlink_compressor] in E; [done|].
  destruct (a' =? a); simplify_eq; [by constructor|].
  destruct (unlink_compressor a l) as [[c2 l2]|]; [|done]. simplify_eq. constructor. by apply IH.
Qed.

Lemma find_name_split nm l l1 x l2 : find_name nm l = Some (l1, x, l2) -> l = l1 ++ x :: l2.
Proof.
  revert l1. induction l as [|y l IH]; intros l1 E; cbn [find_name] in E; [done|].
  case_bool_decide; [by simplify_eq|].
  destruct (find_name nm l) as [[[l1' x'] l2']|]; [|done]. simplify_eq. simpl. f_equal. by apply IH.
Qed.

(** Changing whether a compressor is disabled. *)
Lemma list_ok_disabled l1 a c dis l2 :
  list_ok (l1 ++ (a, c) :: l2) -> list_ok (l1 ++ (a, set_disabled c dis) :: l2).
Proof.
  intros (Hf & Ha & Ht & Hs). rewrite !map_app in *. simpl in *.
  apply Forall_app in Hf as [Hf1 Hf2]. apply Forall_cons in Hf2 as [Hc Hf2].
  split_and!.
  - apply Forall_app. split; [done|]. constructor; [by destruct c|done].
  - by rewrite map_app.
  - rewrite map_app. by destruct c.
  - clear -Hs. induction l1 as [|y l1 IH]; simpl in *; inversion Hs as [|? ? Hs' Hf]; subst.
    + constructor; [done|]. by destruct c.
    + constructor; [by apply IH|]. apply Forall_app in Hf as [F1 F2].
      apply Forall_app. split; [done|]. apply Forall_cons in F2 as [F F2].
      constructor; [by destruct c|done].
Qed.

Lemma list_ok_priority l1 a c pr l2 :
  list_ok (l1 ++ (a, c) :: l2) -> list_ok (insert_priority (a, set_priority c pr) (l1 ++ l2)).
Proof.
  intros Hok. assert (Hsub : (l1 ++ l2) `sublist_of` l1 ++ (a, c) :: l2).
  { apply sublist_app; [done|by constructor]. }
  pose proof (list_ok_sublist _ _ Hsub Hok) as Hok'. destruct Hok as (Hf & Ha & Ht & _).
  apply Forall_app in Hf as [_ Hf]. apply Forall_cons in Hf as [Hc _].
  rewrite !map_app in Ha, Ht. simpl in Ha, Ht.
  apply list_ok_insert; [done|by destruct c|rewrite map_app..].
  - apply NoDup_app in Ha as (_ & Hd & Ha). apply NoDup_cons in Ha as [Ha _].
    rewrite elem_of_app. intros [Hx|Hx]; [|done]. apply (Hd a Hx). by left.
  - replace (compr (set_priority c pr)) with (compr c) by by destruct c.
    apply NoDup_app in Ht as (_ & Hd & Ht). apply NoDup_cons in Ht as [Ht _].
    rewrite elem_of_app. intros [Hx|Hx]; [|done]. apply (Hd _ Hx). by left.
Qed.

(** ** What the rest of the kernel may do with the list *)

Inductive api (st : comprs) : comprs -> Prop :=
| api_register a c r st' :
    codec_ok c -> a ∉ map fst (jffs2_compressor_list st) ->
    compr c ∉ map (fun x => compr x.2) (jffs2_compressor_list st) ->
    jffs2_register_compressor st a c = (r, st') -> api st st'
| api_unregister a r st' : jffs2_unregister_compressor st a = Ret (r, st') -> api st st'
| api_set_mode nm r st' : jffs2_set_compression_mode_name st nm = (r, st') -> api st st'
| api_enable nm r st' : jffs2_enable_compressor_name st nm = (r, st') -> api st st'
| api_disable nm r st' : jffs2_disable_compressor_name st nm = (r, st') -> api st st'
| api_priority nm pr r st' : jffs2_set_compressor_priority st nm pr = (r, st') -> api st st'
| api_compress answers data s d res st' answers' :
    block_request data s d -> Forall (granted d) answers ->
    jffs2_compress st answers data (Z.of_nat s) (Z.of_nat d) = Ret (res, st', answers') -> api st st'
| api_decompress ty src dest cd dd r dest' st' :
    jffs2_decompress st ty src dest cd dd = Ret (r, dest', st') -> api st st'.

Lemma Xable_ok st nm dis r st' :
  jffs2_compressor_Xable st nm dis = (r, st') -> comprs_ok st -> comprs_ok st'.
Proof.
  destruct st as [l mode cb db cs]. unfold jffs2_compressor_Xable, comprs_ok. simpl. intros E Hok.
  destruct (find_name nm l) as [[[l1 [a c]] l2]|] eqn:Ef; simplify_eq; [|done].
  apply find_name_split in Ef as ->. by apply list_ok_disabled.
Qed.

Lemma register_ok st a c r st' :
  comprs_ok st -> codec_ok c -> a ∉ map fst (jffs2_compressor_list st) ->
  compr c ∉ map (fun x => compr x.2) (jffs2_compressor_list st) ->
  jffs2_register_compressor st a c = (r, st') -> comprs_ok st'.
Proof.
  intros Hok Hc Ha Ht E. destruct st as [l mode cb db cs].
  destruct c as [pr nm ty cf df u dis b bs so sn sc sd]. unfold jffs2_register_compressor in E.
  destruct nm; simplify_eq; [|done]. unfold comprs_ok. simpl.
  apply list_ok_insert; try done.
Qed.

Lemma api_ok st st' : api st st' -> comprs_ok st -> comprs_ok st'.
Proof.
  destruct 1 as [a c r st' Hc Ha Ht E|a r st' E|nm r st' E|nm r st' E|nm r st' E|nm pr r st' E
    |answers data s d res st' answers' Hreq Hans E|ty src dest cd dd r dest' st' E]; intros Hok.
  - by eapply register_ok.
  - unfold jffs2_unregister_compressor in E. destruct (unlink_compressor _ _) as [[c l]|] eqn:Eu; [|done].
    destruct (negb _); simplify_eq; [done|]. destruct st. unfold comprs_ok. simpl in *.
    eapply list_ok_sublist; [by eapply unlink_sublist|done].
  - destruct st. unfold jffs2_set_compression_mode_name in E.
    repeat case_bool_decide; by simplify_eq.
  - by eapply Xable_ok.
  - by eapply Xable_ok.
  - destruct st as [l mode cb db cs]. unfold jffs2_set_compressor_priority, comprs_ok in *. simpl in *.
    destruct (find_name nm l) as [[[l1 [a c]] l2]|] eqn:Ef; simplify_eq; [|done].
    apply find_name_split in Ef as ->. by eapply list_ok_priority.
  - destruct (jffs2_compress_ok data s d Hreq st answers Hok Hans) as (res' & st2 & ans' & E' & _ & H & _).
    rewrite E in E'. by simplify_eq.
  - unfold jffs2_decompress in E. destruct (_ =? JFFS2_COMPR_NONE).
    + destruct (copy_into _ _ _); [|done]. destruct st. by simplify_eq.
    + destruct (_ =? JFFS2_COMPR_ZERO).
      * destruct (clear _ _); [|done]. by simplify_eq.
      * destruct (decompress_list _ _ _ _ _ _) as [[[r' d'] l']|] eqn:El; [|done]. simplify_eq.
        destruct (decompress_list_shape _ _ _ _ _ _ _ _ _ El ltac:(by destruct Hok)) as [Esh Hl].
        destruct st. by eapply list_ok_shape.
Qed.

Lemma comprs_start_ok : comprs_ok comprs_start.
Proof. by repeat constructor. Qed.

Lemma rtime_comp_ok : codec_ok jffs2_rtime_comp.
Proof. split; [intros f [= <-]; apply rtime_codec|]. by vm_compute. Qed.

Lemma rubinmips_comp_ok : codec_ok jffs2_rubinmips_comp.
Proof. split; [done|]. by vm_compute. Qed.

Lemma dynrubin_comp_ok : codec_ok jffs2_dynrubin_comp.
Proof. split; [intros f [= <-]; apply dynrubin_codec|]. by vm_compute. Qed.

Lemma register_mem st a c r st' y :
  jffs2_register_compressor st a c = (r, st') -> y ∈ jffs2_compressor_list st' ->
  y ∈ jffs2_compressor_list st \/ statics y.2 = statics c.
Proof.
  destruct st, c as [pr nm ty cf df u dis b bs so sn sc sd]. unfold jffs2_register_compressor.
  destruct nm; intros E Hy; simplify_eq; [|by left]. simpl in *.
  rewrite insert_priority_Permutation in Hy. apply elem_of_cons in Hy as [->|Hy]; [by right|by left].
Qed.

(** Registering adds a decompressor for the type, if there was none. *)
Lemma register_decoder st a c r st' ty :
  jffs2_register_compressor st a c = (r, st') ->
  ty <> compr c \/ name c <> None /\ decoder (jffs2_compressor_list st) (compr c) = None ->
  decoder (jffs2_compressor_list st') ty =
    if ty =? compr c then Some (decompress c) else decoder (jffs2_compressor_list st) ty.
Proof.
  destruct st as [l mode cb db cs], c as [pr nm cty cf df u dis b bs so sn sc sd].
  unfold jffs2_register_compressor. destruct nm as [nm|]; intros E Hc; simplify_eq; simpl in *.
  - set (x := Compressor _ _ _ _ _ _ _ _ _ _ _ _ _).
    assert (Hty : ty <> cty \/ decoder l cty = None) by tauto. clear Hc.
    induction l as [|y l IH]; cbn [insert_priority decoder snd]; [done|].
    destruct (priority y.2 <? _); cbn [decoder snd]; [done|]. cbn [decoder] in Hty.
    destruct (Z.eqb_spec ty (compr y.2)) as [->|Hn].
    + destruct (Z.eqb_spec (compr y.2) cty) as [E|]; [|done].
      rewrite E, Z.eqb_refl in Hty. by destruct Hty.
    + rewrite IH; [done|]. destruct Hty as [?|Hty]; [by left|right].
      revert Hty. by destruct (cty =? compr y.2).
  - destruct Hc as [Hc|[Hc _]]; [|done]. by rewrite (proj2 (Z.eqb_neq _ _) Hc).
Qed.

(** What U-Boot does with a result, if its decompressors undo what the
    kernel's compressors do. *)
Lemma uboot_decompress_ok l res data s d zlib_compress zlib_decompress post page at_ zlib st0 :
  result_ok data s d l res -> block_request data s d ->
  jffs2_compressors_init at_ zlib comprs_start = (0, st0) -> shape l = shape (jffs2_compressor_list st0) ->
  compr zlib = JFFS2_COMPR_ZLIB -> compress zlib = Some zlib_compress ->
  Codec zlib_compress zlib_decompress -> Forall is_byte post ->
  (Z.to_nat (c_datalen res) <= length page)%nat ->
  uboot_decompress zlib_decompress (c_type res)
    (take (Z.to_nat (c_cdatalen res)) (block_of data res) ++ post) page (c_cdatalen res) (c_datalen res) =
  Ret (Some (fill data (Z.to_nat (c_datalen res)) page)).
Proof.
  intros Hres (_ & Hs & _ & _ & Hds) Hinit Hshape Hzt Hzc Hcodec Hpost Hp.
  destruct Hres as [->|(x & f & b & e & n & Hx & [Hu Hdis] & Hprod & ->)];
    cbn [c_type c_datalen c_cdatalen] in *; unfold block_of; cbn [cpage_out default from_option id] in *;
    rewrite ?Nat2Z.id in *.
  { unfold uboot_decompress. cbn [Z.eqb JFFS2_COMPR_NONE]. by rewrite copy_into_take by lia. }
  assert (Hmem : statics x.2 = statics jffs2_rtime_comp \/ statics x.2 = statics jffs2_rubinmips_comp \/
    statics x.2 = statics jffs2_dynrubin_comp \/ statics x.2 = statics zlib).
  { destruct (shape_mem _ _ _ Hshape Hx) as (y & Hy & Ey). rewrite <-Ey. clear -Hinit Hy.
    unfold jffs2_compressors_init, jffs2_rtime_init, jffs2_rubinmips_init, jffs2_dynrubin_init in Hinit.
    destruct (jffs2_register_compressor comprs_start _ _) as [r1 st1] eqn:E1.
    destruct (jffs2_register_compressor st1 _ _) as [r2 st2] eqn:E2.
    destruct (jffs2_register_compressor st2 _ _) as [r3 st3] eqn:E3.
    destruct (jffs2_register_compressor st3 _ _) as [r4 st4] eqn:E4. simplify_eq.
    apply (register_mem _ _ _ _ _ _ E4) in Hy as [Hy|Hy]; [|auto].
    apply (register_mem _ _ _ _ _ _ E3) in Hy as [Hy|Hy]; [|auto].
    apply (register_mem _ _ _ _ _ _ E2) in Hy as [Hy|Hy]; [|auto].
    apply (register_mem _ _ _ _ _ _ E1) in Hy as [Hy|Hy]; [by apply not_elem_of_nil in Hy|auto]. }
  destruct Hmem as [E|[E|[E|E]]]; apply statics_inv in E as (_ & _ & Et & Ec & _ & Ed); rewrite Et.
  - simpl in Ec. rewrite Ec in Hu. simplify_eq.
    pose proof (produced_decodes data s d _ _ b e n uboot_rtime_codec Hprod post page Hpost Hp) as H.
    unfold uboot_rtime in H. change (uboot_decompress zlib_decompress (compr jffs2_rtime_comp)) with
      (fun src dest csize dsize => let! dest := rtime_decompress src dest csize dsize in Ret (Some dest)).
    cbn beta. destruct (rtime_decompress _ _ _ _); [|done]. by simplify_eq.
  - rewrite Ed in Hdis. done.
  - rewrite Ed in Hdis. done.
  - rewrite Ec, Hzc in Hu. simplify_eq. rewrite Hzt.
    pose proof (produced_decodes data s d _ _ b e n Hcodec Hprod post page Hpost Hp) as H.
    change (uboot_decompress zlib_decompress JFFS2_COMPR_ZLIB) with
      (fun src dest csize dsize =>
         let! (_, dest) := zlib_decompress src dest csize dsize in Ret (Some dest)).
    cbn beta. by rewrite H.
Qed.

(** ** Theorems *)

(** C5 (what is compressed is decompressed).  For compressors that keep
    [Codec], [jffs2_compress] returns in every mode, whatever [kmalloc]
    answers: the block itself or at most [cdatalen] bytes, standing for the
    first [*datalen] bytes of the block.  [jffs2_decompress] restores them, in
    every later state in which the types have the same decompressors, and
    whatever follows the bytes. *)
Theorem compress_decompress st answers data s d :
  comprs_ok st -> Forall (granted d) answers -> block_request data s d ->
  exists res st' answers' e n,
    jffs2_compress st answers data (Z.of_nat s) (Z.of_nat d) = Ret (res, st', answers') /\
    comprs_ok st' /\ c_datalen res = Z.of_nat e /\ c_cdatalen res = Z.of_nat n /\
    (e <= s)%nat /\ (0 < n <= d)%nat /\ (n <= e)%nat /\ (n <= length (block_of data res))%nat /\
    forall st2 post page,
      (forall ty, decoder (jffs2_compressor_list st2) ty = decoder (jffs2_compressor_list st) ty) ->
      Forall is_byte post -> (e <= length page)%nat ->
      exists st3, jffs2_decompress st2 (c_type res) (take n (block_of data res) ++ post) page
          (Z.of_nat n) (Z.of_nat e) = Ret (0, fill data e page, st3).
Proof.
  intros Hok Ha Hreq. pose proof Hreq as (_ & Hs & _ & Hd2 & Hds).
  destruct (jffs2_compress_ok data s d Hreq st answers Hok Ha) as (res & st' & ans & E & _ & Hok' & _ & Hres).
  destruct Hres as [->|(x & f & b & e & n & Hx & [Hu _] & Hprod & ->)].
  - exists (Compressed JFFS2_COMPR_NONE None (Z.of_nat d) (Z.of_nat d)), st', ans, d, d.
    change (block_of data _) with data.
    split_and!; try done; try lia. intros st2 post page _ _ Hp.
    unfold jffs2_decompress. cbn -[copy_into]. rewrite copy_into_take by lia. destruct st2. by eexists.
  - pose proof Hprod as (He & Hn & Hne & Hnd & Hnb & _).
    exists (Compressed (compr x.2) (Some b) (Z.of_nat e) (Z.of_nat n)), st', ans, e, n.
    change (block_of data _) with b. split_and!; try done; try lia. intros st2 post page Hdec Hpost Hp.
    destruct Hok as (Hl & _ & Ht & _).
    pose proof (proj1 (Forall_forall _ _) Hl x Hx) as ((Hc & Hty & H0 & H1) & _).
    apply (jffs2_decompress_typed st2 _ (decompress x.2)); [done..| |].
    + rewrite Hdec. by apply decoder_mem.
    + apply (produced_decodes data s d f); [by apply Hc|done..].
Qed.

(** C17 (the list of compressors).  Whatever the kernel does with the routines
    of compr.c, as long as new compressors keep [Codec] and have a type and
    an address of their own: addresses and types stay different, the buffer a
    compressor keeps has the size that is noted, priorities fall along the
    list, and all compressors keep [Codec]. *)
Theorem compressors_invariant st : rtc api comprs_start st -> comprs_ok st.
Proof.
  intros H. remember comprs_start as st0 eqn:E. assert (Hok : comprs_ok st0)
    by (subst; apply comprs_start_ok). clear E. induction H as [|st0 st1 st2 Hs _ IH]; [done|].
  by apply IH, (api_ok st0).
Qed.

(** A zlib that never succeeds, and one address for each structure. *)
Definition no_zlib : compress_fn := fun data out s d => Ret (-1, out, s, d).
Definition no_unzlib : decompress_fn := fun src dest c d => Ret (0, dest).
Definition zlib_stub : jffs2_compressor :=
  Compressor 60 (Some [122; 108; 105; 98]) JFFS2_COMPR_ZLIB (Some no_zlib) no_unzlib
    0 false None 0 0 0 0 0.
Definition addrs0 : comp_addrs := CompAddrs 1 2 3 4.

Lemma no_zlib_codec : Codec no_zlib no_unzlib.
Proof.
  intros data out s d (_ & Hout & _). exists out. split; [by split_and!|]. left. by exists (-1).
Qed.

Lemma zlib_stub_ok : codec_ok zlib_stub.
Proof. split; [intros f [= <-]; apply no_zlib_codec|]. by vm_compute. Qed.

(** The list with all four. *)
Definition comprs0 : comprs := (jffs2_compressors_init addrs0 zlib_stub comprs_start).2.

(** That an address or a type of a concrete list is new. *)
Ltac is_new := apply (bool_decide_eq_true_1 _); by vm_compute.

Lemma comprs0_steps :
  exists st1 st2 st3, api comprs_start st1 /\ api st1 st2 /\ api st2 st3 /\ api st3 comprs0.
Proof.
  do 3 eexists. split_and!.
  - eapply (api_register _ 1 zlib_stub); [apply zlib_stub_ok|is_new|is_new|done].
  - eapply (api_register _ 2 jffs2_rtime_comp); [apply rtime_comp_ok|is_new|is_new|done].
  - eapply (api_register _ 3 jffs2_rubinmips_comp); [apply rubinmips_comp_ok|is_new|is_new|done].
  - eapply (api_register _ 4 jffs2_dynrubin_comp); [apply dynrubin_comp_ok|is_new|is_new|done].
Qed.

Lemma comprs0_ok : comprs_ok comprs0.
Proof.
  destruct comprs0_steps as (st1 & st2 & st3 & S1 & S2 & S3 & S4).
  apply (api_ok st3), (api_ok st2), (api_ok st1), (api_ok comprs_start), comprs_start_ok; done.
Qed.

Lemma compressors_invariant_witness : rtc api comprs_start comprs0 /\ comprs_ok comprs0.
Proof.
  assert (H : rtc api comprs_start comprs0).
  { destruct comprs0_steps as (st1 & st2 & st3 & S1 & S2 & S3 & S4).
    eapply rtc_l; [exact S1|]. eapply rtc_l; [exact S2|]. eapply rtc_l; [exact S3|]. by apply rtc_once. }
  split; [exact H|]. by apply (compressors_invariant comprs0).
Defined.

Definition sample : mem := [7; 7; 7; 7; 1; 2; 7; 1; 2; 7].

Lemma sample_request : block_request sample 10 9.
Proof.
  unfold block_request, PAGE_CACHE_SIZE. split_and!; try (simpl; lia).
  repeat constructor; unfold word; lia.
Qed.

Lemma sample_granted : Forall (granted 9) [Some (replicate 9 170)].
Proof.
  constructor; [|done]. intros b [= <-]. split; [|done]. repeat constructor; unfold word; lia.
Qed.

Lemma compress_decompress_witness :
  exists res st' answers' e n,
    jffs2_compress comprs0 [Some (replicate 9 170)] sample (Z.of_nat 10) (Z.of_nat 9) =
      Ret (res, st', answers') /\
    comprs_ok st' /\ c_datalen res = Z.of_nat e /\ c_cdatalen res = Z.of_nat n /\
    (e <= 10)%nat /\ (0 < n <= 9)%nat /\ (n <= e)%nat /\ (n <= length (block_of sample res))%nat /\
    forall st2 post page,
      (forall ty, decoder (jffs2_compressor_list st2) ty = decoder (jffs2_compressor_list comprs0) ty) ->
      Forall is_byte post -> (e <= length page)%nat ->
      exists st3, jffs2_decompress st2 (c_type res) (take n (block_of sample res) ++ post) page
          (Z.of_nat n) (Z.of_nat e) = Ret (0, fill sample e page, st3).
Proof.
  apply (compress_decompress comprs0 [Some (replicate 9 170)] sample 10 9).
  - exact comprs0_ok.
  - exact sample_granted.
  - exact sample_request.
Defined.

(** C16 (the boot loader reads what the kernel writes).  With the compressors
    and the flags of [jffs2_compressors_init], whatever blocks the kernel has
    compressed or decompressed before, U-Boot restores a block that it
    compressed, provided that its zlib undoes the kernel's. *)
Theorem uboot_reads_blocks at_ zlib zlib_compress zlib_decompress st0 st answers data s d :
  jffs2_compressors_init at_ zlib comprs_start = (0, st0) ->
  compr zlib = JFFS2_COMPR_ZLIB -> compress zlib = Some zlib_compress ->
  Codec zlib_compress zlib_decompress ->
  comprs_ok st -> shape (jffs2_compressor_list st) = shape (jffs2_compressor_list st0) ->
  Forall (granted d) answers -> block_request data s d ->
  exists res st' answers' e n,
    jffs2_compress st answers data (Z.of_nat s) (Z.of_nat d) = Ret (res, st', answers') /\
    shape (jffs2_compressor_list st') = shape (jffs2_compressor_list st0) /\
    c_datalen res = Z.of_nat e /\ c_cdatalen res = Z.of_nat n /\ (0 < n <= d)%nat /\
    forall post page, Forall is_byte post -> (e <= length page)%nat ->
      uboot_decompress zlib_decompress (c_type res) (take n (block_of data res) ++ post) page
        (Z.of_nat n) (Z.of_nat e) = Ret (Some (fill data e page)).
Proof.
  intros Hinit Hzt Hzc Hcodec Hok Hsh Ha Hreq. pose proof Hreq as (_ & _ & _ & Hd2 & _).
  destruct (jffs2_compress_ok data s d Hreq st answers Hok Ha) as (res & st' & ans & E & Esh & _ & _ & Hres).
  assert (H : exists e n, c_datalen res = Z.of_nat e /\ c_cdatalen res = Z.of_nat n /\ (0 < n <= d)%nat).
  { destruct Hres as [->|(x & f & b & e & n & _ & _ & (_ & Hn & _ & Hnd & _) & ->)];
      [exists d, d|exists e, n]; simpl; split_and!; done || lia. }
  destruct H as (e & n & Ee & En & Hn). exists res, st', ans, e, n. split_and!; try done; try lia.
  { by rewrite Esh. }
  intros post page Hpost Hp.
  pose proof (uboot_decompress_ok _ res data s d zlib_compress zlib_decompress post page at_ zlib st0
    Hres Hreq Hinit Hsh Hzt Hzc Hcodec Hpost) as U.
  rewrite Ee, En, !Nat2Z.id in U. by apply U.
Qed.

Lemma uboot_reads_blocks_witness :
  exists res st' answers' e n,
    jffs2_compress comprs0 [Some (replicate 9 170)] sample (Z.of_nat 10) (Z.of_nat 9) =
      Ret (res, st', answers') /\
    shape (jffs2_compressor_list st') = shape (jffs2_compressor_list comprs0) /\
    c_datalen res = Z.of_nat e /\ c_cdatalen res = Z.of_nat n /\ (0 < n <= 9)%nat /\
    forall post page, Forall is_byte post -> (e <= length page)%nat ->
      uboot_decompress no_unzlib (c_type res) (take n (block_of sample res) ++ post) page
        (Z.of_nat n) (Z.of_nat e) = Ret (Some (fill sample e page)).
Proof.
  apply (uboot_reads_blocks addrs0 zlib_stub no_zlib no_unzlib comprs0 comprs0
    [Some (replicate 9 170)] sample 10 9).
  - reflexivity.
  - reflexivity.
  - reflexivity.
  - exact no_zlib_codec.
  - exact comprs0_ok.
  - reflexivity.
  - exact sample_granted.
  - exact sample_request.
Defined.

(** [comprs0] with [jffs2_dynrubin_compress] in use instead of rtime. *)
Definition comprs1 : comprs :=
  (jffs2_enable_compressor_name (jffs2_disable_compressor_name comprs0 name_rtime).2 name_dynrubin).2.

(** C40 (the types of the Rubin compressors are exchanged).  compr_rubin.c
    registers the compressor with a table as RUBINMIPS and the decompressor
    with fixed probabilities as DYNRUBIN.  So the kernel marks what
    [jffs2_dynrubin_compress] makes as RUBINMIPS, which U-Boot rejects; and
    what is marked DYNRUBIN, which U-Boot takes to have a table, the kernel
    decompresses with the fixed probabilities. *)
Theorem rubin_types_exchanged at_ zlib st0 zlib_decompress block page c d page' :
  jffs2_compressors_init at_ zlib comprs_start = (0, st0) -> compr zlib = JFFS2_COMPR_ZLIB ->
  jffs2_rubinmips_decompress block page c d = Ret (0, page') ->
  match jffs2_compress comprs1 [Some (replicate 40 170)] (replicate 40 3) 40 40 with
  | Ret (res, _, _) => c_type res = JFFS2_COMPR_RUBINMIPS
  | Err _ => False
  end /\
  uboot_decompress zlib_decompress JFFS2_COMPR_RUBINMIPS block page c d = Ret None /\
  (exists st, jffs2_decompress st0 JFFS2_COMPR_DYNRUBIN block page c d = Ret (0, page', st)) /\
  uboot_decompress zlib_decompress JFFS2_COMPR_DYNRUBIN block page c d =
    (let! page := dynrubin_decompress block page c d in Ret (Some page)).
Proof.
  intros Hinit Hzt Hp. split; [by vm_compute|]. split; [done|]. split; [|done].
  eapply jffs2_decompress_typed; [by vm_compute|done|done| |exact Hp]. clear Hp.
  unfold jffs2_compressors_init, jffs2_rtime_init, jffs2_rubinmips_init, jffs2_dynrubin_init in Hinit.
  destruct (jffs2_register_compressor comprs_start _ _) as [r1 st1] eqn:E1.
  destruct (jffs2_register_compressor st1 _ _) as [r2 st2] eqn:E2.
  destruct (jffs2_register_compressor st2 _ _) as [r3 st3] eqn:E3.
  destruct (jffs2_register_compressor st3 _ _) as [r4 st4] eqn:E4. simplify_eq.
  rewrite (register_decoder _ _ _ _ _ _ E4) by (by left). simpl compr. simpl (_ =? _). cbn iota.
  rewrite (register_decoder _ _ _ _ _ _ E3); [done|right]. split; [done|].
  rewrite (register_decoder _ _ _ _ _ _ E2) by (by left). simpl compr. simpl (_ =? _). cbn iota.
  rewrite (register_decoder _ _ _ _ _ _ E1) by (left; by rewrite Hzt). by rewrite Hzt.
Qed.

Lemma rubin_types_exchanged_witness :
  match jffs2_compress comprs1 [Some (replicate 40 170)] (replicate 40 3) 40 40 with
  | Ret (res, _, _) => c_type res = JFFS2_COMPR_RUBINMIPS
  | Err _ => False
  end /\
  uboot_decompress no_unzlib JFFS2_COMPR_RUBINMIPS [1; 2; 3; 4] [0] 4 1 = Ret None /\
  (exists st, jffs2_decompress comprs0 JFFS2_COMPR_DYNRUBIN [1; 2; 3; 4] [0] 4 1 = Ret (0, [0], st)) /\
  uboot_decompress no_unzlib JFFS2_COMPR_DYNRUBIN [1; 2; 3; 4] [0] 4 1 =
    (let! page := dynrubin_decompress [1; 2; 3; 4] [0] 4 1 in Ret (Some page)).
Proof.
  apply (rubin_types_exchanged addrs0 zlib_stub comprs0 no_unzlib [1; 2; 3; 4] [0] 4 1 [0]);
    [reflexivity|reflexivity|vm_compute; reflexivity].
Defined.
